(* ===== verification/_CoqProject ===== *)
-Q . S2P
Prelude.v
RustStd.v
Error.v
Varint.v
Value.v
Doc.v
DocFacts.v
DocCodec.v
DocAccess.v
DocProps.v
Config.v
Crypto.v
VFile.v
Wal.v
WalFacts.v
Models.v
WalProps.v
StorageIndex.v
StorageIndexFacts.v
PageCache.v
Segment.v
SegmentFacts.v
Blob.v
Storage.v
StorageMaint.v
StorageFacts.v
StorageView.v
StorageCompact.v
StorageReopen.v
StorageModels.v
StorageProps.v
IndexKey.v
Filter.v
Schema.v
Composite.v
CompositeFacts.v
Ledger.v
CompositeManager.v
IndexProps.v
Traverse.v
Query.v
Matcher.v
MatcherFacts.v
Worker.v
TermIndex.v
IndexManager.v
IndexManagerFacts.v
Planner.v
PlannerFacts.v
SortFacts.v
Executor.v
ExecutorFacts.v
QueryAnswers.v
QueryProps.v
SyncCore.v
SyncFacts.v
SyncProps.v
Facade.v
FacadeFacts.v
FacadeApply.v
FacadeState.v
FacadeProps.v
Graph.v
WalkFacts.v
GraphAnalysis.v
GraphFacts.v
GraphProps.v
GraphQuery.v
PlanCache.v
Pipeline.v
QueryFront.v
Softdel.v
Cloud.v
CloudProps.v
Mesh.v
Collections.v
Json.v
JsonProps.v
JsonFront.v
Aggregate.v
