(* ===== verification/Prelude.v ===== *)
(** * Verification library for the HakoDB embedded document database

    HakoDB (src/src/) stores documents in collections.  A write is checked
    against the collection's schema and the claims of its unique indexes, encoded
    to bytes, appended to the collection's write-ahead log and entered in an
    in-memory key index; values of 4 KiB and more go to append-only segment
    files, very large ones to a blob file.  Reads follow the index into the log
    values, the segments (through a byte-bounded page cache) or the blob file.
    Checkpoints, compaction and log rewriting move values without changing them;
    opening a collection replays its log.  Secondary, text and composite indexes
    map keys to document ids and are updated by a worker behind the writes;
    queries are planned over them, cached as plans, executed on stored bytes and
    refined by filters.  The facade ties this together: batches, versions, a
    document cache, serializable transactions, soft deletion, pipelines, searches
    in the graph of references, and replication with last-writer-wins.

    ** Files

    - Prelude: bytes, slices, machine integers and their little- and big-endian
      forms, the tactics [bool_simpl], [split_if], [zlen], the hint databases.
    - RustStd: the parts of Rust's standard library that the source uses: UTF-8
      validation, byte-string order, binary search, sorting, vectors, the order and
      the arithmetic of binary64.
    - Error (error.rs) with the result monad [res] ([Ok], [Err], [Panic]), Varint
      (util/varint.rs), Config (config.rs).
    - Value (document/value.rs): the value type, its equality and order,
      pruning.  Doc (document/hako_doc.rs): the binary document format, decoding,
      zero-copy views; DocFacts, DocCodec, DocAccess hold the lemmas and DocProps
      the properties.  Json (document/hako_doc.rs, document/value.rs): the JSON
      writers of views and of values, the word-at-a-time escape test, parsing;
      JsonProps what they show; JsonFront the JSON reads of engine/engine.rs.
    - Crypto (storage/crypto.rs): authenticated encryption over a class [Aead] of
      the cipher crate, with its documented laws in [AeadLaws].
    - VFile: a file as its bytes, the bytes a crash keeps and a cursor.
    - Wal (storage/wal.rs): record format, transactions, durability modes, group
      commit, replay, tailing, reset.  WalFacts has the log invariant, WalProps
      the properties.
    - StorageIndex (the index part of storage/engine.rs): the hash index, the
      sorted view, deferred updates, prefix and range pages, purging, counters.
      StorageIndexFacts has the invariant [idx_inv].
    - PageCache (memory/page_cache.rs), Segment (storage/segment.rs and
      storage/compaction.rs) with SegmentFacts, Blob (storage/blob.rs).
    - Storage (storage/engine.rs): the collection store, batches, reads,
      replicated operations, opening and recovery.  StorageMaint: checkpoints,
      full compaction with cancellation, tiered compaction in three phases, log
      snapshots.  StorageFacts relates log and index; StorageView defines the
      abstract store [store_view], the invariant [store_ok] and the refinement of
      batches and reads; StorageCompact is about maintenance, StorageReopen about
      closing and opening; StorageModels has concrete instances of the
      parameters, StorageProps the properties.
    - IndexKey (index/index_key.rs), Filter (query/filter.rs,
      with numbers as text), Schema (schema.rs),
      Composite and CompositeFacts (index/composite/), Ledger
      (index/composite/ledger.rs), CompositeManager (index/composite/manager.rs),
      with their properties in IndexProps.
    - Traverse (index/traverse.rs): backlinks.  TermIndex (index/secondary_index.rs,
      inverted_index.rs): term maps and text search.  IndexManager with
      IndexManagerFacts (index/manager.rs, service.rs): all families and their
      hooks, backfills and snapshots.
    - Query (query/query.rs, order.rs, plan.rs, builder.rs), Planner with
      PlannerFacts (query/planner.rs), PlanCache (query/plan_cache.rs), Matcher
      with MatcherFacts and Worker (query/executor/worker.rs, scheduler.rs), Executor
      with ExecutorFacts (query/executor/executor.rs), SortFacts on sorting and
      bounded heaps, QueryAnswers on plans and execution together, QueryProps the
      properties.  Pipeline (query/pipeline.rs).  Aggregate:
      counts, sums, averages and extremes of the executor and of the facade.
    - SyncCore, SyncFacts, SyncProps (sync_core.rs, sync_frame.rs, sync_guard.rs,
      cancel.rs): replication.
    - Facade (engine/engine.rs, engine/softdel.rs): the database, its write path,
      point reads, transactions, restore; FacadeFacts and FacadeApply on the two
      halves of a batch, FacadeState the invariant [state_ok], FacadeProps the
      properties and corner cases.  QueryFront:
      queries, walks, explanations, pipelines and writes by query of the facade.
      Softdel: sweeps of retention records.  Collections: moving documents between
      collections, unloading and loading, compaction and flushing of every
      collection, dropping, with their properties and corner cases.
    - Cloud with CloudProps (cloud_sync.rs and the marks, gates and versions of
      engine/engine.rs): what is withheld from synchronisation, the server with its
      admission, catch-up, ingest, relay and tailer, and its clients.  Mesh
      (net_sync.rs, socket_sync.rs): the mesh of peers and pairs on a socket, with
      their properties and corner cases.
    - Graph (walks), GraphAnalysis (components, cycles, topological order,
      degrees), GraphQuery (traverse queries), all of engine/engine.rs; WalkFacts
      and GraphFacts hold the lemmas, GraphProps the properties.
    - Models: instances of the parameters for applications.

    ** Correspondence

    Records and inductive types have the fields and constructors of the source.
    A method that mutates [self] takes the record and returns the new one; the
    storage engine and the facade are state-and-error monads ([SR]), so that an
    early return keeps the changes made before it.  [Err] is a returned error and
    [Panic] an abort (an index out of range, an [unwrap]).  Locks: an operation
    that holds a lock throughout is one step; tiered compaction, which releases it
    between its phases, is three steps with other writers' batches in between; a
    transaction has other clients' batches between its reads and its commit and, as its
    lock keeps out commits only, also before every check of the commit and before its
    write ([finds]); a connection to a room is checked, enters and is answered in three
    steps.  A batch of the facade takes the locks of its collections in turn; batches
    are modelled one after the other.  Hash
    maps are [gmap]s; where the code iterates over one, the order is the parameter
    [hash_iter] or [std_iter] ([HashIterLaws], [StdIterLaws]: some permutation of
    the entries).  A [BTreeMap] is the list of its entries in key order, a
    [BinaryHeap] the list of its elements in the order in which it gives them up.
    The clock, the transaction ids and the answers of a cancellation token are
    arguments.  What a power loss leaves of a file is its prefix at the last sync
    ([VFile.synced]) or, for a write that was under way, any prefix of it.  Graph
    searches take what [Hako::get] answers and the index manager as arguments.
    A connection is a number and what is written to it goes to a list in order; the
    record [Moment] has what a step finds outside: clocks, and which channels take
    a message.  A handler of a message is one step, between which others may come.
    Queries have no cancellation token and no row cache.  Which partial sums the
    scanning threads produce, and in which order they arrive, are the parameters
    [partial] and [arrival] of Aggregate.

    Code outside the repository is a parameter with named laws: the CRC-32
    function ([Crc]: its result is a 32-bit number), zstd ([Zstd]: decoding undoes
    encoding), the cipher ([Aead]: opening undoes sealing under the same key and
    nonce), the key derivation, SHA-256, bincode and MessagePack (decoding undoes encoding), the
    Unicode predicates and mappings, the finishing function of the default hasher
    and the debug text of a value (no laws), the decimal digits of integers and
    floats in JSON ([itoa], [number]).  The candidates of a vector scan are
    an argument as well (index/vector.rs is not modelled).  Every property that
    uses them is applied to concrete instances.

    ** What is shown

    - Store (StorageProps).  A batch acts on the abstract map from keys to values
      as its puts and deletes do, or not at all; a get returns the abstract value,
      through the cache or not; checkpoints, compaction and log snapshots change
      no value, at whatever check they are cancelled; tiered compaction with
      batches between its phases has the effect of those batches; a flushed store
      opens again as the same map.  The index invariant makes batched and single
      updates agree, and range pages are slices of the sorted live keys.
    - Log (WalProps).  A crash inside a transaction recovers all or none of it
      and everything committed before; a batch that returned in a durable mode
      survives a crash; replay keeps the complete records before any damage;
      encoding and decoding are inverse; nonces do not repeat.
    - Documents (DocProps).  Decoding inverts encoding on documents whose names
      and numbers fit the format; no extension of a document is one; views,
      projections and paths read what decoding gives; the value order is a
      preorder on values without large integers next to floats.
    - Write checks and indexes (IndexProps).  Claims are exclusive, rollback
      restores them, and the recovery fold rebuilds them from the tree or refuses
      on a duplicate; a composite index holds exactly its documents' rows and an
      equality scan returns exactly the matching documents, also through the
      registry after whatever calls, of what the index used has been given ([mg_step]);
      a schema accepts what its
      rules admit and what it accepts satisfies them; direct keys are the keys
      of decoded values; filters decide as the value order.
    - Queries (QueryProps, PlanCache, Pipeline).  The matchers on stored
      bytes decide as the filters on documents; every path of the executor gives
      the reference answer; a full scan returns exactly the matching documents,
      and an equality has the same answer through the index; plans limit their
      scans only where that is safe; partial indexes are complete for the queries
      they are used for; the worker keeps the indexes exact for new documents.
      The plan cache is transparent as long as the hash tells queries apart; group
      stages compute the reference aggregates, and stages keep documents well formed.
      An indexed or scanned count is exact up to 2^53, and sums and extremes are those
      of the matching documents.
    - JSON (JsonProps, JsonFront).  The writer on stored bytes and the writer on
      decoded values print the same text; parsing inverts printing; a query that
      writes JSON prints exactly the documents it would have returned.
    - Replication (SyncProps).  A replicated batch is a last-writer-wins update;
      replicas that receive the same operations converge; frames round-trip; an
      encrypted collection is exchanged only with a peer that has its key.
    - Synchronisation (CloudProps, Mesh).  A client that joins ends with exactly the
      server's versions that are not local to it; whatever a server sees, only
      connections that knew the room are served, and at most its limit of them as far as
      handshakes do not overlap; the
      tailer sends nothing that is local or withheld; pages lose nothing and keep
      their limits; two databases on a socket converge to the newest versions; a
      mesh node answers a peer with nothing it may not have.
    - Facade (FacadeProps, QueryFront, Softdel, Collections).  A batch is all or
      nothing on all collections; unique indexes are enforced in every reachable
      state; reads through the cache are current; a serializable commit conflicts or
      finds what it read at one of its checks; a deletion by query removes exactly what matches; a sweep
      forgets exactly what is due or over the budget; moving documents loses and
      changes none of them; an unloaded collection opens again with every document;
      dropping a collection removes all of it and nothing else.
    - Graph (GraphProps).  A breadth-first walk returns the nearest documents at
      their distances and along shortest paths; topological sort, cycle search
      and components are exact with respect to the relation of edges.

    The conditions of each property are in its comment; where they exclude ordinary
    inputs, a corner case shows what happens on them.  Properties files end with, or have beside them, corner cases: inputs on which
    the code does not do what a comment or its caller expects, proved by
    computation.

    ** Bounds and fuel

    Loops that the source runs on a buffer take as fuel the length of the buffer
    (log replay, words of a string) or the nesting depth bounded by it
    ([decode_value_fuel]); lemmas show that more fuel changes nothing
    ([decode_value_fuel_irrelevant], [array_loop_fuel]).  A breadth-first walk
    takes the number of ways to reach a node within its depth ([ball]) and is shown
    to answer; the search for a cycle takes [dfs_bound], Kahn's loop the number of
    nodes, a union-find lookup the length of the parent array, the reconstruction
    of a path one more than the number of parents, each shown to suffice.  The
    weighted walk and the enumeration of simple paths have a free bound and no
    totality theorem.  Everything else is structural.  Lengths are [Z]; casts to
    narrower integers are written out ([as_u8], [as_u16], [as_u32]), and the
    hypotheses of the properties say which lengths must fit (values below 2^30
    bytes in a batch, names below 256 bytes, ids below 2^16 bytes).

    ** Not modelled

    The HNSW graphs of index/vector.rs (approximate neighbours over random
    levels); backup and chunked scans, statistics; of the facade: opening with its background
    threads, index creation and backfill threads, renaming
    collections; the files of index/storage; of synchronisation: sockets, timers, dial
    tasks and multicast discovery, and the application of a peer's index
    definitions; the C interface (ffi.rs), pointer conversions around the parts
    above. *)

From stdpp Require Import prelude list gmap strings.
From Stdlib Require Import ZArith Lia.

Local Open Scope Z_scope.

(** ** Bytes, slices and machine integers *)

(** A byte is a [Z] in [0, 256); byte strings and Rust [String]s (their UTF-8
    bytes) are lists of them. *)
Abbreviation bytes := (list Z).

Declare Scope hako_scope.
Delimit Scope hako_scope with hako.

(** The bytes of an ASCII literal of the source. *)
Definition str (s : string) : bytes :=
  (λ a, Z.of_N (Ascii.N_of_ascii a)) <$> String.list_ascii_of_string s.
Notation "'b#' s" := (str s%string) (at level 9, s at level 0) : hako_scope.

(** [usize] lengths as [Z], so that lengths read from a buffer never become
    unary numbers. *)
Definition zlen {A} (l : list A) : Z := Z.of_nat (length l).

(** [slice.get(i)]. *)
Definition get {A} (l : list A) (i : Z) : option A :=
  if (0 <=? i) && (i <? zlen l) then l !! Z.to_nat i else None.

(** [slice.get(i..j)]. *)
Definition get_range {A} (l : list A) (i j : Z) : option (list A) :=
  if (0 <=? i) && (i <=? j) && (j <=? zlen l)
  then Some (take (Z.to_nat (j - i)) (drop (Z.to_nat i) l)) else None.

Definition is_byte (b : Z) : Prop := 0 <= b < 256.
Definition is_u16 (z : Z) : Prop := 0 <= z < 2 ^ 16.
Definition is_u32 (z : Z) : Prop := 0 <= z < 2 ^ 32.
Definition is_u64 (z : Z) : Prop := 0 <= z < 2 ^ 64.
Definition is_i64 (z : Z) : Prop := - 2 ^ 63 <= z < 2 ^ 63.
Abbreviation bytes_ok := (Forall is_byte).

(** [as u8], [as u16], [as u32], [as u64], [as i64]: truncating casts. *)
Definition as_u8 (z : Z) : Z := z mod 2 ^ 8.
Definition as_u16 (z : Z) : Z := z mod 2 ^ 16.
Definition as_u32 (z : Z) : Z := z mod 2 ^ 32.
Definition as_u64 (z : Z) : Z := z mod 2 ^ 64.
Definition as_i64 (z : Z) : Z := (z + 2 ^ 63) mod 2 ^ 64 - 2 ^ 63.

(** [to_le_bytes] of an [n]-byte integer and its inverse. *)
Fixpoint to_le (n : nat) (z : Z) : bytes :=
  match n with
  | O => []
  | S n => z mod 256 :: to_le n (z / 256)
  end.
Fixpoint of_le (l : bytes) : Z :=
  match l with
  | [] => 0
  | b :: l => b + 256 * of_le l
  end.
Definition to_be (n : nat) (z : Z) : bytes := rev (to_le n z).
Definition of_be (l : bytes) : Z := of_le (rev l).

(** Signed integers are stored as their two's complement bit pattern. *)
Definition i64_to_le (z : Z) : bytes := to_le 8 (as_u64 z).
Definition i64_of_le (l : bytes) : Z := as_i64 (of_le l).
Definition i64_to_be (z : Z) : bytes := to_be 8 (as_u64 z).
Definition i64_of_be (l : bytes) : Z := as_i64 (of_be l).

(** ** Automation *)

Create HintDb hako.
Create Rewrite HintDb zlen.

(** Splits boolean guards of the source into propositions. *)
Ltac bool_simpl :=
  repeat match goal with
  | H : (_ && _)%bool = true |- _ => apply andb_true_iff in H; destruct H
  | H : (_ || _)%bool = false |- _ => apply orb_false_iff in H; destruct H
  | H : negb _ = true |- _ => apply negb_true_iff in H
  | H : negb _ = false |- _ => apply negb_false_iff in H
  | H : (_ <=? _) = true |- _ => apply Z.leb_le in H
  | H : (_ <=? _) = false |- _ => apply Z.leb_gt in H
  | H : (_ <? _) = true |- _ => apply Z.ltb_lt in H
  | H : (_ <? _) = false |- _ => apply Z.ltb_ge in H
  | H : (_ =? _) = true |- _ => apply Z.eqb_eq in H
  | H : (_ =? _) = false |- _ => apply Z.eqb_neq in H
  | H : bool_decide _ = true |- _ => apply bool_decide_eq_true in H
  | H : bool_decide _ = false |- _ => apply bool_decide_eq_false in H
  end.

(** Case analysis on the first boolean guard of the goal. *)
Ltac split_if :=
  match goal with
  | |- context [if ?b then _ else _] =>
      lazymatch b with
      | context [if _ then _ else _] => fail
      | _ => let E := fresh "Hg" in destruct b eqn:E
      end
  end; bool_simpl.
Tactic Notation "split_if" "in" hyp(H) :=
  match type of H with
  | context [if ?b then _ else _] =>
      lazymatch b with
      | context [if _ then _ else _] => fail
      | _ => let E := fresh "Hg" in destruct b eqn:E
      end
  end; bool_simpl.

Tactic Notation "split_if" "as" ident(E) :=
  match goal with
  | |- context [if ?b then _ else _] =>
      lazymatch b with
      | context [if _ then _ else _] => fail
      | _ => destruct b eqn:E
      end
  end; bool_simpl.

(** Splits a computation of the option monad that is known to succeed. *)
Ltac inv_some :=
  repeat match goal with
  | H : (match ?x with Some _ => _ | None => None end) = Some _ |- _ =>
      let E := fresh "Hb" in destruct x eqn:E; [|discriminate H]
  | H : Some _ = Some _ |- _ => injection H as H; subst
  end.

(** One step of the option monad, without unfolding anything else. *)
Ltac opt_simpl := cbn [fmap option_fmap option_map mbind option_bind].
Tactic Notation "opt_simpl" "in" hyp(H) :=
  cbn [fmap option_fmap option_map mbind option_bind] in H.

(** ** Lemmas on lengths and slices *)

Lemma zlen_nonneg {A} (l : list A) : 0 <= zlen l.
Proof. unfold zlen; lia. Qed.

Lemma zlen_nil {A} : zlen (@nil A) = 0.
Proof. done. Qed.

Lemma zlen_cons {A} (x : A) l : zlen (x :: l) = 1 + zlen l.
Proof. unfold zlen; simpl length; lia. Qed.

Lemma zlen_app {A} (l1 l2 : list A) : zlen (l1 ++ l2) = zlen l1 + zlen l2.
Proof. unfold zlen; rewrite length_app; lia. Qed.

Lemma zlen_fmap {A B} (f : A → B) (l : list A) : zlen (f <$> l) = zlen l.
Proof. unfold zlen; by rewrite length_fmap. Qed.

Lemma zlen_rev {A} (l : list A) : zlen (rev l) = zlen l.
Proof. unfold zlen; by rewrite length_rev. Qed.

Lemma zlen_to_le n z : zlen (to_le n z) = Z.of_nat n.
Proof.
  revert z; induction n as [|n IH]; intros z; [done|].
  cbn [to_le]; rewrite zlen_cons, IH; lia.
Qed.

Lemma zlen_to_be n z : zlen (to_be n z) = Z.of_nat n.
Proof. unfold to_be; rewrite zlen_rev; apply zlen_to_le. Qed.

Lemma zlen_replicate {A} n (x : A) : zlen (replicate n x) = Z.of_nat n.
Proof. unfold zlen; by rewrite length_replicate. Qed.

Lemma zlen_0_inv {A} (l : list A) : zlen l = 0 → l = [].
Proof. destruct l; [done|]; rewrite zlen_cons; pose proof (zlen_nonneg l); lia. Qed.

Lemma zlen_i64_to_le z : zlen (i64_to_le z) = 8.
Proof. apply (zlen_to_le 8). Qed.

Lemma zlen_i64_to_be z : zlen (i64_to_be z) = 8.
Proof. apply (zlen_to_be 8). Qed.

Global Hint Rewrite @zlen_nil @zlen_cons @zlen_app @zlen_fmap @zlen_rev
  zlen_to_le zlen_to_be @zlen_replicate zlen_i64_to_le zlen_i64_to_be : zlen.

(** Linear arithmetic over lengths of concatenations. *)
Ltac zlen :=
  autorewrite with zlen in *;
  repeat match goal with
  | |- context [zlen ?l] =>
      lazymatch goal with
      | H : 0 <= zlen l |- _ => fail
      | _ => pose proof (zlen_nonneg l)
      end
  | H : context [zlen ?l] |- _ =>
      lazymatch goal with
      | H : 0 <= zlen l |- _ => fail
      | _ => pose proof (zlen_nonneg l)
      end
  end; lia.

Lemma get_mid {A} (pre : list A) x post i :
  i = zlen pre → get (pre ++ x :: post) i = Some x.
Proof.
  intros ->. unfold get. split_if; [|apply andb_false_iff in Hg; destruct Hg; bool_simpl; zlen].
  unfold zlen; rewrite Nat2Z.id. by apply list_lookup_middle.
Qed.

Lemma get_range_mid {A} (pre m post : list A) i j :
  i = zlen pre → j = i + zlen m → get_range (pre ++ m ++ post) i j = Some m.
Proof.
  intros -> ->. unfold get_range. split_if.
  - f_equal. unfold zlen.
    replace (Z.to_nat (Z.of_nat (length pre))) with (length pre) by lia.
    replace (Z.to_nat (Z.of_nat (length pre) + Z.of_nat (length m) - Z.of_nat (length pre)))
      with (length m) by lia.
    by rewrite drop_app_length, take_app_length.
  - apply andb_false_iff in Hg as [Hg|Hg]; [apply andb_false_iff in Hg as [Hg|Hg]|]; bool_simpl; zlen.
Qed.

(** Injectivity of cons that does not simplify its arguments. *)
Lemma cons_inv {A} (x y : A) l k : x :: l = y :: k → x = y ∧ l = k.
Proof. intros H; by simplify_eq. Qed.

Lemma get_Some_lt {A} (l : list A) i x : get l i = Some x → 0 <= i < zlen l.
Proof. unfold get; intros H. split_if in H; [lia|done]. Qed.

Lemma get_lookup {A} (l : list A) i x : get l i = Some x → l !! Z.to_nat i = Some x.
Proof. unfold get; intros H. split_if in H; done. Qed.

Lemma get_range_Some {A} (l : list A) i j m :
  get_range l i j = Some m →
  0 <= i <= j ∧ j <= zlen l ∧ zlen m = j - i ∧
  l = take (Z.to_nat i) l ++ m ++ drop (Z.to_nat j) l.
Proof.
  unfold get_range; split_if; intros Hm; [|done]. injection Hm as <-.
  unfold zlen in *.
  assert (Z.to_nat j = (Z.to_nat i + Z.to_nat (j - i))%nat) as Hj by lia.
  split_and!; try lia.
  - rewrite length_take, length_drop; lia.
  - rewrite Hj, <-drop_drop, take_drop, take_drop; done.
Qed.

Lemma get_range_zlen {A} (l : list A) i j m : get_range l i j = Some m → zlen m = j - i.
Proof. intros H%get_range_Some; lia. Qed.

Lemma Forall_get_range {A} (P : A → Prop) l i j m :
  Forall P l → get_range l i j = Some m → Forall P m.
Proof.
  unfold get_range; split_if; intros HF Hm; [|done]. injection Hm as <-.
  by apply Forall_take, Forall_drop.
Qed.

Lemma Forall_get {A} (P : A → Prop) l i x : Forall P l → get l i = Some x → P x.
Proof. intros HF Hx%get_lookup. by eapply Forall_lookup_1. Qed.

(** ** Lemmas on integers and their byte representation *)

Lemma as_u8_id z : is_byte z → as_u8 z = z.
Proof. intros; unfold as_u8, is_byte in *; apply Z.mod_small; lia. Qed.
Lemma as_u16_id z : is_u16 z → as_u16 z = z.
Proof. intros; unfold as_u16, is_u16 in *; apply Z.mod_small; lia. Qed.
Lemma as_u32_id z : is_u32 z → as_u32 z = z.
Proof. intros; unfold as_u32, is_u32 in *; apply Z.mod_small; lia. Qed.
Lemma as_u64_id z : is_u64 z → as_u64 z = z.
Proof. intros; unfold as_u64, is_u64 in *; apply Z.mod_small; lia. Qed.

Lemma as_i64_u64 z : is_i64 z → as_i64 (as_u64 z) = z.
Proof.
  unfold as_i64, as_u64, is_i64; intros.
  rewrite Zplus_mod_idemp_l, Z.mod_small by lia; lia.
Qed.
Lemma as_u64_range z : is_u64 (as_u64 z).
Proof. unfold is_u64, as_u64; apply Z.mod_pos_bound; lia. Qed.
Lemma as_i64_range z : is_i64 (as_i64 z).
Proof.
  unfold is_i64, as_i64.
  pose proof (Z.mod_pos_bound (z + 2 ^ 63) (2 ^ 64) ltac:(lia)); lia.
Qed.
Lemma as_i64_id z : is_i64 z → as_i64 z = z.
Proof. unfold as_i64, is_i64; intros; rewrite Z.mod_small; lia. Qed.

Lemma of_le_to_le n z : 0 <= z < 256 ^ Z.of_nat n → of_le (to_le n z) = z.
Proof.
  revert z; induction n as [|n IH]; intros z Hz; cbn [to_le of_le].
  - change (256 ^ Z.of_nat 0) with 1 in Hz; lia.
  - rewrite Nat2Z.inj_succ, Z.pow_succ_r in Hz by lia.
    rewrite IH; [pose proof (Z.div_mod z 256 ltac:(lia)); lia|].
    split; [apply Z.div_pos; lia|apply Z.div_lt_upper_bound; lia].
Qed.

Lemma of_be_to_be n z : 0 <= z < 256 ^ Z.of_nat n → of_be (to_be n z) = z.
Proof. intros; unfold of_be, to_be; rewrite rev_involutive; by apply of_le_to_le. Qed.

Lemma to_le_ok n z : bytes_ok (to_le n z).
Proof.
  revert z; induction n as [|n IH]; intros z; constructor; [|apply IH].
  unfold is_byte; apply Z.mod_pos_bound; lia.
Qed.

Lemma of_le_bound l : bytes_ok l → 0 <= of_le l < 256 ^ zlen l.
Proof.
  induction 1 as [|b l Hb Hl IH]; [done|].
  rewrite zlen_cons, Z.pow_add_r by (pose proof (zlen_nonneg l); lia).
  cbn [of_le]; unfold is_byte in Hb; change (256 ^ 1) with 256; lia.
Qed.

Lemma of_le_to_le_u16 z : is_u16 z → of_le (to_le 2 z) = z.
Proof. intros; apply of_le_to_le; unfold is_u16 in *; change (256 ^ Z.of_nat 2) with (2 ^ 16); lia. Qed.
Lemma of_le_to_le_u32 z : is_u32 z → of_le (to_le 4 z) = z.
Proof. intros; apply of_le_to_le; unfold is_u32 in *; change (256 ^ Z.of_nat 4) with (2 ^ 32); lia. Qed.
Lemma of_le_to_le_u64 z : is_u64 z → of_le (to_le 8 z) = z.
Proof. intros; apply of_le_to_le; unfold is_u64 in *; change (256 ^ Z.of_nat 8) with (2 ^ 64); lia. Qed.

Lemma i64_of_to_le z : is_i64 z → i64_of_le (i64_to_le z) = z.
Proof.
  intros; unfold i64_of_le, i64_to_le.
  rewrite of_le_to_le_u64 by apply as_u64_range. by apply as_i64_u64.
Qed.

Lemma i64_of_to_be z : is_i64 z → i64_of_be (i64_to_be z) = z.
Proof.
  intros; unfold i64_of_be, i64_to_be.
  rewrite of_be_to_be; [by apply as_i64_u64|].
  pose proof (as_u64_range z) as Hr; unfold is_u64 in Hr; done.
Qed.

(** A decidable statement about one byte is proved by evaluating all 256 cases. *)
Lemma byte_cases (P : Z → bool) :
  forallb P (seqZ 0 256) = true → ∀ b, is_byte b → P b = true.
Proof.
  intros HP b Hb. rewrite forallb_forall in HP. apply HP, list_elem_of_In, elem_of_seqZ.
  unfold is_byte in Hb; lia.
Qed.

#[export] Hint Resolve zlen_nonneg to_le_ok as_u64_range as_i64_range : hako.
