(* ===== verification/RustStd.v ===== *)
(** * The parts of the Rust standard library that HakoDB relies on

    Byte-string ordering, [str::from_utf8], [str::split], slice binary search,
    [Vec::insert]/[Vec::remove], stable sorting, and the [f64] operations the
    database uses ([to_bits], [total_cmp], [==], [partial_cmp], [i64 as f64], sums and
    quotients).
    Everything is executable. *)

From stdpp Require Import prelude list gmap sorting.
From Stdlib Require Import ZArith Lia.
From S2P Require Import Prelude.

Local Open Scope Z_scope.

(** ** Orderings *)

(** [Ordering::then]. *)
Definition cmp_then (a b : comparison) : comparison :=
  match a with Eq => b | _ => a end.

(** A comparison function that decides a strict total order. *)
Class TotalCmp {A} (cmp : A → A → comparison) := {
  cmp_eq : ∀ a b, cmp a b = Eq ↔ a = b;
  cmp_antisym : ∀ a b, cmp b a = CompOpp (cmp a b);
  cmp_lt_trans : ∀ a b c, cmp a b = Lt → cmp b c = Lt → cmp a c = Lt
}.

Definition cmp_lt {A} (cmp : A → A → comparison) (a b : A) : Prop := cmp a b = Lt.

Section TotalCmp.
Context {A} (cmp : A → A → comparison) `{!TotalCmp cmp}.

Lemma cmp_refl a : cmp a a = Eq.
Proof. by apply cmp_eq. Qed.
Lemma cmp_gt_lt a b : cmp a b = Gt ↔ cmp b a = Lt.
Proof. rewrite (cmp_antisym (cmp:=cmp) a b). destruct (cmp a b); naive_solver. Qed.
Lemma cmp_lt_irrefl a : cmp a a ≠ Lt.
Proof. by rewrite cmp_refl. Qed.
#[export] Instance cmp_lt_transitive : Transitive (cmp_lt cmp).
Proof. intros a b c; apply cmp_lt_trans. Qed.
End TotalCmp.

#[export] Instance Z_compare_total : TotalCmp Z.compare.
Proof.
  split.
  - intros a b; apply Z.compare_eq_iff.
  - intros a b; apply Z.compare_antisym.
  - intros a b c; rewrite !Z.compare_lt_iff; lia.
Qed.

(** Lexicographic comparison of byte strings ([[u8]::cmp], [str::cmp]). *)
Fixpoint bytes_cmp (a b : bytes) : comparison :=
  match a, b with
  | [], [] => Eq
  | [], _ :: _ => Lt
  | _ :: _, [] => Gt
  | x :: a, y :: b => cmp_then (x ?= y) (bytes_cmp a b)
  end.

Definition bytes_eqb (a b : bytes) : bool := bool_decide (a = b).
Definition bytes_ltb (a b : bytes) : bool :=
  match bytes_cmp a b with Lt => true | _ => false end.
Definition bytes_leb (a b : bytes) : bool :=
  match bytes_cmp a b with Gt => false | _ => true end.

#[export] Instance bytes_cmp_total : TotalCmp bytes_cmp.
Proof.
  split.
  - intros a; induction a as [|x a IH]; intros [|y b]; simpl; try done.
    destruct (Z.compare_spec x y) as [->|Hl|Hl]; simpl.
    + rewrite IH. split; [by intros ->|by intros [= ->]].
    + split; [done|]. intros Heq; simplify_eq; lia.
    + split; [done|]. intros Heq; simplify_eq; lia.
  - intros a; induction a as [|x a IH]; intros [|y b]; simpl; try done.
    rewrite (Z.compare_antisym x y), IH. by destruct (x ?= y).
  - intros a; induction a as [|x a IH]; intros [|y b] [|z c]; simpl; try done.
    destruct (Z.compare_spec x y), (Z.compare_spec y z), (Z.compare_spec x z);
      simpl; try done; subst; try lia; eauto.
Qed.

Abbreviation bytes_lt := (cmp_lt bytes_cmp).

Lemma bytes_eqb_eq a b : bytes_eqb a b = true ↔ a = b.
Proof. apply bool_decide_eq_true. Qed.
Lemma bytes_eqb_refl a : bytes_eqb a a = true.
Proof. by apply bytes_eqb_eq. Qed.
Lemma bytes_ltb_lt a b : bytes_ltb a b = true ↔ bytes_lt a b.
Proof. unfold bytes_ltb, cmp_lt. destruct (bytes_cmp a b); naive_solver. Qed.

(** [Vec<T>::eq] and [Vec<T>::cmp], given those of the elements. *)
Definition list_eqb {A B} (eqb : A → B → bool) : list A → list B → bool :=
  fix go l k :=
    match l, k with
    | [], [] => true
    | x :: l, y :: k => eqb x y && go l k
    | _, _ => false
    end.
Definition lex_cmp {A B} (cmp : A → B → comparison) : list A → list B → comparison :=
  fix go l k :=
    match l, k with
    | [], [] => Eq
    | [], _ :: _ => Lt
    | _ :: _, [] => Gt
    | x :: l, y :: k => cmp_then (cmp x y) (go l k)
    end.

(** ** UTF-8 validation and splitting *)

Definition in_rng (lo hi b : Z) : bool := (lo <=? b) && (b <=? hi).
Definition cont (b : Z) : bool := in_rng 0x80 0xBF b.

(** [str::from_utf8(..).is_ok()]. *)
Fixpoint utf8_valid (l : bytes) : bool :=
  match l with
  | [] => true
  | b0 :: l0 =>
      if in_rng 0 0x7F b0 then utf8_valid l0
      else match l0 with
      | [] => false
      | b1 :: l1 =>
          if in_rng 0xC2 0xDF b0 then cont b1 && utf8_valid l1
          else match l1 with
          | [] => false
          | b2 :: l2 =>
              if (b0 =? 0xE0) then in_rng 0xA0 0xBF b1 && cont b2 && utf8_valid l2
              else if in_rng 0xE1 0xEC b0 || in_rng 0xEE 0xEF b0
              then cont b1 && cont b2 && utf8_valid l2
              else if (b0 =? 0xED) then in_rng 0x80 0x9F b1 && cont b2 && utf8_valid l2
              else match l2 with
              | [] => false
              | b3 :: l3 =>
                  if (b0 =? 0xF0) then in_rng 0x90 0xBF b1 && cont b2 && cont b3 && utf8_valid l3
                  else if in_rng 0xF1 0xF3 b0 then cont b1 && cont b2 && cont b3 && utf8_valid l3
                  else if (b0 =? 0xF4) then in_rng 0x80 0x8F b1 && cont b2 && cont b3 && utf8_valid l3
                  else false
              end
          end
      end
  end.

(** [from_utf8(..).ok()]: the same bytes, once validated. *)
Definition from_utf8 (l : bytes) : option bytes :=
  if utf8_valid l then Some l else None.

Lemma from_utf8_valid l : utf8_valid l = true → from_utf8 l = Some l.
Proof. unfold from_utf8; by intros ->. Qed.

(** [s.split(c)]: never empty. *)
Fixpoint split_on (c : Z) (s : bytes) : list bytes :=
  match s with
  | [] => [[]]
  | b :: s =>
      if b =? c then [] :: split_on c s
      else match split_on c s with
           | seg :: segs => (b :: seg) :: segs
           | [] => [[b]]
           end
  end.
Definition split_dot : bytes → list bytes := split_on 46.

(** Every prefix test of the source: [starts_with]. *)
Fixpoint starts_with (s p : bytes) {struct p} : bool :=
  match p, s with
  | [], _ => true
  | y :: p, x :: s => (x =? y) && starts_with s p
  | _ :: _, [] => false
  end.

Lemma starts_with_prefix s p : starts_with s p = true ↔ p `prefix_of` s.
Proof.
  revert s; induction p as [|y p IH]; intros s; [split; [intros _; apply prefix_nil|done]|].
  destruct s as [|x s]; simpl; split; intros H; [done|by apply prefix_nil_inv in H| |].
  - bool_simpl; subst. by apply prefix_cons, IH.
  - apply andb_true_iff. pose proof (prefix_cons_inv_1 _ _ _ _ H); subst.
    apply prefix_cons_inv_2 in H. split; [by apply Z.eqb_eq|by apply IH].
Qed.

(** [str::strip_prefix]. *)
Definition strip_prefix (k prefix : bytes) : option bytes := if starts_with k prefix then Some (drop (length prefix) k) else None.

Lemma strip_app p f : strip_prefix (p ++ f) p = Some f.
Proof. unfold strip_prefix. rewrite (proj2 (starts_with_prefix _ _)) by (by eexists). by rewrite drop_app_length. Qed.
Lemma strip_Some k p f : strip_prefix k p = Some f → k = p ++ f.
Proof. unfold strip_prefix. destruct (starts_with k p) eqn:E; [|done]. intros [= <-]. apply starts_with_prefix in E as [s ->]. by rewrite drop_app_length. Qed.

(** ** Binary search, insertion and removal in a sorted vector *)

(** [slice::binary_search_by]: [inl i] is [Ok(i)], [inr i] is [Err(i)].  The
    loop halves [size], so [length l] iterations are enough. *)
Fixpoint bsearch_loop {A} (f : A → comparison) (l : list A) (fuel base size : nat) : nat :=
  match fuel with
  | O => base
  | S fuel =>
      if (size <=? 1)%nat then base
      else
        let half := Nat.div2 size in
        let mid := (base + half)%nat in
        let base := match f <$> l !! mid with Some Gt => base | _ => mid end in
        bsearch_loop f l fuel base (size - half)
  end.
Definition binary_search_by {A} (f : A → comparison) (l : list A) : nat + nat :=
  match l with
  | [] => inr 0%nat
  | _ =>
      let base := bsearch_loop f l (length l) 0 (length l) in
      match f <$> l !! base with
      | Some Eq => inl base
      | Some Lt => inr (S base)
      | _ => inr base
      end
  end.

Definition vec_insert {A} (i : nat) (x : A) (l : list A) : list A :=
  take i l ++ x :: drop i l.
Definition vec_remove {A} (i : nat) (l : list A) : list A :=
  take i l ++ drop (S i) l.

Lemma elem_of_vec_insert {A} (l : list A) i x y : y ∈ vec_insert i x l ↔ y = x ∨ y ∈ l.
Proof.
  unfold vec_insert. rewrite <-(take_drop i l) at 3. rewrite !elem_of_app, elem_of_cons. tauto.
Qed.

(** [f] orders the elements of [l]: at most one is [Eq], everything before it
    is [Lt] and everything after it is [Gt]. *)
Definition bs_rel {A} (f : A → comparison) (x y : A) : Prop := f x ≠ Lt → f y = Gt.

Section BinarySearch.
Context {A} (f : A → comparison).

Lemma StronglySorted_lookup (R : A → A → Prop) l i j x y :
  StronglySorted R l → (i < j)%nat → l !! i = Some x → l !! j = Some y → R x y.
Proof.
  intros Hs; revert i j; induction Hs as [|z l Hs IH Hz]; intros i j Hij Hi Hj; [done|].
  destruct j as [|j]; [lia|]. destruct i as [|i]; simpl in *.
  - injection Hi as <-. by eapply Forall_lookup_1.
  - eapply (IH i j); [lia|done..].
Qed.

(** Everything left of the final base is not above the target, everything
    right of it is. *)
Definition bs_inv (l : list A) (base size : nat) : Prop :=
  (∀ i x, (i < base)%nat → l !! i = Some x → f x = Lt) ∧
  (∀ i x, (base + size <= i)%nat → l !! i = Some x → f x = Gt).

Lemma bsearch_loop_inv l fuel base size :
  StronglySorted (bs_rel f) l →
  (1 <= size <= fuel)%nat → (base + size <= length l)%nat → bs_inv l base size →
  (bsearch_loop f l fuel base size < length l)%nat ∧
  bs_inv l (bsearch_loop f l fuel base size) 1.
Proof.
  intros Hs. revert base size; induction fuel as [|fuel IH]; intros base size Hsz Hlen Hinv;
    [lia|]. simpl. destruct (Nat.leb_spec size 1).
  - assert (size = 1)%nat by lia; subst. split; [lia|done].
  - assert (0 < Nat.div2 size < size ∧ 2 * Nat.div2 size <= size)%nat as Hh.
    { pose proof (Nat.div2_odd size). pose proof (Nat.lt_div2 size ltac:(lia)).
      destruct (Nat.odd size); simpl in *; lia. }
    destruct Hinv as [Hlo Hhi].
    destruct (lookup_lt_is_Some_2 l (base + Nat.div2 size)) as [y Hy]; [lia|].
    rewrite Hy; simpl. destruct (f y) eqn:Ey.
    all: apply IH; [lia|lia|split].
    all: intros i x Hi Hx; try (by eapply Hlo).
    all: try (eapply Hhi; [|done]; lia).
    1,2: destruct (decide (i = base + Nat.div2 size)%nat) as [->|]; [lia|];
      pose proof (StronglySorted_lookup _ _ i (base + Nat.div2 size) _ _ Hs ltac:(lia) Hx Hy) as HR;
      unfold bs_rel in HR; destruct (f x) eqn:Ex; [|done|];
      specialize (HR ltac:(done)); congruence.
    destruct (decide (i = base + Nat.div2 size)%nat) as [->|]; [congruence|].
    apply (StronglySorted_lookup _ _ (base + Nat.div2 size) i _ _ Hs ltac:(lia) Hy Hx).
    by rewrite Ey.
Qed.

(** On a vector ordered by [f], binary search finds the matching element or
    the insertion point. *)
Lemma binary_search_by_spec l :
  StronglySorted (bs_rel f) l →
  match binary_search_by f l with
  | inl i => ∃ x, l !! i = Some x ∧ f x = Eq ∧
               (∀ j y, (j < i)%nat → l !! j = Some y → f y = Lt) ∧
               (∀ j y, (i < j)%nat → l !! j = Some y → f y = Gt)
  | inr i => (i <= length l)%nat ∧
             (∀ j y, (j < i)%nat → l !! j = Some y → f y = Lt) ∧
             (∀ j y, (i <= j)%nat → l !! j = Some y → f y = Gt)
  end.
Proof.
  intros Hs. unfold binary_search_by. destruct l as [|z l']; [simpl; naive_solver|].
  set (l := z :: l') in *.
  destruct (bsearch_loop_inv l (length l) 0 (length l) Hs) as [Hlt [Hlo Hhi]].
  { simpl; lia. } { lia. }
  { split; [lia|]. intros i x Hi Hx%lookup_lt_Some; lia. }
  set (b := bsearch_loop f l (length l) 0 (length l)) in *.
  destruct (lookup_lt_is_Some_2 l b Hlt) as [x Hx].
  rewrite Hx; cbn [fmap option_fmap option_map]. destruct (f x) eqn:Ex.
  - exists x; split_and!; [done..|]. intros j y Hj; apply Hhi; lia.
  - split_and!; [lia| |intros j y Hj; apply Hhi; lia].
    intros j y Hj Hy. destruct (decide (j = b)) as [->|]; [congruence|]. eapply Hlo; [|done]; lia.
  - split_and!; [lia|done|].
    intros j y Hj Hy. destruct (decide (j = b)) as [->|]; [congruence|]. eapply Hhi; [|done]; lia.
Qed.
End BinarySearch.

(** The strictly key-sorted association vector of documents and sorted views. *)
Section KeySorted.
Context {A} (key : A → bytes).

Definition key_sorted (l : list A) : Prop :=
  StronglySorted (λ x y, bytes_lt (key x) (key y)) l.

Definition key_cmp (k : bytes) (x : A) : comparison := bytes_cmp (key x) k.

Lemma key_sorted_bs k l : key_sorted l → StronglySorted (bs_rel (key_cmp k)) l.
Proof.
  induction 1 as [|x l Hs IH Hx]; constructor; [done|].
  eapply Forall_impl; [exact Hx|]. intros y Hy Hn. unfold key_cmp in *; simpl in *.
  destruct (bytes_cmp (key x) k) eqn:E; [|done|].
  - apply cmp_eq in E as <-. by apply (cmp_gt_lt bytes_cmp).
  - apply (cmp_gt_lt bytes_cmp).
    eapply cmp_lt_trans; [|exact Hy]. by apply (cmp_gt_lt bytes_cmp).
Qed.

Lemma key_sorted_lookup_inj l i j x y :
  key_sorted l → l !! i = Some x → l !! j = Some y → key x = key y → i = j.
Proof.
  intros Hs Hi Hj Hk. destruct (Nat.lt_trichotomy i j) as [Hl|[->|Hl]]; [|done|].
  all: pose proof (StronglySorted_lookup _ _ _ _ _ _ Hs Hl ltac:(eassumption) ltac:(eassumption)) as HR;
    simpl in HR; rewrite Hk in HR; by apply (cmp_lt_irrefl bytes_cmp) in HR.
Qed.

Lemma key_sorted_NoDup l : key_sorted l → NoDup (key <$> l).
Proof.
  induction 1 as [|x l Hs IH Hx]; simpl; constructor; [|done].
  intros (y & Hy & Hin)%list_elem_of_fmap. rewrite Forall_forall in Hx.
  specialize (Hx _ Hin). simpl in Hx. rewrite Hy in Hx. by apply (cmp_lt_irrefl bytes_cmp) in Hx.
Qed.

(** Search by key in a sorted vector: found exactly when present. *)
Lemma bsearch_key l k :
  key_sorted l →
  match binary_search_by (key_cmp k) l with
  | inl i => ∃ x, l !! i = Some x ∧ key x = k
  | inr i => (i <= length l)%nat ∧ (k ∉ key <$> l) ∧
             Forall (λ x, bytes_lt (key x) k) (take i l) ∧
             Forall (λ x, bytes_lt k (key x)) (drop i l)
  end.
Proof.
  intros Hs. pose proof (binary_search_by_spec (key_cmp k) l (key_sorted_bs k l Hs)) as H.
  destruct (binary_search_by _ _) as [i|i].
  - destruct H as (x & Hx & E & _). exists x; split; [done|]. by apply (cmp_eq (cmp:=bytes_cmp)) in E.
  - destruct H as (Hi & Hlo & Hhi). split_and!; [done| | |].
    + intros (x & -> & Hin)%list_elem_of_fmap. apply list_elem_of_lookup in Hin as [j Hj].
      destruct (decide (j < i)%nat).
      * specialize (Hlo j x ltac:(lia) Hj). by apply (cmp_lt_irrefl bytes_cmp) in Hlo.
      * specialize (Hhi j x ltac:(lia) Hj). unfold key_cmp in Hhi. by rewrite (cmp_refl bytes_cmp) in Hhi.
    + apply Forall_lookup; intros j x Hj. apply lookup_take_Some in Hj as [Hj ?]. by eapply Hlo.
    + apply Forall_lookup; intros j x Hj. rewrite lookup_drop in Hj.
      apply (cmp_gt_lt bytes_cmp). eapply Hhi; [|done]; lia.
Qed.

Lemma key_sorted_app l1 l2 :
  key_sorted (l1 ++ l2) ↔
  key_sorted l1 ∧ key_sorted l2 ∧ Forall (λ x, Forall (λ y, bytes_lt (key x) (key y)) l2) l1.
Proof.
  unfold key_sorted. induction l1 as [|x l1 IH]; simpl.
  - split; [intros H; split_and!; by try constructor|by intros (_ & H & _)].
  - split.
    + intros H. apply StronglySorted_inv in H as [H1 H2].
      apply IH in H1 as (? & ? & ?). apply Forall_app in H2 as [??].
      split_and!; [by constructor|done|by constructor].
    + intros (H1 & H2 & H3). apply StronglySorted_inv in H1 as [??].
      inversion H3; subst. constructor; [by apply IH|]. by apply Forall_app.
Qed.

Lemma key_sorted_insert l i x :
  key_sorted l →
  Forall (λ y, bytes_lt (key y) (key x)) (take i l) →
  Forall (λ y, bytes_lt (key x) (key y)) (drop i l) →
  key_sorted (vec_insert i x l).
Proof.
  intros Hs Hlo Hhi. unfold vec_insert.
  rewrite <-(take_drop i l) in Hs. apply key_sorted_app in Hs as (H1 & H2 & H3).
  apply key_sorted_app. split_and!; [done|by constructor|].
  rewrite Forall_forall in *. intros y Hy. constructor; eauto.
Qed.

Lemma key_sorted_remove l i : key_sorted l → key_sorted (vec_remove i l).
Proof.
  intros Hs. unfold vec_remove. rewrite <-(take_drop i l) in Hs.
  apply key_sorted_app in Hs as (H1 & H2 & H3).
  replace (drop (S i) l) with (drop 1 (drop i l)) by (rewrite drop_drop; f_equal; lia).
  destruct (drop i l) as [|y l2]; simpl.
  - rewrite app_nil_r; done.
  - apply key_sorted_app. apply StronglySorted_inv in H2 as [??]. split_and!; [done..|].
    eapply Forall_impl; [exact H3|]. intros z Hz; by inversion Hz.
Qed.

(** Two sorted vectors with the same elements are the same vector. *)
Lemma key_sorted_ext l1 l2 :
  key_sorted l1 → key_sorted l2 → (∀ x, x ∈ l1 ↔ x ∈ l2) → l1 = l2.
Proof.
  intros Hs1; revert l2; induction Hs1 as [|x l1 Hs1 IH Hx]; intros l2 Hs2 Heq.
  - destruct l2 as [|y l2]; [done|]. exfalso. apply (not_elem_of_nil y), Heq. by left.
  - destruct l2 as [|y l2]; [exfalso; apply (not_elem_of_nil x), Heq; by left|].
    apply StronglySorted_inv in Hs2 as [Hs2 Hy].
    rewrite Forall_forall in Hx, Hy.
    assert (x = y) as <-.
    { assert (x ∈ y :: l2) as Hxy by (apply Heq; by left).
      assert (y ∈ x :: l1) as Hyx by (apply Heq; by left).
      apply elem_of_cons in Hxy as [->|Hxy]; [done|].
      apply elem_of_cons in Hyx as [->|Hyx]; [done|].
      pose proof (cmp_lt_trans _ _ _ (Hx _ Hyx) (Hy _ Hxy)) as HR. by apply (cmp_lt_irrefl bytes_cmp) in HR. }
    f_equal. apply IH; [done|]. intros z. specialize (Heq z). rewrite !elem_of_cons in Heq.
    split; intros Hz.
    + destruct (proj1 Heq (or_intror Hz)) as [->|?]; [|done].
      specialize (Hx _ Hz). by apply (cmp_lt_irrefl bytes_cmp) in Hx.
    + destruct (proj2 Heq (or_intror Hz)) as [->|?]; [|done].
      specialize (Hy _ Hz). by apply (cmp_lt_irrefl bytes_cmp) in Hy.
Qed.
End KeySorted.

(** A set kept as a sorted vector of strings. *)
Abbreviation str_sorted := (key_sorted (λ k : bytes, k)).

(** ** Stable sorting by a comparator ([slice::sort_by]) *)
Section Sort.
Context {A} (cmp : A → A → comparison).
Fixpoint insert_sorted (x : A) (l : list A) : list A :=
  match l with
  | [] => [x]
  | y :: l => match cmp x y with
              | Gt => y :: insert_sorted x l
              | _ => x :: y :: l
              end
  end.
Definition sort_by (l : list A) : list A := foldr insert_sorted [] l.

Lemma insert_sorted_perm x l : insert_sorted x l ≡ₚ x :: l.
Proof.
  induction l as [|y l IH]; simpl; [done|]. destruct (cmp x y); [done..|].
  rewrite IH. constructor.
Qed.
Lemma sort_by_perm l : sort_by l ≡ₚ l.
Proof. induction l as [|x l IH]; simpl; [done|]. by rewrite insert_sorted_perm, IH. Qed.
End Sort.

Lemma sort_by_key_sorted {A} (key : A → bytes) l :
  NoDup (key <$> l) → key_sorted key (sort_by (λ x y, bytes_cmp (key x) (key y)) l).
Proof.
  induction l as [|x l IH]; simpl; intros Hnd; [constructor|].
  apply NoDup_cons in Hnd as [Hx Hnd]. specialize (IH Hnd).
  set (l' := sort_by _ l) in *.
  assert (key x ∉ key <$> l') as Hx'.
  { intros Hin. apply Hx. by rewrite <-(sort_by_perm (λ x y, bytes_cmp (key x) (key y)) l). }
  clear Hx Hnd; revert IH Hx'. generalize l'; clear l'; intros l'.
  induction 1 as [|y l' Hs IH Hy]; simpl; intros Hx; [repeat constructor|].
  apply not_elem_of_cons in Hx as [Hxy Hx].
  destruct (bytes_cmp (key x) (key y)) eqn:E.
  - by apply cmp_eq in E.
  - constructor; [by constructor|]. constructor; [done|].
    eapply Forall_impl; [exact Hy|]. intros z Hz. by eapply cmp_lt_trans.
  - constructor; [by apply IH|]. rewrite insert_sorted_perm. constructor; [|done].
    by apply (cmp_gt_lt bytes_cmp).
Qed.

(** ** IEEE-754 doubles as 64-bit patterns *)

(** [f64::total_cmp]: compare the sign-magnitude patterns as integers. *)
Definition f64_key (b : Z) : Z := if b <? 2 ^ 63 then b else 2 ^ 63 - 1 - b.
Definition f64_total_cmp (a b : Z) : comparison := f64_key a ?= f64_key b.

Definition f64_abs (b : Z) : Z := b mod 2 ^ 63.
Definition f64_inf : Z := 0x7FF0000000000000.
Definition f64_is_nan (b : Z) : bool := f64_inf <? f64_abs b.
Definition f64_is_finite (b : Z) : bool := f64_abs b <? f64_inf.

(** [f64::partial_cmp]: NaN is unordered and the two zeros are equal. *)
Definition f64_num_key (b : Z) : Z := if b <? 2 ^ 63 then f64_abs b else - f64_abs b.
Definition f64_partial_cmp (a b : Z) : option comparison :=
  if f64_is_nan a || f64_is_nan b then None
  else Some (f64_num_key a ?= f64_num_key b).
Definition f64_eqb (a b : Z) : bool :=
  match f64_partial_cmp a b with Some Eq => true | _ => false end.

(** [i64 as f64]: round to nearest, ties to even, on the magnitude. *)
Definition u64_to_f64 (n : Z) : Z :=
  if n =? 0 then 0
  else
    let e := Z.log2 n in
    if e <=? 52 then (e + 1023) * 2 ^ 52 + (n * 2 ^ (52 - e) - 2 ^ 52)
    else
      let s := e - 52 in
      let q := n / 2 ^ s in
      let r := n mod 2 ^ s in
      let up := (2 ^ (s - 1) <? r) || ((r =? 2 ^ (s - 1)) && Z.odd q) in
      (e + 1023) * 2 ^ 52 + (q - 2 ^ 52) + (if up then 1 else 0).
Definition i64_to_f64 (n : Z) : Z :=
  if n <? 0 then 2 ^ 63 + u64_to_f64 (- n) else u64_to_f64 n.

Example i64_to_f64_1 : i64_to_f64 1 = 0x3FF0000000000000.
Proof. reflexivity. Qed.
Example i64_to_f64_m2 : i64_to_f64 (-2) = 0xC000000000000000.
Proof. reflexivity. Qed.
Example i64_to_f64_tie : i64_to_f64 (2 ^ 53 + 1) = i64_to_f64 (2 ^ 53).
Proof. reflexivity. Qed.
Example i64_to_f64_max : i64_to_f64 (2 ^ 63 - 1) = 0x43E0000000000000.
Proof. reflexivity. Qed.

Lemma f64_key_inj a b : is_u64 a → is_u64 b → f64_key a = f64_key b → a = b.
Proof. unfold is_u64, f64_key; intros ? ?; repeat split_if; lia. Qed.

Lemma f64_total_cmp_antisym a b : f64_total_cmp b a = CompOpp (f64_total_cmp a b).
Proof. apply Z.compare_antisym. Qed.

#[export] Hint Resolve bytes_eqb_refl from_utf8_valid : hako.

(** ** Comparisons that compose

    [trans3 (cmp a b) (cmp b c) (cmp a c)] is transitivity of a three-way
    comparison, in the form that composes lexicographically. *)
Definition trans3 (ab bc ac : comparison) : Prop :=
  match ab, bc with
  | Eq, o => ac = o
  | Lt, (Lt | Eq) => ac = Lt
  | Gt, (Gt | Eq) => ac = Gt
  | _, _ => True
  end.

Lemma trans3_then a1 a2 b1 b2 c1 c2 :
  trans3 a1 b1 c1 → (a1 = Eq → b1 = Eq → trans3 a2 b2 c2) →
  trans3 (cmp_then a1 a2) (cmp_then b1 b2) (cmp_then c1 c2).
Proof.
  destruct a1, b1; simpl; intros H1 H2; subst; simpl; auto;
    destruct a2, b2; simpl; auto.
Qed.

Lemma Z_trans3 a b c : trans3 (a ?= b) (b ?= c) (a ?= c).
Proof.
  destruct (Z.compare_spec a b), (Z.compare_spec b c), (Z.compare_spec a c); simpl; auto; lia.
Qed.

Lemma bytes_trans3 a b c : trans3 (bytes_cmp a b) (bytes_cmp b c) (bytes_cmp a c).
Proof.
  revert b c; induction a as [|x a IH]; intros [|y b] [|z c]; cbn [bytes_cmp]; try done.
  1,2: by destruct (cmp_then _ _).
  - apply trans3_then; [apply Z_trans3|intros _ _; apply IH].
Qed.

Lemma lex_trans3 {A} (cmp : A → A → comparison) l1 l2 l3 :
  Forall (λ x, ∀ y z, y ∈ l2 → z ∈ l3 → trans3 (cmp x y) (cmp y z) (cmp x z)) l1 →
  trans3 (lex_cmp cmp l1 l2) (lex_cmp cmp l2 l3) (lex_cmp cmp l1 l3).
Proof.
  intros Hl; revert l2 l3 Hl; induction l1 as [|x l1 IH]; intros [|y l2] [|z l3] Hl;
    cbn [lex_cmp]; try done.
  1,2: by destruct (cmp_then _ _).
  - apply Forall_cons in Hl as [Hx Hl]. apply trans3_then; [apply Hx; by left|].
    intros _ _; apply IH. eapply Forall_impl; [exact Hl|].
    intros w Hw u v Hu Hv; apply Hw; by right.
Qed.

Lemma lex_antisym {A} (cmp : A → A → comparison) l k :
  Forall (λ x, ∀ y, cmp y x = CompOpp (cmp x y)) l →
  lex_cmp cmp k l = CompOpp (lex_cmp cmp l k).
Proof.
  revert k; induction l as [|x l IH]; intros [|y k] Hl; simpl; auto.
  apply Forall_cons in Hl as [Hx Hl]. rewrite Hx, IH by done. by destruct (cmp x y).
Qed.

Lemma cmp_then_opp a b : CompOpp (cmp_then a b) = cmp_then (CompOpp a) (CompOpp b).
Proof. by destruct a. Qed.

(** ** Integers that [f64] represents exactly *)

Lemma u64_to_f64_exact n :
  0 < n < 2 ^ 53 →
  u64_to_f64 n = (Z.log2 n + 1022) * 2 ^ 52 + n * 2 ^ (52 - Z.log2 n) ∧
  2 ^ 52 <= n * 2 ^ (52 - Z.log2 n) < 2 ^ 53 ∧ 0 <= Z.log2 n <= 52.
Proof.
  intros Hn. pose proof (Z.log2_spec n ltac:(lia)) as [Hlo Hhi]. pose proof (Z.log2_nonneg n).
  assert (Z.log2 n < 53) by (apply Z.log2_lt_pow2; lia).
  rewrite Z.pow_succ_r in Hhi by done.
  assert (2 ^ Z.log2 n * 2 ^ (52 - Z.log2 n) = 2 ^ 52) as Hp
    by (rewrite <-Z.pow_add_r by lia; f_equal; lia).
  assert (0 < 2 ^ (52 - Z.log2 n)) by (apply Z.pow_pos_nonneg; lia).
  split_and!; [|nia|nia|lia|lia].
  unfold u64_to_f64. repeat split_if; lia.
Qed.

Lemma u64_to_f64_strict n m : 0 <= n < m → m <= 2 ^ 53 → 0 <= u64_to_f64 n < u64_to_f64 m.
Proof.
  intros Hn Hm.
  assert (∀ m, 0 < m <= 2 ^ 53 → 1023 * 2 ^ 52 <= u64_to_f64 m) as Hlow.
  { intros k Hk. destruct (decide (k = 2 ^ 53)) as [->|]; [vm_compute; done|].
    pose proof (u64_to_f64_exact k ltac:(lia)) as (-> & ? & ?). nia. }
  destruct (decide (n = 0)) as [->|Hn0].
  { change (u64_to_f64 0) with 0. specialize (Hlow m). lia. }
  pose proof (u64_to_f64_exact n ltac:(lia)) as (-> & Hbn & Hen).
  split; [nia|]. destruct (decide (m = 2 ^ 53)) as [->|Hm0].
  { change (u64_to_f64 (2 ^ 53)) with (1076 * 2 ^ 52). nia. }
  pose proof (u64_to_f64_exact m ltac:(lia)) as (-> & Hbm & Hem).
  pose proof (Z.log2_le_mono n m ltac:(lia)).
  destruct (decide (Z.log2 n = Z.log2 m)) as [->|].
  - apply Z.add_lt_mono_l, Z.mul_lt_mono_pos_r; [apply Z.pow_pos_nonneg; lia|lia].
  - nia.
Qed.

(** On integers that fit the 53-bit significand the conversion preserves order. *)
Lemma i64_to_f64_compare n m :
  Z.abs n <= 2 ^ 53 → Z.abs m <= 2 ^ 53 →
  (f64_key (i64_to_f64 n) ?= f64_key (i64_to_f64 m)) = (n ?= m).
Proof.
  assert (∀ n, Z.abs n <= 2 ^ 53 →
    f64_key (i64_to_f64 n) = if n <? 0 then - 1 - u64_to_f64 (- n) else u64_to_f64 n) as Hk.
  { intros k Hk.
    assert (∀ j, 0 <= j <= 2 ^ 53 → 0 <= u64_to_f64 j < 2 ^ 63) as Hb.
    { intros j Hj. destruct (decide (j = 2 ^ 53)) as [->|]; [by vm_compute|].
      pose proof (u64_to_f64_strict j (2 ^ 53) ltac:(lia) ltac:(lia)).
      change (u64_to_f64 (2 ^ 53)) with (1076 * 2 ^ 52) in *. lia. }
    unfold i64_to_f64, f64_key. split_if.
    - pose proof (Hb (- k) ltac:(lia)). split_if; lia.
    - pose proof (Hb k ltac:(lia)). split_if; lia. }
  intros Hn Hm. rewrite !Hk by done.
  destruct (Z.compare_spec n m) as [->|Hl|Hl]; [by apply Z.compare_eq_iff| |].
  - apply Z.compare_lt_iff. repeat split_if.
    + pose proof (u64_to_f64_strict (- m) (- n) ltac:(lia) ltac:(lia)); lia.
    + pose proof (u64_to_f64_strict 0 (- n) ltac:(lia) ltac:(lia)).
      destruct (decide (m = 0)) as [->|]; [change (u64_to_f64 0) with 0; lia|].
      pose proof (u64_to_f64_strict 0 m ltac:(lia) ltac:(lia)). lia.
    + lia.
    + apply u64_to_f64_strict; lia.
  - apply Z.compare_gt_iff. repeat split_if.
    + pose proof (u64_to_f64_strict (- n) (- m) ltac:(lia) ltac:(lia)); lia.
    + pose proof (u64_to_f64_strict 0 (- m) ltac:(lia) ltac:(lia)).
      destruct (decide (n = 0)) as [->|]; [change (u64_to_f64 0) with 0; lia|].
      pose proof (u64_to_f64_strict 0 n ltac:(lia) ltac:(lia)). lia.
    + lia.
    + apply u64_to_f64_strict; lia.
Qed.

(** ** Arithmetic of [f64]

    Addition and division of IEEE-754 doubles given as 64-bit patterns, through the
    reference operations of the standard library's [SpecFloat].  A NaN result is the
    positive quiet one. *)

From Stdlib Require Import SpecFloat.
Local Open Scope hako_scope.

Definition f64_nan : Z := 0x7FF8000000000000.

(** Sign, exponent and mantissa of a pattern. *)
Definition f64_of_bits (b : Z) : spec_float :=
  let s := 2 ^ 63 <=? b in
  let e := f64_abs b / 2 ^ 52 in
  let m := f64_abs b mod 2 ^ 52 in
  if e =? 2047 then if m =? 0 then S754_infinity s else S754_nan
  else if e =? 0 then match m with Zpos p => S754_finite s p (-1074) | _ => S754_zero s end
  else match m + 2 ^ 52 with Zpos p => S754_finite s p (e - 1075) | _ => S754_nan end.
Definition f64_to_bits (x : spec_float) : Z :=
  match x with
  | S754_zero s => if s then 2 ^ 63 else 0
  | S754_infinity s => (if s then 2 ^ 63 else 0) + f64_inf
  | S754_nan => f64_nan
  | S754_finite s m e =>
      (if s then 2 ^ 63 else 0) + (if Zpos m <? 2 ^ 52 then Zpos m else (e + 1074) * 2 ^ 52 + Zpos m)
  end.

Definition f64_add (a b : Z) : Z := f64_to_bits (SFadd 53 1024 (f64_of_bits a) (f64_of_bits b)).
Definition f64_div (a b : Z) : Z := f64_to_bits (SFdiv 53 1024 (f64_of_bits a) (f64_of_bits b)).
Definition f64_mul (a b : Z) : Z := f64_to_bits (SFmul 53 1024 (f64_of_bits a) (f64_of_bits b)).
(** [f64::min], [f64::max]: a NaN gives way to the other argument; of two zeros the
    first is taken, where Rust leaves the choice open. *)
Definition f64_ltb (a b : Z) : bool := match f64_partial_cmp a b with Some Lt => true | _ => false end.
Definition f64_min (a b : Z) : Z := if f64_is_nan a then b else if f64_ltb b a then b else a.
Definition f64_max (a b : Z) : Z := if f64_is_nan a then b else if f64_ltb a b then b else a.

Example f64_add_small : f64_add (i64_to_f64 2) (i64_to_f64 3) = i64_to_f64 5.
Proof. vm_compute. reflexivity. Qed.
Example f64_add_rounds : f64_add (i64_to_f64 (2 ^ 53)) (i64_to_f64 1) = i64_to_f64 (2 ^ 53).
Proof. vm_compute. reflexivity. Qed.
Example f64_add_cancels : f64_add (i64_to_f64 5) (i64_to_f64 (-5)) = 0.
Proof. vm_compute. reflexivity. Qed.
Example f64_div_half : f64_div (i64_to_f64 1) (i64_to_f64 2) = 0x3FE0000000000000.
Proof. vm_compute. reflexivity. Qed.
Example f64_add_overflow : f64_add 0x7FEFFFFFFFFFFFFF 0x7FEFFFFFFFFFFFFF = f64_inf.
Proof. vm_compute. reflexivity. Qed.
Example f64_add_subnormal : f64_add 1 1 = 2.
Proof. vm_compute. reflexivity. Qed.

(** [slice::chunks]: at most [n] elements each. *)
Fixpoint chunks {A} (fuel n : nat) (l : list A) : list (list A) :=
  match fuel, l with
  | S fuel, _ :: _ => take n l :: chunks fuel n (drop n l)
  | _, _ => []
  end.
Lemma chunks_concat {A} n (l : list A) fuel : (1 <= n)%nat → (length l <= fuel)%nat → concat (chunks fuel n l) = l.
Proof.
  intros Hn. revert l. induction fuel as [|fuel IH]; intros l Hl; [by destruct l; [|cbn in Hl; lia]|].
  destruct l as [|x l]; [done|]. cbn [chunks concat]. rewrite IH; [apply take_drop|]. rewrite length_drop. cbn [length] in *. lia.
Qed.
