(* ===== verification/Error.v ===== *)
(** * Errors and results (src/error.rs)

    [HakoError] with its constructors, its classification [kind] and the
    retry policy [is_retryable]; [res] is [crate::error::Result] extended with
    the outcome of a Rust panic (an out-of-range slice index, an [unwrap] of
    [None]), so that a definition says on which inputs the code aborts. *)

From stdpp Require Import prelude strings.
From S2P Require Import Prelude.

Inductive ErrorKind :=
| KNone | KGeneric | KRetryableConflict | KUniqueViolation | KConstraintMismatch | KCancelled.

Inductive HakoError :=
| Io (msg : string)
| LockPoisoned (msg : string)
| StorageError (msg : string)
| QueryError (msg : string)
| IndexError (msg : string)
| Corrupt (msg : string)
| InvalidInput (msg : string)
| Conflict (key : bytes)
| UniqueViolation (collection : bytes) (index : Z) (key : bytes)
| IndexBackfilling (collection : bytes) (index : Z)
| SchemaViolation (collection field : bytes) (expected : string)
| Cancelled.

(** [HakoError::kind]. *)
Definition kind (e : HakoError) : ErrorKind :=
  match e with
  | Conflict _ | IndexBackfilling _ _ => KRetryableConflict
  | UniqueViolation _ _ _ => KUniqueViolation
  | SchemaViolation _ _ _ => KConstraintMismatch
  | Cancelled => KCancelled
  | _ => KGeneric
  end.

(** [HakoError::is_retryable]. *)
Definition is_retryable (e : HakoError) : bool :=
  match kind e with KRetryableConflict => true | _ => false end.

Inductive res (A : Type) :=
| Ok (a : A)
| Err (e : HakoError)
| Panic.
Arguments Ok {A} a.
Arguments Err {A} e.
Arguments Panic {A}.

Definition res_bind {A B} (m : res A) (f : A → res B) : res B :=
  match m with Ok a => f a | Err e => Err e | Panic => Panic end.

(** [opt.ok_or_else(|| e)?]. *)
Definition ok_or {A} (o : option A) (e : HakoError) : res A :=
  match o with Some a => Ok a | None => Err e end.
(** [slice[i..j]], [opt.unwrap()]: abort when there is nothing. *)
Definition or_panic {A} (o : option A) : res A :=
  match o with Some a => Ok a | None => Panic end.

#[export] Instance res_ret : MRet res := λ A a, Ok a.
#[export] Instance res_mbind : MBind res := λ A B f m, res_bind m f.

Lemma res_bind_Ok {A B} (m : res A) (f : A → res B) b :
  m ≫= f = Ok b ↔ ∃ a, m = Ok a ∧ f a = Ok b.
Proof.
  destruct m; unfold mbind; simpl; split; try done; try (by intros (? & ? & ?)).
  - by intros ?; exists a.
  - by intros (? & [= ->] & ?).
Qed.
