(* ===== verification/Varint.v ===== *)
(** * Variable-length integers (src/util/varint.rs)

    LEB128 encoding of [u64] and the zigzag map of [i64], with their round
    trips.  [encode_varint] and [decode_varint] loop at most ten times on a
    [u64] (ten 7-bit groups), which is the fuel of both loops. *)

From stdpp Require Import prelude list.
From Stdlib Require Import ZArith Lia.
From S2P Require Import Prelude.

Local Open Scope Z_scope.

(** The loop of [encode_varint]: while [n >= 0x80], push the low seven bits
    with the continuation bit and shift. *)
Fixpoint encode_varint_loop (fuel : nat) (n : Z) : bytes :=
  match fuel with
  | O => []
  | S fuel =>
      if 0x80 <=? n
      then Z.lor (as_u8 n) 0x80 :: encode_varint_loop fuel (Z.shiftr n 7)
      else [as_u8 n]
  end.
Definition encode_varint (n : Z) : bytes := encode_varint_loop 10 n.

(** The loop of [decode_varint]; the result carries the new position. *)
Fixpoint decode_varint_loop (fuel : nat) (b : bytes) (pos res shift : Z) : option (Z * Z) :=
  match fuel with
  | O => None
  | S fuel =>
      if shift <? 64 then
        x ← get b pos;
        let pos := pos + 1 in
        if (shift =? 63) && (1 <? x) then None
        else
          let res := Z.lor res (as_u64 (Z.shiftl (Z.land x 0x7F) shift)) in
          if Z.land x 0x80 =? 0 then Some (res, pos)
          else decode_varint_loop fuel b pos res (shift + 7)
      else None
  end.
Definition decode_varint (b : bytes) (pos : Z) : option (Z * Z) :=
  decode_varint_loop 11 b pos 0 0.

Definition zigzag_encode (n : Z) : Z :=
  as_u64 (Z.lxor (as_i64 (Z.shiftl n 1)) (Z.shiftr n 63)).
Definition zigzag_decode (n : Z) : Z :=
  Z.lxor (as_i64 (Z.shiftr n 1)) (- as_i64 (Z.land n 1)).

(** ** Zigzag *)

Lemma lxor_m1 x : Z.lxor x (-1) = - x - 1.
Proof. rewrite Z.lxor_m1_r. unfold Z.lnot. lia. Qed.

Lemma shiftr_63 n : is_i64 n → Z.shiftr n 63 = if n <? 0 then -1 else 0.
Proof.
  unfold is_i64; intros Hn. rewrite Z.shiftr_div_pow2 by lia. split_if.
  - symmetry; apply (Z.div_unique_pos _ _ _ (n + 2 ^ 63)); lia.
  - apply Z.div_small; lia.
Qed.

Lemma zigzag_encode_spec n :
  is_i64 n → zigzag_encode n = if n <? 0 then - 2 * n - 1 else 2 * n.
Proof.
  intros Hn. unfold zigzag_encode. rewrite shiftr_63 by done.
  rewrite Z.shiftl_mul_pow2 by lia. change (2 ^ 1) with 2.
  unfold is_i64 in Hn. unfold as_i64, as_u64. split_if.
  - rewrite lxor_m1.
    destruct (decide (- 2 ^ 62 <= n)).
    + rewrite (Z.mod_small (n * 2 + 2 ^ 63)) by lia. rewrite Z.mod_small by lia. lia.
    + replace ((n * 2 + 2 ^ 63) mod 2 ^ 64) with (n * 2 + 2 ^ 63 + 2 ^ 64)
        by (apply (Z.mod_unique_pos _ _ (-1)); lia).
      symmetry; apply (Z.mod_unique_pos _ _ (-1)); lia.
  - rewrite Z.lxor_0_r. destruct (decide (n < 2 ^ 62)).
    + rewrite (Z.mod_small (n * 2 + 2 ^ 63)) by lia. rewrite Z.mod_small by lia. lia.
    + replace ((n * 2 + 2 ^ 63) mod 2 ^ 64) with (n * 2 + 2 ^ 63 - 2 ^ 64)
        by (apply (Z.mod_unique_pos _ _ 1); lia).
      symmetry; apply (Z.mod_unique_pos _ _ (-1)); lia.
Qed.

Lemma zigzag_encode_u64 n : is_u64 (zigzag_encode n).
Proof. apply as_u64_range. Qed.

Lemma zigzag_decode_spec u :
  is_u64 u → zigzag_decode u = if Z.odd u then - (u / 2) - 1 else u / 2.
Proof.
  intros Hu. unfold zigzag_decode, is_u64 in *.
  rewrite Z.shiftr_div_pow2 by lia. change (2 ^ 1) with 2.
  change (Z.land u 1) with (Z.land u (Z.ones 1)). rewrite Z.land_ones by lia. change (2 ^ 1) with 2.
  assert (0 <= u / 2 < 2 ^ 63).
  { split; [apply Z.div_pos; lia|apply Z.div_lt_upper_bound; lia]. }
  rewrite (as_i64_id (u / 2)) by (unfold is_i64; lia).
  pose proof (Z.mod_pos_bound u 2 ltac:(lia)).
  rewrite as_i64_id by (unfold is_i64; lia).
  rewrite Zmod_odd. destruct (Z.odd u).
  - by rewrite lxor_m1.
  - change (- 0) with 0. by rewrite Z.lxor_0_r.
Qed.

Lemma zigzag_decode_encode n : is_i64 n → zigzag_decode (zigzag_encode n) = n.
Proof.
  intros Hn. rewrite zigzag_decode_spec by apply zigzag_encode_u64.
  rewrite zigzag_encode_spec by done. unfold is_i64 in Hn. split_if.
  - replace (-2 * n - 1) with (1 + 2 * (- n - 1)) by lia.
    rewrite Z.odd_add_mul_2; simpl.
    replace ((1 + 2 * (- n - 1)) / 2) with (- n - 1) by (apply (Z.div_unique_pos _ _ _ 1); lia). lia.
  - replace (2 * n) with (0 + 2 * n) by lia. rewrite Z.odd_add_mul_2; simpl.
    replace ((0 + 2 * n) / 2) with n by (apply (Z.div_unique_pos _ _ _ 0); lia). done.
Qed.

Lemma zigzag_encode_decode u : is_u64 u → zigzag_encode (zigzag_decode u) = u.
Proof.
  intros Hu. rewrite zigzag_decode_spec by done. unfold is_u64 in Hu.
  pose proof (Z.div_mod u 2 ltac:(lia)) as Hdm. rewrite Zmod_odd in Hdm.
  assert (0 <= u / 2 < 2 ^ 63).
  { split; [apply Z.div_pos; lia|apply Z.div_lt_upper_bound; lia]. }
  destruct (Z.odd u); rewrite zigzag_encode_spec by (unfold is_i64; lia); split_if; lia.
Qed.

(** ** Varint *)

Lemma lor_0x80 b : is_byte b → Z.lor b 0x80 = b mod 128 + 128.
Proof.
  intros Hb. apply Z.eqb_eq.
  apply (byte_cases (λ b, Z.lor b 0x80 =? b mod 128 + 128)); [by vm_compute|done].
Qed.

Lemma land_0x7F b : is_byte b → Z.land b 0x7F = b mod 128.
Proof. intros. change 0x7F with (Z.ones 7). by rewrite Z.land_ones by lia. Qed.

Lemma land_0x80 b : is_byte b → (Z.land b 0x80 =? 0) = (b <? 128).
Proof.
  intros Hb. apply eqb_true_iff.
  apply (byte_cases (λ b, Bool.eqb (Z.land b 0x80 =? 0) (b <? 128))); [by vm_compute|done].
Qed.

Lemma encode_varint_loop_S fuel n :
  0 <= n →
  encode_varint_loop (S fuel) n =
    if 0x80 <=? n then (n mod 128 + 128) :: encode_varint_loop fuel (n / 128) else [n].
Proof.
  intros Hn. cbn [encode_varint_loop]. split_if.
  - rewrite Z.shiftr_div_pow2 by lia. f_equal.
    rewrite lor_0x80 by (unfold is_byte, as_u8; apply Z.mod_pos_bound; lia).
    unfold as_u8. f_equal. change (2 ^ 8) with (128 * 2).
    rewrite Z.rem_mul_r by lia. rewrite Z.mul_comm, Z_mod_plus_full. apply Zmod_mod.
  - unfold as_u8; rewrite Z.mod_small by lia; done.
Qed.

Lemma encode_varint_loop_ok fuel n : 0 <= n → bytes_ok (encode_varint_loop fuel n).
Proof.
  revert n; induction fuel as [|fuel IH]; intros n Hn; [constructor|].
  rewrite encode_varint_loop_S by done. split_if.
  - constructor; [|apply IH, Z.div_pos; lia].
    pose proof (Z.mod_pos_bound n 128 ltac:(lia)). unfold is_byte; lia.
  - repeat constructor; unfold is_byte; lia.
Qed.

Lemma lor_shiftl acc n s :
  0 <= s → 0 <= acc < 2 ^ s → Z.lor acc (Z.shiftl n s) = acc + n * 2 ^ s.
Proof.
  intros Hs Ha. rewrite Z.shiftl_mul_pow2 by lia. symmetry. rewrite <-Z.add_lor_land.
  replace (Z.land acc (n * 2 ^ s)) with 0; [lia|].
  symmetry; apply Z.bits_inj'; intros i Hi. rewrite Z.land_spec, Z.bits_0.
  destruct (Z.lt_ge_cases i s).
  - rewrite Z.mul_pow2_bits_low by lia. apply andb_false_r.
  - rewrite <-(Z.mod_small acc (2 ^ s)) by lia. by rewrite Z.mod_pow2_bits_high by lia.
Qed.

Lemma decode_varint_loop_S fuel b pos res shift :
  decode_varint_loop (S fuel) b pos res shift =
  if shift <? 64 then
    x ← get b pos;
    if (shift =? 63) && (1 <? x) then None
    else
      let res := Z.lor res (as_u64 (Z.shiftl (Z.land x 0x7F) shift)) in
      if Z.land x 0x80 =? 0 then Some (res, pos + 1)
      else decode_varint_loop fuel b (pos + 1) res (shift + 7)
  else None.
Proof. reflexivity. Qed.

(** Group by group: decoding resumes with the value accumulated so far.  With
    [f] groups left the shift is [63 - 7f]. *)
Lemma decode_encode_varint_loop (f : nat) pre n post acc :
  let shift := 63 - 7 * Z.of_nat f in
  0 <= shift → 0 <= n → n * 2 ^ shift < 2 ^ 64 → 0 <= acc < 2 ^ shift →
  decode_varint_loop (S (S f)) (pre ++ encode_varint_loop (S f) n ++ post) (zlen pre) acc shift
  = Some (acc + n * 2 ^ shift, zlen pre + zlen (encode_varint_loop (S f) n)).
Proof.
  revert pre n acc; induction f as [|f IH]; intros pre n acc; cbv zeta; intros Hs Hn Hb Ha.
  all: rewrite encode_varint_loop_S by done.
  - change (63 - 7 * Z.of_nat 0) with 63 in *.
    assert (n < 2) by nia. split_if; [lia|]. rewrite decode_varint_loop_S. cbn [app].
    change (63 <? 64) with true; cbv iota.
    rewrite (get_mid pre n post) by done. cbn [mbind option_bind].
    rewrite land_0x7F, land_0x80 by (unfold is_byte; lia). rewrite (Z.mod_small n) by lia.
    split_if; [lia|]. split_if; [|lia].
    rewrite as_u64_id by (unfold is_u64; rewrite Z.shiftl_mul_pow2 by lia; lia).
    rewrite lor_shiftl by lia. f_equal.
  - set (shift := 63 - 7 * Z.of_nat (S f)) in *.
    assert (2 ^ (shift + 7) = 2 ^ shift * 128) as Hp by (by rewrite Z.pow_add_r by lia).
    rewrite decode_varint_loop_S. assert (shift < 63) by lia.
    pose proof (Z.mod_pos_bound n 128 ltac:(lia)). pose proof (Z.div_mod n 128 ltac:(lia)).
    assert (0 < 2 ^ shift) by (apply Z.pow_pos_nonneg; lia).
    replace (shift <? 64) with true by (symmetry; apply Z.ltb_lt; lia).
    replace (shift =? 63) with false by (symmetry; apply Z.eqb_neq; lia).
    cbv iota. destruct (0x80 <=? n) eqn:Hg; bool_simpl; cbn [app].
    + rewrite (get_mid pre _ (encode_varint_loop (S f) (n / 128) ++ post)) by done. cbn [mbind option_bind andb]. cbv zeta.
      rewrite land_0x7F, land_0x80 by (unfold is_byte; lia).
      replace (n mod 128 + 128 <? 128) with false by (symmetry; apply Z.ltb_ge; lia).
      replace ((n mod 128 + 128) mod 128) with (n mod 128)
        by (apply (Z.mod_unique_pos _ _ 1); lia).
      rewrite as_u64_id by (unfold is_u64; rewrite Z.shiftl_mul_pow2 by lia; nia).
      rewrite lor_shiftl by lia.
      replace (pre ++ n mod 128 + 128 :: encode_varint_loop (S f) (n / 128) ++ post)
        with ((pre ++ [n mod 128 + 128]) ++ encode_varint_loop (S f) (n / 128) ++ post)
        by (by rewrite <-app_assoc).
      replace (zlen pre + 1) with (zlen (pre ++ [n mod 128 + 128])) by zlen.
      replace (shift + 7) with (63 - 7 * Z.of_nat f) in * by lia.
      rewrite IH; [|lia|apply Z.div_pos; lia|nia|nia].
      f_equal; f_equal; [nia|zlen].
    + rewrite (get_mid pre n post) by done. cbn [mbind option_bind andb]. cbv zeta.
      rewrite land_0x7F, land_0x80 by (unfold is_byte; lia).
      rewrite (Z.mod_small n) by lia. split_if; [|lia].
      rewrite as_u64_id by (unfold is_u64; rewrite Z.shiftl_mul_pow2 by lia; nia).
      rewrite lor_shiftl by lia. done.
Qed.

Lemma decode_encode_varint pre n post :
  is_u64 n →
  decode_varint (pre ++ encode_varint n ++ post) (zlen pre)
  = Some (n, zlen pre + zlen (encode_varint n)).
Proof.
  intros Hn. unfold is_u64 in Hn. unfold decode_varint, encode_varint.
  rewrite (decode_encode_varint_loop 9) by lia. f_equal; f_equal; lia.
Qed.

(** A [u64] takes between one and ten bytes. *)
Lemma encode_varint_len n : is_u64 n → 1 <= zlen (encode_varint n) <= 10.
Proof.
  unfold is_u64, encode_varint; intros Hn.
  assert (∀ fuel n, zlen (encode_varint_loop fuel n) <= Z.of_nat fuel) as Hle.
  { clear; intros fuel; induction fuel as [|fuel IH]; intros n; [done|].
    cbn [encode_varint_loop]. split_if; [specialize (IH (Z.shiftr n 7)); zlen|zlen]. }
  split; [|apply (Hle 10%nat)].
  rewrite encode_varint_loop_S by lia. split_if; zlen.
Qed.

Lemma encode_varint_ok n : 0 <= n → bytes_ok (encode_varint n).
Proof. apply encode_varint_loop_ok. Qed.

(** A decoded value is a [u64] and the position moved forward, inside the buffer. *)
Lemma decode_varint_loop_bounds fuel b pos acc shift v p :
  bytes_ok b → 0 <= pos → is_u64 acc → 0 <= shift →
  decode_varint_loop fuel b pos acc shift = Some (v, p) → is_u64 v ∧ pos < p <= zlen b.
Proof.
  intros Hb; revert pos acc shift; induction fuel as [|fuel IH]; intros pos acc shift Hp Ha Hs;
    [done|]. cbn [decode_varint_loop]. split_if; [|done].
  destruct (get b pos) as [x|] eqn:Hx; [|done]; cbn [mbind option_bind].
  pose proof (get_Some_lt _ _ _ Hx). split_if; [done|].
  set (a' := Z.lor acc _).
  assert (is_u64 a') as Ha'.
  { unfold a', is_u64 in *. split; [apply Z.lor_nonneg; split; [lia|]; apply Z.mod_pos_bound; lia|].
    pose proof (Z.mod_pos_bound (Z.shiftl (Z.land x 127) shift) (2 ^ 64) ltac:(lia)).
    apply Z.log2_lt_cancel. unfold as_u64. rewrite Z.log2_lor by lia.
    rewrite (Z.log2_pow2 64) by lia. apply Z.max_lub_lt.
    - destruct (decide (acc = 0)) as [->|]; [cbn; lia|]. apply Z.log2_lt_pow2; lia.
    - set (y := _ mod _) in *. destruct (decide (y = 0)) as [->|]; [cbn; lia|].
      apply Z.log2_lt_pow2; lia. }
  split_if; [intros [= <- <-]; split; [done|lia]|].
  intros H'; apply IH in H'; [|lia|done|lia]. split; [tauto|lia].
Qed.

Lemma decode_varint_bounds b pos v p :
  bytes_ok b → 0 <= pos → decode_varint b pos = Some (v, p) → is_u64 v ∧ pos < p <= zlen b.
Proof. intros Hb Hp H. eapply decode_varint_loop_bounds in H; [done..|unfold is_u64; lia|lia]. Qed.
