(* ===== verification/Value.v ===== *)
(** * Document values (src/document/value.rs)

    The [Value] enum with its equality ([PartialEq]), its ordering ([Ord]) and
    the projection helpers [prune_value], [prune_field_value] and
    [projection_prefixes].  A [Float] carries its 64-bit pattern, strings and
    keys their UTF-8 bytes, a [Map] its entries in vector order. *)

From stdpp Require Import prelude list sorting.
From Stdlib Require Import ZArith Lia.
From S2P Require Import Prelude RustStd.

Local Open Scope Z_scope.

Inductive Value :=
| Null
| Bool (b : bool)
| Int (n : Z)
| Float (bits : Z)
| String (s : bytes)
| Binary (b : bytes)
| BlobLink (offset len : Z)
| Reference (collection doc_id : bytes)
| Timestamp (micros : Z)
| ServerTimestamp
| Map (fields : list (bytes * Value))
| Array (items : list Value).

(** The induction principle that reaches the values nested in vectors. *)
Section ValueInd.
Variable P : Value → Prop.
Hypothesis HNull : P Null.
Hypothesis HBool : ∀ b, P (Bool b).
Hypothesis HInt : ∀ n, P (Int n).
Hypothesis HFloat : ∀ n, P (Float n).
Hypothesis HString : ∀ s, P (String s).
Hypothesis HBinary : ∀ s, P (Binary s).
Hypothesis HBlobLink : ∀ o l, P (BlobLink o l).
Hypothesis HReference : ∀ c d, P (Reference c d).
Hypothesis HTimestamp : ∀ n, P (Timestamp n).
Hypothesis HServerTimestamp : P ServerTimestamp.
Hypothesis HMap : ∀ fs, Forall (λ kv, P kv.2) fs → P (Map fs).
Hypothesis HArray : ∀ vs, Forall P vs → P (Array vs).

Fixpoint Value_rect' (v : Value) : P v :=
  match v with
  | Null => HNull
  | Bool b => HBool b
  | Int n => HInt n
  | Float n => HFloat n
  | String s => HString s
  | Binary s => HBinary s
  | BlobLink o l => HBlobLink o l
  | Reference c d => HReference c d
  | Timestamp n => HTimestamp n
  | ServerTimestamp => HServerTimestamp
  | Map fs => HMap fs
      ((fix go fs : Forall (λ kv, P kv.2) fs :=
          match fs with
          | [] => Forall_nil_2 _
          | kv :: fs => Forall_cons_2 _ kv fs (Value_rect' kv.2) (go fs)
          end) fs)
  | Array vs => HArray vs
      ((fix go vs : Forall P vs :=
          match vs with
          | [] => Forall_nil_2 _
          | v :: vs => Forall_cons_2 _ v vs (Value_rect' v) (go vs)
          end) vs)
  end.
End ValueInd.

(** ** Equality and ordering *)

(** [Value::type_weight]. *)
Definition type_weight (v : Value) : Z :=
  match v with
  | Null => 0
  | Bool _ => 1
  | Int _ | Float _ => 2
  | Timestamp _ => 3
  | String _ => 4
  | Binary _ | BlobLink _ _ => 5
  | Reference _ _ => 6
  | Array _ => 7
  | Map _ => 8
  | ServerTimestamp => 9
  end.

Definition bool_cmp (a b : bool) : comparison :=
  match a, b with false, true => Lt | true, false => Gt | _, _ => Eq end.

(** [PartialEq for Value]. *)
Fixpoint value_eqb (a b : Value) {struct a} : bool :=
  match a, b with
  | Null, Null => true
  | Bool a, Bool b => Bool.eqb a b
  | Int a, Int b => a =? b
  | Float a, Float b => a =? b
  | Int a, Float b => f64_eqb (i64_to_f64 a) b
  | Float a, Int b => f64_eqb a (i64_to_f64 b)
  | String a, String b => bytes_eqb a b
  | Binary a, Binary b => bytes_eqb a b
  | Array a, Array b => list_eqb value_eqb a b
  | Reference a ad, Reference b bd => bytes_eqb a b && bytes_eqb ad bd
  | BlobLink a al, BlobLink b bl => (a =? b) && (al =? bl)
  | Binary _, BlobLink _ _ => false
  | Timestamp a, Timestamp b => a =? b
  | Map a, Map b =>
      list_eqb (λ x y, bytes_eqb x.1 y.1 && value_eqb x.2 y.2) a b
  | ServerTimestamp, ServerTimestamp => true
  | _, _ => false
  end.

(** [Ord for Value]. *)
Fixpoint value_cmp (a b : Value) {struct a} : comparison :=
  cmp_then (type_weight a ?= type_weight b)
  (match a, b with
  | Null, Null => Eq
  | Bool a, Bool b => bool_cmp a b
  | Int a, Int b => a ?= b
  | Float a, Float b => f64_total_cmp a b
  | Int a, Float b => f64_total_cmp (i64_to_f64 a) b
  | Float a, Int b => f64_total_cmp a (i64_to_f64 b)
  | String a, String b => bytes_cmp a b
  | Binary a, Binary b => bytes_cmp a b
  | Timestamp a, Timestamp b => a ?= b
  | Reference c1 i1, Reference c2 i2 => cmp_then (bytes_cmp c1 c2) (bytes_cmp i1 i2)
  | Map a, Map b =>
      cmp_then (zlen a ?= zlen b)
        (lex_cmp (λ x y, cmp_then (bytes_cmp x.1 y.1) (value_cmp x.2 y.2)) a b)
  | Array a, Array b => cmp_then (zlen a ?= zlen b) (lex_cmp value_cmp a b)
  | ServerTimestamp, ServerTimestamp => Eq
  | _, _ => Eq
  end).

(** ** Projections *)

(** [prune_value]: keep the subtrees named by relative segment paths.  The
    inner loop over [paths] stops at the first path that selects the entry
    whole; [subs] collects the tails of the others. *)
Fixpoint select_paths (k : bytes) (paths : list (list bytes)) (subs : list (list bytes))
  : bool * list (list bytes) :=
  match paths with
  | [] => (false, subs)
  | p :: paths =>
      match p with
      | seg :: rest =>
          if bytes_eqb seg k then
            match rest with
            | [] => (true, subs)
            | _ => select_paths k paths (subs ++ [rest])
            end
          else select_paths k paths subs
      | [] => select_paths k paths subs
      end
  end.

Fixpoint prune_value (v : Value) (paths : list (list bytes)) {struct v} : Value :=
  match paths with
  | [] => v
  | _ =>
      match v with
      | Map entries =>
          Map (omap (λ kv,
            let '(whole, subs) := select_paths kv.1 paths [] in
            if whole : bool then Some kv
            else match subs with
                 | [] => None
                 | _ => Some (kv.1, prune_value kv.2 subs)
                 end) entries)
      | Array items => Array ((λ i, prune_value i paths) <$> items)
      | other => other
      end
  end.

(** The loop of [prune_field_value]. *)
Fixpoint field_paths (key : bytes) (projection : list bytes) (subs : list (list bytes))
  : bool * list (list bytes) :=
  match projection with
  | [] => (false, subs)
  | p :: projection =>
      match split_dot p with
      | first :: rest =>
          if bytes_eqb first key then
            match rest with
            | [] => (true, subs)
            | _ => if existsb (λ s, bool_decide (s = [])) rest
                   then field_paths key projection subs
                   else field_paths key projection (subs ++ [rest])
            end
          else field_paths key projection subs
      | [] => field_paths key projection subs
      end
  end.

Definition prune_field_value (v : Value) (projection : list bytes) (key : bytes) : option Value :=
  let '(whole, subs) := field_paths key projection [] in
  if whole : bool then Some v
  else match subs with [] => None | _ => Some (prune_value v subs) end.

Definition projection_prefixes (projection : list bytes) : list bytes :=
  foldl (λ out p,
    match split_dot p with
    | first :: _ =>
        if bool_decide (first = []) || bool_decide (first ∈ out) then out else out ++ [first]
    | [] => out
    end) [] projection.

(** ** The ordering is reflexive and antisymmetric *)

Lemma bool_cmp_antisym a b : bool_cmp b a = CompOpp (bool_cmp a b).
Proof. by destruct a, b. Qed.

Lemma value_cmp_antisym a b : value_cmp b a = CompOpp (value_cmp a b).
Proof.
  revert b. induction a using Value_rect'; intros b'; destruct b'; simpl; try done.
  - apply bool_cmp_antisym.
  - apply Z.compare_antisym.
  - apply f64_total_cmp_antisym.
  - apply f64_total_cmp_antisym.
  - apply f64_total_cmp_antisym.
  - apply (cmp_antisym (cmp:=bytes_cmp)).
  - apply (cmp_antisym (cmp:=bytes_cmp)).
  - rewrite cmp_then_opp. by rewrite <-!(cmp_antisym (cmp:=bytes_cmp)).
  - apply Z.compare_antisym.
  - rewrite cmp_then_opp, <-Z.compare_antisym. f_equal. apply lex_antisym.
    eapply Forall_impl; [eassumption|]. intros [k v] IHv [k' v']; simpl in *.
    by rewrite cmp_then_opp, <-(cmp_antisym (cmp:=bytes_cmp)), IHv.
  - rewrite cmp_then_opp, <-Z.compare_antisym. f_equal. by apply lex_antisym.
Qed.

(** ** Transitivity

    The ordering is a total preorder on [comparable] values: no [BlobLink]
    (which ties with every other binary value) and no integer beyond the 53-bit
    significand (which [as f64] rounds). *)
Fixpoint comparable (v : Value) : bool :=
  match v with
  | Int n => Z.abs n <=? 2 ^ 53
  | BlobLink _ _ => false
  | Map fs => forallb (λ kv, comparable kv.2) fs
  | Array vs => forallb comparable vs
  | _ => true
  end.

(** The common numeric key of integers and floats. *)
Definition num_key (v : Value) : Z :=
  match v with
  | Int n => f64_key (i64_to_f64 n)
  | Float b => f64_key b
  | _ => 0
  end.

Lemma value_cmp_num a b :
  comparable a = true → comparable b = true → type_weight a = 2 → type_weight b = 2 →
  value_cmp a b = (num_key a ?= num_key b).
Proof.
  destruct a; try done; destruct b; try done; simpl; intros Ha Hb _ _; try done.
  bool_simpl. by rewrite i64_to_f64_compare.
Qed.

Lemma bool_trans3 a b c : trans3 (bool_cmp a b) (bool_cmp b c) (bool_cmp a c).
Proof. by destruct a, b, c. Qed.

Lemma forallb_elem {A} (f : A → bool) l x : forallb f l = true → x ∈ l → f x = true.
Proof. rewrite forallb_forall. intros H Hx. by apply H, list_elem_of_In. Qed.

Lemma value_cmp_weight a b :
  value_cmp a b = cmp_then (type_weight a ?= type_weight b) (value_cmp a b).
Proof. by destruct a, b. Qed.

Lemma trans3_weight a b c :
  (type_weight a = type_weight b → type_weight b = type_weight c →
   trans3 (value_cmp a b) (value_cmp b c) (value_cmp a c)) →
  trans3 (value_cmp a b) (value_cmp b c) (value_cmp a c).
Proof.
  intros H. rewrite (value_cmp_weight a b), (value_cmp_weight b c), (value_cmp_weight a c).
  apply trans3_then; [apply Z_trans3|]. rewrite !Z.compare_eq_iff. apply H.
Qed.

Lemma value_cmp_trans3 a b c :
  comparable a = true → comparable b = true → comparable c = true →
  trans3 (value_cmp a b) (value_cmp b c) (value_cmp a c).
Proof.
  revert b c. induction a as [|x|x|x|x|x| |c1 d1|x| |fs IH|vs IH] using Value_rect';
    intros b c Ha Hb Hc.
  all: apply trans3_weight; intros Hab Hbc.
  3,4: cbn [type_weight] in Hab; rewrite !value_cmp_num by (done || congruence); apply Z_trans3.
  all: destruct b; try discriminate; destruct c; try discriminate; simpl in Ha, Hb, Hc |- *.
  all: try apply bool_trans3; try apply bytes_trans3; try apply Z_trans3; try done.
  - apply trans3_then; [apply bytes_trans3|intros; apply bytes_trans3].
  - apply trans3_then; [apply Z_trans3|intros _ _]. apply lex_trans3.
    apply Forall_forall; intros kv Hin y z Hy Hz. apply trans3_then; [apply bytes_trans3|intros _ _].
    rewrite Forall_forall in IH. apply (IH kv Hin).
    + apply (forallb_elem (λ kv, comparable kv.2) _ _ Ha Hin).
    + apply (forallb_elem (λ kv, comparable kv.2) _ _ Hb Hy).
    + apply (forallb_elem (λ kv, comparable kv.2) _ _ Hc Hz).
  - apply trans3_then; [apply Z_trans3|intros _ _]. apply lex_trans3.
    apply Forall_forall; intros x Hin y z Hy Hz.
    rewrite Forall_forall in IH. apply (IH x Hin).
    + apply (forallb_elem comparable _ _ Ha Hin).
    + apply (forallb_elem comparable _ _ Hb Hy).
    + apply (forallb_elem comparable _ _ Hc Hz).
Qed.

(** ** Equality agrees with the ordering *)

(** No negative zero: [Int(0) == Float(-0.0)] although [total_cmp] separates them. *)
Fixpoint no_neg_zero (v : Value) : bool :=
  match v with
  | Float b => (0 <=? b) && (b <? 2 ^ 64) && negb (b =? 2 ^ 63)
  | Map fs => forallb (λ kv, no_neg_zero kv.2) fs
  | Array vs => forallb no_neg_zero vs
  | _ => true
  end.

Lemma list_eqb_lex {A} (eqb : A → A → bool) (cmp : A → A → comparison) l k :
  Forall (λ x, ∀ y, y ∈ k → eqb x y = true ↔ cmp x y = Eq) l →
  list_eqb eqb l k = true ↔ cmp_then (zlen l ?= zlen k) (lex_cmp cmp l k) = Eq.
Proof.
  revert k; induction l as [|x l IH]; intros [|y k] Hl; try done.
  apply Forall_cons in Hl as [Hx Hl]. cbn [list_eqb lex_cmp]. rewrite !zlen_cons.
  replace (1 + zlen l ?= 1 + zlen k) with (zlen l ?= zlen k)
    by (destruct (Z.compare_spec (zlen l) (zlen k)), (Z.compare_spec (1 + zlen l) (1 + zlen k)); lia || done).
  rewrite andb_true_iff, (Hx y) by (by left). rewrite (IH k).
  - destruct (zlen l ?= zlen k), (cmp x y); simpl; intuition congruence.
  - eapply Forall_impl; [exact Hl|]. intros z Hz w Hw. apply Hz. by right.
Qed.

Lemma f64_eqb_key n b :
  Z.abs n <= 2 ^ 53 → is_u64 b → b ≠ 2 ^ 63 →
  f64_eqb (i64_to_f64 n) b = true ↔ f64_key (i64_to_f64 n) = f64_key b.
Proof.
  intros Hn Hb Hz. unfold is_u64 in Hb.
  assert (0 <= i64_to_f64 n < 2 ^ 64 ∧ f64_is_nan (i64_to_f64 n) = false ∧ i64_to_f64 n ≠ 2 ^ 63)
    as (Hr & Hnan & Hn0).
  { assert (∀ j, 0 < j <= 2 ^ 53 → 0 < u64_to_f64 j <= 1076 * 2 ^ 52) as Hj.
    { intros j Hj. pose proof (u64_to_f64_strict 0 j ltac:(lia) ltac:(lia)).
      destruct (decide (j = 2 ^ 53)) as [->|]; [by vm_compute|].
      pose proof (u64_to_f64_strict j (2 ^ 53) ltac:(lia) ltac:(lia)).
      change (u64_to_f64 (2 ^ 53)) with (1076 * 2 ^ 52) in *. lia. }
    unfold i64_to_f64, f64_is_nan, f64_abs, f64_inf. destruct (decide (n = 0)) as [->|]; [by vm_compute|].
    split_if.
    - pose proof (Hj (- n) ltac:(lia)). split_and!; [lia|lia| |lia].
      replace ((2 ^ 63 + u64_to_f64 (- n)) mod 2 ^ 63) with (u64_to_f64 (- n))
        by (apply (Z.mod_unique_pos _ _ 1); lia). apply Z.ltb_ge. lia.
    - pose proof (Hj n ltac:(lia)). split_and!; [lia|lia| |lia].
      rewrite Z.mod_small by lia. apply Z.ltb_ge. lia. }
  set (a := i64_to_f64 n) in *; clearbody a.
  unfold f64_eqb, f64_partial_cmp. rewrite Hnan, orb_false_l.
  unfold f64_is_nan, f64_num_key, f64_key, f64_abs, f64_inf in *.
  assert (∀ x, 0 <= x < 2 ^ 64 → x mod 2 ^ 63 = if x <? 2 ^ 63 then x else x - 2 ^ 63) as Hm.
  { intros x Hx. split_if; [apply Z.mod_small; lia|symmetry; apply (Z.mod_unique_pos _ _ 1); lia]. }
  rewrite !Hm in * by lia. apply Z.ltb_ge in Hnan. clear Hm.
  split.
  - repeat split_if; try done; intros H;
      match type of H with context [?x ?= ?y] => destruct (Z.compare_spec x y) end; done || lia.
  - repeat split_if; intros H;
      try match goal with |- context [?x ?= ?y] => destruct (Z.compare_spec x y) end; done || lia.
Qed.

(** On comparable values without negative zero, [==] holds exactly when [cmp]
    says [Equal]. *)
Lemma value_eqb_cmp a b :
  comparable a = true → comparable b = true → no_neg_zero a = true → no_neg_zero b = true →
  value_eqb a b = true ↔ value_cmp a b = Eq.
Proof.
  revert b. induction a as [|x|x|x|x|x| |c1 d1|x| |fs IH|vs IH] using Value_rect';
    intros b; destruct b as [|y|y|y|y|y| |c2 d2|y| |gs|ws];
    cbn [value_eqb value_cmp type_weight comparable no_neg_zero]; intros Ha Hb Ha' Hb'; try done.
  - by destruct x, y.
  - rewrite Z.eqb_eq. simpl. by rewrite Z.compare_eq_iff.
  - bool_simpl. rewrite f64_eqb_key by (unfold is_u64; lia).
    simpl. unfold f64_total_cmp. by rewrite Z.compare_eq_iff.
  - bool_simpl. unfold f64_eqb.
    assert (f64_partial_cmp x (i64_to_f64 y) = CompOpp <$> f64_partial_cmp (i64_to_f64 y) x) as ->.
    { unfold f64_partial_cmp. rewrite orb_comm. split_if; [done|].
      simpl. f_equal. apply Z.compare_antisym. }
    assert (∀ o, (match CompOpp <$> o with Some Eq => true | _ => false end)
      = (match o with Some Eq => true | _ => false end)) as -> by (by intros [[]|]).
    change (f64_eqb (i64_to_f64 y) x = true ↔ cmp_then Eq (f64_total_cmp x (i64_to_f64 y)) = Eq).
    rewrite f64_eqb_key by (unfold is_u64; lia). simpl. unfold f64_total_cmp.
    rewrite Z.compare_eq_iff. split; congruence.
  - bool_simpl. rewrite Z.eqb_eq. simpl. unfold f64_total_cmp. rewrite Z.compare_eq_iff.
    split; [by intros ->|]. apply f64_key_inj; unfold is_u64; lia.
  - rewrite bytes_eqb_eq. simpl. by rewrite (cmp_eq (cmp:=bytes_cmp)).
  - rewrite bytes_eqb_eq. simpl. by rewrite (cmp_eq (cmp:=bytes_cmp)).
  - rewrite andb_true_iff, !bytes_eqb_eq, <-!(cmp_eq (cmp:=bytes_cmp)). simpl.
    destruct (bytes_cmp c1 c2); simpl; intuition congruence.
  - rewrite Z.eqb_eq. simpl. by rewrite Z.compare_eq_iff.
  - apply list_eqb_lex. apply Forall_forall; intros [k v] Hin [k' v'] Hin'; simpl.
    rewrite Forall_forall in IH. rewrite andb_true_iff, bytes_eqb_eq, (IH _ Hin v').
    + rewrite <-(cmp_eq (cmp:=bytes_cmp)). destruct (bytes_cmp k k'); simpl; intuition congruence.
    + apply (forallb_elem (λ kv, comparable kv.2) _ _ Ha Hin).
    + apply (forallb_elem (λ kv, comparable kv.2) _ _ Hb Hin').
    + apply (forallb_elem (λ kv, no_neg_zero kv.2) _ _ Ha' Hin).
    + apply (forallb_elem (λ kv, no_neg_zero kv.2) _ _ Hb' Hin').
  - apply list_eqb_lex. apply Forall_forall; intros x Hin y Hin'.
    rewrite Forall_forall in IH. apply (IH _ Hin).
    + apply (forallb_elem comparable _ _ Ha Hin).
    + apply (forallb_elem comparable _ _ Hb Hin').
    + apply (forallb_elem no_neg_zero _ _ Ha' Hin).
    + apply (forallb_elem no_neg_zero _ _ Hb' Hin').
Qed.

(** ** Paths and projections *)

(** [m.iter().find(|(k, _)| k == seg)]: the first entry of that name. *)
Fixpoint assoc {A} (k : bytes) (m : list (bytes * A)) : option A :=
  match m with
  | [] => None
  | (k', v) :: m => if bytes_eqb k' k then Some v else assoc k m
  end.

(** The segment loop of [HakoDoc::get_path]: Map-only descent. *)
Fixpoint descend (v : Value) (segs : list bytes) : option Value :=
  match segs with
  | [] => Some v
  | seg :: segs =>
      if bool_decide (seg = []) then None
      else match v with
           | Map m => v' ← assoc seg m; descend v' segs
           | _ => None
           end
  end.

Lemma select_paths_spec k paths subs w subs' :
  select_paths k paths subs = (w, subs') →
  (w = true ↔ [k] ∈ paths) ∧
  (w = false → ∀ r, r ∈ subs' ↔ r ∈ subs ∨ (k :: r) ∈ paths).
Proof.
  revert subs; induction paths as [|p paths IH]; intros subs; simpl.
  - intros [= <- <-]. split; [|intros _ r]; rewrite ?elem_of_nil; intuition discriminate.
  - destruct p as [|seg rest].
    { intros H; apply IH in H as [Hw Hs]. split.
      - rewrite Hw, elem_of_cons. intuition discriminate.
      - intros E r. rewrite Hs, elem_of_cons by done. intuition discriminate. }
    destruct (bytes_eqb seg k) eqn:Hk.
    + apply bytes_eqb_eq in Hk as ->. destruct rest as [|s rest].
      * intros [= <- <-]. split; [|done]. rewrite elem_of_cons. tauto.
      * intros H; apply IH in H as [Hw Hs]. split.
        -- rewrite Hw, elem_of_cons. intuition discriminate.
        -- intros E r. rewrite Hs, elem_of_cons, elem_of_app, list_elem_of_singleton by done.
           intuition congruence.
    + assert (seg ≠ k) as Hne by (intros ->; by rewrite bytes_eqb_refl in Hk).
      intros H; apply IH in H as [Hw Hs]. split.
      * rewrite Hw, elem_of_cons. intuition congruence.
      * intros E r. rewrite Hs, elem_of_cons by done. intuition congruence.
Qed.

Lemma assoc_omap {A} (f : bytes → A → option A) k (m : list (bytes * A)) :
  assoc k (omap (λ kv, (λ v, (kv.1, v)) <$> f kv.1 kv.2) m) =
  match assoc k m with
  | Some v => match f k v with Some v' => Some v' | None =>
      assoc k (omap (λ kv, (λ v, (kv.1, v)) <$> f kv.1 kv.2) m) end
  | None => None
  end.
Proof.
  induction m as [|[k' v] m IH]; simpl; [done|].
  destruct (bytes_eqb k' k) eqn:Hk.
  - apply bytes_eqb_eq in Hk as ->. destruct (f k v); simpl; [|done]. by rewrite bytes_eqb_refl.
  - destruct (f k' v); simpl; rewrite ?Hk; exact IH.
Qed.

(** The entry kept by [prune_value] for one key of a map. *)
Definition prune_entry (paths : list (list bytes)) (k : bytes) (v : Value) : option Value :=
  let '(whole, subs) := select_paths k paths [] in
  if whole : bool then Some v
  else match subs with [] => None | _ => Some (prune_value v subs) end.

Lemma prune_value_map paths m :
  paths ≠ [] →
  prune_value (Map m) paths = Map (omap (λ kv, (λ v, (kv.1, v)) <$> prune_entry paths kv.1 kv.2) m).
Proof.
  intros Hp. destruct paths as [|p paths]; [done|]. cbn [prune_value]. f_equal.
  apply list_omap_ext, Forall_Forall2_diag, Forall_forall. intros [k v] _.
  unfold prune_entry. cbn [fst snd]. by destruct (select_paths k _ _) as [[] []].
Qed.

(** Every selected path reads the same value after pruning. *)
Lemma prune_value_path p v paths :
  p ∈ paths → p ≠ [] → descend (prune_value v paths) p = descend v p.
Proof.
  revert v paths; induction p as [|seg p IH]; intros v paths Hin Hne; [done|].
  assert (paths ≠ []) as Hp by (intros ->; by apply not_elem_of_nil in Hin).
  cbn [descend]. split_if; [done|]. destruct v as [| | | | | | | | | |m|vs].
  11: { rewrite prune_value_map by done. rewrite assoc_omap.
    destruct (assoc seg m) as [v|]; [|done]. cbn [mbind option_bind].
    unfold prune_entry. destruct (select_paths seg paths []) as [w subs] eqn:Hs.
    apply select_paths_spec in Hs as [Hw Hs]. destruct w; [done|].
    specialize (Hs eq_refl p). rewrite elem_of_nil in Hs.
    assert (p ∈ subs) as Hps by tauto.
    destruct subs as [|s subs]; [by apply not_elem_of_nil in Hps|].
    apply IH; [done|]. intros ->. destruct Hw as [_ Hw]. discriminate (Hw Hin). }
  all: by destruct paths.
Qed.

Lemma field_paths_spec key projection subs w subs' :
  field_paths key projection subs = (w, subs') →
  (w = true ↔ ∃ p, p ∈ projection ∧ split_dot p = [key]) ∧
  (w = false → ∀ r, r ∈ subs' ↔ r ∈ subs ∨
     (∃ p, p ∈ projection ∧ split_dot p = key :: r ∧ r ≠ [] ∧ [] ∉ r)).
Proof.
  revert subs; induction projection as [|p ps IH]; intros subs; simpl.
  - intros [= <- <-]. split; [split; [done|]|intros _ r].
    + intros (p & Hp & _). by apply not_elem_of_nil in Hp.
    + split; [tauto|]. intros [?|(p & Hp & _)]; [done|]. by apply not_elem_of_nil in Hp.
  - assert (∀ (Q : bytes → Prop), (∃ q, q ∈ p :: ps ∧ Q q) ↔ Q p ∨ ∃ q, q ∈ ps ∧ Q q) as Hex.
    { intros Q. setoid_rewrite elem_of_cons. split.
      - intros (q & [->|?] & ?); eauto.
      - intros [?|(q & ? & ?)]; eauto. }
    rewrite Hex. setoid_rewrite Hex. clear Hex.
    destruct (split_dot p) as [|first rest] eqn:Hsp.
    { intros H; apply IH in H as [Hw Hs]. split; [rewrite Hw; intuition discriminate|].
      intros E r. rewrite Hs by done. intuition discriminate. }
    destruct (bytes_eqb first key) eqn:Hk.
    + apply bytes_eqb_eq in Hk as ->. destruct rest as [|s rest].
      * intros [= <- <-]. split; [|done]. intuition.
      * destruct (existsb _ _) eqn:Hex; intros H; apply IH in H as [Hw Hs].
        -- split; [rewrite Hw; intuition discriminate|].
           apply existsb_exists in Hex as (e & He & Hee%bool_decide_eq_true). subst e.
           apply list_elem_of_In in He.
           intros E r. rewrite Hs by done. split; [tauto|].
           intros [?|[([= <-] & _ & Hni)|?]]; [tauto|done|tauto].
        -- split; [rewrite Hw; intuition discriminate|].
           assert ([] ∉ s :: rest) as Hni.
           { intros Hin. apply not_true_iff_false in Hex. apply Hex, existsb_exists.
             exists []. split; [by apply list_elem_of_In|by apply bool_decide_eq_true]. }
           intros E r. rewrite Hs, elem_of_app, list_elem_of_singleton by done.
           split; [|intros [?|[([= <-] & _)|?]]; tauto].
           intros [[?| ->]|?]; [tauto| |tauto]. right; left. done.
    + assert (first ≠ key) as Hne by (intros ->; by rewrite bytes_eqb_refl in Hk).
      intros H; apply IH in H as [Hw Hs]. split; [rewrite Hw; intuition congruence|].
      intros E r. rewrite Hs by done. intuition congruence.
Qed.
