(* ===== verification/Doc.v ===== *)
(** * The binary document format (src/document/hako_doc.rs)

    Documents as a sorted vector of named values with a logical time, their
    encoding, the strict decoder, the borrowing views that read a field or a
    dotted path straight from the encoded bytes, and the owned accessors.

    [decode_value] recurses on slices that are strictly shorter than its input,
    so the length of the input is enough fuel ([decode_value_fuel_irrelevant]);
    the array loop consumes at least the tag byte of every element, so the
    length of the slice bounds it as well. *)

From stdpp Require Import prelude list sorting strings.
From Stdlib Require Import ZArith Lia.
From S2P Require Import Prelude RustStd Varint Value.

Local Open Scope Z_scope.
Local Open Scope hako_scope.

Definition MAGIC : Z := 0xF1.
Definition VERSION : Z := 5.

Record HakoDoc := mkDoc { fields : list (bytes * Value); _time : Z }.

(** ** Owned accessors *)

(** [HakoDoc::get]: binary search by key. *)
Definition doc_get (d : HakoDoc) (key : bytes) : option Value :=
  match binary_search_by (key_cmp fst key) (fields d) with
  | inl pos => snd <$> fields d !! pos
  | inr _ => None
  end.

(** [HakoDoc::get_path]. *)
Definition get_path (d : HakoDoc) (path : bytes) : option Value :=
  match split_dot path with
  | [] => None
  | first :: segs =>
      if bool_decide (first = []) then None
      else cur ← doc_get d first; descend cur segs
  end.

(** [HakoDoc::insert]. *)
Definition doc_insert (d : HakoDoc) (key : bytes) (v : Value) : HakoDoc :=
  match binary_search_by (key_cmp fst key) (fields d) with
  | inl pos => mkDoc (alter (λ kv, (kv.1, v)) pos (fields d)) (_time d)
  | inr pos => mkDoc (vec_insert pos (key, v) (fields d)) (_time d)
  end.

(** [HakoDoc::project_fields]. *)
Definition project_fields (d : HakoDoc) (projection : list bytes) : list (bytes * Value) :=
  match projection with
  | [] => fields d
  | _ => omap (λ kv, (λ v, (kv.1, v)) <$> prune_field_value kv.2 projection kv.1) (fields d)
  end.

(** ** Encoding *)

(** A body preceded by its [u32] length (reserved, then patched in place). *)
Definition with_len (body : bytes) : bytes := to_le 4 (as_u32 (zlen body)) ++ body.

(** [HakoDoc::encode_value_to], as the bytes it appends. *)
Fixpoint encode_value (v : Value) : bytes :=
  match v with
  | Null => [0xC0]
  | ServerTimestamp => [0xC1]
  | Bool true => [0xC2]
  | Bool false => [0xC3]
  | Int n =>
      if (0 <=? n) && (n <=? 15) then [Z.lor 0x10 (as_u8 n)]
      else 3 :: with_len (encode_varint (zigzag_encode n))
  | String s =>
      if zlen s <=? 7 then Z.lor 0x40 (as_u8 (zlen s)) :: s
      else 5 :: with_len s
  | Float b => 4 :: to_le 4 8 ++ to_le 8 b
  | Binary b => 6 :: with_len b
  | Timestamp n => 7 :: with_len (encode_varint (zigzag_encode n))
  | Map fs =>
      8 :: with_len (to_le 2 (as_u16 (zlen fs)) ++
        concat ((λ kv, as_u8 (zlen kv.1) :: kv.1 ++ encode_value kv.2) <$> fs))
  | Array items =>
      9 :: with_len (to_le 4 (as_u32 (zlen items)) ++ concat (encode_value <$> items))
  | Reference c d => 10 :: with_len (as_u8 (zlen c) :: c ++ as_u8 (zlen d) :: d)
  | BlobLink o l => 11 :: to_le 4 12 ++ to_le 8 o ++ to_le 4 l
  end.

(** One field or map entry. *)
Definition encode_entry (kv : bytes * Value) : bytes :=
  as_u8 (zlen kv.1) :: kv.1 ++ encode_value kv.2.

(** [HakoDoc::encode_into] ([encode] and [encode_buffered] start from an empty
    buffer). *)
Definition encode (d : HakoDoc) : bytes :=
  MAGIC :: VERSION :: i64_to_le (_time d) ++ to_le 2 (as_u16 (zlen (fields d))) ++
  concat (encode_entry <$> fields d).

(** ** Decoding *)

Definition tag_is_inline (tag : Z) : bool := (0xC0 <=? tag) && (tag <=? 0xC3).
Definition tag_is_small_int (tag : Z) : bool := Z.land tag 0xF0 =? 0x10.
Definition tag_is_small_str (tag : Z) : bool := Z.land tag 0xF8 =? 0x40.

(** [skip_value]: the position after the value that starts at [pos]. *)
Definition skip_value (tag : Z) (b : bytes) (pos : Z) : option Z :=
  if tag_is_inline tag then Some pos
  else if tag_is_small_int tag then Some pos
  else if tag_is_small_str tag then
    let pos := pos + Z.land tag 0x07 in
    if zlen b <? pos then None else Some pos
  else if (3 <=? tag) && (tag <=? 11) then
    if zlen b <? pos + 4 then None
    else
      v_len ← of_le <$> get_range b pos (pos + 4);
      let pos := pos + 4 in
      if zlen b <? pos + v_len then None else Some (pos + v_len)
  else None.

(** The framing step shared by every walk over entries: key length, key (UTF-8
    checked when [validate]), tag, value span.  Returns the key, the tag, the
    value span and the position after the entry. *)
Definition read_entry (validate : bool) (b : bytes) (p : Z) : option (bytes * Z * bytes * Z) :=
  k_len ← get b p;
  let p := p + 1 in
  raw ← get_range b p (p + k_len);
  key ← (if validate then from_utf8 raw else Some raw);
  let p := p + k_len in
  tag ← get b p;
  let p := p + 1 in
  p' ← skip_value tag b p;
  span ← get_range b p p';
  Some (key, tag, span, p').

(** The entry loop of [decode_value] on a map body. *)
Fixpoint map_loop (dec : Z → bytes → option Value) (count : nat) (b : bytes) (p : Z)
  : option (list (bytes * Value)) :=
  match count with
  | O => Some []
  | S count =>
      '(key, tag, span, p) ← read_entry true b p;
      v ← dec tag span;
      rest ← map_loop dec count b p;
      Some ((key, v) :: rest)
  end.

(** The element loop of [decode_value] on an array body. *)
Fixpoint array_loop (dec : Z → bytes → option Value) (fuel : nat) (count : Z) (b : bytes) (p : Z)
  : option (list Value) :=
  if count <=? 0 then Some []
  else match fuel with
  | O => None
  | S fuel =>
      tag ← get b p;
      let p := p + 1 in
      p' ← skip_value tag b p;
      span ← get_range b p p';
      v ← dec tag span;
      rest ← array_loop dec fuel (count - 1) b p';
      Some (v :: rest)
  end.

Fixpoint decode_value_fuel (fuel : nat) (tag : Z) (b : bytes) : option Value :=
  match fuel with
  | O => None
  | S fuel =>
      if tag =? 0xC0 then Some Null
      else if tag =? 0xC1 then Some ServerTimestamp
      else if tag =? 0xC2 then Some (Bool true)
      else if tag =? 0xC3 then Some (Bool false)
      else if tag_is_small_int tag then Some (Int (Z.land tag 0x0F))
      else if tag_is_small_str tag then
        s ← get_range b 0 (Z.land tag 0x07);
        s ← from_utf8 s;
        Some (String s)
      else if (tag =? 3) || (tag =? 7) then
        '(val, _) ← decode_varint b 4;
        Some (if tag =? 3 then Int (zigzag_decode val) else Timestamp (zigzag_decode val))
      else if tag =? 4 then
        f ← get_range b 4 12;
        Some (Float (of_le f))
      else if tag =? 5 then
        v_len ← of_le <$> get_range b 0 4;
        s ← get_range b 4 (4 + v_len);
        s ← from_utf8 s;
        Some (String s)
      else if tag =? 6 then
        v_len ← of_le <$> get_range b 0 4;
        s ← get_range b 4 (4 + v_len);
        Some (Binary s)
      else if tag =? 8 then
        count ← of_le <$> get_range b 4 6;
        fs ← map_loop (decode_value_fuel fuel) (Z.to_nat count) b 6;
        Some (Map fs)
      else if tag =? 9 then
        count ← of_le <$> get_range b 4 8;
        vs ← array_loop (decode_value_fuel fuel) (S (length b)) count b 8;
        Some (Array vs)
      else if tag =? 10 then
        c_len ← get b 4;
        c ← get_range b 5 (5 + c_len);
        c ← from_utf8 c;
        d_len ← get b (5 + c_len);
        d ← get_range b (6 + c_len) (6 + c_len + d_len);
        d ← from_utf8 d;
        Some (Reference c d)
      else if tag =? 11 then
        o ← get_range b 4 12;
        l ← get_range b 12 16;
        Some (BlobLink (of_le o) (of_le l))
      else Some Null
  end.
Definition decode_value (tag : Z) (b : bytes) : option Value :=
  decode_value_fuel (S (length b)) tag b.

(** ** Views *)

Record HakoDocView := mkView { v_bytes : bytes; v_count : Z; v_time : Z }.

(** [HakoDocView::new]. *)
Definition view_new (b : bytes) : option HakoDocView :=
  if (zlen b <? 12) || negb (bool_decide (get b 0 = Some MAGIC)) ||
     negb (bool_decide (get b 1 = Some VERSION)) then None
  else
    t ← i64_of_le <$> get_range b 2 10;
    c ← of_le <$> get_range b 10 12;
    Some (mkView b c t).

(** [HakoDocIter] and its [next].  A failed step leaves [remaining] unchanged,
    which is all its callers look at then. *)
Record HakoDocIter := mkIter { it_bytes : bytes; it_pos : Z; it_remaining : nat }.

Definition view_iter (v : HakoDocView) : HakoDocIter :=
  mkIter (v_bytes v) 12 (Z.to_nat (v_count v)).

Definition iter_next (validate : bool) (it : HakoDocIter)
  : option (bytes * Z * bytes) * HakoDocIter :=
  match it_remaining it with
  | O => (None, it)
  | S rem =>
      match read_entry validate (it_bytes it) (it_pos it) with
      | None => (None, it)
      | Some (key, tag, span, p) => (Some (key, tag, span), mkIter (it_bytes it) p rem)
      end
  end.

(** [for item in it.by_ref()]: the items yielded and the iterator left behind.
    Every item decrements [remaining], which bounds the loop. *)
Fixpoint iter_collect (validate : bool) (n : nat) (it : HakoDocIter)
  : list (bytes * Z * bytes) * HakoDocIter :=
  match n with
  | O => ([], it)
  | S n =>
      match iter_next validate it with
      | (None, it) => ([], it)
      | (Some item, it) =>
          let '(items, it) := iter_collect validate n it in (item :: items, it)
      end
  end.
Definition iter_all (validate : bool) (it : HakoDocIter) :=
  iter_collect validate (it_remaining it) it.

(** Strict framing: all fields read and the buffer consumed exactly. *)
Definition fully_consumed (it : HakoDocIter) (b : bytes) : bool :=
  (it_remaining it =? 0)%nat && (it_pos it =? zlen b).

(** [HakoDoc::decode]. *)
Definition decode (b : bytes) : option HakoDoc :=
  view ← view_new b;
  let '(items, it) := iter_all true (view_iter view) in
  fs ← mapM (λ '(key, tag, data), v ← decode_value tag data; Some (key, v)) items;
  if fully_consumed it b then Some (mkDoc fs (v_time view)) else None.

(** [HakoDoc::decode_projected]. *)
Definition decode_projected (b : bytes) (projection : list bytes) : option HakoDoc :=
  view ← view_new b;
  let '(items, it) := iter_all true (view_iter view) in
  let prefixes := projection_prefixes projection in
  fs ← mapM (λ '(key, tag, data),
    if bool_decide (projection = []) || bool_decide (key ∈ prefixes) then
      val ← decode_value tag data;
      if bool_decide (projection = []) then Some (Some (key, val))
      else Some ((λ pruned, (key, pruned)) <$> prune_field_value val projection key)
    else Some None) items;
  if fully_consumed it b then Some (mkDoc (omap id fs) (v_time view)) else None.

(** The field loop of [DocView::get] and of the first segment of the path
    readers: stop at the first field of that name. *)
Fixpoint find_field (n : nat) (b : bytes) (p : Z) (key : bytes) : option (Z * bytes) :=
  match n with
  | O => None
  | S n =>
      '(k, tag, span, p) ← read_entry true b p;
      if bytes_eqb k key then Some (tag, span) else find_field n b p key
  end.

(** [DocView::get]. *)
Definition docview_get (v : HakoDocView) (field : bytes) : option Value :=
  '(tag, span) ← find_field (Z.to_nat (v_count v)) (v_bytes v) 12 field;
  decode_value tag span.

(** The segment loop of [get_path_span]: one map level per segment, on spans. *)
Fixpoint span_descend (tag : Z) (span : bytes) (segs : list bytes) : option (Z * bytes) :=
  match segs with
  | [] => Some (tag, span)
  | seg :: segs =>
      if bool_decide (seg = []) || negb (tag =? 8) then None
      else
        count ← of_le <$> get_range span 4 6;
        '(t, s) ← find_field (Z.to_nat count) span 6 seg;
        span_descend t s segs
  end.

(** [DocView::get_path_span]. *)
Definition get_path_span (v : HakoDocView) (path : bytes) : option (Z * bytes) :=
  match split_dot path with
  | [] => None
  | first :: segs =>
      if bool_decide (first = []) then None
      else
        '(tag, span) ← find_field (Z.to_nat (v_count v)) (v_bytes v) 12 first;
        span_descend tag span segs
  end.

(** [DocView::get_path] and [HakoDocView::get_path]. *)
Definition docview_get_path (v : HakoDocView) (path : bytes) : option Value :=
  '(tag, span) ← get_path_span v path;
  decode_value tag span.

(** [BorrowedValue::as_str], [as_bytes], [as_f64]. *)
Definition span_as_str (tag : Z) (data : bytes) : option bytes :=
  if tag_is_small_str tag then get_range data 0 (Z.land tag 0x07) ≫= from_utf8
  else if tag =? 5 then
    len ← of_le <$> get_range data 0 4;
    get_range data 4 (4 + len) ≫= from_utf8
  else None.
Definition span_as_bytes (tag : Z) (data : bytes) : option bytes :=
  if negb (tag =? 6) then None
  else
    len ← of_le <$> get_range data 0 4;
    get_range data 4 (4 + len).
Definition span_as_f64 (tag : Z) (data : bytes) : option Z :=
  if tag_is_small_int tag then Some (i64_to_f64 (Z.land tag 0x0F))
  else if tag =? 3 then
    '(v, _) ← decode_varint data 4;
    Some (i64_to_f64 (zigzag_decode v))
  else if tag =? 4 then of_le <$> get_range data 4 12
  else None.

(** [DocView::get_str], [get_bytes], [get_path_str], [get_path_bytes]. *)
Definition docview_get_str (v : HakoDocView) (key : bytes) : option bytes :=
  '(_, tag, data) ← snd <$> list_find (λ i, i.1.1 = key) (iter_all true (view_iter v)).1;
  span_as_str tag data.
Definition docview_get_bytes (v : HakoDocView) (key : bytes) : option bytes :=
  '(_, tag, data) ← snd <$> list_find (λ i, i.1.1 = key) (iter_all true (view_iter v)).1;
  span_as_bytes tag data.
Definition docview_get_path_str (v : HakoDocView) (path : bytes) : option bytes :=
  '(tag, data) ← get_path_span v path; span_as_str tag data.
Definition docview_get_path_bytes (v : HakoDocView) (path : bytes) : option bytes :=
  '(tag, data) ← get_path_span v path; span_as_bytes tag data.

(** [DocView::has_blob_links]: an unreadable offset counts as a link. *)
Definition has_blob_links (v : HakoDocView) : bool :=
  existsb (λ '(_, tag, data),
    (tag =? 11) &&
    match get_range data 4 12 with
    | Some o => negb (of_le o =? 2 ^ 64 - 1)
    | None => true
    end) (iter_all true (view_iter v)).1.

Example doc_roundtrip_ex :
  let d := mkDoc [(b#("a"), Int 7); (b#("b"), Map [(b#("c"), Array [String b#("hello world"); Null])])] (-5) in
  decode (encode d) = Some d ∧
  (view_new (encode d) ≫= λ v, docview_get_path v b#("b.c")) = Some (Array [String b#("hello world"); Null]).
Proof. by vm_compute. Qed.
