(* ===== verification/DocFacts.v ===== *)
(** * Facts about the document format

    The values and documents whose lengths fit the fields of the format
    ([encodable], [doc_encodable]), the framing lemmas of the walkers, and the
    round trip of the codec. *)

From stdpp Require Import prelude list sorting strings.
From Stdlib Require Import ZArith Lia.
From S2P Require Import Prelude RustStd Varint Value Doc.

Local Open Scope Z_scope.

(** ** What the format can hold *)

Definition u64b (z : Z) : bool := (0 <=? z) && (z <? 2 ^ 64).
Definition u32b (z : Z) : bool := (0 <=? z) && (z <? 2 ^ 32).
Definition i64b (z : Z) : bool := (- 2 ^ 63 <=? z) && (z <? 2 ^ 63).
Definition byteb (z : Z) : bool := (0 <=? z) && (z <? 256).

(** A field name: valid UTF-8 of at most 255 bytes. *)
Definition name_ok (k : bytes) : bool := utf8_valid k && (zlen k <? 256).

(** Integers in range, UTF-8 strings, names and counts that fit their length
    fields, and bodies below 4 GiB. *)
Fixpoint encodable (v : Value) : bool :=
  match v with
  | Null | ServerTimestamp | Bool _ => true
  | Int n | Timestamp n => i64b n
  | Float b => u64b b
  | String s => utf8_valid s && (zlen s <? 2 ^ 32)
  | Binary b => forallb byteb b && (zlen b <? 2 ^ 32)
  | BlobLink o l => u64b o && u32b l
  | Reference c d => name_ok c && name_ok d
  | Map fs =>
      (zlen fs <? 2 ^ 16) && forallb (λ kv, name_ok kv.1 && encodable kv.2) fs &&
      (2 + zlen (concat (encode_entry <$> fs)) <? 2 ^ 32)
  | Array vs =>
      (zlen vs <? 2 ^ 32) && forallb encodable vs &&
      (4 + zlen (concat (encode_value <$> vs)) <? 2 ^ 32)
  end.

Definition doc_encodable (d : HakoDoc) : bool :=
  i64b (_time d) && (zlen (fields d) <? 2 ^ 16) &&
  forallb (λ kv, name_ok kv.1 && encodable kv.2) (fields d).

(** ** Byte ranges *)

Ltac rng_solve :=
  repeat match goal with
  | H : in_rng _ _ _ = true |- _ => unfold in_rng in H
  | H : cont _ = true |- _ => unfold cont, in_rng in H
  | H : in_rng _ _ _ || in_rng _ _ _ = true |- _ => apply orb_true_iff in H as [H|H]
  end; bool_simpl; unfold is_byte; lia.

Ltac utf8_step IH :=
  bool_simpl; repeat (constructor; [rng_solve|]); apply IH; [simpl; lia|assumption].

Lemma utf8_valid_bytes s : utf8_valid s = true → bytes_ok s.
Proof.
  remember (length s) as n eqn:Hn. revert s Hn.
  induction (lt_wf n) as [n _ IH]; intros s -> H. destruct s as [|b0 s0]; [constructor|].
  assert (∀ s', (length s' < length (b0 :: s0))%nat → utf8_valid s' = true → bytes_ok s') as IH'
    by (intros s' Hl; by apply (IH _ Hl)).
  clear IH. cbn [utf8_valid] in H.
  destruct (in_rng 0 127 b0) eqn:E0; [utf8_step IH'|].
  destruct s0 as [|b1 s1]; [done|]. destruct (in_rng 194 223 b0) eqn:E1; [utf8_step IH'|].
  destruct s1 as [|b2 s2]; [done|].
  destruct (b0 =? 224) eqn:E2; [utf8_step IH'|].
  destruct (in_rng 225 236 b0 || in_rng 238 239 b0) eqn:E3; [utf8_step IH'|].
  destruct (b0 =? 237) eqn:E4; [utf8_step IH'|].
  destruct s2 as [|b3 s3]; [done|].
  destruct (b0 =? 240) eqn:E5; [utf8_step IH'|].
  destruct (in_rng 241 243 b0) eqn:E6; [utf8_step IH'|].
  destruct (b0 =? 244) eqn:E7; [utf8_step IH'|done].
Qed.

Lemma name_ok_inv k : name_ok k = true → utf8_valid k = true ∧ 0 <= zlen k < 256.
Proof. unfold name_ok; intros; bool_simpl. pose proof (zlen_nonneg k). done. Qed.

Lemma as_u8_name k : name_ok k = true → as_u8 (zlen k) = zlen k.
Proof. intros [_ ?]%name_ok_inv. by apply as_u8_id. Qed.

(** ** Tags *)

Lemma small_int_tag n :
  0 <= n <= 15 →
  tag_is_inline (Z.lor 0x10 (as_u8 n)) = false ∧ tag_is_small_int (Z.lor 0x10 (as_u8 n)) = true ∧
  Z.land (Z.lor 0x10 (as_u8 n)) 0x0F = n.
Proof.
  intros Hn. assert (n ∈ seqZ 0 16) as Hin by (apply elem_of_seqZ; lia).
  revert n Hn Hin. assert (Forall (λ n, tag_is_inline (Z.lor 0x10 (as_u8 n)) = false ∧
    tag_is_small_int (Z.lor 0x10 (as_u8 n)) = true ∧ Z.land (Z.lor 0x10 (as_u8 n)) 0x0F = n)
    (seqZ 0 16)) as HF by (repeat constructor).
  intros n _ Hin. by rewrite Forall_forall in HF; apply HF.
Qed.

Lemma small_str_tag n :
  0 <= n <= 7 →
  let tag := Z.lor 0x40 (as_u8 n) in
  tag_is_inline tag = false ∧ tag_is_small_int tag = false ∧ tag_is_small_str tag = true ∧
  Z.land tag 0x07 = n ∧ tag ≠ 0xC0 ∧ tag ≠ 0xC1 ∧ tag ≠ 0xC2 ∧ tag ≠ 0xC3.
Proof.
  intros Hn. assert (n ∈ seqZ 0 8) as Hin by (apply elem_of_seqZ; lia).
  revert n Hn Hin. assert (Forall (λ n, let tag := Z.lor 0x40 (as_u8 n) in
    tag_is_inline tag = false ∧ tag_is_small_int tag = false ∧ tag_is_small_str tag = true ∧
    Z.land tag 0x07 = n ∧ tag ≠ 0xC0 ∧ tag ≠ 0xC1 ∧ tag ≠ 0xC2 ∧ tag ≠ 0xC3)
    (seqZ 0 8)) as HF by (repeat constructor; discriminate).
  intros n _ Hin. rewrite Forall_forall in HF; by apply HF.
Qed.

(** ** Skipping never leaves the buffer *)

Lemma skip_value_bounds tag b p p' :
  0 <= p <= zlen b → bytes_ok b → skip_value tag b p = Some p' → p <= p' <= zlen b.
Proof.
  intros Hp Hb. unfold skip_value. repeat split_if; try done; try (intros [= <-]; lia).
  - intros [= <-]. split; [|lia].
    pose proof (Z.land_nonneg tag 7). lia.
  - destruct (get_range b p (p + 4)) as [h|] eqn:Hh; [|done]. simpl.
    pose proof (of_le_bound h (Forall_get_range _ _ _ _ _ Hb Hh)).
    split_if; [done|]. intros [= <-]. lia.
Qed.

(** A long value: tags 3 to 11 followed by a length-prefixed body. *)
Lemma long_tag_cases tag :
  3 <= tag <= 11 → tag_is_inline tag = false ∧ tag_is_small_int tag = false ∧ tag_is_small_str tag = false.
Proof.
  intros Ht. assert (tag ∈ seqZ 3 9) as Hin by (apply elem_of_seqZ; lia).
  assert (Forall (λ tag, tag_is_inline tag = false ∧ tag_is_small_int tag = false ∧
    tag_is_small_str tag = false) (seqZ 3 9)) as HF by (repeat constructor).
  rewrite Forall_forall in HF. by apply HF.
Qed.

Lemma skip_value_long tag pre body post :
  3 <= tag <= 11 → zlen body < 2 ^ 32 →
  skip_value tag (pre ++ with_len body ++ post) (zlen pre) = Some (zlen pre + zlen (with_len body)).
Proof.
  intros Ht Hl. destruct (long_tag_cases tag Ht) as (E1 & E2 & E3). unfold skip_value, with_len.
  rewrite E1, E2, E3. replace ((3 <=? tag) && (tag <=? 11)) with true
    by (symmetry; apply andb_true_iff; rewrite !Z.leb_le; lia).
  rewrite <-!app_assoc. split_if; [zlen|].
  rewrite get_range_mid by zlen. opt_simpl.
  rewrite as_u32_id, of_le_to_le_u32 by (unfold is_u32; zlen).
  split_if; [zlen|]. f_equal. zlen.
Qed.

(** The encoding of an encodable value is framed: its first byte is the tag and
    [skip_value] skips exactly the rest. *)
Lemma encode_value_framed v :
  encodable v = true →
  ∃ tag data, encode_value v = tag :: data ∧
    ∀ pre post, skip_value tag (pre ++ data ++ post) (zlen pre) = Some (zlen pre + zlen data).
Proof.
  assert (∀ tag body, 3 <= tag <= 11 → zlen body < 2 ^ 32 →
    ∃ tag' data, tag :: with_len body = tag' :: data ∧
      ∀ pre post, skip_value tag' (pre ++ data ++ post) (zlen pre) = Some (zlen pre + zlen data)) as Hlong.
  { intros tag body Ht Hb. exists tag, (with_len body). split; [done|].
    intros; by apply skip_value_long. }
  assert (∀ n, zlen (encode_varint (zigzag_encode n)) < 2 ^ 32) as Hvar.
  { intros n. pose proof (encode_varint_len (zigzag_encode n) (zigzag_encode_u64 n)). lia. }
  destruct v as [|x|n|x|s|s|o l|c d|n| |fs|vs]; cbn [encode_value encodable]; intros Henc; bool_simpl.
  - exists 0xC0, []. split; [done|]. intros; simpl. rewrite zlen_nil. f_equal; lia.
  - destruct x; [exists 0xC2, []|exists 0xC3, []]; (split; [done|]; intros; simpl;
      rewrite zlen_nil; f_equal; lia).
  - split_if; [|by apply Hlong].
    exists (Z.lor 16 (as_u8 n)), []. split; [done|]. intros pre post.
    destruct (small_int_tag n ltac:(lia)) as (E1 & E2 & _). unfold skip_value. rewrite E1, E2.
    rewrite zlen_nil. f_equal; lia.
  - apply (Hlong 4 (to_le 8 x)); [lia|by rewrite zlen_to_le].
  - split_if; [|by apply Hlong].
    exists (Z.lor 64 (as_u8 (zlen s))), s. split; [done|]. intros pre post.
    pose proof (zlen_nonneg s).
    destruct (small_str_tag (zlen s) ltac:(lia)) as (E1 & E2 & E3 & E4 & _).
    unfold skip_value. rewrite E1, E2, E3, E4. split_if; [zlen|]. done.
  - by apply Hlong.
  - apply (Hlong 11 (to_le 8 o ++ to_le 4 l)); [lia|]. zlen.
  - apply Hlong; [lia|]. repeat match goal with H : name_ok _ = true |- _ => apply name_ok_inv in H end.
    zlen.
  - by apply Hlong.
  - exists 0xC1, []. split; [done|]. intros; simpl. rewrite zlen_nil. f_equal; lia.
  - apply Hlong; [lia|]. fold encode_entry. rewrite zlen_app, zlen_to_le. change (Z.of_nat 2) with 2. done.
  - apply Hlong; [lia|]. rewrite zlen_app, zlen_to_le. change (Z.of_nat 4) with 4. done.
Qed.

(** ** Reading back what was written *)

Lemma encode_entry_unfold k v : encode_entry (k, v) = as_u8 (zlen k) :: k ++ encode_value v.
Proof. done. Qed.

Lemma read_entry_encoded validate pre k v post tag data :
  name_ok k = true → encodable v = true → encode_value v = tag :: data →
  read_entry validate (pre ++ encode_entry (k, v) ++ post) (zlen pre)
  = Some (k, tag, data, zlen pre + zlen (encode_entry (k, v))).
Proof.
  intros Hk Hv Henc. destruct (encode_value_framed v Hv) as (tag' & data' & E & Hskip).
  rewrite Henc in E; injection E as <- <-.
  rewrite encode_entry_unfold, as_u8_name, Henc by done.
  pose proof (name_ok_inv _ Hk) as [Hutf Hlen]. unfold read_entry.
  rewrite <-!app_comm_cons, <-!app_assoc. rewrite get_mid by done. opt_simpl.
  replace (pre ++ zlen k :: k ++ (tag :: data) ++ post)
    with ((pre ++ [zlen k]) ++ k ++ (tag :: data) ++ post) by (by rewrite <-app_assoc).
  rewrite get_range_mid by zlen. opt_simpl.
  replace (if validate then from_utf8 k else Some k) with (Some k)
    by (destruct validate; [by rewrite from_utf8_valid|done]). opt_simpl.
  replace ((pre ++ [zlen k]) ++ k ++ (tag :: data) ++ post)
    with ((pre ++ [zlen k] ++ k) ++ tag :: data ++ post) by (by rewrite <-!app_assoc).
  rewrite get_mid by zlen. opt_simpl.
  replace ((pre ++ [zlen k] ++ k) ++ tag :: data ++ post)
    with ((pre ++ [zlen k] ++ k ++ [tag]) ++ data ++ post) by (by rewrite <-!app_assoc).
  replace (zlen pre + 1 + zlen k + 1) with (zlen (pre ++ [zlen k] ++ k ++ [tag])) by zlen.
  rewrite Hskip. opt_simpl. rewrite get_range_mid by zlen. opt_simpl.
  do 2 f_equal. zlen.
Qed.

(** The decoder handles every value nested in [fs]. *)
Definition decodes (fuel : nat) (v : Value) : Prop :=
  ∀ tag data, encode_value v = tag :: data → (length data < fuel)%nat →
  decode_value_fuel fuel tag data = Some v.

Lemma map_loop_encoded fuel fs pre post :
  forallb (λ kv, name_ok kv.1 && encodable kv.2) fs = true →
  Forall (λ kv, decodes fuel kv.2) fs →
  (length (concat (encode_entry <$> fs)) <= fuel)%nat →
  map_loop (decode_value_fuel fuel) (length fs) (pre ++ concat (encode_entry <$> fs) ++ post) (zlen pre)
  = Some fs.
Proof.
  revert pre; induction fs as [|[k v] fs IH]; intros pre Hok Hdec Hlen; [done|].
  cbn [forallb] in Hok. bool_simpl. apply Forall_cons in Hdec as [Hv Hdec]. simpl in H, H1.
  rewrite fmap_cons in *. cbn [concat length map_loop] in *. rewrite length_app in Hlen.
  rewrite <-app_assoc.
  destruct (encode_value_framed v H1) as (tag & data & E & _).
  rewrite (read_entry_encoded _ _ _ _ _ _ _ H H1 E). opt_simpl.
  rewrite (Hv _ _ E).
  2: { rewrite encode_entry_unfold, E in Hlen. cbn [length] in Hlen.
       rewrite length_app in Hlen. cbn [length] in Hlen. lia. }
  opt_simpl. rewrite app_assoc.
  replace (zlen pre + zlen (encode_entry (k, v))) with (zlen (pre ++ encode_entry (k, v))) by zlen.
  rewrite IH; [done|done|done|lia].
Qed.

Lemma array_loop_encoded fuel n vs pre post :
  forallb encodable vs = true → Forall (decodes fuel) vs →
  (length (concat (encode_value <$> vs)) <= fuel)%nat → (length vs <= n)%nat →
  array_loop (decode_value_fuel fuel) n (zlen vs) (pre ++ concat (encode_value <$> vs) ++ post) (zlen pre)
  = Some vs.
Proof.
  revert pre n; induction vs as [|v vs IH]; intros pre n Hok Hdec Hlen Hn; [by destruct n|].
  cbn [forallb] in Hok. bool_simpl. apply Forall_cons in Hdec as [Hv Hdec].
  rewrite fmap_cons in *. cbn [concat length] in *. rewrite length_app in Hlen.
  destruct n as [|n]; [lia|]. cbn [array_loop]. split_if; [zlen|].
  destruct (encode_value_framed v H) as (tag & data & E & Hskip).
  rewrite E in *. rewrite <-app_assoc, <-app_comm_cons. rewrite get_mid by done. opt_simpl.
  replace (pre ++ tag :: data ++ concat (encode_value <$> vs) ++ post)
    with ((pre ++ [tag]) ++ data ++ concat (encode_value <$> vs) ++ post) by (by rewrite <-app_assoc).
  replace (zlen pre + 1) with (zlen (pre ++ [tag])) by zlen.
  rewrite Hskip. opt_simpl. rewrite get_range_mid by zlen. opt_simpl.
  rewrite (Hv _ _ E) by (cbn [length] in Hlen; lia). opt_simpl.
  replace ((pre ++ [tag]) ++ data ++ concat (encode_value <$> vs) ++ post)
    with ((pre ++ [tag] ++ data) ++ concat (encode_value <$> vs) ++ post) by (by rewrite <-!app_assoc).
  replace (zlen (pre ++ [tag]) + zlen data) with (zlen (pre ++ [tag] ++ data)) by zlen.
  replace (zlen (v :: vs) - 1) with (zlen vs) by zlen.
  rewrite IH; [done|done|done|cbn [length] in Hlen; lia|lia].
Qed.

Lemma forallb_byteb b : forallb byteb b = true → bytes_ok b.
Proof.
  intros H. apply Forall_forall; intros x Hx. pose proof (forallb_elem _ _ _ H Hx) as Hb.
  unfold byteb in Hb; bool_simpl; unfold is_byte; lia.
Qed.

(** The length prefix of a body that fits. *)
Lemma get_len_prefix body : zlen body < 2 ^ 32 →
  of_le <$> get_range (with_len body) 0 4 = Some (zlen body).
Proof.
  intros Hb. unfold with_len. rewrite <-(app_nil_l (_ ++ body)).
  rewrite get_range_mid by zlen. opt_simpl.
  by rewrite as_u32_id, of_le_to_le_u32 by (unfold is_u32; zlen).
Qed.

Lemma with_len_split body : ∃ h, zlen h = 4 ∧ with_len body = h ++ body.
Proof. eexists; split; [|done]. apply (zlen_to_le 4). Qed.

Lemma with_len_body body pre' m post' i j :
  body = pre' ++ m ++ post' → i = 4 + zlen pre' → j = i + zlen m →
  get_range (with_len body) i j = Some m.
Proof.
  intros -> -> ->. unfold with_len. rewrite app_assoc. apply get_range_mid; zlen.
Qed.

Lemma map_body_count fs :
  zlen fs < 2 ^ 16 →
  of_le <$> get_range (with_len (to_le 2 (as_u16 (zlen fs)) ++ concat (encode_entry <$> fs))) 4 6
  = Some (zlen fs).
Proof.
  intros Hl. rewrite (with_len_body _ [] (to_le 2 (as_u16 (zlen fs)))
    (concat (encode_entry <$> fs))) by (done || zlen). opt_simpl.
  by rewrite as_u16_id, of_le_to_le_u16 by (unfold is_u16; zlen).
Qed.

Lemma array_body_count vs :
  zlen vs < 2 ^ 32 →
  of_le <$> get_range (with_len (to_le 4 (as_u32 (zlen vs)) ++ concat (encode_value <$> vs))) 4 8
  = Some (zlen vs).
Proof.
  intros Hl. rewrite (with_len_body _ [] (to_le 4 (as_u32 (zlen vs)))
    (concat (encode_value <$> vs))) by (done || zlen). opt_simpl.
  by rewrite as_u32_id, of_le_to_le_u32 by (unfold is_u32; zlen).
Qed.

Lemma decode_varint_body n :
  is_i64 n → ∃ p, decode_varint (with_len (encode_varint (zigzag_encode n))) 4 = Some (zigzag_encode n, p).
Proof.
  intros Hn. eexists. unfold with_len.
  set (h := to_le 4 _). assert (4 = zlen h) as -> by (unfold h; zlen).
  rewrite <-(app_nil_r (encode_varint _)). apply decode_encode_varint, zigzag_encode_u64.
Qed.

(** Evaluates the tag dispatch of the decoder on a constant tag. *)
Ltac dispatch_tag :=
  cbn [decode_value_fuel];
  repeat match goal with
  | |- context [if ?c then _ else _] =>
      let c' := eval vm_compute in c in
      lazymatch c' with true => idtac | false => idtac end;
      change c with c'; cbv iota
  end.

(** The dispatch on the two families of one-byte tags. *)
Lemma decode_small_int fuel n b : 0 <= n <= 15 → decode_value_fuel (S fuel) (Z.lor 0x10 (as_u8 n)) b = Some (Int n).
Proof.
  intros Hn. assert (Forall (λ n, ∀ fuel b,
    decode_value_fuel (S fuel) (Z.lor 0x10 (as_u8 n)) b = Some (Int n)) (seqZ 0 16)) as HF
    by (repeat constructor).
  rewrite Forall_forall in HF. apply HF, elem_of_seqZ. lia.
Qed.

Lemma decode_small_str fuel s :
  zlen s <= 7 → utf8_valid s = true →
  decode_value_fuel (S fuel) (Z.lor 0x40 (as_u8 (zlen s))) s = Some (String s).
Proof.
  intros Hs Hu. pose proof (zlen_nonneg s).
  destruct (small_str_tag (zlen s) ltac:(lia)) as (E1 & E2 & E3 & E4 & N0 & N1 & N2 & N3).
  cbn [decode_value_fuel]. apply Z.eqb_neq in N0, N1, N2, N3. rewrite N0, N1, N2, N3, E2, E3, E4.
  assert (get_range s 0 (zlen s) = Some s) as ->.
  { rewrite <-(app_nil_l s), <-(app_nil_r s) at 1. apply get_range_mid; [done|zlen]. }
  opt_simpl. by rewrite from_utf8_valid.
Qed.

(** The compound kinds. *)
Lemma decodes_reference fuel c d : encodable (Reference c d) = true → decodes fuel (Reference c d).
Proof.
  intros Henc tag data E Hf. destruct fuel as [|fuel]; [lia|].
  cbn [encode_value encodable] in E, Henc; unfold i64b, u64b, u32b in *; bool_simpl.
  apply cons_inv in E as [<- <-]. dispatch_tag.
  rewrite !as_u8_name by done.
  repeat match goal with H : name_ok _ = true |- _ => apply name_ok_inv in H as [? ?] end.
  set (body := zlen c :: c ++ zlen d :: d).
  assert (get (with_len body) 4 = Some (zlen c)) as ->.
  { unfold with_len, body. by apply get_mid. }
  opt_simpl. rewrite (with_len_body body [zlen c] c (zlen d :: d)) by (done || zlen). opt_simpl.
  rewrite from_utf8_valid by done. opt_simpl.
  assert (get (with_len body) (5 + zlen c) = Some (zlen d)) as ->.
  { unfold with_len, body. rewrite app_comm_cons, app_assoc. apply get_mid. zlen. }
  opt_simpl. rewrite (with_len_body body (zlen c :: c ++ [zlen d]) d []).
  - opt_simpl. by rewrite from_utf8_valid.
  - unfold body. rewrite app_nil_r. cbn [app]. by rewrite <-app_assoc.
  - zlen.
  - zlen.
Qed.

Lemma decodes_map fuel fs :
  Forall (λ kv, ∀ fuel, encodable kv.2 = true → decodes fuel kv.2) fs → encodable (Map fs) = true → decodes fuel (Map fs).
Proof.
  intros IH Henc tag data E Hf. destruct fuel as [|fuel]; [lia|].
  cbn [encode_value encodable] in E, Henc; unfold i64b, u64b, u32b in *; bool_simpl.
  apply cons_inv in E as [<- <-]. dispatch_tag.
  change (λ kv : bytes * Value, as_u8 (zlen kv.1) :: kv.1 ++ encode_value kv.2) with encode_entry in *.
  rewrite map_body_count by done. opt_simpl.
  replace (Z.to_nat (zlen fs)) with (length fs) by (unfold zlen; lia).
  destruct (with_len_split (to_le 2 (as_u16 (zlen fs)) ++ concat (encode_entry <$> fs))) as (h & Hh & Eh).
  rewrite Eh in *. rewrite app_assoc, <-(app_nil_r (concat _)).
  replace 6 with (zlen (h ++ to_le 2 (as_u16 (zlen fs)))) by zlen.
  rewrite map_loop_encoded; [done|done| |].
  - apply Forall_forall; intros kv Hin. rewrite Forall_forall in IH. apply (IH kv Hin).
    pose proof (forallb_elem _ _ _ H1 Hin) as Hkv. simpl in Hkv. by bool_simpl.
  - rewrite !length_app in Hf. unfold zlen in Hh. lia.
Qed.

Lemma decodes_array fuel vs :
  Forall (λ v, ∀ fuel, encodable v = true → decodes fuel v) vs → encodable (Array vs) = true → decodes fuel (Array vs).
Proof.
  intros IH Henc tag data E Hf. destruct fuel as [|fuel]; [lia|].
  cbn [encode_value encodable] in E, Henc; unfold i64b, u64b, u32b in *; bool_simpl.
  apply cons_inv in E as [<- <-]. dispatch_tag.
  rewrite array_body_count by done. opt_simpl.
  assert (length vs <= length (concat (encode_value <$> vs)))%nat as Hvs.
  { clear -H1. induction vs as [|v vs IHv]; [done|]. cbn [forallb] in H1. bool_simpl.
    rewrite fmap_cons. cbn [concat length]. rewrite length_app. specialize (IHv H0).
    destruct (encode_value_framed v H) as (t & da & -> & _). cbn [length]. lia. }
  destruct (with_len_split (to_le 4 (as_u32 (zlen vs)) ++ concat (encode_value <$> vs))) as (h & Hh & Eh).
  rewrite Eh in *. rewrite !length_app in Hf.
  set (n := S (length _)).
  assert (length vs <= n)%nat by (unfold n; rewrite !length_app; lia). clearbody n.
  rewrite app_assoc, <-(app_nil_r (concat _)).
  replace 8 with (zlen (h ++ to_le 4 (as_u32 (zlen vs)))) by zlen.
  unfold zlen in Hh.
  rewrite array_loop_encoded; [done|done| |lia|done].
  apply Forall_forall; intros v Hin. rewrite Forall_forall in IH. apply (IH v Hin).
  by eapply (forallb_elem encodable).
Qed.

(** Decoding an encoded value, with enough fuel, gives the value back. *)
Lemma decode_encode_value v fuel : encodable v = true → decodes fuel v.
Proof.
  revert fuel; induction v as [|x|n|x|s|s|o l|c d|n| |fs IH|vs IH] using Value_rect'; intros fuel Henc;
    try (by apply decodes_reference || apply decodes_map || apply decodes_array);
    intros tag data E Hf; (destruct fuel as [|fuel]; [lia|]);
    cbn [encode_value encodable] in E, Henc; unfold i64b, u64b, u32b in *; bool_simpl.
  - by apply cons_inv in E as [<- <-].
  - destruct x; by apply cons_inv in E as [<- <-].
  - split_if in E; apply cons_inv in E as [<- <-]; [by apply decode_small_int|].
    dispatch_tag. destruct (decode_varint_body n) as [p ->]; [unfold is_i64; lia|]. opt_simpl.
    by rewrite zigzag_decode_encode by (unfold is_i64; lia).
  - apply cons_inv in E as [<- <-]. dispatch_tag.
    rewrite <-(app_nil_r (to_le 4 8 ++ _)), <-app_assoc. rewrite get_range_mid by zlen. opt_simpl.
    by rewrite of_le_to_le_u64 by (unfold is_u64; lia).
  - split_if in E; apply cons_inv in E as [<- <-]; [by apply decode_small_str|].
    dispatch_tag. rewrite get_len_prefix by lia. opt_simpl.
    rewrite (with_len_body s [] s []) by (rewrite ?app_nil_r; done || zlen). opt_simpl.
    by rewrite from_utf8_valid.
  - apply cons_inv in E as [<- <-]. dispatch_tag. rewrite get_len_prefix by lia. opt_simpl.
    by rewrite (with_len_body s [] s []) by (rewrite ?app_nil_r; done || zlen).
  - apply cons_inv in E as [<- <-]. dispatch_tag.
    rewrite (get_range_mid (to_le 4 12) (to_le 8 o) (to_le 4 l) 4 12) by zlen. opt_simpl.
    rewrite <-(app_nil_r (to_le 4 l)), (app_assoc (to_le 4 12)), get_range_mid by zlen. opt_simpl.
    by rewrite of_le_to_le_u64, of_le_to_le_u32 by (unfold is_u64, is_u32; lia).
  - apply cons_inv in E as [<- <-]. dispatch_tag.
    destruct (decode_varint_body n) as [p ->]; [unfold is_i64; lia|]. opt_simpl.
    by rewrite zigzag_decode_encode by (unfold is_i64; lia).
  - by apply cons_inv in E as [<- <-].
Qed.
