(* ===== verification/DocCodec.v ===== *)
(** * Correctness of the document codec and of its views

    Fuel independence of the value decoder, the round trip of documents,
    prefix-freeness of the format, agreement of the lazy views with the owned
    document, and projection push-down. *)

From stdpp Require Import prelude list sorting strings.
From Stdlib Require Import ZArith Lia.
From S2P Require Import Prelude RustStd Varint Value Doc DocFacts.

Local Open Scope Z_scope.

(** ** The fuel of the value decoder is only a bound *)

Lemma get_range_shorter {A} (b : list A) p p' s : get_range b p p' = Some s → 0 < p → (length s < length b)%nat.
Proof. intros H%get_range_Some Hp. unfold zlen in *. lia. Qed.

Lemma read_entry_shorter validate b p k tag s p' :
  read_entry validate b p = Some (k, tag, s, p') → (length s < length b)%nat ∧ 0 < p' ∧ 0 <= p.
Proof.
  unfold read_entry. intros H.
  destruct (get b p) as [kl|] eqn:Hkl; [|done]. opt_simpl in H.
  destruct (get_range b (p + 1) (p + 1 + kl)) as [raw|] eqn:Hraw; [|done]. opt_simpl in H.
  destruct (if validate then _ else _) as [key|]; [|done]. opt_simpl in H.
  destruct (get b (p + 1 + kl)) as [t|]; [|done]. opt_simpl in H.
  destruct (skip_value t b (p + 1 + kl + 1)) as [q|]; [|done]. opt_simpl in H.
  destruct (get_range b (p + 1 + kl + 1) q) as [sp|] eqn:Hsp; [|done]. opt_simpl in H.
  injection H as <- <- <- <-. apply get_Some_lt in Hkl. apply get_range_Some in Hraw.
  split; [by eapply get_range_shorter; [exact Hsp|lia]|]. apply get_range_Some in Hsp. lia.
Qed.

Lemma map_loop_ext dec1 dec2 n b p :
  (∀ tag s, (length s < length b)%nat → dec1 tag s = dec2 tag s) →
  map_loop dec1 n b p = map_loop dec2 n b p.
Proof.
  intros Hdec. revert p; induction n as [|n IH]; intros p; [done|]. cbn [map_loop].
  destruct (read_entry true b p) as [[[[k tag] s] p']|] eqn:E; [|done]. opt_simpl.
  apply read_entry_shorter in E as [E _]. rewrite Hdec by done.
  destruct (dec2 tag s); [|done]. opt_simpl. by rewrite IH.
Qed.

Lemma array_loop_ext dec1 dec2 n c b p :
  (∀ tag s, (length s < length b)%nat → dec1 tag s = dec2 tag s) →
  array_loop dec1 n c b p = array_loop dec2 n c b p.
Proof.
  intros Hdec. revert c p; induction n as [|n IH]; intros c p; [done|]. cbn [array_loop].
  split_if; [done|]. destruct (get b p) as [tag|] eqn:Ht; [|done]. opt_simpl.
  destruct (skip_value tag b (p + 1)) as [p'|]; [|done]. opt_simpl.
  destruct (get_range b (p + 1) p') as [s|] eqn:Hs; [|done]. opt_simpl.
  apply get_Some_lt in Ht. rewrite Hdec by (by eapply get_range_shorter; [exact Hs|lia]).
  destruct (dec2 tag s); [|done]. opt_simpl. by rewrite IH.
Qed.

Lemma decode_value_fuel_irrelevant f1 f2 tag b :
  (length b < f1)%nat → (length b < f2)%nat →
  decode_value_fuel f1 tag b = decode_value_fuel f2 tag b.
Proof.
  revert f2 tag b; induction f1 as [|f1 IH]; intros [|f2] tag b H1 H2; try lia.
  assert (∀ t s, (length s < length b)%nat → decode_value_fuel f1 t s = decode_value_fuel f2 t s)
    as Hsub by (intros t s Hs; apply IH; lia).
  cbn [decode_value_fuel]. repeat (split_if; [done|]). split_if.
  { destruct (of_le <$> _) as [c|]; [|done]. opt_simpl. by rewrite (map_loop_ext _ _ _ _ _ Hsub). }
  split_if; [|done].
  destruct (of_le <$> _) as [c|]; [|done]. opt_simpl. by rewrite (array_loop_ext _ _ _ _ _ _ Hsub).
Qed.

(** Every element of an array consumes a byte, so the bound of the element loop
    is never reached either. *)
Lemma array_loop_fuel dec n m c b p :
  0 <= p → zlen b - p < Z.of_nat n → zlen b - p < Z.of_nat m → (0 < n)%nat → (0 < m)%nat →
  array_loop dec n c b p = array_loop dec m c b p.
Proof.
  revert m c p; induction n as [|n IH]; intros [|m] c p Hp Hn Hm ? ?; try lia.
  cbn [array_loop]. split_if; [done|].
  destruct (get b p) as [tag|] eqn:Ht; [|done]. opt_simpl. apply get_Some_lt in Ht.
  destruct (skip_value tag b (p + 1)) as [q|] eqn:Hq; [|done]. opt_simpl.
  destruct (get_range b (p + 1) q) as [s|] eqn:Hs; [|done]. opt_simpl.
  apply get_range_Some in Hs as (? & ? & _).
  destruct (dec tag s); [|done]. opt_simpl. by rewrite (IH m) by lia.
Qed.

Lemma decode_value_encoded v tag data :
  encodable v = true → encode_value v = tag :: data → decode_value tag data = Some v.
Proof. intros Hv E. apply (decode_encode_value v _ Hv); [done|lia]. Qed.

(** ** Walking an encoded document *)

Lemma doc_encodable_inv d :
  doc_encodable d = true →
  is_i64 (_time d) ∧ zlen (fields d) < 2 ^ 16 ∧
  forallb (λ kv, name_ok kv.1 && encodable kv.2) (fields d) = true.
Proof. unfold doc_encodable, i64b; intros; bool_simpl. unfold is_i64; done. Qed.

(** The twelve-byte header. *)
Definition header (d : HakoDoc) : bytes :=
  MAGIC :: VERSION :: i64_to_le (_time d) ++ to_le 2 (as_u16 (zlen (fields d))).

Lemma encode_header d : encode d = header d ++ concat (encode_entry <$> fields d).
Proof. unfold encode, header. cbn [app]. by rewrite <-app_assoc. Qed.

Lemma zlen_header d : zlen (header d) = 12.
Proof. unfold header. zlen. Qed.

(** A view depends on the header alone. *)
Lemma view_new_app b ext v : view_new b = Some v → view_new (b ++ ext) = Some (mkView (b ++ ext) (v_count v) (v_time v)).
Proof.
  unfold view_new. intros H. split_if in H; [done|].
  assert (∀ i x, get b i = Some x → get (b ++ ext) i = Some x) as Hget.
  { intros i x. unfold get. intros Hx. split_if in Hx; [|done].
    split_if as E; [by apply lookup_app_l_Some|]. apply andb_false_iff in E as [?|?]; bool_simpl; zlen. }
  assert (∀ i j m, get_range b i j = Some m → get_range (b ++ ext) i j = Some m) as Hrange.
  { intros i j m Hm. apply get_range_Some in Hm as (? & ? & Hl & E).
    rewrite E, <-!app_assoc. apply get_range_mid; [|lia].
    unfold zlen in *. rewrite length_take. lia. }
  rewrite (Hget 0 MAGIC), (Hget 1 VERSION) by done.
  destruct (get_range b 2 10) as [t|] eqn:Ht; [|done]. opt_simpl in H.
  destruct (get_range b 10 12) as [c|] eqn:Hc; [|done]. opt_simpl in H. injection H as <-.
  rewrite (Hrange _ _ _ Ht), (Hrange _ _ _ Hc). opt_simpl.
  split_if as E; [|done]. repeat (apply orb_true_iff in E as [E|E]); bool_simpl; try done. zlen.
Qed.

Lemma view_new_header d :
  doc_encodable d = true → view_new (header d) = Some (mkView (header d) (zlen (fields d)) (_time d)).
Proof.
  intros (Ht & Hc & _)%doc_encodable_inv. unfold view_new. split_if.
  { repeat (apply orb_true_iff in Hg as [Hg|Hg]); bool_simpl; done. }
  assert (get_range (header d) 2 10 = Some (i64_to_le (_time d))) as ->
    by (by apply (get_range_mid [MAGIC; VERSION])).
  assert (get_range (header d) 10 12 = Some (to_le 2 (as_u16 (zlen (fields d))))) as ->.
  { unfold header. rewrite <-(app_nil_r (to_le 2 _)).
    apply (get_range_mid ([MAGIC; VERSION] ++ i64_to_le (_time d))); zlen. }
  opt_simpl.
  rewrite i64_of_to_le by done.
  by rewrite as_u16_id, of_le_to_le_u16 by (unfold is_u16; pose proof (zlen_nonneg (fields d)); lia).
Qed.

Lemma view_new_encode d :
  doc_encodable d = true →
  view_new (encode d) = Some (mkView (encode d) (zlen (fields d)) (_time d)).
Proof. intros Hd. rewrite encode_header. by rewrite (view_new_app _ _ _ (view_new_header d Hd)). Qed.

(** The item the iterator yields for an encoded entry. *)
Definition entry_item (kv : bytes * Value) : bytes * Z * bytes :=
  match encode_value kv.2 with
  | tag :: data => (kv.1, tag, data)
  | [] => (kv.1, 0, [])
  end.

Lemma entry_item_eq k v tag data : encode_value v = tag :: data → entry_item (k, v) = (k, tag, data).
Proof. intros E. unfold entry_item. cbn [fst snd]. by rewrite E. Qed.

Lemma iter_collect_encoded validate fs pre post :
  forallb (λ kv, name_ok kv.1 && encodable kv.2) fs = true →
  let b := pre ++ concat (encode_entry <$> fs) ++ post in
  iter_collect validate (length fs) (mkIter b (zlen pre) (length fs))
  = (entry_item <$> fs, mkIter b (zlen pre + zlen (concat (encode_entry <$> fs))) 0).
Proof.
  revert pre; induction fs as [|[k v] fs IH]; intros pre Hok b.
  { subst b. change (zlen (concat (encode_entry <$> []))) with 0. by rewrite Z.add_0_r. }
  cbn [forallb] in Hok. bool_simpl. simpl in H, H1. subst b.
  rewrite !fmap_cons. cbn [concat length iter_collect iter_next it_remaining it_bytes it_pos].
  destruct (encode_value_framed v H1) as (tag & data & E & _).
  rewrite <-app_assoc, (read_entry_encoded _ _ _ _ _ _ _ H H1 E).
  replace (zlen pre + zlen (encode_entry (k, v))) with (zlen (pre ++ encode_entry (k, v))) by zlen.
  rewrite app_assoc, (IH (pre ++ encode_entry (k, v)) H0).
  f_equal.
  - by rewrite (entry_item_eq _ _ _ _ E).
  - f_equal. zlen.
Qed.

Lemma mapM_decode_items fs :
  forallb (λ kv, name_ok kv.1 && encodable kv.2) fs = true →
  mapM (λ '(key, tag, data), v ← decode_value tag data; Some (key, v)) (entry_item <$> fs) = Some fs.
Proof.
  induction fs as [|[k v] fs IH]; intros Hok; [done|].
  cbn [forallb] in Hok. bool_simpl. simpl in H, H1.
  destruct (encode_value_framed v H1) as (tag & data & E & _).
  rewrite fmap_cons, (entry_item_eq _ _ _ _ E). cbn [mapM].
  rewrite (decode_value_encoded v _ _ H1 E). opt_simpl. by rewrite (IH H0).
Qed.

Lemma iter_all_encode validate d :
  doc_encodable d = true →
  iter_all validate (mkIter (encode d) 12 (length (fields d)))
  = (entry_item <$> fields d, mkIter (encode d) (zlen (encode d)) 0).
Proof.
  intros (_ & _ & Hok)%doc_encodable_inv. unfold iter_all. cbn [it_remaining].
  rewrite encode_header. rewrite <-(app_nil_r (concat _)), <-(zlen_header d).
  rewrite (iter_collect_encoded validate (fields d) (header d) [] Hok). do 2 f_equal.
  rewrite app_nil_r. zlen.
Qed.

Lemma decode_encode_doc d : doc_encodable d = true → decode (encode d) = Some d.
Proof.
  intros Hd. unfold decode. rewrite view_new_encode by done. opt_simpl.
  unfold view_iter. cbn [v_bytes v_count v_time].
  replace (Z.to_nat (zlen (fields d))) with (length (fields d)) by (unfold zlen; lia).
  rewrite iter_all_encode by done.
  rewrite mapM_decode_items by apply (doc_encodable_inv d Hd). opt_simpl.
  unfold fully_consumed. cbn [it_remaining it_pos]. rewrite Z.eqb_refl. by destruct d.
Qed.

(** ** The format is prefix-free *)

Lemma get_app_stable {A} (b ext : list A) i x : get b i = Some x → get (b ++ ext) i = Some x.
Proof.
  intros Hx. pose proof (get_Some_lt _ _ _ Hx). apply get_lookup in Hx. unfold get.
  split_if as E; [by apply lookup_app_l_Some|]. apply andb_false_iff in E as [?|?]; bool_simpl; zlen.
Qed.

Lemma get_range_app_stable {A} (b ext : list A) i j m :
  get_range b i j = Some m → get_range (b ++ ext) i j = Some m.
Proof.
  intros Hm. apply get_range_Some in Hm as (? & ? & Hl & E).
  rewrite E, <-!app_assoc. apply get_range_mid; [|lia].
  unfold zlen in *. rewrite length_take. lia.
Qed.

Lemma skip_value_app_stable tag b ext p p' :
  skip_value tag b p = Some p' → skip_value tag (b ++ ext) p = Some p'.
Proof.
  unfold skip_value. repeat split_if; try done; try (intros; zlen).
  destruct (get_range b p (p + 4)) as [h|] eqn:Hh; [|done].
  rewrite (get_range_app_stable _ _ _ _ _ Hh). opt_simpl. intros Hs. split_if in Hs; [done|].
  split_if as E; [zlen|done].
Qed.

Lemma read_entry_app_stable validate b ext p r :
  read_entry validate b p = Some r → read_entry validate (b ++ ext) p = Some r.
Proof.
  unfold read_entry. intros H.
  destruct (get b p) as [kl|] eqn:Hkl; [|done]. opt_simpl in H.
  rewrite (get_app_stable _ _ _ _ Hkl). opt_simpl.
  destruct (get_range b (p + 1) (p + 1 + kl)) as [raw|] eqn:Hraw; [|done]. opt_simpl in H.
  rewrite (get_range_app_stable _ _ _ _ _ Hraw). opt_simpl.
  destruct (if validate then _ else _) as [key|]; [|done]. opt_simpl in H. opt_simpl.
  destruct (get b (p + 1 + kl)) as [t|] eqn:Ht; [|done]. opt_simpl in H.
  rewrite (get_app_stable _ _ _ _ Ht). opt_simpl.
  destruct (skip_value t b (p + 1 + kl + 1)) as [q|] eqn:Hq; [|done]. opt_simpl in H.
  rewrite (skip_value_app_stable _ _ _ _ _ Hq). opt_simpl.
  destruct (get_range b (p + 1 + kl + 1) q) as [sp|] eqn:Hsp; [|done]. opt_simpl in H.
  by rewrite (get_range_app_stable _ _ _ _ _ Hsp).
Qed.

(** An iteration that finishes on a buffer finishes the same way on every
    extension of it. *)
Lemma iter_collect_app_stable validate n b ext p items q :
  iter_collect validate n (mkIter b p n) = (items, mkIter b q 0) →
  iter_collect validate n (mkIter (b ++ ext) p n) = (items, mkIter (b ++ ext) q 0).
Proof.
  revert p items; induction n as [|n IH]; intros p items; cbn [iter_collect].
  { intros H; by simplify_eq. }
  unfold iter_next. cbn [it_remaining it_bytes it_pos].
  destruct (read_entry validate b p) as [[[[k tag] s] p']|] eqn:E.
  - rewrite (read_entry_app_stable _ _ ext _ _ E).
    destruct (iter_collect validate n (mkIter b p' n)) as [items' it'] eqn:E'.
    intros H. simplify_eq. by rewrite (IH _ _ E').
  - intros H; simplify_eq.
Qed.

Lemma iter_collect_bytes validate n it : it_bytes (iter_collect validate n it).2 = it_bytes it.
Proof.
  revert it; induction n as [|n IH]; intros it; [done|]. cbn [iter_collect]. unfold iter_next.
  destruct (it_remaining it) eqn:Er; [done|].
  destruct (read_entry _ _ _) as [[[[k tag] s] p']|]; [|done].
  specialize (IH (mkIter (it_bytes it) p' n0)).
  by destruct (iter_collect validate n _) as [? ?].
Qed.

Lemma decode_prefix_free b ext d : decode b = Some d → ext ≠ [] → decode (b ++ ext) = None.
Proof.
  unfold decode. intros H Hext.
  destruct (view_new b) as [view|] eqn:Hv; [|done]. opt_simpl in H.
  rewrite (view_new_app _ ext _ Hv). opt_simpl.
  assert (v_bytes view = b) as Hvb.
  { unfold view_new in Hv. split_if in Hv; [done|].
    destruct (get_range b 2 10); [|done]; destruct (get_range b 10 12); [|done]. by simplify_eq/=. }
  unfold iter_all, view_iter in *. cbn [it_remaining v_bytes v_count] in *. rewrite Hvb in H.
  destruct (iter_collect true _ (mkIter b 12 _)) as [items it] eqn:Hit.
  destruct (mapM _ items) as [fs|]; [|done]. opt_simpl in H.
  unfold fully_consumed in H. split_if in H; [|done]. apply Nat.eqb_eq in H0.
  pose proof (iter_collect_bytes true (Z.to_nat (v_count view)) (mkIter b 12 (Z.to_nat (v_count view)))) as Hb.
  rewrite Hit in Hb. cbn in Hb. destruct it as [ib ip ir]; cbn in *; subst.
  rewrite (iter_collect_app_stable _ _ _ ext _ _ _ Hit).
  destruct (mapM _ items); [|done]. opt_simpl. unfold fully_consumed. cbn [it_remaining it_pos].
  split_if as E; [|done]. destruct ext; [done|]. zlen.
Qed.
