(* ===== verification/DocAccess.v ===== *)
(** * Reading documents: owned accessors, views and projections
    (src/document/hako_doc.rs)

    The binary search of [HakoDoc::get]/[insert] against the association list
    it implements, the borrowing views on encoded bytes against the owned
    accessors, and the projecting decoder against decode-then-project. *)

From stdpp Require Import prelude list sorting strings.
From Stdlib Require Import ZArith Lia.
From S2P Require Import Prelude RustStd Varint Value Doc DocFacts DocCodec.

Local Open Scope Z_scope.
Local Open Scope hako_scope.

(** The fields of a document built by [insert] are strictly sorted by name. *)
Definition doc_sorted (d : HakoDoc) : Prop := key_sorted fst (fields d).

(** ** Association lists *)

Lemma assoc_None {A} k (m : list (bytes * A)) : k ∉ m.*1 → assoc k m = None.
Proof.
  induction m as [|[k' v] m IH]; simpl; [done|]. rewrite not_elem_of_cons. intros [Hne Hni].
  unfold bytes_eqb. rewrite bool_decide_eq_false_2 by congruence. by apply IH.
Qed.

Lemma assoc_app {A} k (m1 m2 : list (bytes * A)) :
  assoc k (m1 ++ m2) = match assoc k m1 with Some v => Some v | None => assoc k m2 end.
Proof. induction m1 as [|[k' v] m1 IH]; simpl; [done|]. by destruct (bytes_eqb k' k). Qed.

(** In a key-sorted vector, position and association agree. *)
Lemma assoc_lookup {A} (m : list (bytes * A)) i kv :
  key_sorted fst m → m !! i = Some kv → assoc kv.1 m = Some kv.2.
Proof.
  intros Hs Hi. rewrite <-(take_drop_middle m i kv Hi) in Hs |- *.
  apply key_sorted_NoDup in Hs. rewrite fmap_app in Hs.
  apply NoDup_app in Hs as (_ & Hd & _). rewrite assoc_app, assoc_None.
  - destruct kv as [k v]; simpl. by rewrite bytes_eqb_refl.
  - intros Hin. apply (Hd _ Hin). rewrite fmap_cons. by left.
Qed.

Lemma assoc_None_inv {A} k (m : list (bytes * A)) : assoc k m = None → k ∉ m.*1.
Proof.
  induction m as [|[k' v] m IH]; simpl; [intros _; apply not_elem_of_nil|].
  destruct (bytes_eqb k' k) eqn:E; [done|]. intros H. apply not_elem_of_cons. split; [|by apply IH].
  intros ->. by rewrite bytes_eqb_refl in E.
Qed.

(** ** [get], [insert] *)

Lemma doc_get_assoc d k : doc_sorted d → doc_get d k = assoc k (fields d).
Proof.
  intros Hs. unfold doc_get. pose proof (bsearch_key fst (fields d) k Hs) as H.
  destruct (binary_search_by _ _) as [i|i].
  - destruct H as ([k' v] & Hi & Hk). simpl in Hk; subst k'.
    rewrite Hi. symmetry. apply (assoc_lookup _ _ _ Hs Hi).
  - destruct H as (_ & Hni & _). by rewrite assoc_None.
Qed.

Lemma fst_alter_snd {A} i (v : A) (l : list (bytes * A)) : (alter (λ kv, (kv.1, v)) i l).*1 = l.*1.
Proof. revert i; induction l as [|[k w] l IH]; intros [|i]; try done.
  change (k :: (alter (λ kv, (kv.1, v)) i l).*1 = k :: l.*1). by rewrite IH.
Qed.

Lemma key_sorted_fst {A} (l1 l2 : list (bytes * A)) :
  l1.*1 = l2.*1 → key_sorted fst l1 → key_sorted fst l2.
Proof.
  revert l2; induction l1 as [|x l1 IH]; intros [|y l2] E Hs; [constructor|done|done|].
  rewrite !fmap_cons in E. injection E as E1 E2. apply StronglySorted_inv in Hs as [Hs Hx].
  constructor; [by apply IH|]. change (Forall ((λ k, bytes_lt y.1 k) ∘ fst) l2).
  rewrite <-Forall_fmap, <-E2, Forall_fmap, <-E1. exact Hx.
Qed.

Lemma doc_insert_sorted d k v : doc_sorted d → doc_sorted (doc_insert d k v).
Proof.
  intros Hs. unfold doc_insert. pose proof (bsearch_key fst (fields d) k Hs) as H.
  destruct (binary_search_by _ _) as [i|i]; unfold doc_sorted; cbn [fields].
  - eapply key_sorted_fst; [symmetry; apply fst_alter_snd|exact Hs].
  - destruct H as (_ & _ & Hlo & Hhi). by apply key_sorted_insert.
Qed.

Lemma assoc_alter {A} (l : list (bytes * A)) i k v w k' :
  key_sorted fst l → l !! i = Some (k, w) →
  assoc k' (alter (λ kv, (kv.1, v)) i l) = if bytes_eqb k k' then Some v else assoc k' l.
Proof.
  intros Hs Hi. rewrite <-(take_drop_middle l i _ Hi) in Hs.
  apply key_sorted_NoDup in Hs. rewrite fmap_app in Hs.
  apply NoDup_app in Hs as (_ & Hd & _).
  assert (k ∉ (take i l).*1) as Hni.
  { intros Hin. apply (Hd _ Hin). rewrite fmap_cons. by left. }
  rewrite <-(take_drop_middle l i _ Hi) at 2.
  rewrite <-(take_drop_middle (alter (λ kv, (kv.1, v)) i l) i (k, v)).
  2: { by rewrite list_lookup_alter_eq, Hi. }
  rewrite take_alter, drop_alter, !decide_False, !assoc_app by lia. cbn [assoc].
  destruct (bytes_eqb k k') eqn:E; [|done]. apply bytes_eqb_eq in E as <-.
  by rewrite assoc_None.
Qed.

Lemma assoc_vec_insert {A} (l : list (bytes * A)) i k v k' :
  k ∉ l.*1 → assoc k' (vec_insert i (k, v) l) = if bytes_eqb k k' then Some v else assoc k' l.
Proof.
  intros Hni. unfold vec_insert. rewrite <-(take_drop i l) at 3. rewrite !assoc_app. cbn [assoc].
  destruct (bytes_eqb k k') eqn:E; [|done]. apply bytes_eqb_eq in E as <-.
  rewrite assoc_None; [done|]. intros Hin. apply Hni.
  rewrite <-(take_drop i l), fmap_app, elem_of_app. by left.
Qed.

Lemma doc_get_insert d k v k' :
  doc_sorted d → doc_get (doc_insert d k v) k' = if bytes_eqb k k' then Some v else doc_get d k'.
Proof.
  intros Hs. rewrite !doc_get_assoc by auto using doc_insert_sorted. unfold doc_insert.
  pose proof (bsearch_key fst (fields d) k Hs) as H.
  destruct (binary_search_by _ _) as [i|i]; cbn [fields].
  - destruct H as ([k0 w] & Hi & Hk). simpl in Hk; subst k0. by eapply assoc_alter.
  - destruct H as (_ & Hni & _). by apply assoc_vec_insert.
Qed.

(** ** Views read what the owned accessors read *)

(** The tag and the span of an encoded value. *)
Definition value_span (v : Value) : Z * bytes :=
  match encode_value v with tag :: data => (tag, data) | [] => (0, []) end.

Lemma value_span_eq v tag data : encode_value v = tag :: data → value_span v = (tag, data).
Proof. intros E. unfold value_span. by rewrite E. Qed.

Lemma find_field_encoded fs pre post key :
  forallb (λ kv, name_ok kv.1 && encodable kv.2) fs = true →
  find_field (length fs) (pre ++ concat (encode_entry <$> fs) ++ post) (zlen pre) key
  = value_span <$> assoc key fs.
Proof.
  revert pre; induction fs as [|[k v] fs IH]; intros pre Hok; [done|].
  cbn [forallb] in Hok. bool_simpl. simpl in H, H1.
  destruct (encode_value_framed v H1) as (tag & data & E & _).
  rewrite fmap_cons. cbn [concat length find_field assoc].
  rewrite <-app_assoc, (read_entry_encoded _ _ _ _ _ _ _ H H1 E). opt_simpl.
  destruct (bytes_eqb k key); [cbn; by rewrite (value_span_eq _ _ _ E)|].
  replace (zlen pre + zlen (encode_entry (k, v))) with (zlen (pre ++ encode_entry (k, v))) by zlen.
  by rewrite app_assoc, IH.
Qed.

Lemma encodable_assoc fs k v :
  forallb (λ kv, name_ok kv.1 && encodable kv.2) fs = true → assoc k fs = Some v → encodable v = true.
Proof.
  induction fs as [|[k' w] fs IH]; cbn [forallb assoc]; intros Hok; bool_simpl; [done|].
  destruct (bytes_eqb k' k); [|by apply IH]. intros [= ->]. done.
Qed.

Lemma decode_value_span v : encodable v = true → (let '(t, s) := value_span v in decode_value t s) = Some v.
Proof.
  intros Hv. destruct (encode_value_framed v Hv) as (tag & data & E & _).
  rewrite (value_span_eq _ _ _ E). by eapply decode_value_encoded.
Qed.

(** Only maps carry tag 8. *)
Lemma value_span_map v :
  encodable v = true →
  ((value_span v).1 =? 8) = match v with Map _ => true | _ => false end.
Proof.
  destruct v; intros Hv; unfold value_span; cbn [encode_value]; try done.
  - by destruct b.
  - split_if; [|done]. cbn [fst]. apply Z.eqb_neq.
    rewrite as_u8_id by (unfold is_byte; lia). assert (0 <= n <= 15) by lia.
    destruct (small_int_tag n ltac:(lia)) as (_ & E & _). intros E'.
    rewrite as_u8_id in E by (unfold is_byte; lia). by rewrite E' in E.
  - split_if; [|done]. cbn [fst]. apply Z.eqb_neq. intros E'. pose proof (zlen_nonneg s).
    destruct (small_str_tag (zlen s) ltac:(lia)) as (_ & _ & E & _). by rewrite E' in E.
Qed.

Lemma encode_value_map fs :
  encode_value (Map fs) = 8 :: with_len (to_le 2 (as_u16 (zlen fs)) ++ concat (encode_entry <$> fs)).
Proof. done. Qed.

Lemma span_descend_encoded segs v :
  encodable v = true →
  (let '(t, s) := value_span v in span_descend t s segs) = value_span <$> descend v segs.
Proof.
  revert v; induction segs as [|seg segs IH]; intros v Hv; [cbn; by destruct (value_span v)|].
  pose proof (value_span_map v Hv) as Ht. destruct (value_span v) as [t s] eqn:Hsp.
  cbn [span_descend descend]. destruct (bool_decide (seg = [])); [done|]. cbn [orb fst] in *. rewrite Ht.
  destruct v as [| | | | | | | | | |fs|]; try done. clear Ht. cbn [negb].
  rewrite (value_span_eq _ _ _ (encode_value_map fs)) in Hsp. apply pair_equal_spec in Hsp as [<- <-].
  cbn [encodable] in Hv. bool_simpl. rewrite map_body_count by done. opt_simpl.
  destruct (with_len_split (to_le 2 (as_u16 (zlen fs)) ++ concat (encode_entry <$> fs))) as (h & Hh & ->).
  replace (Z.to_nat (zlen fs)) with (length fs) by (unfold zlen; lia).
  rewrite app_assoc, <-(app_nil_r (concat _)).
  replace 6 with (zlen (h ++ to_le 2 (as_u16 (zlen fs)))) by zlen.
  rewrite find_field_encoded by done.
  destruct (assoc seg fs) as [w|] eqn:Hw; [|done]. opt_simpl.
  pose proof (IH w (encodable_assoc _ _ _ H1 Hw)) as IHw. by destruct (value_span w).
Qed.

Lemma find_field_doc d key :
  doc_encodable d = true →
  find_field (Z.to_nat (zlen (fields d))) (encode d) 12 key = value_span <$> assoc key (fields d).
Proof.
  intros (_ & _ & Hok)%doc_encodable_inv. rewrite encode_header, <-(zlen_header d).
  replace (Z.to_nat (zlen (fields d))) with (length (fields d)) by (unfold zlen; lia).
  rewrite <-(app_nil_r (concat _)). by apply find_field_encoded.
Qed.

Lemma docview_get_encoded d key :
  doc_encodable d = true → doc_sorted d →
  (view_new (encode d) ≫= λ v, docview_get v key) = doc_get d key.
Proof.
  intros Hd Hs. rewrite view_new_encode by done. opt_simpl. unfold docview_get. cbn [v_bytes v_count].
  rewrite find_field_doc, doc_get_assoc by done. destruct (assoc key (fields d)) as [v|] eqn:Hv; [|done].
  opt_simpl. pose proof (doc_encodable_inv d Hd) as (_ & _ & Hok).
  pose proof (decode_value_span v (encodable_assoc _ _ _ Hok Hv)). by destruct (value_span v).
Qed.

Lemma encodable_descend segs v w : encodable v = true → descend v segs = Some w → encodable w = true.
Proof.
  revert v; induction segs as [|seg segs IH]; intros v Hv; cbn [descend]; [by intros [= <-]|].
  split_if; [done|]. destruct v as [| | | | | | | | | |fs|]; try done. destruct (assoc seg fs) as [x|] eqn:Hx; [|done]. opt_simpl.
  apply IH. cbn [encodable] in Hv. bool_simpl. by eapply encodable_assoc.
Qed.

Lemma docview_get_path_encoded d path :
  doc_encodable d = true → doc_sorted d →
  (view_new (encode d) ≫= λ v, docview_get_path v path) = get_path d path.
Proof.
  intros Hd Hs. rewrite view_new_encode by done. opt_simpl.
  unfold docview_get_path, get_path_span, get_path. cbn [v_bytes v_count].
  destruct (split_dot path) as [|first segs]; [done|]. split_if; [done|].
  rewrite find_field_doc, doc_get_assoc by done. destruct (assoc first (fields d)) as [v|] eqn:Hv; [|done].
  opt_simpl. pose proof (doc_encodable_inv d Hd) as (_ & _ & Hok).
  pose proof (encodable_assoc _ _ _ Hok Hv) as Hev.
  pose proof (span_descend_encoded segs v Hev) as Hsd. destruct (value_span v) as [t s]. rewrite Hsd.
  destruct (descend v segs) as [w|] eqn:Hw; [|done]. opt_simpl.
  pose proof (decode_value_span w (encodable_descend _ _ _ Hev Hw)). by destruct (value_span w).
Qed.

(** ** Projecting while decoding *)

Lemma projection_prefixes_spec projection k :
  k ≠ [] → (k ∈ projection_prefixes projection ↔ ∃ p r, p ∈ projection ∧ split_dot p = k :: r).
Proof.
  intros Hk. unfold projection_prefixes.
  assert (∀ out, k ∈ foldl (λ out p,
    match split_dot p with
    | first :: _ =>
        if bool_decide (first = []) || bool_decide (first ∈ out) then out else out ++ [first]
    | [] => out
    end) out projection ↔ k ∈ out ∨ ∃ p r, p ∈ projection ∧ split_dot p = k :: r) as H.
  2: { rewrite H. rewrite elem_of_nil. tauto. }
  induction projection as [|p ps IH]; intros out; cbn [foldl].
  { split; [tauto|]. intros [?|(p & r & Hp & _)]; [done|]. by apply not_elem_of_nil in Hp. }
  rewrite IH. clear IH. setoid_rewrite elem_of_cons.
  assert ((∃ p0 r, (p0 = p ∨ p0 ∈ ps) ∧ split_dot p0 = k :: r)
    ↔ (∃ r, split_dot p = k :: r) ∨ ∃ p0 r, p0 ∈ ps ∧ split_dot p0 = k :: r) as -> by naive_solver.
  destruct (split_dot p) as [|first rest].
  { split; [tauto|]. intros [?|[(r & ?)|?]]; [tauto|done|tauto]. }
  split_if as E.
  - apply orb_true_iff in E as [E|E]; bool_simpl; (split; [tauto|]);
      (intros [?|[(r & [= -> ->])|?]]; [tauto|tauto|tauto]).
  - rewrite elem_of_app, list_elem_of_singleton. split; [|intros [?|[(r & [= -> ->])|?]]; tauto].
    intros [[?| ->]|?]; [tauto| |tauto]. right; left; eauto.
Qed.

Lemma prune_field_value_none v projection key :
  key ≠ [] → key ∉ projection_prefixes projection → prune_field_value v projection key = None.
Proof.
  intros Hk Hni. rewrite projection_prefixes_spec in Hni by done. unfold prune_field_value.
  destruct (field_paths key projection []) as [w subs] eqn:E. apply field_paths_spec in E as [Hw Hs].
  destruct w.
  { destruct Hni. destruct (proj1 Hw eq_refl) as (p & ? & ?). eauto. }
  destruct subs as [|s subs]; [done|]. destruct Hni.
  destruct (proj1 (Hs eq_refl s) ltac:(by left)) as [?%not_elem_of_nil|(p & ? & ? & _)]; [done|]. eauto.
Qed.

(** The per-field step of [decode_projected], on a field that decodes. *)
Lemma mapM_projected items fs projection :
  projection ≠ [] → [] ∉ fs.*1 →
  mapM (λ '(key, tag, data), v ← decode_value tag data; Some (key, v)) items = Some fs →
  mapM (λ '(key, tag, data),
    if bool_decide (projection = []) || bool_decide (key ∈ projection_prefixes projection) then
      val ← decode_value tag data;
      if bool_decide (projection = []) then Some (Some (key, val))
      else Some ((λ pruned, (key, pruned)) <$> prune_field_value val projection key)
    else Some None) items
  = Some ((λ kv, (λ v, (kv.1, v)) <$> prune_field_value kv.2 projection kv.1) <$> fs).
Proof.
  intros Hp. rewrite (bool_decide_eq_false_2 (projection = [])) by done. cbn [orb].
  revert fs; induction items as [|[[k tag] data] items IH]; intros fs Hni; cbn [mapM].
  { by intros [= <-]. }
  destruct (decode_value tag data) as [v|]; [|done]. opt_simpl.
  destruct (mapM _ items) as [fs'|]; [|done]. opt_simpl. intros [= <-].
  rewrite fmap_cons, not_elem_of_cons in Hni. destruct Hni as [Hk Hni]. cbn [fst] in Hk.
  rewrite (IH fs' Hni eq_refl), fmap_cons. cbn [fst snd].
  case_bool_decide; opt_simpl; [done|]. by rewrite prune_field_value_none.
Qed.

Lemma omap_id_fmap {A B} (f : A → option B) (l : list A) : omap id (f <$> l) = omap f l.
Proof. induction l as [|x l IH]; csimpl; [done|]. by destruct (f x); rewrite IH. Qed.

Lemma decode_projected_project b d projection :
  decode b = Some d → [] ∉ (fields d).*1 →
  decode_projected b projection = Some (mkDoc (project_fields d projection) (_time d)).
Proof.
  unfold decode, decode_projected. intros H Hni.
  destruct (view_new b) as [v|]; [|done]. opt_simpl in H. opt_simpl.
  destruct (iter_all true (view_iter v)) as [items it].
  destruct (mapM _ items) as [fs|] eqn:Hm; [|done]. opt_simpl in H.
  destruct (fully_consumed it b); [|done]. injection H as <-. cbn [fields _time] in *.
  destruct projection as [|p ps].
  - cbn [project_fields fields].
    replace (mapM _ items) with (Some (Some <$> fs)).
    { opt_simpl. rewrite omap_id_fmap. f_equal. f_equal. clear. by induction fs; csimpl; f_equal. }
    rewrite bool_decide_eq_true_2 by done. cbn [orb].
    clear -Hm. revert fs Hm; induction items as [|[[k t] s] items IH]; intros fs; cbn [mapM].
    { by intros [= <-]. }
    destruct (decode_value t s); [|done]. opt_simpl.
    destruct (mapM _ items) as [fs'|]; [|done]. opt_simpl. intros [= <-].
    by rewrite <-(IH _ eq_refl).
  - rewrite (mapM_projected items fs (p :: ps) ltac:(discriminate) Hni Hm). opt_simpl. rewrite omap_id_fmap. done.
Qed.
