(* ===== verification/DocProps.v ===== *)
(** * What documents and values guarantee

    The properties of src/document and src/util/varint.rs, each with a concrete
    instance, and the corner cases where code and comments part. *)

From stdpp Require Import prelude list sorting strings.
From Stdlib Require Import ZArith Lia.
From S2P Require Import Prelude RustStd Varint Value Doc DocFacts DocCodec DocAccess.

Local Open Scope Z_scope.
Local Open Scope hako_scope.

(** C34: documents round-trip through the binary format: a document whose
    integers are in range, whose strings are UTF-8 and whose names and counts
    fit their length fields decodes to itself. *)
Theorem doc_roundtrip d : doc_encodable d = true → decode (encode d) = Some d.
Proof. apply decode_encode_doc. Qed.

(** The format is strict: whatever decodes stops decoding when any byte is
    appended, so a truncated neighbour or trailing junk is never accepted. *)
Theorem doc_prefix_free b ext d : decode b = Some d → ext ≠ [] → decode (b ++ ext) = None.
Proof. apply decode_prefix_free. Qed.

(** Reading a dotted path straight from the encoded bytes (field search,
    map-by-map descent on spans, one value decoded) gives what the owned
    accessor gives on the document: binary search for the first segment, then
    descent through maps. *)
Theorem view_path_agrees d path :
  doc_encodable d = true → doc_sorted d →
  (view_new (encode d) ≫= λ v, docview_get_path v path) = get_path d path.
Proof. apply docview_get_path_encoded. Qed.

(** reading one field from the encoded bytes agrees with the owned
    [get]. *)
Theorem view_get_agrees d key :
  doc_encodable d = true → doc_sorted d →
  (view_new (encode d) ≫= λ v, docview_get v key) = doc_get d key.
Proof. apply docview_get_encoded. Qed.

(** projecting while decoding is decoding and then projecting, on every
    byte string that decodes to a document without an empty field name. *)
Theorem decode_projected_agrees b d projection :
  decode b = Some d → [] ∉ (fields d).*1 →
  decode_projected b projection = Some (mkDoc (project_fields d projection) (_time d)).
Proof. apply decode_projected_project. Qed.

(** [insert] keeps the fields strictly sorted by name and behaves as a
    finite map: the inserted name reads back the new value, every other name
    its old one. *)
Theorem doc_insert_map d k v k' :
  doc_sorted d →
  doc_sorted (doc_insert d k v) ∧
  doc_get (doc_insert d k v) k' = if bytes_eqb k k' then Some v else doc_get d k'.
Proof. intros Hs. split; [by apply doc_insert_sorted|by apply doc_get_insert]. Qed.

(** The recursive decoder terminates: on any tag and any bytes, well
    formed or not, every recursion depth above the length of the input gives
    the same answer, and so does every bound of the element loop of arrays
    above it, so the bounds of the definition are never reached. *)
Theorem decode_value_terminates f n tag b dec c :
  (length b < f)%nat → (length b < n)%nat →
  decode_value_fuel f tag b = decode_value tag b ∧
  array_loop dec n c b 8 = array_loop dec (S (length b)) c b 8.
Proof.
  intros Hf Hn. split; [apply decode_value_fuel_irrelevant; lia|].
  apply array_loop_fuel; unfold zlen; lia.
Qed.

(** [Ord for Value] is a total preorder on values without integers beyond
    the 53-bit significand of a double and without blob links: comparing
    the other way round gives the opposite, and the three comparisons among
    three values are consistent (transitivity of less, of equal and of their
    mixes). *)
Theorem value_cmp_preorder a b c :
  comparable a = true → comparable b = true → comparable c = true →
  value_cmp b a = CompOpp (value_cmp a b) ∧
  trans3 (value_cmp a b) (value_cmp b c) (value_cmp a c).
Proof. intros. split; [apply value_cmp_antisym|by apply value_cmp_trans3]. Qed.

(** [PartialEq] agrees with [Ord] on such values without negative zero:
    two values are equal exactly when they compare as equal. *)
Theorem value_eq_matches_cmp a b :
  comparable a = true → comparable b = true → no_neg_zero a = true → no_neg_zero b = true →
  value_eqb a b = true ↔ value_cmp a b = Eq.
Proof. apply value_eqb_cmp. Qed.

(** pruning a value to a set of paths keeps every selected path: reading
    it after pruning gives what it gave before. *)
Theorem prune_keeps_paths v paths p :
  p ∈ paths → p ≠ [] → descend (prune_value v paths) p = descend v p.
Proof. apply prune_value_path. Qed.

(** signed integers round-trip through zigzag and varint at any position
    of a buffer, in at most ten bytes, and the position after the read is the
    first byte after them. *)
Theorem varint_roundtrip pre n post :
  is_i64 n →
  decode_varint (pre ++ encode_varint (zigzag_encode n) ++ post) (zlen pre)
    = Some (zigzag_encode n, zlen pre + zlen (encode_varint (zigzag_encode n))) ∧
  zigzag_decode (zigzag_encode n) = n ∧ zlen (encode_varint (zigzag_encode n)) <= 10.
Proof.
  intros Hn. split_and!.
  - apply decode_encode_varint, zigzag_encode_u64.
  - by apply zigzag_decode_encode.
  - apply encode_varint_len, zigzag_encode_u64.
Qed.

(** ** Instances *)

Definition demo_doc : HakoDoc :=
  mkDoc [(b#("age"), Int (-300)); (b#("b"), Map [(b#("c"), Array [String b#("hello world"); Null])]);
         (b#("n"), Float 0x3FF0000000000000)] 12.

Lemma demo_doc_sorted : doc_sorted demo_doc.
Proof. repeat constructor. Qed.

Lemma doc_roundtrip_witness : decode (encode demo_doc) = Some demo_doc.
Proof. apply doc_roundtrip. vm_compute. reflexivity. Defined.

Lemma doc_prefix_free_witness : decode (encode demo_doc ++ [0]) = None.
Proof. apply (doc_prefix_free (encode demo_doc) [0] demo_doc); [vm_compute; reflexivity|discriminate]. Defined.

Lemma view_path_agrees_witness :
  (view_new (encode demo_doc) ≫= λ v, docview_get_path v b#("b.c")) = get_path demo_doc b#("b.c").
Proof. apply view_path_agrees; [vm_compute; reflexivity|exact demo_doc_sorted]. Defined.

Lemma view_get_agrees_witness :
  (view_new (encode demo_doc) ≫= λ v, docview_get v b#("n")) = doc_get demo_doc b#("n").
Proof. apply view_get_agrees; [vm_compute; reflexivity|exact demo_doc_sorted]. Defined.

Lemma decode_projected_agrees_witness :
  decode_projected (encode demo_doc) [b#("b.c")] = Some (mkDoc (project_fields demo_doc [b#("b.c")]) 12).
Proof.
  apply (decode_projected_agrees (encode demo_doc) demo_doc); [vm_compute; reflexivity|].
  apply (bool_decide_eq_true_1 ([] ∉ (fields demo_doc).*1)). vm_compute. reflexivity.
Defined.

Lemma doc_insert_map_witness :
  doc_sorted (doc_insert demo_doc b#("a") Null) ∧ doc_get (doc_insert demo_doc b#("a") Null) b#("a") = Some Null.
Proof. exact (doc_insert_map demo_doc b#("a") Null b#("a") demo_doc_sorted). Defined.

Lemma decode_value_terminates_witness :
  decode_value_fuel 100 9 [0; 0; 0; 0; 255; 255; 255; 255] = decode_value 9 [0; 0; 0; 0; 255; 255; 255; 255] ∧
  array_loop decode_value 100 7 [0; 0; 0; 0; 255; 255; 255; 255] 8
  = array_loop decode_value 9 7 [0; 0; 0; 0; 255; 255; 255; 255] 8.
Proof. apply (decode_value_terminates 100 100 9 [0; 0; 0; 0; 255; 255; 255; 255] decode_value 7); simpl; lia. Defined.

Lemma value_cmp_preorder_witness :
  value_cmp (Float 0) (Int 3) = CompOpp (value_cmp (Int 3) (Float 0)) ∧
  trans3 (value_cmp (Int 3) (Float 0)) (value_cmp (Float 0) Null) (value_cmp (Int 3) Null).
Proof. apply value_cmp_preorder; reflexivity. Defined.

Lemma value_eq_matches_cmp_witness :
  value_eqb (Int 3) (Float (i64_to_f64 3)) = true ↔ value_cmp (Int 3) (Float (i64_to_f64 3)) = Eq.
Proof. apply value_eq_matches_cmp; reflexivity. Defined.

Lemma prune_keeps_paths_witness :
  descend (prune_value (Map [(b#("x"), Int 1); (b#("y"), Int 2)]) [[b#("y")]]) [b#("y")]
  = descend (Map [(b#("x"), Int 1); (b#("y"), Int 2)]) [b#("y")].
Proof. apply prune_keeps_paths; [by apply list_elem_of_singleton|discriminate]. Defined.

Lemma varint_roundtrip_witness :
  decode_varint ([7] ++ encode_varint (zigzag_encode (-300)) ++ [9]) (zlen [7])
    = Some (zigzag_encode (-300), zlen [7] + zlen (encode_varint (zigzag_encode (-300)))) ∧
  zigzag_decode (zigzag_encode (-300)) = -300 ∧ zlen (encode_varint (zigzag_encode (-300))) <= 10.
Proof. apply varint_roundtrip. unfold is_i64. lia. Defined.

(** ** Corner cases *)

(** A field name of 256 bytes is written with length byte 0: the document does
    not decode to itself. *)
Lemma long_key_not_roundtrip :
  let d := mkDoc [(replicate 256 97, Null)] 0 in decode (encode d) ≠ Some d.
Proof. vm_compute. discriminate. Qed.

(** A field with the empty name survives [project_fields] with the empty path
    but not [decode_projected]. *)
Lemma empty_name_projection :
  let d := mkDoc [([], Int 1)] 0 in
  project_fields d [[]] = fields d ∧ decode_projected (encode d) [[]] = Some (mkDoc [] 0).
Proof. by vm_compute. Qed.

(** [==] without [cmp = Equal] (negative zero), and the converse (blob links). *)
Lemma eq_cmp_diverge :
  value_eqb (Int 0) (Float (2 ^ 63)) = true ∧ value_cmp (Int 0) (Float (2 ^ 63)) ≠ Eq ∧
  value_eqb (BlobLink 0 1) (BlobLink 5 1) = false ∧ value_cmp (BlobLink 0 1) (BlobLink 5 1) = Eq.
Proof. vm_compute. repeat split; discriminate. Qed.

(** Beyond the 53-bit significand the order is not transitive. *)
Lemma cmp_not_transitive :
  let f := Float (i64_to_f64 (2 ^ 53)) in
  value_cmp (Int (2 ^ 53)) f = Eq ∧ value_cmp f (Int (2 ^ 53 + 1)) = Eq ∧
  value_cmp (Int (2 ^ 53)) (Int (2 ^ 53 + 1)) = Lt.
Proof. by vm_compute. Qed.
