(* ===== verification/Config.v ===== *)
(** * Configuration (src/config.rs)

    The configuration record with its defaults, the clamp of the group-commit
    window and the lazy-collection patterns.  Sizes and durations are [Z]. *)

From stdpp Require Import prelude list strings.
From Stdlib Require Import ZArith Lia.
From S2P Require Import Prelude RustStd.

Local Open Scope Z_scope.
Local Open Scope hako_scope.

Inductive DurabilityMode := Always | Interval | Manual | OnCommit.

#[export] Instance DurabilityMode_eq_dec : EqDecision DurabilityMode.
Proof. solve_decision. Defined.

Record HakoConfig := mkConfig {
  mmap_size : Z;
  page_size : Z;
  page_cache_capacity : Z;
  query_workers : Z;
  auto_compaction_threshold_bytes : Z;
  durability_mode : DurabilityMode;
  group_commit_max_ops : Z;
  group_commit_interval_ms : Z;
  encryption_key : option bytes;
  encrypted_cols : option (list bytes);
  enable_audit_log : bool;
  audit_log_path : option bytes;
  max_inlined_memory_bytes : Z;
  use_compression : bool;
  compression_level : Z;
  value_blob_threshold_bytes : Z;
  replication_collections : option (list bytes);
  wal_reserve_bytes : Z;
  background_maintenance : bool;
  sync_excluded : list bytes;
  lazy_collections : list bytes;
  soft_delete_retention_secs : Z;
  soft_delete_sweep_interval_secs : Z;
  soft_delete_max_bytes : Z;
  soft_delete_max_count : Z }.

Definition DEFAULT_GROUP_COMMIT_INTERVAL_MS : Z := 5.

(** [HakoConfig::default]. *)
Definition default_config : HakoConfig := {|
  mmap_size := 256 * 1024 * 1024;
  page_size := 4096;
  page_cache_capacity := 8192;
  query_workers := 4;
  auto_compaction_threshold_bytes := 8 * 1024 * 1024;
  durability_mode := Interval;
  group_commit_max_ops := 128;
  group_commit_interval_ms := DEFAULT_GROUP_COMMIT_INTERVAL_MS;
  encryption_key := None;
  encrypted_cols := None;
  enable_audit_log := false;
  audit_log_path := None;
  max_inlined_memory_bytes := 64 * 1024 * 1024;
  use_compression := false;
  compression_level := 3;
  value_blob_threshold_bytes := 16 * 1024;
  replication_collections := None;
  wal_reserve_bytes := 4 * 1024 * 1024;
  background_maintenance := true;
  sync_excluded := [];
  lazy_collections := [];
  soft_delete_retention_secs := 86400;
  soft_delete_sweep_interval_secs := 300;
  soft_delete_max_bytes := 64 * 1024 * 1024;
  soft_delete_max_count := 1000000 |}.

Definition clamp (v lo hi : Z) : Z := if v <? lo then lo else if hi <? v then hi else v.

Definition clamp_group_commit_interval_ms (ms : Z) : Z := clamp ms 1 30000.

(** [p.strip_suffix('*')]. *)
Definition strip_star (p : bytes) : option bytes :=
  match rev p with
  | 42 :: r => Some (rev r)
  | _ => None
  end.

Definition lazy_pattern_match (patterns : list bytes) (name : bytes) : bool :=
  existsb (λ p, match strip_star p with
                | Some prefix => starts_with name prefix
                | None => bytes_eqb p name
                end) patterns.

Lemma strip_star_spec p q : strip_star p = Some q ↔ p = q ++ [42].
Proof.
  unfold strip_star. split.
  - destruct (rev p) as [|c r] eqn:E; [done|].
    destruct (decide (c = 42)) as [->|Hne].
    + intros [= <-]. rewrite <-(rev_involutive p), E. done.
    + repeat (destruct c as [|c|c]; try done; try (intros; lia)).
  - intros ->. rewrite rev_app_distr. cbn. by rewrite rev_involutive.
Qed.
