(* ===== verification/Crypto.v ===== *)
(** * Authenticated encryption at rest (src/storage/crypto.rs)

    [EncryptionContext]: a cipher, a 32-bit session prefix and a 64-bit counter
    shared by all clones of the context.  The counter lives outside the context
    (it is one [Arc<AtomicU64>]) and is threaded through every operation that
    encrypts.  The ChaCha20-Poly1305 implementation is a third-party crate: a
    class with its laws, that decryption under the same nonce inverts encryption
    and that the ciphertext is the plaintext plus a 16-byte tag. *)

From stdpp Require Import prelude list strings.
From Stdlib Require Import ZArith Lia.
From S2P Require Import Prelude RustStd Error.

Local Open Scope Z_scope.
Local Open Scope hako_scope.

(** The AEAD crate: [None] is the crate's opaque error. *)
Class Aead (cipher : Type) := {
  aead_encrypt : cipher → bytes → bytes → option bytes;
  aead_decrypt : cipher → bytes → bytes → option bytes;
}.

(** What the storage layer relies on. *)
Class AeadLaws (cipher : Type) `{Aead cipher} := {
  aead_decrypt_encrypt c nonce p ct :
    aead_encrypt c nonce p = Some ct → aead_decrypt c nonce ct = Some p;
  aead_encrypt_len c nonce p ct :
    aead_encrypt c nonce p = Some ct → zlen ct = zlen p + 16;
}.

Section Context_.
Context {cipher : Type} `{Aead cipher}.

Definition NONCE_LEN : Z := 12.

Record EncryptionContext := mkEnc { enc_cipher : cipher; enc_prefix : Z }.

(** The nonce of the encryption numbered [count]. *)
Definition nonce_bytes (e : EncryptionContext) (count : Z) : bytes :=
  to_be 4 (enc_prefix e) ++ to_be 8 count.

(** [EncryptionContext::encrypt]: [fetch_add] wraps at 64 bits; the counter
    advances also when the cipher fails. *)
Definition encrypt (ctr : Z) (e : EncryptionContext) (plaintext : bytes) : Z * res bytes :=
  let nonce := nonce_bytes e ctr in
  (as_u64 (ctr + 1),
   match aead_encrypt (enc_cipher e) nonce plaintext with
   | Some ciphertext => Ok (nonce ++ ciphertext)
   | None => Err (StorageError "encryption failed")
   end).

(** [EncryptionContext::decrypt]. *)
Definition decrypt (e : EncryptionContext) (input : bytes) : res bytes :=
  if zlen input <? NONCE_LEN then Err (Corrupt "ciphertext shorter than nonce")
  else
    match aead_decrypt (enc_cipher e) (take 12 input) (drop 12 input) with
    | Some p => Ok p
    | None => Err (Corrupt "decryption failed")
    end.

Lemma zlen_nonce e count : zlen (nonce_bytes e count) = 12.
Proof. unfold nonce_bytes. by rewrite zlen_app, !zlen_to_be. Qed.

Lemma encrypt_len `{!AeadLaws cipher} ctr e p ctr' ct :
  encrypt ctr e p = (ctr', Ok ct) → zlen ct = zlen p + 28.
Proof.
  unfold encrypt. destruct (aead_encrypt _ _ _) as [c|] eqn:E; [|done]. intros Hct.
  assert (ct = nonce_bytes e ctr ++ c) as -> by congruence.
  pose proof (zlen_nonce e ctr). apply aead_encrypt_len in E. zlen.
Qed.

(** Reading back what was encrypted, with the same key. *)
Lemma decrypt_encrypt `{!AeadLaws cipher} ctr e p ctr' ct :
  encrypt ctr e p = (ctr', Ok ct) → decrypt e ct = Ok p.
Proof.
  unfold encrypt, decrypt. destruct (aead_encrypt _ _ _) as [c|] eqn:E; [|done]. intros Hct.
  assert (ct = nonce_bytes e ctr ++ c) as -> by congruence.
  pose proof (zlen_nonce e ctr) as Hn. split_if; [unfold NONCE_LEN in *; zlen|].
  assert (length (nonce_bytes e ctr) = 12%nat) as Hl by (unfold zlen in Hn; lia).
  rewrite take_app_length', drop_app_length' by done.
  by rewrite (aead_decrypt_encrypt _ _ _ _ E).
Qed.

(** The nonces of the first [n] encryptions after the context was created. *)
Fixpoint nonces (n : nat) (ctr : Z) (e : EncryptionContext) : list bytes :=
  match n with
  | O => []
  | S n => nonce_bytes e ctr :: nonces n (as_u64 (ctr + 1)) e
  end.

Lemma to_be_inj n a b :
  0 <= a < 256 ^ Z.of_nat n → 0 <= b < 256 ^ Z.of_nat n → to_be n a = to_be n b → a = b.
Proof. intros Ha Hb E. rewrite <-(of_be_to_be n a), <-(of_be_to_be n b) by done. by rewrite E. Qed.

Lemma nonce_inj e a b : is_u64 a → is_u64 b → nonce_bytes e a = nonce_bytes e b → a = b.
Proof.
  unfold nonce_bytes, is_u64. intros Ha Hb E. apply app_inj_1 in E as [_ E]; [|done].
  by apply (to_be_inj 8) in E.
Qed.

Lemma elem_of_nonces n ctr e x :
  0 <= ctr → ctr + Z.of_nat n <= 2 ^ 64 →
  x ∈ nonces n ctr e → ∃ c, ctr <= c < ctr + Z.of_nat n ∧ x = nonce_bytes e c.
Proof.
  revert ctr; induction n as [|n IH]; intros ctr Hc Hn; [by intros ?%not_elem_of_nil|].
  cbn [nonces]. rewrite elem_of_cons. intros [->|Hx]; [exists ctr; split; [lia|done]|].
  destruct (decide (n = O)) as [->|]; [by apply not_elem_of_nil in Hx|].
  rewrite as_u64_id in Hx by (unfold is_u64; lia).
  destruct (IH (ctr + 1) ltac:(lia) ltac:(lia) Hx) as (c & ? & ?). exists c; split; [lia|done].
Qed.

Lemma nonces_NoDup n ctr e : 0 <= ctr → ctr + Z.of_nat n <= 2 ^ 64 → NoDup (nonces n ctr e).
Proof.
  revert ctr; induction n as [|n IH]; intros ctr Hc Hn; cbn [nonces]; [constructor|].
  destruct (decide (n = O)) as [->|]; [by apply NoDup_singleton|].
  rewrite as_u64_id by (unfold is_u64; lia). constructor; [|apply IH; lia].
  intros (c & Hcr & E)%elem_of_nonces; [|lia..].
  apply nonce_inj in E; unfold is_u64; lia.
Qed.
End Context_.

Arguments EncryptionContext : clear implicits.
