(* ===== verification/VFile.v ===== *)
(** * Files (std::fs::File as used by src/storage)

    A file is its contents, the position of the handle and the contents that
    the last [sync_data] made durable.  Reads and writes of the page cache
    succeed; what a crash leaves behind is stated where recovery is proved. *)

From stdpp Require Import prelude list strings.
From Stdlib Require Import ZArith Lia.
From S2P Require Import Prelude RustStd.

Local Open Scope Z_scope.

Record VFile := mkFile { contents : bytes; cursor : Z; synced : bytes }.

Definition f_len (f : VFile) : Z := zlen (contents f).

(** [set_len]: truncate, or extend with zeros. *)
Definition f_set_len (n : Z) (f : VFile) : VFile :=
  mkFile (take (Z.to_nat n) (contents f) ++
          replicate (Z.to_nat n - length (contents f)) 0) (cursor f) (synced f).

(** [seek(SeekFrom::Start(p))]. *)
Definition f_seek (p : Z) (f : VFile) : VFile := mkFile (contents f) p (synced f).

(** [write_all] at the handle's position; a gap past the end reads as zeros. *)
Definition f_write_all (bs : bytes) (f : VFile) : VFile :=
  match bs with
  | [] => f
  | _ =>
      let n := Z.to_nat (cursor f) in
      mkFile (take n (contents f) ++ replicate (n - length (contents f)) 0 ++ bs ++
              drop (n + length bs) (contents f))
        (cursor f + zlen bs) (synced f)
  end.

(** [sync_data]. *)
Definition f_sync (f : VFile) : VFile := mkFile (contents f) (cursor f) (contents f).

(** Writing at the end of the records, over the zero reservation. *)
Lemma f_write_all_pad data pad bs s :
  f_write_all bs (mkFile (data ++ replicate pad 0) (zlen data) s)
  = mkFile ((data ++ bs) ++ replicate (pad - length bs) 0) (zlen (data ++ bs)) s.
Proof.
  destruct bs as [|b bs].
  { cbn [f_write_all]. by rewrite app_nil_r, Nat.sub_0_r. }
  unfold f_write_all. cbn [contents cursor synced].
  set (w := b :: bs). replace (Z.to_nat (zlen data)) with (length data) by (unfold zlen; lia).
  rewrite take_app_length, length_app.
  replace (length data - (length data + length (replicate pad 0%Z)))%nat with O by lia.
  f_equal; [|zlen]. cbn [replicate app]. rewrite <-app_assoc. f_equal. f_equal.
  rewrite <-drop_drop, drop_app_length, drop_replicate. done.
Qed.

Lemma f_set_len_trunc data tail c s :
  f_set_len (zlen data) (mkFile (data ++ tail) c s) = mkFile data c s.
Proof.
  unfold f_set_len. cbn [contents cursor synced].
  replace (Z.to_nat (zlen data)) with (length data) by (unfold zlen; lia).
  rewrite take_app_length, length_app.
  replace (length data - (length data + length tail))%nat with O by lia. by rewrite app_nil_r.
Qed.

Lemma f_set_len_zero n c s : f_set_len n (mkFile [] c s) = mkFile (replicate (Z.to_nat n) 0) c s.
Proof. unfold f_set_len. cbn [contents length]. by rewrite take_nil, Nat.sub_0_r. Qed.
