(* ===== verification/Wal.v ===== *)
(** * The write-ahead log (src/storage/wal.rs)

    Log operations and their payload codec, the record framing (length, CRC,
    payload), the buffered writer with its four durability modes, recovery
    ([replay], [replay_from_offset]), tailing and the transaction filter.

    CRC-32 is a third-party crate and a parameter; so is the cipher (Crypto.v).
    The wall clock is an argument ([now], in milliseconds).  The reading loops
    consume at least the eight header bytes per iteration, so the length of the
    file is enough fuel. *)

From stdpp Require Import prelude list strings.
From Stdlib Require Import ZArith Lia.
From S2P Require Import Prelude RustStd Error Config Crypto VFile.

Local Open Scope Z_scope.
Local Open Scope hako_scope.

Inductive WalOp :=
| BeginTx (tx_id : Z)
| Put (key : bytes) (segment_id segment_offset len : Z)
| Delete (key : bytes) (timestamp : Z)
| CommitTx (tx_id : Z)
| PutInlined (key : bytes) (value : bytes)
| PutBlob (key : bytes) (offset len : Z).

#[export] Instance WalOp_eq_dec : EqDecision WalOp.
Proof. solve_decision. Defined.

(** [WalOp::get_key]. *)
Definition get_key (op : WalOp) : bytes :=
  match op with
  | Put key _ _ _ | Delete key _ | PutInlined key _ | PutBlob key _ _ => key
  | BeginTx _ | CommitTx _ => []
  end.

Definition is_commit (op : WalOp) : bool :=
  match op with CommitTx _ => true | _ => false end.

(** A key with its [u16] length. *)
Definition encode_key (key : bytes) : bytes := to_le 2 (as_u16 (zlen key)) ++ key.

(** [encode_into], as the bytes it appends. *)
Definition encode_op (op : WalOp) : bytes :=
  match op with
  | BeginTx tx_id => 0 :: to_le 8 tx_id
  | Put key segment_id segment_offset len =>
      1 :: encode_key key ++ to_le 8 segment_id ++ to_le 8 segment_offset ++ to_le 4 len
  | Delete key timestamp => 2 :: encode_key key ++ i64_to_le timestamp
  | CommitTx tx_id => 3 :: to_le 8 tx_id
  | PutInlined key value => 4 :: encode_key key ++ to_le 4 (as_u32 (zlen value)) ++ value
  | PutBlob key offset len => 5 :: encode_key key ++ to_le 8 offset ++ to_le 4 len
  end.

(** The key of a payload: the slice expressions abort on a short payload, the
    explicit overrun check and the UTF-8 check return errors. *)
Definition decode_key (payload : bytes) (pos : Z) (overrun bad : string) : res (bytes * Z) :=
  key_len ← or_panic (of_le <$> get_range payload pos (pos + 2));
  let pos := pos + 2 in
  if zlen payload <? pos + key_len then Err (Corrupt overrun)
  else
    raw ← or_panic (get_range payload pos (pos + key_len));
    key ← ok_or (from_utf8 raw) (Corrupt bad);
    Ok (key, pos + key_len).

(** [decode]. *)
Definition decode_op (payload : bytes) : res WalOp :=
  tag ← ok_or (get payload 0) (Corrupt "empty wal record");
  let pos := 1 in
  if tag =? 0 then
    tx_id ← or_panic (of_le <$> get_range payload pos (pos + 8));
    Ok (BeginTx tx_id)
  else if tag =? 1 then
    '(key, pos) ← decode_key payload pos "wal put key overruns record" "bad wal key";
    segment_id ← or_panic (of_le <$> get_range payload pos (pos + 8));
    let pos := pos + 8 in
    offset ← or_panic (of_le <$> get_range payload pos (pos + 8));
    let pos := pos + 8 in
    len ← or_panic (of_le <$> get_range payload pos (pos + 4));
    Ok (Put key segment_id offset len)
  else if tag =? 2 then
    '(key, pos) ← decode_key payload pos "wal delete key overruns record" "bad wal key";
    timestamp ← or_panic (i64_of_le <$> get_range payload pos (pos + 8));
    Ok (Delete key timestamp)
  else if tag =? 3 then
    tx_id ← or_panic (of_le <$> get_range payload pos (pos + 8));
    Ok (CommitTx tx_id)
  else if tag =? 4 then
    '(key, pos) ← decode_key payload pos "wal putinlined key overruns record" "bad key";
    val_len ← or_panic (of_le <$> get_range payload pos (pos + 4));
    let pos := pos + 4 in
    if zlen payload <? pos + val_len then Err (Corrupt "wal putinlined val overruns record")
    else
      value ← or_panic (get_range payload pos (pos + val_len));
      Ok (PutInlined key value)
  else if tag =? 5 then
    '(key, pos) ← decode_key payload pos "wal putblob key overruns record" "bad key";
    offset ← or_panic (of_le <$> get_range payload pos (pos + 8));
    let pos := pos + 8 in
    len ← or_panic (of_le <$> get_range payload pos (pos + 4));
    Ok (PutBlob key offset len)
  else Err (Corrupt "unknown wal op").

(** [filter_committed_ops]: the loop with [output], [current_tx], [tx_ops]. *)
Fixpoint filter_loop (raw_ops output : list WalOp) (current_tx : option Z) (tx_ops : list WalOp)
  : list WalOp :=
  match raw_ops with
  | [] => output
  | op :: raw_ops =>
      match op with
      | BeginTx tx_id => filter_loop raw_ops output (Some tx_id) []
      | CommitTx tx_id =>
          let output := if bool_decide (current_tx = Some tx_id) then output ++ tx_ops else output in
          filter_loop raw_ops output None []
      | _ =>
          if bool_decide (is_Some current_tx)
          then filter_loop raw_ops output current_tx (tx_ops ++ [op])
          else filter_loop raw_ops (output ++ [op]) current_tx tx_ops
      end
  end.
Definition filter_committed_ops (raw_ops : list WalOp) : list WalOp := filter_loop raw_ops [] None [].

Definition STRICT_EMERGENCY_BYTES : Z := 16 * 1024 * 1024.

Definition is_zero_header (header : bytes) : bool := forallb (λ b, b =? 0) header.

Definition reserves_for_mode (mode : DurabilityMode) : bool :=
  match mode with Always | OnCommit => true | _ => false end.

(** The CRC-32 crate. *)
Class Crc := crc32 : bytes → Z.
Class CrcLaws `{Crc} := crc32_u32 b : is_u32 (crc32 b).

Section Wal_.
Context `{Crc} {cipher : Type} `{Aead cipher}.

Record Wal := mkWal {
  file : VFile;
  mode : DurabilityMode;
  max_ops : Z;
  pending_ops_since_sync : Z;
  encryption : option (EncryptionContext cipher);
  write_buffer : bytes;
  last_sync : Z;
  group_commit_interval : Z;
  strict_interval : bool;
  reserve_bytes : Z;
  data_len : Z }.

Definition with_file (f : VFile) (w : Wal) : Wal :=
  mkWal f (mode w) (max_ops w) (pending_ops_since_sync w) (encryption w) (write_buffer w)
    (last_sync w) (group_commit_interval w) (strict_interval w) (reserve_bytes w) (data_len w).
Definition with_buffer (b : bytes) (w : Wal) : Wal :=
  mkWal (file w) (mode w) (max_ops w) (pending_ops_since_sync w) (encryption w) b
    (last_sync w) (group_commit_interval w) (strict_interval w) (reserve_bytes w) (data_len w).
Definition with_pending (n : Z) (w : Wal) : Wal :=
  mkWal (file w) (mode w) (max_ops w) n (encryption w) (write_buffer w)
    (last_sync w) (group_commit_interval w) (strict_interval w) (reserve_bytes w) (data_len w).
Definition with_last_sync (t : Z) (w : Wal) : Wal :=
  mkWal (file w) (mode w) (max_ops w) (pending_ops_since_sync w) (encryption w) (write_buffer w)
    t (group_commit_interval w) (strict_interval w) (reserve_bytes w) (data_len w).
Definition with_data_len (n : Z) (w : Wal) : Wal :=
  mkWal (file w) (mode w) (max_ops w) (pending_ops_since_sync w) (encryption w) (write_buffer w)
    (last_sync w) (group_commit_interval w) (strict_interval w) (reserve_bytes w) n.

(** [Wal::open] on the file found at the path (empty when created). *)
Definition wal_open (disk : bytes) (m : DurabilityMode) (group_commit_max_ops : Z)
    (enc : option (EncryptionContext cipher)) (reserve now : Z) : Wal :=
  let f := mkFile disk 0 disk in
  let e := f_len f in
  let f := if reserves_for_mode m && (0 <? reserve) && (f_len f <? reserve)
           then f_set_len reserve f else f in
  mkWal (f_seek e f) m (Z.max group_commit_max_ops 1) 0 enc [] now 5 false reserve 0.

(** ** Writing *)

(** A record: payload length, CRC, payload. *)
Definition frame (payload : bytes) : bytes :=
  to_le 4 (as_u32 (zlen payload)) ++ to_le 4 (crc32 payload) ++ payload.

(** The payload of a record, encrypted when the log is. *)
Definition op_payload (ctr : Z) (w : Wal) (op : WalOp) : Z * res bytes :=
  match encryption w with
  | Some enc => encrypt ctr enc (encode_op op)
  | None => (ctr, Ok (encode_op op))
  end.

(** Header space, payload, header patched in place.  When encryption fails the
    eight reserved bytes stay in the buffer. *)
Definition buffer_record (ctr : Z) (w : Wal) (op : WalOp) : Z * Wal * res unit :=
  let '(ctr, r) := op_payload ctr w op in
  match r with
  | Ok payload =>
      (ctr, with_pending (pending_ops_since_sync w + 1)
              (with_buffer (write_buffer w ++ frame payload) w), Ok tt)
  | Err e => (ctr, with_buffer (write_buffer w ++ replicate 8 0) w, Err e)
  | Panic => (ctr, with_buffer (write_buffer w ++ replicate 8 0) w, Panic)
  end.

(** [Wal::flush]. *)
Definition flush (now : Z) (w : Wal) : Wal :=
  match write_buffer w with
  | [] => w
  | _ =>
      let f := f_sync (f_write_all (write_buffer w) (file w)) in
      with_data_len (cursor f) (with_last_sync now (with_pending 0 (with_buffer [] (with_file f w))))
  end.

(** The [should_flush] decision of [maybe_sync]. *)
Definition should_flush (w : Wal) (is_commit : bool) (now : Z) : bool :=
  match mode w with
  | Always => true
  | OnCommit => is_commit
  | Interval =>
      if strict_interval w then
        is_commit && ((group_commit_interval w <=? now - last_sync w) ||
                      (STRICT_EMERGENCY_BYTES <? zlen (write_buffer w)))
      else
        is_commit && ((max_ops w <=? pending_ops_since_sync w) ||
                      (group_commit_interval w <=? now - last_sync w) ||
                      (124 * 1024 <? zlen (write_buffer w)))
  | Manual => false
  end.

(** [Wal::maybe_sync]. *)
Definition maybe_sync (now : Z) (is_commit is_remote : bool) (w : Wal) : Wal :=
  if is_remote && negb (bool_decide (mode w = Always)) then
    let f := f_write_all (write_buffer w) (file w) in
    with_data_len (cursor f) (with_buffer [] (with_file f w))
  else if should_flush w is_commit now then flush now w
  else w.

(** [Wal::append]. *)
Definition append (now ctr : Z) (w : Wal) (op : WalOp) (is_remote : bool) : Z * Wal * res unit :=
  match buffer_record ctr w op with
  | (ctr, w, Ok _) => (ctr, maybe_sync now (is_commit op) is_remote w, Ok tt)
  | (ctr, w, Err e) => (ctr, w, Err e)
  | (ctr, w, Panic) => (ctr, w, Panic)
  end.

(** [Wal::append_raw]: the buffer is cleared and left holding the record. *)
Definition append_raw (w : Wal) (op : WalOp) : Wal :=
  let w := with_buffer (frame (encode_op op)) w in
  let f := f_write_all (write_buffer w) (file w) in
  with_file (if bool_decide (mode w = Always) then f_sync f else f) w.

(** The loop of [append_batch]. *)
Fixpoint buffer_records (ctr : Z) (w : Wal) (ops : list WalOp) : Z * Wal * res unit :=
  match ops with
  | [] => (ctr, w, Ok tt)
  | op :: ops =>
      match buffer_record ctr w op with
      | (ctr, w, Ok _) => buffer_records ctr w ops
      | r => r
      end
  end.

(** [Wal::append_batch]. *)
Definition append_batch (now ctr : Z) (w : Wal) (ops : list WalOp) (is_remote : bool)
  : Z * Wal * res unit :=
  match buffer_records ctr w ops with
  | (ctr, w, Ok _) => (ctr, maybe_sync now (existsb is_commit ops) is_remote w, Ok tt)
  | r => r
  end.

(** [Wal::append_to_buffer]: the [unwrap] aborts when encryption fails. *)
Definition append_to_buffer (ctr : Z) (w : Wal) (op : WalOp) : Z * Wal * res unit :=
  match buffer_record ctr w op with
  | (ctr, w, Err _) => (ctr, w, Panic)
  | r => r
  end.

Fixpoint append_all_to_buffer (ctr : Z) (w : Wal) (ops : list WalOp) : Z * Wal * res unit :=
  match ops with
  | [] => (ctr, w, Ok tt)
  | op :: ops =>
      match append_to_buffer ctr w op with
      | (ctr, w, Ok _) => append_all_to_buffer ctr w ops
      | r => r
      end
  end.

(** [Wal::append_batch_fast]. *)
Definition append_batch_fast (now ctr : Z) (w : Wal) (tx_id : Z) (ops : list WalOp) (is_remote : bool)
  : Z * Wal * res unit :=
  match append_all_to_buffer ctr w ([BeginTx tx_id] ++ ops ++ [CommitTx tx_id]) with
  | (ctr, w, Ok _) => (ctr, maybe_sync now true is_remote w, Ok tt)
  | r => r
  end.

(** ** Reading *)

(** The header at [p]: its eight bytes, the length and the checksum. *)
Definition read_header (c : bytes) (p : Z) : option (bytes * Z * Z) :=
  header ← get_range c p (p + 8);
  Some (header, of_le (take 4 header), of_le (drop 4 header)).

Definition decrypt_payload (enc : option (EncryptionContext cipher)) (payload : bytes) : res bytes :=
  match enc with Some e => decrypt e payload | None => Ok payload end.

(** The loop of [Wal::replay]: the operations read, [last_valid_pos] and
    [stopped_on_padding]. *)
Fixpoint replay_loop (fuel : nat) (enc : option (EncryptionContext cipher)) (c : bytes)
    (raw_ops : list WalOp) (last_valid_pos : Z) : res (list WalOp * Z * bool) :=
  match fuel with
  | O => Panic
  | S fuel =>
      match read_header c last_valid_pos with
      | None => Ok (raw_ops, last_valid_pos, false)
      | Some (header, len, expected_crc) =>
          if is_zero_header header then Ok (raw_ops, last_valid_pos, true)
          else if len =? 0 then Ok (raw_ops, last_valid_pos, false)
          else
            match get_range c (last_valid_pos + 8) (last_valid_pos + 8 + len) with
            | None => Ok (raw_ops, last_valid_pos, false)
            | Some payload =>
                if negb (crc32 payload =? expected_crc) then Ok (raw_ops, last_valid_pos, false)
                else
                  match decrypt_payload enc payload with
                  | Ok decoded =>
                      match decode_op decoded with
                      | Ok op => replay_loop fuel enc c (raw_ops ++ [op]) (last_valid_pos + (8 + len))
                      | Err _ =>
                          match enc with
                          | None => Err (Corrupt "Recognized valid data but failed to decode. Is this collection encrypted?")
                          | Some _ => Ok (raw_ops, last_valid_pos, false)
                          end
                      | Panic => Panic
                      end
                  | Err _ => Err (Corrupt "Decryption failed. Wrong encryption key?")
                  | Panic => Panic
                  end
            end
      end
  end.

(** [Wal::replay]; the state is only reached on success, as its callers give
    the log up otherwise. *)
Definition replay (w : Wal) : res (Wal * list WalOp) :=
  let f := file w in
  '(raw_ops, last_valid_pos, stopped_on_padding) ←
    replay_loop (S (length (contents f))) (encryption w) (contents f) [] 0;
  let f := if (last_valid_pos <? f_len f) && negb stopped_on_padding
           then f_set_len last_valid_pos f else f in
  Ok (with_data_len last_valid_pos (with_file (f_seek last_valid_pos f) w),
      filter_committed_ops raw_ops).

(** The loop of [Wal::replay_from_offset]. *)
Fixpoint replay_from_loop (fuel : nat) (enc : option (EncryptionContext cipher)) (c : bytes)
    (raw_ops : list WalOp) (last_valid_pos : Z) : res (list WalOp * Z * bool) :=
  match fuel with
  | O => Panic
  | S fuel =>
      match read_header c last_valid_pos with
      | None => Ok (raw_ops, last_valid_pos, false)
      | Some (header, len, expected_crc) =>
          if is_zero_header header then Ok (raw_ops, last_valid_pos, true)
          else
            match get_range c (last_valid_pos + 8) (last_valid_pos + 8 + len) with
            | None => Ok (raw_ops, last_valid_pos, false)
            | Some payload =>
                if negb (crc32 payload =? expected_crc) then Ok (raw_ops, last_valid_pos, false)
                else
                  decoded ← decrypt_payload enc payload;
                  op ← decode_op decoded;
                  replay_from_loop fuel enc c (raw_ops ++ [op]) (last_valid_pos + (8 + len))
            end
      end
  end.

(** [Wal::replay_from_offset]: the seek to [offset] is undone by the seek to
    the start that follows it. *)
Definition replay_from_offset (w : Wal) (offset : Z) : res (Wal * list WalOp) :=
  let f := f_seek 0 (f_seek offset (file w)) in
  '(raw_ops, last_valid_pos, stopped_on_padding) ←
    replay_from_loop (S (length (contents f))) (encryption w) (contents f) [] (cursor f);
  let f := if (last_valid_pos <? f_len f) && negb stopped_on_padding
           then f_set_len last_valid_pos f else f in
  Ok (with_data_len last_valid_pos (with_file (f_seek last_valid_pos f) w),
      filter_committed_ops raw_ops).

(** The loop of [Wal::tail]. *)
Fixpoint tail_loop (fuel : nat) (enc : option (EncryptionContext cipher)) (c : bytes)
    (ops : list WalOp) (current_pos : Z) : res (list WalOp * Z) :=
  match fuel with
  | O => Panic
  | S fuel =>
      match read_header c current_pos with
      | None => Ok (ops, current_pos)
      | Some (header, len, expected_crc) =>
          if is_zero_header header then Ok (ops, current_pos)
          else
            match get_range c (current_pos + 8) (current_pos + 8 + len) with
            | None => Ok (ops, current_pos)
            | Some payload =>
                if crc32 payload =? expected_crc then
                  decoded ← decrypt_payload enc payload;
                  op ← decode_op decoded;
                  tail_loop fuel enc c (ops ++ [op]) (current_pos + 8 + len)
                else Ok (ops, current_pos)
            end
      end
  end.

(** [Wal::tail]: an offset past the records means the log was rebuilt. *)
Definition tail (w : Wal) (start_offset : Z) : res (list WalOp * Z) :=
  let c := contents (file w) in
  let start := if data_len w <? start_offset then 0 else start_offset in
  if zlen c <=? start then Ok ([], zlen c)
  else tail_loop (S (length c)) (encryption w) c [] start.

(** [Wal::reset]. *)
Definition reset (w : Wal) : Wal :=
  let f := f_set_len 0 (file w) in
  let f := if reserves_for_mode (mode w) && (0 <? reserve_bytes w)
           then f_set_len (reserve_bytes w) f else f in
  with_data_len 0 (with_pending 0 (with_buffer [] (with_file (f_seek 0 f) w))).

(** [file_len], [has_pending], [should_tick_flush], [set_durability_mode],
    [set_group_commit_interval]. *)
Definition file_len (w : Wal) : Z := f_len (file w).
Definition has_pending (w : Wal) : bool :=
  match write_buffer w with [] => false | _ => true end.
Definition should_tick_flush (w : Wal) (now : Z) : bool :=
  bool_decide (mode w = Interval) && has_pending w && (group_commit_interval w <=? now - last_sync w).
Definition set_durability_mode (m : DurabilityMode) (w : Wal) : Wal :=
  mkWal (file w) m (max_ops w) (pending_ops_since_sync w) (encryption w) (write_buffer w)
    (last_sync w) (group_commit_interval w) (strict_interval w) (reserve_bytes w) (data_len w).
Definition set_group_commit_interval (ms : Z) (w : Wal) : Wal :=
  let ms := clamp_group_commit_interval_ms ms in
  mkWal (file w) (mode w) (max_ops w) (pending_ops_since_sync w) (encryption w) (write_buffer w)
    (last_sync w) ms (negb (ms =? DEFAULT_GROUP_COMMIT_INTERVAL_MS)) (reserve_bytes w) (data_len w).
End Wal_.

Arguments Wal : clear implicits.
