(* ===== verification/WalFacts.v ===== *)
(** * Correctness of the write-ahead log

    The payload codec round-trips; a log is a concatenation of framed records;
    the writer extends the log by exactly the records appended, in the file or
    in its buffer; the readers recover exactly the records of the file, stop at
    padding without truncating, cut torn and corrupt tails, and the transaction
    filter returns complete transactions only. *)

From stdpp Require Import prelude list strings.
From Stdlib Require Import ZArith Lia.
From S2P Require Import Prelude RustStd Error Config Crypto VFile Wal DocFacts.

Local Open Scope Z_scope.
Local Open Scope hako_scope.

(** ** Payloads *)

Definition key_ok (key : bytes) : bool := utf8_valid key && (zlen key <? 2 ^ 16).

(** Integers in range, keys that fit their length field, values below 4 GiB. *)
Definition op_ok (op : WalOp) : bool :=
  match op with
  | BeginTx t | CommitTx t => u64b t
  | Put k s o l => key_ok k && u64b s && u64b o && u32b l
  | Delete k t => key_ok k && i64b t
  | PutInlined k v => key_ok k && (zlen v <? 2 ^ 31)
  | PutBlob k o l => key_ok k && u64b o && u32b l
  end.

Lemma res_ok_bind {A B} (a : A) (f : A → res B) : Ok a ≫= f = f a.
Proof. done. Qed.

Ltac res_simpl := cbn [mbind option_bind fmap option_fmap option_map or_panic ok_or]; rewrite ?res_ok_bind.

Lemma key_ok_inv k : key_ok k = true → utf8_valid k = true ∧ 0 <= zlen k < 2 ^ 16.
Proof. unfold key_ok. intros; bool_simpl. pose proof (zlen_nonneg k); split; [done|lia]. Qed.

Lemma get_head {A} (x : A) l : get (x :: l) 0 = Some x.
Proof. by apply (get_mid [] x l 0). Qed.

Lemma decode_key_encoded pre k post ov bad :
  key_ok k = true →
  decode_key (pre ++ encode_key k ++ post) (zlen pre) ov bad = Ok (k, zlen pre + 2 + zlen k).
Proof.
  intros [Hu Hl]%key_ok_inv. unfold decode_key, encode_key. rewrite <-app_assoc.
  rewrite get_range_mid by zlen. res_simpl.
  rewrite as_u16_id, of_le_to_le_u16 by (unfold is_u16; lia).
  split_if; [zlen|]. rewrite app_assoc, get_range_mid by zlen. res_simpl.
  by rewrite from_utf8_valid.
Qed.

Lemma get_range_fld (pre fld post : bytes) p n :
  p = zlen pre → n = zlen fld → get_range (pre ++ fld ++ post) p (p + n) = Some fld.
Proof. intros -> ->. by apply get_range_mid. Qed.

Lemma u64b_spec z : u64b z = true → is_u64 z.
Proof. unfold u64b, is_u64; intros; bool_simpl; lia. Qed.
Lemma u32b_spec z : u32b z = true → is_u32 z.
Proof. unfold u32b, is_u32; intros; bool_simpl; lia. Qed.
Lemma i64b_spec z : i64b z = true → is_i64 z.
Proof. unfold i64b, is_i64; intros; bool_simpl; lia. Qed.
#[export] Hint Resolve u64b_spec u32b_spec i64b_spec : hako.

(** Reads the field [fld] that follows [pre] in the payload. *)
Ltac read_field pre fld post :=
  match goal with
  | |- context [get_range ?b ?p (?p + ?n)] =>
      replace b with (pre ++ fld ++ post) by (cbn [app]; by rewrite <-?app_assoc, ?app_nil_r);
      rewrite (get_range_fld pre fld post p n) by zlen; res_simpl
  end.

Lemma decode_encode_op op : op_ok op = true → decode_op (encode_op op) = Ok op.
Proof.
  assert (∀ t k (rest : bytes) ov bad, key_ok k = true →
    decode_key (t :: encode_key k ++ rest) 1 ov bad = Ok (k, 3 + zlen k)) as Hkey.
  { intros t k rest ov bad Hk. rewrite (decode_key_encoded [t] k rest) by done. repeat f_equal; zlen. }
  destruct op as [t|k s o l|k t|t|k v|k o l]; cbn [op_ok encode_op]; intros Hok; bool_simpl;
    unfold decode_op; rewrite get_head; res_simpl; rewrite ?Z.eqb_refl; cbn [Z.eqb Pos.eqb];
    rewrite ?Hkey by done; res_simpl; unfold encode_key.
  - read_field [0] (to_le 8 t) (@nil Z). by rewrite of_le_to_le_u64 by auto with hako.
  - set (kb := to_le 2 (as_u16 (zlen k)) ++ k). assert (zlen kb = 2 + zlen k) by (subst kb; zlen).
    read_field (1 :: kb) (to_le 8 s) (to_le 8 o ++ to_le 4 l).
    read_field (1 :: kb ++ to_le 8 s) (to_le 8 o) (to_le 4 l).
    read_field (1 :: kb ++ to_le 8 s ++ to_le 8 o) (to_le 4 l) (@nil Z).
    by rewrite !of_le_to_le_u64, of_le_to_le_u32 by auto with hako.
  - set (kb := to_le 2 (as_u16 (zlen k)) ++ k). assert (zlen kb = 2 + zlen k) by (subst kb; zlen).
    read_field (2 :: kb) (i64_to_le t) (@nil Z). by rewrite i64_of_to_le by auto with hako.
  - read_field [3] (to_le 8 t) (@nil Z). by rewrite of_le_to_le_u64 by auto with hako.
  - set (kb := to_le 2 (as_u16 (zlen k)) ++ k). assert (zlen kb = 2 + zlen k) by (subst kb; zlen).
    read_field (4 :: kb) (to_le 4 (as_u32 (zlen v))) v.
    pose proof (zlen_nonneg v). rewrite as_u32_id, of_le_to_le_u32 by (unfold is_u32; lia).
    split_if; [zlen|]. read_field (4 :: kb ++ to_le 4 (zlen v)) v (@nil Z). done.
  - set (kb := to_le 2 (as_u16 (zlen k)) ++ k). assert (zlen kb = 2 + zlen k) by (subst kb; zlen).
    read_field (5 :: kb) (to_le 8 o) (to_le 4 l).
    read_field (5 :: kb ++ to_le 8 o) (to_le 4 l) (@nil Z).
    by rewrite of_le_to_le_u64, of_le_to_le_u32 by auto with hako.
Qed.

Lemma encode_op_len op : op_ok op = true → 1 <= zlen (encode_op op) < 2 ^ 31 + 2 ^ 17.
Proof.
  destruct op; cbn [op_ok encode_op]; intros Hok; bool_simpl; unfold encode_key;
    repeat match goal with H : key_ok _ = true |- _ => apply key_ok_inv in H as [_ ?] end; zlen.
Qed.

(** ** The transaction filter *)

Definition data_op (op : WalOp) : bool :=
  match op with BeginTx _ | CommitTx _ => false | _ => true end.

Lemma filter_loop_output raw out tx ops : filter_loop raw out tx ops = out ++ filter_loop raw [] tx ops.
Proof.
  revert out tx ops; induction raw as [|op raw IH]; intros out tx ops; cbn [filter_loop].
  { by rewrite app_nil_r. }
  destruct op; first [by apply IH | split_if].
  all: try by (rewrite IH; symmetry; rewrite IH; rewrite ?app_nil_l, ?app_assoc).
Qed.

Lemma filter_loop_tx_data ops raw t acc :
  forallb data_op ops = true →
  filter_loop (ops ++ raw) [] (Some t) acc = filter_loop raw [] (Some t) (acc ++ ops).
Proof.
  revert acc; induction ops as [|op ops IH]; intros acc Hd; cbn [app]; [by rewrite app_nil_r|].
  cbn [forallb] in Hd. bool_simpl.
  destruct op; try done; cbn [filter_loop]; rewrite bool_decide_eq_true_2 by eauto;
    by rewrite IH, <-app_assoc.
Qed.

Lemma filter_loop_plain_data ops raw :
  forallb data_op ops = true →
  filter_loop (ops ++ raw) [] None [] = ops ++ filter_loop raw [] None [].
Proof.
  induction ops as [|op ops IH]; intros Hd; [done|]. cbn [forallb] in Hd. bool_simpl. rewrite <-app_comm_cons.
  destruct op; try done; cbn [filter_loop];
    (rewrite bool_decide_eq_false_2 by (by intros [? ?])); rewrite filter_loop_output, IH by done; done.
Qed.

(** The log as the writers produce it: batches that are complete transactions,
    or operations appended outside one. *)
Inductive unit_ :=
| Tx (t : Z) (ops : list WalOp)
| Plain (ops : list WalOp).
Definition unit_ops (u : unit_) : list WalOp := match u with Tx _ ops | Plain ops => ops end.
Definition unit_log (u : unit_) : list WalOp :=
  match u with Tx t ops => [BeginTx t] ++ ops ++ [CommitTx t] | Plain ops => ops end.
Definition unit_ok (u : unit_) : bool := forallb data_op (unit_ops u).

Lemma filter_unit u raw :
  unit_ok u = true → filter_committed_ops (unit_log u ++ raw) = unit_ops u ++ filter_committed_ops raw.
Proof.
  unfold unit_ok, filter_committed_ops. destruct u as [t ops|ops]; cbn [unit_ops unit_log]; intros Hd.
  - rewrite <-!app_assoc. cbn [app filter_loop]. rewrite filter_loop_tx_data by done. cbn [app filter_loop].
    rewrite bool_decide_eq_true_2 by done. by rewrite filter_loop_output.
  - by apply filter_loop_plain_data.
Qed.

Lemma filter_units us raw :
  forallb unit_ok us = true →
  filter_committed_ops (concat (unit_log <$> us) ++ raw)
  = concat (unit_ops <$> us) ++ filter_committed_ops raw.
Proof.
  induction us as [|u us IH]; intros Hd; [done|]. cbn [forallb] in Hd. bool_simpl.
  rewrite !fmap_cons. cbn [concat]. by rewrite <-!app_assoc, filter_unit, IH.
Qed.

(** A transaction cut anywhere before its commit contributes nothing. *)
Lemma filter_partial_tx t ops raw :
  forallb data_op ops = true → raw `prefix_of` ([BeginTx t] ++ ops) →
  filter_committed_ops raw = [].
Proof.
  intros Hd [k Hk]. destruct raw as [|op raw]; [done|]. cbn [app] in Hk. injection Hk as <- Hk.
  unfold filter_committed_ops. cbn [filter_loop].
  assert (forallb data_op raw = true) as Hr.
  { rewrite Hk, forallb_app in Hd. by bool_simpl. }
  rewrite <-(app_nil_r raw), filter_loop_tx_data by done. done.
Qed.

(** ** Logs *)

Section Logs.
Context `{CrcLaws} {cipher : Type} `{AeadLaws cipher}.
Implicit Types (enc : option (EncryptionContext cipher)) (w : Wal cipher).

(** [bs] is a record of [op] in a log with encryption [enc]. *)
Definition is_record enc (op : WalOp) (bs : bytes) : Prop :=
  ∃ payload plain, bs = frame payload ∧ 0 < zlen payload < 2 ^ 32 ∧
    decrypt_payload enc payload = Ok plain ∧ decode_op plain = Ok op.

Inductive is_log enc : list WalOp → bytes → Prop :=
| log_nil : is_log enc [] []
| log_cons op ops r l : is_record enc op r → is_log enc ops l → is_log enc (op :: ops) (r ++ l).

Lemma is_log_app enc ops1 ops2 l1 l2 :
  is_log enc ops1 l1 → is_log enc ops2 l2 → is_log enc (ops1 ++ ops2) (l1 ++ l2).
Proof. induction 1; [done|]. intros ?. rewrite <-app_assoc. cbn [app]. constructor; auto. Qed.

Lemma is_log_singleton enc op r : is_record enc op r → is_log enc [op] r.
Proof. intros Hr. rewrite <-(app_nil_r r). by repeat constructor. Qed.

Lemma zlen_frame payload : zlen (frame payload) = 8 + zlen payload.
Proof. unfold frame. zlen. Qed.

Lemma forallb_zero_of_le l : forallb (λ b, b =? 0) l = true → of_le l = 0.
Proof. induction l as [|b l IH]; cbn [forallb of_le]; intros Hz; [done|]. bool_simpl. rewrite IH by done. lia. Qed.

Definition frame_header (payload : bytes) : bytes :=
  to_le 4 (as_u32 (zlen payload)) ++ to_le 4 (crc32 payload).

Lemma read_header_frame pre payload post :
  zlen payload < 2 ^ 32 →
  read_header (pre ++ frame_header payload ++ post) (zlen pre)
  = Some (frame_header payload, zlen payload, crc32 payload).
Proof.
  intros Hl. pose proof (zlen_nonneg payload). unfold read_header.
  rewrite get_range_mid by (unfold frame_header; zlen). opt_simpl. unfold frame_header.
  rewrite take_app_length', drop_app_length' by done.
  by rewrite as_u32_id, !of_le_to_le_u32 by (apply crc32_u32 || (unfold is_u32; lia)).
Qed.

Lemma frame_header_nonzero payload :
  0 < zlen payload < 2 ^ 32 → is_zero_header (frame_header payload) = false.
Proof.
  intros Hl. unfold is_zero_header, frame_header. rewrite forallb_app.
  destruct (forallb _ (to_le 4 (as_u32 _))) eqn:E; [|done].
  apply forallb_zero_of_le in E.
  rewrite as_u32_id, of_le_to_le_u32 in E by (unfold is_u32; lia). lia.
Qed.

Lemma frame_split payload : frame payload = frame_header payload ++ payload.
Proof. unfold frame, frame_header. by rewrite <-app_assoc. Qed.

(** What the three readers see at a complete record. *)
Lemma record_facts enc pre op r post :
  is_record enc op r →
  ∃ h payload plain len, read_header (pre ++ r ++ post) (zlen pre) = Some (h, len, crc32 payload) ∧
    is_zero_header h = false ∧ 0 < len ∧ zlen r = 8 + len ∧
    get_range (pre ++ r ++ post) (zlen pre + 8) (zlen pre + 8 + len) = Some payload ∧
    decrypt_payload enc payload = Ok plain ∧ decode_op plain = Ok op.
Proof.
  intros (payload & plain & -> & Hl & Hdec & Hop).
  exists (frame_header payload), payload, plain, (zlen payload).
  rewrite zlen_frame, frame_split, <-app_assoc, read_header_frame, frame_header_nonzero by lia.
  split_and!; try (done || lia). rewrite app_assoc, get_range_mid by (unfold frame_header; zlen). done.
Qed.

(** One iteration over a complete record. *)
Lemma replay_loop_record fuel enc pre op r post acc :
  is_record enc op r →
  replay_loop (S fuel) enc (pre ++ r ++ post) acc (zlen pre)
  = replay_loop fuel enc (pre ++ r ++ post) (acc ++ [op]) (zlen pre + zlen r).
Proof.
  intros (h & payload & plain & len & Hh & Hz & Hl & -> & Hg & Hdec & Hop)%(record_facts enc pre op r post).
  cbn [replay_loop]. rewrite Hh, Hz. split_if; [lia|]. by rewrite Hg, Z.eqb_refl, Hdec, Hop.
Qed.

Lemma replay_from_loop_record fuel enc pre op r post acc :
  is_record enc op r →
  replay_from_loop (S fuel) enc (pre ++ r ++ post) acc (zlen pre)
  = replay_from_loop fuel enc (pre ++ r ++ post) (acc ++ [op]) (zlen pre + zlen r).
Proof.
  intros (h & payload & plain & len & Hh & Hz & Hl & -> & Hg & Hdec & Hop)%(record_facts enc pre op r post).
  cbn [replay_from_loop]. by rewrite Hh, Hz, Hg, Z.eqb_refl, Hdec, res_ok_bind, Hop, res_ok_bind.
Qed.

Lemma tail_loop_record fuel enc pre op r post acc :
  is_record enc op r →
  tail_loop (S fuel) enc (pre ++ r ++ post) acc (zlen pre)
  = tail_loop fuel enc (pre ++ r ++ post) (acc ++ [op]) (zlen pre + zlen r).
Proof.
  intros (h & payload & plain & len & Hh & Hz & Hl & -> & Hg & Hdec & Hop)%(record_facts enc pre op r post).
  cbn [tail_loop]. rewrite Hh, Hz, Hg, Z.eqb_refl, Hdec, res_ok_bind, Hop, res_ok_bind.
  f_equal. lia.
Qed.

(** Any reader that steps over complete records reads a whole log. *)
Lemma read_log {R} (loop : nat → bytes → list WalOp → Z → R) enc :
  (∀ fuel pre op r post acc, is_record enc op r →
     loop (S fuel) (pre ++ r ++ post) acc (zlen pre)
     = loop fuel (pre ++ r ++ post) (acc ++ [op]) (zlen pre + zlen r)) →
  ∀ fuel pre ops l post acc, is_log enc ops l →
  loop (length ops + fuel)%nat (pre ++ l ++ post) acc (zlen pre)
  = loop fuel (pre ++ l ++ post) (acc ++ ops) (zlen pre + zlen l).
Proof.
  intros Hstep fuel pre ops l post acc Hlog. revert pre acc.
  induction Hlog as [|op ops r l Hr Hlog IH]; intros pre acc.
  { rewrite app_nil_r. f_equal. zlen. }
  rewrite <-app_assoc. cbn [length Nat.add]. rewrite (Hstep _ _ _ _ _ _ Hr).
  replace (zlen pre + zlen r) with (zlen (pre ++ r)) by zlen.
  rewrite (app_assoc pre r), (IH (pre ++ r)), <-!app_assoc. f_equal. zlen.
Qed.

Lemma is_log_length enc ops l : is_log enc ops l → (length ops <= length l)%nat.
Proof.
  induction 1 as [|op ops r l (payload & plain & -> & Hl & _) _ IH]; [done|].
  rewrite length_app. pose proof (zlen_frame payload). unfold zlen in *. cbn [length]. lia.
Qed.

(** What can follow the last complete record: nothing or a few bytes, zero
    preallocation, a record cut short by a crash, a record whose body does not
    match its checksum. *)
Inductive log_end : bytes → bool → Prop :=
| end_short rest : zlen rest < 8 → log_end rest false
| end_padding n : (8 <= n)%nat → log_end (replicate n 0) true
| end_torn rest payload :
    0 < zlen payload < 2 ^ 32 → rest `prefix_of` frame payload → zlen rest < zlen (frame payload) →
    log_end rest false
| end_corrupt len crc body post :
    0 < len < 2 ^ 32 → is_u32 crc → zlen body = len → crc32 body ≠ crc →
    log_end (to_le 4 len ++ to_le 4 crc ++ body ++ post) false.

Lemma read_header_short pre rest : zlen rest < 8 → read_header (pre ++ rest) (zlen pre) = None.
Proof.
  intros Hl. unfold read_header, get_range. split_if as E; [zlen|done].
Qed.

Lemma get_range_past {A} (b : list A) i j : zlen b < j → get_range b i j = None.
Proof. intros Hj. unfold get_range. split_if as E; [lia|done]. Qed.

Lemma replay_loop_end fuel enc pre rest flag acc :
  log_end rest flag →
  replay_loop (S fuel) enc (pre ++ rest) acc (zlen pre) = Ok (acc, zlen pre, flag).
Proof.
  intros [rest' Hs|n Hn|rest' payload Hl [k Hk] Hlt|len crc body post Hlen Hcrc Hb Hne]; cbn [replay_loop].
  - by rewrite read_header_short.
  - replace (replicate n 0) with (replicate 8 0 ++ replicate (n - 8) 0)
      by (rewrite <-replicate_add; f_equal; lia).
    unfold read_header. rewrite get_range_mid by done. done.
  - rewrite frame_split in Hk. destruct (decide (zlen rest' < 8)) as [Hs|Hs].
    { by rewrite read_header_short. }
    assert (∃ m, rest' = frame_header payload ++ m) as [m ->].
    { exists (drop 8 rest'). rewrite <-(take_drop 8 rest') at 1. f_equal.
      apply (f_equal (take 8)) in Hk. rewrite take_app_length' in Hk by done.
      rewrite take_app_le in Hk by (unfold zlen in Hs; lia). done. }
    rewrite read_header_frame, frame_header_nonzero by lia. split_if; [lia|].
    rewrite get_range_past; [done|]. unfold frame_header in *. rewrite zlen_frame in Hlt. zlen.
  - unfold read_header.
    replace (to_le 4 len ++ to_le 4 crc ++ body ++ post)
      with ((to_le 4 len ++ to_le 4 crc) ++ body ++ post) by (by rewrite <-app_assoc).
    rewrite get_range_mid by zlen. opt_simpl.
    rewrite take_app_length', drop_app_length' by done.
    rewrite !of_le_to_le_u32 by (done || unfold is_u32; lia).
    split_if as Hz.
    { unfold is_zero_header in Hz. rewrite forallb_app in Hz. bool_simpl.
      apply forallb_zero_of_le in H3. rewrite of_le_to_le_u32 in H3 by (unfold is_u32; lia). lia. }
    split_if; [lia|]. rewrite app_assoc, get_range_mid by zlen.
    rewrite (proj2 (Z.eqb_neq _ _) Hne). done.
Qed.

(** [replay] on a log followed by any of these ends. *)
Lemma replay_log w ops l rest flag :
  contents (file w) = l ++ rest → is_log (encryption w) ops l → log_end rest flag →
  replay w = Ok (with_data_len (zlen l) (with_file
    (mkFile (if flag then l ++ rest else l) (zlen l) (synced (file w))) w), filter_committed_ops ops).
Proof.
  intros Hc Hlog Hend. unfold replay. rewrite Hc.
  pose proof (is_log_length _ _ _ Hlog) as Hn.
  replace (S (length (l ++ rest)))
    with (length ops + S (length l + length rest - length ops))%nat by (rewrite length_app; lia).
  pose proof (read_log (λ f, replay_loop f (encryption w)) _
    (λ f, replay_loop_record f (encryption w))
    (S (length l + length rest - length ops)) [] ops l rest [] Hlog) as E. cbn beta in E.
  change ([] ++ l ++ rest) with (l ++ rest) in E. change (zlen []) with 0 in E.
  rewrite E. change (0 + zlen l) with (zlen l).
  rewrite (replay_loop_end _ _ l rest flag) by done. rewrite res_ok_bind. unfold f_len. rewrite Hc.
  f_equal. f_equal. f_equal. f_equal. destruct flag; cbn [negb].
  - rewrite andb_false_r. unfold f_seek. by rewrite Hc.
  - rewrite andb_true_r. destruct (file w) as [c cu sy]; cbn [contents] in *; subst c. split_if.
    + by rewrite f_set_len_trunc.
    + assert (rest = []) as -> by (apply zlen_0_inv; zlen). unfold f_seek. cbn. by rewrite app_nil_r.
Qed.

(** ** The writer *)

(** The log holds the operations [D] in its file and [B] in its buffer: the
    file is the records of [D] followed by zero preallocation, the handle and
    the watermark stand at the end of the records. *)
Definition wal_inv w (D B : list WalOp) : Prop :=
  ∃ dl pad, contents (file w) = dl ++ replicate pad 0 ∧ cursor (file w) = zlen dl ∧
    data_len w = zlen dl ∧ is_log (encryption w) D dl ∧ is_log (encryption w) B (write_buffer w).

(** What survives a crash that loses everything after the last sync. *)
Definition durable w (D : list WalOp) : Prop :=
  ∃ dl pad, synced (file w) = dl ++ replicate pad 0 ∧ is_log (encryption w) D dl.

Lemma record_of_op ctr w op ctr' payload :
  op_ok op = true → op_payload ctr w op = (ctr', Ok payload) → is_record (encryption w) op (frame payload).
Proof.
  intros Hok Hp. pose proof (encode_op_len op Hok) as Hlen. unfold op_payload in Hp.
  exists payload, (encode_op op). rewrite decode_encode_op by done.
  destruct (encryption w) as [e|]; cbn [decrypt_payload].
  - pose proof (encrypt_len _ _ _ _ _ Hp). apply decrypt_encrypt in Hp. split_and!; (done || lia).
  - injection Hp as <- <-. split_and!; (done || lia).
Qed.

Lemma buffer_record_inv ctr w op ctr' w' D B :
  op_ok op = true → buffer_record ctr w op = (ctr', w', Ok tt) → wal_inv w D B →
  wal_inv w' D (B ++ [op]) ∧ file w' = file w ∧ mode w' = mode w ∧ encryption w' = encryption w.
Proof.
  intros Hok Hb (dl & pad & Hc & Hcur & Hdl & HD & HB). unfold buffer_record in Hb.
  destruct (op_payload ctr w op) as [c r] eqn:Hp. destruct r as [payload| |]; try done.
  pose proof (record_of_op _ _ _ _ _ Hok Hp) as Hr. injection Hb as <- <-.
  split_and!; try done. exists dl, pad. split_and!; try done.
  cbn [with_pending with_buffer write_buffer encryption]. by apply is_log_app, is_log_singleton.
Qed.

Lemma buffer_records_inv ctr w ops ctr' w' D B :
  forallb op_ok ops = true → buffer_records ctr w ops = (ctr', w', Ok tt) → wal_inv w D B →
  wal_inv w' D (B ++ ops) ∧ file w' = file w ∧ mode w' = mode w ∧ encryption w' = encryption w.
Proof.
  revert ctr w B; induction ops as [|op ops IH]; intros ctr w B Hok; cbn [buffer_records].
  { intros [= <- <-]. by rewrite app_nil_r. }
  cbn [forallb] in Hok. bool_simpl. destruct (buffer_record ctr w op) as [[c w1] r] eqn:Hb.
  destruct r as [[]| |]; try done. intros Hbs Hinv.
  destruct (buffer_record_inv _ _ _ _ _ _ _ H3 Hb Hinv) as (Hinv1 & E1 & E2 & E3).
  destruct (IH _ _ _ H4 Hbs Hinv1) as (Hinv2 & F1 & F2 & F3).
  rewrite <-app_assoc in Hinv2. split_and!; (done || congruence).
Qed.

Lemma append_all_buffer_records ctr w ops :
  append_all_to_buffer ctr w ops =
  match buffer_records ctr w ops with (c, w', Err _) => (c, w', Panic) | r => r end.
Proof.
  revert ctr w; induction ops as [|op ops IH]; intros ctr w; [done|].
  cbn [append_all_to_buffer buffer_records]. unfold append_to_buffer.
  by destruct (buffer_record ctr w op) as [[c w1] [[]| |]].
Qed.

(** Moving the buffer to the file. *)
Lemma drain_inv w D B f :
  wal_inv w D B → f = f_write_all (write_buffer w) (file w) →
  ∃ dl pad, contents f = dl ++ replicate pad 0 ∧ cursor f = zlen dl ∧ is_log (encryption w) (D ++ B) dl.
Proof.
  intros (dl & pad & Hc & Hcur & Hdl & HD & HB) ->. destruct (file w) as [c cu sy]; cbn in *; subst.
  rewrite f_write_all_pad. cbn [contents cursor]. eexists _, _. split_and!; [done..|]. by apply is_log_app.
Qed.

Lemma is_log_nil_inv enc B : is_log enc B [] → B = [].
Proof.
  intros Hl. pose proof (is_log_length _ _ _ Hl) as Hn. destruct B; [done|]. cbn in Hn. lia.
Qed.

Lemma flush_inv now w D B :
  wal_inv w D B → wal_inv (flush now w) (D ++ B) [] ∧ (B ≠ [] → durable (flush now w) (D ++ B)).
Proof.
  intros Hinv. unfold flush. destruct (write_buffer w) as [|b bs] eqn:Hbuf.
  - assert (B = []) as ->.
    { destruct Hinv as (? & ? & _ & _ & _ & _ & HB). rewrite Hbuf in HB. by apply is_log_nil_inv in HB. }
    rewrite app_nil_r. split; [|done]. done.
  - rewrite <-Hbuf. destruct (drain_inv w D B _ Hinv eq_refl) as (dl & pad & Hc & Hcur & Hlog).
    split; [|intros _]; exists dl, pad; split_and!; try done. constructor.
Qed.

Lemma maybe_sync_inv now ic ir w D B :
  wal_inv w D B →
  ∃ D' B', wal_inv (maybe_sync now ic ir w) D' B' ∧ D' ++ B' = D ++ B ∧ D `prefix_of` D'.
Proof.
  intros Hinv. unfold maybe_sync. split_if as Hr; [|split_if].
  - destruct (drain_inv w D B _ Hinv eq_refl) as (dl & pad & Hc & Hcur & Hlog).
    exists (D ++ B), []. rewrite app_nil_r. split_and!; [|done|by apply prefix_app_r].
    exists dl, pad; split_and!; try done. constructor.
  - exists (D ++ B), []. rewrite app_nil_r. split_and!; [by apply flush_inv|done|by apply prefix_app_r].
  - by exists D, B.
Qed.

Lemma maybe_sync_commit now ir w D B :
  wal_inv w D B → mode w = Always ∨ (mode w = OnCommit ∧ ir = false) → B ≠ [] →
  wal_inv (maybe_sync now true ir w) (D ++ B) [] ∧ durable (maybe_sync now true ir w) (D ++ B).
Proof.
  intros Hinv Hm HB. unfold maybe_sync.
  assert ((ir && negb (bool_decide (mode w = Always))) = false ∧ should_flush w true now = true) as [-> ->].
  { unfold should_flush. destruct Hm as [-> |[-> ->]]; [|done]. by destruct ir. }
  destruct (flush_inv now w D B Hinv). auto.
Qed.

(** ** Writing, then reading *)

Lemma log_end_zeros pad : log_end (replicate pad 0) (8 <=? pad)%nat.
Proof.
  destruct (Nat.leb_spec 8 pad); [by constructor|]. constructor. rewrite zlen_replicate. lia.
Qed.

Lemma replay_inv w D B :
  wal_inv w D B →
  ∃ w', replay w = Ok (w', filter_committed_ops D) ∧ wal_inv w' D B ∧ mode w' = mode w.
Proof.
  intros (dl & pad & Hc & Hcur & Hdl & HD & HB).
  eexists. split; [by eapply replay_log; [exact Hc|exact HD|apply log_end_zeros]|]. split; [|done].
  exists dl, (if (8 <=? pad)%nat then pad else 0%nat). split_and!; try done.
  cbn [with_data_len with_file file contents]. destruct (8 <=? pad)%nat; [done|]. by rewrite app_nil_r.
Qed.

Lemma reset_inv w : wal_inv (reset w) [] [].
Proof.
  exists [], (Z.to_nat (if reserves_for_mode (mode w) && (0 <? reserve_bytes w) then reserve_bytes w else 0)).
  unfold reset. split_and!; [|done|done|constructor|constructor].
  destruct (file w) as [c cu sy].
  rewrite (f_set_len_trunc [] c cu sy : f_set_len 0 (mkFile c cu sy) = _).
  split_if; cbn [with_data_len with_pending with_buffer with_file f_seek file contents app]; [|done].
  by rewrite f_set_len_zero.
Qed.

Lemma open_contents disk m g enc reserve now :
  ∃ pad, contents (file (wal_open disk m g enc reserve now)) = disk ++ replicate pad 0.
Proof.
  unfold wal_open. cbn [file f_seek contents]. split_if; [|exists O; by rewrite app_nil_r].
  unfold f_set_len, f_len in *. cbn [contents] in *. exists (Z.to_nat reserve - length disk)%nat.
  rewrite take_ge; [done|]. unfold zlen in *; lia.
Qed.

(** Reopening what a crash left: a log and one of its possible ends. *)
Lemma recover_disk disk m g enc reserve now ops l rest flag :
  disk = l ++ rest → is_log enc ops l → log_end rest flag →
  reserves_for_mode m = false ∨ reserve <= zlen disk →
  ∃ w', replay (wal_open disk m g enc reserve now) = Ok (w', filter_committed_ops ops) ∧
        wal_inv w' ops [] ∧ (flag = false → contents (file w') = l).
Proof.
  intros -> Hlog Hend Hm.
  assert (contents (file (wal_open (l ++ rest) m g enc reserve now)) = l ++ rest) as Hc.
  { unfold wal_open. cbn [file f_seek contents]. split_if; [|done]. unfold f_len in *. cbn [contents] in *.
    destruct Hm; [congruence|lia]. }
  eexists. split; [by eapply replay_log|]. split; [|by intros ->].
  destruct Hend; try (exists l, O; rewrite app_nil_r; split_and!; (done || constructor)).
  exists l, n. split_and!; (done || constructor).
Qed.

(** A prefix of a log is a shorter log and a record cut short. *)
Lemma log_prefix enc ops l p :
  is_log enc ops l → p `prefix_of` l →
  ∃ ops1 l1 rest, p = l1 ++ rest ∧ is_log enc ops1 l1 ∧ ops1 `prefix_of` ops ∧ log_end rest false ∧
    (p ≠ l → ops1 ≠ ops) ∧ (p = l → ops1 = ops ∧ rest = []).
Proof.
  intros Hlog. revert p. induction Hlog as [|op ops r l Hr Hlog IH]; intros p Hp.
  { apply prefix_nil_inv in Hp as ->. exists [], [], []. split_and!; (done || constructor; done). }
  destruct (decide (r `prefix_of` p)) as [[p' ->]|Hnp].
  - apply prefix_app_inv in Hp. destruct (IH p' Hp) as (ops1 & l1 & rest & -> & Hl1 & Hpre & Hend & Hne1 & Heq1).
    exists (op :: ops1), (r ++ l1), rest. rewrite <-app_assoc.
    split_and!; [done|by constructor|by apply prefix_cons|done| |].
    + intros Hne. intros [= ->]. apply Hne1; [|done]. intros E. apply Hne. by rewrite E.
    + intros E%app_inv_head. destruct (Heq1 E) as [-> ->]. done.
  - exists [], [], p. assert (p `prefix_of` r) as Hpr.
    { destruct (prefix_weak_total p r (r ++ l)); [done|by apply prefix_app_r|done|by destruct Hnp]. }
    destruct Hr as (payload & plain & -> & Hl & _ & _).
    assert (zlen p < zlen (frame payload)).
    { destruct Hpr as [k Hk]. rewrite Hk. destruct k; [|zlen]. rewrite app_nil_r in Hk. by destruct Hnp; rewrite Hk. }
    split_and!; [done|constructor|apply prefix_nil|by eapply end_torn|done|].
    intros ->. autorewrite with zlen in *. pose proof (zlen_nonneg l). lia.
Qed.

Lemma filter_loop_begin raw t rest out tx ops :
  filter_loop (raw ++ BeginTx t :: rest) out tx ops
  = filter_loop raw out tx ops ++ filter_committed_ops (BeginTx t :: rest).
Proof.
  revert out tx ops; induction raw as [|op raw IH]; intros out tx ops; cbn [app filter_loop].
  { unfold filter_committed_ops. cbn [filter_loop]. apply filter_loop_output. }
  destruct op; try apply IH; split_if; apply IH.
Qed.

Lemma filter_append_tx D t ops :
  forallb data_op ops = true →
  filter_committed_ops (D ++ [BeginTx t] ++ ops ++ [CommitTx t]) = filter_committed_ops D ++ ops.
Proof.
  intros Hd. unfold filter_committed_ops at 1. cbn [app]. rewrite filter_loop_begin. f_equal.
  pose proof (filter_unit (Tx t ops) [] Hd) as E. rewrite !app_nil_r in E. exact E.
Qed.

Lemma filter_append_partial D t ops part :
  forallb data_op ops = true → part `prefix_of` [BeginTx t] ++ ops ++ [CommitTx t] →
  part ≠ [BeginTx t] ++ ops ++ [CommitTx t] →
  filter_committed_ops (D ++ part) = filter_committed_ops D.
Proof.
  intros Hd Hp Hne. rewrite app_assoc in Hp, Hne.
  assert (part `prefix_of` [BeginTx t] ++ ops) as Hp'.
  { destruct Hp as [k Hk]. destruct k as [|x k _] using rev_ind; [by rewrite app_nil_r in Hk; destruct Hne|].
    rewrite app_assoc in Hk. apply app_inj_tail in Hk as [-> _]. by apply prefix_app_r. }
  pose proof (filter_partial_tx t ops part Hd Hp') as E. destruct part as [|op part]; [by rewrite app_nil_r|].
  destruct Hp' as [k Hk]. cbn [app] in Hk. injection Hk as <- _.
  unfold filter_committed_ops at 1. rewrite filter_loop_begin, E. by rewrite app_nil_r.
Qed.

(** ** Tailing *)

Lemma tail_loop_end fuel enc pre pad acc :
  tail_loop (S fuel) enc (pre ++ replicate pad 0) acc (zlen pre) = Ok (acc, zlen pre).
Proof.
  cbn [tail_loop]. destruct (Nat.lt_ge_cases pad 8).
  - rewrite read_header_short; [done|]. rewrite zlen_replicate. lia.
  - replace (replicate pad 0) with (replicate 8 0 ++ replicate (pad - 8) 0)
      by (rewrite <-replicate_add; f_equal; lia).
    unfold read_header. rewrite get_range_mid by done. done.
Qed.

Lemma tail_log w l1 l2 pad ops :
  contents (file w) = (l1 ++ l2) ++ replicate pad 0 → data_len w = zlen (l1 ++ l2) →
  is_log (encryption w) ops l2 →
  tail w (zlen l1) = Ok (ops, zlen (l1 ++ l2)).
Proof.
  intros Hc Hd Hlog. unfold tail. rewrite Hd, Hc. split_if; [zlen|]. split_if.
  - assert (l2 = []) as -> by (apply zlen_0_inv; zlen).
    apply is_log_nil_inv in Hlog as ->. do 2 f_equal. zlen.
  - pose proof (is_log_length _ _ _ Hlog) as Hn. rewrite !length_app, length_replicate.
    match goal with |- tail_loop ?f _ _ _ _ = _ => replace f
      with (length ops + S (length l1 + length l2 + pad - length ops))%nat by lia end.
    rewrite <-app_assoc.
    pose proof (read_log (λ f, tail_loop f (encryption w)) _ (λ f, tail_loop_record f (encryption w))
      (S (length l1 + length l2 + pad - length ops)) l1 ops l2 (replicate pad 0) [] Hlog)
      as E. cbn beta in E. rewrite E, app_assoc.
    replace (zlen l1 + zlen l2) with (zlen (l1 ++ l2)) by zlen. by rewrite tail_loop_end.
Qed.

(** A tailer at the old end of the records sees exactly what a flush adds. *)
Lemma tail_flush now w D B :
  wal_inv w D B → tail (flush now w) (data_len w) = Ok (B, data_len (flush now w)).
Proof.
  intros (dl & pad & Hc & Hcur & Hdl & HD & HB). unfold flush.
  destruct (write_buffer w) as [|b bs] eqn:Hbuf.
  - rewrite Hdl. rewrite (tail_log w dl [] pad B); rewrite ?app_nil_r; done.
  - rewrite <-Hbuf in *. rewrite Hdl.
    assert (f_write_all (write_buffer w) (file w) =
      mkFile ((dl ++ write_buffer w) ++ replicate (pad - length (write_buffer w)) 0)
        (zlen (dl ++ write_buffer w)) (synced (file w))) as E.
    { destruct (file w) as [c cu sy]; cbn in *; subst. by rewrite f_write_all_pad. }
    rewrite E. eapply tail_log; [done|done|]. exact HB.
Qed.

(** The offset argument of [replay_from_offset] has no effect; on a log that
    ends in zeros it is [replay]. *)
Lemma replay_from_log w ops l pad offset :
  contents (file w) = l ++ replicate pad 0 → is_log (encryption w) ops l →
  replay_from_offset w offset = replay w.
Proof.
  intros Hc Hlog. rewrite (replay_log w ops l (replicate pad 0) _ Hc Hlog (log_end_zeros pad)).
  unfold replay_from_offset. cbn [f_seek contents cursor synced]. rewrite Hc.
  pose proof (is_log_length _ _ _ Hlog) as Hn. rewrite length_app, length_replicate.
  match goal with |- context [replay_from_loop ?f] => replace f
    with (length ops + S (length l + pad - length ops))%nat by lia end.
  pose proof (read_log (λ f, replay_from_loop f (encryption w)) _
    (λ f, replay_from_loop_record f (encryption w))
    (S (length l + pad - length ops)) [] ops l (replicate pad 0) [] Hlog) as E.
  cbn beta in E. change ([] ++ l ++ replicate pad 0) with (l ++ replicate pad 0) in E.
  change (zlen []) with 0 in E. rewrite E. change (0 + zlen l) with (zlen l).
  replace (replay_from_loop _ _ _ _ _) with (@Ok (list WalOp * Z * bool) (ops, zlen l, (8 <=? pad)%nat)).
  - rewrite res_ok_bind. unfold f_len. cbn [contents]. f_equal. f_equal. f_equal. f_equal.
    unfold f_seek. cbn [contents cursor synced]. rewrite Hc.
    destruct (8 <=? pad)%nat; cbn [negb]; [by rewrite andb_false_r|].
    rewrite andb_true_r. split_if; cbn [contents cursor synced].
    + by rewrite f_set_len_trunc.
    + assert (replicate pad 0 = []) as -> by (apply zlen_0_inv; zlen). by rewrite app_nil_r.
  - symmetry. cbn [replay_from_loop]. destruct (Nat.leb_spec 8 pad) as [Hp|Hp].
    + replace (replicate pad 0) with (replicate 8 0 ++ replicate (pad - 8) 0)
        by (rewrite <-replicate_add; f_equal; lia).
      unfold read_header. rewrite get_range_mid by done. done.
    + rewrite read_header_short; [done|]. rewrite zlen_replicate. lia.
Qed.

(** ** The appending entry points *)

Lemma append_batch_fast_durable now ctr w t ops ir ctr' w' D B :
  u64b t = true → forallb op_ok ops = true → wal_inv w D B →
  mode w = Always ∨ (mode w = OnCommit ∧ ir = false) →
  append_batch_fast now ctr w t ops ir = (ctr', w', Ok tt) →
  wal_inv w' (D ++ B ++ [BeginTx t] ++ ops ++ [CommitTx t]) [] ∧
  durable w' (D ++ B ++ [BeginTx t] ++ ops ++ [CommitTx t]) ∧ encryption w' = encryption w.
Proof.
  intros Ht Hops Hinv Hm. unfold append_batch_fast. rewrite append_all_buffer_records.
  destruct (buffer_records _ _ _) as [[c w1] [[]| |]] eqn:Hb; try done. intros [= <- <-].
  assert (forallb op_ok ([BeginTx t] ++ ops ++ [CommitTx t]) = true) as Hall.
  { rewrite !forallb_app, Hops. cbn [forallb op_ok andb]. by rewrite Ht. }
  destruct (buffer_records_inv _ _ _ _ _ D B Hall Hb Hinv) as (Hinv1 & _ & E2 & E3).
  rewrite <-E2 in Hm.
  destruct (maybe_sync_commit now ir w1 _ _ Hinv1 Hm) as [H3 H4]; [by destruct B|].
  split_and!; [done|done|]. rewrite <-E3. unfold maybe_sync, flush.
  repeat split_if; try done; by destruct (write_buffer w1).
Qed.

Lemma append_batch_inv now ctr w ops ir ctr' w' D B :
  forallb op_ok ops = true → wal_inv w D B →
  append_batch now ctr w ops ir = (ctr', w', Ok tt) →
  ∃ D' B', wal_inv w' D' B' ∧ D' ++ B' = D ++ B ++ ops ∧ D `prefix_of` D'.
Proof.
  intros Hops Hinv. unfold append_batch.
  destruct (buffer_records _ _ _) as [[c w1] [[]| |]] eqn:Hb; try done. intros [= <- <-].
  destruct (buffer_records_inv _ _ _ _ _ D B Hops Hb Hinv) as (Hinv1 & _).
  apply (maybe_sync_inv now (existsb is_commit ops) ir) in Hinv1 as (D' & B' & ? & ? & ?). eauto.
Qed.

Lemma append_inv now ctr w op ir ctr' w' D B :
  op_ok op = true → wal_inv w D B → append now ctr w op ir = (ctr', w', Ok tt) →
  ∃ D' B', wal_inv w' D' B' ∧ D' ++ B' = D ++ B ++ [op] ∧ D `prefix_of` D'.
Proof.
  intros Hop Hinv. unfold append.
  destruct (buffer_record _ _ _) as [[c w1] [[]| |]] eqn:Hb; try done. intros [= <- <-].
  destruct (buffer_record_inv _ _ _ _ _ D B Hop Hb Hinv) as (Hinv1 & _).
  apply (maybe_sync_inv now (is_commit op) ir) in Hinv1 as (D' & B' & ? & ? & ?). eauto.
Qed.

(** Without encryption no append fails. *)
Lemma buffer_records_plain ctr w ops :
  encryption w = None → ∃ w', buffer_records ctr w ops = (ctr, w', Ok tt).
Proof.
  revert w; induction ops as [|op ops IH]; intros w Hn; cbn [buffer_records]; [eauto|].
  unfold buffer_record, op_payload. rewrite Hn. by apply IH.
Qed.

Lemma open_fresh_inv m g enc reserve now : wal_inv (wal_open [] m g enc reserve now) [] [].
Proof.
  destruct (open_contents [] m g enc reserve now) as [pad Hc].
  exists [], pad. split_and!; [done|done|done|constructor|constructor].
Qed.

(** The records of the file, as a byte string. *)
Lemma wal_inv_records w D B :
  wal_inv w D B → is_log (encryption w) D (take (Z.to_nat (data_len w)) (contents (file w))).
Proof.
  intros (dl & pad & -> & _ & -> & HD & _).
  replace (Z.to_nat (zlen dl)) with (length dl) by (unfold zlen; lia). by rewrite take_app_length.
Qed.
End Logs.
