(* ===== verification/Models.v ===== *)
(** * Concrete parameters

    A checksum and a cipher that satisfy the laws assumed of the third-party
    crates, so that the theorems that assume them can be applied. *)

From stdpp Require Import prelude list strings.
From Stdlib Require Import ZArith Lia.
From S2P Require Import Prelude RustStd Error Crypto Wal.

Local Open Scope Z_scope.

#[global] Instance sum_crc : Crc := λ b, as_u32 (foldr Z.add 0 b).
#[global] Instance sum_crc_laws : CrcLaws.
Proof. intros b. unfold crc32, sum_crc, as_u32, is_u32. apply Z.mod_pos_bound. lia. Qed.

(** The identity cipher with a zero tag. *)
#[global] Instance tag_aead : Aead unit := {
  aead_encrypt _ _ p := Some (p ++ replicate 16 0);
  aead_decrypt _ _ ct := Some (take (length ct - 16) ct) }.
#[global] Instance tag_aead_laws : AeadLaws unit.
Proof.
  split; intros c nonce p ct E; change (Some (p ++ replicate 16 0) = Some ct) in E;
    assert (ct = p ++ replicate 16 0) as -> by congruence.
  - change (Some (take (length (p ++ replicate 16 0) - 16) (p ++ replicate 16 0)) = Some p). f_equal.
    rewrite length_app, length_replicate. rewrite take_app_length'; [done|lia].
  - by rewrite zlen_app, zlen_replicate.
Qed.

Definition demo_enc : EncryptionContext unit := mkEnc tt 7.
