(* ===== verification/WalProps.v ===== *)
(** * What the write-ahead log guarantees

    The properties of src/storage/wal.rs and src/storage/crypto.rs, each with a
    concrete instance. *)

From stdpp Require Import prelude list strings.
From Stdlib Require Import ZArith Lia.
From S2P Require Import Prelude RustStd Error Config Crypto VFile Wal DocFacts WalFacts Models.

Local Open Scope Z_scope.
Local Open Scope hako_scope.

Section Guarantees.
Context `{CrcLaws} {cipher : Type} `{AeadLaws cipher}.
Implicit Types (enc : option (EncryptionContext cipher)) (w : Wal cipher).

(** C18: a crash in the middle of writing a transaction is all-or-nothing, when
    the file ends with the log.  The log holds the operations [D] and nothing is
    buffered; the records of a transaction (BeginTx, data operations, CommitTx) have
    been encoded into the write buffer and the crash leaves an arbitrary byte prefix
    [p] of them at the end of the file, without the zeros that are reserved behind
    the log in the modes Always and OnCommit (they can complete a record that was cut
    inside zero bytes); the file is opened without reserving, or is as long as the
    reservation.  Reopening and replaying succeeds, returns the committed operations of
    [D] followed by all the operations of the transaction when [p] is everything and by
    none of them otherwise, and leaves a log that appends can continue. *)
Theorem crash_all_or_nothing ctr w D t ops ctr' w1 p m g reserve now :
  wal_inv w D [] → write_buffer w = [] →
  u64b t = true → forallb op_ok ops = true → forallb data_op ops = true →
  append_all_to_buffer ctr w ([BeginTx t] ++ ops ++ [CommitTx t]) = (ctr', w1, Ok tt) →
  p `prefix_of` write_buffer w1 →
  let disk := take (Z.to_nat (data_len w)) (contents (file w)) ++ p in
  reserves_for_mode m = false ∨ reserve <= zlen disk →
  ∃ w' D', replay (wal_open disk m g (encryption w) reserve now)
    = Ok (w', filter_committed_ops D ++ (if bool_decide (p = write_buffer w1) then ops else [])) ∧
    wal_inv w' D' [].
Proof.
  intros Hinv Hbuf Ht Hops Hdata Happ Hp disk Hm. rewrite append_all_buffer_records in Happ.
  destruct (buffer_records _ _ _) as [[c w2] [[]| |]] eqn:Hb; try done. injection Happ as -> ->.
  assert (forallb op_ok ([BeginTx t] ++ ops ++ [CommitTx t]) = true) as Hall.
  { rewrite !forallb_app, Hops. cbn [forallb op_ok andb]. by rewrite Ht. }
  destruct (buffer_records_inv _ _ _ _ _ D [] Hall Hb Hinv) as ((dl1 & pad1 & _ & _ & _ & _ & Htl) & _ & _ & E3).
  rewrite E3 in Htl. pose proof (wal_inv_records w D [] Hinv) as HD.
  destruct (log_prefix _ _ _ _ Htl Hp) as (ops1 & l1 & rest & Ep & Hl1 & Hpre & Hend & Hne & Heq).
  destruct (recover_disk disk m g (encryption w) reserve now (D ++ ops1)
    (take (Z.to_nat (data_len w)) (contents (file w)) ++ l1) rest false) as (w' & Hrep & Hinv' & _);
    [by rewrite <-app_assoc, <-Ep|by apply is_log_app|done|done|].
  exists w', (D ++ ops1). split; [|done]. rewrite Hrep. do 2 f_equal. cbn [app] in Hpre, Hne, Heq.
  case_bool_decide as Hpt.
  - destruct (Heq Hpt) as [-> _]. by apply filter_append_tx.
  - rewrite app_nil_r. by eapply filter_append_partial; [exact Hdata| |apply Hne].
Qed.

(** C29: a committed transaction is durable.  When [append_batch_fast] returns in
    mode Always, or in mode OnCommit for a local write (a replicated one is not
    synced in that mode), a crash that keeps only the synced contents of the file
    loses nothing: reopening the log, without reserving or with a reservation that is
    there already, replays the committed operations of the file and of the buffer, then
    the batch. *)
Theorem committed_batch_durable now ctr w D B t ops ir ctr' w' m g reserve now' :
  wal_inv w D B → u64b t = true → forallb op_ok ops = true → forallb data_op ops = true →
  mode w = Always ∨ (mode w = OnCommit ∧ ir = false) →
  append_batch_fast now ctr w t ops ir = (ctr', w', Ok tt) →
  reserves_for_mode m = false ∨ reserve <= zlen (synced (file w')) →
  ∃ w2, replay (wal_open (synced (file w')) m g (encryption w) reserve now')
        = Ok (w2, filter_committed_ops (D ++ B) ++ ops).
Proof.
  intros Hinv Ht Hops Hdata Hm Happ Hr.
  destruct (append_batch_fast_durable _ _ _ _ _ _ _ _ _ _ Ht Hops Hinv Hm Happ)
    as (_ & (dl & pad & Hs & Hlog) & E). rewrite E in Hlog.
  destruct (recover_disk _ m g (encryption w) reserve now' _ _ _ _ Hs Hlog (log_end_zeros pad) Hr)
    as (w2 & -> & _).
  exists w2. do 2 f_equal. rewrite app_assoc. by apply filter_append_tx.
Qed.

(** Appending never loses, reorders or duplicates operations.  After a
    successful [append_batch] in any mode, the operations in the file followed
    by those in the buffer are the previous ones followed by the batch, what
    was in the file stays there, and [replay] returns exactly the committed
    operations of the file and keeps the log as it is. *)
Theorem append_batch_replay now ctr w ops ir ctr' w' D B :
  forallb op_ok ops = true → wal_inv w D B → append_batch now ctr w ops ir = (ctr', w', Ok tt) →
  ∃ D' B' w2, D' ++ B' = D ++ B ++ ops ∧ D `prefix_of` D' ∧
    replay w' = Ok (w2, filter_committed_ops D') ∧ wal_inv w2 D' B'.
Proof.
  intros Hops Hinv Happ.
  destruct (append_batch_inv _ _ _ _ _ _ _ _ _ Hops Hinv Happ) as (D' & B' & Hinv' & E & Hpre).
  destruct (replay_inv _ _ _ Hinv') as (w2 & Hrep & Hinv2 & _). by exists D', B', w2.
Qed.

(** C32: recovery keeps every complete record and stops at the first damage.
    Whatever follows the complete records (zero preallocation, a few stray
    bytes, a record cut short, a record whose body fails its checksum),
    [replay] returns their committed operations; the zero reservation is kept,
    any other tail is truncated, and the handle stands at the end of the
    records. *)
Theorem replay_stops_at_damage w ops l rest flag :
  contents (file w) = l ++ rest → is_log (encryption w) ops l → log_end rest flag →
  replay w = Ok (with_data_len (zlen l) (with_file
    (mkFile (if flag then l ++ rest else l) (zlen l) (synced (file w))) w), filter_committed_ops ops).
Proof. apply replay_log. Qed.

(** tailing is exact.  A tailer that has read up to the watermark
    [data_len] and tails again after a flush receives exactly the operations
    that the flush moved from the buffer to the file, and its new position is
    the new watermark. *)
Theorem tail_sees_flushed now w D B :
  wal_inv w D B → tail (flush now w) (data_len w) = Ok (B, data_len (flush now w)).
Proof. apply tail_flush. Qed.

(** [replay_from_offset] ignores its offset: on a log it is [replay]. *)
Lemma replay_from_offset_ignores w D B offset :
  wal_inv w D B → replay_from_offset w offset = replay w.
Proof. intros (dl & pad & Hc & _ & _ & HD & _). by eapply replay_from_log. Qed.
End Guarantees.

(** the payload codec of log operations round-trips. *)
Theorem wal_decode_encode op : op_ok op = true → decode_op (encode_op op) = Ok op.
Proof. apply decode_encode_op. Qed.

(** within one session no nonce is used twice: the nonces of any [n]
    encryptions that start at counter value [ctr] are distinct as long as the
    counter does not pass 2^64. *)
Theorem nonces_distinct {cipher} (e : EncryptionContext cipher) n ctr :
  0 <= ctr → ctr + Z.of_nat n <= 2 ^ 64 → NoDup (nonces n ctr e).
Proof. apply nonces_NoDup. Qed.

(** ** Instances *)

Definition demo_wal (m : DurabilityMode) (enc : option (EncryptionContext unit)) : Wal unit :=
  wal_open [] m 4 enc 0 0.
Definition demo_ops : list WalOp := [PutInlined b#("k") [1; 2; 3]; Delete b#("old") 9].

(** The log with the records of a transaction in its buffer, and after a
    committed batch. *)
Definition demo_buffered : Wal unit :=
  (append_all_to_buffer 0 (demo_wal Interval None) ([BeginTx 1] ++ demo_ops ++ [CommitTx 1])).1.2.
Definition demo_committed : Wal unit :=
  (append_batch_fast 0 0 (demo_wal Always (Some demo_enc)) 1 demo_ops false).1.2.

Lemma crash_all_or_nothing_witness :
  let w := demo_wal Interval None in
  let disk := take (Z.to_nat (data_len w)) (contents (file w)) ++ take 30 (write_buffer demo_buffered) in
  ∃ w' D', replay (wal_open disk Interval 4 (encryption w) 0 0) = Ok (w', []) ∧ wal_inv w' D' [].
Proof.
  destruct (crash_all_or_nothing 0 (demo_wal Interval None) [] 1 demo_ops 0 demo_buffered
    (take 30 (write_buffer demo_buffered)) Interval 4 0 0) as (w' & D' & E & Hi).
  - exists [], O. split_and!; try done; constructor.
  - reflexivity.
  - reflexivity.
  - reflexivity.
  - reflexivity.
  - vm_compute. reflexivity.
  - apply prefix_take.
  - by left.
  - exists w', D'. split; [|exact Hi]. rewrite E. do 2 f_equal.
Defined.

Lemma committed_batch_durable_witness :
  ∃ w2, replay (wal_open (synced (file demo_committed)) Interval 4
                 (encryption (demo_wal Always (Some demo_enc))) 0 0) = Ok (w2, demo_ops).
Proof.
  destruct (committed_batch_durable 0 0 (demo_wal Always (Some demo_enc)) [] [] 1 demo_ops false 4 demo_committed
    Interval 4 0 0) as (w2 & E).
  - exists [], O. split_and!; try done; constructor.
  - reflexivity.
  - reflexivity.
  - reflexivity.
  - by left.
  - vm_compute. reflexivity.
  - by left.
  - exists w2. rewrite E. do 2 f_equal.
Defined.

Lemma append_batch_replay_witness :
  ∃ w', append_batch 9 0 (demo_wal Interval None) demo_ops false = (0, w', Ok tt) ∧
  ∃ D' B' w2, D' ++ B' = demo_ops ∧ [] `prefix_of` D' ∧ replay w' = Ok (w2, filter_committed_ops D') ∧
    wal_inv w2 D' B'.
Proof.
  eexists; split; [by vm_compute|].
  apply (append_batch_replay 9 0 (demo_wal Interval None) demo_ops false 0 _ [] []).
  - reflexivity.
  - exists [], O. split_and!; try done; constructor.
  - vm_compute. reflexivity.
Defined.

Lemma replay_stops_at_damage_witness :
  let w := demo_wal Interval None in
  let w := with_file (mkFile [9; 9; 9] 0 []) w in
  replay w = Ok (with_data_len 0 (with_file (mkFile [] 0 []) w), []).
Proof.
  refine (replay_stops_at_damage (with_file (mkFile [9; 9; 9] 0 []) (demo_wal Interval None)) [] [] [9; 9; 9] false _ _ _).
  - reflexivity.
  - constructor.
  - by constructor.
Defined.

(** The buffered log holds its four records in the buffer. *)
Lemma demo_buffered_inv : wal_inv demo_buffered [] ([BeginTx 1] ++ demo_ops ++ [CommitTx 1]).
Proof.
  apply (buffer_records_inv 0 (demo_wal Interval None) ([BeginTx 1] ++ demo_ops ++ [CommitTx 1]) 0 demo_buffered [] []).
  - reflexivity.
  - vm_compute. reflexivity.
  - apply open_fresh_inv.
Qed.

Lemma tail_sees_flushed_witness :
  tail (flush 0 demo_buffered) (data_len demo_buffered)
  = Ok ([BeginTx 1] ++ demo_ops ++ [CommitTx 1], data_len (flush 0 demo_buffered)).
Proof. exact (tail_sees_flushed 0 demo_buffered [] _ demo_buffered_inv). Defined.

Lemma wal_decode_encode_witness : decode_op (encode_op (Delete b#("old") (-9))) = Ok (Delete b#("old") (-9)).
Proof. apply wal_decode_encode. by vm_compute. Defined.

Lemma nonces_distinct_witness : NoDup (nonces 3 0 demo_enc).
Proof. apply nonces_distinct; vm_compute; discriminate. Defined.
