(* ===== verification/StorageIndex.v ===== *)
(** * The primary index of a collection (src/storage/engine.rs)

    The part of [StorageEngine] that maps document keys to pointers: the hash
    index, the sorted view of the live keys, the count of inlined bytes and the
    live-count cache, with the immediate and the batched update paths and the
    range bounds over the view. *)

From stdpp Require Import prelude list sorting gmap strings.
From Stdlib Require Import ZArith Lia.
From S2P Require Import Prelude RustStd Doc.

Local Open Scope Z_scope.
Local Open Scope hako_scope.

(** Iteration over a hash map of the [hashbrown] crate: every entry once, in an
    order the crate does not specify. *)
Class HashIter := hash_iter : ∀ {A}, gmap bytes A → list (bytes * A).
Class HashIterLaws `{HashIter} :=
  hash_iter_perm : ∀ {A} (m : gmap bytes A), hash_iter m ≡ₚ map_to_list m.

Inductive Pointer :=
| PSegment (segment_id offset len : Z)
| PInlined (data : bytes)
| PBlob (offset len : Z)
| PBlobPending (doc : HakoDoc)
| PBlobPendingData (data skeleton : bytes)
| PDeleted (timestamp : Z).

Definition is_deleted (p : Pointer) : bool :=
  match p with PDeleted _ => true | _ => false end.

(** The bytes a pointer keeps in memory, as the accounting counts them. *)
Definition inlined_size (p : Pointer) : Z :=
  match p with
  | PInlined d => zlen d
  | PBlobPendingData _ skeleton => zlen skeleton
  | _ => 0
  end.

(** [usize::saturating_sub]. *)
Definition saturating_sub (a b : Z) : Z := Z.max 0 (a - b).

(** The index fields of [StorageEngine]. *)
Record Index := mkIndex {
  index : gmap bytes Pointer;
  sorted_keys : list bytes;
  sorted_scratch : list bytes;
  inlined_bytes : Z;
  collection_counts : gmap bytes Z;
  logical_name : bytes }.

Definition with_sorted (l : list bytes) (x : Index) : Index :=
  mkIndex (index x) l (sorted_scratch x) (inlined_bytes x) (collection_counts x) (logical_name x).

(** [update_index_entry_nosort]. *)
Definition update_index_entry_nosort (x : Index) (key : bytes) (new_pointer : Pointer) : Index :=
  let b := inlined_bytes x + inlined_size new_pointer in
  let b := match index x !! key with
           | Some old => saturating_sub b (inlined_size old)
           | None => b
           end in
  mkIndex (<[key := new_pointer]> (index x)) (sorted_keys x) (sorted_scratch x) b
    (collection_counts x) (logical_name x).

Definition is_live_ptr (p : option Pointer) : bool :=
  match p with Some p => negb (is_deleted p) | None => false end.

(** [is_live]. *)
Definition is_live (x : Index) (key : bytes) : bool := is_live_ptr (index x !! key).

(** [apply_pointer]: map operation, byte accounting, live count. *)
Definition apply_pointer (x : Index) (key : bytes) (new_pointer : option Pointer) : Index :=
  let new_is_live := is_live_ptr new_pointer in
  let old_p := index x !! key in
  let b := match new_pointer with
           | Some p => inlined_bytes x + inlined_size p
           | None => inlined_bytes x
           end in
  let idx := match new_pointer with
             | Some p => <[key := p]> (index x)
             | None => delete key (index x)
             end in
  let old_was_live := is_live_ptr old_p in
  let b := match old_p with Some old => saturating_sub b (inlined_size old) | None => b end in
  let counts :=
    if old_was_live && negb new_is_live then
      match collection_counts x !! logical_name x with
      | Some c => <[logical_name x := saturating_sub c 1]> (collection_counts x)
      | None => collection_counts x
      end
    else if negb old_was_live && new_is_live then
      <[logical_name x := default 0 (collection_counts x !! logical_name x) + 1]> (collection_counts x)
    else collection_counts x in
  mkIndex idx (sorted_keys x) (sorted_scratch x) b counts (logical_name x).

(** [binary_search] over the sorted view. *)
Definition view_search (keys : list bytes) (key : bytes) : nat + nat :=
  binary_search_by (key_cmp (λ k, k) key) keys.

(** Insert a key that is not in the view, or remove one that is. *)
Definition view_insert (key : bytes) (keys : list bytes) : list bytes :=
  match view_search keys key with
  | inl _ => keys
  | inr pos => vec_insert pos key keys
  end.
Definition view_remove (key : bytes) (keys : list bytes) : list bytes :=
  match view_search keys key with
  | inl pos => vec_remove pos keys
  | inr _ => keys
  end.

(** [update_index_entry]. *)
Definition update_index_entry (x : Index) (key : bytes) (new_pointer : option Pointer) : Index :=
  let x := apply_pointer x key new_pointer in
  if is_live_ptr new_pointer
  then with_sorted (view_insert key (sorted_keys x)) x
  else with_sorted (view_remove key (sorted_keys x)) x.

(** [update_index_entry_deferred]: the updated index and [pending]. *)
Definition update_index_entry_deferred (x : Index) (key : bytes) (new_pointer : option Pointer)
    (pending : list bytes) : Index * list bytes :=
  let x := apply_pointer x key new_pointer in
  let in_view := match view_search (sorted_keys x) key with inl _ => true | inr _ => false end in
  (x, if Bool.eqb (is_live_ptr new_pointer) in_view then pending else pending ++ [key]).

(** [Vec::dedup]. *)
Fixpoint dedup (l : list bytes) : list bytes :=
  match l with
  | x :: (y :: _) as l' => if bytes_eqb x y then dedup l' else x :: dedup l'
  | _ => l
  end.

(** The inner [while] of the merge: pending keys below [k]. *)
Fixpoint merge_below (live : bytes → bool) (k : bytes) (pending : list bytes) : list bytes * list bytes :=
  match pending with
  | [] => ([], [])
  | p :: pending' =>
      if bytes_ltb p k then
        let '(out, rest) := merge_below live k pending' in
        (if live p then p :: out else out, rest)
      else ([], pending)
  end.

(** The merge pass over the old view and the pending keys. *)
Fixpoint merge_pass (live : bytes → bool) (old pending : list bytes) : list bytes :=
  match old with
  | [] => List.filter live pending
  | k :: old =>
      let '(out, pending) := merge_below live k pending in
      match pending with
      | p :: pending' =>
          if bytes_eqb p k then out ++ (if live k then [k] else []) ++ merge_pass live old pending'
          else out ++ k :: merge_pass live old pending
      | [] => out ++ k :: merge_pass live old []
      end
  end.

(** [flush_pending_sorted]: append, per-key updates, or one merge. *)
Definition flush_pending_sorted (x : Index) (pending : list bytes) : Index :=
  match pending with
  | [] => x
  | _ =>
      let pending := dedup (sort_by bytes_cmp pending) in
      let tail_ok := match last (sorted_keys x) with
                     | None => true
                     | Some l => match head pending with Some k => bytes_ltb l k | None => false end
                     end in
      if tail_ok && forallb (is_live x) pending then with_sorted (sorted_keys x ++ pending) x
      else if (length pending <=? 32)%nat then
        with_sorted (foldl (λ keys k, if is_live x k then view_insert k keys else view_remove k keys)
                       (sorted_keys x) pending) x
      else
        mkIndex (index x) (merge_pass (is_live x) (sorted_keys x) pending) []
          (inlined_bytes x) (collection_counts x) (logical_name x)
  end.

(** A batch of updates on the deferred path, then the flush. *)
Definition update_batch (x : Index) (updates : list (bytes * option Pointer)) : Index :=
  let '(x, pending) := foldl (λ '(x, pending) '(k, p), update_index_entry_deferred x k p pending)
                         (x, []) updates in
  flush_pending_sorted x pending.

(** The same batch on the immediate path. *)
Definition update_each (x : Index) (updates : list (bytes * option Pointer)) : Index :=
  foldl (λ x '(k, p), update_index_entry x k p) x updates.

(** [sorted_key_range]. *)
Definition sorted_key_range (x : Index) (start : option bytes) (start_exclusive : bool)
    (offset limit : option nat) : option (nat * nat) :=
  let total := length (sorted_keys x) in
  if (total =? 0)%nat then Some (0, 0)%nat
  else
    let start_pos :=
      match start with
      | Some s =>
          match view_search (sorted_keys x) s with
          | inl p => (p + (if start_exclusive then 1 else 0) + default 0 offset)%nat
          | inr pos => (pos + default 0 offset)%nat
          end
      | None => default 0%nat offset
      end in
    let end_pos := match limit with Some l => Nat.min (start_pos + l) total | None => total end in
    if (total <=? start_pos)%nat then Some (total, total) else Some (start_pos, end_pos).

(** [sorted_key_range_reverse]. *)
Definition sorted_key_range_reverse (x : Index) (start : option bytes) (start_exclusive : bool)
    (offset limit : option nat) : option (nat * nat) :=
  let total := length (sorted_keys x) in
  if (total =? 0)%nat then Some (0, 0)%nat
  else
    let raw_end :=
      match start with
      | Some s =>
          match view_search (sorted_keys x) s with
          | inl p => (p + (if start_exclusive then 0 else 1))%nat
          | inr pos => pos
          end
      | None => total
      end in
    let end_ := (raw_end - default 0 offset)%nat in
    let s := match limit with Some l => (end_ - l)%nat | None => 0%nat end in
    Some (Nat.min s end_, end_).

Section Iteration.
Context `{HashIter}.

(** The live keys, in iteration order. *)
Definition live_keys (x : Index) : list bytes :=
  (List.filter (λ kp, negb (is_deleted kp.2)) (hash_iter (index x))).*1.

(** The end of [recover]: rebuild the view and seed the live count. *)
Definition rebuild_view (x : Index) : Index :=
  let keys := sort_by bytes_cmp (live_keys x) in
  mkIndex (index x) keys (sorted_scratch x) (inlined_bytes x)
    (<[logical_name x := zlen keys]> (collection_counts x)) (logical_name x).

(** [purge_tombstones]: the number of tombstones and the index without them. *)
Definition purge_tombstones (x : Index) : Index * Z :=
  let dead := (List.filter (λ kp, is_deleted kp.2) (hash_iter (index x))).*1 in
  (update_batch x ((λ k, (k, None)) <$> dead), zlen dead).

(** The [retain] predicate of [purge_old_tombstones]. *)
Definition young (now max_age_micros : Z) (p : Pointer) : bool :=
  match p with PDeleted timestamp => now - timestamp <? max_age_micros | _ => true end.

(** [purge_old_tombstones]: [retain] on the hash index only. *)
Definition purge_old_tombstones (x : Index) (now max_age_micros : Z) : Index :=
  mkIndex (filter (λ kp, young now max_age_micros kp.2 = true) (index x))
    (sorted_keys x) (sorted_scratch x) (inlined_bytes x) (collection_counts x) (logical_name x).

(** [count_prefix]. *)
Definition count_prefix (x : Index) (prefix : bytes) : Z :=
  if bool_decide (prefix = []) || bytes_eqb prefix (logical_name x) then
    match collection_counts x !! logical_name x with
    | Some n => n
    | None => zlen (live_keys x)
    end
  else zlen (List.filter (λ k, starts_with k prefix) (live_keys x)).

(** [list_collections]. *)
Definition list_collections (x : Index) : list bytes :=
  sort_by bytes_cmp (hash_iter (collection_counts x)).*1.

(** [scan_prefix_keys]. *)
Definition scan_prefix_keys (x : Index) (prefix : bytes) : list bytes :=
  List.filter (λ k, bool_decide (prefix = []) || starts_with k prefix) (live_keys x).
End Iteration.
