(* ===== verification/StorageIndexFacts.v ===== *)
(** * The index invariant

    The sorted view is exactly the sorted list of live keys, the byte count is
    the sum over the pointers and the cached count is the number of live keys;
    every update path preserves this, and the batched path ends in the same
    state as the immediate one. *)

From stdpp Require Import prelude list sorting gmap strings.
From Stdlib Require Import ZArith Lia.
From S2P Require Import Prelude RustStd Doc StorageIndex.

Local Open Scope Z_scope.
Local Open Scope hako_scope.

(** ** The sorted view as a set *)

Lemma view_search_spec l k :
  str_sorted l →
  match view_search l k with
  | inl i => l !! i = Some k
  | inr i => (i <= length l)%nat ∧ (k ∉ l) ∧ Forall (λ y, bytes_lt y k) (take i l) ∧
             Forall (λ y, bytes_lt k y) (drop i l)
  end.
Proof.
  intros Hs. unfold view_search. pose proof (bsearch_key (λ k : bytes, k) l k Hs) as H.
  destruct (binary_search_by _ _) as [i|i].
  - destruct H as (y & Hy & <-). done.
  - rewrite list_fmap_id in H. done.
Qed.

Lemma view_search_elem l k :
  str_sorted l → (match view_search l k with inl _ => true | inr _ => false end) = bool_decide (k ∈ l).
Proof.
  intros Hs. pose proof (view_search_spec l k Hs) as H. destruct (view_search l k) as [i|i].
  - symmetry. apply bool_decide_eq_true. by apply list_elem_of_lookup_2 in H.
  - symmetry. apply bool_decide_eq_false. tauto.
Qed.

Lemma view_insert_sorted k l : str_sorted l → str_sorted (view_insert k l).
Proof.
  intros Hs. unfold view_insert. pose proof (view_search_spec l k Hs) as H.
  destruct (view_search l k) as [i|i]; [done|]. destruct H as (_ & _ & Hlo & Hhi).
  by apply key_sorted_insert.
Qed.

Lemma elem_of_view_insert k l y : str_sorted l → y ∈ view_insert k l ↔ y = k ∨ y ∈ l.
Proof.
  intros Hs. unfold view_insert. pose proof (view_search_spec l k Hs) as H.
  destruct (view_search l k) as [i|i].
  - apply list_elem_of_lookup_2 in H. split; [tauto|]. by intros [->|?].
  - apply elem_of_vec_insert.
Qed.

Lemma view_remove_sorted k l : str_sorted l → str_sorted (view_remove k l).
Proof.
  intros Hs. unfold view_remove. destruct (view_search l k) as [i|i]; [|done]. by apply key_sorted_remove.
Qed.

Lemma elem_of_view_remove k l y : str_sorted l → y ∈ view_remove k l ↔ y ≠ k ∧ y ∈ l.
Proof.
  intros Hs. unfold view_remove. pose proof (view_search_spec l k Hs) as H.
  destruct (view_search l k) as [i|i].
  - pose proof (key_sorted_NoDup _ _ Hs) as Hnd. rewrite list_fmap_id in Hnd. unfold vec_remove.
    assert (y ∈ l ↔ y ∈ take i l ++ k :: drop (S i) l) as -> by (by rewrite take_drop_middle).
    rewrite <-(take_drop_middle l i k H) in Hnd.
    apply NoDup_app in Hnd as (_ & Hd & Hnd). apply NoDup_cons in Hnd as [Hnd _].
    rewrite !elem_of_app, elem_of_cons. split.
    + intros [Hy|Hy]; (split; [|tauto]); intros ->; [|done]. apply (Hd _ Hy). by left.
    + tauto.
  - destruct H as (_ & Hni & _). split; [|tauto]. intros Hy. split; [|done]. by intros ->.
Qed.

Lemma str_sorted_NoDup l : str_sorted l → NoDup l.
Proof. intros Hs. apply key_sorted_NoDup in Hs. by rewrite list_fmap_id in Hs. Qed.

Lemma str_sorted_ext l1 l2 : str_sorted l1 → str_sorted l2 → (∀ x, x ∈ l1 ↔ x ∈ l2) → l1 = l2.
Proof. apply key_sorted_ext. Qed.

(** Sorted views with known elements have known lengths. *)
Lemma view_insert_len k l : str_sorted l → k ∉ l → zlen (view_insert k l) = zlen l + 1.
Proof.
  intros Hs Hni. unfold view_insert. pose proof (view_search_spec l k Hs) as H.
  destruct (view_search l k) as [i|i]; [by apply list_elem_of_lookup_2 in H|].
  unfold vec_insert. rewrite zlen_app, zlen_cons. rewrite <-(take_drop i l) at 3. zlen.
Qed.

Lemma view_remove_len k l : str_sorted l → k ∈ l → zlen (view_remove k l) = zlen l - 1.
Proof.
  intros Hs Hin. unfold view_remove. pose proof (view_search_spec l k Hs) as H.
  destruct (view_search l k) as [i|i]; [|tauto].
  unfold vec_remove. rewrite zlen_app. rewrite <-(take_drop_middle l i k H) at 3. zlen.
Qed.

Lemma view_insert_present k l : str_sorted l → k ∈ l → view_insert k l = l.
Proof.
  intros Hs Hin. apply str_sorted_ext; [by apply view_insert_sorted|done|].
  intros y. rewrite elem_of_view_insert by done. split; [|tauto]. by intros [->|?].
Qed.

Lemma view_remove_absent k l : str_sorted l → k ∉ l → view_remove k l = l.
Proof.
  intros Hs Hni. apply str_sorted_ext; [by apply view_remove_sorted|done|].
  intros y. rewrite elem_of_view_remove by done. split; [tauto|]. intros Hy. split; [|done]. by intros ->.
Qed.

(** ** The invariant *)

Definition total_inlined (m : gmap bytes Pointer) : Z := map_fold (λ _ p acc, inlined_size p + acc) 0 m.

Definition idx_inv (x : Index) : Prop :=
  str_sorted (sorted_keys x) ∧ (∀ k, k ∈ sorted_keys x ↔ is_live x k = true) ∧
  inlined_bytes x = total_inlined (index x) ∧
  default 0 (collection_counts x !! logical_name x) = zlen (sorted_keys x).

Lemma inlined_size_nonneg p : 0 <= inlined_size p.
Proof. destruct p; cbn; auto with hako; lia. Qed.

Lemma total_inlined_insert m k p : m !! k = None → total_inlined (<[k:=p]> m) = inlined_size p + total_inlined m.
Proof. intros Hk. unfold total_inlined. rewrite map_fold_insert_L; [done|intros; lia|done]. Qed.

Lemma total_inlined_delete m k p : m !! k = Some p → total_inlined m = inlined_size p + total_inlined (delete k m).
Proof. 
  intros Hk. rewrite <-(total_inlined_insert (delete k m) k p) by apply lookup_delete_eq.
  by rewrite insert_delete_id.
 Qed.

Lemma total_inlined_delete_None m k : m !! k = None → total_inlined (delete k m) = total_inlined m.
Proof. intros. by rewrite delete_id. Qed.

Lemma total_inlined_nonneg m : 0 <= total_inlined m.
Proof.
  induction m as [|k p m Hk IH] using map_ind; [done|]. rewrite total_inlined_insert by done.
  pose proof (inlined_size_nonneg p). lia.
Qed.

(** ** Updates *)

Lemma elem_of_zlen_pos {A} (y : A) l : y ∈ l → 0 < zlen l.
Proof. destruct l as [|z l]; [by intros ?%not_elem_of_nil|]. intros _. zlen. Qed.

Lemma is_live_insert x k p k' :
  is_live (apply_pointer x k p) k' = if bytes_eqb k k' then is_live_ptr p else is_live x k'.
Proof.
  unfold is_live, apply_pointer, bytes_eqb. cbn [index]. destruct p as [p|].
  - case_bool_decide as E; [subst; by rewrite lookup_insert_eq|by rewrite lookup_insert_ne].
  - case_bool_decide as E; [subst; by rewrite lookup_delete_eq|by rewrite lookup_delete_ne].
Qed.

Lemma apply_pointer_bytes x k p :
  inlined_bytes x = total_inlined (index x) →
  inlined_bytes (apply_pointer x k p) = total_inlined (index (apply_pointer x k p)).
Proof.
  intros Hb. unfold apply_pointer. cbn [index inlined_bytes]. rewrite Hb.
  pose proof (total_inlined_nonneg (delete k (index x))) as Hn.
  assert (∀ q, total_inlined (<[k:=q]> (index x)) = inlined_size q + total_inlined (delete k (index x))) as Hins.
  { intros q. rewrite <-(insert_delete_eq (index x)). apply total_inlined_insert, lookup_delete_eq. }
  unfold saturating_sub. destruct (index x !! k) as [old|] eqn:Hk.
  - rewrite (total_inlined_delete _ _ _ Hk). pose proof (inlined_size_nonneg old).
    destruct p as [p|]; rewrite ?Hins; [pose proof (inlined_size_nonneg p)|]; lia.
  - rewrite <-(total_inlined_delete_None _ _ Hk). destruct p as [p|]; rewrite ?Hins; lia.
Qed.

(** The live count moves by the change of liveness of the key. *)
Lemma apply_pointer_count x k p :
  (is_live x k = true → 0 < default 0 (collection_counts x !! logical_name x)) →
  default 0 (collection_counts (apply_pointer x k p) !! logical_name x)
  = default 0 (collection_counts x !! logical_name x)
    + (if is_live_ptr p then 1 else 0) - (if is_live x k then 1 else 0).
Proof.
  intros Hpos. unfold is_live in *. unfold apply_pointer. cbn [collection_counts logical_name].
  destruct (is_live_ptr (index x !! k)) eqn:Hold, (is_live_ptr p); cbn [andb negb]; try lia.
  - specialize (Hpos eq_refl). destruct (collection_counts x !! logical_name x) as [c|] eqn:Hc.
    + rewrite lookup_insert_eq. cbn in *. unfold saturating_sub. lia.
    + rewrite Hc. cbn in *. lia.
  - rewrite lookup_insert_eq. cbn. lia.
Qed.

Lemma update_index_entry_inv x k p : idx_inv x → idx_inv (update_index_entry x k p).
Proof.
  intros (Hs & Hl & Hb & Hc). unfold update_index_entry.
  pose proof (apply_pointer_bytes x k p Hb) as Hb'.
  assert (is_live x k = true → 0 < default 0 (collection_counts x !! logical_name x)) as Hpos.
  { intros Hk. apply Hl in Hk. rewrite Hc. by eapply elem_of_zlen_pos. }
  pose proof (apply_pointer_count x k p Hpos) as Hc'.
  change (sorted_keys (apply_pointer x k p)) with (sorted_keys x).
  assert (is_live x k = bool_decide (k ∈ sorted_keys x)) as Hlk.
  { destruct (is_live x k) eqn:E; symmetry.
    - apply bool_decide_eq_true. by apply Hl.
    - apply bool_decide_eq_false. intros Hk%Hl. congruence. }
  assert (∀ k' b, is_live (with_sorted b (apply_pointer x k p)) k' =
    if bytes_eqb k k' then is_live_ptr p else is_live x k') as Hlive.
  { intros k' b. apply is_live_insert. }
  destruct (is_live_ptr p); split_and!; cbn [with_sorted sorted_keys inlined_bytes collection_counts logical_name index];
    try done; try by (apply view_insert_sorted || apply view_remove_sorted).
  - intros k'. rewrite elem_of_view_insert, Hlive, Hl by done.
    destruct (bytes_eqb k k') eqn:E; [apply bytes_eqb_eq in E; naive_solver|].
    split; [|tauto]. intros [->|?]; [by rewrite bytes_eqb_refl in E|done].
  - etransitivity; [exact Hc'|]. rewrite Hc, Hlk. case_bool_decide.
    + rewrite view_insert_present by done. lia.
    + rewrite view_insert_len by done. lia.
  - intros k'. rewrite elem_of_view_remove, Hlive, Hl by done.
    destruct (bytes_eqb k k') eqn:E; [apply bytes_eqb_eq in E; naive_solver|].
    split; [tauto|]. intros Hk. split; [|done]. intros ->. by rewrite bytes_eqb_refl in E.
  - etransitivity; [exact Hc'|]. rewrite Hc, Hlk. case_bool_decide.
    + rewrite view_remove_len by done. lia.
    + rewrite view_remove_absent by done. lia.
Qed.

(** ** The batched path *)

Definition bytes_le (a b : bytes) : Prop := bytes_cmp a b ≠ Gt.

Lemma bytes_le_lt_or_eq a b : bytes_le a b ↔ bytes_lt a b ∨ a = b.
Proof.
  unfold bytes_le, cmp_lt. destruct (bytes_cmp a b) eqn:E.
  - apply cmp_eq in E as ->. naive_solver.
  - naive_solver.
  - split; [done|]. intros [?| ->]; [done|]. by rewrite (cmp_refl bytes_cmp) in E.
Qed.

Lemma bytes_le_trans a b c : bytes_le a b → bytes_le b c → bytes_le a c.
Proof.
  rewrite !bytes_le_lt_or_eq. intros [Hab| ->] [Hbc| ->]; auto. left. by eapply cmp_lt_trans.
Qed.

Lemma insert_sorted_le x l :
  StronglySorted bytes_le l → StronglySorted bytes_le (insert_sorted bytes_cmp x l).
Proof.
  induction 1 as [|y l Hs IH Hy]; cbn [insert_sorted]; [repeat constructor|].
  destruct (bytes_cmp x y) eqn:E.
  1,2: constructor; [by constructor|]; constructor; [by unfold bytes_le; rewrite E|];
    eapply Forall_impl; [exact Hy|]; intros z; apply bytes_le_trans; unfold bytes_le; by rewrite E.
  constructor; [done|]. rewrite insert_sorted_perm. constructor; [|done].
  apply bytes_le_lt_or_eq. left. by apply (cmp_gt_lt bytes_cmp).
Qed.

Lemma sort_by_le l : StronglySorted bytes_le (sort_by bytes_cmp l).
Proof. induction l as [|x l IH]; [constructor|]. by apply insert_sorted_le. Qed.

Lemma dedup_cons2 x z l :
  dedup (x :: z :: l) = if bytes_eqb x z then dedup (z :: l) else x :: dedup (z :: l).
Proof. done. Qed.

Lemma elem_of_dedup l y : y ∈ dedup l ↔ y ∈ l.
Proof.
  induction l as [|x l IH]; [done|]. destruct l as [|z l]; [done|]. rewrite dedup_cons2.
  destruct (bytes_eqb x z) eqn:E.
  - apply bytes_eqb_eq in E as ->. rewrite IH, !elem_of_cons. tauto.
  - rewrite elem_of_cons, IH, !elem_of_cons. done.
Qed.

Lemma dedup_sorted l : StronglySorted bytes_le l → str_sorted (dedup l).
Proof.
  induction 1 as [|x l Hs IH Hx]; [constructor|]. destruct l as [|z l]; [repeat constructor|].
  rewrite dedup_cons2. destruct (bytes_eqb x z) eqn:E; [done|].
  constructor; [done|]. apply Forall_forall. intros y Hy.
  apply (elem_of_dedup (z :: l)) in Hy. rewrite Forall_forall in Hx.
  pose proof (Hx _ Hy) as Hle. apply bytes_le_lt_or_eq in Hle as [?|<-]; [done|].
  exfalso. apply elem_of_cons in Hy as [->|Hy]; [by rewrite bytes_eqb_refl in E|].
  apply StronglySorted_inv in Hs as [_ Hz]. rewrite Forall_forall in Hz.
  pose proof (Hz _ Hy) as Hzx. pose proof (Hx z ltac:(by left)) as Hxz.
  apply bytes_le_lt_or_eq in Hzx as [Hzx| ->]; [|by rewrite bytes_eqb_refl in E].
  apply bytes_le_lt_or_eq in Hxz as [Hxz| ->]; [|by rewrite bytes_eqb_refl in E].
  pose proof (cmp_lt_trans _ _ _ Hzx Hxz) as HR. by apply (cmp_lt_irrefl bytes_cmp) in HR.
Qed.

(** The two-pointer merge. *)
Lemma merge_below_spec live k P out rest :
  str_sorted P → merge_below live k P = (out, rest) →
  ∃ lo, P = lo ++ rest ∧ out = List.filter live lo ∧ Forall (λ y, bytes_lt y k) lo ∧
        Forall (bytes_le k) rest.
Proof.
  revert out rest; induction P as [|p P IH]; intros out rest Hs; cbn [merge_below].
  { intros [= <- <-]. exists []. split_and!; constructor || done. }
  apply StronglySorted_inv in Hs as [Hs Hp]. destruct (bytes_ltb p k) eqn:E.
  - destruct (merge_below live k P) as [out' rest'] eqn:Hm. intros [= <- <-].
    destruct (IH _ _ Hs eq_refl) as (lo & -> & -> & Hlo & Hrest). exists (p :: lo).
    split_and!; [done|done| |done]. constructor; [by apply bytes_ltb_lt|done].
  - intros [= <- <-]. exists []. split_and!; [done|done|constructor|].
    assert (bytes_le k p) as Hkp.
    { unfold bytes_le. intros Hgt. apply (cmp_gt_lt bytes_cmp) in Hgt. apply bytes_ltb_lt in Hgt. congruence. }
    constructor; [done|]. eapply Forall_impl; [exact Hp|]. intros y Hy.
    eapply bytes_le_trans; [exact Hkp|]. apply bytes_le_lt_or_eq. by left.
Qed.

Lemma elem_of_List_filter {A} (f : A → bool) l y : y ∈ List.filter f l ↔ y ∈ l ∧ f y = true.
Proof. rewrite !list_elem_of_In. apply filter_In. Qed.

Lemma Forall_List_filter {A} (f : A → bool) P l : Forall P l → Forall P (List.filter f l).
Proof. rewrite !Forall_forall. intros HF y Hy. apply elem_of_List_filter in Hy as [Hy _]. auto. Qed.

Lemma filter_str_sorted f l : str_sorted l → str_sorted (List.filter f l).
Proof.
  induction 1 as [|x l Hs IH Hx]; cbn; [constructor|]. destruct (f x); [|done].
  constructor; [done|]. by apply Forall_List_filter.
Qed.

(** What a resolved view contains: pending keys by liveness, others as before. *)
Definition resolves (live : bytes → bool) (P old result : list bytes) : Prop :=
  str_sorted result ∧ ∀ y, y ∈ result ↔ (y ∈ P ∧ live y = true) ∨ (y ∉ P ∧ y ∈ old).

(** One key of the old view between the pending keys below and above it. *)
Lemma resolves_step live lo k mid P' old result :
  str_sorted (lo ++ mid ++ P') → str_sorted (k :: old) →
  Forall (λ y, bytes_lt y k) lo → (mid = [k] ∨ mid = []) → Forall (bytes_lt k) P' →
  resolves live P' old result →
  resolves live (lo ++ mid ++ P') (k :: old)
    (List.filter live lo ++ (if bool_decide (mid = []) || live k then [k] else []) ++ result).
Proof.
  intros HP Ho Hlo Hmid HP' [Hr Hel]. apply StronglySorted_inv in Ho as [Ho Hk].
  assert (Forall (bytes_lt k) result) as Hkr.
  { rewrite Forall_forall in *. intros y Hy. apply Hel in Hy as [[? _]|[_ ?]]; auto. }
  assert (k ∉ lo) as Hklo.
  { intros Hin. rewrite Forall_forall in Hlo. by apply (cmp_lt_irrefl bytes_cmp k), Hlo. }
  assert (∀ y, y ∈ lo → y ∉ k :: old) as Hlo'.
  { intros y Hy. rewrite Forall_forall in Hlo, Hk. apply not_elem_of_cons. split; [by intros ->|].
    intros Hy'. apply (cmp_lt_irrefl bytes_cmp k). eapply cmp_lt_trans; [by apply Hk|by apply Hlo]. }
  split.
  - apply key_sorted_app. split_and!; [|destruct (_ || _); [by constructor|done]|].
    + apply key_sorted_app in HP as (HP & _). by apply filter_str_sorted.
    + apply Forall_List_filter. eapply Forall_impl; [exact Hlo|]. intros y Hy.
      apply Forall_app. split; [destruct (_ || _); by repeat constructor|].
      eapply Forall_impl; [exact Hkr|]. intros z Hz. exact (cmp_lt_trans _ _ _ Hy Hz).
  - assert (k ∉ P') as HkP. { intros Hin. rewrite Forall_forall in HP'. by apply (cmp_lt_irrefl bytes_cmp k), HP'. }
    assert (k ∉ old) as Hko. { intros Hin. rewrite Forall_forall in Hk. by apply (cmp_lt_irrefl bytes_cmp k), Hk. }
    intros y. rewrite !elem_of_app, elem_of_List_filter, Hel, elem_of_cons.
    pose proof (Hlo' y) as Hy. rewrite not_elem_of_cons in Hy. clear Hel Hkr Hlo Hlo' HP Hr.
    destruct (decide (y = k)) as [->|Hne].
    + destruct Hmid as [-> | ->]; case_bool_decide; try done; cbn [orb];
        [destruct (live k); [pose proof (eq_refl true)|assert (false ≠ true) by done]|];
        rewrite ?list_elem_of_singleton, ?elem_of_nil; tauto.
    + assert (y ∈ mid ↔ False) as ->.
      { destruct Hmid as [-> | ->]; rewrite ?list_elem_of_singleton, ?elem_of_nil; tauto. }
      destruct (_ || live k); rewrite ?list_elem_of_singleton, ?elem_of_nil; tauto.
Qed.

Lemma merge_pass_resolves live old P :
  str_sorted old → str_sorted P → resolves live P old (merge_pass live old P).
Proof.
  revert P; induction old as [|k old IH]; intros P Ho HP; cbn [merge_pass].
  { split; [by apply filter_str_sorted|]. intros y. rewrite elem_of_List_filter, elem_of_nil. tauto. }
  destruct (merge_below live k P) as [out rest] eqn:Hm.
  destruct (merge_below_spec _ _ _ _ _ HP Hm) as (lo & -> & -> & Hlo & Hrest).
  pose proof Ho as Ho'. apply StronglySorted_inv in Ho' as [Hos _].
  apply key_sorted_app in HP as HPs. destruct HPs as (_ & Hrs & _).
  destruct rest as [|p rest'].
  - apply (resolves_step live lo k [] [] old); [done|done|done|by right|constructor|by apply IH].
  - apply Forall_cons in Hrest as [Hkp Hrest]. apply StronglySorted_inv in Hrs as Hrs'. destruct Hrs' as [Hrs' Hp].
    destruct (bytes_eqb p k) eqn:E.
    + apply bytes_eqb_eq in E as ->.
      apply (resolves_step live lo k [k] rest' old); [done|done|done|by left|done|by apply IH].
    + assert (bytes_lt k p) as Hlt.
      { apply bytes_le_lt_or_eq in Hkp as [?| ->]; [done|]. by rewrite bytes_eqb_refl in E. }
      apply (resolves_step live lo k [] (p :: rest') old); [done|done|done|by right| |by apply IH].
      constructor; [done|]. eapply Forall_impl; [exact Hp|]. intros z Hz. by eapply cmp_lt_trans.
Qed.

Lemma fold_view_resolves live P old :
  str_sorted old →
  resolves live P old (foldl (λ keys k, if live k then view_insert k keys else view_remove k keys) old P).
Proof.
  revert old; induction P as [|p P IH]; intros old Ho; cbn [foldl].
  { split; [done|]. intros y. rewrite elem_of_nil. tauto. }
  assert (str_sorted (if live p then view_insert p old else view_remove p old)) as Ho'.
  { destruct (live p); [by apply view_insert_sorted|by apply view_remove_sorted]. }
  destruct (IH _ Ho') as [Hs Hel]. split; [done|]. intros y. rewrite Hel, elem_of_cons.
  destruct (live p) eqn:Hp; rewrite ?elem_of_view_insert, ?elem_of_view_remove by done;
    (destruct (decide (y = p)) as [E|]; [subst p; assert (live y ≠ true ∨ live y = true) by (rewrite Hp; auto)|]);
    destruct (decide (y ∈ P)); try tauto.
  all: assert (live y ≠ true) by congruence; tauto.
Qed.

Lemma append_resolves live P old :
  str_sorted old → str_sorted P → forallb live P = true →
  (∀ l p, last old = Some l → head P = Some p → bytes_lt l p) → P ≠ [] →
  resolves live P old (old ++ P).
Proof.
  intros Ho HP Hlive Hlast Hne. split.
  - apply key_sorted_app. split_and!; [done|done|]. destruct P as [|p P]; [done|].
    apply Forall_forall. intros x Hx. assert (bytes_lt x p) as Hxp.
    { destruct old as [|l old _] using rev_ind; [by apply not_elem_of_nil in Hx|].
      rewrite last_snoc in Hlast. specialize (Hlast l p eq_refl eq_refl).
      apply elem_of_app in Hx as [Hx|Hx%list_elem_of_singleton]; [|by subst].
      apply key_sorted_app in Ho as (_ & _ & Ho). rewrite Forall_forall in Ho.
      specialize (Ho _ Hx). apply Forall_cons in Ho as [Ho _]. by eapply cmp_lt_trans. }
    apply StronglySorted_inv in HP as [_ HP]. constructor; [done|].
    eapply Forall_impl; [exact HP|]. intros z Hz. by eapply cmp_lt_trans.
  - intros y. rewrite elem_of_app. rewrite forallb_forall in Hlive.
    destruct (decide (y ∈ P)) as [Hy|Hy]; [|tauto].
    specialize (Hlive y (proj1 (list_elem_of_In _ _) Hy)). tauto.
Qed.

(** [flush_pending_sorted] resolves the pending keys, by whichever strategy. *)
Lemma flush_resolves x pending :
  str_sorted (sorted_keys x) →
  resolves (is_live x) pending (sorted_keys x) (sorted_keys (flush_pending_sorted x pending)).
Proof.
  intros Hs. destruct pending as [|p0 pending0]; [split; [done|]; intros y; rewrite elem_of_nil; tauto|].
  set (pending := p0 :: pending0). unfold flush_pending_sorted. cbn zeta.
  change (match pending with [] => x | _ => ?a end) with a.
  set (P := dedup (sort_by bytes_cmp pending)).
  assert (str_sorted P) as HP by apply dedup_sorted, sort_by_le.
  assert (∀ y, y ∈ P ↔ y ∈ pending) as HPel.
  { intros y. unfold P. by rewrite elem_of_dedup, sort_by_perm. }
  assert (P ≠ []) as Hne.
  { intros E. apply (not_elem_of_nil p0). rewrite <-E. apply HPel. by left. }
  assert (∀ r, resolves (is_live x) P (sorted_keys x) r → resolves (is_live x) pending (sorted_keys x) r) as Hconv.
  { intros r [Hr Hel]. split; [done|]. intros y. by rewrite Hel, HPel. }
  destruct ((match last (sorted_keys x) with None => true | Some l => _ end) && forallb (is_live x) P) eqn:Hfast.
  - apply andb_true_iff in Hfast as [Htail Hlive]. apply Hconv, append_resolves; try done.
    intros l p Hl Hp. rewrite Hl, Hp in Htail. by apply bytes_ltb_lt.
  - apply Hconv. destruct (length P <=? 32)%nat.
    + by apply fold_view_resolves.
    + by apply merge_pass_resolves.
Qed.

(** The part of the state that readers see (the scratch buffer is not). *)
Definition core (x : Index) := (index x, sorted_keys x, inlined_bytes x, collection_counts x, logical_name x).

Definition core_nosort (x : Index) := (index x, inlined_bytes x, collection_counts x, logical_name x).

Lemma flush_core x pending : core_nosort (flush_pending_sorted x pending) = core_nosort x.
Proof. unfold flush_pending_sorted. destruct pending; [done|]. cbn zeta. by repeat split_if. Qed.

Lemma apply_pointer_nosort x y k p :
  core_nosort x = core_nosort y → core_nosort (apply_pointer x k p) = core_nosort (apply_pointer y k p).
Proof. unfold core_nosort, apply_pointer. intros [= -> -> -> ->]. done. Qed.

Lemma is_live_core x y : core_nosort x = core_nosort y → ∀ k, is_live x k = is_live y k.
Proof. unfold core_nosort, is_live. by intros [= -> _ _ _]. Qed.

(** The deferred path: everything but the view is updated as in the immediate
    path, the view stays, and every key it is wrong about is pending. *)
Lemma deferred_fold updates x y pending x' pending' :
  core_nosort x = core_nosort y → str_sorted (sorted_keys x) →
  (∀ k, k ∉ pending → (k ∈ sorted_keys x ↔ is_live x k = true)) →
  foldl (λ '(x, pending) '(k, p), update_index_entry_deferred x k p pending) (x, pending) updates = (x', pending') →
  core_nosort x' = core_nosort (update_each y updates) ∧ sorted_keys x' = sorted_keys x ∧
  (∀ k, k ∉ pending' → (k ∈ sorted_keys x' ↔ is_live x' k = true)).
Proof.
  revert x y pending; induction updates as [|[k p] us IH]; intros x y pending Hc Hs Hp; cbn [foldl].
  { intros [= <- <-]. done. }
  unfold update_index_entry_deferred at 2. cbn zeta. intros Hf.
  rewrite view_search_elem in Hf by done. change (sorted_keys (apply_pointer x k p)) with (sorted_keys x) in Hf.
  apply (IH _ (update_index_entry y k p)) in Hf; [done| |done|].
  - etransitivity; [apply (apply_pointer_nosort _ _ k p Hc)|].
    unfold update_index_entry. by destruct (is_live_ptr p).
  - change (sorted_keys (apply_pointer x k p)) with (sorted_keys x).
    intros k' Hk'. rewrite is_live_insert. destruct (bytes_eqb k k') eqn:E.
    + apply bytes_eqb_eq in E as <-. destruct (Bool.eqb _ _) eqn:Eb.
      * apply Bool.eqb_prop in Eb. rewrite Eb. by rewrite bool_decide_eq_true.
      * destruct Hk'. rewrite elem_of_app. right. by apply list_elem_of_singleton.
    + apply Hp. intros Hin. apply Hk'. destruct (Bool.eqb _ _); [done|]. rewrite elem_of_app. by left.
Qed.

Lemma update_each_inv updates x : idx_inv x → idx_inv (update_each x updates).
Proof.
  unfold update_each. revert x; induction updates as [|[k p] us IH]; intros x Hx; cbn [foldl]; [done|].
  by apply IH, update_index_entry_inv.
Qed.

(** The batched path ends in the state of the immediate path. *)
Lemma update_batch_each x updates : idx_inv x → core (update_batch x updates) = core (update_each x updates).
Proof.
  intros Hx. pose proof (update_each_inv updates x Hx) as (Hs2 & Hl2 & _).
  destruct Hx as (Hs & Hl & _). unfold update_batch.
  destruct (foldl _ (x, []) updates) as [x' pending] eqn:Hf.
  destruct (deferred_fold updates x x [] x' pending eq_refl Hs ltac:(intros; apply Hl) Hf) as (Hc & Hsk & Hp).
  destruct (flush_resolves x' pending) as [Hr Hel]; [by rewrite Hsk|].
  pose proof (flush_core x' pending) as Hfc. rewrite Hc in Hfc.
  assert (sorted_keys (flush_pending_sorted x' pending) = sorted_keys (update_each x updates)) as Hk.
  { apply str_sorted_ext; [done..|]. intros k. rewrite Hel, Hl2.
    rewrite <-(is_live_core _ _ Hc). destruct (decide (k ∈ pending)); [tauto|].
    specialize (Hp k ltac:(done)). tauto. }
  unfold core, core_nosort in *. congruence.
Qed.

Lemma idx_inv_core x y : core x = core y → idx_inv x → idx_inv y.
Proof.
  unfold core, idx_inv, is_live. intros E. injection E as E1 E2 E3 E4 E5. by rewrite E1, E2, E3, E4, E5.
Qed.

Lemma update_batch_inv x updates : idx_inv x → idx_inv (update_batch x updates).
Proof.
  intros Hx. eapply idx_inv_core; [symmetry; by apply update_batch_each|]. by apply update_each_inv.
Qed.

(** ** Ranges over the view *)

(** The keys at or after (strictly after) an anchor, and at or before it. *)
Definition from_anchor (start : option bytes) (excl : bool) (k : bytes) : bool :=
  match start with
  | None => true
  | Some s => bytes_ltb s k || (negb excl && bytes_eqb s k)
  end.
Definition to_anchor (start : option bytes) (excl : bool) (k : bytes) : bool :=
  match start with
  | None => true
  | Some s => bytes_ltb k s || (negb excl && bytes_eqb s k)
  end.

Definition take_opt {A} (limit : option nat) (l : list A) : list A :=
  match limit with Some n => take n l | None => l end.

Lemma filter_drop {A} (f : A → bool) i l :
  Forall (λ y, f y = false) (take i l) → Forall (λ y, f y = true) (drop i l) → List.filter f l = drop i l.
Proof.
  intros Hlo Hhi. rewrite <-(take_drop i l) at 1. rewrite List.filter_app.
  assert (∀ k, Forall (λ y, f y = false) k → List.filter f k = []) as Hno.
  { induction 1 as [|y k Hy _ IH]; cbn; [done|]. by rewrite Hy. }
  assert (∀ k, Forall (λ y, f y = true) k → List.filter f k = k) as Hyes.
  { induction 1 as [|y k Hy _ IH]; cbn; [done|]. by rewrite Hy, IH. }
  by rewrite (Hno _ Hlo), (Hyes _ Hhi).
Qed.

Lemma filter_take {A} (f : A → bool) i l :
  Forall (λ y, f y = true) (take i l) → Forall (λ y, f y = false) (drop i l) → List.filter f l = take i l.
Proof.
  intros Hlo Hhi. rewrite <-(take_drop i l) at 1. rewrite List.filter_app.
  assert (∀ k, Forall (λ y, f y = false) k → List.filter f k = []) as Hno.
  { induction 1 as [|y k Hy _ IH]; cbn; [done|]. by rewrite Hy. }
  assert (∀ k, Forall (λ y, f y = true) k → List.filter f k = k) as Hyes.
  { induction 1 as [|y k Hy _ IH]; cbn; [done|]. by rewrite Hy, IH. }
  by rewrite (Hno _ Hhi), (Hyes _ Hlo), app_nil_r.
Qed.

(** Where the anchor splits the view. *)
Lemma view_split l s :
  str_sorted l →
  ∃ lo mid hi, l = lo ++ mid ++ hi ∧ Forall (λ y, bytes_lt y s) lo ∧ Forall (bytes_lt s) hi ∧
    match view_search l s with
    | inl p => p = length lo ∧ mid = [s]
    | inr p => p = length lo ∧ mid = []
    end.
Proof.
  intros Hs. pose proof (view_search_spec l s Hs) as H. destruct (view_search l s) as [p|p].
  - exists (take p l), [s], (drop (S p) l). pose proof (lookup_lt_Some _ _ _ H).
    rewrite <-(take_drop_middle l p s H) in Hs. apply key_sorted_app in Hs as (_ & Hr & Hlo).
    apply StronglySorted_inv in Hr as [_ Hr]. split_and!; [symmetry; by apply take_drop_middle| |done| |done].
    + eapply Forall_impl; [exact Hlo|]. intros y Hy. by apply Forall_cons in Hy as [? _].
    + rewrite length_take. lia.
  - destruct H as (Hp & _ & Hlo & Hhi). exists (take p l), [], (drop p l).
    split_and!; [by rewrite app_nil_l, take_drop|done|done| |done]. rewrite length_take. lia.
Qed.

Lemma ltb_false_of_lt a b : bytes_lt a b → bytes_ltb b a = false.
Proof.
  intros Hab. destruct (bytes_ltb b a) eqn:E; [|done]. apply bytes_ltb_lt in E.
  pose proof (cmp_lt_trans _ _ _ Hab E) as HR. by apply (cmp_lt_irrefl bytes_cmp) in HR.
Qed.

Lemma eqb_false_of_lt a b : bytes_lt a b → bytes_eqb a b = false ∧ bytes_eqb b a = false.
Proof.
  intros Hab. split; apply not_true_iff_false; intros E%bytes_eqb_eq; subst;
    by apply (cmp_lt_irrefl bytes_cmp) in Hab.
Qed.

Lemma from_anchor_split s excl lo mid hi :
  Forall (λ y, bytes_lt y s) lo → Forall (bytes_lt s) hi → mid = [s] ∨ mid = [] →
  List.filter (from_anchor (Some s) excl) (lo ++ mid ++ hi) = (if excl then [] else mid) ++ hi.
Proof.
  intros Hlo Hhi Hmid. rewrite !List.filter_app. cbn [from_anchor].
  rewrite (filter_drop _ (length lo) lo), drop_all.
  2: { rewrite take_ge by done. eapply Forall_impl; [exact Hlo|]. intros y Hy; cbn [from_anchor].
       rewrite ltb_false_of_lt, (proj2 (eqb_false_of_lt _ _ Hy)), andb_false_r; done. }
  2: { rewrite drop_all. constructor. }
  rewrite (filter_drop _ 0 hi).
  2: { constructor. }
  2: { eapply Forall_impl; [exact Hhi|]. intros y Hy. cbn [from_anchor]. by rewrite (proj2 (bytes_ltb_lt _ _) Hy). }
  cbn [app]. f_equal. destruct Hmid as [-> | ->]; [|by destruct excl]. cbn.
  assert (bytes_ltb s s = false) as ->.
  { apply not_true_iff_false. rewrite bytes_ltb_lt. apply (cmp_lt_irrefl bytes_cmp). }
  rewrite bytes_eqb_refl. by destruct excl.
Qed.

Lemma to_anchor_split s excl lo mid hi :
  Forall (λ y, bytes_lt y s) lo → Forall (bytes_lt s) hi → mid = [s] ∨ mid = [] →
  List.filter (to_anchor (Some s) excl) (lo ++ mid ++ hi) = lo ++ (if excl then [] else mid).
Proof.
  intros Hlo Hhi Hmid. rewrite !List.filter_app. cbn [to_anchor].
  rewrite (filter_take _ (length lo) lo).
  2: { rewrite take_ge by done. eapply Forall_impl; [exact Hlo|]. intros y Hy. cbn [to_anchor].
       by rewrite (proj2 (bytes_ltb_lt _ _) Hy). }
  2: { rewrite drop_all. constructor. }
  rewrite (take_ge lo) by done. rewrite (filter_take _ 0 hi); cbn [take].
  2: { constructor. }
  2: { rewrite drop_0. eapply Forall_impl; [exact Hhi|]. intros y Hy. cbn [to_anchor].
       rewrite ltb_false_of_lt, (proj1 (eqb_false_of_lt _ _ Hy)), andb_false_r; done. }
  rewrite app_nil_r. f_equal. destruct Hmid as [-> | ->]; [|by destruct excl]. cbn.
  assert (bytes_ltb s s = false) as ->.
  { apply not_true_iff_false. rewrite bytes_ltb_lt. apply (cmp_lt_irrefl bytes_cmp). }
  rewrite bytes_eqb_refl. by destruct excl.
Qed.

Lemma filter_true {A} (l : list A) : List.filter (λ _, true) l = l.
Proof. induction l as [|x l IH]; cbn; [done|]. by rewrite IH. Qed.

(** The position of the anchor, and the keys after it. *)
Lemma from_anchor_drop l start excl :
  str_sorted l →
  List.filter (from_anchor start excl) l =
  drop (match start with
        | Some s => match view_search l s with
                    | inl p => p + (if excl then 1 else 0)
                    | inr p => p
                    end
        | None => 0
        end)%nat l.
Proof.
  intros Hs. destruct start as [s|]; [|apply filter_true].
  destruct (view_split l s Hs) as (lo & mid & hi & E & Hlo & Hhi & Hp).
  rewrite E at 1. rewrite from_anchor_split; [|done|done|destruct (view_search l s); tauto].
  destruct (view_search l s) as [p|p]; destruct Hp as [-> ->]; subst l.
  - destruct excl.
    + rewrite <-drop_drop, drop_app_length. done.
    + rewrite Nat.add_0_r, drop_app_length. done.
  - rewrite drop_app_length. by destruct excl.
Qed.

Lemma to_anchor_take l start excl :
  str_sorted l →
  List.filter (to_anchor start excl) l =
  take (match start with
        | Some s => match view_search l s with
                    | inl p => p + (if excl then 0 else 1)
                    | inr p => p
                    end
        | None => length l
        end)%nat l.
Proof.
  intros Hs. destruct start as [s|]; [|rewrite take_ge by done; apply filter_true].
  destruct (view_split l s Hs) as (lo & mid & hi & E & Hlo & Hhi & Hp).
  rewrite E at 1. rewrite to_anchor_split; [|done|done|destruct (view_search l s); tauto].
  destruct (view_search l s) as [p|p]; destruct Hp as [-> ->]; subst l.
  - destruct excl.
    + by rewrite Nat.add_0_r, take_app_length, app_nil_r.
    + rewrite app_assoc, take_app_length'; [done|]. rewrite length_app. done.
  - rewrite app_nil_l, take_app_length. destruct excl; by rewrite app_nil_r.
Qed.

(** The slice of [sorted_key_range] is the page the arguments ask for. *)
Lemma sorted_key_range_page x start excl offset limit :
  str_sorted (sorted_keys x) →
  ∃ s e, sorted_key_range x start excl offset limit = Some (s, e) ∧ (s <= e <= length (sorted_keys x))%nat ∧
  take (e - s) (drop s (sorted_keys x))
  = take_opt limit (drop (default 0%nat offset) (List.filter (from_anchor start excl) (sorted_keys x))).
Proof.
  intros Hs. unfold sorted_key_range. set (l := sorted_keys x) in *.
  destruct (Nat.eqb_spec (length l) 0) as [E|E].
  { exists 0%nat, 0%nat. apply nil_length_inv in E as ->. cbn. split_and!; [done|lia..|].
    rewrite drop_nil. by destruct limit as [[]|]. }
  rewrite (from_anchor_drop _ _ _ Hs), drop_drop.
  set (p0 := match start with Some s => _ | None => 0%nat end).
  match goal with |- context [(length l <=? ?sp)%nat] =>
    replace sp with (p0 + default 0 offset)%nat end.
  2: { subst p0. destruct start as [s|]; [|done]. by destruct (view_search l s). }
  set (sp := (p0 + default 0 offset)%nat). destruct (Nat.leb_spec (length l) sp) as [Hle|Hlt].
  - exists (length l), (length l). split_and!; [done|lia..|].
    rewrite Nat.sub_diag, (drop_ge l sp) by done. by destruct limit as [[]|].
  - eexists sp, _. split; [done|]. destruct limit as [n|]; cbn [take_opt].
    + split; [lia|]. destruct (Nat.le_ge_cases (sp + n) (length l)).
      * rewrite Nat.min_l by lia. f_equal. lia.
      * rewrite Nat.min_r by lia. rewrite !take_ge; [done|rewrite length_drop; lia..].
    + split; [lia|]. rewrite take_ge; [done|]. rewrite length_drop. lia.
Qed.

(** The same for the descending walk. *)
Lemma sorted_key_range_reverse_page x start excl offset limit :
  str_sorted (sorted_keys x) →
  ∃ s e, sorted_key_range_reverse x start excl offset limit = Some (s, e) ∧ (s <= e <= length (sorted_keys x))%nat ∧
  rev (take (e - s) (drop s (sorted_keys x)))
  = take_opt limit (drop (default 0%nat offset) (rev (List.filter (to_anchor start excl) (sorted_keys x)))).
Proof.
  intros Hs. unfold sorted_key_range_reverse. set (l := sorted_keys x) in *.
  destruct (Nat.eqb_spec (length l) 0) as [E|E].
  { exists 0%nat, 0%nat. apply nil_length_inv in E as ->. cbn. split_and!; [done|lia..|].
    rewrite drop_nil. by destruct limit as [[]|]. }
  rewrite (to_anchor_take _ _ _ Hs).
  set (r := match start with Some s => _ | None => length l end).
  assert (r <= length l)%nat as Hr.
  { subst r. destruct start as [s|]; [|done]. pose proof (view_search_spec l s Hs) as H.
    destruct (view_search l s); [apply lookup_lt_Some in H; destruct excl; lia|lia]. }
  set (e := (r - default 0 offset)%nat).
  assert (drop (default 0%nat offset) (rev (take r l)) = rev (take e l)) as ->.
  { rewrite skipn_rev, length_take, take_take. do 2 f_equal. lia. }
  destruct limit as [n|]; cbn [take_opt].
  - eexists _, e. split; [done|]. split; [lia|].
    rewrite firstn_rev, length_take. f_equal. rewrite Nat.min_l by lia.
    rewrite (Nat.min_l e (length l)) by lia. rewrite skipn_firstn_comm. done.
  - eexists _, e. split; [done|]. cbn [Nat.min]. split; [lia|]. by rewrite drop_0, Nat.sub_0_r.
Qed.

(** ** Rebuilding, purging, counting *)

Section Iteration.
Context `{HashIterLaws}.

Lemma elem_of_live_keys x k : k ∈ live_keys x ↔ is_live x k = true.
Proof.
  unfold live_keys, is_live. rewrite list_elem_of_fmap. split.
  - intros ([k' p] & -> & Hin). apply elem_of_List_filter in Hin as [Hin Hl]. cbn in Hl |- *.
    rewrite hash_iter_perm, elem_of_map_to_list in Hin. by rewrite Hin.
  - destruct (index x !! k) as [p|] eqn:Hp; [|done]. cbn. intros Hl. exists (k, p). split; [done|].
    apply elem_of_List_filter. split; [|done]. by rewrite hash_iter_perm, elem_of_map_to_list.
Qed.

Lemma live_keys_NoDup x : NoDup (live_keys x).
Proof.
  unfold live_keys. pose proof (NoDup_fst_map_to_list (index x)) as Hnd.
  rewrite <-hash_iter_perm in Hnd. revert Hnd. generalize (hash_iter (index x)) as l.
  induction l as [|[k p] l IH]; cbn; [constructor|]. rewrite !NoDup_cons. intros [Hni Hnd].
  destruct (negb (is_deleted p)); [|by apply IH]. cbn. rewrite NoDup_cons. split; [|by apply IH].
  intros Hin. apply Hni. apply list_elem_of_fmap in Hin as (kp & -> & Hin).
  apply elem_of_List_filter in Hin as [Hin _]. apply list_elem_of_fmap. eauto.
Qed.

Lemma rebuild_view_inv x : inlined_bytes x = total_inlined (index x) → idx_inv (rebuild_view x).
Proof.
  intros Hb. split_and!; cbn [rebuild_view sorted_keys inlined_bytes index collection_counts logical_name].
  - apply (sort_by_key_sorted (λ k : bytes, k)). rewrite list_fmap_id. apply live_keys_NoDup.
  - intros k. rewrite sort_by_perm, elem_of_live_keys. done.
  - done.
  - by rewrite lookup_insert_eq.
Qed.

Lemma nosort_bytes x k p :
  inlined_bytes x = total_inlined (index x) →
  inlined_bytes (update_index_entry_nosort x k p) = total_inlined (index (update_index_entry_nosort x k p)).
Proof. intros Hb. pose proof (apply_pointer_bytes x k (Some p) Hb) as E. exact E. Qed.

Lemma live_keys_len x : idx_inv x → zlen (live_keys x) = zlen (sorted_keys x).
Proof.
  intros (Hs & Hl & _). unfold zlen. f_equal. apply Permutation_length, NoDup_Permutation.
  - apply live_keys_NoDup.
  - by apply str_sorted_NoDup.
  - intros k. by rewrite elem_of_live_keys, Hl.
Qed.

(** The O(1) answer of [count_prefix] is the number of live keys. *)
Lemma count_prefix_live x : idx_inv x → count_prefix x [] = zlen (live_keys x).
Proof.
  intros Hx. unfold count_prefix. cbn [bool_decide decide_rel]. rewrite bool_decide_eq_true_2 by done. cbn [orb].
  destruct (collection_counts x !! logical_name x) as [n|] eqn:Hn; [|done].
  rewrite live_keys_len by done. destruct Hx as (_ & _ & _ & Hc). by rewrite Hn in Hc.
Qed.

Lemma total_inlined_young (now age : Z) (m : gmap bytes Pointer) :
  total_inlined (filter (λ kp : bytes * Pointer, young now age kp.2 = true) m) = total_inlined m.
Proof.
  induction m as [|k p m Hk IH] using map_ind; [done|].
  destruct (young now age p) eqn:Hy.
  - rewrite map_filter_insert_True by done.
    rewrite !total_inlined_insert; [by rewrite IH|done|]. apply map_lookup_filter_None. by left.
  - rewrite map_filter_insert_False, delete_id by (done || cbn; congruence).
    rewrite total_inlined_insert, IH by done. destruct p; cbn in *; done || lia.
Qed.

(** [purge_old_tombstones] drops old tombstones only: no live key, byte or
    count changes. *)
Lemma purge_old_inv x now age :
  idx_inv x → idx_inv (purge_old_tombstones x now age) ∧
  ∀ k, is_live (purge_old_tombstones x now age) k = is_live x k.
Proof.
  intros (Hs & Hl & Hb & Hc).
  assert (∀ k, is_live (purge_old_tombstones x now age) k = is_live x k) as Hlive.
  { intros k. unfold is_live, purge_old_tombstones. cbn [index]. rewrite map_lookup_filter.
    destruct (index x !! k) as [p|]; cbn; [|done].
    case_guard as Hy; cbn; [done|]. destruct p; cbn in *; done. }
  split; [|done]. split_and!; try done.
  - intros k. rewrite Hlive. apply Hl.
  - cbn. by rewrite total_inlined_young.
Qed.

Lemma update_each_index x us :
  index (update_each x us) = foldl (λ m '(k, p), match p with Some p => <[k:=p]> m | None => delete k m end) (index x) us.
Proof.
  unfold update_each. revert x; induction us as [|[k p] us IH]; intros x; cbn [foldl]; [done|].
  rewrite IH. f_equal. unfold update_index_entry. by destruct (is_live_ptr p).
Qed.

Lemma foldl_delete_lookup (ks : list bytes) (m : gmap bytes Pointer) k :
  foldl (λ m '(k, p), match p with Some p => <[k:=p]> m | None => delete k m end) m ((λ k, (k, None)) <$> ks) !! k
  = if bool_decide (k ∈ ks) then None else m !! k.
Proof.
  revert m; induction ks as [|k' ks IH]; intros m; cbn [fmap list_fmap foldl]; [by rewrite bool_decide_eq_false_2 by apply not_elem_of_nil|].
  rewrite IH. case_bool_decide as E.
  - rewrite bool_decide_eq_true_2; [done|]. by right.
  - destruct (decide (k = k')) as [->|Hne].
    + rewrite lookup_delete_eq, bool_decide_eq_true_2; [done|]. by left.
    + rewrite lookup_delete_ne by done. rewrite bool_decide_eq_false_2; [done|].
      apply not_elem_of_cons. done.
Qed.

(** [purge_tombstones] removes exactly the tombstones. *)
Lemma purge_tombstones_spec x x' n :
  idx_inv x → purge_tombstones x = (x', n) →
  idx_inv x' ∧ sorted_keys x' = sorted_keys x ∧
  ∀ k, index x' !! k = match index x !! k with Some p => if is_deleted p then None else Some p | None => None end.
Proof.
  intros Hx Hp. unfold purge_tombstones in Hp.
  set (dead := (List.filter (λ kp, is_deleted kp.2) (hash_iter (index x))).*1) in *.
  assert (x' = update_batch x ((λ k, (k, None)) <$> dead)) as -> by congruence.
  pose proof (update_batch_each x ((λ k, (k, None)) <$> dead) Hx) as E.
  pose proof (update_batch_inv x ((λ k, (k, None)) <$> dead) Hx) as Hinv.
  set (x2 := update_batch x _) in *.
  assert (index x2 = index (update_each x ((λ k, (k, None)) <$> dead))) as Hi by (unfold core in E; congruence).
  assert (∀ k, index x2 !! k = match index x !! k with Some p => if is_deleted p then None else Some p | None => None end) as Hlk.
  { intros k. rewrite Hi, update_each_index, foldl_delete_lookup. case_bool_decide as Hd.
    - apply list_elem_of_fmap in Hd as ([k' p] & -> & Hin). apply elem_of_List_filter in Hin as [Hin Hdel].
      rewrite hash_iter_perm, elem_of_map_to_list in Hin. cbn in *. by rewrite Hin, Hdel.
    - destruct (index x !! k) as [p|] eqn:Hp'; [|done]. destruct (is_deleted p) eqn:Hdel; [|done].
      destruct Hd. apply list_elem_of_fmap. exists (k, p). split; [done|]. apply elem_of_List_filter.
      by rewrite hash_iter_perm, elem_of_map_to_list. }
  split_and!; [done| |done].
  destruct Hinv as (Hs2 & Hl2 & _), Hx as (Hs & Hl & _). apply str_sorted_ext; [done..|].
  intros k. rewrite Hl2, Hl. unfold is_live. rewrite Hlk. destruct (index x !! k) as [p|]; [|done].
  by destruct p.
Qed.
End Iteration.
