(* ===== verification/PageCache.v ===== *)
(** * The page cache (src/memory/page_cache.rs)

    A byte-bounded cache of decoded segment blocks with an eviction queue and a
    reverse index from keys to queue positions.  Lookups never change what is
    cached, so a cache fed with the blocks of immutable segments is
    transparent; puts alone respect the byte bound.  Popping the queue does not
    renumber the reverse index, and a later hit then drops another key from the
    queue: its block can no longer be evicted and the bound is exceeded. *)

From stdpp Require Import prelude list gmap strings.
From Stdlib Require Import ZArith Lia.
From S2P Require Import Prelude RustStd.

Local Open Scope Z_scope.

Record BlockKey := mkBlockKey { bk_segment_id : Z; bk_offset : Z }.

#[export] Instance BlockKey_eq_dec : EqDecision BlockKey.
Proof. solve_decision. Defined.
#[export] Instance BlockKey_countable : Countable BlockKey.
Proof.
  apply (inj_countable' (λ k, (bk_segment_id k, bk_offset k)) (λ p, mkBlockKey p.1 p.2)).
  by intros [].
Defined.

Record PageCache := mkCache {
  max_bytes : Z;
  current_bytes : Z;
  order : list BlockKey;
  positions : gmap BlockKey nat;
  blocks : gmap BlockKey bytes }.

(** [PageCache::new]. *)
Definition cache_new (max : Z) : PageCache := mkCache max 0 [] ∅ ∅.

(** Renumbers the queue from position [i] on. *)
Fixpoint renumber (i : nat) (l : list BlockKey) (pos : gmap BlockKey nat) : gmap BlockKey nat :=
  match l with
  | [] => pos
  | k :: l => renumber (S i) l (<[k := i]> pos)
  end.

(** [PageCache::get]. *)
Definition cache_get (c : PageCache) (key : BlockKey) : option bytes * PageCache :=
  match blocks c !! key with
  | None => (None, c)
  | Some data =>
      (Some data,
       match positions c !! key with
       | Some pos =>
           if (pos + 1 =? length (order c))%nat then c
           else
             let o := vec_remove pos (order c) in
             let p := renumber pos (drop pos o) (positions c) in
             let o := o ++ [key] in
             mkCache (max_bytes c) (current_bytes c) o (<[key := (length o - 1)%nat]> p) (blocks c)
       | None => c
       end)
  end.

(** The eviction loop of [PageCache::put]: pop from the front until the block
    fits or the queue is empty. *)
Fixpoint evict (size max : Z) (o : list BlockKey) (current : Z) (pos : gmap BlockKey nat)
    (bl : gmap BlockKey bytes) : list BlockKey * Z * gmap BlockKey nat * gmap BlockKey bytes :=
  if max <? current + size then
    match o with
    | [] => ([], current, pos, bl)
    | victim :: o =>
        evict size max o
          (match bl !! victim with Some d => current - zlen d | None => current end)
          (delete victim pos) (delete victim bl)
    end
  else (o, current, pos, bl).

(** [PageCache::put]. *)
Definition cache_put (c : PageCache) (key : BlockKey) (data : bytes) : PageCache :=
  let size := zlen data in
  if max_bytes c <? size then c
  else
    let '(o, current, pos, bl) :=
      evict size (max_bytes c) (order c) (current_bytes c) (positions c) (blocks c) in
    let o := o ++ [key] in
    mkCache (max_bytes c) (current + size) o (<[key := (length o - 1)%nat]> pos) (<[key := data]> bl).

(** ** Transparency *)

(** Every cached block is the block of its key. *)
Definition coherent (f : BlockKey → bytes) (c : PageCache) : Prop :=
  ∀ k d, blocks c !! k = Some d → d = f k.

Lemma cache_get_blocks c k : blocks (cache_get c k).2 = blocks c.
Proof.
  unfold cache_get. destruct (blocks c !! k); [|done]. cbn.
  destruct (positions c !! k); [|done]. by split_if.
Qed.

Lemma evict_subseteq size max o cur pos bl o' cur' pos' bl' :
  evict size max o cur pos bl = (o', cur', pos', bl') → bl' ⊆ bl.
Proof.
  revert cur pos bl; induction o as [|v o IH]; intros cur pos bl; cbn [evict]; split_if; try by intros [= _ _ _ <-].
  intros Hev. etransitivity; [by eapply IH|]. apply delete_subseteq.
Qed.

Lemma cache_put_coherent f c k : coherent f c → coherent f (cache_put c k (f k)).
Proof.
  intros Hc. unfold cache_put. split_if; [done|].
  destruct (evict _ _ _ _ _ _) as [[[o cur] pos] bl] eqn:Hev. apply evict_subseteq in Hev.
  intros k' d. cbn [blocks]. rewrite lookup_insert_Some. intros [[<- <-]|[_ Hl]]; [done|].
  apply Hc. by eapply lookup_weaken.
Qed.

(** ** The byte count *)

Definition total_bytes (bl : gmap BlockKey bytes) : Z := map_fold (λ _ d acc, zlen d + acc) 0 bl.

Lemma total_bytes_insert bl k d : bl !! k = None → total_bytes (<[k:=d]> bl) = zlen d + total_bytes bl.
Proof. intros Hk. unfold total_bytes. rewrite map_fold_insert_L; [done|intros; lia|done]. Qed.

Lemma total_bytes_delete bl k d : bl !! k = Some d → total_bytes bl = zlen d + total_bytes (delete k bl).
Proof.
  intros Hk. rewrite <-(total_bytes_insert (delete k bl) k d) by apply lookup_delete_eq. by rewrite insert_delete_id.
Qed.

Lemma total_bytes_delete_le bl k : total_bytes (delete k bl) <= total_bytes bl.
Proof.
  destruct (bl !! k) as [d|] eqn:Hk; [|by rewrite delete_id].
  rewrite (total_bytes_delete _ _ _ Hk). pose proof (zlen_nonneg d). lia.
Qed.

Lemma total_bytes_insert_le bl k d : total_bytes (<[k:=d]> bl) <= zlen d + total_bytes bl.
Proof.
  rewrite <-insert_delete_eq, total_bytes_insert by apply lookup_delete_eq.
  pose proof (total_bytes_delete_le bl k). lia.
Qed.

(** The blocks never weigh more than [current_bytes], so the subtraction of the
    eviction loop never underflows. *)
Lemma evict_count size max o cur pos bl o' cur' pos' bl' :
  total_bytes bl <= cur → evict size max o cur pos bl = (o', cur', pos', bl') → total_bytes bl' <= cur'.
Proof.
  revert cur pos bl; induction o as [|v o IH]; intros cur pos bl Hle; cbn [evict]; split_if; try by intros [= _ <- _ <-].
  intros Hev. eapply IH; [|exact Hev]. destruct (bl !! v) as [d|] eqn:Hv.
  - rewrite (total_bytes_delete _ _ _ Hv) in Hle. lia.
  - by rewrite delete_id.
Qed.

Lemma cache_put_count c k d :
  total_bytes (blocks c) <= current_bytes c →
  total_bytes (blocks (cache_put c k d)) <= current_bytes (cache_put c k d).
Proof.
  intros Hle. unfold cache_put. split_if; [done|].
  destruct (evict _ _ _ _ _ _) as [[[o cur] pos] bl] eqn:Hev. apply evict_count in Hev; [|done].
  cbn [blocks current_bytes]. pose proof (total_bytes_insert_le bl k d). lia.
Qed.

(** ** The byte bound *)

(** Every cached block is in the eviction queue. *)
Definition covered (c : PageCache) : Prop := ∀ k, is_Some (blocks c !! k) → k ∈ order c.

Lemma evict_bound size max o cur pos bl o' cur' pos' bl' :
  (∀ k, is_Some (bl !! k) → k ∈ o) → total_bytes bl <= cur → size <= max →
  evict size max o cur pos bl = (o', cur', pos', bl') →
  (∀ k, is_Some (bl' !! k) → k ∈ o') ∧ total_bytes bl' + size <= max.
Proof.
  revert cur pos bl; induction o as [|v o IH]; intros cur pos bl Hcov Hle Hsz; cbn [evict]; split_if.
  - intros [= <- _ _ <-]. split; [done|]. assert (bl = ∅) as ->.
    { apply map_eq. intros k. rewrite lookup_empty. apply eq_None_not_Some. intros Hk.
      by apply (not_elem_of_nil k), Hcov. }
    change (total_bytes ∅) with 0. lia.
  - intros [= <- <- _ <-]. split; [done|lia].
  - intros Hev. eapply IH; [| |done|exact Hev].
    + intros k Hk. destruct (decide (k = v)) as [->|Hne]; [rewrite lookup_delete_eq in Hk; by destruct Hk|].
      rewrite lookup_delete_ne in Hk by done. apply Hcov in Hk. by apply elem_of_cons in Hk as [?|?].
    + destruct (bl !! v) as [d|] eqn:Hv; [rewrite (total_bytes_delete _ _ _ Hv) in Hle; lia|by rewrite delete_id].
  - intros [= <- <- _ <-]. split; [done|lia].
Qed.

Lemma cache_put_bound c k d :
  covered c → total_bytes (blocks c) <= current_bytes c → total_bytes (blocks c) <= max_bytes c →
  covered (cache_put c k d) ∧ total_bytes (blocks (cache_put c k d)) <= max_bytes (cache_put c k d).
Proof.
  intros Hcov Hle Hb. unfold cache_put. split_if; [done|].
  destruct (evict _ _ _ _ _ _) as [[[o cur] pos] bl] eqn:Hev.
  apply evict_bound in Hev as [Hcov' Hb']; [|done|done|lia]. split; cbn [blocks order max_bytes].
  - intros k' Hk'. unfold covered; cbn [order blocks] in *. rewrite elem_of_app, list_elem_of_singleton.
    destruct (decide (k' = k)) as [->|Hne]; [by right|]. left. apply Hcov'. by rewrite lookup_insert_ne in Hk'.
  - pose proof (total_bytes_insert_le bl k d). lia.
Qed.

(** Operations on a cache, for stating what any use of it guarantees. *)
Inductive CacheOp := CGet (k : BlockKey) | CPut (k : BlockKey) (d : bytes).
Definition run_op (c : PageCache) (o : CacheOp) : PageCache :=
  match o with CGet k => (cache_get c k).2 | CPut k d => cache_put c k d end.
Definition run_ops : PageCache → list CacheOp → PageCache := foldl run_op.

(** A use that exceeds the bound: the fourth put of a four-byte cache evicts the
    first block without renumbering, the hit on the second block then drops the
    third from the queue, and the last put cannot evict it. *)
Definition overflow_ops : list CacheOp :=
  let k n := mkBlockKey 0 n in
  [CPut (k 1) [0]; CPut (k 2) [0]; CPut (k 3) [0; 0]; CPut (k 4) [0]; CGet (k 2); CPut (k 5) [0; 0; 0]].

Lemma cache_bound_exceeded :
  let c := run_ops (cache_new 4) overflow_ops in max_bytes c < total_bytes (blocks c).
Proof. vm_compute. reflexivity. Qed.

(** Puts alone keep the bound. *)
Definition is_put (o : CacheOp) : bool := match o with CPut _ _ => true | _ => false end.

Lemma run_puts_bound max ops :
  0 <= max → forallb is_put ops = true → total_bytes (blocks (run_ops (cache_new max) ops)) <= max.
Proof.
  intros Hmax Hops. unfold run_ops.
  assert (∀ c, covered c → total_bytes (blocks c) <= current_bytes c → total_bytes (blocks c) <= max_bytes c →
    max_bytes c = max → total_bytes (blocks (foldl run_op c ops)) <= max) as Hgen.
  2: { apply Hgen; try done. intros k [? Hk]. cbn in Hk. by rewrite lookup_empty in Hk. }
  induction ops as [|o ops IH]; intros c Hcov Hle Hb Hm; cbn [foldl]; [lia|].
  cbn [forallb] in Hops. bool_simpl. destruct o as [|k d]; [done|]. cbn [run_op].
  destruct (cache_put_bound c k d Hcov Hle Hb). apply IH; try done; [by apply cache_put_count|].
  unfold cache_put. split_if; [done|]. by destruct (evict _ _ _ _ _ _) as [[[? ?] ?] ?].
Qed.
