(* ===== verification/Segment.v ===== *)
(** * Data segments and compaction (src/storage/segment.rs,
    src/storage/compaction.rs, src/memory/mmap_store.rs)

    A segment is an append-only file of length-prefixed payloads, optionally
    encrypted and compressed.  Reads go through the shared page cache, then
    through the memory map of the file as it was when opened, or through the
    file handle past it; the map and the handle show the same file.  The
    compressor is a third-party crate (a class with its law) behind a build
    feature. *)

From stdpp Require Import prelude list gmap strings.
From Stdlib Require Import ZArith Lia.
From S2P Require Import Prelude RustStd Error Crypto VFile PageCache StorageIndex.

Local Open Scope Z_scope.
Local Open Scope hako_scope.

(** The zstd crate and whether the build has it. *)
Class Zstd := {
  compression_feature : bool;
  zstd_encode : bytes → option bytes;
  zstd_decode : bytes → option bytes }.
Class ZstdLaws `{Zstd} :=
  zstd_decode_encode b c : zstd_encode b = Some c → zstd_decode c = Some b.

Section Segment_.
Context `{Zstd} {cipher : Type} `{Aead cipher}.

Record Segment := mkSegment {
  seg_file : option VFile;
  seg_store_size : Z;
  seg_store : bytes;
  segment_id : Z;
  seg_encryption : option (EncryptionContext cipher);
  seg_buffer : bytes;
  current_size : Z }.

Definition seg_with_file (f : option VFile) (s : Segment) : Segment :=
  mkSegment f (seg_store_size s) (seg_store s) (segment_id s) (seg_encryption s) (seg_buffer s) (current_size s).

(** [Segment::open] on the file found at the path. *)
Definition seg_open (disk : bytes) (id : Z) (enc : option (EncryptionContext cipher)) : Segment :=
  mkSegment (Some (mkFile disk 0 disk)) (zlen disk) disk id enc [] (zlen disk).

(** The payload written for a value. *)
Definition seg_payload (ctr : Z) (enc : option (EncryptionContext cipher)) (value : bytes) : Z * res bytes :=
  match enc with Some e => encrypt ctr e value | None => (ctr, Ok value) end.

(** The loop of [Segment::append_batch]: buffer, results, size, offset. *)
Fixpoint append_values (ctr : Z) (enc : option (EncryptionContext cipher)) (values : list bytes)
    (buf : bytes) (results : list (Z * Z)) (size off : Z)
  : Z * bytes * Z * res (list (Z * Z)) :=
  match values with
  | [] => (ctr, buf, size, Ok results)
  | value :: values =>
      match seg_payload ctr enc value with
      | (ctr, Ok payload) =>
          append_values ctr enc values (buf ++ to_le 4 (as_u32 (zlen payload)) ++ payload)
            (results ++ [(off, as_u32 (zlen payload))]) (size + (4 + zlen payload)) (off + (4 + zlen payload))
      | (ctr, Err e) => (ctr, buf, size, Err e)
      | (ctr, Panic) => (ctr, buf, size, Panic)
      end
  end.

(** [Segment::append_batch]. *)
Definition seg_append_batch (ctr : Z) (s : Segment) (values : list bytes)
  : Z * Segment * res (list (Z * Z)) :=
  match values with
  | [] => (ctr, s, Ok [])
  | _ =>
      match seg_file s with
      | None => (ctr, s, Panic)
      | Some f =>
          let f := f_seek (f_len f) f in
          match append_values ctr (seg_encryption s) values [] [] (current_size s) (cursor f) with
          | (ctr, buf, size, Ok results) =>
              (ctr, mkSegment (Some (f_write_all buf f)) (seg_store_size s) (seg_store s)
                 (segment_id s) (seg_encryption s) buf size, Ok results)
          | (ctr, buf, size, r) =>
              (ctr, mkSegment (Some f) (seg_store_size s) (seg_store s)
                 (segment_id s) (seg_encryption s) buf size, r)
          end
      end
  end.

(** [Segment::append]. *)
Definition seg_append (ctr : Z) (s : Segment) (value : bytes) : Z * Segment * res (Z * Z) :=
  match seg_append_batch ctr s [value] with
  | (ctr, s, Ok results) => (ctr, s, or_panic (last results))
  | (ctr, s, Err e) => (ctr, s, Err e)
  | (ctr, s, Panic) => (ctr, s, Panic)
  end.

(** [Segment::append_raw_with_len]. *)
Definition append_raw_with_len (s : Segment) (payload : bytes) (stored_len : Z) : Segment * res Z :=
  match seg_file s with
  | None => (s, Panic)
  | Some f =>
      let f := f_seek (f_len f) f in
      let offset := cursor f in
      (seg_with_file (Some (f_write_all payload (f_write_all (to_le 4 stored_len) f))) s, Ok offset)
  end.

(** [Segment::flush], [truncate], [close]. *)
Definition seg_flush (s : Segment) : res Segment :=
  f ← or_panic (seg_file s); Ok (seg_with_file (Some (f_sync f)) s).
Definition seg_truncate (s : Segment) : res Segment :=
  f ← or_panic (seg_file s); Ok (seg_with_file (Some (f_set_len 0 f)) s).
Definition seg_close (s : Segment) : Segment := seg_with_file None s.

(** [n] bytes at an offset; what the file does not hold stays zero. *)
Definition pread (c : bytes) (offset n : Z) : bytes :=
  let got := take (Z.to_nat n) (drop (Z.to_nat offset) c) in
  got ++ replicate (Z.to_nat n - length got) 0.

(** The memory map of the file as it was opened, shared with the file while
    that is open. *)
Definition mapped (s : Segment) : bytes :=
  match seg_file s with
  | Some f => contents f
  | None => seg_store s
  end.

(** [Segment::read_at] without the cache. *)
Definition seg_read (s : Segment) (offset stored_len : Z) : res bytes :=
  let is_compressed := Z.shiftr stored_len 31 =? 1 in
  let actual_payload_len := Z.land stored_len 0x7FFFFFFF in
  let total_to_read := 4 + actual_payload_len in
  buffer ← (if offset + total_to_read <=? seg_store_size s
            then Ok (pread (mapped s) offset total_to_read)
            else match seg_file s with
                 | Some f => Ok (pread (contents f) offset total_to_read)
                 | None => Err (StorageError "File closed")
                 end);
  let out := drop 4 buffer in
  out ← match seg_encryption s with Some e => decrypt e out | None => Ok out end;
  if is_compressed then
    if compression_feature then
      match zstd_decode out with
      | Some d => Ok d
      | None => Err (StorageError "Zstd fail")
      end
    else Err (StorageError "segment payload is zstd-compressed but this build lacks the `compression` feature")
  else Ok out.

(** [Segment::read_at]. *)
Definition read_at (c : PageCache) (s : Segment) (offset stored_len : Z) (use_cache : bool)
  : PageCache * res bytes :=
  let cache_key := mkBlockKey (segment_id s) offset in
  let '(hit, c) := if use_cache then cache_get c cache_key else (None, c) in
  match hit with
  | Some data => (c, Ok data)
  | None =>
      match seg_read s offset stored_len with
      | Ok out => (if use_cache then cache_put c cache_key out else c, Ok out)
      | r => (c, r)
      end
  end.

(** ** Compaction *)

(** The stored payload and length of one entry. *)
Definition compact_payload (ctr : Z) (enc : option (EncryptionContext cipher)) (use_compression : bool)
    (raw_value : bytes) : Z * res (bytes * Z) :=
  let '(final_payload, compression_bit) :=
    if compression_feature && use_compression && (2048 <? zlen raw_value) then
      match zstd_encode raw_value with
      | Some compressed =>
          if zlen compressed <? zlen raw_value then (compressed, Z.shiftl 1 31) else (raw_value, 0)
      | None => (raw_value, 0)
      end
    else (raw_value, 0) in
  match seg_payload ctr enc final_payload with
  | (ctr, Ok p) => (ctr, Ok (p, Z.lor (as_u32 (zlen p)) compression_bit))
  | (ctr, Err e) => (ctr, Err e)
  | (ctr, Panic) => (ctr, Panic)
  end.

(** The loop of [compact_segment]. *)
Fixpoint compact_loop (ctr : Z) (s : Segment) (entries : list (bytes * bytes)) (idx : gmap bytes Pointer)
    (sid : Z) (use_compression : bool) : Z * Segment * res (gmap bytes Pointer) :=
  match entries with
  | [] => (ctr, s, Ok idx)
  | (key, raw_value) :: entries =>
      match compact_payload ctr (seg_encryption s) use_compression raw_value with
      | (ctr, Ok (payload, stored_len)) =>
          match append_raw_with_len s payload stored_len with
          | (s, Ok offset) =>
              compact_loop ctr s entries (<[key := PSegment sid offset stored_len]> idx) sid use_compression
          | (s, Err e) => (ctr, s, Err e)
          | (s, Panic) => (ctr, s, Panic)
          end
      | (ctr, Err e) => (ctr, s, Err e)
      | (ctr, Panic) => (ctr, s, Panic)
      end
  end.

(** [compact_segment]: the new segment and the pointers into it. *)
Definition compact_segment (ctr : Z) (s : Segment) (entries : list (bytes * bytes)) (sid : Z) (use_compression : bool)
  : Z * Segment * res (gmap bytes Pointer) :=
  match seg_truncate s with
  | Ok s =>
      match compact_loop ctr s entries ∅ sid use_compression with
      | (ctr, s, Ok idx) =>
          match seg_flush s with
          | Ok s => (ctr, s, Ok idx)
          | Err e => (ctr, s, Err e)
          | Panic => (ctr, s, Panic)
          end
      | r => r
      end
  | Err e => (ctr, s, Err e)
  | Panic => (ctr, s, Panic)
  end.
End Segment_.

Arguments Segment : clear implicits.

Lemma pread_mid (a m b : bytes) off n : off = zlen a → n = zlen m → pread (a ++ m ++ b) off n = m.
Proof.
  intros -> ->. unfold pread, zlen. rewrite !Nat2Z.id, drop_app_length, take_app_length, Nat.sub_diag.
  apply app_nil_r.
Qed.
