(* ===== verification/SegmentFacts.v ===== *)
(** * Reading back from segments

    What [append_batch] and [compact_segment] write is read back, later appends
    do not disturb it, and the page cache is transparent on an append-only
    segment. *)

From stdpp Require Import prelude list gmap strings.
From Stdlib Require Import ZArith Lia.
From S2P Require Import Prelude RustStd Error Crypto VFile PageCache StorageIndex Segment DocFacts WalFacts.

Local Open Scope Z_scope.

Lemma pread_stable (c ext : bytes) off n :
  0 <= off → 0 <= n → off + n <= zlen c → pread (c ++ ext) off n = pread c off n.
Proof.
  intros Ho Hn Hle. unfold pread, zlen in *.
  rewrite drop_app_le by lia. rewrite take_app_le by (rewrite length_drop; lia). done.
Qed.

(** A write at the end of a file appends. *)
Lemma f_write_end f bs :
  f_write_all bs (f_seek (f_len f) f) = mkFile (contents f ++ bs) (f_len f + zlen bs) (synced f).
Proof.
  destruct f as [c cu sy]. unfold f_seek, f_len. cbn [contents cursor synced].
  pose proof (f_write_all_pad c 0 bs sy) as E. cbn [replicate] in E. rewrite !app_nil_r in E.
  rewrite E. f_equal. zlen.
Qed.

Section Facts.
Context `{ZstdLaws} {cipher : Type} `{AeadLaws cipher}.
Implicit Types (enc : option (EncryptionContext cipher)) (s : Segment cipher).

(** The payload stored for [v] under a stored length. *)
Definition payload_of enc (payload : bytes) (stored_len : Z) (v : bytes) : Prop :=
  Z.land stored_len 0x7FFFFFFF = zlen payload ∧
  match enc with Some e => decrypt e payload | None => Ok payload end ≫=
    (λ out, if Z.shiftr stored_len 31 =? 1 then
              if compression_feature then
                match zstd_decode out with Some d => Ok d | None => Err (StorageError "Zstd fail") end
              else Err (StorageError "segment payload is zstd-compressed but this build lacks the `compression` feature")
            else Ok out) = Ok v.

Lemma seg_read_at s f pre hdr payload post off stored_len v :
  seg_file s = Some f → contents f = pre ++ (hdr ++ payload) ++ post → zlen hdr = 4 →
  off = zlen pre → payload_of (seg_encryption s) payload stored_len v →
  seg_read s off stored_len = Ok v.
Proof.
  intros Hf Hc Hh -> [Hl Hp]. unfold seg_read, mapped. rewrite Hf, Hl, Hc.
  assert (pread (pre ++ (hdr ++ payload) ++ post) (zlen pre) (4 + zlen payload) = hdr ++ payload) as Hr
    by (apply pread_mid; zlen).
  match goal with |- context [if ?b then Ok (pread _ _ _) else _] => destruct b end; cbn beta iota;
    rewrite res_ok_bind, Hr, drop_app_length' by (unfold zlen in Hh; lia); exact Hp.
Qed.

Lemma seg_read_stable s s' f f' off stored_len ext :
  seg_file s = Some f → seg_file s' = Some f' → contents f' = contents f ++ ext →
  seg_encryption s' = seg_encryption s → 0 <= off →
  off + (4 + Z.land stored_len 0x7FFFFFFF) <= zlen (contents f) →
  seg_read s' off stored_len = seg_read s off stored_len.
Proof.
  intros Hf Hf' Hc He Ho Hle. unfold seg_read, mapped. rewrite Hf, Hf', He, Hc.
  assert (0 <= Z.land stored_len 0x7FFFFFFF) by (apply Z.land_nonneg; lia).
  rewrite pread_stable by lia. by repeat split_if.
Qed.

Lemma land_31 n : 0 <= n < 2 ^ 31 → Z.land n 0x7FFFFFFF = n ∧ Z.shiftr n 31 = 0.
Proof.
  intros Hn. change 0x7FFFFFFF with (Z.ones 31). rewrite Z.land_ones, Z.mod_small by lia.
  rewrite Z.shiftr_div_pow2, Z.div_small by lia. done.
Qed.

Lemma lor_bit31 n : 0 <= n < 2 ^ 31 → Z.land (Z.lor n (Z.shiftl 1 31)) 0x7FFFFFFF = n ∧ Z.shiftr (Z.lor n (Z.shiftl 1 31)) 31 = 1.
Proof.
  intros Hn. destruct (land_31 n Hn) as [H3 H4]. split.
  - rewrite Z.land_lor_distr_l, H3. change (Z.land (Z.shiftl 1 31) 0x7FFFFFFF) with 0. apply Z.lor_0_r.
  - by rewrite Z.shiftr_lor, H4.
Qed.

Lemma lor_bit31_u32 n : 0 <= n < 2 ^ 31 → is_u32 (Z.lor n (Z.shiftl 1 31)).
Proof.
  intros Hn. assert (0 <= Z.lor n (Z.shiftl 1 31)) by (apply Z.lor_nonneg; split; [lia|done]). split; [done|].
  assert (Z.shiftr (Z.lor n (Z.shiftl 1 31)) 32 = 0) as E.
  { rewrite Z.shiftr_lor, (Z.shiftr_div_pow2 n), Z.div_small by lia. done. }
  rewrite Z.shiftr_div_pow2 in E by lia. apply Z.div_small_iff in E; [|done]. change (2 ^ 32) with 4294967296 in *. lia.
Qed.

Lemma as_u32_is_u32 n : is_u32 (as_u32 n).
Proof. unfold is_u32, as_u32. apply Z.mod_pos_bound. lia. Qed.

(** A plain payload, as [append_batch] writes it. *)
Lemma seg_payload_ok ctr enc v ctr' payload :
  zlen v < 2 ^ 30 → seg_payload ctr enc v = (ctr', Ok payload) →
  zlen payload < 2 ^ 31 ∧ payload_of enc payload (as_u32 (zlen payload)) v.
Proof.
  intros Hv Hp. assert (zlen payload < 2 ^ 31) as Hl.
  { unfold seg_payload in Hp. destruct enc as [e|]; [apply encrypt_len in Hp; lia|]. injection Hp as _ <-. lia. }
  split; [done|]. pose proof (zlen_nonneg payload). rewrite as_u32_id by (unfold is_u32; lia).
  destruct (land_31 (zlen payload) ltac:(lia)) as [E1 E2]. split; [done|]. rewrite E2.
  unfold seg_payload in Hp. destruct enc as [e|].
  - by rewrite (decrypt_encrypt _ _ _ _ _ Hp).
  - by injection Hp as _ ->.
Qed.

(** The records appended by the loop of [append_batch]. *)
Lemma append_values_spec enc values ctr buf results size off ctr' buf' size' results' :
  Forall (λ v, zlen v < 2 ^ 30) values →
  append_values ctr enc values buf results size off = (ctr', buf', size', Ok results') →
  ∃ recs, buf' = buf ++ concat recs ∧ size' = size + zlen (concat recs) ∧
    ∃ new, results' = results ++ new ∧ length new = length values ∧
    ∀ i v, values !! i = Some v → ∃ o l payload post,
      new !! i = Some (o, l) ∧ concat recs = take (Z.to_nat (o - off)) (concat recs) ++ (to_le 4 l ++ payload) ++ post ∧
      off <= o ∧ o - off <= zlen (concat recs) ∧ is_u32 l ∧ payload_of enc payload l v.
Proof.
  intros Hv. revert ctr buf results size off; induction Hv as [|v values Hv Hvs IH]; intros ctr buf results size off;
    cbn [append_values].
  { intros [= <- <- <- <-]. exists []. rewrite app_nil_r. split_and!; [done|cbn [concat]; zlen|].
    exists []. by rewrite app_nil_r. }
  destruct (seg_payload ctr enc v) as [c [payload| |]] eqn:Hp; try done. intros Hrun.
  destruct (seg_payload_ok _ _ _ _ _ Hv Hp) as [Hlen Hpo].
  set (rec := to_le 4 (as_u32 (zlen payload)) ++ payload) in *.
  assert (zlen rec = 4 + zlen payload) as Hrec by (subst rec; zlen).
  apply IH in Hrun as (recs & -> & -> & new & -> & Hn & Hnew).
  exists (rec :: recs). cbn [concat]. split_and!; [by rewrite app_assoc|zlen|].
  exists ((off, as_u32 (zlen payload)) :: new). split_and!; [by rewrite <-app_assoc|cbn; lia|].
  intros [|i] w Hw; cbn in Hw.
  - injection Hw as <-. exists off, (as_u32 (zlen payload)), payload, (concat recs).
    split_and!; [done|by rewrite Z.sub_diag|lia|zlen|apply as_u32_is_u32|done].
  - destruct (Hnew i w Hw) as (o & l & pl & post & E1 & E2 & Ho & Hle & Hh & Hpl).
    exists o, l, pl, post. split_and!; [done| |zlen|zlen|done|done].
    rewrite E2 at 1. rewrite app_assoc. f_equal.
    replace (Z.to_nat (o - off)) with (length rec + Z.to_nat (o - (off + (4 + zlen payload))))%nat
      by (unfold zlen in *; lia).
    by rewrite take_app_add.
Qed.

(** The record of [v] at an offset: its length prefix, then its payload. *)
Definition rec_at s (off stored_len : Z) (v : bytes) : Prop :=
  ∃ f pre payload post, seg_file s = Some f ∧
    contents f = pre ++ (to_le 4 stored_len ++ payload) ++ post ∧ off = zlen pre ∧
    is_u32 stored_len ∧ payload_of (seg_encryption s) payload stored_len v.

Lemma rec_at_read s off l v : rec_at s off l v → seg_read s off l = Ok v.
Proof.
  intros (f & pre & payload & post & Hf & Hc & Ho & Hl & Hp).
  eapply (seg_read_at s f pre (to_le 4 l) payload post); done.
Qed.

(** The length prefix makes the record at an offset unique. *)
Lemma rec_at_unique s off l v l' v' : rec_at s off l v → rec_at s off l' v' → l' = l ∧ v' = v.
Proof.
  intros Hr Hr'. assert (l' = l) as ->.
  { destruct Hr as (f & pre & payload & post & Hf & Hc & Ho & Hl & _).
    destruct Hr' as (f' & pre' & payload' & post' & Hf' & Hc' & Ho' & Hl' & _).
    assert (f' = f) as -> by congruence. rewrite Hc in Hc'.
    apply app_inj_1 in Hc' as [_ Hc']; [|unfold zlen in *; lia]. rewrite <-!app_assoc in Hc'.
    apply app_inj_1 in Hc' as [E _]; [|done].
    apply (f_equal of_le) in E. by rewrite !of_le_to_le_u32 in E. }
  apply rec_at_read in Hr, Hr'. split; [done|congruence].
Qed.

(** A segment extended by appending. *)
Definition extends s s' : Prop :=
  ∃ f f' ext, seg_file s = Some f ∧ seg_file s' = Some f' ∧ contents f' = contents f ++ ext ∧
    seg_encryption s' = seg_encryption s ∧ segment_id s' = segment_id s.

Lemma extends_refl s : is_Some (seg_file s) → extends s s.
Proof. intros [f Hf]. exists f, f, []. by rewrite app_nil_r. Qed.

Lemma extends_trans s1 s2 s3 : extends s1 s2 → extends s2 s3 → extends s1 s3.
Proof.
  intros (f1 & f2 & x & E1 & E2 & E3 & E4 & E5) (g2 & f3 & y & F1 & F2 & F3 & F4 & F5).
  assert (g2 = f2) as -> by congruence. exists f1, f3, (x ++ y). split_and!; try congruence.
  by rewrite F3, E3, <-app_assoc.
Qed.

Lemma extends_file s s' : extends s s' → is_Some (seg_file s').
Proof. intros (f & f' & ext & _ & E & _). eauto. Qed.

Lemma rec_at_extends s s' off l v : extends s s' → rec_at s off l v → rec_at s' off l v.
Proof.
  intros (f0 & f' & ext & Hf0 & Hf' & Hc' & He & _) (f & pre & payload & post & Hf & Hc & Ho & Hl & Hp).
  assert (f0 = f) as -> by congruence. exists f', pre, payload, (post ++ ext). rewrite He.
  split_and!; try done. rewrite Hc', Hc. by rewrite <-!app_assoc.
Qed.

(** Appending a batch: every value reads back at its position, and every
    earlier record is kept. *)
Lemma seg_append_batch_reads ctr s values ctr' s' results :
  is_Some (seg_file s) → Forall (λ v, zlen v < 2 ^ 30) values →
  seg_append_batch ctr s values = (ctr', s', Ok results) →
  extends s s' ∧ length results = length values ∧
  (∀ i v, values !! i = Some v → ∃ off len, results !! i = Some (off, len) ∧ rec_at s' off len v).
Proof.
  intros [f Hf] Hv. unfold seg_append_batch. destruct values as [|v0 values0].
  { intros [= <- <- <-]. split_and!; [apply extends_refl; eauto|done|done]. }
  set (values := v0 :: values0) in *. rewrite Hf. cbn [f_seek cursor].
  destruct (append_values _ _ _ _ _ _ _) as [[[c buf] size] [res1| |]] eqn:Hrun; try done.
  intros [= <- <- <-]. rewrite f_write_end.
  destruct (append_values_spec _ _ _ _ _ _ _ _ _ _ _ Hv Hrun) as (recs & -> & _ & new & -> & Hn & Hnew).
  cbn [app] in *. set (f' := mkFile _ _ _).
  split_and!; [|done|].
  - exists f, f', (concat recs). done.
  - intros i v Hi. destruct (Hnew i v Hi) as (o & l & payload & post & E1 & E2 & Ho & Hle & Hl & Hp).
    exists o, l. split; [done|].
    exists f', (contents f ++ take (Z.to_nat (o - f_len f)) (concat recs)), payload, post.
    split_and!; [done| | |done|exact Hp]; cbn [contents f'].
    + rewrite <-app_assoc. f_equal. exact E2.
    + unfold f_len in *. rewrite zlen_app. unfold zlen in *. rewrite length_take. lia.
Qed.

(** One compacted entry. *)
Lemma compact_payload_ok ctr enc uc v ctr' payload stored_len :
  zlen v < 2 ^ 30 → compact_payload ctr enc uc v = (ctr', Ok (payload, stored_len)) →
  payload_of enc payload stored_len v ∧ is_u32 stored_len.
Proof.
  intros Hv. unfold compact_payload.
  assert (∀ fp bit, zlen fp < 2 ^ 30 →
    (match seg_payload ctr enc fp with
     | (ctr, Ok p) => (ctr, Ok (p, Z.lor (as_u32 (zlen p)) bit))
     | (ctr, Err e) => (ctr, Err e)
     | (ctr, Panic) => (ctr, Panic)
     end) = (ctr', Ok (payload, stored_len)) →
    stored_len = Z.lor (zlen payload) bit ∧ zlen payload < 2 ^ 31 ∧ payload_of enc payload (zlen payload) fp) as Hgen.
  { intros fp bit Hfp. destruct (seg_payload ctr enc fp) as [c [p| |]] eqn:Hp; try done.
    intros [= <- <- <-]. destruct (seg_payload_ok _ _ _ _ _ Hfp Hp) as [Hl Hpo]. pose proof (zlen_nonneg p).
    rewrite as_u32_id in * by (unfold is_u32; lia). done. }
  assert (zlen payload < 2 ^ 31 → is_u32 (zlen payload)) as Hu32.
  { pose proof (zlen_nonneg payload). unfold is_u32. lia. }
  destruct (compression_feature && uc && (2048 <? zlen v)) eqn:Hc.
  2: { intros E. apply (Hgen v 0 Hv) in E as (-> & Hl & Hpo). rewrite Z.lor_0_r. by split; [|apply Hu32]. }
  destruct (zstd_encode v) as [comp|] eqn:Hz.
  2: { intros E. apply (Hgen v 0 Hv) in E as (-> & Hl & Hpo). rewrite Z.lor_0_r. by split; [|apply Hu32]. }
  split_if.
  2: { intros E. apply (Hgen v 0 Hv) in E as (-> & Hl & Hpo). rewrite Z.lor_0_r. by split; [|apply Hu32]. }
  intros E. apply Hgen in E as (-> & Hl & [_ Hpo]); [|lia]. pose proof (zlen_nonneg payload).
  destruct (lor_bit31 (zlen payload) ltac:(lia)) as [E1 E2]. destruct (land_31 (zlen payload) ltac:(lia)) as [_ E3].
  split; [|by apply lor_bit31_u32]. split; [done|]. rewrite E2. rewrite E3 in Hpo. cbn [Z.eqb Pos.eqb] in *.
  destruct (match enc with Some e => decrypt e payload | None => Ok payload end) as [out| |]; try done.
  rewrite res_ok_bind in Hpo |- *. injection Hpo as ->. bool_simpl.
  match goal with Hcf : compression_feature = true |- _ => rewrite Hcf end. by rewrite (zstd_decode_encode _ _ Hz).
Qed.

Lemma append_raw_reads s payload stored_len v s' off :
  is_Some (seg_file s) → payload_of (seg_encryption s) payload stored_len v → is_u32 stored_len →
  append_raw_with_len s payload stored_len = (s', Ok off) →
  rec_at s' off stored_len v ∧ extends s s'.
Proof.
  intros [f Hf] Hp Hu. unfold append_raw_with_len. rewrite Hf. intros Hap.
  assert (s' = seg_with_file (Some (f_write_all payload (f_write_all (to_le 4 stored_len) (f_seek (f_len f) f)))) s)
    as -> by congruence.
  assert (off = f_len f) as -> by (unfold f_seek in Hap; cbn [cursor] in Hap; congruence).
  rewrite f_write_end.
  set (f1 := mkFile (contents f ++ to_le 4 stored_len) (f_len f + zlen (to_le 4 stored_len)) (synced f)).
  assert (f1 = f_seek (f_len f1) f1) as ->.
  { subst f1. unfold f_seek, f_len. cbn [contents synced]. f_equal. zlen. }
  rewrite f_write_end. set (f2 := mkFile _ _ _).
  assert (contents f2 = contents f ++ (to_le 4 stored_len ++ payload)) as Hc2 by (subst f2 f1; cbn; by rewrite <-app_assoc).
  split.
  - exists f2, (contents f), payload, []. split_and!; try done. by rewrite app_nil_r.
  - by exists f, f2, (to_le 4 stored_len ++ payload).
Qed.

(** Compaction: every entry has a record behind its new pointer. *)
Lemma compact_loop_reads entries ctr s idx sid uc ctr' s' idx' :
  is_Some (seg_file s) → Forall (λ kv, zlen kv.2 < 2 ^ 30) entries → NoDup entries.*1 →
  compact_loop ctr s entries idx sid uc = (ctr', s', Ok idx') →
  extends s s' ∧
  (∀ k v, (k, v) ∈ entries → ∃ off len, idx' !! k = Some (PSegment sid off len) ∧ rec_at s' off len v) ∧
  (∀ k, k ∉ entries.*1 → idx' !! k = idx !! k).
Proof.
  revert ctr s idx; induction entries as [|[k v] entries IH]; intros ctr s idx Hf Hv Hnd; cbn [compact_loop].
  { intros [= <- <- <-]. split_and!; [by apply extends_refl| |done]. by intros ? ? ?%not_elem_of_nil. }
  apply Forall_cons in Hv as [Hv Hvs]. rewrite fmap_cons in *. apply NoDup_cons in Hnd as [Hni Hnd].
  destruct (compact_payload _ _ _ _) as [c [[payload sl]| |]] eqn:Hcp; try done.
  destruct (append_raw_with_len s payload sl) as [s1 [off| |]] eqn:Hap; try done. intros Hrun.
  destruct (compact_payload_ok _ _ _ _ _ _ _ Hv Hcp) as [Hpo Hu].
  destruct (append_raw_reads _ _ _ _ _ _ Hf Hpo Hu Hap) as [Hr Hx].
  destruct (IH _ _ _ (extends_file _ _ Hx) Hvs Hnd Hrun) as (IH0 & IH1 & IH2).
  split_and!; [by eapply extends_trans| |].
  - intros k' v' Hk. apply elem_of_cons in Hk as [[= -> ->]|Hk]; [|by apply IH1].
    exists off, sl. split; [by rewrite IH2, lookup_insert_eq|]. by eapply rec_at_extends.
  - intros k' Hk. apply not_elem_of_cons in Hk as [Hne Hk]. rewrite IH2 by done. by rewrite lookup_insert_ne.
Qed.

Lemma compact_segment_reads entries ctr s sid uc ctr' s' m :
  is_Some (seg_file s) → Forall (λ kv, zlen kv.2 < 2 ^ 30) entries → NoDup entries.*1 →
  compact_segment ctr s entries sid uc = (ctr', s', Ok m) →
  is_Some (seg_file s') ∧ segment_id s' = segment_id s ∧
  (∀ k v, (k, v) ∈ entries → ∃ off len, m !! k = Some (PSegment sid off len) ∧ rec_at s' off len v) ∧
  (∀ k, k ∉ entries.*1 → m !! k = None).
Proof.
  intros [f Hf] Hv Hnd. unfold compact_segment, seg_truncate. rewrite Hf. cbn [or_panic]. rewrite res_ok_bind.
  destruct (compact_loop _ _ _ _ _ _) as [[c s1] [m1| |]] eqn:Hrun; try done.
  apply compact_loop_reads in Hrun as (Hx & Hr & Hn); [|by eexists|done|done].
  destruct (extends_file _ _ Hx) as [f1 Hf1]. unfold seg_flush. rewrite Hf1. cbn [or_panic]. rewrite res_ok_bind.
  intros [= <- <- <-]. split_and!; [by eexists| | |].
  - destruct Hx as (? & ? & ? & _ & _ & _ & _ & E). exact E.
  - intros k v Hk. destruct (Hr k v Hk) as (off & len & Hm & (f2 & pre & payload & post & Hf2 & Hrest)).
    exists off, len. split; [done|]. assert (f2 = f1) as -> by congruence.
    exists (f_sync f1), pre, payload, post. split; [done|exact Hrest].
  - intros k Hk. by rewrite Hn.
Qed.
End Facts.
