(* ===== verification/Blob.v ===== *)
(** * Blob side storage (src/storage/blob.rs)

    Large string and binary fields of a document are moved to an append-style
    blob file: extents are reserved by bumping an atomic size, the field becomes
    a link, and the bytes are written later.  Extents never overlap, so writing
    the work items in any file order restores every field. *)

From stdpp Require Import prelude list gmap strings.
From Stdlib Require Import ZArith Lia.
From S2P Require Import Prelude RustStd Error Value Doc VFile Segment.

Local Open Scope Z_scope.
Local Open Scope hako_scope.

Record BlobManager := mkBlob { blob_file : bytes; blob_size : Z }.

Inductive BlobWork :=
| BPutRaw (collection key skeleton : bytes) (offset : Z) (data : bytes) (timestamp len : Z)
| BPut (collection key data : bytes).

(** [Value::len_bytes]. *)
Definition len_bytes (v : Value) : Z :=
  match v with String s => zlen s | Binary b => zlen b | _ => 0 end.

(** The bytes of a string or binary value. *)
Definition raw_bytes (v : Value) : option bytes :=
  match v with String s => Some s | Binary b => Some b | _ => None end.

(** [reserve_raw] / [reserve_len]: [fetch_add] returns the old size. *)
Definition reserve_raw (b : BlobManager) (len : Z) : BlobManager * Z :=
  (mkBlob (blob_file b) (as_u64 (blob_size b + len)), blob_size b).

(** [read_at]: the lost-blob marker reads as empty, past the end as zeros. *)
Definition blob_read_at (b : BlobManager) (offset len : Z) : bytes :=
  if offset =? 2 ^ 64 - 1 then [] else pread (blob_file b) offset len.

(** [write_at] ([write_all_at]): a gap is filled with zeros. *)
Definition pwrite (c data : bytes) (offset : Z) : bytes :=
  match data with
  | [] => c
  | _ =>
      let n := Z.to_nat offset in
      take n c ++ replicate (n - length c) 0 ++ data ++ drop (n + length data) c
  end.
Definition blob_write_at (b : BlobManager) (data : bytes) (offset : Z) : BlobManager :=
  mkBlob (pwrite (blob_file b) data offset) (blob_size b).

(** The field loop of [extract_blobs]: links, work items with an empty
    skeleton, and the manager. *)
Fixpoint extract_fields (b : BlobManager) (collection key : bytes) (fs : list (bytes * Value))
    (time threshold : Z) : BlobManager * list (bytes * Value) * list BlobWork :=
  match fs with
  | [] => (b, [], [])
  | (name, value) :: fs =>
      match (if threshold <? len_bytes value then raw_bytes value else None) with
      | Some raw =>
          let len := as_u32 (len_bytes value) in
          let '(b, offset) := reserve_raw b len in
          let '(b, fs, work) := extract_fields b collection key fs time threshold in
          (b, (name, BlobLink offset len) :: fs,
           BPutRaw collection key [] offset raw time len :: work)
      | None =>
          let '(b, fs, work) := extract_fields b collection key fs time threshold in
          (b, (name, value) :: fs, work)
      end
  end.

(** Sets the skeleton of the last work item. *)
Definition set_last_skeleton (sk : bytes) (work : list BlobWork) : list BlobWork :=
  match last work with
  | Some (BPutRaw c k _ o d t l) => take (length work - 1) work ++ [BPutRaw c k sk o d t l]
  | _ => work
  end.

(** [extract_blobs]. *)
Definition extract_blobs (b : BlobManager) (collection key : bytes) (doc : HakoDoc) (threshold : Z)
  : BlobManager * HakoDoc * list BlobWork :=
  let '(b, fs, work) := extract_fields b collection key (fields doc) (_time doc) threshold in
  let doc := mkDoc fs (_time doc) in
  (b, doc, match work with [] => [] | _ => set_last_skeleton (encode doc) work end).

(** [extract_patch_blobs]. *)
Fixpoint extract_patch_blobs (b : BlobManager) (collection : bytes) (doc : HakoDoc)
    (updates : list (bytes * Value)) (threshold : Z) : BlobManager * HakoDoc * list BlobWork :=
  match updates with
  | [] => (b, doc, [])
  | (k, v) :: updates =>
      match (if threshold <? len_bytes v then raw_bytes v else None) with
      | Some raw =>
          let payload_len := as_u32 (len_bytes v) in
          let '(b, offset) := reserve_raw b payload_len in
          let '(b, doc', work) :=
            extract_patch_blobs b collection (doc_insert doc k (BlobLink offset payload_len)) updates threshold in
          (b, doc', BPutRaw collection [] [] offset raw (_time doc) payload_len :: work)
      | None => extract_patch_blobs b collection (doc_insert doc k v) updates threshold
      end
  end.

(** [extract_blobs_placeholder]: links to the lost-blob marker. *)
Definition extract_blobs_placeholder (doc : HakoDoc) (threshold : Z) : HakoDoc :=
  mkDoc ((λ kv, if threshold <? len_bytes kv.2
                then (kv.1, BlobLink (2 ^ 64 - 1) (as_u32 (len_bytes kv.2))) else kv) <$> fields doc)
    (_time doc).

(** ** Restoring the fields *)

(** The writes of the background worker for the raw items. *)
Definition write_work (b : BlobManager) (w : BlobWork) : BlobManager :=
  match w with
  | BPutRaw _ _ _ offset data _ _ => blob_write_at b data offset
  | BPut _ _ _ => b
  end.

(** A field is restored when its link reads the original bytes. *)
Definition restored (b : BlobManager) (old new : bytes * Value) : Prop :=
  new = old ∨ ∃ o l raw, raw_bytes old.2 = Some raw ∧ new = (old.1, BlobLink o l) ∧ blob_read_at b o l = raw.

Lemma pwrite_end c data : pwrite c data (zlen c) = c ++ data.
Proof.
  destruct data as [|d data]; [by rewrite app_nil_r|]. unfold pwrite. set (w := d :: data).
  unfold zlen. rewrite Nat2Z.id, Nat.sub_diag, take_ge by done.
  rewrite drop_ge by lia. cbn [replicate app]. by rewrite app_nil_r.
Qed.

(** The raw bytes of the extracted fields. *)
Definition work_data (w : BlobWork) : bytes :=
  match w with BPutRaw _ _ _ _ data _ _ => data | BPut _ _ data => data end.

(** The file takes no part in extraction. *)
Lemma extract_fields_file b c k fs t th :
  extract_fields b c k fs t th
  = let '(x, y, z) := extract_fields (mkBlob [] (blob_size b)) c k fs t th in (mkBlob (blob_file b) (blob_size x), y, z).
Proof.
  revert b; induction fs as [|[n v] fs IH]; intros b; cbn [extract_fields]; [by destruct b|].
  destruct (if th <? len_bytes v then _ else _).
  - unfold reserve_raw. cbn [blob_file blob_size]. rewrite (IH (mkBlob _ _)). cbn [blob_file blob_size].
    by destruct (extract_fields _ c k fs t th) as [[? ?] ?].
  - rewrite IH. cbn [blob_size]. by destruct (extract_fields _ c k fs t th) as [[? ?] ?].
Qed.

Lemma extract_fields_at b b' c k fs t th b2 fs2 work :
  blob_size b = blob_size b' → extract_fields b c k fs t th = (b2, fs2, work) →
  blob_file b2 = blob_file b ∧
  extract_fields b' c k fs t th = (mkBlob (blob_file b') (blob_size b2), fs2, work).
Proof.
  intros E. rewrite extract_fields_file, (extract_fields_file b'), E.
  destruct (extract_fields (mkBlob [] _) c k fs t th) as [[? ?] ?]. by intros [= <- <- <-].
Qed.

Lemma write_work_file l x y :
  blob_file x = blob_file y → blob_file (foldl write_work x l) = blob_file (foldl write_work y l).
Proof.
  revert x y; induction l as [|w l IH]; intros x y E; cbn [foldl]; [done|].
  apply IH. destruct w; cbn; by rewrite E.
Qed.

(** Extraction reserves consecutive extents from the end of the file; writing
    the items appends their bytes, and every link reads its field. *)
Lemma extract_fields_write fs b c k t th b' fs' work :
  zlen (blob_file b) = blob_size b →
  Forall (λ kv, zlen (default [] (raw_bytes kv.2)) < 2 ^ 32) fs →
  blob_size b + zlen (concat ((λ kv, default [] (raw_bytes kv.2)) <$> fs)) < 2 ^ 63 →
  extract_fields b c k fs t th = (b', fs', work) →
  blob_size b' = blob_size b + zlen (concat (work_data <$> work)) ∧
  blob_file (foldl write_work b work) = blob_file b ++ concat (work_data <$> work) ∧
  (∀ file ext, file = blob_file b ++ concat (work_data <$> work) ++ ext →
     Forall2 (restored (mkBlob file 0)) fs fs').
Proof.
  revert b b' fs' work; induction fs as [|[name v] fs IH]; intros b b' fs' work Hsz Hv Htot; cbn [extract_fields].
  { intros [= <- <- <-]. cbn [fmap list_fmap concat foldl]. rewrite app_nil_r. split_and!; [zlen|done|]. constructor. }
  apply Forall_cons in Hv as [Hv Hvs]. rewrite fmap_cons in Htot. cbn [concat fst snd] in *.
  pose proof (zlen_nonneg (blob_file b)) as Hnn. rewrite zlen_app in Htot.
  destruct (if th <? len_bytes v then raw_bytes v else None) as [raw|] eqn:Hraw.
  - assert (raw_bytes v = Some raw ∧ len_bytes v = zlen raw) as [Hr Hl].
    { destruct (th <? len_bytes v); [|done]. split; [done|]. destruct v; cbn in *; congruence. }
    rewrite Hr in Hv, Htot. cbn [from_option id] in Hv, Htot. pose proof (zlen_nonneg raw).
    pose proof (zlen_nonneg (concat ((λ kv : bytes * Value, default [] (raw_bytes kv.2)) <$> fs))).
    unfold reserve_raw. rewrite Hl, as_u32_id by (unfold is_u32; lia). rewrite as_u64_id by (unfold is_u64; lia).
    destruct (extract_fields (mkBlob _ _) c k fs t th) as [[b2 fs2] work2] eqn:Hrun. intros [= <- <- <-].
    set (b1 := mkBlob (blob_file b ++ raw) (blob_size b + zlen raw)).
    destruct (extract_fields_at (mkBlob (blob_file b) (blob_size b + zlen raw)) b1 _ _ _ _ _ _ _ _ eq_refl Hrun) as [_ Hrun'].
    destruct (IH b1 _ _ _ ltac:(cbn; zlen) Hvs ltac:(cbn; lia) Hrun') as (E2 & E3 & E4).
    cbn [blob_size blob_file b1] in E2, E3, E4. rewrite fmap_cons. cbn [concat work_data foldl write_work].
    split_and!; [rewrite E2; zlen| |].
    + rewrite app_assoc, <-E3. apply write_work_file. unfold blob_write_at. by rewrite <-Hsz, pwrite_end.
    + intros file ext ->. constructor; [|apply (E4 _ ext); by rewrite <-!app_assoc].
      right. exists (blob_size b), (zlen raw), raw. split_and!; [done|done|].
      unfold blob_read_at. cbn [blob_file]. split_if; [lia|]. rewrite <-app_assoc. by apply pread_mid.
  - destruct (extract_fields b c k fs t th) as [[b2 fs2] work2] eqn:Hrun. intros [= <- <- <-].
    pose proof (zlen_nonneg (default [] (raw_bytes v))).
    destruct (IH b _ _ _ Hsz Hvs ltac:(lia) Hrun) as (E2 & E3 & E4).
    split_and!; try done. intros file ext Hf. constructor; [by left|by apply (E4 _ ext)].
Qed.

Lemma set_last_skeleton_file sk work b :
  blob_file (foldl write_work b (set_last_skeleton sk work)) = blob_file (foldl write_work b work).
Proof.
  unfold set_last_skeleton. destruct work as [|w l _] using rev_ind; [done|]. rewrite last_snoc.
  destruct w as [c k s o d t n|]; [|done]. rewrite length_app. cbn [length].
  rewrite Nat.add_sub, take_app_length, !foldl_app. done.
Qed.
