(* ===== verification/Storage.v ===== *)
(** * The storage engine of a collection (src/storage/engine.rs)

    [StorageEngine]: the index (StorageIndex.v), the log (Wal.v), the segments
    with their shared cache (Segment.v, PageCache.v) and the blob file (Blob.v),
    with the operations that combine them: recovery, batches, reads, rotation,
    checkpoints, compaction, log rewriting, maintenance.

    Operations thread the engine state and return a [res]; on an error the
    state is the one the code leaves behind.  The clock readings are arguments.
    Segment files that are deleted leave the map; a new segment starts from an
    empty file, since its number was never used. *)

From stdpp Require Import prelude list gmap strings.
From Stdlib Require Import ZArith Lia.
From S2P Require Import Prelude RustStd Error Config Crypto VFile Doc Wal PageCache StorageIndex Segment Blob.

Local Open Scope Z_scope.
Local Open Scope hako_scope.

(** ** State and errors *)

Definition SR (S A : Type) : Type := S → S * res A.

Section StateRes.
Context {S : Type}.
#[global] Instance SR_ret : MRet (SR S) := λ A a s, (s, Ok a).
#[global] Instance SR_bind : MBind (SR S) := λ A B f m s,
  match m s with
  | (s, Ok a) => f a s
  | (s, Err e) => (s, Err e)
  | (s, Panic) => (s, Panic)
  end.
Definition get_st : SR S S := λ s, (s, Ok s).
Definition modify (f : S → S) : SR S unit := λ s, (f s, Ok tt).
Definition fail {A} (e : HakoError) : SR S A := λ s, (s, Err e).
Definition lift {A} (r : res A) : SR S A := λ s, (s, r).
End StateRes.

Section Engine.
Context `{Crc} `{Zstd} `{HashIter} {cipher : Type} `{Aead cipher}.

Inductive StorageMutation :=
| MPut (key value : bytes)
| MDelete (key : bytes).

Record StorageEngine := mkEngine {
  segments : gmap Z (Z * Segment cipher);
  active_segment_id : Z;
  next_segment_id : Z;
  wal : Wal cipher;
  nonce_ctr : Z;
  next_tx_id : Z;
  compaction_threshold_bytes : Z;
  e_encryption : option (EncryptionContext cipher);
  max_inlined_bytes : Z;
  blob_threshold : Z;
  e_use_compression : bool;
  cache : PageCache;
  idx : Index;
  blob_manager : option BlobManager;
  blob_flush_queue : list BlobWork }.

Definition e_with_idx (x : Index) (e : StorageEngine) : StorageEngine :=
  mkEngine (segments e) (active_segment_id e) (next_segment_id e) (wal e) (nonce_ctr e) (next_tx_id e)
    (compaction_threshold_bytes e) (e_encryption e) (max_inlined_bytes e) (blob_threshold e)
    (e_use_compression e) (cache e) x (blob_manager e) (blob_flush_queue e).
Definition e_with_wal (w : Wal cipher) (c : Z) (e : StorageEngine) : StorageEngine :=
  mkEngine (segments e) (active_segment_id e) (next_segment_id e) w c (next_tx_id e)
    (compaction_threshold_bytes e) (e_encryption e) (max_inlined_bytes e) (blob_threshold e)
    (e_use_compression e) (cache e) (idx e) (blob_manager e) (blob_flush_queue e).
Definition e_with_segments (s : gmap Z (Z * Segment cipher)) (active next : Z) (e : StorageEngine)
  : StorageEngine :=
  mkEngine s active next (wal e) (nonce_ctr e) (next_tx_id e)
    (compaction_threshold_bytes e) (e_encryption e) (max_inlined_bytes e) (blob_threshold e)
    (e_use_compression e) (cache e) (idx e) (blob_manager e) (blob_flush_queue e).
(** The number of the next transaction, a [u64] that wraps around. *)
Definition e_with_tx (t : Z) (e : StorageEngine) : StorageEngine :=
  mkEngine (segments e) (active_segment_id e) (next_segment_id e) (wal e) (nonce_ctr e) (as_u64 t)
    (compaction_threshold_bytes e) (e_encryption e) (max_inlined_bytes e) (blob_threshold e)
    (e_use_compression e) (cache e) (idx e) (blob_manager e) (blob_flush_queue e).
Definition e_with_cache (c : PageCache) (e : StorageEngine) : StorageEngine :=
  mkEngine (segments e) (active_segment_id e) (next_segment_id e) (wal e) (nonce_ctr e) (next_tx_id e)
    (compaction_threshold_bytes e) (e_encryption e) (max_inlined_bytes e) (blob_threshold e)
    (e_use_compression e) c (idx e) (blob_manager e) (blob_flush_queue e).
Definition e_with_blobs (b : option BlobManager) (q : list BlobWork) (e : StorageEngine) : StorageEngine :=
  mkEngine (segments e) (active_segment_id e) (next_segment_id e) (wal e) (nonce_ctr e) (next_tx_id e)
    (compaction_threshold_bytes e) (e_encryption e) (max_inlined_bytes e) (blob_threshold e)
    (e_use_compression e) (cache e) (idx e) b q.
Definition e_with_ctr (c : Z) (e : StorageEngine) : StorageEngine := e_with_wal (wal e) c e.

Abbreviation EM := (SR StorageEngine).

(** An operation of the log run on the engine's log and nonce counter. *)
Definition on_wal (f : Z → Wal cipher → Z * Wal cipher * res unit) : EM unit := λ e,
  let '(c, w, r) := f (nonce_ctr e) (wal e) in (e_with_wal w c e, r).
Definition wal_step (f : Wal cipher → Wal cipher) : EM unit :=
  modify (λ e, e_with_wal (f (wal e)) (nonce_ctr e) e).

(** ** Reading *)

(** [read_pointer_internal]: the page cache behind the lock may change. *)
Definition read_pointer_internal (pointer : Pointer) (use_cache : bool) : EM (option bytes) := λ e,
  match pointer with
  | PBlobPending doc => (e, Ok (Some (encode doc)))
  | PInlined data => (e, Ok (Some data))
  | PBlob offset len =>
      (e, bm ← or_panic (blob_manager e); Ok (Some (blob_read_at bm offset len)))
  | PBlobPendingData data _ => (e, Ok (Some data))
  | PSegment sid offset len =>
      match segments e !! sid with
      | None => (e, Ok None)
      | Some (_, seg) =>
          let '(c, r) := read_at (cache e) seg offset len use_cache in
          (e_with_cache c e, out ← r; Ok (Some out))
      end
  | PDeleted _ => (e, Ok None)
  end.

Definition read_pointer (pointer : Pointer) : EM (option bytes) := read_pointer_internal pointer true.
Definition read_pointer_uncached (pointer : Pointer) : EM (option bytes) := read_pointer_internal pointer false.

(** [read_pointer_shared]: the same bytes, shared where they are resident. *)
Definition read_pointer_shared (pointer : Pointer) : EM (option bytes) :=
  match pointer with
  | PInlined shared => mret (Some shared)
  | PBlobPendingData data _ => mret (Some data)
  | PBlobPending doc => mret (Some (encode doc))
  | PDeleted _ => mret None
  | other => read_pointer_internal other true
  end.

(** [StorageEngine::get], [get_shared], [read_pointer_uncached_by_key]. *)
Definition engine_get (key : bytes) : EM (option bytes) :=
  e ← get_st;
  match index (idx e) !! key with
  | Some (PDeleted _) => mret None
  | Some pointer => read_pointer_internal pointer true
  | None => mret None
  end.
Definition get_shared (key : bytes) : EM (option bytes) :=
  e ← get_st;
  match index (idx e) !! key with
  | Some (PDeleted _) => mret None
  | Some pointer => read_pointer_shared pointer
  | None => mret None
  end.
Definition read_pointer_uncached_by_key (key : bytes) : EM (option bytes) :=
  e ← get_st;
  match index (idx e) !! key with
  | None => mret None
  | Some pointer => read_pointer_internal pointer false
  end.

(** The loop of [scan_prefix] over the entries of the index. *)
Fixpoint scan_entries (prefix : bytes) (entries : list (bytes * Pointer)) : EM (list (bytes * bytes)) :=
  match entries with
  | [] => mret []
  | (key, pointer) :: entries =>
      if is_deleted pointer then scan_entries prefix entries
      else if negb (bool_decide (prefix = [])) && negb (starts_with key prefix) then scan_entries prefix entries
      else
        v ← read_pointer pointer;
        rest ← scan_entries prefix entries;
        mret (match v with Some value => (key, value) :: rest | None => rest end)
  end.
Definition scan_prefix (prefix : bytes) : EM (list (bytes * bytes)) :=
  e ← get_st; scan_entries prefix (hash_iter (index (idx e))).

(** ** Segments *)

(** A new empty segment of a level becomes a member; its number is the next. *)
Definition fresh_segment (e : StorageEngine) : Segment cipher :=
  seg_open [] (next_segment_id e) (e_encryption e).

(** [maybe_rotate_active_segment]. *)
Definition maybe_rotate_active_segment : EM unit :=
  e ← get_st;
  match segments e !! active_segment_id e with
  | None => fail (Corrupt "active segment missing")
  | Some (_, seg) =>
      if current_size seg <? Z.max (compaction_threshold_bytes e) (1024 * 1024) then mret tt
      else
        let new_id := next_segment_id e in
        modify (e_with_segments (<[new_id := (0, fresh_segment e)]> (segments e)) new_id (new_id + 1))
  end.

(** ** Log rewriting *)

(** The snapshot operation of one index entry. *)
Definition snapshot_op (e : StorageEngine) (kp : bytes * Pointer) : WalOp :=
  let '(key, pointer) := kp in
  match pointer with
  | PSegment sid offset len => Put key sid offset len
  | PInlined value => PutInlined key value
  | PBlob offset len => PutBlob key offset len
  | PBlobPending pending_doc =>
      let skeleton := match blob_manager e with
                      | Some _ => extract_blobs_placeholder pending_doc (blob_threshold e)
                      | None => pending_doc
                      end in
      PutInlined key (encode skeleton)
  | PBlobPendingData _ skeleton => PutInlined key skeleton
  | PDeleted timestamp => Delete key timestamp
  end.

(** [rewrite_wal_snapshot]. *)
Definition rewrite_wal_snapshot (now : Z) : EM unit :=
  _ ← wal_step reset;
  e ← get_st;
  on_wal (λ c w, append_batch now c w (snapshot_op e <$> hash_iter (index (idx e))) false).

(** [wal_snapshot_worthwhile]: [saturating_mul] on [u64]. *)
Definition wal_snapshot_worthwhile (e : StorageEngine) : bool :=
  (compaction_threshold_bytes e <? data_len (wal e)) &&
  (Z.min (inlined_bytes (idx e) * 3) (2 ^ 64 - 1) <? data_len (wal e)).

(** ** Batches *)

(** What the loop of [apply_batch] accumulates. *)
Record BatchAcc := mkAcc {
  a_wal_ops : list WalOp;
  a_updates : list (bytes * option Pointer);
  a_puts : list (bytes * bytes);
  a_blob : list BlobWork }.

Definition batch_step (now : Z) (e : StorageEngine) (a : BatchAcc) (m : StorageMutation) : BatchAcc :=
  match m with
  | MPut key value =>
      let len := zlen value in
      if len <? 4096 then
        mkAcc (a_wal_ops a ++ [PutInlined key value]) (a_updates a ++ [(key, Some (PInlined value))])
          (a_puts a) (a_blob a)
      else if blob_threshold e <? len then
        mkAcc (a_wal_ops a) (a_updates a ++ [(key, Some (PInlined value))]) (a_puts a)
          (a_blob a ++ [BPut (logical_name (idx e)) key value])
      else mkAcc (a_wal_ops a) (a_updates a) (a_puts a ++ [(key, value)]) (a_blob a)
  | MDelete key =>
      mkAcc (a_wal_ops a ++ [Delete key now]) (a_updates a ++ [(key, Some (PDeleted now))])
        (a_puts a) (a_blob a)
  end.

(** Medium values go to the active segment, then to the log and the index. *)
Definition write_medium (a : BatchAcc) : EM BatchAcc :=
  match a_puts a with
  | [] => mret a
  | puts => λ e,
      let active_id := active_segment_id e in
      match segments e !! active_id with
      | None => (e, Panic)
      | Some (level, seg) =>
          let '(c, seg, r) := seg_append_batch (nonce_ctr e) seg (snd <$> puts) in
          let e := e_with_ctr c (e_with_segments (<[active_id := (level, seg)]> (segments e))
                                   active_id (next_segment_id e) e) in
          match r with
          | Ok offsets =>
              let placed := zip (fst <$> puts) offsets in
              (e, Ok (mkAcc
                (a_wal_ops a ++ ((λ '(key, (offset, len)), Put key active_id offset len) <$> placed))
                (a_updates a ++ ((λ '(key, (offset, len)), (key, Some (PSegment active_id offset len))) <$> placed))
                (a_puts a) (a_blob a)))
          | Err err => (e, Err err)
          | Panic => (e, Panic)
          end
      end
  end.

(** [StorageEngine::apply_batch]. *)
Definition apply_batch (now_micros now : Z) (mutations : list StorageMutation) (is_remote : bool)
  : EM (list BlobWork * list WalOp) :=
  match mutations with
  | [] => mret ([], [])
  | _ =>
      e ← get_st;
      let tx_id := next_tx_id e in
      _ ← modify (e_with_tx (tx_id + 1));
      _ ← maybe_rotate_active_segment;
      e ← get_st;
      let a := foldl (batch_step now_micros e) (mkAcc [BeginTx tx_id] [] [] []) mutations in
      a ← write_medium a;
      let wal_ops := a_wal_ops a ++ [CommitTx tx_id] in
      _ ← on_wal (λ c w, append_batch now c w wal_ops is_remote);
      _ ← modify (λ e, e_with_idx (update_batch (idx e) (a_updates a)) e);
      mret (a_blob a, wal_ops)
  end.

(** [put], [delete]: the blob work is returned to the caller, which sends it to
    the worker when there is one. *)
Definition engine_put (now_micros now : Z) (key value : bytes) : EM (list BlobWork) :=
  '(work, _) ← apply_batch now_micros now [MPut key value] false; mret work.
Definition engine_delete (now_micros now : Z) (key : bytes) : EM (list BlobWork) :=
  '(work, _) ← apply_batch now_micros now [MDelete key] false; mret work.

(** The index update of a replicated operation. *)
Definition op_update (op : WalOp) : list (bytes * option Pointer) :=
  match op with
  | Put key sid offset len => [(key, Some (PSegment sid offset len))]
  | PutInlined key value => [(key, Some (PInlined value))]
  | Delete key timestamp => [(key, Some (PDeleted timestamp))]
  | PutBlob key offset len => [(key, Some (PBlob offset len))]
  | BeginTx _ | CommitTx _ => []
  end.

(** [apply_replicated_ops]. *)
Definition apply_replicated_ops (now : Z) (ops : list WalOp) : EM unit :=
  _ ← on_wal (λ c w, append_batch now c w ops true);
  modify (λ e, e_with_idx (update_batch (idx e) (ops ≫= op_update)) e).

(** [hard_delete_keys]: the index map only. *)
Definition drop_keys (keys : list bytes) (x : Index) : Index :=
  mkIndex (foldl (λ m k, base.delete k m) (index x) keys) (sorted_keys x) (sorted_scratch x)
    (inlined_bytes x) (collection_counts x) (logical_name x).
Definition hard_delete_keys (now_micros now : Z) (keys : list bytes) : EM Z :=
  match keys with
  | [] => mret 0
  | _ =>
      e ← get_st;
      let tx_id := next_tx_id e in
      _ ← modify (e_with_tx (tx_id + 1));
      _ ← on_wal (λ c w, append_batch_fast now c w tx_id ((λ k, Delete k now_micros) <$> keys) false);
      _ ← modify (λ e, e_with_idx (drop_keys keys (idx e)) e);
      mret (zlen keys)
  end.

(** ** Recovery *)

(** The index effect of one replayed operation. *)
Definition replay_op (x : Index) (op : WalOp) : Index :=
  match op with
  | Put key sid offset len => update_index_entry_nosort x key (PSegment sid offset len)
  | Delete key timestamp => update_index_entry_nosort x key (PDeleted timestamp)
  | BeginTx _ | CommitTx _ => x
  | PutInlined key value => update_index_entry_nosort x key (PInlined value)
  | PutBlob key offset len => update_index_entry_nosort x key (PBlob offset len)
  end.

(** [recover]: the number of operations replayed. *)
Definition recover : EM Z := λ e,
  match replay (wal e) with
  | Ok (w, ops) =>
      (e_with_idx (rebuild_view (foldl replay_op (idx e) ops)) (e_with_wal w (nonce_ctr e) e),
       Ok (zlen ops))
  | Err err => (e, Err err)
  | Panic => (e, Panic)
  end.
End Engine.

Arguments StorageEngine : clear implicits.
