(* ===== verification/StorageMaint.v ===== *)
(** * Maintenance of the storage engine (src/storage/engine.rs)

    Flushing, the blob queue, spilling inlined documents to segments, full and
    tiered compaction, the background tick, opening a collection directory.

    Cancellation is cooperative: [cancelled i] is what the [i]-th look at the
    token sees.  The three phases of tiered compaction run under separate lock
    acquisitions; [merge_commit] takes the engine as the third phase finds it,
    after whatever ran in between. *)

From stdpp Require Import prelude list gmap strings.
From Stdlib Require Import ZArith Lia.
From S2P Require Import Prelude RustStd Error Config Crypto VFile Doc Wal PageCache StorageIndex Segment Blob Storage.

Local Open Scope Z_scope.
Local Open Scope hako_scope.

Section Maintenance.
Context `{Crc} `{Zstd} `{HashIter} {cipher : Type} `{Aead cipher}.
Implicit Types e : StorageEngine cipher.
Abbreviation EM := (SR (StorageEngine cipher)).

(** [flush_wal]. *)
Definition flush_wal (now : Z) : EM unit := wal_step (flush now).

(** One item of [drain_blob_queue]: write, then swap the pending pointer if the
    document is still the one the item was made for. *)
Definition drain_work (bm : BlobManager) (x : Index) (w : BlobWork) : BlobManager * Index :=
  match w with
  | BPutRaw _ key skeleton offset data timestamp _ =>
      let bm := blob_write_at bm data offset in
      (bm, match skeleton with
           | [] => x
           | _ => match index x !! key with
                  | Some (PBlobPending current_doc) =>
                      if _time current_doc =? timestamp
                      then update_index_entry x key (Some (PInlined skeleton)) else x
                  | _ => x
                  end
           end)
  | BPut _ _ _ => (bm, x)
  end.

(** [drain_blob_queue]. *)
Definition drain_blob_queue : EM unit := λ e,
  match blob_manager e with
  | None => (e, Ok tt)
  | Some bm =>
      let '(bm, x) := foldl (λ '(bm, x) w, drain_work bm x w) (bm, idx e) (blob_flush_queue e) in
      (e_with_blobs (Some bm) [] (e_with_idx x e), Ok tt)
  end.

(** [flush_all]. *)
Definition flush_all (now : Z) : EM unit :=
  _ ← drain_blob_queue;
  e ← get_st;
  _ ← match segments e !! active_segment_id e with
      | Some (level, seg) =>
          seg ← lift (seg_flush seg);
          modify (λ e, e_with_segments (<[active_segment_id e := (level, seg)]> (segments e))
                         (active_segment_id e) (next_segment_id e) e)
      | None => mret tt
      end;
  wal_step (flush now).

(** Runs a compaction into a segment on the engine's nonce counter. *)
Definition compact_into (seg : Segment cipher) (entries : list (bytes * bytes)) (sid : Z) (uc : bool)
  : EM (Segment cipher * gmap bytes Pointer) := λ e,
  match compact_segment (nonce_ctr e) seg entries sid uc with
  | (c, seg, Ok m) => (e_with_ctr c e, Ok (seg, m))
  | (c, _, Err err) => (e_with_ctr c e, Err err)
  | (c, _, Panic) => (e_with_ctr c e, Panic)
  end.

(** The inlined documents of the index. *)
Definition inlined_entries (entries : list (bytes * Pointer)) : list (bytes * bytes) :=
  omap (λ kp, match kp.2 with PInlined d => Some (kp.1, d) | _ => None end) entries.

(** [checkpoint_inlined_data]. *)
Definition checkpoint_inlined_data (now : Z) : EM bool :=
  e ← get_st;
  if inlined_bytes (idx e) <? max_inlined_bytes e then mret false
  else
    let to_flush := inlined_entries (hash_iter (index (idx e))) in
    match to_flush with
    | [] => mret false
    | _ =>
        let target_id := next_segment_id e in
        _ ← modify (λ e, e_with_segments (segments e) (active_segment_id e) (target_id + 1) e);
        '(seg, new_pointers) ← compact_into (seg_open [] target_id (e_encryption e)) to_flush target_id (e_use_compression e);
        seg ← lift (seg_flush seg);
        _ ← modify (λ e, e_with_idx (foldl (λ x kp, update_index_entry x kp.1 (Some kp.2)) (idx e)
                                       (hash_iter new_pointers)) e);
        _ ← modify (λ e, e_with_segments (<[target_id := (0, seg)]> (segments e)) (active_segment_id e) (next_segment_id e) e);
        _ ← rewrite_wal_snapshot now;
        mret true
    end.

(** [run_background_maintenance]: the result of the tick flush is ignored. *)
Definition run_background_maintenance (now : Z) (defer_heavy : bool) : EM unit :=
  e ← get_st;
  _ ← (if should_tick_flush (wal e) now then wal_step (flush now) else mret tt);
  _ ← maybe_rotate_active_segment;
  if defer_heavy then mret tt
  else _ ← checkpoint_inlined_data now; mret tt.

(** ** Full compaction *)

(** The token as the [i]-th check sees it. *)
Definition check_token (cancelled : nat → bool) (i : nat) : EM unit :=
  if cancelled i then fail Cancelled else mret tt.

(** The collecting loop: the values of the entries in the given segments. *)
Fixpoint collect_entries (cancelled : nat → bool) (i : nat) (ids : list Z) (entries : list (bytes * Pointer))
  : EM (list (bytes * bytes)) :=
  match entries with
  | [] => mret []
  | (key, pointer) :: entries =>
      _ ← check_token cancelled i;
      match pointer with
      | PSegment sid _ _ =>
          if bool_decide (sid ∈ ids) then
            v ← read_pointer pointer;
            rest ← collect_entries cancelled (S i) ids entries;
            mret (match v with Some value => (key, value) :: rest | None => rest end)
          else collect_entries cancelled (S i) ids entries
      | _ => collect_entries cancelled (S i) ids entries
      end
  end.

(** Direct pointer swaps: [index.insert] without the accounting. *)
Definition swap_pointers (m : gmap bytes Pointer) (x : Index) : Index :=
  mkIndex (m ∪ index x) (sorted_keys x) (sorted_scratch x) (inlined_bytes x) (collection_counts x) (logical_name x).

(** [compact_with_cancel]. *)
Definition compact_with_cancel (now : Z) (cancelled : nat → bool) : EM unit :=
  _ ← check_token cancelled 0;
  _ ← modify (λ e,
        if match segments e !! active_segment_id e with Some (_, seg) => 0 <? current_size seg | None => false end
        then e_with_segments (<[next_segment_id e := (0, fresh_segment e)]> (segments e))
               (next_segment_id e) (next_segment_id e + 1) e
        else e);
  _ ← check_token cancelled 1;
  e ← get_st;
  let immutable_ids := filter (λ id, id ≠ active_segment_id e) (map_to_list (segments e)).*1 in
  match immutable_ids with
  | [] => if wal_snapshot_worthwhile e then rewrite_wal_snapshot now else mret tt
  | _ =>
      let all := hash_iter (index (idx e)) in
      entries ← collect_entries cancelled 2 immutable_ids all;
      _ ← check_token cancelled (2 + length all);
      let target_id := next_segment_id e in
      _ ← modify (λ e, e_with_segments (segments e) (active_segment_id e) (target_id + 1) e);
      '(seg, rebuilt) ← compact_into (seg_open [] target_id (e_encryption e)) entries target_id (e_use_compression e);
      if cancelled (3 + length all)%nat then fail Cancelled
      else
        _ ← modify (λ e,
              let segs := foldr base.delete (segments e) immutable_ids in
              e_with_idx (swap_pointers rebuilt (idx e))
                (e_with_segments (<[target_id := (1, seg)]> segs) (active_segment_id e) (next_segment_id e) e));
        rewrite_wal_snapshot now
  end.

(** ** Tiered compaction *)

Record Prep := mkPrep { p_level : Z; p_s1 : Z; p_s2 : Z; p_target_id : Z }.

(** Two segments of one level, neither of them active: any such pair may be the
    one the hash maps yield first. *)
Definition tier_candidate e (level s1 s2 : Z) : Prop :=
  s1 ≠ s2 ∧ s1 ≠ active_segment_id e ∧ s2 ≠ active_segment_id e ∧
  (∃ g1, segments e !! s1 = Some (level, g1)) ∧ (∃ g2, segments e !! s2 = Some (level, g2)).

(** Phase 1: reserve the target number. *)
Definition merge_prep (level s1 s2 : Z) : EM Prep :=
  e ← get_st;
  let target_id := next_segment_id e in
  _ ← modify (λ e, e_with_segments (segments e) (active_segment_id e) (target_id + 1) e);
  mret (mkPrep level s1 s2 target_id).

(** Phase 2: collect under the read lock and write the merged segment. *)
Definition merge_collect (p : Prep) : EM (Segment cipher * gmap bytes Pointer) :=
  e ← get_st;
  entries ← collect_entries (λ _, false) 0 [p_s1 p; p_s2 p] (hash_iter (index (idx e)));
  compact_into (seg_open [] (p_target_id p) (e_encryption e)) entries (p_target_id p) (e_use_compression e).

(** A key still lives in one of the merged segments. *)
Definition still_merged (p : Prep) (x : Index) (k : bytes) : bool :=
  match index x !! k with
  | Some (PSegment sid _ _) => (sid =? p_s1 p) || (sid =? p_s2 p)
  | _ => false
  end.

(** Phase 3: verify, swap, rewrite and flush the log. *)
Definition merge_commit (now : Z) (p : Prep) (target : Segment cipher) (m : gmap bytes Pointer) : EM bool :=
  e ← get_st;
  if forallb (λ id, match segments e !! id with Some (l, _) => l =? p_level p | None => false end) [p_s1 p; p_s2 p]
  then
    _ ← modify (λ e,
          let segs := base.delete (p_s1 p) (base.delete (p_s2 p) (segments e)) in
          let keep := filter (λ kp, still_merged p (idx e) kp.1 = true) m in
          e_with_idx (swap_pointers keep (idx e))
            (e_with_segments (<[p_target_id p := (p_level p + 1, target)]> segs)
               (active_segment_id e) (next_segment_id e) e));
    _ ← rewrite_wal_snapshot now;
    _ ← wal_step (flush now);
    mret true
  else mret false.

(** [try_compact_tiers] without concurrent writers. *)
Definition try_compact_tiers (now : Z) (candidate : option (Z * Z * Z)) : EM bool :=
  match candidate with
  | None => mret false
  | Some (level, s1, s2) =>
      p ← merge_prep level s1 s2;
      '(target, m) ← merge_collect p;
      merge_commit now p target m
  end.

(** ** Opening *)

Definition is_digit (b : Z) : bool := (48 <=? b) && (b <=? 57).
(** [str::parse] for unsigned integers below [bound]: an optional plus sign and
    decimal digits. *)
Definition parse_uint (bound : Z) (s : bytes) : option Z :=
  let digits := match s with 43 :: d => d | _ => s end in
  match digits with
  | [] => None
  | _ =>
      if forallb is_digit digits then
        let v := foldl (λ acc d, acc * 10 + (d - 48)) 0 digits in
        if v <? bound then Some v else None
      else None
  end.

(** [split_once('-')]. *)
Fixpoint split_once (c : Z) (s : bytes) : option (bytes * bytes) :=
  match s with
  | [] => None
  | x :: s => if x =? c then Some ([], s) else '(a, b) ← split_once c s; Some (x :: a, b)
  end.

Definition ends_with (s p : bytes) : bool := starts_with (rev s) (rev p).

(** [parse_segment_name]: the name slice aborts when prefix and suffix overlap,
    which they cannot, since the prefix has no dot. *)
Definition parse_segment_name (name : bytes) : option (Z * Z) :=
  if negb (starts_with name b#("segment-l")) || negb (ends_with name b#(".dat")) then None
  else
    let core := drop 9 (take (length name - 4) name) in
    '(level, id) ← split_once 45 core;
    l ← parse_uint (2 ^ 32) level;
    i ← parse_uint (2 ^ 64) id;
    Some (l, i).

(** A collection directory: the log, the blob file, the other files. *)
Record Dir := mkDir { d_wal : bytes; d_blobs : bytes; d_files : list (bytes * bytes) }.

(** The segments found in a directory, the largest number, the active one. *)
Definition open_segments (enc : option (EncryptionContext cipher)) (files : list (bytes * bytes))
  : gmap Z (Z * Segment cipher) * Z * Z :=
  foldl (λ '(segs, max_id, active) '(name, content),
    match parse_segment_name name with
    | Some (level, id) =>
        (<[id := (level, seg_open content id enc)]> segs,
         if max_id <? id then id else max_id, if active <=? id then id else active)
    | None => (segs, max_id, active)
    end) (∅, 0, 0) files.

(** [empty_open_diagnosis_message]: whether the warning is printed. *)
Definition empty_open_diagnosis (live_keys ops_replayed wal_data_bytes nonzero_segments : Z) : bool :=
  if (0 <? live_keys) || (0 <? ops_replayed) then false
  else negb ((wal_data_bytes <? 1024) && (nonzero_segments =? 0)).

(** The engine before recovery. *)
Definition open_engine (d : Dir) (cfg : HakoConfig) (name : bytes) (enc : option (EncryptionContext cipher)) (now : Z)
  : StorageEngine cipher :=
  let reserve := if starts_with name b#("__") then 0 else wal_reserve_bytes cfg in
  let w := set_group_commit_interval (group_commit_interval_ms cfg)
             (wal_open (d_wal d) (durability_mode cfg) (group_commit_max_ops cfg) enc reserve now) in
  let '(segs, max_id, active) := open_segments enc (d_files d) in
  let '(segs, max_id, active) :=
    if bool_decide (segs = ∅) then (<[0 := (0, seg_open [] 0 enc)]> segs, 0, 0) else (segs, max_id, active) in
  mkEngine segs active (max_id + 1) w 0 1 (auto_compaction_threshold_bytes cfg) enc
    (max_inlined_memory_bytes cfg) (value_blob_threshold_bytes cfg) (use_compression cfg)
    (cache_new (page_cache_capacity cfg * page_size cfg))
    (mkIndex ∅ [] [] 0 ∅ name)
    (Some (mkBlob (d_blobs d) (zlen (d_blobs d)))) [].

(** [StorageEngine::open]: recover, then rewrite a log of mostly stale history
    and flush it; a failed rewrite is ignored. *)
Definition engine_open (d : Dir) (cfg : HakoConfig) (name : bytes) (enc : option (EncryptionContext cipher)) (now : Z)
  : res (StorageEngine cipher) :=
  match recover (open_engine d cfg name enc now) with
  | (e, Ok _) =>
      if wal_snapshot_worthwhile e then
        match rewrite_wal_snapshot now e with
        | (e, Ok _) => Ok ((wal_step (flush now) e).1)
        | (e, Err _) => Ok e
        | (_, Panic) => Panic
        end
      else Ok e
  | (_, Err err) => Err err
  | (_, Panic) => Panic
  end.
End Maintenance.
