(* ===== verification/StorageFacts.v ===== *)
(** * Correctness of the storage engine: log and index

    The index is the result of applying the committed operations of the log;
    batches extend both alike, the snapshot rewrite replaces the history by an
    equivalent log, and reopening a directory rebuilds the same index. *)

From stdpp Require Import prelude list gmap strings.
From Stdlib Require Import ZArith Lia.
From S2P Require Import Prelude RustStd Error Config Crypto VFile Doc DocFacts Wal WalFacts PageCache StorageIndex.
From S2P Require Import StorageIndexFacts Segment Blob Storage StorageMaint.

Local Open Scope Z_scope.
Local Open Scope hako_scope.

(** ** The abstract store *)

Definition upd (m : gmap bytes Pointer) (kp : bytes * option Pointer) : gmap bytes Pointer :=
  let '(k, p) := kp in match p with Some p => <[k:=p]> m | None => base.delete k m end.

(** The index after a list of committed operations. *)
Definition apply_ops (m : gmap bytes Pointer) (ops : list WalOp) : gmap bytes Pointer :=
  foldl upd m (ops ≫= op_update).

Lemma apply_ops_app m ops1 ops2 : apply_ops m (ops1 ++ ops2) = apply_ops (apply_ops m ops1) ops2.
Proof. unfold apply_ops. by rewrite bind_app, foldl_app. Qed.

Lemma update_batch_index x us : idx_inv x → index (update_batch x us) = foldl upd (index x) us.
Proof.
  intros Hx. pose proof (update_batch_each x us Hx) as E. unfold core in E.
  assert (index (update_batch x us) = index (update_each x us)) as -> by congruence. apply update_each_index.
Qed.

Lemma replay_ops_index ops x : index (foldl replay_op x ops) = apply_ops (index x) ops.
Proof.
  unfold apply_ops. revert x; induction ops as [|op ops IH]; intros x; cbn [foldl]; [done|].
  rewrite IH, bind_cons, foldl_app. f_equal. by destruct op.
Qed.

Lemma replay_ops_bytes ops x :
  inlined_bytes x = total_inlined (index x) →
  inlined_bytes (foldl replay_op x ops) = total_inlined (index (foldl replay_op x ops)).
Proof.
  revert x; induction ops as [|op ops IH]; intros x Hx; cbn [foldl]; [done|]. apply IH.
  destruct op; cbn [replay_op]; try done; by apply nosort_bytes.
Qed.

Section Facts.
Context `{CrcLaws} `{Zstd} `{HashIterLaws} {cipher : Type} `{AeadLaws cipher}.
Implicit Types (e : StorageEngine cipher) (w : Wal cipher).

(** ** The monad *)

Lemma SR_bind_Ok {S A B} (m : SR S A) (f : A → SR S B) s s' b :
  (m ≫= f) s = (s', Ok b) ↔ ∃ s1 a, m s = (s1, Ok a) ∧ f a s1 = (s', Ok b).
Proof.
  unfold mbind, SR_bind. destruct (m s) as [s1 [a| |]]; split; try done; try (by intros (? & ? & ? & ?)).
  - intros E. by exists s1, a.
  - intros (s2 & a2 & [= -> ->] & E). done.
Qed.

(** ** The log and the index agree *)

(** The log holds [D] in its file and [B] in its buffer, and the index is what
    their committed operations say. *)
Definition eng_log e (D B : list WalOp) : Prop :=
  wal_inv (wal e) D B ∧ idx_inv (idx e) ∧ index (idx e) = apply_ops ∅ (filter_committed_ops (D ++ B)).

Lemma on_wal_batch now ops ir e e' D B :
  wal_inv (wal e) D B → forallb op_ok ops = true →
  on_wal (λ c w, append_batch now c w ops ir) e = (e', Ok tt) →
  (∃ D' B', wal_inv (wal e') D' B' ∧ D' ++ B' = D ++ B ++ ops ∧ D `prefix_of` D') ∧
  ∃ w c, e' = e_with_wal w c e.
Proof.
  intros Hw Hops. unfold on_wal. destruct (append_batch now _ _ _ _) as [[c w1] r] eqn:Ha.
  intros [= <- ->]. split; [by eapply append_batch_inv|]. eauto.
Qed.

Lemma maybe_rotate_frame e e' r :
  maybe_rotate_active_segment e = (e', r) →
  wal e' = wal e ∧ idx e' = idx e ∧ blob_threshold e' = blob_threshold e ∧ next_tx_id e' = next_tx_id e.
Proof.
  unfold maybe_rotate_active_segment, mbind, SR_bind, get_st. destruct (segments e !! active_segment_id e) as [[l seg]|].
  - split_if; by intros [= <- <-].
  - by intros [= <- <-].
Qed.

(** The operations and the updates that a batch accumulates correspond. *)
Definition acc_ok (t : Z) (a : BatchAcc) : Prop :=
  ∃ ops, a_wal_ops a = BeginTx t :: ops ∧ forallb data_op ops = true ∧ a_updates a = ops ≫= op_update.

Definition no_large e (m : StorageMutation) : bool :=
  match m with MPut _ v => (zlen v <? 4096) || (zlen v <=? blob_threshold e) | MDelete _ => true end.

Lemma batch_step_ok t now e a m :
  no_large e m = true → acc_ok t a → acc_ok t (batch_step now e a m).
Proof.
  intros Hm (ops & Ew & Hd & Eu).
  assert (∀ op up pts bl, data_op op = true → [up] = op_update op →
    acc_ok t (mkAcc (a_wal_ops a ++ [op]) (a_updates a ++ [up]) pts bl)) as Hadd.
  { intros op up pts bl Hop Hup. exists (ops ++ [op]). cbn [a_wal_ops a_updates]. split_and!.
    - by rewrite Ew.
    - rewrite forallb_app, Hd. cbn. by rewrite Hop.
    - rewrite bind_app, Eu. f_equal. rewrite Hup. cbn. by rewrite app_nil_r. }
  destruct m as [k v|k]; cbn [batch_step no_large] in *; [|by apply Hadd].
  destruct (zlen v <? 4096); [by apply Hadd|]. cbn [orb] in Hm. bool_simpl.
  split_if; [lia|]. by exists ops.
Qed.

Lemma batch_fold_ok t now e ms a :
  acc_ok t a → forallb (no_large e) ms = true → acc_ok t (foldl (batch_step now e) a ms).
Proof.
  revert a; induction ms as [|x l IH]; intros a Ha Hl; cbn [foldl]; [done|].
  cbn [forallb] in Hl. bool_simpl. apply IH; [|done]. by apply batch_step_ok.
Qed.

Lemma write_medium_ok t a e e' a' :
  acc_ok t a → write_medium a e = (e', Ok a') →
  acc_ok t a' ∧ wal e' = wal e ∧ idx e' = idx e.
Proof.
  intros (ops & Ew & Hd & Eu). unfold write_medium. destruct (a_puts a) as [|p ps] eqn:Hp.
  { intros [= <- <-]. split_and!; try done. by exists ops. }
  cbn zeta. destruct (segments e !! active_segment_id e) as [[l seg]|]; [|done].
  destruct (seg_append_batch _ _ _) as [[c seg'] [offs| |]]; try done.
  generalize (zip (fst <$> p :: ps) offs). intros placed [= <- <-]. split_and!; try done.
  exists (ops ++ ((λ '(key, (offset, len)), Put key (active_segment_id e) offset len) <$> placed)).
  cbn [a_wal_ops a_updates]. split_and!.
  - by rewrite Ew.
  - rewrite forallb_app, Hd. cbn [andb]. apply forallb_forall. intros op Hin.
    apply list_elem_of_In, list_elem_of_fmap in Hin as ([k [o n]] & -> & _). done.
  - rewrite bind_app, Eu. f_equal. induction placed as [|[k [o n]] pl IH]; csimpl; [done|]. by rewrite IH.
Qed.

(** A batch extends the log and the index alike. *)
Lemma apply_batch_log nm now ms ir e e' work ops D B :
  eng_log e D B → forallb (no_large e) ms = true →
  apply_batch nm now ms ir e = (e', Ok (work, ops)) → forallb op_ok ops = true →
  ∃ D' B', eng_log e' D' B' ∧ D' ++ B' = D ++ B ++ ops ∧ D `prefix_of` D'.
Proof.
  intros (Hw & Hi & Hidx) Hms. destruct ms as [|m ms]; [intros [= <- <- <-] _; exists D, B; by rewrite app_nil_r|].
  unfold apply_batch. set (mms := m :: ms) in *.
  intros (e0 & u0 & [= <- <-] & Hrun)%SR_bind_Ok Hok.
  apply SR_bind_Ok in Hrun as (e1 & u1 & [= <- <-] & Hrun).
  apply SR_bind_Ok in Hrun as (e2 & u2 & Hrot & Hrun).
  destruct (maybe_rotate_frame _ _ _ Hrot) as (Ew & Ei & Eb & Et). cbn [wal idx e_with_tx blob_threshold] in Ew, Ei, Eb.
  apply SR_bind_Ok in Hrun as (e2' & u3 & [= <- <-] & Hrun).
  apply SR_bind_Ok in Hrun as (e3 & a & Hmed & Hrun).
  assert (acc_ok (next_tx_id e) (foldl (batch_step nm e2) (mkAcc [BeginTx (next_tx_id e)] [] [] []) mms)) as Hacc.
  { apply batch_fold_ok; [by exists []|]. rewrite forallb_forall in Hms |- *. intros x Hx.
    specialize (Hms x Hx). unfold no_large in *. by rewrite Eb. }
  destruct (write_medium_ok _ _ _ _ _ Hacc Hmed) as ((dops & Eops & Hd & Eus) & Ew3 & Ei3).
  apply SR_bind_Ok in Hrun as (e4 & [] & Hwal & Hrun).
  apply SR_bind_Ok in Hrun as (e5 & u5 & [= <- <-] & [= <- <- <-]).
  rewrite Ew in Ew3. rewrite <-Ew3 in Hw.
  destruct (on_wal_batch _ _ _ _ _ _ _ Hw Hok Hwal) as ((D' & B' & Hw' & Hdb & Hpre) & w1 & c1 & ->).
  exists D', B'. split_and!; [|done|done]. split_and!; cbn [wal idx e_with_idx e_with_wal].
  - done.
  - rewrite Ei3, Ei. by apply update_batch_inv.
  - rewrite Ei3, Ei, update_batch_index, Hidx by done. rewrite Hdb, Eops, Eus.
    change ((BeginTx (next_tx_id e) :: dops) ++ [CommitTx (next_tx_id e)])
      with ([BeginTx (next_tx_id e)] ++ dops ++ [CommitTx (next_tx_id e)]).
    rewrite (app_assoc D B), filter_append_tx by done. by rewrite apply_ops_app.
Qed.

(** ** The snapshot rewrite *)

(** The pointer a snapshot operation restores. *)
Definition snapshot_ptr e (p : Pointer) : Pointer :=
  match p with
  | PBlobPending doc =>
      PInlined (encode (match blob_manager e with
                        | Some _ => extract_blobs_placeholder doc (blob_threshold e)
                        | None => doc
                        end))
  | PBlobPendingData _ skeleton => PInlined skeleton
  | p => p
  end.

Lemma snapshot_op_update e kp : op_update (snapshot_op e kp) = [(kp.1, Some (snapshot_ptr e kp.2))].
Proof. by destruct kp as [k []]. Qed.

Lemma snapshot_op_data e kp : data_op (snapshot_op e kp) = true.
Proof. by destruct kp as [k []]. Qed.

Lemma fold_upd_list (f : Pointer → Pointer) (l : list (bytes * Pointer)) m :
  NoDup l.*1 →
  foldl upd m ((λ kp, (kp.1, Some (f kp.2))) <$> l) = (f <$> list_to_map l) ∪ m.
Proof.
  revert m; induction l as [|[k p] l IH]; intros m Hnd; csimpl.
  { by rewrite fmap_empty, map_empty_union. }
  apply NoDup_cons in Hnd as [Hni Hnd]. rewrite IH by done. rewrite fmap_insert, <-insert_union_l.
  rewrite insert_union_r; [done|]. rewrite lookup_fmap, not_elem_of_list_to_map_1 by done. done.
Qed.

Lemma snapshot_ops_index e :
  apply_ops ∅ (snapshot_op e <$> hash_iter (index (idx e))) = snapshot_ptr e <$> index (idx e).
Proof.
  unfold apply_ops. set (l := hash_iter (index (idx e))).
  assert ((snapshot_op e <$> l) ≫= op_update = (λ kp, (kp.1, Some (snapshot_ptr e kp.2))) <$> l) as ->.
  { induction l as [|kp l IH]; [done|]. rewrite !fmap_cons, bind_cons, snapshot_op_update, IH. done. }
  assert (l ≡ₚ map_to_list (index (idx e))) as Hp by apply hash_iter_perm.
  assert (NoDup l.*1) as Hnd by (rewrite Hp; apply NoDup_fst_map_to_list).
  rewrite fold_upd_list by done. rewrite map_union_empty. f_equal.
  rewrite (list_to_map_proper _ _ Hnd Hp). apply list_to_map_to_list.
Qed.

Lemma filter_data_ops ops : forallb data_op ops = true → filter_committed_ops ops = ops.
Proof.
  intros Hd. pose proof (filter_unit (Plain ops) [] Hd) as E. cbn [unit_log unit_ops] in E.
  rewrite !app_nil_r in E. exact E.
Qed.

(** After the rewrite, the log alone restores the index; nothing of the old
    history is left. *)
Lemma rewrite_wal_snapshot_log now e e' :
  forallb op_ok (snapshot_op e <$> hash_iter (index (idx e))) = true →
  rewrite_wal_snapshot now e = (e', Ok tt) →
  idx e' = idx e ∧ ∃ D B, wal_inv (wal e') D B ∧
  apply_ops ∅ (filter_committed_ops (D ++ B)) = snapshot_ptr e <$> index (idx e).
Proof.
  intros Hok. unfold rewrite_wal_snapshot.
  intros (e0 & u0 & [= <- <-] & Hrun)%SR_bind_Ok.
  apply SR_bind_Ok in Hrun as (e1 & u1 & [= <- <-] & Hrun).
  cbn [idx e_with_wal] in Hrun.
  change (snapshot_op (e_with_wal (reset (wal e)) (nonce_ctr e) e)) with (snapshot_op e) in Hrun.
  destruct (on_wal_batch _ _ _ (e_with_wal (reset (wal e)) (nonce_ctr e) e) _ [] [] (reset_inv (wal e)) Hok Hrun) as ((D & B & Hw & Hdb & _) & w1 & c1 & ->).
  split; [done|]. exists D, B. split; [done|]. rewrite Hdb, !app_nil_l.
  rewrite filter_data_ops; [apply snapshot_ops_index|].
  apply forallb_forall. intros op Hin. apply list_elem_of_In, list_elem_of_fmap in Hin as (kp & -> & _).
  apply snapshot_op_data.
Qed.

(** ** Recovery *)

Lemma recover_log e D B :
  wal_inv (wal e) D B → idx e = mkIndex ∅ [] [] 0 ∅ (logical_name (idx e)) →
  ∃ e' n, recover e = (e', Ok n) ∧ idx_inv (idx e') ∧ wal_inv (wal e') D B ∧
          index (idx e') = apply_ops ∅ (filter_committed_ops D) ∧ n = zlen (filter_committed_ops D).
Proof.
  intros Hw Hi. destruct (replay_inv _ _ _ Hw) as (w' & Hrep & Hw' & _). unfold recover. rewrite Hrep.
  eexists _, _. split; [done|]. cbn [idx wal e_with_idx e_with_wal]. split_and!; [|done| |done].
  - apply rebuild_view_inv, replay_ops_bytes. by rewrite Hi.
  - cbn [rebuild_view index]. rewrite replay_ops_index, Hi. done.
Qed.
End Facts.
