(* ===== verification/StorageView.v ===== *)
(** * The abstract store of a collection

    [store_view] is what a collection means to its clients: a finite map from
    live keys to document bytes.  [store_ok] is the invariant under which every
    pointer of the index can be followed and every cached block is the record it
    stands for.  Reads return the abstract value whatever the cache holds, and a
    batch is a sequence of insertions and deletions of the abstract map. *)

From stdpp Require Import prelude list gmap strings.
From Stdlib Require Import ZArith Lia.
From S2P Require Import Prelude RustStd Error Config Crypto VFile Doc DocFacts Wal WalFacts PageCache StorageIndex.
From S2P Require Import StorageIndexFacts Segment SegmentFacts Blob Storage StorageMaint StorageFacts.

Local Open Scope Z_scope.
Local Open Scope hako_scope.

(** One update of the abstract store. *)
Definition vupd (m : gmap bytes bytes) (kv : bytes * option bytes) : gmap bytes bytes :=
  match kv.2 with Some v => <[kv.1:=v]> m | None => base.delete kv.1 m end.

Lemma omap_upds (f : Pointer → option bytes) us m :
  omap f (foldl upd m us) = foldl vupd (omap f m) ((λ kp, (kp.1, kp.2 ≫= f)) <$> us).
Proof.
  revert m; induction us as [|[k p] us IH]; intros m; [done|]. rewrite fmap_cons. cbn [foldl upd].
  rewrite IH. f_equal. unfold vupd. cbn [fst snd]. destruct p as [p|]; cbn [mbind option_bind].
  - destruct (f p) as [v|] eqn:Hf; [by apply omap_insert_Some|by apply omap_insert_None].
  - apply omap_delete.
Qed.

Lemma cache_put_lookup c k d k' d' :
  blocks (cache_put c k d) !! k' = Some d' → (k' = k ∧ d' = d) ∨ blocks c !! k' = Some d'.
Proof.
  unfold cache_put. split_if; [by right|].
  destruct (evict _ _ _ _ _ _) as [[[o cur] pos] bl] eqn:Hev. apply evict_subseteq in Hev.
  cbn [blocks]. rewrite lookup_insert_Some. intros [[<- <-]|[_ Hl]]; [by left|right; by eapply lookup_weaken].
Qed.

Section View.
Context `{CrcLaws} `{ZstdLaws} `{HashIterLaws} {cipher : Type} `{AeadLaws cipher}.
Implicit Types (e : StorageEngine cipher) (w : Wal cipher) (s : Segment cipher).

(** The bytes behind a pointer, read from the segment files directly. *)
Definition ptr_value e (p : Pointer) : option bytes :=
  match p with
  | PBlobPending doc => Some (encode doc)
  | PInlined data => Some data
  | PBlobPendingData data _ => Some data
  | PBlob offset len => bm ← blob_manager e; Some (blob_read_at bm offset len)
  | PSegment sid offset len =>
      ls ← segments e !! sid;
      match seg_read ls.2 offset len with Ok v => Some v | _ => None end
  | PDeleted _ => None
  end.

Definition store_view e : gmap bytes bytes := omap (ptr_value e) (index (idx e)).

(** ** The invariant *)

Definition segs_ok e : Prop :=
  ∀ sid l s, segments e !! sid = Some (l, s) →
    segment_id s = sid ∧ sid < next_segment_id e ∧ is_Some (seg_file s).

Definition cache_ok e : Prop :=
  ∀ sid off v, blocks (cache e) !! mkBlockKey sid off = Some v →
    sid < next_segment_id e ∧
    ∀ l s, segments e !! sid = Some (l, s) → ∃ len, rec_at s off len v.

Definition ptr_ok e (p : Pointer) : Prop :=
  match p with
  | PSegment sid off len => ∃ l s v, segments e !! sid = Some (l, s) ∧ rec_at s off len v
  | PBlob _ _ => is_Some (blob_manager e)
  | _ => True
  end.

Definition ptrs_ok e (m : gmap bytes Pointer) : Prop := map_Forall (λ _ p, ptr_ok e p) m.

Definition store_ok e : Prop :=
  segs_ok e ∧ cache_ok e ∧ ptrs_ok e (index (idx e)) ∧ idx_inv (idx e).

(** A number that was reserved and not used yet. *)
Definition unused e (tid : Z) : Prop :=
  tid < next_segment_id e ∧ segments e !! tid = None ∧ ∀ off, blocks (cache e) !! mkBlockKey tid off = None.

(** Records are only added: segments grow, and new numbers are used. *)
Definition grows e e' : Prop :=
  blob_file <$> blob_manager e' = blob_file <$> blob_manager e ∧
  ∀ sid l s, segments e !! sid = Some (l, s) → ∃ l' s', segments e' !! sid = Some (l', s') ∧ extends s s'.

Lemma grows_refl e : segs_ok e → grows e e.
Proof. intros Hs. split; [done|]. intros sid l s Hl. exists l, s. split; [done|]. by apply extends_refl, (Hs sid l). Qed.

Lemma grows_trans e1 e2 e3 : grows e1 e2 → grows e2 e3 → grows e1 e3.
Proof.
  intros [B1 G1] [B2 G2]. split; [congruence|]. intros sid l s Hl.
  destruct (G1 _ _ _ Hl) as (l2 & s2 & Hl2 & X2). destruct (G2 _ _ _ Hl2) as (l3 & s3 & Hl3 & X3).
  exists l3, s3. split; [done|]. by eapply extends_trans.
Qed.

Lemma grows_ptr e e' p : grows e e' → ptr_ok e p → ptr_ok e' p ∧ ptr_value e' p = ptr_value e p.
Proof.
  intros [Hb Hg]. destruct p as [sid off len|d|off len|d|d sk|t]; cbn [ptr_ok ptr_value]; try done.
  2: { intros [b Hbm]. rewrite Hbm in *. destruct (blob_manager e') as [b'|]; [|done]. injection Hb as Hb.
       split; [by eexists|]. cbn [mbind option_bind]. unfold blob_read_at. by rewrite Hb. }
  intros (l & s & v & Hs & Hr). destruct (Hg _ _ _ Hs) as (l' & s' & Hs' & Hx).
  pose proof (rec_at_extends _ _ _ _ _ Hx Hr) as Hr'. split; [by exists l', s', v|].
  rewrite Hs, Hs'. cbn [mbind option_bind snd]. by rewrite (rec_at_read _ _ _ _ Hr), (rec_at_read _ _ _ _ Hr').
Qed.

Lemma ptr_value_seg e sid l s off len v :
  segments e !! sid = Some (l, s) → rec_at s off len v → ptr_value e (PSegment sid off len) = Some v.
Proof.
  intros Hs Hr. cbn [ptr_value]. rewrite Hs. cbn [mbind option_bind snd]. by rewrite (rec_at_read _ _ _ _ Hr).
Qed.

Lemma grows_ptrs e e' m : grows e e' → ptrs_ok e m → ptrs_ok e' m ∧ omap (ptr_value e') m = omap (ptr_value e) m.
Proof.
  intros Hg Hm. split.
  - intros k p Hk. eapply (grows_ptr e e'); [done|by eapply Hm].
  - apply map_eq. intros k. rewrite !lookup_omap. destruct (m !! k) as [p|] eqn:Hk; [|done]. cbn.
    eapply (grows_ptr e e'); [done|by eapply Hm].
Qed.

(** ** Reads *)

Lemma read_pointer_value e p uc :
  store_ok e → ptr_ok e p →
  ∃ c, read_pointer_internal p uc e = (e_with_cache c e, Ok (ptr_value e p)) ∧ store_ok (e_with_cache c e) ∧
       ∀ tid, unused e tid → unused (e_with_cache c e) tid.
Proof.
  intros He Hp. assert (e = e_with_cache (cache e) e) as Hself by (by destruct e).
  destruct p as [sid off len|d|off len|d|d sk|t]; cbn [read_pointer_internal ptr_value].
  2,4-6: exists (cache e); by rewrite <-Hself.
  2: { destruct Hp as [bm Hbm]. exists (cache e). rewrite <-Hself, Hbm. done. }
  destruct Hp as (l & s & v & Hs & Hr). rewrite Hs. cbn [mbind option_bind snd].
  rewrite (rec_at_read _ _ _ _ Hr). destruct He as (Hsegs & Hcache & Hptrs & Hidx).
  destruct (Hsegs _ _ _ Hs) as (Hid & Hlt & _).
  unfold read_at. rewrite Hid. destruct uc.
  2: { rewrite (rec_at_read _ _ _ _ Hr). exists (cache e). by rewrite <-Hself. }
  destruct (cache_get (cache e) (mkBlockKey sid off)) as [hit c] eqn:Hget.
  assert (blocks c = blocks (cache e)) as Hbl by (pose proof (cache_get_blocks (cache e) (mkBlockKey sid off)) as E; by rewrite Hget in E).
  assert (store_ok (e_with_cache c e)) as Hc.
  { split_and!; try done. intros sid' off' v' Hl. cbn [cache e_with_cache] in Hl. rewrite Hbl in Hl. by apply Hcache. }
  destruct hit as [data|].
  - exists c. split; [|split; [done|]].
    2: { intros tid (? & ? & Hun). split_and!; try done. intros off'. cbn [cache e_with_cache]. by rewrite Hbl. } assert (blocks (cache e) !! mkBlockKey sid off = Some data) as Hl.
    { unfold cache_get in Hget. destruct (blocks (cache e) !! mkBlockKey sid off); [|done]. congruence. }
    destruct (Hcache _ _ _ Hl) as [_ Hc']. destruct (Hc' _ _ Hs) as [len' Hr'].
    destruct (rec_at_unique _ _ _ _ _ _ Hr Hr') as [_ ->]. done.
  - rewrite (rec_at_read _ _ _ _ Hr). eexists. split; [done|]. destruct Hc as (_ & Hc & _). split.
    2: { intros tid (? & Hfr & Hun). split_and!; try done. intros off'. apply eq_None_not_Some. intros [v' Hl].
         cbn [cache e_with_cache] in Hl. apply cache_put_lookup in Hl as [[[= -> ->] ->]|Hl]; [congruence|].
         rewrite Hbl, Hun in Hl. done. }
    split_and!; try done. intros sid' off' v' Hl. cbn [cache e_with_cache] in Hl.
    apply cache_put_lookup in Hl as [[[= -> ->] ->]|Hl]; [|by apply Hc].
    split; [done|]. intros l' s' Hs'. exists len. cbn [segments e_with_cache] in Hs'. congruence.
Qed.

Lemma view_lookup e k : store_view e !! k = index (idx e) !! k ≫= ptr_value e.
Proof. unfold store_view. by rewrite lookup_omap. Qed.

(** A read returns the abstract value, whatever the cache holds. *)
Lemma engine_get_value e k :
  store_ok e → ∃ c, engine_get k e = (e_with_cache c e, Ok (store_view e !! k)) ∧ store_ok (e_with_cache c e).
Proof.
  intros He. assert (e = e_with_cache (cache e) e) as Hself by (by destruct e).
  rewrite view_lookup. unfold engine_get, mbind at 1, SR_bind, get_st.
  destruct (index (idx e) !! k) as [p|] eqn:Hk; cbn [mbind option_bind].
  - assert (ptr_ok e p) as Hp by (destruct He as (_ & _ & Hp & _); by eapply Hp).
    destruct (read_pointer_value e p true He Hp) as (c & Hr & Hc & _).
    destruct p; by exists c.
  - exists (cache e). by rewrite <-Hself.
Qed.

(** The engine after a change of the segment map that only adds records. *)
Lemma store_ok_grow e e' :
  store_ok e → grows e e' → segs_ok e' → cache e' = cache e → idx e' = idx e →
  next_segment_id e <= next_segment_id e' →
  (∀ sid l s, segments e' !! sid = Some (l, s) → sid < next_segment_id e → is_Some (segments e !! sid)) →
  store_ok e' ∧ store_view e' = store_view e.
Proof.
  intros (Hsegs & Hcache & Hptrs & Hidx) Hg Hsegs' Ec Ei Hn Hold. unfold store_view.
  destruct (grows_ptrs _ _ _ Hg Hptrs) as [Hp' Hv]. rewrite Ei. split; [|done]. split_and!; try (by rewrite Ei); [done|].
  intros sid off v Hl. rewrite Ec in Hl. destruct (Hcache _ _ _ Hl) as [Hlt Hc]. split; [lia|].
  intros l s Hs. destruct (Hold _ _ _ Hs Hlt) as [[l0 s0] Hs0]. destruct (Hc _ _ Hs0) as [len Hr].
  destruct Hg as [_ Hg]. destruct (Hg _ _ _ Hs0) as (l' & s' & Hs' & Hx). exists len.
  assert (s' = s) as -> by congruence. by eapply rec_at_extends.
Qed.

(** A new empty segment under the next number. *)
Lemma add_segment_ok e l g active :
  store_ok e → is_Some (seg_file g) → segment_id g = next_segment_id e →
  let e' := e_with_segments (<[next_segment_id e := (l, g)]> (segments e)) active (next_segment_id e + 1) e in
  store_ok e' ∧ store_view e' = store_view e ∧ grows e e'.
Proof.
  intros He Hf Hid e'. pose proof He as (Hsegs & _).
  assert (segments e !! next_segment_id e = None) as Hfree.
  { destruct (segments e !! next_segment_id e) as [[l0 s0]|] eqn:Hs; [|done]. apply Hsegs in Hs. lia. }
  assert (grows e e') as Hg.
  { split; [done|]. intros sid l1 s1 Hs. exists l1, s1. cbn [segments e' e_with_segments].
    destruct (Hsegs _ _ _ Hs) as (_ & Hlt & Hf1). rewrite lookup_insert_ne by lia. split; [done|]. by apply extends_refl. }
  destruct (store_ok_grow e e') as [He' Hv]; try done; cbn [segments e' e_with_segments next_segment_id].
  - intros sid l1 s1. cbn [segments e' e_with_segments next_segment_id]. rewrite lookup_insert_Some.
    intros [[<- [= <- <-]]|[_ Hs]]; [split_and!; [done|lia|done]|]. destruct (Hsegs _ _ _ Hs) as (? & ? & ?). split_and!; [done|lia|done].
  - lia.
  - intros sid l1 s1. rewrite lookup_insert_Some. intros [[<- _]|[_ Hs]] Hlt; [lia|eauto].
Qed.

Lemma rotate_view e e' r :
  store_ok e → maybe_rotate_active_segment e = (e', r) →
  store_ok e' ∧ store_view e' = store_view e ∧ grows e e' ∧
  (r = Ok tt → is_Some (segments e' !! active_segment_id e')).
Proof.
  intros He. pose proof He as (Hsegs & _). unfold maybe_rotate_active_segment, mbind, SR_bind, get_st.
  destruct (segments e !! active_segment_id e) as [[l g]|] eqn:Ha.
  - split_if.
    + intros [= <- <-]. split_and!; [done|done|by apply grows_refl|]. by rewrite Ha.
    + intros [= <- <-].
      destruct (add_segment_ok e 0 (fresh_segment e) (next_segment_id e)) as (H1' & H2' & H3'); [done|by eexists|done|].
      split_and!; try done. intros _. cbn [segments active_segment_id e_with_segments]. rewrite lookup_insert_eq. eauto.
  - intros [= <- <-]. split_and!; [done|done|by apply grows_refl|done].
Qed.

(** A segment of the map extended in place. *)
Lemma extend_segment_ok e sid l s l' s' c :
  store_ok e → segments e !! sid = Some (l, s) → extends s s' →
  let e' := e_with_ctr c (e_with_segments (<[sid := (l', s')]> (segments e)) (active_segment_id e) (next_segment_id e) e) in
  store_ok e' ∧ store_view e' = store_view e ∧ grows e e'.
Proof.
  intros He Hs Hx e'. pose proof He as (Hsegs & _). destruct (Hsegs _ _ _ Hs) as (Hid & Hlt & Hf).
  assert (grows e e') as Hg.
  { split; [done|]. intros sid1 l1 s1 Hs1. cbn [segments e' e_with_ctr e_with_wal e_with_segments].
    destruct (decide (sid1 = sid)) as [->|Hne].
    - rewrite lookup_insert_eq. exists l', s'. split; [done|]. assert (s1 = s) as -> by congruence. done.
    - rewrite lookup_insert_ne by done. exists l1, s1. split; [done|]. apply extends_refl. by apply (Hsegs _ _ _ Hs1). }
  destruct (store_ok_grow e e') as [He' Hv]; try done.
  - intros sid1 l1 s1. cbn [segments e' e_with_ctr e_with_wal e_with_segments next_segment_id]. rewrite lookup_insert_Some.
    intros [[<- [= <- <-]]|[_ Hs1]]; [|by apply (Hsegs _ l1)]. split_and!; [|done|by eapply extends_file].
    destruct Hx as (? & ? & ? & _ & _ & _ & _ & ->). done.
  - intros sid1 l1 s1. cbn [segments e' e_with_ctr e_with_wal e_with_segments].
    rewrite lookup_insert_Some. intros [[<- _]|[_ Hs1]] _; eauto.
Qed.

(** ** Batches *)

(** The value of a mutation. *)
Definition mut_val (m : StorageMutation) : bytes * option bytes :=
  match m with MPut k v => (k, Some v) | MDelete k => (k, None) end.

(** Puts that go to the active segment. *)
Definition is_medium (th : Z) (m : StorageMutation) : bool :=
  match m with MPut _ v => (4096 <=? zlen v) && (zlen v <=? th) | MDelete _ => false end.

(** The order in which a batch takes effect: medium puts last. *)
Definition batch_order (th : Z) (ms : list StorageMutation) : list StorageMutation :=
  List.filter (λ m, negb (is_medium th m)) ms ++ List.filter (is_medium th) ms.

Definition small_update (now : Z) (m : StorageMutation) : bytes * option Pointer :=
  match m with MPut k v => (k, Some (PInlined v)) | MDelete k => (k, Some (PDeleted now)) end.

Definition put_kv (m : StorageMutation) : bytes * bytes :=
  match m with MPut k v => (k, v) | MDelete k => (k, []) end.

Lemma batch_fold_updates now e ms a :
  let a' := foldl (batch_step now e) a ms in
  a_updates a' = a_updates a ++ (small_update now <$> List.filter (λ m, negb (is_medium (blob_threshold e) m)) ms) ∧
  a_puts a' = a_puts a ++ (put_kv <$> List.filter (is_medium (blob_threshold e)) ms).
Proof.
  revert a; induction ms as [|m ms IH]; intros a; cbn [foldl List.filter fmap list_fmap]; [by rewrite !app_nil_r|].
  destruct (IH (batch_step now e a m)) as [-> ->].
  destruct m as [k v|k]; cbn [batch_step is_medium negb].
  - destruct (zlen v <? 4096) eqn:E1; destruct (blob_threshold e <? zlen v) eqn:E2;
    destruct (4096 <=? zlen v) eqn:E3; destruct (zlen v <=? blob_threshold e) eqn:E4; try lia;
    cbn [andb negb a_updates a_puts fmap list_fmap]; by rewrite <-?app_assoc.
  - cbn [a_updates a_puts fmap list_fmap]. by rewrite <-app_assoc.
Qed.

Lemma seg_append_batch_err ctr s values ctr' s' r :
  is_Some (seg_file s) → seg_append_batch ctr s values = (ctr', s', r) → (∀ x, r ≠ Ok x) → extends s s'.
Proof.
  intros [f Hf]. unfold seg_append_batch. destruct values; [intros [= <- <- <-] Hr; by destruct (Hr [])|].
  rewrite Hf. destruct (append_values _ _ _ _ _ _ _) as [[[c buf] size] [res1| |]];
    intros [= <- <- <-] Hr; [by destruct (Hr res1)| |]; exists f, (f_seek (f_len f) f), []; by rewrite app_nil_r.
Qed.

Lemma put_kv_values th ms :
  (λ m, mut_val m) <$> List.filter (is_medium th) ms = (λ kv, (kv.1, Some kv.2)) <$> (put_kv <$> List.filter (is_medium th) ms).
Proof.
  rewrite <-list_fmap_compose. apply list_fmap_ext. intros i m Hm.
  apply list_elem_of_lookup_2, list_elem_of_In, filter_In in Hm as [_ Hm]. by destruct m.
Qed.

(** Where the medium values went. *)
Lemma placed_values e sid l s (puts : list (bytes * bytes)) (offs : list (Z * Z)) :
  segments e !! sid = Some (l, s) → length offs = length puts →
  (∀ i v, puts.*2 !! i = Some v → ∃ off len, offs !! i = Some (off, len) ∧ rec_at s off len v) →
  let us := (λ '(key, (offset, len)), (key, Some (PSegment sid offset len))) <$> zip puts.*1 offs in
  ((λ kp, (kp.1, kp.2 ≫= ptr_value e)) <$> us) = ((λ kv, (kv.1, Some kv.2)) <$> puts) ∧
  Forall (λ kp, ∃ p, kp.2 = Some p ∧ ptr_ok e p) us.
Proof.
  intros Hs. revert offs; induction puts as [|[k v] puts IH]; intros [|[off len] offs] Hlen Hr; try done.
  cbn [fmap list_fmap zip zip_with fst snd].
  destruct (IH offs) as [E1 E2]; [by injection Hlen| |].
  { intros i v' Hi. exact (Hr (S i) v' Hi). }
  destruct (Hr 0%nat v eq_refl) as (off' & len' & [= <- <-] & Hrec). split.
  - cbn [mbind option_bind]. rewrite (ptr_value_seg _ _ _ _ _ _ _ Hs Hrec). f_equal. exact E1.
  - constructor; [|exact E2]. eexists. split; [done|]. by exists l, s, v.
Qed.

(** An index change on top of an unchanged store. *)
Lemma store_ok_idx e x :
  store_ok e → ptrs_ok e (index x) → idx_inv x → store_ok (e_with_idx x e).
Proof. intros (? & ? & _ & _) Hp Hx. done. Qed.

Lemma foldl_upd_ok e us m :
  ptrs_ok e m → Forall (λ kp : bytes * option Pointer, ∀ p, kp.2 = Some p → ptr_ok e p) us →
  ptrs_ok e (foldl upd m us).
Proof.
  intros Hm Hus. revert m Hm; induction Hus as [|[k p] us Hp Hus IH]; intros m Hm; cbn [foldl]; [done|].
  apply IH. cbn [upd snd] in *. destruct p as [p|].
  - apply map_Forall_insert_2; [by apply Hp|done].
  - by apply map_Forall_delete.
Qed.

(** Applying updates: the abstract store is updated with their values. *)
Lemma update_batch_view e us :
  store_ok e → Forall (λ kp : bytes * option Pointer, ∀ p, kp.2 = Some p → ptr_ok e p) us →
  let e' := e_with_idx (update_batch (idx e) us) e in
  store_ok e' ∧ store_view e' = foldl vupd (store_view e) ((λ kp, (kp.1, kp.2 ≫= ptr_value e)) <$> us).
Proof.
  intros He Hus e'. pose proof He as (_ & _ & Hp & Hi). split.
  - apply store_ok_idx; [done| |by apply update_batch_inv]. rewrite update_batch_index by done. by apply foldl_upd_ok.
  - unfold store_view. cbn [idx e' e_with_idx]. rewrite update_batch_index by done.
    change (ptr_value e') with (ptr_value e). apply omap_upds.
Qed.

Lemma write_medium_view e a e' r :
  store_ok e → is_Some (segments e !! active_segment_id e) → Forall (λ kv, zlen kv.2 < 2 ^ 30) (a_puts a) →
  write_medium a e = (e', r) →
  store_ok e' ∧ store_view e' = store_view e ∧ idx e' = idx e ∧
  (∀ a', r = Ok a' → ∃ us, a_updates a' = a_updates a ++ us ∧ a_blob a' = a_blob a ∧
     ((λ kp, (kp.1, kp.2 ≫= ptr_value e')) <$> us) = ((λ kv, (kv.1, Some kv.2)) <$> a_puts a) ∧
     Forall (λ kp, ∃ p, kp.2 = Some p ∧ ptr_ok e' p) us).
Proof.
  intros He [[l s] Hs] Hv. unfold write_medium. destruct (a_puts a) as [|p0 ps] eqn:Hps.
  { intros [= <- <-]. split_and!; try done. intros a' [= <-]. exists []. by rewrite app_nil_r. }
  rewrite <-Hps in *. clear p0 ps Hps. rewrite Hs. pose proof He as (Hsegs & _). destruct (Hsegs _ _ _ Hs) as (_ & _ & Hf).
  destruct (seg_append_batch _ _ _) as [[c s'] r'] eqn:Hap. cbn zeta.
  set (e1 := e_with_ctr _ _). intros Hres.
  assert (Forall (λ v, zlen v < 2 ^ 30) (a_puts a).*2) as Hv' by (apply Forall_fmap; exact Hv).
  assert (extends s s') as Hx.
  { destruct r' as [offs| |]; [|by eapply (seg_append_batch_err _ _ _ _ _ _ Hf Hap)..].
    by eapply (seg_append_batch_reads _ _ _ _ _ _ Hf Hv' Hap). }
  destruct (extend_segment_ok e _ l s l s' c He Hs Hx) as (He1 & Hv1 & Hg1). fold e1 in He1, Hv1, Hg1.
  assert (e' = e1) as -> by (destruct r'; congruence). split_and!; [done|done|done|].
  intros a' ->. destruct r' as [offs| |]; [|done..].
  destruct (seg_append_batch_reads _ _ _ _ _ _ Hf Hv' Hap) as (_ & Hlen & Hr).
  rewrite length_fmap in Hlen.
  assert (segments e1 !! active_segment_id e = Some (l, s')) as Hs1
    by (cbn [segments e1 e_with_ctr e_with_wal e_with_segments]; by rewrite lookup_insert_eq).
  destruct (placed_values e1 _ _ _ (a_puts a) offs Hs1 Hlen Hr) as [E1 E2].
  exists ((λ '(key, (offset, len)), (key, Some (PSegment (active_segment_id e) offset len))) <$> zip (a_puts a).*1 offs).
  assert (a' = mkAcc
    (a_wal_ops a ++ ((λ '(key, (offset, len)), Put key (active_segment_id e) offset len) <$> zip (a_puts a).*1 offs))
    (a_updates a ++ ((λ '(key, (offset, len)), (key, Some (PSegment (active_segment_id e) offset len))) <$> zip (a_puts a).*1 offs))
    (a_puts a) (a_blob a)) as -> by congruence.
  done.
Qed.

(** A batch that succeeds updates the abstract store in the order of
    [batch_order]; one that fails leaves it as it was. *)
Lemma apply_batch_view nm now ms ir e e' r :
  store_ok e → Forall (λ m, zlen (put_kv m).2 < 2 ^ 30) ms →
  apply_batch nm now ms ir e = (e', r) →
  store_ok e' ∧
  (∀ x, r = Ok x → store_view e' = foldl vupd (store_view e) (mut_val <$> batch_order (blob_threshold e) ms)) ∧
  ((∀ x, r ≠ Ok x) → store_view e' = store_view e).
Proof.
  intros He Hms. destruct ms as [|m ms0].
  { intros [= <- <-]. split_and!; done. }
  unfold apply_batch. set (ms := m :: ms0) in *.
  unfold mbind, SR_bind, get_st, modify. cbn beta iota zeta.
  set (e0 := e_with_tx (next_tx_id e + 1) e). assert (store_ok e0) as He0 by done.
  destruct (maybe_rotate_active_segment e0) as [e1 r1] eqn:Hrot.
  destruct (maybe_rotate_frame _ _ _ Hrot) as (_ & _ & Hth & _).
  destruct (rotate_view _ _ _ He0 Hrot) as (He1 & Hv1 & _ & Hact).
  destruct r1 as [[]| |]; [|intros [= <- <-]; split_and!; done..].
  destruct (batch_fold_updates nm e1 ms (mkAcc [BeginTx (next_tx_id e)] [] [] [])) as [Hus Hps].
  set (a := foldl _ _ ms) in *. cbn [a_updates a_puts app] in Hus, Hps. rewrite Hth in Hus, Hps.
  change (blob_threshold e0) with (blob_threshold e) in *.
  assert (Forall (λ kv, zlen kv.2 < 2 ^ 30) (a_puts a)) as Hsz.
  { rewrite Hps. apply Forall_fmap, Forall_forall. intros m1 Hm1.
    apply list_elem_of_In, filter_In in Hm1 as [Hm1 _]. rewrite Forall_forall in Hms. by apply Hms, list_elem_of_In. }
  destruct (write_medium a e1) as [e2 r2] eqn:Hmed.
  destruct (write_medium_view _ _ _ _ He1 (Hact eq_refl) Hsz Hmed) as (He2 & Hv2 & Hi2 & Hok2).
  destruct r2 as [a2| |]; [|intros [= <- <-]; split_and!; try done; intros _; change (store_view e2 = store_view e0); by rewrite Hv2, Hv1..].
  destruct (Hok2 a2 eq_refl) as (us & Eus & _ & Evals & Hptrs).
  unfold on_wal. destruct (append_batch now _ _ _ _) as [[c w] r3].
  set (e3 := e_with_wal w c e2). assert (store_ok e3) as He3 by done.
  destruct r3 as [u| |]; [|intros [= <- <-]; split_and!; try done; intros _; change (store_view e2 = store_view e0); by rewrite Hv2, Hv1..].
  intros [= <- <-].
  destruct (update_batch_view e3 (a_updates a2) He3) as [He4 Hv4].
  { rewrite Eus, Hus. apply Forall_app. split.
    - apply Forall_fmap, Forall_forall. intros [k v|k] _ p [= <-]; done.
    - eapply Forall_impl; [exact Hptrs|]. intros kp (p & E & Hp) p' Hp'. assert (p' = p) as -> by congruence. done. }
  split_and!; [done| |by intros Hno; destruct (Hno _ eq_refl)].
  intros _ _. etransitivity; [exact Hv4|]. change (store_view e3) with (store_view e2). rewrite Hv2, Hv1.
  change (store_view e0) with (store_view e). f_equal. unfold batch_order.
  rewrite Eus, Hus, !fmap_app. f_equal.
  - rewrite <-list_fmap_compose. apply list_fmap_ext. by intros i [k v|k] _.
  - change (ptr_value e3) with (ptr_value e2). rewrite Evals, Hps. symmetry. apply put_kv_values.
Qed.

(** ** Batches with distinct keys *)

Lemma vupds_lookup_ne kvs m k : k ∉ kvs.*1 → foldl vupd m kvs !! k = m !! k.
Proof.
  revert m; induction kvs as [|[k' ov] kvs IH]; intros m Hk; [done|]. rewrite fmap_cons in Hk.
  apply not_elem_of_cons in Hk as [Hne Hk]. cbn [foldl]. rewrite IH by done.
  unfold vupd. cbn [fst snd]. destruct ov; [by rewrite lookup_insert_ne|by rewrite lookup_delete_ne].
Qed.

Lemma vupds_lookup kvs m k ov : NoDup kvs.*1 → (k, ov) ∈ kvs → foldl vupd m kvs !! k = ov.
Proof.
  revert m; induction kvs as [|[k' ov'] kvs IH]; intros m Hnd Hin; [by apply not_elem_of_nil in Hin|].
  rewrite fmap_cons in Hnd. apply NoDup_cons in Hnd as [Hni Hnd]. cbn [foldl].
  apply elem_of_cons in Hin as [[= <- <-]|Hin]; [|by apply IH].
  rewrite vupds_lookup_ne by done. unfold vupd. cbn [fst snd].
  destruct ov; [by rewrite lookup_insert_eq|by rewrite lookup_delete_eq].
Qed.

Lemma vupds_perm kvs kvs' m : NoDup kvs.*1 → kvs ≡ₚ kvs' → foldl vupd m kvs = foldl vupd m kvs'.
Proof.
  intros Hnd Hp. assert (NoDup kvs'.*1) as Hnd' by (by rewrite <-Hp). apply map_eq. intros k.
  destruct (decide (k ∈ kvs.*1)) as [Hin|Hin].
  - apply list_elem_of_fmap in Hin as ([k0 ov] & -> & Hin). cbn [fst].
    rewrite (vupds_lookup kvs _ _ ov Hnd Hin). symmetry. apply vupds_lookup; [done|]. by rewrite <-Hp.
  - rewrite vupds_lookup_ne by done. symmetry. apply vupds_lookup_ne. by rewrite <-Hp.
Qed.

Lemma filter_split_perm {A} (f : A → bool) l : List.filter (λ x, negb (f x)) l ++ List.filter f l ≡ₚ l.
Proof.
  induction l as [|x l IH]; [done|]. cbn [List.filter]. destruct (f x); cbn [negb app].
  - rewrite <-Permutation_middle. by rewrite IH.
  - by rewrite IH.
Qed.

(** Mutations of distinct keys take effect as written. *)
Lemma batch_order_distinct th ms m :
  NoDup (mut_val <$> ms).*1 → foldl vupd m (mut_val <$> batch_order th ms) = foldl vupd m (mut_val <$> ms).
Proof.
  intros Hnd. symmetry. apply vupds_perm; [done|]. unfold batch_order. by rewrite filter_split_perm.
Qed.

(** ** Totality without encryption *)

Lemma append_batch_plain now c w ops ir :
  encryption w = None → ∃ w', append_batch now c w ops ir = (c, w', Ok tt).
Proof.
  intros Hn. unfold append_batch. destruct (buffer_records_plain c w ops Hn) as [w' ->]. by eexists.
Qed.

Lemma append_values_plain values ctr buf results size off :
  ∃ buf' size' results',
    append_values (cipher:=cipher) ctr None values buf results size off = (ctr, buf', size', Ok results').
Proof.
  revert buf results size off; induction values as [|v values IH]; intros buf results size off; cbn [append_values seg_payload]; [eauto|].
  apply IH.
Qed.

Definition plain e : Prop :=
  e_encryption e = None ∧ encryption (wal e) = None ∧
  ∀ sid l s, segments e !! sid = Some (l, s) → seg_encryption s = None.

(** Without encryption, every batch on an engine with an active segment
    succeeds. *)
Lemma apply_batch_total nm now ms ir e :
  store_ok e → plain e → is_Some (segments e !! active_segment_id e) →
  ∃ e' work ops, apply_batch nm now ms ir e = (e', Ok (work, ops)).
Proof.
  intros He (Hpe & Hpw & Hps) [[l0 s0] Ha]. destruct ms as [|m ms0]; [eexists _, _, _; done|].
  unfold apply_batch. set (ms := m :: ms0).
  unfold mbind, SR_bind, get_st, modify. cbn beta iota zeta.
  set (e0 := e_with_tx (next_tx_id e + 1) e). assert (store_ok e0) as He0 by done.
  destruct (maybe_rotate_active_segment e0) as [e1 r1] eqn:Hrot.
  destruct (maybe_rotate_frame _ _ _ Hrot) as (Hw1 & _).
  destruct (rotate_view _ _ _ He0 Hrot) as (He1 & _ & _ & Hact).
  assert (r1 = Ok tt ∧ ∃ l s f, segments e1 !! active_segment_id e1 = Some (l, s) ∧ seg_encryption s = None ∧ seg_file s = Some f)
    as (-> & l1 & s1 & f1 & Hs1 & Hn1 & Hf1).
  { pose proof He1 as (Hsegs1 & _). pose proof He0 as (Hsegs0 & _).
    destruct (Hsegs0 _ _ _ Ha) as (_ & _ & [f0 Hf0]).
    revert Hrot. unfold maybe_rotate_active_segment, mbind, SR_bind, get_st.
    change (segments e0 !! active_segment_id e0) with (segments e !! active_segment_id e). rewrite Ha. split_if.
    - intros [= <- <-]. split; [done|]. exists l0, s0, f0. split_and!; [done|by eapply Hps|done].
    - intros [= <- <-]. split; [done|]. cbn [segments active_segment_id e_with_segments]. rewrite lookup_insert_eq.
      eexists _, _, _. split_and!; [done|done|done]. }
  set (a := foldl _ _ ms).
  assert (∃ e2 a2, write_medium a e1 = (e2, Ok a2) ∧ wal e2 = wal e1) as (e2 & a2 & -> & Hw2).
  { unfold write_medium. destruct (a_puts a) as [|p ps]; [by eexists _, _|]. rewrite Hs1.
    unfold seg_append_batch. rewrite fmap_cons, Hf1, Hn1.
    match goal with |- context [append_values ?c None ?v ?b ?r ?s ?o] =>
      destruct (append_values_plain v c b r s o) as (buf' & size' & results' & ->) end.
    by eexists _, _. }
  unfold on_wal. destruct (append_batch_plain now (nonce_ctr e2) (wal e2) (a_wal_ops a2 ++ [CommitTx (next_tx_id e)]) ir) as [w' Hap].
  { by rewrite Hw2, Hw1. }
  rewrite Hap. by eexists _, _, _.
Qed.
End View.
