(* ===== verification/StorageCompact.v ===== *)
(** * Compaction preserves the abstract store

    Spilling inlined documents, full compaction (cancelled at any check or not)
    and tiered compaction move documents between memory and segment files.  None
    of them changes the value of a key, whether or not the operation succeeds,
    and tiered compaction tolerates the batches that other threads commit
    between its phases. *)

From stdpp Require Import prelude list gmap strings.
From Stdlib Require Import ZArith Lia.
From S2P Require Import Prelude RustStd Error Config Crypto VFile Doc DocFacts Wal WalFacts PageCache StorageIndex.
From S2P Require Import StorageIndexFacts Segment SegmentFacts Blob Storage StorageMaint StorageFacts StorageView.

Local Open Scope Z_scope.
Local Open Scope hako_scope.

(** Total inlined bytes only depend on the sizes. *)
Lemma total_inlined_ext (m1 m2 : gmap bytes Pointer) :
  inlined_size <$> m1 = inlined_size <$> m2 → total_inlined m1 = total_inlined m2.
Proof.
  assert (∀ m : gmap bytes Pointer, total_inlined m = map_fold (λ _ n acc, n + acc) 0 (inlined_size <$> m)) as Hgen.
  2: { intros E. by rewrite !Hgen, E. }
  intros m. unfold total_inlined. by rewrite map_fold_fmap.
Qed.

Lemma foldr_delete_lookup {A} (m : gmap Z A) (R : list Z) k :
  foldr base.delete m R !! k = if bool_decide (k ∈ R) then None else m !! k.
Proof.
  induction R as [|r R IH]; cbn [foldr]; [done|]. destruct (decide (k = r)) as [->|Hne].
  - rewrite lookup_delete_eq. rewrite bool_decide_true by set_solver. done.
  - rewrite lookup_delete_ne, IH by done.
    destruct (decide (k ∈ R)).
    + rewrite !bool_decide_true by set_solver. done.
    + rewrite !bool_decide_false by set_solver. done.
Qed.

Section Compact.
Context `{CrcLaws} `{ZstdLaws} `{HashIterLaws} {cipher : Type} `{AeadLaws cipher}.
Implicit Types (e : StorageEngine cipher) (w : Wal cipher) (s : Segment cipher).

(** ** Collecting *)

Definition seg_entry e (ids : list Z) (kp : bytes * Pointer) : option (bytes * bytes) :=
  match kp.2 with
  | PSegment sid _ _ => if bool_decide (sid ∈ ids) then (λ v, (kp.1, v)) <$> ptr_value e kp.2 else None
  | _ => None
  end.

Lemma collect_entries_spec cancelled ids entries i e e' r :
  store_ok e → Forall (λ kp, ptr_ok e kp.2) entries → collect_entries cancelled i ids entries e = (e', r) →
  ∃ c, e' = e_with_cache c e ∧ store_ok e' ∧ (∀ tid, unused e tid → unused e' tid) ∧
  (r = Ok (omap (seg_entry e ids) entries) ∨ (r = Err Cancelled ∧ ∃ j, cancelled j = true)).
Proof.
  revert i e e' r; induction entries as [|[k p] entries IH]; intros i e e' r He Hps; cbn [collect_entries].
  { intros [= <- <-]. exists (cache e). split_and!; [by destruct e|done|done|by left]. }
  apply Forall_cons in Hps as [Hp Hps]. cbn [snd] in Hp. unfold check_token.
  destruct (cancelled i) eqn:Hi.
  { intros [= <- <-]. exists (cache e). split_and!; [by destruct e|done|done|eauto]. }
  unfold mbind at 1, SR_bind, mret at 1, SR_ret.
  assert (∀ kp, seg_entry e ids kp = None → collect_entries cancelled (S i) ids entries e = (e', r) →
    ∃ c, e' = e_with_cache c e ∧ store_ok e' ∧ (∀ tid, unused e tid → unused e' tid) ∧
    (r = Ok (omap (seg_entry e ids) (kp :: entries)) ∨ (r = Err Cancelled ∧ ∃ j, cancelled j = true))) as Hskip.
  { intros kp Hkp Hrun. destruct (IH _ _ _ _ He Hps Hrun) as (c & -> & Hc & Hu & Hr). exists c. split_and!; try done.
    cbn [omap list_omap]. by rewrite Hkp. }
  destruct p as [sid off len|d|off len|d|d sk|t]; try by apply Hskip.
  destruct (decide (sid ∈ ids)) as [Hin|Hin].
  2: { rewrite bool_decide_false by done. apply Hskip. unfold seg_entry. cbn [snd]. by rewrite bool_decide_false. }
  rewrite bool_decide_true by done. unfold read_pointer, mbind, SR_bind.
  destruct (read_pointer_value e (PSegment sid off len) true He Hp) as (c1 & -> & Hc1 & Hu1).
  destruct (collect_entries cancelled (S i) ids entries (e_with_cache c1 e)) as [e2 r2] eqn:Hrun.
  destruct (IH _ _ _ _ Hc1 Hps Hrun) as (c2 & -> & Hc2 & Hu2 & Hr2).
  cbn [omap list_omap]. unfold seg_entry at 1. cbn [fst snd]. rewrite bool_decide_true by done.
  change (seg_entry (e_with_cache c1 e) ids) with (seg_entry e ids) in Hr2.
  intros Hres. exists c2. change (e_with_cache c2 (e_with_cache c1 e)) with (e_with_cache c2 e) in *.
  destruct Hr2 as [->|[-> Hj]]; unfold mret, SR_ret in Hres; cbn beta iota in Hres.
  - assert (e' = e_with_cache c2 e) as -> by congruence. split_and!; [done|done|by intros tid Ht; apply Hu2, Hu1|].
    left. destruct (ptr_value e (PSegment sid off len)); cbn [fmap option_fmap option_map]; congruence.
  - assert (e' = e_with_cache c2 e) as -> by congruence. split_and!; [done|done|by intros tid Ht; apply Hu2, Hu1|].
    right. split; [congruence|done].
Qed.

Lemma compact_into_spec seg entries sid uc e e' r :
  is_Some (seg_file seg) → Forall (λ kv, zlen kv.2 < 2 ^ 30) entries → NoDup entries.*1 →
  compact_into seg entries sid uc e = (e', r) →
  (∃ c, e' = e_with_ctr c e) ∧
  ∀ g m, r = Ok (g, m) → is_Some (seg_file g) ∧ segment_id g = segment_id seg ∧
    (∀ k v, (k, v) ∈ entries → ∃ off len, m !! k = Some (PSegment sid off len) ∧ rec_at g off len v) ∧
    (∀ k, k ∉ entries.*1 → m !! k = None).
Proof.
  intros Hf Hv Hnd. unfold compact_into. destruct (compact_segment _ _ _ _ _) as [[c g] [m| |]] eqn:Hc;
    intros [= <- <-]; (split; [eauto|]); try done.
  intros g' m' [= <- <-]. by eapply compact_segment_reads.
Qed.

(** ** Moving documents *)

(** Where the keys of [m] point into the new segment [g] with their present
    values, and the segments of [R] hold no other key, the store is the same
    after the swap. *)
Lemma relocate e e' m tid l g R :
  store_ok e → unused e tid → is_Some (seg_file g) → segment_id g = tid →
  (∀ k p', m !! k = Some p' → ∃ off len v p, p' = PSegment tid off len ∧ rec_at g off len v ∧
     index (idx e) !! k = Some p ∧ ptr_value e p = Some v) →
  (∀ k sid off len, index (idx e) !! k = Some (PSegment sid off len) → sid ∈ R → is_Some (m !! k)) →
  segments e' = <[tid := (l, g)]> (foldr base.delete (segments e) R) →
  blob_manager e' = blob_manager e → next_segment_id e' = next_segment_id e → cache e' = cache e →
  index (idx e') = m ∪ index (idx e) → idx_inv (idx e') →
  store_ok e' ∧ store_view e' = store_view e.
Proof.
  intros (Hsegs & Hcache & Hptrs & Hidx) (Htid & Hfree & Hunc) Hf Hg Hm HR Es Eb En Ec Ei Hi'.
  assert (segments e' !! tid = Some (l, g)) as Htg by (by rewrite Es, lookup_insert_eq).
  assert (∀ sid, sid ≠ tid → sid ∉ R → segments e' !! sid = segments e !! sid) as Hkeep.
  { intros sid Hne HnR. rewrite Es, lookup_insert_ne, foldr_delete_lookup by done. by rewrite bool_decide_false. }
  assert (∀ k p, m !! k = None → index (idx e) !! k = Some p → ptr_ok e' p ∧ ptr_value e' p = ptr_value e p) as Hold.
  { intros k p Hmk Hk. pose proof (Hptrs k p Hk) as Hp.
    destruct p as [sid off len|d|off len|d|d sk|t]; cbn [ptr_ok ptr_value] in *; rewrite ?Eb; try done.
    assert (sid ∉ R) as HnR by (intros Hin; destruct (HR _ _ _ _ Hk Hin); congruence).
    destruct Hp as (l1 & s1 & v & Hs1 & Hr). assert (sid ≠ tid) by congruence.
    rewrite (Hkeep sid) by done. split; [by exists l1, s1, v|done]. }
  split; [split_and!; [| | |done]|].
  - intros sid l1 s1. rewrite Es, En, lookup_insert_Some, foldr_delete_lookup.
    intros [[<- [= <- <-]]|[Hne Hs]]; [done|]. case_bool_decide; [done|]. by apply (Hsegs _ l1).
  - intros sid off v. rewrite Ec, En. intros Hl. destruct (Hcache _ _ _ Hl) as [Hlt Hc]. split; [done|].
    intros l1 s1. rewrite Es, lookup_insert_Some, foldr_delete_lookup.
    intros [[<- _]|[_ Hs]]; [by rewrite Hunc in Hl|]. case_bool_decide; [done|]. by eapply Hc.
  - intros k p. rewrite Ei, lookup_union_Some_raw. intros [Hmk|[Hmk Hk]].
    + destruct (Hm _ _ Hmk) as (off & len & v & p0 & -> & Hr & _). by exists l, g, v.
    + by apply (Hold k p).
  - apply map_eq. intros k. rewrite !view_lookup, Ei.
    destruct (m !! k) as [p'|] eqn:Hmk.
    + rewrite (lookup_union_Some_l _ _ _ _ Hmk). destruct (Hm _ _ Hmk) as (off & len & v & p0 & -> & Hr & -> & Hpv).
      cbn [mbind option_bind]. by rewrite (ptr_value_seg _ _ _ _ _ _ _ Htg Hr), Hpv.
    + rewrite lookup_union_r by done. destruct (index (idx e) !! k) as [p|] eqn:Hk; [|done]. cbn [mbind option_bind].
      by apply (Hold k p).
Qed.

(** Swapping segment pointers for segment pointers keeps the accounting. *)
Lemma swap_pointers_inv m x :
  idx_inv x →
  (∀ k p', m !! k = Some p' → (∃ sid off len, p' = PSegment sid off len) ∧ ∃ sid off len, index x !! k = Some (PSegment sid off len)) →
  idx_inv (swap_pointers m x).
Proof.
  intros (Hs & Hl & Hb & Hc) Hm. unfold idx_inv. cbn [sorted_keys index inlined_bytes collection_counts logical_name swap_pointers].
  split_and!; try done.
  - intros k. rewrite Hl. unfold is_live. cbn [index swap_pointers]. destruct (m !! k) as [p'|] eqn:Hk.
    + rewrite (lookup_union_Some_l _ _ _ _ Hk). destruct (Hm _ _ Hk) as [(? & ? & ? & ->) (? & ? & ? & ->)]. done.
    + by rewrite lookup_union_r.
  - rewrite Hb. apply total_inlined_ext, map_eq. intros k. rewrite !lookup_fmap. destruct (m !! k) as [p'|] eqn:Hk.
    + rewrite (lookup_union_Some_l _ _ _ _ Hk). destruct (Hm _ _ Hk) as [(? & ? & ? & ->) (? & ? & ? & ->)]. done.
    + by rewrite lookup_union_r.
Qed.

Lemma rewrite_snapshot_frame now e e' r :
  rewrite_wal_snapshot now e = (e', r) → ∃ w c, e' = e_with_wal w c e.
Proof.
  unfold rewrite_wal_snapshot, wal_step, on_wal, mbind, SR_bind, modify, get_st. cbn beta iota zeta.
  destruct (append_batch _ _ _ _ _) as [[c w] r']. intros [= <- <-]. by exists w, c.
Qed.

(** ** Entries of the index *)

Definition values_small e : Prop := ∀ k v, store_view e !! k = Some v → zlen v < 2 ^ 30.

Lemma hash_iter_lookup {A} (m : gmap bytes A) k p : (k, p) ∈ hash_iter m ↔ m !! k = Some p.
Proof. by rewrite (hash_iter_perm m), elem_of_map_to_list. Qed.

Lemma hash_iter_keys {A} (m : gmap bytes A) : NoDup (hash_iter m).*1.
Proof. rewrite (hash_iter_perm m). apply NoDup_fst_map_to_list. Qed.

Lemma omap_fst_NoDup {A} (f : bytes * A → option (bytes * bytes)) (l : list (bytes * A)) :
  (∀ kp kv, f kp = Some kv → kv.1 = kp.1) → NoDup l.*1 → NoDup (omap f l).*1.
Proof.
  intros Hf. induction l as [|kp l IH]; [done|]. rewrite fmap_cons. intros [Hni Hnd]%NoDup_cons. cbn [omap list_omap].
  destruct (f kp) as [kv|] eqn:E; [|by apply IH]. rewrite fmap_cons. constructor; [|by apply IH].
  intros (kv' & Heq & (kp' & Hin & E')%list_elem_of_omap)%list_elem_of_fmap. apply Hni.
  rewrite <-(Hf _ _ E), Heq, (Hf _ _ E'). by apply list_elem_of_fmap_2.
Qed.

(** What is collected for compaction: the keys of the given segments with
    their values. *)
Lemma collected_spec e ids k v :
  (k, v) ∈ omap (seg_entry e ids) (hash_iter (index (idx e))) ↔
  ∃ sid off len, index (idx e) !! k = Some (PSegment sid off len) ∧ sid ∈ ids ∧
    ptr_value e (PSegment sid off len) = Some v.
Proof.
  rewrite list_elem_of_omap. split.
  - intros ([k' p] & Hin & E). apply hash_iter_lookup in Hin. unfold seg_entry in E. cbn [fst snd] in E.
    destruct p as [sid off len|d|off len|d|d sk|t]; try done. case_bool_decide as Hids; [|done].
    destruct (ptr_value e (PSegment sid off len)) as [v'|] eqn:Hv; [|done]. injection E as -> ->.
    by exists sid, off, len.
  - intros (sid & off & len & Hk & Hids & Hv). exists (k, PSegment sid off len).
    split; [by apply hash_iter_lookup|]. unfold seg_entry. cbn [fst snd]. by rewrite bool_decide_true, Hv.
Qed.

Lemma collected_NoDup e ids : NoDup (omap (seg_entry e ids) (hash_iter (index (idx e)))).*1.
Proof.
  apply omap_fst_NoDup; [|apply hash_iter_keys]. intros [k p] kv. unfold seg_entry. cbn [fst snd].
  destruct p; try done. case_bool_decide; [|done]. destruct (ptr_value e _); [|done]. by intros [= <-].
Qed.

Lemma collected_small e ids :
  values_small e → Forall (λ kv, zlen kv.2 < 2 ^ 30) (omap (seg_entry e ids) (hash_iter (index (idx e)))).
Proof.
  intros Hv. apply Forall_forall. intros [k v] (sid & off & len & Hk & _ & Hp)%collected_spec.
  apply (Hv k). by rewrite view_lookup, Hk.
Qed.

(** Every key that points into one of the segments is collected. *)
Lemma collected_all e ids k sid off len :
  store_ok e → index (idx e) !! k = Some (PSegment sid off len) → sid ∈ ids →
  ∃ v, (k, v) ∈ omap (seg_entry e ids) (hash_iter (index (idx e))).
Proof.
  intros (_ & _ & Hp & _) Hk Hids. destruct (Hp _ _ Hk) as (l & s & v & Hs & Hr). exists v.
  apply collected_spec. exists sid, off, len. split_and!; [done|done|]. by eapply ptr_value_seg.
Qed.

(** The pointers written for the collected entries. *)
Lemma rebuilt_spec e (ids : list Z) (g : Segment cipher) (m : gmap bytes Pointer) (tid : Z) :
  (∀ (k v : bytes), (k, v) ∈ omap (seg_entry e ids) (hash_iter (index (idx e))) →
     ∃ off len, m !! k = Some (PSegment tid off len) ∧ rec_at g off len v) →
  (∀ k : bytes, k ∉ (omap (seg_entry e ids) (hash_iter (index (idx e)))).*1 → m !! k = None) →
  ∀ k p', m !! k = Some p' → ∃ off len v sid o n, p' = PSegment tid off len ∧ rec_at g off len v ∧
    index (idx e) !! k = Some (PSegment sid o n) ∧ sid ∈ ids ∧ ptr_value e (PSegment sid o n) = Some v.
Proof.
  intros Hin Hout k p' Hk. destruct (decide (k ∈ (omap (seg_entry e ids) (hash_iter (index (idx e)))).*1)) as [Hel|Hel].
  2: { rewrite Hout in Hk; done. }
  apply list_elem_of_fmap in Hel as ([k0 v] & -> & Hel). cbn [fst] in Hk. destruct (Hin _ _ Hel) as (off & len & Hk' & Hr).
  apply collected_spec in Hel as (sid & o & n & Hidx & Hids & Hv).
  exists off, len, v, sid, o, n. split_and!; try done. congruence.
Qed.

(** A reserved number. *)
Lemma reserve_ok e :
  store_ok e →
  let e' := e_with_segments (segments e) (active_segment_id e) (next_segment_id e + 1) e in
  store_ok e' ∧ unused e' (next_segment_id e) ∧ store_view e' = store_view e.
Proof.
  intros (Hsegs & Hcache & Hp & Hi) e'. split_and!; [split_and!; try done| |done].
  - intros sid l s Hs. cbn [segments next_segment_id e' e_with_segments] in *. destruct (Hsegs _ _ _ Hs) as (? & ? & ?).
    split_and!; [done|lia|done].
  - intros sid off v Hl. destruct (Hcache _ _ _ Hl) as [? Hc]. cbn [next_segment_id e' e_with_segments]. split; [lia|exact Hc].
  - split_and!; cbn [segments next_segment_id cache e' e_with_segments]; [lia| |].
    + destruct (segments e !! next_segment_id e) as [[l s]|] eqn:Hs; [|done]. apply Hsegs in Hs. lia.
    + intros off. apply eq_None_not_Some. intros [v Hl]. apply Hcache in Hl. lia.
Qed.

(** ** Full compaction *)

(** The ids that full compaction merges. *)
Definition immutable_ids e : list Z := filter (λ id, id ≠ active_segment_id e) (map_to_list (segments e)).*1.

Lemma index_ptrs_ok e : store_ok e → Forall (λ kp, ptr_ok e kp.2) (hash_iter (index (idx e))).
Proof.
  intros (_ & _ & Hp & _). apply Forall_forall. intros [k p] Hin%hash_iter_lookup. by eapply Hp.
Qed.

(** Swapping in the segment rebuilt from [ids]. *)
Lemma swap_rebuilt e e' (ids : list Z) (m : gmap bytes Pointer) (tid l : Z) (g : Segment cipher) :
  store_ok e → unused e tid → is_Some (seg_file g) → segment_id g = tid →
  (∀ (k v : bytes), (k, v) ∈ omap (seg_entry e ids) (hash_iter (index (idx e))) →
     ∃ off len, m !! k = Some (PSegment tid off len) ∧ rec_at g off len v) →
  (∀ k : bytes, k ∉ (omap (seg_entry e ids) (hash_iter (index (idx e)))).*1 → m !! k = None) →
  e' = e_with_idx (swap_pointers m (idx e))
         (e_with_segments (<[tid := (l, g)]> (foldr base.delete (segments e) ids)) (active_segment_id e) (next_segment_id e) e) →
  store_ok e' ∧ store_view e' = store_view e.
Proof.
  intros He Hu Hf Hid Hin Hout ->. pose proof (rebuilt_spec e ids g m tid Hin Hout) as Hm.
  eapply (relocate e _ m tid l g ids); try done.
  - intros k p' Hk. destruct (Hm k p' Hk) as (off & len & v & sid & o & n & ? & ? & ? & _ & ?).
    by exists off, len, v, (PSegment sid o n).
  - intros k sid off len Hk Hids. destruct (collected_all _ _ _ _ _ _ He Hk Hids) as [v Hv].
    destruct (Hin _ _ Hv) as (? & ? & -> & _). eauto.
  - apply swap_pointers_inv; [apply He|]. intros k p' Hk.
    destruct (Hm k p' Hk) as (off & len & v & sid & o & n & ? & ? & ? & _ & ?). split; eauto.
Qed.

Lemma rotate_for_compaction e :
  store_ok e →
  let e' := if match segments e !! active_segment_id e with Some (_, seg) => 0 <? current_size seg | None => false end
            then e_with_segments (<[next_segment_id e := (0, fresh_segment e)]> (segments e))
                   (next_segment_id e) (next_segment_id e + 1) e
            else e in
  store_ok e' ∧ store_view e' = store_view e.
Proof.
  intros He e'. unfold e'. destruct (match segments e !! active_segment_id e with Some _ => _ | None => _ end); [|done].
  destruct (add_segment_ok e 0 (fresh_segment e) (next_segment_id e) He) as (? & ? & _); [by eexists|done|]. done.
Qed.

Lemma check_token_frame cancelled i e e' r :
  check_token cancelled i e = (e', r) → e' = e ∧ (r = Ok tt ∨ r = Err Cancelled).
Proof. unfold check_token. destruct (cancelled i); intros [= <- <-]; eauto. Qed.

(** Full compaction keeps every value, cancelled at any point, failing or
    succeeding. *)
Lemma compact_view now cancelled e e' r :
  store_ok e → values_small e → compact_with_cancel now cancelled e = (e', r) →
  store_ok e' ∧ store_view e' = store_view e.
Proof.
  intros He Hv. unfold compact_with_cancel, mbind, SR_bind, modify, get_st. cbn zeta.
  destruct (check_token cancelled 0 e) as [e0 r0] eqn:Ht0. apply check_token_frame in Ht0 as [-> [->| ->]];
    [|by intros [= <- <-]].
  destruct (rotate_for_compaction e He) as [He1 Hv1]. cbn zeta in He1, Hv1.
  match type of He1 with store_ok ?x => set (e1 := x) in * end. clearbody e1.
  destruct (check_token cancelled 1 e1) as [e2 r2] eqn:Ht2. apply check_token_frame in Ht2 as [-> [->| ->]];
    [|by intros [= <- <-]].
  fold (immutable_ids e1). destruct (immutable_ids e1) as [|id0 ids0] eqn:Hids.
  { split_if; [|by intros [= <- <-]]. intros (w & c & ->)%rewrite_snapshot_frame. done. }
  rewrite <-Hids. clear id0 ids0 Hids.
  destruct (collect_entries _ _ _ _ _) as [e3 r3] eqn:Hcol.
  destruct (collect_entries_spec _ _ _ _ _ _ _ He1 (index_ptrs_ok _ He1) Hcol) as (c3 & -> & He3 & _ & Hr3).
  set (e3 := e_with_cache c3 e1) in *. assert (store_view e3 = store_view e) as Hv3 by exact Hv1.
  destruct Hr3 as [->|[-> _]]; [|by intros [= <- <-]].
  destruct (check_token cancelled _ e3) as [e3' r3'] eqn:Ht3. apply check_token_frame in Ht3 as [-> [->| ->]];
    [|by intros [= <- <-]].
  destruct (reserve_ok e3 He3) as (He4 & Hu4 & Hv4).
  change (next_segment_id e1) with (next_segment_id e3). set (e4 := e_with_segments _ _ _ e3) in *.
  destruct (compact_into _ _ _ _ e4) as [e5 r5] eqn:Hci.
  assert (values_small e4) as Hsm by (intros k v Hk; apply (Hv k); rewrite <-Hk; congruence).
  apply compact_into_spec in Hci as [[c5 ->] Hr5]; [|by eexists|exact (collected_small e4 _ Hsm)|exact (collected_NoDup e4 _)].
  destruct r5 as [[g m]| |]; [|by intros [= <- <-]; rewrite <-Hv3, <-Hv4..].
  destruct (Hr5 g m eq_refl) as (Hf & Hid & Hin & Hout).
  destruct (cancelled _); [by intros [= <- <-]; rewrite <-Hv3, <-Hv4|].
  set (e6 := e_with_idx _ _). intros (w & c & ->)%rewrite_snapshot_frame.
  change (store_ok e6 ∧ store_view e6 = store_view e).
  rewrite <-Hv3, <-Hv4.
  eapply (swap_rebuilt (e_with_ctr c5 e4) e6 (immutable_ids e1) m (next_segment_id e3) 1 g); done.
Qed.

(** ** Spilling inlined documents *)

Lemma inlined_elem (m : gmap bytes Pointer) k v : (k, v) ∈ inlined_entries (hash_iter m) ↔ m !! k = Some (PInlined v).
Proof.
  unfold inlined_entries. rewrite list_elem_of_omap. split.
  - intros ([k' p] & Hin & E). apply hash_iter_lookup in Hin. cbn [fst snd] in E. destruct p; try done. by injection E as -> ->.
  - intros Hk. exists (k, PInlined v). split; [by apply hash_iter_lookup|done].
Qed.

Lemma inlined_NoDup (m : gmap bytes Pointer) : NoDup (inlined_entries (hash_iter m)).*1.
Proof.
  apply omap_fst_NoDup; [|apply hash_iter_keys]. intros [k p] kv. cbn [fst snd]. destruct p; try done. by intros [= <-].
Qed.

Lemma update_entries_index x (l : list (bytes * Pointer)) :
  NoDup l.*1 →
  index (foldl (λ x kp, update_index_entry x kp.1 (Some kp.2)) x l) = list_to_map l ∪ index x.
Proof.
  intros Hnd. rewrite <-(map_fmap_id (list_to_map l)), <-(fold_upd_list id l (index x) Hnd).
  clear Hnd. revert x; induction l as [|[k p] l IH]; intros x; [done|]. rewrite fmap_cons. cbn [foldl fst snd upd id].
  rewrite IH. f_equal. unfold update_index_entry. by split_if.
Qed.

Lemma update_entries_inv x (l : list (bytes * Pointer)) :
  idx_inv x → idx_inv (foldl (λ x kp, update_index_entry x kp.1 (Some kp.2)) x l).
Proof. revert x; induction l as [|kp l IH]; intros x Hx; [done|]. by apply IH, update_index_entry_inv. Qed.

Lemma seg_flush_extends s s' : seg_flush s = Ok s' → extends s s'.
Proof.
  unfold seg_flush. destruct (seg_file s) as [f|] eqn:Hf; [|done]. cbn [or_panic]. rewrite res_ok_bind.
  intros [= <-]. exists f, (f_sync f), []. by rewrite app_nil_r.
Qed.

(** Spilling keeps every value, failing or succeeding. *)
Lemma checkpoint_view now e e' r :
  store_ok e → values_small e → checkpoint_inlined_data now e = (e', r) →
  store_ok e' ∧ store_view e' = store_view e.
Proof.
  intros He Hv. unfold checkpoint_inlined_data, mbind, SR_bind, modify, get_st, lift. cbn zeta.
  split_if; [by intros [= <- <-]|].
  destruct (inlined_entries _) as [|x0 l0] eqn:Hl; [by intros [= <- <-]|]. rewrite <-Hl. clear x0 l0 Hl.
  destruct (reserve_ok e He) as (He1 & Hu1 & Hv1). set (e1 := e_with_segments _ _ _ e) in *.
  destruct (compact_into _ _ _ _ e1) as [e2 r2] eqn:Hci.
  apply compact_into_spec in Hci as [[c2 ->] Hr2]; [|by eexists| |apply inlined_NoDup].
  2: { apply Forall_forall. intros [k v] Hk%inlined_elem. apply (Hv k). by rewrite view_lookup, Hk. }
  destruct r2 as [[g m]| |]; [|by intros [= <- <-]..].
  destruct (Hr2 g m eq_refl) as (Hf & Hid & Hin & Hout).
  destruct (seg_flush g) as [g'| |] eqn:Hfl; [|by intros [= <- <-]..].
  pose proof (seg_flush_extends _ _ Hfl) as Hx.
  set (e4 := e_with_segments (<[next_segment_id e:=(0, g')]> _) _ _ _).
  destruct (rewrite_wal_snapshot now e4) as [e5 r5] eqn:Hrw. intros Hres.
  assert (e' = e5) as -> by (unfold mret, SR_ret in Hres; destruct r5; cbn beta iota in Hres; congruence).
  apply rewrite_snapshot_frame in Hrw as (w & c & ->). change (store_ok e4 ∧ store_view e4 = store_view e).
  rewrite <-Hv1. eapply (relocate e1 e4 m (next_segment_id e) 0 g' []); try done.
  - by eapply extends_file.
  - destruct Hx as (? & ? & ? & _ & _ & _ & _ & ->). done.
  - intros k p' Hk.
    destruct (decide (k ∈ (inlined_entries (hash_iter (index (idx e)))).*1)) as [Hel|Hel]; [|rewrite Hout in Hk; done].
    apply list_elem_of_fmap in Hel as ([k0 v] & -> & Hel). cbn [fst] in *. destruct (Hin _ _ Hel) as (off & len & Hk' & Hr).
    apply inlined_elem in Hel. exists off, len, v, (PInlined v). split_and!; [congruence|by eapply rec_at_extends|done|done].
  - intros k sid off len _ Hn. by apply not_elem_of_nil in Hn.
  - cbn [idx e4 e_with_segments e_with_idx]. rewrite update_entries_index by apply hash_iter_keys. f_equal.
    rewrite (list_to_map_proper _ _ (hash_iter_keys m) (hash_iter_perm m)). apply list_to_map_to_list.
  - apply update_entries_inv, He.
Qed.

(** ** Tiered compaction with concurrent writers *)

(** What a writer may have done between two phases of a merge of [s1] and
    [s2] into [tid]: no key was redirected into the merged segments, and their
    records are still there. *)
Definition undisturbed (ids : list Z) (tid : Z) e e' : Prop :=
  grows e e' ∧ (unused e tid → unused e' tid) ∧
  (∀ k sid off len, index (idx e') !! k = Some (PSegment sid off len) → sid ∈ ids →
     index (idx e) !! k = Some (PSegment sid off len)).

Lemma undisturbed_refl ids tid e : store_ok e → undisturbed ids tid e e.
Proof. intros He. split_and!; [by apply grows_refl, He|done|done]. Qed.

Lemma undisturbed_trans ids tid e1 e2 e3 :
  undisturbed ids tid e1 e2 → undisturbed ids tid e2 e3 → undisturbed ids tid e1 e3.
Proof.
  intros (G1 & U1 & P1) (G2 & U2 & P2). split_and!; [by eapply grows_trans|auto|].
  intros k sid off len Hk Hid. eapply P1; [|done]. by eapply P2.
Qed.

(** The last phase of a merge. *)
Lemma merge_commit_view now p g m e1 e e' r :
  store_ok e1 → store_ok e → unused e1 (p_target_id p) →
  undisturbed [p_s1 p; p_s2 p] (p_target_id p) e1 e →
  is_Some (seg_file g) → segment_id g = p_target_id p →
  (∀ k v : bytes, (k, v) ∈ omap (seg_entry e1 [p_s1 p; p_s2 p]) (hash_iter (index (idx e1))) →
     ∃ off len, m !! k = Some (PSegment (p_target_id p) off len) ∧ rec_at g off len v) →
  (∀ k : bytes, k ∉ (omap (seg_entry e1 [p_s1 p; p_s2 p]) (hash_iter (index (idx e1)))).*1 → m !! k = None) →
  merge_commit now p g m e = (e', r) →
  store_ok e' ∧ store_view e' = store_view e.
Proof.
  intros He1 He Hu1 (Hg & Hun & Hpt) Hf Hid Hin Hout. specialize (Hun Hu1). set (ids := [p_s1 p; p_s2 p]) in *.
  unfold merge_commit, mbind, SR_bind, get_st, modify. cbn zeta.
  split_if; [|by intros [= <- <-]].
  set (e2 := e_with_idx _ _). intros Hrun.
  assert (∃ w c, e' = e_with_wal w c e2) as (w & c & ->).
  { destruct (rewrite_wal_snapshot now e2) as [e3 r3] eqn:Hrw. apply rewrite_snapshot_frame in Hrw as (w & c & ->).
    destruct r3; [|by injection Hrun as <- <-; eauto..]. injection Hrun as <- <-. by eexists _, _. }
  change (store_ok e2 ∧ store_view e2 = store_view e). clear Hrun.
  assert (∀ k p', filter (λ kp, still_merged p (idx e) kp.1 = true) m !! k = Some p' →
    ∃ off len v sid o n, p' = PSegment (p_target_id p) off len ∧ rec_at g off len v ∧
      index (idx e) !! k = Some (PSegment sid o n) ∧ ptr_value e (PSegment sid o n) = Some v) as Hm.
  { intros k p' [Hk Hst]%map_lookup_filter_Some. cbn [fst] in Hst. unfold still_merged in Hst.
    destruct (index (idx e) !! k) as [[sid o n| | | | |]|] eqn:Hidx; try done.
    assert (sid ∈ ids) as Hids. { subst ids. apply orb_prop in Hst as [Hst|Hst]; apply Z.eqb_eq in Hst; set_solver. }
    pose proof (Hpt _ _ _ _ Hidx Hids) as Hidx1.
    destruct (rebuilt_spec e1 ids g m _ Hin Hout k p' Hk) as (off & len & v & sid1 & o1 & n1 & -> & Hr & Hk1 & _ & Hv1).
    assert (PSegment sid1 o1 n1 = PSegment sid o n) as E by congruence. rewrite E in Hv1.
    exists off, len, v, sid, o, n. split_and!; try done. rewrite <-Hv1. apply grows_ptr; [done|].
    destruct He1 as (_ & _ & Hp1 & _). by eapply Hp1. }
  eapply (relocate e e2 (filter (λ kp, still_merged p (idx e) kp.1 = true) m) (p_target_id p) (p_level p + 1) g ids); try done.
  - intros k p' Hk. destruct (Hm _ _ Hk) as (off & len & v & sid & o & n & ? & ? & ? & ?).
    by exists off, len, v, (PSegment sid o n).
  - intros k sid off len Hk Hids. pose proof (Hpt _ _ _ _ Hk Hids) as Hk1.
    destruct (collected_all _ _ _ _ _ _ He1 Hk1 Hids) as [v Hv]. destruct (Hin _ _ Hv) as (off' & len' & Hmk & _).
    exists (PSegment (p_target_id p) off' len'). apply map_lookup_filter_Some. split; [done|]. cbn [fst].
    unfold still_merged. rewrite Hk. subst ids. rewrite elem_of_cons, list_elem_of_singleton in Hids.
    destruct Hids as [->| ->]; rewrite Z.eqb_refl; [done|apply orb_true_r].
  - apply swap_pointers_inv; [apply He|]. intros k p' Hk.
    destruct (Hm _ _ Hk) as (off & len & v & sid & o & n & ? & ? & ? & ?). split; eauto.
Qed.

(** What a batch does to the segments and to the pointers: at most one new
    segment, which becomes active, and new pointers into the active one only. *)
Definition writer e e' : Prop :=
  grows e e' ∧ cache e' = cache e ∧ next_segment_id e <= next_segment_id e' ∧
  (active_segment_id e' = active_segment_id e ∨ next_segment_id e <= active_segment_id e') ∧
  (∀ sid, is_Some (segments e' !! sid) → is_Some (segments e !! sid) ∨ next_segment_id e <= sid) ∧
  (∀ k sid off len, index (idx e') !! k = Some (PSegment sid off len) →
     sid = active_segment_id e' ∨ index (idx e) !! k = Some (PSegment sid off len)).

Lemma writer_refl e : store_ok e → writer e e.
Proof. intros He. split_and!; try done; [by apply grows_refl, He|by left|by left|by right]. Qed.

Lemma writer_trans e1 e2 e3 :
  writer e1 e2 → writer e2 e3 → active_segment_id e3 = active_segment_id e2 → writer e1 e3.
Proof.
  intros (G1 & C1 & N1 & A1 & S1 & P1) (G2 & C2 & N2 & A2 & S2 & P2) E. split_and!.
  - by eapply grows_trans.
  - congruence.
  - lia.
  - rewrite E. done.
  - intros sid Hs. destruct (S2 _ Hs) as [Hs'|Hs']; [by apply S1|right; lia].
  - intros k sid off len Hk. destruct (P2 _ _ _ _ Hk) as [->|Hk']; [by left|]. rewrite E. by eapply P1.
Qed.

Lemma rotate_writer e e' r :
  store_ok e → maybe_rotate_active_segment e = (e', r) → writer e e'.
Proof.
  intros He Hrot. destruct (rotate_view _ _ _ He Hrot) as (_ & _ & Hg & _).
  assert (e' = e ∨ e' = e_with_segments (<[next_segment_id e := (0, fresh_segment e)]> (segments e)) (next_segment_id e) (next_segment_id e + 1) e) as Hc.
  { revert Hrot. unfold maybe_rotate_active_segment, mbind, SR_bind, get_st.
    destruct (segments e !! active_segment_id e) as [[l g]|]; [|intros [= <- <-]; by left].
    split_if; intros [= <- <-]; [by left|by right]. }
  destruct Hc as [->| ->].
  - split_and!; try done; try (by left). by right.
  - split_and!; try done; cbn [next_segment_id active_segment_id segments idx e_with_segments]; [lia|right; lia| |by right].
    intros sid [[l s] Hs]. apply lookup_insert_Some in Hs as [[<- _]|[_ Hs]]; [right; lia|left; eauto].
Qed.

Lemma foldl_upd_ptr us m (k : bytes) p :
  foldl upd m us !! k = Some p → (k, Some p) ∈ us ∨ m !! k = Some p.
Proof.
  revert m; induction us as [|[k' p'] us IH]; intros m Hk; [by right|]. cbn [foldl] in Hk.
  destruct (IH _ Hk) as [Hin|Hm]; [left; by apply elem_of_cons; right|]. cbn [upd] in Hm.
  destruct p' as [p'|].
  - apply lookup_insert_Some in Hm as [[-> ->]|[_ Hm]]; [left; by apply elem_of_cons; left|by right].
  - apply lookup_delete_Some in Hm as [_ Hm]. by right.
Qed.

Lemma write_medium_writer e a e' r :
  store_ok e → is_Some (segments e !! active_segment_id e) → Forall (λ kv, zlen kv.2 < 2 ^ 30) (a_puts a) →
  write_medium a e = (e', r) →
  writer e e' ∧ active_segment_id e' = active_segment_id e ∧
  (∀ a' k sid off len, r = Ok a' → (k, Some (PSegment sid off len)) ∈ a_updates a' →
     sid = active_segment_id e ∨ (k, Some (PSegment sid off len)) ∈ a_updates a).
Proof.
  intros He [[l s] Hs] Hv. unfold write_medium. destruct (a_puts a) as [|p0 ps] eqn:Hps.
  { intros [= <- <-]. split_and!; [by apply writer_refl|done|].
    intros a' k sid off len [= <-] Hin. by right. }
  rewrite <-Hps in *. clear p0 ps Hps. rewrite Hs. pose proof He as (Hsegs & _). destruct (Hsegs _ _ _ Hs) as (_ & _ & Hf).
  destruct (seg_append_batch _ _ _) as [[c s'] r'] eqn:Hap. cbn zeta. intros Hres.
  assert (extends s s') as Hx.
  { destruct r' as [offs| |]; [|by eapply (seg_append_batch_err _ _ _ _ _ _ Hf Hap)..].
    eapply (seg_append_batch_reads _ _ _ _ _ _ Hf); [|exact Hap]. apply Forall_fmap. exact Hv. }
  destruct (extend_segment_ok e _ l s l s' c He Hs Hx) as (_ & _ & Hg1).
  set (e1 := e_with_ctr _ _) in *. assert (e' = e1) as -> by (destruct r'; congruence).
  split_and!; [split_and!; try done; [by left| |by right]|done|].
  - intros sid [[l1 s1] Hs1]. cbn [segments e1 e_with_ctr e_with_wal e_with_segments] in Hs1.
    apply lookup_insert_Some in Hs1 as [[<- _]|[_ Hs1]]; left; eauto.
  - intros a' k sid off len -> Hin. destruct r' as [offs| |]; [|done..].
    assert (a_updates a' = a_updates a ++ ((λ '(key, (offset, len)), (key, Some (PSegment (active_segment_id e) offset len)))
      <$> zip (a_puts a).*1 offs)) as E by (injection Hres as <-; done).
    rewrite E in Hin. apply elem_of_app in Hin as [Hin|Hin]; [by right|left].
    apply list_elem_of_fmap in Hin as ([k' [o n]] & Heq & _). congruence.
Qed.

Lemma apply_batch_writer nm now ms ir e e' r :
  store_ok e → Forall (λ m, zlen (put_kv m).2 < 2 ^ 30) ms →
  apply_batch nm now ms ir e = (e', r) → writer e e'.
Proof.
  intros He Hms. pose proof (writer_refl e He) as Hrefl.
  destruct ms as [|m ms0]; [by intros [= <- <-]|]. unfold apply_batch. set (ms := m :: ms0) in *.
  unfold mbind, SR_bind, get_st, modify. cbn beta iota zeta.
  set (e0 := e_with_tx (next_tx_id e + 1) e). assert (store_ok e0) as He0 by done.
  destruct (maybe_rotate_active_segment e0) as [e1 r1] eqn:Hrot.
  pose proof (rotate_writer _ _ _ He0 Hrot) as Hw1. destruct (rotate_view _ _ _ He0 Hrot) as (He1 & _ & _ & Hact).
  destruct (maybe_rotate_frame _ _ _ Hrot) as (_ & _ & Hth & _).
  destruct r1 as [[]| |]; [|by intros [= <- <-]..].
  destruct (batch_fold_updates nm e1 ms (mkAcc [BeginTx (next_tx_id e)] [] [] [])) as [Hus Hps].
  set (a := foldl _ _ ms) in *. cbn [a_updates a_puts app] in Hus, Hps.
  assert (Forall (λ kv, zlen kv.2 < 2 ^ 30) (a_puts a)) as Hsz.
  { rewrite Hps. apply Forall_fmap, Forall_forall. intros m1 Hm1.
    apply list_elem_of_In, filter_In in Hm1 as [Hm1 _]. rewrite Forall_forall in Hms. by apply Hms, list_elem_of_In. }
  destruct (write_medium a e1) as [e2 r2] eqn:Hmed.
  destruct (write_medium_writer _ _ _ _ He1 (Hact eq_refl) Hsz Hmed) as (Hw2 & Ha2 & Hups).
  destruct (write_medium_view _ _ _ _ He1 (Hact eq_refl) Hsz Hmed) as (He2 & _ & Hi2 & _).
  assert (writer e e2) as Hw by (by eapply (writer_trans e0 e1 e2)).
  destruct r2 as [a2| |]; [|by intros [= <- <-]..].
  unfold on_wal. destruct (append_batch now _ _ _ _) as [[c w] r3].
  destruct r3 as [u| |]; [|by intros [= <- <-]..]. intros [= <- <-].
  destruct Hw as (G & C & N & A & S & P). split_and!; try done.
  intros k sid off len. cbn [idx e_with_idx e_with_wal active_segment_id]. rewrite update_batch_index by apply He2.
  intros [Hin|Hold]%foldl_upd_ptr; [|by apply P].
  destruct (Hups _ _ _ _ _ eq_refl Hin) as [->|Hin0]; [by left|]. exfalso. rewrite Hus in Hin0.
  apply list_elem_of_fmap in Hin0 as ([|] & [=] & _).
Qed.

(** Batches between the phases of a merge do not disturb it. *)
Lemma writer_undisturbed ids tid e e' :
  store_ok e → unused e tid → Forall (λ id, id < next_segment_id e) ids → active_segment_id e ∉ ids → writer e e' →
  undisturbed ids tid e e' ∧ active_segment_id e' ∉ ids.
Proof.
  intros He Hu Hids Ha (G & C & N & A & S & P). rewrite Forall_forall in Hids.
  assert (active_segment_id e' ∉ ids) as Ha'.
  { destruct A as [->|A]; [done|]. intros Hin. specialize (Hids _ Hin). lia. }
  split; [|done]. split_and!; [done| |].
  - intros (U1 & U2 & U3). split_and!; [lia| |by intros off; rewrite C].
    apply eq_None_not_Some. intros Hs. destruct (S _ Hs) as [[x Hx]|Hx]; [congruence|lia].
  - intros k sid off len Hk Hin. destruct (P _ _ _ _ Hk) as [->|Hk']; [done|exact Hk'].
Qed.

(** Committed batches, in order. *)
Inductive batches : list (list StorageMutation) → StorageEngine cipher → StorageEngine cipher → Prop :=
| batches_nil e : batches [] e e
| batches_cons nm now ms ir mss e e1 e2 x :
    Forall (λ m, zlen (put_kv m).2 < 2 ^ 30) ms → apply_batch nm now ms ir e = (e1, Ok x) →
    batches mss e1 e2 → batches (ms :: mss) e e2.

Lemma apply_batch_threshold nm now ms ir e e' r :
  apply_batch nm now ms ir e = (e', r) → blob_threshold e' = blob_threshold e.
Proof.
  destruct ms as [|m ms0]; [by intros [= <- <-]|]. unfold apply_batch, mbind, SR_bind, get_st, modify. cbn beta iota zeta.
  destruct (maybe_rotate_active_segment _) as [e1 r1] eqn:Hrot. apply maybe_rotate_frame in Hrot as (_ & _ & Hth & _).
  destruct r1; [|by intros [= <- <-]..]. destruct (write_medium _ e1) as [e2 r2] eqn:Hmed.
  assert (blob_threshold e2 = blob_threshold e1) as Hth2.
  { revert Hmed. unfold write_medium. destruct (a_puts _); [by intros [= <- _]|].
    destruct (segments e1 !! _) as [[lv sg]|]; [|by intros [= <- _]].
    destruct (seg_append_batch _ _ _) as [[c s'] [|?er|]]; by intros [= <- _]. }
  rewrite <-Hth2 in Hth. destruct r2; [|by intros [= <- <-]..]. unfold on_wal.
  destruct (append_batch _ _ _ _ _) as [[c w] [|?er|]]; by intros [= <- <-].
Qed.

Lemma vupd_small m kvs :
  (∀ (k v : bytes), m !! k = Some v → zlen v < 2 ^ 30) →
  Forall (λ kv : bytes * option bytes, ∀ v, kv.2 = Some v → zlen v < 2 ^ 30) kvs →
  ∀ k v, foldl vupd m kvs !! k = Some v → zlen v < 2 ^ 30.
Proof.
  intros Hm Hkvs. revert m Hm; induction Hkvs as [|[k0 ov] kvs Hov Hkvs IH]; intros m Hm; [done|]. cbn [foldl].
  apply IH. intros k v. unfold vupd. cbn [fst snd] in *. destruct ov as [v0|].
  - intros [[-> ->]|[_ Hk]]%lookup_insert_Some; [by apply Hov|by eapply Hm].
  - intros [_ Hk]%lookup_delete_Some. by eapply Hm.
Qed.

Lemma batch_values_small th ms :
  Forall (λ m, zlen (put_kv m).2 < 2 ^ 30) ms →
  Forall (λ kv : bytes * option bytes, ∀ v, kv.2 = Some v → zlen v < 2 ^ 30) (mut_val <$> batch_order th ms).
Proof.
  intros Hms. apply Forall_fmap. unfold batch_order. rewrite filter_split_perm.
  eapply Forall_impl; [exact Hms|]. intros [k v|k]; cbn; [|done]. by intros Hv v' [= <-].
Qed.

(** Committed batches: the store, and what they may not touch. *)
Lemma batches_spec mss e e' ids tid :
  batches mss e e' → store_ok e → values_small e →
  unused e tid → Forall (λ id, id < next_segment_id e) ids → active_segment_id e ∉ ids →
  store_ok e' ∧ values_small e' ∧ undisturbed ids tid e e' ∧ active_segment_id e' ∉ ids ∧
  next_segment_id e <= next_segment_id e' ∧ blob_threshold e' = blob_threshold e ∧
  store_view e' = foldl vupd (store_view e) (mut_val <$> (mss ≫= batch_order (blob_threshold e))).
Proof.
  induction 1 as [e|nm now ms ir mss e e1 e2 x Hms Hap Hb IH]; intros He Hv Hu Hids Ha.
  { split_and!; try done. by apply undisturbed_refl. }
  destruct (apply_batch_view _ _ _ _ _ _ _ He Hms Hap) as (He1 & Hview & _). specialize (Hview x eq_refl).
  pose proof (apply_batch_writer _ _ _ _ _ _ _ He Hms Hap) as Hw.
  destruct (writer_undisturbed ids tid _ _ He Hu Hids Ha Hw) as [Hun Ha1].
  pose proof (apply_batch_threshold _ _ _ _ _ _ _ Hap) as Hth.
  assert (next_segment_id e <= next_segment_id e1) as Hn by apply Hw.
  assert (values_small e1) as Hv1 by (intros k v; rewrite Hview; apply vupd_small; [done|by apply batch_values_small]).
  assert (unused e1 tid) as Hu1 by (by apply Hun).
  assert (Forall (λ id, id < next_segment_id e1) ids) as Hids1 by (eapply Forall_impl; [exact Hids|]; cbn; lia).
  destruct (IH He1 Hv1 Hu1 Hids1 Ha1) as (He2 & Hv2 & Hun2 & Ha2 & Hn2 & Hth2 & Hview2).
  split_and!; try done; [by eapply undisturbed_trans|lia|congruence|].
  rewrite Hview2, Hview, Hth, bind_cons, fmap_app, foldl_app. done.
Qed.

(** Tiered compaction between concurrent batches is invisible. *)
Lemma merge_view now level (s1 s2 : Z) p g m mss1 mss2 e e0 e1 e2 e3 e4 r :
  store_ok e → values_small e → tier_candidate e level s1 s2 →
  merge_prep level s1 s2 e = (e0, Ok p) → batches mss1 e0 e1 →
  merge_collect p e1 = (e2, Ok (g, m)) → batches mss2 e2 e3 →
  merge_commit now p g m e3 = (e4, r) →
  store_ok e4 ∧
  store_view e4 = foldl vupd (store_view e) (mut_val <$> ((mss1 ++ mss2) ≫= batch_order (blob_threshold e))).
Proof.
  intros He Hv (Hne & Ha1 & Ha2 & [g1 Hg1] & [g2 Hg2]) Hprep Hb1 Hcol Hb2 Hcom.
  unfold merge_prep, mbind, SR_bind, get_st, modify in Hprep. injection Hprep as <- <-.
  destruct (reserve_ok e He) as (He0 & Hu0 & Hv0). set (e0 := e_with_segments _ _ _ e) in *.
  set (p := mkPrep level s1 s2 (next_segment_id e)) in *.
  pose proof He0 as (Hsegs & _).
  assert (Forall (λ id, id < next_segment_id e0) [s1; s2]) as Hids.
  { repeat constructor; by eapply (Hsegs _ level). }
  assert (active_segment_id e0 ∉ [s1; s2]) as Hact by (cbn; rewrite not_elem_of_cons, list_elem_of_singleton; done).
  destruct (batches_spec _ _ _ [s1; s2] (next_segment_id e) Hb1 He0 ltac:(by intros k v; rewrite Hv0; apply Hv) Hu0 Hids Hact)
    as (He1 & Hsm1 & Hun1 & Hact1 & Hn1 & Hth1 & Hview1).
  assert (unused e1 (next_segment_id e)) as Hu1 by (by apply Hun1).
  unfold merge_collect, mbind, SR_bind, get_st in Hcol.
  destruct (collect_entries _ _ _ _ e1) as [e1' rc] eqn:Hce.
  destruct (collect_entries_spec _ _ _ _ _ _ _ He1 (index_ptrs_ok _ He1) Hce) as (c1 & -> & He1' & Hu1' & Hrc).
  destruct Hrc as [->|[_ [j Hj]]]; [|done]. specialize (Hu1' _ Hu1). set (e1' := e_with_cache c1 e1) in *.
  apply compact_into_spec in Hcol as [[c2 ->] Hr2]; [|by eexists|exact (collected_small e1' _ Hsm1)|exact (collected_NoDup e1' _)].
  destruct (Hr2 g m eq_refl) as (Hf & Hid & Hin & Hout). set (e2 := e_with_ctr c2 e1') in *.
  assert (Forall (λ id, id < next_segment_id e2) [s1; s2]) as Hids2.
  { eapply Forall_impl; [exact Hids|]. cbn [next_segment_id e2 e1' e_with_ctr e_with_wal e_with_cache]. lia. }
  destruct (batches_spec _ _ _ [s1; s2] (next_segment_id e) Hb2 (He1' : store_ok e2) Hsm1 Hu1' Hids2 Hact1)
    as (He3 & Hsm3 & Hun3 & _ & _ & _ & Hview3).
  destruct (merge_commit_view now p g m e2 e3 e4 r) as [He4 Hv4]; try done.
  split; [done|]. rewrite Hv4, Hview3. change (store_view e2) with (store_view e1).
  change (blob_threshold e2) with (blob_threshold e1). rewrite Hview1, Hth1, Hv0.
  by rewrite bind_app, fmap_app, foldl_app.
Qed.
End Compact.
