(* ===== verification/StorageReopen.v ===== *)
(** * Reopening a collection

    The directory that an engine leaves behind when its log is flushed, and the
    engine that [StorageEngine::open] builds from it: the segment files are
    found by their names, the index is rebuilt from the log, and the store is
    the one that was closed. *)

From stdpp Require Import prelude list gmap strings.
From Stdlib Require Import ZArith Lia.
From S2P Require Import Prelude RustStd Error Config Crypto VFile Doc DocFacts Wal WalFacts PageCache StorageIndex.
From S2P Require Import StorageIndexFacts Segment SegmentFacts Blob Storage StorageMaint StorageFacts StorageView.
From S2P Require Import StorageCompact.

Local Open Scope Z_scope.
Local Open Scope hako_scope.

(** ** Segment file names *)

(** [Display] for unsigned integers; twenty digits hold every [u64]. *)
Fixpoint dec_loop (fuel : nat) (n : Z) (acc : bytes) : bytes :=
  match fuel with
  | O => acc
  | S fuel =>
      let acc := (48 + n mod 10) :: acc in
      if n / 10 =? 0 then acc else dec_loop fuel (n / 10) acc
  end.
Definition dec (n : Z) : bytes := dec_loop 20 n [].

(** [segment_path], below the directory. *)
Definition segment_name (level id : Z) : bytes :=
  b#("segment-l") ++ dec level ++ [45] ++ dec id ++ b#(".dat").

Lemma dec_loop_value fuel n acc :
  0 <= n < 10 ^ Z.of_nat fuel →
  foldl (λ a d, a * 10 + (d - 48)) 0 (dec_loop fuel n acc) = foldl (λ a d, a * 10 + (d - 48)) n acc.
Proof.
  revert n acc; induction fuel as [|fuel IH]; intros n acc Hn; cbn [dec_loop].
  { change (10 ^ Z.of_nat 0) with 1 in Hn. by replace n with 0 by lia. }
  rewrite Nat2Z.inj_succ, Z.pow_succ_r in Hn by lia.
  pose proof (Z.div_mod n 10 ltac:(lia)) as Hdm. pose proof (Z.mod_pos_bound n 10 ltac:(lia)).
  split_if.
  - cbn [foldl]. f_equal. lia.
  - rewrite IH; [cbn [foldl]; f_equal; lia|]. split; [apply Z.div_pos; lia|]. apply Z.div_lt_upper_bound; lia.
Qed.

Lemma dec_loop_digits fuel n acc : forallb is_digit acc = true → forallb is_digit (dec_loop fuel n acc) = true.
Proof.
  revert n acc; induction fuel as [|fuel IH]; intros n acc Ha; cbn [dec_loop]; [done|].
  assert (forallb is_digit ((48 + n mod 10) :: acc) = true) as Hd.
  { cbn [forallb]. rewrite Ha, andb_true_r. unfold is_digit. pose proof (Z.mod_pos_bound n 10 ltac:(lia)).
    apply andb_true_iff. split; apply Z.leb_le; lia. }
  split_if; [exact Hd|by apply IH].
Qed.

Lemma dec_loop_nonempty fuel n acc : acc ≠ [] → dec_loop fuel n acc ≠ [].
Proof.
  revert n acc; induction fuel as [|fuel IH]; intros n acc Ha; cbn [dec_loop]; [done|]. split_if; [done|by apply IH].
Qed.

Lemma dec_digits n : forallb is_digit (dec n) = true.
Proof. by apply dec_loop_digits. Qed.

Lemma dec_nonempty n : dec n ≠ [].
Proof. unfold dec. cbn [dec_loop]. split_if; [done|]. apply (dec_loop_nonempty 19). done. Qed.

Lemma parse_dec bound n : 0 <= n < bound → bound <= 10 ^ 20 → parse_uint bound (dec n) = Some n.
Proof.
  intros Hn Hb. unfold parse_uint. pose proof (dec_digits n) as Hd. pose proof (dec_nonempty n) as Hne.
  assert (foldl (λ a d, a * 10 + (d - 48)) 0 (dec n) = n) as Hv by (apply (dec_loop_value 20 n []); lia).
  destruct (dec n) as [|d ds]; [done|].
  assert (match d :: ds with 43 :: r => r | _ => d :: ds end = d :: ds) as ->.
  { cbn [forallb] in Hd. bool_simpl. unfold is_digit in *. bool_simpl.
    destruct d as [|q|q]; try done. do 6 (destruct q as [q|q|]; try done; try lia). }
  rewrite Hd. cbn zeta. rewrite Hv. split_if; [done|lia].
Qed.

Lemma split_once_digits ds rest :
  forallb is_digit ds = true → split_once 45 (ds ++ [45] ++ rest) = Some (ds, rest).
Proof.
  induction ds as [|d ds IH]; [done|]. cbn [forallb app split_once]. intros Hd. bool_simpl. unfold is_digit in *. bool_simpl.
  split_if; [lia|]. change (ds ++ 45 :: rest) with (ds ++ [45] ++ rest). by rewrite IH.
Qed.

(** Segment numbers and levels survive the file name. *)
Lemma parse_segment_name_roundtrip level id :
  is_u32 level → is_u64 id → parse_segment_name (segment_name level id) = Some (level, id).
Proof.
  intros Hl Hi. unfold parse_segment_name, segment_name.
  set (core := dec level ++ [45] ++ dec id).
  assert (b#("segment-l") ++ dec level ++ [45] ++ dec id ++ b#(".dat") = b#("segment-l") ++ core ++ b#(".dat")) as ->.
  { subst core. by rewrite <-!app_assoc. }
  assert (starts_with (b#("segment-l") ++ core ++ b#(".dat")) b#("segment-l") = true) as ->.
  { apply starts_with_prefix. by eexists. }
  assert (ends_with (b#("segment-l") ++ core ++ b#(".dat")) b#(".dat") = true) as ->.
  { unfold ends_with. apply starts_with_prefix. rewrite !rev_app_distr, <-app_assoc. by eexists. }
  cbn [negb orb]. rewrite !length_app. change (length b#("segment-l")) with 9%nat. change (length b#(".dat")) with 4%nat.
  replace (9 + (length core + 4) - 4)%nat with (9 + length core)%nat by lia.
  assert (take (9 + length core) (b#("segment-l") ++ core ++ b#(".dat")) = b#("segment-l") ++ core) as ->.
  { rewrite app_assoc. apply take_app_length'. rewrite length_app. done. }
  rewrite (drop_app_length' b#("segment-l") core 9) by done. subst core.
  rewrite split_once_digits by apply dec_digits. cbn [mbind option_bind].
  unfold is_u32, is_u64 in *. by rewrite !parse_dec by lia.
Qed.

(** ** The segments of a directory *)

Section Reopen.
Context `{CrcLaws} `{ZstdLaws} `{HashIterLaws} {cipher : Type} `{AeadLaws cipher}.
Implicit Types (e : StorageEngine cipher) (w : Wal cipher) (s : Segment cipher).

Definition seg_contents s : bytes := match seg_file s with Some f => contents f | None => [] end.

(** The files of an engine. *)
Definition segment_files e : list (bytes * bytes) :=
  (λ '(id, (level, s)), (segment_name level id, seg_contents s)) <$> map_to_list (segments e).
Definition dir_of e : Dir :=
  mkDir (contents (file (wal e))) (match blob_manager e with Some b => blob_file b | None => [] end) (segment_files e).

(** Names that fit their types. *)
Definition names_ok (l : list (Z * (Z * Segment cipher))) : Prop :=
  Forall (λ x, is_u32 x.2.1 ∧ is_u64 x.1) l.

Lemma open_segments_spec (enc : option (EncryptionContext cipher)) (l : list (Z * (Z * Segment cipher))) :
  names_ok l → NoDup l.*1 →
  ∃ segs max, open_segments enc ((λ '(id, (level, s)), (segment_name level id, seg_contents s)) <$> l) = (segs, max, max) ∧
    0 <= max ∧ ((segs = ∅ ∧ max = 0) ∨ is_Some (segs !! max)) ∧ (∀ id, is_Some (segs !! id) → id <= max) ∧
    (∀ id, segs !! id = (λ ls, (ls.1, seg_open (seg_contents ls.2) id enc)) <$> (list_to_map l : gmap Z _) !! id).
Proof.
  intros Hn Hnd. unfold open_segments. induction l as [|[id [level s]] l IH] using rev_ind.
  { exists ∅, 0. split_and!; try done; [by left|]. intros id [x Hx]. by rewrite lookup_empty in Hx. }
  apply Forall_app in Hn as [Hn Hx]. rewrite fmap_app in Hnd. apply NoDup_app in Hnd as (Hnd & Hdis & _).
  destruct (IH Hn Hnd) as (segs & max & E & H0max & Hat & Hmax & Hsegs). rewrite fmap_app, foldl_app, E.
  apply Forall_singleton in Hx as [Hl Hi]. cbn [fst snd] in Hl, Hi. cbn [fmap list_fmap foldl].
  rewrite parse_segment_name_roundtrip by done.
  exists (<[id := (level, seg_open (seg_contents s) id enc)]> segs), (if max <=? id then id else max).
  assert (list_to_map (l ++ [(id, (level, s))]) = <[id:=(level, s)]> (list_to_map l : gmap Z (Z * Segment cipher))) as ->.
  { apply list_to_map_snoc. intros Hin. apply (Hdis id Hin). cbn. set_solver. }
  unfold is_u64 in Hi. split_and!.
  - destruct (Z.ltb_spec max id), (Z.leb_spec max id); try lia; [done| |done]. by replace max with id by lia.
  - split_if; lia.
  - right. split_if; [by rewrite lookup_insert_eq|]. rewrite lookup_insert_ne by lia.
    destruct Hat as [[-> ->]|Hat]; [lia|done].
  - intros id' Hid'. destruct (decide (id' = id)) as [->|Hne]; [split_if; lia|].
    rewrite lookup_insert_ne in Hid' by done. apply Hmax in Hid'. split_if; lia.
  - intros id'. destruct (decide (id' = id)) as [->|Hne]; [by rewrite !lookup_insert_eq|].
    rewrite !lookup_insert_ne by done. apply Hsegs.
Qed.

(** ** The engine that is opened *)

Lemma buffer_records_no_panic ctr w ops : (buffer_records ctr w ops).2 ≠ Panic.
Proof.
  revert ctr w; induction ops as [|op ops IH]; intros ctr w; cbn [buffer_records]; [done|].
  unfold buffer_record, op_payload. destruct (encryption w) as [enc|]; [|apply IH].
  unfold encrypt. destruct (aead_encrypt _ _ _); [apply IH|done].
Qed.

Lemma rewrite_snapshot_no_panic now e : (rewrite_wal_snapshot now e).2 ≠ Panic.
Proof.
  unfold rewrite_wal_snapshot, wal_step, on_wal, mbind, SR_bind, modify, get_st, append_batch. cbn beta iota zeta.
  match goal with |- context [buffer_records ?c ?w ?o] =>
    pose proof (buffer_records_no_panic c w o); destruct (buffer_records c w o) as [[? ?] [?|?|]] end; done.
Qed.

(** The segments that the flushed files of an engine reopen to. *)
Lemma reopen_grows e cfg name enc now :
  store_ok e → is_Some (blob_manager e) →
  (∀ sid l s, segments e !! sid = Some (l, s) → is_u32 l ∧ is_u64 sid ∧ seg_encryption s = enc) →
  let e0 := open_engine (dir_of e) cfg name enc now in
  grows e e0 ∧ segs_ok e0 ∧ cache_ok e0 ∧ is_Some (segments e0 !! active_segment_id e0) ∧
  idx e0 = mkIndex ∅ [] [] 0 ∅ name.
Proof.
  intros (Hsegs & _) [bm Hbm] Hs e0. unfold e0, open_engine.
  destruct (open_segments_spec enc (map_to_list (segments e))) as (segs & max & E & Hpos & Hat & Hmax & Hl).
  { apply Forall_forall. intros [sid [l s]] Hin%elem_of_map_to_list. destruct (Hs _ _ _ Hin) as (? & ? & _). done. }
  { apply NoDup_fst_map_to_list. }
  unfold dir_of, segment_files. cbn [d_files d_wal d_blobs]. rewrite E, Hbm. rewrite list_to_map_to_list in Hl.
  assert (∀ sid l s, segments e !! sid = Some (l, s) →
    segs !! sid = Some (l, seg_open (seg_contents s) sid enc) ∧ extends s (seg_open (seg_contents s) sid enc)) as Hold.
  { intros sid l s Hsl. rewrite Hl, Hsl. split; [done|]. destruct (Hsegs _ _ _ Hsl) as (Hid & _ & [f Hf]).
    unfold seg_contents. rewrite Hf. exists f, (mkFile (contents f) 0 (contents f)), []. rewrite app_nil_r.
    destruct (Hs _ _ _ Hsl) as (_ & _ & He). done. }
  case_bool_decide as Hemp.
  - subst segs. split_and!; try done.
    + split; [cbn [blob_manager]; by rewrite Hbm|]. intros sid l s Hsl. destruct (Hold _ _ _ Hsl) as [Hx _]. by rewrite lookup_empty in Hx.
    + intros sid l s. cbn [segments next_segment_id]. rewrite lookup_insert_Some. intros [[<- [= <- <-]]|[_ Hx]]; [|by rewrite lookup_empty in Hx].
      split_and!; [done|lia|by eexists].
  - split_and!; try done.
    + split; [cbn [blob_manager]; by rewrite Hbm|]. intros sid l s Hsl. destruct (Hold _ _ _ Hsl) as [Hx Hext]. cbn [segments]. eauto.
    + intros sid l s. cbn [segments next_segment_id]. intros Hx. pose proof (Hmax sid ltac:(eauto)).
      rewrite Hl in Hx. destruct (segments e !! sid) as [[l0 s0]|] eqn:Hsl; [|done]. injection Hx as <- <-.
      split_and!; [done|lia|by eexists].
    + by destruct Hat as [[-> _]|Hat].
Qed.

Lemma open_engine_wal d cfg name enc now :
  ∃ w, wal (open_engine d cfg name enc now) = w ∧ encryption w = enc ∧
    ∃ pad, contents (file w) = d_wal d ++ replicate pad 0.
Proof.
  eexists. split; [done|]. unfold open_engine.
  destruct (open_segments enc (d_files d)) as [[segs max] active].
  set (r := if starts_with _ _ then 0 else _).
  destruct (open_contents (d_wal d) (durability_mode cfg) (group_commit_max_ops cfg) enc r now) as [pad Hc].
  case_bool_decide; cbn [wal]; (split; [done|]); exists pad; exact Hc.
Qed.

(** One encryption context throughout, and numbers that fit their types. *)
Definition uniform (enc : option (EncryptionContext cipher)) e : Prop :=
  e_encryption e = enc ∧ encryption (wal e) = enc ∧ is_Some (blob_manager e) ∧
  ∀ sid l s, segments e !! sid = Some (l, s) → is_u32 l ∧ is_u64 sid ∧ seg_encryption s = enc.

(** Opening the directory of a flushed engine gives the store back. *)
Lemma reopen_view e D cfg name enc now :
  store_ok e → eng_log e D [] → uniform enc e →
  ∃ e', engine_open (dir_of e) cfg name enc now = Ok e' ∧ store_ok e' ∧ store_view e' = store_view e ∧
    index (idx e') = index (idx e) ∧ is_Some (segments e' !! active_segment_id e').
Proof.
  intros He (Hw & _ & Hidx) (_ & Henc & Hb & Hs). unfold engine_open.
  destruct (reopen_grows e cfg name enc now He Hb Hs) as (Hg & Hsegs & Hcache & Hact & Hi0).
  set (e0 := open_engine (dir_of e) cfg name enc now) in *.
  destruct (open_engine_wal (dir_of e) cfg name enc now) as (w0 & Ew0 & Een & pad & Hc). fold e0 in Ew0.
  destruct Hw as (dl & pad1 & Hc1 & _ & _ & HD & _). cbn [d_wal dir_of] in Hc. rewrite Hc1, <-app_assoc, <-replicate_add in Hc.
  rewrite Henc in HD.
  pose proof (replay_log w0 D dl _ _ Hc ltac:(by rewrite Een) (log_end_zeros _)) as Hrep.
  unfold recover. rewrite Ew0, Hrep. set (x1 := rebuild_view _). set (e1 := e_with_idx x1 _).
  assert (index x1 = index (idx e)) as Ex.
  { subst x1. cbn [rebuild_view index]. rewrite replay_ops_index, Hi0, Hidx, app_nil_r. done. }
  assert (store_ok e1 ∧ store_view e1 = store_view e) as [He1 Hv1].
  { destruct He as (_ & _ & Hp & _). destruct (grows_ptrs _ _ _ Hg Hp) as [Hp' Hv]. split.
    - split_and!; [exact Hsegs|exact Hcache|by change (ptrs_ok e0 (index x1)); rewrite Ex|].
      apply rebuild_view_inv, replay_ops_bytes. by rewrite Hi0.
    - unfold store_view. change (omap (ptr_value e0) (index x1) = omap (ptr_value e) (index (idx e))). by rewrite Ex. }
  split_if; [|by exists e1].
  pose proof (rewrite_snapshot_no_panic now e1) as Hnp.
  destruct (rewrite_wal_snapshot now e1) as [e2 r2] eqn:Hrw. apply rewrite_snapshot_frame in Hrw as (w2 & c2 & ->).
  destruct r2; [| |done]; eexists; (split; [done|]); split_and!; try done.
Qed.

(** ** Writing, flushing, reopening *)

Lemma buffer_records_encryption ctr w ops ctr' w' r :
  buffer_records ctr w ops = (ctr', w', r) → encryption w' = encryption w.
Proof.
  revert ctr w; induction ops as [|op ops IH]; intros ctr w; cbn [buffer_records]; [by intros [= _ <- _]|].
  unfold buffer_record, op_payload. destruct (encryption w) as [enc|] eqn:E.
  - destruct (encrypt _ _ _) as [c [pl|er|]]; [|by intros [= _ <- _]..]. intros Hr. by rewrite (IH _ _ Hr).
  - intros Hr. by rewrite (IH _ _ Hr).
Qed.

Lemma maybe_sync_encryption now ic ir w : encryption (maybe_sync now ic ir w) = encryption w.
Proof. unfold maybe_sync, flush. repeat split_if; try done; by destruct (write_buffer w). Qed.

Lemma append_batch_encryption now ctr w ops ir ctr' w' r :
  append_batch now ctr w ops ir = (ctr', w', r) → encryption w' = encryption w.
Proof.
  unfold append_batch. destruct (buffer_records ctr w ops) as [[c w1] r1] eqn:Hb. apply buffer_records_encryption in Hb.
  destruct r1; intros [= _ <- _]; [by rewrite maybe_sync_encryption|done..].
Qed.

Lemma write_medium_uniform enc a e e' r :
  segs_ok e → Forall (λ kv, zlen kv.2 < 2 ^ 30) (a_puts a) →
  uniform enc e → write_medium a e = (e', r) → uniform enc e'.
Proof.
  intros Hsegs Hv (E1 & E2 & Hb & Hs). unfold write_medium. destruct (a_puts a) as [|p0 ps] eqn:Hps; [by intros [= <- _]|].
  rewrite <-Hps in *. destruct (segments e !! active_segment_id e) as [[l s]|] eqn:Ha; [|by intros [= <- _]].
  destruct (Hsegs _ _ _ Ha) as (_ & _ & Hf). destruct (Hs _ _ _ Ha) as (Hl & Hi & He).
  destruct (seg_append_batch _ _ _) as [[c s'] r'] eqn:Hap. cbn zeta.
  assert (extends s s') as (f & f' & ext & _ & _ & _ & He' & _).
  { destruct r' as [offs| |]; [|by eapply (seg_append_batch_err _ _ _ _ _ _ Hf Hap)..].
    eapply (seg_append_batch_reads _ _ _ _ _ _ Hf); [|exact Hap]. apply Forall_fmap. exact Hv. }
  set (e1 := e_with_ctr _ _). intros Hres. assert (e' = e1) as -> by (destruct r'; congruence).
  split_and!; try done. intros sid l1 s1. cbn [segments e1 e_with_ctr e_with_wal e_with_segments].
  rewrite lookup_insert_Some. intros [[<- [= <- <-]]|[_ Hx]]; [|by eapply Hs]. split_and!; [done|done|congruence].
Qed.

Lemma apply_batch_uniform enc nm now ms ir e e' r :
  store_ok e → Forall (λ m, zlen (put_kv m).2 < 2 ^ 30) ms → is_u64 (next_segment_id e) →
  uniform enc e → apply_batch nm now ms ir e = (e', r) → uniform enc e'.
Proof.
  intros He Hms Hn Hun. destruct ms as [|m ms0]; [by intros [= <- _]|]. unfold apply_batch. set (ms := m :: ms0) in *.
  unfold mbind, SR_bind, get_st, modify. cbn beta iota zeta.
  set (e0 := e_with_tx (next_tx_id e + 1) e). assert (store_ok e0) as He0 by done.
  destruct (maybe_rotate_active_segment e0) as [e1 r1] eqn:Hrot.
  assert (uniform enc e1) as Hun1.
  { revert Hrot. unfold maybe_rotate_active_segment, mbind, SR_bind, get_st.
    destruct (segments e0 !! active_segment_id e0) as [[l g]|]; [|by intros [= <- _]].
    split_if; [by intros [= <- _]|]. intros [= <- _]. destruct Hun as (E1 & E2 & Hb & Hs). split_and!; try done.
    intros sid l1 s1. cbn [segments e_with_segments]. rewrite lookup_insert_Some.
    intros [[<- [= <- <-]]|[_ Hx]]; [|by eapply Hs]. split_and!; [done|done|exact E1]. }
  destruct (rotate_view _ _ _ He0 Hrot) as (He1 & _). destruct r1 as [[]|?er|]; [|by intros [= <- _]..].
  destruct (batch_fold_updates nm e1 ms (mkAcc [BeginTx (next_tx_id e)] [] [] [])) as [_ Hps].
  set (a := foldl _ _ ms) in *. cbn [a_puts app] in Hps.
  assert (Forall (λ kv, zlen kv.2 < 2 ^ 30) (a_puts a)) as Hsz.
  { rewrite Hps. apply Forall_fmap, Forall_forall. intros m1 Hm1.
    apply list_elem_of_In, filter_In in Hm1 as [Hm1 _]. rewrite Forall_forall in Hms. by apply Hms, list_elem_of_In. }
  destruct (write_medium a e1) as [e2 r2] eqn:Hmed.
  pose proof (write_medium_uniform enc a e1 e2 r2 (proj1 He1) Hsz Hun1 Hmed) as (E1 & E2 & Hb & Hs).
  destruct r2; [|by intros [= <- _]..]. unfold on_wal.
  destruct (append_batch now _ _ _ _) as [[c w] r3] eqn:Hap. apply append_batch_encryption in Hap.
  destruct r3; intros [= <- _]; split_and!; try done; cbn [wal e_with_idx e_with_wal]; congruence.
Qed.

(** A batch written and flushed is what the reopened collection holds. *)
Lemma batch_reopen enc nm now ms ir e e1 work ops D B cfg name t t' :
  store_ok e → eng_log e D B → uniform enc e → is_u64 (next_segment_id e) →
  Forall (λ m, zlen (put_kv m).2 < 2 ^ 30) ms → forallb (no_large e) ms = true →
  apply_batch nm now ms ir e = (e1, Ok (work, ops)) → forallb op_ok ops = true →
  ∃ e', engine_open (dir_of (flush_wal t e1).1) cfg name enc t' = Ok e' ∧ store_ok e' ∧
    store_view e' = foldl vupd (store_view e) (mut_val <$> batch_order (blob_threshold e) ms).
Proof.
  intros He Hlog Hun Hn Hms Hnl Hap Hops.
  destruct (apply_batch_log _ _ _ _ _ _ _ _ _ _ Hlog Hnl Hap Hops) as (D' & B' & (Hw' & Hi' & Hx') & _).
  destruct (apply_batch_view _ _ _ _ _ _ _ He Hms Hap) as (He1 & Hv1 & _).
  pose proof (apply_batch_uniform enc _ _ _ _ _ _ _ He Hms Hn Hun Hap) as Hun1.
  set (e2 := (flush_wal t e1).1).
  assert (eng_log e2 (D' ++ B') []) as Hlog2.
  { split_and!; [by apply flush_inv|done|]. by rewrite app_nil_r. }
  assert (uniform enc e2) as Hun2.
  { destruct Hun1 as (E1 & E2 & Hb & Hs). split_and!; try done. cbn [e2 flush_wal wal_step modify fst wal e_with_wal].
    rewrite <-E2. unfold flush. by destruct (write_buffer _). }
  destruct (reopen_view e2 (D' ++ B') cfg name enc t' He1 Hlog2 Hun2) as (e' & Ho & He' & Hv & _).
  exists e'. split_and!; [done|done|]. rewrite Hv. by apply (Hv1 (work, ops)).
Qed.
End Reopen.
