(* ===== verification/StorageModels.v ===== *)
(** * A concrete storage engine

    Instances of the compressor and of the hash-map iteration that satisfy the
    laws assumed of the crates, and an engine opened on an empty directory with
    a batch of a small and a medium document. *)

From stdpp Require Import prelude list gmap strings.
From Stdlib Require Import ZArith Lia.
From S2P Require Import Prelude RustStd Error Config Crypto VFile Doc Wal WalFacts Models PageCache StorageIndex.
From S2P Require Import StorageIndexFacts Segment SegmentFacts Blob Storage StorageMaint StorageFacts StorageView.
From S2P Require Import StorageCompact StorageReopen.

Local Open Scope Z_scope.
Local Open Scope hako_scope.

(** Run-length encoding of a constant block, otherwise no compression. *)
#[global] Instance run_zstd : Zstd := {
  compression_feature := true;
  zstd_encode b := match b with
                   | x :: _ => if bool_decide (b = replicate (length b) x) then Some [x; zlen b] else None
                   | [] => None
                   end;
  zstd_decode c := match c with [x; n] => Some (replicate (Z.to_nat n) x) | _ => None end }.
#[global] Instance run_zstd_laws : ZstdLaws.
Proof.
  intros b c. unfold zstd_encode, zstd_decode, run_zstd. destruct b as [|x b]; [done|]. case_bool_decide as E; [|done].
  intros Hc. assert (c = [x; zlen (x :: b)]) as -> by congruence. f_equal. rewrite E at 2. unfold zlen. by rewrite Nat2Z.id.
Qed.

#[global] Instance list_iter : HashIter := λ A m, map_to_list m.
#[global] Instance list_iter_laws : HashIterLaws.
Proof. intros A m. reflexivity. Qed.

(** ** An engine on an empty directory *)

Section Fresh.
Context `{CrcLaws} `{ZstdLaws} `{HashIterLaws} {cipher : Type} `{AeadLaws cipher}.

Definition empty_dir : Dir := mkDir [] [] [].

Lemma empty_index_inv name : idx_inv (mkIndex ∅ [] [] 0 ∅ name).
Proof.
  split_and!; [constructor| |done|done]. intros k. split; [by intros ?%not_elem_of_nil|].
  unfold is_live. cbn [index]. by rewrite lookup_empty.
Qed.

Lemma fresh_segments cfg name (enc : option (EncryptionContext cipher)) now :
  segments (open_engine empty_dir cfg name enc now) = <[0 := (0, seg_open [] 0 enc)]> ∅.
Proof. reflexivity. Qed.

Lemma fresh_ok cfg name (enc : option (EncryptionContext cipher)) now :
  let e := open_engine empty_dir cfg name enc now in
  store_ok e ∧ eng_log e [] [] ∧ uniform enc e ∧ is_Some (segments e !! active_segment_id e) ∧ store_view e = ∅.
Proof.
  split_and!.
  - split_and!.
    + intros sid l s. rewrite fresh_segments, lookup_insert_Some. intros [[<- [= <- <-]]|[_ Hx]]; [|by rewrite lookup_empty in Hx].
      split_and!; [done|done|by eexists].
    + by intros sid off v Hx.
    + by intros k p Hx.
    + apply empty_index_inv.
  - split_and!; [|apply empty_index_inv|done].
    destruct (open_engine_wal empty_dir cfg name enc now) as (w & Ew & Een & pad & Hc). rewrite Ew.
    exists [], pad. split_and!; [exact Hc|by rewrite <-Ew|by rewrite <-Ew|constructor|].
    assert (write_buffer w = []) as -> by (by rewrite <-Ew). constructor.
  - split_and!; try done. intros sid l s. rewrite fresh_segments, lookup_insert_Some.
    intros [[<- [= <- <-]]|[_ Hx]]; [done|by rewrite lookup_empty in Hx].
  - rewrite fresh_segments. change (active_segment_id _) with 0. rewrite lookup_insert_eq. eauto.
  - reflexivity.
Qed.
End Fresh.

Definition demo_engine : StorageEngine unit := open_engine empty_dir default_config b#("notes") None 0.

Definition demo_batch : list StorageMutation :=
  [MPut b#("a") [1; 2; 3]; MPut b#("b") (replicate 4096 7); MDelete b#("c")].
Definition demo_written : StorageEngine unit := (apply_batch 5 0 demo_batch false demo_engine).1.
