(* ===== verification/StorageProps.v ===== *)
(** * Properties of the storage engine

    The properties of the collection store, each with an application to a
    concrete engine, and the corner cases in which the code does not do what it
    is meant to. *)

From stdpp Require Import prelude list gmap strings.
From Stdlib Require Import ZArith Lia.
From S2P Require Import Prelude RustStd Error Config Crypto VFile Value Doc DocFacts Wal WalFacts Models PageCache.
From S2P Require Import StorageIndex StorageIndexFacts Segment SegmentFacts Blob Storage StorageMaint StorageFacts.
From S2P Require Import StorageView StorageCompact StorageReopen StorageModels.

Local Open Scope Z_scope.
Local Open Scope hako_scope.

Section Props.
Context `{CrcLaws} `{ZstdLaws} `{HashIterLaws} {cipher : Type} `{AeadLaws cipher}.
Implicit Types e : StorageEngine cipher.

(** C6: A batch is atomic on the abstract store: on an engine without
    encryption that has an active segment it succeeds; a batch that returns an
    error leaves every value as it was; one that succeeds inserts and deletes
    its keys, the medium-sized puts last, which for distinct keys is the order
    in which they were given. *)
Theorem apply_batch_refines nm now ms ir e :
  store_ok e → Forall (λ m, zlen (put_kv m).2 < 2 ^ 30) ms →
  let '(e', r) := apply_batch nm now ms ir e in
  store_ok e' ∧
  match r with
  | Ok _ =>
      store_view e' = foldl vupd (store_view e) (mut_val <$> batch_order (blob_threshold e) ms) ∧
      (NoDup (mut_val <$> ms).*1 → store_view e' = foldl vupd (store_view e) (mut_val <$> ms))
  | _ => store_view e' = store_view e ∧ ¬ (plain e ∧ is_Some (segments e !! active_segment_id e))
  end.
Proof.
  intros He Hms. destruct (apply_batch nm now ms ir e) as [e' r] eqn:Hap.
  destruct (apply_batch_view _ _ _ _ _ _ _ He Hms Hap) as (He' & Hok & Herr). split; [done|].
  assert ((∀ x, r ≠ Ok x) → ¬ (plain e ∧ is_Some (segments e !! active_segment_id e))) as Htot.
  { intros Hr [Hp Ha]. destruct (apply_batch_total nm now ms ir e He Hp Ha) as (e2 & work & ops & E).
    rewrite Hap in E. apply (Hr (work, ops)). congruence. }
  destruct r as [x| |]; [|by split; [apply Herr|apply Htot]..].
  split; [by apply (Hok x)|]. intros Hnd. by rewrite (Hok x eq_refl), batch_order_distinct.
Qed.

(** A read returns the value of the abstract store, whatever the page cache
    holds, and changes nothing but the cache. *)
Theorem get_reads_store e k :
  store_ok e →
  ∃ c, engine_get k e = (e_with_cache c e, Ok (store_view e !! k)) ∧
       store_ok (e_with_cache c e) ∧ store_view (e_with_cache c e) = store_view e.
Proof. intros He. destruct (engine_get_value e k He) as (c & E & Hc). by exists c. Qed.

(** C1: What a committed batch wrote is in the collection after the log is
    flushed, the process ends and the directory is opened again with its key,
    whatever the configuration it is opened with.  No value of the batch is above
    the blob threshold: those go to a queue and not to the log, and are gone after
    reopening ([large_value_not_logged]); every value is below 2^30 bytes and the
    logged operations fit the record format. *)
Theorem write_flush_reopen enc nm now ms ir e e1 work ops D B cfg name t t' :
  store_ok e → eng_log e D B → uniform enc e → is_u64 (next_segment_id e) →
  Forall (λ m, zlen (put_kv m).2 < 2 ^ 30) ms → forallb (no_large e) ms = true →
  apply_batch nm now ms ir e = (e1, Ok (work, ops)) → forallb op_ok ops = true →
  ∃ e', engine_open (dir_of (flush_wal t e1).1) cfg name enc t' = Ok e' ∧ store_ok e' ∧
    store_view e' = foldl vupd (store_view e) (mut_val <$> batch_order (blob_threshold e) ms).
Proof. apply batch_reopen. Qed.

(** C20: Full compaction never changes a value: cancelled at any of its checks,
    failing or succeeding, it leaves the abstract store as it was. *)
Theorem compaction_invisible now cancelled e :
  store_ok e → values_small e →
  let '(e', _) := compact_with_cancel now cancelled e in store_ok e' ∧ store_view e' = store_view e.
Proof.
  intros He Hv. destruct (compact_with_cancel now cancelled e) as [e' r] eqn:Hc. by eapply compact_view.
Qed.

(** C12: Tiered compaction runs in three phases with batches of other threads
    committed in between; the store ends up with exactly the effect of those
    batches. *)
Theorem merge_concurrent now level s1 s2 p g m mss1 mss2 e e0 e1 e2 e3 e4 r :
  store_ok e → values_small e → tier_candidate e level s1 s2 →
  merge_prep level s1 s2 e = (e0, Ok p) → batches mss1 e0 e1 →
  merge_collect p e1 = (e2, Ok (g, m)) → batches mss2 e2 e3 →
  merge_commit now p g m e3 = (e4, r) →
  store_ok e4 ∧
  store_view e4 = foldl vupd (store_view e) (mut_val <$> ((mss1 ++ mss2) ≫= batch_order (blob_threshold e))).
Proof. apply merge_view. Qed.

(** Spilling the inlined documents to a segment, failing or succeeding,
    changes no value. *)
Theorem checkpoint_invisible now e :
  store_ok e → values_small e →
  let '(e', _) := checkpoint_inlined_data now e in store_ok e' ∧ store_view e' = store_view e.
Proof.
  intros He Hv. destruct (checkpoint_inlined_data now e) as [e' r] eqn:Hc. by eapply checkpoint_view.
Qed.

(** A batch extends the log and the index alike: afterwards the index is
    what the committed operations of file and buffer say. *)
Theorem batch_log_agrees nm now ms ir e e' work ops D B :
  eng_log e D B → forallb (no_large e) ms = true →
  apply_batch nm now ms ir e = (e', Ok (work, ops)) → forallb op_ok ops = true →
  ∃ D' B', eng_log e' D' B' ∧ D' ++ B' = D ++ B ++ ops ∧ D `prefix_of` D'.
Proof. apply apply_batch_log. Qed.

(** The snapshot rewrite replaces the history of the log by one operation
    per key: replaying the new log alone restores the index, with pending blobs
    replaced by their skeletons. *)
Theorem snapshot_exact now e e' :
  forallb op_ok (snapshot_op e <$> hash_iter (index (idx e))) = true →
  rewrite_wal_snapshot now e = (e', Ok tt) →
  idx e' = idx e ∧ ∃ D B, wal_inv (wal e') D B ∧
  apply_ops ∅ (filter_committed_ops (D ++ B)) = snapshot_ptr e <$> index (idx e).
Proof. apply rewrite_wal_snapshot_log. Qed.

(** The batched index path (deferred view updates, then append, per-key
    repair or one merge) gives the index, the sorted view, the byte count and
    the live count of the immediate path, and preserves the index invariant. *)
Theorem batched_updates_agree x updates :
  idx_inv x →
  core (update_batch x updates) = core (update_each x updates) ∧ idx_inv (update_batch x updates).
Proof. intros Hx. split; [by apply update_batch_each|by apply update_batch_inv]. Qed.

(** The range bounds over the sorted view select, in both directions, the
    page of the live keys from the anchor: skip [offset], then at most [limit]. *)
Theorem key_range_pages x start excl offset limit :
  idx_inv x →
  (∃ s t, sorted_key_range x start excl offset limit = Some (s, t) ∧ (s <= t <= length (sorted_keys x))%nat ∧
     take (t - s) (drop s (sorted_keys x))
     = take_opt limit (drop (default 0%nat offset) (List.filter (from_anchor start excl) (sorted_keys x)))) ∧
  (∃ s t, sorted_key_range_reverse x start excl offset limit = Some (s, t) ∧ (s <= t <= length (sorted_keys x))%nat ∧
     rev (take (t - s) (drop s (sorted_keys x)))
     = take_opt limit (drop (default 0%nat offset) (rev (List.filter (to_anchor start excl) (sorted_keys x))))).
Proof.
  intros (Hs & _). split; [by apply sorted_key_range_page|by apply sorted_key_range_reverse_page].
Qed.

(** Purging tombstones removes exactly the tombstones, keeps the index
    invariant and the sorted view; the cached count is the number of live keys. *)
Theorem purge_removes_tombstones x x' n :
  idx_inv x → purge_tombstones x = (x', n) →
  idx_inv x' ∧ sorted_keys x' = sorted_keys x ∧ count_prefix x' [] = zlen (live_keys x') ∧
  ∀ k, index x' !! k = match index x !! k with Some p => if is_deleted p then None else Some p | None => None end.
Proof.
  intros Hx Hp. destruct (purge_tombstones_spec x x' n Hx Hp) as (Hi & Hk & Hl). split_and!; try done.
  by apply count_prefix_live.
Qed.

(** C33: Moving the large fields of a document to the blob file loses nothing:
    once the work items are written, every extracted field is read back through
    its link and every other field is unchanged. *)
Theorem blobs_restored b c k doc th b' doc' work :
  zlen (blob_file b) = blob_size b →
  Forall (λ kv, zlen (default [] (raw_bytes kv.2)) < 2 ^ 32) (fields doc) →
  blob_size b + zlen (concat ((λ kv, default [] (raw_bytes kv.2)) <$> fields doc)) < 2 ^ 63 →
  extract_blobs b c k doc th = (b', doc', work) →
  Forall2 (restored (foldl write_work b work)) (fields doc) (fields doc') ∧ _time doc' = _time doc.
Proof.
  intros Hsz Hv Htot. unfold extract_blobs. destruct (extract_fields _ _ _ _ _ _) as [[b1 fs] work1] eqn:Hrun.
  intros [= <- <- <-]. split; [|done]. cbn [fields].
  destruct (extract_fields_write _ _ _ _ _ _ _ _ _ Hsz Hv Htot Hrun) as (_ & Hfile & Hr).
  set (work := match work1 with [] => [] | _ => _ end).
  assert (blob_file (foldl write_work b work) = blob_file b ++ concat (work_data <$> work1) ++ []) as Hf.
  { rewrite app_nil_r, <-Hfile. subst work. destruct work1; [done|]. apply set_last_skeleton_file. }
  eapply Forall2_impl; [exact (Hr _ _ Hf)|]. intros x y [E|(o & l & raw & E1 & E2 & E3)]; [by left|].
  right. by exists o, l, raw.
Qed.
End Props.

(** Puts alone never let the cache exceed its byte bound, whatever the
    blocks. *)
Theorem puts_respect_bound max ops :
  0 <= max → forallb is_put ops = true → total_bytes (blocks (run_ops (cache_new max) ops)) <= max.
Proof. apply run_puts_bound. Qed.

(** ** Applications *)

Lemma demo_ok : store_ok demo_engine ∧ eng_log demo_engine [] [] ∧ uniform None demo_engine ∧
  is_Some (segments demo_engine !! active_segment_id demo_engine) ∧ store_view demo_engine = ∅.
Proof. exact (fresh_ok default_config b#("notes") None 0). Qed.

Lemma demo_plain : plain demo_engine.
Proof. destruct demo_ok as (_ & _ & (E1 & E2 & _ & Hs) & _). split_and!; [done|done|]. intros sid l s Hl. by eapply Hs. Qed.

Lemma demo_small : Forall (λ m, zlen (put_kv m).2 < 2 ^ 30) demo_batch.
Proof. repeat constructor. Qed.

Lemma demo_apply : ∃ work ops, apply_batch 5 0 demo_batch false demo_engine = (demo_written, Ok (work, ops)).
Proof.
  destruct demo_ok as (He & _ & _ & Ha & _).
  destruct (apply_batch_total 5 0 demo_batch false demo_engine He demo_plain Ha) as (e' & work & ops & E).
  exists work, ops. unfold demo_written. by rewrite E.
Qed.

Lemma demo_written_ok :
  store_ok demo_written ∧ store_view demo_written = foldl vupd ∅ (mut_val <$> demo_batch).
Proof.
  destruct demo_ok as (He & _ & _ & _ & Hv). destruct demo_apply as (work & ops & E).
  destruct (apply_batch_view _ _ _ _ _ _ _ He demo_small E) as (He' & Hok & _). split; [done|].
  rewrite (Hok _ eq_refl), Hv. apply batch_order_distinct. apply (bool_decide_unpack _). by vm_compute.
Qed.

Lemma demo_values_small : values_small demo_written.
Proof.
  intros k v. destruct demo_written_ok as [_ ->]. apply vupd_small.
  - intros k0 v0 Hl. by rewrite lookup_empty in Hl.
  - repeat constructor; cbn; intros v0 [= <-]; done.
Qed.

Lemma apply_batch_refines_witness : store_view demo_written !! b#("b") = Some (replicate 4096 7).
Proof.
  destruct demo_ok as (He & _ & _ & Ha & Hv).
  pose proof (apply_batch_refines 5 0 demo_batch false demo_engine He demo_small) as P. unfold demo_written.
  destruct (apply_batch 5 0 demo_batch false demo_engine) as [e' [x| |]]; cbn [fst];
    [|by destruct P as (_ & _ & []); split; [apply demo_plain|]..].
  destruct P as (_ & _ & ->); [rewrite Hv; vm_compute; reflexivity|].
  apply (bool_decide_unpack _). vm_compute. exact I.
Defined.

Lemma get_reads_store_witness :
  ∃ c, engine_get b#("b") demo_written = (e_with_cache c demo_written, Ok (Some (replicate 4096 7))).
Proof.
  destruct demo_written_ok as [He Hv].
  destruct (get_reads_store demo_written b#("b") He) as (c & E & _). exists c. rewrite E, Hv.
  f_equal.
Defined.

Lemma write_flush_reopen_witness :
  ∃ e', engine_open (dir_of (flush_wal 9 demo_written).1) default_config b#("notes") None 10 = Ok e' ∧
    store_view e' = foldl vupd ∅ (mut_val <$> batch_order (16 * 1024) demo_batch).
Proof.
  destruct demo_ok as (He & Hlog & Hun & _ & Hv). destruct demo_apply as (work & ops & E).
  destruct (write_flush_reopen None 5 0 demo_batch false demo_engine demo_written work ops [] [] default_config b#("notes") 9 10)
    as (e' & Ho & _ & Hv').
  - exact He.
  - exact Hlog.
  - exact Hun.
  - unfold is_u64. vm_compute. split; congruence.
  - exact demo_small.
  - vm_compute. reflexivity.
  - exact E.
  - assert (ops = match (apply_batch 5 0 demo_batch false demo_engine).2 with Ok (_, o) => o | _ => [] end) as -> by (by rewrite E).
    vm_compute. reflexivity.
  - exists e'. split; [exact Ho|]. rewrite Hv', Hv. reflexivity.
Defined.

Lemma compaction_invisible_witness :
  store_view (compact_with_cancel 9 (λ _, false) demo_written).1 = store_view demo_written.
Proof.
  pose proof (compaction_invisible 9 (λ _, false) demo_written (proj1 demo_written_ok) demo_values_small) as P.
  destruct (compact_with_cancel 9 (λ _, false) demo_written) as [e' r]. exact (proj2 P).
Defined.

Lemma checkpoint_invisible_witness :
  store_view (checkpoint_inlined_data 9 demo_written).1 = store_view demo_written.
Proof.
  pose proof (checkpoint_invisible 9 demo_written (proj1 demo_written_ok) demo_values_small) as P.
  destruct (checkpoint_inlined_data 9 demo_written) as [e' r]. exact (proj2 P).
Defined.

Lemma batch_log_agrees_witness :
  ∃ D' B' ops, eng_log demo_written D' B' ∧ D' ++ B' = ops.
Proof.
  destruct demo_ok as (_ & Hlog & _). destruct demo_apply as (work & ops & E).
  destruct (batch_log_agrees 5 0 demo_batch false demo_engine demo_written work ops [] [] Hlog) as (D' & B' & Hl & Ed & _).
  - vm_compute. reflexivity.
  - exact E.
  - assert (ops = match (apply_batch 5 0 demo_batch false demo_engine).2 with Ok (_, o) => o | _ => [] end) as -> by (by rewrite E).
    vm_compute. reflexivity.
  - exists D', B', ops. split; [exact Hl|]. rewrite Ed. reflexivity.
Defined.

(** Two idle segments of level 0 beside an active one. *)
Definition demo_tier1 : StorageEngine unit :=
  e_with_segments (<[1 := (0, seg_open [] 1 None)]> (segments demo_written)) 1 2 demo_written.
Definition demo_tiers : StorageEngine unit :=
  e_with_segments (<[2 := (0, seg_open [] 2 None)]> (segments demo_tier1)) 2 3 demo_tier1.

Lemma demo_tiers_ok : store_ok demo_tiers ∧ store_view demo_tiers = store_view demo_written.
Proof.
  destruct (add_segment_ok demo_written 0 (seg_open [] 1 None) 1) as (H1 & V1 & _);
    [exact (proj1 demo_written_ok)|by eexists|by vm_compute|].
  change (next_segment_id demo_written) with 1 in *.
  destruct (add_segment_ok demo_tier1 0 (seg_open [] 2 None) 2) as (H2 & V2 & _); [exact H1|by eexists|done|].
  split; [exact H2|]. exact (eq_trans V2 V1).
Qed.

Lemma demo_segment sid :
  match segments demo_tiers !! sid with Some (l, _) => l =? 0 | None => false end = true →
  ∃ g, segments demo_tiers !! sid = Some (0, g).
Proof. destruct (segments demo_tiers !! sid) as [[l g]|]; [|done]. intros ->%Z.eqb_eq. by exists g. Qed.

Definition demo_prep : Prep := mkPrep 0 0 1 3.
Definition demo_reserved : StorageEngine unit := e_with_segments (segments demo_tiers) 2 4 demo_tiers.
Definition demo_collect := merge_collect demo_prep demo_reserved.
Definition demo_update : list StorageMutation := [MPut b#("b") [9]; MPut b#("d") [4]].

Lemma merge_concurrent_witness :
  ∃ e4, store_view e4 = foldl vupd (store_view demo_tiers) [(b#("b"), Some [9]); (b#("d"), Some [4])].
Proof.
  assert (∃ e2 g m, demo_collect = (e2, Ok (g, m))) as (e2 & g & m & Hc).
  { assert (match demo_collect.2 with Ok _ => true | _ => false end = true) as E by (vm_compute; reflexivity).
    destruct demo_collect as [e2 [[g m]| |]]; [by eexists _, _, _|discriminate E..]. }
  assert (∃ e3 x, apply_batch 6 0 demo_update false e2 = (e3, Ok x)) as (e3 & x & Ha).
  { assert (match (apply_batch 6 0 demo_update false demo_collect.1).2 with Ok _ => true | _ => false end = true) as E
      by (vm_compute; reflexivity).
    rewrite Hc in E. cbn [fst] in E.
    destruct (apply_batch 6 0 demo_update false e2) as [e3 [y| |]]; [by eexists _, _|discriminate E..]. }
  exists (merge_commit 7 demo_prep g m e3).1.
  refine (proj2 (merge_concurrent 7 0 0 1 demo_prep g m [] [demo_update] demo_tiers demo_reserved demo_reserved e2 e3 _
    (merge_commit 7 demo_prep g m e3).2 (proj1 demo_tiers_ok) _ _ eq_refl (batches_nil _) Hc _ (surjective_pairing _))).
  - intros k v. rewrite (proj2 demo_tiers_ok). apply demo_values_small.
  - assert (active_segment_id demo_tiers = 2) as Ea by reflexivity.
    split_and!; [lia|rewrite Ea; lia|rewrite Ea; lia| |].
    + apply demo_segment. vm_compute. reflexivity.
    + apply demo_segment. vm_compute. reflexivity.
  - eapply batches_cons; [|exact Ha|apply batches_nil]. repeat constructor.
Defined.

Lemma snapshot_exact_witness :
  ∃ e', rewrite_wal_snapshot 9 demo_written = (e', Ok tt) ∧ idx e' = idx demo_written.
Proof.
  assert ((rewrite_wal_snapshot 9 demo_written).2 = Ok tt) as E by (vm_compute; reflexivity).
  exists (rewrite_wal_snapshot 9 demo_written).1.
  assert (rewrite_wal_snapshot 9 demo_written = ((rewrite_wal_snapshot 9 demo_written).1, Ok tt)) as E'
    by (rewrite <-E; apply surjective_pairing).
  split; [exact E'|]. refine (proj1 (snapshot_exact 9 demo_written _ _ E')). vm_compute. reflexivity.
Defined.

Definition demo_updates : list (bytes * option Pointer) :=
  [(b#("z"), Some (PInlined [1])); (b#("a"), Some (PDeleted 3)); (b#("m"), Some (PInlined [2]))].

Lemma batched_updates_agree_witness :
  core (update_batch (idx demo_written) demo_updates) = core (update_each (idx demo_written) demo_updates).
Proof.
  refine (proj1 (batched_updates_agree (idx demo_written) demo_updates _)).
  destruct demo_written_ok as [(_ & _ & _ & Hi) _]. exact Hi.
Defined.

Lemma key_range_pages_witness :
  ∃ s t, sorted_key_range (idx demo_written) (Some b#("a")) true None (Some 1%nat) = Some (s, t) ∧
    take (t - s) (drop s (sorted_keys (idx demo_written))) = [b#("b")].
Proof.
  destruct (key_range_pages (idx demo_written) (Some b#("a")) true None (Some 1%nat)) as [(s & t & E & _ & P) _].
  - destruct demo_written_ok as [(_ & _ & _ & Hi) _]. exact Hi.
  - exists s, t. split; [exact E|]. rewrite P. vm_compute. reflexivity.
Defined.

Lemma purge_removes_tombstones_witness :
  sorted_keys (purge_tombstones (idx demo_written)).1 = [b#("a"); b#("b")] ∧
  index (purge_tombstones (idx demo_written)).1 !! b#("c") = None.
Proof.
  destruct (purge_removes_tombstones (idx demo_written) (purge_tombstones (idx demo_written)).1
    (purge_tombstones (idx demo_written)).2) as (_ & Hk & _ & Hl).
  - destruct demo_written_ok as [(_ & _ & _ & Hi) _]. exact Hi.
  - apply surjective_pairing.
  - split; [rewrite Hk; vm_compute; reflexivity|]. rewrite Hl. vm_compute. reflexivity.
Defined.

Definition demo_blob_doc : HakoDoc := mkDoc [(b#("n"), Int 4); (b#("t"), String [65; 66; 67])] 8.

Lemma blobs_restored_witness :
  let x := extract_blobs (mkBlob [0; 0] 2) b#("notes") b#("k") demo_blob_doc 2 in
  Forall2 (restored (foldl write_work (mkBlob [0; 0] 2) x.2)) (fields demo_blob_doc) (fields x.1.2).
Proof.
  refine (proj1 (blobs_restored (mkBlob [0; 0] 2) b#("notes") b#("k") demo_blob_doc 2 _ _ _ _ _ _ _)).
  - reflexivity.
  - repeat constructor.
  - vm_compute. reflexivity.
  - reflexivity.
Defined.

Lemma puts_respect_bound_witness :
  total_bytes (blocks (run_ops (cache_new 4) [CPut (mkBlockKey 0 1) [1; 2]; CPut (mkBlockKey 0 2) [3; 4; 5]])) <= 4.
Proof. apply (puts_respect_bound 4); [lia|reflexivity]. Defined.

(** ** Corner cases *)

(** A medium put followed by a delete of the same key in one batch leaves the
    key live: the put is applied after the delete. *)
Lemma medium_put_outlives_delete :
  let ms := [MPut b#("k") (replicate 4096 1); MDelete b#("k")] in
  store_view (apply_batch 5 0 ms false demo_engine).1 !! b#("k") = Some (replicate 4096 1).
Proof. apply (bool_decide_unpack _). vm_compute. exact I. Qed.

(** A value above the blob threshold is in the index but in no record of the
    log: it is gone when the collection is opened again. *)
Lemma large_value_not_logged :
  let ms := [MPut b#("k") (replicate (Z.to_nat 16385) 1)] in
  let e := (apply_batch 5 0 ms false demo_engine).1 in
  is_Some (store_view e !! b#("k")) ∧
  match engine_open (dir_of (flush_wal 9 e).1) default_config b#("notes") None 10 with
  | Ok e' => store_view e' = ∅
  | _ => False
  end.
Proof. split; [eexists; vm_compute; reflexivity|]. vm_compute. reflexivity. Qed.

(** [hard_delete_keys] bypasses the sorted view: the key stays in it. *)
Lemma hard_delete_breaks_index :
  ¬ idx_inv (idx (hard_delete_keys 6 0 [b#("a")] demo_written).1).
Proof.
  intros (_ & Hl & _). assert (b#("a") ∈ sorted_keys (idx (hard_delete_keys 6 0 [b#("a")] demo_written).1)) as Hin.
  { apply list_elem_of_In. vm_compute. by left. }
  apply Hl in Hin. vm_compute in Hin. discriminate Hin.
Qed.

(** What a power loss leaves: the synced bytes of every file. *)
Definition crash_dir (e : StorageEngine unit) : Dir :=
  mkDir (synced (file (wal e))) (match blob_manager e with Some b => blob_file b | None => [] end)
    ((λ '(id, (level, s)), (segment_name level id, match seg_file s with Some f => synced f | None => [] end))
       <$> map_to_list (segments e)).

(** The log is synced, the segment that a medium value went to is not: after a
    power loss the key reads as zero bytes. *)
Lemma unsynced_medium_reads_zeros :
  match engine_open (crash_dir (flush_wal 9 demo_written).1) default_config b#("notes") None 10 with
  | Ok e' => store_view e' !! b#("b") = Some (replicate 4096 0)
  | _ => False
  end.
Proof. vm_compute. reflexivity. Qed.
