(* ===== verification/IndexKey.v ===== *)
(** * Scalar index keys (src/index/index_key.rs)

    The byte key of a value in a secondary index, its encoding straight from
    the stored bytes of a document, and the numeric reading of a key.  The
    direct encoding is a shortcut of the write path: it gives the key that
    decoding and encoding would give, or declines. *)

From stdpp Require Import prelude list.
From Stdlib Require Import ZArith Lia.
From S2P Require Import Prelude RustStd Varint Value Doc DocFacts.

Local Open Scope Z_scope.
Local Open Scope hako_scope.

(** [encode_str_scalar_into]. *)
Definition encode_str_scalar (s : bytes) : bytes := 4 :: to_be 4 (as_u32 (zlen s)) ++ s.

(** [encode_scalar], [encode_scalar_into]. *)
Definition encode_scalar (v : Value) : bytes :=
  match v with
  | Null => [0]
  | Bool b => [1; if b then 1 else 0]
  | Int n => 2 :: i64_to_be n
  | Float bits => 3 :: to_be 8 bits
  | String s => encode_str_scalar s
  | Binary s => 5 :: to_be 4 (as_u32 (zlen s)) ++ s
  | Timestamp n => 6 :: i64_to_be n
  | ServerTimestamp => [0]
  | Map _ => [8]
  | Array _ => [9]
  | Reference c d => 10 :: as_u8 (zlen c) :: c ++ as_u8 (zlen d) :: d
  | BlobLink offset len => 11 :: to_be 8 offset ++ to_be 4 len
  end.

(** [encode_raw_scalar]: [None] where the code returns [false]; it has not
    touched the buffer then. *)
Definition encode_raw_scalar (tag : Z) (data : bytes) : option bytes :=
  if tag =? 0xC0 then Some [0]
  else if tag =? 0xC1 then Some [0]
  else if tag =? 0xC2 then Some [1; 1]
  else if tag =? 0xC3 then Some [1; 0]
  else if tag_is_small_int tag then Some (2 :: i64_to_be (Z.land tag 0x0F))
  else if tag_is_small_str tag then
    s ← get_range data 0 (Z.land tag 0x07);
    if utf8_valid s then Some (4 :: to_be 4 (as_u32 (zlen s)) ++ s) else None
  else if (tag =? 3) || (tag =? 7) then
    '(raw, _) ← decode_varint data 4;
    Some ((if tag =? 3 then 2 else 6) :: i64_to_be (zigzag_decode raw))
  else if tag =? 4 then
    b ← get_range data 4 12;
    Some (3 :: to_be 8 (of_le b))
  else if (tag =? 5) || (tag =? 6) then
    v_len ← of_le <$> get_range data 0 4;
    body ← get_range data 4 (4 + v_len);
    if (tag =? 5) && negb (utf8_valid body) then None
    else Some ((if tag =? 5 then 4 else 5) :: to_be 4 (as_u32 (zlen body)) ++ body)
  else if (tag =? 8) || (tag =? 9) then None
  else if tag =? 10 then
    c_len ← get data 4;
    col ← get_range data 5 (5 + c_len);
    d_len ← get data (5 + c_len);
    doc ← get_range data (6 + c_len) (6 + c_len + d_len);
    if negb (utf8_valid col) || negb (utf8_valid doc) then None
    else if (255 <? zlen col) || (255 <? zlen doc) then None
    else Some (10 :: as_u8 (zlen col) :: col ++ as_u8 (zlen doc) :: doc)
  else if tag =? 11 then
    off ← get_range data 4 12;
    len ← get_range data 12 16;
    Some (11 :: to_be 8 (of_le off) ++ to_be 4 (of_le len))
  else Some [0].

(** [decode_scalar_as_f64]. *)
Definition decode_scalar_as_f64 (b : bytes) : option Z :=
  tag ← get b 0;
  if tag =? 2 then
    b ← get_range b 1 9; Some (i64_to_f64 (i64_of_be b))
  else if tag =? 3 then
    b ← get_range b 1 9; Some (of_be b)
  else None.

(** ** The direct encoding *)

Lemma get_byte (b : bytes) i x : bytes_ok b → get b i = Some x → is_byte x.
Proof. intros Hb Hx. by eapply (Forall_get is_byte b). Qed.

(** On every tag but the compound ones the direct encoding is decoding
    followed by encoding, failures included. *)
Lemma encode_raw_scalar_decoded tag data :
  bytes_ok data → tag ≠ 8 → tag ≠ 9 →
  encode_raw_scalar tag data = encode_scalar <$> decode_value tag data.
Proof.
  intros Hb H8 H9. unfold encode_raw_scalar, decode_value. cbn [decode_value_fuel].
  do 4 (split_if; [done|]). split_if; [done|]. split_if.
  { destruct (get_range data 0 _) as [s|]; [|done]. cbn [mbind option_bind]. unfold from_utf8.
    by destruct (utf8_valid s). }
  split_if.
  { destruct (decode_varint data 4) as [[v p]|]; [|done]. cbn [mbind option_bind]. by destruct (tag =? 3). }
  split_if; [by destruct (get_range data 4 12)|].
  destruct (tag =? 5) eqn:E5; cbn [orb].
  { destruct (of_le <$> get_range data 0 4) as [n|]; [|done]. cbn [mbind option_bind].
    destruct (get_range data 4 (4 + n)) as [s|]; [|done]. cbn [mbind option_bind andb]. unfold from_utf8.
    by destruct (utf8_valid s). }
  destruct (tag =? 6) eqn:E6; cbn [orb].
  { destruct (of_le <$> get_range data 0 4) as [n|]; [|done]. cbn [mbind option_bind andb].
    by destruct (get_range data 4 (4 + n)) as [s|]. }
  destruct (tag =? 8) eqn:E8; [bool_simpl; lia|]. destruct (tag =? 9) eqn:E9; [bool_simpl; lia|]. cbn [orb].
  split_if.
  { destruct (get data 4) as [cl|] eqn:Hcl; [|done]. cbn [mbind option_bind].
    destruct (get_range data 5 (5 + cl)) as [c|] eqn:Hc; [|done]. cbn [mbind option_bind].
    assert (is_byte cl) as Hclb by (by eapply get_byte).
    unfold from_utf8. destruct (utf8_valid c) eqn:Huc; cbn [mbind option_bind negb orb].
    2: { destruct (get data (5 + cl)) as [dl|]; [|done]. cbn [mbind option_bind].
         by destruct (get_range data (6 + cl) (6 + cl + dl)). }
    destruct (get data (5 + cl)) as [dl|] eqn:Hdl; [|done]. cbn [mbind option_bind].
    assert (is_byte dl) as Hdlb by (by eapply get_byte).
    destruct (get_range data (6 + cl) (6 + cl + dl)) as [d|] eqn:Hd; [|done]. cbn [mbind option_bind].
    destruct (utf8_valid d); [|done]. cbn [negb orb mbind option_bind fmap option_fmap option_map encode_scalar].
    apply get_range_zlen in Hc, Hd. unfold is_byte in *.
    assert ((255 <? zlen c) || (255 <? zlen d) = false) as -> by (apply orb_false_iff; split; apply Z.ltb_ge; lia). done. }
  split_if; [|done].
  destruct (get_range data 4 12) as [o|]; [|done]. by destruct (get_range data 12 16).
Qed.

(** Numbers read back from their keys. *)
Lemma decode_scalar_int n : is_i64 n → decode_scalar_as_f64 (encode_scalar (Int n)) = Some (i64_to_f64 n).
Proof.
  intros Hn. unfold decode_scalar_as_f64, encode_scalar. assert (get (2 :: i64_to_be n) 0 = Some 2) as -> by (by apply (get_mid [] 2 (i64_to_be n) 0)). cbn [mbind option_bind Z.eqb Pos.eqb].
  assert (get_range (2 :: i64_to_be n) 1 9 = Some (i64_to_be n)) as ->.
  { pose proof (get_range_mid [2] (i64_to_be n) [] 1 9) as E. rewrite app_nil_r in E. apply E; zlen. }
  cbn [mbind option_bind]. by rewrite i64_of_to_be.
Qed.
