(* ===== verification/Filter.v ===== *)
(** * Query filters (src/query/filter.rs)

    The comparison operators of queries, filters and filter groups, and
    [compare_values], which decides whether a stored value satisfies an operator
    against a query value.  The parsers of [str::parse] for integers and floats
    and the whitespace tables of [char] are written out, as is the text of numbers;
    the Unicode lower-case mapping is a parameter. *)

From stdpp Require Import prelude list strings.
From Stdlib Require Import ZArith Lia.
From S2P Require Import Prelude RustStd Value.

Local Open Scope Z_scope.
Local Open Scope hako_scope.

Inductive Operator :=
| OpEq | OpNe | OpGt | OpGte | OpLt | OpLte | OpMatch | OpMatchPrefix | OpContains | OpStartsWith
| OpIn | OpArrayContains | OpArrayContainsAny | OpArrayAllEq | OpNotIn | OpNear | OpTraverse.
#[export] Instance Operator_eq_dec : EqDecision Operator.
Proof. solve_decision. Defined.

Inductive FilterLogic := LAnd | LOr.
Record Filter := mkFilter { f_field : bytes; f_op : Operator; f_value : Value }.
Record FilterGroup := mkGroup { g_logic : FilterLogic; g_filters : list Filter }.

(** [eval_ordering]. *)
Definition eval_ordering (ord : comparison) (op : Operator) : bool :=
  match op with
  | OpEq => bool_decide (ord = Eq)
  | OpNe => negb (bool_decide (ord = Eq))
  | OpGt => bool_decide (ord = Gt)
  | OpGte => bool_decide (ord = Gt) || bool_decide (ord = Eq)
  | OpLt => bool_decide (ord = Lt)
  | OpLte => bool_decide (ord = Lt) || bool_decide (ord = Eq)
  | _ => false
  end.

(** ** Numbers in strings *)

Definition digit (b : Z) : bool := (48 <=? b) && (b <=? 57).
Definition digits_value (ds : bytes) : Z := foldl (λ acc d, acc * 10 + (d - 48)) 0 ds.

(** An optional sign: whether it is negative, and the rest. *)
Definition take_sign (s : bytes) : bool * bytes :=
  match s with
  | c :: r => if c =? 43 then (false, r) else if c =? 45 then (true, r) else (false, s)
  | [] => (false, s)
  end.

(** [str::parse::<i64>]. *)
Definition parse_i64 (s : bytes) : option Z :=
  let '(neg, ds) := take_sign s in
  if bool_decide (ds = []) || negb (forallb digit ds) then None
  else
    let v := if neg then - digits_value ds else digits_value ds in
    if (- 2 ^ 63 <=? v) && (v <? 2 ^ 63) then Some v else None.

(** The [f64] nearest to [num / den] (ties to even), for non-negative [num]. *)
Definition f64_of_ratio (num den : Z) : Z :=
  if num =? 0 then 0
  else
    let k := Z.log2 num - Z.log2 den in
    let below := if 0 <=? k then num <? den * 2 ^ k else num * 2 ^ (- k) <? den in
    let e := if below then k - 1 else k in
    let q := Z.max (e - 52) (- 1074) in
    let n := if 0 <=? q then num else num * 2 ^ (- q) in
    let d := if 0 <=? q then den * 2 ^ q else den in
    let m := n / d in
    let r := n - m * d in
    let m := if (d <? 2 * r) || ((2 * r =? d) && Z.odd m) then m + 1 else m in
    Z.min ((q + 1074) * 2 ^ 52 + m) f64_inf.

Definition ascii_lower (b : Z) : Z := if (65 <=? b) && (b <=? 90) then b + 32 else b.

(** The longest prefix of digits. *)
Fixpoint span_digits (s : bytes) : bytes * bytes :=
  match s with
  | c :: r => if digit c then let '(d, r) := span_digits r in (c :: d, r) else ([], s)
  | [] => ([], [])
  end.

(** The exponent part after [e] or [E]: a sign and at least one digit. *)
Definition parse_exp (s : bytes) : option Z :=
  let '(neg, ds) := take_sign s in
  if bool_decide (ds = []) || negb (forallb digit ds) then None
  else Some (if neg then - digits_value ds else digits_value ds).

(** A decimal number without sign. *)
Definition parse_decimal (s : bytes) : option Z :=
  let '(whole, s) := span_digits s in
  let '(frac, s) := match s with
                    | c :: r => if c =? 46 then span_digits r else ([], s)
                    | [] => ([], [])
                    end in
  if bool_decide (whole ++ frac = []) then None
  else
    ex ← match s with
         | [] => Some 0
         | c :: r => if (c =? 101) || (c =? 69) then parse_exp r else None
         end;
    let m := digits_value (whole ++ frac) in
    let ex := ex - zlen frac in
    Some (if 0 <=? ex then f64_of_ratio (m * 10 ^ ex) 1 else f64_of_ratio m (10 ^ (- ex))).

(** [str::parse::<f64>], to the bit pattern. *)
Definition parse_f64 (s : bytes) : option Z :=
  let '(neg, r) := take_sign s in
  let low := ascii_lower <$> r in
  v ← (if bytes_eqb low b#("inf") || bytes_eqb low b#("infinity") then Some f64_inf
       else if bytes_eqb low b#("nan") then Some 0x7FF8000000000000
       else parse_decimal r);
  Some (if neg then v + 2 ^ 63 else v).

(** ** Words *)

(** The length of the white-space character at the front, 0 if there is none. *)
Definition ws_len (s : bytes) : nat :=
  match s with
  | a :: r =>
      if in_rng 9 13 a || (a =? 32) then 1%nat
      else match r with
           | b :: r2 =>
               if (a =? 0xC2) && ((b =? 0x85) || (b =? 0xA0)) then 2%nat
               else match r2 with
                    | c :: _ =>
                        if ((a =? 0xE1) && (b =? 0x9A) && (c =? 0x80)) ||
                           ((a =? 0xE2) && (b =? 0x80) && (in_rng 0x80 0x8A c || (c =? 0xA8) || (c =? 0xA9) || (c =? 0xAF))) ||
                           ((a =? 0xE2) && (b =? 0x81) && (c =? 0x9F)) ||
                           ((a =? 0xE3) && (b =? 0x80) && (c =? 0x80))
                        then 3%nat else 0%nat
                    | [] => 0%nat
                    end
           | [] => 0%nat
           end
  | [] => 0%nat
  end.

(** [split_whitespace]: [word] is the word being read, reversed. *)
Fixpoint words_loop (fuel : nat) (s word : bytes) : list bytes :=
  let close := match word with [] => [] | _ => [rev word] end in
  match fuel with
  | O => close
  | S fuel =>
      match s with
      | [] => close
      | c :: r =>
          match ws_len s with
          | O => words_loop fuel r (c :: word)
          | n => close ++ words_loop fuel (drop n s) []
          end
      end
  end.
Definition split_whitespace (s : bytes) : list bytes := words_loop (S (length s)) s [].

(** [trim]: the string between the first and the last word. *)
Fixpoint trim_start (fuel : nat) (s : bytes) : bytes :=
  match fuel with
  | O => s
  | S fuel => match ws_len s with O => s | n => trim_start fuel (drop n s) end
  end.
Fixpoint trim_end (fuel : nat) (s : bytes) : bytes :=
  match fuel with
  | O => s
  | S fuel =>
      let n := length s in
      if (0 <? n)%nat && (ws_len (drop (n - 1) s) =? 1)%nat then trim_end fuel (take (n - 1) s)
      else if (1 <? n)%nat && (ws_len (drop (n - 2) s) =? 2)%nat then trim_end fuel (take (n - 2) s)
      else if (2 <? n)%nat && (ws_len (drop (n - 3) s) =? 3)%nat then trim_end fuel (take (n - 3) s)
      else s
  end.
Definition trim (s : bytes) : bytes :=
  let s := trim_start (length s) s in trim_end (length s) s.

(** [parse_bool_like]. *)
Definition parse_bool_like (input : bytes) : option bool :=
  let s := ascii_lower <$> trim input in
  if bytes_eqb s b#("true") then Some true
  else if bytes_eqb s b#("false") then Some false
  else None.

(** [str::contains]. *)
Fixpoint contains (d f : bytes) : bool :=
  starts_with d f || match d with [] => false | _ :: d => contains d f end.

(** ** Comparison *)

Section Compare.
(** [str::to_lowercase]. *)
Context (to_lowercase : bytes → bytes).

Definition string_op (d : bytes) (op : Operator) (f : bytes) : bool :=
  match op with
  | OpStartsWith => starts_with d f
  | OpContains => contains d f
  | OpMatch =>
      let doc_words := split_whitespace (to_lowercase d) in
      forallb (λ w, bool_decide (w ∈ doc_words)) (split_whitespace (to_lowercase f))
  | OpMatchPrefix =>
      let doc_words := split_whitespace (to_lowercase d) in
      forallb (λ w, existsb (λ doc_word, starts_with doc_word w) doc_words) (split_whitespace (to_lowercase f))
  | _ => eval_ordering (bytes_cmp d f) op
  end.

Definition is_number (v : Value) : bool := match v with Int _ | Float _ => true | _ => false end.

(** A string against a number: [parsed] is the string as that number. *)
Definition string_number (parsed : option comparison) (a b : Value) (op : Operator) : bool :=
  match parsed with
  | Some ord => eval_ordering ord op
  | None =>
      match op with
      | OpEq => false
      | OpNe => true
      | _ => eval_ordering (value_cmp a b) op
      end
  end.

(** The comparison by kinds. *)
Definition compare_kinds (a : Value) (op : Operator) (b : Value) : bool :=
    match a, b with
    | String s, Int i | Int i, String s => string_number ((λ p, p ?= i) <$> parse_i64 s) a b op
    | String s, Float f | Float f, String s => string_number ((λ p, f64_total_cmp p f) <$> parse_f64 s) a b op
    | String d, String f => string_op d op f
    | Int x, Int y => eval_ordering (x ?= y) op
    | Timestamp x, Timestamp y => eval_ordering (x ?= y) op
    | Binary x, Binary y => eval_ordering (bytes_cmp x y) op
    | Bool x, Bool y => eval_ordering (bool_cmp x y) op
    | Bool x, Int y => eval_ordering (Z.b2z x ?= y) op
    | Int x, Bool y => eval_ordering (x ?= Z.b2z y) op
    | Bool x, String s =>
        match parse_bool_like s with Some y => eval_ordering (bool_cmp x y) op | None => false end
    | String s, Bool y =>
        match parse_bool_like s with Some x => eval_ordering (bool_cmp x y) op | None => false end
    | Float x, Float y =>
        match f64_partial_cmp x y with Some ord => eval_ordering ord op | None => false end
    | Null, Null => eval_ordering Eq op
    | Int x, Float y => eval_ordering (f64_total_cmp (i64_to_f64 x) y) op
    | Float x, Int y => eval_ordering (f64_total_cmp x (i64_to_f64 y)) op
    | Reference c1 i1, Reference c2 i2 => eval_ordering (cmp_then (bytes_cmp c1 c2) (bytes_cmp i1 i2)) op
    | _, _ =>
        if negb (type_weight a =? type_weight b) && negb (is_number a && is_number b)
        then eval_ordering (type_weight a ?= type_weight b) op
        else eval_ordering (value_cmp a b) op
    end.

(** The comparison once the membership operators are out of the way, with the
    fast path for equality. *)
Definition compare_scalar (a : Value) (op : Operator) (b : Value) : bool :=
  if bool_decide (op = OpEq) && value_eqb a b then true else compare_kinds a op b.

(** [compare_values]: the membership operators compare items with [Eq]. *)
Definition compare_values (a : Value) (op : Operator) (b : Value) : bool :=
  match op with
  | OpIn => match b with Array allowed => existsb (λ item, compare_scalar a OpEq item) allowed | _ => false end
  | OpNotIn => match b with Array allowed => negb (existsb (λ item, compare_scalar a OpEq item) allowed) | _ => true end
  | OpArrayContains => match a with Array items => existsb (λ i, value_eqb i b) items | _ => false end
  | OpArrayContainsAny =>
      match a, b with
      | Array items, Array query_items => existsb (λ qi, existsb (λ i, value_eqb i qi) items) query_items
      | _, _ => false
      end
  | OpArrayAllEq =>
      match a with
      | Array items => negb (bool_decide (items = [])) && forallb (λ item, value_eqb item b) items
      | _ => false
      end
  | _ => compare_scalar a op b
  end.
End Compare.

(** ** Agreement with the value order *)

Definition order_op (op : Operator) : bool :=
  match op with OpEq | OpNe | OpGt | OpGte | OpLt | OpLte => true | _ => false end.

Definition not_nan (v : Value) : bool := match v with Float b => negb (f64_is_nan b) | _ => true end.

(** Pairs of kinds that [compare_values] converts into each other. *)
Definition coerced (a b : Value) : bool :=
  match a, b with
  | String _, (Int _ | Float _ | Bool _) | (Int _ | Float _ | Bool _), String _ => true
  | Bool _, Int _ | Int _, Bool _ => true
  | _, _ => false
  end.

Definition plain_value (v : Value) : bool := comparable v && no_neg_zero v && not_nan v.

Lemma partial_cmp_total x y :
  is_u64 x → is_u64 y → f64_is_nan x = false → f64_is_nan y = false → x ≠ 2 ^ 63 → y ≠ 2 ^ 63 →
  f64_partial_cmp x y = Some (f64_total_cmp x y).
Proof.
  unfold is_u64. intros Hx Hy Nx Ny Zx Zy. unfold f64_partial_cmp, f64_total_cmp. rewrite Nx, Ny. cbn [orb]. f_equal.
  assert (∀ z, 0 <= z < 2 ^ 64 → f64_abs z = if z <? 2 ^ 63 then z else z - 2 ^ 63) as Ha.
  { intros z Hz. unfold f64_abs. split_if; [apply Z.mod_small; lia|].
    symmetry. apply (Z.mod_unique_pos _ _ 1); lia. }
  unfold f64_num_key, f64_key. rewrite !Ha by done.
  destruct (x <? 2 ^ 63) eqn:Ex, (y <? 2 ^ 63) eqn:Ey; bool_simpl.
  - done.
  - transitivity Gt; [apply Z.compare_gt_iff; lia|symmetry; apply Z.compare_gt_iff; lia].
  - transitivity Lt; [apply Z.compare_lt_iff; lia|symmetry; apply Z.compare_lt_iff; lia].
  - destruct (Z.compare_spec (- (x - 2 ^ 63)) (- (y - 2 ^ 63))), (Z.compare_spec (2 ^ 63 - 1 - x) (2 ^ 63 - 1 - y)); done || lia.
Qed.

Section Order.
Context (to_lowercase : bytes → bytes).

(** On values that are not converted, the six order operators are the value
    order that sorting and the indexes use. *)
Lemma compare_kinds_order a op b :
  plain_value a = true → plain_value b = true → coerced a b = false → order_op op = true →
  compare_kinds to_lowercase a op b = eval_ordering (value_cmp a b) op.
Proof.
  unfold plain_value. intros Ha Hb Hc Ho. bool_simpl.
  destruct a, b; try done; cbn [compare_kinds value_cmp type_weight is_number]; try done;
    try (by destruct op).
  cbn [no_neg_zero not_nan] in *. bool_simpl. rewrite partial_cmp_total; try done; unfold is_u64; lia.
Qed.

Lemma compare_values_order a op b :
  plain_value a = true → plain_value b = true → coerced a b = false → order_op op = true →
  compare_values to_lowercase a op b = eval_ordering (value_cmp a b) op.
Proof.
  intros Ha Hb Hc Ho.
  assert (compare_values to_lowercase a op b = compare_scalar to_lowercase a op b) as -> by (by destruct op).
  unfold compare_scalar. split_if; [|by apply compare_kinds_order]. unfold plain_value in *. subst op. bool_simpl.
  match goal with E : value_eqb a b = true |- _ => apply value_eqb_cmp in E as ->; done end.
Qed.

(** [NotIn] is the negation of [In]. *)
Lemma not_in_negates a b :
  compare_values to_lowercase a OpNotIn b = negb (compare_values to_lowercase a OpIn b).
Proof. by destruct b. Qed.
End Order.

(** An integer against a numeric string is compared in the wrong direction:
    5 > "3" does not hold, 5 < "3" does. *)
Lemma int_string_reversed :
  compare_values id (Int 5) OpGt (String b#("3")) = false ∧ compare_values id (Int 5) OpLt (String b#("3")) = true ∧
  compare_values id (String b#("5")) OpGt (Int 3) = true.
Proof. by vm_compute. Qed.

Example parse_f64_examples :
  parse_f64 b#("1.5") = Some 0x3FF8000000000000 ∧ parse_f64 b#("0.1") = Some 0x3FB999999999999A ∧
  parse_f64 b#("-2e3") = Some 0xC09F400000000000 ∧ parse_f64 b#("4.9e-324") = Some 1 ∧
  parse_f64 b#("1.7976931348623157e308") = Some 0x7FEFFFFFFFFFFFFF ∧ parse_f64 b#("1e309") = Some f64_inf ∧
  parse_f64 b#("9007199254740993") = Some 0x4340000000000000 ∧ parse_f64 b#(".") = None ∧
  parse_f64 b#("1e") = None ∧ parse_f64 b#(".5") = Some 0x3FE0000000000000 ∧ parse_f64 b#("") = None.
Proof. by vm_compute. Qed.

Example words_examples :
  split_whitespace b#("  the  quick fox ") = [b#("the"); b#("quick"); b#("fox")] ∧
  trim b#("  true ") = b#("true") ∧ contains b#("hakodb") b#("kod") = true ∧ parse_i64 b#("-42") = Some (-42).
Proof. by vm_compute. Qed.

(** ** Numbers as text

    [ToString] of the integer types and of [f64], which print the digits that
    [str::parse] reads back.  A float prints as the shortest decimal that rounds
    to it, the nearest one among those, without an exponent. *)

(** The decimal digits of [n >= 0] in front of [acc]; one digit at least.  The
    fuel covers the binary length of [n]. *)
Fixpoint dec_loop (fuel : nat) (n : Z) (acc : bytes) : bytes :=
  let acc := 48 + n mod 10 :: acc in
  match fuel with
  | O => acc
  | S fuel => if n <? 10 then acc else dec_loop fuel (n / 10) acc
  end.
Definition dec_digits (n : Z) : bytes := dec_loop (Z.to_nat (Z.log2 n)) n [].
Definition int_to_string (n : Z) : bytes := if n <? 0 then 45 :: dec_digits (- n) else dec_digits n.

(** The value of a positive finite float as a fraction. *)
Definition f64_fraction (b : Z) : Z * Z :=
  let e := b / 2 ^ 52 in
  let m := b mod 2 ^ 52 in
  if e =? 0 then (m, 2 ^ 1074)
  else if 1075 <=? e then ((2 ^ 52 + m) * 2 ^ (e - 1075), 1)
  else (2 ^ 52 + m, 2 ^ (1075 - e)).

(** [num / den] over [10 ^ p]. *)
Definition scale10 (num den p : Z) : Z * Z :=
  if 0 <=? p then (num, den * 10 ^ p) else (num * 10 ^ (- p), den).
(** The first [k] from the given one with [num / den < 10 ^ k]. *)
Fixpoint magnitude (fuel : nat) (num den k : Z) : Z :=
  match fuel with
  | O => k
  | S fuel => let '(n, d) := scale10 num den k in if d <=? n then magnitude fuel num den (k + 1) else k
  end.
Definition f64_of_decimal (c p : Z) : Z :=
  if 0 <=? p then f64_of_ratio (c * 10 ^ p) 1 else f64_of_ratio c (10 ^ (- p)).

(** The shortest decimal [c * 10 ^ p] that reads back as [b], from [n] digits up
    to 17, which always suffice. *)
Fixpoint shortest (fuel : nat) (b num den k n : Z) : Z * Z :=
  let p := k - n in
  let '(a, d) := scale10 num den p in
  let lo := a / d in
  let near_lo := 2 * (a - lo * d) <? d in
  let ok_lo := f64_of_decimal lo p =? b in
  let ok_hi := f64_of_decimal (lo + 1) p =? b in
  if ok_lo && (near_lo || negb ok_hi) then (lo, p)
  else if ok_hi then (lo + 1, p)
  else match fuel with O => (lo, p) | S fuel => shortest fuel b num den k (n + 1) end.

(** [c * 10 ^ p] in positional notation. *)
Fixpoint strip_zeros (fuel : nat) (c p : Z) : Z * Z :=
  match fuel with
  | O => (c, p)
  | S fuel => if c mod 10 =? 0 then strip_zeros fuel (c / 10) (p + 1) else (c, p)
  end.
Definition positional (c p : Z) : bytes :=
  let '(c, p) := strip_zeros 20 c p in
  let ds := dec_digits c in
  if 0 <=? p then ds ++ replicate (Z.to_nat p) 48
  else
    let frac := Z.to_nat (- p) in
    let n := length ds in
    if (frac <? n)%nat then take (n - frac) ds ++ 46 :: drop (n - frac) ds
    else 48 :: 46 :: replicate (frac - n) 48 ++ ds.
Definition f64_to_string (b : Z) : bytes :=
  if f64_is_nan b then b#("NaN")
  else
    let a := f64_abs b in
    let s := if a =? 0 then b#("0")
             else if a =? f64_inf then b#("inf")
             else
               let '(num, den) := f64_fraction a in
               let k := magnitude 8 num den ((Z.log2 num - Z.log2 den) * 30103 / 100000 - 1) in
               let '(c, p) := shortest 16 a num den k 1 in
               positional c p in
    if b <? 2 ^ 63 then s else 45 :: s.

Lemma digits_value_app a b : digits_value (a ++ b) = digits_value a * 10 ^ zlen b + digits_value b.
Proof.
  unfold digits_value. rewrite foldl_app. generalize (foldl (λ acc d, acc * 10 + (d - 48)) 0 a) as x.
  induction b as [|d b IH] using rev_ind; intros x; [cbn [foldl]; rewrite zlen_nil; lia|].
  rewrite !foldl_app. cbn [foldl]. rewrite (IH x), zlen_app, Z.pow_add_r by (unfold zlen; lia).
  change (zlen [d]) with 1. lia.
Qed.

Lemma dec_loop_spec fuel n acc :
  0 <= n → Z.log2 n <= Z.of_nat fuel →
  ∃ ds, dec_loop fuel n acc = ds ++ acc ∧ forallb digit ds = true ∧ digits_value ds = n ∧ ds ≠ [].
Proof.
  revert n acc; induction fuel as [|fuel IH]; intros n acc Hn Hf; cbn [dec_loop].
  all: assert (digit (48 + n mod 10) = true) as Hd by (unfold digit; pose proof (Z.mod_pos_bound n 10); bool_simpl; lia).
  - assert (n < 2) by (destruct (Z.lt_ge_cases n 2); [done|]; assert (1 <= Z.log2 n) by (apply Z.log2_le_pow2; lia); lia).
    exists [48 + n mod 10]. cbn [forallb app digits_value foldl]. rewrite Hd.
    split_and!; [done|done| |done]. unfold digits_value. cbn [foldl]. rewrite Z.mod_small; lia.
  - destruct (n <? 10) eqn:E.
    + exists [48 + n mod 10]. cbn [forallb app]. rewrite Hd. bool_simpl.
      split_and!; [done|done| |done]. unfold digits_value. cbn [foldl]. rewrite Z.mod_small; lia.
    + bool_simpl. destruct (IH (n / 10) (48 + n mod 10 :: acc)) as (ds & -> & H1 & H2 & H3).
      * apply Z.div_pos; lia.
      * assert (0 < n / 10) by (apply Z.div_str_pos; lia).
        assert (Z.log2 (n / 10) < Z.log2 n); [|lia].
        apply Z.log2_lt_pow2; [done|]. apply Z.div_lt_upper_bound; [lia|].
        pose proof (Z.log2_spec n ltac:(lia)) as [_ Hlt]. rewrite Z.pow_succ_r in Hlt by apply Z.log2_nonneg. lia.
      * exists (ds ++ [48 + n mod 10]). rewrite <-app_assoc, forallb_app, H1. cbn [forallb app]. rewrite Hd.
        split_and!; [done|done| |by destruct ds]. rewrite digits_value_app, H2. change (zlen [48 + n mod 10]) with 1.
        unfold digits_value. cbn [foldl]. pose proof (Z.div_mod n 10). lia.
Qed.

(** Printing an [i64] and parsing the text gives it back. *)
Lemma parse_int_to_string n : is_i64 n → parse_i64 (int_to_string n) = Some n.
Proof.
  unfold is_i64, int_to_string, dec_digits. intros Hn. unfold parse_i64.
  assert (∀ m, 0 <= m → ∃ ds, dec_loop (Z.to_nat (Z.log2 m)) m [] = ds ∧ forallb digit ds = true ∧ digits_value ds = m ∧ ds ≠ []) as Hds.
  { intros m Hm. pose proof (Z.log2_nonneg m). destruct (dec_loop_spec (Z.to_nat (Z.log2 m)) m [] Hm ltac:(lia)) as (ds & -> & ?).
    exists ds. by rewrite app_nil_r. }
  destruct (n <? 0) eqn:E; bool_simpl.
  - destruct (Hds (- n) ltac:(lia)) as (ds & -> & H1 & H2 & H3). cbn [take_sign Z.eqb Pos.eqb].
    rewrite bool_decide_false, H1, H2 by done. cbn [orb negb]. rewrite Z.opp_involutive.
    rewrite (proj2 (andb_true_iff _ _)); [done|]. split; [apply Z.leb_le|apply Z.ltb_lt]; lia.
  - destruct (Hds n ltac:(lia)) as (ds & -> & H1 & H2 & H3). destruct ds as [|d ds]; [done|].
    assert (take_sign (d :: ds) = (false, d :: ds)) as ->.
    { cbn [forallb] in H1. apply andb_true_iff in H1 as [Hd _]. unfold digit in Hd. cbn [take_sign].
      destruct (d =? 43) eqn:E1, (d =? 45) eqn:E2; bool_simpl; done || lia. }
    rewrite bool_decide_false, H1, H2 by done. cbn [orb negb].
    rewrite (proj2 (andb_true_iff _ _)); [done|]. split; [apply Z.leb_le|apply Z.ltb_lt]; lia.
Qed.

Lemma f64_to_string_examples :
  f64_to_string 0x3FB999999999999A = b#("0.1") ∧ f64_to_string 0x4059000000000000 = b#("100") ∧
  f64_to_string 0xC00921FB54442D18 = b#("-3.141592653589793") ∧ f64_to_string 0x4340000000000000 = b#("9007199254740992") ∧
  f64_to_string 0x3F1A36E2EB1C432D = b#("0.0001") ∧ f64_to_string 0x8000000000000000 = b#("-0").
Proof. vm_compute. split_and!; reflexivity. Qed.
