(* ===== verification/Schema.v ===== *)
(** * Collection schemas (src/schema.rs)

    Declared field rules of a collection: the check of the declaration itself
    and [apply], which fills defaults and rejects documents on the write path.
    A declaration that passes [validate] rejects exactly the documents that
    break one of its rules, and what it accepts satisfies all of them. *)

From stdpp Require Import prelude list strings.
From Stdlib Require Import ZArith Lia.
From S2P Require Import Prelude RustStd Error Value Doc DocFacts DocAccess.

Local Open Scope Z_scope.
Local Open Scope hako_scope.

Inductive FieldKind :=
| KString | KInt | KFloat | KBool | KNull | KArray | KMap | KBytes | KTimestamp | KAny.

(** [FieldKind::name]. *)
Definition kind_name (k : FieldKind) : string :=
  match k with
  | KString => "string" | KInt => "int" | KFloat => "float" | KBool => "bool" | KNull => "null"
  | KArray => "array" | KMap => "map" | KBytes => "bytes" | KTimestamp => "timestamp" | KAny => "any"
  end.

(** [FieldKind::matches]. *)
Definition kind_matches (k : FieldKind) (v : Value) : bool :=
  match k, v with
  | KAny, _ => true
  | KString, String _ => true
  | KInt, Int _ => true
  | KFloat, Float _ => true
  | KBool, Bool _ => true
  | KNull, (Null | ServerTimestamp) => true
  | KArray, Array _ => true
  | KMap, Map _ => true
  | KBytes, Binary _ => true
  | KTimestamp, Timestamp _ => true
  | _, _ => false
  end.

Record FieldRule := mkRule {
  r_name : bytes;
  r_kind : FieldKind;
  r_required : bool;
  r_default : option Value }.

Record CollectionSchema := mkSchema { s_fields : list FieldRule }.

(** A name in an error message. *)
Definition text (s : bytes) : string :=
  String.string_of_list_ascii ((λ b, Ascii.ascii_of_N (Z.to_N b)) <$> s).
Local Infix "+:+" := String.append (right associativity, at level 60).

(** The loop of [CollectionSchema::validate]. *)
Fixpoint validate_loop (seen : list bytes) (rules : list FieldRule) : res unit :=
  match rules with
  | [] => Ok tt
  | rule :: rules =>
      if bool_decide (r_name rule = []) then Err (InvalidInput "schema: empty field name")
      else if bool_decide (46 ∈ r_name rule) then
        Err (InvalidInput ("schema: nested path `" +:+ text (r_name rule) +:+ "` is not supported yet (top-level rules only)"))
      else if bool_decide (r_name rule ∈ seen) then
        Err (InvalidInput ("schema: duplicate rule for `" +:+ text (r_name rule) +:+ "`"))
      else
        match r_default rule with
        | Some v =>
            if kind_matches (r_kind rule) v then validate_loop (r_name rule :: seen) rules
            else Err (InvalidInput ("schema: default for `" +:+ text (r_name rule) +:+ "` is not a " +:+ kind_name (r_kind rule)))
        | None => validate_loop (r_name rule :: seen) rules
        end
  end.
Definition validate (s : CollectionSchema) : res unit := validate_loop [] (s_fields s).

(** The loop of [CollectionSchema::apply]: the document as the code leaves it
    and the result. *)
Fixpoint apply_rules (collection : bytes) (rules : list FieldRule) (doc : HakoDoc) : HakoDoc * res unit :=
  match rules with
  | [] => (doc, Ok tt)
  | rule :: rules =>
      match doc_get doc (r_name rule) with
      | Some v =>
          if kind_matches (r_kind rule) v then apply_rules collection rules doc
          else (doc, Err (SchemaViolation collection (r_name rule) (kind_name (r_kind rule))))
      | None =>
          match r_default rule with
          | Some default => apply_rules collection rules (doc_insert doc (r_name rule) default)
          | None =>
              if r_required rule
              then (doc, Err (SchemaViolation collection (r_name rule) ("present " +:+ kind_name (r_kind rule))))
              else apply_rules collection rules doc
          end
      end
  end.
Definition apply (s : CollectionSchema) (collection : bytes) (doc : HakoDoc) : HakoDoc * res unit :=
  apply_rules collection (s_fields s) doc.

(** ** What a rule means *)

(** A document keeps a rule: a present field has the kind, and a required or
    defaulted one is present. *)
Definition conforms (doc : HakoDoc) (rule : FieldRule) : bool :=
  match doc_get doc (r_name rule) with
  | Some v => kind_matches (r_kind rule) v
  | None => negb (r_required rule) && match r_default rule with Some _ => false | None => true end
  end.

(** A rule accepts a document, filling in the default if need be. *)
Definition admissible (doc : HakoDoc) (rule : FieldRule) : bool :=
  match doc_get doc (r_name rule) with
  | Some v => kind_matches (r_kind rule) v
  | None => negb (r_required rule) || match r_default rule with Some _ => true | None => false end
  end.

(** The value of a field after [apply]: the default where it was missing. *)
Fixpoint default_of (rules : list FieldRule) (k : bytes) : option Value :=
  match rules with
  | [] => None
  | rule :: rules => if bytes_eqb (r_name rule) k then r_default rule else default_of rules k
  end.
Definition filled (rules : list FieldRule) (doc : HakoDoc) (k : bytes) : option Value :=
  match doc_get doc k with
  | Some v => Some v
  | None => default_of rules k
  end.

Lemma validate_loop_ok rules seen :
  validate_loop seen rules = Ok tt →
  NoDup (r_name <$> rules) ∧ (∀ r, r ∈ rules → r_name r ∉ seen) ∧
  Forall (λ r, ∀ v, r_default r = Some v → kind_matches (r_kind r) v = true) rules.
Proof.
  revert seen; induction rules as [|r rules IH]; intros seen; cbn [validate_loop].
  { intros _. split_and!; [constructor|by intros ? ?%not_elem_of_nil|constructor]. }
  repeat case_bool_decide; try done. intros Hv.
  assert (validate_loop (r_name r :: seen) rules = Ok tt ∧ ∀ v, r_default r = Some v → kind_matches (r_kind r) v = true)
    as [Hv' Hd].
  { destruct (r_default r) as [v|]; [|done]. destruct (kind_matches (r_kind r) v) eqn:E; [|done]. split; [done|].
    by intros ? [= <-]. }
  destruct (IH _ Hv') as (Hnd & Hs & Hf). rewrite fmap_cons. split_and!.
  - constructor; [|done]. intros (r' & E & Hin)%list_elem_of_fmap. apply (Hs r' Hin). rewrite E. by left.
  - intros r' [->|Hin]%elem_of_cons; [done|]. intros Hin'. apply (Hs r' Hin). by right.
  - by constructor.
Qed.

(** Rules other than the one inserted for see the same document. *)
Lemma admissible_insert doc k v rule :
  doc_sorted doc → r_name rule ≠ k → admissible (doc_insert doc k v) rule = admissible doc rule.
Proof.
  intros Hs Hne. unfold admissible. rewrite doc_get_insert by done.
  destruct (bytes_eqb k (r_name rule)) eqn:E; [|done]. by apply bytes_eqb_eq in E.
Qed.

Lemma default_of_None rules k : k ∉ r_name <$> rules → default_of rules k = None.
Proof.
  induction rules as [|r rules IH]; [done|]. rewrite fmap_cons, not_elem_of_cons. intros [Hne Hk]. cbn [default_of].
  destruct (bytes_eqb (r_name r) k) eqn:E; [apply bytes_eqb_eq in E; congruence|by apply IH].
Qed.

Lemma filled_skip r rules doc k :
  r_name r ≠ k ∨ r_default r = None ∧ k ∉ r_name <$> rules → filled (r :: rules) doc k = filled rules doc k.
Proof.
  unfold filled. intros Hk. destruct (doc_get doc k); [done|]. cbn [default_of].
  destruct (bytes_eqb (r_name r) k) eqn:E; [|done]. apply bytes_eqb_eq in E.
  destruct Hk as [?|[-> Hk]]; [done|]. by rewrite default_of_None.
Qed.

(** On a declaration without duplicates: [apply] succeeds exactly when every
    rule admits the document, and fills exactly the missing defaults. *)
Lemma apply_rules_spec c rules doc :
  doc_sorted doc → NoDup (r_name <$> rules) →
  let '(doc', r) := apply_rules c rules doc in
  (r = Ok tt ↔ forallb (admissible doc) rules = true) ∧
  (r = Ok tt → doc_sorted doc' ∧ _time doc' = _time doc ∧ ∀ k, doc_get doc' k = filled rules doc k) ∧
  (∀ e, r = Err e → ∃ rule expected, rule ∈ rules ∧ admissible doc rule = false ∧
     e = SchemaViolation c (r_name rule) expected) ∧ r ≠ Panic.
Proof.
  revert doc; induction rules as [|r rules IH]; intros doc Hs Hnd; cbn [apply_rules forallb].
  { split_and!; try done. intros _. split_and!; try done. intros k. unfold filled. by destruct (doc_get doc k). }
  rewrite fmap_cons in Hnd. apply NoDup_cons in Hnd as [Hni Hnd].
  destruct (doc_get doc (r_name r)) as [v|] eqn:Hg.
  - assert (admissible doc r = kind_matches (r_kind r) v) as Ha by (unfold admissible; by rewrite Hg).
    rewrite Ha. destruct (kind_matches (r_kind r) v) eqn:Hk; cbn [andb].
    + specialize (IH doc Hs Hnd). destruct (apply_rules c rules doc) as [doc' x]. destruct IH as (I1 & I2 & I3 & I4).
      split_and!; [done| | |done].
      * intros Hx. destruct (I2 Hx) as (S1 & S2 & S3). split_and!; try done. intros k. rewrite S3.
        destruct (decide (r_name r = k)) as [<-|Hne]; [unfold filled; by rewrite Hg|]. symmetry. apply filled_skip. by left.
      * intros e He. destruct (I3 e He) as (rule & ex & Hin & ? & ?). exists rule, ex. split_and!; try done. by right.
    + split_and!; try done. intros e [= <-]. exists r, (kind_name (r_kind r)). split_and!; try done. by left.
  - assert (admissible doc r = negb (r_required r) || match r_default r with Some _ => true | None => false end) as Ha
      by (unfold admissible; by rewrite Hg).
    destruct (r_default r) as [dv|] eqn:Hd.
    + rewrite Ha, orb_true_r. cbn [andb]. specialize (IH (doc_insert doc (r_name r) dv) ltac:(by apply doc_insert_sorted) Hnd).
      assert (∀ rule, rule ∈ rules → admissible (doc_insert doc (r_name r) dv) rule = admissible doc rule) as Hsame.
      { intros rule Hin. apply admissible_insert; [done|]. intros E. apply Hni. rewrite <-E. by apply list_elem_of_fmap_2. }
      assert (forallb (admissible (doc_insert doc (r_name r) dv)) rules = forallb (admissible doc) rules) as Hf.
      { clear IH Hnd Hni. induction rules as [|r0 rules IH]; [done|]. cbn [forallb].
        rewrite Hsame by (by left). rewrite IH; [done|]. intros rule Hin. apply Hsame. by right. }
      destruct (apply_rules c rules _) as [doc' x]. destruct IH as (I1 & I2 & I3 & I4). rewrite Hf in I1.
      split_and!; [done| | |done].
      * intros Hx. destruct (I2 Hx) as (S1 & S2 & S3). split_and!; [done| |].
        { rewrite S2. unfold doc_insert. by destruct (binary_search_by _ _). }
        intros k. rewrite S3. unfold filled. rewrite doc_get_insert by done. cbn [default_of].
        destruct (bytes_eqb (r_name r) k) eqn:E; [|done]. apply bytes_eqb_eq in E as <-. by rewrite Hg.
      * intros e He. destruct (I3 e He) as (rule & ex & Hin & Hadm & ?). exists rule, ex.
        split_and!; [by right|by rewrite <-Hsame|done].
    + rewrite orb_false_r in Ha. rewrite Ha. destruct (r_required r) eqn:Hreq; cbn [negb andb].
      * split_and!; try done. intros e [= <-]. eexists r, _. split_and!; [by left|done|done].
      * specialize (IH doc Hs Hnd). destruct (apply_rules c rules doc) as [doc' x]. destruct IH as (I1 & I2 & I3 & I4).
        split_and!; [done| | |done].
        { intros Hx. destruct (I2 Hx) as (S1 & S2 & S3). split_and!; try done. intros k. rewrite S3. symmetry.
          apply filled_skip. destruct (decide (r_name r = k)) as [<-|]; [right|by left]. done. }
        { intros e He. destruct (I3 e He) as (rule & ex & Hin & ? & ?). exists rule, ex. split_and!; try done. by right. }
Qed.

Lemma default_of_rule rules r : NoDup (r_name <$> rules) → r ∈ rules → default_of rules (r_name r) = r_default r.
Proof.
  induction rules as [|r0 rules IH]; [by intros _ ?%not_elem_of_nil|]. rewrite fmap_cons.
  intros [Hni Hnd]%NoDup_cons [->|Hin]%elem_of_cons; cbn [default_of]; [by rewrite bytes_eqb_refl|].
  destruct (bytes_eqb (r_name r0) (r_name r)) eqn:E; [|by apply IH]. apply bytes_eqb_eq in E.
  exfalso. apply Hni. rewrite E. by apply list_elem_of_fmap_2.
Qed.

Lemma apply_conforming c rules doc : forallb (conforms doc) rules = true → apply_rules c rules doc = (doc, Ok tt).
Proof.
  induction rules as [|r rules IH]; [done|]. cbn [forallb apply_rules]. intros Hf. apply andb_true_iff in Hf as [Hc Hf].
  unfold conforms in Hc. destruct (doc_get doc (r_name r)) as [v|]; [rewrite Hc; by apply IH|].
  apply andb_true_iff in Hc as [Hr Hd]. destruct (r_default r); [done|]. apply negb_true_iff in Hr. rewrite Hr. by apply IH.
Qed.

(** What an accepted document looks like. *)
Lemma filled_conforms rules doc doc' :
  NoDup (r_name <$> rules) →
  Forall (λ r, ∀ v, r_default r = Some v → kind_matches (r_kind r) v = true) rules →
  forallb (admissible doc) rules = true → (∀ k, doc_get doc' k = filled rules doc k) →
  forallb (conforms doc') rules = true.
Proof.
  intros Hnd Hdef Hadm Hfill. apply forallb_forall. intros r Hin. rewrite forallb_forall in Hadm. specialize (Hadm r Hin).
  apply list_elem_of_In in Hin. rewrite Forall_forall in Hdef. specialize (Hdef r Hin).
  unfold conforms, admissible in *. rewrite Hfill. unfold filled. destruct (doc_get doc (r_name r)) as [v|]; [done|].
  rewrite (default_of_rule rules r Hnd Hin). destruct (r_default r) as [dv|]; [by apply Hdef|].
  rewrite orb_false_r in Hadm. by rewrite Hadm.
Qed.
