(* ===== verification/Composite.v ===== *)
(** * Composite indexes (src/index/composite/)

    Index definitions with their tuple and filter rules ([definition.rs]), the
    byte encoding of tuples ([key_encoder.rs]), scan ranges ([range_builder.rs])
    and the index tree ([composite_index.rs], [prefix_scan.rs]).  A [BTreeMap] is
    the list of its entries in key order. *)

From stdpp Require Import prelude list gmap strings.
From Stdlib Require Import ZArith Lia.
From S2P Require Import Prelude RustStd Error Value Doc Filter.

Local Open Scope Z_scope.
Local Open Scope hako_scope.

(** ** Ordered maps *)

Section BTree.
Context {A : Type}.
Implicit Types t : list (bytes * A).

(** [BTreeMap::insert], [remove], [range(start..=end)]. *)
Fixpoint bt_insert (k : bytes) (v : A) t : list (bytes * A) :=
  match t with
  | [] => [(k, v)]
  | kv :: t' =>
      match bytes_cmp k kv.1 with
      | Lt => (k, v) :: t
      | Eq => (k, v) :: t'
      | Gt => kv :: bt_insert k v t'
      end
  end.
Definition bt_remove (k : bytes) t : list (bytes * A) := List.filter (λ kv, negb (bytes_eqb kv.1 k)) t.
Definition bt_range (lo hi : bytes) t : list (bytes * A) :=
  List.filter (λ kv, bytes_leb lo kv.1 && bytes_leb kv.1 hi) t.
End BTree.

(** ** Definitions *)

Inductive SortDirection := Asc | Desc.
Record CompositeField := mkField { cf_field : bytes; cf_direction : SortDirection }.
Record CompositeIndexDefinition := mkDef {
  d_id : Z;
  d_collection : bytes;
  d_fields : list CompositeField;
  d_unique : bool;
  d_sparse : bool;
  d_filter : option FilterGroup }.

Definition is_compound (v : Value) : bool :=
  match v with Map _ | Array _ | Reference _ _ | BlobLink _ _ => true | _ => false end.

(** The value of a field: the virtual fields, then a path of the body. *)
Definition field_value (doc_id : bytes) (doc : HakoDoc) (field : bytes) : option Value :=
  if bytes_eqb field b#("id") then Some (String doc_id)
  else if bytes_eqb field b#("_time") then Some (Int (_time doc))
  else get_path doc field.

(** [CompositeIndexDefinition::document_values_of]. *)
Fixpoint tuple_values (unique sparse : bool) (doc_id : bytes) (doc : HakoDoc) (fs : list CompositeField)
  : option (list Value) :=
  match fs with
  | [] => Some []
  | f :: fs =>
      v ← match field_value doc_id doc (cf_field f) with
          | Some v => Some v
          | None => if unique && negb sparse then Some Null else None
          end;
      if unique && is_compound v then None
      else vs ← tuple_values unique sparse doc_id doc fs; Some (v :: vs)
  end.
Definition document_values_of (def : CompositeIndexDefinition) (doc_id : bytes) (doc : HakoDoc) : option (list Value) :=
  tuple_values (d_unique def) (d_sparse def) doc_id doc (d_fields def).

(** ** Keys *)

(** [maybe_flip]: [!b] on a byte. *)
Definition maybe_flip (d : SortDirection) (b : bytes) : bytes :=
  match d with Asc => b | Desc => (λ x, 255 - x) <$> b end.

(** [encode_value] of key_encoder.rs. *)
Definition encode_key_value (v : Value) (d : SortDirection) : bytes :=
  match v with
  | Null => [0]
  | Bool b => [1; if b then 1 else 0]
  | Int n => 2 :: maybe_flip d (i64_to_be n)
  | Float bits => 3 :: maybe_flip d (to_be 8 bits)
  | String s => 4 :: to_be 4 (as_u32 (zlen s)) ++ maybe_flip d s
  | Binary s => 5 :: to_be 4 (as_u32 (zlen s)) ++ maybe_flip d s
  | Timestamp n => 6 :: maybe_flip d (i64_to_be n)
  | Map _ => [8]
  | Array _ => [9]
  | Reference _ _ => [10]
  | BlobLink _ _ => [11]
  | ServerTimestamp => [0]
  end.

(** The loop over [values.iter().zip(def.fields.iter())]. *)
Definition encode_tuple (fs : list CompositeField) (values : list Value) : bytes :=
  concat (zip_with (λ v f, encode_key_value v (cf_direction f)) values fs).

(** [encode_composite_prefix], [build_prefix_key]. *)
Definition encode_composite_prefix (def : CompositeIndexDefinition) (values : list Value) : bytes :=
  to_be 4 (d_id def) ++ encode_tuple (d_fields def) values.
Definition build_prefix_key := encode_composite_prefix.

(** [encode_composite_key]. *)
Definition encode_composite_key (def : CompositeIndexDefinition) (values : list Value) (doc_id : bytes) : bytes :=
  to_be 4 (d_id def) ++ encode_tuple (d_fields def) values ++ to_be 2 (as_u16 (zlen doc_id)) ++ doc_id.

(** ** Ranges *)

Record ScanRange := mkRange { r_start : bytes; r_end : bytes }.

Definition build_prefix_open_end (prefix : bytes) : bytes := prefix ++ [255].
Definition build_prefix_range (def : CompositeIndexDefinition) (values : list Value) : ScanRange :=
  let start := build_prefix_key def values in mkRange start (build_prefix_open_end start).
Definition build_value_key (def : CompositeIndexDefinition) (eq_prefix_values : list Value) (range_value : Value)
  : option bytes :=
  field ← d_fields def !! length eq_prefix_values;
  Some (build_prefix_key def eq_prefix_values ++ encode_key_value range_value (cf_direction field)).
Definition key_with_upper_sentinel (key : bytes) : bytes := key ++ [255].
Definition build_cursor_range (def : CompositeIndexDefinition) (cursor_values : list Value) (is_after : bool) : bytes :=
  let key := encode_composite_key def cursor_values [] in
  if is_after then key ++ [255] else key.

(** ** The index *)

Section CompositeIndex_.
Context (to_lowercase : bytes → bytes).

(** [CompositeIndexDefinition::filter_passes]. *)
Definition filter_passes (def : CompositeIndexDefinition) (doc_id : bytes) (doc : HakoDoc) : bool :=
  match d_filter def with
  | None => true
  | Some group =>
      let matches f := match field_value doc_id doc (f_field f) with
                       | Some v => compare_values to_lowercase v (f_op f) (f_value f)
                       | None => false
                       end in
      match g_logic group with
      | LAnd => forallb matches (g_filters group)
      | LOr => existsb matches (g_filters group)
      end
  end.

Record CompositeIndex := mkCIndex { ci_definition : CompositeIndexDefinition; tree : list (bytes * bytes) }.

(** [CompositeIndex::new], [clear]. *)
Definition ci_new (def : CompositeIndexDefinition) : CompositeIndex := mkCIndex def [].
Definition ci_clear (i : CompositeIndex) : CompositeIndex := mkCIndex (ci_definition i) [].

(** The entry of a document. *)
Definition doc_key (def : CompositeIndexDefinition) (doc_id : bytes) (doc : HakoDoc) : option bytes :=
  if filter_passes def doc_id doc then
    values ← document_values_of def doc_id doc; Some (encode_composite_key def values doc_id)
  else None.

(** [index_document], [remove_document]. *)
Definition index_document (i : CompositeIndex) (doc_id : bytes) (doc : HakoDoc) : CompositeIndex :=
  match doc_key (ci_definition i) doc_id doc with
  | Some key => mkCIndex (ci_definition i) (bt_insert key doc_id (tree i))
  | None => i
  end.
Definition remove_document (i : CompositeIndex) (doc_id : bytes) (doc : HakoDoc) : CompositeIndex :=
  match doc_key (ci_definition i) doc_id doc with
  | Some key => mkCIndex (ci_definition i) (bt_remove key (tree i))
  | None => i
  end.

(** [index_batch]: the entries first, then [extend]; [remove_batch]. *)
Definition index_batch (i : CompositeIndex) (docs : list (bytes * HakoDoc)) : CompositeIndex :=
  let new_entries := omap (λ d, (λ key, (key, d.1)) <$> doc_key (ci_definition i) d.1 d.2) docs in
  mkCIndex (ci_definition i) (foldl (λ t kv, bt_insert kv.1 kv.2 t) (tree i) new_entries).
Definition remove_batch (i : CompositeIndex) (docs : list (bytes * HakoDoc)) : CompositeIndex :=
  foldl (λ i d, remove_document i d.1 d.2) i docs.

(** [range_scan], [range_scan_limit]: a range with crossed bounds aborts. *)
Definition range_scan (i : CompositeIndex) (start end_ : bytes) : res (list bytes) :=
  if bytes_ltb end_ start then Panic else Ok (bt_range start end_ (tree i)).*2.
Definition range_scan_limit (i : CompositeIndex) (start end_ : bytes) (limit : nat) (reverse : bool)
  : res (list bytes) :=
  if bytes_ltb end_ start then Panic
  else
    let entries := bt_range start end_ (tree i) in
    Ok (take limit (if reverse then rev entries else entries)).*2.
End CompositeIndex_.

(** [prefix_scan]. *)
Definition prefix_scan (t : list (bytes * bytes)) (prefix : bytes) : list bytes :=
  (fix go l := match l with
               | kv :: l => if starts_with kv.1 prefix then kv.2 :: go l else []
               | [] => []
               end) (List.filter (λ kv, bytes_leb prefix kv.1) t).
