(* ===== verification/CompositeFacts.v ===== *)
(** * Correctness of the composite index

    The tuple encoding is a prefix code, so a key determines its document and
    two tuples share a claim only when they are equal; the tree holds exactly
    the keys of the indexed documents; an equality scan returns exactly the
    documents whose tuple starts with the given values. *)

From stdpp Require Import prelude list gmap strings.
From Stdlib Require Import ZArith Lia.
From S2P Require Import Prelude RustStd Error Value Doc DocFacts Filter Composite.

Local Open Scope Z_scope.
Local Open Scope hako_scope.

(** ** The tuple encoding *)

(** Values that fit their types; string lengths fit their prefix. *)
Definition value_ok (v : Value) : Prop :=
  match v with
  | Int n | Timestamp n => is_i64 n
  | Float b => is_u64 b
  | String s | Binary s => is_u32 (zlen s)
  | _ => True
  end.

Definition scalar (v : Value) : bool := negb (is_compound v).

(** The server-timestamp placeholder is indexed as null. *)
Definition norm (v : Value) : Value := match v with ServerTimestamp => Null | v => v end.

Lemma maybe_flip_length d b : length (maybe_flip d b) = length b.
Proof. destruct d; [done|]. apply length_fmap. Qed.

Lemma maybe_flip_inj d : Inj (=) (=) (maybe_flip d).
Proof. intros a b. destruct d; [done|]. apply (list_fmap_eq_inj (λ x, 255 - x)). intros x y E. lia. Qed.

Lemma to_be_len_inj (s s' : bytes) r r' :
  is_u32 (zlen s) → is_u32 (zlen s') →
  to_be 4 (as_u32 (zlen s)) ++ r = to_be 4 (as_u32 (zlen s')) ++ r' → zlen s = zlen s' ∧ r = r'.
Proof.
  intros Hs Hs' E. rewrite !as_u32_id in E by done. apply app_inj_1 in E as [E ->]; [|done]. split; [|done].
  apply (f_equal of_be) in E. rewrite !of_be_to_be in E by (unfold is_u32 in *; lia). done.
Qed.

Lemma body_inj d (s s' : bytes) r r' :
  zlen s = zlen s' → maybe_flip d s ++ r = maybe_flip d s' ++ r' → s = s' ∧ r = r'.
Proof.
  intros Hl E. apply app_inj_1 in E as [E ->]; [|rewrite !maybe_flip_length; unfold zlen in Hl; lia].
  by apply maybe_flip_inj in E.
Qed.

Lemma fixed_inj d (a b : bytes) r r' :
  length a = 8%nat → length b = 8%nat → maybe_flip d a ++ r = maybe_flip d b ++ r' → a = b ∧ r = r'.
Proof. intros Ha Hb. apply body_inj. unfold zlen. lia. Qed.

(** The encoding is a prefix code, and injective on scalars. *)
Lemma encode_key_value_code v w d r r' :
  value_ok v → value_ok w → encode_key_value v d ++ r = encode_key_value w d ++ r' →
  r = r' ∧ encode_key_value v d = encode_key_value w d ∧ scalar v = scalar w ∧ (scalar v = true → norm v = norm w).
Proof.
  intros Hv Hw E.
  destruct v, w; cbn [encode_key_value app] in E; try discriminate E;
    try (injection E as <-; by split_and!); cbn [value_ok] in Hv, Hw.
  - injection E as E ->. destruct b, b0; try done; by split_and!.
  - apply cons_inv in E as [_ E]. apply fixed_inj in E as [E ->]; [|done..]. apply (f_equal i64_of_be) in E.
    rewrite !i64_of_to_be in E by done. subst. by split_and!.
  - apply cons_inv in E as [_ E]. apply fixed_inj in E as [E ->]; [|done..]. apply (f_equal of_be) in E.
    rewrite !of_be_to_be in E by (unfold is_u64 in *; lia). subst. by split_and!.
  - apply cons_inv in E as [_ E]. rewrite <-!app_assoc in E. apply to_be_len_inj in E as [El E]; [|done..].
    apply body_inj in E as [-> ->]; [|done]. by split_and!.
  - apply cons_inv in E as [_ E]. rewrite <-!app_assoc in E. apply to_be_len_inj in E as [El E]; [|done..].
    apply body_inj in E as [-> ->]; [|done]. by split_and!.
  - apply cons_inv in E as [_ E]. apply fixed_inj in E as [E ->]; [|done..]. apply (f_equal i64_of_be) in E.
    rewrite !i64_of_to_be in E by done. subst. by split_and!.
Qed.

Lemma encode_tuple_cons f fs v vs :
  encode_tuple (f :: fs) (v :: vs) = encode_key_value v (cf_direction f) ++ encode_tuple fs vs.
Proof. done. Qed.

(** Tuples of the same index. *)
Lemma encode_tuple_code fs vs ws r r' :
  Forall value_ok vs → Forall value_ok ws → length vs = length fs → length ws = length fs →
  encode_tuple fs vs ++ r = encode_tuple fs ws ++ r' →
  r = r' ∧ encode_tuple fs vs = encode_tuple fs ws ∧
  (forallb scalar vs = true → norm <$> vs = norm <$> ws).
Proof.
  revert vs ws; induction fs as [|f fs IH]; intros [|v vs] [|w ws] Hv Hw Lv Lw E; try done.
  apply Forall_cons in Hv as [Hv Hvs]. apply Forall_cons in Hw as [Hw Hws].
  rewrite !encode_tuple_cons, <-!app_assoc in E. rewrite !encode_tuple_cons.
  apply encode_key_value_code in E as (E & E1 & _ & E2); [|done..].
  apply IH in E as (-> & E3 & E4); [|done|done|by injection Lv|by injection Lw].
  split_and!; [done|by rewrite E1, E3|]. cbn [forallb fmap list_fmap]. intros Hs. apply andb_true_iff in Hs as [Hs Hss].
  by rewrite E2, E4.
Qed.

(** A tuple against the encoding of some of its first values. *)
Lemma encode_tuple_prefix fs vs ws r r' :
  Forall value_ok vs → Forall value_ok ws → length vs = length fs → (length ws <= length fs)%nat →
  forallb scalar ws = true →
  encode_tuple fs vs ++ r = encode_tuple fs ws ++ r' → norm <$> take (length ws) vs = norm <$> ws.
Proof.
  revert vs ws; induction fs as [|f fs IH]; intros [|v vs] [|w ws] Hv Hw Lv Lw Hs E; try done; [cbn in Lw; lia|].
  apply Forall_cons in Hv as [Hv Hvs]. apply Forall_cons in Hw as [Hw Hws]. cbn [forallb] in Hs.
  apply andb_true_iff in Hs as [Hs Hss]. rewrite !encode_tuple_cons, <-!app_assoc in E.
  apply encode_key_value_code in E as (E & _ & Esc & E2); [|done..]. rewrite Esc in E2.
  cbn [length take]. rewrite !fmap_cons, E2 by done. f_equal.
  apply (IH _ _ Hvs Hws ltac:(by injection Lv) ltac:(cbn in Lw; lia) Hss E).
Qed.

Lemma encode_key_value_norm v w d : norm v = norm w → encode_key_value v d = encode_key_value w d.
Proof. destruct v, w; cbn; intros [=]; subst; done. Qed.

(** The converse: the encoding of equal first values is a prefix. *)
Lemma encode_tuple_take fs vs ws :
  length vs = length fs → norm <$> take (length ws) vs = norm <$> ws → (length ws <= length fs)%nat →
  ∃ rest, encode_tuple fs vs = encode_tuple fs ws ++ rest ∧
    rest = encode_tuple (drop (length ws) fs) (drop (length ws) vs).
Proof.
  revert vs ws; induction fs as [|f fs IH]; intros [|v vs] [|w ws] Lv E Lw; try done; [by eexists|by eexists|].
  cbn [length take] in E. rewrite !fmap_cons in E. injection E as E1 E2.
  destruct (IH vs ws ltac:(by injection Lv) E2 ltac:(cbn in Lw; lia)) as (rest & Er & Erest). exists rest.
  rewrite !encode_tuple_cons, Er, <-app_assoc. cbn [length drop]. split; [|done]. f_equal. by apply encode_key_value_norm.
Qed.

(** ** Keys *)

Lemma encode_composite_key_split def vs id :
  encode_composite_key def vs id = encode_composite_prefix def vs ++ to_be 2 (as_u16 (zlen id)) ++ id.
Proof. unfold encode_composite_key, encode_composite_prefix. by rewrite <-app_assoc. Qed.

(** A key determines its document. *)
Lemma composite_key_inj def vs ws id id' :
  Forall value_ok vs → Forall value_ok ws → length vs = length (d_fields def) → length ws = length (d_fields def) →
  encode_composite_key def vs id = encode_composite_key def ws id' → id = id'.
Proof.
  intros Hv Hw Lv Lw E. unfold encode_composite_key in E. apply app_inv_head in E.
  apply encode_tuple_code in E as (E & _); [|done..]. by apply app_inj_1 in E as [_ E].
Qed.

(** Two tuples share a claim prefix only when they are equal. *)
Lemma composite_prefix_inj def vs ws :
  Forall value_ok vs → Forall value_ok ws → length vs = length (d_fields def) → length ws = length (d_fields def) →
  forallb scalar vs = true →
  encode_composite_prefix def vs = encode_composite_prefix def ws ↔ norm <$> vs = norm <$> ws.
Proof.
  intros Hv Hw Lv Lw Hs. unfold encode_composite_prefix. split.
  - intros E%app_inv_head.
    assert (encode_tuple (d_fields def) vs ++ [] = encode_tuple (d_fields def) ws ++ []) as E' by (by rewrite !app_nil_r).
    apply encode_tuple_code in E' as (_ & _ & E'); [|done..]. by apply E'.
  - intros E. f_equal. unfold encode_tuple. f_equal. clear Hv Hw Hs Lv Lw. revert ws E.
    generalize (d_fields def) as fs. induction vs as [|v vs IH]; intros fs [|w ws] E; try done.
    rewrite !fmap_cons in E. injection E as E1 E2. destruct fs as [|f fs]; [done|]. cbn [zip_with].
    f_equal; [by apply encode_key_value_norm|by apply IH].
Qed.

(** ** The tree *)

Abbreviation bt_sorted := (key_sorted (@fst bytes _)).

Lemma elem_of_bt_insert {A} (t : list (bytes * A)) k v k' v' :
  bt_sorted t → (k', v') ∈ bt_insert k v t ↔ (k' = k ∧ v' = v) ∨ (k' ≠ k ∧ (k', v') ∈ t).
Proof.
  induction 1 as [|[k0 v0] t Hs IH Hx]; cbn [bt_insert fst].
  { rewrite list_elem_of_singleton. split; [by intros [= -> ->]; left|]. intros [[-> ->]|[_ Hin]]; [done|by apply not_elem_of_nil in Hin]. }
  assert (∀ k1 v1, (k1, v1) ∈ t → bytes_lt k0 k1) as Hlt by (intros k1 v1 Hin; rewrite Forall_forall in Hx; exact (Hx _ Hin)).
  destruct (bytes_cmp k k0) eqn:E.
  - apply cmp_eq in E as ->. rewrite elem_of_cons. split.
    + intros [[= -> ->]|Hin]; [by left|]. right. split; [|by right]. intros ->. by apply (cmp_lt_irrefl _ _ (Hlt _ _ Hin)).
    + intros [[-> ->]|[Hne Hin]]; [by left|]. apply elem_of_cons in Hin as [[= -> ->]|Hin]; [done|by right].
  - rewrite elem_of_cons. split.
    + intros [[= -> ->]|Hin]; [by left|]. right. split; [|done]. intros ->. apply elem_of_cons in Hin as [[= -> ->]|Hin].
      * by apply (cmp_lt_irrefl bytes_cmp k0).
      * apply (cmp_lt_irrefl bytes_cmp k). eapply cmp_lt_trans; [exact E|exact (Hlt _ _ Hin)].
    + intros [[-> ->]|[Hne Hin]]; [by left|by right].
  - rewrite !elem_of_cons, IH. split.
    + intros [[= -> ->]|[[-> ->]|[Hne Hin]]]; [right|by left|right].
      * split; [|by left]. intros ->. by rewrite (cmp_refl bytes_cmp) in E.
      * split; [done|by right].
    + intros [[-> ->]|[Hne [[= -> ->]|Hin]]]; [right; by left|by left|right; by right].
Qed.

Lemma bt_insert_sorted {A} (t : list (bytes * A)) k v : bt_sorted t → bt_sorted (bt_insert k v t).
Proof.
  intros Hs0. induction Hs0 as [|[k0 v0] t Hs IH Hx]; cbn [bt_insert fst]; [repeat constructor|].
  destruct (bytes_cmp k k0) eqn:E.
  - apply cmp_eq in E as ->. by constructor.
  - constructor; [by constructor|]. constructor; [exact E|]. eapply Forall_impl; [exact Hx|].
    intros [k1 v1] Hlt. cbn in *. by eapply cmp_lt_trans.
  - constructor; [done|]. apply Forall_forall. intros [k1 v1] Hin. apply elem_of_bt_insert in Hin; [|done].
    rewrite Forall_forall in Hx. destruct Hin as [[-> ->]|[_ Hin]]; [exact (proj1 (cmp_gt_lt bytes_cmp k k0) E)|exact (Hx _ Hin)].
Qed.

Lemma elem_of_bt_remove {A} (t : list (bytes * A)) k k' v' : (k', v') ∈ bt_remove k t ↔ k' ≠ k ∧ (k', v') ∈ t.
Proof.
  unfold bt_remove. rewrite !list_elem_of_In, filter_In. cbn [fst]. rewrite negb_true_iff.
  split; intros [Ha Hb]; split; try done.
  - intros ->. by rewrite bytes_eqb_refl in Hb.
  - destruct (bytes_eqb k' k) eqn:E; [|done]. by apply bytes_eqb_eq in E.
Qed.

Lemma filter_sorted {A} (key : A → bytes) (f : A → bool) l : key_sorted key l → key_sorted key (List.filter f l).
Proof.
  induction 1 as [|x l Hs IH Hx]; cbn [List.filter]; [constructor|]. destruct (f x); [|done]. constructor; [done|].
  apply Forall_forall. intros y Hy. apply list_elem_of_In, filter_In in Hy as [Hy _]. rewrite Forall_forall in Hx.
  by apply Hx, list_elem_of_In.
Qed.

(** ** The index holds the documents *)

Section Index.
Context (to_lowercase : bytes → bytes).
Implicit Types (i : CompositeIndex) (docs : gmap bytes HakoDoc).

(** Documents whose indexed values fit their types. *)
Definition doc_fits (def : CompositeIndexDefinition) (id : bytes) (doc : HakoDoc) : Prop :=
  ∀ vs, document_values_of def id doc = Some vs → Forall value_ok vs.

Definition indexed i docs : Prop :=
  bt_sorted (tree i) ∧ (∀ id doc, docs !! id = Some doc → doc_fits (ci_definition i) id doc) ∧
  ∀ k id, (k, id) ∈ tree i ↔ ∃ doc, docs !! id = Some doc ∧ doc_key to_lowercase (ci_definition i) id doc = Some k.

Lemma tuple_values_length u sp id doc fs vs : tuple_values u sp id doc fs = Some vs → length vs = length fs.
Proof.
  revert vs; induction fs as [|f fs IH]; intros vs; cbn [tuple_values]; [by intros [= <-]|].
  destruct (match field_value id doc (cf_field f) with Some v => Some v | None => _ end); [|done]. cbn [mbind option_bind].
  destruct (u && is_compound v); [done|]. destruct (tuple_values u sp id doc fs) as [vs'|]; [|done].
  intros [= <-]. cbn. by rewrite (IH vs').
Qed.

Lemma doc_key_inv def id doc k :
  doc_key to_lowercase def id doc = Some k →
  ∃ vs, filter_passes to_lowercase def id doc = true ∧ document_values_of def id doc = Some vs ∧
    k = encode_composite_key def vs id ∧ length vs = length (d_fields def).
Proof.
  unfold doc_key. destruct (filter_passes to_lowercase def id doc); [|done].
  destruct (document_values_of def id doc) as [vs|] eqn:E; [|done]. intros [= <-]. exists vs. split_and!; try done.
  by eapply tuple_values_length.
Qed.

Lemma doc_key_id def id id' doc doc' k :
  doc_fits def id doc → doc_fits def id' doc' →
  doc_key to_lowercase def id doc = Some k → doc_key to_lowercase def id' doc' = Some k → id = id'.
Proof.
  intros Hf Hf' (vs & _ & Hv & -> & Lv)%doc_key_inv (ws & _ & Hw & E & Lw)%doc_key_inv.
  eapply (composite_key_inj def vs ws); eauto.
Qed.

Lemma indexed_empty def : indexed (ci_new def) ∅.
Proof.
  split_and!; [constructor|by intros id doc Hl; rewrite lookup_empty in Hl|].
  intros k id. split; [by intros ?%not_elem_of_nil|]. intros (doc & Hl & _). by rewrite lookup_empty in Hl.
Qed.

Lemma index_document_indexed i docs id doc :
  indexed i docs → docs !! id = None → doc_fits (ci_definition i) id doc →
  indexed (index_document to_lowercase i id doc) (<[id:=doc]> docs).
Proof.
  intros (Hs & Hfit & Ht) Hid Hd. unfold index_document.
  assert (∀ id0 doc0, <[id:=doc]> docs !! id0 = Some doc0 → doc_fits (ci_definition i) id0 doc0) as Hfit'.
  { intros id0 doc0. rewrite lookup_insert_Some. intros [[<- <-]|[_ Hl]]; [done|by apply Hfit]. }
  destruct (doc_key to_lowercase (ci_definition i) id doc) as [key|] eqn:Hk; (split_and!; [|exact Hfit'|]); cbn [tree ci_definition].
  - by apply bt_insert_sorted.
  - intros k id'. rewrite elem_of_bt_insert, Ht by done. split.
    + intros [[-> ->]|[Hne (doc' & Hl & Hk')]]; [exists doc; by rewrite lookup_insert_eq|].
      exists doc'. rewrite lookup_insert_ne; [done|]. intros ->. congruence.
    + intros (doc' & Hl & Hk'). apply lookup_insert_Some in Hl as [[<- <-]|[Hne Hl]]; [left; split; [congruence|done]|].
      right. split; [|eauto]. intros ->. apply Hne. eapply (doc_key_id _ id id' doc doc' key); eauto.
  - done.
  - intros k id'. rewrite Ht. split; intros (doc' & Hl & Hk').
    + exists doc'. rewrite lookup_insert_ne; [done|]. intros ->. congruence.
    + apply lookup_insert_Some in Hl as [[<- <-]|[Hne Hl]]; [congruence|eauto].
Qed.

Lemma remove_document_indexed i docs id doc :
  indexed i docs → docs !! id = Some doc → indexed (remove_document to_lowercase i id doc) (base.delete id docs).
Proof.
  intros (Hs & Hfit & Ht) Hid. unfold remove_document.
  assert (∀ id0 doc0, base.delete id docs !! id0 = Some doc0 → doc_fits (ci_definition i) id0 doc0) as Hfit'.
  { intros id0 doc0 [_ Hl]%lookup_delete_Some. by apply Hfit. }
  destruct (doc_key to_lowercase (ci_definition i) id doc) as [key|] eqn:Hk; (split_and!; [|exact Hfit'|]); cbn [tree ci_definition].
  - by apply filter_sorted.
  - intros k id'. rewrite elem_of_bt_remove, Ht. split.
    + intros [Hne (doc' & Hl & Hk')]. exists doc'. rewrite lookup_delete_ne; [done|]. intros <-. congruence.
    + intros (doc' & [Hne Hl]%lookup_delete_Some & Hk'). split; [|eauto]. intros ->. apply Hne.
      eapply (doc_key_id _ id id' doc doc' key); eauto.
  - done.
  - intros k id'. rewrite Ht. split; intros (doc' & Hl & Hk').
    + exists doc'. rewrite lookup_delete_ne; [done|]. intros <-. congruence.
    + apply lookup_delete_Some in Hl as [_ Hl]. eauto.
Qed.

(** A document that is filed again, and one that is removed without being there. *)
Lemma index_document_again i docs id doc :
  indexed i docs → docs !! id = Some doc → indexed (index_document to_lowercase i id doc) docs.
Proof.
  intros (Hs & Hfit & Ht) Hid. unfold index_document. destruct (doc_key to_lowercase (ci_definition i) id doc) as [key|] eqn:Hk; [|by split_and!].
  split_and!; cbn [tree ci_definition]; [by apply bt_insert_sorted|done|]. intros k id'. rewrite elem_of_bt_insert, Ht by done. split.
  - intros [[-> ->]|[_ ?]]; [by exists doc|done].
  - intros (doc' & Hl & Hk'). destruct (decide (k = key)) as [->|Hne]; [left|right; eauto]. split; [done|].
    symmetry. eapply (doc_key_id _ id id' doc doc' key); eauto.
Qed.
Lemma remove_document_absent i docs id doc :
  indexed i docs → docs !! id = None → doc_fits (ci_definition i) id doc → indexed (remove_document to_lowercase i id doc) docs.
Proof.
  intros (Hs & Hfit & Ht) Hid Hd. unfold remove_document. destruct (doc_key to_lowercase (ci_definition i) id doc) as [key|] eqn:Hk; [|by split_and!].
  split_and!; cbn [tree ci_definition]; [by apply filter_sorted|done|]. intros k id'. rewrite elem_of_bt_remove, Ht. split; [by intros [_ ?]|].
  intros (doc' & Hl & Hk'). split; [|eauto]. intros ->. assert (id = id') as <- by (eapply (doc_key_id _ id id' doc doc' key); eauto). congruence.
Qed.

(** ** Scans *)

(** The keys between a prefix and its open end are those that extend it. *)
Lemma between_prefix p k : bytes_leb p k = true → bytes_leb k (p ++ [255]) = true → p `prefix_of` k.
Proof.
  unfold bytes_leb. revert k; induction p as [|x p IH]; intros k; [intros _ _; by exists k|].
  destruct k as [|y k]; [done|]. cbn [app bytes_cmp].
  destruct (Z.compare_spec x y) as [->|Hlt|Hlt]; cbn [cmp_then]; [|intros _|done].
  - rewrite Z.compare_refl. cbn [cmp_then]. intros Ha Hb. by apply prefix_cons, IH.
  - rewrite (proj2 (Z.compare_gt_iff y x)) by lia. done.
Qed.

Lemma prefix_between p r :
  match r with [] => True | b :: _ => 0 <= b < 255 end →
  bytes_leb p (p ++ r) = true ∧ bytes_leb (p ++ r) (p ++ [255]) = true.
Proof.
  intros Hr. unfold bytes_leb. induction p as [|x p [IH1 IH2]]; cbn [app bytes_cmp].
  - destruct r as [|b r]; [done|]. split; [done|]. cbn [bytes_cmp].
    by rewrite (proj2 (Z.compare_lt_iff b 255)) by lia.
  - rewrite !Z.compare_refl. done.
Qed.

Lemma encode_key_value_head v d : ∃ b r, encode_key_value v d = b :: r ∧ 0 <= b < 255.
Proof. destruct v; cbn [encode_key_value]; eexists _, _; (split; [done|lia]). Qed.

(** What follows the prefix in a key starts below 255 unless the id is longer
    than 65279 bytes. *)
Lemma key_rest_head fs vs id :
  zlen id < 65280 →
  match encode_tuple fs vs ++ to_be 2 (as_u16 (zlen id)) ++ id with [] => True | b :: _ => 0 <= b < 255 end.
Proof.
  intros Hid. destruct fs as [|f fs], vs as [|v vs]; try destruct (encode_key_value_head v (cf_direction f)) as (b & r & E & Hb).
  4: by rewrite encode_tuple_cons, E.
  all: unfold encode_tuple; cbn [zip_with concat app].
  all: pose proof (zlen_nonneg id).
  all: assert (0 <= zlen id / 256 < 255) by (split; [apply Z.div_pos; lia|apply Z.div_lt_upper_bound; lia]).
  all: unfold as_u16, to_be; cbn [to_le rev app]; rewrite (Z.mod_small (zlen id)) by lia.
  all: rewrite (Z.mod_small (zlen id / 256)) by lia; done.
Qed.

(** An equality scan returns exactly the ids of the documents whose tuple
    starts with the given values. *)
Lemma prefix_scan_spec i docs ws :
  indexed i docs → Forall value_ok ws → forallb scalar ws = true →
  (length ws <= length (d_fields (ci_definition i)))%nat →
  (∀ id, is_Some (docs !! id) → zlen id < 65280) →
  let r := build_prefix_range (ci_definition i) ws in
  ∃ ids, range_scan i (r_start r) (r_end r) = Ok ids ∧ NoDup ids ∧
  ∀ id, id ∈ ids ↔ ∃ doc vs, docs !! id = Some doc ∧ filter_passes to_lowercase (ci_definition i) id doc = true ∧
    document_values_of (ci_definition i) id doc = Some vs ∧ norm <$> take (length ws) vs = norm <$> ws.
Proof.
  intros (Hs & Hfit & Ht) Hw Hsc Hlen Hids r. unfold range_scan. cbn [r r_start r_end build_prefix_range].
  set (def := ci_definition i) in *. set (p := build_prefix_key def ws).
  assert (bytes_ltb (build_prefix_open_end p) p = false) as ->.
  { destruct (prefix_between p [] I) as [_ E]. rewrite app_nil_r in E. unfold bytes_ltb, bytes_leb, build_prefix_open_end in *.
    rewrite (cmp_antisym (cmp:=bytes_cmp) p (p ++ [255])). by destruct (bytes_cmp p (p ++ [255])). }
  eexists. split; [done|].
  assert (∀ k id, (k, id) ∈ bt_range p (build_prefix_open_end p) (tree i) ↔
    (k, id) ∈ tree i ∧ bytes_leb p k = true ∧ bytes_leb k (p ++ [255]) = true) as Hr.
  { intros k id. unfold bt_range. rewrite !list_elem_of_In, filter_In, andb_true_iff. done. }
  assert (∀ k id doc, docs !! id = Some doc → doc_key to_lowercase def id doc = Some k →
    (bytes_leb p k = true ∧ bytes_leb k (p ++ [255]) = true ↔
     ∃ vs, document_values_of def id doc = Some vs ∧ norm <$> take (length ws) vs = norm <$> ws)) as Hkey.
  { intros k id doc Hdoc (vs & _ & Hvs & -> & Lv)%doc_key_inv. split.
    - intros [H1 H2]. exists vs. split; [done|]. destruct (between_prefix _ _ H1 H2) as [rest E].
      unfold p, build_prefix_key, encode_composite_prefix, encode_composite_key in E. rewrite <-app_assoc in E.
      apply app_inv_head in E. eapply (encode_tuple_prefix (d_fields def)); [by eapply Hfit| | | | |exact E]; done.
    - intros (vs' & Hvs' & E). assert (vs' = vs) as -> by congruence.
      destruct (encode_tuple_take (d_fields def) vs ws Lv E Hlen) as (rest & E1 & E2).
      unfold encode_composite_key. rewrite E1, E2, <-app_assoc.
      rewrite (app_assoc (to_be 4 (d_id def))). fold (encode_composite_prefix def ws).
      apply prefix_between, key_rest_head. eauto. }
  split.
  - assert (bt_sorted (bt_range p (build_prefix_open_end p) (tree i))) as Hs' by (by apply filter_sorted).
    assert (∀ k k' id, (k, id) ∈ tree i → (k', id) ∈ tree i → k = k') as Hone.
    { intros k k' id (d1 & L1 & K1)%Ht (d2 & L2 & K2)%Ht. congruence. }
    assert (∀ k id, (k, id) ∈ bt_range p (build_prefix_open_end p) (tree i) → (k, id) ∈ tree i) as Hsub
      by (intros k id Hin; by apply Hr in Hin as [Hin _]).
    revert Hs' Hsub. generalize (bt_range p (build_prefix_open_end p) (tree i)) as l.
    induction 1 as [|[k id] l Hl IH Hx]; intros Hsub; [constructor|]. rewrite fmap_cons. constructor.
    + intros ([k' id'] & E & Hin)%list_elem_of_fmap. cbn [snd] in E. subst id'.
      assert (k = k') as -> by (eapply Hone; apply Hsub; [by left|by right]).
      rewrite Forall_forall in Hx. exact (cmp_lt_irrefl _ _ (Hx _ Hin)).
    + apply IH. intros k1 id1 Hin. apply Hsub. by right.
  - intros id. rewrite list_elem_of_fmap. split.
    + intros ([k id'] & -> & Hin). apply Hr in Hin as (Hin & Hb). apply Ht in Hin as (doc & Hdoc & Hk). cbn [snd].
      pose proof (proj1 (Hkey k id' doc Hdoc Hk) Hb) as (vs & Hvs & E).
      apply doc_key_inv in Hk as (_ & Hf & _). eauto 10.
    + intros (doc & vs & Hdoc & Hf & Hvs & E).
      assert (doc_key to_lowercase def id doc = Some (encode_composite_key def vs id)) as Hk
        by (unfold doc_key; by rewrite Hf, Hvs).
      exists (encode_composite_key def vs id, id). split; [done|]. apply Hr. split; [apply Ht; eauto|].
      apply (Hkey _ id doc Hdoc Hk). eauto.
Qed.

(** The limited scan is the head of the scan, or of its reverse. *)
Lemma range_scan_limit_spec i lo hi limit reverse ids :
  range_scan i lo hi = Ok ids →
  range_scan_limit i lo hi limit reverse = Ok (take limit (if reverse then rev ids else ids)).
Proof.
  unfold range_scan, range_scan_limit. split_if; [done|]. intros [= <-]. f_equal.
  rewrite fmap_take. destruct reverse; [by rewrite map_rev|done].
Qed.

(** The batch of the rebuild path is the documents one by one. *)
Lemma index_batch_fold i ds :
  index_batch to_lowercase i ds = foldl (λ i d, index_document to_lowercase i d.1 d.2) i ds.
Proof.
  unfold index_batch. revert i; induction ds as [|[id doc] ds IH]; intros i; [by destruct i|].
  cbn [omap list_omap foldl fst snd]. rewrite <-IH. unfold index_document.
  by destruct (doc_key to_lowercase (ci_definition i) id doc).
Qed.

(** Tuples of unique indexes hold scalars. *)
Lemma tuple_values_scalar sp id doc fs vs : tuple_values true sp id doc fs = Some vs → forallb scalar vs = true.
Proof.
  revert vs; induction fs as [|f fs IH]; intros vs; cbn [tuple_values]; [by intros [= <-]|].
  destruct (match field_value id doc (cf_field f) with Some v => Some v | None => _ end) as [v|]; [|done].
  cbn [mbind option_bind andb]. destruct (is_compound v) eqn:E; [done|].
  destruct (tuple_values true sp id doc fs) as [vs'|]; [|done]. intros [= <-].
  cbn [forallb]. rewrite (IH vs') by done. unfold scalar. by rewrite E.
Qed.
End Index.

(** ** The order of keys *)

(** A negative integer or timestamp sorts after the positive ones. *)
Lemma negative_key_order :
  bytes_cmp (encode_key_value (Int (-1)) Asc) (encode_key_value (Int 1) Asc) = Gt ∧ value_cmp (Int (-1)) (Int 1) = Lt ∧
  bytes_cmp (encode_key_value (Timestamp (-1)) Asc) (encode_key_value (Timestamp 1) Asc) = Gt.
Proof. by vm_compute. Qed.

Lemma string_key_order :
  bytes_cmp (encode_key_value (String b#("b")) Asc) (encode_key_value (String b#("aa")) Asc) = Lt ∧
  value_cmp (String b#("b")) (String b#("aa")) = Gt.
Proof. by vm_compute. Qed.
