(* ===== verification/Ledger.v ===== *)
(** * The unique-index ledger (src/index/composite/ledger.rs)

    The admission map of unique composite indexes: which document owns which
    tuple.  Claims and releases of a batch are recorded so that an abort can
    undo them; a recovery fold loads the claims of a rebuilt tree without
    reviving what was released since.  The map behind the mutex is threaded
    through the operations, in the order in which they take the lock. *)

From stdpp Require Import prelude list gmap strings.
From Stdlib Require Import ZArith Lia.
From S2P Require Import Prelude RustStd Error Value Doc Composite CompositeFacts.

Local Open Scope Z_scope.
Local Open Scope hako_scope.

Record ClaimMap := mkClaims {
  fwd : gmap bytes bytes;
  by_doc : gmap bytes bytes;
  freed : gset bytes }.
Definition no_claims : ClaimMap := mkClaims ∅ ∅ ∅.

Inductive LedgerUndo :=
| URemove (index_id : Z) (prefix : bytes)
| URestore (index_id : Z) (prefix owner : bytes).

Record UniqueLedger := mkLedger { inner : gmap Z ClaimMap; pending : gmap Z (gset bytes) }.

(** [is_ready], [reset]. *)
Definition is_ready (l : UniqueLedger) (index_id : Z) : bool := bool_decide (is_Some (inner l !! index_id)).
Definition ledger_reset (l : UniqueLedger) (index_id : Z) : UniqueLedger :=
  mkLedger (base.delete index_id (inner l)) (base.delete index_id (pending l)).

(** [entry(index_id).or_default()] with the shelved tombstones moved in. *)
Definition drain_pending (l : UniqueLedger) (index_id : Z) : ClaimMap :=
  let claims := default no_claims (inner l !! index_id) in
  mkClaims (fwd claims) (by_doc claims) (freed claims ∪ default ∅ (pending l !! index_id)).

(** [prepare_empty]. *)
Definition prepare_empty (l : UniqueLedger) (index_id : Z) : UniqueLedger :=
  mkLedger (<[index_id := drain_pending l index_id]> (inner l)) (base.delete index_id (pending l)).

(** The claim prefix of a tree row: the key less the tail that repeats the
    document id; rows without that tail are skipped. *)
Definition row_prefix (key doc_id : bytes) : option bytes :=
  let n := zlen key in
  let idl := zlen doc_id in
  if n <? idl + 4 then None
  else if negb (bytes_eqb (drop (Z.to_nat (n - idl)) key) doc_id) then None
  else if negb (bytes_eqb (take 2 (drop (Z.to_nat (n - idl - 2)) key)) (to_be 2 (as_u16 idl))) then None
  else Some (take (Z.to_nat (n - idl - 2)) key).

(** The scan of [load_from_tree]: adjacent rows with one prefix are a
    historical duplicate. *)
Fixpoint scan_rows (index_id : Z) (last : option (bytes * bytes)) (t : list (bytes * bytes))
  : res (list (bytes * bytes)) :=
  match t with
  | [] => Ok []
  | (key, doc_id) :: t =>
      match row_prefix key doc_id with
      | None => scan_rows index_id last t
      | Some prefix =>
          match last with
          | Some (last_prefix, last_doc) =>
              if bytes_eqb last_prefix prefix then Err (UniqueViolation [] index_id last_doc)
              else rest ← scan_rows index_id (Some (prefix, doc_id)) t; Ok ((prefix, doc_id) :: rest)
          | None => rest ← scan_rows index_id (Some (prefix, doc_id)) t; Ok ((prefix, doc_id) :: rest)
          end
      end
  end.

(** The merge of [load_from_tree]: the claims as the loop leaves them. *)
Fixpoint merge_rows (index_id : Z) (claims : ClaimMap) (fresh : list (bytes * bytes)) : ClaimMap * res unit :=
  match fresh with
  | [] => (claims, Ok tt)
  | (prefix, doc_id) :: fresh =>
      if bool_decide (doc_id ∈ freed claims) || bool_decide (is_Some (by_doc claims !! doc_id))
      then merge_rows index_id claims fresh
      else
        match fwd claims !! prefix with
        | None =>
            merge_rows index_id
              (mkClaims (<[prefix := doc_id]> (fwd claims)) (<[doc_id := prefix]> (by_doc claims)) (freed claims)) fresh
        | Some owner =>
            if bytes_eqb owner doc_id then merge_rows index_id claims fresh
            else (claims, Err (UniqueViolation [] index_id owner))
        end
  end.

(** [load_from_tree]. *)
Definition load_from_tree (l : UniqueLedger) (index_id : Z) (t : list (bytes * bytes)) : UniqueLedger * res Z :=
  match scan_rows index_id None t with
  | Ok fresh =>
      let '(claims, r) := merge_rows index_id (drain_pending l index_id) fresh in
      (mkLedger (<[index_id := claims]> (inner l)) (base.delete index_id (pending l)),
       _ ← r; Ok (zlen fresh))
  | Err e => (l, Err e)
  | Panic => (l, Panic)
  end.

(** [claim]: the ledger, the extended undo list and the result. *)
Definition claim (l : UniqueLedger) (index_id : Z) (prefix doc_id : bytes) (undo : list LedgerUndo)
  : UniqueLedger * list LedgerUndo * res unit :=
  match inner l !! index_id with
  | None => (l, undo, Err (IndexBackfilling [] index_id))
  | Some claims =>
      match fwd claims !! prefix with
      | Some owner =>
          if bytes_eqb owner doc_id then (l, undo, Ok tt)
          else (l, undo, Err (UniqueViolation [] index_id owner))
      | None =>
          let '(f, undo) := match by_doc claims !! doc_id with
                            | Some old => (base.delete old (fwd claims), undo ++ [URestore index_id old doc_id])
                            | None => (fwd claims, undo)
                            end in
          let claims := mkClaims (<[prefix := doc_id]> f)
                          (<[doc_id := prefix]> (base.delete doc_id (by_doc claims))) (freed claims ∖ {[doc_id]}) in
          (mkLedger (<[index_id := claims]> (inner l)) (pending l), undo ++ [URemove index_id prefix], Ok tt)
      end
  end.

(** [release_doc]: an unready index keeps the tombstone on the shelf, whose slot
    is created either way. *)
Definition release_doc (l : UniqueLedger) (index_id : Z) (doc_id : bytes) (undo : list LedgerUndo)
  : UniqueLedger * list LedgerUndo :=
  let slot := default ∅ (pending l !! index_id) in
  match inner l !! index_id with
  | None => (mkLedger (inner l) (<[index_id := slot ∪ {[doc_id]}]> (pending l)), undo)
  | Some claims =>
      let pend := <[index_id := slot]> (pending l) in
      match by_doc claims !! doc_id with
      | Some p =>
          (mkLedger (<[index_id := mkClaims (base.delete p (fwd claims)) (base.delete doc_id (by_doc claims))
                                     (freed claims ∪ {[doc_id]})]> (inner l)) pend,
           undo ++ [URestore index_id p doc_id])
      | None =>
          (mkLedger (<[index_id := mkClaims (fwd claims) (by_doc claims) (freed claims ∪ {[doc_id]})]> (inner l)) pend, undo)
      end
  end.

(** One step of [rollback]. *)
Definition undo_step (l : UniqueLedger) (u : LedgerUndo) : UniqueLedger :=
  match u with
  | URemove index_id prefix =>
      match inner l !! index_id with
      | None => l
      | Some claims =>
          match fwd claims !! prefix with
          | None => l
          | Some owner =>
              mkLedger (<[index_id := mkClaims (base.delete prefix (fwd claims)) (base.delete owner (by_doc claims))
                                         (freed claims)]> (inner l)) (pending l)
          end
      end
  | URestore index_id prefix owner =>
      match inner l !! index_id with
      | None => l
      | Some claims =>
          mkLedger (<[index_id := mkClaims (<[prefix := owner]> (fwd claims))
                                     (<[owner := prefix]> (base.delete owner (by_doc claims)))
                                     (freed claims ∖ {[owner]})]> (inner l)) (pending l)
      end
  end.

(** [rollback]: the undo list in reverse. *)
Definition rollback (l : UniqueLedger) (undo : list LedgerUndo) : UniqueLedger :=
  foldl undo_step l (rev undo).

(** ** The invariant *)

(** The two directions of a claim map are inverse: every tuple has one owner
    and every document one tuple. *)
Definition claims_ok (c : ClaimMap) : Prop := ∀ p d, fwd c !! p = Some d ↔ by_doc c !! d = Some p.
Definition ledger_ok (l : UniqueLedger) : Prop := map_Forall (λ _ c, claims_ok c) (inner l).

Lemma no_claims_ok : claims_ok no_claims.
Proof. intros p d. cbn. by rewrite !lookup_empty. Qed.

Lemma drain_ok l index_id : ledger_ok l → claims_ok (drain_pending l index_id).
Proof.
  intros Hl p d. unfold drain_pending. cbn [fwd by_doc]. destruct (inner l !! index_id) as [c|] eqn:E; cbn [from_option id].
  - by apply (Hl _ _ E).
  - apply no_claims_ok.
Qed.

(** Setting a free tuple for a document, its old tuple dropped. *)
Lemma claims_ok_set c p d fr :
  claims_ok c → fwd c !! p = None →
  claims_ok (mkClaims (<[p := d]> (match by_doc c !! d with Some old => base.delete old (fwd c) | None => fwd c end))
               (<[d := p]> (base.delete d (by_doc c))) fr).
Proof.
  intros Hc Hp p' d'. cbn [fwd by_doc].
  destruct (decide (p' = p)) as [->|Hpp], (decide (d' = d)) as [->|Hdd].
  - by rewrite !lookup_insert_eq.
  - rewrite lookup_insert_eq, lookup_insert_ne, lookup_delete_ne, <-(Hc p d'), Hp by done. naive_solver.
  - rewrite lookup_insert_eq, lookup_insert_ne by done. destruct (by_doc c !! d) as [old|] eqn:Ho.
    + destruct (decide (p' = old)) as [->|Hne]; [rewrite lookup_delete_eq; naive_solver|].
      rewrite lookup_delete_ne, (Hc p' d), Ho by done. naive_solver.
    + rewrite (Hc p' d), Ho. naive_solver.
  - rewrite !lookup_insert_ne, lookup_delete_ne by done. rewrite <-(Hc p' d'). destruct (by_doc c !! d) as [old|] eqn:Ho; [|done].
    destruct (decide (p' = old)) as [->|Hne]; [|by rewrite lookup_delete_ne].
    rewrite lookup_delete_eq. apply Hc in Ho. rewrite Ho. naive_solver.
Qed.

Lemma claims_ok_drop c p d fr :
  claims_ok c → by_doc c !! d = Some p → claims_ok (mkClaims (base.delete p (fwd c)) (base.delete d (by_doc c)) fr).
Proof.
  intros Hc Hd p' d'. cbn [fwd by_doc]. rewrite !lookup_delete_Some, (Hc p' d').
  split; intros [Hne Hl]; (split; [|done]); intros <-; [congruence|].
  apply Hc in Hl, Hd. congruence.
Qed.

Lemma ledger_ok_insert l index_id c pend :
  ledger_ok l → claims_ok c → ledger_ok (mkLedger (<[index_id := c]> (inner l)) pend).
Proof. intros Hl Hc. by apply map_Forall_insert_2. Qed.

Lemma claim_ok l i p d u l' u' r : ledger_ok l → claim l i p d u = (l', u', r) → ledger_ok l'.
Proof.
  intros Hl. unfold claim. destruct (inner l !! i) as [c|] eqn:Hi; [|by intros [= <- _ _]].
  destruct (fwd c !! p) as [o|] eqn:Hp; [by destruct (bytes_eqb o d); intros [= <- _ _]|].
  pose proof (claims_ok_set c p d (freed c ∖ {[d]}) (Hl _ _ Hi) Hp) as Hset.
  destruct (by_doc c !! d) as [old|]; intros [= <- _ _]; by apply ledger_ok_insert.
Qed.

Lemma release_ok l i d u l' u' : ledger_ok l → release_doc l i d u = (l', u') → ledger_ok l'.
Proof.
  intros Hl. unfold release_doc. destruct (inner l !! i) as [c|] eqn:Hi; [|by intros [= <- _]].
  destruct (by_doc c !! d) as [p|] eqn:Hd; intros [= <- _]; apply ledger_ok_insert; try done.
  - by apply claims_ok_drop; [apply (Hl _ _ Hi)|].
  - exact (Hl _ _ Hi).
Qed.

(** What a claim does to a ready index: it is granted when the tuple is free or
    already owned by the document, and then moves only that document. *)
Lemma claim_cases l i c p d u l' u' r :
  ledger_ok l → inner l !! i = Some c → claim l i p d u = (l', u', r) →
  (r = Ok tt ∧ (fwd c !! p = None ∨ fwd c !! p = Some d) ∧
   ∃ c', inner l' !! i = Some c' ∧ fwd c' !! p = Some d ∧ (∀ p', fwd c' !! p' = Some d → p' = p) ∧
     ∀ p' d', d' ≠ d → fwd c' !! p' = Some d' ↔ fwd c !! p' = Some d') ∨
  (∃ owner, owner ≠ d ∧ fwd c !! p = Some owner ∧ r = Err (UniqueViolation [] i owner) ∧ l' = l ∧ u' = u).
Proof.
  intros Hl Hi Hcl. pose proof (claim_ok _ _ _ _ _ _ _ _ Hl Hcl) as Hl'. pose proof (Hl _ _ Hi) as Hc.
  unfold claim in Hcl. rewrite Hi in Hcl. destruct (fwd c !! p) as [o|] eqn:Hp.
  { destruct (bytes_eqb o d) eqn:E; injection Hcl as <- <- <-.
    - apply bytes_eqb_eq in E as ->. left. split_and!; [done|by right|]. exists c. split_and!; try done.
      intros p' Hp'. apply Hc in Hp', Hp. congruence.
    - right. exists o. split_and!; try done. intros ->. by rewrite bytes_eqb_refl in E. }
  left. set (f := match by_doc c !! d with Some old => base.delete old (fwd c) | None => fwd c end) in *.
  assert (∃ fr, inner l' !! i = Some (mkClaims (<[p:=d]> f) (<[d:=p]> (base.delete d (by_doc c))) fr) ∧ r = Ok tt)
    as (fr & Hi' & ->).
  { unfold f. destruct (by_doc c !! d); injection Hcl as <- <- <-; cbn [inner]; rewrite lookup_insert_eq; eauto. }
  pose proof (Hl' _ _ Hi') as Hc'. split_and!; [done|by left|]. eexists. split_and!; [exact Hi'|apply lookup_insert_eq| |].
  - intros p' Hp'%Hc'. cbn [by_doc] in Hp'. rewrite lookup_insert_eq in Hp'. congruence.
  - intros p' d' Hd. rewrite (Hc' p' d'). cbn [by_doc]. rewrite lookup_insert_ne, lookup_delete_ne by done. by rewrite (Hc p' d').
Qed.

(** ** Rollback *)

(** What the claims are, apart from the tombstones. *)
Definition claims_of (l : UniqueLedger) : gmap Z (gmap bytes bytes * gmap bytes bytes) :=
  (λ c, (fwd c, by_doc c)) <$> inner l.

Definition undo_claims (cs : gmap Z (gmap bytes bytes * gmap bytes bytes)) (u : LedgerUndo)
  : gmap Z (gmap bytes bytes * gmap bytes bytes) :=
  match u with
  | URemove i p =>
      match cs !! i with
      | Some (f, b) => match f !! p with Some o => <[i := (base.delete p f, base.delete o b)]> cs | None => cs end
      | None => cs
      end
  | URestore i p o =>
      match cs !! i with Some (f, b) => <[i := (<[p := o]> f, <[o := p]> (base.delete o b))]> cs | None => cs end
  end.

Lemma undo_step_claims l u : claims_of (undo_step l u) = undo_claims (claims_of l) u.
Proof.
  unfold claims_of. destruct u as [i p|i p o]; cbn [undo_step undo_claims]; rewrite lookup_fmap;
    destruct (inner l !! i) as [c|]; cbn [fmap option_fmap option_map]; try done.
  - destruct (fwd c !! p); [|done]. cbn [inner]. by rewrite fmap_insert.
  - cbn [inner]. by rewrite fmap_insert.
Qed.

Lemma rollback_claims l u : claims_of (rollback l u) = foldl undo_claims (claims_of l) (rev u).
Proof.
  unfold rollback. generalize (rev u) as us. intros us. revert l; induction us as [|x us IH]; intros l; [done|].
  cbn [foldl]. by rewrite IH, undo_step_claims.
Qed.

Lemma claim_undo l i p d u l' u' r :
  ledger_ok l → claim l i p d u = (l', u', r) →
  ∃ new, u' = u ++ new ∧ foldl undo_claims (claims_of l') (rev new) = claims_of l.
Proof.
  intros Hl. unfold claim. destruct (inner l !! i) as [c|] eqn:Hi; [|intros [= <- <- _]; exists []; by rewrite app_nil_r].
  destruct (fwd c !! p) as [o|] eqn:Hp; [destruct (bytes_eqb o d); intros [= <- <- _]; exists []; by rewrite app_nil_r|].
  pose proof (Hl _ _ Hi) as Hc.
  assert (claims_of l !! i = Some (fwd c, by_doc c)) as Hcs by (unfold claims_of; by rewrite lookup_fmap, Hi).
  destruct (by_doc c !! d) as [old|] eqn:Hd; intros [= <- <- _].
  - exists [URestore i old d; URemove i p]. split; [by rewrite <-app_assoc|].
    cbn [rev app foldl undo_claims]. unfold claims_of. cbn [inner]. rewrite fmap_insert. cbn [fwd by_doc]. fold (claims_of l).
    rewrite lookup_insert_eq, lookup_insert_eq, insert_insert_eq, lookup_insert_eq, insert_insert_eq.
    assert (fwd c !! old = Some d) as Ho by (by apply Hc).
    rewrite (delete_insert_id _ p d) by (rewrite lookup_delete_ne by congruence; done).
    rewrite insert_delete_id by done.
    rewrite delete_insert_eq, !delete_delete_eq, insert_delete_id by done. by apply insert_id.
  - exists [URemove i p]. split; [done|].
    cbn [rev app foldl undo_claims]. unfold claims_of. cbn [inner]. rewrite fmap_insert. cbn [fwd by_doc]. fold (claims_of l).
    rewrite lookup_insert_eq, lookup_insert_eq, insert_insert_eq, delete_insert_id by done.
    rewrite delete_insert_eq, delete_delete_eq, (delete_id (by_doc c)) by done. by apply insert_id.
Qed.

Lemma release_undo l i d u l' u' :
  ledger_ok l → release_doc l i d u = (l', u') →
  ∃ new, u' = u ++ new ∧ foldl undo_claims (claims_of l') (rev new) = claims_of l.
Proof.
  intros Hl. unfold release_doc. destruct (inner l !! i) as [c|] eqn:Hi; [|intros [= <- <-]; exists []; by rewrite app_nil_r].
  pose proof (Hl _ _ Hi) as Hc.
  assert (claims_of l !! i = Some (fwd c, by_doc c)) as Hcs by (unfold claims_of; by rewrite lookup_fmap, Hi).
  destruct (by_doc c !! d) as [p|] eqn:Hd; intros [= <- <-].
  - exists [URestore i p d]. split; [done|]. cbn [rev app foldl undo_claims]. unfold claims_of. cbn [inner].
    rewrite fmap_insert. cbn [fwd by_doc]. fold (claims_of l). rewrite lookup_insert_eq, insert_insert_eq.
    rewrite insert_delete_id by (by apply Hc). rewrite delete_delete_eq, insert_delete_id by done. by apply insert_id.
  - exists []. split; [by rewrite app_nil_r|]. cbn [rev foldl]. unfold claims_of. cbn [inner]. rewrite fmap_insert.
    cbn [fwd by_doc]. by apply insert_id.
Qed.

(** ** Batches *)

(** What the write path does to the ledger while it prepares a batch; it stops
    at the first error. *)
Inductive LedgerOp := DoClaim (index_id : Z) (prefix doc_id : bytes) | DoRelease (index_id : Z) (doc_id : bytes).

Fixpoint run_batch (l : UniqueLedger) (undo : list LedgerUndo) (ops : list LedgerOp)
  : UniqueLedger * list LedgerUndo * res unit :=
  match ops with
  | [] => (l, undo, Ok tt)
  | DoClaim i p d :: ops =>
      match claim l i p d undo with
      | (l, undo, Ok _) => run_batch l undo ops
      | r => r
      end
  | DoRelease i d :: ops => let '(l, undo) := release_doc l i d undo in run_batch l undo ops
  end.

(** [new] takes the ledger [l'] back to the claims of [l]. *)
Definition undoes (l l' : UniqueLedger) (new : list LedgerUndo) : Prop :=
  foldl undo_claims (claims_of l') (rev new) = claims_of l.

Lemma undoes_trans l l1 l2 new1 new2 : undoes l l1 new1 → undoes l1 l2 new2 → undoes l l2 (new1 ++ new2).
Proof. unfold undoes. intros H1 H2. by rewrite rev_app_distr, foldl_app, H2. Qed.

Lemma run_batch_undo ops l u l' u' r :
  ledger_ok l → run_batch l u ops = (l', u', r) →
  ledger_ok l' ∧ ∃ new, u' = u ++ new ∧ undoes l l' new.
Proof.
  revert l u; induction ops as [|[i p d|i d] ops IH]; intros l u Hl; cbn [run_batch].
  - intros [= <- <- <-]. split; [done|]. exists []. by rewrite app_nil_r.
  - destruct (claim l i p d u) as [[l1 u1] r1] eqn:Hc. pose proof (claim_ok _ _ _ _ _ _ _ _ Hl Hc) as Hl1.
    destruct (claim_undo _ _ _ _ _ _ _ _ Hl Hc) as (new1 & -> & E2).
    destruct r1 as [[]|e|]; [|intros [= <- <- <-]; split; [done|by exists new1]..].
    intros Hrun. destruct (IH l1 _ Hl1 Hrun) as [Hl' (new & -> & Hn)].
    split; [done|]. exists (new1 ++ new). rewrite app_assoc. split; [done|by eapply undoes_trans].
  - destruct (release_doc l i d u) as [l1 u1] eqn:Hc. pose proof (release_ok _ _ _ _ _ _ Hl Hc) as Hl1.
    destruct (release_undo _ _ _ _ _ _ Hl Hc) as (new1 & -> & E2).
    intros Hrun. destruct (IH l1 _ Hl1 Hrun) as [Hl' (new & -> & Hn)].
    split; [done|]. exists (new1 ++ new). rewrite app_assoc. split; [done|by eapply undoes_trans].
Qed.

(** ** Recovery *)

(** [fr] lists the tuple and the owner of every row of a tree. *)
Definition rows_of : list (bytes * bytes) → list (bytes * bytes) → Prop :=
  Forall2 (λ kd pd, row_prefix kd.1 kd.2 = Some pd.1 ∧ pd.2 = kd.2).

Lemma scan_rows_fresh i last rows fr :
  rows_of rows fr →
  (∃ e, scan_rows i last rows = Err e ∧ ¬ NoDup ((match last with Some (p, _) => [p] | None => [] end) ++ fr.*1)) ∨
  scan_rows i last rows = Ok fr.
Proof.
  intros Hrows. revert last; induction Hrows as [|[k d] [p d'] rows fr' [Hrp Hd] Hrows IH]; intros last; [by right|].
  cbn [fst snd] in *. subst d'. cbn [scan_rows]. rewrite Hrp.
  assert (∀ (pre : list bytes), (∃ e, (rest ← scan_rows i (Some (p, d)) rows; Ok ((p, d) :: rest)) = Err e ∧ ¬ NoDup (pre ++ p :: fr'.*1)) ∨
    (rest ← scan_rows i (Some (p, d)) rows; Ok ((p, d) :: rest)) = Ok ((p, d) :: fr')) as Hrec.
  { intros pre. destruct (IH (Some (p, d))) as [(e & -> & Hn)| ->]; [left|by right].
    exists e. split; [done|]. intros Hnd. apply Hn. apply NoDup_app in Hnd as (_ & _ & Hnd). exact Hnd. }
  rewrite fmap_cons. cbn [fst]. destruct last as [[lp ld]|]; [|apply (Hrec [])].
  destruct (bytes_eqb lp p) eqn:E; [|apply (Hrec [lp])]. apply bytes_eqb_eq in E as ->.
  left. eexists. split; [done|]. intros Hnd. apply NoDup_cons in Hnd as [Hni _]. apply Hni. by left.
Qed.

Lemma merge_rows_fresh i fr c :
  claims_ok c → freed c = ∅ → NoDup fr.*2 → (∀ d, d ∈ fr.*2 → by_doc c !! d = None) →
  let '(c', r) := merge_rows i c fr in
  claims_ok c' ∧
  (NoDup fr.*1 ∧ (∀ p, p ∈ fr.*1 → fwd c !! p = None) →
     r = Ok tt ∧ ∀ p d, fwd c' !! p = Some d ↔ fwd c !! p = Some d ∨ (p, d) ∈ fr) ∧
  (r = Ok tt → NoDup fr.*1 ∧ (∀ p, p ∈ fr.*1 → fwd c !! p = None)).
Proof.
  revert c; induction fr as [|[p d] fr IH]; intros c Hc Hfr Hnd Hby; cbn [merge_rows].
  { split_and!; [done| |split; [constructor|by intros ? ?%not_elem_of_nil]].
    intros _. split; [done|]. intros p d. split; [by left|]. intros [?|Hin]; [done|by apply not_elem_of_nil in Hin]. }
  rewrite fmap_cons in Hnd. cbn [snd] in Hnd. apply NoDup_cons in Hnd as [Hnd0 Hnd].
  assert (by_doc c !! d = None) as Hd by (apply Hby; by left).
  rewrite Hfr, Hd. rewrite bool_decide_false by set_solver. rewrite bool_decide_false by (by intros [? ?]). cbn [orb].
  rewrite fmap_cons. cbn [fst]. destruct (fwd c !! p) as [o|] eqn:Hp.
  { destruct (bytes_eqb o d) eqn:E.
    - apply bytes_eqb_eq in E as ->. apply Hc in Hp. congruence.
    - split_and!; [done| |done]. intros [_ Hfree]. rewrite Hfree in Hp by (by left). done. }
  set (c1 := mkClaims _ _ _).
  assert (claims_ok c1) as Hc1.
  { pose proof (claims_ok_set c p d (freed c) Hc Hp) as Hset. rewrite Hd, (delete_id (by_doc c)) in Hset by done.
    rewrite Hfr in Hset. exact Hset. }
  specialize (IH c1 Hc1 eq_refl Hnd). destruct (merge_rows i c1 fr) as [c' r]. destruct IH as (I1 & I2 & I3).
  { intros d' Hd'. cbn [by_doc c1]. rewrite lookup_insert_ne by (by intros ->). apply Hby. by right. }
  assert (∀ p', p' ≠ p → fwd c1 !! p' = fwd c !! p') as Hne by (intros p' Hp'; cbn [fwd c1]; by rewrite lookup_insert_ne).
  split_and!; [done| |].
  - intros [[Hni Hndp]%NoDup_cons Hfree]. destruct I2 as [-> Hfwd].
    { split; [done|]. intros p' Hin. rewrite Hne by (by intros ->). apply Hfree. by right. }
    split; [done|]. intros p' d'. rewrite Hfwd, elem_of_cons. destruct (decide (p' = p)) as [->|Hpp].
    + cbn [fwd c1]. rewrite lookup_insert_eq, Hp. split; [|naive_solver].
      intros [[= <-]|Hin]; [by right; left|by right; right].
    + rewrite Hne by done. naive_solver.
  - intros Hr. destruct (I3 Hr) as [Hndp Hfree]. split.
    + constructor; [|done]. intros Hin. specialize (Hfree p Hin). cbn [fwd c1] in Hfree. by rewrite lookup_insert_eq in Hfree.
    + intros p' [->|Hin]%elem_of_cons; [done|]. rewrite <-Hne; [by apply Hfree|]. intros ->.
      specialize (Hfree p Hin). cbn [fwd c1] in Hfree. by rewrite lookup_insert_eq in Hfree.
Qed.

(** Loading the tree of a new index: it succeeds exactly when no two documents
    share a tuple, and then the claims are the rows of the tree. *)
Lemma load_fresh l i rows fr :
  ledger_ok l → inner l !! i = None → pending l !! i = None →
  rows_of rows fr → NoDup fr.*2 →
  let '(l', r) := load_from_tree l i rows in
  ledger_ok l' ∧ (NoDup fr.*1 ↔ r = Ok (zlen fr)) ∧
  (NoDup fr.*1 → ∃ c, inner l' !! i = Some c ∧ ∀ p d, fwd c !! p = Some d ↔ (p, d) ∈ fr).
Proof.
  intros Hl Hi Hp Hm Hnd. unfold load_from_tree.
  destruct (scan_rows_fresh i None rows fr Hm) as [(e & -> & Hn)| ->]; cbn [app] in *.
  { split_and!; [done|split; [done|done]|done]. }
  assert (drain_pending l i = no_claims) as -> by (unfold drain_pending; rewrite Hi, Hp; cbn; by rewrite union_empty_r_L).
  pose proof (merge_rows_fresh i fr no_claims no_claims_ok eq_refl Hnd ltac:(done)) as Hmr.
  destruct (merge_rows i no_claims fr) as [c' r]. destruct Hmr as (Hc' & H1 & H2).
  split_and!; [by apply ledger_ok_insert| |].
  - split; [intros Hndp; destruct H1 as [-> _]; [done|done]|].
    destruct r as [[]| |]; [intros _; by apply H2|done..].
  - intros Hndp. destruct H1 as [_ Hf]; [done|]. exists c'. cbn [inner]. rewrite lookup_insert_eq. split; [done|].
    intros p d. rewrite Hf. cbn [fwd no_claims]. rewrite lookup_empty. naive_solver.
Qed.

(** The row of a document gives back its claim prefix. *)
Lemma row_prefix_key def vs id : zlen id < 2 ^ 16 → row_prefix (encode_composite_key def vs id) id = Some (encode_composite_prefix def vs).
Proof.
  intros Hid. rewrite encode_composite_key_split. set (p := encode_composite_prefix def vs). unfold row_prefix.
  assert (4 <= zlen p) as Hp4 by (unfold p, encode_composite_prefix; zlen).
  assert (zlen (p ++ to_be 2 (as_u16 (zlen id)) ++ id) = zlen p + 2 + zlen id) as -> by zlen.
  pose proof (zlen_nonneg id). split_if; [lia|].
  replace (zlen p + 2 + zlen id - zlen id) with (zlen p + 2) by lia. replace (zlen p + 2 - 2) with (zlen p) by lia.
  rewrite (app_assoc p), (drop_app_length' (p ++ _) id), <-app_assoc by (rewrite length_app; unfold zlen; cbn; lia).
  rewrite bytes_eqb_refl. cbn [negb].
  rewrite (drop_app_length' p), (take_app_length' p) by (unfold zlen; lia).
  rewrite (take_app_length' (to_be 2 _) id 2) by done. by rewrite bytes_eqb_refl.
Qed.

(** ** The fold over the tree of a unique index *)

Lemma NoDup_fst {A B} (l : list (A * B)) :
  NoDup l → NoDup l.*1 ↔ ∀ a b b', (a, b) ∈ l → (a, b') ∈ l → b = b'.
Proof.
  induction 1 as [|[a b] l Hni Hnd IH].
  { split; [by intros _ a b b' ?%not_elem_of_nil|constructor]. }
  rewrite fmap_cons, NoDup_cons, IH. cbn [fst]. split.
  - intros [Hna Hf] a0 b1 b2 [E1|H1]%elem_of_cons [E2|H2]%elem_of_cons; simplify_eq; [done| | |by eapply Hf].
    + exfalso. apply Hna. exact (list_elem_of_fmap_2 fst _ _ H2).
    + exfalso. apply Hna. exact (list_elem_of_fmap_2 fst _ _ H1).
  - intros Hf. split.
    + intros ([a0 b0] & -> & Hin)%list_elem_of_fmap. cbn [fst] in *.
      apply Hni. rewrite (Hf a0 b b0); [done|by left|by right].
    + intros a0 b1 b2 H1 H2. apply (Hf a0); by right.
Qed.

Section Fold.
Context (to_lowercase : bytes → bytes).
Implicit Types (x : CompositeIndex) (docs : gmap bytes HakoDoc).

(** The tuple of a document in an index, if the index has it. *)
Definition tuple_of (def : CompositeIndexDefinition) (id : bytes) (doc : HakoDoc) (vs : list Value) : Prop :=
  filter_passes to_lowercase def id doc = true ∧ document_values_of def id doc = Some vs.

(** The rows of the tree with their tuples. *)
Lemma tree_rows x docs :
  indexed to_lowercase x docs → (∀ id, is_Some (docs !! id) → zlen id < 2 ^ 16) →
  ∃ fr, rows_of (tree x) fr ∧ NoDup fr.*2 ∧ length fr = length (tree x) ∧
    ∀ p id, (p, id) ∈ fr ↔
      ∃ doc vs, docs !! id = Some doc ∧ tuple_of (ci_definition x) id doc vs ∧
        p = encode_composite_prefix (ci_definition x) vs.
Proof.
  intros (Hs & Hfit & Ht) Hid. set (row := λ kd : bytes * bytes, (default [] (row_prefix kd.1 kd.2), kd.2)).
  assert (∀ k id, (k, id) ∈ tree x → ∃ doc vs, docs !! id = Some doc ∧ tuple_of (ci_definition x) id doc vs ∧
    k = encode_composite_key (ci_definition x) vs id ∧ row_prefix k id = Some (encode_composite_prefix (ci_definition x) vs)) as Hrow.
  { intros k id (doc & Hd & (vs & Hf & Hv & -> & _)%doc_key_inv)%Ht. exists doc, vs. split_and!; try done.
    apply row_prefix_key, Hid. eauto. }
  exists (row <$> tree x). split_and!.
  - apply Forall2_fmap_r, Forall_Forall2_diag, Forall_forall. intros [k id] Hin. unfold row, compose. cbn [fst snd].
    destruct (Hrow _ _ Hin) as (doc & vs & _ & _ & _ & ->). done.
  - rewrite <-list_fmap_compose. apply NoDup_fmap_2_strong.
    + intros [k id] [k' id'] (doc & Hd & Hk)%Ht (doc' & Hd' & Hk')%Ht. cbn. intros <-. congruence.
    + apply (NoDup_fmap_1 fst), key_sorted_NoDup, Hs.
  - apply length_fmap.
  - intros p id. rewrite list_elem_of_fmap. split.
    + intros ([k id'] & [= -> ->] & Hin). destruct (Hrow _ _ Hin) as (doc & vs & Hd & Hv & _ & ->). by exists doc, vs.
    + intros (doc & vs & Hd & [Hf Hv] & ->). exists (encode_composite_key (ci_definition x) vs id, id). unfold row. cbn [fst snd].
      rewrite row_prefix_key by (apply Hid; eauto). split; [done|]. apply Ht. exists doc. split; [done|].
      unfold doc_key. by rewrite Hf, Hv.
Qed.
End Fold.
