(* ===== verification/CompositeManager.v ===== *)
(** * The registry of composite indexes (src/index/composite/manager.rs)

    Composite indexes by number and by collection: creation and restoring,
    dropping, the maintenance of every index of a collection when a document is
    written, backfills, import of persisted trees, and exact-match lookups; what the
    indexes hold after any sequence of these ([mg_step]).  [HashMap]
    iteration goes through [hash_iter]. *)

From stdpp Require Import prelude list gmap strings.
From Stdlib Require Import ZArith Lia.
From S2P Require Import Prelude RustStd Error Value Doc Filter StorageIndex Composite CompositeFacts Ledger.

Local Open Scope Z_scope.
Local Open Scope hako_scope.

(** ** Derived equality *)

#[export] Instance SortDirection_eq_dec : EqDecision SortDirection.
Proof. solve_decision. Defined.
#[export] Instance CompositeField_eq_dec : EqDecision CompositeField.
Proof. solve_decision. Defined.
#[export] Instance FilterLogic_eq_dec : EqDecision FilterLogic.
Proof. solve_decision. Defined.

Definition filter_eqb (a b : Filter) : bool :=
  bool_decide (f_field a = f_field b) && bool_decide (f_op a = f_op b) && value_eqb (f_value a) (f_value b).
Fixpoint list_eqb {A} (eqb : A → A → bool) (l k : list A) : bool :=
  match l, k with
  | [], [] => true
  | x :: l, y :: k => eqb x y && list_eqb eqb l k
  | _, _ => false
  end.
Definition filter_group_eqb (a b : FilterGroup) : bool :=
  bool_decide (g_logic a = g_logic b) && list_eqb filter_eqb (g_filters a) (g_filters b).
Definition definition_eqb (a b : CompositeIndexDefinition) : bool :=
  (d_id a =? d_id b) && bool_decide (d_collection a = d_collection b) && bool_decide (d_fields a = d_fields b) &&
  Bool.eqb (d_unique a) (d_unique b) && Bool.eqb (d_sparse a) (d_sparse b) &&
  match d_filter a, d_filter b with
  | Some f, Some g => filter_group_eqb f g
  | None, None => true
  | _, _ => false
  end.

(** ** Operations *)

Record CompositeIndexManager := mkMgr {
  mg_next_id : Z;
  by_id : gmap Z CompositeIndex;
  by_collection : gmap bytes (list Z) }.
Definition mg_empty : CompositeIndexManager := mkMgr 0 ∅ ∅.

Definition ids_of (m : CompositeIndexManager) (c : bytes) : list Z := default [] (by_collection m !! c).

(** A change of every index of a collection, in registration order. *)
Definition on_collection (f : CompositeIndex → CompositeIndex) (m : CompositeIndexManager) (c : bytes)
  : CompositeIndexManager :=
  mkMgr (mg_next_id m) (foldl (λ t id, alter f id t) (by_id m) (ids_of m c)) (by_collection m).

(** [clear_collection], [drop_collection], [has_collection]. *)
Definition clear_collection : CompositeIndexManager → bytes → CompositeIndexManager := on_collection ci_clear.
Definition drop_collection (m : CompositeIndexManager) (c : bytes) : CompositeIndexManager :=
  mkMgr (mg_next_id m) (foldl (λ t id, base.delete id t) (by_id m) (ids_of m c)) (base.delete c (by_collection m)).
Definition has_collection (m : CompositeIndexManager) (c : bytes) : bool := bool_decide (is_Some (by_collection m !! c)).

(** [Vec::swap_remove]: the last element takes the place of the removed one. *)
Definition swap_remove (pos : nat) (l : list Z) : list Z :=
  match last l with
  | Some x => take (length l - 1) (<[pos := x]> l)
  | None => l
  end.
Fixpoint position (id : Z) (l : list Z) : option nat :=
  match l with
  | [] => None
  | x :: l => if x =? id then Some 0%nat else S <$> position id l
  end.

(** [drop_index]: the first collection that registers the number. *)
Fixpoint unregister (id : Z) (cs : list (bytes * list Z)) (t : gmap bytes (list Z)) : gmap bytes (list Z) :=
  match cs with
  | [] => t
  | (c, ids) :: cs =>
      match position id ids with
      | Some pos => <[c := swap_remove pos ids]> t
      | None => unregister id cs t
      end
  end.
Definition drop_index `{HashIter} (m : CompositeIndexManager) (id : Z) : CompositeIndexManager :=
  mkMgr (mg_next_id m) (base.delete id (by_id m)) (unregister id (hash_iter (by_collection m)) (by_collection m)).

(** [export_snapshot], [import_snapshot_filtered]: the loop treats every number
    on its own. *)
Definition export_snapshot (m : CompositeIndexManager) : gmap Z CompositeIndex * Z := (by_id m, mg_next_id m).
Definition import_snapshot_filtered (m : CompositeIndexManager) (trees : gmap Z CompositeIndex) (next_id : Z)
    (skip : gset bytes) : CompositeIndexManager :=
  mkMgr (Z.max (mg_next_id m) next_id)
    (map_imap (λ id existing,
       match trees !! id with
       | Some index =>
           if definition_eqb (ci_definition existing) (ci_definition index)
              && negb (bool_decide (d_collection (ci_definition existing) ∈ skip))
           then Some index else Some existing
       | None => Some existing
       end) (by_id m))
    (by_collection m).

(** Registration, shared by [create_index] and [restore_index]. *)
Definition with_id (id : Z) (def : CompositeIndexDefinition) : CompositeIndexDefinition :=
  mkDef id (d_collection def) (d_fields def) (d_unique def) (d_sparse def) (d_filter def).
Definition register (next_id : Z) (def : CompositeIndexDefinition) (m : CompositeIndexManager) : CompositeIndexManager :=
  mkMgr next_id (<[d_id def := ci_new def]> (by_id m))
    (<[d_collection def := ids_of m (d_collection def) ++ [d_id def]]> (by_collection m)).
Definition create_index (m : CompositeIndexManager) (def : CompositeIndexDefinition) : CompositeIndexManager * Z :=
  let id := as_u32 (mg_next_id m + 1) in
  (register id (with_id id def) m, id).
Definition restore_index (m : CompositeIndexManager) (def : CompositeIndexDefinition) : CompositeIndexManager :=
  register (if mg_next_id m <? d_id def then d_id def else mg_next_id m) def m.

(** [get], [indexes_for_collection]. *)
Definition mg_get (m : CompositeIndexManager) (id : Z) : option CompositeIndex := by_id m !! id.
Definition indexes_for_collection (m : CompositeIndexManager) (c : bytes) : list CompositeIndex :=
  omap (λ id, by_id m !! id) (ids_of m c).

Section Maintain.
Context (to_lowercase : bytes → bytes).

(** [index_document], [index_batch], [remove_document], [remove_batch] of the
    manager. *)
Definition mg_index_document (m : CompositeIndexManager) (c doc_id : bytes) (doc : HakoDoc) : CompositeIndexManager :=
  on_collection (λ x, index_document to_lowercase x doc_id doc) m c.
(** The backfill of one index. *)
Definition mg_backfill (m : CompositeIndexManager) (id : Z) (docs : list (bytes * HakoDoc)) : CompositeIndexManager :=
  mkMgr (mg_next_id m) (alter (λ x, foldl (λ x d, index_document to_lowercase x d.1 d.2) x docs) id (by_id m)) (by_collection m).
Definition mg_index_batch (m : CompositeIndexManager) (c : bytes) (docs : list (bytes * HakoDoc)) : CompositeIndexManager :=
  on_collection (λ x, index_batch to_lowercase x docs) m c.
Definition mg_remove_document (m : CompositeIndexManager) (c doc_id : bytes) (doc : HakoDoc) : CompositeIndexManager :=
  on_collection (λ x, remove_document to_lowercase x doc_id doc) m c.
Definition mg_remove_batch (m : CompositeIndexManager) (c : bytes) (docs : list (bytes * HakoDoc)) : CompositeIndexManager :=
  on_collection (λ x, remove_batch to_lowercase x docs) m c.
End Maintain.

(** [exact_match_doc_ids]: the first index of the collection whose fields start
    with the ones asked for. *)
Definition covers (fields : list bytes) (x : CompositeIndex) : bool :=
  let idx_fields := cf_field <$> d_fields (ci_definition x) in
  (length fields <=? length idx_fields)%nat && bool_decide (take (length fields) idx_fields = fields).
Definition exact_match_doc_ids (m : CompositeIndexManager) (c : bytes) (fields : list bytes) (values : list Value)
  : option (res (list bytes)) :=
  x ← head (List.filter (covers fields) (indexes_for_collection m c));
  let range := build_prefix_range (ci_definition x) values in
  Some (range_scan x (r_start range) (r_end range)).

(** ** Registration *)

(** Every number is registered once, with the collection of its definition. *)
Record registry_ok (m : CompositeIndexManager) : Prop := {
  reg_next : 0 <= mg_next_id m;
  reg_nodup c : NoDup (ids_of m c);
  reg_ids c id : id ∈ ids_of m c ↔ ∃ x, by_id m !! id = Some x ∧ d_collection (ci_definition x) = c;
  reg_num id x : by_id m !! id = Some x → d_id (ci_definition x) = id ∧ 0 < id <= mg_next_id m }.

Lemma ids_of_insert n t b c ids c' :
  ids_of (mkMgr n t (<[c := ids]> b)) c' = if bool_decide (c = c') then ids else ids_of (mkMgr n t b) c'.
Proof.
  unfold ids_of. cbn [by_collection]. case_bool_decide as E; [subst; by rewrite lookup_insert_eq|].
  by rewrite lookup_insert_ne.
Qed.

Lemma foldl_alter_lookup (f : CompositeIndex → CompositeIndex) ids (t : gmap Z CompositeIndex) id :
  NoDup ids → foldl (λ t id, alter f id t) t ids !! id = if bool_decide (id ∈ ids) then f <$> t !! id else t !! id.
Proof.
  intros Hnd. revert t; induction Hnd as [|i ids Hni Hnd IH]; intros t; cbn [foldl].
  { by rewrite bool_decide_false by (by intros ?%not_elem_of_nil). }
  rewrite IH. destruct (decide (id = i)) as [->|Hne].
  - rewrite bool_decide_false, bool_decide_true by (done || by left). apply lookup_alter_eq.
  - rewrite lookup_alter_ne by done. by rewrite (bool_decide_ext (id ∈ i :: ids) (id ∈ ids)) by (rewrite elem_of_cons; naive_solver).
Qed.

Lemma drop_ids_lookup (t : gmap Z CompositeIndex) ids id :
  foldl (λ t id, base.delete id t) t ids !! id = if bool_decide (id ∈ ids) then None else t !! id.
Proof.
  revert t; induction ids as [|i ids IH]; intros t; cbn [foldl].
  { by rewrite bool_decide_false by (by intros ?%not_elem_of_nil). }
  rewrite IH. repeat case_bool_decide; try done.
  - by exfalso; match goal with Hn : _ ∉ _ |- _ => apply Hn; right end.
  - match goal with Hi : _ ∈ _ :: _ |- _ => apply elem_of_cons in Hi as [->|Hi]; [apply lookup_delete_eq|done] end.
  - apply lookup_delete_ne. intros ->. match goal with Hn : _ ∉ _ :: _ |- _ => apply Hn; left end.
Qed.

Lemma on_collection_lookup f m c id :
  registry_ok m →
  by_id (on_collection f m c) !! id =
    (x ← by_id m !! id; Some (if bool_decide (d_collection (ci_definition x) = c) then f x else x)).
Proof.
  intros [_ Hnd Hids _]. unfold on_collection. cbn [by_id]. rewrite foldl_alter_lookup by done.
  destruct (by_id m !! id) as [x|] eqn:Hx; cbn [mbind option_bind fmap option_fmap option_map].
  - rewrite (bool_decide_ext (id ∈ ids_of m c) (d_collection (ci_definition x) = c)); [by case_bool_decide|].
    rewrite Hids, Hx. naive_solver.
  - by case_bool_decide.
Qed.

Lemma on_collection_ok f m c :
  (∀ x, ci_definition (f x) = ci_definition x) → registry_ok m → registry_ok (on_collection f m c).
Proof.
  intros Hf Hm. pose proof Hm as [Hnx Hnd Hids Hnum].
  assert (∀ id (P : CompositeIndexDefinition → Prop), (∃ x, by_id (on_collection f m c) !! id = Some x ∧ P (ci_definition x)) ↔
    ∃ x, by_id m !! id = Some x ∧ P (ci_definition x)) as Hdef.
  { intros id P. rewrite on_collection_lookup by done. destruct (by_id m !! id) as [x|]; cbn [mbind option_bind].
    - case_bool_decide; split; intros (y & [= <-] & HP); eexists; (split; [done|]); by rewrite ?Hf in *.
    - split; by intros (y & [=] & _). }
  constructor; [done| | |].
  - intros c'. apply Hnd.
  - intros c' id. rewrite (Hdef id (λ d, d_collection d = c')). apply Hids.
  - intros id x Hx. destruct (proj1 (Hdef id (λ d, d = ci_definition x))) as (y & Hy & E); [eauto|]. rewrite <-E.
    exact (Hnum _ _ Hy).
Qed.

(** A position splits the list, and [swap_remove] drops that element. *)
Lemma position_split id l pos : position id l = Some pos → ∃ l1 l2, l = l1 ++ id :: l2 ∧ length l1 = pos.
Proof.
  revert pos; induction l as [|x l IH]; intros pos; cbn [position]; [done|]. split_if.
  - intros [= <-]. bool_simpl. subst. by exists [], l.
  - destruct (position id l) as [p|] eqn:E; [|done]. intros [= <-]. destruct (IH p eq_refl) as (l1 & l2 & -> & <-).
    by exists (x :: l1), l2.
Qed.

Lemma position_None id l : position id l = None → id ∉ l.
Proof.
  induction l as [|x l IH]; cbn [position]; [by intros _ ?%not_elem_of_nil|]. split_if; [done|]. bool_simpl.
  destruct (position id l); [done|]. intros _ [->|Hin]%elem_of_cons; [done|by apply IH].
Qed.

Lemma swap_remove_perm id l pos : position id l = Some pos → id :: swap_remove pos l ≡ₚ l.
Proof.
  intros (l1 & l2 & -> & <-)%position_split. unfold swap_remove.
  destruct l2 as [|x l2 _] using rev_ind.
  - rewrite last_snoc, length_app. cbn [length]. replace (length l1 + 1 - 1)%nat with (length l1) by lia.
    rewrite take_insert_ge, take_app_length by lia. by rewrite Permutation_app_comm.
  - rewrite app_comm_cons, app_assoc, last_snoc, !length_app. cbn [length].
    rewrite insert_app_l by (rewrite length_app; cbn; lia).
    replace (length l1 + S (length l2) + 1 - 1)%nat with (length (<[length l1 := x]> (l1 ++ id :: l2)))
      by (rewrite length_insert, length_app; cbn; lia).
    rewrite take_app_length. replace (length l1) with (length l1 + 0)%nat by lia. rewrite insert_app_r. cbn [list_insert].
    rewrite <-app_assoc. cbn [app]. rewrite (Permutation_app_comm l2 [x]). cbn [app].
    rewrite (Permutation_middle l1). done.
Qed.

Lemma unregister_cases id cs t :
  (unregister id cs t = t ∧ ∀ c ids, (c, ids) ∈ cs → id ∉ ids) ∨
  ∃ c ids pos, (c, ids) ∈ cs ∧ position id ids = Some pos ∧ unregister id cs t = <[c := swap_remove pos ids]> t.
Proof.
  induction cs as [|[c ids] cs IH]; cbn [unregister]; [left; split; [done|by intros ? ? ?%not_elem_of_nil]|].
  destruct (position id ids) as [pos|] eqn:E; [right; exists c, ids, pos; split_and!; [by left|done|done]|].
  destruct IH as [[-> Hn]|(c' & ids' & pos & Hin & Hp & ->)].
  - left. split; [done|]. intros c' ids' [[= -> ->]|Hin]%elem_of_cons; [by apply position_None|by eapply Hn].
  - right. exists c', ids', pos. split_and!; [by right|done|done].
Qed.

(** Removing numbers from the tree and the registration together. *)
Lemma registry_shrink m m' (gone : Z → Prop) :
  registry_ok m → mg_next_id m' = mg_next_id m → (∀ c, NoDup (ids_of m' c)) →
  (∀ c id, id ∈ ids_of m' c ↔ id ∈ ids_of m c ∧ ¬ gone id) →
  (∀ id x, by_id m' !! id = Some x ↔ by_id m !! id = Some x ∧ ¬ gone id) → registry_ok m'.
Proof.
  intros [Hnx Hnd Hids Hnum] Hn Hnd' Hc Hi. constructor; [by rewrite Hn|done| |].
  - intros c id. rewrite Hc, Hids. setoid_rewrite Hi. naive_solver.
  - intros id x [Hx _]%Hi. rewrite Hn. by apply Hnum.
Qed.

Lemma drop_index_gone `{HashIterLaws} m id :
  registry_ok m → registry_ok (drop_index m id) ∧ by_id (drop_index m id) = base.delete id (by_id m).
Proof.
  intros Hm. split; [|done]. pose proof Hm as [_ Hnd Hids _].
  apply (registry_shrink m _ (λ i, i = id)); [done|done| | |].
  3: { intros i x. unfold drop_index. cbn [by_id]. rewrite lookup_delete_Some. naive_solver. }
  all: destruct (unregister_cases id (hash_iter (by_collection m)) (by_collection m)) as [[E Hn]|(c & ids & pos & Hin & Hp & E)].
  all: unfold drop_index; rewrite E.
  - apply Hnd.
  - intros c'. rewrite ids_of_insert. case_bool_decide; [|apply Hnd]. subst c'.
    rewrite hash_iter_perm, elem_of_map_to_list in Hin. assert (ids_of m c = ids) as <- by (unfold ids_of; by rewrite Hin).
    specialize (Hnd c). rewrite <-(swap_remove_perm _ _ _ Hp) in Hnd. by apply NoDup_cons in Hnd as [_ ?].
  - intros c i. change (ids_of _ c) with (ids_of m c). split; [|by intros [? _]]. intros Hi. split; [done|]. intros ->.
    unfold ids_of in Hi. destruct (by_collection m !! c) as [ids|] eqn:Hc; [|by apply not_elem_of_nil in Hi].
    eapply (Hn c ids); [|done]. by rewrite hash_iter_perm, elem_of_map_to_list.
  - intros c' i. rewrite hash_iter_perm, elem_of_map_to_list in Hin.
    assert (ids_of m c = ids) as Hc by (unfold ids_of; by rewrite Hin).
    pose proof (swap_remove_perm _ _ _ Hp) as Hperm. rewrite ids_of_insert. case_bool_decide as Ecc.
    + subst c'. specialize (Hnd c). rewrite Hc in *. rewrite <-Hperm in Hnd. apply NoDup_cons in Hnd as [Hni _].
      rewrite <-Hperm at 2. rewrite elem_of_cons. naive_solver.
    + change (ids_of _ c') with (ids_of m c'). split; [|by intros [? _]]. intros Hi. split; [done|]. intros ->.
      assert (id ∈ ids_of m c) as Hi2 by (rewrite Hc, <-Hperm; by left).
      apply Hids in Hi as (x & Hx & <-), Hi2 as (y & Hy & E2). congruence.
Qed.

Lemma drop_collection_gone m c :
  registry_ok m → registry_ok (drop_collection m c) ∧
  ∀ id x, by_id (drop_collection m c) !! id = Some x ↔ by_id m !! id = Some x ∧ d_collection (ci_definition x) ≠ c.
Proof.
  intros Hm. pose proof Hm as [_ Hnd Hids _].
  assert (∀ id x, by_id (drop_collection m c) !! id = Some x ↔ by_id m !! id = Some x ∧ id ∉ ids_of m c) as Hl.
  { intros id x. unfold drop_collection. cbn [by_id]. rewrite drop_ids_lookup. case_bool_decide; naive_solver. }
  assert (∀ c', ids_of (drop_collection m c) c' = if bool_decide (c = c') then [] else ids_of m c') as Hc.
  { intros c'. unfold drop_collection, ids_of. cbn [by_collection]. case_bool_decide; [subst; by rewrite lookup_delete_eq|].
    by rewrite lookup_delete_ne. }
  split.
  - apply (registry_shrink m _ (λ i, i ∈ ids_of m c)); [done|done| | |exact Hl].
    + intros c'. rewrite Hc. case_bool_decide; [constructor|apply Hnd].
    + intros c' i. rewrite Hc. case_bool_decide as E; [subst; rewrite elem_of_nil; naive_solver|].
      split; [|by intros [? _]]. intros Hi. split; [done|]. intros Hi2.
      apply Hids in Hi as (x & Hx & E1), Hi2 as (y & Hy & E2). congruence.
  - intros id x. rewrite Hl, Hids. naive_solver.
Qed.

(** Registering a new number. *)
Lemma register_ok n def m :
  registry_ok m → by_id m !! d_id def = None → mg_next_id m <= n → 0 < d_id def <= n → registry_ok (register n def m).
Proof.
  intros [Hnx Hnd Hids Hnum] Hnew Hn Hid.
  assert (∀ c, d_id def ∉ ids_of m c) as Hni by (intros c (x & Hx & _)%Hids; congruence).
  constructor; [cbn [register mg_next_id]; lia| | |].
  - intros c. unfold register. rewrite ids_of_insert. case_bool_decide; [|apply Hnd].
    rewrite Permutation_app_comm. constructor; [apply Hni|apply Hnd].
  - intros c id. unfold register. rewrite ids_of_insert. cbn [by_id]. setoid_rewrite lookup_insert_Some. case_bool_decide as E.
    + rewrite elem_of_app, list_elem_of_singleton, Hids. split.
      * intros [(x & Hx & E2)| ->]; [|exists (ci_new def); naive_solver].
        exists x. split; [|congruence]. right. split; [|done]. intros <-. congruence.
      * intros (x & [[<- <-]|[Hne Hx]] & E2); [by right|left; exists x; split; [done|congruence]].
    + change (id ∈ ids_of m c ↔ ∃ x, (d_id def = id ∧ ci_new def = x ∨ d_id def ≠ id ∧ by_id m !! id = Some x) ∧
        d_collection (ci_definition x) = c). rewrite Hids. split.
      * intros (x & Hx & E2). exists x. split; [|done]. right. split; [|done]. intros <-. congruence.
      * intros (x & [[<- <-]|[Hne Hx]] & E2); [done|eauto].
  - intros id x. unfold register. cbn [by_id mg_next_id]. rewrite lookup_insert_Some. intros [[<- <-]|[Hne Hx]]; [done|].
    destruct (Hnum _ _ Hx). split; [done|lia].
Qed.

(** ** What the indexes hold *)

Section Mirror.
Context (to_lowercase : bytes → bytes) `{HashIterLaws}.
(** The documents that an index holds, for the indexes of which this is known. *)
Abbreviation Held := (gmap Z (gmap bytes HakoDoc)).
Implicit Types (m : CompositeIndexManager) (G : Held) (docs : gmap bytes HakoDoc).

(** A document given to an index: one that it does not hold, or holds as it is.  When
    it holds another version, that version's row stays, and nothing is known of the
    index until it is cleared. *)
Definition filed (def : CompositeIndexDefinition) (d : bytes * HakoDoc) docs docs' : Prop :=
  doc_fits def d.1 d.2 ∧ (docs !! d.1 = None ∨ docs !! d.1 = Some d.2) ∧ docs' = <[d.1 := d.2]> docs.
(** A document taken from an index: as the index holds it, or one that it does not hold. *)
Definition unfiled (def : CompositeIndexDefinition) (d : bytes * HakoDoc) docs docs' : Prop :=
  (docs !! d.1 = Some d.2 ∧ docs' = base.delete d.1 docs) ∨ (docs !! d.1 = None ∧ doc_fits def d.1 d.2 ∧ docs' = docs).
(** One document after the other. *)
Fixpoint in_turn (R : bytes * HakoDoc → gmap bytes HakoDoc → gmap bytes HakoDoc → Prop) (ds : list (bytes * HakoDoc)) docs docs' : Prop :=
  match ds with
  | [] => docs' = docs
  | d :: ds => ∃ docs1, R d docs docs1 ∧ in_turn R ds docs1 docs'
  end.

(** What is known to be held after a change of the indexes of a collection. *)
Definition held_in m (c : bytes) (R : CompositeIndexDefinition → gmap bytes HakoDoc → gmap bytes HakoDoc → Prop) G G' : Prop :=
  ∀ i docs', G' !! i = Some docs' → ∃ x docs, by_id m !! i = Some x ∧ G !! i = Some docs ∧
    if bool_decide (d_collection (ci_definition x) = c) then R (ci_definition x) docs docs' else docs' = docs.

(** The calls that a registry gets, in any order and with any documents: an index may be
    created when its collection has documents (they come with a backfill, in one or in
    several parts, other calls between them), and a document may be given again. *)
Inductive mg_step : CompositeIndexManager * Held → CompositeIndexManager * Held → Prop :=
| step_create m G def :
    mg_next_id m < 2 ^ 32 - 1 → mg_step (m, G) ((create_index m def).1, <[(create_index m def).2 := ∅]> G)
| step_restore m G def :
    by_id m !! d_id def = None → 0 < d_id def → mg_step (m, G) (restore_index m def, <[d_id def := ∅]> G)
| step_backfill m G id x ds docs docs' :
    by_id m !! id = Some x → G !! id = Some docs → in_turn (filed (ci_definition x)) ds docs docs' →
    mg_step (m, G) (mg_backfill to_lowercase m id ds, <[id := docs']> G)
| step_backfill_any m G id ds : mg_step (m, G) (mg_backfill to_lowercase m id ds, base.delete id G)
| step_index m G G' c id doc :
    held_in m c (λ def, filed def (id, doc)) G G' → mg_step (m, G) (mg_index_document to_lowercase m c id doc, G')
| step_remove m G G' c id doc :
    held_in m c (λ def, unfiled def (id, doc)) G G' → mg_step (m, G) (mg_remove_document to_lowercase m c id doc, G')
| step_index_batch m G G' c ds :
    held_in m c (λ def, in_turn (filed def) ds) G G' → mg_step (m, G) (mg_index_batch to_lowercase m c ds, G')
| step_remove_batch m G G' c ds :
    held_in m c (λ def, in_turn (unfiled def) ds) G G' → mg_step (m, G) (mg_remove_batch to_lowercase m c ds, G')
| step_import m G G' trees n skip :
    (∀ i docs, G' !! i = Some docs →
       (G !! i = Some docs ∧ by_id (import_snapshot_filtered m trees n skip) !! i = by_id m !! i) ∨
       ∃ x, by_id (import_snapshot_filtered m trees n skip) !! i = Some x ∧ trees !! i = Some x ∧ indexed to_lowercase x docs) →
    mg_step (m, G) (import_snapshot_filtered m trees n skip, G')
| step_clear m G G' c :
    (∀ i docs, G' !! i = Some docs → ∃ x, by_id m !! i = Some x ∧
       if bool_decide (d_collection (ci_definition x) = c) then docs = ∅ else G !! i = Some docs) →
    mg_step (m, G) (clear_collection m c, G')
| step_drop_collection m G c :
    mg_step (m, G) (drop_collection m c, base.filter (λ kv, is_Some (by_id (drop_collection m c) !! kv.1)) G)
| step_drop_index m G id : mg_step (m, G) (drop_index m id, base.delete id G).

(** The registry is in order and its trees are those of what they are said to hold. *)
Definition mirrors m G : Prop :=
  registry_ok m ∧ ∀ i docs, G !! i = Some docs → ∃ x, by_id m !! i = Some x ∧ indexed to_lowercase x docs.

Lemma mirrors_on_collection f m G G' c R :
  mirrors m G → (∀ x, ci_definition (f x) = ci_definition x) → held_in m c R G G' →
  (∀ x docs docs', indexed to_lowercase x docs → R (ci_definition x) docs docs' → indexed to_lowercase (f x) docs') →
  mirrors (on_collection f m c) G'.
Proof.
  intros [Hm Hix] Hdef HG Hf. split; [by apply on_collection_ok|]. intros i docs' Hi. rewrite on_collection_lookup by done.
  destruct (HG i docs' Hi) as (x & docs & Hx & Hd & HR). destruct (Hix i docs Hd) as (y & Hy & Hyx). rewrite Hx in Hy. injection Hy as <-.
  rewrite Hx. cbn [mbind option_bind]. eexists. split; [done|]. case_bool_decide; [by eapply Hf|by subst].
Qed.

Lemma index_document_definition x id doc : ci_definition (index_document to_lowercase x id doc) = ci_definition x.
Proof. unfold index_document. by destruct (doc_key _ _ _ _). Qed.
Lemma remove_document_definition x id doc : ci_definition (remove_document to_lowercase x id doc) = ci_definition x.
Proof. unfold remove_document. by destruct (doc_key _ _ _ _). Qed.

Lemma index_batch_definition x ds : ci_definition (index_batch to_lowercase x ds) = ci_definition x.
Proof. done. Qed.
Lemma remove_batch_definition x ds : ci_definition (remove_batch to_lowercase x ds) = ci_definition x.
Proof.
  unfold remove_batch. revert x; induction ds as [|d ds IH]; intros x; [done|]. cbn [foldl].
  by rewrite IH, remove_document_definition.
Qed.

Lemma filed_indexed x docs docs' d :
  indexed to_lowercase x docs → filed (ci_definition x) d docs docs' → indexed to_lowercase (index_document to_lowercase x d.1 d.2) docs'.
Proof.
  intros Hx (Hfit & [Hn|Hs] & ->); [by apply index_document_indexed|]. rewrite insert_id by done. by apply index_document_again.
Qed.
Lemma unfiled_indexed x docs docs' d :
  indexed to_lowercase x docs → unfiled (ci_definition x) d docs docs' → indexed to_lowercase (remove_document to_lowercase x d.1 d.2) docs'.
Proof. intros Hx [[Hs ->]|(Hn & Hfit & ->)]; [by apply remove_document_indexed|by apply remove_document_absent]. Qed.
Lemma index_batch_indexed x docs docs' ds :
  indexed to_lowercase x docs → in_turn (filed (ci_definition x)) ds docs docs' → indexed to_lowercase (index_batch to_lowercase x ds) docs'.
Proof.
  rewrite index_batch_fold. revert x docs; induction ds as [|d ds IH]; intros x docs Hx; cbn [in_turn foldl]; [by intros ->|].
  intros (docs1 & Hd & Hds). apply (IH _ docs1); [by eapply filed_indexed|]. by rewrite index_document_definition.
Qed.
Lemma remove_batch_indexed x docs docs' ds :
  indexed to_lowercase x docs → in_turn (unfiled (ci_definition x)) ds docs docs' → indexed to_lowercase (remove_batch to_lowercase x ds) docs'.
Proof.
  unfold remove_batch. revert x docs; induction ds as [|d ds IH]; intros x docs Hx; cbn [in_turn foldl]; [by intros ->|].
  intros (docs1 & Hd & Hds). apply (IH _ docs1); [by eapply unfiled_indexed|]. by rewrite remove_document_definition.
Qed.

Lemma definition_eqb_fields a b : definition_eqb a b = true → d_id a = d_id b ∧ d_collection a = d_collection b.
Proof. unfold definition_eqb. intros E. bool_simpl. done. Qed.

Lemma mirrors_register n def m G :
  mirrors m G → by_id m !! d_id def = None → mg_next_id m <= n → 0 < d_id def <= n → mirrors (register n def m) (<[d_id def := ∅]> G).
Proof.
  intros [Hm Hix] Hnew Hn Hid. split; [by apply register_ok|]. unfold register. cbn [by_id]. intros i docs [[<- <-]|[Hne Hi]]%lookup_insert_Some.
  - rewrite lookup_insert_eq. eexists. split; [done|]. apply indexed_empty.
  - rewrite lookup_insert_ne by done. by apply Hix.
Qed.

(** An index keeps its number and its collection when it is imported or refilled. *)
Lemma registry_replaced m by_id' n :
  registry_ok m → mg_next_id m <= n →
  (∀ id, is_Some (by_id' !! id) ↔ is_Some (by_id m !! id)) →
  (∀ id x x', by_id m !! id = Some x → by_id' !! id = Some x' →
     d_id (ci_definition x') = d_id (ci_definition x) ∧ d_collection (ci_definition x') = d_collection (ci_definition x)) →
  registry_ok (mkMgr n by_id' (by_collection m)).
Proof.
  intros [Hnx Hnd Hids Hnum] Hn Hdom Hsame. constructor; cbn [mg_next_id by_id]; [lia|exact Hnd| |].
  - intros c id. change (ids_of (mkMgr n by_id' (by_collection m)) c) with (ids_of m c). rewrite Hids. split.
    + intros (x & Hx & <-). destruct (proj2 (Hdom id) (ex_intro _ x Hx)) as [x' Hx']. exists x'. split; [done|]. by apply (Hsame id x x').
    + intros (x' & Hx' & <-). destruct (proj1 (Hdom id) (ex_intro _ x' Hx')) as [x Hx]. exists x. split; [done|]. by destruct (Hsame id x x').
  - intros id x' Hx'. destruct (proj1 (Hdom id) (ex_intro _ x' Hx')) as [x Hx]. destruct (Hsame id x x' Hx Hx') as [-> _].
    destruct (Hnum _ _ Hx). split; [done|lia].
Qed.
Lemma import_ok m trees n skip : registry_ok m → registry_ok (import_snapshot_filtered m trees n skip).
Proof.
  intros Hm. apply registry_replaced; [done|lia| |].
  - intros id. rewrite map_lookup_imap. destruct (by_id m !! id) as [x|]; cbn [mbind option_bind]; [|done].
    split; [by eexists|]. intros _. destruct (trees !! id); [split_if|]; eauto.
  - intros id x x' Hx. rewrite map_lookup_imap, Hx. cbn [mbind option_bind]. destruct (trees !! id) as [y|]; [|by intros [= <-]].
    split_if; intros [= <-]; [|done]. bool_simpl.
    match goal with E : definition_eqb _ _ = true |- _ => apply definition_eqb_fields in E as [-> ->] end. done.
Qed.
Lemma backfill_ok m id ds : registry_ok m → registry_ok (mg_backfill to_lowercase m id ds).
Proof.
  intros Hm. apply registry_replaced; [done|lia| |].
  - intros i. by rewrite lookup_alter_is_Some.
  - intros i x x' Hx. destruct (decide (id = i)) as [->|Hne].
    + rewrite lookup_alter_eq, Hx. intros [= <-]. by rewrite <-index_batch_fold.
    + rewrite lookup_alter_ne, Hx by done. by intros [= <-].
Qed.

Lemma mirrors_step s s' : mg_step s s' → mirrors s.1 s.2 → mirrors s'.1 s'.2.
Proof.
  intros Hs HM. pose proof HM as [Hm Hix]. destruct Hs as [m G def Hn|m G def Hnew Hid|m G id x ds docs docs' Hx Hd Hds|m G id ds|m G G' c id doc HG|m G G' c id doc HG
    |m G G' c ds HG|m G G' c ds HG|m G G' trees n skip HG|m G G' c HG|m G c|m G id]; cbn [fst snd] in *.
  - pose proof (reg_next m Hm). unfold create_index. cbn [fst snd].
    assert (as_u32 (mg_next_id m + 1) = mg_next_id m + 1) as -> by (apply as_u32_id; unfold is_u32; lia).
    apply (mirrors_register _ (with_id (mg_next_id m + 1) def)); [done| |lia|cbn [with_id d_id]; lia]. cbn [with_id d_id].
    destruct (by_id m !! (mg_next_id m + 1)) as [x|] eqn:E; [|done]. apply (reg_num m Hm) in E. lia.
  - unfold restore_index. pose proof (reg_next m Hm). apply mirrors_register; try done; split_if; bool_simpl; lia.
  - split; [by apply backfill_ok|]. destruct (Hix id docs Hd) as (y & Hy & Hyx). rewrite Hx in Hy. injection Hy as <-.
    intros i di [[<- <-]|[Hne Hi]]%lookup_insert_Some; unfold mg_backfill; cbn [by_id].
    + rewrite lookup_alter_eq, Hx. eexists. split; [done|]. rewrite <-index_batch_fold. by eapply index_batch_indexed.
    + rewrite lookup_alter_ne by done. by apply Hix.
  - split; [by apply backfill_ok|]. intros i di [Hne Hi]%lookup_delete_Some. unfold mg_backfill. cbn [by_id]. rewrite lookup_alter_ne by done. by apply Hix.
  - eapply mirrors_on_collection; [done|intros x; apply index_document_definition|exact HG|]. intros x docs docs' Hx Hf. exact (filed_indexed x docs docs' (id, doc) Hx Hf).
  - eapply mirrors_on_collection; [done|intros x; apply remove_document_definition|exact HG|]. intros x docs docs' Hx Hf. exact (unfiled_indexed x docs docs' (id, doc) Hx Hf).
  - eapply mirrors_on_collection; [done|done|exact HG|]. intros x docs docs'. apply index_batch_indexed.
  - eapply mirrors_on_collection; [done|intros x; apply remove_batch_definition|exact HG|]. intros x docs docs'. apply remove_batch_indexed.
  - split; [by apply import_ok|]. intros i docs [[Hi ->]|(x & Hx & _ & Hxd)]%HG; [by apply Hix|by exists x].
  - split; [by apply on_collection_ok|]. intros i docs (x & Hx & Hi)%HG. unfold clear_collection. rewrite on_collection_lookup, Hx by done.
    cbn [mbind option_bind]. eexists. split; [done|]. case_bool_decide; [subst; apply indexed_empty|].
    destruct (Hix i docs Hi) as (y & Hy & Hyx). congruence.
  - destruct (drop_collection_gone m c Hm) as [Hm' Hl]. split; [done|]. intros i docs [Hi [x Hx]]%map_lookup_filter_Some. cbn in Hx.
    exists x. split; [done|]. apply Hl in Hx as [Hx _]. destruct (Hix i docs Hi) as (y & Hy & Hyx). congruence.
  - destruct (drop_index_gone m id Hm) as [Hm' Hl]. split; [done|]. rewrite Hl. intros i docs [Hne Hi]%lookup_delete_Some.
    rewrite lookup_delete_ne by done. by apply Hix.
Qed.

Lemma mirrors_steps s s' : rtc mg_step s s' → mirrors s.1 s.2 → mirrors s'.1 s'.2.
Proof. induction 1; [done|]. eauto using mirrors_step. Qed.

Lemma mirrors_empty : mirrors mg_empty ∅.
Proof.
  split; [|by intros i docs ?]. constructor; [done|intros c; constructor| |done].
  intros c id. unfold ids_of, mg_empty. cbn [by_collection by_id]. rewrite lookup_empty. cbn [default from_option].
  rewrite elem_of_nil. split; [done|]. intros (x & Hx & _). by rewrite lookup_empty in Hx.
Qed.

Lemma elem_of_indexes m c x :
  registry_ok m → x ∈ indexes_for_collection m c ↔ ∃ id, by_id m !! id = Some x ∧ d_collection (ci_definition x) = c.
Proof.
  intros [_ _ Hids _]. unfold indexes_for_collection. rewrite list_elem_of_omap. split.
  - intros (id & (y & Hy & E)%Hids & Hx). exists id. split; [done|]. congruence.
  - intros (id & Hx & Hc). exists id. split; [|done]. apply Hids. eauto.
Qed.

(** The lookup uses an index that covers the fields if there is one, and its
    answer is what that index holds. *)
Lemma exact_match_spec m G c fs ws :
  mirrors m G → length fs = length ws → Forall value_ok ws → forallb scalar ws = true →
  match exact_match_doc_ids m c fs ws with
  | Some r => ∃ x, x ∈ indexes_for_collection m c ∧ covers fs x = true ∧
      ∀ docs, G !! d_id (ci_definition x) = Some docs → (∀ id, is_Some (docs !! id) → zlen id < 65280) →
      ∃ ids, r = Ok ids ∧ NoDup ids ∧ ∀ id, id ∈ ids ↔ ∃ doc vs, docs !! id = Some doc ∧ tuple_of to_lowercase (ci_definition x) id doc vs ∧
        norm <$> take (length ws) vs = norm <$> ws
  | None => ∀ x, x ∈ indexes_for_collection m c → covers fs x = false
  end.
Proof.
  intros [Hm Hix] Hlen Hw Hs. unfold exact_match_doc_ids.
  destruct (List.filter (covers fs) (indexes_for_collection m c)) as [|x l] eqn:E; cbn [head mbind option_bind].
  - intros x Hx. destruct (covers fs x) eqn:Ec; [|done].
    assert (x ∈ []) as Hin by (rewrite <-E; apply list_elem_of_In, filter_In; split; [by apply list_elem_of_In|done]).
    by apply not_elem_of_nil in Hin.
  - assert (In x (List.filter (covers fs) (indexes_for_collection m c))) as Hin by (rewrite E; by left).
    apply filter_In in Hin as [Hin Hcov]. apply list_elem_of_In in Hin. pose proof Hin as Hin'.
    apply elem_of_indexes in Hin' as (i & Hi & Hc); [|done]. exists x. split; [done|]. split; [done|]. intros docs Hd Hid.
    destruct (reg_num m Hm i x Hi) as [Hnum _]. rewrite Hnum in Hd. destruct (Hix i docs Hd) as (y & Hy & Hx). rewrite Hi in Hy. injection Hy as <-.
    assert (length ws <= length (d_fields (ci_definition x)))%nat as Hl.
    { unfold covers in Hcov. apply andb_true_iff in Hcov as [Hcov _]. apply Nat.leb_le in Hcov.
      rewrite length_fmap in Hcov. lia. }
    destruct (prefix_scan_spec to_lowercase x docs ws Hx Hw Hs Hl Hid) as (ids & Hr & Hnd & Hids).
    exists ids. split_and!; try done.
    intros id. rewrite Hids. unfold tuple_of. naive_solver.
Qed.
End Mirror.

