(* ===== verification/IndexProps.v ===== *)
(** * Properties of indexes, filters and schemas

    The properties of the write-path checks (schemas, unique claims) and of the
    indexes and filters that queries use, each with an application to a concrete
    input. *)

From stdpp Require Import prelude list gmap strings.
From Stdlib Require Import ZArith Lia.
From S2P Require Import Prelude RustStd Error Value Doc DocFacts DocCodec DocAccess.
From S2P Require Import IndexKey Filter Schema StorageIndex Composite CompositeFacts Ledger CompositeManager.
From S2P Require Import StorageModels.

Local Open Scope Z_scope.
Local Open Scope hako_scope.

Section Props.
Context (to_lowercase : bytes → bytes).

(** The index key taken straight from stored bytes is the key of the decoded
    value, failures included, and compound values are declined: a value that was
    encoded into a document gets the key that [encode_scalar] gives it. *)
Theorem raw_key_agrees tag data :
  bytes_ok data →
  (tag = 8 ∨ tag = 9 → encode_raw_scalar tag data = None) ∧
  (tag ≠ 8 → tag ≠ 9 →
     encode_raw_scalar tag data = encode_scalar <$> decode_value tag data ∧
     ∀ v, encodable v = true → encode_value v = tag :: data → encode_raw_scalar tag data = Some (encode_scalar v)).
Proof.
  intros Hb. split; [by intros [-> | ->]|]. intros H8 H9.
  pose proof (encode_raw_scalar_decoded tag data Hb H8 H9) as E. split; [done|].
  intros v Hv Hev. by rewrite E, (decode_value_encoded v tag data Hv Hev).
Qed.

(** On values of comparable kinds that are not converted, the operators =,
    !=, <, <=, > and >= of a filter decide as the value order that sorting
    uses, and [NotIn] is the negation of [In]. *)
Theorem filter_matches_order a op b :
  plain_value a = true → plain_value b = true → coerced a b = false → order_op op = true →
  compare_values to_lowercase a op b = eval_ordering (value_cmp a b) op ∧
  compare_values to_lowercase a OpNotIn b = negb (compare_values to_lowercase a OpIn b).
Proof. intros. split; [by apply compare_values_order|apply not_in_negates]. Qed.

(** C35: A schema that passed [validate] accepts a document exactly when no rule
    rejects it.  An accepted document keeps its fields, gains only the declared
    defaults of missing ones, satisfies every rule, and is left alone by a
    second [apply]; a rejected one gets a violation that names a broken rule. *)
Theorem schema_enforced s c doc :
  validate s = Ok tt → doc_sorted doc →
  let '(doc', r) := apply s c doc in
  (r = Ok tt ↔ forallb (admissible doc) (s_fields s) = true) ∧
  (r = Ok tt → forallb (conforms doc') (s_fields s) = true ∧ apply s c doc' = (doc', Ok tt) ∧ _time doc' = _time doc ∧
     ∀ k, doc_get doc' k = filled (s_fields s) doc k) ∧
  (∀ e, r = Err e → ∃ rule expected, rule ∈ s_fields s ∧ admissible doc rule = false ∧
     e = SchemaViolation c (r_name rule) expected) ∧ r ≠ Panic.
Proof.
  intros Hv Hs. destruct (validate_loop_ok (s_fields s) [] Hv) as (Hnd & _ & Hdef).
  pose proof (apply_rules_spec c (s_fields s) doc Hs Hnd) as Hspec. unfold apply.
  destruct (apply_rules c (s_fields s) doc) as [doc' r]. destruct Hspec as (I1 & I2 & I3 & I4).
  split_and!; try done. intros Hr. destruct (I2 Hr) as (_ & Ht & Hf).
  assert (forallb (conforms doc') (s_fields s) = true) as Hc by (eapply filled_conforms; eauto; by apply I1).
  split_and!; try done. by apply apply_conforming.
Qed.

(** The tree of a composite index is the documents it was given: adding a
    document and removing one keep, in key order, exactly one row per document
    whose filter and tuple rules admit it, and indexing a batch is indexing its
    documents in turn. *)
Theorem composite_tracks_documents x docs id doc :
  indexed to_lowercase x docs → doc_fits (ci_definition x) id doc →
  (docs !! id = None → indexed to_lowercase (index_document to_lowercase x id doc) (<[id:=doc]> docs)) ∧
  (docs !! id = Some doc → indexed to_lowercase (remove_document to_lowercase x id doc) (base.delete id docs)) ∧
  (∀ ds, index_batch to_lowercase x ds = foldl (λ x d, index_document to_lowercase x d.1 d.2) x ds).
Proof.
  intros Hx Hd. split_and!.
  - intros Hn. by apply index_document_indexed.
  - intros Hs. by apply remove_document_indexed.
  - intros ds. apply index_batch_fold.
Qed.

(** An equality scan of a composite index on its first fields gives exactly
    the documents whose values there are the ones asked for, each once, and
    never aborts; with a limit and a direction it gives the first of them in
    that direction. *)
Theorem equality_scan_exact x docs ws limit reverse :
  indexed to_lowercase x docs → Forall value_ok ws → forallb scalar ws = true →
  (length ws <= length (d_fields (ci_definition x)))%nat →
  (∀ id, is_Some (docs !! id) → zlen id < 65280) →
  let r := build_prefix_range (ci_definition x) ws in
  ∃ ids, range_scan x (r_start r) (r_end r) = Ok ids ∧ NoDup ids ∧
    (∀ id, id ∈ ids ↔ ∃ doc vs, docs !! id = Some doc ∧ tuple_of to_lowercase (ci_definition x) id doc vs ∧
       norm <$> take (length ws) vs = norm <$> ws) ∧
    range_scan_limit x (r_start r) (r_end r) limit reverse = Ok (take limit (if reverse then rev ids else ids)).
Proof.
  intros Hx Hw Hs Hl Hid r. destruct (prefix_scan_spec to_lowercase x docs ws Hx Hw Hs Hl Hid) as (ids & Hr & Hnd & Hin).
  exists ids. split_and!; [done|done| |by apply range_scan_limit_spec].
  intros id. rewrite Hin. unfold tuple_of. naive_solver.
Qed.

(** C30: Whatever calls the index registry gets (creating, restoring, dropping and
    clearing indexes, backfills, imports of trees, documents written and removed), an
    exact-match lookup on the leading fields of an index of the collection uses such an
    index, and returns, without aborting, each document that this index holds and whose
    tuple starts with the values, once; it declines only when no index of the collection
    covers the fields.  An index holds what it was given, by writes and by backfills,
    since it was created or cleared, and was not told to remove.  Of an index that got
    another version of a document that it holds (the worker does not remove the old one
    first) nothing is claimed until it is cleared, nor of an imported tree that is not
    that of some documents. *)
Theorem registry_lookup_exact `{HashIterLaws} m G c fs ws :
  rtc (mg_step to_lowercase) (mg_empty, ∅) (m, G) →
  length fs = length ws → Forall value_ok ws → forallb scalar ws = true →
  match exact_match_doc_ids m c fs ws with
  | Some r => ∃ x, x ∈ indexes_for_collection m c ∧ covers fs x = true ∧
      ∀ docs, G !! d_id (ci_definition x) = Some docs → (∀ id, is_Some (docs !! id) → zlen id < 65280) →
      ∃ ids, r = Ok ids ∧ NoDup ids ∧ ∀ id, id ∈ ids ↔ ∃ doc vs, docs !! id = Some doc ∧ tuple_of to_lowercase (ci_definition x) id doc vs ∧
        norm <$> take (length ws) vs = norm <$> ws
  | None => ∀ x, x ∈ indexes_for_collection m c → covers fs x = false
  end.
Proof.
  intros Hr. apply exact_match_spec. exact (mirrors_steps to_lowercase _ _ Hr (mirrors_empty to_lowercase)).
Qed.

End Props.

(** A claim on a ready unique index is granted exactly when the tuple is
    free or already belongs to the document; granted, the document owns that
    tuple and no other, and no other document's claim moves; refused, the ledger
    and the undo list are untouched and the error names the owner. *)
Theorem claim_exclusive l i c p d u l' u' r :
  ledger_ok l → inner l !! i = Some c → claim l i p d u = (l', u', r) →
  ledger_ok l' ∧
  ((r = Ok tt ∧ (fwd c !! p = None ∨ fwd c !! p = Some d) ∧
    ∃ c', inner l' !! i = Some c' ∧ fwd c' !! p = Some d ∧ (∀ p', fwd c' !! p' = Some d → p' = p) ∧
      ∀ p' d', d' ≠ d → fwd c' !! p' = Some d' ↔ fwd c !! p' = Some d') ∨
   (∃ owner, owner ≠ d ∧ fwd c !! p = Some owner ∧ r = Err (UniqueViolation [] i owner) ∧ l' = l ∧ u' = u)).
Proof. intros Hl Hi Hc. split; [by eapply claim_ok|by eapply claim_cases]. Qed.

(** Rolling back the undo list of a batch restores every claim as it was
    before the batch, wherever the batch stopped. *)
Theorem rollback_restores_claims l ops l' undo r :
  ledger_ok l → run_batch l [] ops = (l', undo, r) → ledger_ok l' ∧ claims_of (rollback l' undo) = claims_of l.
Proof.
  intros Hl Hrun. destruct (run_batch_undo ops l [] l' undo r Hl Hrun) as (Hl' & new & -> & Hu).
  split; [done|]. by rewrite rollback_claims.
Qed.

(** The recovery fold of a unique index: on a ledger without claims for it,
    loading the tree succeeds exactly when no two documents have the same tuple,
    and the claims are then the documents' tuples. *)
Theorem recovery_fold to_lowercase x docs l i :
  indexed to_lowercase x docs → d_unique (ci_definition x) = true →
  (∀ id, is_Some (docs !! id) → zlen id < 2 ^ 16) →
  ledger_ok l → inner l !! i = None → pending l !! i = None →
  let '(l', r) := load_from_tree l i (tree x) in
  ledger_ok l' ∧
  (r = Ok (zlen (tree x)) ↔
     ∀ id id' doc doc' vs vs', docs !! id = Some doc → docs !! id' = Some doc' →
       tuple_of to_lowercase (ci_definition x) id doc vs → tuple_of to_lowercase (ci_definition x) id' doc' vs' →
       norm <$> vs = norm <$> vs' → id = id') ∧
  (r = Ok (zlen (tree x)) → ∃ c, inner l' !! i = Some c ∧
     ∀ p id, fwd c !! p = Some id ↔
       ∃ doc vs, docs !! id = Some doc ∧ tuple_of to_lowercase (ci_definition x) id doc vs ∧
         p = encode_composite_prefix (ci_definition x) vs).
Proof.
  intros Hx Hu Hid Hl Hi Hp. destruct (tree_rows to_lowercase x docs Hx Hid) as (fr & Hrows & Hnd & Hlen & Hin).
  pose proof (load_fresh l i (tree x) fr Hl Hi Hp Hrows Hnd) as Hload.
  destruct (load_from_tree l i (tree x)) as [l' r]. destruct Hload as (Hl' & Hok & Hc).
  replace (zlen (tree x)) with (zlen fr) by (unfold zlen; by rewrite Hlen).
  split_and!; [done| |].
  - rewrite <-Hok, NoDup_fst by (by eapply NoDup_fmap_1).
    destruct Hx as (_ & Hfit & _).
    assert (∀ id doc vs, docs !! id = Some doc → tuple_of to_lowercase (ci_definition x) id doc vs →
      Forall value_ok vs ∧ length vs = length (d_fields (ci_definition x)) ∧ forallb scalar vs = true) as Hvs.
    { intros id doc vs Hd [_ Hv]. split_and!; [by eapply Hfit|by eapply tuple_values_length|].
      unfold document_values_of in Hv. rewrite Hu in Hv. by eapply tuple_values_scalar. }
    split.
    + intros Hf id id' doc doc' vs vs' Hd Hd' Ht Ht' E.
      destruct (Hvs _ _ _ Hd Ht) as (V1 & V2 & V3), (Hvs _ _ _ Hd' Ht') as (W1 & W2 & W3).
      apply (Hf (encode_composite_prefix (ci_definition x) vs)); apply Hin; [by exists doc, vs|].
      exists doc', vs'. split_and!; try done. by apply composite_prefix_inj.
    + intros Hf p id id' (doc & vs & Hd & Ht & ->)%Hin (doc' & vs' & Hd' & Ht' & E)%Hin.
      destruct (Hvs _ _ _ Hd Ht) as (V1 & V2 & V3), (Hvs _ _ _ Hd' Ht') as (W1 & W2 & W3).
      eapply (Hf id id'); eauto. by apply composite_prefix_inj in E.
  - intros Hr. apply Hok in Hr. destruct (Hc Hr) as (c & Hi' & Hf). exists c. split; [done|].
    intros p id. by rewrite Hf, Hin.
Qed.

(** ** Applications *)

Definition demo_def : CompositeIndexDefinition :=
  mkDef 7 b#("users") [mkField b#("email") Asc; mkField b#("age") Desc] true false None.
Definition user (email : bytes) (age : Z) : HakoDoc := mkDoc [(b#("age"), Int age); (b#("email"), String email)] 1.
Definition demo_docs : gmap bytes HakoDoc := <[b#("u2") := user b#("b@x") 40]> (<[b#("u1") := user b#("a@x") 30]> ∅).
Definition demo_index : CompositeIndex :=
  index_document id (index_document id (ci_new demo_def) b#("u1") (user b#("a@x") 30)) b#("u2") (user b#("b@x") 40).

Lemma user_fits i email age : zlen email < 100 → is_i64 age → doc_fits demo_def i (user email age).
Proof.
  intros He Ha vs. unfold document_values_of, demo_def. cbn. intros [= <-]. pose proof (zlen_nonneg email).
  repeat constructor; cbn [value_ok]; unfold is_u32, is_i64 in *; lia.
Qed.

Lemma demo_indexed : indexed id demo_index demo_docs.
Proof.
  apply index_document_indexed; [apply index_document_indexed; [apply indexed_empty|done|]|done|];
    apply user_fits; done.
Qed.

Lemma demo_ids i : is_Some (demo_docs !! i) → zlen i < 65280.
Proof.
  unfold demo_docs. destruct (decide (i = b#("u2"))) as [->|H2]; [done|]. rewrite lookup_insert_ne by done.
  destruct (decide (i = b#("u1"))) as [->|H1]; [done|]. rewrite lookup_insert_ne, lookup_empty by done. by intros [? ?].
Qed.

Definition demo_claims : ClaimMap :=
  mkClaims {[ [1] := b#("u1"); [2] := b#("u2") ]} {[ b#("u1") := [1]; b#("u2") := [2] ]} ∅.
Definition demo_ledger : UniqueLedger := mkLedger {[ 7 := demo_claims ]} ∅.

Lemma demo_claims_ok : claims_ok demo_claims.
Proof.
  intros p d. unfold demo_claims. cbn [fwd by_doc]. rewrite !lookup_insert_Some, !lookup_singleton_Some. naive_solver.
Qed.

Lemma demo_ledger_ok : ledger_ok demo_ledger.
Proof. apply map_Forall_singleton, demo_claims_ok. Qed.

Lemma raw_key_agrees_witness :
  encode_raw_scalar 7 [1; 0; 0; 0; 24] = Some (6 :: i64_to_be 12) ∧ encode_raw_scalar 8 [0] = None.
Proof.
  assert (bytes_ok [1; 0; 0; 0; 24] ∧ bytes_ok [0]) as [Hb Hb'] by (split; apply forallb_byteb; reflexivity).
  split; [|apply (proj1 (raw_key_agrees 8 [0] Hb')); by left].
  destruct (proj2 (raw_key_agrees 7 [1; 0; 0; 0; 24] Hb) ltac:(done) ltac:(done)) as [_ H].
  rewrite (H (Timestamp 12)); reflexivity.
Defined.

Lemma filter_matches_order_witness :
  compare_values id (Int 3) OpLt (Int 4) = true ∧
  compare_values id (Int 3) OpNotIn (Array [Int 3]) = false.
Proof.
  split; [|reflexivity]. refine (eq_trans (proj1 (filter_matches_order id (Int 3) OpLt (Int 4) _ _ _ _)) _); reflexivity.
Defined.

Definition demo_schema : CollectionSchema :=
  mkSchema [mkRule b#("email") KString true None; mkRule b#("age") KInt false (Some (Int 18))].

Lemma schema_enforced_witness :
  let x := apply demo_schema b#("users") (mkDoc [(b#("email"), String b#("a@x"))] 1) in
  x.2 = Ok tt ∧ doc_get x.1 b#("age") = Some (Int 18).
Proof.
  assert (doc_sorted (mkDoc [(b#("email"), String b#("a@x"))] 1)) as Hs by (repeat constructor).
  pose proof (schema_enforced demo_schema b#("users") _ eq_refl Hs) as H.
  destruct (apply demo_schema b#("users") _) as [doc' r]. destruct H as (H1 & H2 & _). cbn [fst snd].
  assert (r = Ok tt) as Hr by (apply H1; reflexivity). split; [exact Hr|].
  destruct (H2 Hr) as (_ & _ & _ & Hf). rewrite Hf. reflexivity.
Defined.

Lemma composite_tracks_documents_witness :
  indexed id (index_document id demo_index b#("u3") (user b#("c@x") 50)) (<[b#("u3") := user b#("c@x") 50]> demo_docs) ∧
  indexed id (remove_document id demo_index b#("u2") (user b#("b@x") 40)) (base.delete b#("u2") demo_docs).
Proof.
  split.
  - apply (proj1 (composite_tracks_documents id demo_index demo_docs b#("u3") (user b#("c@x") 50) demo_indexed
      ltac:(by apply user_fits))). vm_compute. reflexivity.
  - apply (proj1 (proj2 (composite_tracks_documents id demo_index demo_docs b#("u2") (user b#("b@x") 40) demo_indexed
      ltac:(by apply user_fits)))). vm_compute. reflexivity.
Defined.

Lemma equality_scan_exact_witness :
  let r := build_prefix_range demo_def [String b#("b@x")] in
  ∃ ids, range_scan demo_index (r_start r) (r_end r) = Ok ids ∧ b#("u2") ∈ ids.
Proof.
  assert (Forall value_ok [String b#("b@x")]) as Hw by (repeat constructor; done).
  destruct (equality_scan_exact id demo_index demo_docs [String b#("b@x")] 1 false demo_indexed Hw eq_refl
    ltac:(apply Nat.leb_le; reflexivity) demo_ids) as (ids & Hr & _ & Hin & _).
  exists ids. split; [exact Hr|]. apply Hin. exists (user b#("b@x") 40), [String b#("b@x"); Int 40].
  split_and!; [vm_compute; reflexivity|split; vm_compute; reflexivity|reflexivity].
Defined.

(** An index over users of which u1 is there before it; u2 is written later, and once
    more by the backfill. *)
Definition u1 : bytes * HakoDoc := (b#("u1"), user b#("a@x") 30).
Definition u2 : bytes * HakoDoc := (b#("u2"), user b#("b@x") 40).
Definition demo_mgr : CompositeIndexManager :=
  mg_backfill id (mg_index_document id (create_index mg_empty demo_def).1 b#("users") u2.1 u2.2) 1 [u1; u2].
Definition demo_held : gmap bytes HakoDoc := <[u2.1 := u2.2]> (<[u1.1 := u1.2]> (<[u2.1 := u2.2]> ∅)).

Lemma with_id_fits n i email age : zlen email < 100 → is_i64 age → doc_fits (with_id n demo_def) i (user email age).
Proof. intros He Ha vs Hv. by apply (user_fits i email age). Qed.
Lemma demo_reachable : rtc (mg_step id) (mg_empty, ∅) (demo_mgr, {[ 1 := demo_held ]}).
Proof.
  apply (rtc_l _ _ ((create_index mg_empty demo_def).1, {[ 1 := ∅ ]})).
  { exact (step_create id mg_empty ∅ demo_def eq_refl). }
  apply (rtc_l _ _ (mg_index_document id (create_index mg_empty demo_def).1 b#("users") u2.1 u2.2, {[ 1 := <[u2.1 := u2.2]> ∅ ]})).
  { apply step_index. intros i docs' [<- <-]%lookup_singleton_Some. exists (ci_new (with_id 1 demo_def)), ∅.
    split; [reflexivity|]. split; [reflexivity|]. rewrite bool_decide_eq_true_2 by reflexivity.
    split; [by apply with_id_fits|]. split; [by left|reflexivity]. }
  apply rtc_once. pose proof (step_backfill id (mg_index_document id (create_index mg_empty demo_def).1 b#("users") u2.1 u2.2)
    {[ 1 := <[u2.1 := u2.2]> ∅ ]} 1 (index_document id (ci_new (with_id 1 demo_def)) u2.1 u2.2) [u1; u2] (<[u2.1 := u2.2]> ∅) demo_held) as Hst.
  rewrite insert_singleton_eq in Hst. apply Hst; [reflexivity|reflexivity|]. exists (<[u1.1 := u1.2]> (<[u2.1 := u2.2]> ∅)). split.
  - split; [by apply with_id_fits|]. split; [left; vm_compute; reflexivity|reflexivity].
  - exists demo_held. split; [|reflexivity]. split; [by apply with_id_fits|]. split; [right; vm_compute; reflexivity|reflexivity].
Qed.

Lemma registry_lookup_exact_witness :
  exact_match_doc_ids demo_mgr b#("users") [b#("email")] [String b#("a@x")] = Some (Ok [b#("u1")]) ∧
  ∃ x, x ∈ indexes_for_collection demo_mgr b#("users") ∧
    ∀ i, i ∈ [b#("u1")] ↔ ∃ doc vs, demo_held !! i = Some doc ∧ tuple_of id (ci_definition x) i doc vs ∧ norm <$> take 1 vs = [norm (String b#("a@x"))].
Proof.
  assert (Forall value_ok [String b#("a@x")]) as Hw by (repeat constructor; done).
  pose proof (registry_lookup_exact id demo_mgr {[ 1 := demo_held ]} b#("users") [b#("email")] [String b#("a@x")]
    demo_reachable eq_refl Hw eq_refl) as H.
  assert (exact_match_doc_ids demo_mgr b#("users") [b#("email")] [String b#("a@x")] = Some (Ok [b#("u1")])) as E
    by (vm_compute; reflexivity).
  split; [exact E|]. rewrite E in H. destruct H as (x & Hx & _ & H). exists x. split; [exact Hx|].
  assert (x ∈ [default (ci_new demo_def) (head (indexes_for_collection demo_mgr b#("users")))]) as Hx' by exact Hx.
  apply list_elem_of_singleton in Hx'. assert (d_id (ci_definition x) = 1) as Hid by (rewrite Hx'; vm_compute; reflexivity).
  destruct (H demo_held) as (ids & [= <-] & _ & Hin).
  - rewrite Hid. apply lookup_singleton_eq.
  - intros i [doc Hd]. unfold demo_held in Hd. rewrite !lookup_insert_Some in Hd. destruct Hd as [[<- _]|[_ [[<- _]|[_ [[<- _]|[_ Hd]]]]]]; [reflexivity..|].
    by rewrite lookup_empty in Hd.
  - exact Hin.
Defined.

Lemma claim_exclusive_witness :
  ledger_ok (claim demo_ledger 7 [3] b#("u1") []).1.1 ∧
  (claim demo_ledger 7 [2] b#("u1") []).2 = Err (UniqueViolation [] 7 b#("u2")).
Proof.
  split.
  - refine (proj1 (claim_exclusive demo_ledger 7 demo_claims [3] b#("u1") [] _ (claim demo_ledger 7 [3] b#("u1") []).1.2
      (claim demo_ledger 7 [3] b#("u1") []).2 demo_ledger_ok eq_refl _)). vm_compute. reflexivity.
  - vm_compute. reflexivity.
Defined.

Definition demo_ops : list LedgerOp := [DoRelease 7 b#("u2"); DoClaim 7 [2] b#("u1"); DoClaim 7 [2] b#("u3")].

Lemma rollback_restores_claims_witness :
  let '(l', undo, r) := run_batch demo_ledger [] demo_ops in
  r = Err (UniqueViolation [] 7 b#("u1")) ∧ claims_of (rollback l' undo) = claims_of demo_ledger.
Proof.
  destruct (run_batch demo_ledger [] demo_ops) as [[l' undo] r] eqn:E.
  split; [|exact (proj2 (rollback_restores_claims demo_ledger demo_ops l' undo r demo_ledger_ok E))].
  assert ((run_batch demo_ledger [] demo_ops).2 = Err (UniqueViolation [] 7 b#("u1"))) as Hr by (vm_compute; reflexivity).
  rewrite E in Hr. exact Hr.
Defined.

Lemma recovery_fold_witness :
  let '(l', r) := load_from_tree (mkLedger ∅ ∅) 7 (tree demo_index) in r = Ok 2 ∧ ledger_ok l'.
Proof.
  pose proof (recovery_fold id demo_index demo_docs (mkLedger ∅ ∅) 7 demo_indexed eq_refl) as H.
  assert ((load_from_tree (mkLedger ∅ ∅) 7 (tree demo_index)).2 = Ok 2) as Hr by (vm_compute; reflexivity).
  destruct (load_from_tree (mkLedger ∅ ∅) 7 (tree demo_index)) as [l' r]. split; [exact Hr|]. apply H.
  - intros i Hi. pose proof (demo_ids i Hi). lia.
  - apply map_Forall_empty.
  - reflexivity.
  - reflexivity.
Defined.

(** ** Corner cases *)

(** A rollback keeps the tombstone of a release that had no claim to undo, and
    drops one that the aborted claim cleared. *)
Lemma rollback_tombstones :
  let '(l', undo, _) := run_batch demo_ledger [] [DoRelease 7 b#("u9")] in
  freed <$> inner (rollback l' undo) !! 7 = Some {[ b#("u9") ]}.
Proof. vm_compute. reflexivity. Qed.

(** A violation in the merge of the fold leaves the rows merged before it. *)
Lemma fold_keeps_merged_rows :
  let l := mkLedger {[ 7 := mkClaims {[ [0; 0; 0; 7; 2] := b#("z") ]} {[ b#("z") := [0; 0; 0; 7; 2] ]} ∅ ]} ∅ in
  let '(l', r) := load_from_tree l 7 [([0; 0; 0; 7; 1; 0; 1; 120], [120]); ([0; 0; 0; 7; 2; 0; 1; 121], [121])] in
  r = Err (UniqueViolation [] 7 b#("z")) ∧
  (c ← inner l' !! 7; fwd c !! [0; 0; 0; 7; 1]) = Some [120].
Proof. vm_compute. done. Qed.
