(* ===== verification/Traverse.v ===== *)
(** * Graph backlinks (src/index/traverse.rs)

    Reverse edges into tracked collections: which field of which document refers
    to a document.  Indexing adds the references of a document, removal drops the
    edges it is part of; the lists are never left empty.  [HashMap]s are [gmap]s:
    the loops over one of them treat its entries independently. *)

From stdpp Require Import prelude list gmap strings.
From Stdlib Require Import ZArith Lia.
From S2P Require Import Prelude RustStd Error Value Doc.

Local Open Scope Z_scope.
Local Open Scope hako_scope.

Definition MAX_TRAVERSE_DEPTH : Z := 32.
Definition MAX_TRAVERSE_DEPTH_CAP : Z := 256.

Record Backlink := mkLink { src_col : bytes; src_id : bytes; bl_field : bytes }.
#[export] Instance Backlink_eq_dec : EqDecision Backlink.
Proof. solve_decision. Defined.

Record BacklinkIndex := mkLinks { tracked : gset bytes; edges : gmap bytes (gmap bytes (list Backlink)) }.

Definition track (b : BacklinkIndex) (c : bytes) : BacklinkIndex := mkLinks (tracked b ∪ {[c]}) (edges b).
Definition is_tracked (b : BacklinkIndex) (c : bytes) : bool := bool_decide (c ∈ tracked b).
Definition links_empty (b : BacklinkIndex) : bool := bool_decide (tracked b = ∅).

(** [inbound]. *)
Definition inbound (b : BacklinkIndex) (tgt_col tgt_id : bytes) : option (list Backlink) :=
  m ← edges b !! tgt_col; m !! tgt_id.

(** One field of [index_doc]: [entry(..).or_default()] and a push unless the
    edge is there. *)
Definition add_edge (b : BacklinkIndex) (tgt tid : bytes) (e : Backlink) : BacklinkIndex :=
  let m := default ∅ (edges b !! tgt) in
  let es := default [] (m !! tid) in
  mkLinks (tracked b) (<[tgt := <[tid := if bool_decide (e ∈ es) then es else es ++ [e]]> m]> (edges b)).
Definition index_field (src_c src_i : bytes) (b : BacklinkIndex) (kv : bytes * Value) : BacklinkIndex :=
  match kv.2 with
  | Reference tgt tid =>
      if bool_decide (tgt ∈ tracked b) then add_edge b tgt tid (mkLink src_c src_i kv.1) else b
  | _ => b
  end.

(** [index_doc]. *)
Definition index_doc (b : BacklinkIndex) (src_c src_i : bytes) (doc : HakoDoc) : BacklinkIndex :=
  if links_empty b then b else foldl (index_field src_c src_i) b (fields doc).

(** A map entry that became empty goes away. *)
Definition put_map (tgt : bytes) (m : gmap bytes (list Backlink)) (t : gmap bytes (gmap bytes (list Backlink))) :=
  if bool_decide (m = ∅) then base.delete tgt t else <[tgt := m]> t.

(** One reference of [remove_doc]. *)
Definition remove_ref (c i : bytes) (t : gmap bytes (gmap bytes (list Backlink))) (kv : bytes * Value) :=
  match kv.2 with
  | Reference tgt tid =>
      match t !! tgt with
      | None => t
      | Some m =>
          let m := match m !! tid with
                   | None => m
                   | Some es =>
                       match List.filter (λ e, negb (bytes_eqb (src_col e) c && bytes_eqb (src_id e) i)) es with
                       | [] => base.delete tid m
                       | es => <[tid := es]> m
                       end
                   end in
          put_map tgt m t
      end
  | _ => t
  end.

(** [remove_doc]. *)
Definition remove_doc (b : BacklinkIndex) (c i : bytes) (doc : HakoDoc) : BacklinkIndex :=
  if bool_decide (edges b = ∅) then b
  else
    let t := foldl (remove_ref c i) (edges b) (fields doc) in
    mkLinks (tracked b) (match t !! c with Some m => put_map c (base.delete i m) t | None => t end).

(** [clear_collection], [untrack]. *)
Definition clear_sources (c : bytes) (m : gmap bytes (list Backlink)) : option (gmap bytes (list Backlink)) :=
  let m := omap (λ es, match List.filter (λ e, negb (bytes_eqb (src_col e) c)) es with [] => None | es => Some es end) m in
  if bool_decide (m = ∅) then None else Some m.
Definition links_clear_collection (b : BacklinkIndex) (c : bytes) : BacklinkIndex :=
  mkLinks (tracked b) (omap (clear_sources c) (base.delete c (edges b))).
Definition untrack (b : BacklinkIndex) (c : bytes) : BacklinkIndex * bool :=
  (mkLinks (tracked b ∖ {[c]}) (edges (links_clear_collection b c)), is_tracked b c).

(** ** Traversal requests *)

Inductive TraverseDir := Outgoing | Incoming | BothDirs.
Definition dir_from_u32 (v : Z) : res TraverseDir :=
  if v =? 0 then Ok Outgoing else if v =? 1 then Ok Incoming else if v =? 2 then Ok BothDirs
  else Err (Corrupt "unknown traverse direction").
Definition uses_outgoing (d : TraverseDir) : bool := match d with Incoming => false | _ => true end.
Definition uses_incoming (d : TraverseDir) : bool := match d with Outgoing => false | _ => true end.

Record TraverseSpec := mkSpec {
  direction : TraverseDir;
  edge_field : option bytes;
  max_depth : Z;
  t_limit : Z;
  via_edge : option bytes;
  weight_field : option bytes;
  node_match : option (bytes * Value);
  edge_type : option (bytes * Value);
  edge_match : option (bytes * Value);
  include_path : bool;
  include_via : bool }.

(** [TraverseSpec::validate]. *)
Definition spec_validate (s : TraverseSpec) : res unit :=
  if (max_depth s =? 0) || (MAX_TRAVERSE_DEPTH_CAP <? max_depth s) then Err (Corrupt "traverse depth out of range")
  else if t_limit s =? 0 then Err (Corrupt "traverse limit must be >= 1")
  else Ok tt.

(** ** The edges as a relation *)

(** The edges into a document; an absent entry is an empty list. *)
Definition links_at (t : gmap bytes (gmap bytes (list Backlink))) (c i : bytes) : list Backlink :=
  default [] (default ∅ (t !! c) !! i).
Definition edge (b : BacklinkIndex) (c i : bytes) (e : Backlink) : Prop := e ∈ links_at (edges b) c i.

Definition edges_ok (t : gmap bytes (gmap bytes (list Backlink))) : Prop :=
  map_Forall (λ _ m, m ≠ ∅ ∧ map_Forall (λ _ es, es ≠ [] ∧ NoDup es) m) t.
Definition links_ok (b : BacklinkIndex) : Prop := edges_ok (edges b).

(** With no empty entries [inbound] is the list of edges, or [None] when there
    are none. *)
Lemma inbound_links b c i : links_ok b →
  inbound b c i = match links_at (edges b) c i with [] => None | es => Some es end.
Proof.
  intros Hb. unfold inbound, links_at. destruct (edges b !! c) as [m|] eqn:Hc; cbn [default from_option id mbind option_bind];
    [|by rewrite lookup_empty].
  destruct (Hb _ _ Hc) as [_ Hm]. destruct (m !! i) as [es|] eqn:Hi; cbn [from_option id]; [|done].
  destruct (Hm _ _ Hi) as [Hne _]. by destruct es.
Qed.

Lemma links_at_insert t c i es c' i' :
  links_at (<[c := <[i := es]> (default ∅ (t !! c))]> t) c' i' =
    if bool_decide (c' = c ∧ i' = i) then es else links_at t c' i'.
Proof.
  unfold links_at. destruct (decide (c' = c)) as [->|Hc].
  - rewrite lookup_insert_eq. cbn [default from_option id]. destruct (decide (i' = i)) as [->|Hi].
    + rewrite lookup_insert_eq. by rewrite bool_decide_true.
    + rewrite lookup_insert_ne by congruence. rewrite bool_decide_false by naive_solver. done.
  - rewrite lookup_insert_ne by congruence. by rewrite bool_decide_false by naive_solver.
Qed.

Lemma links_at_put c m t c' i' :
  links_at (put_map c m t) c' i' = if bool_decide (c' = c) then default [] (m !! i') else links_at t c' i'.
Proof.
  unfold put_map, links_at. destruct (decide (c' = c)) as [->|Hc].
  - rewrite (bool_decide_true (c = c)) by done. case_bool_decide as E; [|by rewrite lookup_insert_eq].
    subst m. by rewrite lookup_delete_eq.
  - rewrite (bool_decide_false (c' = c)) by done. case_bool_decide; [by rewrite lookup_delete_ne|by rewrite lookup_insert_ne].
Qed.

Lemma put_map_ok c m t : edges_ok t → map_Forall (λ _ es, es ≠ [] ∧ NoDup es) m → edges_ok (put_map c m t).
Proof.
  intros Ht Hm. unfold put_map. case_bool_decide as E; [by apply map_Forall_delete|]. by apply map_Forall_insert_2.
Qed.

Lemma edges_at_ok t c : edges_ok t → map_Forall (λ _ es, es ≠ [] ∧ NoDup es) (default ∅ (t !! c)).
Proof. intros Ht. destruct (t !! c) as [m|] eqn:E; [exact (proj2 (Ht _ _ E))|apply map_Forall_empty]. Qed.

Lemma links_at_ok t c i : edges_ok t → NoDup (links_at t c i).
Proof.
  intros Ht. unfold links_at. destruct (default ∅ (t !! c) !! i) as [es|] eqn:E; [|constructor].
  by destruct (edges_at_ok t c Ht _ _ E).
Qed.

(** ** Indexing *)

Lemma add_edge_ok b tgt tid e : links_ok b → links_ok (add_edge b tgt tid e).
Proof.
  intros Hb. pose proof (links_at_ok _ tgt tid Hb) as Hnd. apply map_Forall_insert_2; [|done]. split; [apply insert_non_empty|].
  apply map_Forall_insert_2; [|by apply edges_at_ok]. fold (links_at (edges b) tgt tid). case_bool_decide as E.
  - split; [|done]. intros E'. rewrite E' in E. by apply not_elem_of_nil in E.
  - split; [by destruct (links_at (edges b) tgt tid)|]. apply NoDup_app. split_and!; [done| |apply NoDup_singleton].
    intros x Hx ->%list_elem_of_singleton. done.
Qed.

Lemma add_edge_spec b tgt tid e c i e' :
  edge (add_edge b tgt tid e) c i e' ↔ edge b c i e' ∨ (c = tgt ∧ i = tid ∧ e' = e).
Proof.
  unfold edge, add_edge. cbn [edges]. rewrite links_at_insert. fold (links_at (edges b) tgt tid).
  case_bool_decide as E; [|naive_solver]. destruct E as [-> ->].
  case_bool_decide as E; [naive_solver|]. rewrite elem_of_app, list_elem_of_singleton. naive_solver.
Qed.

Lemma add_edge_tracked b tgt tid e : tracked (add_edge b tgt tid e) = tracked b.
Proof. done. Qed.

(** A document refers to another through a field. *)
Definition refers (doc : HakoDoc) (f t tid : bytes) : Prop := (f, Reference t tid) ∈ fields doc.

Lemma index_fields_spec sc si fs b :
  links_ok b →
  let b' := foldl (index_field sc si) b fs in
  links_ok b' ∧ tracked b' = tracked b ∧
  ∀ c i e, edge b' c i e ↔ edge b c i e ∨ (c ∈ tracked b ∧ ∃ f, (f, Reference c i) ∈ fs ∧ e = mkLink sc si f).
Proof.
  revert b; induction fs as [|[f v] fs IH]; intros b Hb; cbn [foldl].
  { split_and!; [done|done|]. intros c i e. split; [by left|]. intros [?|(_ & f & Hf & _)]; [done|by apply not_elem_of_nil in Hf]. }
  assert (∃ b1, index_field sc si b (f, v) = b1 ∧ links_ok b1 ∧ tracked b1 = tracked b ∧
    ∀ c i e, edge b1 c i e ↔ edge b c i e ∨ (c ∈ tracked b ∧ v = Reference c i ∧ e = mkLink sc si f)) as (b1 & -> & H1 & H2 & H3).
  { eexists. split; [done|]. unfold index_field. cbn [fst snd]. destruct v; try (split_and!; [done|done|naive_solver]).
    case_bool_decide; [|split_and!; [done|done|naive_solver]]. split_and!; [by apply add_edge_ok|done|].
    intros c i e. rewrite add_edge_spec. naive_solver. }
  destruct (IH b1 H1) as (I1 & I2 & I3). split_and!; [done|congruence|].
  intros c i e. rewrite I3, H3, H2. setoid_rewrite elem_of_cons. naive_solver.
Qed.

Lemma index_doc_spec b sc si doc :
  links_ok b →
  let b' := index_doc b sc si doc in
  links_ok b' ∧ tracked b' = tracked b ∧
  ∀ c i e, edge b' c i e ↔ edge b c i e ∨ (c ∈ tracked b ∧ ∃ f, refers doc f c i ∧ e = mkLink sc si f).
Proof.
  intros Hb. unfold index_doc. destruct (links_empty b) eqn:E; [|by apply index_fields_spec].
  apply bool_decide_eq_true in E. split_and!; [done|done|]. intros c i e. rewrite E. set_solver.
Qed.

(** ** Removal *)

Lemma remove_ref_spec c i t kv :
  edges_ok t →
  let t' := remove_ref c i t kv in
  edges_ok t' ∧ ∀ c' i' e, e ∈ links_at t' c' i' ↔
    e ∈ links_at t c' i' ∧ ¬ (kv.2 = Reference c' i' ∧ src_col e = c ∧ src_id e = i).
Proof.
  intros Ht. unfold remove_ref. destruct kv as [f v]. cbn [snd]. destruct v as [| | | | | | |tgt tid| | | |]; try (split; [done|]; naive_solver).
  destruct (t !! tgt) as [m|] eqn:Hm.
  2: { split; [done|]. intros c' i' e. split; [|by intros [? _]]. intros He. split; [done|]. intros ([= <- <-] & _).
       unfold links_at in He. rewrite Hm in He. cbn [default from_option] in He. rewrite lookup_empty in He.
       by apply not_elem_of_nil in He. }
  set (keep := λ e, negb (bytes_eqb (src_col e) c && bytes_eqb (src_id e) i)).
  assert (∀ e, keep e = true ↔ ¬ (src_col e = c ∧ src_id e = i)) as Hkeep.
  { intros e. unfold keep. rewrite negb_true_iff, andb_false_iff, <-!not_true_iff_false, !bytes_eqb_eq.
    destruct (decide (src_col e = c)), (decide (src_id e = i)); naive_solver. }
  assert (∀ es e, e ∈ List.filter keep es ↔ e ∈ es ∧ ¬ (src_col e = c ∧ src_id e = i)) as Hfilter.
  { intros es e. by rewrite !list_elem_of_In, filter_In, Hkeep. }
  destruct (Ht _ _ Hm) as [_ Hmok].
  assert (∀ i', links_at t tgt i' = default [] (m !! i')) as Hat by (intros i'; unfold links_at; by rewrite Hm).
  set (m' := match m !! tid with Some es => _ | None => m end).
  assert (map_Forall (λ _ es, es ≠ [] ∧ NoDup es) m' ∧ ∀ i' e, e ∈ default [] (m' !! i') ↔
    e ∈ default [] (m !! i') ∧ ¬ (i' = tid ∧ src_col e = c ∧ src_id e = i)) as [Hok Hel].
  { unfold m'. destruct (m !! tid) as [es|] eqn:Hes.
    - destruct (Hmok _ _ Hes) as [_ Hnd]. pose proof (Hfilter es) as Hf.
      assert (NoDup (List.filter keep es)) as Hnd' by (apply NoDup_ListNoDup, List.NoDup_filter, NoDup_ListNoDup; done).
      destruct (List.filter keep es) as [|x xs] eqn:Ef.
      + split; [by apply map_Forall_delete|]. intros i' e. destruct (decide (i' = tid)) as [->|Hne].
        * rewrite lookup_delete_eq, Hes. cbn [default from_option id]. rewrite Hf. naive_solver.
        * rewrite lookup_delete_ne by done. naive_solver.
      + split; [by apply map_Forall_insert_2|]. intros i' e. destruct (decide (i' = tid)) as [->|Hne].
        * rewrite lookup_insert_eq, Hes. cbn [default from_option id]. rewrite Hf. naive_solver.
        * rewrite lookup_insert_ne by done. naive_solver.
    - split; [done|]. intros i' e. split; [|by intros [? _]]. intros He. split; [done|]. intros (-> & _).
      rewrite Hes in He. by apply not_elem_of_nil in He. }
  split; [by apply put_map_ok|]. intros c' i' e. rewrite links_at_put. case_bool_decide as E; [subst c'; rewrite Hel, Hat; naive_solver|naive_solver].
Qed.

Lemma remove_refs_spec c i fs t :
  edges_ok t →
  let t' := foldl (remove_ref c i) t fs in
  edges_ok t' ∧ ∀ c' i' e, e ∈ links_at t' c' i' ↔
    e ∈ links_at t c' i' ∧ ¬ (src_col e = c ∧ src_id e = i ∧ ∃ f, (f, Reference c' i') ∈ fs).
Proof.
  revert t; induction fs as [|[f v] fs IH]; intros t Ht; cbn [foldl].
  { split; [done|]. intros c' i' e. split; [|by intros [? _]]. intros He. split; [done|]. intros (_ & _ & f & Hf).
    by apply not_elem_of_nil in Hf. }
  destruct (remove_ref_spec c i t (f, v) Ht) as [H1 H2]. destruct (IH _ H1) as [I1 I2]. split; [done|].
  intros c' i' e. rewrite I2, H2. cbn [snd]. setoid_rewrite elem_of_cons. naive_solver.
Qed.

Lemma remove_doc_spec b c i doc :
  links_ok b →
  let b' := remove_doc b c i doc in
  links_ok b' ∧ tracked b' = tracked b ∧
  ∀ c' i' e, edge b' c' i' e ↔
    edge b c' i' e ∧ ¬ (c' = c ∧ i' = i) ∧ ¬ (src_col e = c ∧ src_id e = i ∧ ∃ f, refers doc f c' i').
Proof.
  intros Hb. unfold remove_doc, edge. case_bool_decide as E.
  { split_and!; [done|done|]. intros c' i' e. unfold links_at. rewrite E, lookup_empty. cbn [default from_option].
    rewrite lookup_empty. cbn. rewrite elem_of_nil. naive_solver. }
  destruct (remove_refs_spec c i (fields doc) (edges b) Hb) as [H1 H2]. set (t := foldl _ _ _) in *.
  destruct (t !! c) as [m|] eqn:Hm; cbn [links_ok edges tracked].
  - split_and!; [|done|].
    + apply put_map_ok; [done|]. apply map_Forall_delete. exact (proj2 (H1 _ _ Hm)).
    + intros c' i' e. rewrite links_at_put. case_bool_decide as Ec.
      * subst c'. destruct (decide (i' = i)) as [->|Hi]; [rewrite lookup_delete_eq; cbn; rewrite elem_of_nil; naive_solver|].
        rewrite lookup_delete_ne by done. assert (links_at t c i' = default [] (m !! i')) as <- by (unfold links_at; by rewrite Hm).
        rewrite H2. unfold refers. naive_solver.
      * rewrite H2. unfold refers. naive_solver.
  - split_and!; [done|done|]. intros c' i' e. rewrite H2. unfold refers. split; [|naive_solver].
    intros [He Hn]. split_and!; [done| |done]. intros [-> ->].
    assert (e ∈ links_at t c i) as He' by (apply H2; naive_solver). unfold links_at in He'. rewrite Hm in He'.
    cbn [default from_option] in He'. rewrite lookup_empty in He'. by apply not_elem_of_nil in He'.
Qed.

Lemma links_clear_spec b c :
  links_ok b →
  let b' := links_clear_collection b c in
  links_ok b' ∧ ∀ c' i e, edge b' c' i e ↔ edge b c' i e ∧ c' ≠ c ∧ src_col e ≠ c.
Proof.
  intros Hb. set (keep := λ e, negb (bytes_eqb (src_col e) c)).
  assert (∀ es e, e ∈ List.filter keep es ↔ e ∈ es ∧ src_col e ≠ c) as Hf.
  { intros es e. unfold keep. rewrite !list_elem_of_In, filter_In, negb_true_iff, <-not_true_iff_false, bytes_eqb_eq. done. }
  assert (∀ es, NoDup es → NoDup (List.filter keep es)) as Hnd.
  { intros es ?. by apply NoDup_ListNoDup, List.NoDup_filter, NoDup_ListNoDup. }
  split.
  - intros t m. cbn [links_clear_collection edges]. rewrite lookup_omap.
    destruct (base.delete c (edges b) !! t) as [m0|] eqn:Hm0; [|done]. cbn [mbind option_bind]. unfold clear_sources.
    case_bool_decide as E; [done|]. intros [= <-]. split; [done|]. intros i es. rewrite lookup_omap.
    destruct (m0 !! i) as [es0|] eqn:Hes; [|done]. cbn [mbind option_bind]. fold keep.
    apply lookup_delete_Some in Hm0 as [_ Hm0]. destruct (proj2 (Hb _ _ Hm0) _ _ Hes) as [_ H0]. specialize (Hnd _ H0).
    destruct (List.filter keep es0); [done|]. by intros [= <-].
  - intros c' i e. unfold edge. cbn [links_clear_collection edges]. unfold links_at at 1. rewrite lookup_omap.
    destruct (decide (c' = c)) as [->|Hc].
    { rewrite lookup_delete_eq. cbn [mbind option_bind default from_option]. rewrite lookup_empty. cbn. rewrite elem_of_nil. naive_solver. }
    rewrite lookup_delete_ne by done. unfold links_at. destruct (edges b !! c') as [m0|]; cbn [mbind option_bind default from_option id].
    2: { rewrite lookup_empty. cbn. rewrite elem_of_nil. naive_solver. }
    transitivity (e ∈ default [] (List.filter keep <$> m0 !! i)).
    + unfold clear_sources. set (m1 := omap _ m0). transitivity (e ∈ default [] (m1 !! i)).
      * case_bool_decide as E; cbn [default from_option id]; [by rewrite E|done].
      * unfold m1. rewrite lookup_omap. destruct (m0 !! i) as [es|]; [|done]. cbn [mbind option_bind fmap option_fmap option_map]. fold keep.
        by destruct (List.filter keep es).
    + destruct (m0 !! i) as [es|]; cbn [fmap option_fmap option_map default from_option id]; [rewrite Hf|rewrite elem_of_nil]; naive_solver.
Qed.

(** Deleting a document drops the edges into it, and putting it back does not
    bring them back: the documents that still refer to it are not seen. *)
Lemma recreated_target_loses_backlinks :
  let a := mkDoc [(b#("ref"), Reference b#("c") b#("b"))] 1 in
  let b0 := index_doc (track (mkLinks ∅ ∅) b#("c")) b#("c") b#("a") a in
  let b1 := index_doc (remove_doc b0 b#("c") b#("b") (mkDoc [] 1)) b#("c") b#("b") (mkDoc [] 2) in
  inbound b0 b#("c") b#("b") = Some [mkLink b#("c") b#("a") b#("ref")] ∧ inbound b1 b#("c") b#("b") = None.
Proof. vm_compute. done. Qed.
