(* ===== verification/Query.v ===== *)
(** * Queries and plans (src/query/query.rs, order.rs, plan.rs, builder.rs)

    A query as the application states it, the plan that answers it, the labels
    of a plan, and the projection an index can answer alone.  Row counts ([usize])
    are [nat]s; their sums are taken not to overflow. *)

From stdpp Require Import prelude list strings.
From Stdlib Require Import ZArith Lia.
From S2P Require Import Prelude RustStd Error Value Doc Filter Composite Traverse.

Local Open Scope Z_scope.
Local Open Scope hako_scope.

(** ** Queries *)

Record OrderBy := mkOrder { o_field : bytes; ascending : bool }.
Record ElemMatch := mkElem { em_field : bytes; em_filters : list Filter }.
Inductive AggregateOp :=
| ACount | ASum (field : bytes) | AAvg (field : bytes) | AMin (field : bytes) | AMax (field : bytes).

Record Query := mkQuery {
  q_collection : bytes;
  q_filters : list Filter;
  q_or_groups : list (list Filter);
  q_elem_match : list ElemMatch;
  q_order_by : list OrderBy;
  q_limit : option nat;
  q_offset : option nat;
  q_projection : list bytes;
  q_aggregations : list AggregateOp;
  q_start_at : option (list Value);
  q_start_after : option (list Value);
  q_end_at : option (list Value);
  q_end_before : option (list Value);
  q_defer_blobs : bool;
  q_raw : bool }.

(** [Query::new] and the fluent methods. *)
Definition query_new (collection : bytes) : Query :=
  mkQuery collection [] [] [] [] None None [] [] None None None None false false.
Definition where_filter (q : Query) (field : bytes) (op : Operator) (value : Value) : Query :=
  mkQuery (q_collection q) (q_filters q ++ [mkFilter field op value]) (q_or_groups q) (q_elem_match q) (q_order_by q)
    (q_limit q) (q_offset q) (q_projection q) (q_aggregations q) (q_start_at q) (q_start_after q) (q_end_at q)
    (q_end_before q) (q_defer_blobs q) (q_raw q).
Definition where_eq (q : Query) (field : bytes) (value : Value) : Query := where_filter q field OpEq value.
Definition order_by (q : Query) (field : bytes) (asc : bool) : Query :=
  mkQuery (q_collection q) (q_filters q) (q_or_groups q) (q_elem_match q) (q_order_by q ++ [mkOrder field asc])
    (q_limit q) (q_offset q) (q_projection q) (q_aggregations q) (q_start_at q) (q_start_after q) (q_end_at q)
    (q_end_before q) (q_defer_blobs q) (q_raw q).
Definition limit (q : Query) (n : nat) : Query :=
  mkQuery (q_collection q) (q_filters q) (q_or_groups q) (q_elem_match q) (q_order_by q) (Some n) (q_offset q)
    (q_projection q) (q_aggregations q) (q_start_at q) (q_start_after q) (q_end_at q) (q_end_before q)
    (q_defer_blobs q) (q_raw q).
Definition or_where (q : Query) (field : bytes) (op : Operator) (value : Value) : Query :=
  mkQuery (q_collection q) (q_filters q) (q_or_groups q ++ [[mkFilter field op value]]) (q_elem_match q) (q_order_by q)
    (q_limit q) (q_offset q) (q_projection q) (q_aggregations q) (q_start_at q) (q_start_after q) (q_end_at q)
    (q_end_before q) (q_defer_blobs q) (q_raw q).
Definition composite_fields (q : Query) : list bytes := f_field <$> q_filters q.

(** [matches_index] of composite_matcher.rs. *)
Definition matches_index (q : Query) (def : CompositeIndexDefinition) : bool :=
  if (length (d_fields def) <? length (q_filters q))%nat then false
  else forallb (λ '(f, c), bytes_eqb (f_field f) (cf_field c)) (zip (q_filters q) (d_fields def)).

(** [traverse_marker]: a traversal request as a filter, the anchor collection in
    its field and the walk in a map. *)
Definition dir_number (d : TraverseDir) : Z :=
  match d with Outgoing => 0 | Incoming => 1 | BothDirs => 2 end.
Definition opt_pair (key : bytes) (v : option bytes) : list (bytes * Value) :=
  match v with Some s => [(key, String s)] | None => [] end.
Definition traverse_marker (start_col start_id : bytes) (direction : TraverseDir) (edge_field : option bytes)
    (max_depth : Z) (via_edge weight_field : option bytes) : Filter :=
  mkFilter start_col OpTraverse
    (Map ([(b#("id"), String start_id); (b#("dir"), Int (dir_number direction)); (b#("depth"), Int (as_i64 max_depth))] ++
          opt_pair b#("edge") edge_field ++ opt_pair b#("via") via_edge ++ opt_pair b#("weight") weight_field)).

(** ** Plans *)

Inductive Bound (A : Type) := Included (a : A) | Excluded (a : A) | Unbounded.
Arguments Included {A}. Arguments Excluded {A}. Arguments Unbounded {A}.

Inductive Metric := Cosine | L2 | InnerProduct.
Definition metric_from_u32 (v : Z) : res Metric :=
  if v =? 0 then Ok Cosine else if v =? 1 then Ok L2 else if v =? 2 then Ok InnerProduct
  else Err (Corrupt "unknown vector metric").

Inductive ScanType :=
| FullCollection
| SortedKeys (start_key : option bytes) (start_exclusive reverse : bool)
| CompositeIndex (index_id : Z) (fields : list bytes) (values : list Value) (reverse : bool)
| CompositeIndexRange (index_id : Z) (ranges : list (Bound bytes * Bound bytes)) (reverse : bool)
| SecondaryIndexRange (field : bytes) (start end_ : Bound bytes) (reverse : bool)
| SecondaryIndex (field : bytes) (value : bytes)
| UnionIndex (scans : list ScanType)
| InvertedIndex (field query : bytes) (prefix : bool)
| VectorKnn (field query : bytes) (metric : Metric) (extra : list Filter)
| Traverse (start_col start_id : bytes) (spec : TraverseSpec) (extra : list Filter)
| CursorIndex (start end_ : Bound bytes) (index_id : Z) (reverse : bool).

Record QueryPlan := mkPlan {
  p_collection : bytes;
  scan : ScanType;
  p_filters : list Filter;
  or_groups : list (list Filter);
  elem_match : list ElemMatch;
  p_order_by : list OrderBy;
  p_limit : option nat;
  p_offset : option nat;
  projection : list bytes;
  scan_limit : option nat;
  order_by_satisfied : bool;
  filters_satisfied_by_index : bool;
  defer_blobs : bool;
  p_raw : bool;
  has_cursor_bounds : bool }.

(** [slice::join]. *)
Fixpoint join (sep : bytes) (parts : list bytes) : bytes :=
  match parts with
  | [] => []
  | [p] => p
  | p :: parts => p ++ sep ++ join sep parts
  end.

(** [ScanType::describe], [index_label]. *)
Fixpoint describe (s : ScanType) : bytes :=
  match s with
  | FullCollection => b#("full_collection")
  | SortedKeys _ _ _ => b#("sorted_keys")
  | CompositeIndex _ fields _ _ => b#("composite_index(") ++ join b#(",") fields ++ b#(")")
  | CompositeIndexRange index_id _ _ => b#("composite_index_range(") ++ int_to_string index_id ++ b#(")")
  | SecondaryIndex field _ => b#("secondary_index(") ++ field ++ b#(")")
  | SecondaryIndexRange field _ _ _ => b#("secondary_index_range(") ++ field ++ b#(")")
  | UnionIndex scans => b#("union(") ++ join b#("|") (describe <$> scans) ++ b#(")")
  | InvertedIndex field _ _ => b#("inverted_index(") ++ field ++ b#(")")
  | VectorKnn field _ _ _ => b#("vector_knn(") ++ field ++ b#(")")
  | Traverse _ _ _ _ => b#("traverse")
  | CursorIndex _ _ index_id _ => b#("cursor_index(") ++ int_to_string index_id ++ b#(")")
  end.
Definition index_label (s : ScanType) : option bytes :=
  match s with
  | FullCollection | SortedKeys _ _ _ | Traverse _ _ _ _ => None
  | other => Some (describe other)
  end.

Definition has_dot (s : bytes) : bool := existsb (Z.eqb 46) s.

(** The value a plan gives to one projected path, if it gives one. *)
Definition covered_value (p : QueryPlan) (path : bytes) : option Value :=
  match scan p with
  | CompositeIndex _ fields values _ =>
      '(pos, _) ← list_find (λ f, bytes_eqb f path = true) fields;
      values !! pos
  | SecondaryIndex field _ =>
      if negb (bytes_eqb field path) then None
      else match List.filter (λ f, bytes_eqb (f_field f) field && bool_decide (f_op f = OpEq)) (p_filters p) with
           | [f] => Some (f_value f)
           | _ => None
           end
  | _ => None
  end.

(** [QueryPlan::covering_projection]. *)
Fixpoint cover_paths (p : QueryPlan) (paths : list bytes) : option (list (bytes * Value)) :=
  match paths with
  | [] => Some []
  | path :: paths =>
      if bytes_eqb path b#("id") then _ ← index_label (scan p); cover_paths p paths
      else if has_dot path then None
      else v ← covered_value p path; out ← cover_paths p paths; Some ((path, v) :: out)
  end.
Definition covering_projection (p : QueryPlan) : option (list (bytes * Value)) :=
  if negb (filters_satisfied_by_index p) || negb (order_by_satisfied p) || has_cursor_bounds p || p_raw p ||
     bool_decide (projection p = []) || negb (bool_decide (length (elem_match p) = 0%nat))
  then None
  else cover_paths p (projection p).
