(* ===== verification/Matcher.v ===== *)
(** * Row matching (src/query/executor/worker.rs, scheduler.rs)

    A stored row is matched against a plan on its encoded bytes: the metadata
    filters first, then a byte comparison where every open filter is an equality
    on a canonically encoded kind, then the decoded fields, the dotted paths and
    the element clauses.  The match flags of a row are two lists of booleans, one
    per filter and one per group, that only ever gain a [true]. *)

From stdpp Require Import prelude list strings.
From Stdlib Require Import ZArith Lia.
From S2P Require Import Prelude RustStd Varint Value Doc DocFacts DocCodec DocAccess Filter Composite Query.

Local Open Scope Z_scope.
Local Open Scope hako_scope.

(** [byte_safe]: kinds whose encoding is canonical. *)
Definition byte_safe (v : Value) : bool :=
  match v with Float _ | Map _ | Array _ => false | _ => true end.

(** [doc_has_links]. *)
Definition doc_has_links (d : HakoDoc) : bool :=
  existsb (λ kv, match kv.2 with BlobLink _ _ => true | _ => false end) (fields d).

(** [prepare_optimized_plan]: a number against the virtual field [id] is
    compared as its text. *)
Definition stringify_id (f : Filter) : Filter :=
  if bytes_eqb (f_field f) b#("id") then
    match f_value f with
    | Int i => mkFilter (f_field f) (f_op f) (String (int_to_string i))
    | Float b => mkFilter (f_field f) (f_op f) (String (f64_to_string b))
    | _ => f
    end
  else f.
Definition prepare_optimized_plan (p : QueryPlan) : QueryPlan :=
  mkPlan (p_collection p) (scan p) (map stringify_id (p_filters p)) (map (map stringify_id) (or_groups p)) (elem_match p)
    (p_order_by p) (p_limit p) (p_offset p) (projection p) (scan_limit p) (order_by_satisfied p)
    (filters_satisfied_by_index p) (defer_blobs p) (p_raw p) (has_cursor_bounds p).

Section Match.
Context (to_lowercase : bytes → bytes).
Abbreviation cmp := (compare_values to_lowercase).

Definition filter_holds (v : Value) (f : Filter) : bool := cmp v (f_op f) (f_value f).

(** ** Metadata *)

Definition is_string (s : bytes) (v : Value) : bool := match v with String t => bytes_eqb t s | _ => false end.

(** [compare_default_filter], [matches_id_flexible]. *)
Definition compare_default_filter (doc_id : bytes) (op : Operator) (filter_val : Value) : bool :=
  cmp (String doc_id) op filter_val.
Definition matches_id_flexible (doc_id : bytes) (op : Operator) (filter_val : Value) : bool :=
  match filter_val with
  | String s =>
      match op with
      | OpEq => bytes_eqb doc_id s
      | OpNe => negb (bytes_eqb doc_id s)
      | OpStartsWith => starts_with doc_id s
      | _ => compare_default_filter doc_id op filter_val
      end
  | Array items =>
      match op with
      | OpIn => existsb (is_string doc_id) items
      | OpNotIn => negb (existsb (is_string doc_id) items)
      | _ => compare_default_filter doc_id op filter_val
      end
  | _ => compare_default_filter doc_id op filter_val
  end.

(** The verdict on a filter over a virtual field; [None] for a body field. *)
Definition meta_verdict (doc_id : bytes) (doc_time : Z) (f : Filter) : option bool :=
  if bytes_eqb (f_field f) b#("id") then Some (matches_id_flexible doc_id (f_op f) (f_value f))
  else if bytes_eqb (f_field f) b#("_time") then Some (filter_holds (Int doc_time) f)
  else None.

(** [check_metadata_filters]: [None] is the early exit on a failed filter. *)
Fixpoint meta_and (doc_id : bytes) (doc_time : Z) (fs : list Filter) (ms : list bool) : option (list bool) :=
  match fs, ms with
  | f :: fs, m :: ms =>
      match meta_verdict doc_id doc_time f with
      | Some true => cons true <$> meta_and doc_id doc_time fs ms
      | Some false => None
      | None => cons m <$> meta_and doc_id doc_time fs ms
      end
  | _, ms => Some ms
  end.
Definition meta_matched (doc_id : bytes) (doc_time : Z) (f : Filter) : bool :=
  default false (meta_verdict doc_id doc_time f).
Definition check_metadata_filters (doc_id : bytes) (doc_time : Z) (p : QueryPlan) (ands ors : list bool)
  : option (list bool * list bool) :=
  ands ← meta_and doc_id doc_time (p_filters p) ands;
  Some (ands, zip_with (λ g m, m || existsb (meta_matched doc_id doc_time) g) (or_groups p) ors).

(** ** Flags *)

(** One round over the filters and the groups: an open flag is set when the
    test holds. *)
Definition mark_ands (test : Filter → bool) (p : QueryPlan) (ands : list bool) : list bool :=
  zip_with (λ f m, m || test f) (p_filters p) ands.
Definition mark_ors (test : Filter → bool) (p : QueryPlan) (ors : list bool) : list bool :=
  zip_with (λ g m, m || existsb test g) (or_groups p) ors.

(** [apply_filter_logic]. *)
Definition field_test (key : bytes) (v : Value) (f : Filter) : bool :=
  bytes_eqb key (f_field f) && filter_holds v f.
Definition apply_filter_logic (key : bytes) (v : Value) (p : QueryPlan) (ands ors : list bool) : list bool * list bool :=
  (mark_ands (field_test key v) p ands, mark_ors (field_test key v) p ors).

(** [validate_final_match]. *)
Definition validate_final_match (p : QueryPlan) (ands ors : list bool) : bool :=
  (bool_decide (length (p_filters p) = 0%nat) || forallb id ands) &&
  (bool_decide (length (or_groups p) = 0%nat) || existsb id ors).

(** [apply_dotted_filters]. *)
Definition dotted_test (v : HakoDocView) (f : Filter) : bool :=
  has_dot (f_field f) &&
  match docview_get_path v (f_field f) with Some x => filter_holds x f | None => false end.
Definition apply_dotted_filters (v : HakoDocView) (p : QueryPlan) (ands ors : list bool) : list bool * list bool :=
  if negb (existsb (λ f, has_dot (f_field f)) (p_filters p)) &&
     negb (existsb (existsb (λ f, has_dot (f_field f))) (or_groups p))
  then (ands, ors)
  else (mark_ands (dotted_test v) p ands, mark_ors (dotted_test v) p ors).

(** ** Element clauses *)

(** [value_path]. *)
Definition value_path (v : Value) (path : bytes) : option Value :=
  if bool_decide (path = []) then Some v else descend v (split_dot path).

(** An element satisfies every sub-filter. *)
Definition elem_holds (fs : list Filter) (elem : Value) : bool :=
  forallb (λ f, match value_path elem (f_field f) with Some v => filter_holds v f | None => false end) fs.

(** [elem_match_pass]. *)
Definition elem_match_pass (v : HakoDocView) (p : QueryPlan) : bool :=
  forallb (λ c, match docview_get_path v (em_field c) with
                | Some (Array items) => existsb (elem_holds (em_filters c)) items
                | _ => false
                end) (elem_match p).

(** ** The matchers *)

(** The byte comparison of the fast pass. *)
Definition byte_hit (key : bytes) (tag : Z) (data : bytes) (f : Filter) : bool :=
  bytes_eqb key (f_field f) &&
  match encode_value (f_value f) with
  | t :: d => (t =? tag) && bytes_eqb d data
  | [] => false
  end && bool_decide (f_op f = OpEq).
Fixpoint fast_eligible (fs : list Filter) (ands : list bool) : bool :=
  match fs, ands with
  | f :: fs, m :: ands =>
      (m || bytes_eqb (f_field f) b#("id") || bytes_eqb (f_field f) b#("_time") ||
       (bool_decide (f_op f = OpEq) && byte_safe (f_value f))) && fast_eligible fs ands
  | _, _ => true
  end.

(** The body scan of [unified_match_decode]: decode every field and, while the
    row is not verified, let it set flags. *)
Fixpoint body_scan (verified : bool) (p : QueryPlan) (items : list (bytes * Z * bytes)) (ands ors : list bool)
  : option (list (bytes * Value) * (list bool * list bool)) :=
  match items with
  | [] => Some ([], (ands, ors))
  | (key, tag, data) :: items =>
      val ← decode_value tag data;
      let '(ands, ors) := if verified then (ands, ors) else apply_filter_logic key val p ands ors in
      '(fs, flags) ← body_scan verified p items ands ors;
      Some ((key, val) :: fs, flags)
  end.

(** [unified_match_decode]. *)
Definition fast_pass (v : HakoDocView) (p : QueryPlan) (ands : list bool) : list bool :=
  foldl (λ ands '(key, tag, data), mark_ands (byte_hit key tag data) p ands) ands (iter_all false (view_iter v)).1.
Definition unified_match_decode (doc_id b : bytes) (p : QueryPlan) : option HakoDoc :=
  view ← view_new b;
  '(ands, ors) ← check_metadata_filters doc_id (v_time view) p
                   (replicate (length (p_filters p)) false) (replicate (length (or_groups p)) false);
  let fast := bool_decide (length (or_groups p) = 0%nat) && fast_eligible (p_filters p) ands in
  let '(ands, ors, verified) :=
    if fast then
      let ands := fast_pass view p ands in
      if validate_final_match p ands ors then (ands, ors, true)
      else let '(ands, ors) := apply_dotted_filters view p ands ors in (ands, ors, validate_final_match p ands ors)
    else (ands, ors, false) in
  '(fs, (ands, ors)) ← body_scan verified p (iter_all true (view_iter view)).1 ands ors;
  let verified :=
    (verified || let '(ands, ors) := apply_dotted_filters view p ands ors in validate_final_match p ands ors) &&
    elem_match_pass view p in
  if verified then Some (mkDoc fs (v_time view)) else None.

(** [unified_match_projected]: decode what a filter or the projection needs. *)
Fixpoint projected_scan (p : QueryPlan) (prefixes : list bytes) (items : list (bytes * Z * bytes)) (ands ors : list bool)
  : option (list (bytes * Value) * (list bool * list bool)) :=
  match items with
  | [] => Some ([], (ands, ors))
  | (key, tag, data) :: items =>
      let for_filter := existsb (λ f, bytes_eqb (f_field f) key) (p_filters p) ||
                        existsb (existsb (λ f, bytes_eqb (f_field f) key)) (or_groups p) in
      let for_proj := bool_decide (key ∈ prefixes) in
      if for_filter || for_proj then
        val ← decode_value tag data;
        let '(ands, ors) := apply_filter_logic key val p ands ors in
        '(out, flags) ← projected_scan p prefixes items ands ors;
        Some (match (if for_proj then prune_field_value val (projection p) key else None) with
              | Some pruned => (key, pruned) :: out
              | None => out
              end, flags)
      else projected_scan p prefixes items ands ors
  end.
Definition unified_match_projected (doc_id b : bytes) (p : QueryPlan) : option (list (bytes * Value)) :=
  view ← view_new b;
  '(ands, ors) ← check_metadata_filters doc_id (v_time view) p
                   (replicate (length (p_filters p)) false) (replicate (length (or_groups p)) false);
  '(extracted, (ands, ors)) ← projected_scan p (projection_prefixes (projection p)) (iter_all true (view_iter view)).1 ands ors;
  let '(ands, ors) := apply_dotted_filters view p ands ors in
  if validate_final_match p ands ors && elem_match_pass view p then Some extracted else None.

(** [compare_raw_bytes]: the value of a span, without the general decoder where
    the tag is simple.  [&data[..len]] of a short span aborts; the iterator
    yields whole spans only. *)
Definition raw_value (tag : Z) (data : bytes) : option Value :=
  if tag =? 0xC0 then Some Null
  else if tag =? 0xC2 then Some (Bool true)
  else if tag =? 0xC3 then Some (Bool false)
  else if tag_is_small_int tag then Some (Int (Z.land tag 0x0F))
  else if tag_is_small_str tag then String <$> (get_range data 0 (Z.land tag 0x07) ≫= from_utf8)
  else if zlen data <? 4 then None
  else
    let body := drop 4 data in
    if (tag =? 3) || (tag =? 7) then
      '(v, _) ← decode_varint body 0;
      Some (if tag =? 3 then Int (zigzag_decode v) else Timestamp (zigzag_decode v))
    else if tag =? 4 then Float <$> (of_le <$> get_range body 0 8)
    else if tag =? 5 then
      v_len ← of_le <$> get_range data 0 4;
      String <$> (get_range body 0 v_len ≫= from_utf8)
    else if tag =? 6 then
      v_len ← of_le <$> get_range data 0 4;
      Binary <$> get_range body 0 v_len
    else decode_value tag data.
Definition compare_raw_bytes (tag : Z) (data : bytes) (op : Operator) (b : Value) : bool :=
  match raw_value tag data with Some v => cmp v op b | None => false end.

(** [matches_filters_view].  [&bytes[2..10]] of a row shorter than ten bytes
    aborts: [None]. *)
Definition raw_test (key : bytes) (tag : Z) (data : bytes) (f : Filter) : bool :=
  bytes_eqb key (f_field f) && compare_raw_bytes tag data (f_op f) (f_value f).
Definition view_scan (p : QueryPlan) (items : list (bytes * Z * bytes)) (ands ors : list bool) : list bool * list bool :=
  foldl (λ '(ands, ors) '(key, tag, data), (mark_ands (raw_test key tag data) p ands, mark_ors (raw_test key tag data) p ors))
    (ands, ors) items.
Definition matches_filters_view (doc_id b : bytes) (p : QueryPlan) : option bool :=
  doc_time ← i64_of_le <$> get_range b 2 10;
  Some
    match check_metadata_filters doc_id doc_time p
            (replicate (length (p_filters p)) false) (replicate (length (or_groups p)) false) with
    | None => false
    | Some (ands, ors) =>
        match view_new b with
        | None => false
        | Some view =>
            let '(ands, ors) := view_scan p (iter_all true (view_iter view)).1 ands ors in
            let '(ands, ors) := apply_dotted_filters view p ands ors in
            validate_final_match p ands ors && elem_match_pass view p
        end
    end.
End Match.
