(* ===== verification/MatcherFacts.v ===== *)
(** * What the matchers decide

    The verdict on a decoded document, and that the three matchers over encoded
    rows agree with it. *)

From stdpp Require Import prelude list strings.
From Stdlib Require Import ZArith Lia.
From S2P Require Import Prelude RustStd Varint Value Doc DocFacts DocCodec DocAccess Filter Composite Query Matcher.

Local Open Scope Z_scope.
Local Open Scope hako_scope.

Section Verdict.
Context (to_lowercase : bytes → bytes).
Abbreviation holds := (filter_holds to_lowercase).

(** ** The verdict *)

Definition value_holds (v : option Value) (f : Filter) : bool :=
  match v with Some v => holds v f | None => false end.

(** A filter on the body: the field of that very name, or the dotted path. *)
Definition body_holds (d : HakoDoc) (f : Filter) : bool :=
  value_holds (doc_get d (f_field f)) f || (has_dot (f_field f) && value_holds (get_path d (f_field f)) f).
(** A virtual field of a conjunct shadows the body; in a group either will do. *)
Definition and_holds (doc_id : bytes) (d : HakoDoc) (f : Filter) : bool :=
  match meta_verdict to_lowercase doc_id (_time d) f with Some b => b | None => body_holds d f end.
Definition or_holds (doc_id : bytes) (d : HakoDoc) (f : Filter) : bool :=
  meta_matched to_lowercase doc_id (_time d) f || body_holds d f.
Definition elem_clause (d : HakoDoc) (c : ElemMatch) : bool :=
  match get_path d (em_field c) with
  | Some (Array items) => existsb (elem_holds to_lowercase (em_filters c)) items
  | _ => false
  end.
Definition doc_matches (doc_id : bytes) (d : HakoDoc) (p : QueryPlan) : bool :=
  forallb (and_holds doc_id d) (p_filters p) &&
  (bool_decide (length (or_groups p) = 0%nat) || existsb (existsb (or_holds doc_id d)) (or_groups p)) &&
  forallb (elem_clause d) (elem_match p).

(** The filter values are values the encoder can write. *)
Definition filter_ok (f : Filter) : bool := encodable (f_value f).

(** ** Flags as tests *)

(** The flags that a test of filters sets. *)
Definition flags (p : QueryPlan) (g : Filter → bool) : list bool * list bool :=
  (map g (p_filters p), map (existsb g) (or_groups p)).

Lemma zip_with_map {A} (t g : A → bool) (l : list A) : zip_with (λ f m, m || t f) l (map g l) = map (λ f, g f || t f) l.
Proof. induction l as [|x l IH]; [done|]. cbn [map zip_with]. by rewrite IH. Qed.
Lemma existsb_orb {A} (g t : A → bool) l : existsb g l || existsb t l = existsb (λ f, g f || t f) l.
Proof.
  induction l as [|x l IH]; [done|]. cbn [existsb]. rewrite <-IH.
  by destruct (g x), (t x), (existsb g l), (existsb t l).
Qed.
Lemma map_ext_elem {A B} (g h : A → B) l : (∀ x, x ∈ l → g x = h x) → map g l = map h l.
Proof. intros H. apply map_ext_in. intros x Hx. by apply H, list_elem_of_In. Qed.
Lemma existsb_ext {A} (g h : A → bool) l : (∀ x, x ∈ l → g x = h x) → existsb g l = existsb h l.
Proof.
  induction l as [|x l IH]; intros H; [done|]. cbn [existsb].
  rewrite (H x) by constructor. rewrite IH; [done|]. intros y Hy. apply H. by constructor.
Qed.
Lemma forallb_ext {A} (g h : A → bool) l : (∀ x, x ∈ l → g x = h x) → forallb g l = forallb h l.
Proof.
  induction l as [|x l IH]; intros H; [done|]. cbn [forallb].
  rewrite (H x) by constructor. rewrite IH; [done|]. intros y Hy. apply H. by constructor.
Qed.

Lemma mark_flags t p g :
  (mark_ands t p (flags p g).1, mark_ors t p (flags p g).2) = flags p (λ f, g f || t f).
Proof.
  unfold mark_ands, mark_ors, flags. cbn [fst snd]. rewrite !zip_with_map. f_equal.
  - apply map_ext. intros gr. apply existsb_orb.
Qed.

Lemma flags_ext p g h :
  (∀ f, f ∈ p_filters p ∨ (∃ gr, gr ∈ or_groups p ∧ f ∈ gr) → g f = h f) → flags p g = flags p h.
Proof.
  intros H. unfold flags. f_equal; [apply map_ext_elem; naive_solver|].
  apply map_ext_elem. intros gr Hgr. apply existsb_ext. naive_solver.
Qed.

Lemma validate_flags p g :
  validate_final_match p (flags p g).1 (flags p g).2 =
    forallb g (p_filters p) && (bool_decide (length (or_groups p) = 0%nat) || existsb (existsb g) (or_groups p)).
Proof.
  unfold validate_final_match, flags. cbn [fst snd].
  assert (∀ {A} (h : A → bool) l, forallb id (map h l) = forallb h l) as Hf by (induction l as [|x l IH]; [done|]; cbn [map forallb]; by rewrite IH).
  assert (∀ {A} (h : A → bool) l, existsb id (map h l) = existsb h l) as He by (induction l as [|x l IH]; [done|]; cbn [map existsb]; by rewrite IH).
  rewrite Hf, He. destruct (p_filters p) as [|f fs]; [done|]. cbn [length]. by rewrite (bool_decide_false (S _ = 0%nat)) by done.
Qed.

(** ** Metadata *)

Lemma meta_and_spec doc_id t fs :
  meta_and to_lowercase doc_id t fs (replicate (length fs) false) =
    if forallb (λ f, default true (meta_verdict to_lowercase doc_id t f)) fs
    then Some (map (meta_matched to_lowercase doc_id t) fs) else None.
Proof.
  induction fs as [|f fs IH]; [done|]. cbn [length replicate meta_and forallb map]. unfold meta_matched at 1.
  destruct (meta_verdict to_lowercase doc_id t f) as [[]|]; cbn [default from_option andb id]; [| |]; rewrite ?IH; try done;
    by destruct (forallb _ fs).
Qed.

Lemma check_metadata_spec doc_id t p :
  check_metadata_filters to_lowercase doc_id t p (replicate (length (p_filters p)) false) (replicate (length (or_groups p)) false) =
    if forallb (λ f, default true (meta_verdict to_lowercase doc_id t f)) (p_filters p)
    then Some (flags p (meta_matched to_lowercase doc_id t)) else None.
Proof.
  unfold check_metadata_filters. rewrite meta_and_spec. destruct (forallb _ _); [|done]. opt_simpl. unfold flags. do 2 f_equal.
  induction (or_groups p) as [|gr gs IH]; [done|]. cbn [length replicate zip_with map orb]. by rewrite IH.
Qed.

(** ** The body *)

Definition field_hit (fs : list (bytes * Value)) (f : Filter) : bool :=
  existsb (λ kv, field_test to_lowercase kv.1 kv.2 f) fs.

Lemma field_hit_get d f : doc_sorted d → field_hit (fields d) f = value_holds (doc_get d (f_field f)) f.
Proof.
  intros Hs. rewrite doc_get_assoc by done. unfold doc_sorted in Hs. apply key_sorted_NoDup in Hs. unfold field_hit.
  induction (fields d) as [|[k v] fs IH]; [done|]. cbn [existsb assoc fst snd]. rewrite fmap_cons in Hs.
  apply NoDup_cons in Hs as [Hn Hs]. unfold field_test at 1. cbn [fst] in Hn.
  destruct (bytes_eqb k (f_field f)) eqn:E; cbn [andb orb]; [|by apply IH].
  apply bytes_eqb_eq in E. subst k. rewrite (IH Hs), (assoc_None _ _ Hn). cbn [value_holds]. apply orb_false_r.
Qed.

Lemma apply_flags k v p g :
  apply_filter_logic to_lowercase k v p (flags p g).1 (flags p g).2 = flags p (λ f, g f || field_test to_lowercase k v f).
Proof. apply mark_flags. Qed.

Lemma apply_fields_flags p fs g :
  foldl (λ '(a, o) kv, apply_filter_logic to_lowercase kv.1 kv.2 p a o) (flags p g) fs =
    flags p (λ f, g f || field_hit fs f).
Proof.
  revert g; induction fs as [|[k v] fs IH]; intros g; cbn [foldl].
  { apply flags_ext. intros f _. unfold field_hit. cbn [existsb]. by rewrite orb_false_r. }
  cbn [fst snd]. rewrite (surjective_pairing (flags p g)), apply_flags, IH.
  apply flags_ext. intros f _. unfold field_hit. cbn [existsb fst snd]. by rewrite orb_assoc.
Qed.

Lemma dotted_flags v p g :
  apply_dotted_filters to_lowercase v p (flags p g).1 (flags p g).2 = flags p (λ f, g f || dotted_test to_lowercase v f).
Proof.
  unfold apply_dotted_filters. split_if; [|by rewrite mark_flags].
  rewrite <-surjective_pairing. apply flags_ext. intros f Hf.
  assert (has_dot (f_field f) = false) as Hd; [|unfold dotted_test; by rewrite Hd, orb_false_r].
  bool_simpl. destruct (has_dot (f_field f)) eqn:E; [exfalso|done]. destruct Hf as [Hf|(gr & Hgr & Hf)].
  - match goal with H : existsb _ (p_filters p) = false |- _ => rewrite (proj2 (existsb_exists _ _)) in H; [done|] end.
    exists f. split; [by apply list_elem_of_In|done].
  - match goal with H : existsb _ (or_groups p) = false |- _ => rewrite (proj2 (existsb_exists _ _)) in H; [done|] end.
    exists gr. split; [by apply list_elem_of_In|]. apply existsb_exists. exists f. split; [by apply list_elem_of_In|done].
Qed.

(** The view of an encoded document, and its paths. *)
Definition enc_view (d : HakoDoc) : HakoDocView := mkView (encode d) (zlen (fields d)) (_time d).

Section Encoded.
Context (d : HakoDoc) (Hd : doc_encodable d = true) (Hs : doc_sorted d).

Lemma enc_view_path path : docview_get_path (enc_view d) path = get_path d path.
Proof using Hd Hs. by rewrite <-docview_get_path_encoded, view_new_encode. Qed.

Lemma enc_view_items validate : (iter_all validate (view_iter (enc_view d))).1 = entry_item <$> fields d.
Proof using Hd.
  unfold view_iter, enc_view. cbn [v_bytes v_count].
  replace (Z.to_nat (zlen (fields d))) with (length (fields d)) by (unfold zlen; lia). by rewrite iter_all_encode.
Qed.

Lemma dotted_test_enc f :
  dotted_test to_lowercase (enc_view d) f = has_dot (f_field f) && value_holds (get_path d (f_field f)) f.
Proof using Hd Hs. unfold dotted_test. by rewrite enc_view_path. Qed.

Lemma elem_match_enc p : elem_match_pass to_lowercase (enc_view d) p = forallb (elem_clause d) (elem_match p).
Proof using Hd Hs. apply forallb_ext. intros c _. unfold elem_clause. by rewrite enc_view_path. Qed.

Lemma fields_encodable : forallb (λ kv, name_ok kv.1 && encodable kv.2) (fields d) = true.
Proof using Hd. apply (doc_encodable_inv d Hd). Qed.
End Encoded.

(** The verdict from the flags of the metadata and the body. *)
Definition filters_verdict (doc_id : bytes) (d : HakoDoc) (p : QueryPlan) : bool :=
  forallb (or_holds doc_id d) (p_filters p) &&
  (bool_decide (length (or_groups p) = 0%nat) || existsb (existsb (or_holds doc_id d)) (or_groups p)).

Lemma verdict_flags doc_id d p :
  doc_matches doc_id d p =
    forallb (λ f, default true (meta_verdict to_lowercase doc_id (_time d) f)) (p_filters p) &&
    filters_verdict doc_id d p &&
    forallb (elem_clause d) (elem_match p).
Proof.
  unfold doc_matches, filters_verdict. rewrite andb_assoc. do 2 f_equal.
  induction (p_filters p) as [|f fs IH]; [done|]. cbn [forallb]. rewrite IH. unfold and_holds, or_holds at 2, meta_matched.
  destruct (meta_verdict to_lowercase doc_id (_time d) f) as [[]|]; cbn [default from_option id andb orb]; try done.
  set (a := forallb _ fs). set (b := forallb _ fs). by destruct (body_holds d f), a, b.
Qed.

(** ** The fast pass *)

(** A byte hit is a match. *)
Lemma value_eqb_byte_safe v : byte_safe v = true → value_eqb v v = true.
Proof.
  destruct v; try done; intros _; cbn [value_eqb]; unfold bytes_eqb; rewrite ?bool_decide_true, ?Z.eqb_refl by done; try done.
  by destruct b.
Qed.

Lemma byte_hit_matches k v tag data f :
  encodable v = true → encode_value v = tag :: data → filter_ok f = true → byte_safe (f_value f) = true →
  byte_hit k tag data f = true → field_test to_lowercase k v f = true.
Proof.
  intros Hv E Hf Hb. unfold byte_hit, field_test, filter_holds.
  destruct (encode_value (f_value f)) as [|t dt] eqn:Ef; [by rewrite andb_false_r|].
  intros [[Hk [Ht%Z.eqb_eq Hdt%bytes_eqb_eq]%andb_true_iff]%andb_true_iff Hop%bool_decide_eq_true]%andb_true_iff. subst.
  pose proof (decode_value_encoded _ _ _ Hf Ef) as E1. rewrite (decode_value_encoded _ _ _ Hv E) in E1. injection E1 as ->.
  rewrite Hk, Hop. cbn [andb compare_values]. unfold compare_scalar. by rewrite value_eqb_byte_safe.
Qed.

(** The fast pass sets no flag that the body would not. *)
Definition hits (p : QueryPlan) (d : HakoDoc) (f : Filter) : bool :=
  existsb (λ '(key, tag, data), byte_hit key tag data f) (entry_item <$> fields d).

Lemma fast_pass_flags d p g :
  doc_encodable d = true →
  fast_pass (enc_view d) p (map g (p_filters p)) = map (λ f, g f || hits p d f) (p_filters p).
Proof.
  intros Hd. unfold fast_pass, hits. rewrite enc_view_items by done. revert g.
  induction (entry_item <$> fields d) as [|[[k t] dt] items IH]; intros g; cbn [foldl existsb].
  { apply map_ext. intros f. by rewrite orb_false_r. }
  unfold mark_ands. rewrite zip_with_map, IH. apply map_ext. intros f. by rewrite orb_assoc.
Qed.

Lemma fast_eligible_elem p g f :
  fast_eligible (p_filters p) (map g (p_filters p)) = true → f ∈ p_filters p → g f = false →
  bytes_eqb (f_field f) b#("id") = false → bytes_eqb (f_field f) b#("_time") = false → byte_safe (f_value f) = true.
Proof.
  induction (p_filters p) as [|f' fs IH]; cbn [map fast_eligible]; [by intros _ ?%not_elem_of_nil|].
  intros [H1 H2]%andb_true_iff [->|Hf]%elem_of_cons Hg Hi Ht; [|by apply IH].
  rewrite Hg, Hi, Ht in H1. cbn [orb] in H1. by apply andb_true_iff in H1 as [_ ?].
Qed.

Lemma hits_fields d p f :
  doc_encodable d = true → filter_ok f = true → byte_safe (f_value f) = true → hits p d f = true → field_hit (fields d) f = true.
Proof.
  intros Hd Hf Hb. pose proof (fields_encodable d Hd) as Hok. unfold hits, field_hit.
  induction (fields d) as [|[k v] fs IH]; [done|]. rewrite fmap_cons. cbn [existsb forallb fst snd] in *.
  apply andb_true_iff in Hok as [[_ Hv]%andb_true_iff Hok]. destruct (encode_value_framed v Hv) as (tag & data & E & _).
  rewrite (entry_item_eq _ _ _ _ E). intros [H|H]%orb_true_iff; [|by rewrite IH, orb_true_r].
  by rewrite (byte_hit_matches _ _ _ _ _ Hv E Hf Hb H).
Qed.

(** ** The matchers *)

Lemma body_scan_spec verified p fs ands ors :
  forallb (λ kv, name_ok kv.1 && encodable kv.2) fs = true →
  body_scan to_lowercase verified p (entry_item <$> fs) ands ors =
    Some (fs, if verified then (ands, ors)
              else foldl (λ '(a, o) kv, apply_filter_logic to_lowercase kv.1 kv.2 p a o) (ands, ors) fs).
Proof.
  revert ands ors; induction fs as [|[k v] fs IH]; intros ands ors Hok; [by destruct verified|].
  cbn [forallb fst snd] in Hok. apply andb_true_iff in Hok as [[_ Hv]%andb_true_iff Hok].
  destruct (encode_value_framed v Hv) as (tag & data & E & _).
  rewrite fmap_cons, (entry_item_eq _ _ _ _ E). cbn [body_scan]. rewrite (decode_value_encoded _ _ _ Hv E). opt_simpl.
  destruct verified; [by rewrite IH|]. cbn [foldl fst snd].
  destruct (apply_filter_logic to_lowercase k v p ands ors) as [a o]. by rewrite IH.
Qed.

Section Row.
Context (doc_id : bytes) (d : HakoDoc) (p : QueryPlan).
Context (Hd : doc_encodable d = true) (Hs : doc_sorted d).
Abbreviation meta := (meta_matched to_lowercase doc_id (_time d)).
Abbreviation dotted := (dotted_test to_lowercase (enc_view d)).

Lemma or_holds_parts f : or_holds doc_id d f = meta f || field_hit (fields d) f || dotted f.
Proof using Hd Hs. unfold or_holds, body_holds. rewrite field_hit_get, dotted_test_enc by done. by rewrite orb_assoc. Qed.

(** Flags between the metadata and the verdict are completed by the body. *)
Lemma complete_flags g :
  (∀ f, f ∈ p_filters p ∨ (∃ gr, gr ∈ or_groups p ∧ f ∈ gr) → (meta f = true → g f = true) ∧ (g f = true → or_holds doc_id d f = true)) →
  flags p (λ f, g f || field_hit (fields d) f || dotted f) = flags p (or_holds doc_id d).
Proof using Hd Hs.
  intros Hg. apply flags_ext. intros f [H1 H2]%Hg. rewrite or_holds_parts in H2 |- *.
  destruct (g f); [by rewrite H2|]. by destruct (meta f); [discriminate H1|].
Qed.

(** What the body scan and the dotted pass decide, from any such flags. *)
Lemma scan_decides g :
  (∀ f, f ∈ p_filters p ∨ (∃ gr, gr ∈ or_groups p ∧ f ∈ gr) → (meta f = true → g f = true) ∧ (g f = true → or_holds doc_id d f = true)) →
  let '(a, o) := foldl (λ '(a, o) kv, apply_filter_logic to_lowercase kv.1 kv.2 p a o) (flags p g) (fields d) in
  (let '(a, o) := apply_dotted_filters to_lowercase (enc_view d) p a o in validate_final_match p a o) =
    filters_verdict doc_id d p.
Proof using Hd Hs.
  intros Hg. rewrite apply_fields_flags. rewrite (surjective_pairing (flags p _)). rewrite dotted_flags, complete_flags by done.
  rewrite (surjective_pairing (flags p _)). apply validate_flags.
Qed.

(** Without groups, flags below the verdict that validate give the verdict. *)
Lemma early_verdict g :
  length (or_groups p) = 0%nat →
  (∀ f, f ∈ p_filters p → g f = true → or_holds doc_id d f = true) →
  validate_final_match p (flags p g).1 (flags p g).2 = true →
  filters_verdict doc_id d p = true.
Proof using Type.
  intros Hg H. unfold filters_verdict. rewrite validate_flags, bool_decide_true by done. cbn [orb]. rewrite !andb_true_r. intros Hv.
  apply forallb_forall. intros f Hf. apply H; [by apply list_elem_of_In|]. by apply (proj1 (forallb_forall _ _) Hv).
Qed.

Lemma meta_below f : meta f = true → or_holds doc_id d f = true.
Proof using Type. intros H. unfold or_holds. by rewrite H. Qed.

Lemma hits_below f :
  forallb (λ f, default true (meta_verdict to_lowercase doc_id (_time d) f)) (p_filters p) = true →
  fast_eligible (p_filters p) (map meta (p_filters p)) = true → filter_ok f = true → f ∈ p_filters p →
  hits p d f = true → or_holds doc_id d f = true.
Proof using Hd Hs.
  intros Hm Helig Hok Hf Hh. destruct (meta f) eqn:Em; [by apply meta_below|]. rewrite or_holds_parts.
  rewrite (hits_fields d p f), orb_true_r; [done|done|done| |done].
  apply (proj1 (forallb_forall _ _)) with (x := f) in Hm; [|by apply list_elem_of_In].
  pose proof Em as Em'. unfold meta_matched in Em. destruct (meta_verdict to_lowercase doc_id (_time d) f) as [[]|] eqn:Ev; try done.
  unfold meta_verdict in Ev. eapply fast_eligible_elem; [done|done|done| |];
    destruct (bytes_eqb (f_field f) b#("id")), (bytes_eqb (f_field f) b#("_time")); done.
Qed.

(** The rest of the matcher, from flags that are not verified and from flags
    that are. *)
Definition match_rest (verified : bool) (fl : list bool * list bool) : option HakoDoc :=
  '(fs, (ands, ors)) ← body_scan to_lowercase verified p (entry_item <$> fields d) fl.1 fl.2;
  let verified :=
    (verified || let '(ands, ors) := apply_dotted_filters to_lowercase (enc_view d) p ands ors in validate_final_match p ands ors) &&
    elem_match_pass to_lowercase (enc_view d) p in
  if verified then Some (mkDoc fs (_time d)) else None.

Lemma match_rest_open g :
  (∀ f, f ∈ p_filters p ∨ (∃ gr, gr ∈ or_groups p ∧ f ∈ gr) → (meta f = true → g f = true) ∧ (g f = true → or_holds doc_id d f = true)) →
  match_rest false (flags p g) = if filters_verdict doc_id d p && forallb (elem_clause d) (elem_match p) then Some d else None.
Proof using Hd Hs.
  intros Hg. unfold match_rest. rewrite body_scan_spec by (by apply fields_encodable). opt_simpl. cbn [orb].
  rewrite <-surjective_pairing. pose proof (scan_decides g Hg) as Hsd. destruct (foldl _ (flags p g) (fields d)) as [a o].
  rewrite Hsd, elem_match_enc by done. by destruct d.
Qed.

Lemma match_rest_verified g :
  length (or_groups p) = 0%nat → (∀ f, f ∈ p_filters p → g f = true → or_holds doc_id d f = true) →
  validate_final_match p (flags p g).1 (flags p g).2 = true →
  match_rest true (flags p g) = if filters_verdict doc_id d p && forallb (elem_clause d) (elem_match p) then Some d else None.
Proof using Hd Hs.
  intros Hgr Hg Hv. unfold match_rest. rewrite body_scan_spec by (by apply fields_encodable). opt_simpl. cbn [orb].
  rewrite elem_match_enc, (early_verdict g Hgr Hg Hv) by done. cbn [andb]. by destruct d.
Qed.

Lemma unified_match_encoded :
  Forall (λ f, filter_ok f = true) (p_filters p) →
  unified_match_decode to_lowercase doc_id (encode d) p = if doc_matches doc_id d p then Some d else None.
Proof using Hd Hs.
  intros Hok. unfold unified_match_decode. rewrite view_new_encode by done. opt_simpl. cbn [v_time].
  rewrite check_metadata_spec, verdict_flags. destruct (forallb _ (p_filters p)) eqn:Hm; [|done]. opt_simpl. cbn [andb].
  fold (enc_view d). unfold flags at 1. rewrite !enc_view_items by done.
  destruct (bool_decide _ && fast_eligible _ _) eqn:Hfast.
  2: { apply (match_rest_open meta). intros f _. split; [done|apply meta_below]. }
  apply andb_true_iff in Hfast as [Hgr%bool_decide_eq_true Helig].
  set (g1 := λ f, meta f || hits p d f). set (g2 := λ f, g1 f || dotted f).
  assert (∀ f, f ∈ p_filters p → g1 f = true → or_holds doc_id d f = true) as Hg1.
  { intros f Hf [?|?]%orb_true_iff; [by apply meta_below|]. eapply hits_below; try done. by apply (proj1 (Forall_forall _ _) Hok). }
  assert (∀ f, f ∈ p_filters p → g2 f = true → or_holds doc_id d f = true) as Hg2.
  { intros f Hf [?|Hdt]%orb_true_iff; [by apply Hg1|]. by rewrite or_holds_parts, Hdt, orb_true_r. }
  rewrite fast_pass_flags by done. fold g1.
  assert (map (existsb meta) (or_groups p) = (flags p g1).2) as -> by (unfold flags; by destruct (or_groups p)).
  change (map g1 (p_filters p)) with (flags p g1).1.
  destruct (validate_final_match p _ _) eqn:Hv1; [by apply (match_rest_verified g1)|].
  rewrite dotted_flags. fold g2. rewrite (surjective_pairing (flags p g2)). cbv iota zeta.
  destruct (validate_final_match p (flags p g2).1 (flags p g2).2) eqn:Hv2; [by apply (match_rest_verified g2)|].
  apply (match_rest_open g2). intros f [Hf|(gr & Hgr' & _)].
  - split; [|by apply Hg2]. unfold g2, g1. by intros ->.
  - by destruct (or_groups p); [apply not_elem_of_nil in Hgr'|].
Qed.

(** ** The projected matcher *)

Definition projected_fields : list (bytes * Value) :=
  omap (λ kv, if bool_decide (kv.1 ∈ projection_prefixes (projection p))
              then (λ v, (kv.1, v)) <$> prune_field_value kv.2 (projection p) kv.1 else None) (fields d).

(** A field no filter names sets no flag. *)
Lemma unneeded_field k v g :
  existsb (λ f, bytes_eqb (f_field f) k) (p_filters p) || existsb (existsb (λ f, bytes_eqb (f_field f) k)) (or_groups p) = false →
  apply_filter_logic to_lowercase k v p (flags p g).1 (flags p g).2 = flags p g.
Proof using Type.
  intros [H1 H2]%orb_false_iff. rewrite apply_flags. apply flags_ext. intros f Hf.
  assert (bytes_eqb (f_field f) k = false) as E.
  { destruct (bytes_eqb (f_field f) k) eqn:E; [exfalso|done]. destruct Hf as [Hf|(gr & Hgr & Hf)].
    - rewrite (proj2 (existsb_exists _ _)) in H1; [done|]. exists f. split; [by apply list_elem_of_In|done].
    - rewrite (proj2 (existsb_exists _ _)) in H2; [done|]. exists gr. split; [by apply list_elem_of_In|].
      apply existsb_exists. exists f. split; [by apply list_elem_of_In|done]. }
  unfold field_test. assert (bytes_eqb k (f_field f) = false) as ->; [|cbn [andb]; apply orb_false_r].
  unfold bytes_eqb in *. apply bool_decide_eq_false in E. apply bool_decide_eq_false. congruence.
Qed.

Lemma projected_scan_spec prefixes fs g :
  forallb (λ kv, name_ok kv.1 && encodable kv.2) fs = true →
  projected_scan to_lowercase p prefixes (entry_item <$> fs) (flags p g).1 (flags p g).2 =
    Some (omap (λ kv, if bool_decide (kv.1 ∈ prefixes)
                      then (λ v, (kv.1, v)) <$> prune_field_value kv.2 (projection p) kv.1 else None) fs,
          flags p (λ f, g f || field_hit fs f)).
Proof using Type.
  revert g; induction fs as [|[k v] fs IH]; intros g Hok.
  { cbn [fmap list_fmap projected_scan omap list_omap]. do 2 f_equal. rewrite <-surjective_pairing. apply flags_ext.
    intros f _. unfold field_hit. cbn [existsb]. by rewrite orb_false_r. }
  cbn [forallb fst snd] in Hok. apply andb_true_iff in Hok as [[_ Hv]%andb_true_iff Hok].
  destruct (encode_value_framed v Hv) as (tag & data & E & _).
  assert (flags p (λ f, g f || field_hit ((k, v) :: fs) f) = flags p (λ f, g f || field_test to_lowercase k v f || field_hit fs f)) as ->.
  { apply flags_ext. intros f _. unfold field_hit. cbn [existsb fst snd]. by rewrite orb_assoc. }
  rewrite fmap_cons, (entry_item_eq _ _ _ _ E). cbn [projected_scan omap list_omap fst snd].
  rewrite (decode_value_encoded _ _ _ Hv E). opt_simpl.
  destruct (existsb _ _ || existsb _ _) eqn:Ef; cbn [orb].
  - rewrite apply_flags, (surjective_pairing (flags p _)), IH by done. opt_simpl.
    case_bool_decide; [|done]. by destruct (prune_field_value _ _ _).
  - pose proof (unneeded_field k v g Ef) as Hun. rewrite apply_flags in Hun |- *.
    assert (flags p (λ f, g f || field_test to_lowercase k v f || field_hit fs f) = flags p (λ f, g f || field_hit fs f)) as ->.
    { rewrite <-!apply_fields_flags. by rewrite Hun. }
    rewrite Hun. case_bool_decide; [|by apply IH].
    rewrite (surjective_pairing (flags p g)), IH by done. opt_simpl. by destruct (prune_field_value _ _ _).
Qed.

Lemma unified_projected_encoded :
  unified_match_projected to_lowercase doc_id (encode d) p = if doc_matches doc_id d p then Some projected_fields else None.
Proof using Hd Hs.
  unfold unified_match_projected. rewrite view_new_encode by done. opt_simpl. cbn [v_time].
  rewrite check_metadata_spec, verdict_flags. destruct (forallb _ (p_filters p)) eqn:Hm; [|done]. opt_simpl. cbn [andb].
  fold (enc_view d). rewrite (surjective_pairing (flags p _)), enc_view_items by done.
  rewrite projected_scan_spec by (by apply fields_encodable). opt_simpl. rewrite <-apply_fields_flags.
  pose proof (scan_decides meta ltac:(intros f _; split; [done|apply meta_below])) as Hsd.
  destruct (foldl _ (flags p meta) (fields d)) as [a o]. destruct (apply_dotted_filters _ _ _ _ _) as [a' o'].
  by rewrite Hsd, elem_match_enc by done.
Qed.

Lemma projected_fields_project : projection p ≠ [] → [] ∉ (fields d).*1 → projected_fields = project_fields d (projection p).
Proof using Type.
  intros Hp. unfold projected_fields, project_fields. destruct (projection p) as [|x xs] eqn:E; [done|]. rewrite <-E in *.
  induction (fields d) as [|[k v] fs IH]; [done|]. rewrite fmap_cons. intros [Hk Hne]%not_elem_of_cons.
  cbn [omap list_omap fst snd] in *. rewrite IH by done. case_bool_decide as Hp'; [done|].
  by rewrite prune_field_value_none by done.
Qed.

(** ** The view matcher *)

Definition is_server_ts (v : Value) : bool := match v with ServerTimestamp => true | _ => false end.

Lemma drop_with_len body : drop 4 (with_len body) = body.
Proof using Type. unfold with_len. rewrite drop_app_length'; [done|]. pose proof (zlen_to_le 4 (as_u32 (zlen body))). unfold zlen in *. lia. Qed.

Lemma zlen_with_len body : (zlen (with_len body) <? 4) = false.
Proof using Type. apply Z.ltb_ge. unfold with_len. pose proof (zlen_nonneg body). zlen. Qed.

Lemma raw_varint n :
  is_i64 n → ∃ q, decode_varint (encode_varint (zigzag_encode n)) 0 = Some (zigzag_encode n, q).
Proof using Type.
  intros Hn. eexists. rewrite <-(app_nil_r (encode_varint _)). apply (decode_encode_varint []). apply zigzag_encode_u64.
Qed.

(** A value with a length prefix takes the last part of [raw_value]. *)
Lemma raw_value_long tag data :
  3 <= tag <= 11 → (zlen data <? 4) = false →
  raw_value tag data =
    if (tag =? 3) || (tag =? 7) then
      '(v, _) ← decode_varint (drop 4 data) 0;
      Some (if tag =? 3 then Int (zigzag_decode v) else Timestamp (zigzag_decode v))
    else if tag =? 4 then Float <$> (of_le <$> get_range (drop 4 data) 0 8)
    else if tag =? 5 then
      v_len ← of_le <$> get_range data 0 4;
      String <$> (get_range (drop 4 data) 0 v_len ≫= from_utf8)
    else if tag =? 6 then
      v_len ← of_le <$> get_range data 0 4;
      Binary <$> get_range (drop 4 data) 0 v_len
    else decode_value tag data.
Proof using Type.
  intros Ht Hl. unfold raw_value. destruct (long_tag_cases tag Ht) as (_ & -> & ->). rewrite Hl.
  by rewrite !(proj2 (Z.eqb_neq tag _)) by lia.
Qed.

Lemma get_range_all {A} (l : list A) : get_range l 0 (zlen l) = Some l.
Proof using Type. rewrite <-(app_nil_r l) at 1. by apply (get_range_mid []). Qed.

(** A span's value, for every kind but the server timestamp. *)
Lemma raw_value_encoded v tag data :
  encodable v = true → encode_value v = tag :: data → is_server_ts v = false → raw_value tag data = Some v.
Proof using Type.
  intros Hv E Hts. pose proof (decode_value_encoded _ _ _ Hv E) as Hdec.
  destruct v as [|b|n|b|s|s|o l|c i|n| |fs|vs]; cbn [encode_value] in E; try done.
  - by apply cons_inv in E as [<- <-].
  - destruct b; by apply cons_inv in E as [<- <-].
  - cbn [encodable] in Hv. unfold i64b in Hv. split_if in E; apply cons_inv in E as [<- <-]; bool_simpl.
    + destruct (small_int_tag n) as (Hi1 & Hi2 & Hi3); [lia|]. unfold tag_is_inline in Hi1. unfold raw_value. rewrite Hi2, Hi3.
      apply andb_false_iff in Hi1. repeat (split_if; [bool_simpl; lia|]). done.
    + rewrite raw_value_long by (lia || apply zlen_with_len). cbn [Z.eqb Pos.eqb orb]. rewrite drop_with_len.
      destruct (raw_varint n) as [q ->]; [unfold is_i64; lia|]. opt_simpl. rewrite zigzag_decode_encode; [done|unfold is_i64; lia].
  - apply cons_inv in E as [<- <-]. cbn [encodable] in Hv. unfold u64b in Hv. bool_simpl.
    rewrite raw_value_long; [|lia|apply Z.ltb_ge; zlen]. cbn [Z.eqb Pos.eqb orb].
    assert (get_range (drop 4 (to_le 4 8 ++ to_le 8 b)) 0 8 = Some (to_le 8 b)) as -> by (apply (get_range_all (to_le 8 b))).
    pose proof (of_le_to_le_u64 b) as Hof. revert Hof. generalize (to_le 8 b) as x. intros x Hof. opt_simpl.
    rewrite Hof; [done|unfold is_u64; lia].
  - cbn [encodable] in Hv. split_if in E; apply cons_inv in E as [<- <-]; bool_simpl.
    + destruct (small_str_tag (zlen s)) as (Hi1 & Hi2 & Hi3 & Hi4 & _); [pose proof (zlen_nonneg s); lia|].
      unfold tag_is_inline in Hi1. unfold raw_value. rewrite Hi2, Hi3, Hi4, get_range_all. apply andb_false_iff in Hi1.
      repeat (split_if; [bool_simpl; lia|]). opt_simpl. by rewrite from_utf8_valid.
    + rewrite raw_value_long by (lia || apply zlen_with_len). cbn [Z.eqb Pos.eqb orb].
      rewrite get_len_prefix by done. opt_simpl. rewrite drop_with_len, get_range_all. opt_simpl. by rewrite from_utf8_valid.
  - apply cons_inv in E as [<- <-]. cbn [encodable] in Hv. bool_simpl. rewrite raw_value_long by (lia || apply zlen_with_len).
    cbn [Z.eqb Pos.eqb orb]. rewrite get_len_prefix by done. opt_simpl. by rewrite drop_with_len, get_range_all.
  - apply cons_inv in E as [<- <-]. rewrite raw_value_long; [done|lia|apply Z.ltb_ge; zlen].
  - apply cons_inv in E as [<- <-]. rewrite raw_value_long; [done|lia|apply zlen_with_len].
  - apply cons_inv in E as [<- <-]. cbn [encodable] in Hv. unfold i64b in Hv. bool_simpl.
    rewrite raw_value_long by (lia || apply zlen_with_len). cbn [Z.eqb Pos.eqb orb]. rewrite drop_with_len.
    destruct (raw_varint n) as [q ->]; [unfold is_i64; lia|]. opt_simpl. rewrite zigzag_decode_encode; [done|unfold is_i64; lia].
  - apply cons_inv in E as [<- <-]. rewrite raw_value_long; [done|lia|apply zlen_with_len].
  - apply cons_inv in E as [<- <-]. rewrite raw_value_long; [done|lia|apply zlen_with_len].
Qed.

Lemma view_scan_flags fs g :
  forallb (λ kv, name_ok kv.1 && encodable kv.2) fs = true → existsb (λ kv, is_server_ts kv.2) fs = false →
  view_scan to_lowercase p (entry_item <$> fs) (flags p g).1 (flags p g).2 = flags p (λ f, g f || field_hit fs f).
Proof using Type.
  unfold view_scan. rewrite <-surjective_pairing. revert g; induction fs as [|[k v] fs IH]; intros g Hok Hts; cbn [fmap list_fmap foldl].
  { apply flags_ext. intros f _. unfold field_hit. cbn [existsb]. by rewrite orb_false_r. }
  cbn [forallb existsb fst snd] in Hok, Hts. apply orb_false_iff in Hts as [Hv' Hts].
  apply andb_true_iff in Hok as [[_ Hv]%andb_true_iff Hok]. destruct (encode_value_framed v Hv) as (tag & data & E & _).
  rewrite (entry_item_eq _ _ _ _ E), (surjective_pairing (flags p g)), mark_flags, IH by done.
  apply flags_ext. intros f _. unfold field_hit. cbn [existsb fst snd]. rewrite orb_assoc. do 2 f_equal.
  unfold raw_test, field_test, compare_raw_bytes. by rewrite (raw_value_encoded v).
Qed.

Lemma encode_time : get_range (encode d) 2 10 = Some (i64_to_le (_time d)).
Proof using Type. unfold encode. apply (get_range_mid [MAGIC; VERSION]); zlen. Qed.

Lemma filters_view_encoded :
  existsb (λ kv, is_server_ts kv.2) (fields d) = false →
  matches_filters_view to_lowercase doc_id (encode d) p = Some (doc_matches doc_id d p).
Proof using Hd Hs.
  intros Hts. unfold matches_filters_view. rewrite encode_time. opt_simpl.
  rewrite i64_of_to_le by apply (doc_encodable_inv d Hd). f_equal.
  rewrite check_metadata_spec, verdict_flags. destruct (forallb _ (p_filters p)) eqn:Hm; [|done].
  rewrite view_new_encode by done. fold (enc_view d). rewrite (surjective_pairing (flags p _)), enc_view_items by done.
  rewrite view_scan_flags by (done || by apply fields_encodable). rewrite <-apply_fields_flags.
  pose proof (scan_decides meta ltac:(intros f _; split; [done|apply meta_below])) as Hsd.
  destruct (foldl _ (flags p meta) (fields d)) as [a o]. destruct (apply_dotted_filters _ _ _ _ _) as [a' o'].
  by rewrite Hsd, elem_match_enc by done.
Qed.
End Row.
End Verdict.
