(* ===== verification/Worker.v ===== *)
(** * Query workers (src/query/executor/worker.rs, scheduler.rs, task.rs)

    Splitting the candidate rows into tasks, reading and matching the rows of a
    task, and filling in the blobs of what was kept.  The workers share a read
    lock on the engine: the rows of a task are read one after the other, and the
    page cache behind the lock may change. *)

From stdpp Require Import prelude list gmap strings.
From Stdlib Require Import ZArith Lia.
From S2P Require Import Prelude RustStd Error Crypto VFile Value Doc DocFacts DocAccess Wal PageCache StorageIndex Segment Blob Storage StorageFacts StorageView Filter Query Matcher MatcherFacts.

Local Open Scope Z_scope.
Local Open Scope hako_scope.

(** [resolve_single_blob_in_worker], [inflate_blobs]: a blob that is not UTF-8 is
    binary. *)
Definition blob_value (data : bytes) : Value :=
  match from_utf8 data with Some s => String s | None => Binary data end.
Definition resolve_single_blob (bm : BlobManager) (v : Value) : Value :=
  match v with BlobLink offset len => blob_value (blob_read_at bm offset len) | _ => v end.
Definition resolve_fields (bm : BlobManager) (fs : list (bytes * Value)) : list (bytes * Value) :=
  map (λ kv, (kv.1, resolve_single_blob bm kv.2)) fs.
Definition inflate_blobs (d : HakoDoc) (bm : BlobManager) : HakoDoc := mkDoc (resolve_fields bm (fields d)) (_time d).

(** [shard_tasks]: the row lists of the tasks.  Every round takes a row, which
    bounds the loop. *)
Fixpoint drain_chunks {A} (fuel chunk_size : nat) (docs : list A) : list (list A) :=
  match fuel, docs with
  | S fuel, _ :: _ => take chunk_size docs :: drain_chunks fuel chunk_size (drop chunk_size docs)
  | _, _ => []
  end.
Definition shard_tasks {A} (docs : list A) (workers : nat) : list (list A) :=
  let worker_count := Nat.max workers 1 in
  let chunk_size := Nat.max (length docs / worker_count) 1 in
  drain_chunks (length docs) chunk_size docs.

Section Tasks.
Context `{Crc} `{Zstd} `{HashIter} {cipher : Type} `{Aead cipher}.
Context (to_lowercase : bytes → bytes).
Abbreviation StorageEngine := (@StorageEngine cipher).

(** [decode_row]. *)
Definition decode_row (plan : QueryPlan) (id b : bytes) : option HakoDoc :=
  if filters_satisfied_by_index plan then decode b
  else unified_match_decode to_lowercase id b (prepare_optimized_plan plan).

(** The row loop: a row that cannot be read or does not match is left out. *)
Fixpoint task_rows {B} (row : bytes → bytes → option B) (docs : list (bytes * Pointer)) : SR StorageEngine (list (bytes * B)) := λ e,
  match docs with
  | [] => (e, Ok [])
  | (id, pointer) :: docs =>
      match read_pointer_shared pointer e with
      | (e, Panic) => (e, Panic)
      | (e, r) =>
          let out := match r with Ok (Some b) => (λ d, (id, d)) <$> row id b | _ => None end in
          match task_rows row docs e with
          | (e, Ok rest) => (e, Ok (match out with Some kv => kv :: rest | None => rest end))
          | (e, r) => (e, r)
          end
      end
  end.

(** [run_task], [run_task_projected]. *)
Definition run_task (plan : QueryPlan) (docs : list (bytes * Pointer)) : SR StorageEngine (list (bytes * HakoDoc)) :=
  out ← task_rows (decode_row plan) docs;
  e ← get_st;
  mret match (if defer_blobs plan then None else blob_manager e) with
       | Some bm => if existsb (λ kv, doc_has_links kv.2) out then map (λ kv, (kv.1, inflate_blobs kv.2 bm)) out else out
       | None => out
       end.
Definition has_link (kv : bytes * Value) : bool := match kv.2 with BlobLink _ _ => true | _ => false end.
Definition run_task_projected (plan : QueryPlan) (docs : list (bytes * Pointer))
  : SR StorageEngine (list (bytes * list (bytes * Value))) :=
  out ← task_rows (λ id b, unified_match_projected to_lowercase id b (prepare_optimized_plan plan)) docs;
  e ← get_st;
  mret match (if defer_blobs plan then None else blob_manager e) with
       | Some bm => if existsb (λ kv, existsb has_link kv.2) out then map (λ kv, (kv.1, resolve_fields bm kv.2)) out else out
       | None => out
       end.
End Tasks.

(** ** Tasks partition the rows *)

Lemma drain_chunks_spec {A} fuel chunk (docs : list A) :
  (0 < chunk)%nat → (length docs <= fuel)%nat →
  concat (drain_chunks fuel chunk docs) = docs ∧ Forall (λ c, c ≠ [] ∧ (length c <= chunk)%nat) (drain_chunks fuel chunk docs).
Proof.
  intros Hc. revert docs; induction fuel as [|fuel IH]; intros docs Hf; (destruct docs as [|x docs]; [by split; [|constructor]|]);
    cbn [length] in Hf; [lia|].
  cbn [drain_chunks concat]. destruct (IH (drop chunk (x :: docs))) as [H1 H2].
  { rewrite length_drop. cbn [length]. lia. }
  split; [by rewrite H1, take_drop|]. constructor; [|done]. split; [by destruct chunk; [lia|]|]. rewrite length_take. lia.
Qed.

Lemma shard_tasks_spec {A} (docs : list A) workers :
  concat (shard_tasks docs workers) = docs ∧ Forall (λ c, c ≠ []) (shard_tasks docs workers).
Proof.
  destruct (drain_chunks_spec (length docs) (Nat.max (length docs / Nat.max workers 1) 1) docs) as [H1 H2]; [lia|lia|].
  split; [done|]. eapply Forall_impl; [exact H2|]. by intros c [? _].
Qed.

(** There are fewer than two tasks per worker. *)
Lemma drain_chunks_count {A} fuel chunk (docs : list A) :
  (0 < chunk)%nat → (chunk * length (drain_chunks fuel chunk docs) < length docs + chunk)%nat.
Proof.
  intros Hc. revert docs; induction fuel as [|fuel IH]; intros docs; (destruct docs as [|x docs]; [cbn; lia|]); [cbn; lia|].
  cbn [drain_chunks length]. specialize (IH (drop chunk (x :: docs))). rewrite length_drop in IH. cbn [length] in *.
  destruct (decide (chunk <= S (length docs))%nat); [lia|].
  assert (drop chunk (x :: docs) = []) as -> by (apply drop_ge; cbn; lia). destruct fuel; cbn; lia.
Qed.

Lemma shard_tasks_count {A} (docs : list A) workers : (length (shard_tasks docs workers) < 2 * Nat.max workers 1)%nat ∨ docs = [].
Proof.
  destruct docs as [|x docs]; [by right|left]. unfold shard_tasks. set (n := length (x :: docs)). set (w := Nat.max workers 1).
  pose proof (drain_chunks_count n (Nat.max (n / w) 1) (x :: docs) ltac:(lia)) as Hb. fold n in Hb.
  remember (length (drain_chunks _ _ _)) as k eqn:Hk. clear Hk. assert (w ≠ 0%nat) as Hw by lia. pose proof (Nat.div_mod n w Hw) as Hdm.
  pose proof (Nat.mod_upper_bound n w Hw). assert (0 < n)%nat by (unfold n; cbn; lia). clearbody n w.
  destruct (decide (n / w = 0)%nat) as [E|E].
  - rewrite E in Hb, Hdm. change (Nat.max 0 1) with 1%nat in Hb. lia.
  - replace (Nat.max (n / w) 1) with (n / w)%nat in Hb by lia. nia.
Qed.

(** ** What a task returns *)

Section TaskFacts.
Context `{Crc} `{Zstd} `{HashIter} {cipher : Type} `{Aead cipher}.
Context (to_lowercase : bytes → bytes).
Abbreviation StorageEngine := (@StorageEngine cipher).
Implicit Types e : StorageEngine.

Lemma read_pointer_shared_value e p :
  store_ok e → ptr_ok e p →
  ∃ c, read_pointer_shared p e = (e_with_cache c e, Ok (ptr_value e p)) ∧ store_ok (e_with_cache c e).
Proof.
  intros He Hp. assert (e = e_with_cache (cache e) e) as Hself by (by destruct e).
  destruct p; try (exists (cache e); rewrite <-Hself; by split).
  - destruct (read_pointer_value _ _ true He Hp) as (c & Hr & Hc & _). by exists c.
  - destruct (read_pointer_value _ _ true He Hp) as (c & Hr & Hc & _). by exists c.
Qed.

Lemma bind_ok {S A B} (m : SR S A) (f : A → SR S B) s s' a : m s = (s', Ok a) → (m ≫= f) s = f a s'.
Proof. unfold mbind, SR_bind. by intros ->. Qed.

Lemma task_rows_spec {B} (row : bytes → bytes → option B) docs e :
  store_ok e → Forall (λ kv, ptr_ok e kv.2) docs →
  ∃ c, task_rows row docs e =
         (e_with_cache c e, Ok (omap (λ kv, b ← ptr_value e kv.2; d ← row kv.1 b; Some (kv.1, d)) docs)) ∧
       store_ok (e_with_cache c e).
Proof.
  revert e; induction docs as [|[id p] docs IH]; intros e He Hp.
  { exists (cache e). assert (e_with_cache (cache e) e = e) as -> by (by destruct e). done. }
  inversion_clear Hp as [|? ? Hp1 Hp2]. cbn [snd] in Hp1.
  destruct (read_pointer_shared_value e p He Hp1) as (c & Hr & Hc). cbn [task_rows]. rewrite Hr.
  destruct (IH (e_with_cache c e) Hc) as (c2 & Hr2 & Hc2).
  { eapply Forall_impl; [exact Hp2|]. intros [id' p']. by destruct p'. }
  rewrite Hr2. exists c2. split; [|done]. cbn [omap list_omap fst snd].
  destruct (ptr_value e p) as [b|]; [|done]. opt_simpl. by destruct (row id b).
Qed.

(** The blobs of a kept row: nothing is left to fill in when no row has a link. *)
Lemma resolve_no_links bm fs : existsb has_link fs = false → resolve_fields bm fs = fs.
Proof.
  induction fs as [|[k v] fs IH]; cbn [existsb resolve_fields map]; [done|]. intros [Hv Hf]%orb_false_iff.
  f_equal; [by destruct v|by apply IH].
Qed.
Definition fill (plan : QueryPlan) e (d : HakoDoc) : HakoDoc :=
  match (if defer_blobs plan then None else blob_manager e) with Some bm => inflate_blobs d bm | None => d end.

Lemma fill_rows bm (out : list (bytes * HakoDoc)) :
  (if existsb (λ kv, doc_has_links kv.2) out then map (λ kv, (kv.1, inflate_blobs kv.2 bm)) out else out) =
  map (λ kv, (kv.1, inflate_blobs kv.2 bm)) out.
Proof.
  split_if as Hl; [done|]. induction out as [|[id [fs t]] out IH]; [done|]. cbn [existsb map fst snd] in *.
  apply orb_false_iff in Hl as [Hv Hl]. rewrite <-(IH Hl) at 1. unfold inflate_blobs. cbn [fields _time].
  by rewrite (resolve_no_links bm fs Hv).
Qed.

Lemma run_task_spec plan docs e :
  store_ok e → Forall (λ kv, ptr_ok e kv.2) docs →
  ∃ c, run_task to_lowercase plan docs e =
         (e_with_cache c e,
          Ok (omap (λ kv, b ← ptr_value e kv.2; d ← decode_row to_lowercase plan kv.1 b; Some (kv.1, fill plan e d)) docs)) ∧
       store_ok (e_with_cache c e).
Proof.
  intros He Hp. destruct (task_rows_spec (decode_row to_lowercase plan) docs e He Hp) as (c & Hr & Hc).
  exists c. split; [|done]. unfold run_task. rewrite (bind_ok _ _ _ _ _ Hr), (bind_ok get_st _ _ _ _ eq_refl).
  unfold mret, SR_ret. do 2 f_equal.
  change (blob_manager (e_with_cache c e)) with (blob_manager e). unfold fill.
  destruct (if defer_blobs plan then None else blob_manager e) as [bm|]; [|done].
  rewrite fill_rows. clear. induction docs as [|[id p] docs IH]; [done|]. cbn [omap list_omap fst snd].
  destruct (ptr_value e p) as [b|]; [|done]. opt_simpl. destruct (decode_row to_lowercase plan id b) as [d|]; [|done]. opt_simpl.
  cbn [map fst snd]. by rewrite IH.
Qed.

(** Rows that hold encoded documents: the task keeps exactly those the plan
    matches, in order. *)
Lemma run_task_matches plan docs e :
  store_ok e → filters_satisfied_by_index plan = false →
  Forall (λ f, filter_ok f = true) (p_filters (prepare_optimized_plan plan)) →
  Forall (λ '(id, p, d), ptr_ok e p ∧ ptr_value e p = Some (encode d) ∧ doc_encodable d = true ∧ doc_sorted d) docs →
  ∃ c, run_task to_lowercase plan docs.*1 e =
         (e_with_cache c e,
          Ok ((λ '(id, _, d), (id, fill plan e d)) <$>
              List.filter (λ '(id, _, d), doc_matches to_lowercase id d (prepare_optimized_plan plan)) docs)) ∧
       store_ok (e_with_cache c e).
Proof.
  intros He Hsat Hok Hdocs. destruct (run_task_spec plan docs.*1 e He) as (c & Hr & Hc).
  { apply Forall_fmap. eapply Forall_impl; [exact Hdocs|]. by intros [[id p] d] (? & _). }
  exists c. split; [|done]. rewrite Hr. do 2 f_equal. clear Hr Hc.
  induction Hdocs as [|[[id p] d] docs (Hp & Hv & Hd & Hs) Hdocs IH]; [done|].
  rewrite fmap_cons. cbn [fst snd omap list_omap List.filter]. rewrite Hv. opt_simpl. unfold decode_row at 1. rewrite Hsat.
  rewrite unified_match_encoded, IH by done. by destruct (doc_matches _ _ _ _).
Qed.
End TaskFacts.
