(* ===== verification/TermIndex.v ===== *)
(** * Secondary and inverted indexes (src/index/secondary_index.rs, inverted_index.rs)

    Both map a key to the set of documents that have it: the scalar key of a
    field, or a word of a text.  A [BTreeMap] of [BTreeSet]s is the list of its
    entries in key order, each with its documents in order. *)

From stdpp Require Import prelude list gmap strings.
From Stdlib Require Import ZArith Lia.
From S2P Require Import Prelude RustStd Error Value Doc DocAccess Composite CompositeFacts.

Local Open Scope Z_scope.
Local Open Scope hako_scope.

(** ** Sets and maps of sets *)

(** [BTreeSet::insert], [remove], [intersection], [extend]. *)
Fixpoint set_insert (x : bytes) (s : list bytes) : list bytes :=
  match s with
  | [] => [x]
  | y :: s' => match bytes_cmp x y with Lt => x :: s | Eq => s | Gt => y :: set_insert x s' end
  end.
Definition set_remove (x : bytes) (s : list bytes) : list bytes := List.filter (λ y, negb (bytes_eqb y x)) s.
Definition set_inter (s t : list bytes) : list bytes := List.filter (λ x, bool_decide (x ∈ t)) s.
Definition set_union (s t : list bytes) : list bytes := foldl (λ s x, set_insert x s) s t.

Abbreviation Terms := (list (bytes * list bytes)).

(** [entry(k).or_default().insert(id)], and its removal, which drops an entry
    that became empty. *)
Definition terms_insert (k id : bytes) (t : Terms) : Terms := bt_insert k (set_insert id (default [] (assoc k t))) t.
Definition terms_remove (k id : bytes) (t : Terms) : Terms :=
  match assoc k t with
  | Some ids => match set_remove id ids with [] => bt_remove k t | ids => bt_insert k ids t end
  | None => t
  end.
(** [range(lo..hi)]. *)
Definition bt_range_excl {A} (lo hi : bytes) (t : list (bytes * A)) : list (bytes * A) :=
  List.filter (λ kv, bytes_leb lo kv.1 && bytes_ltb kv.1 hi) t.

(** ** Secondary indexes *)

(** [SecondaryIndex::insert] and [insert_borrowed], [remove], [range_scan],
    [clear]. *)
Definition sec_insert (key doc_id : bytes) (i : Terms) : Terms := terms_insert key doc_id i.
Definition sec_remove (key doc_id : bytes) (i : Terms) : Terms := terms_remove key doc_id i.
Definition sec_range_scan (i : Terms) (lo hi : bytes) : list bytes := mjoin (snd <$> bt_range lo hi i).
Definition sec_clear (i : Terms) : Terms := [].

(** ** Inverted indexes *)

Section Text.
(** [str::to_lowercase] and [char::is_alphanumeric], on the UTF-8 bytes of a
    character. *)
Context (to_lowercase : bytes → bytes) (is_alphanumeric : bytes → bool).

(** The length of a character from its first byte. *)
Definition char_len (b : Z) : nat :=
  if b <? 0x80 then 1 else if b <? 0xE0 then 2 else if b <? 0xF0 then 3 else 4.
(** [split(|c| !c.is_alphanumeric())]: [word] is the piece being read. *)
Fixpoint split_words (fuel : nat) (s word : bytes) : list bytes :=
  match fuel, s with
  | S fuel, b :: _ =>
      let c := take (char_len b) s in
      let s := drop (char_len b) s in
      if is_alphanumeric c then split_words fuel s (word ++ c) else word :: split_words fuel s []
  | _, _ => [word]
  end.
(** [InvertedIndex::tokenize]. *)
Definition tokenize (text : bytes) : list bytes :=
  let s := to_lowercase text in
  List.filter (λ w, 1 <? zlen w) (split_words (length s) s []).

(** [insert], [remove], [clear]. *)
Definition inv_insert (text doc_id : bytes) (i : Terms) : Terms :=
  foldl (λ i w, terms_insert w doc_id i) i (tokenize text).
Definition inv_remove (text doc_id : bytes) (i : Terms) : Terms :=
  foldl (λ i w, terms_remove w doc_id i) i (tokenize text).
Definition inv_clear (i : Terms) : Terms := [].

(** The word loop of [search]: [None] as soon as a word is missing. *)
Fixpoint search_words (i : Terms) (words : list bytes) (results : option (list bytes)) : option (list bytes) :=
  match words with
  | [] => results
  | w :: words =>
      ids ← assoc w i;
      search_words i words (Some (match results with Some cur => set_inter cur ids | None => ids end))
  end.
Definition search (i : Terms) (query_text : bytes) : option (list bytes) :=
  match tokenize query_text with [] => None | words => search_words i words None end.

(** The UTF-8 encoding of U+10FFFF, and the word loop of [search_prefix]. *)
Definition char_max : bytes := [0xF4; 0x8F; 0xBF; 0xBF].
Definition prefix_ids (i : Terms) (w : bytes) : list bytes :=
  foldl (λ s kv, set_union s kv.2) [] (bt_range_excl w (w ++ char_max) i).
Fixpoint search_prefixes (i : Terms) (words : list bytes) (results : option (list bytes)) : option (list bytes) :=
  match words with
  | [] => results
  | w :: words =>
      let ids := prefix_ids i w in
      if bool_decide (ids = []) then None
      else match results with
           | Some cur =>
               let cur := set_inter cur ids in
               if bool_decide (cur = []) then Some cur else search_prefixes i words (Some cur)
           | None => search_prefixes i words (Some ids)
           end
  end.
Definition search_prefix (i : Terms) (query_text : bytes) : option (list bytes) :=
  match tokenize query_text with [] => None | words => search_prefixes i words None end.
End Text.

(** ** Sets *)

Lemma elem_of_set_insert x s y : y ∈ set_insert x s ↔ y = x ∨ y ∈ s.
Proof.
  induction s as [|z s IH]; cbn [set_insert]; [by rewrite list_elem_of_singleton, elem_of_nil; naive_solver|].
  destruct (bytes_cmp x z) eqn:E; rewrite ?elem_of_cons, ?IH; [|naive_solver..].
  apply cmp_eq in E. naive_solver.
Qed.
Lemma set_insert_sorted x s : str_sorted s → str_sorted (set_insert x s).
Proof.
  induction 1 as [|z s Hs IH Hz]; cbn [set_insert]; [repeat constructor|].
  destruct (bytes_cmp x z) eqn:E; [by constructor| |].
  - constructor; [by constructor|]. constructor; [done|]. eapply Forall_impl; [exact Hz|]. intros w Hw. by eapply cmp_lt_trans.
  - constructor; [done|]. apply Forall_forall. intros w Hw. apply elem_of_set_insert in Hw as [->|Hw].
    + exact (proj1 (cmp_gt_lt bytes_cmp x z) E).
    + by apply (proj1 (Forall_forall _ _) Hz).
Qed.
Lemma set_insert_nonempty x s : set_insert x s ≠ [].
Proof. destruct s as [|y s]; cbn [set_insert]; [done|]. by destruct (bytes_cmp x y). Qed.
Lemma elem_of_set_remove x s y : y ∈ set_remove x s ↔ y ∈ s ∧ y ≠ x.
Proof.
  unfold set_remove. rewrite !list_elem_of_In, filter_In, negb_true_iff, <-not_true_iff_false, bytes_eqb_eq. done.
Qed.
Lemma elem_of_set_inter s t x : x ∈ set_inter s t ↔ x ∈ s ∧ x ∈ t.
Proof. unfold set_inter. by rewrite list_elem_of_In, filter_In, <-list_elem_of_In, bool_decide_eq_true. Qed.
Lemma elem_of_set_union s t x : x ∈ set_union s t ↔ x ∈ s ∨ x ∈ t.
Proof.
  unfold set_union. revert s; induction t as [|y t IH]; intros s; cbn [foldl]; [rewrite elem_of_nil; naive_solver|].
  rewrite IH, elem_of_set_insert, elem_of_cons. naive_solver.
Qed.
Lemma set_union_sorted s t : str_sorted s → str_sorted (set_union s t).
Proof. unfold set_union. revert s; induction t as [|y t IH]; intros s Hs; cbn [foldl]; [done|]. by apply IH, set_insert_sorted. Qed.

(** ** Rows *)

(** The document is filed under the key. *)
Definition row (t : Terms) (k id : bytes) : Prop := id ∈ default [] (assoc k t).
Definition terms_ok (t : Terms) : Prop := bt_sorted t ∧ Forall (λ kv, kv.2 ≠ [] ∧ str_sorted kv.2) t.

Lemma assoc_elem {A} (t : list (bytes * A)) k v : bt_sorted t → assoc k t = Some v ↔ (k, v) ∈ t.
Proof.
  intros Hs. split.
  - clear Hs. induction t as [|[k' v'] t IH]; cbn [assoc]; [done|]. destruct (bytes_eqb k' k) eqn:E.
    + intros [= ->]. apply bytes_eqb_eq in E as ->. by left.
    + intros H. right. by apply IH.
  - intros [i Hi]%list_elem_of_lookup. by apply (assoc_lookup t i (k, v)).
Qed.

Lemma assoc_bt_insert {A} (t : list (bytes * A)) k v k' :
  bt_sorted t → assoc k' (bt_insert k v t) = if bytes_eqb k k' then Some v else assoc k' t.
Proof.
  intros Hs. pose proof (bt_insert_sorted t k v Hs) as Hs'. apply option_eq. intros w.
  rewrite assoc_elem, elem_of_bt_insert by done. destruct (bytes_eqb k k') eqn:E.
  - apply bytes_eqb_eq in E as ->. naive_solver.
  - assert (k' ≠ k) by (intros ->; by rewrite bytes_eqb_refl in E). rewrite assoc_elem by done. naive_solver.
Qed.
Lemma assoc_bt_remove {A} (t : list (bytes * A)) k k' :
  bt_sorted t → assoc k' (bt_remove k t) = if bytes_eqb k k' then None else assoc k' t.
Proof.
  intros Hs. assert (bt_sorted (bt_remove k t)) as Hs' by (by apply filter_sorted). apply option_eq. intros w.
  rewrite assoc_elem, elem_of_bt_remove by done. destruct (bytes_eqb k k') eqn:E.
  - apply bytes_eqb_eq in E as ->. naive_solver.
  - assert (k' ≠ k) by (intros ->; by rewrite bytes_eqb_refl in E). rewrite assoc_elem by done. naive_solver.
Qed.

Lemma terms_entry t k : terms_ok t → str_sorted (default [] (assoc k t)).
Proof.
  intros [Hs Ht]. destruct (assoc k t) as [ids|] eqn:E; [|constructor]. apply assoc_elem in E; [|done].
  by destruct (proj1 (Forall_forall _ _) Ht _ E).
Qed.

Lemma bt_insert_Forall {A} (P : bytes * A → Prop) t k v : bt_sorted t → Forall P t → P (k, v) → Forall P (bt_insert k v t).
Proof.
  intros Hs Ht Hp. apply Forall_forall. intros [k' v'] [[-> ->]|[_ Hin]]%elem_of_bt_insert; [done| |done].
  by apply (proj1 (Forall_forall _ _) Ht).
Qed.

Lemma terms_insert_spec t k d : terms_ok t → terms_ok (terms_insert k d t) ∧
  ∀ k' d', row (terms_insert k d t) k' d' ↔ row t k' d' ∨ (k' = k ∧ d' = d).
Proof.
  intros Hok. pose proof Hok as [Hs Ht]. split; [split|].
  - by apply bt_insert_sorted.
  - apply bt_insert_Forall; [done|done|]. split; [apply set_insert_nonempty|]. by apply set_insert_sorted, terms_entry.
  - intros k' d'. unfold row, terms_insert. rewrite assoc_bt_insert by done. destruct (bytes_eqb k k') eqn:E.
    + apply bytes_eqb_eq in E as ->. cbn [default from_option id]. rewrite elem_of_set_insert. naive_solver.
    + assert (k' ≠ k) by (intros ->; by rewrite bytes_eqb_refl in E). naive_solver.
Qed.

Lemma terms_remove_spec t k d : terms_ok t → terms_ok (terms_remove k d t) ∧
  ∀ k' d', row (terms_remove k d t) k' d' ↔ row t k' d' ∧ ¬ (k' = k ∧ d' = d).
Proof.
  intros Hok. pose proof Hok as [Hs Ht]. pose proof (terms_entry t k Hok) as He. unfold terms_remove, row.
  destruct (assoc k t) as [ids|] eqn:E.
  2: { split; [done|]. intros k' d'. split; [|by intros [? _]]. intros Hr. split; [done|]. intros [-> ->].
       rewrite E in Hr. by apply not_elem_of_nil in Hr. }
  cbn [default from_option id] in He. assert (str_sorted (set_remove d ids)) as Hr by (by apply filter_sorted).
  pose proof (elem_of_set_remove d ids) as Hel. set (ids' := set_remove d ids) in *.
  assert (∀ t', (∀ k', default [] (assoc k' t') = if bytes_eqb k k' then ids' else default [] (assoc k' t)) →
    ∀ k' d', d' ∈ default [] (assoc k' t') ↔ d' ∈ default [] (assoc k' t) ∧ ¬ (k' = k ∧ d' = d)) as Hrows.
  { intros t' Ht' k' d'. rewrite Ht'. destruct (bytes_eqb k k') eqn:Ek.
    - apply bytes_eqb_eq in Ek as ->. rewrite E. cbn [default from_option]. rewrite Hel. naive_solver.
    - assert (k' ≠ k) by (intros ->; by rewrite bytes_eqb_refl in Ek). naive_solver. }
  destruct ids' as [|x xs]; (split; [split|apply Hrows; intros k'; rewrite ?assoc_bt_remove, ?assoc_bt_insert by done; by destruct (bytes_eqb k k')]).
  - by apply filter_sorted.
  - apply Forall_forall. intros [k' v'] [_ Hin]%elem_of_bt_remove. by apply (proj1 (Forall_forall _ _) Ht).
  - by apply bt_insert_sorted.
  - by apply bt_insert_Forall.
Qed.

(** A range scan returns the documents of the keys in the range. *)
Lemma sec_range_scan_spec i lo hi id :
  terms_ok i → id ∈ sec_range_scan i lo hi ↔ ∃ k, row i k id ∧ bytes_leb lo k = true ∧ bytes_leb k hi = true.
Proof.
  intros [Hs _]. unfold sec_range_scan, row. rewrite list_elem_of_join. setoid_rewrite list_elem_of_fmap. split.
  - intros (ids & Hid & [k ids'] & -> & Hin). unfold bt_range in Hin.
    apply list_elem_of_In, filter_In in Hin as [Hin [H1 H2]%andb_true_iff]. exists k. split_and!; [|done|done].
    apply list_elem_of_In, (assoc_elem i k ids' Hs) in Hin. by rewrite Hin.
  - intros (k & Hr & H1 & H2). destruct (assoc k i) as [ids|] eqn:E; [|by apply not_elem_of_nil in Hr].
    exists ids. split; [done|]. exists (k, ids). split; [done|]. unfold bt_range.
    apply list_elem_of_In, filter_In. cbn [fst]. rewrite H1, H2. split; [|done]. apply list_elem_of_In. by apply assoc_elem.
Qed.

(** ** Text search *)

Section TextFacts.
Context (to_lowercase : bytes → bytes) (is_alphanumeric : bytes → bool).
Abbreviation words := (tokenize to_lowercase is_alphanumeric).

Lemma inv_insert_spec i text d : terms_ok i → terms_ok (inv_insert to_lowercase is_alphanumeric text d i) ∧
  ∀ k d', row (inv_insert to_lowercase is_alphanumeric text d i) k d' ↔ row i k d' ∨ (k ∈ words text ∧ d' = d).
Proof.
  unfold inv_insert. generalize (words text) as ws. intros ws. revert i; induction ws as [|w ws IH]; intros i Hi; cbn [foldl].
  { split; [done|]. intros k d'. rewrite elem_of_nil. naive_solver. }
  destruct (terms_insert_spec i w d Hi) as [H1 H2]. destruct (IH _ H1) as [H3 H4]. split; [done|].
  intros k d'. rewrite H4, H2, elem_of_cons. naive_solver.
Qed.

Lemma inv_remove_spec i text d : terms_ok i → terms_ok (inv_remove to_lowercase is_alphanumeric text d i) ∧
  ∀ k d', row (inv_remove to_lowercase is_alphanumeric text d i) k d' ↔ row i k d' ∧ ¬ (k ∈ words text ∧ d' = d).
Proof.
  unfold inv_remove. generalize (words text) as ws. intros ws. revert i; induction ws as [|w ws IH]; intros i Hi; cbn [foldl].
  { split; [done|]. intros k d'. rewrite elem_of_nil. naive_solver. }
  destruct (terms_remove_spec i w d Hi) as [H1 H2]. destruct (IH _ H1) as [H3 H4]. split; [done|].
  intros k d'. rewrite H4, H2, elem_of_cons. naive_solver.
Qed.

Lemma search_words_spec i ws cur d :
  d ∈ default [] (search_words i ws cur) ↔
    (cur = None → ws ≠ []) ∧ (∀ s, cur = Some s → d ∈ s) ∧ ∀ w, w ∈ ws → row i w d.
Proof.
  revert cur; induction ws as [|w ws IH]; intros cur; cbn [search_words].
  { destruct cur as [s|]; cbn [default from_option].
    - split; [intros Hd; split_and!; [done|by intros ? [= <-]|by intros ? ?%not_elem_of_nil]|]. intros (_ & H & _). by apply H.
    - split; [by intros ?%not_elem_of_nil|]. intros (H & _). by destruct (H eq_refl). }
  unfold row. destruct (assoc w i) as [ids|] eqn:E; cbn [mbind option_bind].
  2: { cbn [default from_option]. split; [by intros ?%not_elem_of_nil|]. intros (_ & _ & H). specialize (H w ltac:(by left)).
       by rewrite E in H. }
  rewrite IH. unfold row. setoid_rewrite elem_of_cons. split.
  - intros (_ & H & Hw). split_and!; [done| |].
    + intros s ->. specialize (H _ eq_refl). by apply elem_of_set_inter in H as [? _].
    + intros w' [->|Hin]; [|by apply Hw]. rewrite E. specialize (H _ eq_refl). cbn. destruct cur; [|done].
      by apply elem_of_set_inter in H as [_ ?].
  - intros (_ & H & Hw). split_and!; [done| |by intros w' ?; apply Hw; right]. intros s [= <-].
    pose proof (Hw w (or_introl eq_refl)) as Hd. rewrite E in Hd. destruct cur as [s|]; [|done].
    apply elem_of_set_inter. split; [by apply H|done].
Qed.

(** A search returns the documents that have every word of the query. *)
Lemma search_spec i q d :
  d ∈ default [] (search to_lowercase is_alphanumeric i q) ↔ words q ≠ [] ∧ ∀ w, w ∈ words q → row i w d.
Proof.
  unfold search. destruct (words q) as [|w ws] eqn:E; [by cbn; rewrite elem_of_nil; naive_solver|].
  rewrite search_words_spec. split; [by intros (_ & _ & ?)|]. intros (_ & ?). split_and!; done.
Qed.

(** Terms in which U+10FFFF sorts after every rest of a term. *)
Definition tails_ok (k : bytes) : Prop := ∀ w r, k = w ++ r → bytes_lt r char_max.

Lemma bytes_leb_app w r : bytes_leb w (w ++ r) = true.
Proof.
  unfold bytes_leb. induction w as [|x w IH]; cbn [app bytes_cmp]; [by destruct r|]. by rewrite Z.compare_refl.
Qed.
Lemma bytes_ltb_app w r m : bytes_ltb (w ++ r) (w ++ m) = bytes_ltb r m.
Proof. unfold bytes_ltb. induction w as [|x w IH]; cbn [app bytes_cmp]; [done|]. by rewrite Z.compare_refl. Qed.

Lemma prefix_range w k m : bytes_leb w k = true → bytes_ltb k (w ++ m) = true → w `prefix_of` k.
Proof.
  unfold bytes_leb, bytes_ltb. revert k; induction w as [|x w IH]; intros k; [intros _ _; apply prefix_nil|].
  destruct k as [|y k]; cbn [app bytes_cmp]; [done|]. rewrite (Z.compare_antisym x y).
  destruct (x ?= y) eqn:E; cbn [CompOpp]; [|done..]. apply Z.compare_eq in E as ->. intros H1 H2. by apply prefix_cons, IH.
Qed.

Lemma prefix_ids_spec i w d :
  terms_ok i → Forall (λ kv, tails_ok kv.1) i →
  d ∈ prefix_ids i w ↔ ∃ k, w `prefix_of` k ∧ row i k d.
Proof.
  intros [Hs _] Hk. assert (∀ l s, d ∈ foldl (λ s (kv : bytes * list bytes), set_union s kv.2) s l ↔ d ∈ s ∨ ∃ kv, kv ∈ l ∧ d ∈ kv.2) as Hfold.
  { induction l as [|kv l IH]; intros s; cbn [foldl]; [setoid_rewrite elem_of_nil; naive_solver|].
    rewrite IH, elem_of_set_union. setoid_rewrite elem_of_cons. naive_solver. }
  unfold prefix_ids. rewrite Hfold, elem_of_nil. unfold bt_range_excl. split.
  - intros [[]|([k ids] & Hin & Hd)]. apply list_elem_of_In, filter_In in Hin as [Hin [H1 H2]%andb_true_iff]. cbn [fst snd] in *.
    exists k. split; [by eapply prefix_range|]. apply list_elem_of_In, assoc_elem in Hin; [|done]. unfold row. by rewrite Hin.
  - intros (k & [r ->] & Hr). right. unfold row in Hr. destruct (assoc (w ++ r) i) as [ids|] eqn:E; [|by apply not_elem_of_nil in Hr].
    exists (w ++ r, ids). split; [|done]. apply assoc_elem in E; [|done]. apply list_elem_of_In, filter_In.
    split; [by apply list_elem_of_In|]. cbn [fst]. rewrite bytes_leb_app, bytes_ltb_app. cbn [andb]. apply bytes_ltb_lt.
    by apply (proj1 (Forall_forall _ _) Hk _ E w r).
Qed.

Lemma search_prefixes_spec i ws cur d :
  d ∈ default [] (search_prefixes i ws cur) ↔
    (cur = None → ws ≠ []) ∧ (∀ s, cur = Some s → d ∈ s) ∧ ∀ w, w ∈ ws → d ∈ prefix_ids i w.
Proof.
  revert cur; induction ws as [|w ws IH]; intros cur; cbn [search_prefixes].
  { destruct cur as [s|]; cbn [default from_option].
    - split; [intros Hd; split_and!; [done|by intros ? [= <-]|by intros ? ?%not_elem_of_nil]|]. intros (_ & H & _). by apply H.
    - split; [by intros ?%not_elem_of_nil|]. intros (H & _). by destruct (H eq_refl). }
  setoid_rewrite elem_of_cons. case_bool_decide as E.
  { cbn. split; [by intros ?%not_elem_of_nil|]. intros (_ & _ & H). specialize (H w (or_introl eq_refl)). by rewrite E in H. }
  destruct cur as [s|].
  - case_bool_decide as Es.
    + cbn [default from_option]. rewrite Es. split; [by intros ?%not_elem_of_nil|]. intros (_ & H1 & H2). exfalso.
      assert (d ∈ set_inter s (prefix_ids i w)) as Hin by (apply elem_of_set_inter; split; [by apply H1|by apply H2; left]).
      rewrite Es in Hin. by apply not_elem_of_nil in Hin.
    + rewrite IH. split.
      * intros (_ & H1 & H2). specialize (H1 _ eq_refl). apply elem_of_set_inter in H1 as [Ha Hb].
        split_and!; [done|by intros ? [= <-]|]. by intros w' [->|?]; [|apply H2].
      * intros (_ & H1 & H2). split_and!; [done| |by intros w' ?; apply H2; right]. intros ? [= <-].
        apply elem_of_set_inter. split; [by apply H1|by apply H2; left].
  - rewrite IH. split.
    + intros (_ & H1 & H2). split_and!; [done|done|]. by intros w' [->|?]; [apply H1|apply H2].
    + intros (_ & _ & H2). split_and!; [done|intros ? [= <-]; by apply H2; left|by intros w' ?; apply H2; right].
Qed.

(** A prefix search returns the documents that have, for every word of the
    query, a term it starts. *)
Lemma search_prefix_spec i q d :
  terms_ok i → Forall (λ kv, tails_ok kv.1) i →
  d ∈ default [] (search_prefix to_lowercase is_alphanumeric i q) ↔
    words q ≠ [] ∧ ∀ w, w ∈ words q → ∃ k, w `prefix_of` k ∧ row i k d.
Proof.
  intros Hi Hk. unfold search_prefix. destruct (words q) as [|w ws] eqn:E; [by cbn; rewrite elem_of_nil; naive_solver|].
  rewrite search_prefixes_spec. setoid_rewrite prefix_ids_spec; [|done..].
  split; [by intros (_ & _ & ?)|]. intros (_ & ?). split_and!; done.
Qed.
End TextFacts.
