(* ===== verification/IndexManager.v ===== *)
(** * The index manager (src/index/manager.rs, service.rs)

    All index families of a database, by collection and field, and the hooks
    that keep them in step with the documents.  The vector graphs are left out:
    they are derived from the documents and read by vector scans alone.  The loops
    over a [HashMap] of fields treat every field on its own. *)

From stdpp Require Import prelude list gmap strings.
From Stdlib Require Import ZArith Lia.
From S2P Require Import Prelude RustStd Error Value Doc DocFacts DocCodec DocAccess StorageIndex Filter IndexKey Composite CompositeFacts CompositeManager Traverse Query TermIndex Blob Worker.

Local Open Scope Z_scope.
Local Open Scope hako_scope.

Record VectorDef := mkVec { dim : Z; vd_metric : Metric; vd_m : option Z; ef_construction : option Z; ef_search : option Z }.
Record HnswParams := mkHnsw { hp_m : option Z; hp_ef_construction : option Z; hp_ef_search : option Z }.
Definition MAX_DIM : Z := 4096.
Definition validate_dim (d : Z) : res unit :=
  if (d =? 0) || (MAX_DIM <? d) then Err (Corrupt "vector dim out of range") else Ok tt.

(** Indexes by collection and field. *)
Abbreviation ByField A := (gmap bytes (gmap bytes A)).

Record IndexManager := mkIM {
  composite : CompositeIndexManager;
  secondary : ByField (list (bytes * list bytes));
  fts : ByField (list (bytes * list bytes));
  vector : ByField VectorDef;
  traverse : BacklinkIndex }.
Definition im_empty : IndexManager := mkIM mg_empty ∅ ∅ ∅ (mkLinks ∅ ∅).

Definition im_with_secondary (s : ByField (list (bytes * list bytes))) (m : IndexManager) : IndexManager :=
  mkIM (composite m) s (fts m) (vector m) (traverse m).
Definition im_with_fts (s : ByField (list (bytes * list bytes))) (m : IndexManager) : IndexManager :=
  mkIM (composite m) (secondary m) s (vector m) (traverse m).

(** ** Registration *)

Section ByFieldOps.
Context {A : Type}.

(** [entry(collection).or_default().insert(field, index)]. *)
Definition bf_insert (c f : bytes) (i : A) (t : ByField A) : ByField A :=
  <[c := <[f := i]> (default ∅ (t !! c))]> t.
(** Removing a field; a collection without fields goes away. *)
Definition bf_drop (c f : bytes) (t : ByField A) : ByField A * bool :=
  match t !! c with
  | None => (t, false)
  | Some fs =>
      let fs' := base.delete f fs in
      (if bool_decide (fs' = ∅) then base.delete c t else <[c := fs']> t, bool_decide (is_Some (fs !! f)))
  end.
Definition bf_get (t : ByField A) (c f : bytes) : option A := m ← t !! c; m !! f.
(** A change of every field of a collection. *)
Definition bf_update (g : bytes → A → A) (c : bytes) (t : ByField A) : ByField A :=
  alter (map_imap (λ f i, Some (g f i))) c t.

(** [merge_maps_skipping]: only fields that are registered are replaced. *)
Definition merge_maps_skipping (into from : ByField A) (skip : gset bytes) : ByField A :=
  map_imap (λ c fs,
    Some (if bool_decide (c ∈ skip) then fs
          else match from !! c with
               | None => fs
               | Some new => map_imap (λ f i, Some (default i (new !! f))) fs
               end)) into.
End ByFieldOps.

Definition create_secondary_index (m : IndexManager) (c f : bytes) : IndexManager :=
  im_with_secondary (bf_insert c f [] (secondary m)) m.
Definition create_fts_index (m : IndexManager) (c f : bytes) : IndexManager :=
  im_with_fts (bf_insert c f [] (fts m)) m.
Definition create_vector_index (m : IndexManager) (c f : bytes) (d : Z) (metric : Metric) (params : HnswParams) : res IndexManager :=
  _ ← validate_dim d;
  Ok (mkIM (composite m) (secondary m) (fts m)
        (bf_insert c f (mkVec d metric (hp_m params) (hp_ef_construction params) (hp_ef_search params)) (vector m)) (traverse m)).
Definition im_create_index (m : IndexManager) (def : CompositeIndexDefinition) : IndexManager * Z :=
  let '(mc, id) := create_index (composite m) def in
  (mkIM mc (secondary m) (fts m) (vector m) (traverse m), id).
Definition drop_secondary_index (m : IndexManager) (c f : bytes) : IndexManager * bool :=
  let '(t, removed) := bf_drop c f (secondary m) in (im_with_secondary t m, removed).
Definition drop_fts_index (m : IndexManager) (c f : bytes) : IndexManager * bool :=
  let '(t, removed) := bf_drop c f (fts m) in (im_with_fts t m, removed).
Definition drop_traverse_index (m : IndexManager) (c : bytes) : IndexManager * bool :=
  let '(t, was) := untrack (traverse m) c in
  (mkIM (composite m) (secondary m) (fts m) (vector m) t, was).

(** [has_index]: an index whose first fields are the ones asked for. *)
Definition has_index (m : IndexManager) (c : bytes) (fields : list bytes) : bool :=
  if bool_decide (fields = []) then false
  else existsb (λ idx, let fs := d_fields (ci_definition idx) in
         negb (length fs <? length fields)%nat && forallb (λ '(d, f), bytes_eqb (cf_field d) f) (zip fs fields))
         (indexes_for_collection (composite m) c).
Definition has_matching_composite_index (q : Query) (m : IndexManager) : bool :=
  has_index m (q_collection q) (composite_fields q).

Definition im_has_collection (m : IndexManager) (c : bytes) : bool :=
  bool_decide (is_Some (secondary m !! c)) || bool_decide (is_Some (fts m !! c)) || has_collection (composite m) c ||
  bool_decide (is_Some (vector m !! c)) || is_tracked (traverse m) c.

(** [clear_collection], [drop_collection_defs]. *)
Definition im_clear_collection (m : IndexManager) (c : bytes) : IndexManager :=
  mkIM (clear_collection (composite m) c) (bf_update (λ _, sec_clear) c (secondary m)) (bf_update (λ _, inv_clear) c (fts m))
    (vector m) (links_clear_collection (traverse m) c).
Definition drop_collection_defs (m : IndexManager) (c : bytes) : IndexManager :=
  mkIM (drop_collection (composite m) c) (base.delete c (secondary m)) (base.delete c (fts m)) (base.delete c (vector m))
    (untrack (traverse m) c).1.

(** ** Maintenance *)

(** The key under which a document is filed, and the one it is removed from:
    the removal reads the body only. *)
Definition sec_key (doc_id : bytes) (doc : HakoDoc) (field : bytes) : option bytes :=
  if bytes_eqb field b#("id") then Some (encode_str_scalar doc_id)
  else if bytes_eqb field b#("_time") then Some (encode_scalar (Int (_time doc)))
  else encode_scalar <$> doc_get doc field.
Definition sec_removed_key (doc : HakoDoc) (field : bytes) : option bytes := encode_scalar <$> doc_get doc field.

Definition sec_put (doc_id : bytes) (doc : HakoDoc) (field : bytes) (i : list (bytes * list bytes)) :=
  match sec_key doc_id doc field with Some k => sec_insert k doc_id i | None => i end.
Definition sec_take (doc_id : bytes) (doc : HakoDoc) (field : bytes) (i : list (bytes * list bytes)) :=
  match sec_removed_key doc field with Some k => sec_remove k doc_id i | None => i end.

Section Hooks.
Context (to_lowercase : bytes → bytes) (is_alphanumeric : bytes → bool).

Definition fts_put (doc_id : bytes) (doc : HakoDoc) (field : bytes) (i : list (bytes * list bytes)) :=
  match doc_get doc field with Some (String text) => inv_insert to_lowercase is_alphanumeric text doc_id i | _ => i end.
Definition fts_take (doc_id : bytes) (doc : HakoDoc) (field : bytes) (i : list (bytes * list bytes)) :=
  match doc_get doc field with Some (String text) => inv_remove to_lowercase is_alphanumeric text doc_id i | _ => i end.

(** [index_document], [remove_document] and their batches. *)
Definition im_index_document (m : IndexManager) (c doc_id : bytes) (doc : HakoDoc) : IndexManager :=
  mkIM (mg_index_document to_lowercase (composite m) c doc_id doc)
    (bf_update (sec_put doc_id doc) c (secondary m)) (bf_update (fts_put doc_id doc) c (fts m)) (vector m)
    (index_doc (traverse m) c doc_id doc).
Definition im_remove_document (m : IndexManager) (c doc_id : bytes) (doc : HakoDoc) : IndexManager :=
  mkIM (mg_remove_document to_lowercase (composite m) c doc_id doc)
    (bf_update (sec_take doc_id doc) c (secondary m)) (bf_update (fts_take doc_id doc) c (fts m)) (vector m)
    (remove_doc (traverse m) c doc_id doc).
Definition im_index_batch (m : IndexManager) (c : bytes) (docs : list (bytes * HakoDoc)) : IndexManager :=
  foldl (λ m '(id, doc), im_index_document m c id doc) m docs.
Definition im_remove_batch (m : IndexManager) (c : bytes) (docs : list (bytes * HakoDoc)) : IndexManager :=
  foldl (λ m '(id, doc), im_remove_document m c id doc) m docs.

(** [backfill_fts], [backfill_composite]. *)
Definition backfill_fts (m : IndexManager) (c : bytes) (docs : list (bytes * HakoDoc)) : IndexManager :=
  im_with_fts (foldl (λ t '(id, doc), bf_update (fts_put id doc) c t) (fts m) docs) m.
Definition backfill_composite (m : IndexManager) (c : bytes) (docs : list (bytes * HakoDoc)) : IndexManager :=
  mkIM (mg_index_batch to_lowercase (composite m) c docs) (secondary m) (fts m) (vector m) (traverse m).

(** [resolve_vector_blobs]: the blobs of the vector fields are filled in before
    indexing; [None] when there is nothing to fill in. *)
Definition is_link (v : option Value) : bool := match v with Some (BlobLink _ _) => true | _ => false end.
Definition resolve_vector_blobs (doc : HakoDoc) (fields : list bytes) (blob_mgr : option BlobManager) : option HakoDoc :=
  mgr ← blob_mgr;
  if negb (existsb (λ f, is_link (doc_get doc f)) fields) then None
  else Some (foldl (λ out f, match doc_get out f with
                             | Some (BlobLink offset len) => doc_insert out f (resolve_single_blob mgr (BlobLink offset len))
                             | _ => out
                             end) doc fields).

(** The index worker on one [IndexOp::Update]: the new versions are indexed, then
    the deleted documents are removed.  The persisted log of the composite
    indexes and the counters of pending work are left out. *)
Definition apply_index_update (m : IndexManager) (c : bytes) (blob_mgr : option BlobManager)
    (puts deletes : list (bytes * HakoDoc)) : IndexManager :=
  let vec_fields := (map_to_list (default ∅ (vector m !! c))).*1 in
  let bm := if bool_decide (vec_fields = []) then None else blob_mgr in
  let m := foldl (λ m '(id, doc), im_index_document m c id (default doc (resolve_vector_blobs doc vec_fields bm))) m puts in
  foldl (λ m '(id, doc), im_remove_document m c id doc) m deletes.
End Hooks.

(** [lookup_secondary]. *)
Definition lookup_secondary (m : IndexManager) (c f value : bytes) : option (list bytes) :=
  i ← bf_get (secondary m) c f; Some (sec_range_scan i value value).

(** [backfill_secondary]. *)
Definition backfill_secondary (m : IndexManager) (c : bytes) (docs : list (bytes * HakoDoc)) : IndexManager :=
  im_with_secondary (foldl (λ t '(id, doc), bf_update (sec_put id doc) c t) (secondary m) docs) m.

(** ** Backfill from stored bytes *)

(** The keys of the fields that are wanted; [None] when one cannot be encoded. *)
Definition staged_key (tag : Z) (data : bytes) : option bytes :=
  match encode_raw_scalar tag data with
  | Some k => Some k
  | None => encode_scalar <$> decode_value tag data
  end.
Definition wanted (fields : gmap bytes (list (bytes * list bytes))) (key : bytes) : bool :=
  negb (bytes_eqb key b#("id")) && negb (bytes_eqb key b#("_time")) && bool_decide (is_Some (fields !! key)).
Definition stage_doc (fields : gmap bytes (list (bytes * list bytes))) (doc_id b : bytes) : option (list (bytes * bytes)) :=
  view ← view_new b;
  let '(items, it) := iter_all true (view_iter view) in
  if negb (fully_consumed it b) then None
  else
    staged ← mapM (λ '(key, tag, data), k ← staged_key tag data; Some (key, k))
                  (List.filter (λ '(key, _, _), wanted fields key) items);
    Some (staged ++
          (if bool_decide (is_Some (fields !! b#("id"))) then [(b#("id"), encode_str_scalar doc_id)] else []) ++
          (if bool_decide (is_Some (fields !! b#("_time"))) then [(b#("_time"), encode_scalar (Int (v_time view)))] else [])).
Definition insert_staged (doc_id : bytes) (fields : gmap bytes (list (bytes * list bytes))) (staged : list (bytes * bytes)) :=
  foldl (λ fields '(f, k), alter (sec_insert k doc_id) f fields) fields staged.

(** [backfill_secondary_borrowed]: [false] sends the caller to the owned path. *)
Definition backfill_secondary_borrowed (m : IndexManager) (c : bytes) (docs : list (bytes * bytes)) : IndexManager * bool :=
  if bool_decide (is_Some (fts m !! c)) || bool_decide (is_Some (vector m !! c)) || negb (links_empty (traverse m)) ||
     existsb (λ '(_, idx), bytes_eqb (d_collection (ci_definition idx)) c) (map_to_list (by_id (composite m)))
  then (m, false)
  else
    match secondary m !! c with
    | None => (m, true)
    | Some fields =>
        let fields := foldl (λ fields '(id, b), match stage_doc fields id b with
                                                | Some staged => insert_staged id fields staged
                                                | None => fields
                                                end) fields docs in
        (im_with_secondary (<[c := fields]> (secondary m)) m, true)
    end.

(** ** Snapshots *)

Abbreviation Entries := (ByField (list (bytes * list bytes))).
Abbreviation Trees := (gmap Z Composite.CompositeIndex * Z)%type.
Abbreviation WalTails := (gmap bytes (Z * Z)).

(** The serializer of the [bincode] crate at the tuples of a snapshot file: with
    tails, without, and the legacy pair. *)
Class Bincode := {
  ser_tails : Entries * Entries * Trees * WalTails → option bytes;
  ser_plain : Entries * Entries * Trees → option bytes;
  de_tails : bytes → option (Entries * Entries * Trees * WalTails);
  de_plain : bytes → option (Entries * Entries * Trees);
  de_legacy : bytes → option (Entries * Entries) }.
(** What was serialized reads back. *)
Class BincodeLaws `{Bincode} := {
  de_ser_tails x b : ser_tails x = Some b → de_tails b = Some x;
  de_ser_plain x b : ser_plain x = Some b → de_plain b = Some x }.

Section Snapshot.
Context `{Bincode}.

(** [export_state], [export_state_with_tails]. *)
Definition export_state (m : IndexManager) : res bytes :=
  match ser_plain (secondary m, fts m, export_snapshot (composite m)) with
  | Some b => Ok b
  | None => Err (Corrupt "Index export failed")
  end.
Definition export_state_with_tails (m : IndexManager) (tails : WalTails) : res bytes :=
  match ser_tails (secondary m, fts m, export_snapshot (composite m), tails) with
  | Some b => Ok b
  | None => Err (Corrupt "Index export failed")
  end.

(** [import_state]: the manager, whether the composite trees came along, and the
    tails. *)
Definition merge_entries (m : IndexManager) (sec fts' : Entries) (mc : CompositeIndexManager) (skip : gset bytes) : IndexManager :=
  mkIM mc (merge_maps_skipping (secondary m) sec skip) (merge_maps_skipping (fts m) fts' skip) (vector m) (traverse m).
Definition import_state (m : IndexManager) (b : bytes) (skip : gset bytes) : res (IndexManager * (bool * option WalTails)) :=
  match de_tails b with
  | Some (sec, fts', (trees, next_id), tails) =>
      Ok (merge_entries m sec fts' (import_snapshot_filtered (composite m) trees next_id skip) skip, (true, Some tails))
  | None =>
      match de_plain b with
      | Some (sec, fts', (trees, next_id)) =>
          Ok (merge_entries m sec fts' (import_snapshot_filtered (composite m) trees next_id skip) skip, (true, None))
      | None =>
          match de_legacy b with
          | Some (sec, fts') => Ok (merge_entries m sec fts' (composite m) skip, (false, None))
          | None => Err (Corrupt "Index import failed")
          end
      end
  end.
End Snapshot.
