(* ===== verification/IndexManagerFacts.v ===== *)
(** * The hooks keep the indexes exact

    The secondary and text indexes of a collection hold exactly its documents,
    whatever is written and removed; lookups return exactly the documents with
    the key or the words; the backfill from stored bytes is the backfill from
    documents. *)

From stdpp Require Import prelude list gmap strings.
From Stdlib Require Import ZArith Lia.
From S2P Require Import Prelude RustStd Error Varint Value Doc DocFacts DocCodec DocAccess StorageIndex Filter IndexKey Composite CompositeFacts CompositeManager Traverse Query TermIndex IndexManager.

Local Open Scope Z_scope.
Local Open Scope hako_scope.

Definition virtual_field (f : bytes) : bool := bytes_eqb f b#("id") || bytes_eqb f b#("_time").
Implicit Types docs : gmap bytes HakoDoc.

(** ** One secondary index *)

(** The rows are the documents that have the field, under its key. *)
Definition sec_exact (f : bytes) (i : list (bytes * list bytes)) docs : Prop :=
  terms_ok i ∧ ∀ k id, row i k id ↔ ∃ d, docs !! id = Some d ∧ sec_key id d f = Some k.

Lemma terms_ok_nil : terms_ok [].
Proof. split; constructor. Qed.
Lemma sec_exact_empty f : sec_exact f [] ∅.
Proof. split; [apply terms_ok_nil|]. intros k id. unfold row. cbn. rewrite elem_of_nil. setoid_rewrite lookup_empty. naive_solver. Qed.

Lemma sec_put_exact f i docs id d :
  docs !! id = None → sec_exact f i docs → sec_exact f (sec_put id d f i) (<[id := d]> docs).
Proof.
  intros Hid [Hok Hrow]. unfold sec_put. destruct (sec_key id d f) as [k|] eqn:Ek.
  - destruct (terms_insert_spec i k id Hok) as [H1 H2]. split; [done|]. intros k' id'. unfold sec_insert. rewrite H2, Hrow.
    destruct (decide (id' = id)) as [->|Hne].
    + rewrite lookup_insert_eq, Hid. naive_solver.
    + rewrite lookup_insert_ne by done. naive_solver.
  - split; [done|]. intros k' id'. rewrite Hrow. destruct (decide (id' = id)) as [->|Hne].
    + rewrite lookup_insert_eq, Hid. naive_solver.
    + by rewrite lookup_insert_ne by done.
Qed.

Lemma sec_removed_key_body id d f : virtual_field f = false → sec_removed_key d f = sec_key id d f.
Proof. unfold virtual_field, sec_key. intros [-> ->]%orb_false_iff. done. Qed.

Lemma sec_take_exact f i docs id d :
  virtual_field f = false → docs !! id = Some d → sec_exact f i docs → sec_exact f (sec_take id d f i) (base.delete id docs).
Proof.
  intros Hf Hid [Hok Hrow]. unfold sec_take. rewrite (sec_removed_key_body id) by done.
  destruct (sec_key id d f) as [k|] eqn:Ek.
  - destruct (terms_remove_spec i k id Hok) as [H1 H2]. split; [done|]. intros k' id'. unfold sec_remove. rewrite H2, Hrow.
    destruct (decide (id' = id)) as [->|Hne].
    + rewrite lookup_delete_eq, Hid. naive_solver.
    + rewrite lookup_delete_ne by done. naive_solver.
  - split; [done|]. intros k' id'. rewrite Hrow. destruct (decide (id' = id)) as [->|Hne].
    + rewrite lookup_delete_eq, Hid. naive_solver.
    + by rewrite lookup_delete_ne by done.
Qed.

Lemma leb_antisym a b : bytes_leb a b = true → bytes_leb b a = true → a = b.
Proof.
  unfold bytes_leb. intros H1 H2. destruct (bytes_cmp a b) eqn:E; try done; [by apply cmp_eq in E|].
  by rewrite (proj2 (cmp_gt_lt bytes_cmp b a) E) in H2.
Qed.
Lemma leb_refl a : bytes_leb a a = true.
Proof. unfold bytes_leb. by rewrite (cmp_refl bytes_cmp). Qed.

Lemma sec_point_lookup f i docs k id :
  sec_exact f i docs → id ∈ sec_range_scan i k k ↔ ∃ d, docs !! id = Some d ∧ sec_key id d f = Some k.
Proof.
  intros [Hok Hrow]. rewrite sec_range_scan_spec by done. split.
  - intros (k' & Hr & H1 & H2). rewrite (leb_antisym _ _ H1 H2) in *. by apply Hrow.
  - intros Hd. exists k. split; [by apply Hrow|]. by rewrite leb_refl.
Qed.

(** ** One text index *)

Section Text.
Context (to_lowercase : bytes → bytes) (is_alphanumeric : bytes → bool).
Abbreviation words := (tokenize to_lowercase is_alphanumeric).

Definition has_word (d : HakoDoc) (f w : bytes) : Prop := ∃ t, doc_get d f = Some (String t) ∧ w ∈ words t.
Definition fts_exact (f : bytes) (i : list (bytes * list bytes)) docs : Prop :=
  terms_ok i ∧ ∀ w id, row i w id ↔ ∃ d, docs !! id = Some d ∧ has_word d f w.

Lemma fts_exact_empty f : fts_exact f [] ∅.
Proof. split; [apply terms_ok_nil|]. intros k id. unfold row. cbn. rewrite elem_of_nil. setoid_rewrite lookup_empty. naive_solver. Qed.

Lemma fts_put_exact f i docs id d :
  docs !! id = None → fts_exact f i docs → fts_exact f (fts_put to_lowercase is_alphanumeric id d f i) (<[id := d]> docs).
Proof.
  intros Hid [Hok Hrow]. unfold fts_put.
  assert (∀ i', terms_ok i' → (∀ w id', row i' w id' ↔ row i w id' ∨ (has_word d f w ∧ id' = id)) → fts_exact f i' (<[id := d]> docs)) as Hgo.
  { intros i' H1 H2. split; [done|]. intros w id'. rewrite H2, Hrow. destruct (decide (id' = id)) as [->|Hne].
    - rewrite lookup_insert_eq, Hid. naive_solver.
    - rewrite lookup_insert_ne by done. naive_solver. }
  destruct (doc_get d f) as [[| | | |t| | | | | | |]|] eqn:Ed;
    try (apply Hgo; [done|]; intros w id'; unfold has_word; rewrite Ed; naive_solver).
  destruct (inv_insert_spec to_lowercase is_alphanumeric i t id Hok) as [H1 H2]. apply Hgo; [done|].
  intros w id'. rewrite H2. unfold has_word. rewrite Ed. naive_solver.
Qed.

Lemma fts_take_exact f i docs id d :
  docs !! id = Some d → fts_exact f i docs → fts_exact f (fts_take to_lowercase is_alphanumeric id d f i) (base.delete id docs).
Proof.
  intros Hid [Hok Hrow]. unfold fts_take.
  assert (∀ i', terms_ok i' → (∀ w id', row i' w id' ↔ row i w id' ∧ ¬ (has_word d f w ∧ id' = id)) → fts_exact f i' (base.delete id docs)) as Hgo.
  { intros i' H1 H2. split; [done|]. intros w id'. rewrite H2, Hrow. destruct (decide (id' = id)) as [->|Hne].
    - rewrite lookup_delete_eq, Hid. naive_solver.
    - rewrite lookup_delete_ne by done. naive_solver. }
  destruct (doc_get d f) as [[| | | |t| | | | | | |]|] eqn:Ed;
    try (apply Hgo; [done|]; intros w id'; unfold has_word; rewrite Ed; naive_solver).
  destruct (inv_remove_spec to_lowercase is_alphanumeric i t id Hok) as [H1 H2]. apply Hgo; [done|].
  intros w id'. rewrite H2. unfold has_word. rewrite Ed. naive_solver.
Qed.

(** ** The manager *)

Lemma bf_update_get {A} (g : bytes → A → A) c t c' f :
  bf_get (bf_update g c t) c' f = if bytes_eqb c' c then g f <$> bf_get t c' f else bf_get t c' f.
Proof.
  unfold bf_get, bf_update. destruct (bytes_eqb c' c) eqn:E.
  - apply bytes_eqb_eq in E as ->. rewrite lookup_alter_eq. destruct (t !! c) as [fs|]; [|done]. opt_simpl.
    rewrite map_lookup_imap. by destruct (fs !! f).
  - rewrite lookup_alter_ne; [done|]. intros ->. by rewrite bytes_eqb_refl in E.
Qed.

(** Every index of the collection holds exactly its documents; the virtual
    fields are left out. *)
Definition exact (m : IndexManager) (c : bytes) docs : Prop :=
  (∀ f i, bf_get (secondary m) c f = Some i → virtual_field f = false → sec_exact f i docs) ∧
  (∀ f i, bf_get (fts m) c f = Some i → fts_exact f i docs).

Lemma index_document_exact m c docs id d :
  docs !! id = None → exact m c docs → exact (im_index_document to_lowercase is_alphanumeric m c id d) c (<[id := d]> docs).
Proof.
  intros Hid [Hs Hf]. split; intros f i; cbn [im_index_document secondary fts]; rewrite bf_update_get, bytes_eqb_refl.
  - destruct (bf_get (secondary m) c f) as [i0|] eqn:E; [|done]. intros [= <-] Hv. by apply sec_put_exact, Hs.
  - destruct (bf_get (fts m) c f) as [i0|] eqn:E; [|done]. intros [= <-]. by apply fts_put_exact, Hf.
Qed.

Lemma remove_document_exact m c docs id d :
  docs !! id = Some d → exact m c docs → exact (im_remove_document to_lowercase is_alphanumeric m c id d) c (base.delete id docs).
Proof.
  intros Hid [Hs Hf]. split; intros f i; cbn [im_remove_document secondary fts]; rewrite bf_update_get, bytes_eqb_refl.
  - destruct (bf_get (secondary m) c f) as [i0|] eqn:E; [|done]. intros [= <-] Hv. by apply sec_take_exact; [..|apply Hs].
  - destruct (bf_get (fts m) c f) as [i0|] eqn:E; [|done]. intros [= <-]. by apply fts_take_exact, Hf.
Qed.

(** Clearing a collection and indexing its documents again. *)
Lemma clear_exact m c : exact (im_clear_collection m c) c ∅.
Proof.
  split; intros f i; cbn [im_clear_collection secondary fts]; rewrite bf_update_get, bytes_eqb_refl.
  - destruct (bf_get (secondary m) c f); [|done]. intros [= <-] _. apply sec_exact_empty.
  - destruct (bf_get (fts m) c f); [|done]. intros [= <-]. apply fts_exact_empty.
Qed.

Lemma index_batch_exact m c (ds : list (bytes * HakoDoc)) docs :
  NoDup ds.*1 → (∀ id, id ∈ ds.*1 → docs !! id = None) → exact m c docs →
  exact (im_index_batch to_lowercase is_alphanumeric m c ds) c (list_to_map ds ∪ docs).
Proof.
  revert m docs; induction ds as [|[id d] ds IH]; intros m docs Hnd Hfresh Hm.
  { cbn. by rewrite (left_id_L ∅ (∪)). }
  rewrite fmap_cons in Hnd, Hfresh. cbn [fst] in *. apply NoDup_cons in Hnd as [Hn Hnd]. cbn [im_index_batch foldl].
  fold (im_index_batch to_lowercase is_alphanumeric (im_index_document to_lowercase is_alphanumeric m c id d) c ds).
  rewrite list_to_map_cons.
  assert (<[id := d]> (list_to_map ds) ∪ docs = list_to_map ds ∪ <[id := d]> docs) as ->.
  { rewrite <-insert_union_r by (by apply not_elem_of_list_to_map_1). by rewrite insert_union_l. }
  apply IH; [done| |].
  - intros id' Hid'. rewrite lookup_insert_ne; [apply Hfresh; by right|]. by intros ->.
  - apply index_document_exact; [|done]. apply Hfresh. by left.
Qed.

Lemma remove_batch_exact m c (ds : list (bytes * HakoDoc)) docs :
  NoDup ds.*1 → Forall (λ kv, docs !! kv.1 = Some kv.2) ds → exact m c docs →
  exact (im_remove_batch to_lowercase is_alphanumeric m c ds) c (docs ∖ list_to_map ds).
Proof.
  revert m docs; induction ds as [|[id d] ds IH]; intros m docs Hnd Hst Hm.
  { cbn. by rewrite map_difference_empty. }
  rewrite fmap_cons in Hnd. cbn [fst] in *. apply NoDup_cons in Hnd as [Hn Hnd]. inversion_clear Hst as [|? ? H1 H2]. cbn [fst snd] in H1.
  cbn [im_remove_batch foldl].
  fold (im_remove_batch to_lowercase is_alphanumeric (im_remove_document to_lowercase is_alphanumeric m c id d) c ds).
  rewrite list_to_map_cons.
  assert (docs ∖ <[id := d]> (list_to_map ds) = base.delete id docs ∖ list_to_map ds) as ->.
  { apply map_eq. intros k. apply option_eq. intros x. rewrite !lookup_difference_Some, lookup_insert_None, lookup_delete_Some. naive_solver. }
  apply IH; [done| |by apply remove_document_exact].
  apply Forall_forall. intros [k v] Hkv. cbn [fst snd]. rewrite lookup_delete_ne.
  - by apply (proj1 (Forall_forall _ _) H2 (k, v)).
  - intros ->. apply Hn. apply list_elem_of_fmap. by exists (k, v).
Qed.

(** An update whose puts are new documents and whose deletes are stored ones
    keeps the indexes exact. *)
Lemma apply_update_exact m c bm puts deletes docs :
  vector m !! c = None →
  NoDup puts.*1 → (∀ id, id ∈ puts.*1 → docs !! id = None) →
  NoDup deletes.*1 → Forall (λ kv, docs !! kv.1 = Some kv.2) deletes → exact m c docs →
  exact (apply_index_update to_lowercase is_alphanumeric m c bm puts deletes) c ((list_to_map puts ∪ docs) ∖ list_to_map deletes).
Proof.
  intros Hv Hp Hf Hd Hst Hm. unfold apply_index_update. rewrite Hv. cbn [default from_option].
  assert ((map_to_list (∅ : gmap bytes VectorDef)).*1 = []) as -> by done.
  rewrite bool_decide_true by done. cbn [resolve_vector_blobs mbind option_bind default from_option].
  apply remove_batch_exact; [done| |by apply index_batch_exact].
  eapply Forall_impl; [exact Hst|]. intros [id d] Hid. cbn [fst snd] in *. rewrite lookup_union_r; [done|].
  apply not_elem_of_list_to_map_1. intros Hin. by rewrite (Hf _ Hin) in Hid.
Qed.
End Text.

(** ** Stored bytes *)

Lemma as_u8_byte z : is_byte (as_u8 z).
Proof. unfold is_byte, as_u8. pose proof (Z.mod_pos_bound z (2 ^ 8)). lia. Qed.

Lemma with_len_bytes b : bytes_ok b → bytes_ok (with_len b).
Proof. intros Hb. apply Forall_app. split; [apply to_le_ok|done]. Qed.

Lemma name_bytes k : name_ok k = true → bytes_ok k.
Proof. intros [Hu _]%name_ok_inv. by apply utf8_valid_bytes. Qed.

Lemma encode_value_bytes v : encodable v = true → bytes_ok (encode_value v).
Proof.
  induction v as [|b|n|n|s|s|o l|c d|n| |fs IH|vs IH] using Value_rect'; cbn [encodable encode_value]; intros Hv; bool_simpl.
  all: try (repeat constructor; done).
  - destruct b; repeat constructor; done.
  - split_if as E.
    + bool_simpl. constructor; [|constructor]. rewrite as_u8_id by (unfold is_byte; lia). unfold is_byte.
      assert (n ∈ seqZ 0 16) as Hin by (apply elem_of_seqZ; lia). clear - Hin. revert n Hin. apply Forall_forall. vm_compute.
      repeat constructor; done.
    + constructor; [done|]. apply with_len_bytes, encode_varint_ok. pose proof (zigzag_encode_u64 n) as [? _]. done.
  - constructor; [done|]. apply Forall_app. split; apply to_le_ok.
  - split_if as E.
    + bool_simpl. constructor; [|by apply utf8_valid_bytes]. pose proof (zlen_nonneg s).
      rewrite as_u8_id by (unfold is_byte; lia). unfold is_byte.
      assert (zlen s ∈ seqZ 0 8) as Hin by (apply elem_of_seqZ; lia). revert Hin. generalize (zlen s). clear.
      intros z. revert z. apply Forall_forall. vm_compute. repeat constructor; done.
    + constructor; [done|]. by apply with_len_bytes, utf8_valid_bytes.
  - constructor; [done|]. by apply with_len_bytes, forallb_byteb.
  - constructor; [done|]. repeat (apply Forall_app; split); apply to_le_ok.
  - constructor; [done|]. apply with_len_bytes. constructor; [apply as_u8_byte|]. apply Forall_app. split; [by apply name_bytes|].
    constructor; [apply as_u8_byte|by apply name_bytes].
  - constructor; [done|]. apply with_len_bytes, encode_varint_ok. pose proof (zigzag_encode_u64 n) as [? _]. done.
  - constructor; [done|]. apply with_len_bytes, Forall_app. split; [apply to_le_ok|]. clear - IH H1.
    induction IH as [|[k v] fs Hv _ IH]; [constructor|]. cbn [forallb fst snd] in H1. bool_simpl. cbn [fmap list_fmap concat fst snd].
    apply Forall_app. split; [|by apply IH]. constructor; [apply as_u8_byte|]. apply Forall_app. split; [by apply name_bytes|by apply Hv].
  - constructor; [done|]. apply with_len_bytes, Forall_app. split; [apply to_le_ok|]. clear - IH H1.
    induction IH as [|v vs Hv _ IH]; [constructor|]. cbn [forallb] in H1. bool_simpl. cbn [fmap list_fmap concat].
    apply Forall_app. split; [by apply Hv|by apply IH].
Qed.

(** The key staged from the stored bytes is the key of the value. *)
Lemma staged_key_encoded v tag data :
  encodable v = true → encode_value v = tag :: data → staged_key tag data = Some (encode_scalar v).
Proof.
  intros Hv E. pose proof (decode_value_encoded _ _ _ Hv E) as Hd. unfold staged_key. rewrite Hd.
  pose proof (encode_value_bytes v Hv) as Hb. rewrite E in Hb. inversion_clear Hb.
  destruct (decide (tag = 8)) as [->|H8]; [done|]. destruct (decide (tag = 9)) as [->|H9]; [done|].
  rewrite encode_raw_scalar_decoded by done. by rewrite Hd.
Qed.

Lemma mapM_staged (fields : gmap bytes (list (bytes * list bytes))) fs :
  forallb (λ kv, name_ok kv.1 && encodable kv.2) fs = true →
  mapM (λ '(key, tag, data), k ← staged_key tag data; Some (key, k))
       (List.filter (λ '(key, _, _), wanted fields key) (entry_item <$> fs)) =
  Some ((λ kv, (kv.1, encode_scalar kv.2)) <$> List.filter (λ kv, wanted fields kv.1) fs).
Proof.
  induction fs as [|[k v] fs IH]; intros Hok; [done|]. cbn [forallb fst snd] in Hok. apply andb_true_iff in Hok as [[_ Hv]%andb_true_iff Hok].
  destruct (encode_value_framed v Hv) as (tag & data & E & _). rewrite fmap_cons, (entry_item_eq _ _ _ _ E).
  cbn [List.filter fst]. destruct (wanted fields k); [|by apply IH]. cbn [mapM]. rewrite (staged_key_encoded v _ _ Hv E). opt_simpl.
  by rewrite (IH Hok).
Qed.

(** The staged rows of a document. *)
Definition doc_staged (fields : gmap bytes (list (bytes * list bytes))) (id : bytes) (d : HakoDoc) : list (bytes * bytes) :=
  ((λ kv, (kv.1, encode_scalar kv.2)) <$> List.filter (λ kv, wanted fields kv.1) (Doc.fields d)) ++
  (if bool_decide (is_Some (fields !! b#("id"))) then [(b#("id"), encode_str_scalar id)] else []) ++
  (if bool_decide (is_Some (fields !! b#("_time"))) then [(b#("_time"), encode_scalar (Int (_time d)))] else []).

Lemma stage_doc_encoded fields id d :
  doc_encodable d = true → stage_doc fields id (encode d) = Some (doc_staged fields id d).
Proof.
  intros Hd. unfold stage_doc. rewrite view_new_encode by done. opt_simpl. unfold view_iter. cbn [v_bytes v_count v_time].
  replace (Z.to_nat (zlen (Doc.fields d))) with (length (Doc.fields d)) by (unfold zlen; lia). rewrite iter_all_encode by done.
  unfold fully_consumed. cbn [it_remaining it_pos]. rewrite Z.eqb_refl. cbn [Nat.eqb andb negb].
  rewrite mapM_staged by apply (doc_encodable_inv d Hd). done.
Qed.

(** With distinct names, inserting staged rows changes every field at most once. *)
Lemma insert_staged_lookup id (staged : list (bytes * bytes)) fields f :
  NoDup staged.*1 →
  insert_staged id fields staged !! f = match assoc f staged with Some k => sec_insert k id <$> fields !! f | None => fields !! f end.
Proof.
  unfold insert_staged. revert fields; induction staged as [|[g k] staged IH]; intros fields Hnd; [done|].
  rewrite fmap_cons in Hnd. apply NoDup_cons in Hnd as [Hn Hnd]. cbn [foldl assoc fst] in *. rewrite IH by done.
  destruct (bytes_eqb g f) eqn:E.
  - apply bytes_eqb_eq in E as ->. rewrite assoc_None by done. by rewrite lookup_alter_eq.
  - rewrite lookup_alter_ne; [done|]. intros ->. by rewrite bytes_eqb_refl in E.
Qed.

Lemma assoc_filter {A} (P : bytes → bool) (l : list (bytes * A)) k :
  assoc k (List.filter (λ kv, P kv.1) l) = if P k then assoc k l else None.
Proof.
  induction l as [|[k' v] l IH]; cbn [List.filter assoc fst]; [by destruct (P k)|].
  destruct (bytes_eqb k' k) eqn:E.
  - apply bytes_eqb_eq in E as ->. destruct (P k) eqn:Ep; [|exact IH]. cbn [assoc]. by rewrite bytes_eqb_refl.
  - destruct (P k'); [cbn [assoc]; rewrite E|]; exact IH.
Qed.
Lemma assoc_fmap {A B} (g : A → B) (l : list (bytes * A)) k : assoc k ((λ kv, (kv.1, g kv.2)) <$> l) = g <$> assoc k l.
Proof. induction l as [|[k' v] l IH]; [done|]. rewrite fmap_cons. cbn [assoc fst snd]. by destruct (bytes_eqb k' k). Qed.

Lemma assoc_staged fields id d f :
  doc_sorted d → is_Some (fields !! f) → assoc f (doc_staged fields id d) = sec_key id d f.
Proof.
  intros Hs Hf. unfold doc_staged, sec_key. rewrite !assoc_app, assoc_fmap, (assoc_filter (wanted fields)), <-doc_get_assoc by done.
  unfold wanted. rewrite (bool_decide_true (is_Some (fields !! f))) by done. rewrite andb_true_r.
  destruct (bytes_eqb f b#("id")) eqn:Ei.
  { apply bytes_eqb_eq in Ei as ->. cbn [negb andb fmap option_fmap option_map]. rewrite bool_decide_true by done. done. }
  destruct (bytes_eqb f b#("_time")) eqn:Et.
  { apply bytes_eqb_eq in Et as ->. cbn [negb andb fmap option_fmap option_map]. rewrite (bool_decide_true (is_Some (fields !! b#("_time")))) by done.
    by case_bool_decide. }
  cbn [negb andb]. destruct (encode_scalar <$> doc_get d f); [done|].
  assert (∀ (b : bytes), bytes_eqb f b = false → bytes_eqb b f = false) as Hsym.
  { intros b. unfold bytes_eqb. rewrite !bool_decide_eq_false. congruence. }
  do 2 case_bool_decide; cbn [assoc app]; rewrite ?(Hsym _ Ei), ?(Hsym _ Et); done.
Qed.

Lemma staged_NoDup fields id d : doc_sorted d → NoDup (doc_staged fields id d).*1.
Proof.
  intros Hs. unfold doc_staged. rewrite !fmap_app.
  assert (∀ l : list (bytes * Value), ((λ kv, (kv.1, encode_scalar kv.2)) <$> l).*1 = l.*1) as ->.
  { induction l as [|kv l IH]; [done|]. rewrite !fmap_cons, IH. done. }
  apply NoDup_app. split_and!.
  - apply (key_sorted_NoDup fst). by apply filter_sorted.
  - intros k (kv & -> & Hkv)%list_elem_of_fmap Hin. apply list_elem_of_In, filter_In in Hkv as [_ Hk].
    unfold wanted in Hk. apply andb_true_iff in Hk as [[H1 H2]%andb_true_iff _].
    assert (∀ b, negb (bytes_eqb kv.1 b) = true → kv.1 ≠ b) as Hne by (intros b Hb E; by rewrite E, bytes_eqb_refl in Hb).
    apply Hne in H1, H2. do 2 case_bool_decide; cbn [app fmap list_fmap fst] in Hin; rewrite ?elem_of_cons, ?elem_of_nil in Hin; naive_solver.
  - do 2 case_bool_decide; apply (bool_decide_unpack (NoDup _)); by vm_compute.
Qed.

Lemma insert_staged_doc fields id d :
  doc_sorted d → insert_staged id fields (doc_staged fields id d) = map_imap (λ f i, Some (sec_put id d f i)) fields.
Proof.
  intros Hs. apply map_eq. intros f. rewrite insert_staged_lookup, map_lookup_imap by (by apply staged_NoDup).
  destruct (fields !! f) as [i|] eqn:Ef; [|by destruct (assoc f _)]. rewrite assoc_staged by done. opt_simpl. unfold sec_put.
  by destruct (sec_key id d f).
Qed.

(** The fast backfill files what the owned one files. *)
Lemma backfill_agrees m c (docs : list (bytes * HakoDoc)) :
  fts m !! c = None → vector m !! c = None → links_empty (traverse m) = true →
  existsb (λ '(_, idx), bytes_eqb (d_collection (ci_definition idx)) c) (map_to_list (by_id (composite m))) = false →
  Forall (λ kv, doc_encodable kv.2 = true ∧ doc_sorted kv.2) docs →
  backfill_secondary_borrowed m c ((λ kv, (kv.1, encode kv.2)) <$> docs) = (backfill_secondary m c docs, true).
Proof.
  intros Hf Hv Hl Hc Hd. unfold backfill_secondary_borrowed, backfill_secondary. rewrite Hf, Hv, Hl, Hc.
  rewrite !bool_decide_false by (by intros [? [=]]). cbn [orb negb]. f_equal.
  assert (∀ t, foldl (λ t '(id, doc), bf_update (sec_put id doc) c t) t docs =
    match t !! c with Some fs => <[c := foldl (λ fs '(id, doc), map_imap (λ f i, Some (sec_put id doc f i)) fs) fs docs]> t | None => t end) as Howned.
  { clear. induction docs as [|[id d] docs IH]; intros t; cbn [foldl].
    - destruct (t !! c) eqn:E; [|done]. by rewrite insert_id.
    - rewrite IH. unfold bf_update. rewrite lookup_alter_eq. destruct (t !! c) as [fs|] eqn:E; opt_simpl.
      + apply map_eq. intros c'. destruct (decide (c' = c)) as [->|Hne].
        * by rewrite !lookup_insert_eq.
        * rewrite !lookup_insert_ne by congruence. by rewrite lookup_alter_ne by congruence.
      + apply map_eq. intros c'. destruct (decide (c' = c)) as [->|Hne]; [by rewrite lookup_alter_eq, E|by rewrite lookup_alter_ne by congruence]. }
  rewrite Howned. destruct (secondary m !! c) as [fs|]; [|by destruct m]. f_equal. f_equal. clear Howned Hf Hv Hl Hc.
  revert fs; induction Hd as [|[id d] docs [H1 H2] Hd IH]; intros fs; [done|]. rewrite fmap_cons. cbn [foldl fst snd].
  rewrite stage_doc_encoded, insert_staged_doc by done. apply IH.
Qed.

(** ** Snapshots *)

Lemma merge_maps_get {A} (into from : gmap bytes (gmap bytes A)) skip c f :
  bf_get (merge_maps_skipping into from skip) c f =
    (λ i, if bool_decide (c ∈ skip) then i else default i (bf_get from c f)) <$> bf_get into c f.
Proof.
  unfold bf_get, merge_maps_skipping. rewrite map_lookup_imap. destruct (into !! c) as [fs|]; [|done]. opt_simpl.
  case_bool_decide as Es; [by destruct (fs !! f)|]. destruct (from !! c) as [new|] eqn:Ec; opt_simpl; [|by destruct (fs !! f)].
  rewrite map_lookup_imap. by destruct (fs !! f).
Qed.

Lemma merge_maps_restores {A} (into from : gmap bytes (gmap bytes A)) c f :
  (is_Some (bf_get into c f) ↔ is_Some (bf_get from c f)) →
  bf_get (merge_maps_skipping into from ∅) c f = bf_get from c f.
Proof.
  intros Hdom. rewrite merge_maps_get, bool_decide_false by set_solver.
  destruct (bf_get from c f) as [i|] eqn:E.
  - destruct (proj2 Hdom (mk_is_Some _ _ eq_refl)) as [i0 ->]. done.
  - destruct (bf_get into c f) as [i0|]; [|done]. destruct (proj1 Hdom (mk_is_Some _ _ eq_refl)) as [? [=]].
Qed.

(** A manager with the same fields registered gets the entries back. *)
Lemma snapshot_restores `{BincodeLaws} m m0 tails b :
  export_state_with_tails m tails = Ok b →
  (∀ c f, is_Some (bf_get (secondary m0) c f) ↔ is_Some (bf_get (secondary m) c f)) →
  (∀ c f, is_Some (bf_get (fts m0) c f) ↔ is_Some (bf_get (fts m) c f)) →
  ∃ m', import_state m0 b ∅ = Ok (m', (true, Some tails)) ∧
    ∀ c f, bf_get (secondary m') c f = bf_get (secondary m) c f ∧ bf_get (fts m') c f = bf_get (fts m) c f.
Proof.
  intros He Hs Hf. unfold export_state_with_tails in He.
  destruct (ser_tails _) as [b'|] eqn:E; [|done]. injection He as ->. apply de_ser_tails in E.
  unfold import_state. rewrite E. eexists. split; [done|]. intros c f. cbn [merge_entries secondary fts].
  by rewrite !merge_maps_restores.
Qed.

(** ** What the hooks miss *)

(** The writer sends the new version of an overwritten document and no delete of
    the old one: the row of the old value stays. *)
Lemma overwrite_leaves_row :
  let m := create_secondary_index im_empty b#("c") b#("role") in
  let put d m := apply_index_update id (λ _, true) m b#("c") None [(b#("a"), d)] [] in
  let m := put (mkDoc [(b#("role"), String b#("user"))] 2) (put (mkDoc [(b#("role"), String b#("admin"))] 1) m) in
  lookup_secondary m b#("c") b#("role") (encode_scalar (String b#("admin"))) = Some [b#("a")].
Proof. vm_compute. done. Qed.

(** A batch that deletes a document and puts it again with the same value: the
    delete is applied after the put and takes the new row away. *)
Lemma replaced_document_loses_row :
  let old := mkDoc [(b#("role"), String b#("admin"))] 1 in
  let new := mkDoc [(b#("role"), String b#("admin"))] 2 in
  let m := create_secondary_index im_empty b#("c") b#("role") in
  let m := apply_index_update id (λ _, true) m b#("c") None [(b#("a"), old)] [] in
  let m := apply_index_update id (λ _, true) m b#("c") None [(b#("a"), new)] [(b#("a"), old)] in
  lookup_secondary m b#("c") b#("role") (encode_scalar (String b#("admin"))) = Some [].
Proof. vm_compute. done. Qed.

(** Removing a document reads the body only: the row of a virtual field stays. *)
Lemma delete_leaves_virtual_row :
  let d := mkDoc [] 1 in
  let m := create_secondary_index im_empty b#("c") b#("_time") in
  let m := apply_index_update id (λ _, true) m b#("c") None [(b#("a"), d)] [] in
  let m := apply_index_update id (λ _, true) m b#("c") None [] [(b#("a"), d)] in
  lookup_secondary m b#("c") b#("_time") (encode_scalar (Int 1)) = Some [b#("a")].
Proof. vm_compute. done. Qed.
