(* ===== verification/Planner.v ===== *)
(** * The query planner (src/query/planner.rs)

    From a query and the registered indexes to a plan: the scan, the rows it may
    stop at, and whether it already answers the filters and the order.  The
    priorities of [plan] are tried in order. *)

From stdpp Require Import prelude list gmap strings.
From Stdlib Require Import ZArith Lia.
From S2P Require Import Prelude RustStd Error Value Doc StorageIndex Filter IndexKey Composite CompositeManager Traverse Query TermIndex IndexManager.

Local Open Scope Z_scope.
Local Open Scope hako_scope.

Definition op_is (op : Operator) (f : Filter) : bool := bool_decide (f_op f = op).

(** [composite_def_usable]: a partial index serves queries that pin its
    conditions. *)
Definition pins (cond f : Filter) : bool :=
  bytes_eqb (f_field f) (f_field cond) &&
  match f_op f, f_op cond with
  | OpEq, OpEq => value_eqb (f_value f) (f_value cond)
  | OpIn, OpEq => match f_value f with Array [x] => value_eqb x (f_value cond) | _ => false end
  | _, _ => false
  end.
Definition composite_def_usable (def : CompositeIndexDefinition) (q : Query) : bool :=
  match d_filter def with
  | None => true
  | Some group =>
      match g_logic group with
      | LAnd => forallb (λ cond, existsb (pins cond) (q_filters q)) (g_filters group)
      | LOr => false
      end
  end.

(** [make_plan]. *)
Definition cursor_given (b : option (list Value)) : bool := match b with Some (_ :: _) => true | _ => false end.
Definition make_plan (q : Query) (s : ScanType) (limit : option nat) (order_satisfied filters_satisfied : bool) : QueryPlan :=
  mkPlan (q_collection q) s (q_filters q) (q_or_groups q) (q_elem_match q) (q_order_by q) (q_limit q) (q_offset q)
    (q_projection q) limit (bool_decide (length (q_order_by q) = 0%nat) || order_satisfied)
    (filters_satisfied && bool_decide (length (q_elem_match q) = 0%nat)) (q_defer_blobs q) (q_raw q)
    (existsb cursor_given [q_start_at q; q_start_after q; q_end_at q; q_end_before q]).
Definition with_filters (fs : list Filter) (p : QueryPlan) : QueryPlan :=
  mkPlan (p_collection p) (scan p) fs (or_groups p) (elem_match p) (p_order_by p) (p_limit p) (p_offset p) (projection p)
    (scan_limit p) (order_by_satisfied p) (filters_satisfied_by_index p) (defer_blobs p) (p_raw p) (has_cursor_bounds p).

(** [query.limit.map(|l| l + query.offset.unwrap_or(0))]. *)
Definition limit_with_offset (q : Query) : option nat := (λ l, (l + default 0 (q_offset q))%nat) <$> q_limit q.
Definition no_filters (q : Query) : bool :=
  bool_decide (length (q_filters q) = 0%nat) && bool_decide (length (q_or_groups q) = 0%nat).

(** [anchor_id]. *)
Definition anchor_id (v : Value) : option bytes :=
  match v with String s => Some s | Int i => Some (int_to_string i) | _ => None end.

(** [id_order_sortedkeys]. *)
Definition id_order_sortedkeys (q : Query) : option ScanType :=
  match q_order_by q with
  | [first] =>
      if negb (bytes_eqb (o_field first) b#("id")) || bool_decide (is_Some (q_end_at q)) ||
         bool_decide (is_Some (q_end_before q)) || negb (no_filters q)
      then None
      else
        '(start_key, start_exclusive) ←
          match q_start_at q, q_start_after q with
          | Some (v :: _), _ => k ← anchor_id v; Some (Some k, false)
          | _, Some (v :: _) => k ← anchor_id v; Some (Some k, true)
          | _, _ => Some (None, false)
          end;
        Some (SortedKeys start_key start_exclusive (negb (ascending first)))
  | _ => None
  end.

(** [try_plan_vector]. *)
Definition try_plan_vector (q : Query) (m : IndexManager) : option QueryPlan :=
  match List.filter (op_is OpNear) (q_filters q), q_or_groups q with
  | [nf], [] =>
      match f_value nf with
      | Binary qb =>
          def ← bf_get (vector m) (q_collection q) (f_field nf);
          if negb (zlen qb mod 4 =? 0) || negb (zlen qb / 4 =? dim def) then None
          else
            let extra := List.filter (λ f, negb (op_is OpNear f)) (q_filters q) in
            Some (with_filters extra
                    (make_plan q (VectorKnn (f_field nf) qb (vd_metric def) extra) (limit_with_offset q) false true))
      | _ => None
      end
  | _, _ => None
  end.

(** ** Numbers in other encodings *)

(** [f64 as i64] of an integral float in range, saturating at the ends. *)
Definition f64_trunc (b : Z) : Z :=
  let '(num, den) := f64_fraction (f64_abs b) in
  let n := if f64_abs b =? 0 then 0 else num / den in
  let n := if b <? 2 ^ 63 then n else - n in
  Z.max (- 2 ^ 63) (Z.min n (2 ^ 63 - 1)).
Definition f64_as_i64 (b : Z) : Z :=
  if f64_is_nan b then 0
  else if f64_abs b =? f64_inf then (if b <? 2 ^ 63 then 2 ^ 63 - 1 else - 2 ^ 63)
  else f64_trunc b.
(** [f.fract() == 0.0], for a finite float. *)
Definition f64_integral (b : Z) : bool :=
  let '(num, den) := f64_fraction (f64_abs b) in (f64_abs b =? 0) || (num mod den =? 0).

(** [numeric_alternatives]. *)
Definition numeric_alternatives (v : Value) : list Value :=
  v :: match v with
       | String s =>
           match parse_i64 s with Some i => [Int i] | None => [] end ++
           match parse_f64 s with Some f => if f64_is_finite f then [Float f] else [] | None => [] end
       | Int i =>
           String (int_to_string i) :: (if f64_as_i64 (i64_to_f64 i) =? i then [Float (i64_to_f64 i)] else [])
       | Float f =>
           String (f64_to_string f) ::
           (if f64_is_finite f && f64_integral f &&
               match f64_partial_cmp f (i64_to_f64 (- 2 ^ 63)) with Some Lt | None => false | _ => true end &&
               match f64_partial_cmp f (i64_to_f64 (2 ^ 63 - 1)) with Some Gt | None => false | _ => true end
            then [Int (f64_as_i64 f)] else [])
       | _ => []
       end.

(** ** Single filters and unions *)

Definition collection_defs (m : IndexManager) (c : bytes) : list CompositeIndexDefinition :=
  ci_definition <$> indexes_for_collection (composite m) c.
Definition has_secondary (m : IndexManager) (c f : bytes) : bool := bool_decide (is_Some (bf_get (secondary m) c f)).

(** [get_single_filter_scan]. *)
Definition alternative_scan (c field : bytes) (m : IndexManager) (q : Query) (alt : Value) : option ScanType :=
  match List.find (λ def, composite_def_usable def q &&
                          match d_fields def with f :: _ => bytes_eqb (cf_field f) field | [] => false end)
                  (collection_defs m c) with
  | Some def => Some (CompositeIndex (d_id def) [field] [alt] false)
  | None => if has_secondary m c field then Some (SecondaryIndex field (encode_scalar alt)) else None
  end.
Definition get_single_filter_scan (c field : bytes) (v : Value) (m : IndexManager) (q : Query) : option ScanType :=
  match omap (alternative_scan c field m q) (numeric_alternatives v) with
  | [] => None
  | [s] => Some s
  | scans => Some (UnionIndex scans)
  end.

(** [try_plan_union]. *)
Definition in_values (f : Filter) : option (list Value) :=
  match f_op f, f_value f with OpIn, Array vals => Some vals | _, _ => None end.
Definition try_plan_union (q : Query) (m : IndexManager) : option ScanType :=
  match List.find (λ f, bool_decide (is_Some (in_values f))) (q_filters q) with
  | Some f =>
      UnionIndex <$> mapM (λ v, get_single_filter_scan (q_collection q) (f_field f) v m q) (default [] (in_values f))
  | None =>
      match q_or_groups q with
      | [] => None
      | groups =>
          UnionIndex <$> mapM (λ g, match g with
                                    | [f] => get_single_filter_scan (q_collection q) (f_field f) (f_value f) m q
                                    | _ => None
                                    end) groups
      end
  end.

(** ** Composite indexes *)

Definition is_point_lookup (f : Filter) : bool :=
  match f_op f with
  | OpEq => true
  | OpIn => match f_value f with Array [_] => true | _ => false end
  | _ => false
  end.
Definition is_range (f : Filter) : bool :=
  match f_op f with OpGt | OpGte | OpLt | OpLte | OpNe => true | _ => false end.
Definition filter_on (q : Query) (field : bytes) : option Filter :=
  List.find (λ f, bytes_eqb (f_field f) field) (q_filters q).

(** The equality prefix and the range filter an index can use; [None] when a
    field has a filter the range path does not support. *)
Fixpoint range_prefix (q : Query) (fs : list CompositeField) : option (list Value * option (Operator * Value)) :=
  match fs with
  | [] => Some ([], None)
  | f :: fs =>
      match filter_on q (cf_field f) with
      | None => Some ([], None)
      | Some flt =>
          match f_op flt with
          | OpEq => '(vs, r) ← range_prefix q fs; Some (f_value flt :: vs, r)
          | OpGt | OpGte | OpLt | OpLte | OpNe => Some ([], Some (f_op flt, f_value flt))
          | _ => None
          end
      end
  end.
Definition range_bounds (def : CompositeIndexDefinition) (eq_prefix : list Value) (r : option (Operator * Value))
  : option (list (Bound bytes * Bound bytes)) :=
  let lo := build_prefix_key def eq_prefix in
  let hi := build_prefix_open_end lo in
  match r with
  | None => Some [(Included lo, Included hi)]
  | Some (op, value) =>
      key ← build_value_key def eq_prefix value;
      let key_end := key_with_upper_sentinel key in
      match op with
      | OpGt => Some [(Excluded key_end, Included hi)]
      | OpGte => Some [(Included key, Included hi)]
      | OpLt => Some [(Included lo, Excluded key)]
      | OpLte => Some [(Included lo, Included key_end)]
      | OpNe => Some [(Included lo, Excluded key); (Excluded key_end, Included hi)]
      | _ => None
      end
  end.

(** [try_plan_composite_range]: the first usable index; a value key that cannot be
    built ends the search. *)
Fixpoint range_over (q : Query) (defs : list CompositeIndexDefinition) : option ScanType :=
  match defs with
  | [] => None
  | def :: defs =>
      if negb (composite_def_usable def q) then range_over q defs
      else match range_prefix q (d_fields def) with
           | None | Some ([], None) => range_over q defs
           | Some (eq_prefix, r) => ranges ← range_bounds def eq_prefix r; Some (CompositeIndexRange (d_id def) ranges false)
           end
  end.
Definition try_plan_composite_range (q : Query) (m : IndexManager) : option ScanType :=
  if bool_decide (length (q_filters q) = 0%nat) || (1 <? length (List.filter is_range (q_filters q)))%nat ||
     negb (forallb (λ f, is_point_lookup f || is_range f) (q_filters q))
  then None
  else range_over q (collection_defs m (q_collection q)).

(** The fields of an index that filters pin, from its first field on: the first
    filter gives the alternative value. *)
Definition unwrap_single (v : Value) : Value := match v with Array [x] => x | _ => v end.
Fixpoint matched_rest (q : Query) (fs : list CompositeField) : list (bytes * Value) :=
  match fs with
  | [] => []
  | f :: fs =>
      match filter_on q (cf_field f) with
      | Some flt => (cf_field f, unwrap_single (f_value flt)) :: matched_rest q fs
      | None => []
      end
  end.
Definition matched_prefix (q : Query) (first : Filter) (alt : Value) (fs : list CompositeField) : list (bytes * Value) :=
  match fs with
  | f :: fs => if bytes_eqb (cf_field f) (f_field first) then (cf_field f, unwrap_single alt) :: matched_rest q fs else []
  | [] => []
  end.

(** Whether index fields from a position on give the order asked for, and whether
    to walk them backwards. *)
Definition is_asc (d : SortDirection) : bool := match d with Asc => true | Desc => false end.
Fixpoint order_rest (reverse : bool) (fs : list CompositeField) (orders : list OrderBy) : bool :=
  match orders, fs with
  | [], _ => true
  | o :: orders, f :: fs =>
      bytes_eqb (cf_field f) (o_field o) && Bool.eqb (is_asc (cf_direction f)) (xorb (ascending o) reverse) &&
      order_rest reverse fs orders
  | _ :: _, [] => false
  end.
Definition order_match (fs : list CompositeField) (orders : list OrderBy) : bool * bool :=
  match orders, fs with
  | o :: _, f :: _ =>
      let reverse := bytes_eqb (cf_field f) (o_field o) && xorb (is_asc (cf_direction f)) (ascending o) in
      (order_rest reverse fs orders, reverse)
  | [], _ => (true, false)
  | _ :: _, [] => (false, false)
  end.

(** [try_plan_composite_eq]: the scan, whether it gives the order, and whether it
    answers the filters. *)
Definition eq_scan (q : Query) (first : Filter) (alt : Value) (def : CompositeIndexDefinition) : option (ScanType * bool) :=
  if negb (composite_def_usable def q) then None
  else
    let matched := matched_prefix q first alt (d_fields def) in
    if negb (length matched =? length (q_filters q))%nat then None
    else
      let '(ordered, reverse) := order_match (drop (length matched) (d_fields def)) (q_order_by q) in
      Some (CompositeIndex (d_id def) matched.*1 matched.*2 reverse, ordered).
Definition try_plan_composite_eq (q : Query) (m : IndexManager) : option (ScanType * bool * bool) :=
  match q_filters q with
  | [] => None
  | first :: _ =>
      if negb (forallb is_point_lookup (q_filters q)) then None
      else
        match omap (λ alt, head (omap (eq_scan q first alt) (collection_defs m (q_collection q))))
                   (numeric_alternatives (f_value first)) with
        | [] => None
        | [(s, ordered)] =>
            Some (s, ordered, bool_decide (length (q_or_groups q) = 0%nat) && negb (existsb (op_is OpIn) (q_filters q)))
        | scans => Some (UnionIndex scans.*1, false, false)
        end
  end.

(** ** The priorities *)

(** 1: full-text search. *)
Definition plan_fts (q : Query) (m : IndexManager) : option QueryPlan :=
  head (omap (λ f,
    match f_op f, f_value f with
    | (OpMatch | OpMatchPrefix), String text =>
        if negb (bytes_eqb (f_field f) b#("_time")) && bool_decide (is_Some (bf_get (fts m) (q_collection q) (f_field f)))
        then Some (make_plan q (InvertedIndex (f_field f) text (op_is OpMatchPrefix f)) (q_limit q) false false)
        else None
    | _, _ => None
    end) (q_filters q)).

(** 1c: graph traversal, from the marker of [traverse_marker]. *)
Definition str_of (pairs : list (bytes * Value)) (k : bytes) : option bytes :=
  match assoc k pairs with Some (String s) => Some s | _ => None end.
Definition int_of (pairs : list (bytes * Value)) (k : bytes) : option Z :=
  match assoc k pairs with Some (Int i) => Some i | _ => None end.
Definition incoming_ok (m : IndexManager) (direction : TraverseDir) (start_col : bytes) (via : option bytes) : bool :=
  negb (uses_incoming direction) || is_tracked (traverse m) start_col ||
  match via with Some e => has_secondary m e b#("_from") && has_secondary m e b#("_to") | None => false end.
Definition plan_traverse (q : Query) (m : IndexManager) : option QueryPlan :=
  match List.filter (op_is OpTraverse) (q_filters q), q_or_groups q with
  | [tf], [] =>
      match f_field tf, f_value tf with
      | _ :: _, Map pairs =>
          start_id ← str_of pairs b#("id");
          depth ← int_of pairs b#("depth");
          if (1 <=? depth) && (depth <=? MAX_TRAVERSE_DEPTH) then
            match dir_from_u32 (as_u32 (default 0 (int_of pairs b#("dir")))) with
            | Ok direction =>
                let via := str_of pairs b#("via") in
                if incoming_ok m direction (f_field tf) via then
                  let extra := List.filter (λ f, negb (op_is OpTraverse f)) (q_filters q) in
                  let spec := mkSpec direction (str_of pairs b#("edge")) depth (Z.of_nat (default 100%nat (q_limit q))) via
                                (str_of pairs b#("weight")) None None None false false in
                  Some (with_filters extra
                          (make_plan q (Traverse (f_field tf) start_id spec extra) (limit_with_offset q) false true))
                else None
            | _ => None
            end
          else None
      | _, _ => None
      end
  | _, _ => None
  end.

(** 2: an unordered single equality leaves the composite indexes to the
    secondary one. *)
Definition yield_to_secondary (q : Query) (m : IndexManager) (use_index : bool) : bool :=
  match q_order_by q, q_or_groups q, q_filters q with
  | [], [], [f] =>
      use_index && op_is OpEq f && has_secondary m (q_collection q) (f_field f) &&
      match f_value f with String s => negb (bool_decide (is_Some (parse_i64 s))) | _ => true end
  | _, _, _ => false
  end.
Definition plan_composite_eq (q : Query) (m : IndexManager) : option QueryPlan :=
  match try_plan_composite_eq q m with
  | Some (s, satisfied, filters_done) =>
      Some (make_plan q s (if satisfied then limit_with_offset q else None) satisfied filters_done)
  | None => None
  end.

(** 3: order and cursors.  A cursor bound from an inclusive and an exclusive
    anchor. *)
Definition cursor_bound (key : list Value → option bytes) (at_ after : option (list Value)) : Bound bytes :=
  match at_ ≫= key, after ≫= key with
  | Some k, _ => Included k
  | None, Some k => Excluded k
  | None, None => Unbounded
  end.
Definition first_scalar (v : list Value) : option bytes := encode_scalar <$> head v.
Definition plan_order_composite (q : Query) (first : OrderBy) (def : CompositeIndexDefinition) : option QueryPlan :=
  if negb (composite_def_usable def q) then None
  else match d_fields def with
       | f :: _ =>
           let '(matches_all, reverse) := order_match (d_fields def) (q_order_by q) in
           if bytes_eqb (cf_field f) (o_field first) && matches_all then
             let key := λ v, Some (build_cursor_range def v false) in
             Some (make_plan q
                     (CompositeIndexRange (d_id def)
                        [(cursor_bound key (q_start_at q) (q_start_after q), cursor_bound key (q_end_at q) (q_end_before q))] reverse)
                     (if no_filters q then limit_with_offset q else None) true (no_filters q))
           else None
       | [] => None
       end.
Definition plan_order_secondary (q : Query) (first : OrderBy) (m : IndexManager) : option QueryPlan :=
  if has_secondary m (q_collection q) (o_field first) then
    let order_satisfied := (length (q_order_by q) =? 1)%nat in
    Some (make_plan q
            (SecondaryIndexRange (o_field first) (cursor_bound first_scalar (q_start_at q) (q_start_after q))
               (cursor_bound first_scalar (q_end_at q) (q_end_before q)) (negb (ascending first)))
            (if order_satisfied && no_filters q then limit_with_offset q else None) order_satisfied (no_filters q))
  else None.
Definition plan_order (q : Query) (m : IndexManager) : option QueryPlan :=
  match q_order_by q with
  | [] => None
  | first :: _ =>
      match id_order_sortedkeys q with
      | Some s => Some (make_plan q s (q_limit q) true true)
      | None =>
          match head (omap (plan_order_composite q first) (collection_defs m (q_collection q))) with
          | Some p => Some p
          | None => plan_order_secondary q first m
          end
      end
  end.

(** 6: the equality with the smallest posting; ambiguous values take the union
    of their encodings. *)
Definition ambiguous_value (v : Value) : bool :=
  match v with
  | String s => bool_decide (is_Some (parse_i64 s)) || bool_decide (is_Some (parse_f64 s))
  | Int _ | Float _ => true
  | _ => false
  end.
Fixpoint plan_secondary_eq (q : Query) (m : IndexManager) (fs : list Filter) (best : option (nat * Filter * bytes))
  : option QueryPlan :=
  match fs with
  | [] =>
      '(_, f, val) ← best;
      let satisfied := (length (q_filters q) =? 1)%nat && bool_decide (length (q_or_groups q) = 0%nat) in
      Some (make_plan q (SecondaryIndex (f_field f) val)
              (if satisfied && bool_decide (length (q_order_by q) = 0%nat) then limit_with_offset q else None) false satisfied)
  | f :: fs =>
      match (if op_is OpEq f then bf_get (secondary m) (q_collection q) (f_field f) else None) with
      | None => plan_secondary_eq q m fs best
      | Some sec =>
          if ambiguous_value (f_value f) then
            match get_single_filter_scan (q_collection q) (f_field f) (f_value f) m q with
            | Some s => Some (make_plan q s None false false)
            | None => plan_secondary_eq q m fs best
            end
          else
            let val := encode_scalar (f_value f) in
            let len := length (default [] (assoc val sec)) in
            plan_secondary_eq q m fs
              (match best with Some (l, _, _) => if (len <? l)%nat then Some (len, f, val) else best | None => Some (len, f, val) end)
      end
  end.

(** [QueryPlanner::plan]. *)
Definition or_else {A} (a b : option A) : option A := match a with Some _ => a | None => b end.
Definition plan_full (q : Query) : QueryPlan :=
  make_plan q FullCollection
    (if no_filters q && bool_decide (length (q_order_by q) = 0%nat) then limit_with_offset q else None) false (no_filters q).
Definition plan_ready (q : Query) (m : IndexManager) (collection_rows worker_count : nat) : QueryPlan :=
  let use_index := (50 <? collection_rows / Nat.max worker_count 1)%nat in
  let yields := yield_to_secondary q m use_index in
  default (plan_full q)
    (or_else (plan_fts q m)
    (or_else (try_plan_vector q m)
    (or_else (plan_traverse q m)
    (or_else (if yields then None else plan_composite_eq q m)
    (or_else (plan_order q m)
    (or_else (if use_index && negb yields
              then (λ s, make_plan q s None false false) <$> try_plan_composite_range q m else None)
    (or_else (if negb (bool_decide (length (q_or_groups q) = 0%nat)) || existsb (op_is OpIn) (q_filters q)
              then (λ s, make_plan q s None false false) <$> try_plan_union q m else None)
             (if use_index then plan_secondary_eq q m (q_filters q) None else None)))))))).
Definition plan_not_ready (q : Query) (m : IndexManager) (vector_ready : bool) : QueryPlan :=
  default (make_plan q FullCollection None false false)
    (or_else (if vector_ready then try_plan_vector q m else None)
             ((λ s, make_plan q s (q_limit q) true true) <$> id_order_sortedkeys q)).
Definition plan (q : Query) (m : IndexManager) (collection_rows worker_count : nat) (index_ready vector_ready : bool) : QueryPlan :=
  if index_ready then plan_ready q m collection_rows worker_count else plan_not_ready q m vector_ready.
