(* ===== verification/PlannerFacts.v ===== *)
(** * What plans promise

    A plan carries its query; rows are cut off early only where the scan already
    answers the query; partial indexes are used only by queries that imply their
    condition; a traversal marker is read back as it was written; and the shapes
    in which a plan loses rows. *)

From stdpp Require Import prelude list gmap strings.
From Stdlib Require Import ZArith Lia.
From S2P Require Import Prelude RustStd Error Value Doc DocFacts DocCodec DocAccess StorageIndex Filter IndexKey Composite CompositeFacts CompositeManager Traverse Query Matcher MatcherFacts TermIndex IndexManager IndexManagerFacts Planner.

Local Open Scope Z_scope.
Local Open Scope hako_scope.

(** ** Plans carry their query *)

Definition is_marker (f : Filter) : bool := op_is OpNear f || op_is OpTraverse f.

(** The plan of a query: its clauses, less the markers a scan has consumed. *)
Definition carries (q : Query) (p : QueryPlan) : Prop :=
  p_collection p = q_collection q ∧ or_groups p = q_or_groups q ∧ elem_match p = q_elem_match q ∧
  p_order_by p = q_order_by q ∧ p_limit p = q_limit q ∧ p_offset p = q_offset q ∧ projection p = q_projection q ∧
  (∀ f, f ∈ q_filters q → is_marker f = false → f ∈ p_filters p) ∧
  (∀ f, f ∈ p_filters p → f ∈ q_filters q) ∧
  (q_elem_match q ≠ [] → filters_satisfied_by_index p = false) ∧
  (q_order_by q = [] → order_by_satisfied p = true).

Lemma make_plan_carries q s l o f : carries q (make_plan q s l o f).
Proof.
  unfold carries, make_plan. cbn. split_and!; try done.
  - intros He. rewrite bool_decide_false; [apply andb_false_r|]. by destruct (q_elem_match q).
  - by intros ->.
Qed.
Lemma with_filters_carries q s l o f keep :
  (∀ x, keep x = false → is_marker x = true) → carries q (with_filters (List.filter keep (q_filters q)) (make_plan q s l o f)).
Proof.
  intros Hk. destruct (make_plan_carries q s l o f) as (H1 & H2 & H3 & H4 & H5 & H6 & H7 & H8 & H9 & H10 & H11).
  unfold carries. cbn [with_filters p_collection or_groups elem_match p_order_by p_limit p_offset projection p_filters
    filters_satisfied_by_index order_by_satisfied]. split_and!; try done.
  - intros x Hx Hm. apply list_elem_of_In, filter_In. split; [by apply list_elem_of_In|].
    destruct (keep x) eqn:E; [done|]. by rewrite (Hk x E) in Hm.
  - intros x [? _]%list_elem_of_In%filter_In. by apply list_elem_of_In.
Qed.

(** A property of the plan a step makes, if it makes one. *)
Definition all_plans (P : QueryPlan → Prop) (o : option QueryPlan) : Prop := ∀ p, o = Some p → P p.

Section AllPlans.
Context (P : QueryPlan → Prop).
Lemma or_else_plans a b : all_plans P a → all_plans P b → all_plans P (or_else a b).
Proof. intros Ha Hb. by destruct a. Qed.
Lemma if_plans (b : bool) x y : all_plans P x → all_plans P y → all_plans P (if b then x else y).
Proof. by destruct b. Qed.
Lemma none_plans : all_plans P None.
Proof. done. Qed.
Lemma some_plans p : P p → all_plans P (Some p).
Proof. by intros ? ? [= <-]. Qed.
Lemma fmap_plans {A} (g : A → QueryPlan) o : (∀ x, P (g x)) → all_plans P (g <$> o).
Proof. intros Hg p. destruct o; [|done]. by intros [= <-]. Qed.
Lemma head_omap_plans {A} (g : A → option QueryPlan) l : (∀ x, x ∈ l → all_plans P (g x)) → all_plans P (head (omap g l)).
Proof. intros Hg p Hp. apply head_Some_elem_of, list_elem_of_omap in Hp as (x & Hin & Hx). by apply (Hg x). Qed.
Lemma default_plans d o : P d → all_plans P o → P (default d o).
Proof. intros Hd Ho. destruct o as [p|]; [by apply Ho|done]. Qed.
End AllPlans.
Create HintDb plans.
#[local] Hint Resolve or_else_plans if_plans none_plans some_plans make_plan_carries : plans.

Lemma vector_carries q m : all_plans (carries q) (try_plan_vector q m).
Proof.
  unfold try_plan_vector. destruct (List.filter _ _) as [|nf [|]]; try done. destruct (q_or_groups q); [|done].
  destruct (f_value nf); try done. destruct (bf_get _ _ _) as [def|]; [|done]. cbn [mbind option_bind].
  apply if_plans; [done|]. apply some_plans, with_filters_carries.
  intros x Hx. unfold is_marker. apply negb_false_iff in Hx. by rewrite Hx.
Qed.
Lemma traverse_carries q m : all_plans (carries q) (plan_traverse q m).
Proof.
  unfold plan_traverse. destruct (List.filter _ _) as [|tf [|]]; try done. destruct (q_or_groups q); [|done].
  destruct (f_field tf), (f_value tf) as [| | | | | | | | | |pairs|]; try done.
  destruct (str_of pairs b#("id")); [|done]. cbn [mbind option_bind]. destruct (int_of pairs b#("depth")); [|done]. cbn [mbind option_bind]. apply if_plans; [|done].
  destruct (dir_from_u32 _); try done. apply if_plans; [|done]. apply some_plans, with_filters_carries.
  intros x Hx. unfold is_marker. apply negb_false_iff in Hx. by rewrite Hx, orb_true_r.
Qed.
Lemma fts_carries q m : all_plans (carries q) (plan_fts q m).
Proof.
  apply head_omap_plans. intros f _. destruct (f_op f); try done; destruct (f_value f); try done; auto with plans.
Qed.
Lemma composite_eq_carries q m : all_plans (carries q) (plan_composite_eq q m).
Proof. unfold plan_composite_eq. destruct (try_plan_composite_eq q m) as [[[? ?] ?]|]; auto with plans. Qed.
Lemma order_carries q m : all_plans (carries q) (plan_order q m).
Proof.
  unfold plan_order. destruct (q_order_by q) as [|o os] eqn:Eo; [done|]. destruct (id_order_sortedkeys q); [auto with plans|].
  assert (all_plans (carries q) (head (omap (plan_order_composite q o) (collection_defs m (q_collection q))))) as Hc.
  { apply head_omap_plans. intros def _. unfold plan_order_composite. apply if_plans; [done|].
    destruct (d_fields def) as [|f fs]; [done|]. destruct (order_match _ _) as [? ?]. auto with plans. }
  destruct (head _); [done|]. unfold plan_order_secondary. auto with plans.
Qed.
Lemma secondary_carries q m fs best : all_plans (carries q) (plan_secondary_eq q m fs best).
Proof.
  revert best; induction fs as [|f fs IH]; intros best; cbn [plan_secondary_eq].
  - destruct best as [[[? ?] ?]|]; [|done]. cbn [mbind option_bind]. auto with plans.
  - match goal with |- all_plans _ (match ?x with Some _ => _ | None => _ end) => destruct x as [sec|] end; [|done]. apply if_plans; [|done].
    destruct (get_single_filter_scan _ _ _ _ _); [auto with plans|done].
Qed.

(** Every plan carries its query. *)
Lemma plan_carries q m rows workers ready vready : carries q (plan q m rows workers ready vready).
Proof.
  unfold plan, plan_ready, plan_not_ready. destruct ready.
  - apply (default_plans (carries q)); [apply make_plan_carries|].
    repeat first [apply or_else_plans | apply if_plans | apply none_plans | apply fts_carries | apply vector_carries
      | apply traverse_carries | apply composite_eq_carries | apply order_carries | apply secondary_carries
      | apply fmap_plans; intros; apply make_plan_carries].
  - apply (default_plans (carries q)); [apply make_plan_carries|]. apply or_else_plans; [apply if_plans; [apply vector_carries|done]|].
    apply fmap_plans. intros. apply make_plan_carries.
Qed.

(** The plan of a query without a limit does not limit its scan. *)
Definition unlimited (p : QueryPlan) : Prop := scan_limit p = None.
Section Unlimited.
Context (q : Query) (Hq : q_limit q = None).
Lemma make_plan_unlimited s l o f : l = None ∨ l = q_limit q ∨ l = limit_with_offset q → unlimited (make_plan q s l o f).
Proof using Hq. unfold unlimited, limit_with_offset. cbn. rewrite Hq. by intros [-> |[-> | ->]]. Qed.
Lemma make_plan_if_unlimited s (b : bool) o f : unlimited (make_plan q s (if b then limit_with_offset q else None) o f).
Proof using Hq. apply make_plan_unlimited. destruct b; auto. Qed.
#[local] Hint Resolve make_plan_unlimited make_plan_if_unlimited : plans.

Lemma plan_unlimited m rows workers ready vready : unlimited (plan q m rows workers ready vready).
Proof using Hq.
  assert (all_plans unlimited (try_plan_vector q m)) as Hv.
  { unfold try_plan_vector. destruct (List.filter _ _) as [|nf [|]]; try done. destruct (q_or_groups q); [|done].
    destruct (f_value nf); try done. destruct (bf_get _ _ _) as [def|]; [|done]. cbn [mbind option_bind].
    apply if_plans; [done|]. apply some_plans. apply (make_plan_unlimited _ (limit_with_offset q)). auto. }
  assert (all_plans unlimited (plan_traverse q m)) as Ht.
  { unfold plan_traverse. destruct (List.filter _ _) as [|tf [|]]; try done. destruct (q_or_groups q); [|done].
    destruct (f_field tf), (f_value tf) as [| | | | | | | | | |pairs|]; try done.
    destruct (str_of pairs b#("id")); [|done]. cbn [mbind option_bind]. destruct (int_of pairs b#("depth")); [|done]. cbn [mbind option_bind]. apply if_plans; [|done].
    destruct (dir_from_u32 _); try done. apply if_plans; [|done]. apply some_plans. apply (make_plan_unlimited _ (limit_with_offset q)). auto. }
  assert (all_plans unlimited (plan_fts q m)) as Hf.
  { apply head_omap_plans. intros f _. destruct (f_op f); try done; destruct (f_value f); try done; auto 6 with plans. }
  assert (all_plans unlimited (plan_composite_eq q m)) as Hc.
  { unfold plan_composite_eq. destruct (try_plan_composite_eq q m) as [[[? ?] ?]|]; auto with plans. }
  assert (all_plans unlimited (plan_order q m)) as Ho.
  { unfold plan_order. destruct (q_order_by q) as [|o os] eqn:Eo; [done|]. destruct (id_order_sortedkeys q); [auto 6 with plans|].
    assert (all_plans unlimited (head (omap (plan_order_composite q o) (collection_defs m (q_collection q))))) as Hh.
    { apply head_omap_plans. intros def _. unfold plan_order_composite. apply if_plans; [done|].
      destruct (d_fields def) as [|f fs]; [done|]. destruct (order_match _ _) as [? ?]. auto with plans. }
    destruct (head _); [done|]. unfold plan_order_secondary. auto with plans. }
  assert (∀ fs best, all_plans unlimited (plan_secondary_eq q m fs best)) as Hs.
  { intros fs. induction fs as [|f fs IH]; intros best; cbn [plan_secondary_eq].
    - destruct best as [[[? ?] ?]|]; [|done]. cbn [mbind option_bind]. auto with plans.
    - match goal with |- all_plans _ (match ?x with Some _ => _ | None => _ end) => destruct x as [sec|] end; [|done]. apply if_plans; [|done].
      destruct (get_single_filter_scan _ _ _ _ _); [auto with plans|done]. }
  unfold plan, plan_ready, plan_not_ready, plan_full. destruct ready; apply (default_plans unlimited); auto with plans.
  - repeat first [apply or_else_plans | apply if_plans | apply none_plans | done
      | apply Hs | apply fmap_plans; intros; apply make_plan_unlimited; by left].
  - apply or_else_plans; [by apply if_plans|]. apply fmap_plans. intros. apply make_plan_unlimited. auto.
Qed.
End Unlimited.

(** ** Cutting off early *)

(** Conjunctions of comparisons. *)
Definition comparison_op (op : Operator) : bool :=
  match op with OpMatch | OpMatchPrefix | OpIn | OpNear | OpTraverse => false | _ => true end.
Definition plain_query (q : Query) : Prop :=
  q_or_groups q = [] ∧ q_elem_match q = [] ∧ ∀ f, f ∈ q_filters q → comparison_op (f_op f) = true.

(** A limited scan answers the filters and the order, and reaches the page. *)
Definition pushes_ok (q : Query) (p : QueryPlan) : Prop :=
  ∀ n, scan_limit p = Some n →
  filters_satisfied_by_index p = true ∧ order_by_satisfied p = true ∧
  (Some n = limit_with_offset q ∨ ((∃ s e r, scan p = SortedKeys s e r) ∧ Some n = q_limit q)).

Section Push.
Context (q : Query) (Hq : plain_query q).

Lemma push_none s o f : pushes_ok q (make_plan q s None o f).
Proof. done. Qed.
Lemma push_satisfied s o f l :
  (l = limit_with_offset q ∨ ((∃ s' e r, s = SortedKeys s' e r) ∧ l = q_limit q)) → o = true → f = true →
  pushes_ok q (make_plan q s l o f).
Proof using Hq.
  intros Hl -> -> n. cbn. intros ->. rewrite orb_true_r. destruct Hq as (_ & -> & _). split_and!; [done|done|].
  destruct Hl as [->|[? ->]]; [by left|by right].
Qed.
Lemma push_if s (b : bool) o f :
  (b = true → o = true ∧ f = true) → pushes_ok q (make_plan q s (if b then limit_with_offset q else None) o f).
Proof using Hq. destruct b; [|done]. intros [-> ->]; [done|]. by apply push_satisfied; [left|..]. Qed.
(** Without an order to satisfy. *)
Lemma push_unordered s (b : bool) o f :
  (b = true → q_order_by q = [] ∧ f = true) → pushes_ok q (make_plan q s (if b then limit_with_offset q else None) o f).
Proof using Hq.
  destruct b; [|done]. intros [Ho ->]; [done|]. intros n. cbn. intros Hn. rewrite Ho. destruct Hq as (_ & -> & _).
  split_and!; [done|done|by left].
Qed.

Lemma no_op op f : f ∈ q_filters q → comparison_op op = false → op_is op f = false.
Proof using Hq.
  intros Hf Hop. unfold op_is. apply bool_decide_eq_false. intros E. destruct Hq as (_ & _ & H).
  specialize (H _ Hf). by rewrite E, Hop in H.
Qed.
Lemma no_op_filter op : comparison_op op = false → List.filter (op_is op) (q_filters q) = [].
Proof using Hq.
  intros Hop. destruct (List.filter (op_is op) (q_filters q)) as [|f fs] eqn:E; [done|].
  assert (f ∈ List.filter (op_is op) (q_filters q)) as Hf by (rewrite E; by left).
  apply list_elem_of_In, filter_In in Hf as [Hf Ho]. by rewrite (no_op op f) in Ho; [|by apply list_elem_of_In|].
Qed.

Context (m : IndexManager).

Lemma id_order_shape s : id_order_sortedkeys q = Some s → ∃ k e r, s = SortedKeys k e r.
Proof using Type.
  unfold id_order_sortedkeys. destruct (q_order_by q) as [|o [|]]; [done| |done]. destruct (negb _ || _ || _ || _); [done|].
  intros Es. match type of Es with (?x ≫= _) = _ => destruct x as [[k e]|] end; [|done]. injection Es as <-. by do 3 eexists.
Qed.
Lemma composite_eq_push : all_plans (pushes_ok q) (plan_composite_eq q m).
Proof using Hq.
  unfold plan_composite_eq, try_plan_composite_eq. destruct (q_filters q) as [|first fs] eqn:Ef; [done|]. rewrite <-Ef.
  destruct (negb (forallb _ _)); [done|]. destruct (omap _ _) as [|[s ordered] [|]]; [done| |apply some_plans, push_none].
  apply some_plans, push_if. intros ->. split; [done|]. destruct Hq as (-> & _). cbn [length bool_decide andb].
  rewrite bool_decide_true by done. cbn [andb]. apply negb_true_iff.
  destruct (existsb (op_is OpIn) (q_filters q)) eqn:E; [|done]. apply existsb_exists in E as (f & Hf & Ho).
  by rewrite (no_op OpIn f) in Ho; [|by apply list_elem_of_In|].
Qed.
Lemma order_push : all_plans (pushes_ok q) (plan_order q m).
Proof using Hq.
  unfold plan_order. destruct (q_order_by q) as [|o os] eqn:Eo; [done|].
  destruct (id_order_sortedkeys q) as [s|] eqn:Es.
  { apply some_plans, push_satisfied; [|done..]. right. split; [by apply id_order_shape|done]. }
  assert (all_plans (pushes_ok q) (head (omap (plan_order_composite q o) (collection_defs m (q_collection q))))) as Hc.
  { apply head_omap_plans. intros def _. unfold plan_order_composite. apply if_plans; [done|].
    destruct (d_fields def) as [|f fs]; [done|]. destruct (order_match _ _) as [? ?]. apply if_plans; [|done].
    apply some_plans, push_if. by intros ->. }
  destruct (head _); [done|]. unfold plan_order_secondary. apply if_plans; [|done]. apply some_plans, push_if.
  by intros [-> ->]%andb_true_iff.
Qed.
Lemma secondary_push fs best : all_plans (pushes_ok q) (plan_secondary_eq q m fs best).
Proof using Hq.
  revert best; induction fs as [|f fs IH]; intros best; cbn [plan_secondary_eq].
  - destruct best as [[[? ?] ?]|]; [|done]. cbn [mbind option_bind]. apply some_plans, push_unordered.
    intros [Hs Ho%bool_decide_eq_true]%andb_true_iff. split; [by destruct (q_order_by q)|done].
  - match goal with |- all_plans _ (match ?x with Some _ => _ | None => _ end) => destruct x as [sec|] end; [|done].
    apply if_plans; [|done]. destruct (get_single_filter_scan _ _ _ _ _); [apply some_plans, push_none|done].
Qed.

Lemma plan_push rows workers ready vready : pushes_ok q (plan q m rows workers ready vready).
Proof using Hq.
  assert (try_plan_vector q m = None) as Hv by (unfold try_plan_vector; by rewrite no_op_filter).
  assert (plan_traverse q m = None) as Ht by (unfold plan_traverse; by rewrite no_op_filter).
  assert (plan_fts q m = None) as Hf.
  { unfold plan_fts. destruct (omap _ (q_filters q)) as [|p ps] eqn:E; [done|]. exfalso.
    assert (p ∈ p :: ps) as Hp by (by left). rewrite <-E in Hp. apply list_elem_of_omap in Hp as (f & Hf & Hp).
    destruct Hq as (_ & _ & H). specialize (H _ Hf). by destruct (f_op f). }
  unfold plan. destruct ready.
  - unfold plan_ready. rewrite Hf, Hv, Ht. cbn [or_else]. apply (default_plans (pushes_ok q)).
    + apply push_unordered. intros [Hn Ho%bool_decide_eq_true]%andb_true_iff. split; [by destruct (q_order_by q)|done].
    + repeat first [apply or_else_plans | apply if_plans | apply none_plans | apply composite_eq_push | apply order_push
        | apply secondary_push | apply fmap_plans; intros; apply push_none].
  - unfold plan_not_ready. rewrite Hv. destruct vready; cbn [or_else].
    all: destruct (id_order_sortedkeys q) as [s|] eqn:Es; cbn [fmap option_fmap option_map default from_option]; [|apply push_none].
    all: apply push_satisfied; [|done..]; right; split; [by apply id_order_shape|done].
Qed.
End Push.

(** ** Partial indexes *)

Section Partial.
Context (to_lowercase : bytes → bytes).

(** Values that equality identifies with themselves only. *)
Definition pin_value (v : Value) : bool := byte_safe v && negb (is_number v).
(** A plain name: not empty, no dot. *)
Definition plain_name (f : bytes) : bool := negb (bool_decide (f = [])) && negb (has_dot f).

Lemma value_eqb_pin a b : pin_value b = true → value_eqb a b = true → a = b.
Proof using Type.
  destruct b; try done; intros _; destruct a; cbn [value_eqb]; try done; unfold bytes_eqb; intros H; bool_simpl; subst; try done.
  - by apply eqb_prop in H as ->.
Qed.

Lemma split_dot_plain s : has_dot s = false → split_dot s = [s].
Proof using Type.
  unfold split_dot. induction s as [|x s IH]; [done|]. cbn [has_dot existsb split_on].
  intros [Hx Hs]%orb_false_iff. rewrite Z.eqb_sym in Hx. rewrite Hx, IH by done. done.
Qed.
Lemma get_path_plain d f : plain_name f = true → get_path d f = doc_get d f.
Proof using Type.
  unfold plain_name. intros [Hne Hd]%andb_true_iff. apply negb_true_iff in Hne, Hd. unfold get_path.
  rewrite split_dot_plain, Hne by done. by destruct (doc_get d f).
Qed.

(** A filter that pins a condition implies it. *)
Lemma and_holds_eq doc_id d f cond :
  plain_name (f_field cond) = true → pin_value (f_value cond) = true → f_op cond = OpEq → pins cond f = true →
  and_holds to_lowercase doc_id d f = true →
  match field_value doc_id d (f_field cond) with
  | Some v => compare_values to_lowercase v (f_op cond) (f_value cond)
  | None => false
  end = true.
Proof using Type.
  intros Hn Hp Hop. unfold pins. rewrite Hop. intros [Hf%bytes_eqb_eq Hpin]%andb_true_iff.
  unfold and_holds, meta_verdict, field_value, body_holds. rewrite Hf.
  assert ((f_op f = OpEq ∧ f_value f = f_value cond) ∨ (f_op f = OpIn ∧ f_value f = Array [f_value cond])) as Hcases.
  { destruct (f_op f); try done; [left; split; [done|by apply value_eqb_pin]|].
    right. split; [done|]. destruct (f_value f) as [| | | | | | | | | | |[|x [|]]]; try done. by rewrite (value_eqb_pin x (f_value cond)). }
  assert (∀ v, filter_holds to_lowercase v f = true → compare_values to_lowercase v OpEq (f_value cond) = true) as Hholds.
  { intros v. unfold filter_holds. destruct Hcases as [[-> ->]|[-> ->]]; [done|]. cbn [compare_values existsb]. by rewrite orb_false_r. }
  destruct (bytes_eqb (f_field cond) b#("id")).
  { intros Hid. assert (∀ s, doc_id = s → compare_values to_lowercase (String doc_id) OpEq (String s) = true) as Hstr.
    { intros s ->. cbn [compare_values]. unfold compare_scalar. cbn [value_eqb]. by rewrite bytes_eqb_refl. }
    destruct Hcases as [[Ho Hv]|[Ho Hv]]; unfold matches_id_flexible in Hid; rewrite Ho, Hv in Hid.
    - destruct (f_value cond) eqn:Ev; try done; [].
      apply bytes_eqb_eq in Hid. by apply Hstr.
    - cbn [existsb] in Hid. rewrite orb_false_r in Hid. unfold is_string in Hid. destruct (f_value cond); try done.
      apply bytes_eqb_eq in Hid as ->. by apply Hstr. }
  destruct (bytes_eqb (f_field cond) b#("_time")); [apply Hholds|].
  rewrite get_path_plain by done. unfold plain_name in Hn. apply andb_true_iff in Hn as [_ ->%negb_true_iff]. cbn [andb].
  rewrite orb_false_r. unfold value_holds. destruct (doc_get d (f_field cond)); [apply Hholds|done].
Qed.

(** A document that the filters of a query accept is in every partial index the
    planner lets the query use. *)
Lemma usable_covers def q doc_id d :
  composite_def_usable def q = true →
  (∀ g, d_filter def = Some g → Forall (λ c, plain_name (f_field c) = true ∧ pin_value (f_value c) = true) (g_filters g)) →
  forallb (and_holds to_lowercase doc_id d) (q_filters q) = true →
  filter_passes to_lowercase def doc_id d = true.
Proof using Type.
  unfold composite_def_usable, filter_passes. intros Hu Hok Hm. destruct (d_filter def) as [g|]; [|done].
  specialize (Hok g eq_refl). destruct (g_logic g); [|done]. apply forallb_forall. intros cond Hc.
  destruct (proj1 (existsb_exists _ _) (proj1 (forallb_forall _ _) Hu cond Hc)) as (f & Hf & Hpin).
  apply list_elem_of_In in Hc. destruct (proj1 (Forall_forall _ _) Hok cond Hc) as [Hn Hv].
  apply (and_holds_eq doc_id d f cond); try done.
  - unfold pins in Hpin. apply andb_true_iff in Hpin as [_ Hpin]. by destruct (f_op f), (f_op cond).
  - by apply (proj1 (forallb_forall _ _) Hm).
Qed.

(** ** The secondary plan answers the query *)

Lemma eq_string_only v s :
  ambiguous_value (String s) = false → parse_bool_like s = None →
  compare_values to_lowercase v OpEq (String s) = true → v = String s.
Proof using Type.
  cbn [ambiguous_value]. intros [Hi Hf]%orb_false_iff Hb. apply bool_decide_eq_false, eq_None_not_Some in Hi, Hf.
  cbn [compare_values]. unfold compare_scalar. destruct v as [|b|n|b|t|t|o l|c i|n| |fs|vs]; cbn [value_eqb]; rewrite ?andb_false_r;
    cbn [compare_kinds type_weight]; rewrite ?Hi, ?Hf, ?Hb; try done.
  destruct (bytes_eqb t s) eqn:E; [by apply bytes_eqb_eq in E as ->|]. rewrite andb_false_r. cbn [string_op eval_ordering].
  intros H%bool_decide_eq_true. by apply cmp_eq in H as ->.
Qed.

Lemma encode_scalar_string v s :
  zlen s < 2 ^ 32 → (∀ t, v = String t → zlen t < 2 ^ 32) → encode_scalar v = encode_scalar (String s) → v = String s.
Proof using Type.
  intros Hs Hv. destruct v; cbn [encode_scalar encode_str_scalar]; try done. intros E. apply cons_inv in E as [_ E].
  specialize (Hv _ eq_refl). f_equal.
  assert (length (to_be 4 (as_u32 (zlen s0))) = length (to_be 4 (as_u32 (zlen s)))) as Hl.
  { pose proof (zlen_to_be 4 (as_u32 (zlen s0))). pose proof (zlen_to_be 4 (as_u32 (zlen s))). unfold zlen in *. lia. }
  by apply app_inj_1 in E as [_ E].
Qed.
End Partial.

(** The plan of an equality on an indexed field, on a large collection. *)
Section SecondaryPlan.
Context (to_lowercase : bytes → bytes) (is_alphanumeric : bytes → bool).
Context (m : IndexManager) (c field s : bytes) (rows workers : nat) (vready : bool).
Context (Hrows : (50 < rows / Nat.max workers 1)%nat).
Context (Hsec : has_secondary m c field = true) (Hamb : ambiguous_value (String s) = false).
Abbreviation q := (where_eq (query_new c) field (String s)).

Lemma secondary_plan : plan q m rows workers true vready = make_plan q (SecondaryIndex field (encode_scalar (String s))) None false true.
Proof using Hrows Hsec Hamb.
  pose proof Hamb as Hi. cbn [ambiguous_value] in Hi. apply orb_false_iff in Hi as [Hi Hf].
  unfold plan, plan_ready. rewrite (proj2 (Nat.ltb_lt _ _) Hrows).
  assert (yield_to_secondary q m true = true) as ->.
  { unfold yield_to_secondary. cbn [where_eq where_filter query_new q_order_by q_or_groups q_filters q_collection app f_field f_value].
    by rewrite Hsec, Hi. }
  assert (plan_fts q m = None) as -> by done. assert (try_plan_vector q m = None) as -> by done.
  assert (plan_traverse q m = None) as -> by done. assert (plan_order q m = None) as -> by done. cbn [or_else negb andb].
  assert (negb (bool_decide (length (q_or_groups q) = 0%nat)) || existsb (op_is OpIn) (q_filters q) = false) as -> by done.
  cbn [or_else]. apply bool_decide_eq_true in Hsec as [sec Hs].
  change (q_filters q) with [mkFilter field OpEq (String s)]. cbn [plan_secondary_eq f_field f_value]. rewrite Hamb.
  change (op_is OpEq (mkFilter field OpEq (String s))) with true. cbv iota.
  change (bf_get (secondary m) (q_collection q) field) with (bf_get (secondary m) c field). rewrite Hs. done.
Qed.

(** The key of a document is the key of the filter exactly when the filter accepts
    it. *)
Lemma string_key_matches id d :
  virtual_field field = false → plain_name field = true → parse_bool_like s = None → zlen s < 2 ^ 32 →
  doc_encodable d = true → doc_sorted d →
  sec_key id d field = Some (encode_scalar (String s)) ↔ and_holds to_lowercase id d (mkFilter field OpEq (String s)) = true.
Proof using Hamb.
  intros Hv Hn Hb Hlen Hde Hds. unfold sec_key, and_holds, meta_verdict, body_holds. cbn [f_field].
  unfold virtual_field in Hv. apply orb_false_iff in Hv as [-> ->]. pose proof Hn as Hdot.
  unfold plain_name in Hdot. apply andb_true_iff in Hdot as [_ ->%negb_true_iff]. cbn [andb]. rewrite orb_false_r.
  destruct (doc_get d field) as [v|] eqn:Ev; [|done]. cbn [fmap option_fmap option_map value_holds].
  unfold filter_holds. cbn [f_op f_value]. split.
  - intros E%(inj Some). assert (v = String s) as ->; [apply encode_scalar_string; [done| |done]|].
    + intros t ->. pose proof (encodable_assoc (fields d) field (String t) (proj2 (proj2 (doc_encodable_inv d Hde)))) as Henc.
      rewrite <-doc_get_assoc in Henc by done. specialize (Henc Ev). cbn [encodable] in Henc. bool_simpl. done.
    + unfold compare_values, compare_scalar. cbn [value_eqb]. by rewrite bytes_eqb_refl.
  - intros Hc. by rewrite (eq_string_only to_lowercase v s).
Qed.

(** The plan answers the query exactly, on indexes that are exact. *)
Lemma secondary_plan_exact docs :
  exact to_lowercase is_alphanumeric m c docs → virtual_field field = false → plain_name field = true →
  parse_bool_like s = None → zlen s < 2 ^ 32 →
  (∀ id d, docs !! id = Some d → doc_encodable d = true ∧ doc_sorted d) →
  let p := plan q m rows workers true vready in
  filters_satisfied_by_index p = true ∧ scan_limit p = None ∧
  ∃ val, scan p = SecondaryIndex field val ∧
    ∀ id, id ∈ default [] (bf_get (secondary m) c field ≫= assoc val) ↔
          ∃ d, docs !! id = Some d ∧ and_holds to_lowercase id d (mkFilter field OpEq (String s)) = true.
Proof using Hrows Hsec Hamb.
  intros [Hex _] Hv Hn Hb Hlen Hdocs. cbv zeta. rewrite secondary_plan.
  split_and!; [done|done|]. eexists. split; [done|]. intros id.
  pose proof Hsec as Hsome. unfold has_secondary in Hsome. apply bool_decide_eq_true in Hsome as [i Hi].
  rewrite Hi. cbn [mbind option_bind]. destruct (Hex field i Hi Hv) as [_ Hrow]. unfold row in Hrow. rewrite Hrow.
  split; intros (d & Hd & Hk); exists d; destruct (Hdocs _ _ Hd); (split; [done|]); by apply (string_key_matches id d).
Qed.
End SecondaryPlan.

(** ** Traversal markers *)

Lemma assoc_opt_pair k k' (v : option bytes) (l : list (bytes * Value)) :
  assoc k (opt_pair k' v ++ l) = if bytes_eqb k' k then match v with Some s => Some (String s) | None => assoc k l end else assoc k l.
Proof. destruct v; cbn [opt_pair app assoc]; by destruct (bytes_eqb k' k). Qed.

(** The plan of a marker asks for the walk the marker describes. *)
Lemma traverse_plan_roundtrip m c start_col start_id dir edge depth via weight rows workers vready :
  1 <= depth <= MAX_TRAVERSE_DEPTH → start_col ≠ [] → incoming_ok m dir start_col via = true →
  let f := traverse_marker start_col start_id dir edge depth via weight in
  let q := where_filter (query_new c) (f_field f) (f_op f) (f_value f) in
  let p := plan q m rows workers true vready in
  scan p = Traverse start_col start_id (mkSpec dir edge depth 100 via weight None None None false false) [] ∧
  p_filters p = [] ∧ filters_satisfied_by_index p = true.
Proof.
  intros Hd Hc Hin. cbv zeta. unfold plan, plan_ready. unfold MAX_TRAVERSE_DEPTH in Hd.
  set (pairs := [(b#("id"), String start_id); (b#("dir"), Int (dir_number dir)); (b#("depth"), Int (as_i64 depth))] ++
          opt_pair b#("edge") edge ++ opt_pair b#("via") via ++ opt_pair b#("weight") weight).
  set (q := where_filter _ _ _ _). assert (q_filters q = [mkFilter start_col OpTraverse (Map pairs)]) as Hf by done.
  assert (plan_fts q m = None) as -> by done. assert (try_plan_vector q m = None) as -> by done. cbn [or_else].
  assert (as_i64 depth = depth) as Hdep by (apply as_i64_id; unfold is_i64; lia).
  assert (int_of pairs b#("depth") = Some depth) as H1 by (unfold int_of, pairs; cbn; by rewrite Hdep).
  assert (int_of pairs b#("dir") = Some (dir_number dir)) as H2 by done.
  assert (str_of pairs b#("id") = Some start_id) as H3 by done.
  assert (str_of pairs b#("edge") = edge) as H4 by (unfold str_of, pairs; by destruct edge, via, weight).
  assert (str_of pairs b#("via") = via) as H5 by (unfold str_of, pairs; by destruct edge, via, weight).
  assert (str_of pairs b#("weight") = weight) as H6 by (unfold str_of, pairs; by destruct edge, via, weight).
  assert (dir_from_u32 (as_u32 (dir_number dir)) = Ok dir) as H7 by (by destruct dir).
  assert (plan_traverse q m = Some (with_filters [] (make_plan q (Traverse start_col start_id
    (mkSpec dir edge depth 100 via weight None None None false false) []) None false true))) as ->; [|done].
  assert (∀ fd v, op_is OpTraverse (mkFilter fd OpTraverse v) = true) as Hop by done.
  unfold plan_traverse. rewrite Hf. cbn [List.filter]. rewrite Hop. cbn [negb].
  change (q_or_groups q) with (@nil (list Filter)). cbn [f_field f_value]. destruct start_col as [|x xs]; [done|]. cbn match.
  rewrite H3. cbn [mbind option_bind]. rewrite H1. cbn [mbind option_bind].
  unfold MAX_TRAVERSE_DEPTH. rewrite (proj2 (Z.leb_le 1 depth)), (proj2 (Z.leb_le depth 32)) by lia. cbn [andb].
  rewrite H2. cbn [default from_option id]. rewrite H7, H5, Hin, H4, H6. done.
Qed.
