(* ===== verification/SortFacts.v ===== *)
(** * Sorting and bounded heaps

    [slice::sort_by] on comparators that are total preorders on the elements at
    hand, and a [BinaryHeap] that keeps the smallest elements it has seen. *)

From stdpp Require Import prelude list sorting.
From Stdlib Require Import Lia.
From S2P Require Import Prelude RustStd.

(** One step of a max-heap of at most [k] elements, kept as its sorted contents: a
    smaller arrival takes the place of the largest. *)
Definition heap_push {A} (cmp : A → A → comparison) (k : option nat) (heap : list A) (item : A) : list A :=
  if match k with Some k => (length heap <? k)%nat | None => true end then insert_sorted cmp item heap
  else match last heap with
       | Some worst =>
           match cmp item worst with
           | Lt => insert_sorted cmp item (take (length heap - 1) heap)
           | _ => heap
           end
       | None => heap
       end.

(** Inserting into a prefix. *)
Section Insert.
Context {A} (cmp : A → A → comparison).
Lemma insert_take x l n y : l !! n = Some y → cmp x y ≠ Gt → insert_sorted cmp x (take n l) = take (S n) (insert_sorted cmp x l).
Proof.
  revert n; induction l as [|z l IH]; intros n; [by destruct n|].
  destruct n as [|n]; cbn [lookup list_lookup take insert_sorted].
  - intros [= ->] Hc. by destruct (cmp x y).
  - intros Hy Hc. destruct (cmp x z); cbn [take]; [done|done|]. by rewrite (IH n).
Qed.
Lemma insert_beyond x l k : Forall (λ y, cmp x y = Gt) (take k l) → take k (insert_sorted cmp x l) = take k l ∨ (length l < k)%nat.
Proof.
  revert k; induction l as [|z l IH]; intros [|k]; cbn [take insert_sorted length]; try (by left); [right; lia|].
  intros [Hz Hl]%Forall_cons. rewrite Hz. cbn [take]. destruct (IH k Hl) as [->|?]; [by left|right; lia].
Qed.
Lemma length_insert_sorted x l : length (insert_sorted cmp x l) = S (length l).
Proof. by rewrite (insert_sorted_perm cmp x l). Qed.

(** Elements the comparator does not tell apart keep their order: comparators that
    agree on the pairs compared give the same sort. *)
Lemma insert_sorted_map {B} (f : A → B) (cmp' : B → B → comparison) x l :
  Forall (λ y, cmp x y = Gt ↔ cmp' (f x) (f y) = Gt) l → f <$> insert_sorted cmp x l = insert_sorted cmp' (f x) (f <$> l).
Proof.
  induction 1 as [|y l Hy Hl IH]; [done|]. rewrite fmap_cons. cbn [insert_sorted].
  destruct (cmp x y), (cmp' (f x) (f y)); try done; try (by pose proof (proj1 Hy eq_refl)); try (by pose proof (proj2 Hy eq_refl)).
  by rewrite fmap_cons, IH.
Qed.
End Insert.

Section Total.
Context {A} (cmp : A → A → comparison) (P : A → Prop).
Context (Hanti : ∀ a b, P a → P b → cmp b a = CompOpp (cmp a b)).
Context (Htrans : ∀ a b c, P a → P b → P c → trans3 (cmp a b) (cmp b c) (cmp a c)).

Definition cmp_le (a b : A) : Prop := cmp a b ≠ Gt.

Lemma cmp_le_trans a b c : P a → P b → P c → cmp_le a b → cmp_le b c → cmp_le a c.
Proof using Htrans.
  intros Ha Hb Hc. unfold cmp_le. pose proof (Htrans a b c Ha Hb Hc). unfold trans3 in *.
  destruct (cmp a b), (cmp b c); intros; try done; congruence.
Qed.

Lemma insert_sorted_ssorted x l :
  P x → Forall P l → StronglySorted cmp_le l → StronglySorted cmp_le (insert_sorted cmp x l).
Proof using Hanti Htrans.
  intros Hx. induction l as [|y l IH]; intros Hl Hs; cbn [insert_sorted]; [by repeat constructor|].
  apply Forall_cons in Hl as [Hy Hl]. apply StronglySorted_inv in Hs as [Hs Hys].
  destruct (cmp x y) eqn:E.
  1,2: (constructor; [by constructor|]; constructor; [unfold cmp_le; by rewrite E|];
    apply Forall_forall; intros z Hz; apply (cmp_le_trans x y z); try done;
    [by apply (proj1 (Forall_forall _ _) Hl)|unfold cmp_le; by rewrite E|by apply (proj1 (Forall_forall _ _) Hys)]).
  constructor; [by apply IH|]. rewrite insert_sorted_perm. constructor; [|done].
  unfold cmp_le. rewrite (Hanti x y Hx Hy), E. done.
Qed.

Lemma sort_by_ssorted l : Forall P l → StronglySorted cmp_le (sort_by cmp l).
Proof using Hanti Htrans.
  induction 1 as [|x l Hx Hl IH]; cbn [sort_by foldr]; [constructor|].
  apply insert_sorted_ssorted; [done| |done]. by rewrite (sort_by_perm cmp l).
Qed.

Lemma ssorted_unique l1 l2 :
  Forall P l1 → (∀ a b, a ∈ l1 → b ∈ l1 → cmp a b = Eq → a = b) →
  StronglySorted cmp_le l1 → StronglySorted cmp_le l2 → l1 ≡ₚ l2 → l1 = l2.
Proof using Hanti.
  intros Hp Hd H1 H2 Hperm. apply (StronglySorted_unique_strong cmp_le); try done.
  intros a b Ha Hb Hab Hba. rewrite <-Hperm in Hb. apply Hd; [done..|].
  unfold cmp_le in *. rewrite (Hanti a b) in Hba by (by apply (proj1 (Forall_forall _ _) Hp)). by destruct (cmp a b).
Qed.

(** Elements that the comparator tells apart: the heap keeps the first elements of
    the sorted list. *)
Lemma heap_push_take k l x :
  (0 < k)%nat → P x → Forall P l → StronglySorted cmp_le l → (∀ y, y ∈ l → cmp x y ≠ Eq) →
  heap_push cmp (Some k) (take k l) x = take k (insert_sorted cmp x l).
Proof using Hanti Htrans.
  intros Hk Hx Hl Hs Hd. unfold heap_push. rewrite length_take. destruct (Nat.ltb_spec (Nat.min k (length l)) k) as [Hlt|Hge].
  { rewrite !take_ge by (rewrite ?length_insert_sorted; lia). done. }
  replace (Nat.min k (length l)) with k by lia. destruct (lookup_lt_is_Some_2 l (k - 1)) as [y Hy]; [lia|].
  rewrite last_lookup, length_take. replace (Init.Nat.pred (Nat.min k (length l))) with (k - 1)%nat by lia.
  rewrite lookup_take_lt by lia. rewrite Hy. pose proof (list_elem_of_lookup_2 _ _ _ Hy) as Hin.
  assert (P y) as Py by (by apply (proj1 (Forall_forall _ _) Hl)).
  rewrite take_take. replace (Nat.min (k - 1) k) with (k - 1)%nat by lia.
  destruct (cmp x y) eqn:E; [by destruct (Hd y Hin)| |].
  { rewrite (insert_take cmp x l (k - 1) y) by (congruence || done). f_equal. lia. }
  assert (Forall (λ z, cmp x z = Gt) (take k l)) as Hall; [|destruct (insert_beyond cmp x l k Hall); [done|lia]].
  apply Forall_forall. intros z (i & Hi)%list_elem_of_lookup. apply lookup_take_Some in Hi as [Hi Hik].
  assert (P z) as Pz by (apply (proj1 (Forall_forall _ _) Hl); by apply list_elem_of_lookup_2 in Hi).
  assert (z = y ∨ cmp_le z y) as [->|Hzy]; [|done|].
  { destruct (decide (i = k - 1)%nat) as [->|]; [left; congruence|right].
    rewrite <-(take_drop (k - 1) l) in Hs. apply (StronglySorted_app_1_elem_of cmp_le _ _ z y Hs).
    - apply (list_elem_of_lookup_2 _ i). rewrite lookup_take_lt by lia. done.
    - apply (list_elem_of_lookup_2 _ 0). by rewrite lookup_drop, Nat.add_0_r. }
  pose proof (Htrans z y x Pz Py Hx) as Ht. unfold cmp_le in Hzy. rewrite (Hanti x y Hx Py), E in Ht. cbn [CompOpp] in Ht.
  rewrite (Hanti z x Pz Hx). unfold trans3 in Ht. by destruct (cmp z y); rewrite ?Ht.
Qed.

Abbreviation insert_all := (foldl (λ s x, insert_sorted cmp x s)).
Lemma insert_all_perm l s : insert_all s l ≡ₚ l ++ s.
Proof using Type.
  revert s; induction l as [|x l IH]; intros s; cbn [foldl app]; [done|]. rewrite IH, insert_sorted_perm. symmetry. apply Permutation_middle.
Qed.
Lemma heap_foldl k l s :
  (0 < k)%nat → Forall P (l ++ s) → StronglySorted cmp_le s → NoDup (l ++ s) →
  (∀ a b, a ∈ l ++ s → b ∈ l ++ s → cmp a b = Eq → a = b) →
  foldl (heap_push cmp (Some k)) (take k s) l = take k (insert_all s l) ∧ StronglySorted cmp_le (insert_all s l).
Proof using Hanti Htrans.
  intros Hk. revert s; induction l as [|x l IH]; intros s Hp Hs Hnd Hd; cbn [foldl app]; [done|].
  apply Forall_cons in Hp as [Hx Hp]. apply NoDup_cons in Hnd as [Hnx Hnd].
  assert (l ++ insert_sorted cmp x s ≡ₚ x :: l ++ s) as Hperm by (rewrite insert_sorted_perm; symmetry; apply Permutation_middle).
  rewrite heap_push_take; [|done|done|by apply Forall_app in Hp as [_ ?]|done|].
  - apply IH; [by rewrite Hperm; constructor| |by rewrite Hperm; constructor|].
    + apply insert_sorted_ssorted; [done|by apply Forall_app in Hp as [_ ?]|done].
    + intros a b. rewrite Hperm. apply Hd.
  - intros y Hy E. assert (y ∈ l ++ s) as Hyin by (apply elem_of_app; by right).
    apply (Hd x y) in E as ->; [done|by left|by right].
Qed.

Lemma heap_keeps_smallest k l :
  (0 < k)%nat → Forall P l → NoDup l → (∀ a b, a ∈ l → b ∈ l → cmp a b = Eq → a = b) →
  foldl (heap_push cmp (Some k)) [] l = take k (sort_by cmp l).
Proof using Hanti Htrans.
  intros Hk Hp Hnd Hd. assert (@nil A = take k []) as E by (by destruct k). rewrite E at 1. clear E.
  destruct (heap_foldl k l []) as [-> Hs]; try (by rewrite app_nil_r); [done|constructor|].
  f_equal. apply ssorted_unique.
  - by rewrite insert_all_perm, app_nil_r.
  - intros a b. rewrite insert_all_perm, app_nil_r. apply Hd.
  - done.
  - by apply sort_by_ssorted.
  - by rewrite insert_all_perm, app_nil_r, sort_by_perm.
Qed.

(** Sorting what is sorted changes nothing. *)
Lemma sort_by_sorted l : StronglySorted cmp_le l → sort_by cmp l = l.
Proof using Type.
  induction 1 as [|x l Hs IH Hx]; [done|]. cbn [sort_by foldr]. fold (sort_by cmp l). rewrite IH.
  destruct l as [|y l]; [done|]. cbn [insert_sorted]. apply Forall_cons in Hx as [Hxy _]. unfold cmp_le in Hxy. by destruct (cmp x y).
Qed.
End Total.
