(* ===== verification/Executor.v ===== *)
(** * Query execution (src/query/executor/executor.rs)

    From a plan to its rows: the candidate rows of every kind of scan, the paths
    a query takes (top-N, sequential, parallel), raw results and walks,
    projections.  The candidates of a vector scan are the argument [knn]
    (index/vector.rs is not part of the model).  A query without a cancellation
    token and without a row cache; the threads of the parallel paths only read, so
    that their tasks run one after the other here. *)

From stdpp Require Import prelude list gmap strings.
From Stdlib Require Import ZArith Lia.
From S2P Require Import Prelude RustStd Error Crypto VFile Value Doc Wal PageCache StorageIndex Segment Blob Storage Filter IndexKey Composite CompositeManager Traverse Query Matcher Worker TermIndex IndexManager SortFacts.

Local Open Scope Z_scope.
Local Open Scope hako_scope.

(** ** Ordering *)

(** [Option<Value>] as Rust orders it: a missing value is smallest. *)
Definition option_cmp {A} (cmp : A → A → comparison) (a b : option A) : comparison :=
  match a, b with
  | None, None => Eq
  | None, Some _ => Lt
  | Some _, None => Gt
  | Some a, Some b => cmp a b
  end.
(** The first order clause that decides, in its direction. *)
Definition directed (o : OrderBy) (c : comparison) : comparison := if ascending o then c else CompOpp c.
Fixpoint order_chain {A} (key_cmp : OrderBy → A → A → comparison) (orders : list OrderBy) (a b : A) : comparison :=
  match orders with
  | [] => Eq
  | o :: orders => match key_cmp o a b with Eq => order_chain key_cmp orders a b | c => directed o c end
  end.
(** Phase 6: the comparison of decoded rows, and of projected rows. *)
Definition row_key_cmp (o : OrderBy) (a b : bytes * HakoDoc) : comparison :=
  if bytes_eqb (o_field o) b#("id") then bytes_cmp a.1 b.1
  else if bytes_eqb (o_field o) b#("_time") then _time a.2 ?= _time b.2
  else option_cmp value_cmp (get_path a.2 (o_field o)) (get_path b.2 (o_field o)).
Definition row_cmp (orders : list OrderBy) : (bytes * HakoDoc) → (bytes * HakoDoc) → comparison :=
  order_chain row_key_cmp orders.
Definition projected_key_cmp (o : OrderBy) (a b : bytes * list (bytes * Value)) : comparison :=
  if bytes_eqb (o_field o) b#("id") || bytes_eqb (o_field o) b#("_time") then bytes_cmp a.1 b.1
  else option_cmp value_cmp (assoc (o_field o) a.2) (assoc (o_field o) b.2).

(** [TopKey], [TopEntry], [cmp_top], [top_keys]. *)
Inductive TopKey := KeyId | KeyTime (t : Z) | KeyField (v : option Value).
Record TopEntry := mkTop { keys : list TopKey; seq : nat; te_id : bytes; te_ptr : Pointer }.
Definition top_key_cmp (o : OrderBy) (ia ib : bytes) (ka kb : TopKey) : comparison :=
  if bytes_eqb (o_field o) b#("id") then bytes_cmp ia ib
  else if bytes_eqb (o_field o) b#("_time") then
    match ka, kb with
    | KeyTime x, KeyTime y => x ?= y
    | KeyField x, KeyField y => option_cmp value_cmp x y
    | _, _ => Eq
    end
  else match ka, kb with KeyField x, KeyField y => option_cmp value_cmp x y | _, _ => Eq end.
Fixpoint cmp_keys (ia ib : bytes) (orders : list OrderBy) (a b : list TopKey) : comparison :=
  match orders, a, b with
  | o :: orders, ka :: a, kb :: b =>
      match top_key_cmp o ia ib ka kb with Eq => cmp_keys ia ib orders a b | c => directed o c end
  | _, _, _ => Eq
  end.
Definition cmp_top (orders : list OrderBy) (a b : TopEntry) : comparison :=
  cmp_then (cmp_keys (te_id a) (te_id b) orders (keys a) (keys b)) (seq a ?= seq b)%nat.
Definition top_key (view : HakoDocView) (o : OrderBy) : TopKey :=
  if bytes_eqb (o_field o) b#("id") then KeyId
  else if bytes_eqb (o_field o) b#("_time") then KeyTime (v_time view)
  else if has_dot (o_field o) then KeyField (docview_get_path view (o_field o))
  else KeyField (match List.find (λ '(k, _, _), bytes_eqb k (o_field o)) (iter_all true (view_iter view)).1 with
                 | Some (_, tag, data) => decode_value tag data
                 | None => None
                 end).
Definition top_keys (view : HakoDocView) (orders : list OrderBy) : list TopKey := top_key view <$> orders.

(** ** Page and order of the results *)

Definition page_of {A} (skip : nat) (limit : option nat) (rows : list A) : list A :=
  let rows := drop skip rows in match limit with Some l => take l rows | None => rows end.
Definition is_sorted_keys (s : ScanType) : bool := match s with SortedKeys _ _ _ => true | _ => false end.
Definition offset_later (p : QueryPlan) : nat := if is_sorted_keys (scan p) then 0%nat else default 0%nat (p_offset p).
Definition sort_rows (p : QueryPlan) (rows : list (bytes * HakoDoc)) : list (bytes * HakoDoc) :=
  if negb (order_by_satisfied p) && negb (bool_decide (length (p_order_by p) = 0%nat))
  then sort_by (row_cmp (p_order_by p)) rows else rows.
Definition finish_rows (p : QueryPlan) (rows : list (bytes * HakoDoc)) : list (bytes * HakoDoc) :=
  page_of (offset_later p) (p_limit p) (sort_rows p rows).

(** [index_may_hide_xtype], [check_index_satisfied]. *)
Definition numeric_twin (v : Value) : bool :=
  match v with
  | Int _ | Float _ => true
  | String s => bool_decide (is_Some (parse_i64 s)) || bool_decide (is_Some (parse_f64 s))
  | _ => false
  end.
Definition index_may_hide_xtype (p : QueryPlan) : bool :=
  match scan p with
  | SecondaryIndex _ _ | CompositeIndex _ _ _ _ | CompositeIndexRange _ _ _ | UnionIndex _ =>
      bool_decide (length (or_groups p) = 0%nat) && existsb (λ f, bool_decide (f_op f = OpEq) && numeric_twin (f_value f)) (p_filters p)
  | _ => false
  end.
Definition check_index_satisfied (p : QueryPlan) : res unit :=
  if negb (bool_decide (length (elem_match p) = 0%nat)) then
    Err (QueryError "query requires index-satisfied filters (decode to match)")
  else if (negb (bool_decide (length (p_filters p) = 0%nat)) || negb (bool_decide (length (or_groups p) = 0%nat))) &&
          negb (filters_satisfied_by_index p) then
    Err (QueryError "query requires index-satisfied filters (decode to match)")
  else if negb (order_by_satisfied p) && negb (bool_decide (length (p_order_by p) = 0%nat)) then
    Err (QueryError "query requires index-satisfied ordering (decode to sort)")
  else Ok tt.

(** [BTreeMap::range] with bounds: crossed bounds abort, as do equal ones that are
    both excluded. *)
Definition bound_key {A} (b : Bound A) : option A :=
  match b with Included k | Excluded k => Some k | Unbounded => None end.
Definition is_excluded {A} (b : Bound A) : bool := match b with Excluded _ => true | _ => false end.
Definition above (lo : Bound bytes) (k : bytes) : bool :=
  match lo with Included b => bytes_leb b k | Excluded b => bytes_ltb b k | Unbounded => true end.
Definition below (hi : Bound bytes) (k : bytes) : bool :=
  match hi with Included b => bytes_leb k b | Excluded b => bytes_ltb k b | Unbounded => true end.
Definition bounds_crossed (lo hi : Bound bytes) : bool :=
  match bound_key lo, bound_key hi with
  | Some a, Some b => bytes_ltb b a || (bytes_eqb a b && is_excluded lo && is_excluded hi)
  | _, _ => false
  end.
Definition range_bounded {A} (lo hi : Bound bytes) (t : list (bytes * A)) : res (list (bytes * A)) :=
  if bounds_crossed lo hi then Panic else Ok (List.filter (λ kv, above lo kv.1 && below hi kv.1) t).

(** ** Scans *)

Section Executor.
Context `{Crc} `{Zstd} `{HashIter} {cipher : Type} `{Aead cipher}.
Context (to_lowercase : bytes → bytes) (is_alphanumeric : bytes → bool).
Abbreviation StorageEngine := (@StorageEngine cipher).
Abbreviation Rows := (list (bytes * Pointer)).
Context (knn : StorageEngine → IndexManager → bytes → bytes → bytes → Metric → list Filter → option nat → Rows).

Definition live (e : StorageEngine) (id : bytes) : option (bytes * Pointer) :=
  match index (idx e) !! id with
  | Some ptr => if is_deleted ptr then None else Some (id, ptr)
  | None => None
  end.
Definition full (max_ids : option nat) (out : Rows) : bool :=
  match max_ids with Some m => (m <=? length out)%nat | None => false end.
(** The loops over ids: one tests the limit after each row it adds, the other
    after each id. *)
Fixpoint push_live (e : StorageEngine) (max_ids : option nat) (ids : list bytes) (out : Rows) : Rows :=
  match ids with
  | [] => out
  | id :: ids =>
      match live e id with
      | Some kv => let out := out ++ [kv] in if full max_ids out then out else push_live e max_ids ids out
      | None => push_live e max_ids ids out
      end
  end.
Fixpoint push_each (e : StorageEngine) (max_ids : option nat) (ids : list bytes) (out : Rows) : Rows :=
  match ids with
  | [] => out
  | id :: ids =>
      let out := match live e id with Some kv => out ++ [kv] | None => out end in
      if full max_ids out then out else push_each e max_ids ids out
  end.

Definition directed_list {A} (reverse : bool) (l : list A) : list A := if reverse then rev l else l.

Definition scan_full (e : StorageEngine) (max_ids : option nat) : Rows :=
  let rows := List.filter (λ kv, negb (is_deleted kv.2)) (hash_iter (index (idx e))) in
  match max_ids with Some m => take m rows | None => rows end.
(** [sorted_walk_bounds]; the slice panics on a reversed range. *)
Definition sorted_walk_bounds (e : StorageEngine) (start_key : option bytes) (start_exclusive : bool)
    (offset limit : option nat) (reverse : bool) : nat * nat :=
  default (0, 0)%nat
    (if reverse then sorted_key_range_reverse (idx e) start_key start_exclusive offset limit
     else sorted_key_range (idx e) start_key start_exclusive offset limit).
Definition key_slice (e : StorageEngine) (reverse : bool) (range : nat * nat) : res (list bytes) :=
  let ks := sorted_keys (idx e) in
  if (range.2 <? range.1)%nat || (length ks <? range.2)%nat then Panic
  else Ok (directed_list reverse (take (range.2 - range.1) (drop range.1 ks))).
Definition scan_sorted_keys (e : StorageEngine) (start_key : option bytes) (start_exclusive reverse : bool)
    (limit offset : option nat) : res Rows :=
  if (length (sorted_keys (idx e)) =? 0)%nat then Ok []
  else
    ids ← key_slice e reverse (sorted_walk_bounds e start_key start_exclusive offset limit reverse);
    Ok (push_live e limit ids []).
Definition scan_secondary (e : StorageEngine) (m : IndexManager) (c field value : bytes) (limit : option nat) : Rows :=
  match bf_get (secondary m) c field with
  | Some i => push_live e limit (default [] (assoc value i)) []
  | None => []
  end.
Definition scan_composite (e : StorageEngine) (m : IndexManager) (index_id : Z) (values : list Value) (reverse : bool)
    (limit : option nat) : res Rows :=
  match mg_get (composite m) index_id with
  | Some i =>
      let range := build_prefix_range (ci_definition i) values in
      ids ← range_scan_limit i (r_start range) (r_end range) (default (length (tree i)) limit) reverse;
      Ok (push_each e limit ids [])
  | None => Ok []
  end.
Fixpoint scan_ranges (e : StorageEngine) (i : Composite.CompositeIndex) (ranges : list (Bound bytes * Bound bytes)) (reverse : bool)
    (limit : option nat) (out : Rows) : res Rows :=
  match ranges with
  | [] => Ok out
  | (lo, hi) :: ranges =>
      entries ← range_bounded lo hi (tree i);
      let out := push_each e limit (directed_list reverse entries).*2 out in
      if full limit out then Ok out else scan_ranges e i ranges reverse limit out
  end.
Definition scan_composite_range (e : StorageEngine) (m : IndexManager) (index_id : Z)
    (ranges : list (Bound bytes * Bound bytes)) (reverse : bool) (limit : option nat) : res Rows :=
  match mg_get (composite m) index_id with
  | Some i => scan_ranges e i ranges reverse limit []
  | None => Ok []
  end.
Fixpoint push_terms (e : StorageEngine) (max_ids : option nat) (reverse : bool) (terms : list (bytes * list bytes)) (out : Rows) : Rows :=
  match terms with
  | [] => out
  | (_, ids) :: terms =>
      let out := push_live e max_ids (directed_list reverse ids) out in
      if full max_ids out then out else push_terms e max_ids reverse terms out
  end.
Definition scan_secondary_range (e : StorageEngine) (m : IndexManager) (c field : bytes) (lo hi : Bound bytes)
    (reverse : bool) (limit : option nat) : res Rows :=
  match bf_get (secondary m) c field with
  | Some i =>
      entries ← range_bounded lo hi i;
      Ok (push_terms e limit reverse (directed_list reverse entries) [])
  | None => Ok []
  end.
Definition scan_cursor (e : StorageEngine) (m : IndexManager) (index_id : Z) (lo hi : Bound bytes) (reverse : bool)
    (limit : option nat) : res Rows :=
  match mg_get (composite m) index_id with
  | Some i =>
      entries ← range_bounded lo hi (tree i);
      Ok (push_live e limit (directed_list reverse entries).*2 [])
  | None => Ok []
  end.
Definition scan_inverted (e : StorageEngine) (m : IndexManager) (c field query : bytes) (prefix : bool) (limit : option nat) : Rows :=
  match bf_get (fts m) c field with
  | Some i =>
      match (if prefix then search_prefix to_lowercase is_alphanumeric i query else search to_lowercase is_alphanumeric i query) with
      | Some ids => push_live e limit (match limit with Some l => take l ids | None => ids end) []
      | None => []
      end
  | None => []
  end.

(** [execute_single_scan]. *)
Fixpoint execute_single_scan (e : StorageEngine) (m : IndexManager) (s : ScanType) (c : bytes) (limit offset : option nat) : res Rows :=
  match s with
  | FullCollection => Ok (scan_full e limit)
  | SortedKeys start_key start_exclusive reverse => scan_sorted_keys e start_key start_exclusive reverse limit offset
  | SecondaryIndex field value => Ok (scan_secondary e m c field value limit)
  | CompositeIndex index_id _ values reverse => scan_composite e m index_id values reverse limit
  | CompositeIndexRange index_id ranges reverse => scan_composite_range e m index_id ranges reverse limit
  | SecondaryIndexRange field lo hi reverse => scan_secondary_range e m c field lo hi reverse limit
  | CursorIndex lo hi index_id reverse => scan_cursor e m index_id lo hi reverse limit
  | VectorKnn field query metric extra => Ok (knn e m c field query metric extra limit)
  | InvertedIndex field query prefix => Ok (scan_inverted e m c field query prefix limit)
  | UnionIndex scans =>
      unique ← (fix go scans (unique : gmap bytes Pointer) :=
                  match scans with
                  | [] => Ok unique
                  | sub :: scans =>
                      rows ← execute_single_scan e m sub c None None;
                      go scans (foldl (λ u kv, <[kv.1 := kv.2]> u) unique rows)
                  end) scans ∅;
      let out := hash_iter unique in
      Ok (match limit with Some l => take l out | None => out end)
  | Traverse _ _ _ _ =>
      Err (Corrupt "traverse scans need the decoded query path (use query(), not raw/projected/walk)")
  end.
(** ** Results *)

Abbreviation Found := (list (bytes * HakoDoc)).

(** Blobs of the kept rows. *)
Definition inflate_rows (p : QueryPlan) (e : StorageEngine) (rows : Found) : Found :=
  match (if defer_blobs p then None else blob_manager e) with
  | Some bm => if existsb (λ kv, doc_has_links kv.2) rows then map (λ kv, (kv.1, inflate_blobs kv.2 bm)) rows else rows
  | None => rows
  end.

(** The rows a scan needs at most, when it needs no more than a page. *)
Definition early_need (p : QueryPlan) : option nat :=
  match p_limit p with
  | Some l =>
      if (bool_decide (length (p_order_by p) = 0%nat) || order_by_satisfied p) && negb (has_cursor_bounds p)
      then Some (l + default 0%nat (p_offset p))%nat else None
  | None => None
  end.
Definition page_full {A} (need : option nat) (out : list A) : bool :=
  match need with Some n => (n <=? length out)%nat | None => false end.

(** The sequential path. *)
Fixpoint fast_rows (p : QueryPlan) (need : option nat) (rows : Rows) (results : Found) : SR StorageEngine Found := λ e,
  match rows with
  | [] => (e, Ok results)
  | (id, ptr) :: rows =>
      match read_pointer_shared ptr e with
      | (e, Panic) => (e, Panic)
      | (e, r) =>
          let results :=
            match r with
            | Ok (Some b) => match decode_row to_lowercase p id b with Some d => results ++ [(id, d)] | None => results end
            | _ => results
            end in
          if page_full need results then (e, Ok results) else fast_rows p need rows results e
      end
  end.
Definition execute_fast (p : QueryPlan) (rows : Rows) : SR StorageEngine Found :=
  results ← fast_rows p (early_need p) rows [];
  e ← get_st;
  mret (finish_rows p (inflate_rows p e results)).

(** [execute_topn]: unsatisfied order with a limit. *)
Definition topn_keep (p : QueryPlan) (id b : bytes) : res bool :=
  if (negb (bool_decide (length (p_filters p) = 0%nat)) || negb (bool_decide (length (or_groups p) = 0%nat))) &&
     negb (filters_satisfied_by_index p)
  then match matches_filters_view to_lowercase id b p with Some keep => Ok keep | None => Panic end
  else Ok true.
Fixpoint topn_scan (p : QueryPlan) (k : option nat) (n : nat) (rows : Rows) (heap : list TopEntry)
  : SR StorageEngine (list TopEntry) :=
  match rows with
  | [] => mret heap
  | (id, ptr) :: rows =>
      shared ← read_pointer_shared ptr;
      match shared ≫= λ b, (λ view, (b, view)) <$> view_new b with
      | None => topn_scan p k (S n) rows heap
      | Some (b, view) =>
          keep ← lift (topn_keep p id b);
          topn_scan p k (S n) rows
            (if keep : bool then heap_push (cmp_top (p_order_by p)) k heap (mkTop (top_keys view (p_order_by p)) n id ptr) else heap)
      end
  end.
Fixpoint topn_fetch (offset : nat) (limit : option nat) (entries : list TopEntry) (skipped : nat) (out : Found)
  : SR StorageEngine Found :=
  match entries with
  | [] => mret out
  | en :: entries =>
      shared ← read_pointer_shared (te_ptr en);
      match shared ≫= decode with
      | None => topn_fetch offset limit entries skipped out
      | Some doc =>
          if (skipped <? offset)%nat then topn_fetch offset limit entries (S skipped) out
          else if page_full limit out then mret out
          else topn_fetch offset limit entries skipped (out ++ [(te_id en, doc)])
      end
  end.
Definition execute_topn (p : QueryPlan) (rows : Rows) : SR StorageEngine Found :=
  let offset := default 0%nat (p_offset p) in
  let k := (λ l, (l + offset)%nat) <$> p_limit p in
  match k with
  | Some O => mret []
  | _ =>
      heap ← topn_scan p k 0 rows [];
      out ← topn_fetch offset (p_limit p) (sort_by (cmp_top (p_order_by p)) heap) 0 [];
      e ← get_st;
      mret (inflate_rows p e out)
  end.

(** [execute_satisfied_parallel]. *)
Fixpoint stage_rows (rows : Rows) : SR StorageEngine (list (bytes * bytes)) :=
  match rows with
  | [] => mret []
  | (id, ptr) :: rows =>
      shared ← read_pointer_shared ptr;
      rest ← stage_rows rows;
      mret (match shared with Some b => (id, b) :: rest | None => rest end)
  end.
Definition execute_satisfied_parallel (p : QueryPlan) (rows : Rows) : SR StorageEngine Found :=
  staged ← stage_rows rows;
  let staged := match early_need p with Some need => take need staged | None => staged end in
  e ← get_st;
  mret (page_of (offset_later p) (p_limit p)
          (inflate_rows p e (omap (λ kv, (λ d, (kv.1, d)) <$> decode kv.2) staged))).

(** Phases 3 to 6: rows in the order of their place on disk, a first window, then
    tasks; parallel results are put back in the order of the scan. *)
Definition physical_key (ptr : Pointer) : Z :=
  match ptr with PSegment _ offset _ | PBlob offset _ => offset | _ => 0 end.
Definition work_items (rows : Rows) : list (nat * (bytes * Pointer)) :=
  sort_by (λ a b, physical_key a.2.2 ?= physical_key b.2.2) (imap pair rows).
Definition PROBE_ROWS : nat := 2000.
Definition target_workers (workers doc_count : nat) : nat :=
  Nat.max (Nat.min (if (doc_count <=? 150)%nat then 1%nat else if (doc_count <=? 500)%nat then 2%nat else workers) workers) 1.
Fixpoint run_tasks (p : QueryPlan) (tasks : list Rows) : SR StorageEngine Found :=
  match tasks with
  | [] => mret []
  | task :: tasks => out ← run_task to_lowercase p task; rest ← run_tasks p tasks; mret (out ++ rest)
  end.
Fixpoint pick_rows (items : list (nat * (bytes * Pointer))) (found : gmap bytes HakoDoc) : list (nat * (bytes * HakoDoc)) :=
  match items with
  | [] => []
  | (pos, (key, _)) :: items =>
      match found !! key with
      | Some d => (pos, (key, d)) :: pick_rows items (base.delete key found)
      | None => pick_rows items found
      end
  end.
Definition restore_order (items : list (nat * (bytes * Pointer))) (processed : Found) : Found :=
  (sort_by (λ a b, (a.1 ?= b.1)%nat) (pick_rows items (foldl (λ f kv, <[kv.1 := kv.2]> f) ∅ processed))).*2.
Definition probe_len (p : QueryPlan) (n : nat) : nat :=
  match early_need p with Some need => if (need <? n)%nat then Nat.min PROBE_ROWS n else 0%nat | None => 0%nat end.
Definition execute_sweep (workers : nat) (p : QueryPlan) (rows : Rows) : SR StorageEngine Found :=
  let items := work_items rows in
  let docs := items.*2 in
  let n := probe_len p (length docs) in
  probed ← (if (n =? 0)%nat then mret [] else run_task to_lowercase p (take n docs));
  let rest := if page_full (early_need p) probed then [] else drop n docs in
  let w := target_workers workers (length rest) in
  processed ← run_tasks p (shard_tasks rest w);
  let results := if (w =? 1)%nat then processed else restore_order items processed in
  mret (finish_rows p (probed ++ results)).

(** [execute]: the candidate rows, then the path their number and the plan ask
    for. *)
Definition is_topn (p : QueryPlan) (n : nat) : bool :=
  negb (bool_decide (length (p_order_by p) = 0%nat)) && negb (order_by_satisfied p) && negb (has_cursor_bounds p) &&
  match p_limit p with Some l => (l <? n)%nat | None => false end.
Definition SATISFIED_SEQUENTIAL_CAP : nat := 2000.
Definition execute_rows (workers : nat) (p : QueryPlan) (rows : Rows) : SR StorageEngine Found :=
  let satisfied := order_by_satisfied p && filters_satisfied_by_index p in
  match rows with
  | [] => mret []
  | _ =>
      if is_topn p (length rows) then execute_topn p rows
      else if (length rows <=? 250)%nat || (satisfied && (length rows <=? SATISFIED_SEQUENTIAL_CAP)%nat) then execute_fast p rows
      else if satisfied then execute_satisfied_parallel p rows
      else execute_sweep workers p rows
  end.
Definition as_full_scan (p : QueryPlan) : QueryPlan :=
  mkPlan (p_collection p) FullCollection (p_filters p) (or_groups p) (elem_match p) (p_order_by p) (p_limit p) (p_offset p)
    (projection p) (scan_limit p) (order_by_satisfied p) false (defer_blobs p) (p_raw p) (has_cursor_bounds p).
Definition execute (workers : nat) (m : IndexManager) (p : QueryPlan) : SR StorageEngine Found :=
  e ← get_st;
  rows ← lift (execute_single_scan e m (scan p) (p_collection p) (scan_limit p) (p_offset p));
  if bool_decide (length rows = 0%nat) && index_may_hide_xtype p then
    rows ← lift (execute_single_scan e m FullCollection (p_collection p) None (p_offset p));
    execute_rows workers (as_full_scan p) rows
  else execute_rows workers p rows.

(** [execute_raw]: bytes, in the order of the scan. *)
Definition execute_raw (m : IndexManager) (p : QueryPlan) : SR StorageEngine (list (bytes * bytes)) :=
  _ ← lift (check_index_satisfied p);
  e ← get_st;
  rows ← lift (execute_single_scan e m (scan p) (p_collection p) (scan_limit p) (p_offset p));
  out ← stage_rows rows;
  mret (page_of (offset_later p) (p_limit p) out).

(** [execute_projected]. *)
Definition projected_offset (p : QueryPlan) : nat := default 0%nat (p_offset p).
Definition template_of (e : StorageEngine) (template : list (bytes * Value)) : list (bytes * Value) :=
  match blob_manager e with Some bm => resolve_fields bm template | None => template end.
(** [handle.join().unwrap_or_default()]: a task that aborts gives no rows. *)
Definition joined {A} (task : SR StorageEngine (list A)) : SR StorageEngine (list A) := λ e,
  match task e with (e, Panic) => (e, Ok []) | r => r end.
Fixpoint run_projected (p : QueryPlan) (tasks : list Rows) : SR StorageEngine (list (bytes * list (bytes * Value))) :=
  match tasks with
  | [] => mret []
  | task :: tasks =>
      out ← joined (run_task_projected to_lowercase p task); rest ← run_projected p tasks; mret (out ++ rest)
  end.
Definition projected_rows (workers : nat) (p : QueryPlan) (docs : Rows) : SR StorageEngine (list (bytes * list (bytes * Value))) :=
  match covering_projection p with
  | Some template => e ← get_st; mret ((λ kv, (kv.1, template_of e template)) <$> docs)
  | None =>
      if (length docs <=? 250)%nat then
        out ← task_rows (λ id b, unified_match_projected to_lowercase id b (prepare_optimized_plan p)) docs;
        e ← get_st;
        mret ((λ kv, (kv.1, template_of e kv.2)) <$> out)
      else run_projected p (shard_tasks docs (Nat.min workers (Nat.max (length docs / 500) 1)))
  end.
Definition execute_projected (workers : nat) (m : IndexManager) (p : QueryPlan) : SR StorageEngine (list (bytes * list (bytes * Value))) :=
  e ← get_st;
  docs ← lift (execute_single_scan e m (scan p) (p_collection p) (scan_limit p) (p_offset p));
  let early := order_by_satisfied p in
  let docs := if early then drop (projected_offset p) docs else docs in
  let docs := if early && filters_satisfied_by_index p
              then match p_limit p with Some l => take l docs | None => docs end else docs in
  results ← projected_rows workers p docs;
  let results := if negb (order_by_satisfied p) && negb (bool_decide (length (p_order_by p) = 0%nat))
                 then sort_by (order_chain projected_key_cmp (p_order_by p)) results else results in
  mret (page_of (if early then 0%nat else projected_offset p) (p_limit p) results).
(** ** Walks *)

(** The callback of a walk has a state of its own next to the engine. *)
Section Walk.
Context {St : Type}.
Abbreviation WM := (SR (StorageEngine * St)).
Definition on_engine {A} (act : SR StorageEngine A) : WM A := λ '(e, s), let '(e, r) := act e in ((e, s), r).
Definition on_caller {A} (f : St → St * A) : WM A := λ '(e, s), let '(s, a) := f s in ((e, s), Ok a).

(** [drive_sorted_keys]. *)
Fixpoint drive_sorted_keys (f : bytes → Pointer → WM bool) (limit : option nat) (visited : nat) (ks : list bytes) : WM nat :=
  match ks with
  | [] => mret visited
  | key :: ks =>
      if match limit with Some l => (l <=? visited)%nat | None => false end then mret visited
      else
        st ← get_st;
        match live st.1 key with
        | None => drive_sorted_keys f limit visited ks
        | Some (_, ptr) =>
            more ← f key ptr;
            if more : bool then drive_sorted_keys f limit (S visited) ks else mret (S visited)
        end
  end.
Definition walk_sorted (p : QueryPlan) (f : bytes → Pointer → WM bool) (refusal : HakoError) : WM nat :=
  _ ← lift (check_index_satisfied p);
  match scan p with
  | SortedKeys start_key start_exclusive reverse =>
      st ← get_st;
      if (length (sorted_keys (idx st.1)) =? 0)%nat then mret 0%nat
      else
        ks ← lift (key_slice st.1 reverse (sorted_walk_bounds st.1 start_key start_exclusive (p_offset p) (p_limit p) reverse));
        drive_sorted_keys f (p_limit p) 0 ks
  | _ => fail refusal
  end.

(** [execute_walk], [execute_walk_view]. *)
Definition execute_walk (p : QueryPlan) (callback : bytes → bytes → St → St * bool) : WM nat :=
  walk_sorted p (λ key ptr,
    match ptr with
    | PInlined shared => on_caller (callback key shared)
    | other =>
        r ← on_engine (read_pointer_internal other true);
        match r with Some b => on_caller (callback key b) | None => mret true end
    end) (QueryError "walk supports SortedKeys scans only (order by id)").
Definition execute_walk_view (p : QueryPlan) (callback : bytes → HakoDocView → St → St * bool) : WM nat :=
  walk_sorted p (λ key ptr,
    r ← on_engine (read_pointer_shared ptr);
    match r ≫= view_new with Some view => on_caller (callback key view) | None => mret true end)
    (QueryError "view walk supports SortedKeys scans only (order by id)").
End Walk.
End Executor.
