(* ===== verification/ExecutorFacts.v ===== *)
(** * Facts about query execution

    The reference answer to a plan over the rows of its scan: the rows that match,
    with their blobs, sorted and paged.  Every path of [execute_rows] gives it. *)

From stdpp Require Import prelude list gmap strings sorting.
From Stdlib Require Import ZArith Lia.
From S2P Require Import Prelude RustStd Error Crypto VFile Value Doc DocFacts DocCodec DocAccess Wal PageCache StorageIndex Segment Blob Storage StorageFacts StorageView StorageCompact Filter Query Matcher MatcherFacts Worker TermIndex IndexManager Planner PlannerFacts SortFacts Executor.

Local Open Scope Z_scope.
Local Open Scope hako_scope.

(** ** Sorting through maps *)

Lemma sort_by_map {A B} (f : A → B) (cmp : A → A → comparison) (cmp' : B → B → comparison) l :
  StronglySorted (λ x y, cmp x y = Gt ↔ cmp' (f x) (f y) = Gt) l → f <$> sort_by cmp l = sort_by cmp' (f <$> l).
Proof.
  induction 1 as [|x l Hs IH Hx]; [done|]. rewrite fmap_cons. cbn [sort_by foldr]. fold (sort_by cmp l).
  change (foldr (insert_sorted cmp') [] (f <$> l)) with (sort_by cmp' (f <$> l)). rewrite <-IH.
  apply insert_sorted_map. by rewrite (sort_by_perm cmp l).
Qed.
Lemma sort_by_map_all {A B} (f : A → B) (cmp : A → A → comparison) (cmp' : B → B → comparison) l :
  (∀ x y, x ∈ l → y ∈ l → cmp x y = cmp' (f x) (f y)) → f <$> sort_by cmp l = sort_by cmp' (f <$> l).
Proof.
  intros H. apply sort_by_map. induction l as [|x l IH]; constructor.
  - apply IH. intros y z Hy Hz. apply H; by right.
  - apply Forall_forall. intros y Hy. rewrite H; [done|by left|by right].
Qed.

Lemma page_of_fmap {A B} (f : A → B) s l rows : page_of s l (f <$> rows) = f <$> page_of s l rows.
Proof. unfold page_of. destruct l; by rewrite ?fmap_take, ?fmap_drop. Qed.
Lemma page_of_take {A} s l n (rows : list A) : (s + l <= n)%nat → page_of s (Some l) (take n rows) = page_of s (Some l) rows.
Proof.
  intros Hn. unfold page_of. rewrite !take_drop_commute, take_take. by replace (Nat.min (s + l) n) with (s + l)%nat by lia.
Qed.
Lemma page_of_prefix {A} s l (r rows : list A) :
  r `prefix_of` rows → (s + l <= length r)%nat → page_of s (Some l) r = page_of s (Some l) rows.
Proof.
  intros [k ->] Hl. rewrite <-(page_of_take s l (length r) (r ++ k)) by done. by rewrite take_app_length.
Qed.

(** ** The order of the rows *)

Lemma option_cmp_antisym {A} (cmp : A → A → comparison) a b :
  (∀ x y, cmp y x = CompOpp (cmp x y)) → option_cmp cmp b a = CompOpp (option_cmp cmp a b).
Proof. intros H. destruct a, b; try done. apply H. Qed.
Lemma directed_antisym o c : directed o (CompOpp c) = CompOpp (directed o c).
Proof. unfold directed. by destruct (ascending o). Qed.
Lemma order_chain_antisym {A} (key_cmp : OrderBy → A → A → comparison) orders a b :
  (∀ o, key_cmp o b a = CompOpp (key_cmp o a b)) → order_chain key_cmp orders b a = CompOpp (order_chain key_cmp orders a b).
Proof.
  intros H. induction orders as [|o orders IH]; [done|]. cbn [order_chain]. rewrite H.
  destruct (key_cmp o a b); cbn [CompOpp]; [done|by rewrite <-directed_antisym|by rewrite <-directed_antisym].
Qed.
Lemma order_chain_then {A} (key_cmp : OrderBy → A → A → comparison) o orders a b :
  order_chain key_cmp (o :: orders) a b = cmp_then (directed o (key_cmp o a b)) (order_chain key_cmp orders a b).
Proof. cbn [order_chain]. unfold directed. by destruct (ascending o), (key_cmp o a b). Qed.
Lemma trans3_directed o a b c : trans3 a b c → trans3 (directed o a) (directed o b) (directed o c).
Proof. unfold directed. destruct (ascending o), a, b; cbn; intros; subst; done. Qed.
Lemma order_chain_trans3 {A} (key_cmp : OrderBy → A → A → comparison) orders a b c :
  (∀ o, o ∈ orders → trans3 (key_cmp o a b) (key_cmp o b c) (key_cmp o a c)) →
  trans3 (order_chain key_cmp orders a b) (order_chain key_cmp orders b c) (order_chain key_cmp orders a c).
Proof.
  induction orders as [|o orders IH]; intros H; [done|]. rewrite !order_chain_then. apply trans3_then.
  - apply trans3_directed, H. by left.
  - intros _ _. apply IH. intros o' Ho. apply H. by right.
Qed.

Lemma row_cmp_antisym orders a b : row_cmp orders b a = CompOpp (row_cmp orders a b).
Proof.
  apply order_chain_antisym. intros o. unfold row_key_cmp. repeat split_if; [apply cmp_antisym|apply Z.compare_antisym|].
  apply option_cmp_antisym, value_cmp_antisym.
Qed.

(** Rows whose order keys the value order compares consistently. *)
Definition key_comparable (orders : list OrderBy) (d : HakoDoc) : Prop :=
  ∀ o, o ∈ orders → match get_path d (o_field o) with Some v => comparable v = true | None => True end.
Lemma row_cmp_trans3 orders a b c :
  key_comparable orders a.2 → key_comparable orders b.2 → key_comparable orders c.2 →
  trans3 (row_cmp orders a b) (row_cmp orders b c) (row_cmp orders a c).
Proof.
  intros Ha Hb Hc. apply order_chain_trans3. intros o Ho. specialize (Ha o Ho). specialize (Hb o Ho). specialize (Hc o Ho).
  unfold row_key_cmp. split_if; [apply bytes_trans3|]. split_if; [apply Z_trans3|].
  destruct (get_path a.2 _), (get_path b.2 _), (get_path c.2 _); cbn [option_cmp]; try done; try (by destruct (value_cmp _ _)).
  by apply value_cmp_trans3.
Qed.

(** ** Top keys *)

Definition order_names_ok (orders : list OrderBy) : Prop := Forall (λ o, o_field o ≠ []) orders.

Lemma find_entry fs k :
  forallb (λ kv, name_ok kv.1 && encodable kv.2) fs = true →
  match List.find (λ '(k', _, _), bytes_eqb k' k) (entry_item <$> fs) with
  | Some (_, tag, data) => decode_value tag data
  | None => None
  end = assoc k fs.
Proof.
  induction fs as [|[k' v] fs IH]; [done|]. rewrite fmap_cons. cbn [forallb assoc fst snd]. intros [[_ Hv]%andb_true_iff Hok]%andb_true_iff.
  destruct (encode_value_framed v Hv) as (tag & data & E & _). rewrite (entry_item_eq _ _ _ _ E). cbn [List.find].
  split_if; [|by apply IH]. pose proof (decode_value_span v Hv) as Hdec. rewrite (value_span_eq _ _ _ E) in Hdec. done.
Qed.

(** The key of an encoded document is the value the full comparison looks up. *)
Lemma top_key_encoded d v o :
  doc_encodable d = true → doc_sorted d → view_new (encode d) = Some v → o_field o ≠ [] →
  top_key v o = if bytes_eqb (o_field o) b#("id") then KeyId
                else if bytes_eqb (o_field o) b#("_time") then KeyTime (_time d)
                else KeyField (get_path d (o_field o)).
Proof.
  intros Hd Hs Hv Hn. unfold top_key. pose proof (docview_get_path_encoded d (o_field o) Hd Hs) as Hp. rewrite Hv in Hp. cbn [mbind option_bind] in Hp.
  rewrite view_new_encode in Hv by done. injection Hv as <-. cbn [v_time]. split_if; [done|]. split_if; [done|].
  destruct (has_dot (o_field o)) eqn:Hdot; [by rewrite Hp|]. f_equal.
  rewrite get_path_plain by (unfold plain_name; rewrite bool_decide_false, Hdot by done; done).
  unfold view_iter. cbn [v_bytes v_count]. replace (Z.to_nat (zlen (fields d))) with (length (fields d)) by (unfold zlen; lia).
  rewrite iter_all_encode by done. cbn [fst]. rewrite find_entry by apply (doc_encodable_inv d Hd).
  by rewrite <-doc_get_assoc.
Qed.

Lemma cmp_keys_rows orders ia ib a b va vb :
  doc_encodable a = true → doc_sorted a → view_new (encode a) = Some va →
  doc_encodable b = true → doc_sorted b → view_new (encode b) = Some vb → order_names_ok orders →
  cmp_keys ia ib orders (top_keys va orders) (top_keys vb orders) = row_cmp orders (ia, a) (ib, b).
Proof.
  intros Ha Hsa Hva Hb Hsb Hvb. unfold row_cmp, top_keys. induction 1 as [|o orders Ho Hn IH]; [done|].
  rewrite !fmap_cons. cbn [cmp_keys order_chain]. rewrite IH. assert (top_key_cmp o ia ib (top_key va o) (top_key vb o) = row_key_cmp o (ia, a) (ib, b)) as ->; [|done].
  rewrite (top_key_encoded a), (top_key_encoded b) by done. unfold top_key_cmp, row_key_cmp. cbn [fst snd]. by repeat split_if.
Qed.

(** ** Positions *)

Fixpoint numbered {A} (n : nat) (l : list A) : list (nat * A) :=
  match l with [] => [] | x :: l => (n, x) :: numbered (S n) l end.
Abbreviation by_position := (StronglySorted (λ a b, (a.1 < b.1)%nat)).
Lemma numbered_lower {A} n (l : list A) : Forall (λ a, (n <= a.1)%nat) (numbered n l).
Proof.
  revert n; induction l as [|x l IH]; intros n; constructor; [done|]. eapply Forall_impl; [apply IH|]. cbn. intros; lia.
Qed.
Lemma numbered_sorted {A} n (l : list A) : by_position (numbered n l).
Proof.
  revert n; induction l as [|x l IH]; intros n; constructor; [apply IH|].
  eapply Forall_impl; [apply numbered_lower|]. cbn. intros; lia.
Qed.
Lemma numbered_snd {A} n (l : list A) : (numbered n l).*2 = l.
Proof. revert n; induction l as [|x l IH]; intros n; [done|]. cbn [numbered]. by rewrite fmap_cons, IH. Qed.
Lemma numbered_imap {A} n (l : list A) : imap (λ i x, ((n + i)%nat, x)) l = numbered n l.
Proof.
  revert n; induction l as [|x l IH]; intros n; [done|]. rewrite imap_cons. cbn [numbered]. rewrite Nat.add_0_r, <-IH. f_equal.
  apply imap_ext. intros i y _. cbn. by rewrite Nat.add_succ_r.
Qed.
Lemma imap_pair_numbered {A} (l : list A) : imap pair l = numbered 0 l.
Proof. rewrite <-numbered_imap. done. Qed.
Lemma by_position_filter {A} (f : nat * A → bool) l : by_position l → by_position (List.filter f l).
Proof.
  induction 1 as [|x l Hs IH Hx]; [constructor|]. cbn [List.filter]. destruct (f x); [|done]. constructor; [done|].
  apply Forall_forall. intros y [Hy _]%list_elem_of_In%filter_In. by apply (proj1 (Forall_forall _ _) Hx), list_elem_of_In.
Qed.
Lemma by_position_inj {A} (l : list (nat * A)) a b : by_position l → a ∈ l → b ∈ l → a.1 = b.1 → a = b.
Proof.
  induction 1 as [|x l Hs IH Hx]; [by intros ?%not_elem_of_nil|]. rewrite !elem_of_cons. intros [->|Ha] [->|Hb] E; try done.
  - pose proof (proj1 (Forall_forall _ _) Hx b Hb). cbn in *. lia.
  - pose proof (proj1 (Forall_forall _ _) Hx a Ha). cbn in *. lia.
  - by apply IH.
Qed.
Lemma by_position_NoDup {A} (l : list (nat * A)) : by_position l → NoDup l.
Proof.
  induction 1 as [|x l Hs IH Hx]; constructor; [|done]. intros Hin.
  pose proof (proj1 (Forall_forall _ _) Hx x Hin). cbn in *. lia.
Qed.
Lemma filter_numbered_snd {A} (f : A → bool) n l : (List.filter (λ a, f a.2) (numbered n l)).*2 = List.filter f l.
Proof.
  revert n; induction l as [|x l IH]; intros n; [done|]. cbn [numbered List.filter snd]. destruct (f x); [|apply IH].
  by rewrite fmap_cons, IH.
Qed.
Lemma numbered_elem {A} n (l : list A) a : a ∈ numbered n l → a.2 ∈ l.
Proof. intros Ha. rewrite <-(numbered_snd n l). apply list_elem_of_fmap. by exists a. Qed.

(** ** Tasks and parallel results *)

Lemma drain_chunks_map {A B} (f : A → B) fuel n (l : list A) : drain_chunks fuel n (f <$> l) = (λ t : list A, f <$> t) <$> drain_chunks fuel n l.
Proof.
  revert l; induction fuel as [|fuel IH]; intros [|x l]; try done. rewrite fmap_cons. cbn [drain_chunks]. rewrite fmap_cons.
  by rewrite <-fmap_cons, <-fmap_take, <-fmap_drop, IH.
Qed.

Lemma shard_tasks_map {A B} (f : A → B) (l : list A) w : shard_tasks (f <$> l) w = (λ t : list A, f <$> t) <$> shard_tasks l w.
Proof. unfold shard_tasks. by rewrite length_fmap, drain_chunks_map. Qed.

Abbreviation Row := (bytes * Pointer * HakoDoc)%type.
Abbreviation rid := (λ a : nat * Row, a.2.1.1).
Abbreviation item := (λ a : nat * Row, (a.1, a.2.1)).
Definition picked (found : gmap bytes HakoDoc) (W : list (nat * Row)) : list (nat * (bytes * HakoDoc)) :=
  omap (λ a, (λ d, (a.1, (rid a, d))) <$> found !! rid a) W.
Lemma elem_of_picked found W x : x ∈ picked found W ↔ ∃ a, a ∈ W ∧ found !! rid a = Some x.2.2 ∧ x = (a.1, (rid a, x.2.2)).
Proof.
  unfold picked. rewrite list_elem_of_omap. split.
  - intros (a & Ha & E). exists a. split; [done|]. destruct (found !! a.2.1.1) as [d|]; [|done]. by injection E as <-.
  - intros (a & Ha & Hf & E). exists a. split; [done|]. rewrite Hf. cbn. by rewrite <-E.
Qed.
Lemma pick_rows_spec W found : NoDup (rid <$> W) → pick_rows (item <$> W) found = picked found W.
Proof.
  revert found; induction W as [|[n [[k ptr] d0]] W IH]; intros found Hnd; [done|]. rewrite fmap_cons in Hnd.
  apply NoDup_cons in Hnd as [Hk Hnd]. rewrite fmap_cons. cbn [pick_rows fst snd] in *. unfold picked. cbn [omap list_omap fst snd].
  destruct (found !! k) as [d|] eqn:E; cbn [fmap option_fmap option_map]; [|by apply IH].
  rewrite IH by done. f_equal. apply list_omap_ext, Forall_Forall2_diag, Forall_forall. intros x Hx.
  rewrite lookup_delete_ne; [done|]. intros ->. apply Hk, list_elem_of_fmap. by exists x.
Qed.
Lemma picked_NoDup found W : NoDup (rid <$> W) → NoDup (picked found W).
Proof.
  induction W as [|a W IH]; intros Hnd; [constructor|]. rewrite fmap_cons in Hnd. apply NoDup_cons in Hnd as [Ha Hnd].
  unfold picked. cbn [omap list_omap]. destruct (found !! a.2.1.1) as [d|]; cbn [fmap option_fmap option_map]; [|by apply IH].
  apply NoDup_cons. split; [|by apply IH]. intros (b & Hb & _ & E)%elem_of_picked. cbn [snd] in E. injection E as _ E.
  apply Ha. rewrite E. apply list_elem_of_fmap. by exists b.
Qed.
Lemma insert_all_lookup (l : list (bytes * HakoDoc)) k d :
  NoDup l.*1 → foldl (λ f kv, <[kv.1 := kv.2]> f) (∅ : gmap bytes HakoDoc) l !! k = Some d ↔ (k, d) ∈ l.
Proof.
  intros Hnd. assert (∀ (m : gmap bytes HakoDoc), (∀ k', k' ∈ l.*1 → m !! k' = None) →
    foldl (λ f kv, <[kv.1 := kv.2]> f) m l !! k = Some d ↔ (k, d) ∈ l ∨ m !! k = Some d) as Hgen.
  { induction l as [|[k1 d1] l IH]; intros m Hm; cbn [foldl fst snd]; [by rewrite elem_of_nil; tauto|].
    rewrite fmap_cons in Hnd. apply NoDup_cons in Hnd as [Hk1 Hnd]. rewrite IH; [|done|].
    - rewrite elem_of_cons. destruct (decide (k1 = k)) as [->|Hne].
      + rewrite lookup_insert_eq. assert (m !! k = None) as Hnone by (apply Hm; rewrite fmap_cons; by left).
        split; [intros [?|[= ->]]; [by left; right|by left; left]|intros [[[= ->]|?]|?]; [by right|by left|congruence]].
      + rewrite lookup_insert_ne by done. split; [intros [?|?]; [by left; right|by right]|intros [[[= -> _]|?]|?]; [done|by left|by right]].
    - intros k' Hk'. rewrite lookup_insert_ne by (intros ->; done). apply Hm. rewrite fmap_cons. by right. }
  rewrite Hgen by done. rewrite lookup_empty. split; [intros [?|?]; done|by left].
Qed.

(** ** Paths *)

Section Paths.
Context `{Crc} `{Zstd} `{HashIter} {cipher : Type} `{Aead cipher}.
Context (to_lowercase : bytes → bytes).
Abbreviation StorageEngine := (@StorageEngine cipher).
Implicit Types (e : StorageEngine) (p : QueryPlan).

(** A row of a scan with the document it leads to. *)
Definition row_holds e (r : Row) : Prop :=
  ptr_ok e r.1.2 ∧ ptr_value e r.1.2 = Some (encode r.2) ∧ doc_encodable r.2 = true ∧ doc_sorted r.2.
Lemma row_holds_cache c e r : row_holds e r → row_holds (e_with_cache c e) r.
Proof using Type. destruct r as [[id []] d]; done. Qed.
Lemma rows_hold_cache c e rows : Forall (row_holds e) rows → Forall (row_holds (e_with_cache c e)) rows.
Proof using Type. intros Hr. eapply Forall_impl; [exact Hr|]. intros r. apply row_holds_cache. Qed.

Definition row_matches p (r : Row) : bool :=
  filters_satisfied_by_index p || doc_matches to_lowercase r.1.1 r.2 (prepare_optimized_plan p).
Definition filled p e (r : Row) : bytes * HakoDoc := (r.1.1, fill p e r.2).

(** The reference. *)
Definition matching p e (rows : list Row) : list (bytes * HakoDoc) := filled p e <$> List.filter (row_matches p) rows.
Definition answer p e (rows : list Row) : list (bytes * HakoDoc) := finish_rows p (matching p e rows).

Definition filters_ok p : Prop := Forall (λ f, filter_ok f = true) (p_filters (prepare_optimized_plan p)).

Lemma decode_row_holds p e r :
  row_holds e r → filters_ok p → decode_row to_lowercase p r.1.1 (encode r.2) = if row_matches p r then Some r.2 else None.
Proof using Type.
  intros (_ & _ & Hd & Hs) Hf. unfold decode_row, row_matches. destruct (filters_satisfied_by_index p); cbn [orb].
  - by apply decode_encode_doc.
  - by apply unified_match_encoded.
Qed.

Lemma read_row e r :
  store_ok e → row_holds e r →
  ∃ c, read_pointer_shared r.1.2 e = (e_with_cache c e, Ok (Some (encode r.2))) ∧ store_ok (e_with_cache c e).
Proof using Type.
  intros He (Hp & Hv & _). destruct (read_pointer_shared_value e r.1.2 He Hp) as (c & Hr & Hc). exists c. by rewrite Hr, Hv.
Qed.

Lemma inflate_rows_filled p e rows : inflate_rows p e ((λ r : Row, (r.1.1, r.2)) <$> rows) = filled p e <$> rows.
Proof using Type.
  unfold inflate_rows, filled, fill. destruct (if defer_blobs p then None else blob_manager e) as [bm|]; [|done].
  rewrite fill_rows. change (map ?f ?l) with (f <$> l). by rewrite <-list_fmap_compose.
Qed.
Abbreviation plain := (λ r : Row, (r.1.1, r.2)).
Abbreviation kept p := (List.filter (row_matches p)).
Lemma cache_self e : e_with_cache (cache e) e = e.
Proof using Type. by destruct e. Qed.

(** The sequential path stops early only with a full page. *)
Lemma fast_rows_spec p need rows out e :
  store_ok e → Forall (row_holds e) rows → filters_ok p →
  ∃ c n, fast_rows to_lowercase p need rows.*1 out e = (e_with_cache c e, Ok (out ++ (plain <$> take n (kept p rows)))) ∧
    store_ok (e_with_cache c e) ∧
    ((length (kept p rows) <= n)%nat ∨ page_full need (out ++ (plain <$> take n (kept p rows))) = true).
Proof using Type.
  intros He Hr Hf. revert e out He Hr; induction rows as [|[[id ptr] d] rows IH]; intros e out He Hr.
  { exists (cache e), 0%nat. rewrite cache_self, app_nil_r. by split_and!; [..|left]. }
  apply Forall_cons in Hr as [Hrow Hr]. destruct (read_row e _ He Hrow) as (c & Hread & Hc). rewrite fmap_cons. cbn [fst snd fast_rows] in *.
  rewrite Hread. pose proof (decode_row_holds p e _ Hrow Hf) as Hdec. cbn [fst snd] in Hdec. rewrite Hdec. cbn [List.filter].
  destruct (row_matches p (id, ptr, d)) eqn:Em.
  - destruct (page_full need (out ++ [(id, d)])) eqn:Ef.
    { exists c, 1%nat. cbn [take]. rewrite take_0, fmap_cons. by split_and!; [..|right]. }
    destruct (IH (e_with_cache c e) (out ++ [(id, d)]) Hc) as (c' & n & Hrun & Hc' & Hn); [by apply rows_hold_cache|].
    exists c', (S n). rewrite Hrun. cbn [take]. rewrite fmap_cons. rewrite <-app_assoc in *.
    split_and!; [done|done|]. destruct Hn as [Hn|Hn]; [left; cbn [length]; lia|by right].
  - destruct (page_full need out) eqn:Ef.
    { exists c, 0%nat. rewrite take_0, app_nil_r. by split_and!; [..|right]. }
    destruct (IH (e_with_cache c e) out Hc) as (c' & n & Hrun & Hc' & Hn); [by apply rows_hold_cache|].
    exists c', n. by rewrite Hrun.
Qed.

(** A bounded need comes with a page that the first rows fill. *)
Lemma early_need_page p n :
  early_need p = Some n →
  ∃ l, p_limit p = Some l ∧ (offset_later p + l <= n)%nat ∧ ∀ rows, sort_rows p rows = rows.
Proof using Type.
  unfold early_need. destruct (p_limit p) as [l|]; [|done].
  destruct ((bool_decide (length (p_order_by p) = 0%nat) || order_by_satisfied p) && negb (has_cursor_bounds p)) eqn:Hg; [|done].
  intros [= <-]. exists l. split_and!; [done| |].
  - unfold offset_later. destruct (is_sorted_keys (scan p)); lia.
  - intros rows. unfold sort_rows. apply andb_true_iff in Hg as [Hg _]. apply orb_true_iff in Hg as [->| ->]; by rewrite ?andb_false_r.
Qed.
Lemma page_full_length {A} n (l : list A) : page_full (Some n) l = true → (n <= length l)%nat.
Proof using Type. cbn [page_full]. by intros ?%Nat.leb_le. Qed.

Lemma finish_early p e rows n :
  (length (kept p rows) <= n)%nat ∨ page_full (early_need p) (plain <$> take n (kept p rows)) = true →
  finish_rows p (filled p e <$> take n (kept p rows)) = answer p e rows.
Proof using Type.
  unfold answer, matching. intros [Hn|Hn]; [by rewrite take_ge|].
  destruct (early_need p) as [need|] eqn:En; [|done]. apply page_full_length in Hn. rewrite length_fmap in Hn.
  destruct (early_need_page p need En) as (l & Hl & Hlen & Hs). unfold finish_rows. rewrite !Hs, Hl.
  apply page_of_prefix; [|rewrite length_fmap; lia]. rewrite fmap_take. exists (drop n (filled p e <$> kept p rows)). by rewrite take_drop.
Qed.

Lemma execute_fast_answer p rows e :
  store_ok e → Forall (row_holds e) rows → filters_ok p →
  ∃ c, execute_fast to_lowercase p rows.*1 e = (e_with_cache c e, Ok (answer p e rows)) ∧ store_ok (e_with_cache c e).
Proof using Type.
  intros He Hr Hf. destruct (fast_rows_spec p (early_need p) rows [] e He Hr Hf) as (c & n & Hrun & Hc & Hn).
  exists c. split; [|done]. unfold execute_fast. rewrite (bind_ok _ _ _ _ _ Hrun), (bind_ok get_st _ _ _ _ eq_refl). unfold mret, SR_ret.
  cbn [app] in *. do 2 f_equal. rewrite inflate_rows_filled. change (filled p (e_with_cache c e)) with (filled p e). by apply finish_early.
Qed.

(** The parallel path of satisfied scans. *)
Lemma stage_rows_spec rows e :
  store_ok e → Forall (row_holds e) rows →
  ∃ c, stage_rows rows.*1 e = (e_with_cache c e, Ok ((λ r : Row, (r.1.1, encode r.2)) <$> rows)) ∧ store_ok (e_with_cache c e).
Proof using Type.
  revert e; induction rows as [|[[id ptr] d] rows IH]; intros e He Hr.
  { exists (cache e). by rewrite cache_self. }
  apply Forall_cons in Hr as [Hrow Hr]. destruct (read_row e _ He Hrow) as (c & Hread & Hc).
  destruct (IH (e_with_cache c e) Hc) as (c' & Hrun & Hc'); [by apply rows_hold_cache|].
  exists c'. split; [|done]. rewrite !fmap_cons. cbn [fst snd stage_rows] in *.
  rewrite (bind_ok _ _ _ _ _ Hread), (bind_ok _ _ _ _ _ Hrun). done.
Qed.
Lemma kept_satisfied p rows : filters_satisfied_by_index p = true → kept p rows = rows.
Proof using Type.
  intros Hs. induction rows as [|r rows IH]; [done|]. cbn [List.filter]. unfold row_matches at 1. rewrite Hs. cbn [orb]. by rewrite IH.
Qed.
Lemma satisfied_parallel_answer p rows e :
  store_ok e → Forall (row_holds e) rows → filters_satisfied_by_index p = true → order_by_satisfied p = true →
  ∃ c, execute_satisfied_parallel p rows.*1 e = (e_with_cache c e, Ok (answer p e rows)) ∧ store_ok (e_with_cache c e).
Proof using Type.
  intros He Hr Hs Ho. destruct (stage_rows_spec rows e He Hr) as (c & Hrun & Hc). exists c. split; [|done].
  unfold execute_satisfied_parallel. rewrite (bind_ok _ _ _ _ _ Hrun), (bind_ok get_st _ _ _ _ eq_refl). unfold mret, SR_ret.
  do 2 f_equal. set (n := match early_need p with Some n => n | None => length rows end).
  assert (match early_need p with Some need => take need ((λ r : Row, (r.1.1, encode r.2)) <$> rows) | None => (λ r : Row, (r.1.1, encode r.2)) <$> rows end
          = (λ r : Row, (r.1.1, encode r.2)) <$> take n rows) as ->.
  { unfold n. destruct (early_need p); [by rewrite fmap_take|by rewrite firstn_all]. }
  assert (omap (λ kv : bytes * bytes, (λ d, (kv.1, d)) <$> decode kv.2) ((λ r : Row, (r.1.1, encode r.2)) <$> take n rows) = plain <$> take n rows) as ->.
  { assert (Forall (row_holds e) (take n rows)) as Ht by (by apply Forall_take). induction Ht as [|r l (_ & _ & Hd & _) Hl IH]; [done|].
    rewrite !fmap_cons. cbn [omap list_omap fst snd]. rewrite decode_encode_doc by done. cbn [fmap option_fmap option_map]. by f_equal. }
  rewrite inflate_rows_filled. change (filled p (e_with_cache c e)) with (filled p e).
  rewrite <-(finish_early p e rows n).
  - rewrite kept_satisfied by done. unfold finish_rows, sort_rows. by rewrite Ho.
  - rewrite kept_satisfied by done. unfold n. destruct (early_need p) as [need|]; [|left; lia].
    destruct (decide (length rows <= need)%nat); [by left|right]. cbn [page_full]. apply Nat.leb_le. rewrite length_fmap, length_take. lia.
Qed.
(** Top-N. *)
Section TopN.
Context (p : QueryPlan) (e0 : StorageEngine).
Abbreviation orders := (p_order_by p).
(** What the lane assumes of a row: the keys compare consistently and are not
    filled in from blobs; the row filter is the decoded one. *)
Definition topn_row (r : Row) : Prop :=
  row_holds e0 r ∧ key_comparable orders r.2 ∧
  (∀ o, o ∈ orders → get_path (fill p e0 r.2) (o_field o) = get_path r.2 (o_field o)) ∧
  (filters_satisfied_by_index p = true ∨ existsb (λ kv, is_server_ts kv.2) (fields r.2) = false).
Definition topn_plan : Prop :=
  filters_satisfied_by_index p = true ∨
  (prepare_optimized_plan p = p ∧ (elem_match p = [] ∨ p_filters p ≠ [] ∨ or_groups p ≠ [])).

Definition row_view (r : Row) : HakoDocView := mkView (encode r.2) (zlen (fields r.2)) (_time r.2).
Definition entry (a : nat * Row) : TopEntry := mkTop (top_keys (row_view a.2) orders) a.1 a.2.1.1 a.2.1.2.
Definition cmp_num (a b : nat * Row) : comparison := cmp_then (row_cmp orders (plain a.2) (plain b.2)) (a.1 ?= b.1)%nat.

Context (Hn : order_names_ok orders).

Lemma row_view_new e r : row_holds e r → view_new (encode r.2) = Some (row_view r).
Proof using Type. intros (_ & _ & Hd & _). by apply view_new_encode. Qed.
Lemma cmp_top_entry a b : topn_row a.2 → topn_row b.2 → cmp_top orders (entry a) (entry b) = cmp_num a b.
Proof using Hn.
  intros [Ha _] [Hb _]. unfold cmp_top, cmp_num, entry. cbn [te_id keys seq]. f_equal.
  pose proof (row_view_new _ _ Ha). pose proof (row_view_new _ _ Hb). destruct Ha as (_ & _ & ? & ?), Hb as (_ & _ & ? & ?).
  by apply cmp_keys_rows.
Qed.
Lemma cmp_num_antisym a b : cmp_num b a = CompOpp (cmp_num a b).
Proof using Type. unfold cmp_num. by rewrite cmp_then_opp, <-row_cmp_antisym, <-Nat.compare_antisym. Qed.
Lemma cmp_num_trans3 a b c : topn_row a.2 → topn_row b.2 → topn_row c.2 → trans3 (cmp_num a b) (cmp_num b c) (cmp_num a c).
Proof using Type.
  intros (_ & Ha & _) (_ & Hb & _) (_ & Hc & _). apply trans3_then; [by apply row_cmp_trans3|]. intros _ _.
  rewrite <-!Nat2Z.inj_compare. apply Z_trans3.
Qed.

(** The heap holds the first rows of the sorted list. *)
Lemma entries_heap k l :
  (0 < k)%nat → by_position l → Forall (λ a, topn_row a.2) l →
  foldl (heap_push (cmp_top orders) (Some k)) [] (entry <$> l) = take k (entry <$> sort_by cmp_num l).
Proof using Hn.
  intros Hk Hl Hr. assert (∀ a b, a ∈ l → b ∈ l → cmp_num a b = cmp_top orders (entry a) (entry b)) as Hcmp.
  { intros a b Ha Hb. symmetry. apply cmp_top_entry; by apply (proj1 (Forall_forall _ _) Hr). }
  rewrite (sort_by_map_all entry cmp_num (cmp_top orders)) by done.
  apply (heap_keeps_smallest _ (λ en, ∃ a, en = entry a ∧ topn_row a.2)).
  - intros ? ? (a & -> & Ha) (b & -> & Hb). rewrite !cmp_top_entry by done. apply cmp_num_antisym.
  - intros ? ? ? (a & -> & Ha) (b & -> & Hb) (c & -> & Hc). rewrite !cmp_top_entry by done. by apply cmp_num_trans3.
  - done.
  - apply Forall_fmap. eapply Forall_impl; [exact Hr|]. intros a Ha. by exists a.
  - apply NoDup_fmap_2_strong; [|by apply by_position_NoDup]. intros a b Ha Hb E. apply (by_position_inj l); try done.
    by apply (f_equal seq) in E.
  - intros ? ? (a & -> & Ha)%list_elem_of_fmap (b & -> & Hb)%list_elem_of_fmap. rewrite <-Hcmp by done. intros E. f_equal.
    apply (by_position_inj l); try done. unfold cmp_num in E. destruct (row_cmp _ _ _); try done. by apply Nat.compare_eq in E.
Qed.

Lemma topn_keep_row r : topn_row r → topn_plan → topn_keep to_lowercase p r.1.1 (encode r.2) = Ok (row_matches p r).
Proof using Type.
  intros ((_ & _ & Hd & Hs) & _ & _ & Hts) Hplan. unfold topn_keep, row_matches.
  destruct (filters_satisfied_by_index p) eqn:Esat; [by rewrite andb_false_r|]. cbn [negb orb]. rewrite andb_true_r.
  destruct Hplan as [?|[Hopt Helem]]; [congruence|]. destruct Hts as [?|Hts]; [congruence|]. rewrite Hopt.
  destruct (negb (bool_decide (length (p_filters p) = 0%nat)) || negb (bool_decide (length (or_groups p) = 0%nat))) eqn:Eany.
  - by rewrite filters_view_encoded.
  - apply orb_false_iff in Eany as [E1%negb_false_iff E2%negb_false_iff]. apply bool_decide_eq_true in E1, E2.
    apply nil_length_inv in E1, E2. destruct Helem as [He|[?|?]]; [|done|done]. unfold doc_matches. by rewrite E1, E2, He.
Qed.

Lemma topn_scan_spec k n rows heap e :
  topn_plan → store_ok e → (∃ c, e = e_with_cache c e0) → Forall topn_row rows →
  ∃ c, topn_scan to_lowercase p k n rows.*1 heap e =
         (e_with_cache c e, Ok (foldl (heap_push (cmp_top orders) k) heap (entry <$> List.filter (λ a, row_matches p a.2) (numbered n rows)))) ∧
       store_ok (e_with_cache c e).
Proof using Type.
  intros Hplan. revert n heap e; induction rows as [|r rows IH]; intros n heap e He [c0 Hc0] Hr.
  { exists (cache e). by rewrite cache_self. }
  apply Forall_cons in Hr as [Hrow Hr]. pose proof Hrow as [Hrow' _].
  destruct (read_row e r He) as (c & Hread & Hc); [subst e; by apply row_holds_cache|].
  rewrite fmap_cons. destruct r as [[id ptr] d]. cbn [fst snd topn_scan numbered List.filter] in *. rewrite (bind_ok _ _ _ _ _ Hread).
  pose proof (row_view_new _ _ Hrow') as Hview. cbn [snd] in Hview. cbn [mbind option_bind]. rewrite Hview. cbn [fmap option_fmap option_map].
  pose proof (topn_keep_row _ Hrow Hplan) as Hkeep. cbn [fst snd] in Hkeep. rewrite Hkeep.
  rewrite (bind_ok (lift (Ok _)) _ _ _ _ eq_refl).
  edestruct (IH (S n) (if row_matches p (id, ptr, d) then heap_push (cmp_top orders) k heap (mkTop (top_keys (row_view (id, ptr, d)) orders) n id ptr) else heap)
    (e_with_cache c e) Hc) as (c' & Hrun & Hc'); [|done|].
  { subst e. by exists c. }
  exists c'. split; [|done]. rewrite Hrun. by destruct (row_matches p (id, ptr, d)).
Qed.

Lemma topn_fetch_spec offset limit l skipped out e :
  store_ok e → (∃ c, e = e_with_cache c e0) → Forall (λ a, topn_row a.2) l → (skipped <= offset)%nat →
  ∃ c, topn_fetch offset (Some limit) (entry <$> l) skipped out e =
         (e_with_cache c e, Ok (out ++ take (limit - length out) (drop (offset - skipped) ((λ a, plain a.2) <$> l)))) ∧
       store_ok (e_with_cache c e).
Proof using Type.
  revert skipped out e; induction l as [|a l IH]; intros skipped out e He [c0 Hc0] Hr Hs.
  { exists (cache e). rewrite !fmap_nil. by rewrite cache_self, drop_nil, take_nil, app_nil_r. }
  apply Forall_cons in Hr as [Hrow Hr]. destruct Hrow as [Hrow _].
  destruct (read_row e a.2 He) as (c & Hread & Hc); [subst e; by apply row_holds_cache|].
  assert (∃ c1, e_with_cache c e = e_with_cache c1 e0) as Hc1 by (subst e; by exists c).
  rewrite !fmap_cons. cbn [topn_fetch]. change (te_ptr (entry a)) with a.2.1.2. rewrite (bind_ok _ _ _ _ _ Hread). opt_simpl.
  rewrite decode_encode_doc by apply Hrow. destruct (Nat.ltb_spec skipped offset) as [Hlt|Hge].
  { replace (offset - skipped)%nat with (S (offset - S skipped)) by lia. cbn [drop]. apply (IH (S skipped) out (e_with_cache c e)); [done|done|done|lia]. }
  replace (offset - skipped)%nat with 0%nat by lia. rewrite drop_0. cbn [page_full]. destruct (Nat.leb_spec limit (length out)) as [Hf|Hf].
  { exists c. replace (limit - length out)%nat with 0%nat by lia. by rewrite take_0, app_nil_r. }
  destruct (IH skipped (out ++ [plain a.2]) (e_with_cache c e)) as (c' & Hrun & Hc'); try done.
  exists c'. split; [|done]. change (te_id (entry a)) with a.2.1.1. rewrite Hrun. do 2 f_equal. rewrite <-app_assoc. cbn [app]. f_equal.
  replace (limit - length out)%nat with (S (limit - length (out ++ [plain a.2]))) by (rewrite length_app; cbn [length]; lia).
  cbn [take]. f_equal. replace (offset - skipped)%nat with 0%nat by lia. done.
Qed.

Lemma row_cmp_filled a b : topn_row a → topn_row b → row_cmp orders (filled p e0 a) (filled p e0 b) = row_cmp orders (plain a) (plain b).
Proof using Type.
  intros (_ & _ & Ha & _) (_ & _ & Hb & _). unfold row_cmp. revert Ha Hb.
  generalize orders at 1 2 3 4 as os. induction os as [|o os IH]; intros Ha Hb; [done|]. cbn [order_chain].
  assert (row_key_cmp o (filled p e0 a) (filled p e0 b) = row_key_cmp o (plain a) (plain b)) as ->.
  { unfold row_key_cmp, filled. cbn [fst snd]. rewrite (Ha o), (Hb o) by (by left).
    assert (∀ d, _time (fill p e0 d) = _time d) as -> by (intros d; unfold fill; by destruct (if defer_blobs p then None else blob_manager e0)).
    assert (∀ d, _time (fill p e0 d) = _time d) as -> by (intros d; unfold fill; by destruct (if defer_blobs p then None else blob_manager e0)). done. }
  destruct (row_key_cmp o _ _); [apply IH|done|done]; intros o' Ho; [apply Ha|apply Hb]; by right.
Qed.

(** Ties go to the position: this is the stable sort of the rows. *)
Lemma entries_stable l :
  by_position l → Forall (λ a, topn_row a.2) l →
  (λ a, filled p e0 a.2) <$> sort_by cmp_num l = sort_by (row_cmp orders) ((λ a, filled p e0 a.2) <$> l).
Proof using Type.
  intros Hl Hr. apply sort_by_map. induction Hl as [|a l Hs IH Ha]; constructor.
  { apply IH. by apply Forall_cons in Hr as [_ ?]. }
  apply Forall_cons in Hr as [Hra Hr]. apply Forall_forall. intros b Hb. pose proof (proj1 (Forall_forall _ _) Ha b Hb) as Hlt. cbn in Hlt.
  rewrite row_cmp_filled by (done || by apply (proj1 (Forall_forall _ _) Hr)).
  unfold cmp_num. destruct (row_cmp _ _ _); [|done|done]. cbn [cmp_then]. rewrite Nat.compare_gt_iff. split; [lia|done].
Qed.
Lemma nums_sorted l : Forall (λ a, topn_row a.2) l → StronglySorted (cmp_le cmp_num) (sort_by cmp_num l).
Proof using Type.
  intros Hr. apply (sort_by_ssorted cmp_num (λ a, topn_row a.2)); [intros; apply cmp_num_antisym|intros; by apply cmp_num_trans3|done].
Qed.
Lemma entries_sorted l :
  Forall (λ a, topn_row a.2) l → StronglySorted (cmp_le cmp_num) l → sort_by (cmp_top orders) (entry <$> l) = entry <$> l.
Proof using Hn.
  intros Hr Hs. rewrite <-(sort_by_map_all entry cmp_num); [by rewrite sort_by_sorted|].
  intros a b Ha Hb. symmetry. apply cmp_top_entry; by apply (proj1 (Forall_forall _ _) Hr).
Qed.

(** The lane gives the reference answer. *)
Lemma execute_topn_answer rows :
  topn_plan → store_ok e0 → Forall topn_row rows → is_topn p (length rows) = true → is_sorted_keys (scan p) = false →
  ∃ c, execute_topn to_lowercase p rows.*1 e0 = (e_with_cache c e0, Ok (answer p e0 rows)) ∧ store_ok (e_with_cache c e0).
Proof using Hn.
  intros Hplan He Hr Htop Hsk. unfold is_topn in Htop. apply andb_true_iff in Htop as [Htop Hlim].
  apply andb_true_iff in Htop as [[Hord Hsat]%andb_true_iff _]. destruct (p_limit p) as [l|] eqn:El; [|done]. clear Hlim.
  set (o := default 0%nat (p_offset p)).
  assert (answer p e0 rows = page_of o (Some l) (sort_by (row_cmp orders) (filled p e0 <$> kept p rows))) as Hans.
  { unfold answer, finish_rows, sort_rows, offset_later. by rewrite Hsat, Hord, Hsk, El. }
  unfold execute_topn. rewrite El. cbn [fmap option_fmap option_map]. fold o. destruct (l + o)%nat as [|k] eqn:Ek.
  { exists (cache e0). rewrite cache_self, Hans. assert (l = 0%nat) as -> by lia. unfold page_of. by rewrite take_0. }
  destruct (topn_scan_spec (Some (S k)) 0 rows [] e0 Hplan He) as (c1 & Hscan & Hc1); [by exists (cache e0); rewrite cache_self|done|].
  rewrite (bind_ok _ _ _ _ _ Hscan). set (nums := List.filter (λ a, row_matches p a.2) (numbered 0 rows)).
  assert (by_position nums) as Hpos by (apply by_position_filter, numbered_sorted).
  assert (Forall (λ a, topn_row a.2) nums) as Hnums.
  { apply Forall_forall. intros a [Ha _]%list_elem_of_In%filter_In. apply list_elem_of_In, numbered_elem in Ha.
    by apply (proj1 (Forall_forall _ _) Hr). }
  rewrite entries_heap by (done || lia). rewrite <-fmap_take. set (best := take (S k) (sort_by cmp_num nums)).
  assert (Forall (λ a, topn_row a.2) best) as Hbest by (apply Forall_take; by rewrite (sort_by_perm cmp_num nums)).
  rewrite (entries_sorted best Hbest) by (apply (StronglySorted_app_1_l _ _ (drop (S k) (sort_by cmp_num nums))); unfold best; rewrite take_drop; by apply nums_sorted).
  destruct (topn_fetch_spec o l best 0 [] (e_with_cache c1 e0) Hc1) as (c2 & Hfetch & Hc2); [by exists c1|done|lia|].
  rewrite (bind_ok _ _ _ _ _ Hfetch), (bind_ok get_st _ _ _ _ eq_refl). unfold mret, SR_ret. exists c2. split; [|done]. do 2 f_equal.
  cbn [app length]. rewrite Nat.sub_0_r, Nat.sub_0_r. change (take l (drop o ?x)) with (page_of o (Some l) x).
  rewrite page_of_fmap.
  assert ((λ a : nat * Row, plain a.2) <$> page_of o (Some l) best = plain <$> (page_of o (Some l) best).*2) as ->
    by (by rewrite <-list_fmap_compose).
  rewrite inflate_rows_filled.
  rewrite Hans. change (filled p (e_with_cache c2 (e_with_cache c1 e0))) with (filled p e0).
  unfold best. rewrite page_of_take by lia. rewrite <-list_fmap_compose, <-page_of_fmap. f_equal.
  rewrite <-(filter_numbered_snd (row_matches p) 0 rows), <-list_fmap_compose. by apply entries_stable.
Qed.
End TopN.
(** Tasks. *)
Lemma run_task_rows p rows e :
  store_ok e → Forall (row_holds e) rows → filters_ok p →
  ∃ c, run_task to_lowercase p rows.*1 e = (e_with_cache c e, Ok (matching p e rows)) ∧ store_ok (e_with_cache c e).
Proof using Type.
  intros He Hr Hf. destruct (run_task_spec to_lowercase p rows.*1 e He) as (c & Hrun & Hc).
  { apply Forall_fmap. eapply Forall_impl; [exact Hr|]. by intros r [? _]. }
  exists c. split; [|done]. rewrite Hrun. do 2 f_equal. unfold matching. clear Hrun Hc.
  induction Hr as [|r rows Hrow Hr IH]; [done|]. rewrite fmap_cons. cbn [omap list_omap List.filter].
  destruct Hrow as (Hp & Hv & Hd & Hs). rewrite Hv. opt_simpl. rewrite (decode_row_holds p e r) by done.
  destruct (row_matches p r); [|done]. opt_simpl. by rewrite fmap_cons, IH.
Qed.
Lemma matching_app p e a b : matching p e (a ++ b) = matching p e a ++ matching p e b.
Proof using Type. unfold matching. by rewrite List.filter_app, fmap_app. Qed.
Lemma run_tasks_rows p tasks e :
  store_ok e → Forall (row_holds e) (concat tasks) → filters_ok p →
  ∃ c, run_tasks to_lowercase p ((λ t : list Row, t.*1) <$> tasks) e = (e_with_cache c e, Ok (matching p e (concat tasks))) ∧ store_ok (e_with_cache c e).
Proof using Type.
  revert e; induction tasks as [|t tasks IH]; intros e He Hr Hf.
  { exists (cache e). by rewrite cache_self. }
  cbn [concat] in *. apply Forall_app in Hr as [Ht Hr]. destruct (run_task_rows p t e He Ht Hf) as (c & Hrun & Hc).
  destruct (IH (e_with_cache c e) Hc) as (c' & Hrun' & Hc'); [by apply rows_hold_cache|done|].
  exists c'. split; [|done]. rewrite fmap_cons. cbn [run_tasks]. rewrite (bind_ok _ _ _ _ _ Hrun), (bind_ok _ _ _ _ _ Hrun').
  by rewrite matching_app.
Qed.
Lemma run_sharded p rows w e :
  store_ok e → Forall (row_holds e) rows → filters_ok p →
  ∃ c, run_tasks to_lowercase p (shard_tasks rows.*1 w) e = (e_with_cache c e, Ok (matching p e rows)) ∧ store_ok (e_with_cache c e).
Proof using Type.
  intros He Hr Hf. rewrite shard_tasks_map. destruct (shard_tasks_spec rows w) as [Hcat _].
  destruct (run_tasks_rows p (shard_tasks rows w) e He) as (c & Hrun & Hc); [by rewrite Hcat|done|]. exists c. by rewrite Hrun, Hcat.
Qed.

(** Entries with distinct positions, sorted by position. *)
Lemma position_sort (L l : list (nat * (bytes * HakoDoc))) :
  by_position L → l ≡ₚ L → sort_by (λ a b, (a.1 ?= b.1)%nat) l = L.
Proof using Type.
  intros Hpos Hperm. symmetry. set (cmp := λ a b : nat * (bytes * HakoDoc), (a.1 ?= b.1)%nat). apply (ssorted_unique cmp (λ _, True)).
  - intros a b _ _. apply Nat.compare_antisym.
  - by apply Forall_true.
  - intros a b Ha Hb E%Nat.compare_eq. by apply (by_position_inj L).
  - clear Hperm. induction Hpos as [|a L Hs IH Ha]; constructor; [done|]. eapply Forall_impl; [exact Ha|].
    intros b Hb. unfold cmp_le, cmp. cbn in Hb. rewrite Nat.compare_gt_iff. lia.
  - apply (sort_by_ssorted cmp (λ _, True)); [intros; apply Nat.compare_antisym|intros; unfold cmp; rewrite <-!Nat2Z.inj_compare; apply Z_trans3|by apply Forall_true].
  - by rewrite sort_by_perm, Hperm.
Qed.
Lemma rid_inj (W : list (nat * Row)) a b : NoDup (rid <$> W) → a ∈ W → b ∈ W → rid a = rid b → a = b.
Proof using Type.
  intros Hnd (i & Hi)%list_elem_of_lookup (j & Hj)%list_elem_of_lookup E.
  assert (i = j) as ->; [|congruence]. apply (NoDup_lookup (rid <$> W) i j (rid a) Hnd); rewrite list_lookup_fmap, ?Hi, ?Hj; cbn; by rewrite ?E.
Qed.

(** Parallel results go back to the order of the scan. *)
Lemma restore_order_spec p e (W F : list (nat * Row)) processed :
  NoDup (rid <$> W) → (∀ a, a ∈ F → a ∈ W) → by_position F → processed ≡ₚ ((λ a, filled p e a.2) <$> F) →
  restore_order (item <$> W) processed = (λ a, filled p e a.2) <$> F.
Proof using Type.
  intros Hnd Hsub Hpos Hproc. unfold restore_order. rewrite pick_rows_spec by done.
  set (found := foldl _ ∅ processed). set (L := (λ a : nat * Row, (a.1, filled p e a.2)) <$> F).
  assert (NoDup processed.*1) as Hndp.
  { rewrite Hproc, <-list_fmap_compose. apply NoDup_fmap_2_strong; [|by apply by_position_NoDup].
    intros a b Ha Hb E. by apply (rid_inj W); [|apply Hsub|apply Hsub|]. }
  assert (∀ k d, found !! k = Some d ↔ ∃ a, a ∈ F ∧ (k, d) = filled p e a.2) as Hfound.
  { intros k d. unfold found. rewrite insert_all_lookup, Hproc, list_elem_of_fmap by done. split; intros (a & ? & ?); by exists a. }
  assert (by_position L) as HposL.
  { unfold L. clear -Hpos. induction Hpos as [|a F Hs IH Ha]; rewrite ?fmap_cons, ?fmap_nil; constructor; [done|]. by apply Forall_fmap. }
  rewrite (position_sort L); [unfold L; by rewrite <-list_fmap_compose|done|].
  apply NoDup_Permutation; [by apply picked_NoDup|by apply by_position_NoDup|]. intros x.
  unfold L. rewrite elem_of_picked, list_elem_of_fmap. split.
  - intros (a & Ha & Hf & E). apply Hfound in Hf as (b & Hb & Eb). injection Eb as Eid Ed.
    assert (a = b) as <- by (apply (rid_inj W); [done|done|by apply Hsub|done]). exists a. split; [|done]. rewrite E. unfold filled. by rewrite Ed.
  - intros (a & -> & Ha). exists a. split_and!; [by apply Hsub| |done]. apply Hfound. by exists a.
Qed.
(** The sweep. *)
Definition swept (rows : list Row) : list (nat * Row) :=
  sort_by (λ a b, physical_key a.2.1.2 ?= physical_key b.2.1.2) (numbered 0 rows).
Lemma numbered_fmap {A B} (f : A → B) n l : numbered n (f <$> l) = (λ a, (a.1, f a.2)) <$> numbered n l.
Proof using Type. revert n; induction l as [|x l IH]; intros n; [done|]. rewrite fmap_cons. cbn [numbered]. by rewrite IH. Qed.
Lemma work_items_swept rows : work_items rows.*1 = item <$> swept rows.
Proof using Type. unfold work_items, swept. rewrite imap_pair_numbered, numbered_fmap. symmetry. by apply sort_by_map_all. Qed.
Lemma swept_perm rows : swept rows ≡ₚ numbered 0 rows.
Proof using Type. apply sort_by_perm. Qed.
Lemma swept_rows rows : (swept rows).*2 ≡ₚ rows.
Proof using Type. rewrite swept_perm. by rewrite numbered_snd. Qed.
(** Rows whose place on disk follows the scan: resident rows, among others. *)
Lemma swept_in_order rows :
  StronglySorted (λ a b : Row, physical_key a.1.2 <= physical_key b.1.2) rows → swept rows = numbered 0 rows.
Proof using Type.
  intros Hs. apply sort_by_sorted. generalize 0%nat as n. induction Hs as [|r rows Hs IH Hr]; intros n; cbn [numbered]; constructor; [apply IH|].
  apply Forall_forall. intros a Ha%numbered_elem. unfold cmp_le. cbn [snd]. rewrite Z.compare_gt_iff.
  pose proof (proj1 (Forall_forall _ _) Hr _ Ha). cbn in *. lia.
Qed.

Definition keeps_order (workers : nat) p (rows : list Row) : Prop :=
  swept rows = numbered 0 rows ∨ (probe_len p (length rows) = 0%nat ∧ target_workers workers (length rows) ≠ 1%nat).

(** Results of tasks over rows, whichever way they are put back. *)
Lemma restored_matching p e W (S : list (nat * Row)) processed :
  NoDup (rid <$> W) → (∀ a, a ∈ S → a ∈ W) → by_position S → processed ≡ₚ matching p e S.*2 →
  restore_order (item <$> W) processed = matching p e S.*2.
Proof using Type.
  intros Hnd Hsub Hpos Hproc. assert (matching p e S.*2 = (λ a, filled p e a.2) <$> List.filter (λ a, row_matches p a.2) S) as Hm.
  { unfold matching. clear. induction S as [|a S IH]; [done|]. rewrite fmap_cons. cbn [List.filter]. destruct (row_matches p a.2); [|done].
    by rewrite !fmap_cons, IH. }
  rewrite Hm in *. apply restore_order_spec; [done| |by apply by_position_filter|done].
  intros a [Ha _]%list_elem_of_In%filter_In. by apply Hsub, list_elem_of_In.
Qed.
Lemma kept_perm p a b : a ≡ₚ b → kept p a ≡ₚ kept p b.
Proof using Type.
  induction 1 as [|x a b Hab IH|x y a|a b c Hab IH1 Hbc IH2]; cbn [List.filter]; [done|by destruct (row_matches p x); [constructor|]| |by rewrite IH1].
  destruct (row_matches p x), (row_matches p y); try done. constructor.
Qed.

Lemma probe_len_zero p n : (0 < n)%nat → probe_len p n = 0%nat → page_full (early_need p) (@nil (bytes * HakoDoc)) = false.
Proof using Type.
  intros Hn. unfold probe_len. destruct (early_need p) as [[|need]|]; [|done|done]. rewrite (proj2 (Nat.ltb_lt 0 n)) by done.
  unfold PROBE_ROWS. lia.
Qed.

Lemma sweep_unordered workers p rows e :
  store_ok e → Forall (row_holds e) rows → filters_ok p → NoDup (rid <$> numbered 0 rows) → rows ≠ [] →
  probe_len p (length rows) = 0%nat → target_workers workers (length rows) ≠ 1%nat →
  ∃ c, execute_sweep to_lowercase workers p rows.*1 e = (e_with_cache c e, Ok (answer p e rows)) ∧ store_ok (e_with_cache c e).
Proof using Type.
  intros He Hr Hf Hnd Hne Hprobe Hw. unfold execute_sweep. rewrite work_items_swept.
  assert ((item <$> swept rows).*2 = (swept rows).*2.*1) as -> by (by rewrite <-!list_fmap_compose).
  assert (length (swept rows).*2.*1 = length rows) as -> by (by rewrite !length_fmap, swept_perm, <-(length_fmap snd), numbered_snd).
  rewrite Hprobe. cbn [Nat.eqb]. rewrite (bind_ok (mret []) _ _ _ _ eq_refl).
  rewrite (probe_len_zero p (length rows)) by (done || by destruct rows; [|cbn; lia]). rewrite drop_0.
  assert (length (swept rows).*2.*1 = length rows) as -> by (by rewrite !length_fmap, swept_perm, <-(length_fmap snd), numbered_snd).
  destruct (run_sharded p (swept rows).*2 (target_workers workers (length rows)) e He) as (c & Hrun & Hc); [by rewrite swept_rows|done|].
  rewrite (bind_ok _ _ _ _ _ Hrun), (proj2 (Nat.eqb_neq _ _) Hw). exists c. split; [|done]. unfold mret, SR_ret. cbn [app]. do 2 f_equal.
  unfold answer. f_equal. transitivity (matching p e (numbered 0 rows).*2); [|by rewrite numbered_snd]. apply restored_matching; [by rewrite swept_perm| |apply numbered_sorted|].
  - intros a. by rewrite swept_perm.
  - unfold matching. rewrite numbered_snd. by rewrite (kept_perm p _ _ (swept_rows rows)).
Qed.

Lemma kept_prefix p n rows : kept p (take n rows) = take (length (kept p (take n rows))) (kept p rows).
Proof using Type. rewrite <-(take_drop n rows) at 3. by rewrite List.filter_app, take_app_length. Qed.

Lemma sweep_ordered workers p rows e :
  store_ok e → Forall (row_holds e) rows → filters_ok p → NoDup (rid <$> numbered 0 rows) → rows ≠ [] →
  swept rows = numbered 0 rows →
  ∃ c, execute_sweep to_lowercase workers p rows.*1 e = (e_with_cache c e, Ok (answer p e rows)) ∧ store_ok (e_with_cache c e).
Proof using Type.
  intros He Hr Hf Hnd Hne Hord. unfold execute_sweep. rewrite work_items_swept, Hord.
  assert ((item <$> numbered 0 rows).*2 = rows.*1) as ->
    by (rewrite <-(numbered_snd 0 rows) at 2; by rewrite <-!list_fmap_compose).
  rewrite length_fmap. set (n := probe_len p (length rows)).
  assert (∃ c, (if (n =? 0)%nat then mret [] else run_task to_lowercase p (take n rows.*1)) e =
               (e_with_cache c e, Ok (matching p e (take n rows))) ∧ store_ok (e_with_cache c e)) as (c1 & Hprobe & Hc1).
  { destruct (Nat.eqb_spec n 0) as [->|]; [exists (cache e); by rewrite cache_self, take_0|].
    rewrite <-fmap_take. apply run_task_rows; [done|by apply Forall_take|done]. }
  rewrite (bind_ok _ _ _ _ _ Hprobe). destruct (page_full (early_need p) (matching p e (take n rows))) eqn:Efull.
  - exists c1. split; [|done]. cbn [length]. change (target_workers workers 0) with (Nat.max (Nat.min 1 workers) 1).
    replace (Nat.max (Nat.min 1 workers) 1) with 1%nat by lia. cbn [shard_tasks drain_chunks length run_tasks].
    rewrite (bind_ok (mret []) _ _ _ _ eq_refl). unfold mret, SR_ret. cbn [Nat.eqb]. rewrite app_nil_r. do 2 f_equal.
    unfold matching. rewrite kept_prefix. apply finish_early. right. rewrite <-kept_prefix.
    unfold matching in Efull. destruct (early_need p); [|done]. cbn [page_full] in *. by rewrite length_fmap in *.
  - rewrite <-fmap_drop. destruct (run_sharded p (drop n rows) (target_workers workers (length (drop n rows).*1)) (e_with_cache c1 e) Hc1)
      as (c2 & Hrun & Hc2); [by apply rows_hold_cache, Forall_drop|done|].
    rewrite (bind_ok _ _ _ _ _ Hrun). exists c2. split; [|done]. unfold mret, SR_ret. do 2 f_equal.
    change (matching p (e_with_cache c1 e)) with (matching p e). unfold answer. f_equal.
    transitivity (matching p e (take n rows ++ drop n rows)); [|by rewrite take_drop]. rewrite matching_app. f_equal. destruct (_ =? 1)%nat; [done|].
    assert (drop n rows = (drop n (numbered 0 rows)).*2) as -> by (by rewrite fmap_drop, numbered_snd).
    apply restored_matching; [done| | |done].
    + intros a Ha. rewrite <-(take_drop n (numbered 0 rows)). apply elem_of_app. by right.
    + pose proof (numbered_sorted 0 rows) as Hs. rewrite <-(take_drop n (numbered 0 rows)) in Hs. by apply StronglySorted_app_1_r in Hs.
Qed.

(** ** Every path gives the reference answer *)

Lemma execute_rows_answer workers p rows e :
  store_ok e → Forall (row_holds e) rows → filters_ok p → NoDup (rid <$> numbered 0 rows) →
  (is_topn p (length rows) = true →
   topn_plan p ∧ Forall (topn_row p e) rows ∧ order_names_ok (p_order_by p) ∧ is_sorted_keys (scan p) = false) →
  ((250 < length rows)%nat → keeps_order workers p rows) →
  ∃ c, execute_rows to_lowercase workers p rows.*1 e = (e_with_cache c e, Ok (answer p e rows)) ∧ store_ok (e_with_cache c e).
Proof using Type.
  intros He Hr Hf Hnd Htop Hord. unfold execute_rows. destruct rows as [|r rows0] eqn:Er.
  { exists (cache e). rewrite cache_self. split; [|done]. unfold answer, finish_rows, sort_rows, page_of, matching. cbn.
    by destruct (_ && _), (p_limit p); rewrite ?drop_nil, ?take_nil. }
  rewrite <-Er in *. destruct rows.*1 as [|kv kvs] eqn:Ef; [by rewrite Er in Ef|]. rewrite <-Ef, length_fmap.
  destruct (is_topn p (length rows)) eqn:Et.
  { destruct (Htop eq_refl) as (? & ? & ? & ?). by apply execute_topn_answer. }
  destruct (_ || _) eqn:Efast; [by apply execute_fast_answer|]. apply orb_false_iff in Efast as [Hlen%Nat.leb_gt _]. specialize (Hord Hlen).
  destruct (order_by_satisfied p && filters_satisfied_by_index p) eqn:Es; [apply andb_true_iff in Es as [? ?]; by apply satisfied_parallel_answer|].
  assert (rows ≠ []) as Hne by (by rewrite Er). destruct Hord as [?|[? ?]]; [by apply sweep_ordered|by apply sweep_unordered].
Qed.
End Paths.
