(* ===== verification/QueryAnswers.v ===== *)
(** * Answers of whole queries

    Planning and execution together, on a store that holds encoded documents: a
    full scan answers with exactly the matching documents, and an exact secondary
    index answers as the full scan does. *)

From stdpp Require Import prelude list gmap strings sorting.
From Stdlib Require Import ZArith Lia.
From S2P Require Import Prelude RustStd Error Crypto VFile Value Doc DocFacts DocCodec DocAccess Wal PageCache StorageIndex Segment SegmentFacts Blob Storage StorageFacts StorageView StorageCompact StorageIndexFacts Filter IndexKey Composite CompositeFacts CompositeManager Traverse Query Matcher MatcherFacts Worker TermIndex IndexManager IndexManagerFacts Planner PlannerFacts SortFacts Executor ExecutorFacts.

Local Open Scope Z_scope.
Local Open Scope hako_scope.

Section Answers.
Context `{Crc} `{Zstd} `{HashIterLaws} {cipher : Type} `{Aead cipher}.
Context (to_lowercase : bytes → bytes) (is_alphanumeric : bytes → bool).
Abbreviation StorageEngine := (@StorageEngine cipher).
Implicit Types e : StorageEngine.

(** The store holds the documents [docs]. *)
Definition holds_docs e (docs : gmap bytes HakoDoc) : Prop :=
  store_view e = encode <$> docs ∧ ∀ id d, docs !! id = Some d → doc_encodable d = true ∧ doc_sorted d.

(** The rows of some ids that are documents. *)
Definition rows_of e (docs : gmap bytes HakoDoc) (ids : list bytes) : list Row :=
  omap (λ id, ptr ← index (idx e) !! id; d ← docs !! id; Some (id, ptr, d)) ids.

Section Store.
Context e docs (He : store_ok e) (Hdocs : holds_docs e docs).

Lemma live_doc id ptr : index (idx e) !! id = Some ptr → is_deleted ptr = false → ∃ d, docs !! id = Some d ∧ row_holds e (id, ptr, d).
Proof using He Hdocs.
  intros Hi Hl. destruct He as (_ & _ & Hptrs & _). pose proof (Hptrs _ _ Hi) as Hp. destruct Hdocs as [Hview Hd].
  assert (∃ v, ptr_value e ptr = Some v) as [v Hv].
  { destruct ptr as [sid off len| |off len| | |]; cbn [ptr_ok ptr_value is_deleted] in *; eauto; [|by destruct Hp as [bm ->]; eauto|done].
    destruct Hp as (l & sg & v & Hs & Hrec). rewrite Hs. cbn [mbind option_bind snd]. rewrite (rec_at_read _ _ _ _ Hrec). eauto. }
  assert (store_view e !! id = Some v) as Hsv by (unfold store_view; by rewrite lookup_omap, Hi).
  rewrite Hview, lookup_fmap in Hsv. destruct (docs !! id) as [d|] eqn:Ed; [|done]. injection Hsv as <-.
  exists d. split; [done|]. destruct (Hd _ _ Ed). by split_and!.
Qed.
Lemma doc_live id d : docs !! id = Some d → ∃ ptr, index (idx e) !! id = Some ptr ∧ is_deleted ptr = false.
Proof using Hdocs.
  intros Hd. destruct Hdocs as [Hview _]. assert (store_view e !! id = Some (encode d)) as Hsv by (by rewrite Hview, lookup_fmap, Hd).
  unfold store_view in Hsv. rewrite lookup_omap in Hsv. destruct (index (idx e) !! id) as [ptr|] eqn:Hi; [|done].
  exists ptr. split; [done|]. by destruct ptr.
Qed.
Lemma live_rows id : live e id = match rows_of e docs [id] with r :: _ => Some r.1 | [] => None end.
Proof using He Hdocs.
  unfold live, rows_of. cbn [omap list_omap]. destruct (index (idx e) !! id) as [ptr|] eqn:Hi; [|done]. cbn [mbind option_bind].
  destruct (is_deleted ptr) eqn:Hl.
  - destruct (docs !! id) as [d|] eqn:Hd; [|done]. destruct (doc_live id d Hd) as (ptr' & Hi' & Hl'). congruence.
  - by destruct (live_doc id ptr Hi Hl) as (d & -> & _).
Qed.
Lemma rows_of_cons id ids : rows_of e docs (id :: ids) = rows_of e docs [id] ++ rows_of e docs ids.
Proof using Type. unfold rows_of. cbn [omap list_omap]. by destruct (index (idx e) !! id ≫= _). Qed.
Lemma rows_of_one id : rows_of e docs [id] = [] ∨ ∃ r, rows_of e docs [id] = [r].
Proof using Type. unfold rows_of. cbn [omap list_omap]. destruct (index (idx e) !! id ≫= _); eauto. Qed.
Lemma push_live_all ids out : push_live e None ids out = out ++ (rows_of e docs ids).*1.
Proof using He Hdocs.
  revert out; induction ids as [|id ids IH]; intros out; cbn [push_live]; [by rewrite app_nil_r|].
  rewrite live_rows, (rows_of_cons id ids). destruct (rows_of_one id) as [->|(r & ->)]; cbn [full app]; [apply IH|].
  rewrite IH, fmap_cons, <-app_assoc. done.
Qed.
Lemma elem_of_rows_of ids id ptr d :
  (id, ptr, d) ∈ rows_of e docs ids ↔ id ∈ ids ∧ index (idx e) !! id = Some ptr ∧ docs !! id = Some d.
Proof using Type.
  unfold rows_of. rewrite list_elem_of_omap. split.
  - intros (id' & Hin & E). destruct (index (idx e) !! id') as [ptr'|] eqn:Hi; [|done]. cbn [mbind option_bind] in E.
    destruct (docs !! id') as [d'|] eqn:Hd; [|done]. by injection E as -> -> ->.
  - intros (Hin & Hi & Hd). exists id. by rewrite Hi, Hd.
Qed.
Lemma rows_of_hold ids : Forall (row_holds e) (rows_of e docs ids).
Proof using He Hdocs.
  apply Forall_forall. intros [[id ptr] d] (_ & Hi & Hd)%elem_of_rows_of. destruct (doc_live id d Hd) as (ptr' & Hi' & Hl).
  rewrite Hi in Hi'. injection Hi' as <-. destruct (live_doc id ptr Hi Hl) as (d' & Hd' & Hrow). by simplify_eq.
Qed.
Lemma rows_of_ids ids : NoDup ids → NoDup (rid <$> numbered 0 (rows_of e docs ids)).
Proof using Type.
  intros Hnd. assert (rid <$> numbered 0 (rows_of e docs ids) = (λ r : Row, r.1.1) <$> rows_of e docs ids) as ->
    by (rewrite <-(numbered_snd 0 (rows_of e docs ids)) at 2; by rewrite <-list_fmap_compose). induction Hnd as [|id ids Hid Hnd IH]; [constructor|].
  rewrite rows_of_cons, fmap_app. destruct (rows_of_one id) as [->|(r & Er)]; [done|]. rewrite Er. cbn [app]. constructor; [|done].
  assert (r ∈ rows_of e docs [id]) as Hr by (rewrite Er; by left). destruct r as [[id0 ptr] d]. apply elem_of_rows_of in Hr as (Hin%list_elem_of_singleton & _).
  subst id0. cbn [fst]. intros ([[id' ptr'] d'] & E & Hr)%list_elem_of_fmap. cbn [fst] in E. subst id'.
  by apply elem_of_rows_of in Hr as (? & _).
Qed.
Lemma scan_full_rows : scan_full e None = (rows_of e docs (hash_iter (index (idx e))).*1).*1.
Proof using He Hdocs H2.
  assert (∀ l, (∀ k ptr, (k, ptr) ∈ l → index (idx e) !! k = Some ptr) →
    List.filter (λ kv, negb (is_deleted kv.2)) l = (rows_of e docs l.*1).*1) as Hgen; [|apply Hgen; by intros k ptr ?%hash_iter_lookup].
  induction l as [|[k ptr] l IH]; intros Hl; [done|]. rewrite fmap_cons, rows_of_cons, fmap_app. cbn [List.filter fst snd].
  rewrite <-IH by (intros; apply Hl; by right). pose proof (Hl k ptr ltac:(by left)) as Hi. pose proof (live_rows k) as Hlive.
  unfold live in Hlive. rewrite Hi in Hlive. destruct (is_deleted ptr); cbn [negb].
  - by destruct (rows_of_one k) as [->|(r & Er)]; [|rewrite Er in Hlive].
  - destruct (rows_of_one k) as [E|(r & Er)]; rewrite ?E, ?Er in *; [done|]. apply (inj Some) in Hlive. by rewrite fmap_cons, <-Hlive.
Qed.
End Store.

(** What the paths need of a plan on some rows: encodable filter values, and rows
    that the top-N lane and the sweep handle (see [topn_row], [keeps_order]). *)
Definition plan_ok (workers : nat) (p : QueryPlan) e (rows : list Row) : Prop :=
  filters_ok p ∧
  (is_topn p (length rows) = true →
   topn_plan p ∧ Forall (topn_row p e) rows ∧ order_names_ok (p_order_by p) ∧ is_sorted_keys (scan p) = false) ∧
  ((250 < length rows)%nat → keeps_order workers p rows).
(** Without a limit, two workers are enough. *)
Lemma plan_ok_unbounded workers p e rows : filters_ok p → p_limit p = None → (2 <= workers)%nat → plan_ok workers p e rows.
Proof using Type.
  intros Hf Hl Hw. split_and!; [done| |].
  - unfold is_topn. by rewrite Hl, andb_false_r.
  - intros Hn. right. unfold probe_len, early_need. rewrite Hl. split; [done|]. unfold target_workers.
    rewrite (proj2 (Nat.leb_gt _ 150)) by lia. destruct (_ <=? 500)%nat; lia.
Qed.

Section Execute.
Context (knn : StorageEngine → IndexManager → bytes → bytes → bytes → Metric → list Filter → option nat → list (bytes * Pointer)).
Abbreviation exec := (execute to_lowercase is_alphanumeric knn).
Abbreviation reference := (answer to_lowercase).
Context e docs (He : store_ok e) (Hdocs : holds_docs e docs).
Abbreviation all_rows := (rows_of e docs (hash_iter (index (idx e))).*1).

Lemma posting_NoDup i k : terms_ok i → NoDup (default [] (assoc k i)).
Proof using Type.
  intros [Hsort Hall]. destruct (assoc k i) as [ids|] eqn:Ei; [|constructor]. cbn.
  apply assoc_elem in Ei; [|done]. destruct (proj1 (Forall_forall _ _) Hall _ Ei) as [_ Hids]. by apply str_sorted_NoDup in Hids.
Qed.

Lemma execute_full workers m p :
  scan p = FullCollection → scan_limit p = None → plan_ok workers p e all_rows →
  ∃ c, exec workers m p e = (e_with_cache c e, Ok (reference p e all_rows)) ∧ store_ok (e_with_cache c e).
Proof using He Hdocs H2.
  intros Hs Hl (Hf & Htop & Hord). unfold execute. rewrite (bind_ok get_st _ _ _ _ eq_refl), Hs. cbn [execute_single_scan].
  rewrite (bind_ok (lift (Ok _)) _ _ _ _ eq_refl), Hl, (scan_full_rows e docs He Hdocs).
  assert (index_may_hide_xtype p = false) as -> by (unfold index_may_hide_xtype; by rewrite Hs). rewrite andb_false_r.
  apply execute_rows_answer; try done; [by apply rows_of_hold|]. apply rows_of_ids, hash_iter_keys.
Qed.

Lemma execute_posting workers m p field val i :
  scan p = SecondaryIndex field val → scan_limit p = None → index_may_hide_xtype p = false →
  bf_get (secondary m) (p_collection p) field = Some i → terms_ok i →
  let rows := rows_of e docs (default [] (assoc val i)) in
  plan_ok workers p e rows →
  ∃ c, exec workers m p e = (e_with_cache c e, Ok (reference p e rows)) ∧ store_ok (e_with_cache c e).
Proof using He Hdocs H2.
  intros Hs Hl Hx Hi Hok rows (Hf & Htop & Hord). unfold execute. rewrite (bind_ok get_st _ _ _ _ eq_refl), Hs. cbn [execute_single_scan].
  rewrite (bind_ok (lift (Ok _)) _ _ _ _ eq_refl), Hl. unfold scan_secondary. rewrite Hi, (push_live_all e docs He Hdocs). cbn [app].
  rewrite Hx, andb_false_r. fold rows. apply execute_rows_answer; try done; [by apply rows_of_hold|]. by apply rows_of_ids, posting_NoDup.
Qed.

(** Without a page the answer is the matching rows, up to order. *)
Lemma answer_unpaged p rows : p_limit p = None → offset_later p = 0%nat → reference p e rows ≡ₚ matching to_lowercase p e rows.
Proof using Type.
  intros Hl Ho. unfold answer, finish_rows, page_of. rewrite Hl, Ho, drop_0. unfold sort_rows. split_if; [apply sort_by_perm|done].
Qed.
Lemma elem_of_matching p ids id d' :
  (id, d') ∈ matching to_lowercase p e (rows_of e docs ids) ↔
  ∃ d, id ∈ ids ∧ docs !! id = Some d ∧ filters_satisfied_by_index p || doc_matches to_lowercase id d (prepare_optimized_plan p) = true ∧
       d' = fill p e d.
Proof using He Hdocs.
  unfold matching. rewrite list_elem_of_fmap. split.
  - intros ([[id0 ptr] d] & E & Hr). injection E as -> ->. apply list_elem_of_In, filter_In in Hr as [Hr%list_elem_of_In Hm].
    apply elem_of_rows_of in Hr as (Hin & _ & Hd). by exists d.
  - intros (d & Hin & Hd & Hm & ->). destruct (doc_live e docs Hdocs id d Hd) as (ptr & Hi & _). exists (id, ptr, d). split; [done|].
    apply list_elem_of_In, filter_In. split; [|done]. apply list_elem_of_In. by apply elem_of_rows_of.
Qed.
Lemma matching_ids p ids : NoDup ids → NoDup (matching to_lowercase p e (rows_of e docs ids)).*1.
Proof using Type.
  intros Hnd. pose proof (rows_of_ids e docs ids Hnd) as Hr. unfold matching. rewrite <-list_fmap_compose.
  assert (rid <$> numbered 0 (rows_of e docs ids) = (λ r : Row, r.1.1) <$> rows_of e docs ids) as E
    by (rewrite <-(numbered_snd 0 (rows_of e docs ids)) at 2; by rewrite <-list_fmap_compose).
  rewrite E in Hr. clear E. induction (rows_of e docs ids) as [|r rows IH]; [constructor|]. rewrite fmap_cons in Hr. apply NoDup_cons in Hr as [Hid Hr].
  cbn [List.filter]. destruct (row_matches to_lowercase p r); [|by apply IH]. rewrite fmap_cons. constructor; [|by apply IH].
  intros (r' & E & Hin)%list_elem_of_fmap. apply list_elem_of_In, filter_In in Hin as [Hin%list_elem_of_In _]. apply Hid, list_elem_of_fmap. by exists r'.
Qed.
Lemma elem_of_all id d : docs !! id = Some d → id ∈ (hash_iter (index (idx e))).*1.
Proof using Hdocs H2.
  intros Hd. destruct (doc_live e docs Hdocs id d Hd) as (ptr & Hi & _). apply list_elem_of_fmap. exists (id, ptr). split; [done|].
  by apply hash_iter_lookup.
Qed.

(** An equality on an indexed field, through the index and without it. *)
Section Transparent.
Context (m : IndexManager) (c field s : bytes) (workers : nat).
Abbreviation q := (where_eq (query_new c) field (String s)).
Abbreviation p1 := (make_plan q (SecondaryIndex field (encode_scalar (String s))) None false true).
Abbreviation p0 := (make_plan q FullCollection None false false).

Lemma eq_plan_matches id d : doc_matches to_lowercase id d (prepare_optimized_plan p0) = and_holds to_lowercase id d (mkFilter field OpEq (String s)).
Proof using Type.
  unfold doc_matches, prepare_optimized_plan. cbn. unfold stringify_id. cbn. destruct (bytes_eqb field _); by rewrite !andb_true_r.
Qed.
Lemma eq_plan_filters_ok : utf8_valid s = true → zlen s < 2 ^ 32 → filters_ok p0 ∧ filters_ok p1.
Proof using Type.
  intros Hu Hl. assert (filter_ok (stringify_id (mkFilter field OpEq (String s))) = true) as Hok.
  { assert (stringify_id (mkFilter field OpEq (String s)) = mkFilter field OpEq (String s)) as ->
      by (unfold stringify_id; cbn; by destruct (bytes_eqb field _)).
    unfold filter_ok. cbn [f_value encodable]. rewrite Hu. by apply Z.ltb_lt. }
  split; (constructor; [exact Hok|constructor]).
Qed.

Lemma transparent_rows i :
  bf_get (secondary m) c field = Some i → sec_exact field i docs →
  virtual_field field = false → plain_name field = true → ambiguous_value (String s) = false → parse_bool_like s = None → zlen s < 2 ^ 32 →
  matching to_lowercase p1 e (rows_of e docs (default [] (assoc (encode_scalar (String s)) i))) ≡ₚ matching to_lowercase p0 e all_rows.
Proof using He Hdocs H2.
  intros Hi [Hok Hrow] Hv Hn Ha Hb Hl. apply NoDup_Permutation.
  1,2: apply (NoDup_fmap_1 fst), matching_ids; [by apply posting_NoDup || apply hash_iter_keys].
  intros [id d']. rewrite !elem_of_matching. unfold row in Hrow. split.
  - intros (d & Hin & Hd & _ & ->). exists d. split_and!; [by apply (elem_of_all id d)|done| |done].
    rewrite eq_plan_matches. apply (string_key_matches to_lowercase field s Ha id d); try done; try by apply (proj2 Hdocs id d).
    apply Hrow in Hin as (d1 & Hd1 & Hk). by simplify_eq.
  - intros (d & _ & Hd & Hm & ->). exists d. split_and!; [|done|done|done]. apply Hrow. exists d. split; [done|].
    rewrite eq_plan_matches in Hm. apply (string_key_matches to_lowercase field s Ha id d); try done; by apply (proj2 Hdocs id d).
Qed.
End Transparent.
End Execute.
End Answers.
