(* ===== verification/QueryProps.v ===== *)
(** * Properties of queries

    Planning, scanning, matching and paging, and the indexes behind them. *)

From stdpp Require Import prelude list gmap strings sorting.
From Stdlib Require Import ZArith Lia.
From S2P Require Import Prelude RustStd Error Config Crypto VFile Models Value Doc DocFacts DocCodec DocAccess Wal PageCache StorageIndex StorageIndexFacts Segment SegmentFacts Blob Storage StorageFacts StorageView StorageCompact StorageModels.
From S2P Require Import Filter IndexKey Composite CompositeFacts CompositeManager Traverse Query Matcher MatcherFacts Worker TermIndex IndexManager IndexManagerFacts Planner PlannerFacts SortFacts Executor ExecutorFacts QueryAnswers.

Local Open Scope Z_scope.
Local Open Scope hako_scope.

(** ** Execution *)

Section Execution.
Context `{Crc} `{Zstd} `{HashIterLaws} {cipher : Type} `{Aead cipher}.
Context (to_lowercase : bytes → bytes) (is_alphanumeric : bytes → bool).
Context (knn : StorageEngine cipher → IndexManager → bytes → bytes → bytes → Metric → list Filter → option nat → list (bytes * Pointer)).
Implicit Types e : StorageEngine cipher.

(** C7: Every path of the executor (the top-N heap, the sequential path with its
    early stop, the parallel path of satisfied scans, the sweep with its window and
    its workers) returns the same answer: the rows that match, blobs filled in, in
    a stable sort by the order clauses, cut to offset and limit.  The plan is one of
    [plan_ok].  Where the top-N heap runs, the plan has filters or groups or no
    element clause (it skips those alone, [topn_skips_elem_match]) and no number
    against the id, the scan is not the one of sorted keys, and the order keys are
    comparable, not behind blob links and of plain names.  Where more than 250 rows
    are swept, the sweep keeps their order: they are in physical order, or there is no
    window and more than one task (otherwise see [sweep_reorders]). *)
Theorem every_path_answers workers p rows e :
  store_ok e → Forall (row_holds e) rows → NoDup (rid <$> numbered 0 rows) → plan_ok workers p e rows →
  ∃ c, execute_rows to_lowercase workers p rows.*1 e = (e_with_cache c e, Ok (answer to_lowercase p e rows)) ∧ store_ok (e_with_cache c e).
Proof using Type. intros He Hr Hnd (Hf & Htop & Hord). by apply execute_rows_answer. Qed.

(** C17: An equality on an indexed string field has the same answer through the
    secondary index as by a scan of the whole collection, when the index holds
    exactly the keys of the documents (see [index_updates_exact] for what keeps it so;
    overwriting a document does not, [overwrite_leaves_row]), the string is UTF-8 and
    not one that also stands for a number or a truth value, the field has a plain name
    and is not virtual, and there are at least two workers with more than 50 rows
    each, so that the planner uses the index. *)
Theorem index_transparent m c field s collection_rows workers vready docs e :
  store_ok e → holds_docs e docs → exact to_lowercase is_alphanumeric m c docs → has_secondary m c field = true →
  virtual_field field = false → plain_name field = true → ambiguous_value (String s) = false → parse_bool_like s = None →
  utf8_valid s = true → zlen s < 2 ^ 32 → (2 <= workers)%nat → (50 < collection_rows / workers)%nat →
  let q := where_eq (query_new c) field (String s) in
  let indexed := plan q m collection_rows workers true vready in
  let scanned := plan q m collection_rows workers false false in
  (∃ val, scan indexed = SecondaryIndex field val) ∧ scan scanned = FullCollection ∧
  ∃ c1 c2 r1 r2,
    execute to_lowercase is_alphanumeric knn workers m indexed e = (e_with_cache c1 e, Ok r1) ∧
    execute to_lowercase is_alphanumeric knn workers m scanned e = (e_with_cache c2 e, Ok r2) ∧ r1 ≡ₚ r2.
Proof using H2.
  intros He Hdocs [Hex Hfts] Hsec Hv Hn Ha Hb Hu Hl Hw Hrows. cbv zeta.
  rewrite (secondary_plan m c field s collection_rows workers vready) by (done || by replace (Nat.max workers 1) with workers by lia).
  change (plan (where_eq (query_new c) field (String s)) m collection_rows workers false false)
    with (make_plan (where_eq (query_new c) field (String s)) FullCollection None false false).
  split_and!; [by eexists|done|]. pose proof Hsec as [i Hi]%bool_decide_eq_true. destruct (eq_plan_filters_ok c field s Hu Hl) as [Hf0 Hf1].
  destruct (Hex field i Hi Hv) as [Hok Hrow].
  destruct (execute_posting to_lowercase is_alphanumeric knn e docs He Hdocs workers m
    (make_plan (where_eq (query_new c) field (String s)) (SecondaryIndex field (encode_scalar (String s))) None false true) field _ i
    eq_refl eq_refl) as (c1 & E1 & _); [|done|done|by apply plan_ok_unbounded|].
  { unfold index_may_hide_xtype. cbn. unfold ambiguous_value in Ha. by rewrite Ha. }
  destruct (execute_full to_lowercase is_alphanumeric knn e docs He Hdocs workers m
    (make_plan (where_eq (query_new c) field (String s)) FullCollection None false false) eq_refl eq_refl) as (c2 & E2 & _);
    [by apply plan_ok_unbounded|].
  exists c1, c2. eexists _, _. split; [exact E1|]. split; [exact E2|]. rewrite !answer_unpaged by done.
  by eapply (transparent_rows to_lowercase e docs He Hdocs m).
Qed.

Lemma full_scan_rows workers m p docs e :
  store_ok e → holds_docs e docs → scan p = FullCollection → scan_limit p = None → p_limit p = None → p_offset p = None →
  filters_ok p → (2 <= workers)%nat → filters_satisfied_by_index p = false →
  (∀ id d, docs !! id = Some d → key_comparable (p_order_by p) (fill p e d)) →
  ∃ c rows, execute to_lowercase is_alphanumeric knn workers m p e = (e_with_cache c e, Ok rows) ∧ store_ok (e_with_cache c e) ∧
    NoDup rows.*1 ∧
    (∀ id d', (id, d') ∈ rows ↔
       ∃ d, docs !! id = Some d ∧ doc_matches to_lowercase id d (prepare_optimized_plan p) = true ∧ d' = fill p e d) ∧
    (order_by_satisfied p = false → StronglySorted (cmp_le (row_cmp (p_order_by p))) rows).
Proof using H2.
  intros He Hdocs Hs Hsl Hl Ho Hf Hw Hsat Hcmp.
  destruct (execute_full to_lowercase is_alphanumeric knn e docs He Hdocs workers m p Hs Hsl) as (c & E & Hc); [by apply plan_ok_unbounded|].
  exists c. eexists. split; [exact E|]. split; [exact Hc|]. assert (offset_later p = 0%nat) as Hoff by (unfold offset_later; by rewrite Hs, Ho).
  pose proof (answer_unpaged to_lowercase e p (rows_of e docs (hash_iter (index (idx e))).*1) Hl Hoff) as Hperm. split_and!.
  - rewrite Hperm. apply matching_ids, hash_iter_keys.
  - intros id d'. rewrite Hperm, (elem_of_matching to_lowercase e docs He Hdocs). rewrite Hsat. cbn [orb].
    split; [intros (d & _ & ?); by exists d|]. intros (d & Hd & ?). exists d. split; [by apply (elem_of_all e docs Hdocs id d)|done].
  - intros Hord. unfold answer, finish_rows, page_of. rewrite Hl, Hoff, drop_0. unfold sort_rows. rewrite Hord. cbn [negb andb].
    destruct (bool_decide (length (p_order_by p) = 0%nat)) eqn:Eo; cbn [negb].
    { apply bool_decide_eq_true, nil_length_inv in Eo. rewrite Eo. clear. induction (matching _ _ _ _); constructor; [done|].
      apply Forall_forall. by intros. }
    apply (sort_by_ssorted _ (λ r, key_comparable (p_order_by p) r.2)).
    + intros; apply row_cmp_antisym.
    + intros; by apply row_cmp_trans3.
    + apply Forall_forall. intros [id d'] (d & _ & Hd & _ & ->)%(elem_of_matching to_lowercase e docs He Hdocs). by apply (Hcmp id d).
Qed.

(** C19: A scan of the whole collection without a page returns each matching
    document once, and no other; asked for an order, it returns them in it. *)
Theorem full_scan_exact workers m p docs e :
  store_ok e → holds_docs e docs → scan p = FullCollection → scan_limit p = None → p_limit p = None → p_offset p = None →
  filters_ok p → (2 <= workers)%nat → filters_satisfied_by_index p = false →
  (∀ id d, docs !! id = Some d → key_comparable (p_order_by p) (fill p e d)) →
  ∃ c rows, execute to_lowercase is_alphanumeric knn workers m p e = (e_with_cache c e, Ok rows) ∧
    NoDup rows.*1 ∧
    (∀ id d', (id, d') ∈ rows ↔
       ∃ d, docs !! id = Some d ∧ doc_matches to_lowercase id d (prepare_optimized_plan p) = true ∧ d' = fill p e d) ∧
    (order_by_satisfied p = false → StronglySorted (cmp_le (row_cmp (p_order_by p))) rows).
Proof using H2.
  intros. destruct (full_scan_rows workers m p docs e) as (c & rows & E & _ & Hrest); try done. by exists c, rows.
Qed.
End Execution.

(** ** Matching *)

Section Matching.
Context (to_lowercase : bytes → bytes).


(** The projecting matcher returns the selected fields of the documents that
    match, as decoding and then projecting does. *)
Theorem projected_matcher_exact doc_id d p :
  doc_encodable d = true → doc_sorted d → projection p ≠ [] → [] ∉ (fields d).*1 →
  unified_match_projected to_lowercase doc_id (encode d) p =
  (if doc_matches to_lowercase doc_id d p then Some (project_fields d (projection p)) else None).
Proof. intros Hd Hs Hp Hn. rewrite unified_projected_encoded by done. by rewrite projected_fields_project. Qed.
End Matching.

(** ** Planning *)

(** A plan limits its scan only where the scan answers every filter and the
    order, and then to no less than offset and limit ask for, whatever indexes
    there are: for queries of comparisons without groups or element clauses. *)
Theorem pushdown_safe q m collection_rows workers ready vready :
  plain_query q → pushes_ok q (plan q m collection_rows workers ready vready).
Proof. intros Hq. by apply plan_push. Qed.

(** A partial index that the planner uses for a query holds every document
    that the query matches. *)
Theorem partial_index_complete to_lowercase def q doc_id d :
  composite_def_usable def q = true →
  (∀ g, d_filter def = Some g → Forall (λ c, plain_name (f_field c) = true ∧ pin_value (f_value c) = true) (g_filters g)) →
  forallb (and_holds to_lowercase doc_id d) (q_filters q) = true →
  filter_passes to_lowercase def doc_id d = true.
Proof. apply usable_covers. Qed.

(** The plan of a traversal marker asks for the walk the marker describes, and
    leaves no filter to check. *)
Theorem traverse_marker_planned m c start_col start_id dir edge depth via weight collection_rows workers vready :
  1 <= depth <= MAX_TRAVERSE_DEPTH → start_col ≠ [] → incoming_ok m dir start_col via = true →
  let f := traverse_marker start_col start_id dir edge depth via weight in
  let p := plan (where_filter (query_new c) (f_field f) (f_op f) (f_value f)) m collection_rows workers true vready in
  scan p = Traverse start_col start_id (mkSpec dir edge depth 100 via weight None None None false false) [] ∧
  p_filters p = [] ∧ filters_satisfied_by_index p = true.
Proof. apply traverse_plan_roundtrip. Qed.

(** ** Indexes *)

Section Indexes.
Context (to_lowercase : bytes → bytes) (is_alphanumeric : bytes → bool).


(** A text search on an exact index returns exactly the documents whose field
    has every word of the query. *)
Theorem text_search_exact f i docs query_text id :
  fts_exact to_lowercase is_alphanumeric f i docs →
  id ∈ default [] (search to_lowercase is_alphanumeric i query_text) ↔
  tokenize to_lowercase is_alphanumeric query_text ≠ [] ∧
  ∀ w, w ∈ tokenize to_lowercase is_alphanumeric query_text → ∃ d, docs !! id = Some d ∧ has_word to_lowercase is_alphanumeric d f w.
Proof. intros [_ Hrow]. rewrite search_spec. split; intros [Hne Hw]; (split; [done|]); intros w Hin; by apply Hrow, Hw. Qed.
End Indexes.

(** Filling the secondary indexes of a collection from stored bytes, without
    decoding documents, gives the indexes that filling them from documents gives. *)
Theorem backfill_paths_agree m c (docs : list (bytes * HakoDoc)) :
  fts m !! c = None → vector m !! c = None → links_empty (traverse m) = true →
  existsb (λ '(_, idx), bytes_eqb (d_collection (ci_definition idx)) c) (map_to_list (by_id (composite m))) = false →
  Forall (λ kv, doc_encodable kv.2 = true ∧ doc_sorted kv.2) docs →
  backfill_secondary_borrowed m c ((λ kv, (kv.1, encode kv.2)) <$> docs) = (backfill_secondary m c docs, true).
Proof. apply backfill_agrees. Qed.

(** The backlink index holds, for tracked collections, an edge for each
    reference of an added document; removing a document takes its own edges and
    those into it, and no others. *)
Theorem backlinks_exact b c i doc :
  links_ok b →
  (let b' := index_doc b c i doc in
   links_ok b' ∧ ∀ c' i' e, edge b' c' i' e ↔ edge b c' i' e ∨ (c' ∈ tracked b ∧ ∃ f, refers doc f c' i' ∧ e = mkLink c i f)) ∧
  (let b' := remove_doc b c i doc in
   links_ok b' ∧ ∀ c' i' e, edge b' c' i' e ↔
     edge b c' i' e ∧ ¬ (c' = c ∧ i' = i) ∧ ¬ (src_col e = c ∧ src_id e = i ∧ ∃ f, refers doc f c' i')).
Proof.
  intros Hb. split; cbv zeta.
  - destruct (index_doc_spec b c i doc Hb) as (H1 & _ & H2). by split.
  - destruct (remove_doc_spec b c i doc Hb) as (H1 & _ & H2). by split.
Qed.

(** ** Applications *)

(** A small collection. *)
Definition person (age : Z) (city : bytes) : HakoDoc := mkDoc [(b#("age"), Int age); (b#("city"), String city)] 7.
Definition people : list (bytes * HakoDoc) :=
  [(b#("alice"), person 30 b#("oslo")); (b#("bob"), person 25 b#("rome")); (b#("carol"), person 41 b#("oslo"))].
Definition people_map : gmap bytes HakoDoc := list_to_map people.
Definition people_batch : list StorageMutation := (λ kv, MPut kv.1 (encode kv.2)) <$> people.
Definition people_engine : StorageEngine unit := (apply_batch 5 0 people_batch false demo_engine).1.
Definition people_rows : list Row := rows_of people_engine people_map people.*1.
Definition no_knn (e : StorageEngine unit) (m : IndexManager) (c f q : bytes) (k : Metric) (x : list Filter) (n : option nat) : list (bytes * Pointer) := [].

Lemma person_sorted age city : doc_sorted (person age city).
Proof. repeat constructor. Qed.
Lemma people_person id d : people_map !! id = Some d → ∃ age city, d = person age city.
Proof.
  intros Hd%elem_of_list_to_map_2. repeat (apply elem_of_cons in Hd as [[= -> ->]|Hd]; [by eexists _, _|]). by apply elem_of_nil in Hd.
Qed.
Lemma people_all (f : HakoDoc → bool) : forallb (λ kv, f kv.2) people = true → ∀ id d, people_map !! id = Some d → f d = true.
Proof. intros Hf id d Hd%elem_of_list_to_map_2. by apply (proj1 (forallb_forall _ _) Hf (id, d)), list_elem_of_In. Qed.
Lemma people_ok : store_ok people_engine ∧ holds_docs people_engine people_map.
Proof.
  destruct (fresh_ok default_config b#("notes") None 0) as (He & _ & _ & _ & Hv). fold demo_engine in He, Hv.
  assert (Forall (λ m, zlen (put_kv m).2 < 2 ^ 30) people_batch) as Hsmall by (repeat constructor).
  assert (∃ work ops, apply_batch 5 0 people_batch false demo_engine = (people_engine, Ok (work, ops))) as (work & ops & E).
  { assert (match (apply_batch 5 0 people_batch false demo_engine).2 with Ok _ => true | _ => false end = true) as E by (vm_compute; reflexivity).
    unfold people_engine. destruct (apply_batch 5 0 people_batch false demo_engine) as [e' [[w o]| |]]; [by eexists _, _|discriminate E..]. }
  destruct (apply_batch_view _ _ _ _ _ _ _ He Hsmall E) as (He' & Hok & _). split; [done|]. split.
  - rewrite (Hok _ eq_refl), Hv. apply (bool_decide_unpack _). vm_compute. exact I.
  - intros id d Hd. split; [by apply (people_all doc_encodable eq_refl id d)|]. destruct (people_person id d Hd) as (age & city & ->). apply person_sorted.
Qed.

(** The oldest person above 26: the top-N lane. *)
Definition oldest : QueryPlan :=
  plan (limit (order_by (where_filter (query_new b#("people")) b#("age") OpGt (Int 26)) b#("age") false) 1) im_empty 3 2 true false.

Lemma oldest_row r : r ∈ people_rows → topn_row oldest people_engine r.
Proof.
  intros Hr. destruct r as [[id ptr] d]. destruct people_ok as [He Hdocs].
  pose proof (proj1 (Forall_forall _ _) (rows_of_hold _ _ He Hdocs people.*1) _ Hr) as Hrow. apply elem_of_rows_of in Hr as (_ & _ & Hd).
  split_and!; [done| | |].
  - intros o Ho%list_elem_of_singleton. subst o. cbn [snd o_field].
    pose proof (people_all (λ d, match get_path d b#("age") with Some v => comparable v | None => true end) eq_refl id d Hd) as Hc.
    cbn beta in Hc. destruct (get_path d b#("age")); [exact Hc|exact I].
  - intros o Ho%list_elem_of_singleton. subst o. cbn [snd o_field]. destruct (people_person id d Hd) as (age & city & ->). reflexivity.
  - right. destruct (people_person id d Hd) as (age & city & ->). reflexivity.
Qed.

Lemma every_path_answers_witness :
  ∃ c, execute_rows id 2 oldest people_rows.*1 people_engine = (e_with_cache c people_engine, Ok [(b#("carol"), person 41 b#("oslo"))]) ∧
       is_topn oldest (length people_rows) = true.
Proof.
  destruct people_ok as [He Hdocs].
  destruct (every_path_answers id 2 oldest people_rows people_engine He) as (c & E & _).
  - exact (rows_of_hold _ _ He Hdocs _).
  - apply rows_of_ids. apply (bool_decide_unpack _). vm_compute. exact I.
  - split; [|split].
    + repeat constructor.
    + intros _. split; [right; split; [reflexivity|left; reflexivity]|]. split; [|split; [repeat constructor; discriminate|reflexivity]].
      apply Forall_forall. exact oldest_row.
    + intros Hlen. exfalso. assert (length people_rows = 3%nat) as E by (vm_compute; reflexivity). rewrite E in Hlen. lia.
  - exists c. split; [|vm_compute; reflexivity]. rewrite E. f_equal; f_equal; vm_compute; reflexivity.
Defined.

(** The same collection under a secondary index on the city. *)
Definition city_index : IndexManager :=
  im_index_batch id (λ _, true) (im_clear_collection (create_secondary_index im_empty b#("people") b#("city")) b#("people")) b#("people") people.

Lemma city_index_exact : exact id (λ _, true) city_index b#("people") people_map.
Proof.
  assert (people_map = list_to_map people ∪ ∅) as -> by (by rewrite map_union_empty).
  apply index_batch_exact; [apply (bool_decide_unpack _); vm_compute; exact I|intros; apply lookup_empty|apply clear_exact].
Qed.

Lemma index_transparent_witness :
  ∃ c1 c2 r1 r2,
    let q := where_eq (query_new b#("people")) b#("city") (String b#("oslo")) in
    execute id (λ _, true) no_knn 2 city_index (plan q city_index 200 2 true false) people_engine = (e_with_cache c1 people_engine, Ok r1) ∧
    execute id (λ _, true) no_knn 2 city_index (plan q city_index 200 2 false false) people_engine = (e_with_cache c2 people_engine, Ok r2) ∧
    r1 ≡ₚ r2.
Proof.
  destruct people_ok as [He Hdocs].
  refine (proj2 (proj2 (index_transparent id (λ _, true) no_knn city_index b#("people") b#("city") b#("oslo") 200 2 false people_map people_engine
    He Hdocs city_index_exact _ _ _ _ _ _ _ _ _))); try reflexivity. apply (bool_decide_unpack _). vm_compute. exact I.
Defined.

(** Everyone above 26, oldest first. *)
Definition above_26 : QueryPlan :=
  plan (order_by (where_filter (query_new b#("people")) b#("age") OpGt (Int 26)) b#("age") false) im_empty 3 2 true false.

Lemma full_scan_exact_witness :
  ∃ c rows, execute id (λ _, true) no_knn 2 im_empty above_26 people_engine = (e_with_cache c people_engine, Ok rows) ∧
    (b#("carol"), person 41 b#("oslo")) ∈ rows.
Proof.
  destruct people_ok as [He Hdocs].
  destruct (full_scan_exact id (λ _, true) no_knn 2 im_empty above_26 people_map people_engine He Hdocs) as (c & rows & E & _ & Hin & _);
    try reflexivity; try lia.
  - repeat constructor.
  - intros id d Hd o Ho%list_elem_of_singleton. subst o.
    pose proof (people_all (λ d, match get_path (fill above_26 people_engine d) b#("age") with Some v => comparable v | None => true end) eq_refl id d Hd) as Hc.
    cbn beta in Hc. cbn [o_field]. destruct (get_path _ b#("age")); [exact Hc|exact I].
  - exists c, rows. split; [exact E|]. apply Hin. exists (person 41 b#("oslo")). split_and!; vm_compute; reflexivity.
Defined.


(** The city of everyone above 26. *)
Definition cities : QueryPlan :=
  mkPlan b#("people") FullCollection [mkFilter b#("age") OpGt (Int 26)] [] [] [] None None [b#("city")] None true false false false false.
Lemma projected_matcher_exact_witness :
  unified_match_projected id b#("carol") (encode (person 41 b#("oslo"))) cities = Some [(b#("city"), String b#("oslo"))].
Proof.
  rewrite (projected_matcher_exact id b#("carol") (person 41 b#("oslo")) cities eq_refl (person_sorted _ _)).
  - vm_compute. reflexivity.
  - discriminate.
  - apply (bool_decide_unpack _). vm_compute. exact I.
Defined.

Lemma pushdown_safe_witness :
  scan_limit (plan (limit (query_new b#("people")) 2) im_empty 3 2 true false) = Some 2%nat ∧
  pushes_ok (limit (query_new b#("people")) 2) (plan (limit (query_new b#("people")) 2) im_empty 3 2 true false).
Proof.
  split; [reflexivity|]. apply pushdown_safe. split_and!; [reflexivity|reflexivity|]. intros f Hf. by apply elem_of_nil in Hf.
Defined.

(** An index over the active people only, and a query that asks for them. *)
Definition active_def : CompositeIndexDefinition :=
  mkDef 1 b#("people") [mkField b#("city") Asc] false false
    (Some (mkGroup LAnd [mkFilter b#("active") OpEq (Bool true)])).
Definition active_query : Query := where_eq (where_eq (query_new b#("people")) b#("city") (String b#("oslo"))) b#("active") (Bool true).
Definition active_person : HakoDoc := mkDoc [(b#("active"), Bool true); (b#("city"), String b#("oslo"))] 7.

Lemma partial_index_complete_witness : filter_passes id active_def b#("dora") active_person = true.
Proof.
  apply (partial_index_complete id active_def active_query b#("dora") active_person); [reflexivity| |vm_compute; reflexivity].
  intros g E. assert (g = mkGroup LAnd [mkFilter b#("active") OpEq (Bool true)]) as -> by (symmetry; exact (Some_inj _ _ E)). repeat constructor.
Defined.

Lemma traverse_marker_planned_witness :
  let f := traverse_marker b#("people") b#("bob") Outgoing None 3 None (Some b#("km")) in
  scan (plan (where_filter (query_new b#("people")) (f_field f) (f_op f) (f_value f)) im_empty 3 2 true false) =
  Traverse b#("people") b#("bob") (mkSpec Outgoing None 3 100 None (Some b#("km")) None None None false false) [].
Proof.
  refine (proj1 (traverse_marker_planned im_empty b#("people") b#("people") b#("bob") Outgoing None 3 None (Some b#("km")) 3 2 false _ _ eq_refl)).
  - unfold MAX_TRAVERSE_DEPTH. lia.
  - discriminate.
Defined.


(** A text index on the city, with spaces between words. *)
Definition letters (b : bytes) : bool := negb (bool_decide (b = [32])).
Definition text_index : IndexManager :=
  im_index_batch id letters (im_clear_collection (create_fts_index im_empty b#("people") b#("city")) b#("people")) b#("people") people.
Lemma text_search_exact_witness :
  b#("alice") ∈ default [] (search id letters (default [] (bf_get (fts text_index) b#("people") b#("city"))) b#("oslo")).
Proof.
  assert (exact id letters text_index b#("people") people_map) as Hex.
  { assert (people_map = list_to_map people ∪ ∅) as -> by (by rewrite map_union_empty).
    apply index_batch_exact; [apply (bool_decide_unpack _); vm_compute; exact I|intros; apply lookup_empty|apply clear_exact]. }
  destruct Hex as [_ Hf]. destruct (bf_get (fts text_index) b#("people") b#("city")) as [i|] eqn:Hi; [|vm_compute in Hi; discriminate Hi].
  cbn [default from_option]. apply (text_search_exact id letters b#("city") i people_map).
  - apply Hf. exact Hi.
  - split; [vm_compute; discriminate|]. intros w Hw. exists (person 30 b#("oslo")). split; [vm_compute; reflexivity|].
    exists (b#("oslo")). split; [vm_compute; reflexivity|exact Hw].
Defined.

Lemma backfill_paths_agree_witness :
  backfill_secondary_borrowed (create_secondary_index im_empty b#("people") b#("city")) b#("people") ((λ kv, (kv.1, encode kv.2)) <$> people) =
  (backfill_secondary (create_secondary_index im_empty b#("people") b#("city")) b#("people") people, true).
Proof.
  apply backfill_paths_agree; try reflexivity. repeat (constructor; [split; [vm_compute; reflexivity|apply person_sorted]|]). constructor.
Defined.

(** A reference from one document to another. *)
Definition fan : HakoDoc := mkDoc [(b#("likes"), Reference b#("people") b#("bob"))] 1.
Lemma backlinks_exact_witness :
  edge (index_doc (track (mkLinks ∅ ∅) b#("people")) b#("people") b#("alice") fan) b#("people") b#("bob")
    (mkLink b#("people") b#("alice") b#("likes")).
Proof.
  apply (proj2 (proj1 (backlinks_exact (track (mkLinks ∅ ∅) b#("people")) b#("people") b#("alice") fan (map_Forall_empty _)))).
  right. split; [apply (bool_decide_unpack _); vm_compute; exact I|]. exists (b#("likes")). split; [by left|reflexivity].
Defined.

(** ** Corner cases *)

Definition age_index : IndexManager :=
  im_index_batch id (λ _, true) (create_secondary_index im_empty b#("people") b#("age")) b#("people") people.
Definition run (workers : nat) (m : IndexManager) (p : QueryPlan) : res (list bytes) :=
  match (execute id (λ _, true) no_knn workers m p people_engine).2 with
  | Ok rows => Ok rows.*1
  | Err e => Err e
  | Panic => Panic
  end.

(** A group that compares with [Gt] on an indexed field is looked up as an
    equality: the matching document is not found. *)
Lemma union_ignores_operator :
  let p := plan (or_where (query_new b#("people")) b#("age") OpGt (Int 40)) age_index 3 2 true false in
  run 2 age_index p = Ok [] ∧ doc_matches id b#("carol") (person 41 b#("oslo")) p = true.
Proof. vm_compute. done. Qed.

(** A range over a composite index compares keys in two's complement: no age is
    found above -1. *)
Definition age_composite : IndexManager :=
  let '(m, _) := im_create_index im_empty (mkDef 1 b#("people") [mkField b#("age") Asc] false false None) in
  im_index_batch id (λ _, true) m b#("people") people.
Lemma negative_range_misses :
  let p := plan (where_filter (query_new b#("people")) b#("age") OpGt (Int (-1))) age_composite 200 2 true false in
  run 2 age_composite p = Ok [] ∧ doc_matches id b#("bob") (person 25 b#("rome")) p = true.
Proof. vm_compute. done. Qed.

(** The top-N lane does not look at element clauses when there is no other filter. *)
Definition with_elem (q : Query) (field : bytes) (fs : list Filter) : Query :=
  mkQuery (q_collection q) (q_filters q) (q_or_groups q) [mkElem field fs] (q_order_by q) (q_limit q) (q_offset q) (q_projection q)
    (q_aggregations q) (q_start_at q) (q_start_after q) (q_end_at q) (q_end_before q) (q_defer_blobs q) (q_raw q).
Lemma topn_skips_elem_match :
  let p := plan (with_elem (limit (order_by (query_new b#("people")) b#("age") true) 1) b#("tags") [mkFilter [] OpEq (Int 1)])
             im_empty 3 2 true false in
  run 2 im_empty p = Ok [b#("bob")] ∧ doc_matches id b#("bob") (person 25 b#("rome")) p = false.
Proof. vm_compute. done. Qed.
(** A limit is pushed into the full scan although element clauses are left to
    check: the page may miss documents that match. *)
Lemma elem_match_limit_pushed :
  let p := plan (with_elem (limit (query_new b#("people")) 1) b#("tags") [mkFilter [] OpEq (Int 1)]) im_empty 3 2 true false in
  scan_limit p = Some 1%nat ∧ filters_satisfied_by_index p = false.
Proof. vm_compute. done. Qed.

(** Cursors that cross abort the scan of an index. *)
Definition with_cursors (q : Query) (start_at end_at : list Value) : Query :=
  mkQuery (q_collection q) (q_filters q) (q_or_groups q) (q_elem_match q) (q_order_by q) (q_limit q) (q_offset q) (q_projection q)
    (q_aggregations q) (Some start_at) None (Some end_at) None (q_defer_blobs q) (q_raw q).
Lemma crossed_cursors_abort :
  run 2 age_index (plan (with_cursors (order_by (query_new b#("people")) b#("age") true) [Int 40] [Int 20]) age_index 3 2 true false) = Panic.
Proof. vm_compute. done. Qed.

(** A projected query in id order skips its offset twice. *)
Definition paged (q : Query) (n off : nat) (proj : list bytes) : Query :=
  mkQuery (q_collection q) (q_filters q) (q_or_groups q) (q_elem_match q) (q_order_by q) (Some n) (Some off) proj
    (q_aggregations q) (q_start_at q) (q_start_after q) (q_end_at q) (q_end_before q) (q_defer_blobs q) (q_raw q).
Definition run_projected_ids (m : IndexManager) (p : QueryPlan) : res (list bytes) :=
  match (execute_projected id (λ _, true) no_knn 2 m p people_engine).2 with
  | Ok rows => Ok rows.*1
  | Err e => Err e
  | Panic => Panic
  end.
Lemma projected_offset_twice :
  let q := order_by (query_new b#("people")) b#("id") true in
  run 2 im_empty (plan (paged q 2 1 []) im_empty 3 2 true false) = Ok [b#("bob"); b#("carol")] ∧
  run_projected_ids im_empty (plan (paged q 2 1 [b#("city")]) im_empty 3 2 true false) = Ok [b#("carol")].
Proof. vm_compute. done. Qed.

(** A text search pushes its limit without the offset. *)
Lemma text_limit_without_offset :
  scan_limit (plan (where_filter (paged (query_new b#("people")) 1 1 []) b#("city") OpMatch (String b#("oslo"))) text_index 3 2 true false) = Some 1%nat.
Proof. vm_compute. done. Qed.

(** The sweep works in the order of the segment file, and the window it probes first
    and a single worker return rows in that order, not in the order of the scan. *)
Lemma sweep_reorders :
  (work_items [(b#("a"), PSegment 0 20 5); (b#("b"), PSegment 0 10 5)]).*2 = [(b#("b"), PSegment 0 10 5); (b#("a"), PSegment 0 20 5)].
Proof. vm_compute. done. Qed.
