(* ===== verification/SyncCore.v ===== *)
(** * Replication (src/sync_core.rs, sync_frame.rs, sync_guard.rs, cancel.rs)

    What every transport shares: the logical time of an operation, frames, the
    echo cache, the ingest of a replicated batch with last-writer-wins conflict
    resolution, the bytes sent for an operation, the clock watermark, and the
    guards for encrypted collections.  The facade around the shard appears as what
    the ingest asks of it: versions to bump, documents to index, events. *)

From stdpp Require Import prelude list gmap strings.
From Stdlib Require Import ZArith Lia.
From S2P Require Import Prelude RustStd Error Crypto VFile Value Doc Wal PageCache StorageIndex Segment Blob Storage Matcher Worker.

Local Open Scope Z_scope.
Local Open Scope hako_scope.

(** [op_logical_time]. *)
Definition op_logical_time (op : WalOp) : Z :=
  match op with
  | PutInlined _ value => default 0 (i64_of_le <$> get_range value 2 10)
  | Delete _ timestamp => timestamp
  | _ => 0
  end.

(** ** Frames *)

Definition MAX_FRAME : Z := 256 * 1024 * 1024.
(** [frame_bytes], [send_frame], [recv_frame]: a stream is what was written and not
    yet read; reading past its end waits, which is [None] here as an error is. *)
Definition frame_bytes (data : bytes) : option bytes :=
  if bool_decide (data = []) || (MAX_FRAME <? zlen data) then None else Some (to_le 4 (as_u32 (zlen data)) ++ data).
Definition send_frame (stream data : bytes) : option bytes := frame ← frame_bytes data; Some (stream ++ frame).
Definition recv_frame (stream : bytes) : option (bytes * bytes) :=
  len ← of_le <$> get_range stream 0 4;
  if (len =? 0) || (MAX_FRAME <? len) then None
  else buf ← get_range stream 4 (4 + len); Some (buf, drop (Z.to_nat (4 + len)) stream).

(** ** Echo cache *)

Definition echo_take (cache : gmap bytes Z) (key : bytes) (ts : Z) : gmap bytes Z * bool :=
  match cache !! key with
  | Some cached_ts => if cached_ts =? ts then (base.delete key cache, true) else (cache, false)
  | None => (cache, false)
  end.

(** ** Clock watermark *)

(** [observe_remote_ts]: at most a century ahead of the clock. *)
Definition SKEW_CEILING_MICROS : Z := 100 * 365 * 24 * 60 * 60 * 1000000.
Definition observe_remote_ts (now watermark ts : Z) : Z :=
  let effective := Z.min ts (now + SKEW_CEILING_MICROS) in
  if watermark <? effective then effective else watermark.

(** ** Guards *)

Record PeerCaps := mkCaps { key_fp : bytes; peer_encrypted_cols : list bytes }.
Definition zero_fp : bytes := replicate 32 0.
Section Guard.
Context (sha256 : bytes → bytes).
Definition key_fingerprint (secret : bytes) : bytes := sha256 secret.
Definition local_fingerprint (encryption_key : option bytes) : bytes :=
  match encryption_key with
  | Some secret => if negb (bool_decide (secret = [])) then key_fingerprint secret else zero_fp
  | None => zero_fp
  end.
End Guard.
Definition caps_allow (col_encrypted_locally : bool) (local_fp : bytes) (peer : option PeerCaps) : bool :=
  if negb col_encrypted_locally then true
  else if bytes_eqb local_fp zero_fp then false
  else match peer with Some p => bytes_eqb (key_fp p) local_fp | None => false end.

(** [CapsMap]: announcements and the times of the last warnings. *)
Record CapsMap := mkCapsMap { caps : gmap bytes PeerCaps; warned : gmap (bytes * bytes) Z }.
Definition WARN_THROTTLE : Z := 300.
Definition forget_warnings (peer : bytes) (w : gmap (bytes * bytes) Z) : gmap (bytes * bytes) Z :=
  base.filter (λ kv : bytes * bytes * Z, kv.1.1 ≠ peer) w.
Definition caps_set (m : CapsMap) (peer : bytes) (c : PeerCaps) : CapsMap :=
  mkCapsMap (<[peer := c]> (caps m)) (forget_warnings peer (warned m)).
Definition caps_get (m : CapsMap) (peer : bytes) : option PeerCaps := caps m !! peer.
Definition caps_remove (m : CapsMap) (peer : bytes) : CapsMap :=
  mkCapsMap (base.delete peer (caps m)) (forget_warnings peer (warned m)).
Definition caps_warn (m : CapsMap) (now : Z) (peer col : bytes) : CapsMap * bool :=
  match warned m !! (peer, col) with
  | Some last => if now - last <? WARN_THROTTLE then (m, false) else (mkCapsMap (caps m) (<[(peer, col) := now]> (warned m)), true)
  | None => (mkCapsMap (caps m) (<[(peer, col) := now]> (warned m)), true)
  end.

(** ** Cancellation *)

(** [CancelToken]: the flag that all clones share. *)
Definition token_new : bool := false.
Definition token_cancel (t : bool) : bool := true.
Definition token_check (t : bool) : res unit := if t then Err Cancelled else Ok tt.

(** ** Ingest *)

Section Ingest.
Context `{Crc} `{Zstd} `{HashIter} {cipher : Type} `{Aead cipher}.
Abbreviation StorageEngine := (@StorageEngine cipher).

(** What phase 1 collects. *)
Record Ingest := mkIngest {
  accepted_ops : list WalOp;
  affected_keys : list bytes;
  index_puts : list (bytes * option HakoDoc);
  blob_items : list BlobWork;
  echo : gmap bytes Z;
  watermark : Z }.

(** The time of the local version of a key. *)
Definition local_time (ptr : Pointer) : SR StorageEngine Z :=
  match ptr with
  | PDeleted timestamp => mret timestamp
  | PInlined b => lift (match get_range b 2 10 with Some s => Ok (i64_of_le s) | None => Panic end)
  | other => λ e,
      match read_pointer_internal other false e with
      | (e, Panic) => (e, Panic)
      | (e, Ok (Some b)) => (e, Ok (match decode b with Some d => _time d | None => 0 end))
      | (e, _) => (e, Ok 0)
      end
  end.

(** A put or a delete with its logical time; the rest of the log is not ingested. *)
Definition op_change (op : WalOp) : option (bytes * option HakoDoc * Z) :=
  match op with
  | PutInlined key value => (λ d, (key, Some d, _time d)) <$> decode value
  | Delete key timestamp => Some (key, None, timestamp)
  | _ => None
  end.
Definition newer (key : bytes) (remote_ts : Z) : SR StorageEngine bool :=
  e ← get_st;
  match index (idx e) !! key with
  | Some ptr => local_ts ← local_time ptr; mret (local_ts <? remote_ts)
  | None => mret true
  end.
Definition extract_remote (c key : bytes) (threshold : Z) (doc : HakoDoc) : SR StorageEngine (HakoDoc * list BlobWork) := λ e,
  match blob_manager e with
  | Some bm =>
      let '(bm, doc, work) := extract_blobs bm c key doc threshold in
      (e_with_blobs (Some bm) (blob_flush_queue e) e, Ok (doc, work))
  | None => (e, Ok (doc, []))
  end.
Definition ingest_op (now threshold : Z) (c : bytes) (i : Ingest) (op : WalOp) : SR StorageEngine Ingest :=
  match op_change op with
  | None => mret i
  | Some (key, doc, remote_ts) =>
      accept ← newer key remote_ts;
      if negb accept then mret i
      else match doc with
           | None =>
               mret (mkIngest (accepted_ops i ++ [Delete key remote_ts]) (affected_keys i ++ [key]) (index_puts i ++ [(key, None)])
                       (blob_items i) (<[key := remote_ts]> (echo i)) (observe_remote_ts now (watermark i) remote_ts))
           | Some doc =>
               '(doc, work) ← extract_remote c key threshold doc;
               mret (mkIngest (accepted_ops i ++ [PutInlined key (encode doc)]) (affected_keys i ++ [key])
                       (index_puts i ++ [(key, Some doc)]) (blob_items i ++ work) (<[key := remote_ts]> (echo i))
                       (observe_remote_ts now (watermark i) remote_ts))
           end
  end.
Fixpoint ingest_ops (now threshold : Z) (c : bytes) (i : Ingest) (ops : list WalOp) : SR StorageEngine Ingest :=
  match ops with
  | [] => mret i
  | op :: ops => i ← ingest_op now threshold c i op; ingest_ops now threshold c i ops
  end.

(** Phase 2: log, index, blob queue. *)
Definition has_blob (items : list BlobWork) (key : bytes) : bool :=
  existsb (λ b, match b with BPutRaw _ k _ _ _ _ _ => bytes_eqb k key | BPut _ _ _ => false end) items.
Definition delete_time (ops : list WalOp) (key : bytes) : Z :=
  default 0 (head (omap (λ o, match o with Delete k ts => if bytes_eqb k key then Some ts else None | _ => None end) ops)).
Definition ingest_pointer (i : Ingest) (p : bytes * option HakoDoc) : bytes * option Pointer :=
  (p.1, Some match p.2 with
             | Some doc => if has_blob (blob_items i) p.1 then PBlobPending doc else PInlined (encode doc)
             | None => PDeleted (delete_time (accepted_ops i) p.1)
             end).
Definition commit_ingest (now : Z) (i : Ingest) : SR StorageEngine unit := λ e,
  let tx_id := next_tx_id e in
  let e := e_with_tx (tx_id + 1) e in
  let '(e, _) := on_wal (λ c w, append_batch_fast now c w tx_id (accepted_ops i) true) e in
  let e := e_with_idx (update_batch (idx e) (ingest_pointer i <$> index_puts i)) e in
  (e_with_blobs (blob_manager e) (blob_flush_queue e ++ blob_items i) e, Ok tt).

(** Phases 3 to 5: what the facade is asked to do. *)
Record Effects := mkEffects {
  bumped : list bytes;
  to_index : list (bytes * HakoDoc);
  events : list (bytes * bool) }.
(** The part of a key after its first colon, if it has one. *)
Fixpoint after_colon (key : bytes) : option bytes :=
  match key with [] => None | x :: key => if x =? 58 then Some key else after_colon key end.
Definition ingest_effects (i : Ingest) : Effects :=
  mkEffects (affected_keys i)
    (omap (λ op, match op with
                 | PutInlined key value => (λ d, (default key (after_colon key), d)) <$> decode value
                 | _ => None
                 end) (accepted_ops i))
    (omap (λ op, match op with
                 | PutInlined _ _ => Some (get_key op, true)
                 | Delete _ _ => Some (get_key op, false)
                 | _ => None
                 end) (accepted_ops i)).

(** [apply_replicated_batch]: the cache, the watermark and the effects; [now] is the
    clock of the log, [micros] the time of day. *)
Definition apply_replicated_batch (local_only : bool) (now micros threshold : Z) (c : bytes) (ops : list WalOp)
    (cache : gmap bytes Z) (mark : Z) : SR StorageEngine (gmap bytes Z * Z * Effects) :=
  if local_only then mret (cache, mark, mkEffects [] [] [])
  else
    i ← ingest_ops micros threshold c (mkIngest [] [] [] [] cache mark) ops;
    match accepted_ops i with
    | [] => mret (echo i, watermark i, mkEffects [] [] [])
    | _ => _ ← commit_ingest now i; mret (echo i, watermark i, ingest_effects i)
    end.

(** ** Sending *)

(** [resolve_doc_static]: links from the flush queue or the blob file. *)
Definition queued_blobs (q : list BlobWork) : gmap Z bytes :=
  foldl (λ m w, match w with BPutRaw _ _ _ offset data _ _ => <[offset := data]> m | BPut _ _ _ => m end) ∅ q.
Definition resolvable (v : Value) : bool := match v with BlobLink offset _ => negb (offset =? 2 ^ 64 - 1) | _ => false end.
Definition resolve_doc (e : StorageEngine) (doc : HakoDoc) : res HakoDoc :=
  if negb (existsb (λ kv, resolvable kv.2) (fields doc)) then Ok doc
  else match blob_manager e with
       | None => Err (StorageError "No blob manager")
       | Some bm =>
           Ok (mkDoc (map (λ kv, (kv.1, match kv.2 with
                                        | BlobLink offset len =>
                                            if resolvable kv.2
                                            then blob_value (default (blob_read_at bm offset len) (queued_blobs (blob_flush_queue e) !! offset))
                                            else kv.2
                                        | v => v
                                        end)) (fields doc)) (_time doc))
       end.
(** [resolve_send_bytes]. *)
Definition op_pointer (op : WalOp) : option Pointer :=
  match op with
  | PutInlined _ value => Some (PInlined value)
  | Put _ segment_id offset len => Some (PSegment segment_id offset len)
  | PutBlob _ offset len => Some (PBlob offset len)
  | _ => None
  end.
Definition resolve_send_bytes (op : WalOp) : SR StorageEngine (option bytes) := λ e,
  match op_pointer op with
  | None => (e, Ok None)
  | Some ptr =>
      match read_pointer_internal ptr false e with
      | (e, Panic) => (e, Panic)
      | (e, Ok (Some b)) =>
          (e, Ok match decode b with
                 | Some doc => if doc_has_links doc
                               then match resolve_doc e doc with Ok doc => Some (encode doc) | _ => None end
                               else Some b
                 | None => Some b
                 end)
      | (e, _) => (e, Ok None)
      end
  end.
End Ingest.
