(* ===== verification/SyncFacts.v ===== *)
(** * Lemmas on replication: the versions of a replica

    [versions] is what replication sees of a collection: for each key the time of
    its last write and the document, or [None] for a deletion.  An ingested batch
    with one operation per key updates it by the last-writer-wins rule [lww], and
    the result of any delivery is determined by the set of operations delivered. *)

From stdpp Require Import prelude list gmap strings.
From Stdlib Require Import ZArith Lia.
From S2P Require Import Prelude RustStd Error Crypto VFile Value Doc DocFacts DocCodec Wal WalFacts PageCache StorageIndex.
From S2P Require Import StorageIndexFacts Segment SegmentFacts Blob Storage StorageMaint StorageFacts StorageView Matcher MatcherFacts Worker SyncCore.

Local Open Scope Z_scope.
Local Open Scope hako_scope.

(** ** The last-writer-wins map *)

(** A replicated change: key, time, and the document's bytes unless it deletes. *)
Abbreviation Version := (Z * option bytes)%type.
Abbreviation Change := (bytes * Version)%type.

Definition supersedes (m : gmap bytes Version) (c : Change) : bool :=
  match m !! c.1 with Some v => v.1 <? c.2.1 | None => true end.
Definition lww (m : gmap bytes Version) (c : Change) : gmap bytes Version :=
  if supersedes m c then <[c.1 := c.2]> m else m.

(** What a key holds after a delivery: the old version, or a delivered one that
    is newer; and nothing delivered is newer still. *)
Definition winner (old : option Version) (vs : list Version) (r : option Version) : Prop :=
  (r = old ∨ ∃ v, r = Some v ∧ v ∈ vs ∧ ∀ o, old = Some o → o.1 < v.1) ∧
  (∀ o, old = Some o → ∃ v, r = Some v ∧ o.1 <= v.1) ∧
  (∀ u, u ∈ vs → ∃ v, r = Some v ∧ u.1 <= v.1).

Definition of_key (k : bytes) (cs : list Change) : list Version :=
  omap (λ c, if bool_decide (c.1 = k) then Some c.2 else None) cs.

Lemma elem_of_of_key k cs v : v ∈ of_key k cs ↔ (k, v) ∈ cs.
Proof.
  unfold of_key. rewrite list_elem_of_omap. split.
  - intros ([k' v'] & Hin & Hv). case_bool_decide; [|done]. cbn in *. congruence.
  - intros Hin. exists (k, v). split; [done|]. by rewrite bool_decide_eq_true_2.
Qed.

Lemma winner_step old v : winner old [v] (Some (match old with Some o => if o.1 <? v.1 then v else o | None => v end)).
Proof.
  destruct old as [o|]; [split_if|]; split_and!.
  all: try (left; done).
  all: try (intros o' [= <-]; eexists; split; [done|lia]).
  all: try (intros u ->%list_elem_of_singleton; eexists; split; [done|lia]).
  - right. exists v. split_and!; [done|by apply list_elem_of_singleton|]. intros o' [= <-]. done.
  - right. exists v. split_and!; [done|by apply list_elem_of_singleton|done].
  - done.
Qed.

Lemma winner_trans old vs r ws s : winner old vs r → winner r ws s → winner old (vs ++ ws) s.
Proof.
  intros (A1 & A2 & A3) (B1 & B2 & B3). split_and!.
  - destruct B1 as [->|(v & -> & Hv & Hlt)].
    + destruct A1 as [->|(v & -> & Hv & Hlt)]; [by left|]. right. exists v. split_and!; [done|set_solver|done].
    + right. exists v. split_and!; [done|set_solver|]. intros o Ho. destruct (A2 o Ho) as (x & -> & Hx).
      specialize (Hlt x eq_refl). lia.
  - intros o Ho. destruct (A2 o Ho) as (x & Hr & Hx). destruct (B2 x Hr) as (y & -> & Hy). exists y. split; [done|lia].
  - intros u [Hu|Hu]%elem_of_app; [|by apply B3]. destruct (A3 u Hu) as (x & Hr & Hx).
    destruct (B2 x Hr) as (y & -> & Hy). exists y. split; [done|lia].
Qed.

Lemma lww_winner cs m k : winner (m !! k) (of_key k cs) (foldl lww m cs !! k).
Proof.
  revert m; induction cs as [|[k' v] cs IH]; intros m; cbn [foldl].
  { split_and!; [by left| |intros u []%not_elem_of_nil]. intros o ->. exists o. split; [done|lia]. }
  change (of_key k ((k', v) :: cs)) with (match (if bool_decide (k' = k) then Some v else None) with Some x => x :: of_key k cs | None => of_key k cs end).
  specialize (IH (lww m (k', v))). unfold lww, supersedes in *. cbn [fst snd] in *. case_bool_decide as Hk.
  - subst k'. change (v :: of_key k cs) with ([v] ++ of_key k cs). eapply winner_trans; [apply winner_step|].
    destruct (m !! k) as [o|] eqn:Ho; [split_if in IH|]; by rewrite ?lookup_insert_eq, ?Ho in IH.
  - by destruct (match m !! k' with Some o => o.1 <? v.1 | None => true end); rewrite ?lookup_insert_ne in IH by done.
Qed.

(** Versions of one key with equal times are the same version. *)
Definition consistent (cs : list Change) : Prop :=
  ∀ k v w, (k, v) ∈ cs → (k, w) ∈ cs → v.1 = w.1 → v = w.

Lemma winner_unique old vs ws r s :
  (∀ v, v ∈ vs ↔ v ∈ ws) → (∀ v w, v ∈ vs → w ∈ vs → v.1 = w.1 → v = w) →
  winner old vs r → winner old ws s → r = s.
Proof.
  intros Hset Hcons (A1 & A2 & A3) (B1 & B2 & B3).
  destruct A1 as [->|(v & -> & Hv & Hlt)], B1 as [->|(w & -> & Hw & Hlt')]; [done| | |].
  - destruct (A3 w) as (o & -> & Ho); [by apply Hset|]. specialize (Hlt' o eq_refl). lia.
  - destruct (B3 v) as (o & -> & Ho); [by apply Hset|]. specialize (Hlt o eq_refl). lia.
  - destruct (A3 w) as (x & [= <-] & Hx); [by apply Hset|]. destruct (B3 v) as (y & [= <-] & Hy); [by apply Hset|].
    f_equal. apply Hcons; [done|by apply Hset|lia].
Qed.

Lemma lww_set cs cs' m :
  (∀ c, c ∈ cs ↔ c ∈ cs') → consistent cs → foldl lww m cs = foldl lww m cs'.
Proof.
  intros Hset Hcons. apply map_eq. intros k.
  apply (winner_unique (m !! k) (of_key k cs) (of_key k cs')); [| |apply lww_winner..].
  - intros v. rewrite !elem_of_of_key. apply Hset.
  - intros v w. rewrite !elem_of_of_key. apply Hcons.
Qed.

(** With one change per key the comparison may use the map before the batch. *)
Lemma lww_batch cs m :
  NoDup cs.*1 → foldl lww m cs = foldl (λ m c, <[c.1 := c.2]> m) m (List.filter (supersedes m) cs).
Proof.
  intros Hnd. assert (∀ m0, (∀ k, k ∈ cs.*1 → m0 !! k = m !! k) →
    foldl lww m0 cs = foldl (λ m c, <[c.1 := c.2]> m) m0 (List.filter (supersedes m) cs)) as Hgen; [|by apply Hgen].
  induction cs as [|[k v] cs IH]; intros m0 Hm; [done|]. apply NoDup_cons in Hnd as [Hk Hnd].
  cbn [foldl List.filter]. unfold lww at 2.
  assert (supersedes m0 (k, v) = supersedes m (k, v)) as -> by (unfold supersedes; cbn; by rewrite Hm by set_solver).
  destruct (supersedes m (k, v)); cbn [foldl fst snd]; (rewrite IH; [done|done|]); intros k' Hk'.
  - rewrite lookup_insert_ne by (intros ->; done). by apply Hm; right.
  - by apply Hm; right.
Qed.

(** ** The versions of a replica *)

Lemma decode_time b d : decode b = Some d → is_i64 (_time d).
Proof.
  unfold decode, view_new. split_if; [done|]. destruct (get_range b 2 10) as [t|]; [|done]. opt_simpl.
  destruct (get_range b 10 12); [|done]. opt_simpl. destruct (iter_all _ _) as [items it].
  destruct (mapM _ items); [|done]. opt_simpl. split_if; [|done]. intros [= <-]. apply as_i64_range.
Qed.

Definition change_of (op : WalOp) : option Change :=
  match op_change op with Some (k, d, t) => Some (k, (t, encode <$> d)) | None => None end.

(** The document has no field that blob extraction would take out. *)
Definition small_doc (threshold : Z) (d : HakoDoc) : Prop := Forall (λ kv, len_bytes kv.2 <= threshold) (fields d).
Definition small_op (threshold : Z) (op : WalOp) : Prop :=
  ∀ k d t, op_change op = Some (k, Some d, t) → small_doc threshold d.

Lemma extract_small bm c k d th : small_doc th d → extract_blobs bm c k d th = (bm, d, []).
Proof.
  unfold small_doc, extract_blobs. destruct d as [fs t]. cbn [fields _time]. intros Hs.
  assert (extract_fields bm c k fs t th = (bm, fs, [])) as ->; [|done].
  induction Hs as [|[n v] fs Hv Hs IH]; [done|]. cbn [extract_fields]. cbn [snd] in Hv.
  rewrite (proj2 (Z.ltb_ge _ _)) by lia. by rewrite IH.
Qed.

Section Replica.
Context `{CrcLaws} `{ZstdLaws} `{HashIterLaws} {cipher : Type} `{AeadLaws cipher}.
Implicit Types (e : StorageEngine cipher).

Definition ptr_version e (p : Pointer) : Version :=
  match p with
  | PDeleted t => (t, None)
  | PInlined b => (i64_of_le (default [] (get_range b 2 10)), Some b)
  | p => (default 0 (_time <$> (ptr_value e p ≫= decode)), ptr_value e p)
  end.
Definition versions e : gmap bytes Version := ptr_version e <$> index (idx e).

(** Values kept in the index are long enough to carry a time. *)
Definition timed (p : Pointer) : Prop := match p with PInlined b => 10 <= zlen b | _ => True end.
Definition replica_ok e : Prop := store_ok e ∧ map_Forall (λ _ p, timed p) (index (idx e)).

(** The documents a client reads are the documents of the versions. *)
Lemma versions_view e k : store_view e !! k = versions e !! k ≫= snd.
Proof. rewrite view_lookup. unfold versions. rewrite lookup_fmap. by destruct (index (idx e) !! k) as [[]|]. Qed.

Lemma versions_cache c e : versions (e_with_cache c e) = versions e.
Proof. done. Qed.

Lemma local_time_spec e p :
  store_ok e → ptr_ok e p → timed p →
  ∃ c, local_time p e = (e_with_cache c e, Ok (ptr_version e p).1) ∧ store_ok (e_with_cache c e).
Proof.
  intros He Hp Ht. assert (e = e_with_cache (cache e) e) as Hself by (by destruct e).
  destruct (read_pointer_value e p false He Hp) as (c & Hr & Hc & _).
  assert (∀ q, q = p → (∃ b, p = PInlined b) ∨ (∃ t, p = PDeleted t) ∨
    local_time p = (λ e, match read_pointer_internal q false e with
      | (e, Panic) => (e, Panic)
      | (e, Ok (Some b)) => (e, Ok (match decode b with Some d => _time d | None => 0 end))
      | (e, _) => (e, Ok 0)
      end) ∧ ptr_version e p = (default 0 (_time <$> (ptr_value e q ≫= decode)), ptr_value e q)) as Hcase.
  { intros q ->. destruct p; eauto. }
  destruct (Hcase p eq_refl) as [[b ->]|[[t ->]|[-> ->]]].
  - exists (cache e). rewrite <-Hself. split; [|done]. cbn in Ht. unfold local_time, lift, ptr_version, get_range.
    by rewrite (proj2 (Z.leb_le 10 _)) by lia.
  - exists (cache e). by rewrite <-Hself.
  - exists c. rewrite Hr. split; [|done]. destruct (ptr_value e p) as [b|]; [|done]. cbn. by destruct (decode b).
Qed.

Lemma newer_spec e k t :
  replica_ok e → ∃ c, newer k t e = (e_with_cache c e, Ok (supersedes (versions e) (k, (t, None)))) ∧ replica_ok (e_with_cache c e).
Proof.
  intros [He Ht]. assert (e = e_with_cache (cache e) e) as Hself by (by destruct e).
  unfold newer, supersedes, versions, mbind, SR_bind, get_st. rewrite lookup_fmap. cbn [fst snd].
  destruct (index (idx e) !! k) as [p|] eqn:Hk; cbn [fmap option_fmap option_map].
  2: { exists (cache e). by rewrite <-Hself. }
  assert (ptr_ok e p) as Hp by (destruct He as (_ & _ & Hp & _); by eapply Hp).
  destruct (local_time_spec e p He Hp (Ht _ _ Hk)) as (c & -> & Hc). by exists c.
Qed.

(** ** Phase 1 *)

Definition wal_of (c : Change) : WalOp :=
  match c.2.2 with Some b => PutInlined c.1 b | None => Delete c.1 c.2.1 end.
Definition put_of (op : WalOp) : option (bytes * option HakoDoc) :=
  match op_change op with Some (k, d, _) => Some (k, d) | None => None end.
Definition accepts (m : gmap bytes Version) (op : WalOp) : bool :=
  match change_of op with Some c => supersedes m c | None => false end.

Definition ingested (now : Z) (i : Ingest) (ops : list WalOp) : Ingest :=
  let cs := omap change_of ops in
  mkIngest (accepted_ops i ++ (wal_of <$> cs)) (affected_keys i ++ cs.*1) (index_puts i ++ omap put_of ops) (blob_items i)
    (foldl (λ m c, <[c.1 := c.2.1]> m) (echo i) cs) (foldl (λ w c, observe_remote_ts now w c.2.1) (watermark i) cs).

Lemma ingest_op_spec now th c i op e :
  replica_ok e → (blob_manager e = None ∨ small_op th op) →
  ∃ ch, ingest_op now th c i op e =
    (e_with_cache ch e, Ok (ingested now i (if accepts (versions e) op then [op] else []))) ∧ replica_ok (e_with_cache ch e).
Proof.
  intros He Hs. unfold ingest_op, accepts, change_of, ingested.
  destruct (op_change op) as [[[k d] t]|] eqn:Hop.
  2: { exists (cache e). assert (e_with_cache (cache e) e = e) as -> by (by destruct e). destruct i.
       split; [|done]. cbn. by rewrite !app_nil_r. }
  opt_simpl. destruct (newer_spec e k t He) as (ch & Hn & Hc).
  exists ch. split; [|done]. unfold mbind at 1, SR_bind at 1. rewrite Hn.
  change (supersedes (versions e) (k, (t, encode <$> d))) with (supersedes (versions e) (k, (t, None))).
  destruct (supersedes _ _); cbn [negb].
  2: { destruct i. cbn. by rewrite !app_nil_r. }
  cbn [omap list_omap]. unfold change_of, put_of. rewrite Hop. opt_simpl.
  destruct d as [d|]; [|by rewrite !fmap_cons].
  assert (extract_remote c k th d (e_with_cache ch e) = (e_with_cache ch e, Ok (d, []))) as Hx.
  { unfold extract_remote. destruct (blob_manager (e_with_cache ch e)) as [bm|] eqn:Hb; [|done].
    destruct Hs as [Hs|Hs]; [by cbn in Hb; rewrite Hs in Hb|]. rewrite extract_small by (by eapply Hs).
    f_equal. destruct e. cbn in *. by subst. }
  unfold mbind, SR_bind. rewrite Hx. cbn. by rewrite app_nil_r.
Qed.

Lemma ingested_app now i ops ops' : ingested now (ingested now i ops) ops' = ingested now i (ops ++ ops').
Proof.
  unfold ingested. cbn [accepted_ops affected_keys index_puts blob_items echo watermark].
  by rewrite !omap_app, !fmap_app, !app_assoc, !foldl_app.
Qed.

Lemma ingest_ops_spec now th c ops i e :
  replica_ok e → (blob_manager e = None ∨ Forall (small_op th) ops) →
  ∃ ch, ingest_ops now th c i ops e =
    (e_with_cache ch e, Ok (ingested now i (List.filter (accepts (versions e)) ops))) ∧ replica_ok (e_with_cache ch e).
Proof.
  revert i e; induction ops as [|op ops IH]; intros i e He Hs; cbn [ingest_ops List.filter].
  { exists (cache e). assert (e_with_cache (cache e) e = e) as -> by (by destruct e). destruct i.
    split; [|done]. unfold ingested. cbn. by rewrite !app_nil_r. }
  destruct (ingest_op_spec now th c i op e He) as (ch & Hop & He').
  { destruct Hs as [|Hs]; [by left|right; by apply Forall_cons in Hs as [??]]. }
  destruct (IH (ingested now i (if accepts (versions e) op then [op] else [])) (e_with_cache ch e) He') as (ch' & Hops & He'').
  { destruct Hs as [|Hs]; [by left|right; by apply Forall_cons in Hs as [??]]. }
  exists ch'. split; [|done]. unfold mbind, SR_bind. rewrite Hop, Hops, versions_cache, ingested_app.
  by destruct (accepts (versions e) op).
Qed.

(** ** Phase 2 *)

Definition ptr_of (c : Change) : bytes * option Pointer :=
  (c.1, Some match c.2.2 with Some b => PInlined b | None => PDeleted c.2.1 end).

Lemma delete_time_of (cs : list Change) k t :
  NoDup cs.*1 → (k, (t, None)) ∈ cs → delete_time (wal_of <$> cs) k = t.
Proof.
  unfold delete_time. induction cs as [|[k' [t' b]] cs IH]; intros Hnd Hin; [by apply not_elem_of_nil in Hin|].
  apply NoDup_cons in Hnd as [Hk Hnd]. apply elem_of_cons in Hin as [[= <- <- <-]|Hin].
  - cbn. by rewrite bytes_eqb_refl.
  - rewrite fmap_cons. unfold wal_of at 1. cbn [fst snd]. destruct b as [b|]; [by apply IH|]. cbn [omap list_omap].
    destruct (bytes_eqb k' k) eqn:Hkk; [|by apply IH]. apply bytes_eqb_eq in Hkk as ->.
    destruct Hk. apply list_elem_of_fmap. by exists (k, (t, None)).
Qed.

Lemma pointers_of (i : Ingest) (cs : list Change) ops :
  accepted_ops i = wal_of <$> cs → blob_items i = [] → NoDup cs.*1 → omap change_of ops ⊆ cs →
  ingest_pointer i <$> omap put_of ops = ptr_of <$> omap change_of ops.
Proof.
  intros Ha Hb Hnd. unfold ingest_pointer. rewrite Ha, Hb.
  induction ops as [|op ops IH]; [done|]. unfold change_of, put_of in *. cbn [omap list_omap] in *.
  destruct (op_change op) as [[[k d] t]|] eqn:Hop; cbn [omap list_omap] in *; [|done].
  intros Hsub. rewrite !fmap_cons. f_equal; [|apply IH; intros c Hc; apply Hsub; by right].
  unfold ptr_of. cbn [fst snd]. destruct d as [d|]; [done|]. cbn. do 3 f_equal.
  apply delete_time_of; [done|]. apply Hsub. by left.
Qed.

Lemma change_version e op c :
  change_of op = Some c → ∃ p, ptr_of c = (c.1, Some p) ∧ timed p ∧ ptr_ok e p ∧ ptr_version e p = c.2.
Proof.
  unfold change_of. destruct (op_change op) as [[[k d] t]|] eqn:Hop; [|done]. intros [= <-]. destruct d as [d|].
  2: { by exists (PDeleted t). }
  exists (PInlined (encode d)). assert (is_i64 (_time d) ∧ t = _time d) as [Hi ->].
  { destruct op as [| | | |k' v|]; try done. cbn in Hop. destruct (decode v) as [d'|] eqn:Hd; [|done].
    injection Hop as <- <- <-. split; [by eapply decode_time|done]. }
  split_and!; [done| |done|].
  - unfold timed, encode. pose proof (zlen_nonneg (fields d)). zlen.
  - unfold ptr_version. rewrite encode_time. change (default [] (Some ?x)) with x. by rewrite i64_of_to_le.
Qed.

Lemma upds_versions e cs m :
  Forall (λ c, ∃ p, ptr_of c = (c.1, Some p) ∧ timed p ∧ ptr_ok e p ∧ ptr_version e p = c.2) cs →
  ptr_version e <$> foldl upd m (ptr_of <$> cs) = foldl (λ m c, <[c.1 := c.2]> m) (ptr_version e <$> m) cs.
Proof.
  intros Hcs. revert m; induction Hcs as [|c cs (p & Hp & _ & _ & Hv) Hcs IH]; intros m; [done|].
  rewrite fmap_cons. cbn [foldl]. rewrite Hp. cbn [upd]. by rewrite IH, fmap_insert, Hv.
Qed.

Lemma upds_timed e cs m :
  Forall (λ c, ∃ p, ptr_of c = (c.1, Some p) ∧ timed p ∧ ptr_ok e p ∧ ptr_version e p = c.2) cs →
  map_Forall (λ _ p, timed p) m → map_Forall (λ _ p, timed p) (foldl upd m (ptr_of <$> cs)).
Proof.
  intros Hcs. revert m; induction Hcs as [|c cs (p & Hp & Ht & _) Hcs IH]; intros m Hm; [done|].
  rewrite fmap_cons. cbn [foldl]. rewrite Hp. cbn [upd]. apply IH. by apply map_Forall_insert_2.
Qed.

Lemma changes_filter m ops :
  omap change_of (List.filter (accepts m) ops) = List.filter (supersedes m) (omap change_of ops).
Proof.
  unfold accepts. induction ops as [|op ops IH]; [done|]. cbn [List.filter omap list_omap].
  destruct (change_of op) as [c|] eqn:Hc; [|done]. cbn [List.filter].
  destruct (supersedes m c); cbn [omap list_omap]; rewrite ?Hc; by rewrite IH.
Qed.

Lemma NoDup_filter_keys (f : Change → bool) (cs : list Change) : NoDup cs.*1 → NoDup (List.filter f cs).*1.
Proof.
  induction cs as [|c cs IH]; [done|]. intros [Hc Hnd]%NoDup_cons. cbn [List.filter]. destruct (f c); [|by apply IH].
  apply NoDup_cons. split; [|by apply IH]. intros (c' & Heq & Hin)%list_elem_of_fmap. destruct Hc. rewrite Heq.
  apply list_elem_of_fmap. exists c'. split; [done|]. apply list_elem_of_In, filter_In in Hin as [Hin _]. by apply list_elem_of_In.
Qed.

Lemma commit_ingest_spec now micros c0 w ops e :
  replica_ok e → NoDup (omap change_of ops).*1 →
  let i := ingested micros (mkIngest [] [] [] [] c0 w) ops in
  ∃ e', commit_ingest now i e = (e', Ok tt) ∧ replica_ok e' ∧
    versions e' = foldl (λ m c, <[c.1 := c.2]> m) (versions e) (omap change_of ops) ∧
    blob_manager e' = blob_manager e ∧ blob_flush_queue e' = blob_flush_queue e.
Proof.
  intros [He Ht] Hnd i. unfold commit_ingest.
  change (index_puts i) with (omap put_of ops). rewrite (pointers_of i (omap change_of ops) ops) by done. unfold on_wal. destruct (append_batch_fast _ _ _ _ _ _) as [[c1 w1] r1].
  set (e1 := e_with_wal w1 c1 (e_with_tx (next_tx_id e + 1) e)).
  assert (Forall (λ c, ∃ p, ptr_of c = (c.1, Some p) ∧ timed p ∧ ptr_ok e1 p ∧ ptr_version e1 p = c.2) (omap change_of ops)) as Hcs.
  { apply Forall_forall. intros c (op & _ & Hc)%list_elem_of_omap. by apply (change_version e1 op). }
  destruct (update_batch_view e1 (ptr_of <$> omap change_of ops)) as [Hok _].
  { done. }
  { apply Forall_fmap. eapply Forall_impl; [exact Hcs|]. intros c (p & Hp & _ & Hpk & _) q. unfold compose. rewrite Hp. by intros [= <-]. }
  eexists. split; [done|]. split; [split|split; [|split; [done|]]].
  - destruct Hok as (? & ? & ? & ?). done.
  - cbn. rewrite update_batch_index by apply He. by eapply upds_timed.
  - unfold versions. cbn. rewrite update_batch_index by apply He. by apply (upds_versions e1).
  - cbn. by rewrite app_nil_r.
Qed.

(** ** The whole ingest *)

Lemma apply_replicated_spec now micros th c ops ch w e :
  replica_ok e → (blob_manager e = None ∨ Forall (small_op th) ops) → NoDup (omap change_of ops).*1 →
  let acc := List.filter (supersedes (versions e)) (omap change_of ops) in
  ∃ e' eff, apply_replicated_batch false now micros th c ops ch w e =
      (e', Ok (foldl (λ m c, <[c.1 := c.2.1]> m) ch acc, foldl (λ w c, observe_remote_ts micros w c.2.1) w acc, eff)) ∧
    replica_ok e' ∧ versions e' = foldl lww (versions e) (omap change_of ops) ∧
    bumped eff = acc.*1 ∧ events eff = (λ c, (c.1, bool_decide (is_Some c.2.2))) <$> acc ∧ blob_manager e' = blob_manager e.
Proof.
  intros He Hs Hnd acc. unfold apply_replicated_batch.
  destruct (ingest_ops_spec micros th c ops (mkIngest [] [] [] [] ch w) e He Hs) as (ch' & Hi & He').
  unfold mbind at 1, SR_bind at 1. rewrite Hi. rewrite lww_batch by done. fold acc.
  assert (NoDup acc.*1) as Hnd' by (by apply NoDup_filter_keys).
  set (ops' := List.filter (accepts (versions e)) ops) in *.
  assert (omap change_of ops' = acc) as Hacc by apply changes_filter. clearbody acc.
  unfold ingested at 1. cbn [accepted_ops]. rewrite Hacc, app_nil_l. destruct acc as [|c0 acc'] eqn:Hc0.
  - cbn [fmap list_fmap]. eexists _, _. split; [unfold mret, SR_ret, ingested; cbn [echo watermark]; rewrite Hacc; done|].
    split_and!; done.
  - rewrite fmap_cons. rewrite <-Hc0 in *. clear Hc0.
    destruct (commit_ingest_spec now micros ch w ops' (e_with_cache ch' e) He') as (e' & Hc & Hok & Hv & Hb & _).
    { by rewrite Hacc. }
    unfold mbind, SR_bind. rewrite Hc. eexists _, _. split; [unfold mret, SR_ret, ingested; cbn [echo watermark]; rewrite Hacc; done|].
    split_and!; [done|by rewrite Hv, Hacc|done| |done].
    cbn. clear. induction acc as [|[k [t [b|]]] acc IH]; [done|..]; rewrite !fmap_cons; cbn; by rewrite <-IH.
Qed.

(** Batches delivered one after another. *)
Fixpoint deliver (now micros th : Z) (c : bytes) (batches : list (list WalOp)) (ch : gmap bytes Z) (w : Z) e :
    StorageEngine cipher * res (gmap bytes Z * Z) :=
  match batches with
  | [] => (e, Ok (ch, w))
  | ops :: batches =>
      match apply_replicated_batch false now micros th c ops ch w e with
      | (e, Ok (ch, w, _)) => deliver now micros th c batches ch w e
      | (e, Err x) => (e, Err x)
      | (e, Panic) => (e, Panic)
      end
  end.

Lemma deliver_spec now micros th c batches ch w e :
  replica_ok e → Forall (λ ops, (blob_manager e = None ∨ Forall (small_op th) ops) ∧ NoDup (omap change_of ops).*1) batches →
  ∃ e' ch' w', deliver now micros th c batches ch w e = (e', Ok (ch', w')) ∧ replica_ok e' ∧
    versions e' = foldl lww (versions e) (omap change_of (concat batches)).
Proof.
  revert ch w e; induction batches as [|ops batches IH]; intros ch w e He Hb; [by exists e, ch, w|].
  apply Forall_cons in Hb as [[Hs Hnd] Hb]. cbn [deliver].
  destruct (apply_replicated_spec now micros th c ops ch w e He Hs Hnd) as (e1 & eff & -> & He1 & Hv & _ & _ & Hbm).
  rewrite <-Hbm in Hb.
  match goal with |- context [deliver _ _ _ _ _ ?ch1 ?w1 _] => destruct (IH ch1 w1 e1 He1 Hb) as (e2 & ch2 & w2 & Hd & He2 & Hv2) end.
  eexists e2, ch2, w2. split; [exact Hd|]. split; [done|]. cbn [concat]. by rewrite Hv2, Hv, omap_app, foldl_app.
Qed.
End Replica.
