(* ===== verification/SyncProps.v ===== *)
(** * Properties of replication

    Ingest is last-writer-wins, replicas converge whatever the order, batching and
    repetition of delivery, frames come back as they were sent, and encrypted
    collections go only to peers that announce the same key.  The corner cases show
    where the hypotheses are needed. *)

From stdpp Require Import prelude list gmap strings.
From Stdlib Require Import ZArith Lia.
From S2P Require Import Prelude RustStd Error Config Crypto VFile Value Doc DocFacts Wal WalFacts PageCache StorageIndex StorageIndexFacts Segment Blob.
From S2P Require Import Storage StorageMaint StorageFacts StorageView StorageModels Worker SyncCore SyncFacts.

Local Open Scope Z_scope.
Local Open Scope hako_scope.

Section Props.
Context `{CrcLaws} `{ZstdLaws} `{HashIterLaws} {cipher : Type} `{AeadLaws cipher}.
Implicit Types (e : StorageEngine cipher).

(** A replicated batch with at most one operation per key always succeeds on a
    replica that is in order, leaves it in order, and changes its versions by the
    last-writer-wins rule: an operation is applied exactly when its time is later
    than the key's, deletions included.  The echo cache receives the accepted
    operations, the clock mark observes their times, and their keys are the ones
    whose cached documents are dropped and whose watchers are told. *)
Theorem ingest_is_lww now micros th c ops ch w e :
  replica_ok e → (blob_manager e = None ∨ Forall (small_op th) ops) → NoDup (omap change_of ops).*1 →
  let acc := List.filter (supersedes (versions e)) (omap change_of ops) in
  ∃ e' eff, apply_replicated_batch false now micros th c ops ch w e =
      (e', Ok (foldl (λ m c, <[c.1 := c.2.1]> m) ch acc, foldl (λ w c, observe_remote_ts micros w c.2.1) w acc, eff)) ∧
    replica_ok e' ∧ versions e' = foldl lww (versions e) (omap change_of ops) ∧
    bumped eff = acc.*1 ∧ events eff = (λ c, (c.1, bool_decide (is_Some c.2.2))) <$> acc.
Proof.
  intros He Hs Hnd. destruct (apply_replicated_spec now micros th c ops ch w e He Hs Hnd) as (e' & eff & E & Hok & Hv & Hb & Hev & _).
  by exists e', eff.
Qed.

(** C27: Replicas converge: two replicas with the same versions that receive the same
    operations, each in its own order, split into batches in its own way, with
    repetitions, end with the same versions and so with the same documents, if
    operations with equal key and time are equal ([ties_diverge]), no batch has two
    operations on one key (they are compared with the index as it was before the
    batch, [batch_older_wins]), and no field is above the blob threshold of a replica
    with side storage.  Delivery never fails. *)
Theorem replicas_converge now1 now2 micros1 micros2 th c batches1 batches2 ch1 ch2 w1 w2 e1 e2 :
  replica_ok e1 → replica_ok e2 → versions e1 = versions e2 →
  Forall (λ ops, (blob_manager e1 = None ∨ Forall (small_op th) ops) ∧ NoDup (omap change_of ops).*1) batches1 →
  Forall (λ ops, (blob_manager e2 = None ∨ Forall (small_op th) ops) ∧ NoDup (omap change_of ops).*1) batches2 →
  (∀ op, op ∈ concat batches1 ↔ op ∈ concat batches2) → consistent (omap change_of (concat batches1)) →
  ∃ e1' e2' r1 r2,
    deliver now1 micros1 th c batches1 ch1 w1 e1 = (e1', Ok r1) ∧ deliver now2 micros2 th c batches2 ch2 w2 e2 = (e2', Ok r2) ∧
    versions e1' = versions e2' ∧ store_view e1' = store_view e2'.
Proof.
  intros He1 He2 Hv Hb1 Hb2 Hset Hcons.
  destruct (deliver_spec now1 micros1 th c batches1 ch1 w1 e1 He1 Hb1) as (e1' & c1 & m1 & D1 & _ & V1).
  destruct (deliver_spec now2 micros2 th c batches2 ch2 w2 e2 He2 Hb2) as (e2' & c2 & m2 & D2 & _ & V2).
  exists e1', e2', (c1, m1), (c2, m2). assert (versions e1' = versions e2') as Heq.
  { rewrite V1, V2, Hv. apply lww_set; [|done]. intros x. rewrite !list_elem_of_omap. by setoid_rewrite Hset. }
  split_and!; [done..|]. apply map_eq. intros k. by rewrite !versions_view, Heq.
Qed.
End Props.

(** ** Frames *)

Lemma get_range_prefix (m post : bytes) j : j = zlen m → get_range (m ++ post) 0 j = Some m.
Proof. intros ->. by apply (get_range_mid [] m post). Qed.

Lemma recv_frame_app data rest :
  data ≠ [] → zlen data <= MAX_FRAME → recv_frame (to_le 4 (as_u32 (zlen data)) ++ data ++ rest) = Some (data, rest).
Proof.
  intros Hne Hle. assert (0 < zlen data) as Hpos by (destruct data; [done|rewrite zlen_cons; pose proof (zlen_nonneg data); lia]).
  unfold MAX_FRAME in *. unfold recv_frame, as_u32. rewrite Z.mod_small by lia.
  rewrite get_range_prefix by zlen. opt_simpl.
  rewrite of_le_to_le_u32 by (unfold is_u32; lia). split_if; [unfold MAX_FRAME in *; lia|].
  rewrite (get_range_mid (to_le 4 (zlen data)) data rest 4 (4 + zlen data)) by zlen. opt_simpl. do 2 f_equal.
  rewrite app_assoc. apply drop_app_length'. rewrite length_app. unfold zlen. rewrite Z2Nat.inj_add, Nat2Z.id by lia.
  f_equal.
Qed.

(** Sending frames one after another, and receiving until the stream is empty. *)
Definition send_all (frames : list bytes) : option bytes :=
  foldl (λ s d, s ← s; send_frame s d) (Some []) frames.
Fixpoint recv_all (n : nat) (stream : bytes) : option (list bytes * bytes) :=
  match n with
  | O => Some ([], stream)
  | S n => '(data, rest) ← recv_frame stream; '(ds, rest) ← recv_all n rest; Some (data :: ds, rest)
  end.

Lemma recv_all_sent frames rest : ∀ s, foldl (λ s d, s ← s; send_frame s d) (Some []) frames = Some s →
  recv_all (length frames) (s ++ rest) = Some (frames, rest).
Proof.
  revert rest; induction frames as [|d frames IH] using rev_ind; intros rest s Hs; [by injection Hs as <-|].
  rewrite foldl_app in Hs. cbn [foldl] in Hs. destruct (foldl _ (Some []) frames) as [s0|] eqn:E; [|done]. opt_simpl in Hs.
  unfold send_frame, frame_bytes in Hs. split_if in Hs; [done|]. opt_simpl in Hs. apply (inj Some) in Hs. subst s.
  assert (∀ n s1 ds r, recv_all n s1 = Some (ds, r) → recv_all (n + 1) s1 = '(d, r') ← recv_frame r; Some (ds ++ [d], r')) as Hsnoc.
  { clear. intros n; induction n as [|n IH]; intros s1 ds r; cbn [recv_all Nat.add].
    - intros [= <- <-]. by destruct (recv_frame s1) as [[]|].
    - destruct (recv_frame s1) as [[d0 r0]|]; [|done]. opt_simpl. destruct (recv_all n r0) as [[ds0 r1]|] eqn:Er; [|done].
      opt_simpl. intros [= <- <-]. rewrite (IH _ _ _ Er). by destruct (recv_frame r1) as [[]|]. }
  rewrite length_app. cbn [length]. rewrite <-!app_assoc. rewrite (Hsnoc _ _ _ _ (IH _ _ eq_refl)).
  rewrite recv_frame_app by (unfold MAX_FRAME in *; (done || lia)). done.
Qed.

(** Frames sent one after another are received one by one, unchanged and in
    order, whatever follows them on the stream; empty frames and frames above
    256 MiB are refused by the sender, and length prefixes that announce them by the
    receiver. *)
Theorem frames_roundtrip :
  (∀ frames, Forall (λ d : bytes, d ≠ [] ∧ zlen d <= MAX_FRAME) frames →
     ∃ s, send_all frames = Some s ∧ ∀ rest, recv_all (length frames) (s ++ rest) = Some (frames, rest)) ∧
  (∀ s d, d = [] ∨ MAX_FRAME < zlen d → send_frame s d = None) ∧
  (∀ n rest, n = 0 ∨ MAX_FRAME < n < 2 ^ 32 → recv_frame (to_le 4 n ++ rest) = None).
Proof.
  split_and!.
  - intros frames Hf. assert (is_Some (send_all frames)) as [s Hs].
    { unfold send_all. induction frames as [|d frames IH] using rev_ind; [by eexists|].
      apply Forall_app in Hf as [Hf [[Hne Hle] _]%Forall_cons]. destruct (IH Hf) as [s Hs].
      rewrite foldl_app. cbn [foldl]. rewrite Hs. opt_simpl. unfold send_frame, frame_bytes.
      rewrite bool_decide_eq_false_2 by done. rewrite (proj2 (Z.ltb_ge _ _)) by done. by eexists. }
    exists s. split; [done|]. intros rest. by apply recv_all_sent.
  - intros s d Hd. unfold send_frame, frame_bytes. split_if as Hg; [done|]. destruct Hd as [->|Hd]; [done|].
    bool_simpl. lia.
  - intros n rest Hn. assert (is_u32 n) as Hu by (unfold is_u32; unfold MAX_FRAME in *; lia). unfold recv_frame.
    rewrite get_range_prefix by zlen. opt_simpl. rewrite of_le_to_le_u32 by done.
    split_if; [done|]. lia.
Qed.

(** ** Echo, clock, guards *)

(** A freshly ingested operation is kept from being sent back once, and only it: the
    entry is spent by the match, and an operation with another time is sent. *)
Lemma echo_once cache key ts ts' :
  let cache1 := <[key := ts]> cache in
  echo_take cache1 key ts = (base.delete key cache, true) ∧
  echo_take (base.delete key cache) key ts' = (base.delete key cache, false) ∧
  (ts' ≠ ts → echo_take cache1 key ts' = (cache1, false)).
Proof.
  unfold echo_take. rewrite lookup_insert_eq, lookup_delete_eq, Z.eqb_refl, delete_insert_eq. split_and!; [done|done|].
  intros Hne. by rewrite (proj2 (Z.eqb_neq _ _)) by congruence.
Qed.

(** The clock mark only rises, follows what it observed, and stays within a
    century of the clock unless it was beyond that already. *)
Lemma observe_bounds now w ts :
  let w' := observe_remote_ts now w ts in
  w <= w' ∧ (ts <= now + SKEW_CEILING_MICROS → ts <= w') ∧ (w' <= now + SKEW_CEILING_MICROS ∨ w' = w).
Proof. unfold observe_remote_ts. split_if; lia. Qed.

(** An encrypted collection is exchanged with a peer exactly when this node has a
    key and the peer announced the fingerprint of that key.  When the hash tells the
    two nodes' keys apart and gives neither zeros, a node with another key or with
    none is refused; so is a peer that announced nothing.  A collection kept in plain
    text is always exchanged. *)
Theorem guard_fails_closed (sha256 : bytes → bytes) (mine theirs : option bytes) (cols : list bytes) :
  (∀ s, mine = Some s ∨ theirs = Some s → sha256 s ≠ zero_fp) →
  (∀ s t, mine = Some s → theirs = Some t → sha256 s = sha256 t → s = t) →
  (∀ fp peer, caps_allow false fp peer = true) ∧
  (∀ peer, caps_allow true (local_fingerprint sha256 mine) peer = true ↔
     ∃ secret p, mine = Some secret ∧ secret ≠ [] ∧ peer = Some p ∧ key_fp p = sha256 secret) ∧
  (caps_allow true (local_fingerprint sha256 mine) (Some (mkCaps (local_fingerprint sha256 theirs) cols)) = true → mine = theirs).
Proof.
  intros Hnz Hinj. assert (∀ peer, caps_allow true (local_fingerprint sha256 mine) peer = true ↔
     ∃ secret p, mine = Some secret ∧ secret ≠ [] ∧ peer = Some p ∧ key_fp p = sha256 secret) as Hiff.
  { intros peer. unfold caps_allow, local_fingerprint, key_fingerprint. cbn [negb]. destruct mine as [secret|].
    - destruct (bool_decide_reflect (secret = [])) as [->|Hne]; cbn [negb].
      + rewrite bytes_eqb_refl. split; [done|]. intros (s & p & [= <-] & [] & _). done.
      + destruct (bytes_eqb (sha256 secret) zero_fp) eqn:Hz; [apply bytes_eqb_eq, Hnz in Hz; [done|by left]|].
        destruct peer as [p|]; [rewrite bytes_eqb_eq|]; split.
        * intros Hfp. by exists secret, p.
        * by intros (s & q & [= <-] & _ & [= <-] & Hfp).
        * done.
        * by intros (s & q & _ & _ & ? & _).
    - rewrite bytes_eqb_refl. split; [done|]. by intros (s & p & ? & _). }
  split_and!; [done|exact Hiff|]. intros (s & p & Hm & Hs & [= <-] & Hfp)%Hiff. cbn [key_fp] in Hfp.
  assert (sha256 s ≠ zero_fp) as Hz by (apply Hnz; by left).
  unfold local_fingerprint, key_fingerprint in Hfp. destruct theirs as [t|]; [|by symmetry in Hfp].
  destruct (bool_decide_reflect (t = [])) as [->|Ht]; cbn [negb] in Hfp; [by symmetry in Hfp|].
  rewrite Hm. f_equal. by apply Hinj.
Qed.

(** Warnings of a peer and collection are at least [WARN_THROTTLE] apart, and a new
    announcement lets the next one through. *)
Lemma warn_throttled m now later peer col c :
  (caps_warn m now peer col).2 = true → later - now < WARN_THROTTLE →
  let m1 := (caps_warn m now peer col).1 in
  (caps_warn m1 later peer col).2 = false ∧ (caps_warn (caps_set m1 peer c) later peer col).2 = true.
Proof.
  intros Hw Hl. assert (warned (caps_warn m now peer col).1 !! (peer, col) = Some now) as Hin.
  { unfold caps_warn in *. destruct (warned m !! (peer, col)) as [t|]; [destruct (now - t <? WARN_THROTTLE); [done|]|]; apply lookup_insert_eq. }
  split.
  - unfold caps_warn at 1. rewrite Hin. by rewrite (proj2 (Z.ltb_lt _ _)).
  - unfold caps_warn at 1, caps_set, forget_warnings. cbn [warned].
    rewrite (map_lookup_filter_None_2 _ _ (peer, col)); [done|]. right. intros t _. cbn. by intros [].
Qed.

(** ** Applications *)

Definition note (t n : Z) : HakoDoc := mkDoc [(b#("n"), Int n)] t.
Definition put_note (k : bytes) (t n : Z) : WalOp := PutInlined k (encode (note t n)).

Lemma demo_replica : replica_ok demo_engine.
Proof. split; [apply fresh_ok|]. by intros k p Hk. Qed.

Lemma demo_versions : versions demo_engine = ∅.
Proof. reflexivity. Qed.

(** Decides [small_op] by evaluation. *)
Lemma small_op_dec th op :
  match op_change op with Some (_, Some d, _) => forallb (λ kv, len_bytes kv.2 <=? th) (fields d) | _ => true end = true →
  small_op th op.
Proof.
  intros Hb k d t Hop. rewrite Hop in Hb. apply Forall_forall. intros kv Hin.
  apply forallb_forall with (x := kv) in Hb; [by apply Z.leb_le|by apply list_elem_of_In].
Qed.
Ltac small_ops := right; repeat first [apply Forall_nil_2 | apply Forall_cons_2; [apply small_op_dec; vm_compute; reflexivity|]].
Ltac keys_differ := apply (bool_decide_unpack _); vm_compute; exact I.
Ltac batches_ok := repeat first [apply Forall_nil_2 | apply Forall_cons_2; [split; [small_ops|keys_differ]|]].

Definition batch_a : list WalOp := [put_note b#("x") 10 1; put_note b#("y") 11 2; Delete b#("z") 5].
Definition batch_b : list WalOp := [Delete b#("x") 12].

Lemma ingest_is_lww_witness :
  versions (apply_replicated_batch false 0 0 1000 b#("notes") batch_a ∅ 0 demo_engine).1 !! b#("x") =
    Some (10, Some (encode (note 10 1))).
Proof.
  destruct (ingest_is_lww 0 0 1000 b#("notes") batch_a ∅ 0 demo_engine demo_replica) as (e' & eff & E & _ & Hv & _).
  - small_ops.
  - keys_differ.
  - rewrite E. cbn [fst]. rewrite Hv, demo_versions. vm_compute. reflexivity.
Defined.

(** One replica receives the batches in order, the other the later one first and
    twice, and the first operation by operation. *)
Lemma replicas_converge_witness :
  ∃ e1 e2 r1 r2,
    deliver 0 0 1000 b#("notes") [batch_a; batch_b] ∅ 0 demo_engine = (e1, Ok r1) ∧
    deliver 7 7 1000 b#("notes") [batch_b; [put_note b#("y") 11 2]; [Delete b#("z") 5]; batch_b; [put_note b#("x") 10 1]] ∅ 0 demo_engine =
      (e2, Ok r2) ∧
    store_view e1 = store_view e2.
Proof.
  destruct (replicas_converge 0 7 0 7 1000 b#("notes") [batch_a; batch_b]
    [batch_b; [put_note b#("y") 11 2]; [Delete b#("z") 5]; batch_b; [put_note b#("x") 10 1]] ∅ ∅ 0 0 demo_engine demo_engine
    demo_replica demo_replica eq_refl) as (e1 & e2 & r1 & r2 & D1 & D2 & _ & V).
  - batches_ok.
  - batches_ok.
  - intros op. unfold batch_a, batch_b. cbn [concat app]. rewrite !elem_of_cons. tauto.
  - intros k v w Hv Hw. revert Hv Hw. unfold batch_a, batch_b. vm_compute omap. rewrite !elem_of_cons, !elem_of_nil.
    intros [[= -> ->]|[[= -> ->]|[[= -> ->]|[[= -> ->]|[]]]]] [[= ->]|[[= ->]|[[= ->]|[[= ->]|[]]]]]; done.
  - exists e1, e2, r1, r2. exact (conj D1 (conj D2 V)).
Defined.

Lemma frames_roundtrip_witness :
  ∃ s, send_all [[1; 2]; [3]] = Some s ∧ recv_all 2 (s ++ [9]) = Some ([[1; 2]; [3]], [9]).
Proof.
  destruct frames_roundtrip as [Hr _]. destruct (Hr [[1; 2]; [3]]) as (s & Hs & Hrecv).
  - repeat constructor; try congruence; vm_compute; congruence.
  - exists s. exact (conj Hs (Hrecv [9])).
Defined.

Lemma guard_fails_closed_witness :
  caps_allow true (local_fingerprint id (Some (b#("k1")))) (Some (mkCaps (local_fingerprint id (Some (b#("k2")))) [])) = false.
Proof.
  destruct (caps_allow true (local_fingerprint id (Some (b#("k1")))) (Some (mkCaps (local_fingerprint id (Some (b#("k2")))) []))) eqn:E;
    [exfalso|reflexivity].
  apply (guard_fails_closed id (Some (b#("k1"))) (Some (b#("k2"))) []) in E; [discriminate E| |].
  - intros s [[= <-]|[= <-]]; vm_compute; congruence.
  - intros s t [= <-] [= <-] Hst. exact Hst.
Defined.

(** ** Corner cases *)

(** The operations of a batch are compared with the index before the batch, so of two
    operations on one key the one that comes last wins, also when it is the older. *)
Lemma batch_older_wins :
  versions (apply_replicated_batch false 0 0 1000 b#("c") [put_note b#("x") 20 2; put_note b#("x") 10 1] ∅ 0 demo_engine).1 !! b#("x") =
    Some (10, Some (encode (note 10 1))) ∧
  foldl lww ∅ (omap change_of [put_note b#("x") 20 2; put_note b#("x") 10 1]) !! b#("x") = Some (20, Some (encode (note 20 2))).
Proof. split; vm_compute; reflexivity. Qed.

(** Two deletions of a key in one batch both get the time of the first, which can
    lie before a write that the second should outlast. *)
Lemma delete_takes_first_time :
  let e := (apply_replicated_batch false 0 0 1000 b#("c") [Delete b#("x") 10; Delete b#("x") 30] ∅ 0 demo_engine).1 in
  versions e !! b#("x") = Some (10, None) ∧
  versions (apply_replicated_batch false 0 0 1000 b#("c") [put_note b#("x") 20 2] ∅ 0 e).1 !! b#("x") = Some (20, Some (encode (note 20 2))).
Proof. split; vm_compute; reflexivity. Qed.

(** Different writes with the same time never converge: each replica keeps the one it
    saw first. *)
Lemma ties_diverge :
  versions (deliver 0 0 1000 b#("c") [[put_note b#("x") 10 1]; [put_note b#("x") 10 2]] ∅ 0 demo_engine).1 !! b#("x") =
    Some (10, Some (encode (note 10 1))) ∧
  versions (deliver 0 0 1000 b#("c") [[put_note b#("x") 10 2]; [put_note b#("x") 10 1]] ∅ 0 demo_engine).1 !! b#("x") =
    Some (10, Some (encode (note 10 2))).
Proof. split; vm_compute; reflexivity. Qed.

(** A document whose id has a colon is handed to the indexer under the part after
    it, and deletions are not handed to the indexer at all. *)
Lemma indexer_misled :
  match (apply_replicated_batch false 0 0 1000 b#("c") [put_note b#("a:b") 10 1; Delete b#("y") 11] ∅ 0 demo_engine).2 with
  | Ok (_, eff) => (to_index eff).*1 = [b#("b")] ∧ events eff = [(b#("a:b"), true); (b#("y"), false)]
  | _ => False
  end.
Proof. vm_compute. split; reflexivity. Qed.

(** Sending a document whose large field is queued or stored inflates it, with the
    bytes read from the queue first. *)
Lemma send_inflates :
  let e := e_with_blobs (Some (mkBlob [] 4)) [BPutRaw b#("c") b#("x") [] 0 (b#("long")) 10 4] demo_engine in
  match (resolve_send_bytes (PutInlined b#("x") (encode (mkDoc [(b#("v"), BlobLink 0 4)] 10))) e).2 with
  | Ok (Some b) => decode b = Some (mkDoc [(b#("v"), String (b#("long")))] 10)
  | _ => False
  end.
Proof. vm_compute. reflexivity. Qed.
