(* ===== verification/Facade.v ===== *)
(** * The database facade (src/engine/engine.rs, engine/softdel.rs)

    [Hako]: the open collections, document versions, the hybrid clock, security
    rules, schemas, unique claims and the document cache around them; the write path
    from a batch of mutations to logs, indexes, versions, caches, index queue and
    watchers; point reads; serializable transactions; soft deletion and restore.
    An operation is one step on the whole facade: it is sequential where the code
    takes one lock after another.  [doc_versions] is one map where the code spreads
    it over 32 buckets. *)

From stdpp Require Import prelude list gmap strings.
From Stdlib Require Import ZArith Lia.
From S2P Require Import Prelude RustStd Error Config Crypto VFile Value Doc DocAccess Wal PageCache StorageIndex Segment Blob Storage StorageMaint.
From S2P Require Import Filter Schema Composite Ledger CompositeManager SyncCore.

Local Open Scope Z_scope.
Local Open Scope hako_scope.

(** ** Data *)

Inductive BatchMutation :=
| MutPut (collection doc_id : bytes) (doc : HakoDoc)
| MutDelete (collection doc_id : bytes)
| MutSoftDelete (collection doc_id : bytes)
| MutPatch (collection doc_id : bytes) (updates : list (bytes * Value)).

Inductive ChangeKind := ChPut | ChDelete.
Record ChangeEvent := mkEvent { path : bytes; ev_kind : ChangeKind }.

Inductive AccessOp := AGet | APut | ADelete | AQuery | ABatch.
#[export] Instance AccessOp_eq_dec : EqDecision AccessOp.
Proof. solve_decision. Defined.

Record SecurityRule := mkRule { collection_prefix : bytes; rule_op : AccessOp; allow : bool }.
Record AuditEntry := mkAudit { au_op : AccessOp; au_collection : bytes; au_doc_id : option bytes; au_ok : bool }.

Record IndexOp := mkIndexOp {
  io_collection : bytes;
  io_puts : list (bytes * HakoDoc);
  io_deletes : list (bytes * HakoDoc) }.

(** What a batch does to one collection. *)
Record ShardWork := mkWork {
  w_ops : list WalOp;
  w_keys : list bytes;
  w_deleted : gset bytes;
  w_events : list (bytes * ChangeEvent);
  w_index_puts : list (bytes * HakoDoc);
  w_blobs : list BlobWork }.
Definition empty_work : ShardWork := mkWork [] [] ∅ [] [] [].

(** The definitions of a unique index, by its number. *)
Record GateDef := mkGate { gate_id : Z; gate_def : CompositeIndexDefinition }.

Definition SOFTDEL_COLLECTION : bytes := b#("__hako_softdel").

(** ** State *)

Section Facade.
Context `{Crc} `{Zstd} `{HashIter} {cipher : Type} `{Aead cipher}.
(** Key derivation of the cipher crate, and the Unicode lower-case mapping. *)
Context (from_secret : bytes → EncryptionContext cipher) (to_lowercase : bytes → bytes).
Abbreviation StorageEngine := (@StorageEngine cipher).

Record Hako := mkHako {
  config : HakoConfig;
  shards : gmap bytes StorageEngine;
  disk : gmap bytes Dir;
  global_version : Z;
  doc_versions : gmap bytes Z;
  last_ts_watermark : Z;
  id_sequence : Z;
  security_rules : list SecurityRule;
  security_enabled : bool;
  read_only : bool;
  schemas : gmap bytes CollectionSchema;
  schema_enabled : bool;
  unique_ledger : UniqueLedger;
  composite : CompositeIndexManager;
  gate_cache : gmap bytes (list GateDef);
  doc_cache : gmap bytes (Z * HakoDoc);
  index_touched : gset bytes;
  index_queue : list IndexOp;
  notified : list (bytes * ChangeEvent);
  audit_data : list AuditEntry }.

Definition h_with_shards (s : gmap bytes StorageEngine) (d : gmap bytes Dir) (h : Hako) : Hako :=
  mkHako (config h) s d (global_version h) (doc_versions h) (last_ts_watermark h) (id_sequence h) (security_rules h)
    (security_enabled h) (read_only h) (schemas h) (schema_enabled h) (unique_ledger h) (composite h) (gate_cache h)
    (doc_cache h) (index_touched h) (index_queue h) (notified h) (audit_data h).
Definition h_with_versions (g : Z) (v : gmap bytes Z) (h : Hako) : Hako :=
  mkHako (config h) (shards h) (disk h) g v (last_ts_watermark h) (id_sequence h) (security_rules h)
    (security_enabled h) (read_only h) (schemas h) (schema_enabled h) (unique_ledger h) (composite h) (gate_cache h)
    (doc_cache h) (index_touched h) (index_queue h) (notified h) (audit_data h).
Definition h_with_clock (w s : Z) (h : Hako) : Hako :=
  mkHako (config h) (shards h) (disk h) (global_version h) (doc_versions h) w s (security_rules h)
    (security_enabled h) (read_only h) (schemas h) (schema_enabled h) (unique_ledger h) (composite h) (gate_cache h)
    (doc_cache h) (index_touched h) (index_queue h) (notified h) (audit_data h).
Definition h_with_rules (r : list SecurityRule) (en ro : bool) (h : Hako) : Hako :=
  mkHako (config h) (shards h) (disk h) (global_version h) (doc_versions h) (last_ts_watermark h) (id_sequence h) r
    en ro (schemas h) (schema_enabled h) (unique_ledger h) (composite h) (gate_cache h)
    (doc_cache h) (index_touched h) (index_queue h) (notified h) (audit_data h).
Definition h_with_schemas (s : gmap bytes CollectionSchema) (en : bool) (h : Hako) : Hako :=
  mkHako (config h) (shards h) (disk h) (global_version h) (doc_versions h) (last_ts_watermark h) (id_sequence h) (security_rules h)
    (security_enabled h) (read_only h) s en (unique_ledger h) (composite h) (gate_cache h)
    (doc_cache h) (index_touched h) (index_queue h) (notified h) (audit_data h).
Definition h_with_gate (l : UniqueLedger) (g : gmap bytes (list GateDef)) (h : Hako) : Hako :=
  mkHako (config h) (shards h) (disk h) (global_version h) (doc_versions h) (last_ts_watermark h) (id_sequence h) (security_rules h)
    (security_enabled h) (read_only h) (schemas h) (schema_enabled h) l (composite h) g
    (doc_cache h) (index_touched h) (index_queue h) (notified h) (audit_data h).
Definition h_with_cache (c : gmap bytes (Z * HakoDoc)) (h : Hako) : Hako :=
  mkHako (config h) (shards h) (disk h) (global_version h) (doc_versions h) (last_ts_watermark h) (id_sequence h) (security_rules h)
    (security_enabled h) (read_only h) (schemas h) (schema_enabled h) (unique_ledger h) (composite h) (gate_cache h)
    c (index_touched h) (index_queue h) (notified h) (audit_data h).
Definition h_with_outputs (t : gset bytes) (q : list IndexOp) (n : list (bytes * ChangeEvent)) (a : list AuditEntry) (h : Hako) : Hako :=
  mkHako (config h) (shards h) (disk h) (global_version h) (doc_versions h) (last_ts_watermark h) (id_sequence h) (security_rules h)
    (security_enabled h) (read_only h) (schemas h) (schema_enabled h) (unique_ledger h) (composite h) (gate_cache h)
    (doc_cache h) t q n a.

Abbreviation HM := (SR Hako).

(** [record_audit], [deny]. *)
Definition record_audit (a : AuditEntry) (h : Hako) : Hako :=
  if enable_audit_log (config h)
  then h_with_outputs (index_touched h) (index_queue h) (notified h) (audit_data h ++ [a]) h else h.
Definition deny {A} (op : AccessOp) (c : bytes) (doc_id : option bytes) : HM A := λ h,
  (record_audit (mkAudit op c doc_id false) h, Err (Corrupt "Denied")).

(** [set_security_rules], [set_read_only], [allowed]: the last rule that applies
    decides. *)
Definition set_security_rules (rules : list SecurityRule) (h : Hako) : Hako :=
  h_with_rules rules (negb (bool_decide (rules = []))) (read_only h) h.
Definition set_read_only (ro : bool) (h : Hako) : Hako := h_with_rules (security_rules h) (security_enabled h) ro h.
Definition allowed (h : Hako) (col : bytes) (op : AccessOp) : bool :=
  if negb (security_enabled h) then true
  else match security_rules h with
       | [] => true
       | rules => default true (allow <$> last (List.filter (λ r, bool_decide (op = rule_op r) && starts_with col (collection_prefix r)) rules))
       end.

(** [get_encryption_for_col]. *)
Definition get_encryption_for_col (cfg : HakoConfig) (c : bytes) : option (EncryptionContext cipher) :=
  key ← encryption_key cfg;
  if match encrypted_cols cfg with None | Some [] => true | Some cols => bool_decide (c ∈ cols) end
  then Some (from_secret key) else None.

(** ** Collections *)

(** [try_get_shard], [get_shard] with [open_shard_new]: a collection that is not
    loaded is opened from its directory, which is created if needed.  The index
    backfill of lazy collections is not part of this state. *)
Definition get_shard (now : Z) (c : bytes) : HM StorageEngine := λ h,
  match shards h !! c with
  | Some e => (h, Ok e)
  | None =>
      match engine_open (default (mkDir [] [] []) (disk h !! c)) (config h) c (get_encryption_for_col (config h) c) now with
      | Ok e => (h_with_shards (<[c := e]> (shards h)) (base.delete c (disk h)) h, Ok e)
      | Err x => (h, Err x)
      | Panic => (h, Panic)
      end
  end.
(** [try_get_shard_on_disk]: reads never create a collection. *)
Definition try_get_shard_on_disk (now : Z) (c : bytes) : HM (option StorageEngine) := λ h,
  match shards h !! c, disk h !! c with
  | None, None => (h, Ok None)
  | _, _ => (e ← get_shard now c; mret (Some e)) h
  end.
(** A computation on a loaded collection, under its lock. *)
Definition on_shard {A} (c : bytes) (f : SR StorageEngine A) : HM A := λ h,
  match shards h !! c with
  | Some e => let '(e, r) := f e in (h_with_shards (<[c := e]> (shards h)) (disk h) h, r)
  | None => (h, Panic)
  end.

(** ** Versions *)

Definition current_version (h : Hako) (key : bytes) : option Z := doc_versions h !! key.
Definition bump_versions_by_keys (keys : list bytes) (h : Hako) : Hako :=
  foldl (λ h key, h_with_versions (as_u64 (global_version h + 1)) (<[key := global_version h]> (doc_versions h)) h) h keys.
Definition clear_versions_by_keys (keys keep : gset bytes) (h : Hako) : Hako :=
  h_with_versions (global_version h) (base.filter (λ kv, ¬ (kv.1 ∈ keys ∧ kv.1 ∉ keep)) (doc_versions h)) h.

(** ** The document cache *)

Definition cache_key (c id : bytes) : bytes := c ++ [0] ++ id.
Definition probe_doc_cache (h : Hako) (c id : bytes) (ver : Z) : option HakoDoc :=
  '(v, d) ← doc_cache h !! cache_key c id; if v =? ver then Some d else None.
Definition cached_doc (h : Hako) (c id : bytes) : option HakoDoc := ver ← current_version h id; probe_doc_cache h c id ver.
Definition DOC_CACHE_CAP : Z := 8192.
Definition doc_cache_insert (key : bytes) (v : Z) (d : HakoDoc) (h : Hako) : Hako :=
  let cache := doc_cache h in
  let cache := if DOC_CACHE_CAP <=? Z.of_nat (size cache)
               then match hash_iter cache with (k, _) :: _ => base.delete k cache | [] => cache end else cache in
  h_with_cache (<[key := (v, d)]> cache) h.

(** ** Point reads *)

Definition resolve_in (c : bytes) (doc : HakoDoc) : HM HakoDoc := on_shard c (λ e, (e, resolve_doc e doc)).
Definition audit_get (c id : bytes) : HM unit := modify (record_audit (mkAudit AGet c (Some id) true)).

(** [get_arc], which [get] calls when its own probe of the cache misses; the cache
    entry is not always written when other threads use the cache ([free]). *)
Definition get_arc (now : Z) (free : bool) (c id : bytes) : HM (option HakoDoc) :=
  h ← get_st;
  if negb (allowed h c AGet) then deny AGet c (Some id)
  else match cached_doc h c id with
       | Some d => mret (Some d)
       | None =>
           shard ← try_get_shard_on_disk now c;
           match shard with
           | None => mret None
           | Some _ =>
               b ← on_shard c (engine_get id);
               _ ← audit_get c id;
               match b ≫= decode with
               | None => mret None
               | Some doc =>
                   doc ← resolve_in c doc;
                   _ ← modify (λ h', match current_version h id with
                                     | Some ver => if free then doc_cache_insert (cache_key c id) ver doc h' else h'
                                     | None => h'
                                     end);
                   mret (Some doc)
               end
           end
       end.
Definition hako_get (now : Z) (free : bool) (c id : bytes) : HM (option HakoDoc) :=
  h ← get_st;
  if negb (allowed h c AGet) then deny AGet c (Some id)
  else match cached_doc h c id with Some d => mret (Some d) | None => get_arc now free c id end.

(** [exists], [get_raw_bytes]. *)
Definition hako_exists (now : Z) (c id : bytes) : HM bool :=
  h ← get_st;
  if negb (allowed h c AGet) then deny AGet c (Some id)
  else
    shard ← try_get_shard_on_disk now c;
    match shard with
    | None => mret false
    | Some _ =>
        b ← on_shard c (engine_get id);
        _ ← audit_get c id;
        mret (bool_decide (is_Some (b ≫= view_new)))
    end.
Definition get_raw_bytes (now : Z) (c id : bytes) : HM (option bytes) :=
  shard ← try_get_shard_on_disk now c;
  match shard with None => mret None | Some _ => on_shard c (engine_get id) end.

(** [get_versioned]: document and version under one lock. *)
Definition get_versioned (now : Z) (c id : bytes) : HM (option (HakoDoc * Z)) :=
  h ← get_st;
  if negb (allowed h c AGet) then deny AGet c (Some id)
  else
    shard ← try_get_shard_on_disk now c;
    match shard with
    | None => mret None
    | Some _ =>
        b ← on_shard c (engine_get id);
        h ← get_st;
        mret ((λ doc, (doc, default 0 (current_version h id))) <$> (b ≫= decode))
    end.
(** [get_view]: this read does create the collection. *)
Definition get_view (now : Z) (c id : bytes) : HM (option HakoDocView) :=
  h ← get_st;
  if negb (allowed h c AGet) then deny AGet c (Some id)
  else
    _ ← get_shard now c;
    b ← on_shard c (engine_get id);
    _ ← audit_get c id;
    mret (b ≫= view_new).

(** ** Schemas *)

Definition set_schema (c : bytes) (s : CollectionSchema) : HM unit := λ h,
  match validate s with
  | Ok _ =>
      let m := if bool_decide (length (s_fields s) = 0%nat) then base.delete c (schemas h) else <[c := s]> (schemas h) in
      (h_with_schemas m (negb (bool_decide (m = ∅))) h, Ok tt)
  | Err e => (h, Err e)
  | Panic => (h, Panic)
  end.
Definition clear_schema (c : bytes) : HM unit := set_schema c (mkSchema []).
Definition apply_schema (h : Hako) (c : bytes) (doc : HakoDoc) : res HakoDoc :=
  if negb (schema_enabled h) then Ok doc
  else match schemas h !! c with
       | Some s => let '(doc, r) := apply s c doc in match r with Ok _ => Ok doc | Err e => Err e | Panic => Panic end
       | None => Ok doc
       end.

(** ** Preparing a batch *)

(** What the loop over the mutations keeps: the work per collection, the memo of
    unique definitions, the undo list of the rollback guard, the assigned ids. *)
Record Prep := mkPrep {
  shard_map : gmap bytes ShardWork;
  memo : gmap bytes (list GateDef);
  undo : list LedgerUndo;
  assigned_ids : list bytes }.
Definition no_prep : Prep := mkPrep ∅ ∅ [] [].
Abbreviation PM := (SR (Prep * Hako)).
Definition on_h {A} (f : HM A) : PM A := λ ph, let '(p, h) := ph in let '(h, r) := f h in ((p, h), r).
Definition get_h : PM Hako := λ ph, (ph, Ok ph.2).
Definition set_work (c : bytes) (f : ShardWork → ShardWork) : PM unit := λ ph,
  let '(p, h) := ph in
  ((mkPrep (<[c := f (default empty_work (shard_map p !! c))]> (shard_map p)) (memo p) (undo p) (assigned_ids p), h), Ok tt).
Definition push_id (id : bytes) : PM unit := λ ph,
  let '(p, h) := ph in ((mkPrep (shard_map p) (memo p) (undo p) (assigned_ids p ++ [id]), h), Ok tt).

(** [generate_sortable_id]: sixteen hexadecimal digits of the time, four of a
    16-bit counter. *)
Definition hex_digit (d : Z) : Z := if d <? 10 then 48 + d else 87 + d.
Fixpoint hex (n : nat) (t : Z) : bytes :=
  match n with O => [] | S n => hex n (t / 16) ++ [hex_digit (t mod 16)] end.
Definition generate_sortable_id (timestamp_nanos : Z) : HM bytes := λ h,
  (h_with_clock (last_ts_watermark h) (as_u16 (id_sequence h + 1)) h,
   Ok (hex 16 (as_u64 timestamp_nanos) ++ hex 4 (id_sequence h))).

(** The time stamp of a batch: later than everything stamped or accepted before. *)
Definition stamp (now_nanos : Z) : HM Z := λ h,
  let now_micros := now_nanos / 1000 in
  let now_micros := if now_micros <=? last_ts_watermark h then Z.min (last_ts_watermark h + 1) (2 ^ 63 - 1) else now_micros in
  (h_with_clock now_micros (id_sequence h) h, Ok now_micros).

(** [unique_gate_defs]: the batch memo, the cache, the registry. *)
Definition unique_defs (m : CompositeIndexManager) (c : bytes) : list GateDef :=
  (λ i, mkGate (d_id (ci_definition i)) (ci_definition i)) <$>
    List.filter (λ i, d_unique (ci_definition i)) (indexes_for_collection m c).
Definition unique_gate_defs (c : bytes) : PM (list GateDef) := λ ph,
  let '(p, h) := ph in
  match memo p !! c with
  | Some defs => ((p, h), Ok defs)
  | None =>
      let '(h, defs) := match gate_cache h !! c with
                        | Some defs => (h, defs)
                        | None => let defs := unique_defs (composite h) c in
                                  (h_with_gate (unique_ledger h) (<[c := defs]> (gate_cache h)) h, defs)
                        end in
      ((mkPrep (shard_map p) (<[c := defs]> (memo p)) (undo p) (assigned_ids p), h), Ok defs)
  end.

(** [unique_gate_admit]: one claim per index that the document is in; the errors of
    the ledger get the collection. *)
Definition gate_error (c : bytes) (index_id : Z) (e : HakoError) : HakoError :=
  match e with
  | UniqueViolation _ _ key => UniqueViolation c index_id key
  | IndexBackfilling _ index => IndexBackfilling c index
  | other => other
  end.
Definition on_ledger (f : UniqueLedger → list LedgerUndo → UniqueLedger * list LedgerUndo * res unit) : PM unit := λ ph,
  let '(p, h) := ph in
  let '(l, u, r) := f (unique_ledger h) (undo p) in
  ((mkPrep (shard_map p) (memo p) u (assigned_ids p), h_with_gate l (gate_cache h) h), r).
Definition admit_one (c doc_id : bytes) (doc : HakoDoc) (d : GateDef) : PM unit :=
  h ← get_h;
  if negb (is_ready (unique_ledger h) (gate_id d)) then fail (IndexBackfilling c (gate_id d))
  else if negb (filter_passes to_lowercase (gate_def d) doc_id doc) then mret tt
  else match document_values_of (gate_def d) doc_id doc with
       | None => mret tt
       | Some values =>
           on_ledger (λ l u,
             let '(l, u, r) := claim l (gate_id d) (encode_composite_prefix (gate_def d) values) doc_id u in
             (l, u, match r with Err e => Err (gate_error c (gate_id d) e) | r => r end))
       end.
Fixpoint each {S A} (f : A → SR S unit) (l : list A) : SR S unit :=
  match l with [] => mret tt | x :: l => _ ← f x; each f l end.
Definition unique_gate_admit (c doc_id : bytes) (doc : HakoDoc) : PM unit :=
  defs ← unique_gate_defs c; each (admit_one c doc_id doc) defs.
Definition unique_gate_release (c doc_id : bytes) : PM unit :=
  defs ← unique_gate_defs c;
  each (λ d, on_ledger (λ l u, let '(l, u) := release_doc l (gate_id d) doc_id u in (l, u, Ok tt))) defs.

(** [softdel.rs]: the record kept for a soft-deleted document. *)
Definition record_id (c id : bytes) : bytes := c ++ b#("/") ++ id.
Definition build_record (c id : bytes) (deleted_at scheduled_at : Z) (payload : bytes) : HakoDoc :=
  mkDoc (fields (doc_insert (doc_insert (doc_insert (doc_insert (doc_insert (mkDoc [] 0)
    b#("col") (String c)) b#("id") (String id)) b#("deleted_at") (Int deleted_at)) b#("scheduled_at") (Int scheduled_at))
    b#("payload") (Binary payload))) deleted_at.
Definition softdel_record (c id : bytes) (now_micros : Z) : HM (option (bytes * HakoDoc)) := λ h,
  if soft_delete_retention_secs (config h) =? 0 then (h, Ok None)
  else match shards h !! c with
       | None => (h, Ok None)
       | Some _ =>
           match on_shard c (engine_get id) h with
           | (h, Ok (Some payload)) =>
               let scheduled_at := now_micros + soft_delete_retention_secs (config h) * 1000000 in
               (h, Ok (Some (record_id c id, build_record c id now_micros scheduled_at payload)))
           | (h, Panic) => (h, Panic)
           | (h, _) => (h, Ok None)
           end
       end.

(** One put, one deletion, into the work of a collection. *)
Definition work_put (c id : bytes) (doc : HakoDoc) (blobs : list BlobWork) (w : ShardWork) : ShardWork :=
  mkWork (w_ops w ++ [PutInlined id (encode doc)]) (w_keys w ++ [id]) (w_deleted w ∖ {[id]})
    (w_events w ++ [(c, mkEvent id ChPut)]) (w_index_puts w ++ [(id, doc)]) (w_blobs w ++ blobs).
Definition work_delete (c id : bytes) (now_micros : Z) (w : ShardWork) : ShardWork :=
  mkWork (w_ops w ++ [Delete id now_micros]) (w_keys w ++ [id]) (w_deleted w ∪ {[id]})
    (w_events w ++ [(c, mkEvent id ChDelete)]) (w_index_puts w) (w_blobs w).

(** Collection, id, document, whether it deletes, whether softly. *)
Definition resolve_mutation (now : Z) (m : BatchMutation) : HM (bytes * bytes * HakoDoc * bool * bool) :=
  match m with
  | MutPut c id doc => mret (c, id, doc, false, false)
  | MutPatch c id updates =>
      _ ← get_shard now c;
      b ← on_shard c (engine_get id);
      let current := default (mkDoc [] 0) (b ≫= decode) in
      mret (c, id, foldl (λ d kv, doc_insert d kv.1 kv.2) current updates, false, false)
  | MutDelete c id => mret (c, id, mkDoc [] 0, true, false)
  | MutSoftDelete c id => mret (c, id, mkDoc [] 0, true, true)
  end.
Definition prepare_one (now now_nanos now_micros : Z) (m : BatchMutation) : PM unit :=
  '(c, id, doc, is_delete, is_soft) ← on_h (resolve_mutation now m);
  id ← (if bool_decide (id = []) then on_h (generate_sortable_id now_nanos) else mret id);
  _ ← push_id id;
  h ← get_h;
  doc ← (if (is_delete : bool) then mret doc else lift (apply_schema h c doc));
  _ ← (if (is_soft : bool) then
         r ← on_h (softdel_record c id now_micros);
         match r with
         | Some (rec_id, rec_doc) => set_work SOFTDEL_COLLECTION (work_put SOFTDEL_COLLECTION rec_id rec_doc [])
         | None => mret tt
         end
       else mret tt);
  if (is_delete : bool) then
    _ ← set_work c Datatypes.id;
    _ ← unique_gate_release c id;
    set_work c (work_delete c id now_micros)
  else
    let doc := mkDoc (fields doc) now_micros in
    _ ← set_work c Datatypes.id;
    _ ← on_h (get_shard now c);
    '(doc, blobs) ← on_h (on_shard c (extract_remote c id (value_blob_threshold_bytes (config h)) doc));
    _ ← unique_gate_admit c id doc;
    set_work c (work_put c id doc blobs).

(** ** Applying the work *)

(** The documents that deletions remove, for the indexer: cached or stored. *)
Definition deleted_doc (c key : bytes) : HM (list (bytes * HakoDoc)) := λ h,
  match cached_doc h c key with
  | Some d => (h, Ok [(key, d)])
  | None =>
      match shards h !! c ≫= (λ e, index (idx e) !! key) with
      | None => (h, Ok [])
      | Some ptr =>
          match on_shard c (read_pointer_internal ptr false) h with
          | (h, Panic) => (h, Panic)
          | (h, Ok (Some b)) => (h, Ok match decode b with Some d => [(key, d)] | None => [] end)
          | (h, _) => (h, Ok [])
          end
      end
  end.
Fixpoint index_deletes (c : bytes) (ops : list WalOp) : HM (list (bytes * HakoDoc)) :=
  match ops with
  | [] => mret []
  | Delete key _ :: ops => d ← deleted_doc c key; ds ← index_deletes c ops; mret (d ++ ds)
  | _ :: ops => index_deletes c ops
  end.

(** The pointers of a collection: all puts, each under the id of its document, then
    all deletions. *)
Definition put_updates (w : ShardWork) : list (bytes * option Pointer) :=
  zip_with (λ v (d : bytes * HakoDoc), (d.1, Some (PInlined v)))
    (omap (λ op, match op with PutInlined _ v => Some v | _ => None end) (w_ops w)) (w_index_puts w).
Definition delete_updates (w : ShardWork) : list (bytes * option Pointer) :=
  omap (λ op, match op with Delete k t => Some (k, Some (PDeleted t)) | _ => None end) (w_ops w).
Definition write_shard (now : Z) (w : ShardWork) : SR StorageEngine unit :=
  _ ← (match w_ops w with
       | [] => mret tt
       | ops =>
           e ← get_st;
           let tx_id := next_tx_id e in
           _ ← modify (e_with_tx (tx_id + 1));
           on_wal (λ c wal, append_batch_fast now c wal tx_id ops false)
       end);
  modify (λ e,
    let e := e_with_idx (update_batch (idx e) (put_updates w ++ delete_updates w)) e in
    e_with_blobs (blob_manager e) (blob_flush_queue e ++ w_blobs w) e).
Definition uncache (c : bytes) (keys : list bytes) (h : Hako) : Hako :=
  h_with_cache (foldl (λ m k, base.delete (cache_key c k) m) (doc_cache h) keys) h.
Definition deleted_keys (ops : list WalOp) : list bytes := omap (λ op, match op with Delete k _ => Some k | _ => None end) ops.

(** [enqueue_index_update], [notify_watchers]. *)
Definition enqueue_index_update (op : IndexOp) (h : Hako) : Hako :=
  match io_puts op, io_deletes op with
  | [], [] => h
  | _, _ => h_with_outputs (index_touched h) (index_queue h ++ [op]) (notified h) (audit_data h) h
  end.
Definition notify_watchers (evs : list (bytes * ChangeEvent)) (h : Hako) : Hako :=
  h_with_outputs (index_touched h) (index_queue h) (notified h ++ evs) (audit_data h) h.
Definition touch_index (c : bytes) (w : ShardWork) (h : Hako) : Hako :=
  match w_ops w with [] => h | _ => h_with_outputs (index_touched h ∪ {[c]}) (index_queue h) (notified h) (audit_data h) h end.

Definition apply_work (now : Z) (live : gset bytes) (cw : bytes * ShardWork) : HM unit :=
  let '(c, w) := cw in
  _ ← modify (touch_index c w);
  _ ← get_shard now c;
  deletes ← index_deletes c (w_ops w);
  _ ← on_shard c (write_shard now w);
  _ ← modify (bump_versions_by_keys (w_keys w));
  _ ← modify (clear_versions_by_keys (w_deleted w) live);
  _ ← modify (uncache c ((w_index_puts w).*1 ++ deleted_keys (w_ops w)));
  _ ← modify (enqueue_index_update (mkIndexOp c (w_index_puts w) deletes));
  modify (notify_watchers (w_events w)).

Definition live_keys (m : gmap bytes ShardWork) : gset bytes :=
  list_to_set (map_to_list m ≫= λ cw, List.filter (λ k, negb (bool_decide (k ∈ w_deleted cw.2))) (w_keys cw.2)).

(** [write_batch_internal]: the rollback guard undoes the claims on every early
    return. *)
Definition roll_back (u : list LedgerUndo) (h : Hako) : Hako := h_with_gate (rollback (unique_ledger h) u) (gate_cache h) h.
Definition write_batch_internal (now now_nanos : Z) (ms : list BatchMutation) : HM (list bytes) := λ h,
  let '(h, t) := stamp now_nanos h in
  match t with
  | Ok now_micros =>
      match each (prepare_one now now_nanos now_micros) ms (no_prep, h) with
      | ((p, h), Ok _) =>
          match each (apply_work now (live_keys (shard_map p))) (hash_iter (shard_map p)) h with
          | (h, Ok _) => (record_audit (mkAudit ABatch b#("<sharded>") None true) h, Ok (assigned_ids p))
          | (h, Err e) => (roll_back (undo p) h, Err e)
          | (h, Panic) => (roll_back (undo p) h, Panic)
          end
      | ((p, h), Err e) => (roll_back (undo p) h, Err e)
      | ((p, h), Panic) => (roll_back (undo p) h, Panic)
      end
  | Err e => (h, Err e)
  | Panic => (h, Panic)
  end.

(** ** Entry points *)

Definition get_col (m : BatchMutation) : bytes :=
  match m with MutPut c _ _ | MutDelete c _ | MutSoftDelete c _ | MutPatch c _ _ => c end.
Definition audit_batch (ok : bool) : Hako → Hako := record_audit (mkAudit ABatch b#("<sharded>") None ok).
Definition write_batch (now now_nanos : Z) (ms : list BatchMutation) : HM (list bytes) := λ h,
  if read_only h then (audit_batch false h, Err (Corrupt "ReadOnly"))
  else if negb (forallb (λ m, allowed h (get_col m) ABatch) ms) then (audit_batch false h, Err (Corrupt "Security Denied"))
  else let '(h, r) := write_batch_internal now now_nanos ms h in
       (audit_batch (match r with Ok _ => true | _ => false end) h, r).

Definition one_id (r : HM (list bytes)) : HM bytes := ids ← r; mret (default [] (head ids)).
Definition put_owned (now now_nanos : Z) (c id : bytes) (doc : HakoDoc) : HM bytes := one_id (write_batch now now_nanos [MutPut c id doc]).
Definition hako_delete (now now_nanos : Z) (c id : bytes) : HM bytes := one_id (write_batch now now_nanos [MutSoftDelete c id]).
Definition delete_force (now now_nanos : Z) (c id : bytes) : HM bytes := one_id (write_batch now now_nanos [MutDelete c id]).
Definition patch (now now_nanos : Z) (c id : bytes) (updates : list (bytes * Value)) : HM bytes := λ h,
  if negb (allowed h c APut) then deny APut c (Some id) h
  else let '(h, r) := write_batch now now_nanos [MutPatch c id updates] h in
       (record_audit (mkAudit APut c (Some id) (match r with Ok _ => true | _ => false end)) h,
        match r with Ok ids => Ok (default [] (head ids)) | Err e => Err e | Panic => Panic end).

(** ** Serializable transactions *)

Record SerializableTransaction := mkTx { reads : gmap bytes (option Z); mutations : list BatchMutation }.
Definition begin_tx : SerializableTransaction := mkTx ∅ [].

(** The first read of a key stays in the read set. *)
Definition note_read (key : bytes) (v : option Z) (t : SerializableTransaction) : SerializableTransaction :=
  match reads t !! key with Some _ => t | None => mkTx (<[key := v]> (reads t)) (mutations t) end.
Definition tx_get (now : Z) (t : SerializableTransaction) (c id : bytes) : HM (SerializableTransaction * option HakoDoc) :=
  r ← get_versioned now c id;
  mret match r with
       | Some (doc, v) => (note_read id (Some v) t, Some doc)
       | None => (note_read id None t, None)
       end.
Definition tx_push (t : SerializableTransaction) (m : BatchMutation) : SerializableTransaction := mkTx (reads t) (mutations t ++ [m]).
Definition tx_put (t : SerializableTransaction) (c id : bytes) (doc : HakoDoc) := tx_push t (MutPut c id doc).
Definition tx_delete (t : SerializableTransaction) (c id : bytes) := tx_push t (MutSoftDelete c id).
Definition tx_delete_force (t : SerializableTransaction) (c id : bytes) := tx_push t (MutDelete c id).
Definition tx_patch (now : Z) (t : SerializableTransaction) (c id : bytes) (updates : list (bytes * Value)) : HM SerializableTransaction :=
  '(t, _) ← tx_get now t c id; mret (tx_push t (MutPatch c id updates)).
Fixpoint tx_get_many (now : Z) (t : SerializableTransaction) (c : bytes) (ids : list bytes)
  : HM (SerializableTransaction * list (option HakoDoc)) :=
  match ids with
  | [] => mret (t, [])
  | id :: ids => '(t, d) ← tx_get now t c id; '(t, ds) ← tx_get_many now t c ids; mret (t, d :: ds)
  end.

(** [commit_serializable]: the read set is checked key by key in the map's order,
    then the batch is written.  The lock it holds keeps out other commits only: plain
    batches of other threads may come before every check and before the write, so
    [finds n] is the database as the commit finds it at its [n]-th look. *)
Fixpoint check_reads (finds : nat → Hako) (n : nat) (rs : list (bytes * option Z)) : Hako * res nat :=
  match rs with
  | [] => (finds n, Ok n)
  | (key, expected) :: rs =>
      if bool_decide (current_version (finds n) key = expected) then check_reads finds (S n) rs
      else (finds n, Err (Conflict key))
  end.
Definition commit_serializable (now now_nanos : Z) (finds : nat → Hako) (rs : gmap bytes (option Z)) (ms : list BatchMutation)
  : Hako * res (list bytes) :=
  match check_reads finds 0 (hash_iter rs) with
  | (h, Ok _) => write_batch_internal now now_nanos ms h
  | (h, Err e) => (h, Err e)
  | (h, Panic) => (h, Panic)
  end.
Definition tx_commit (now now_nanos : Z) (finds : nat → Hako) (t : SerializableTransaction) : Hako * res (list bytes) :=
  commit_serializable now now_nanos finds (reads t) (mutations t).

(** [transaction]: retries on retryable errors, with a fresh transaction each time.
    [finds i h] is what the commit of attempt [i] finds after the reads have left [h]. *)
Fixpoint transaction {A} (now now_nanos : Z) (body : SerializableTransaction → HM (SerializableTransaction * A))
    (finds : nat → Hako → nat → Hako) (attempts : nat) (h : Hako) : Hako * res A :=
  match body begin_tx h with
  | (h, Ok (t, out)) =>
      match tx_commit now now_nanos (finds attempts h) t with
      | (h, Ok _) => (h, Ok out)
      | (h, Err e) =>
          match attempts with
          | S attempts =>
              if is_retryable e && negb (bool_decide (attempts = 0%nat)) then transaction now now_nanos body finds attempts h
              else (h, Err e)
          | O => (h, Err e)
          end
      | (h, Panic) => (h, Panic)
      end
  | (h, Err e) => (h, Err e)
  | (h, Panic) => (h, Panic)
  end.

(** ** Restoring *)

Definition restore (now now_nanos now_nanos' : Z) (c id : bytes) : HM unit :=
  let key := record_id c id in
  r ← hako_get now true SOFTDEL_COLLECTION key;
  match r with
  | None => fail (InvalidInput "restore: no retention record")
  | Some rec =>
      match doc_get rec b#("payload") with
      | Some (Binary payload) =>
          match doc_get rec b#("deleted_at") with
          | Some (Int deleted_at) =>
              match decode payload with
              | None => fail (Corrupt "restore: payload undecodable")
              | Some doc =>
                  shard ← get_shard now c;
                  if match index (idx shard) !! id with Some (PDeleted t) => t =? deleted_at | _ => false end then
                    _ ← put_owned now now_nanos c id doc;
                    _ ← write_batch now now_nanos' [MutDelete SOFTDEL_COLLECTION key];
                    mret tt
                  else fail (InvalidInput "restore: doc is live or the tombstone moved (cancel rule)")
              end
          | _ => fail (Corrupt "restore: record has no stamp")
          end
      | _ => fail (Corrupt "restore: record has no payload")
      end
  end.
End Facade.
