(* ===== verification/FacadeFacts.v ===== *)
(** * Lemmas on the facade

    [view_of] is what a collection of the facade holds.  Preparing a batch changes
    no collection and no version ([calm]); applying its work updates each
    collection by its puts and deletions. *)

From stdpp Require Import prelude list gmap strings.
From Stdlib Require Import ZArith Lia.
From S2P Require Import Prelude RustStd Error Config Crypto VFile Value Doc DocFacts DocCodec DocAccess Wal WalFacts PageCache StorageIndex StorageIndexFacts.
From S2P Require Import Segment SegmentFacts Blob Storage StorageMaint StorageFacts StorageView StorageCompact StorageReopen StorageModels.
From S2P Require Import Filter Schema Composite CompositeFacts Ledger CompositeManager SyncCore SyncFacts Facade.

Local Open Scope Z_scope.
Local Open Scope hako_scope.

Section FacadeFacts.
Context `{CrcLaws} `{ZstdLaws} `{HashIterLaws} {cipher : Type} `{AeadLaws cipher}.
Context (from_secret : bytes → EncryptionContext cipher) (to_lowercase : bytes → bytes).
Abbreviation Hako := (Hako (cipher := cipher)).
Implicit Types (h : Hako) (e : StorageEngine cipher).

(** ** A new collection *)

Lemma open_fresh cfg name enc now :
  ∃ e, engine_open empty_dir cfg name enc now = Ok e ∧ store_ok e ∧ index (idx e) = ∅.
Proof.
  destruct (fresh_ok cfg name enc now) as (He & (Hw & _ & _) & _ & _ & Hv). unfold engine_open.
  set (e0 := open_engine empty_dir cfg name enc now) in *.
  destruct (recover_log e0 [] [] Hw) as (e1 & n & Hr & Hi & _ & Hidx & _); [done|]. rewrite Hr.
  assert (store_ok e1) as He1.
  { destruct He as (Hs & Hc & _ & _). unfold recover in Hr. destruct (replay (wal e0)) as [[w ops]| |]; [|done..].
    injection Hr as <- _. split_and!; [exact Hs|exact Hc| |exact Hi]. by rewrite Hidx. }
  split_if; [|by exists e1].
  pose proof (rewrite_snapshot_no_panic now e1) as Hnp.
  destruct (rewrite_wal_snapshot now e1) as [e2 r2] eqn:Hrw. apply rewrite_snapshot_frame in Hrw as (w2 & c2 & ->).
  destruct r2; [| |done]; eexists; (split; [done|]); split; try done.
Qed.

(** ** What a step leaves alone *)

Definition view_of h (c : bytes) : gmap bytes bytes := match shards h !! c with Some e => store_view e | None => ∅ end.
Definition index_of h (c : bytes) : gmap bytes Pointer := match shards h !! c with Some e => index (idx e) | None => ∅ end.
Definition shards_ok h : Prop := map_Forall (λ _ e, store_ok e) (shards h).
(** The collection is loaded or new: nothing of it is only on disk. *)
Definition settled h (c : bytes) : Prop := disk h !! c = None.

Definition outputs h := (global_version h, doc_versions h, doc_cache h, index_touched h, index_queue h, notified h).
Definition settings h := (config h, security_rules h, security_enabled h, read_only h, schemas h, schema_enabled h, composite h).

Record calm h h' : Prop := {
  calm_outputs : outputs h' = outputs h;
  calm_settings : settings h' = settings h;
  calm_clock : last_ts_watermark h' = last_ts_watermark h;
  calm_ok : shards_ok h → shards_ok h';
  calm_settled c : settled h c → settled h' c;
  calm_wal c e : shards h !! c = Some e → ∃ e', shards h' !! c = Some e' ∧ wal e' = wal e;
  calm_view c : settled h c → view_of h' c = view_of h c;
  calm_index c : settled h c → index_of h' c = index_of h c }.
#[local] Instance calm_refl : Reflexive calm.
Proof. split; try done. eauto. Qed.
#[local] Instance calm_trans : Transitive calm.
Proof.
  intros h1 h2 h3 A B. split.
  - by rewrite (calm_outputs _ _ B), (calm_outputs _ _ A).
  - by rewrite (calm_settings _ _ B), (calm_settings _ _ A).
  - by rewrite (calm_clock _ _ B), (calm_clock _ _ A).
  - intros Hs. by apply (calm_ok _ _ B), (calm_ok _ _ A).
  - intros c Hs. by apply (calm_settled _ _ B), (calm_settled _ _ A).
  - intros c e1 Hs. destruct (calm_wal _ _ A c e1 Hs) as (e2 & Hs2 & <-). destruct (calm_wal _ _ B c e2 Hs2) as (e3 & Hs3 & <-). by exists e3.
  - intros c Hs. rewrite (calm_view _ _ B) by (by apply (calm_settled _ _ A)). by apply (calm_view _ _ A).
  - intros c Hs. rewrite (calm_index _ _ B) by (by apply (calm_settled _ _ A)). by apply (calm_index _ _ A).
Qed.

(** A step that also leaves the unique claims alone. *)
Definition claims h := (unique_ledger h, gate_cache h).
Definition quiet h h' : Prop := calm h h' ∧ claims h' = claims h.
#[local] Instance quiet_refl : Reflexive quiet.
Proof. by split. Qed.
#[local] Instance quiet_trans : Transitive quiet.
Proof. intros h1 h2 h3 [A1 A2] [B1 B2]. split; [by transitivity h2|congruence]. Qed.

(** A change of one collection that keeps what it holds. *)
Lemma replace_shard_quiet h c e :
  settled h c → (shards_ok h → store_ok e) → (∀ e0, shards h !! c = Some e0 → wal e = wal e0) →
  store_view e = view_of h c → index (idx e) = index_of h c →
  quiet h (h_with_shards (<[c := e]> (shards h)) (base.delete c (disk h)) h).
Proof.
  intros Hs He Hw Hv Hi. split; [|done]. split; try done.
  - intros Hok. apply map_Forall_insert_2; [by apply He|done].
  - intros c' Hs'. unfold settled. cbn. rewrite lookup_delete_None. by right.
  - intros c' e0 Hc'. cbn. destruct (decide (c = c')) as [->|]; [rewrite lookup_insert_eq|rewrite lookup_insert_ne by done]; eauto.
  - intros c' _. unfold view_of at 1. cbn. destruct (decide (c = c')) as [->|]; [by rewrite lookup_insert_eq|].
    by rewrite lookup_insert_ne.
  - intros c' _. unfold index_of at 1. cbn. destruct (decide (c = c')) as [->|]; [by rewrite lookup_insert_eq|].
    by rewrite lookup_insert_ne.
Qed.

Lemma h_with_shards_same h c e : shards h !! c = Some e → settled h c →
  h_with_shards (<[c := e]> (shards h)) (disk h) h = h ∧ base.delete c (disk h) = disk h.
Proof. intros Hc Hs. destruct h. unfold h_with_shards. cbn in *. rewrite insert_id by done. split; [done|]. by apply delete_id. Qed.

Lemma get_shard_spec now c h :
  shards_ok h → settled h c →
  ∃ h' e, get_shard from_secret now c h = (h', Ok e) ∧ quiet h h' ∧ shards h' !! c = Some e.
Proof.
  intros Hok Hs. unfold get_shard. destruct (shards h !! c) as [e|] eqn:Hc; [by exists h, e|].
  unfold settled in Hs. rewrite Hs. cbn [default].
  destruct (open_fresh (config h) c (get_encryption_for_col from_secret (config h) c) now) as (e & Ho & He & Hi).
  unfold empty_dir in Ho. cbn [from_option Datatypes.id]. rewrite Ho. eexists _, e. split; [done|]. split.
  - apply replace_shard_quiet; [done|done|by rewrite Hc| |].
    + unfold store_view, view_of. by rewrite Hi, Hc, omap_empty.
    + unfold index_of. by rewrite Hi, Hc.
  - cbn. apply lookup_insert_eq.
Qed.

(** Running a computation that keeps the contents of a loaded collection. *)
Lemma on_shard_quiet {A} c (f : SR (StorageEngine cipher) A) e e' r h :
  settled h c → shards h !! c = Some e → f e = (e', r) →
  (store_ok e → store_ok e') → wal e' = wal e → store_view e' = store_view e → index (idx e') = index (idx e) →
  ∃ h', on_shard c f h = (h', r) ∧ quiet h h' ∧ shards h' !! c = Some e'.
Proof.
  intros Hs Hc Hf Hok Hw Hv Hi. unfold on_shard. rewrite Hc, Hf. eexists. split; [done|]. split; [|apply lookup_insert_eq].
  replace (disk h) with (base.delete c (disk h)) at 1 by (by apply delete_id).
  apply replace_shard_quiet; [done| |by rewrite Hc; intros e0 [= <-]|by unfold view_of; rewrite Hc|by unfold index_of; rewrite Hc].
  intros Hsh. apply Hok. by eapply (Hsh c).
Qed.

Lemma read_shard_spec c id h :
  shards_ok h → settled h c → is_Some (shards h !! c) →
  ∃ h', on_shard c (engine_get id) h = (h', Ok (view_of h c !! id)) ∧ quiet h h'.
Proof.
  intros Hok Hs [e He]. assert (store_ok e) as Heo by (by eapply (Hok c)).
  destruct (engine_get_value e id Heo) as (ch & Hg & Hc).
  destruct (on_shard_quiet c (engine_get id) e _ _ h Hs He Hg) as (h' & Ho & Hq & _); [done|done|done|done|].
  exists h'. split; [|done]. rewrite Ho. unfold view_of. by rewrite He.
Qed.

(** ** Claims during preparation *)

(** Document [d] holds tuple [p] of index [i]. *)
Definition holds (l : UniqueLedger) (i : Z) (p d : bytes) : Prop := ∃ c, inner l !! i = Some c ∧ fwd c !! p = Some d.

Lemma claim_holds l i p d u l' u' :
  ledger_ok l → claim l i p d u = (l', u', Ok tt) →
  holds l' i p d ∧ ∀ i' p' d', i' ≠ i ∨ d' ≠ d → holds l' i' p' d' ↔ holds l i' p' d'.
Proof.
  intros Hl Hc. assert (∃ c, inner l !! i = Some c) as [c Hi] by (unfold claim in Hc; destruct (inner l !! i); [eauto|done]).
  destruct (claim_cases _ _ _ _ _ _ _ _ _ Hl Hi Hc) as [(_ & _ & c' & Hi' & Hp & _ & Hoth)|(? & _ & _ & [=] & _)].
  split; [by exists c'|]. intros i' p' d' Hne. destruct (decide (i' = i)) as [->|Hii].
  - destruct Hne as [|Hd]; [done|]. unfold holds. rewrite Hi, Hi'.
    split; intros (c0 & [= <-] & Hf); eexists; (split; [done|]); by apply Hoth.
  - assert (inner l' !! i' = inner l !! i') as Hin; [|unfold holds; by rewrite Hin].
    unfold claim in Hc. rewrite Hi in Hc. destruct (fwd c !! p); [destruct (bytes_eqb _ _); by injection Hc as <- _|].
    destruct (by_doc c !! d); injection Hc as <- _; cbn; by rewrite lookup_insert_ne.
Qed.

Lemma release_holds l i d u l' u' :
  ledger_ok l → release_doc l i d u = (l', u') → ∀ i' p' d', i' ≠ i ∨ d' ≠ d → holds l' i' p' d' ↔ holds l i' p' d'.
Proof.
  intros Hl Hr i' p' d' Hne. unfold release_doc in Hr. destruct (inner l !! i) as [c|] eqn:Hi; [|by injection Hr as <- _].
  assert (∃ c', inner l' = <[i := c']> (inner l) ∧ (fwd c' = fwd c ∨ ∃ p, fwd c !! p = Some d ∧ fwd c' = base.delete p (fwd c))) as (c' & Hin & Hf).
  { destruct (by_doc c !! d) as [p|] eqn:Hd; injection Hr as <- _; eexists; (split; [done|]); cbn; [right|by left].
    exists p. split; [by apply (Hl _ _ Hi)|done]. }
  unfold holds. rewrite Hin. destruct (decide (i' = i)) as [->|Hii]; [|by rewrite lookup_insert_ne].
  destruct Hne as [|Hd]; [done|]. rewrite lookup_insert_eq, Hi. destruct Hf as [Hf|(p & Hp & Hf)].
  - split; intros (c0 & [= <-] & Hx); eexists; (split; [done|]); congruence.
  - split; intros (c0 & [= <-] & Hx); eexists; (split; [done|]); rewrite Hf in *.
    + by apply lookup_delete_Some in Hx as [_ Hx].
    + rewrite lookup_delete_ne; [done|]. intros ->. congruence.
Qed.

(** A step of the preparation: nothing but claims changes, and the undo list grows by
    what takes the claims back. *)
Definition prep_step (ph ph' : Prep * Hako) : Prop :=
  calm ph.2 ph'.2 ∧
  (ledger_ok (unique_ledger ph.2) → ledger_ok (unique_ledger ph'.2) ∧
     ∃ new, undo ph'.1 = undo ph.1 ++ new ∧ undoes (unique_ledger ph.2) (unique_ledger ph'.2) new).
#[local] Instance prep_step_refl : Reflexive prep_step.
Proof. intros ph. split; [done|]. intros Hl. split; [done|]. exists []. split; [by rewrite app_nil_r|done]. Qed.
#[local] Instance prep_step_trans : Transitive prep_step.
Proof.
  intros a b c [A1 A2] [B1 B2]. split; [by transitivity b.2|]. intros Hl. destruct (A2 Hl) as (Hl1 & n1 & U1 & D1).
  destruct (B2 Hl1) as (Hl2 & n2 & U2 & D2). split; [done|]. exists (n1 ++ n2). split; [by rewrite U2, U1, app_assoc|].
  by eapply undoes_trans.
Qed.

Lemma quiet_prep p h h' : quiet h h' → prep_step (p, h) (p, h').
Proof.
  intros [Hc Hl]. split; [done|]. injection Hl as Hl _. cbn. rewrite Hl. intros Hok. split; [done|].
  exists []. split; [by rewrite app_nil_r|done].
Qed.

Lemma hm_bind_ok {S A B} (m : SR S A) (f : A → SR S B) s s' a : m s = (s', Ok a) → (m ≫= f) s = f a s'.
Proof. intros E. unfold mbind, SR_bind. by rewrite E. Qed.
Lemma hm_bind_err {S A B} (m : SR S A) (f : A → SR S B) s s' x : m s = (s', Err x) → (m ≫= f) s = (s', Err x).
Proof. intros E. unfold mbind, SR_bind. by rewrite E. Qed.
Lemma on_h_eq {A} (f : SR Hako A) p h h' r : f h = (h', r) → on_h f (p, h) = ((p, h'), r).
Proof. intros E. unfold on_h. by rewrite E. Qed.

(** The definitions a batch sees: the memo and the cache repeat the registry. *)
Definition gates_ok (p : Prep) h : Prop :=
  ∀ c defs, memo p !! c = Some defs ∨ gate_cache h !! c = Some defs → defs = unique_defs (composite h) c.

Lemma gate_defs_spec c p h :
  gates_ok p h →
  ∃ p' h', unique_gate_defs c (p, h) = ((p', h'), Ok (unique_defs (composite h) c)) ∧ gates_ok p' h' ∧
    prep_step (p, h) (p', h') ∧ shard_map p' = shard_map p ∧ assigned_ids p' = assigned_ids p ∧
    unique_ledger h' = unique_ledger h ∧ shards h' = shards h ∧ undo p' = undo p.
Proof.
  intros Hg. unfold unique_gate_defs. destruct (memo p !! c) as [defs|] eqn:Hm.
  { rewrite (Hg c defs) by auto. exists p, h. split_and!; done. }
  assert (∀ g p0, memo p0 = <[c := unique_defs (composite h) c]> (memo p) →
    (g = gate_cache h ∨ g = <[c := unique_defs (composite h) c]> (gate_cache h)) → gates_ok p0 (h_with_gate (unique_ledger h) g h)) as Hok.
  { intros g p0 Hp Hgc c' defs. cbn. rewrite Hp. rewrite lookup_insert_Some. intros [[[<- <-]|[_ Hx]]|Hx]; [done|by apply Hg; left|].
    destruct Hgc as [->| ->]; [by apply Hg; right|]. apply lookup_insert_Some in Hx as [[<- <-]|[_ Hx]]; [done|by apply Hg; right]. }
  assert (∀ g p0, undo p0 = undo p → prep_step (p, h) (p0, h_with_gate (unique_ledger h) g h)) as Hst.
  { intros g p0 Hu. split; [split; try done; cbn; eauto|]. intros Hl. split; [done|]. exists []. rewrite app_nil_r. by split. }
  destruct (gate_cache h !! c) as [defs|] eqn:Hc.
  - rewrite (Hg c defs) by auto. assert (h = h_with_gate (unique_ledger h) (gate_cache h) h) as Hself by (by destruct h).
    eexists _, (h_with_gate (unique_ledger h) (gate_cache h) h). split; [by rewrite <-Hself|].
    split_and!; try done; [apply Hok; auto|by apply Hst].
  - eexists _, _. split; [done|]. split_and!; try done; [apply Hok; auto|by apply Hst].
Qed.

(** The document belongs to a unique index, with tuple [p]. *)
Definition obliges (d : GateDef) (id : bytes) (doc : HakoDoc) (p : bytes) : Prop :=
  filter_passes to_lowercase (gate_def d) id doc = true ∧
  ∃ vs, document_values_of (gate_def d) id doc = Some vs ∧ p = encode_composite_prefix (gate_def d) vs.

(** A step that touches only the claims and the undo list. *)
Definition gate_step (ph ph' : Prep * Hako) : Prop :=
  prep_step ph ph' ∧ shard_map ph'.1 = shard_map ph.1 ∧ assigned_ids ph'.1 = assigned_ids ph.1 ∧ memo ph'.1 = memo ph.1 ∧
  gate_cache ph'.2 = gate_cache ph.2 ∧ shards ph'.2 = shards ph.2.
#[local] Instance gate_step_refl : Reflexive gate_step.
Proof. by intros ph. Qed.
#[local] Instance gate_step_trans : Transitive gate_step.
Proof.
  intros a b c (A1 & A2 & A3 & A4 & A5 & A6) (B1 & B2 & B3 & B4 & B5 & B6).
  split; [by transitivity b|]. split_and!; congruence.
Qed.

Lemma gate_step_gates ph ph' : gate_step ph ph' → gates_ok ph.1 ph.2 → gates_ok ph'.1 ph'.2.
Proof.
  intros (Hs & _ & _ & Hm & Hg & _) Hok c defs. rewrite Hm, Hg. assert (composite ph'.2 = composite ph.2) as ->; [|by apply Hok].
  destruct Hs as [Hc _]. pose proof (calm_settings _ _ Hc) as E. by injection E as _ _ _ _ _ _ E.
Qed.

Lemma on_ledger_step f p h l u r :
  f (unique_ledger h) (undo p) = (l, u, r) →
  (ledger_ok (unique_ledger h) → ledger_ok l ∧ ∃ new, u = undo p ++ new ∧ undoes (unique_ledger h) l new) →
  ∃ p' h', on_ledger f (p, h) = ((p', h'), r) ∧ gate_step (p, h) (p', h') ∧ unique_ledger h' = l.
Proof.
  intros Hf Hl. unfold on_ledger. rewrite Hf. eexists _, _. split; [done|]. split; [|done].
  split; [|done]. split; [split; try done; eauto|]. exact Hl.
Qed.

Lemma admit_one_spec c id doc d p h :
  ∃ p' h' r, admit_one to_lowercase c id doc d (p, h) = ((p', h'), r) ∧ r ≠ Panic ∧ gate_step (p, h) (p', h') ∧
    (ledger_ok (unique_ledger h) → r = Ok tt →
       (∀ q, obliges d id doc q → holds (unique_ledger h') (gate_id d) q id) ∧
       ∀ i q d', i ≠ gate_id d ∨ d' ≠ id → holds (unique_ledger h') i q d' ↔ holds (unique_ledger h) i q d').
Proof.
  unfold admit_one. rewrite (hm_bind_ok _ _ (p, h) (p, h) h) by done.
  destruct (is_ready (unique_ledger h) (gate_id d)); cbn [negb].
  2: { exists p, h, (Err (IndexBackfilling c (gate_id d))). split_and!; done. }
  destruct (filter_passes to_lowercase (gate_def d) id doc) eqn:Hf; cbn [negb].
  2: { exists p, h, (Ok tt). split_and!; try done. intros _ _. split; [|done]. by intros q [Hf' _]; rewrite Hf in Hf'. }
  destruct (document_values_of (gate_def d) id doc) as [vs|] eqn:Hv.
  2: { exists p, h, (Ok tt). split_and!; try done. intros _ _. split; [|done]. by intros q (_ & vs & Hv' & _); rewrite Hv in Hv'. }
  destruct (claim (unique_ledger h) (gate_id d) (encode_composite_prefix (gate_def d) vs) id (undo p)) as [[l u] r] eqn:Hc.
  destruct (on_ledger_step (λ l u, let '(l, u, r) := claim l (gate_id d) (encode_composite_prefix (gate_def d) vs) id u in
      (l, u, match r with Err e => Err (gate_error c (gate_id d) e) | r => r end)) p h l u
      (match r with Err e => Err (gate_error c (gate_id d) e) | r => r end)) as (p' & h' & E & Hst & Hl').
  - by rewrite Hc.
  - intros Hl. split; [by eapply claim_ok|]. by eapply claim_undo.
  - exists p', h', (match r with Err e => Err (gate_error c (gate_id d) e) | r => r end). split; [exact E|].
    assert (r ≠ Panic) as Hnp by (unfold claim in Hc; repeat case_match; by simplify_eq).
    split; [by destruct r|]. split; [done|]. intros Hl Hr.
    assert (r = Ok tt) as -> by (destruct r as [[]| |]; done). rewrite Hl'.
    destruct (claim_holds _ _ _ _ _ _ _ Hl Hc) as [Hh Ho]. split; [|done].
    intros q (_ & vs' & Hv' & ->). rewrite Hv in Hv'. by injection Hv' as <-.
Qed.

Lemma admit_all c id doc defs p h :
  NoDup (gate_id <$> defs) →
  ∃ p' h' r, each (admit_one to_lowercase c id doc) defs (p, h) = ((p', h'), r) ∧ r ≠ Panic ∧ gate_step (p, h) (p', h') ∧
    (ledger_ok (unique_ledger h) → r = Ok tt →
       (∀ d q, d ∈ defs → obliges d id doc q → holds (unique_ledger h') (gate_id d) q id) ∧
       ∀ i q d', i ∉ (gate_id <$> defs) ∨ d' ≠ id → holds (unique_ledger h') i q d' ↔ holds (unique_ledger h) i q d').
Proof.
  revert p h; induction defs as [|d defs IH]; intros p h Hnd; cbn [each].
  { exists p, h, (Ok tt). split_and!; try done. intros _ _. split; [by intros ? ? ?%not_elem_of_nil|done]. }
  rewrite fmap_cons in Hnd. apply NoDup_cons in Hnd as [Hd Hnd].
  destruct (admit_one_spec c id doc d p h) as (p1 & h1 & r1 & E1 & Hn1 & S1 & L1).
  destruct r1 as [[]|x|]; [| |done].
  2: { rewrite (hm_bind_err _ _ _ _ _ E1). exists p1, h1, (Err x). split_and!; try done. }
  rewrite (hm_bind_ok _ _ _ _ _ E1). destruct (IH p1 h1 Hnd) as (p2 & h2 & r2 & E2 & Hn2 & S2 & L2).
  exists p2, h2, r2. split; [exact E2|]. split; [done|]. split; [by transitivity (p1, h1)|]. intros Hl Hr.
  destruct (L1 Hl eq_refl) as [A1 A2]. assert (ledger_ok (unique_ledger h1)) as Hl1 by (by apply S1).
  destruct (L2 Hl1 Hr) as [B1 B2]. split.
  - intros d' q [->|Hin]%elem_of_cons Hob; [|by apply B1]. apply B2; [by left|]. by apply A1.
  - intros i q d' Hne. rewrite fmap_cons in Hne. rewrite B2, A2; [done| |]; (destruct Hne as [Hne|Hne]; [left|by right]).
    + intros ->. apply Hne. by left.
    + intros Hin. apply Hne. by right.
Qed.

Lemma release_all id defs p h :
  ∃ p' h', each (λ d, on_ledger (λ l u, let '(l, u) := release_doc l (gate_id d) id u in (l, u, Ok tt))) defs (p, h) =
      ((p', h'), Ok tt) ∧ gate_step (p, h) (p', h') ∧
    (ledger_ok (unique_ledger h) →
       ∀ i q d', i ∉ (gate_id <$> defs) ∨ d' ≠ id → holds (unique_ledger h') i q d' ↔ holds (unique_ledger h) i q d').
Proof.
  revert p h; induction defs as [|d defs IH]; intros p h; cbn [each]; [by exists p, h|].
  destruct (release_doc (unique_ledger h) (gate_id d) id (undo p)) as [l u] eqn:Hc.
  destruct (on_ledger_step (λ l u, let '(l, u) := release_doc l (gate_id d) id u in (l, u, Ok tt)) p h l u (Ok tt)) as (p1 & h1 & E & S1 & Hl').
  { by rewrite Hc. }
  { intros Hl. split; [by eapply release_ok|by eapply release_undo]. }
  rewrite (hm_bind_ok _ _ _ _ _ E). destruct (IH p1 h1) as (p2 & h2 & E2 & S2 & L2).
  exists p2, h2. split; [exact E2|]. split; [by transitivity (p1, h1)|]. intros Hl i q d' Hne.
  assert (ledger_ok (unique_ledger h1)) as Hl1 by (by apply S1). rewrite fmap_cons in Hne. rewrite L2, Hl'; [|done|].
  - eapply release_holds; [done|exact Hc|]. destruct Hne as [Hne|Hne]; [left|by right]. intros ->. apply Hne. by left.
  - destruct Hne as [Hne|Hne]; [left|by right]. intros Hin. apply Hne. by right.
Qed.

(** ** What a mutation does *)

(** An effect: collection, id, and the stored document unless it deletes. *)
Abbreviation Effect := (bytes * bytes * option HakoDoc)%type.

Definition mut_id (m : BatchMutation) : bytes :=
  match m with MutPut _ id _ | MutDelete _ id | MutSoftDelete _ id | MutPatch _ id _ => id end.
Definition is_del (m : BatchMutation) : bool := match m with MutDelete _ _ | MutSoftDelete _ _ => true | _ => false end.
Definition is_softdel (m : BatchMutation) : bool := match m with MutSoftDelete _ _ => true | _ => false end.
Definition base_doc h (m : BatchMutation) : HakoDoc :=
  match m with
  | MutPut _ _ doc => doc
  | MutPatch c id updates => foldl (λ d kv, doc_insert d kv.1 kv.2) (default (mkDoc [] 0) (view_of h c !! id ≫= decode)) updates
  | _ => mkDoc [] 0
  end.
Definition soft_effect h (t : Z) (c id : bytes) : list Effect :=
  if soft_delete_retention_secs (config h) =? 0 then []
  else match view_of h c !! id with
       | Some payload =>
           [(SOFTDEL_COLLECTION, record_id c id,
             Some (build_record c id t (t + soft_delete_retention_secs (config h) * 1000000) payload))]
       | None => []
       end.
(** The effects of a mutation on the collections as they are before the batch. *)
Definition effect_of h (t : Z) (m : BatchMutation) (id : bytes) : res (list Effect) :=
  if is_del m
  then Ok ((if is_softdel m then soft_effect h t (get_col m) id else []) ++ [(get_col m, id, None)])
  else doc ← apply_schema h (get_col m) (base_doc h m); Ok [(get_col m, id, Some (mkDoc (fields doc) t))].

Definition add_effect (t : Z) (c : bytes) (w : ShardWork) (x : Effect) : ShardWork :=
  let '(c', id, od) := x in
  if bool_decide (c' = c) then match od with Some d => work_put c id d [] w | None => work_delete c id t w end else w.
Definition work_of (t : Z) (c : bytes) (es : list Effect) : ShardWork := foldl (add_effect t c) empty_work es.
Definition tracks (t : Z) (p : Prep) (es : list Effect) : Prop := ∀ c, default empty_work (shard_map p !! c) = work_of t c es.

Lemma effect_calm h h' t m id : calm h h' → settled h (get_col m) → effect_of h' t m id = effect_of h t m id.
Proof.
  intros Hc Hs. pose proof (calm_settings _ _ Hc) as E. unfold settings in E. injection E as E1 E2 E3 E4 E5 E6 E7.
  pose proof (calm_view _ _ Hc _ Hs) as Ev. unfold effect_of, soft_effect, base_doc, apply_schema.
  rewrite E1, E5, E6, Ev. destruct m; cbn [get_col] in *; by rewrite ?Ev.
Qed.

(** Collections that get work. *)
Definition grown (cs : list bytes) (p p' : Prep) : Prop := ∀ c, is_Some (shard_map p' !! c) → c ∈ cs ∨ is_Some (shard_map p !! c).
Lemma grown_same cs p p' : shard_map p' = shard_map p → grown cs p p'.
Proof. intros E c. rewrite E. by right. Qed.
Lemma grown_trans cs p1 p2 p3 : grown cs p1 p2 → grown cs p2 p3 → grown cs p1 p3.
Proof. intros A B c Hc. destruct (B c Hc) as [|Hc']; [by left|by apply A]. Qed.
Lemma grown_mono cs cs' p p' : cs ⊆ cs' → grown cs p p' → grown cs' p p'.
Proof. intros Hs A c Hc. destruct (A c Hc); [left; by apply Hs|by right]. Qed.

Lemma set_work_spec c f p h :
  ∃ p', set_work c f (p, h) = ((p', h), Ok tt) ∧ prep_step (p, h) (p', h) ∧ (gates_ok p h → gates_ok p' h) ∧
    assigned_ids p' = assigned_ids p ∧ grown [c] p p' ∧
    ∀ c', default empty_work (shard_map p' !! c') =
      if bool_decide (c = c') then f (default empty_work (shard_map p !! c')) else default empty_work (shard_map p !! c').
Proof.
  eexists. split; [done|]. split_and!; try done.
  - split; [done|]. intros Hl. split; [done|]. exists []. by rewrite app_nil_r.
  - intros c' [x Hx]. cbn in Hx. apply lookup_insert_Some in Hx as [[<- _]|[_ Hx]]; [left; by apply list_elem_of_singleton|right; eauto].
  - intros c'. cbn. case_bool_decide as Hc; [subst; by rewrite lookup_insert_eq|by rewrite lookup_insert_ne].
Qed.

Lemma tracks_put t p p' es c id d :
  tracks t p es →
  (∀ c', default empty_work (shard_map p' !! c') =
      if bool_decide (c = c') then work_put c id d [] (default empty_work (shard_map p !! c')) else default empty_work (shard_map p !! c')) →
  tracks t p' (es ++ [(c, id, Some d)]).
Proof.
  intros Ht Hp c'. rewrite Hp, (Ht c'). unfold work_of. rewrite foldl_app. cbn [foldl add_effect]. case_bool_decide; [by subst|done].
Qed.
Lemma tracks_delete t p p' es c id :
  tracks t p es →
  (∀ c', default empty_work (shard_map p' !! c') =
      if bool_decide (c = c') then work_delete c id t (default empty_work (shard_map p !! c')) else default empty_work (shard_map p !! c')) →
  tracks t p' (es ++ [(c, id, None)]).
Proof.
  intros Ht Hp c'. rewrite Hp, (Ht c'). unfold work_of. rewrite foldl_app. cbn [foldl add_effect]. case_bool_decide; [by subst|done].
Qed.
Lemma tracks_same t p p' es :
  tracks t p es → (∀ c', default empty_work (shard_map p' !! c') = default empty_work (shard_map p !! c')) → tracks t p' es.
Proof. intros Ht Hp c'. by rewrite Hp. Qed.

Lemma resolve_mutation_spec now m h :
  shards_ok h → settled h (get_col m) →
  ∃ h', resolve_mutation from_secret now m h = (h', Ok (get_col m, mut_id m, base_doc h m, is_del m, is_softdel m)) ∧ quiet h h'.
Proof.
  intros Hok Hs. destruct m as [c id doc|c id|c id|c id ups]; cbn [resolve_mutation get_col mut_id base_doc is_del is_softdel] in *;
    try (by exists h).
  destruct (get_shard_spec now c h Hok Hs) as (h1 & e & E1 & [C1 L1] & He). rewrite (hm_bind_ok _ _ _ _ _ E1).
  destruct (read_shard_spec c id h1) as (h2 & E2 & Q2).
  { by apply (calm_ok _ _ C1). }
  { by apply (calm_settled _ _ C1). }
  { by eexists. }
  rewrite (hm_bind_ok _ _ _ _ _ E2). exists h2. split; [|transitivity h1; [by split|done]].
  by rewrite (calm_view _ _ C1 _ Hs).
Qed.

Lemma softdel_spec c id t h :
  shards_ok h → settled h c →
  ∃ h', softdel_record c id t h = (h', Ok (match soft_effect h t c id with (_, rid, Some r) :: _ => Some (rid, r) | _ => None end)) ∧ quiet h h'.
Proof.
  intros Hok Hs. unfold softdel_record, soft_effect. split_if; [by exists h|].
  unfold view_of. destruct (shards h !! c) as [e|] eqn:He; [|exists h; by rewrite lookup_empty].
  destruct (read_shard_spec c id h Hok Hs) as (h' & E & Q); [by eexists|]. rewrite E. exists h'. split; [|done].
  unfold view_of. rewrite He. destruct (store_view e !! id); [|done].
  pose proof (calm_settings _ _ (proj1 Q)) as S. unfold settings in S. by injection S as -> _.
Qed.

Lemma choose_id_spec nanos id p h :
  ∃ h' id', (if bool_decide (id = []) then on_h (generate_sortable_id nanos) else mret id) (p, h) = ((p, h'), Ok id') ∧
    quiet h h' ∧ (id ≠ [] → id' = id).
Proof.
  case_bool_decide as Hid.
  - eexists _, _. split; [done|]. split; [|done]. split; [split; try done; cbn; eauto|done].
  - exists h, id. done.
Qed.

(** ** Preparing one mutation *)

Definition gate_ids h (c : bytes) : list Z := gate_id <$> unique_defs (composite h) c.

(** What an admitted mutation means for the claims: its document holds the tuples it
    obliges, and nobody else's claims changed. *)
Definition admitted h h' (c id : bytes) (od : option HakoDoc) : Prop :=
  ledger_ok (unique_ledger h) →
  (∀ doc d q, od = Some doc → d ∈ unique_defs (composite h) c → obliges d id doc q → holds (unique_ledger h') (gate_id d) q id) ∧
  (∀ i q d', i ∉ gate_ids h c ∨ d' ≠ id → holds (unique_ledger h') i q d' ↔ holds (unique_ledger h) i q d').

Lemma calm_composite h h' : calm h h' → composite h' = composite h ∧ config h' = config h.
Proof. intros Hc. pose proof (calm_settings _ _ Hc) as E. unfold settings in E. by injection E as -> _ _ _ _ _ ->. Qed.

Lemma prepare_delete c id t p h es :
  gates_ok p h → tracks t p es →
  ∃ p' h', (_ ← set_work c Datatypes.id; _ ← unique_gate_release c id; set_work c (work_delete c id t)) (p, h) = ((p', h'), Ok tt) ∧
    prep_step (p, h) (p', h') ∧ gates_ok p' h' ∧ assigned_ids p' = assigned_ids p ∧ grown [c] p p' ∧
    tracks t p' (es ++ [(c, id, None)]) ∧ admitted h h' c id None.
Proof.
  intros Hg Ht. destruct (set_work_spec c Datatypes.id p h) as (p1 & E1 & S1 & G1 & A1 & W1 & T1). rewrite (hm_bind_ok _ _ _ _ _ E1).
  assert (tracks t p1 es) as Ht1 by (apply (tracks_same t p p1); [done|]; intros c'; rewrite T1; by case_bool_decide).
  destruct (gate_defs_spec c p1 h (G1 Hg)) as (p2 & h2 & E2 & G2 & S2 & M2 & A2 & L2 & Sh2 & U2).
  destruct (release_all id (unique_defs (composite h) c) p2 h2) as (p3 & h3 & E3 & S3 & L3).
  assert (unique_gate_release c id (p1, h) = ((p3, h3), Ok tt)) as E23 by (unfold unique_gate_release; by rewrite (hm_bind_ok _ _ _ _ _ E2)).
  rewrite (hm_bind_ok _ _ _ _ _ E23).
  destruct (set_work_spec c (work_delete c id t) p3 h3) as (p4 & E4 & S4 & G4 & A4 & W4 & T4).
  exists p4, h3. split; [exact E4|]. split; [|split; [|split; [|split; [|split]]]].
  - transitivity (p1, h); [done|]. transitivity (p2, h2); [done|]. transitivity (p3, h3); [apply S3|done].
  - apply G4. by apply (gate_step_gates (p2, h2) (p3, h3)).
  - destruct S3 as (_ & _ & A3 & _). cbn in A3. congruence.
  - destruct S3 as (_ & M3 & _). cbn in M3. eapply grown_trans; [exact W1|]. eapply grown_trans; [|exact W4].
    apply grown_same. congruence.
  - eapply (tracks_delete t p3); [|done]. apply (tracks_same t p1); [done|]. intros c'.
    destruct S3 as (_ & M3 & _). cbn in M3. by rewrite M3, M2.
  - intros Hl. split; [done|]. intros i q d' Hne. rewrite L3; [by rewrite L2|by rewrite L2|done].
Qed.

Lemma extract_small_shard c id th doc h e :
  shards h !! c = Some e → small_doc th doc →
  on_shard c (extract_remote c id th doc) h = (h, Ok (doc, [])).
Proof.
  intros He Hs. unfold on_shard. rewrite He. unfold extract_remote. destruct (blob_manager e) as [bm|] eqn:Hb.
  - rewrite extract_small by done. f_equal. destruct h. unfold h_with_shards. cbn in *. f_equal. apply insert_id. rewrite He. f_equal.
    destruct e. cbn in *. by subst.
  - f_equal. destruct h. unfold h_with_shards. cbn in *. f_equal. by apply insert_id.
Qed.

Lemma prepare_put now c id t th doc p h es :
  shards_ok h → settled h c → gates_ok p h → tracks t p es → NoDup (gate_ids h c) → small_doc th doc →
  ∃ p' h' r, (_ ← set_work c Datatypes.id; _ ← on_h (get_shard from_secret now c);
      '(doc, blobs) ← on_h (on_shard c (extract_remote c id th doc));
      _ ← unique_gate_admit to_lowercase c id doc; set_work c (work_put c id doc blobs)) (p, h) = ((p', h'), r) ∧
    r ≠ Panic ∧ prep_step (p, h) (p', h') ∧ gates_ok p' h' ∧ assigned_ids p' = assigned_ids p ∧ grown [c] p p' ∧
    (r = Ok tt → tracks t p' (es ++ [(c, id, Some doc)]) ∧ admitted h h' c id (Some doc)).
Proof.
  intros Hok Hs Hg Ht Hnd Hsm. destruct (set_work_spec c Datatypes.id p h) as (p1 & E1 & S1 & G1 & A1 & W1 & T1). rewrite (hm_bind_ok _ _ _ _ _ E1).
  assert (tracks t p1 es) as Ht1 by (apply (tracks_same t p p1); [done|]; intros c'; rewrite T1; by case_bool_decide).
  destruct (get_shard_spec now c h Hok Hs) as (h1 & e & Eg & [C1 L1] & He).
  rewrite (hm_bind_ok _ _ _ _ _ (on_h_eq _ p1 _ _ _ Eg)).
  rewrite (hm_bind_ok _ _ _ _ _ (on_h_eq _ p1 _ _ _ (extract_small_shard c id th doc h1 e He Hsm))).
  destruct (calm_composite _ _ C1) as [Ecm _]. injection L1 as L1 Lg.
  assert (gates_ok p1 h1) as Hg1. { intros c' defs. rewrite Lg, Ecm. apply (G1 Hg). }
  destruct (gate_defs_spec c p1 h1 Hg1) as (p2 & h2 & E2 & G2 & S2 & M2 & A2 & L2 & Sh2 & U2).
  destruct (admit_all c id doc (unique_defs (composite h1) c) p2 h2) as (p3 & h3 & r3 & E3 & N3 & S3 & L3).
  { unfold gate_ids in Hnd. by rewrite Ecm. }
  assert (unique_gate_admit to_lowercase c id doc (p1, h1) = ((p3, h3), r3)) as E23 by (unfold unique_gate_admit; by rewrite (hm_bind_ok _ _ _ _ _ E2)).
  assert (prep_step (p, h) (p3, h3)) as Hst.
  { transitivity (p1, h); [done|]. transitivity (p1, h1); [apply quiet_prep; split; [done|by unfold claims; rewrite L1, Lg]|].
    transitivity (p2, h2); [done|apply S3]. }
  assert (gates_ok p3 h3) as Hg3 by (by apply (gate_step_gates (p2, h2) (p3, h3))).
  destruct S3 as (S3 & M3 & A3 & _). cbn in M3, A3.
  assert (grown [c] p p3) as W3 by (eapply grown_trans; [exact W1|]; apply grown_same; congruence).
  destruct r3 as [[]|x|]; [| |done].
  2: { rewrite (hm_bind_err _ _ _ _ _ E23). exists p3, h3, (Err x). split_and!; try done. congruence. }
  rewrite (hm_bind_ok _ _ _ _ _ E23). destruct (set_work_spec c (work_put c id doc []) p3 h3) as (p4 & E4 & S4 & G4 & A4 & W4 & T4).
  exists p4, h3, (Ok tt). split; [exact E4|]. split; [done|]. split; [by transitivity (p3, h3)|]. split; [by apply G4|].
  split; [congruence|]. split; [by eapply grown_trans|]. intros _. split.
  - eapply (tracks_put t p3); [|done]. apply (tracks_same t p1); [done|]. intros c'. by rewrite M3, M2.
  - intros Hl. unfold gate_ids. rewrite <-Ecm. assert (ledger_ok (unique_ledger h2)) as Hl2 by (by rewrite L2, L1).
    destruct (L3 Hl2 eq_refl) as [B1 B2]. split.
    + intros doc' d q [= <-] Hd Hob. by apply B1.
    + intros i q d' Hne. rewrite B2 by done. by rewrite L2, L1.
Qed.

(** The conditions under which a mutation is prepared as its effects say: its
    collection is loaded or new, the unique definitions have distinct numbers, and no
    document of it has a field for the blob file. *)
Definition mut_ok h (t : Z) (m : BatchMutation) : Prop :=
  settled h (get_col m) ∧ NoDup (gate_ids h (get_col m)) ∧
  ∀ id es c' id' d, (mut_id m ≠ [] → id = mut_id m) → effect_of h t m id = Ok es → (c', id', Some d) ∈ es →
    small_doc (value_blob_threshold_bytes (config h)) d.

Lemma mut_ok_calm h h' t m : calm h h' → mut_ok h t m → mut_ok h' t m.
Proof.
  intros Hc (Hs & Hn & Hsm). destruct (calm_composite _ _ Hc) as [E1 E2]. split_and!.
  - by apply (calm_settled _ _ Hc).
  - unfold gate_ids. by rewrite E1.
  - rewrite E2. intros id es c' id' d. rewrite (effect_calm h h') by done. apply Hsm.
Qed.

Lemma apply_schema_no_panic h c doc : apply_schema h c doc ≠ Panic.
Proof.
  unfold apply_schema, Schema.apply. destruct (negb (schema_enabled h)); [done|]. destruct (schemas h !! c) as [s|]; [|done].
  assert (∀ rules d, (apply_rules c rules d).2 ≠ Panic) as Hnp.
  { intros rules; induction rules as [|r rules IH]; intros d; cbn [apply_rules]; [done|]. repeat case_match; try apply IH; done. }
  specialize (Hnp (s_fields s) doc). destruct (apply_rules c (s_fields s) doc) as [d [| |]]; done.
Qed.

Definition prepared h h' (m : BatchMutation) (id : bytes) (new : list Effect) : Prop :=
  ∃ od, new = (if is_softdel m then removelast new else []) ++ [(get_col m, id, od)] ∧ admitted h h' (get_col m) id od.

Lemma soft_effect_cases h t c id :
  soft_effect h t c id = [] ∨ ∃ rid r, soft_effect h t c id = [(SOFTDEL_COLLECTION, rid, Some r)].
Proof. unfold soft_effect. split_if; [by left|]. destruct (view_of h c !! id); [right; eauto|by left]. Qed.

(** The collections a mutation writes. *)
Definition cols_of (m : BatchMutation) : list bytes := if is_softdel m then [get_col m; SOFTDEL_COLLECTION] else [get_col m].
Lemma cols_of_col m : [get_col m] ⊆ cols_of m.
Proof. unfold cols_of. destruct (is_softdel m); set_solver. Qed.

Lemma prepare_one_spec now nanos t m p h es :
  shards_ok h → mut_ok h t m → gates_ok p h → tracks t p es →
  ∃ p' h' r, prepare_one from_secret to_lowercase now nanos t m (p, h) = ((p', h'), r) ∧ r ≠ Panic ∧
    prep_step (p, h) (p', h') ∧ gates_ok p' h' ∧ grown (cols_of m) p p' ∧ (is_del m = true → r = Ok tt) ∧
    (r = Ok tt → ∃ id new, assigned_ids p' = assigned_ids p ++ [id] ∧ (mut_id m ≠ [] → id = mut_id m) ∧
       effect_of h t m id = Ok new ∧ tracks t p' (es ++ new) ∧ prepared h h' m id new).
Proof.
  intros Hok Hm Hg Ht. pose proof Hm as (Hs & Hnd & Hsm). unfold prepare_one.
  destruct (resolve_mutation_spec now m h Hok Hs) as (h1 & E1 & Q1). rewrite (hm_bind_ok _ _ _ _ _ (on_h_eq _ p _ _ _ E1)).
  destruct (choose_id_spec nanos (mut_id m) p h1) as (h2 & id & E2 & Q2 & Hid). cbn beta iota. rewrite (hm_bind_ok _ _ _ _ _ E2).
  set (p1 := mkPrep (shard_map p) (memo p) (undo p) (assigned_ids p ++ [id])).
  rewrite (hm_bind_ok _ _ (p, h2) (p1, h2) tt) by done. rewrite (hm_bind_ok _ _ (p1, h2) (p1, h2) h2) by done.
  assert (quiet h h2) as Q12 by (by transitivity h1). pose proof (proj1 Q12) as C12.
  assert (prep_step (p, h) (p1, h2)) as S1.
  { transitivity (p, h2); [by apply quiet_prep|]. split; [done|]. intros Hl. split; [done|]. exists []. by rewrite app_nil_r. }
  assert (gates_ok p1 h2) as Hg1.
  { intros c defs. destruct (calm_composite _ _ C12) as [-> _]. pose proof (proj2 Q12) as Eq. injection Eq as _ ->. apply Hg. }
  assert (tracks t p1 es) as Ht1 by done. assert (assigned_ids p1 = assigned_ids p ++ [id]) as A1 by done.
  assert (grown (cols_of m) p p1) as W1 by (by apply grown_same). clearbody p1.
  assert (shards_ok h2) as Hok2 by (by apply (calm_ok _ _ C12)).
  assert (settled h2 (get_col m)) as Hs2 by (by apply (calm_settled _ _ C12)).
  assert (∀ h' od, admitted h2 h' (get_col m) id od → admitted h h' (get_col m) id od) as Hadm.
  { intros h' od. unfold admitted, gate_ids. destruct (calm_composite _ _ C12) as [-> _].
    pose proof (proj2 Q12) as Eq. by injection Eq as -> _. }
  unfold effect_of. destruct (is_del m) eqn:Hdel.
  - rewrite (hm_bind_ok _ _ (p1, h2) (p1, h2) (base_doc h m)) by done.
    assert (∃ p2 h3, (if is_softdel m then r ← on_h (softdel_record (get_col m) id t);
        match r with
        | Some (rec_id, rec_doc) => set_work SOFTDEL_COLLECTION (work_put SOFTDEL_COLLECTION rec_id rec_doc [])
        | None => mret tt
        end else mret tt) (p1, h2) = ((p2, h3), Ok tt) ∧ prep_step (p1, h2) (p2, h3) ∧ gates_ok p2 h3 ∧ assigned_ids p2 = assigned_ids p1 ∧ grown (cols_of m) p1 p2 ∧
        tracks t p2 (es ++ (if is_softdel m then soft_effect h t (get_col m) id else [])) ∧ quiet h2 h3) as (p2 & h3 & E3 & S3 & Hg3 & A3 & W3 & Ht3 & Q3).
    { unfold cols_of. destruct (is_softdel m); [|exists p1, h2; rewrite app_nil_r; split_and!; try done; by apply grown_same].
      destruct (softdel_spec (get_col m) id t h2 Hok2 Hs2) as (h3 & E3 & Q3). rewrite (hm_bind_ok _ _ _ _ _ (on_h_eq _ p1 _ _ _ E3)).
      assert (soft_effect h2 t (get_col m) id = soft_effect h t (get_col m) id) as ->.
      { unfold soft_effect. destruct (calm_composite _ _ C12) as [_ ->]. by rewrite (calm_view _ _ C12). }
      assert (gates_ok p1 h3) as Hg3.
      { intros c defs. destruct (calm_composite _ _ (proj1 Q3)) as [-> _]. pose proof (proj2 Q3) as Eq. injection Eq as _ ->. apply Hg1. }
      destruct (soft_effect_cases h t (get_col m) id) as [->|(rid & r & ->)].
      - exists p1, h3. rewrite app_nil_r. split_and!; try done; [by apply quiet_prep|by apply grown_same].
      - destruct (set_work_spec SOFTDEL_COLLECTION (work_put SOFTDEL_COLLECTION rid r []) p1 h3) as (p2 & E4 & S4 & G4 & A4 & W4 & T4).
        exists p2, h3. split_and!; try done; [transitivity (p1, h3); [by apply quiet_prep|done]|by apply G4| |].
        { eapply grown_mono; [|exact W4]. set_solver. }
        by eapply (tracks_put t p1). }
    rewrite (hm_bind_ok _ _ _ _ _ E3).
    destruct (prepare_delete (get_col m) id t p2 h3 _ Hg3 Ht3) as (p4 & h4 & E4 & S4 & Hg4 & A4 & W4 & Ht4 & Had).
    exists p4, h4, (Ok tt). split; [exact E4|]. split; [done|].
    split; [transitivity (p1, h2); [done|]; by transitivity (p2, h3)|]. split; [done|].
    split; [eapply grown_trans; [exact W1|]; eapply grown_trans; [exact W3|]; eapply grown_mono; [apply cols_of_col|done]|]. split; [done|]. intros _.
    eexists id, _. split; [by rewrite A4, A3|]. split; [done|]. split; [done|]. split; [by rewrite app_assoc|].
    exists None. split.
    + destruct (is_softdel m); [|done]. by rewrite removelast_last.
    + apply Hadm. unfold admitted, gate_ids in *. destruct (calm_composite _ _ (proj1 Q3)) as [<- _].
      pose proof (proj2 Q3) as Eq. by injection Eq as <- _.
  - assert (apply_schema h2 (get_col m) (base_doc h m) = apply_schema h (get_col m) (base_doc h m)) as Esc.
    { pose proof (calm_settings _ _ C12) as E. unfold settings in E. injection E as _ _ _ _ E5 E6 _. unfold apply_schema. by rewrite E5, E6. }
    assert (is_softdel m = false) as Hsoft by (by destruct m). rewrite Hsoft.
    unfold effect_of in Hsm. rewrite Hdel in Hsm.
    assert (∀ x : res HakoDoc, lift x (p1, h2) = ((p1, h2), x)) as Hlift by done.
    destruct (apply_schema h (get_col m) (base_doc h m)) as [doc|x|] eqn:Hsch.
    2: { rewrite (hm_bind_err _ _ (p1, h2) (p1, h2) x) by (by rewrite Hlift, Esc). exists p1, h2, (Err x). split_and!; done. }
    2: { by apply apply_schema_no_panic in Hsch. }
    rewrite (hm_bind_ok _ _ (p1, h2) (p1, h2) doc) by (by rewrite Hlift, Esc). rewrite (hm_bind_ok _ _ (p1, h2) (p1, h2) tt) by done.
    destruct (prepare_put now (get_col m) id t (value_blob_threshold_bytes (config h2)) (mkDoc (fields doc) t) p1 h2 es)
      as (p3 & h3 & r3 & E3 & N3 & S3 & G3 & A3 & W3 & T3); try done.
    { unfold gate_ids. destruct (calm_composite _ _ C12) as [-> _]. done. }
    { destruct (calm_composite _ _ C12) as [_ ->]. eapply (Hsm id); [done|done|]. by apply list_elem_of_singleton. }
    exists p3, h3, r3. split; [exact E3|]. split; [done|]. split; [by transitivity (p1, h2)|]. split; [done|].
    split; [eapply grown_trans; [exact W1|]; eapply grown_mono; [apply cols_of_col|done]|]. split; [done|]. intros Hr.
    destruct (T3 Hr) as [T3' Had]. eexists id, _. split; [by rewrite A3|]. split; [done|]. split; [done|]. split; [done|].
    exists (Some (mkDoc (fields doc) t)). rewrite Hsoft. split; [done|]. by apply Hadm.
Qed.

(** ** Preparing a batch *)

Definition mutation_effects h (t : Z) (m : BatchMutation) (id : bytes) (es : list Effect) : Prop :=
  effect_of h t m id = Ok es ∧ (mut_id m ≠ [] → id = mut_id m).

(** Documents by collection and id, and what an effect does to them. *)
Abbreviation Docs := (bytes → bytes → option HakoDoc).
Definition doc_step (v : Docs) (x : Effect) : Docs := λ c id, if bool_decide (x.1 = (c, id)) then x.2 else v c id.
(** Every document that a unique index obliges holds its tuple. *)
Definition cover h (l : UniqueLedger) (v : Docs) : Prop :=
  ∀ c id doc d q, v c id = Some doc → d ∈ unique_defs (composite h) c → obliges d id doc q → holds l (gate_id d) q id.
(** Unique definitions of different collections have different numbers, and the
    collection of retention records has none. *)
Definition gates_disjoint h : Prop :=
  (∀ c c' d d', c ≠ c' → d ∈ unique_defs (composite h) c → d' ∈ unique_defs (composite h) c' → gate_id d ≠ gate_id d') ∧
  unique_defs (composite h) SOFTDEL_COLLECTION = [].

Lemma cover_soft h l v es : gates_disjoint h → Forall (λ x : Effect, x.1.1 = SOFTDEL_COLLECTION) es → cover h l v → cover h l (foldl doc_step v es).
Proof.
  intros [_ Hsd] Hes. revert v; induction Hes as [|[[c0 id0] od0] es Hx Hes IH]; intros v Hv; [done|]. cbn [foldl]. apply IH.
  cbn [fst] in Hx. subst c0. intros c id doc d q Hl Hd. destruct (decide (c = SOFTDEL_COLLECTION)) as [->|Hc].
  { rewrite Hsd in Hd. by apply not_elem_of_nil in Hd. }
  apply (Hv c id doc d q); [|done]. unfold doc_step in Hl. cbn [fst snd] in Hl.
  by rewrite bool_decide_eq_false_2 in Hl by congruence.
Qed.

Lemma cover_admitted h h' c0 id0 od v :
  gates_disjoint h → ledger_ok (unique_ledger h) → composite h' = composite h → admitted h h' c0 id0 od →
  cover h (unique_ledger h) v → cover h' (unique_ledger h') (doc_step v (c0, id0, od)).
Proof.
  intros Hdj Hl Hcm Had Hv. destruct (Had Hl) as [Hown Hoth]. intros c' id' doc d q Hlook Hd Hob. rewrite Hcm in Hd.
  unfold doc_step in Hlook. cbn [fst snd] in Hlook. destruct (decide ((c0, id0) = (c', id'))) as [[= <- <-]|Hne].
  - rewrite bool_decide_eq_true_2 in Hlook by done. by eapply Hown.
  - rewrite bool_decide_eq_false_2 in Hlook by done. apply Hoth; [|by apply (Hv c' id' doc d q)].
    destruct (decide (id' = id0)) as [->|Hid]; [left|by right]. assert (c' ≠ c0) as Hc by congruence.
    intros (d0 & Heq & Hd0)%list_elem_of_fmap. by destruct Hdj as [Hdj _]; apply (Hdj c' c0 d d0).
Qed.

Lemma cover_prepared h h' t m id new v :
  gates_disjoint h → ledger_ok (unique_ledger h) → composite h' = composite h →
  effect_of h t m id = Ok new → prepared h h' m id new →
  cover h (unique_ledger h) v → cover h' (unique_ledger h') (foldl doc_step v new).
Proof.
  intros Hdj Hl Hcm Hef (od & Hnew & Had) Hv. set (pre := if is_softdel m then removelast new else []) in *.
  assert (Forall (λ x : Effect, x.1.1 = SOFTDEL_COLLECTION) pre) as Hpre.
  { unfold pre. destruct (is_softdel m) eqn:Hsoft; [|done]. unfold effect_of in Hef. rewrite Hsoft in Hef.
    assert (is_del m = true) as Hdel by (by destruct m). rewrite Hdel in Hef. injection Hef as <-. rewrite removelast_last.
    destruct (soft_effect_cases h t (get_col m) id) as [->|(rid & r & ->)]; [done|]. by repeat constructor. }
  rewrite Hnew, foldl_app. cbn [foldl]. apply (cover_admitted h); [done..|]. by apply cover_soft.
Qed.

Lemma prepare_all_spec now nanos t ms p h es0 :
  shards_ok h → Forall (mut_ok h t) ms → gates_ok p h → tracks t p es0 →
  ∃ p' h' r, each (prepare_one from_secret to_lowercase now nanos t) ms (p, h) = ((p', h'), r) ∧ r ≠ Panic ∧
    prep_step (p, h) (p', h') ∧ gates_ok p' h' ∧ grown (ms ≫= cols_of) p p' ∧ (forallb is_del ms = true → r = Ok tt) ∧
    (r = Ok tt → ∃ ids ess, assigned_ids p' = assigned_ids p ++ ids ∧ Forall3 (mutation_effects h t) ms ids ess ∧
       tracks t p' (es0 ++ concat ess) ∧
       (∀ v, gates_disjoint h → ledger_ok (unique_ledger h) → cover h (unique_ledger h) v →
          cover h' (unique_ledger h') (foldl doc_step v (concat ess)))).
Proof.
  revert p h es0; induction ms as [|m ms IH]; intros p h es0 Hok Hms Hg Ht; cbn [each].
  { exists p, h, (Ok tt). split_and!; try done; [by apply grown_same|]. intros _. exists [], []. rewrite !app_nil_r. split_and!; try done. by constructor. }
  apply Forall_cons in Hms as [Hm Hms].
  destruct (prepare_one_spec now nanos t m p h es0 Hok Hm Hg Ht) as (p1 & h1 & r1 & E1 & N1 & S1 & G1 & W1 & D1 & R1).
  assert (grown ((m :: ms) ≫= cols_of) p p1) as W1' by (eapply grown_mono; [|exact W1]; cbn; set_solver).
  destruct r1 as [[]|x|]; [| |done].
  2: { rewrite (hm_bind_err _ _ _ _ _ E1). exists p1, h1, (Err x). split_and!; try done. cbn [forallb]. by intros [Hm1 _]%andb_true_iff; apply D1. }
  rewrite (hm_bind_ok _ _ _ _ _ E1). destruct (R1 eq_refl) as (id & new & A1 & I1 & F1 & T1 & P1).
  pose proof (proj1 S1) as C1. cbn in C1.
  destruct (IH p1 h1 (es0 ++ new)) as (p2 & h2 & r2 & E2 & N2 & S2 & G2 & W2 & D2 & R2); [by apply (calm_ok _ _ C1)| |done|done|].
  { eapply Forall_impl; [exact Hms|]. intros m'. by apply mut_ok_calm. }
  exists p2, h2, r2. split; [exact E2|]. split; [done|]. split; [by transitivity (p1, h1)|]. split; [done|].
  split; [eapply grown_trans; [exact W1'|]; eapply grown_mono; [|exact W2]; cbn; set_solver|].
  split; [by cbn [forallb]; intros [_ Hm2]%andb_true_iff; apply D2|]. intros Hr.
  destruct (R2 Hr) as (ids & ess & A2 & F2 & T2 & V2). exists (id :: ids), (new :: ess). split_and!.
  - rewrite A2, A1. by rewrite <-app_assoc.
  - constructor; [done|]. assert (Forall (λ m', settled h (get_col m')) ms) as Hset by (eapply Forall_impl; [exact Hms|]; by intros m' (? & _)).
    clear -F2 C1 Hset. induction F2 as [|m' id' es' ms ids ess [Hef Hid] F2 IH]; [constructor|].
    apply Forall_cons in Hset as [Hs Hset]. constructor; [|by apply IH]. split; [|done]. by rewrite <-(effect_calm h h1).
  - cbn [concat]. by rewrite app_assoc.
  - intros v Hdj Hl Hv. cbn [concat]. rewrite foldl_app. destruct (calm_composite _ _ C1) as [Ecm _].
    apply V2; [unfold gates_disjoint; by rewrite Ecm|by apply S1|]. by eapply (cover_prepared h h1).
Qed.
End FacadeFacts.

#[export] Existing Instances calm_refl calm_trans quiet_refl quiet_trans prep_step_refl prep_step_trans.
