(* ===== verification/FacadeApply.v ===== *)
(** * Applying a batch of the facade

    What applying the prepared work does to collections, versions and caches, and the
    whole write path: a batch is refused without a trace, or has its effects. *)

From stdpp Require Import prelude list gmap strings.
From Stdlib Require Import ZArith Lia.
From S2P Require Import Prelude RustStd Error Config Crypto VFile Value Doc DocFacts DocCodec DocAccess Wal WalFacts PageCache StorageIndex StorageIndexFacts.
From S2P Require Import Segment SegmentFacts Blob Storage StorageMaint StorageFacts StorageView StorageCompact StorageReopen StorageModels.
From S2P Require Import Filter Schema Composite CompositeFacts Ledger CompositeManager SyncCore SyncFacts Facade FacadeFacts.

Local Open Scope Z_scope.
Local Open Scope hako_scope.

(** ** The work of a collection *)

(** The values of the updates: puts, then deletions. *)
Definition work_vals (w : ShardWork) : list (bytes * option bytes) :=
  zip_with (λ v (d : bytes * HakoDoc), (d.1, Some v)) (omap (λ op, match op with PutInlined _ v => Some v | _ => None end) (w_ops w)) (w_index_puts w) ++
  ((λ k, (k, None)) <$> deleted_keys (w_ops w)).

(** ** The work of the effects *)

Abbreviation Effect := (bytes * bytes * option HakoDoc)%type.
Definition effects_in (c : bytes) (es : list Effect) : list (bytes * option HakoDoc) :=
  omap (λ x : Effect, if bool_decide (x.1.1 = c) then Some (x.1.2, x.2) else None) es.
Definition eff_val (x : bytes * option HakoDoc) : bytes * option bytes := (x.1, encode <$> x.2).
Definition is_put (x : bytes * option HakoDoc) : bool := match x.2 with Some _ => true | None => false end.
(** The order in which a batch takes effect: puts, then deletions. *)
Definition batch_vals (c : bytes) (es : list Effect) : list (bytes * option bytes) :=
  (eff_val <$> List.filter is_put (effects_in c es)) ++ (eff_val <$> List.filter (λ x, negb (is_put x)) (effects_in c es)).

Lemma effects_in_snoc c es x :
  effects_in c (es ++ [x]) = effects_in c es ++ (if bool_decide (x.1.1 = c) then [(x.1.2, x.2)] else []).
Proof. unfold effects_in. rewrite omap_app. cbn. by case_bool_decide. Qed.

Record work_matches (t : Z) (c : bytes) (es : list Effect) (w : ShardWork) : Prop := {
  wm_vals : omap (λ op, match op with PutInlined _ v => Some v | _ => None end) (w_ops w) =
            (λ x : bytes * HakoDoc, encode x.2) <$> w_index_puts w;
  wm_puts : eff_val <$> List.filter is_put (effects_in c es) = (λ x, (x.1, Some (encode x.2))) <$> w_index_puts w;
  wm_dels : deleted_keys (w_ops w) = fst <$> List.filter (λ x, negb (is_put x)) (effects_in c es);
  wm_times : delete_updates w = (λ k, (k, Some (PDeleted t))) <$> deleted_keys (w_ops w);
  wm_keys : w_keys w = (effects_in c es).*1;
  wm_deleted k : k ∈ w_deleted w ↔ last (List.filter (λ x, bytes_eqb x.1 k) (effects_in c es)) = Some (k, None) }.

Lemma work_of_matches t c es : work_matches t c es (work_of t c es).
Proof.
  induction es as [|[[c' id] od] es IH] using rev_ind.
  { by split. }
  assert (work_of t c (es ++ [(c', id, od)]) = add_effect t c (work_of t c es) (c', id, od)) as -> by (unfold work_of; by rewrite foldl_app).
  pose proof (effects_in_snoc c es (c', id, od)) as Hsn. cbn [fst snd] in Hsn. unfold add_effect. case_bool_decide as Hc.
  2: { rewrite app_nil_r in Hsn. destruct IH as [I1 I2 I3 I4 I5 I6]. split; try done; rewrite Hsn; done. }
  destruct IH as [I1 I2 I3 I4 I5 I6]. destruct od as [d|]; split; rewrite ?Hsn; cbn [work_put work_delete w_ops w_index_puts w_keys w_deleted delete_updates].
  - rewrite omap_app, fmap_app, I1. done.
  - rewrite List.filter_app, !fmap_app, I2. done.
  - unfold deleted_keys. rewrite omap_app. fold (deleted_keys (w_ops (work_of t c es))). rewrite I3, List.filter_app, fmap_app. done.
  - unfold delete_updates, deleted_keys in *. cbn [w_ops work_put]. rewrite !omap_app, fmap_app. by rewrite I4.
  - by rewrite I5, fmap_app.
  - intros k. rewrite List.filter_app. cbn [List.filter fst]. destruct (bytes_eqb id k) eqn:Hk.
    + apply bytes_eqb_eq in Hk as ->. rewrite last_snoc. split; [set_solver|by intros [=]].
    + rewrite app_nil_r, <-I6. assert (id ≠ k) by (intros ->; by rewrite bytes_eqb_refl in Hk). set_solver.
  - by rewrite omap_app, app_nil_r.
  - rewrite List.filter_app, fmap_app, I2. by rewrite app_nil_r.
  - unfold deleted_keys. rewrite omap_app. fold (deleted_keys (w_ops (work_of t c es))). rewrite I3, List.filter_app, fmap_app. done.
  - unfold delete_updates, deleted_keys in *. cbn [w_ops work_delete]. rewrite !omap_app, fmap_app. by rewrite I4.
  - by rewrite I5, fmap_app.
  - intros k. rewrite List.filter_app. cbn [List.filter fst]. destruct (bytes_eqb id k) eqn:Hk.
    + apply bytes_eqb_eq in Hk as ->. rewrite last_snoc. split; [done|set_solver].
    + rewrite app_nil_r, <-I6. assert (id ≠ k) by (intros ->; by rewrite bytes_eqb_refl in Hk). set_solver.
Qed.

Lemma zip_self {A B} (f : A → bytes) (g : A → B) (l : list A) (k : B → A → bytes * option bytes) :
  zip_with k (g <$> l) l = (λ x, k (g x) x) <$> l.
Proof. induction l as [|x l IH]; [done|]. cbn. by rewrite IH. Qed.

Lemma work_vals_of t c es : work_vals (work_of t c es) = batch_vals c es.
Proof.
  destruct (work_of_matches t c es) as [I1 I2 I3 _ _ _]. unfold work_vals, batch_vals. rewrite I2, I1, I3. f_equal.
  - apply (zip_self fst (λ x : bytes * HakoDoc, encode x.2)).
  - rewrite <-list_fmap_compose. apply list_fmap_ext. intros i [k [d|]] Hx; [|done].
    apply list_elem_of_lookup_2, list_elem_of_In, filter_In in Hx as [_ Hx]. done.
Qed.

(** With one effect per document the order does not matter. *)
Lemma batch_vals_distinct c es m :
  NoDup (effects_in c es).*1 → foldl vupd m (batch_vals c es) = foldl vupd m (eff_val <$> effects_in c es).
Proof.
  intros Hnd. symmetry. apply vupds_perm; [by rewrite <-list_fmap_compose|].
  unfold batch_vals. rewrite <-fmap_app. apply fmap_Permutation. rewrite Permutation_app_comm. symmetry.
  apply (filter_split_perm is_put).
Qed.

Definition batch_ptrs (t : Z) (c : bytes) (es : list Effect) : list (bytes * option Pointer) :=
  ((λ x : bytes * option HakoDoc, (x.1, (λ d, PInlined (encode d)) <$> x.2)) <$> List.filter is_put (effects_in c es)) ++
  ((λ x : bytes * option HakoDoc, (x.1, Some (PDeleted t))) <$> List.filter (λ x, negb (is_put x)) (effects_in c es)).

Lemma batch_ptrs_of t c es : put_updates (work_of t c es) ++ delete_updates (work_of t c es) = batch_ptrs t c es.
Proof.
  destruct (work_of_matches t c es) as [I1 I2 I3 I4 _ _]. unfold batch_ptrs. f_equal.
  - unfold put_updates. rewrite I1. assert (∀ l : list (bytes * HakoDoc),
      zip_with (λ v (d : bytes * HakoDoc), (d.1, Some (PInlined v))) ((λ x : bytes * HakoDoc, encode x.2) <$> l) l =
      (λ x : bytes * option bytes, (x.1, PInlined <$> x.2)) <$> ((λ x : bytes * HakoDoc, (x.1, Some (encode x.2))) <$> l)) as ->.
    { intros l. induction l as [|x l IH]; [done|]. rewrite !fmap_cons. cbn [zip_with]. by rewrite IH. }
    rewrite <-I2, <-list_fmap_compose. apply list_fmap_ext. intros i [k od] _. by destruct od.
  - rewrite I4, I3, <-list_fmap_compose. done.
Qed.

(** ** Versions *)

Definition bumped_versions (g : Z) (keys : list bytes) (m : gmap bytes Z) : Z * gmap bytes Z :=
  foldl (λ gm k, (as_u64 (gm.1 + 1), <[k := gm.1]> gm.2)) (g, m) keys.

Lemma bumped_spec keys g m :
  0 <= g → g + zlen keys < 2 ^ 64 →
  let '(g', m') := bumped_versions g keys m in
  g' = g + zlen keys ∧ (∀ k, k ∉ keys → m' !! k = m !! k) ∧ (∀ k, k ∈ keys → ∃ v, m' !! k = Some v ∧ g <= v < g').
Proof.
  unfold bumped_versions. revert g m; induction keys as [|k keys IH]; intros g m Hg Hb; cbn [foldl fst snd].
  { split_and!; [zlen|done|by intros k ?%not_elem_of_nil]. }
  rewrite zlen_cons in Hb. pose proof (zlen_nonneg keys). unfold as_u64 at 2. rewrite Z.mod_small by lia.
  specialize (IH (g + 1) (<[k := g]> m) ltac:(lia) ltac:(lia)). destruct (foldl _ _ keys) as [g' m'].
  destruct IH as (Eg & Hout & Hin). rewrite zlen_cons. split_and!; [lia| |].
  - intros k' Hk'. apply not_elem_of_cons in Hk' as [Hne Hk']. rewrite Hout by done. by rewrite lookup_insert_ne.
  - intros k' [->|Hk']%elem_of_cons.
    + destruct (decide (k ∈ keys)) as [Hk|Hk]; [destruct (Hin k Hk) as (v & Hv & ?); exists v; split; [done|lia]|].
      rewrite Hout, lookup_insert_eq by done. exists g. split; [done|lia].
    + destruct (Hin k' Hk') as (v & Hv & ?). exists v. split; [done|lia].
Qed.

Definition cleared (del keep : gset bytes) (m : gmap bytes Z) : gmap bytes Z := base.filter (λ kv, ¬ (kv.1 ∈ del ∧ kv.1 ∉ keep)) m.

Lemma cleared_lookup del keep m k :
  cleared del keep m !! k = if bool_decide (k ∈ del ∧ k ∉ keep) then None else m !! k.
Proof.
  unfold cleared. case_bool_decide as Hk.
  - apply map_lookup_filter_None_2. right. intros v _ Hn. by apply Hn.
  - destruct (m !! k) as [v|] eqn:E; [by apply map_lookup_filter_Some_2|]. apply map_lookup_filter_None_2. by left.
Qed.

Section FacadeApply.
Context `{CrcLaws} `{ZstdLaws} `{HashIterLaws} {cipher : Type} `{AeadLaws cipher}.
Context (from_secret : bytes → EncryptionContext cipher) (to_lowercase : bytes → bytes).
Abbreviation Hako := (Hako (cipher := cipher)).
Implicit Types (h : Hako) (e : StorageEngine cipher) (w : ShardWork).

(** ** One collection *)

Lemma append_fast_plain now c (lg : Wal cipher) tx ops ir :
  encryption lg = None → ∃ lg' : Wal cipher, append_batch_fast now c lg tx ops ir = (c, lg', Ok tt) ∧ encryption lg' = None.
Proof.
  intros Hn. unfold append_batch_fast. rewrite append_all_buffer_records.
  destruct (buffer_records_plain c lg ([BeginTx tx] ++ ops ++ [CommitTx tx]) Hn) as [w' E]. rewrite E.
  eexists. split; [done|]. rewrite maybe_sync_encryption. by rewrite (buffer_records_encryption _ _ _ _ _ _ E).
Qed.

Lemma updates_vals e w : (λ kp, (kp.1, kp.2 ≫= ptr_value e)) <$> (put_updates w ++ delete_updates w) = work_vals w.
Proof.
  unfold put_updates, delete_updates, work_vals, deleted_keys. rewrite fmap_app. f_equal.
  - generalize (omap (λ op, match op with PutInlined _ v => Some v | _ => None end) (w_ops w)) as vs. intros vs.
    generalize (w_index_puts w) as ps. induction vs as [|v vs IH]; intros [|[k d] ps]; [done..|]. cbn. by rewrite IH.
  - induction (w_ops w) as [|op ops IH]; [done|]. destruct op; cbn [omap list_omap]; rewrite ?fmap_cons, ?IH; try done.
Qed.

Lemma updates_ok e w : Forall (λ kp : bytes * option Pointer, ∀ q, kp.2 = Some q → ptr_ok e q) (put_updates w ++ delete_updates w).
Proof.
  apply Forall_app. split.
  - unfold put_updates. generalize (w_index_puts w) as ps. induction (omap _ (w_ops w)) as [|v vs IH]; intros [|[k d] ps]; try by constructor.
    cbn. constructor; [by intros q [= <-]|done].
  - unfold delete_updates. apply Forall_forall. intros kp (op & _ & Hop)%list_elem_of_omap q Hq. destruct op; try done.
    injection Hop as <-. by injection Hq as <-.
Qed.

Lemma write_shard_spec now w e :
  store_ok e → encryption (wal e) = None →
  ∃ e', write_shard now w e = (e', Ok tt) ∧ store_ok e' ∧ encryption (wal e') = None ∧
    store_view e' = foldl vupd (store_view e) (work_vals w) ∧
    index (idx e') = foldl upd (index (idx e)) (put_updates w ++ delete_updates w).
Proof.
  intros He Hn. unfold write_shard.
  assert (∃ e1, (match w_ops w with [] => mret tt | ops => e ← get_st; let tx_id := next_tx_id e in
      _ ← modify (e_with_tx (tx_id + 1)); on_wal (λ c wal, append_batch_fast now c wal tx_id ops false) end) e = (e1, Ok tt) ∧
      store_ok e1 ∧ encryption (wal e1) = None ∧ store_view e1 = store_view e ∧ idx e1 = idx e) as (e1 & E1 & He1 & Hn1 & Hv1 & Hi1).
  { destruct (w_ops w) as [|op ops]; [by exists e|].
    destruct (append_fast_plain now (nonce_ctr e) (wal e) (next_tx_id e) (op :: ops) false Hn) as (w' & Ew & Hn').
    eexists. split; [unfold mbind, SR_bind, get_st, modify, on_wal; cbn [nonce_ctr wal e_with_tx]; by rewrite Ew|]. done. }
  rewrite (hm_bind_ok _ _ _ _ _ E1). eexists. split; [done|].
  destruct (update_batch_view e1 (put_updates w ++ delete_updates w) He1 (updates_ok e1 w)) as [Hok Hv].
  rewrite updates_vals, Hv1 in Hv. split_and!; [by destruct Hok as (? & ? & ? & ?)|done|exact Hv|].
  cbn. rewrite update_batch_index by apply He1. by rewrite Hi1.
Qed.

(** ** The documents that deletions remove *)

Lemma read_ptr_quiet c h e q :
  shards_ok h → settled h c → shards h !! c = Some e → ptr_ok e q →
  ∃ h' r, on_shard c (read_pointer_internal q false) h = (h', Ok r) ∧ quiet h h'.
Proof.
  intros Hok Hs He Hq. assert (store_ok e) as Heo by (by eapply (Hok c)).
  destruct (read_pointer_value e q false Heo Hq) as (ch & Hr & Hc & _).
  destruct (on_shard_quiet c (read_pointer_internal q false) e _ _ h Hs He Hr) as (h' & Ho & Hqt & _); try done.
  by exists h', (ptr_value e q).
Qed.

Lemma index_deletes_spec c ops h :
  shards_ok h → settled h c → ∃ h' ds, index_deletes c ops h = (h', Ok ds) ∧ quiet h h'.
Proof.
  revert h; induction ops as [|op ops IH]; intros h Hok Hs; cbn [index_deletes]; [by exists h, []|].
  destruct op as [| |key ts| | |]; try by apply IH.
  assert (∃ h' d, deleted_doc c key h = (h', Ok d) ∧ quiet h h') as (h1 & d & E1 & Q1).
  { unfold deleted_doc. destruct (cached_doc h c key); [by eexists _, _|].
    destruct (shards h !! c) as [e|] eqn:He; cbn [mbind option_bind]; [|by eexists _, _].
    destruct (index (idx e) !! key) as [q|] eqn:Hq; [|by eexists _, _].
    destruct (read_ptr_quiet c h e q Hok Hs He) as (h' & r & -> & Hqt).
    { destruct (Hok _ _ He) as (_ & _ & Hp & _). by eapply Hp. }
    destruct r as [b|]; [|by eexists _, _]. by eexists _, _. }
  rewrite (hm_bind_ok _ _ _ _ _ E1). destruct Q1 as [C1 L1].
  destruct (IH h1) as (h2 & ds & E2 & Q2); [by apply (calm_ok _ _ C1)|by apply (calm_settled _ _ C1)|].
  rewrite (hm_bind_ok _ _ _ _ _ E2). eexists h2, (d ++ ds). split; [done|]. transitivity h1; [by split|done].
Qed.

Lemma bump_eq keys h :
  bump_versions_by_keys keys h = let '(g, m) := bumped_versions (global_version h) keys (doc_versions h) in h_with_versions g m h.
Proof.
  unfold bump_versions_by_keys, bumped_versions.
  assert (∀ g m, foldl (λ h key, h_with_versions (as_u64 (global_version h + 1)) (<[key := global_version h]> (doc_versions h)) h)
      (h_with_versions g m h) keys =
      let '(g, m) := foldl (λ gm k, (as_u64 (gm.1 + 1), <[k := gm.1]> gm.2)) (g, m) keys in h_with_versions g m h) as Hgen.
  { induction keys as [|k keys IH]; intros g m; [done|]. cbn [foldl]. exact (IH (as_u64 (g + 1)) (<[k := g]> m)). }
  specialize (Hgen (global_version h) (doc_versions h)). assert (h_with_versions (global_version h) (doc_versions h) h = h) as E by (by destruct h).
  by rewrite E in Hgen.
Qed.

(** ** Applying the work of one collection *)

(** The collection is loaded and not encrypted. *)
Definition plain_at h (c : bytes) : Prop := ∃ e, shards h !! c = Some e ∧ encryption (wal e) = None.

Lemma plain_at_calm h h' c : calm h h' → plain_at h c → plain_at h' c.
Proof. intros Hc (e & He & Hn). destruct (calm_wal _ _ Hc c e He) as (e' & He' & Ew). exists e'. by rewrite Ew. Qed.

Record applied (live : gset bytes) (c : bytes) w h h' : Prop := {
  ap_ok : shards_ok h';
  ap_settings : settings h' = settings h;
  ap_clock : last_ts_watermark h' = last_ts_watermark h;
  ap_claims : claims h' = claims h;
  ap_settled c' : settled h c' → settled h' c';
  ap_plain c' : plain_at h c' → plain_at h' c';
  ap_view c' : settled h c' → view_of h' c' = if bool_decide (c' = c) then foldl vupd (view_of h c) (work_vals w) else view_of h c';
  ap_index c' : settled h c' →
    index_of h' c' = if bool_decide (c' = c) then foldl upd (index_of h c) (put_updates w ++ delete_updates w) else index_of h c';
  ap_versions : (global_version h', doc_versions h') =
    let '(g, m) := bumped_versions (global_version h) (w_keys w) (doc_versions h) in (g, cleared (w_deleted w) live m);
  ap_cache : doc_cache h' = foldl (λ m k, base.delete (cache_key c k) m) (doc_cache h) ((w_index_puts w).*1 ++ deleted_keys (w_ops w));
  ap_notified : notified h' = notified h ++ w_events w }.

(** The changes after the lock is released do not touch the collections. *)
Definition same_shards h h' : Prop := shards h' = shards h ∧ disk h' = disk h ∧ settings h' = settings h ∧
  last_ts_watermark h' = last_ts_watermark h ∧ claims h' = claims h.

Lemma enqueue_same op h : same_shards h (enqueue_index_update op h) ∧ doc_versions (enqueue_index_update op h) = doc_versions h ∧
  global_version (enqueue_index_update op h) = global_version h ∧ doc_cache (enqueue_index_update op h) = doc_cache h ∧
  notified (enqueue_index_update op h) = notified h.
Proof. unfold enqueue_index_update. destruct (io_puts op), (io_deletes op); done. Qed.

Lemma touch_same c w h : same_shards h (touch_index c w h) ∧ doc_versions (touch_index c w h) = doc_versions h ∧
  global_version (touch_index c w h) = global_version h ∧ doc_cache (touch_index c w h) = doc_cache h ∧
  notified (touch_index c w h) = notified h.
Proof. unfold touch_index. destruct (w_ops w); done. Qed.

Lemma same_shards_facts h h' : same_shards h h' →
  (∀ c, view_of h' c = view_of h c ∧ index_of h' c = index_of h c) ∧ (shards_ok h → shards_ok h') ∧
  (∀ c, settled h c → settled h' c) ∧ (∀ c, plain_at h c → plain_at h' c).
Proof. intros (E1 & E2 & _). unfold view_of, index_of, shards_ok, settled, plain_at. rewrite E1, E2. done. Qed.

Lemma apply_work_spec now live c w h :
  shards_ok h → settled h c → plain_at h c →
  ∃ h', apply_work from_secret now live (c, w) h = (h', Ok tt) ∧ applied live c w h h'.
Proof.
  intros Hok Hs Hp. unfold apply_work. rewrite (hm_bind_ok _ _ h (touch_index c w h) tt) by done.
  destruct (touch_same c w h) as (S0 & V0 & G0 & D0 & N0). destruct (same_shards_facts _ _ S0) as (F0 & O0 & T0 & P0).
  set (h0 := touch_index c w h) in *. clearbody h0.
  destruct (get_shard_spec from_secret now c h0 (O0 Hok) (T0 _ Hs)) as (h1 & e1 & E1 & Q1 & He1). rewrite (hm_bind_ok _ _ _ _ _ E1).
  destruct (index_deletes_spec c (w_ops w) h1) as (h2 & ds & E2 & Q2).
  { apply (calm_ok _ _ (proj1 Q1)), O0, Hok. } { apply (calm_settled _ _ (proj1 Q1)), T0, Hs. }
  rewrite (hm_bind_ok _ _ _ _ _ E2). assert (quiet h0 h2) as Q by (by transitivity h1). destruct Q as [C L]. clear Q1 Q2 E1 E2.
  destruct (plain_at_calm _ _ _ C (P0 _ Hp)) as (e2 & He2 & Hn2).
  assert (store_ok e2) as Hoe by (eapply (calm_ok _ _ C (O0 Hok)); exact He2).
  destruct (write_shard_spec now w e2 Hoe Hn2) as (e3 & E3 & Ho3 & Hn3 & Hv3 & Hi3).
  assert (on_shard c (write_shard now w) h2 = (h_with_shards (<[c := e3]> (shards h2)) (disk h2) h2, Ok tt)) as E4 by (unfold on_shard; by rewrite He2, E3).
  rewrite (hm_bind_ok _ _ _ _ _ E4). set (h3 := h_with_shards (<[c := e3]> (shards h2)) (disk h2) h2).
  rewrite (hm_bind_ok _ _ h3 (bump_versions_by_keys (w_keys w) h3) tt) by done. rewrite bump_eq.
  pose proof (calm_outputs _ _ C) as Out. unfold outputs in Out. injection Out as O1 O2 O3 O4 O5 O6.
  change (global_version h3) with (global_version h2). change (doc_versions h3) with (doc_versions h2). rewrite O1, O2, G0, V0.
  destruct (bumped_versions (global_version h) (w_keys w) (doc_versions h)) as [g m] eqn:Hb. set (h4 := h_with_versions g m h3).
  rewrite (hm_bind_ok _ _ h4 (clear_versions_by_keys (w_deleted w) live h4) tt) by done. set (h5 := clear_versions_by_keys (w_deleted w) live h4).
  rewrite (hm_bind_ok _ _ h5 (uncache c ((w_index_puts w).*1 ++ deleted_keys (w_ops w)) h5) tt) by done. set (h6 := uncache _ _ h5).
  rewrite (hm_bind_ok _ _ h6 (enqueue_index_update (mkIndexOp c (w_index_puts w) ds) h6) tt) by done.
  destruct (enqueue_same (mkIndexOp c (w_index_puts w) ds) h6) as (S7 & V7 & G7 & D7 & N7).
  set (h7 := enqueue_index_update _ h6) in *. clearbody h7. eexists. split; [done|].
  set (h8 := notify_watchers (w_events w) h7).
  assert (same_shards h3 h8) as S8.
  { destruct S7 as (A1 & A2 & A3 & A4 & A5). unfold same_shards, claims, settings in *. cbn in *. by rewrite A1, A2, A3, A4, A5. }
  destruct (same_shards_facts _ _ S8) as (F8 & O8 & T8 & P8). destruct S8 as (_ & _ & B3 & B4 & B5).
  destruct S0 as (Sh0 & Di0 & Se0 & Cl0 & Cm0). split.
  - apply O8. apply map_Forall_insert_2; [done|]. apply (calm_ok _ _ C), O0, Hok.
  - rewrite B3. change (settings h3) with (settings h2). by rewrite (calm_settings _ _ C).
  - rewrite B4. change (last_ts_watermark h3) with (last_ts_watermark h2). by rewrite (calm_clock _ _ C).
  - rewrite B5. change (claims h3) with (claims h2). by rewrite L.
  - intros c' Hc'. apply T8. change (settled h3 c') with (settled h2 c'). by apply (calm_settled _ _ C), T0.
  - intros c' Hc'. apply P8. unfold plain_at. cbn [shards h3 h_with_shards]. destruct (decide (c = c')) as [->|Hne].
    + rewrite lookup_insert_eq. eauto.
    + rewrite lookup_insert_ne by done. apply (plain_at_calm _ _ _ C), P0, Hc'.
  - intros c' Hc'. rewrite (proj1 (F8 c')). unfold view_of at 1. cbn [shards h3 h_with_shards]. case_bool_decide as Hcc.
    + subst c'. rewrite lookup_insert_eq, Hv3. f_equal. rewrite <-(proj1 (F0 c)). rewrite <-(calm_view _ _ C _ (T0 _ Hc')). unfold view_of. by rewrite He2.
    + rewrite lookup_insert_ne by done. rewrite <-(proj1 (F0 c')). by rewrite <-(calm_view _ _ C _ (T0 _ Hc')).
  - intros c' Hc'. rewrite (proj2 (F8 c')). unfold index_of at 1. cbn [shards h3 h_with_shards]. case_bool_decide as Hcc.
    + subst c'. rewrite lookup_insert_eq, Hi3. f_equal. rewrite <-(proj2 (F0 c)). rewrite <-(calm_index _ _ C _ (T0 _ Hc')). unfold index_of. by rewrite He2.
    + rewrite lookup_insert_ne by done. rewrite <-(proj2 (F0 c')). by rewrite <-(calm_index _ _ C _ (T0 _ Hc')).
  - rewrite Hb. cbn [h8 notify_watchers h_with_outputs global_version doc_versions]. by rewrite V7, G7.
  - cbn [h8 notify_watchers h_with_outputs doc_cache]. rewrite D7. cbn. by rewrite O3, D0.
  - cbn [h8 notify_watchers h_with_outputs notified]. rewrite N7. cbn. by rewrite O6, N0.
Qed.

(** ** Applying all work *)

Abbreviation Works := (list (bytes * ShardWork)).
Definition work_in (l : Works) (c : bytes) : ShardWork := default empty_work ((list_to_map l : gmap bytes ShardWork) !! c).

Record applied_all (live : gset bytes) (l : Works) h h' : Prop := {
  all_ok : shards_ok h';
  all_settings : settings h' = settings h;
  all_clock : last_ts_watermark h' = last_ts_watermark h;
  all_claims : claims h' = claims h;
  all_settled c : settled h c → settled h' c;
  all_plain c : plain_at h c → plain_at h' c;
  all_view c : settled h c → view_of h' c = foldl vupd (view_of h c) (work_vals (work_in l c));
  all_index c : settled h c → index_of h' c = foldl upd (index_of h c) (put_updates (work_in l c) ++ delete_updates (work_in l c));
  all_cache : doc_cache h' ⊆ doc_cache h;
  all_notified : notified h' = notified h ++ (l ≫= λ cw, w_events cw.2) }.

Lemma apply_all_spec now live l h :
  shards_ok h → NoDup l.*1 → Forall (λ cw : bytes * ShardWork, settled h cw.1 ∧ plain_at h cw.1) l →
  ∃ h', each (apply_work from_secret now live) l h = (h', Ok tt) ∧ applied_all live l h h' ∧
    (global_version h', doc_versions h') =
      foldl (λ gm cw, let '(g, m) := bumped_versions gm.1 (w_keys cw.2) gm.2 in (g, cleared (w_deleted cw.2) live m))
        (global_version h, doc_versions h) l.
Proof.
  revert h; induction l as [|[c w] l IH]; intros h Hok Hnd Hl; cbn [each foldl].
  { exists h. split; [done|]. split; [|done]. split; try done. by rewrite app_nil_r. }
  rewrite fmap_cons in Hnd. apply NoDup_cons in Hnd as [Hc Hnd]. apply Forall_cons in Hl as [[Hs Hp] Hl].
  destruct (apply_work_spec now live c w h Hok Hs Hp) as (h1 & E1 & A1). rewrite (hm_bind_ok _ _ _ _ _ E1).
  destruct (IH h1) as (h2 & E2 & A2 & V2); [by apply A1|done| |].
  { eapply Forall_impl; [exact Hl|]. intros [c' w'] [Hs' Hp']. split; [by apply (ap_settled _ _ _ _ _ A1)|by apply (ap_plain _ _ _ _ _ A1)]. }
  exists h2. split; [exact E2|]. split; [|by rewrite V2, (ap_versions _ _ _ _ _ A1)].
  assert (∀ c', work_in ((c, w) :: l) c' = if bool_decide (c' = c) then w else work_in l c') as Hwi.
  { intros c'. unfold work_in. cbn [list_to_map foldr curry fst snd]. case_bool_decide as Hcc; [subst; by rewrite lookup_insert_eq|by rewrite lookup_insert_ne]. }
  assert (work_in l c = empty_work) as Hwc.
  { unfold work_in. by rewrite not_elem_of_list_to_map_1. }
  split.
  - apply A2.
  - by rewrite (all_settings _ _ _ _ A2), (ap_settings _ _ _ _ _ A1).
  - by rewrite (all_clock _ _ _ _ A2), (ap_clock _ _ _ _ _ A1).
  - by rewrite (all_claims _ _ _ _ A2), (ap_claims _ _ _ _ _ A1).
  - intros c' Hs'. by apply (all_settled _ _ _ _ A2), (ap_settled _ _ _ _ _ A1).
  - intros c' Hs'. by apply (all_plain _ _ _ _ A2), (ap_plain _ _ _ _ _ A1).
  - intros c' Hs'. rewrite (all_view _ _ _ _ A2) by (by apply (ap_settled _ _ _ _ _ A1)). rewrite (ap_view _ _ _ _ _ A1), Hwi by done.
    case_bool_decide; [subst; by rewrite Hwc|done].
  - intros c' Hs'. rewrite (all_index _ _ _ _ A2) by (by apply (ap_settled _ _ _ _ _ A1)). rewrite (ap_index _ _ _ _ _ A1), Hwi by done.
    case_bool_decide; [subst; by rewrite Hwc|done].
  - etransitivity; [apply (all_cache _ _ _ _ A2)|]. rewrite (ap_cache _ _ _ _ _ A1). clear.
    generalize (doc_cache h) as m. induction ((w_index_puts w).*1 ++ deleted_keys (w_ops w)) as [|k ks IH]; intros m; [done|].
    cbn [foldl]. etransitivity; [apply IH|]. apply delete_subseteq.
  - rewrite (all_notified _ _ _ _ A2), (ap_notified _ _ _ _ _ A1), <-app_assoc. done.
Qed.

(** ** The write path *)

Definition stamp_of (nanos w : Z) : Z := if nanos / 1000 <=? w then Z.min (w + 1) (2 ^ 63 - 1) else nanos / 1000.
(** A batch that was refused: no collection, version, cache, claim or watcher saw it. *)
Record refused (t : Z) h h' : Prop := {
  rf_outputs : outputs h' = outputs h;
  rf_settings : settings h' = settings h;
  rf_clock : last_ts_watermark h' = t;
  rf_ok : shards_ok h';
  rf_settled c : settled h c → settled h' c;
  rf_plain c : plain_at h c → plain_at h' c;
  rf_gates : gates_ok no_prep h';
  rf_view c : settled h c → view_of h' c = view_of h c;
  rf_index c : settled h c → index_of h' c = index_of h c;
  rf_claims : ledger_ok (unique_ledger h) → claims_of (unique_ledger h') = claims_of (unique_ledger h) }.

(** A batch with effects [es]. *)
Record committed (t : Z) (es : list Effect) h h' : Prop := {
  cm_ok : shards_ok h';
  cm_settings : settings h' = settings h;
  cm_clock : last_ts_watermark h' = t;
  cm_view c : settled h c → view_of h' c = foldl vupd (view_of h c) (batch_vals c es);
  cm_index c : settled h c → index_of h' c = foldl upd (index_of h c) (batch_ptrs t c es);
  cm_cache : doc_cache h' ⊆ doc_cache h;
  cm_settled c : settled h c → settled h' c;
  cm_plain c : plain_at h c → plain_at h' c;
  cm_gates : gates_ok no_prep h';
  cm_ledger : ledger_ok (unique_ledger h) → ledger_ok (unique_ledger h');
  cm_cover v : gates_disjoint h → ledger_ok (unique_ledger h) → cover to_lowercase h (unique_ledger h) v →
    cover to_lowercase h' (unique_ledger h') (foldl doc_step v es) }.

(** What a batch needs: its collections are loaded, unencrypted and fit for it. *)
Definition batch_ok (t : Z) (ms : list BatchMutation) h : Prop :=
  shards_ok h ∧ Forall (mut_ok h t) ms ∧ gates_ok no_prep h ∧ ∀ c, c ∈ (ms ≫= cols_of) → settled h c ∧ plain_at h c.

Lemma record_audit_same a h : ∃ b, record_audit a h = h_with_outputs (index_touched h) (index_queue h) (notified h) b h.
Proof. unfold record_audit. destruct (enable_audit_log (config h)); [by eexists|]. exists (audit_data h). by destruct h. Qed.

Lemma prep_rollback p h p' h' :
  prep_step (p, h) (p', h') → undo p = [] → ledger_ok (unique_ledger h) →
  claims_of (rollback (unique_ledger h') (undo p')) = claims_of (unique_ledger h).
Proof.
  intros [_ Hs] Hu Hl. destruct (Hs Hl) as (_ & new & En & Hn). cbn in En, Hn. rewrite Hu in En. rewrite rollback_claims, En. exact Hn.
Qed.

(** The versions a batch leaves, by the works in their order. *)
Definition work_versions (live : gset bytes) (l : Works) (gm : Z * gmap bytes Z) : Z * gmap bytes Z :=
  foldl (λ gm cw, let '(g, m) := bumped_versions gm.1 (w_keys cw.2) gm.2 in (g, cleared (w_deleted cw.2) live m)) gm l.

Lemma write_batch_internal_spec now nanos ms h :
  let t := stamp_of nanos (last_ts_watermark h) in
  batch_ok t ms h →
  ∃ h' r, write_batch_internal from_secret to_lowercase now nanos ms h = (h', r) ∧
    ((∃ x, r = Err x ∧ refused t h h' ∧ forallb is_del ms = false) ∨
     (∃ ids ess, r = Ok ids ∧ Forall3 (mutation_effects h t) ms ids ess ∧ committed t (concat ess) h h' ∧
        ∃ l : Works, NoDup l.*1 ∧ (∀ c, work_in l c = work_of t c (concat ess)) ∧
          (global_version h', doc_versions h') =
            work_versions (live_keys (list_to_map l)) l (global_version h, doc_versions h) ∧
          notified h' = notified h ++ (l ≫= λ cw, w_events cw.2))).
Proof.
  intros t (Hok & Hms & Hg & Hcols). unfold write_batch_internal.
  assert (stamp nanos h = (h_with_clock t (id_sequence h) h, Ok t)) as -> by done. set (h0 := h_with_clock t (id_sequence h) h).
  assert (Forall (mut_ok h0 t) ms) as Hms0 by done.
  destruct (prepare_all_spec from_secret to_lowercase now nanos t ms no_prep h0 []) as (p1 & h1 & r1 & E1 & N1 & S1 & G1 & W1 & D1 & R1);
    [done|done|done|done|].
  rewrite E1. pose proof (proj1 S1) as C1. cbn in C1.
  destruct r1 as [[]|x|]; [| |done].
  2: { eexists _, _. split; [done|]. left. exists x. split; [done|]. split; [|by destruct (forallb is_del ms); [specialize (D1 eq_refl)|]]. split.
       - exact (calm_outputs _ _ C1).
       - exact (calm_settings _ _ C1).
       - exact (calm_clock _ _ C1).
       - by apply (calm_ok _ _ C1).
       - intros c Hc. exact (calm_settled _ _ C1 c Hc).
       - intros c Hc. exact (plain_at_calm _ _ c C1 Hc).
       - intros c defs [Hx|Hx]; [done|]. apply (G1 c defs). by right.
       - intros c Hc. exact (calm_view _ _ C1 c Hc).
       - intros c Hc. exact (calm_index _ _ C1 c Hc).
       - intros Hl. exact (prep_rollback _ _ _ _ S1 eq_refl Hl). }
  destruct (R1 eq_refl) as (ids & ess & A1 & F1 & T1 & V1). cbn [assigned_ids no_prep app] in A1.
  set (l := hash_iter (shard_map p1)). assert (l ≡ₚ map_to_list (shard_map p1)) as Hperm by apply hash_iter_perm.
  assert (NoDup l.*1) as Hnd by (rewrite Hperm; apply NoDup_fst_map_to_list).
  assert (list_to_map l = shard_map p1) as Hlm by (rewrite (list_to_map_proper _ _ Hnd Hperm); apply list_to_map_to_list).
  destruct (apply_all_spec now (live_keys (shard_map p1)) l h1) as (h2 & E2 & A2 & V2); [by apply (calm_ok _ _ C1)|done| |].
  { apply Forall_forall. intros [c w] Hin. rewrite Hperm in Hin. apply elem_of_map_to_list in Hin.
    destruct (W1 c) as [Hc|Hc]; [eauto| |by destruct Hc]. destruct (Hcols c Hc) as [Hs Hp].
    split; [by apply (calm_settled _ _ C1)|by apply (plain_at_calm _ _ _ C1)]. }
  rewrite E2. destruct (record_audit_same (mkAudit ABatch b#("<sharded>") None true) h2) as [au Hau].
  eexists _, _. split; [by rewrite Hau, A1|]. right. exists ids, ess. split; [done|].
  assert (∀ c, work_in l c = work_of t c (concat ess)) as Hwi by (intros c; unfold work_in; by rewrite Hlm, T1).
  split; [exact F1|]. split.
  - destruct (calm_composite _ _ C1) as [Ecm _].
    pose proof (all_claims _ _ _ _ A2) as Ecl. injection Ecl as El Eg.
    pose proof (all_settings _ _ _ _ A2) as Est. unfold settings in Est. injection Est as _ _ _ _ _ _ Ecm2. split.
    + apply A2.
    + etransitivity; [exact (all_settings _ _ _ _ A2)|exact (calm_settings _ _ C1)].
    + etransitivity; [exact (all_clock _ _ _ _ A2)|exact (calm_clock _ _ C1)].
    + intros c Hc. change (view_of h2 c = foldl vupd (view_of h c) (batch_vals c (concat ess))).
      rewrite (all_view _ _ _ _ A2 c) by (by apply (calm_settled _ _ C1)). rewrite Hwi, work_vals_of. f_equal.
      by rewrite (calm_view _ _ C1 c Hc).
    + intros c Hc. change (index_of h2 c = foldl upd (index_of h c) (batch_ptrs t c (concat ess))).
      rewrite (all_index _ _ _ _ A2 c) by (by apply (calm_settled _ _ C1)). rewrite Hwi, batch_ptrs_of. f_equal.
      by rewrite (calm_index _ _ C1 c Hc).
    + etransitivity; [apply (all_cache _ _ _ _ A2)|]. pose proof (calm_outputs _ _ C1) as Eo. unfold outputs in Eo. by injection Eo as _ _ -> _.
    + intros c Hc. by apply (all_settled _ _ _ _ A2 c), (calm_settled _ _ C1).
    + intros c Hc. by apply (all_plain _ _ _ _ A2 c), (plain_at_calm _ _ _ C1).
    + intros c defs. cbn. rewrite Eg, Ecm2. intros [Hx|Hx]; [by rewrite lookup_empty in Hx|apply G1; by right].
    + intros Hl. change (ledger_ok (unique_ledger h2)). rewrite El. by apply S1.
    + intros v Hdj Hl Hv. unfold cover. cbn. rewrite El, Ecm2. by apply V1.
  - exists l. split; [done|]. split; [done|]. pose proof (calm_outputs _ _ C1) as Eo. unfold outputs in Eo. injection Eo as E3 E4 _ _ _ E5.
    split; [|cbn; by rewrite (all_notified _ _ _ _ A2), E5]. cbn. rewrite V2, E3, E4, Hlm. done.
Qed.
End FacadeApply.
