(* ===== verification/FacadeState.v ===== *)
(** * Invariants of the facade over batches

    What a batch does to one document, to its version and to the claims and the cache
    that depend on them; from these, that unique indexes are enforced, that validated
    reads are current, and that the document cache is coherent. *)

From stdpp Require Import prelude list gmap strings.
From Stdlib Require Import ZArith Lia.
From S2P Require Import Prelude RustStd Error Config Crypto VFile Value Doc DocFacts DocCodec DocAccess Wal WalFacts PageCache StorageIndex StorageIndexFacts.
From S2P Require Import Segment SegmentFacts Blob Storage StorageMaint StorageFacts StorageView StorageCompact StorageReopen StorageModels.
From S2P Require Import Filter Schema Composite CompositeFacts Ledger CompositeManager SyncCore SyncFacts Facade FacadeFacts FacadeApply.

Local Open Scope Z_scope.
Local Open Scope hako_scope.

Abbreviation Effect := (bytes * bytes * option HakoDoc)%type.

(** ** One document *)

(** The last update of a key decides. *)
Lemma vupds_last (l : list (bytes * option bytes)) m k :
  foldl vupd m l !! k = match last (List.filter (λ x, bytes_eqb x.1 k) l) with Some x => x.2 | None => m !! k end.
Proof.
  induction l as [|[k' ov] l IH] using rev_ind; [done|]. rewrite foldl_app, List.filter_app. cbn [foldl List.filter fst].
  unfold vupd at 1. cbn [fst snd]. destruct (bytes_eqb k' k) eqn:Hk.
  - apply bytes_eqb_eq in Hk as ->. rewrite last_snoc. cbn. destruct ov; [by rewrite lookup_insert_eq|by rewrite lookup_delete_eq].
  - rewrite app_nil_r, <-IH. assert (k' ≠ k) by (intros ->; by rewrite bytes_eqb_refl in Hk).
    destruct ov; [by rewrite lookup_insert_ne|by rewrite lookup_delete_ne].
Qed.

(** The effects on one document, in order. *)
Definition effects_on (c id : bytes) (es : list Effect) : list (option HakoDoc) :=
  omap (λ x : Effect, if bool_decide (x.1 = (c, id)) then Some x.2 else None) es.

Lemma filter_map_key {A} (f : bytes * A → bytes * option bytes) (l : list (bytes * A)) k :
  (∀ x, (f x).1 = x.1) → List.filter (λ x, bytes_eqb x.1 k) (f <$> l) = f <$> List.filter (λ x, bytes_eqb x.1 k) l.
Proof.
  intros Hf. induction l as [|x l IH]; [done|]. rewrite fmap_cons. cbn [List.filter]. rewrite Hf, IH. by destruct (bytes_eqb x.1 k).
Qed.

Lemma effects_on_in c id es :
  (λ x : bytes * option HakoDoc, x.2) <$> List.filter (λ x, bytes_eqb x.1 id) (effects_in c es) = effects_on c id es.
Proof.
  induction es as [|[[c' id'] od] es IH]; [done|]. unfold effects_in, effects_on in *. cbn [omap list_omap fst snd].
  case_bool_decide as Hc; case_bool_decide as Hx; cbn [List.filter fst snd].
  - injection Hx as -> ->. rewrite bytes_eqb_refl, fmap_cons. by rewrite IH.
  - destruct (bytes_eqb id' id) eqn:E; [apply bytes_eqb_eq in E; congruence|]. exact IH.
  - congruence.
  - exact IH.
Qed.

Lemma filter_comm {A} (f g : A → bool) l : List.filter f (List.filter g l) = List.filter g (List.filter f l).
Proof. induction l as [|x l IH]; [done|]. cbn. destruct (g x) eqn:G, (f x) eqn:F; cbn; rewrite ?G, ?F, ?IH; done. Qed.

(** A document that a batch leaves in place was not deleted by it, and is what the
    last put made it. *)
Lemma batch_value c id es m b :
  foldl vupd m (batch_vals c es) !! id = Some b →
  match last (effects_on c id es) with Some od => encode <$> od = Some b | None => m !! id = Some b end.
Proof.
  rewrite vupds_last. unfold batch_vals. rewrite List.filter_app, !filter_map_key by done.
  rewrite !(filter_comm (λ x : bytes * option HakoDoc, bytes_eqb x.1 id)).
  rewrite <-effects_on_in. set (l := List.filter (λ x, bytes_eqb x.1 id) (effects_in c es)).
  destruct (List.filter (λ x, negb (is_put x)) l) as [|x l'] eqn:Hdel.
  - rewrite fmap_nil, app_nil_r. assert (List.filter is_put l = l) as ->.
    { clear -Hdel. induction l as [|x l IH]; [done|]. cbn in *. destruct (is_put x); [by rewrite IH|done]. }
    rewrite !fmap_last. destruct (last l) as [[k od]|]; done.
  - rewrite fmap_cons. intros Hv. exfalso. rewrite last_app in Hv.
    assert (∃ y, last (eff_val x :: (eff_val <$> l')) = Some y ∧ y.2 = None) as (y & Hy & Hn).
    { rewrite <-fmap_cons, <-Hdel, fmap_last. destruct (last (List.filter (λ x, negb (is_put x)) l)) as [[k od]|] eqn:E.
      - eexists. split; [done|]. apply last_Some_elem_of, list_elem_of_In, filter_In in E as [_ E]. by destruct od.
      - apply last_None in E. congruence. }
    rewrite Hy, Hn in Hv. done.
Qed.

Lemma batch_untouched c id es m :
  effects_on c id es = [] → foldl vupd m (batch_vals c es) !! id = m !! id.
Proof.
  intros Hn. rewrite vupds_last. unfold batch_vals. rewrite List.filter_app, !filter_map_key by done.
  rewrite !(filter_comm (λ x : bytes * option HakoDoc, bytes_eqb x.1 id)).
  rewrite <-effects_on_in in Hn. apply fmap_nil_inv in Hn. by rewrite Hn.
Qed.

(** ** Versions *)

Abbreviation Works := (list (bytes * ShardWork)).
Definition touched (l : Works) (k : bytes) : Prop := ∃ cw, cw ∈ l ∧ k ∈ w_keys cw.2.
Definition total_keys (l : Works) : Z := foldr (λ cw n, zlen (w_keys cw.2) + n) 0 l.

Lemma total_keys_nonneg l : 0 <= total_keys l.
Proof.
  induction l as [|cw l IH]; [done|]. cbn [total_keys foldr]. fold (total_keys l). pose proof (zlen_nonneg (w_keys cw.2)). lia.
Qed.

Lemma work_versions_spec live l g m :
  0 <= g → g + total_keys l < 2 ^ 64 →
  (∀ cw k, cw ∈ l → k ∈ w_deleted cw.2 → k ∈ w_keys cw.2) →
  (∀ cw k, cw ∈ l → k ∈ w_keys cw.2 → k ∉ w_deleted cw.2 → k ∈ live) →
  let '(g', m') := work_versions live l (g, m) in
  g' = g + total_keys l ∧ ∀ k, (¬ touched l k → m' !! k = m !! k) ∧
    (touched l k → k ∈ live → ∃ v, m' !! k = Some v ∧ g <= v < g') ∧ (touched l k → k ∉ live → m' !! k = None).
Proof.
  revert g m; induction l as [|[c w] l IH]; intros g m Hg Hb Hdk Hlive; cbn [work_versions foldl total_keys foldr] in *.
  { split; [lia|]. intros k. split_and!; [done|..]; intros (cw & Hin & _); by apply not_elem_of_nil in Hin. }
  cbn [fst snd] in *. pose proof (zlen_nonneg (w_keys w)).
  pose proof (total_keys_nonneg l) as Htk.
  pose proof (bumped_spec (w_keys w) g m Hg ltac:(unfold total_keys in *; lia)) as Hbs.
  destruct (bumped_versions g (w_keys w) m) as [g1 m1]. destruct Hbs as (Eg & Hout & Hin).
  specialize (IH g1 (cleared (w_deleted w) live m1) ltac:(lia) ltac:(unfold total_keys in *; lia)).
  fold (work_versions live l (g1, cleared (w_deleted w) live m1)).
  destruct (work_versions live l (g1, cleared (w_deleted w) live m1)) as [g' m'].
  destruct IH as (Eg' & IH). { intros cw k Hcw. apply Hdk. by right. } { intros cw k Hcw. apply Hlive. by right. }
  fold (total_keys l) in *. split; [lia|]. intros k. destruct (IH k) as (I1 & I2 & I3).
  assert (touched ((c, w) :: l) k ↔ k ∈ w_keys w ∨ touched l k) as Ht.
  { unfold touched. split.
    - intros (cw & [->|Hcw]%elem_of_cons & Hk); [by left|right; eauto].
    - intros [Hk|(cw & Hcw & Hk)]; [exists (c, w)|exists cw]; (split; [|done]); [by left|by right]. }
  assert (Decision (touched l k)) as Hdec.
  { destruct (existsb (λ cw : bytes * ShardWork, bool_decide (k ∈ w_keys cw.2)) l) eqn:E; [left|right].
    - apply existsb_exists in E as (cw & Hcw & Hk). exists cw. split; [by apply list_elem_of_In|by apply bool_decide_eq_true in Hk].
    - intros (cw & Hcw & Hk). assert (existsb (λ cw : bytes * ShardWork, bool_decide (k ∈ w_keys cw.2)) l = true); [|congruence].
      apply existsb_exists. exists cw. split; [by apply list_elem_of_In|by apply bool_decide_eq_true]. }
  rewrite Ht. split_and!.
  - intros Hn. rewrite I1 by tauto. rewrite cleared_lookup, bool_decide_eq_false_2; [apply Hout; tauto|].
    intros [Hd _]. apply Hn. left. apply (Hdk (c, w)); [by left|done].
  - intros Hor Hl. destruct Hdec as [Hd|Hd]; [destruct (I2 Hd Hl) as (v & Hv & ?); exists v; split; [done|lia]|].
    destruct Hor as [Hk|]; [|done]. rewrite I1, cleared_lookup, bool_decide_eq_false_2 by (done || tauto).
    destruct (Hin k Hk) as (v & Hv & ?). exists v. split; [done|lia].
  - intros Hor Hl. destruct Hdec as [Hd|Hd]; [by apply I3|]. destruct Hor as [Hk|]; [|done].
    rewrite I1, cleared_lookup, bool_decide_eq_true_2; [done| |done]. split; [|done].
    destruct (decide (k ∈ w_deleted w)) as [|Hnd]; [done|]. destruct Hl. apply (Hlive (c, w)); [by left|done|done].
Qed.

Lemma live_keys_spec (l : Works) k :
  NoDup l.*1 → k ∈ live_keys (list_to_map l) ↔ ∃ cw, cw ∈ l ∧ k ∈ w_keys cw.2 ∧ k ∉ w_deleted cw.2.
Proof.
  intros Hnd. unfold live_keys. rewrite elem_of_list_to_set, list_elem_of_bind.
  assert (∀ cw, cw ∈ map_to_list (list_to_map l : gmap bytes ShardWork) ↔ cw ∈ l) as Hin.
  { intros [c w]. rewrite elem_of_map_to_list. symmetry. by apply elem_of_list_to_map. }
  split.
  - intros (cw & Hk & Hcw). exists cw. apply Hin in Hcw. apply list_elem_of_In, filter_In in Hk as [Hk Hd]. bool_simpl.
    split_and!; [done|by apply list_elem_of_In|done].
  - intros (cw & Hcw & Hk & Hd). exists cw. split; [|by apply Hin]. apply list_elem_of_In, filter_In.
    split; [by apply list_elem_of_In|]. by rewrite bool_decide_eq_false_2.
Qed.

Lemma works_of (l : Works) t es : NoDup l.*1 → (∀ c, work_in l c = work_of t c es) → ∀ c w, (c, w) ∈ l → w = work_of t c es.
Proof.
  intros Hnd Hw c w Hin. rewrite <-Hw. unfold work_in. by rewrite (elem_of_list_to_map_1 l c w).
Qed.

Lemma total_keys_bound (l : Works) t es : NoDup l.*1 → (∀ c w, (c, w) ∈ l → w = work_of t c es) → total_keys l <= zlen es.
Proof.
  intros Hnd Hw. assert (∀ cs : list bytes, NoDup cs → foldr (λ c n, zlen (effects_in c es) + n) 0 cs <= zlen es) as Hsum.
  { clear. intros cs Hnd. induction es as [|x es IH]; [clear Hnd; change (zlen (@nil Effect)) with 0; induction cs as [|c cs IHc]; cbn [foldr]; [lia|]; change (zlen (effects_in c [])) with 0; lia|].
    rewrite zlen_cons. assert (∀ cs, NoDup cs → foldr (λ c n, zlen (effects_in c (x :: es)) + n) 0 cs =
      foldr (λ c n, zlen (effects_in c es) + n) 0 cs + (if bool_decide (x.1.1 ∈ cs) then 1 else 0)) as Hstep; [|rewrite Hstep by done; case_bool_decide; lia].
    clear cs Hnd IH. intros cs Hnd. induction Hnd as [|c cs Hc Hnd IH]; [done|]. cbn [foldr]. rewrite IH. unfold effects_in at 1. cbn [omap list_omap].
    destruct (decide (x.1.1 = c)) as [Hx|Hx].
    - rewrite bool_decide_eq_true_2 by done. rewrite zlen_cons. fold (effects_in c es).
      rewrite bool_decide_eq_false_2 by (by rewrite Hx). rewrite bool_decide_eq_true_2 by (rewrite Hx; by left). lia.
    - rewrite bool_decide_eq_false_2 by done. fold (effects_in c es).
      rewrite (bool_decide_ext (x.1.1 ∈ c :: cs) (x.1.1 ∈ cs)) by (rewrite elem_of_cons; naive_solver). lia. }
  specialize (Hsum l.*1 Hnd). etransitivity; [|exact Hsum]. clear Hsum Hnd. induction l as [|[c w] l IH]; [done|].
  cbn [total_keys foldr fmap list_fmap fst snd]. assert (w = work_of t c es) as -> by (apply Hw; by left).
  destruct (work_of_matches t c es) as [_ _ _ _ Hk _]. rewrite Hk.
  assert (zlen (effects_in c es).*1 = zlen (effects_in c es)) as -> by (unfold zlen; by rewrite length_fmap).
  fold (total_keys l). specialize (IH ltac:(intros c' w' Hin; apply Hw; by right)). lia.
Qed.

(** Versions are below the counter and no two keys share one. *)
Definition distinct_versions (gm : Z * gmap bytes Z) : Prop :=
  (∀ k v, gm.2 !! k = Some v → v < gm.1) ∧ ∀ k k' v, gm.2 !! k = Some v → gm.2 !! k' = Some v → k = k'.

Lemma bumped_distinct keys g m :
  0 <= g → g + zlen keys < 2 ^ 64 → distinct_versions (g, m) → distinct_versions (bumped_versions g keys m).
Proof.
  unfold bumped_versions. revert g m; induction keys as [|k keys IH]; intros g m Hg Hb [H1 H2]; [done|]. cbn [foldl fst snd].
  rewrite zlen_cons in Hb. pose proof (zlen_nonneg keys). unfold as_u64 at 2. rewrite Z.mod_small by lia.
  apply IH; [lia|lia|]. cbn [fst snd] in *. split; cbn [fst snd].
  - intros k' v [[<- <-]|[_ Hl]]%lookup_insert_Some; [cbn; lia|]. apply H1 in Hl. cbn; lia.
  - intros k1 k2 v [[<- <-]|[N1 L1]]%lookup_insert_Some [[<- E]|[N2 L2]]%lookup_insert_Some; try done.
    + apply H1 in L2. lia.
    + apply H1 in L1. lia.
    + by apply (H2 k1 k2 v).
Qed.

Lemma work_versions_distinct live l g m :
  0 <= g → g + total_keys l < 2 ^ 64 → distinct_versions (g, m) → distinct_versions (work_versions live l (g, m)).
Proof.
  revert g m; induction l as [|[c w] l IH]; intros g m Hg Hb Hd; [done|]. cbn [total_keys foldr snd] in Hb. fold (total_keys l) in Hb.
  pose proof (total_keys_nonneg l). pose proof (zlen_nonneg (w_keys w)). unfold work_versions. cbn [foldl fst snd].
  pose proof (bumped_distinct (w_keys w) g m Hg ltac:(lia) Hd) as Hd1.
  pose proof (bumped_spec (w_keys w) g m Hg ltac:(lia)) as Hs. destruct (bumped_versions g (w_keys w) m) as [g1 m1].
  destruct Hs as (-> & _). apply IH; [lia|lia|]. destruct Hd1 as [D1 D2]. cbn [fst snd] in *. split; cbn [fst snd].
  - intros k v. rewrite cleared_lookup. case_bool_decide; [done|]. apply D1.
  - intros k k' v. rewrite !cleared_lookup. repeat case_bool_decide; try done. apply D2.
Qed.

Lemma work_versions_counter live l g m :
  0 <= g → g + total_keys l < 2 ^ 64 → (work_versions live l (g, m)).1 = g + total_keys l.
Proof.
  revert g m; induction l as [|[c w] l IH]; intros g m Hg Hb; [cbn; lia|]. cbn [total_keys foldr snd] in *. fold (total_keys l) in *.
  pose proof (total_keys_nonneg l). pose proof (zlen_nonneg (w_keys w)). unfold work_versions. cbn [foldl fst snd].
  pose proof (bumped_spec (w_keys w) g m Hg ltac:(lia)) as Hs. destruct (bumped_versions g (w_keys w) m) as [g1 m1].
  destruct Hs as (-> & _). fold (work_versions live l (g + zlen (w_keys w), cleared (w_deleted w) live m1)). rewrite IH; lia.
Qed.

Abbreviation deletes c ids := (MutDelete c <$> ids).

Section State.
Context `{CrcLaws} `{ZstdLaws} `{HashIterLaws} {cipher : Type} `{AeadLaws cipher}.
Context (from_secret : bytes → EncryptionContext cipher) (to_lowercase : bytes → bytes).
Abbreviation Hako := (Hako (cipher := cipher)).
Implicit Types (h : Hako).

(** ** The state of the database *)

Definition docs_of h (c id : bytes) : option HakoDoc := view_of h c !! id ≫= decode.
Definition current h : Z * gmap bytes Z := (global_version h, doc_versions h).
(** A cache entry whose version is still current is the document. *)
Definition coherent h : Prop :=
  ∀ key v d, doc_cache h !! key = Some (v, d) →
    v < global_version h ∧ ∀ c id, key = cache_key c id → doc_versions h !! id = Some v → docs_of h c id = Some d.

Record state_ok h : Prop := {
  so_shards : shards_ok h;
  so_settled c : settled h c;
  so_gates : gates_ok no_prep h;
  so_ledger : ledger_ok (unique_ledger h);
  so_disjoint : gates_disjoint h;
  so_cover : cover to_lowercase h (unique_ledger h) (docs_of h);
  so_counter : 0 <= global_version h;
  so_versions : distinct_versions (current h);
  so_cache : coherent h }.

Definition storable (x : Effect) : Prop := ∀ d, x.2 = Some d → doc_encodable d = true.
(** A batch that the store can take: see [batch_ok]; its documents can be encoded and
    the version counter has room. *)
Definition batch_fits (nanos : Z) (ms : list BatchMutation) h : Prop :=
  let t := stamp_of nanos (last_ts_watermark h) in
  batch_ok t ms h ∧
  ∀ ids ess, Forall3 (mutation_effects h t) ms ids ess →
    Forall storable (concat ess) ∧ global_version h + zlen (concat ess) < 2 ^ 64.

Lemma doc_steps v es c id :
  foldl doc_step v es c id = match last (effects_on c id es) with Some od => od | None => v c id end.
Proof using Type.
  revert v. induction es as [|x es IH] using rev_ind; intros v; [done|]. unfold effects_on. rewrite foldl_app, omap_app. cbn [foldl omap list_omap].
  unfold doc_step at 1. case_bool_decide; [by rewrite last_snoc|]. rewrite app_nil_r. apply IH.
Qed.

Lemma committed_doc t es h h' c id doc :
  committed to_lowercase t es h h' → Forall storable es → settled h c →
  docs_of h' c id = Some doc → foldl doc_step (docs_of h) es c id = Some doc.
Proof using Type.
  intros Hc Hst Hs. unfold docs_of at 1. rewrite (cm_view _ _ _ _ _ Hc c Hs).
  destruct (foldl vupd _ _ !! id) as [b|] eqn:Hb; [|done]. cbn [mbind option_bind]. intros Hd. apply batch_value in Hb.
  rewrite doc_steps. destruct (last (effects_on c id es)) as [od|] eqn:Hl.
  - destruct od as [d|]; [|done]. cbn in Hb. injection Hb as <-. rewrite decode_encode_doc in Hd; [congruence|].
    apply last_Some_elem_of, list_elem_of_omap in Hl as (x & Hx & Hq). case_bool_decide; [|done]. injection Hq as Hq.
    rewrite Forall_forall in Hst. by apply (Hst x).
  - unfold docs_of. by rewrite Hb.
Qed.

Lemma holds_claims l l' i q d : claims_of l = claims_of l' → holds l i q d ↔ holds l' i q d.
Proof using Type.
  intros E. assert (∀ l0 : UniqueLedger, holds l0 i q d ↔ ∃ f b, claims_of l0 !! i = Some (f, b) ∧ f !! q = Some d) as Hh.
  { intros l0. unfold holds, claims_of. rewrite lookup_fmap. split.
    - intros (c & -> & Hf). by exists (fwd c), (by_doc c).
    - intros (f & b & Hl & Hf). destruct (inner l0 !! i) as [c|]; [|done]. injection Hl as <- <-. by exists c. }
  by rewrite !Hh, E.
Qed.

Lemma ledger_ok_claims l l' : claims_of l' = claims_of l → ledger_ok l → ledger_ok l'.
Proof using Type.
  intros E Hl i c Hc. assert (claims_of l !! i = Some (fwd c, by_doc c)) as Hi by (rewrite <-E; unfold claims_of; by rewrite lookup_fmap, Hc).
  unfold claims_of in Hi. rewrite lookup_fmap in Hi. destruct (inner l !! i) as [c0|] eqn:Ei; [|done]. injection Hi as E1 E2.
  intros p d. rewrite <-E1, <-E2. by apply (Hl i c0).
Qed.

Lemma touched_effects (l : Works) t es k c :
  NoDup l.*1 → (∀ c, work_in l c = work_of t c es) → ¬ touched l k → effects_on c k es = [].
Proof using Type.
  intros Hnd Hw Hk. rewrite <-effects_on_in. destruct (work_of_matches t c es) as [_ _ _ _ Hkeys _].
  assert (k ∉ (effects_in c es).*1) as Hn.
  { rewrite <-Hkeys, <-Hw. unfold work_in. destruct ((list_to_map l : gmap bytes ShardWork) !! c) as [w|] eqn:E; [|apply not_elem_of_nil].
    intros Hin. apply Hk. exists (c, w). split; [by apply elem_of_list_to_map_2|done]. }
  assert (List.filter (λ x : bytes * option HakoDoc, bytes_eqb x.1 k) (effects_in c es) = []) as ->; [|done].
  revert Hn. generalize (effects_in c es) as l0. intros l0. clear. induction l0 as [|x l0 IH]; [done|].
  rewrite fmap_cons, not_elem_of_cons. intros [Hx Hn]. cbn [List.filter]. destruct (bytes_eqb x.1 k) eqn:E; [apply bytes_eqb_eq in E; congruence|by apply IH].
Qed.

(** What a batch means for the version of a key: untouched, fresh, or gone; an
    untouched key has the same documents. *)
Lemma committed_versions t es h h' (l : Works) :
  committed to_lowercase t es h h' → (∀ c, settled h c) → 0 <= global_version h → global_version h + zlen es < 2 ^ 64 →
  NoDup l.*1 → (∀ c, work_in l c = work_of t c es) →
  current h' = work_versions (live_keys (list_to_map l)) l (current h) →
  global_version h <= global_version h' ∧
  ∀ k, (¬ touched l k ∧ doc_versions h' !! k = doc_versions h !! k ∧ ∀ c, view_of h' c !! k = view_of h c !! k) ∨
       (touched l k ∧ ((∃ v, doc_versions h' !! k = Some v ∧ global_version h <= v) ∨
                       (k ∉ live_keys (list_to_map l) ∧ doc_versions h' !! k = None))).
Proof using Type.
  intros Hc Hs Hg Hb Hnd Hw Hv. pose proof (works_of l t es Hnd Hw) as Hwo. pose proof (total_keys_bound l t es Hnd Hwo) as Htb.
  assert (∀ cw k, cw ∈ l → k ∈ w_deleted cw.2 → k ∈ w_keys cw.2) as Hdk.
  { intros [c w] k Hin Hd. cbn [snd] in *. rewrite (Hwo c w Hin) in *. destruct (work_of_matches t c es) as [_ _ _ _ Hkeys Hdel].
    rewrite Hkeys. apply Hdel in Hd. apply last_Some_elem_of, list_elem_of_In, filter_In in Hd as [Hd _].
    apply list_elem_of_fmap. exists (k, None). split; [done|by apply list_elem_of_In]. }
  pose proof (work_versions_spec (live_keys (list_to_map l)) l (global_version h) (doc_versions h) Hg ltac:(lia) Hdk) as Hspec.
  unfold current in Hv. destruct (work_versions _ l _) as [g' m']. injection Hv as -> ->.
  destruct Hspec as (Eg & Hspec). { intros cw k Hin Hk Hd. apply live_keys_spec; [done|]. eauto. }
  split; [pose proof (total_keys_nonneg l); lia|]. intros k. destruct (Hspec k) as (S1 & S2 & S3).
  destruct (existsb (λ cw : bytes * ShardWork, bool_decide (k ∈ w_keys cw.2)) l) eqn:E.
  - right. assert (touched l k) as Ht.
    { apply existsb_exists in E as (cw & Hcw & Hk). exists cw. split; [by apply list_elem_of_In|by apply bool_decide_eq_true in Hk]. }
    split; [done|]. destruct (decide (k ∈ live_keys (list_to_map l))) as [Hlv|Hlv].
    + destruct (S2 Ht Hlv) as (v & Hvk & ?). left. exists v. split; [done|lia].
    + right. split; [done|by apply S3].
  - left. assert (¬ touched l k) as Hn.
    { intros (cw & Hcw & Hk). assert (existsb (λ cw : bytes * ShardWork, bool_decide (k ∈ w_keys cw.2)) l = true); [|congruence].
      apply existsb_exists. exists cw. split; [by apply list_elem_of_In|by apply bool_decide_eq_true]. }
    split_and!; [done|by apply S1|]. intros c. rewrite (cm_view _ _ _ _ _ Hc c (Hs c)). apply batch_untouched. by eapply touched_effects.
Qed.

(** A write of some keys: their versions are new, the claims cover the documents. *)
Lemma written_state keys h h' :
  state_ok h → shards_ok h' → (∀ c, settled h' c) → gates_ok no_prep h' → ledger_ok (unique_ledger h') → gates_disjoint h' →
  cover to_lowercase h' (unique_ledger h') (docs_of h') → global_version h + zlen keys < 2 ^ 64 →
  current h' = bumped_versions (global_version h) keys (doc_versions h) → doc_cache h' ⊆ doc_cache h →
  (∀ c k, k ∉ keys → docs_of h' c k = docs_of h c k) → state_ok h'.
Proof using Type.
  intros Ho Hsh Hs Hg Hl Hdj Hcov Hroom Hcur Hca Hk.
  pose proof (bumped_spec keys (global_version h) (doc_versions h) (so_counter _ Ho) Hroom) as Hbs.
  pose proof (bumped_distinct keys _ _ (so_counter _ Ho) Hroom (so_versions _ Ho)) as Hd. rewrite <-Hcur in Hd, Hbs.
  destruct Hbs as (Hgv & Hout & Hin). pose proof (zlen_nonneg keys). pose proof (so_counter _ Ho). split; try done; [lia|].
  intros key v d Hkey. apply (lookup_weaken _ (doc_cache h)) in Hkey; [|done]. destruct (so_cache _ Ho key v d Hkey) as [Hv Hc].
  split; [lia|]. intros c id -> Hid. destruct (decide (id ∈ keys)) as [Hik|Hik].
  { destruct (Hin id Hik) as (v' & Hv' & ?). rewrite Hid in Hv'. injection Hv' as <-. lia. }
  rewrite Hk by done. apply Hc; [done|]. by rewrite <-Hout.
Qed.

(** A change that keeps documents, versions and claims. *)
Lemma kept_state h h' :
  state_ok h → shards_ok h' → (∀ c, settled h' c) → settings h' = settings h → claims h' = claims h → current h' = current h →
  doc_cache h' ⊆ doc_cache h → (∀ c k, docs_of h' c k = docs_of h c k) → state_ok h'.
Proof using Type.
  intros Ho Hsh Hs Hset Hcl Hcur Hca Hk. unfold settings in Hset. injection Hset as _ _ _ _ _ _ Hcm. unfold claims in Hcl. injection Hcl as Hl Hg.
  pose proof Hcur as Hcur'. unfold current in Hcur'. injection Hcur' as Hgv Hdv. split; try done.
  - intros c defs. rewrite Hg, Hcm. apply (so_gates _ Ho).
  - rewrite Hl. apply Ho.
  - unfold gates_disjoint. rewrite Hcm. apply Ho.
  - intros c id doc d q. rewrite Hk, Hcm, Hl. apply (so_cover _ Ho).
  - rewrite Hgv. apply Ho.
  - rewrite Hcur. apply Ho.
  - intros key v d Hkey. rewrite Hgv, Hdv. apply (lookup_weaken _ (doc_cache h)) in Hkey; [|done]. destruct (so_cache _ Ho key v d Hkey) as [Hv Hc].
    split; [done|]. intros c id. rewrite Hk. apply Hc.
Qed.

(** ** Batches preserve it *)

Lemma disjoint_settings h h' : settings h' = settings h → gates_disjoint h → gates_disjoint h'.
Proof using Type. intros E. unfold settings in E. injection E as _ _ _ _ _ _ E. unfold gates_disjoint. by rewrite E. Qed.

Lemma refused_state t h h' : state_ok h → refused t h h' → state_ok h'.
Proof using Type.
  intros Ho Hr. pose proof (rf_claims _ _ _ Hr (so_ledger _ Ho)) as Ecl.
  pose proof (rf_outputs _ _ _ Hr) as Eo. unfold outputs in Eo. injection Eo as E1 E2 E3 _ _ _.
  pose proof (rf_settings _ _ _ Hr) as Es. unfold settings in Es. injection Es as _ _ _ _ _ _ E4.
  assert (∀ c id, docs_of h' c id = docs_of h c id) as Ed by (intros c id; unfold docs_of; by rewrite (rf_view _ _ _ Hr c (so_settled _ Ho c))).
  split.
  - apply Hr.
  - intros c. apply (rf_settled _ _ _ Hr), Ho.
  - apply Hr.
  - by eapply ledger_ok_claims, Ho.
  - eapply disjoint_settings; [apply Hr|apply Ho].
  - intros c id doc d q. rewrite Ed, E4. intros Hd Hin Hob. apply (holds_claims (unique_ledger h)); [done|]. by eapply (so_cover _ Ho).
  - rewrite E1. apply Ho.
  - unfold current. rewrite E1, E2. apply Ho.
  - intros key v d. rewrite E3, E1, E2. intros Hk. destruct (so_cache _ Ho key v d Hk) as [Hv Hd]. split; [done|].
    intros c id. rewrite Ed. apply Hd.
Qed.

Lemma committed_state t es h h' (l : Works) :
  state_ok h → committed to_lowercase t es h h' → Forall storable es → global_version h + zlen es < 2 ^ 64 →
  NoDup l.*1 → (∀ c, work_in l c = work_of t c es) →
  current h' = work_versions (live_keys (list_to_map l)) l (current h) → state_ok h'.
Proof using Type.
  intros Ho Hc Hst Hb Hnd Hw Hv. destruct (committed_versions t es h h' l Hc (so_settled _ Ho) (so_counter _ Ho) Hb Hnd Hw Hv) as [Hg Hk].
  pose proof (works_of l t es Hnd Hw) as Hwo. pose proof (total_keys_bound l t es Hnd Hwo) as Htb.
  split.
  - apply Hc.
  - intros c. apply (cm_settled _ _ _ _ _ Hc), Ho.
  - apply Hc.
  - apply (cm_ledger _ _ _ _ _ Hc), Ho.
  - eapply disjoint_settings; [apply Hc|apply Ho].
  - pose proof (cm_cover _ _ _ _ _ Hc (docs_of h) (so_disjoint _ Ho) (so_ledger _ Ho) (so_cover _ Ho)) as Hcov.
    intros c id doc d q Hd. apply Hcov. eapply committed_doc; [exact Hc|done|apply Ho|done].
  - pose proof (so_counter _ Ho). lia.
  - rewrite Hv. apply work_versions_distinct; [apply Ho|lia|apply Ho].
  - intros key v d Hkey. apply (lookup_weaken _ (doc_cache h)) in Hkey; [|apply Hc].
    destruct (so_cache _ Ho key v d Hkey) as [Hlt Hd]. split; [lia|]. intros c id -> Hvi.
    destruct (Hk id) as [(_ & Ev & Evw)|(_ & [(v' & Hv' & Hge)|(_ & Hnone)])]; [|rewrite Hvi in Hv'; injection Hv' as <-; lia|congruence].
    unfold docs_of. rewrite Evw. apply Hd; [done|congruence].
Qed.

(** The outcome of a batch: refused, or committed with its effects. *)
Definition outcome (t : Z) (ms : list BatchMutation) (r : res (list bytes)) h h' : Prop :=
  (∃ x, r = Err x ∧ refused t h h') ∨
  (∃ ids ess, r = Ok ids ∧ Forall3 (mutation_effects h t) ms ids ess ∧ committed to_lowercase t (concat ess) h h' ∧
     ∃ l : Works, NoDup l.*1 ∧ (∀ c, work_in l c = work_of t c (concat ess)) ∧
       current h' = work_versions (live_keys (list_to_map l)) l (current h)).

Lemma batch_preserves now nanos ms h :
  state_ok h → batch_fits nanos ms h →
  ∃ h' r, write_batch_internal from_secret to_lowercase now nanos ms h = (h', r) ∧ state_ok h' ∧
    outcome (stamp_of nanos (last_ts_watermark h)) ms r h h'.
Proof using All.
  intros Ho [Hb Hf]. destruct (write_batch_internal_spec from_secret to_lowercase now nanos ms h Hb) as (h' & r & E & Hout).
  exists h', r. split; [done|]. destruct Hout as [(x & -> & Hr & _)|(ids & ess & -> & F & Hc & l & Hnd & Hw & Hv & _)].
  - split; [by eapply refused_state|]. left. eauto.
  - destruct (Hf ids ess F) as [Hst Hroom]. split; [by eapply committed_state|]. right. exists ids, ess. split_and!; try done. by exists l.
Qed.

(** A batch of deletions is never refused. *)
Lemma deletes_admitted now nanos ms h h' r :
  batch_ok (stamp_of nanos (last_ts_watermark h)) ms h → forallb is_del ms = true →
  write_batch_internal from_secret to_lowercase now nanos ms h = (h', r) → ∃ ids, r = Ok ids.
Proof using All.
  intros Hb Hd E. destruct (write_batch_internal_spec from_secret to_lowercase now nanos ms h Hb) as (h2 & r2 & E2 & Hout).
  rewrite E in E2. injection E2 as <- <-. destruct Hout as [(x & _ & _ & Hx)|(ids & ess & -> & _)]; [congruence|eauto].
Qed.

Lemma outcome_counter t ms ids h h' :
  outcome t ms (Ok ids) h h' → 0 <= global_version h →
  (∀ ids ess, Forall3 (mutation_effects h t) ms ids ess → global_version h + zlen (concat ess) < 2 ^ 64) →
  ∃ ess, Forall3 (mutation_effects h t) ms ids ess ∧ committed to_lowercase t (concat ess) h h' ∧
    global_version h' <= global_version h + zlen (concat ess).
Proof using Type.
  intros [(x & [=] & _)|(ids' & ess & [= <-] & F & Hc & l & Hnd & Hw & Hv)] H0g Hf. exists ess. split_and!; [done|done|].
  specialize (Hf ids ess F). pose proof (total_keys_bound l t (concat ess) Hnd (works_of l t _ Hnd Hw)).
  change (global_version h') with (current h').1. rewrite Hv. unfold current. rewrite work_versions_counter by lia. lia.
Qed.

(** ** Point reads *)

Lemma quiet_state h h' : state_ok h → quiet h h' → state_ok h'.
Proof using Type.
  intros Ho [Hc Hl]. pose proof (calm_outputs _ _ Hc) as Eo. unfold outputs in Eo. injection Eo as E1 E2 E3 _ _ _.
  apply (kept_state h); [done|apply (calm_ok _ _ Hc), Ho| |apply Hc|done|by unfold current; rewrite E1, E2|by rewrite E3|].
  - intros c. apply (calm_settled _ _ Hc), Ho.
  - intros c id. unfold docs_of. by rewrite (calm_view _ _ Hc c (so_settled _ Ho c)).
Qed.

Lemma cached_current h c id d : state_ok h → cached_doc h c id = Some d → docs_of h c id = Some d.
Proof using Type.
  intros Ho. unfold cached_doc, current_version. destruct (doc_versions h !! id) as [ver|] eqn:Hv; [|done]. cbn [mbind option_bind].
  unfold probe_doc_cache. destruct (doc_cache h !! cache_key c id) as [[v d']|] eqn:Hc; [|done]. cbn [mbind option_bind].
  destruct (v =? ver) eqn:E; [|done]. intros [= ->]. apply Z.eqb_eq in E as ->.
  destruct (so_cache _ Ho _ _ _ Hc) as [_ Hd]. by apply Hd.
Qed.

Lemma cache_key_inj c c' id : cache_key c id = cache_key c' id → c = c'.
Proof using Type. unfold cache_key. by intros E%(inj (.++ ([0] ++ id))). Qed.

Lemma cache_insert_state h c id ver d :
  state_ok h → doc_versions h !! id = Some ver → docs_of h c id = Some d → state_ok (doc_cache_insert (cache_key c id) ver d h).
Proof using Type.
  intros Ho Hv Hd. unfold doc_cache_insert.
  set (cache := if DOC_CACHE_CAP <=? _ then _ else _).
  assert (cache ⊆ doc_cache h) as Hsub.
  { unfold cache. destruct (DOC_CACHE_CAP <=? _); [|done]. destruct (hash_iter (doc_cache h)) as [|[k x] l]; [done|]. apply delete_subseteq. }
  destruct Ho as [O1 O2 O3 O4 O5 O6 O7 O8 O9]. split; try done. intros key v d' Hk. cbn in Hk |- *.
  apply lookup_insert_Some in Hk as [[<- [= <- <-]]|[_ Hk]].
  - split; [by eapply (proj1 O8)|]. intros c' id' Hkey Hv'. assert (id' = id) as -> by (by eapply (proj2 O8)).
    by rewrite <-(cache_key_inj _ _ _ Hkey).
  - apply (lookup_weaken _ (doc_cache h)) in Hk; [|done]. by apply (O9 key).
Qed.

Lemma audit_state h a : state_ok h → state_ok (record_audit a h).
Proof using Type. intros Ho. destruct (record_audit_same a h) as [b ->]. by destruct Ho; split. Qed.

(** A document without links needs no resolution. *)
Definition link_free (d : HakoDoc) : Prop := existsb (λ kv, resolvable kv.2) (fields d) = false.

Lemma hako_get_spec now free c id h :
  state_ok h → allowed h c AGet = true → (∀ d, docs_of h c id = Some d → link_free d) →
  ∃ h', hako_get from_secret now free c id h = (h', Ok (docs_of h c id)) ∧ state_ok h' ∧
    (∀ c', view_of h' c' = view_of h c') ∧ (∀ c', index_of h' c' = index_of h c') ∧
    current h' = current h ∧ settings h' = settings h ∧ last_ts_watermark h' = last_ts_watermark h ∧
    (∀ c', plain_at h c' → plain_at h' c').
Proof using All.
  intros Ho Ha Hlf. unfold hako_get. rewrite (hm_bind_ok _ _ h h h) by done. rewrite Ha. cbn [negb].
  destruct (cached_doc h c id) as [d|] eqn:Hcd.
  { exists h. split; [by rewrite (cached_current h c id d)|]. done. }
  unfold get_arc. rewrite (hm_bind_ok _ _ h h h) by done. rewrite Ha, Hcd. cbn [negb].
  pose proof (so_settled _ Ho c) as Hs. unfold settled in Hs. unfold try_get_shard_on_disk.
  destruct (shards h !! c) as [e|] eqn:He.
  2: { rewrite (hm_bind_ok _ _ h h None) by (by rewrite He, Hs). exists h. split; [|done]. unfold docs_of, view_of. by rewrite He, lookup_empty. }
  rewrite (hm_bind_ok _ _ h h (Some e)) by (rewrite He; unfold get_shard, mbind, SR_bind; by rewrite He).
  destruct (read_shard_spec c id h (so_shards _ Ho) Hs) as (h1 & E1 & Q1); [by eexists|].
  rewrite (hm_bind_ok _ _ _ _ _ E1). rewrite (hm_bind_ok _ _ h1 (record_audit (mkAudit AGet c (Some id) true) h1) tt) by done.
  destruct (record_audit_same (mkAudit AGet c (Some id) true) h1) as [au Eau]. rewrite Eau. set (h2 := h_with_outputs _ _ _ au h1).
  assert (state_ok h2) as Ho2 by (unfold h2; rewrite <-Eau; apply audit_state; by eapply quiet_state).
  destruct Q1 as [C1 L1]. pose proof (calm_outputs _ _ C1) as Eo. unfold outputs in Eo. injection Eo as E2 E3 _ _ _ _.
  assert (∀ c', view_of h2 c' = view_of h c') as Ev by (intros c'; exact (calm_view _ _ C1 c' (so_settled _ Ho c'))).
  assert (∀ c', index_of h2 c' = index_of h c') as Ei by (intros c'; exact (calm_index _ _ C1 c' (so_settled _ Ho c'))).
  assert (current h2 = current h) as Ecur by (unfold current; cbn; by rewrite E2, E3).
  assert (settings h2 = settings h) as Est by exact (calm_settings _ _ C1).
  assert (last_ts_watermark h2 = last_ts_watermark h) as Ecl by exact (calm_clock _ _ C1).
  assert (∀ c', plain_at h c' → plain_at h2 c') as Epl by (intros c' Hp; exact (plain_at_calm _ _ c' C1 Hp)).
  fold (docs_of h c id). destruct (docs_of h c id) as [doc|] eqn:Hd; [|by exists h2].
  destruct (calm_wal _ _ C1 c e He) as (e1 & He1 & _).
  assert (resolve_in c doc h2 = (h2, Ok doc)) as Er.
  { unfold resolve_in, on_shard. change (shards h2) with (shards h1). rewrite He1. unfold resolve_doc. rewrite (Hlf doc eq_refl). cbn [negb].
    f_equal. destruct (h_with_shards_same h2 c e1 He1 (so_settled _ Ho2 c)) as [E _]. exact E. }
  rewrite (hm_bind_ok _ _ _ _ _ Er). unfold current_version. destruct (doc_versions h !! id) as [ver|] eqn:Hv; [destruct free|].
  - eexists. split; [done|]. split_and!; try done. apply cache_insert_state; [done|cbn; by rewrite E3|].
    unfold docs_of. rewrite Ev. exact Hd.
  - by exists h2.
  - by exists h2.
Qed.

(** ** Batches of deletions *)

Lemma delete_effect h t c id id' es : mutation_effects h t (MutDelete c id) id' es → id ≠ [] → es = [(c, id, None)].
Proof using Type. intros [He Hid] Hne. injection He as <-. by rewrite (Hid Hne). Qed.
Lemma deletes_effects h t c ids ids' ess :
  Forall3 (mutation_effects h t) (deletes c ids) ids' ess → [] ∉ ids → concat ess = (λ id, (c, id, None)) <$> ids.
Proof using Type.
  intros F Hne. remember (deletes c ids) as ms eqn:Em. revert ids Em Hne. induction F as [|m id' es ms ids' ess He F IH]; intros ids Em Hne.
  { by destruct ids. }
  destruct ids as [|id ids]; [done|]. injection Em as -> ->. apply not_elem_of_cons in Hne as [Hn Hne]. cbn [concat].
  rewrite (delete_effect _ _ _ _ _ _ He) by done. by rewrite (IH ids).
Qed.
Lemma deletes_fit nanos c ids h :
  state_ok h → plain_at h c → NoDup (gate_ids h c) → [] ∉ ids → global_version h + zlen ids < 2 ^ 64 → batch_fits nanos (deletes c ids) h.
Proof using Type.
  intros Ho Hp Hg Hne Hv. split; [split_and!; [apply Ho| |apply Ho|]|].
  - apply Forall_forall. intros m (id & -> & _)%list_elem_of_fmap. split_and!; [apply Ho|done|]. intros id' es c' id'' d _ He Hin.
    injection He as <-. apply list_elem_of_singleton in Hin. done.
  - intros c' (m & Hc & (id & -> & _)%list_elem_of_fmap)%list_elem_of_bind. apply list_elem_of_singleton in Hc as ->. split; [apply Ho|done].
  - intros ids' ess F. rewrite (deletes_effects _ _ _ _ _ _ F Hne). split; [|by rewrite zlen_fmap].
    apply Forall_forall. intros x (id & -> & _)%list_elem_of_fmap d [=].
Qed.
Lemma deletes_vals c c' ids : batch_vals c' ((λ id, (c, id, None)) <$> ids) = if bool_decide (c = c') then (λ id, (id, None)) <$> ids else [].
Proof using Type.
  unfold batch_vals. assert (effects_in c' ((λ id, (c, id, None)) <$> ids) = if bool_decide (c = c') then (λ id, (id, None)) <$> ids else []) as ->.
  { induction ids as [|id ids IH]; [by case_bool_decide|]. unfold effects_in in *. cbn. case_bool_decide; [by rewrite IH|done]. }
  case_bool_decide; [|done]. assert (List.filter is_put ((λ id, (id, None)) <$> ids) = []) as -> by (induction ids; done).
  induction ids as [|id ids IH]; [done|]. cbn in *. by rewrite IH.
Qed.
Lemma deletes_lookup (m : gmap bytes bytes) ids k : foldl vupd m ((λ id, (id, None)) <$> ids) !! k = if decide (k ∈ ids) then None else m !! k.
Proof using Type.
  revert m. induction ids as [|id ids IH]; intros m; [done|]. cbn [fmap list_fmap foldl]. rewrite IH. unfold vupd. cbn [fst snd].
  destruct (decide (k ∈ ids)) as [Hk|Hk]; [by rewrite decide_True by (by right)|]. destruct (decide (k = id)) as [->|Hne].
  - rewrite lookup_delete_eq, decide_True by left. done.
  - rewrite lookup_delete_ne, decide_False by (rewrite ?not_elem_of_cons; done). done.
Qed.

(** A batch of deletions removes these documents and nothing else. *)
Lemma delete_batch now nanos c ids h :
  state_ok h → read_only h = false → allowed h c ABatch = true → plain_at h c → NoDup (gate_ids h c) → [] ∉ ids →
  global_version h + zlen ids < 2 ^ 64 →
  ∃ h' r, write_batch from_secret to_lowercase now nanos (deletes c ids) h = (h', Ok r) ∧ state_ok h' ∧
    (∀ c' k, view_of h' c' !! k = if bool_decide (c = c') && bool_decide (k ∈ ids) then None else view_of h c' !! k) ∧
    settings h' = settings h ∧ (∀ c', plain_at h c' → plain_at h' c') ∧ global_version h' <= global_version h + zlen ids.
Proof using All.
  intros Ho Hro Ha Hp Hg Hne Hv. unfold write_batch. rewrite Hro.
  assert (forallb (λ m, allowed h (get_col m) ABatch) (deletes c ids) = true) as ->.
  { apply forallb_forall. intros m Hm. apply list_elem_of_In, list_elem_of_fmap in Hm as (id & -> & _). done. }
  pose proof (deletes_fit nanos c ids h Ho Hp Hg Hne Hv) as Hf.
  cbn [negb]. destruct (batch_preserves now nanos (deletes c ids) h Ho Hf) as (h1 & r & E & Ho1 & Hout).
  destruct (deletes_admitted now nanos (deletes c ids) h h1 r) as [ids' ->]; [apply Hf|by clear; induction ids|done|].
  rewrite E. eexists _, ids'. split; [done|]. split; [by apply audit_state|]. unfold audit_batch.
  destruct (record_audit_same (mkAudit ABatch b#("<sharded>") None true) h1) as [x ->].
  destruct (outcome_counter _ _ _ _ _ Hout (so_counter _ Ho)) as (ess & F & Hc & Hg'). { intros i es Fe. by apply (proj2 Hf i es). }
  rewrite (deletes_effects _ _ _ _ _ _ F Hne) in Hc, Hg'. rewrite zlen_fmap in Hg'. split_and!; [|apply Hc|apply Hc|done].
  intros c' k. change (view_of h1 c' !! k = if bool_decide (c = c') && bool_decide (k ∈ ids) then None else view_of h c' !! k).
  rewrite (cm_view _ _ _ _ _ Hc c' (so_settled _ Ho c')), deletes_vals.
  case_bool_decide; [|done]. rewrite deletes_lookup. cbn [andb]. case_decide; case_bool_decide; done.
Qed.

(** ** Transactions *)

Lemma get_versioned_spec now c k h h0 r :
  state_ok h → get_versioned from_secret now c k h = (h0, Ok r) →
  quiet h h0 ∧ r = (λ d, (d, default 0 (doc_versions h !! k))) <$> docs_of h c k.
Proof using All.
  intros Ho. unfold get_versioned. rewrite (hm_bind_ok _ _ h h h) by done. destruct (allowed h c AGet); cbn [negb].
  2: { unfold deny. by intros [= _]. }
  pose proof (so_settled _ Ho c) as Hs. unfold try_get_shard_on_disk.
  destruct (shards h !! c) as [e|] eqn:He.
  2: { rewrite (hm_bind_ok _ _ h h None) by (unfold settled in Hs; by rewrite He, Hs). intros [= <- <-]. split; [done|].
       unfold docs_of, view_of. by rewrite He, lookup_empty. }
  rewrite (hm_bind_ok _ _ h h (Some e)) by (rewrite He; unfold get_shard, mbind, SR_bind; by rewrite He).
  destruct (read_shard_spec c k h (so_shards _ Ho) Hs) as (h1 & E1 & Q1); [by eexists|].
  rewrite (hm_bind_ok _ _ _ _ _ E1), (hm_bind_ok _ _ h1 h1 h1) by done. intros [= <- <-]. split; [done|].
  pose proof (calm_outputs _ _ (proj1 Q1)) as Eo. unfold outputs in Eo. injection Eo as _ E3 _ _ _ _.
  unfold current_version. rewrite E3. done.
Qed.

(** A batch of another client that touches document [k] only in collection [c]. *)
Definition client_batch (c k : bytes) h h1 : Prop :=
  ∃ now nanos ms r, batch_fits nanos ms h ∧ write_batch_internal from_secret to_lowercase now nanos ms h = (h1, r) ∧
    ∀ ids ess, Forall3 (mutation_effects h (stamp_of nanos (last_ts_watermark h))) ms ids ess →
      Forall (λ x : Effect, x.1.2 = k → x.1.1 = c) (concat ess).

Lemma not_live_absent (l : Works) t es h h' c k :
  committed to_lowercase t es h h' → settled h c → Forall (λ x : Effect, x.1.2 = k → x.1.1 = c) es →
  NoDup l.*1 → (∀ c, work_in l c = work_of t c es) → touched l k → k ∉ live_keys (list_to_map l) → view_of h' c !! k = None.
Proof using Type.
  intros Hc Hs Hon Hnd Hw ([c' w] & Hin & Hk) Hlv. cbn [snd] in Hk.
  assert (k ∈ w_deleted w) as Hd.
  { destruct (decide (k ∈ w_deleted w)); [done|]. destruct Hlv. apply live_keys_spec; [done|]. by exists (c', w). }
  rewrite (works_of l t es Hnd Hw c' w Hin) in Hd, Hk. destruct (work_of_matches t c' es) as [_ _ _ _ Hkeys Hdel].
  assert (c' = c) as ->.
  { rewrite Hkeys in Hk. apply list_elem_of_fmap in Hk as (x & -> & Hx). unfold effects_in in Hx.
    apply list_elem_of_omap in Hx as (y & Hy & Hxy). case_bool_decide as Hyc; [|done]. injection Hxy as <-. rewrite <-Hyc.
    rewrite Forall_forall in Hon. by apply Hon. }
  rewrite (cm_view _ _ _ _ _ Hc c Hs). apply Hdel in Hd. destruct (foldl vupd _ _ !! k) as [b|] eqn:Hb; [|done].
  apply batch_value in Hb. assert (last (effects_on c k es) = Some None) as El.
  { rewrite <-effects_on_in, fmap_last, Hd. done. }
  by rewrite El in Hb.
Qed.

(** A version that was current and is current again never changed in between, nor
    did the document; and a document without version is absent if it was so. *)
Lemma steps_stable c k h h1 :
  state_ok h → rtc (client_batch c k) h h1 →
  state_ok h1 ∧ global_version h <= global_version h1 ∧
  (∀ v, v < global_version h → doc_versions h1 !! k = Some v → doc_versions h !! k = Some v ∧ docs_of h1 c k = docs_of h c k) ∧
  ((doc_versions h !! k = None → docs_of h c k = None) → doc_versions h1 !! k = None → docs_of h1 c k = None).
Proof using All.
  intros Ho Hr. induction Hr as [h|h h' h1 (now & nanos & ms & r & Hf & E & Hon) Hr IH]; [by split_and!|].
  destruct (batch_preserves now nanos ms h Ho Hf) as (h2 & r2 & E2 & Ho2 & Hout). rewrite E in E2. injection E2 as <- <-.
  assert (global_version h <= global_version h' ∧
    (∀ v, v < global_version h → doc_versions h' !! k = Some v → doc_versions h !! k = Some v ∧ docs_of h' c k = docs_of h c k) ∧
    ((doc_versions h !! k = None → docs_of h c k = None) → doc_versions h' !! k = None → docs_of h' c k = None)) as (G1 & V1 & A1).
  { destruct Hout as [(x & _ & Hrf)|(ids & ess & _ & F & Hc & l & Hnd & Hw & Hv)].
    - pose proof (rf_outputs _ _ _ Hrf) as Eo. unfold outputs in Eo. injection Eo as E1 E2 _ _ _ _. unfold docs_of.
      rewrite E1, E2, (rf_view _ _ _ Hrf c (so_settled _ Ho c)). split_and!; done.
    - destruct Hf as [_ Hf]. destruct (Hf ids ess F) as [Hst Hroom].
      destruct (committed_versions _ _ h h' l Hc (so_settled _ Ho) (so_counter _ Ho) Hroom Hnd Hw Hv) as [Hg Hk].
      split; [done|]. destruct (Hk k) as [(_ & Ev & Evw)|(Ht & Hcase)].
      + unfold docs_of. rewrite Ev, Evw. split; done.
      + split.
        * intros v Hlt Hvk. destruct Hcase as [(v' & Hv' & Hge)|(_ & Hn)]; [rewrite Hvk in Hv'; injection Hv' as <-; lia|congruence].
        * intros _ Hn. destruct Hcase as [(v' & Hv' & _)|(Hlv & _)]; [congruence|].
          unfold docs_of. erewrite (not_live_absent l); [done|exact Hc|apply Ho|by apply (Hon ids)|done|done|done|done]. }
  destruct (IH Ho2) as (O3 & G3 & V3 & A3). split_and!; [done|lia| |].
  - intros v Hlt Hv1. destruct (V3 v ltac:(lia) Hv1) as [Hv' Hd']. destruct (V1 v Hlt Hv') as [Hv0 Hd0]. split; [done|congruence].
  - intros Hpre Hn. apply A3; [|done]. intros Hn'. by apply A1.
Qed.

(** A read that passes validation at commit is what the collection holds then. *)
Lemma validated_read now t0 c k h h0 t d h1 :
  state_ok h → 0 < global_version h → tx_get from_secret now t0 c k h = (h0, Ok (t, d)) → reads t0 !! k = None →
  rtc (client_batch c k) h0 h1 → reads t !! k = Some (current_version h1 k) → docs_of h1 c k = d.
Proof using All.
  intros Ho Hpos Hg Hfresh Hr Hval. unfold tx_get in Hg. destruct (get_versioned from_secret now c k h) as [h' [r|x|]] eqn:E;
    [|unfold mbind, SR_bind in Hg; rewrite E in Hg; discriminate Hg..].
  rewrite (hm_bind_ok _ _ _ _ _ E) in Hg. destruct (get_versioned_spec now c k h h' r Ho E) as [Q ->].
  assert (h' = h0) as -> by (unfold mret, SR_ret in Hg; congruence).
  assert (state_ok h0) as Ho0 by (by eapply quiet_state). destruct (steps_stable c k h0 h1 Ho0 Hr) as (Ho1 & Hge & Hst & Habs).
  pose proof (calm_outputs _ _ (proj1 Q)) as Eo. unfold outputs in Eo. injection Eo as E1 E2 _ _ _ _.
  assert (docs_of h0 c k = docs_of h c k) as Ed by (unfold docs_of; by rewrite (calm_view _ _ (proj1 Q) c (so_settled _ Ho c))).
  unfold current_version in Hval. destruct (docs_of h c k) as [doc|] eqn:Hd.
  - cbn [fmap option_fmap option_map] in Hg. unfold mret, SR_ret in Hg. injection Hg as <- <-. unfold note_read in Hval. rewrite Hfresh in Hval.
    cbn [reads] in Hval. rewrite lookup_insert_eq in Hval. injection Hval as Hval.
    assert (default 0 (doc_versions h !! k) < global_version h0) as Hlt.
    { rewrite E1. destruct (doc_versions h !! k) as [v|] eqn:Hv; [cbn; by eapply (proj1 (so_versions _ Ho))|exact Hpos]. }
    destruct (Hst _ Hlt (eq_sym Hval)) as [_ Hd1]. congruence.
  - cbn [fmap option_fmap option_map] in Hg. unfold mret, SR_ret in Hg. injection Hg as <- <-. unfold note_read in Hval. rewrite Hfresh in Hval.
    cbn [reads] in Hval. rewrite lookup_insert_eq in Hval. injection Hval as Hval.
    by apply Habs.
Qed.
End State.
