(* ===== verification/FacadeProps.v ===== *)
(** * Properties of the facade

    Batches, unique indexes, point reads through the cache, serializable
    transactions and the hybrid clock; then concrete databases and corner cases. *)

From stdpp Require Import prelude list gmap strings.
From Stdlib Require Import ZArith Lia Sorted.
From S2P Require Import Prelude RustStd Error Config Crypto VFile Value Doc DocFacts DocCodec DocAccess Wal WalFacts PageCache StorageIndex StorageIndexFacts.
From S2P Require Import Segment Blob Storage StorageMaint StorageFacts StorageView StorageReopen Models StorageModels Filter Schema Composite CompositeFacts Ledger.
From S2P Require Import CompositeManager SyncCore SyncFacts Facade FacadeFacts FacadeApply FacadeState.

Local Open Scope Z_scope.
Local Open Scope hako_scope.

Section Props.
Context `{CrcLaws} `{ZstdLaws} `{HashIterLaws} {cipher : Type} `{AeadLaws cipher}.
Context (from_secret : bytes → EncryptionContext cipher) (to_lowercase : bytes → bytes).
Abbreviation Hako := (Hako (cipher := cipher)).
Implicit Types (h : Hako).

(** C2: A batch of the facade is all or nothing.  It returns the ids of its mutations
    and every collection holds what its effects (schema defaults applied, patches
    merged into the stored document, retention records for soft deletions, one
    time stamp) make of it, puts before deletions and so in any order when no
    document is written twice; or it is refused by a schema, a unique index or a
    backfill, and no collection, version, claim, cache entry or watcher has seen
    it. *)
Theorem facade_batch now nanos ms h :
  state_ok to_lowercase h → batch_fits nanos ms h →
  let t := stamp_of nanos (last_ts_watermark h) in
  ∃ h' r, write_batch_internal from_secret to_lowercase now nanos ms h = (h', r) ∧ state_ok to_lowercase h' ∧
    match r with
    | Ok ids => ∃ ess, Forall3 (mutation_effects h t) ms ids ess ∧ ∀ c,
        view_of h' c = foldl vupd (view_of h c) (batch_vals c (concat ess)) ∧
        (NoDup (effects_in c (concat ess)).*1 → view_of h' c = foldl vupd (view_of h c) (eff_val <$> effects_in c (concat ess)))
    | Err _ => (∀ c, view_of h' c = view_of h c) ∧ outputs h' = outputs h ∧ claims_of (unique_ledger h') = claims_of (unique_ledger h)
    | Panic => False
    end.
Proof.
  intros Ho Hf t. destruct (batch_preserves from_secret to_lowercase now nanos ms h Ho Hf) as (h' & r & E & Ho' & Hout).
  exists h', r. split; [done|]. split; [done|]. destruct Hout as [(x & -> & Hr)|(ids & ess & -> & F & Hc & _)].
  - split_and!; [|apply Hr|apply Hr, Ho]. intros c. apply Hr, Ho.
  - exists ess. split; [done|]. intros c. rewrite (cm_view _ _ _ _ _ Hc c (so_settled _ _ Ho c)). split; [done|]. apply batch_vals_distinct.
Qed.

(** Steps of a running database: batches and point reads. *)
Definition db_step h h' : Prop :=
  (∃ now nanos ms r, batch_fits nanos ms h ∧ write_batch_internal from_secret to_lowercase now nanos ms h = (h', r)) ∨
  (∃ now free c id r, allowed h c AGet = true ∧ (∀ d, docs_of h c id = Some d → link_free d) ∧
     hako_get from_secret now free c id h = (h', r)).

Lemma db_steps_ok h h' : state_ok to_lowercase h → rtc db_step h h' → state_ok to_lowercase h'.
Proof.
  intros Ho Hr. induction Hr as [h|h h1 h' Hs Hr IH]; [done|]. apply IH.
  destruct Hs as [(now & nanos & ms & r & Hf & E)|(now & free & c & id & r & Ha & Hl & E)].
  - destruct (batch_preserves from_secret to_lowercase now nanos ms h Ho Hf) as (h2 & r2 & E2 & Ho2 & _). congruence.
  - destruct (hako_get_spec from_secret to_lowercase now free c id h Ho Ha Hl) as (h2 & E2 & Ho2 & _). congruence.
Qed.

(** C4: Unique indexes are enforced by the batches of the facade: after any sequence of
    point reads and batches, successful or refused, two documents of a collection that
    a unique index covers never have the same tuple.  The batches are those of
    [batch_fits]: in collections that are loaded and not encrypted, with documents
    whose fields stay below the threshold of the side storage (the tuple of a longer
    field is not seen, [long_unique_escapes]).  Replicated writes, which no unique index
    checks, are not among the steps. *)
Theorem unique_enforced h h' c d id1 id2 doc1 doc2 tuple :
  state_ok to_lowercase h → rtc db_step h h' →
  d ∈ unique_defs (composite h') c → docs_of h' c id1 = Some doc1 → docs_of h' c id2 = Some doc2 →
  obliges to_lowercase d id1 doc1 tuple → obliges to_lowercase d id2 doc2 tuple → id1 = id2.
Proof.
  intros Ho Hr Hd H1' H2' O1 O2. pose proof (db_steps_ok h h' Ho Hr) as Ho'.
  destruct (so_cover _ _ Ho' c id1 doc1 d tuple H1' Hd O1) as (cl1 & Hi1 & Hf1).
  destruct (so_cover _ _ Ho' c id2 doc2 d tuple H2' Hd O2) as (cl2 & Hi2 & Hf2). congruence.
Qed.

(** C5: A point read returns the document that the collection holds, from the
    document cache or from storage, whatever batches and reads came before; it
    changes no collection and no version. *)
Theorem reads_are_current h h' now free c id :
  state_ok to_lowercase h → rtc db_step h h' → allowed h' c AGet = true →
  (∀ d, docs_of h' c id = Some d → link_free d) →
  ∃ h2, hako_get from_secret now free c id h' = (h2, Ok (docs_of h' c id)) ∧ state_ok to_lowercase h2 ∧
    (∀ c', view_of h2 c' = view_of h' c') ∧ current h2 = current h'.
Proof.
  intros Ho Hr Ha Hl. pose proof (db_steps_ok h h' Ho Hr) as Ho'.
  destruct (hako_get_spec from_secret to_lowercase now free c id h' Ho' Ha Hl) as (h2 & E & O2 & V & _ & C & _). by exists h2.
Qed.

(** A read leaves its version in the read set.  The checks of a commit: each read is current when it is looked at, or the first
    one that is not is reported. *)
Lemma read_noted now t0 c k h h0 t d :
  reads t0 !! k = None → tx_get from_secret now t0 c k h = (h0, Ok (t, d)) → is_Some (reads t !! k).
Proof.
  intros Hfr Hg. unfold tx_get in Hg. destruct (get_versioned from_secret now c k h) as [hh [rr|e|]] eqn:Eg;
    [|unfold mbind, SR_bind in Hg; rewrite Eg in Hg; discriminate Hg..].
  rewrite (hm_bind_ok _ _ _ _ _ Eg) in Hg. unfold mret, SR_ret in Hg.
  destruct rr as [[doc v]|]; injection Hg as _ <- _; unfold note_read; rewrite Hfr; cbn; rewrite lookup_insert_eq; eauto.
Qed.
Lemma check_reads_spec (finds : nat → Hako) rs n :
  match check_reads finds n rs with
  | (h, Ok m) => m = (n + length rs)%nat ∧ h = finds m ∧
      ∀ k x, (k, x) ∈ rs → ∃ i, (n <= i < m)%nat ∧ current_version (finds i) k = x
  | (h, Err e) => ∃ i k x, (n <= i < n + length rs)%nat ∧ h = finds i ∧ (k, x) ∈ rs ∧ current_version (finds i) k ≠ x ∧ e = Conflict k
  | (_, Panic) => False
  end.
Proof.
  revert n; induction rs as [|[key expected] rs IH]; intros n; cbn [check_reads length].
  { split_and!; [lia|done|]. intros k x Hin. by apply not_elem_of_nil in Hin. }
  case_bool_decide as Hv.
  - specialize (IH (S n)). destruct (check_reads finds (S n) rs) as [h [m|e|]]; [| |done].
    + destruct IH as (-> & -> & IH). split_and!; [lia|done|]. intros k x [[= -> ->]|Hin]%elem_of_cons.
      * exists n. split; [lia|done].
      * destruct (IH k x Hin) as (i & Hi & Hx). exists i. split; [lia|done].
    + destruct IH as (i & k & x & Hi & Hh & Hin & Hne & He). exists i, k, x. split_and!; try done; try lia. by right.
  - exists n, key, expected. split_and!; try done; try lia. by left.
Qed.

(** C3: Serializable transactions see what they read.  A transaction reads a document
    (or its absence) for the first time; before and during its commit other clients run
    batches (those of [batch_fits]), of which those that write this id do so only in
    this collection (versions are by id, [version_shared]).  The commit reports a
    conflict and writes nothing, or at one of its looks before the write the collection
    holds exactly what was read.  The checks and the write are separate looks: when no
    batch comes between them, the write finds what was read. *)
Theorem commit_sees_reads now now' nanos t0 c k h h0 t d (finds : nat → Hako) rs ms h2 r :
  state_ok to_lowercase h → 0 < global_version h → reads t0 !! k = None →
  tx_get from_secret now t0 c k h = (h0, Ok (t, d)) →
  rtc (client_batch from_secret to_lowercase c k) h0 (finds O) →
  (∀ n, rtc (client_batch from_secret to_lowercase c k) (finds n) (finds (S n))) →
  rs !! k = reads t !! k → commit_serializable from_secret to_lowercase now' nanos finds rs ms = (h2, r) →
  (∃ n key, h2 = finds n ∧ r = Err (Conflict key)) ∨
  (write_batch_internal from_secret to_lowercase now' nanos ms (finds (size rs)) = (h2, r) ∧
   (∃ n, (n < size rs)%nat ∧ docs_of (finds n) c k = d) ∧
   ((∀ n, finds n = finds O) → docs_of (finds (size rs)) c k = d)).
Proof.
  intros Ho Hpos Hfr Hg H0' Hf Hrs. unfold commit_serializable. pose proof (check_reads_spec finds (hash_iter rs) 0) as Hc.
  destruct (check_reads finds 0 (hash_iter rs)) as [h1 [m|e|]]; [| |done].
  2: { destruct Hc as (i & key & _ & _ & -> & _ & _ & ->). intros [= <- <-]. left. by exists i, key. }
  destruct Hc as (-> & -> & Hc). assert (length (hash_iter rs) = size rs) as Hsz.
  { rewrite (hash_iter_perm rs). apply length_map_to_list. }
  cbn [Nat.add]. rewrite Hsz in *. intros E. right. split; [done|].
  destruct (read_noted now t0 c k h h0 t d Hfr Hg) as [x Hx].
  destruct (Hc k x) as (i & Hi & Hv).
  { rewrite (hash_iter_perm rs). apply elem_of_map_to_list. congruence. }
  assert (∀ n, rtc (client_batch from_secret to_lowercase c k) h0 (finds n)) as Hreach.
  { intros n. induction n as [|n IH]; [done|]. by transitivity (finds n). }
  assert (docs_of (finds i) c k = d) as Hd.
  { eapply (validated_read from_secret to_lowercase now t0 c k h h0 t d (finds i)); try done. rewrite Hx. by f_equal. }
  split; [exists i; split; [lia|done]|]. intros Hidle. by rewrite Hidle, <-(Hidle i).
Qed.

(** ** The hybrid clock *)

(** What moves the clock: a batch stamped at a wall-clock time, or a remote time
    accepted at one; the stamps that a sequence of them gives out. *)
Inductive ClockEvent := Stamp (nanos : Z) | Remote (now ts : Z).
Fixpoint stamps (evs : list ClockEvent) : SR Hako (list Z) :=
  match evs with
  | [] => mret []
  | Stamp nanos :: evs => t ← stamp nanos; ts ← stamps evs; mret (t :: ts)
  | Remote now ts :: evs =>
      _ ← modify (λ h, h_with_clock (observe_remote_ts now (last_ts_watermark h) ts) (id_sequence h) h); stamps evs
  end.

(** Stamps strictly increase and lie above the mark they start from; the mark stays
    at or above every stamp and every remote time accepted within the ceiling, so
    later local writes are later than both. *)
Lemma stamps_increase b evs h :
  Forall (λ ev, match ev with Stamp nanos => nanos / 1000 | Remote now _ => now + SKEW_CEILING_MICROS end <= b) evs →
  last_ts_watermark h <= b → b + zlen evs < 2 ^ 63 →
  ∃ h' ts, stamps evs h = (h', Ok ts) ∧ StronglySorted Z.lt (last_ts_watermark h :: ts) ∧
    Forall (λ t, t <= last_ts_watermark h') (last_ts_watermark h :: ts) ∧
    ∀ now r, Remote now r ∈ evs → r <= now + SKEW_CEILING_MICROS → r <= last_ts_watermark h'.
Proof using Type.
  revert b h; induction evs as [|ev evs IH]; intros b h Hf Hw Hb.
  { exists h, []. split_and!; [done|repeat constructor|repeat constructor; lia|]. by intros now r Hr%elem_of_nil. }
  apply Forall_cons in Hf as [Hev Hf]. rewrite zlen_cons in Hb. pose proof (zlen_nonneg evs).
  destruct ev as [nanos|now ts]; cbn [stamps].
  - set (t := stamp_of nanos (last_ts_watermark h)).
    assert (last_ts_watermark h < t <= b + 1) as Ht by (unfold t, stamp_of; split_if; lia).
    destruct (IH (b + 1) (h_with_clock t (id_sequence h) h)) as (h' & l & E & Hs & Hl & Hr); [|cbn; lia|lia|].
    { eapply Forall_impl; [exact Hf|]. intros [] ?; lia. }
    exists h', (t :: l). rewrite (hm_bind_ok _ _ h (h_with_clock t (id_sequence h) h) t) by done. rewrite (hm_bind_ok _ _ _ _ _ E).
    cbn [last_ts_watermark h_with_clock] in Hs, Hl. split_and!; [done| | |].
    + constructor; [done|]. constructor; [lia|]. apply StronglySorted_inv in Hs as [_ Hs]. eapply Forall_impl; [exact Hs|]. intros x Hx; lia.
    + constructor; [|done]. apply Forall_cons in Hl as [Hl _]. lia.
    + intros now r [Hx|Hx]%elem_of_cons; [done|by apply (Hr now)].
  - set (h1 := h_with_clock (observe_remote_ts now (last_ts_watermark h) ts) (id_sequence h) h).
    assert (last_ts_watermark h <= last_ts_watermark h1 <= b ∧ (ts <= now + SKEW_CEILING_MICROS → ts <= last_ts_watermark h1)) as [Ho Hts].
    { cbn. unfold observe_remote_ts. split_if; lia. }
    destruct (IH b h1) as (h' & l & E & Hs & Hl & Hr); [done|lia|lia|]. exists h', l. rewrite (hm_bind_ok _ _ h h1 tt) by done.
    apply Forall_cons in Hl as [Hl1 Hl2]. split_and!; [done| | |].
    + apply StronglySorted_inv in Hs as [Hs Hs']. constructor; [done|]. eapply Forall_impl; [exact Hs'|]. intros x Hx; lia.
    + constructor; [lia|done].
    + intros now' r [[= -> ->]|Hx]%elem_of_cons Hc; [specialize (Hts Hc); lia|by apply (Hr now')].
Qed.
End Props.

(** ** Concrete databases *)

(** Puts of storable documents and forced deletions, into loaded plain collections of
    a database without schemas, are batches the store can take. *)
Section Fits.
Context `{CrcLaws} `{ZstdLaws} `{HashIterLaws} {cipher : Type} `{AeadLaws cipher}.
Context (to_lowercase : bytes → bytes).

Definition simple_mut (th t : Z) (m : BatchMutation) : bool :=
  match m with
  | MutPut _ _ d => forallb (λ kv, len_bytes kv.2 <=? th) (fields d) && doc_encodable (mkDoc (fields d) t)
  | MutDelete _ _ => true
  | _ => false
  end.

Lemma simple_effects (h : Hako (cipher := cipher)) t m id es :
  schema_enabled h = false → simple_mut (value_blob_threshold_bytes (config h)) t m = true → effect_of h t m id = Ok es →
  length es = 1%nat ∧ Forall (λ x, x.1 = (get_col m, id)) es ∧ Forall storable es ∧
  ∀ c' id' d, (c', id', Some d) ∈ es → small_doc (value_blob_threshold_bytes (config h)) d.
Proof.
  intros Hsch Hm. destruct m as [c k d|c k| |]; [|intros [= <-]; split_and!; [done|by repeat constructor|by repeat constructor|]|done..].
  - cbn in Hm. apply andb_prop in Hm as [H1' H2']. unfold effect_of, apply_schema. cbn [is_del]. rewrite Hsch.
    cbn. intros [= <-]. split_and!; [done|by repeat constructor| |].
    + repeat constructor. by intros d' [= <-].
    + intros c' id' d' [[= -> -> ->]|Hx]%elem_of_cons; [|by apply elem_of_nil in Hx]. unfold small_doc. cbn. apply Forall_forall.
      intros kv Hin. apply forallb_forall with (x := kv) in H1'; [lia|by apply list_elem_of_In].
  - by intros c' id' d [[=]|Hx%elem_of_nil]%elem_of_cons.
Qed.

Lemma simple_fits nanos ms (h : Hako (cipher := cipher)) :
  state_ok to_lowercase h → schema_enabled h = false →
  forallb (simple_mut (value_blob_threshold_bytes (config h)) (stamp_of nanos (last_ts_watermark h))) ms = true →
  (∀ m, m ∈ ms → plain_at h (get_col m) ∧ NoDup (gate_ids h (get_col m))) →
  global_version h + zlen ms < 2 ^ 64 → batch_fits nanos ms h.
Proof.
  intros Ho Hsch Hms Hp Hg. set (t := stamp_of _ _) in *.
  assert (∀ m, m ∈ ms → simple_mut (value_blob_threshold_bytes (config h)) t m = true) as Hm.
  { intros m Hin. apply (proj1 (forallb_forall _ _) Hms). by apply list_elem_of_In. }
  split; [split_and!; [apply Ho| |apply Ho|]|].
  - apply Forall_forall. intros m Hin. split_and!; [apply Ho|by apply Hp|]. intros id es c' id' d _ He.
    destruct (simple_effects h t m id es Hsch (Hm m Hin) He) as (_ & _ & _ & Hd). apply Hd.
  - intros c (m & Hc & Hin)%list_elem_of_bind. split; [apply Ho|]. pose proof (Hm m Hin) as Hsm.
    assert (c = get_col m) as ->; [|by apply Hp]. destruct m; try done; by apply list_elem_of_singleton in Hc.
  - intros ids ess F. fold t in F. clear Hms Hp. revert Hg. generalize (global_version h). induction F as [|m id es ms ids ess [He _] F IH]; intros g Hg.
    { split; [constructor|]. exact Hg. }
    destruct (simple_effects h t m id es Hsch (Hm m ltac:(left)) He) as (Hl & _ & Hst & _). rewrite zlen_cons in Hg.
    destruct (IH (λ m' Hin, Hm m' ltac:(by right)) (g + 1)) as [H1' H2']; [lia|]. cbn [concat]. split; [by apply Forall_app|].
    rewrite zlen_app. unfold zlen at 1. rewrite Hl. lia.
Qed.
End Fits.

(** A database with the empty collection users, which has a unique index on email, and
    the empty collection of retention records. *)
Definition demo_secret (key : bytes) : EncryptionContext unit := mkEnc tt 7.
Definition USERS : bytes := b#("users").
Definition demo_col (c : bytes) : StorageEngine unit := open_engine empty_dir default_config c None 0.
Definition db_of (m : CompositeIndexManager) (l : UniqueLedger) : Hako :=
  mkHako default_config (<[USERS := demo_col USERS]> (<[SOFTDEL_COLLECTION := demo_col SOFTDEL_COLLECTION]> ∅)) ∅ 1 ∅ 0 0 []
    false false ∅ false l m ∅ ∅ ∅ [] [] [].
Definition email_def (f : option FilterGroup) : CompositeIndexDefinition := mkDef 0 USERS [mkField b#("email") Asc] true false f.
Definition demo_db : Hako := db_of (create_index mg_empty (email_def None)).1 (prepare_empty (mkLedger ∅ ∅) 1).
Definition account (email : bytes) (age : Z) : HakoDoc := mkDoc [(b#("age"), Int age); (b#("email"), String email)] 1.
Abbreviation batch := (write_batch_internal demo_secret Datatypes.id).

Lemma demo_defs c : unique_defs (composite demo_db) c = if bool_decide (c = USERS) then [mkGate 1 (with_id 1 (email_def None))] else [].
Proof.
  case_bool_decide as Hc; [subst c; reflexivity|]. unfold unique_defs, indexes_for_collection, ids_of, demo_db, create_index.
  cbn [composite db_of fst register by_collection by_id d_collection with_id email_def]. rewrite lookup_insert_ne by done. reflexivity.
Qed.

Lemma demo_view c : view_of demo_db c = ∅.
Proof.
  unfold view_of, demo_db, db_of. cbn [shards]. destruct (decide (c = USERS)) as [->|H1]; [rewrite lookup_insert_eq; apply fresh_ok|].
  rewrite lookup_insert_ne by done. destruct (decide (c = SOFTDEL_COLLECTION)) as [->|H2]; [rewrite lookup_insert_eq; apply fresh_ok|].
  by rewrite lookup_insert_ne, lookup_empty by done.
Qed.

Lemma demo_state : state_ok Datatypes.id demo_db.
Proof.
  split.
  - intros c e. unfold demo_db, db_of. cbn [shards].
    intros [[_ <-]|[_ [[_ <-]|[_ Hx]]%lookup_insert_Some]]%lookup_insert_Some; [apply fresh_ok..|by rewrite lookup_empty in Hx].
  - done.
  - intros c defs [Hx|Hx]; exfalso; exact (lookup_empty_Some _ _ Hx).
  - intros i cl. unfold demo_db, db_of, prepare_empty. cbn [unique_ledger inner].
    intros [[_ <-]|[_ Hx]]%lookup_insert_Some; [|by rewrite lookup_empty in Hx]. intros p d. vm_compute. split; intros [=].
  - split; [|reflexivity]. intros c c' d d' Hne. rewrite !demo_defs. repeat case_bool_decide; try congruence; by intros ?%elem_of_nil || intros _ ?%elem_of_nil.
  - intros c id doc d q Hd. unfold docs_of in Hd. by rewrite demo_view, lookup_empty in Hd.
  - done.
  - split; [intros k v Hx|intros k k' v Hx]; exfalso; exact (lookup_empty_Some _ _ Hx).
  - intros key v d Hx. exfalso. exact (lookup_empty_Some _ _ Hx).
Qed.

Definition two_users : list BatchMutation :=
  [MutPut USERS b#("u1") (account b#("a@x") 30); MutPut USERS b#("u2") (account b#("b@x") 40)].
Definition with_users : Hako := (batch 0 5000 two_users demo_db).1.

(** What [simple_fits] asks of a batch on users. *)
Lemma users_ready (ms : list BatchMutation) :
  forallb (λ m, bytes_eqb (get_col m) USERS) ms = true → ∀ m, m ∈ ms → plain_at demo_db (get_col m) ∧ NoDup (gate_ids demo_db (get_col m)).
Proof.
  intros Hms m Hin. assert (get_col m = USERS) as ->.
  { apply bytes_eqb_eq, (proj1 (forallb_forall _ _) Hms). by apply list_elem_of_In. }
  split; [|unfold gate_ids; rewrite demo_defs; repeat constructor; by intros ?%elem_of_nil].
  exists (demo_col USERS). split; [apply lookup_insert_eq|].
  destruct (open_engine_wal (cipher := unit) empty_dir default_config USERS None 0) as (w & Ew & Een & _). unfold demo_col. congruence.
Qed.
Ltac fits := apply (simple_fits Datatypes.id); [exact demo_state|reflexivity|vm_compute; reflexivity|apply users_ready; reflexivity|vm_compute; reflexivity].

Lemma facade_batch_witness :
  ∃ h', batch 0 5000 two_users demo_db = (h', Ok [b#("u1"); b#("u2")]) ∧
    view_of h' USERS !! b#("u2") = Some (encode (mkDoc (fields (account b#("b@x") 40)) 5)).
Proof.
  destruct (facade_batch demo_secret Datatypes.id 0 5000 two_users demo_db demo_state ltac:(fits)) as (h' & r & E & _ & Hr).
  exists h'. assert (r = Ok [b#("u1"); b#("u2")]) as ->.
  { transitivity (batch 0 5000 two_users demo_db).2; [by rewrite E|vm_compute; reflexivity]. }
  split; [exact E|]. destruct Hr as (ess & F & Hv). destruct (Hv USERS) as [-> _]. rewrite demo_view.
  inversion F as [|m id es ms ids ess' [He _] F' Em Ei Ee]; subst. inversion F' as [|m2 id2 es2 ms2 ids2 ess2 [He2 _] F2 Em2 Ei2 Ee2]; subst.
  inversion F2; subst. vm_compute in He, He2. injection He as <-. injection He2 as <-. vm_compute. reflexivity.
Defined.

Lemma users_written : batch 0 5000 two_users demo_db = (with_users, Ok [b#("u1"); b#("u2")]).
Proof. vm_compute. reflexivity. Qed.
Lemma users_step : rtc (db_step demo_secret Datatypes.id) demo_db with_users.
Proof. apply rtc_once. left. exists 0, 5000, two_users, (Ok [b#("u1"); b#("u2")]). split; [fits|exact users_written]. Qed.
Definition u1_doc : HakoDoc := mkDoc (fields (account b#("a@x") 30)) 5.
Lemma u1_stored : docs_of with_users USERS b#("u1") = Some u1_doc.
Proof. vm_compute. reflexivity. Qed.

Lemma unique_enforced_witness :
  obliges Datatypes.id (mkGate 1 (with_id 1 (email_def None))) b#("u1") u1_doc
    (encode_composite_prefix (with_id 1 (email_def None)) [String b#("a@x")]) ∧ b#("u1") = b#("u1").
Proof.
  assert (obliges Datatypes.id (mkGate 1 (with_id 1 (email_def None))) b#("u1") u1_doc
    (encode_composite_prefix (with_id 1 (email_def None)) [String b#("a@x")])) as Ho.
  { split; [reflexivity|]. exists [String b#("a@x")]. split; reflexivity. }
  split; [exact Ho|].
  apply (unique_enforced demo_secret Datatypes.id demo_db with_users USERS (mkGate 1 (with_id 1 (email_def None))) b#("u1") b#("u1") u1_doc u1_doc
    (encode_composite_prefix (with_id 1 (email_def None)) [String b#("a@x")]) demo_state users_step).
  - vm_compute. left.
  - exact u1_stored.
  - exact u1_stored.
  - exact Ho.
  - exact Ho.
Defined.

Lemma reads_are_current_witness :
  ∃ h2, hako_get demo_secret 0 true USERS b#("u1") with_users = (h2, Ok (Some u1_doc)) ∧ current h2 = current with_users.
Proof.
  destruct (reads_are_current demo_secret Datatypes.id demo_db with_users 0 true USERS b#("u1") demo_state users_step) as (h2 & E & _ & _ & C).
  - reflexivity.
  - rewrite u1_stored. intros d [= <-]. reflexivity.
  - exists h2. rewrite u1_stored in E. exact (conj E C).
Defined.

(** A transaction that found no document u1; another client writes it before the
    commit looks, or between its check and its write. *)
Definition absent_u1 : SerializableTransaction := note_read b#("u1") None begin_tx.
Definition finds_at (n : nat) (i : nat) : Hako := if (i <? n)%nat then demo_db else with_users.

Lemma other_client : client_batch demo_secret Datatypes.id USERS b#("u1") demo_db with_users.
Proof.
  exists 0, 5000, two_users, (Ok [b#("u1"); b#("u2")]). split; [fits|]. split; [exact users_written|].
  intros ids ess F. inversion F as [|m id es ms ids' ess' [He _] F' Em Ei Ee]; subst.
  inversion F' as [|m2 id2 es2 ms2 ids2 ess2 [He2 _] F2 Em2 Ei2 Ee2]; subst.
  inversion F2; subst. vm_compute in He, He2. injection He as <-. injection He2 as <-. repeat constructor.
Qed.

Lemma commit_sees_reads_witness :
  (∃ key, (commit_serializable demo_secret Datatypes.id 0 6000 (finds_at 0) (reads absent_u1) []).2 = Err (Conflict key)) ∧
  ∃ n, docs_of (finds_at 1 n) USERS b#("u1") = None ∧
    write_batch_internal demo_secret Datatypes.id 0 6000 [] with_users =
    commit_serializable demo_secret Datatypes.id 0 6000 (finds_at 1) (reads absent_u1) [].
Proof.
  assert (∀ m n, rtc (client_batch demo_secret Datatypes.id USERS b#("u1")) (finds_at m n) (finds_at m (S n))) as Hn.
  { intros m n. unfold finds_at. destruct (n <? m)%nat eqn:E1, (S n <? m)%nat eqn:E2; try apply rtc_refl; [apply rtc_once, other_client|].
    apply Nat.ltb_ge in E1. apply Nat.ltb_lt in E2. lia. }
  split.
  - destruct (commit_serializable demo_secret Datatypes.id 0 6000 (finds_at 0) (reads absent_u1) []) as [h2 r] eqn:E.
    destruct (commit_sees_reads demo_secret Datatypes.id 0 0 6000 begin_tx USERS b#("u1") demo_db demo_db absent_u1 None (finds_at 0)
      (reads absent_u1) [] h2 r demo_state) as [(n & key & _ & ->)|(_ & (n & _ & Hx) & _)].
    1-3: try reflexivity; vm_compute; reflexivity.
    + apply rtc_once, other_client.
    + apply Hn.
    + reflexivity.
    + exact E.
    + exists key. reflexivity.
    + change (docs_of with_users USERS b#("u1") = None) in Hx. rewrite u1_stored in Hx. discriminate Hx.
  - destruct (commit_serializable demo_secret Datatypes.id 0 6000 (finds_at 1) (reads absent_u1) []) as [h2 r] eqn:E.
    destruct (commit_sees_reads demo_secret Datatypes.id 0 0 6000 begin_tx USERS b#("u1") demo_db demo_db absent_u1 None (finds_at 1)
      (reads absent_u1) [] h2 r demo_state) as [(n & key & _ & ->)|(Hw & (n & _ & Hx) & _)].
    1-3: try reflexivity; vm_compute; reflexivity.
    + apply rtc_refl.
    + apply Hn.
    + reflexivity.
    + exact E.
    + exfalso. assert ((commit_serializable demo_secret Datatypes.id 0 6000 (finds_at 1) (reads absent_u1) []).2 = Ok []) as Hok by (vm_compute; reflexivity).
      rewrite E in Hok. discriminate Hok.
    + exists n. split; [exact Hx|]. assert (size (reads absent_u1) = 1%nat) as Hs by (vm_compute; reflexivity).
      rewrite Hs in Hw. assert (finds_at 1 1 = with_users) as Hf by (unfold finds_at; cbn [Nat.ltb Nat.leb]; reflexivity).
      rewrite Hf in Hw. exact Hw.
Defined.

(** ** The facade on concrete databases

    Soft deletion and restoring, and the cases in which the facade does something
    else than its comments say or a caller would expect. *)

Definition doc_at (h : Hako) (id : bytes) : option HakoDoc := docs_of h USERS id.

(** The collection after a flush and a restart. *)
Definition restarted (h : Hako (cipher := unit)) : option (gmap bytes bytes) :=
  e ← shards h !! USERS;
  match engine_open (dir_of (flush_wal 0 e).1) default_config USERS None 0 with Ok e => Some (store_view e) | _ => None end.

(** A batch that deletes a document and then puts it leaves it deleted, because all
    puts are applied before all deletions; after a restart the log is replayed in
    order and the document is back. *)
Lemma delete_then_put :
  let h := (batch 0 6000 [MutDelete USERS b#("u1"); MutPut USERS b#("u1") (account b#("a@x") 31)] with_users).1 in
  doc_at h b#("u1") = None ∧ current_version h b#("u1") ≠ None ∧
  (restarted h ≫= λ m, m !! b#("u1") ≫= decode) = Some (mkDoc (fields (account b#("a@x") 31)) 6).
Proof. vm_compute. split_and!; [reflexivity|congruence|reflexivity]. Qed.

(** Two patches of one document in a batch: each starts from the stored document,
    so only the last one is kept. *)
Lemma patches_lost :
  (doc_get <$> doc_at (batch 0 6000 [MutPatch USERS b#("u1") [(b#("age"), Int 31)]; MutPatch USERS b#("u1") [(b#("name"), String b#("n"))]] with_users).1 b#("u1")) ≫=
    (λ get, get b#("age")) = Some (Int 30).
Proof. vm_compute. reflexivity. Qed.

(** Versions are not stored: after a restart the version of a document that exists is
    reported as 0 and validated against its absence, so a transaction that reads it
    conflicts with itself, whatever its number of attempts. *)
Lemma conflict_after_restart :
  let h := h_with_versions 1 ∅ with_users in
  let body := λ t, '(t, d) ← tx_get demo_secret 0 t USERS b#("u1"); mret (tx_put t USERS b#("u3") (account b#("c@x") 1), d) in
  (transaction demo_secret Datatypes.id 0 6000 body (λ _ h _, h) 8 h).2 = Err (Conflict b#("u1")).
Proof. vm_compute. reflexivity. Qed.

(** The deletion of a document of another collection drops the version that the two
    ids share, so that a transaction which found no document u1 commits although u1
    has been written. *)
Lemma version_shared :
  let h := (batch 0 6000 [MutDelete b#("teams") b#("u1")] with_users).1 in
  doc_at h b#("u1") ≠ None ∧ (tx_commit demo_secret Datatypes.id 0 7000 (λ _, h) absent_u1).2 = Ok [].
Proof. vm_compute. split; [congruence|reflexivity]. Qed.

(** A plain put between the check and the write of a commit: the transaction read
    age 30 and writes 31, the put of 40 is acknowledged and lost. *)
Lemma plain_write_lost :
  let t := tx_put (note_read b#("u1") (current_version with_users b#("u1")) begin_tx) USERS b#("u1") (account b#("a@x") 31) in
  let plain := batch 0 6000 [MutPut USERS b#("u1") (account b#("a@x") 40)] with_users in
  let committed := tx_commit demo_secret Datatypes.id 0 7000 (λ n, if bool_decide (n = 0%nat) then with_users else plain.1) t in
  plain.2 = Ok [b#("u1")] ∧ committed.2 = Ok [b#("u1")] ∧
  (doc_at committed.1 b#("u1") ≫= λ d, doc_get d b#("age")) = Some (Int 31).
Proof. vm_compute. split_and!; reflexivity. Qed.

(** A read-only database accepts the commit of a transaction, and so does one whose
    rules deny the batch. *)
Lemma commit_unchecked :
  let t := tx_put begin_tx USERS b#("u3") (account b#("c@x") 1) in
  let h := set_read_only true with_users in
  let h' := set_security_rules [mkRule [] ABatch false] with_users in
  (write_batch demo_secret Datatypes.id 0 6000 (mutations t) h).2 = Err (Corrupt "ReadOnly") ∧
  (write_batch demo_secret Datatypes.id 0 6000 (mutations t) h').2 = Err (Corrupt "Security Denied") ∧
  (tx_commit demo_secret Datatypes.id 0 6000 (λ _, h) t).2 = Ok [b#("u3")] ∧ (tx_commit demo_secret Datatypes.id 0 6000 (λ _, h') t).2 = Ok [b#("u3")].
Proof. vm_compute. split_and!; reflexivity. Qed.

(** A partial unique index over adults. *)
Definition adults_db : Hako :=
  db_of (create_index mg_empty (email_def (Some (mkGroup LAnd [mkFilter b#("age") OpGte (Int 18)])))).1 (prepare_empty (mkLedger ∅ ∅) 1).
(** A document that leaves the filter keeps its claim: no other document can take
    its tuple although no document of the index has it. *)
Lemma stale_claim :
  let h := (batch 0 6000 [MutPut USERS b#("u1") (account b#("a@x") 10)] (batch 0 5000 [MutPut USERS b#("u1") (account b#("a@x") 30)] adults_db).1).1 in
  (batch 0 7000 [MutPut USERS b#("u2") (account b#("a@x") 40)] h).2 = Err (UniqueViolation USERS 1 b#("u1")) ∧
  (batch 0 7000 [MutPut USERS b#("u2") (account b#("a@x") 40)] (batch 0 6000 [MutDelete USERS b#("u1")] h).1).2 = Ok [b#("u2")].
Proof. vm_compute. split; reflexivity. Qed.

(** Soft deletion keeps a record; restoring brings the document back with a new time
    and drops the record; a second restore finds none. *)
Definition deleted_softly : Hako := (hako_delete demo_secret Datatypes.id 0 6000 USERS b#("u1") with_users).1.
Lemma soft_delete_restore :
  doc_at deleted_softly b#("u1") = None ∧
  docs_of deleted_softly SOFTDEL_COLLECTION (record_id USERS b#("u1")) =
    Some (build_record USERS b#("u1") 6 (6 + 86400 * 1000000) (encode u1_doc)) ∧
  let '(h, r) := restore demo_secret Datatypes.id 0 7000 8000 USERS b#("u1") deleted_softly in
  r = Ok tt ∧ doc_at h b#("u1") = Some (mkDoc (fields u1_doc) 7) ∧
  docs_of h SOFTDEL_COLLECTION (record_id USERS b#("u1")) = None ∧
  (restore demo_secret Datatypes.id 0 9000 9001 USERS b#("u1") h).2 = Err (InvalidInput "restore: no retention record").
Proof. vm_compute. split_and!; reflexivity. Qed.

(** A document written since its deletion is not overwritten by a restore. *)
Lemma restore_cancelled :
  let h := (batch 0 7000 [MutPut USERS b#("u1") (account b#("z@x") 1)] deleted_softly).1 in
  (restore demo_secret Datatypes.id 0 8000 9000 USERS b#("u1") h).2 =
    Err (InvalidInput "restore: doc is live or the tombstone moved (cancel rule)").
Proof. vm_compute. reflexivity. Qed.

(** A unique field that is moved to the side storage is not compared: two documents
    with the same long email are admitted. *)
Definition long_email : bytes := replicate (Z.to_nat 17000) 97.
Lemma long_unique_escapes :
  (batch 0 5000 [MutPut USERS b#("u1") (account long_email 1); MutPut USERS b#("u2") (account long_email 2)] demo_db).2 =
    Ok [b#("u1"); b#("u2")].
Proof. vm_compute. reflexivity. Qed.
