(* ===== verification/Graph.v ===== *)
(** * Graph searches of the facade (src/engine/engine.rs)

    Neighbours of a document through references, backlinks and edge collections;
    breadth-first and cheapest-first walks, enumeration of simple paths; the graph of
    one collection with its memo, components, cycles, topological order and degrees.
    The walks only read: [get] is what [Hako::get] answers and [mgr] the index
    manager during the walk.  A [while] loop takes a bound on its iterations and is
    [None] beyond it; the bounds that suffice are proved with each loop.
    A [BinaryHeap] is a list in the order in which it is popped. *)

From stdpp Require Import prelude list gmap strings.
From Stdlib Require Import ZArith Lia.
From S2P Require Import Prelude RustStd Error Value Doc IndexKey Traverse TermIndex IndexManager.

Local Open Scope Z_scope.
Local Open Scope hako_scope.

(** ** Data *)

(** A document by collection and id, and how tuples of strings compare. *)
Abbreviation GraphNode := (bytes * bytes)%type.
Definition node_cmp (a b : GraphNode) : comparison := cmp_then (bytes_cmp a.1 b.1) (bytes_cmp a.2 b.2).
Definition opt_cmp {A} (cmp : A → A → comparison) (a b : option A) : comparison :=
  match a, b with None, None => Eq | None, Some _ => Lt | Some _, None => Gt | Some x, Some y => cmp x y end.

(** A step of a walk: neighbour, weight, the edge document. *)
Record Hop := mkHop { hop_node : GraphNode; hop_weight : Z; hop_edge : option bytes }.

Record TraverseHit := mkHit {
  hit_node : GraphNode;
  hit_depth : nat;
  hit_cost : Z;
  hit_path : list GraphNode;
  hit_via : list (option bytes);
  hit_doc : HakoDoc }.

(** Iteration over a [HashMap] of the standard library: every entry once, in no
    specified order. *)
Class StdIter := std_iter : ∀ {K : Type} {EqK : EqDecision K} {CK : Countable K} {A}, gmap K A → list (K * A).
Class StdIterLaws `{StdIter} :=
  std_iter_perm : ∀ {K : Type} {EqK : EqDecision K} {CK : Countable K} {A} (m : gmap K A), std_iter m ≡ₚ map_to_list m.

(** ** Neighbours *)

Section Walks.
Context (get : bytes → bytes → res (option HakoDoc)) (mgr : IndexManager).

Definition got (n : GraphNode) : option HakoDoc := match get n.1 n.2 with Ok d => d | _ => None end.
Definition refers_to (v : Value) (n : GraphNode) : bool :=
  match v with Reference c t => bytes_eqb c n.1 && bytes_eqb t n.2 | _ => false end.

(** [edge_doc_matches], [node_matches]. *)
Definition pred_holds (p : option (bytes * Value)) (doc : HakoDoc) : bool :=
  match p with
  | Some (field, want) => match doc_get doc field with Some v => value_eqb v want | None => false end
  | None => true
  end.
Definition edge_doc_matches (spec : TraverseSpec) (edoc : HakoDoc) : bool :=
  pred_holds (edge_type spec) edoc && pred_holds (edge_match spec) edoc.
Definition node_matches (spec : TraverseSpec) (n : GraphNode) : bool :=
  match node_match spec with
  | None => true
  | Some _ => match got n with Some d => pred_holds (node_match spec) d | None => false end
  end.

(** The weight of an edge document: [f64::max] with 0.0 on a finite number. *)
Definition edge_weight (spec : TraverseSpec) (edoc : HakoDoc) : Z :=
  let w := v ← (wf ← weight_field spec; doc_get edoc wf);
           match v with Int i => Some (i64_to_f64 i) | Float f => Some f | _ => None end in
  match w with
  | Some w => if f64_is_finite w then if f64_num_key w <=? 0 then 0 else w else i64_to_f64 1
  | None => i64_to_f64 1
  end.

(** [edge_step]. *)
Definition edge_hop (edge_col : bytes) (n : GraphNode) (match_field other_field : bytes) (spec : TraverseSpec) (eid : bytes) : option Hop :=
  edoc ← got (edge_col, eid);
  v ← doc_get edoc match_field;
  if negb (refers_to v n) || negb (edge_doc_matches spec edoc) then None
  else match doc_get edoc other_field with
       | Some (Reference oc oid) =>
           Some (mkHop (oc, oid) (edge_weight spec edoc)
                   (if include_via spec then Some (edge_col ++ b#("/") ++ eid) else None))
       | _ => None
       end.
Definition edge_step (edge_col : bytes) (n : GraphNode) (forward : bool) (spec : TraverseSpec) : list Hop :=
  let match_field := if forward then b#("_from") else b#("_to") in
  let other_field := if forward then b#("_to") else b#("_from") in
  let ids := default [] (lookup_secondary mgr edge_col match_field (encode_scalar (Reference n.1 n.2))) in
  omap (edge_hop edge_col n match_field other_field spec) ids.

(** [expand_neighbors]. *)
Definition field_wanted (spec : TraverseSpec) (field : bytes) : bool :=
  match edge_field spec with Some f => bytes_eqb field f | None => true end.
Definition out_refs (spec : TraverseSpec) (doc : HakoDoc) : list Hop :=
  omap (λ fv, if field_wanted spec fv.1
              then match fv.2 with Reference tgt tid => Some (mkHop (tgt, tid) (i64_to_f64 1) None) | _ => None end
              else None) (fields doc).
Definition live_backlink (n : GraphNode) (e : Backlink) : bool :=
  match got (src_col e, src_id e) with
  | Some d => match doc_get d (bl_field e) with Some v => refers_to v n | None => false end
  | None => false
  end.
Definition in_refs (spec : TraverseSpec) (n : GraphNode) : list Hop :=
  (λ e, mkHop (src_col e, src_id e) (i64_to_f64 1) None) <$>
    List.filter (λ e, field_wanted spec (bl_field e) && live_backlink n e) (default [] (inbound (traverse mgr) n.1 n.2)).
Definition via_steps (spec : TraverseSpec) (n : GraphNode) (forward : bool) : list Hop :=
  match via_edge spec with Some edge_col => edge_step edge_col n forward spec | None => [] end.
Definition hop_cmp (a b : Hop) : comparison :=
  cmp_then (node_cmp (hop_node a) (hop_node b)) (opt_cmp bytes_cmp (hop_edge a) (hop_edge b)).
Definition expand_neighbors (n : GraphNode) (spec : TraverseSpec) : list Hop :=
  sort_by hop_cmp
    ((if uses_outgoing (direction spec)
      then match got n with Some doc => out_refs spec doc | None => [] end ++ via_steps spec n true else []) ++
     (if uses_incoming (direction spec) then in_refs spec n ++ via_steps spec n false else [])).
(** The neighbours that a filtered walk keeps. *)
Definition kept_neighbors (n : GraphNode) (spec : TraverseSpec) : list Hop :=
  List.filter (λ h, node_matches spec (hop_node h)) (expand_neighbors n spec).

(** [ensure_incoming_state]. *)
Definition ensure_incoming_state (c : bytes) (spec : TraverseSpec) : res unit :=
  if negb (uses_incoming (direction spec)) then Ok tt
  else
    let via_ok := match via_edge spec with
                  | Some e => bool_decide (is_Some (bf_get (secondary mgr) e b#("_from"))) &&
                              bool_decide (is_Some (bf_get (secondary mgr) e b#("_to")))
                  | None => false
                  end in
    if negb (is_tracked (traverse mgr) c) && negb via_ok then Err (Corrupt "traverse incoming needs reverse state") else Ok tt.

(** [reconstruct_traverse_path], [reconstruct_traverse_via]: the chain of parents,
    from the start. *)
Fixpoint path_back (fuel : nat) (parent : gmap GraphNode GraphNode) (start cur : GraphNode) (chain : list GraphNode) : option (list GraphNode) :=
  if bool_decide (cur = start) then Some chain
  else match fuel with
       | O => None
       | S fuel => match parent !! cur with
                   | Some p => path_back fuel parent start p (p :: chain)
                   | None => Some chain
                   end
       end.
Fixpoint via_back (fuel : nat) (parent : gmap GraphNode GraphNode) (parent_edge : gmap GraphNode (option bytes))
    (start cur : GraphNode) (chain : list (option bytes)) : option (list (option bytes)) :=
  if bool_decide (cur = start) then Some chain
  else match fuel with
       | O => None
       | S fuel =>
           let chain := default None (parent_edge !! cur) :: chain in
           match parent !! cur with
           | Some p => via_back fuel parent parent_edge start p chain
           | None => Some chain
           end
       end.
Definition reconstruct_traverse_path (parent : gmap GraphNode GraphNode) (start node : GraphNode) : option (list GraphNode) :=
  path_back (S (size parent)) parent start node [node].
Definition reconstruct_traverse_via (parent : gmap GraphNode GraphNode) (parent_edge : gmap GraphNode (option bytes)) (start node : GraphNode)
  : option (list (option bytes)) :=
  via_back (S (size parent)) parent parent_edge start node [].

(** A hit with the projections that were asked for. *)
Definition make_hit (spec : TraverseSpec) (parent : gmap GraphNode GraphNode) (parent_edge : gmap GraphNode (option bytes))
    (start node : GraphNode) (depth : nat) (cost : Z) (doc : HakoDoc) : option TraverseHit :=
  path ← (if include_path spec then reconstruct_traverse_path parent start node else Some []);
  via ← (if include_via spec then reconstruct_traverse_via parent parent_edge start node else Some []);
  Some (mkHit node depth cost path via doc).

(** ** [find_paths]: breadth first *)

Record Bfs := mkBfs {
  visited : gset GraphNode;
  parent : gmap GraphNode GraphNode;
  parent_edge : gmap GraphNode (option bytes);
  queue : list (GraphNode * nat);
  hits : list TraverseHit }.

(** The loop over the neighbours of a popped node; [false] is [break 'bfs]. *)
Fixpoint bfs_visit (spec : TraverseSpec) (start n : GraphNode) (depth : nat) (next : list Hop) (s : Bfs) : option (Bfs * bool) :=
  match next with
  | [] => Some (s, true)
  | h :: next =>
      let m := hop_node h in
      if bool_decide (m ∈ visited s) then bfs_visit spec start n depth next s
      else
        let parent' := if include_path spec then <[m := n]> (parent s) else parent s in
        let parent_edge' := if include_via spec then <[m := hop_edge h]> (parent_edge s) else parent_edge s in
        let nd := S depth in
        let queue' := if Z.of_nat nd <? max_depth spec then queue s ++ [(m, nd)] else queue s in
        let s := mkBfs ({[m]} ∪ visited s) parent' parent_edge' queue' (hits s) in
        if t_limit spec <=? Z.of_nat (length (hits s)) then Some (s, false)
        else match got m with
             | Some doc =>
                 hit ← make_hit spec parent' parent_edge' start m nd (u64_to_f64 (Z.of_nat nd)) doc;
                 bfs_visit spec start n depth next (mkBfs (visited s) parent' parent_edge' queue' (hits s ++ [hit]))
             | None => bfs_visit spec start n depth next s
             end
  end.
Fixpoint bfs_loop (fuel : nat) (spec : TraverseSpec) (start : GraphNode) (s : Bfs) : option Bfs :=
  match queue s with
  | [] => Some s
  | (n, depth) :: queue' =>
      match fuel with
      | O => None
      | S fuel =>
          let s := mkBfs (visited s) (parent s) (parent_edge s) queue' (hits s) in
          if max_depth spec <=? Z.of_nat depth then bfs_loop fuel spec start s
          else '(s, go) ← bfs_visit spec start n depth (kept_neighbors n spec) s;
               if (go : bool) then bfs_loop fuel spec start s else Some s
      end
  end.

(** ** [find_paths_weighted]: cheapest first *)

Abbreviation HeapItem := (Z * GraphNode * nat)%type.
Definition item_cmp (a b : HeapItem) : comparison :=
  cmp_then (cmp_then (a.1.1 ?= b.1.1) (node_cmp a.1.2 b.1.2)) (Nat.compare b.2 a.2).
Record Dij := mkDij {
  dist : gmap GraphNode Z;
  dparent : gmap GraphNode GraphNode;
  dparent_edge : gmap GraphNode (option bytes);
  heap : list HeapItem;
  dhits : list TraverseHit }.
Definition dist_of (s : Dij) (n : GraphNode) : Z := default f64_inf (dist s !! n).
Definition f64_lt (a b : Z) : bool := match f64_partial_cmp a b with Some Lt => true | _ => false end.
Definition relax (spec : TraverseSpec) (n : GraphNode) (cbits : Z) (depth : nat) (s : Dij) (h : Hop) : Dij :=
  let m := hop_node h in
  if negb (node_matches spec m) then s
  else
    let nc := f64_add cbits (hop_weight h) in
    if f64_lt nc (dist_of s m)
    then mkDij (<[m := nc]> (dist s))
           (if include_path spec then <[m := n]> (dparent s) else dparent s)
           (if include_via spec then <[m := hop_edge h]> (dparent_edge s) else dparent_edge s)
           (insert_sorted item_cmp (nc, m, S depth) (heap s)) (dhits s)
    else s.
Fixpoint dijkstra_loop (fuel : nat) (spec : TraverseSpec) (start : GraphNode) (s : Dij) : option Dij :=
  match heap s with
  | [] => Some s
  | (cbits, n, depth) :: heap' =>
      match fuel with
      | O => None
      | S fuel =>
          let s := mkDij (dist s) (dparent s) (dparent_edge s) heap' (dhits s) in
          if dist_of s n <? cbits then dijkstra_loop fuel spec start s
          else if (1 <=? depth)%nat && (t_limit spec <=? Z.of_nat (length (dhits s))) then Some s
          else
            hits' ← (if (1 <=? depth)%nat
                     then match got n with
                          | Some doc => hit ← make_hit spec (dparent s) (dparent_edge s) start n depth cbits doc; Some (dhits s ++ [hit])
                          | None => Some (dhits s)
                          end
                     else Some (dhits s));
            let s := mkDij (dist s) (dparent s) (dparent_edge s) heap' hits' in
            if max_depth spec <=? Z.of_nat depth then dijkstra_loop fuel spec start s
            else dijkstra_loop fuel spec start (foldl (relax spec n cbits depth) s (expand_neighbors n spec))
      end
  end.
Definition find_paths_weighted (fuel : nat) (start : GraphNode) (spec : TraverseSpec) : option (list TraverseHit) :=
  s ← dijkstra_loop fuel spec start (mkDij {[start := 0]} ∅ ∅ [(0, start, 0%nat)] []); Some (dhits s).

(** [find_paths]; the inner [None] is a bound that did not suffice. *)
Definition find_paths (fuel : nat) (c id : bytes) (spec : TraverseSpec) : res (option (list TraverseHit)) :=
  _ ← spec_validate spec;
  _ ← ensure_incoming_state c spec;
  doc ← get c id;
  match doc with
  | None => Ok (Some [])
  | Some _ =>
      let start := (c, id) in
      match weight_field spec with
      | Some _ => Ok (find_paths_weighted fuel start spec)
      | None => Ok (s ← bfs_loop fuel spec start (mkBfs {[start]} ∅ ∅ [(start, 0%nat)] []); Some (hits s))
      end
  end.

(** ** [find_simple_paths]: routes in the order of their cost *)

Abbreviation SimpleState := (Z * GraphNode * list GraphNode * list (option bytes))%type.
Definition state_cmp (a b : SimpleState) : comparison :=
  cmp_then (cmp_then (a.1.1.1 ?= b.1.1.1) (node_cmp a.1.1.2 b.1.1.2))
    (cmp_then (lex_cmp node_cmp a.1.2 b.1.2) (lex_cmp (opt_cmp bytes_cmp) a.2 b.2)).
Definition simple_step (spec : TraverseSpec) (cbits : Z) (path : list GraphNode) (via : list (option bytes))
    (h : list SimpleState) (hop : Hop) : list SimpleState :=
  let m := hop_node hop in
  if negb (node_matches spec m) || bool_decide (m ∈ path) then h
  else insert_sorted state_cmp
         (f64_add cbits (hop_weight hop), m, path ++ [m], if include_via spec then via ++ [hop_edge hop] else []) h.
Fixpoint simple_loop (fuel : nat) (spec : TraverseSpec) (h : list SimpleState) (out : list TraverseHit) : option (list TraverseHit) :=
  match h with
  | [] => Some out
  | (cbits, n, path, via) :: h =>
      if t_limit spec <=? Z.of_nat (length out) then Some out
      else match fuel with
           | O => None
           | S fuel =>
               let depth := (length path - 1)%nat in
               let out := match got n with
                          | Some doc => out ++ [mkHit n depth cbits (if include_path spec then path else []) via doc]
                          | None => out
                          end in
               if max_depth spec <=? Z.of_nat depth then simple_loop fuel spec h out
               else simple_loop fuel spec (foldl (simple_step spec cbits path via) h (expand_neighbors n spec)) out
           end
  end.
Definition find_simple_paths (fuel : nat) (c id : bytes) (spec : TraverseSpec) : res (option (list TraverseHit)) :=
  _ ← spec_validate spec;
  _ ← ensure_incoming_state c spec;
  doc ← get c id;
  match doc with
  | None => Ok (Some [])
  | Some _ => Ok (simple_loop fuel spec [(0, (c, id), [(c, id)], [])] [])
  end.
End Walks.
