(* ===== verification/WalkFacts.v ===== *)
(** * Breadth-first walks

    The invariant of [bfs_loop]: the nodes in the order of their discovery, each with
    its depth; what is processed, what is queued and what became a hit are read off
    that list.  From it: hits are at their distance, none is left out for a farther
    one, and their paths are shortest walks. *)

From stdpp Require Import prelude list gmap strings.
From Stdlib Require Import ZArith Lia Sorted.
From S2P Require Import Prelude RustStd Error Value Doc Traverse IndexManager Graph.

Local Open Scope Z_scope.
Local Open Scope hako_scope.

Section Bfs.
Context (get : bytes → bytes → res (option HakoDoc)) (mgr : IndexManager) (spec : TraverseSpec) (start : GraphNode).

(** [m] is a neighbour that the walk follows from [n]. *)
Definition step_to (n m : GraphNode) : Prop := m ∈ hop_node <$> kept_neighbors get mgr n spec.
(** A walk of [k] steps from the start. *)
Inductive walk : nat → GraphNode → Prop :=
| walk_start : walk 0 start
| walk_step k n m : walk k n → step_to n m → walk (S k) m.
(** A list of nodes that is a walk. *)
Fixpoint chain (l : list GraphNode) : Prop :=
  match l with
  | n :: (m :: _) as l' => step_to n m ∧ chain l'
  | _ => True
  end.

(** The nodes within a number of steps. *)
Fixpoint ball (k : nat) : list GraphNode :=
  match k with
  | O => [start]
  | S k => ball k ++ (ball k ≫= λ n, hop_node <$> kept_neighbors get mgr n spec)
  end.
Lemma walk_ball k m : walk k m → m ∈ ball k.
Proof using Type.
  induction 1 as [|k n m _ IH Hs]; [by left|]. cbn. apply elem_of_app. right. apply list_elem_of_bind. by exists n.
Qed.
Lemma ball_mono k j : (k <= j)%nat → ball k ⊆ ball j.
Proof using Type.
  induction 1 as [|j _ IH]; [done|]. cbn. intros m Hm. apply elem_of_app. left. by apply IH.
Qed.

(** ** The invariant *)

Abbreviation Disc := (list (GraphNode * nat)).
Abbreviation mx := (Z.to_nat (max_depth spec)).

(** [k] nodes are processed; the depth of the next one, if there is one, is [D]. *)
Record bfs_inv (disc : Disc) (k D : nat) : Prop := {
  bi_nodup : NoDup disc.*1;
  bi_start : head disc = Some (start, 0%nat);
  bi_sorted i j x y : disc !! i = Some x → disc !! j = Some y → (i <= j)%nat → (x.2 <= y.2)%nat;
  bi_depth i x : disc !! i = Some x → (x.2 <= i)%nat;
  bi_last x : x ∈ disc → (x.2 <= S D)%nat ∧ (x.2 <= mx)%nat;
  bi_done i x : disc !! i = Some x → (i < k)%nat → (x.2 <= D)%nat;
  bi_next i x : disc !! i = Some x → (k <= i)%nat → (D <= x.2)%nat;
  bi_walk x : x ∈ disc → walk x.2 x.1;
  bi_closed i n d m : disc !! i = Some (n, d) → (i < k)%nat → (d < mx)%nat → step_to n m → ∃ e, (m, e) ∈ disc ∧ (e <= S d)%nat }.

Lemma bi_unique disc k D m d e : bfs_inv disc k D → (m, d) ∈ disc → (m, e) ∈ disc → d = e.
Proof using Type.
  intros Hi [i Hd]%list_elem_of_lookup [j He]%list_elem_of_lookup. assert (i = j) as ->.
  { eapply (NoDup_lookup disc.*1 i j m); [apply Hi|by rewrite list_lookup_fmap, Hd|by rewrite list_lookup_fmap, He]. }
  congruence.
Qed.

(** Everything within [D] steps has been discovered, at its distance or closer. *)
Lemma bi_found disc k D j m : bfs_inv disc k D → walk j m → (j <= D)%nat → (j <= mx)%nat → ∃ e, (m, e) ∈ disc ∧ (e <= j)%nat.
Proof using Type.
  intros Hi Hw. revert m Hw. induction j as [|j IH]; intros m Hw HD Hm.
  { inversion Hw; subst. exists 0%nat. split; [|lia]. pose proof (bi_start _ _ _ Hi). destruct disc as [|x disc]; [done|].
    cbn in *. injection H as ->. by left. }
  inversion Hw as [|? n ? Hw' Hs]; subst. destruct (IH n Hw') as (e & He & Hle); [lia|lia|].
  apply list_elem_of_lookup in He as [i Hi']. assert (i < k)%nat as Hik.
  { destruct (decide (i < k)%nat); [done|]. pose proof (bi_next _ _ _ Hi i (n, e) Hi' ltac:(lia)) as Hx. cbn in Hx. lia. }
  destruct (bi_closed _ _ _ Hi i n e m Hi' Hik ltac:(lia) Hs) as (f & Hf & Hle'). exists f. split; [done|lia].
Qed.

(** Discovered nodes are at their distance. *)
Lemma bi_distance disc k D m d j : bfs_inv disc k D → (m, d) ∈ disc → walk j m → (d <= j)%nat.
Proof using Type.
  intros Hi Hd Hw. destruct (decide (d <= j)%nat); [done|]. destruct (bi_last _ _ _ Hi _ Hd) as [H1 H2]. cbn in H1, H2.
  destruct (bi_found disc k D j m Hi Hw ltac:(lia) ltac:(lia)) as (e & He & Hle).
  pose proof (bi_unique _ _ _ _ _ _ Hi Hd He). lia.
Qed.

(** ** Keeping the invariant *)

Lemma bi_init : bfs_inv [(start, 0%nat)] 0 0.
Proof using Type.
  split; cbn; try done.
  - apply NoDup_singleton.
  - intros [|i] [|j] x y; cbn; try done. intros [= <-] [= <-]. done.
  - intros [|i] x; cbn; [|done]. intros [= <-]. cbn; lia.
  - intros x ->%list_elem_of_singleton. cbn; lia.
  - intros; lia.
  - intros; lia.
  - intros x ->%list_elem_of_singleton. constructor.
  - intros; lia.
Qed.

Lemma lookup_snoc_cases {A} (l : list A) x i y : (l ++ [x]) !! i = Some y → l !! i = Some y ∨ (i = length l ∧ y = x).
Proof using Type.
  rewrite lookup_app. destruct (l !! i) eqn:E; [by left|]. intros Hs. apply lookup_ge_None in E.
  destruct (i - length l)%nat as [|j] eqn:Ej; [|by destruct j]. injection Hs as <-. right. split; [lia|done].
Qed.

Lemma bi_discover disc k n d m :
  bfs_inv disc k d → disc !! k = Some (n, d) → (d < mx)%nat → step_to n m → m ∉ disc.*1 → bfs_inv (disc ++ [(m, S d)]) k d.
Proof using Type.
  intros Hi Hk Hd Hs Hm. pose proof (lookup_lt_Some _ _ _ Hk) as Hlt. split.
  - rewrite fmap_app. apply NoDup_app. split_and!; [apply Hi| |apply NoDup_singleton]. intros y Hy ->%list_elem_of_singleton. done.
  - pose proof (bi_start _ _ _ Hi). by destruct disc.
  - intros i j x y [Hx|[-> ->]]%lookup_snoc_cases [Hy|[-> ->]]%lookup_snoc_cases Hle; [by apply (bi_sorted _ _ _ Hi i j)| | |done].
    + apply (bi_last _ _ _ Hi). by eapply list_elem_of_lookup_2.
    + apply lookup_lt_Some in Hy. lia.
  - intros i x [Hx|[-> ->]]%lookup_snoc_cases; [by apply (bi_depth _ _ _ Hi)|]. pose proof (bi_depth _ _ _ Hi _ _ Hk). cbn in *; lia.
  - intros x [Hx|Hx]%elem_of_app; [by apply (bi_last _ _ _ Hi)|]. apply list_elem_of_singleton in Hx as ->. cbn; lia.
  - intros i x [Hx|[-> ->]]%lookup_snoc_cases; [by apply (bi_done _ _ _ Hi)|lia].
  - intros i x [Hx|[-> ->]]%lookup_snoc_cases; [by apply (bi_next _ _ _ Hi)|cbn; lia].
  - intros x [Hx|Hx]%elem_of_app; [by apply (bi_walk _ _ _ Hi)|]. apply list_elem_of_singleton in Hx as ->. cbn.
    econstructor; [|exact Hs]. apply (bi_walk _ _ _ Hi (n, d)). by eapply list_elem_of_lookup_2.
  - intros i n' d' m' [Hx|[-> [= -> ->]]]%lookup_snoc_cases Hik Hd' Hs'; [|lia].
    destruct (bi_closed _ _ _ Hi i n' d' m' Hx Hik Hd' Hs') as (e & He & Hle). exists e. split; [|done]. apply elem_of_app; by left.
Qed.

Lemma bi_advance disc k n d :
  bfs_inv disc k d → disc !! k = Some (n, d) → ((d < mx)%nat → ∀ m, step_to n m → m ∈ disc.*1) →
  bfs_inv disc (S k) (match disc !! S k with Some x => x.2 | None => mx end).
Proof using Type.
  intros Hi Hk Hall. set (D := match disc !! S k with Some x => x.2 | None => mx end).
  assert (∀ x, x ∈ disc → (x.2 <= S D)%nat ∧ (x.2 <= mx)%nat) as Hlast.
  { intros x Hx. destruct (bi_last _ _ _ Hi x Hx) as [H1 H2]. split; [|done]. unfold D. destruct (disc !! S k) as [y|] eqn:E; [|lia].
    pose proof (bi_sorted _ _ _ Hi k (S k) _ _ Hk E ltac:(lia)) as Hle. cbn in Hle. lia. }
  split; try apply Hi; [done| | |].
  - intros i x Hx Hik. unfold D. destruct (disc !! S k) as [y|] eqn:E; [by apply (bi_sorted _ _ _ Hi i (S k)); [..|lia]|].
    apply Hlast. by eapply list_elem_of_lookup_2.
  - intros i x Hx Hik. unfold D. destruct (disc !! S k) as [y|] eqn:E; [by apply (bi_sorted _ _ _ Hi (S k) i)|].
    apply lookup_ge_None in E. apply lookup_lt_Some in Hx. lia.
  - intros i n' d' m Hx Hik Hd Hs. destruct (decide (i = k)) as [->|Hne]; [|apply (bi_closed _ _ _ Hi i n'); [done|lia|done..]].
    assert (n' = n ∧ d' = d) as [-> ->] by (split; congruence).
    destruct (proj1 (list_elem_of_fmap _ _ _) (Hall Hd m Hs)) as ([m' e] & -> & He). exists e. split; [done|].
    by destruct (bi_last _ _ _ Hi _ He).
Qed.

(** ** Paths back to the start *)

(** A walk with the edges it went over. *)
Fixpoint route (l : list GraphNode) (v : list (option bytes)) : Prop :=
  match l, v with
  | n :: (m :: _) as l', e :: v' => (∃ h, h ∈ kept_neighbors get mgr n spec ∧ hop_node h = m ∧ hop_edge h = e) ∧ route l' v'
  | [_], [] => True
  | _, _ => False
  end.

Definition parents_ok (disc : Disc) (par : gmap GraphNode GraphNode) (pe : gmap GraphNode (option bytes)) : Prop :=
  ∀ m d, (m, d) ∈ disc → m ≠ start → ∃ p e h, par !! m = Some p ∧ (p, e) ∈ disc ∧ d = S e ∧
    h ∈ kept_neighbors get mgr p spec ∧ hop_node h = m ∧ (include_via spec = true → pe !! m = Some (hop_edge h)).

Lemma path_back_ok disc k D par pe fuel m d tl :
  bfs_inv disc k D → parents_ok disc par pe → (m, d) ∈ disc → (d <= fuel)%nat → chain (m :: tl) →
  ∃ p, path_back fuel par start m (m :: tl) = Some p ∧ head p = Some start ∧ last p = last (m :: tl) ∧ chain p ∧
    length p = (d + length (m :: tl))%nat.
Proof using Type.
  intros Hi Hp. revert m d tl. induction fuel as [|fuel IH]; intros m d tl Hm Hd Hc; cbn [path_back]; case_bool_decide as Hst.
  1, 3: exists (m :: tl); subst m; split_and!; try done; destruct Hi as [Hn Hs _ _ _ _ _ _ _];
    (assert (d = 0%nat) as ->; [|done]); destruct disc as [|x disc]; [done|]; injection Hs as ->;
    apply elem_of_cons in Hm as [[= ->]|Hm]; [done|]; apply NoDup_cons in Hn as [Hn _]; destruct Hn; cbn;
    apply list_elem_of_fmap; by exists (start, d).
  - destruct (Hp m d Hm Hst) as (p & e & h & _ & _ & Hde & _). lia.
  - destruct (Hp m d Hm Hst) as (p & e & h & -> & He & -> & Hh & Hn & _).
    destruct (IH p e (m :: tl) He ltac:(lia)) as (q & E & H1 & H2 & H3 & H4).
    { split; [|done]. unfold step_to. rewrite <-Hn. by apply list_elem_of_fmap_2. }
    exists q. split_and!; try done. cbn in H4 |- *. lia.
Qed.

Lemma via_back_ok disc k D par pe fuel m d tl vtl :
  bfs_inv disc k D → parents_ok disc par pe → include_via spec = true → (m, d) ∈ disc → (d <= fuel)%nat → route (m :: tl) vtl →
  ∃ p v, path_back fuel par start m (m :: tl) = Some p ∧ via_back fuel par pe start m vtl = Some v ∧ route p v.
Proof using Type.
  intros Hi Hp Hv. revert m d tl vtl. induction fuel as [|fuel IH]; intros m d tl vtl Hm Hd Hc; cbn [path_back via_back]; case_bool_decide as Hst.
  1, 3: by exists (m :: tl), vtl.
  - destruct (Hp m d Hm Hst) as (p & e & h & _ & _ & Hde & _). lia.
  - destruct (Hp m d Hm Hst) as (p & e & h & -> & He & -> & Hh & Hn & Hpe). rewrite (Hpe Hv). cbn [default from_option id].
    apply (IH p e); [done|lia|]. split; [by exists h|done].
Qed.

(** ** The state of the loop *)

Definition hit_ok (h : TraverseHit) : Prop :=
  got get (hit_node h) = Some (hit_doc h) ∧ hit_cost h = u64_to_f64 (Z.of_nat (hit_depth h)) ∧
  if include_path spec
  then head (hit_path h) = Some start ∧ last (hit_path h) = Some (hit_node h) ∧ chain (hit_path h) ∧
       length (hit_path h) = S (hit_depth h) ∧ (include_via spec = true → route (hit_path h) (hit_via h))
  else hit_path h = [].
Definition present (x : GraphNode * nat) : bool := bool_decide (is_Some (got get x.1)).

(** [hd] are the discovered nodes that have been looked at for hits. *)
Record bfs_rel (disc hd : Disc) (k : nat) (s : Bfs) : Prop := {
  br_visited : visited s = list_to_set disc.*1;
  br_queue : queue s = List.filter (λ x, (x.2 <? mx)%nat) (drop k disc);
  br_parents : include_path spec = true →
    parents_ok disc (parent s) (parent_edge s) ∧ (length disc <= S (size (parent s)))%nat ∧ dom (parent s) ⊆ visited s;
  br_noparents : include_path spec = false → parent s = ∅;
  br_hits : (λ h, (hit_node h, hit_depth h)) <$> hits s = List.filter present (tail hd);
  br_ok : Forall hit_ok (hits s);
  br_limit : Z.of_nat (length (hits s)) <= t_limit spec }.

Lemma make_hit_ok disc k D par pe m d doc :
  bfs_inv disc k D → m ≠ start → (m, d) ∈ disc → got get m = Some doc →
  (include_path spec = true → parents_ok disc par pe ∧ (d <= S (size par))%nat) → (include_path spec = false → par = ∅) →
  ∃ h, make_hit spec par pe start m d (u64_to_f64 (Z.of_nat d)) doc = Some h ∧ hit_node h = m ∧ hit_depth h = d ∧ hit_ok h.
Proof using Type.
  intros Hi Hst Hm Hdoc Hp Hnp. unfold make_hit, reconstruct_traverse_path, reconstruct_traverse_via.
  destruct (include_path spec) eqn:Hip.
  - destruct (Hp eq_refl) as [Hp' Hd]. clear Hp. rename Hp' into Hp. destruct (path_back_ok disc k D par pe (S (size par)) m d [] Hi Hp Hm Hd I) as (p & E & H1 & H2 & H3 & H4).
    rewrite E. cbn [mbind option_bind]. destruct (include_via spec) eqn:Hiv.
    + destruct (via_back_ok disc k D par pe (S (size par)) m d [] [] Hi Hp Hiv Hm Hd I) as (p' & v & E1 & E2 & R).
      rewrite E2. cbn [mbind option_bind]. eexists. split; [done|]. split_and!; [done|done|]. split_and!; [done|done|]. rewrite Hip. cbn.
      assert (p' = p) as -> by congruence. split_and!; try done. cbn in H4. lia.
    + eexists. split; [done|]. split_and!; [done|done|]. split_and!; [done|done|]. rewrite Hip. cbn. split_and!; try done; [cbn in H4; lia|congruence].
  - rewrite (Hnp eq_refl). cbn [mbind option_bind].
    assert (∃ v, (if include_via spec then via_back (S (size (∅ : gmap GraphNode GraphNode))) ∅ pe start m [] else Some []) = Some v) as [v ->].
    { destruct (include_via spec); [|eauto]. cbn. rewrite bool_decide_eq_false_2 by done. rewrite lookup_empty. eauto. }
    cbn [mbind option_bind]. eexists. split; [done|]. split_and!; [done|done|]. split_and!; [done|done|]. by rewrite Hip.
Qed.

Lemma drop_snoc {A} (l : list A) x k : (k <= length l)%nat → drop k (l ++ [x]) = drop k l ++ [x].
Proof using Type. intros Hk. by rewrite drop_app_le. Qed.

Lemma parents_insert disc par pe n d h :
  (n, d) ∈ disc → hop_node h ∉ disc.*1 → h ∈ kept_neighbors get mgr n spec → parents_ok disc par pe →
  parents_ok (disc ++ [(hop_node h, S d)]) (<[hop_node h := n]> par) (if include_via spec then <[hop_node h := hop_edge h]> pe else pe).
Proof using Type.
  intros Hn Hm Hh Hp m e [He|He]%elem_of_app Hst.
  - destruct (Hp m e He Hst) as (p & f & h' & H1 & H2 & H3 & H4 & H5 & H6). exists p, f, h'.
    assert (hop_node h ≠ m). { intros <-. apply Hm. apply list_elem_of_fmap. by exists (hop_node h, e). }
    rewrite lookup_insert_ne by done. split_and!; try done; [apply elem_of_app; by left|]. intros Hv. rewrite Hv.
    rewrite lookup_insert_ne by done. by apply H6.
  - apply list_elem_of_singleton in He as [= -> ->]. exists n, d, h. rewrite lookup_insert_eq.
    split_and!; try done; [apply elem_of_app; by left|]. intros ->. by rewrite lookup_insert_eq.
Qed.

Context (Hmax : 0 <= max_depth spec) (Hlim : 0 <= t_limit spec).

Lemma depth_ltb d : (Z.of_nat d <? max_depth spec) = (d <? mx)%nat.
Proof using Hmax Hlim. destruct (Nat.ltb_spec d mx), (Z.ltb_spec (Z.of_nat d) (max_depth spec)); lia. Qed.

(** A newly discovered node, before it is looked at. *)
Lemma rel_discover disc k n d h s :
  bfs_inv disc k d → bfs_rel disc disc (S k) s → disc !! k = Some (n, d) → h ∈ kept_neighbors get mgr n spec → hop_node h ∉ disc.*1 →
  bfs_rel (disc ++ [(hop_node h, S d)]) disc (S k)
    (mkBfs ({[hop_node h]} ∪ visited s) (if include_path spec then <[hop_node h := n]> (parent s) else parent s)
       (if include_via spec then <[hop_node h := hop_edge h]> (parent_edge s) else parent_edge s)
       (if Z.of_nat (S d) <? max_depth spec then queue s ++ [(hop_node h, S d)] else queue s) (hits s)).
Proof using Hmax Hlim.
  intros Hi Hr Hk Hh Hm. pose proof (lookup_lt_Some _ _ _ Hk). split; cbn [visited parent parent_edge queue hits].
  - rewrite (br_visited _ _ _ _ Hr), fmap_app, list_to_set_app_L. cbn. set_solver.
  - rewrite (br_queue _ _ _ _ Hr), drop_snoc by lia. rewrite List.filter_app, depth_ltb. cbn [List.filter snd]. by destruct (S d <? mx)%nat; rewrite ?app_nil_r.
  - intros Hip. rewrite Hip. destruct (br_parents _ _ _ _ Hr Hip) as (H1 & H2 & H3). split_and!.
    + apply parents_insert; try done. by eapply list_elem_of_lookup_2.
    + rewrite map_size_insert_None, length_app; [cbn; lia|]. apply not_elem_of_dom. intros Hx. apply H3 in Hx.
      rewrite (br_visited _ _ _ _ Hr) in Hx. by apply elem_of_list_to_set in Hx.
    + rewrite dom_insert. set_solver.
  - intros Hip. rewrite Hip. by apply Hr.
  - apply Hr.
  - apply Hr.
  - apply Hr.
Qed.

Lemma present_filter hd x : hd ≠ [] → List.filter present (tail (hd ++ [x])) = List.filter present (tail hd) ++ (if present x then [x] else []).
Proof using Type. destruct hd as [|y hd]; [done|]. intros _. cbn [app tail]. rewrite List.filter_app. cbn. by destruct (present x). Qed.

(** Looking at the newest node. *)
Lemma rel_look disc k x s hs :
  disc ≠ [] → bfs_rel (disc ++ [x]) disc k s → Forall hit_ok hs →
  (λ h, (hit_node h, hit_depth h)) <$> hs = (if present x then [x] else []) →
  Z.of_nat (length (hits s ++ hs)) <= t_limit spec →
  bfs_rel (disc ++ [x]) (disc ++ [x]) k (mkBfs (visited s) (parent s) (parent_edge s) (queue s) (hits s ++ hs)).
Proof using Type.
  intros Hne Hr Hok Hh Hl. split; cbn [visited parent parent_edge queue hits]; try apply Hr; try done.
  - rewrite present_filter by done. rewrite fmap_app, (br_hits _ _ _ _ Hr), Hh. done.
  - apply Forall_app. split; [apply Hr|done].
Qed.

(** The loop over the neighbours: every one has been discovered, or the limit has
    stopped the walk at the newest node. *)
Lemma bfs_visit_spec k n d next : ∀ disc s,
  bfs_inv disc k d → bfs_rel disc disc (S k) s → disc !! k = Some (n, d) → (d < mx)%nat →
  (∀ h, h ∈ next → h ∈ kept_neighbors get mgr n spec) →
  ∃ s' go disc', bfs_visit get spec start n d next s = Some (s', go) ∧ bfs_inv disc' k d ∧ disc `prefix_of` disc' ∧
    if (go : bool) then bfs_rel disc' disc' (S k) s' ∧ ∀ h, h ∈ next → hop_node h ∈ disc'.*1
    else ∃ hd x, disc' = hd ++ [x] ∧ hd ≠ [] ∧ bfs_rel disc' hd (S k) s' ∧ Z.of_nat (length (hits s')) = t_limit spec.
Proof using Hmax Hlim.
  induction next as [|h next IH]; intros disc s Hi Hr Hk Hd Hnext; cbn [bfs_visit].
  { exists s, true, disc. split_and!; try done. by intros h Hh%elem_of_nil. }
  assert (h ∈ kept_neighbors get mgr n spec) as Hh by (apply Hnext; by left).
  assert (∀ h', h' ∈ next → h' ∈ kept_neighbors get mgr n spec) as Hrest by (intros h' Hh'; apply Hnext; by right).
  assert (disc ≠ []) as Hne by (intros ->; done). rewrite (br_visited _ _ _ _ Hr).
  case_bool_decide as Hv; rewrite elem_of_list_to_set in Hv.
  { destruct (IH disc s Hi Hr Hk Hd Hrest) as (s' & go & disc' & E & Hi' & Hpre & Hgo). exists s', go, disc'. split_and!; try done.
    destruct go; [|done]. destruct Hgo as [Hr' Hall]. split; [done|]. intros h' [->|Hh']%elem_of_cons; [|by apply Hall].
    destruct Hpre as [l ->]. rewrite fmap_app. apply elem_of_app. by left. }
  assert (step_to n (hop_node h)) as Hst by (by apply list_elem_of_fmap_2).
  pose proof (bi_discover disc k n d (hop_node h) Hi Hk Hd Hst Hv) as Hi1.
  pose proof (rel_discover disc k n d h s Hi Hr Hk Hh Hv) as Hr1.
  rewrite <-(br_visited _ _ _ _ Hr). cbn zeta. set (s1 := mkBfs ({[hop_node h]} ∪ visited s) _ _ _ (hits s)) in *.
  assert ((disc ++ [(hop_node h, S d)]) !! k = Some (n, d)) as Hk1 by (by apply lookup_app_l_Some).
  assert (disc `prefix_of` disc ++ [(hop_node h, S d)]) as Hp1 by (by exists [(hop_node h, S d)]).
  assert (hop_node h ≠ start) as Hns.
  { intros Hx. apply Hv. rewrite Hx. pose proof (bi_start _ _ _ Hi). destruct disc as [|y disc']; [done|]. injection H as ->. by left. }
  assert (∀ s2, bfs_rel (disc ++ [(hop_node h, S d)]) (disc ++ [(hop_node h, S d)]) (S k) s2 →
    ∃ s' go disc', bfs_visit get spec start n d next s2 = Some (s', go) ∧ bfs_inv disc' k d ∧ disc `prefix_of` disc' ∧
      if (go : bool) then bfs_rel disc' disc' (S k) s' ∧ ∀ h', h' ∈ h :: next → hop_node h' ∈ disc'.*1
      else ∃ hd x, disc' = hd ++ [x] ∧ hd ≠ [] ∧ bfs_rel disc' hd (S k) s' ∧ Z.of_nat (length (hits s')) = t_limit spec) as Hmore.
  { intros s2 Hr2. destruct (IH _ _ Hi1 Hr2 Hk1 Hd Hrest) as (s' & go & disc' & E' & Hi' & Hpre & Hgo).
    exists s', go, disc'. split; [exact E'|]. split; [done|]. split; [by etransitivity|]. destruct go; [|done].
    destruct Hgo as [Hr' Hall]. split; [done|]. intros h' [->|Hh']%elem_of_cons; [|by apply Hall].
    destruct Hpre as [l ->]. rewrite !fmap_app. apply elem_of_app. left. apply elem_of_app. right. by left. }
  pose proof (br_limit _ _ _ _ Hr) as Hlen. change (hits s1) with (hits s) in *.
  destruct (Z.leb_spec (t_limit spec) (Z.of_nat (length (hits s)))) as [Hfull|Hroom].
  { exists s1, false, (disc ++ [(hop_node h, S d)]). split_and!; try done. exists disc, (hop_node h, S d). split_and!; try done. cbn. lia. }
  destruct (got get (hop_node h)) as [doc|] eqn:Hdoc.
  - destruct (make_hit_ok (disc ++ [(hop_node h, S d)]) k d (parent s1) (parent_edge s1) (hop_node h) (S d) doc Hi1 Hns) as (hit & E & H1 & H2 & Hok).
    { apply elem_of_app. right. by left. } { done. }
    { intros Hip. destruct (br_parents _ _ _ _ Hr1 Hip) as (Hpar & Hsz & _). split; [done|]. rewrite length_app in Hsz. cbn [length] in Hsz.
      pose proof (bi_depth _ _ _ Hi1 (length disc) (hop_node h, S d)) as Hdp. rewrite list_lookup_middle in Hdp by done.
      specialize (Hdp eq_refl). cbn in Hdp. lia. }
    { apply (br_noparents _ _ _ _ Hr1). }
    change (make_hit spec (parent s1) (parent_edge s1) start (hop_node h) (S d) (u64_to_f64 (Z.of_nat (S d))) doc = Some hit) in E.
    cbn [parent parent_edge s1] in E. rewrite E. cbn [mbind option_bind].
    pose proof (rel_look disc (S k) (hop_node h, S d) s1 [hit] Hne Hr1) as Hr2.
    apply Hmore, Hr2; [by constructor|unfold present; cbn [fst]; rewrite Hdoc; cbn; by rewrite H1, H2|rewrite length_app; cbn; lia].
  - pose proof (rel_look disc (S k) (hop_node h, S d) s1 [] Hne Hr1) as Hr2. rewrite app_nil_r in Hr2.
    apply Hmore, Hr2; [by constructor|unfold present; cbn [fst]; by rewrite Hdoc|cbn; lia].
Qed.

(** ** The whole walk *)

Definition next_depth (disc : Disc) (k : nat) : nat := match disc !! k with Some x => x.2 | None => mx end.

(** The queue is what is pending; its first node is the next one. *)
Lemma queue_next disc k :
  bfs_inv disc k (next_depth disc k) →
  List.filter (λ x, (x.2 <? mx)%nat) (drop k disc) =
    match disc !! k with
    | Some x => if (x.2 <? mx)%nat then x :: List.filter (λ x, (x.2 <? mx)%nat) (drop (S k) disc) else []
    | None => []
    end.
Proof using Type.
  intros Hi. destruct (disc !! k) as [x|] eqn:Hk; [|by rewrite drop_ge by (by apply lookup_ge_None)].
  rewrite (drop_S _ _ _ Hk). cbn [List.filter]. destruct (x.2 <? mx)%nat eqn:Hx; [done|]. apply Nat.ltb_ge in Hx.
  assert (∀ y, y ∈ drop (S k) disc → (y.2 <? mx)%nat = false) as Hall.
  { intros y [i Hy]%list_elem_of_lookup. rewrite lookup_drop in Hy. apply Nat.ltb_ge.
    pose proof (bi_sorted _ _ _ Hi k (S k + i) x y Hk Hy ltac:(lia)). lia. }
  clear -Hall. induction (drop (S k) disc) as [|y l IH]; [done|]. cbn [List.filter]. rewrite (Hall y ltac:(by left)).
  apply IH. intros z Hz. apply Hall. by right.
Qed.

Lemma disc_ball disc k D : bfs_inv disc k D → (length disc <= length (ball mx))%nat.
Proof using Type.
  intros Hi. rewrite <-(length_fmap fst disc). apply submseteq_length, NoDup_submseteq; [apply Hi|].
  intros m ([m' d] & -> & Hm)%list_elem_of_fmap. pose proof (bi_walk _ _ _ Hi _ Hm) as Hw. destruct (bi_last _ _ _ Hi _ Hm) as [_ Hd].
  by eapply ball_mono, walk_ball.
Qed.

(** What the hits are, in terms of the nodes that were looked at. *)
Definition hits_of (hd : Disc) (hs : list TraverseHit) : Prop :=
  (λ h, (hit_node h, hit_depth h)) <$> hs = List.filter present (tail hd) ∧ Forall hit_ok hs ∧ Z.of_nat (length hs) <= t_limit spec.

Lemma bfs_loop_spec fuel : ∀ disc k s,
  bfs_inv disc k (next_depth disc k) → bfs_rel disc disc k s → (length (ball mx) <= k + fuel)%nat →
  ∃ s' disc' hd k' D, bfs_loop get mgr fuel spec start s = Some s' ∧ bfs_inv disc' k' D ∧ hits_of hd (hits s') ∧ hd ≠ [] ∧
    (disc' = hd ∧ D = mx ∨ Z.of_nat (length (hits s')) = t_limit spec ∧ ∃ x, disc' = hd ++ [x]).
Proof using Hmax Hlim.
  induction fuel as [|fuel IH]; intros disc k s Hi Hr Hf; pose proof (queue_next disc k Hi) as Hq;
    pose proof (br_queue _ _ _ _ Hr) as Hqs; rewrite Hq in Hqs; cbn [bfs_loop].
  all: assert (queue s = [] → next_depth disc k = mx ∧ disc ≠ []) as Hend.
  1, 3: intros Hx; split; [|intros ->; by pose proof (bi_start _ _ _ Hi)]; unfold next_depth; rewrite Hx in Hqs;
    destruct (disc !! k) as [x|] eqn:Hk; [|done]; destruct (x.2 <? mx)%nat eqn:E; [done|]; apply Nat.ltb_ge in E;
    pose proof (proj2 (bi_last _ _ _ Hi x ltac:(by eapply list_elem_of_lookup_2))); lia.
  all: destruct (queue s) as [|[n d] q] eqn:Eq;
    [destruct (Hend eq_refl) as [HD Hne]; exists s, disc, disc, k, (next_depth disc k); split_and!; try done; [split_and!; apply Hr|by left]|clear Hend].
  - destruct (disc !! k) as [x|] eqn:Hk; [|done]. apply lookup_lt_Some in Hk. pose proof (disc_ball _ _ _ Hi). lia.
  - destruct (disc !! k) as [x|] eqn:Hk; [|done]. destruct (x.2 <? mx)%nat eqn:Hd; [|done]. injection Hqs as <- Hqs.
    apply Nat.ltb_lt in Hd. cbn [snd] in Hd. assert (next_depth disc k = d) as ED by (unfold next_depth; by rewrite Hk). rewrite ED in Hi.
    rewrite (proj2 (Z.leb_gt _ _)) by lia.
    set (s0 := mkBfs (visited s) (parent s) (parent_edge s) q (hits s)).
    assert (bfs_rel disc disc (S k) s0) as Hr0 by (destruct Hr; by split).
    destruct (bfs_visit_spec k n d (kept_neighbors get mgr n spec) disc s0 Hi Hr0 Hk Hd (λ h Hh, Hh)) as (s' & go & disc' & E & Hi' & [l ->] & Hgo).
    rewrite E. cbn [mbind option_bind]. destruct go.
    + destruct Hgo as [Hr' Hall]. assert ((disc ++ l) !! k = Some (n, d)) as Hk' by (by apply lookup_app_l_Some).
      apply IH with (k := S k) (disc := disc ++ l); [|done|lia]. unfold next_depth. eapply (bi_advance _ _ n d); [done|done|].
      intros _ m (h & -> & Hh)%list_elem_of_fmap. by apply Hall.
    + destruct Hgo as (hd & x & Ehd & Hne & Hr' & Hlen). exists s', (disc ++ l), hd, k, d. split_and!; try done; [split_and!; apply Hr'|].
      right. split; [done|]. by exists x.
Qed.

(** ** The answer *)

(** Hits are documents other than the start, once each and by increasing depth,
    which is their distance; what is left out is no closer than any hit, and is
    left out only because the limit is reached. *)
Record bfs_answer (hs : list TraverseHit) : Prop := {
  ba_hit h : h ∈ hs → hit_ok h ∧ hit_node h ≠ start ∧ (hit_depth h <= mx)%nat ∧
    walk (hit_depth h) (hit_node h) ∧ ∀ j, walk j (hit_node h) → (hit_depth h <= j)%nat;
  ba_nodup : NoDup (hit_node <$> hs);
  ba_sorted : StronglySorted le (hit_depth <$> hs);
  ba_limit : Z.of_nat (length hs) <= t_limit spec;
  ba_complete m doc j : got get m = Some doc → m ≠ start → walk j m → (j <= mx)%nat →
    m ∈ hit_node <$> hs ∨ (Z.of_nat (length hs) = t_limit spec ∧ ∀ h, h ∈ hs → (hit_depth h <= j)%nat) }.

Lemma filter_sublist {A} (f : A → bool) (l : list A) : List.filter f l `sublist_of` l.
Proof using Type. induction l as [|x l IH]; cbn; [done|]. destruct (f x); by constructor. Qed.

Lemma sublist_sorted (l k : list nat) : l `sublist_of` k → StronglySorted le k → StronglySorted le l.
Proof using Type.
  induction 1 as [|x l k Hs IH|x l k Hs IH]; intros Hk; [done| |]; apply StronglySorted_inv in Hk as [Hk Hx]; [|by apply IH].
  constructor; [by apply IH|]. apply Forall_forall. intros y Hy. apply (proj1 (Forall_forall _ _) Hx). by eapply sublist_subseteq.
Qed.

Lemma disc_sorted disc k D : bfs_inv disc k D → StronglySorted le disc.*2.
Proof using Type.
  intros Hi. pose proof (bi_sorted _ _ _ Hi) as Hs. clear Hi. induction disc as [|x disc IH]; cbn; [constructor|].
  constructor.
  - apply IH. intros i j y z Hy Hz Hle. by apply (Hs (S i) (S j)); [..|lia].
  - apply Forall_forall. intros d (y & -> & [i Hy]%list_elem_of_lookup)%list_elem_of_fmap. by apply (Hs 0%nat (S i) x y); [..|lia].
Qed.

Lemma hits_answer disc hd k D hs :
  bfs_inv disc k D → hits_of hd hs → hd ≠ [] → hd `prefix_of` disc →
  (disc = hd ∧ D = mx ∨ Z.of_nat (length hs) = t_limit spec ∧ ∃ x, disc = hd ++ [x]) → bfs_answer hs.
Proof using Type.
  intros Hi (Hh & Hok & Hlen) Hne Hpre Hcase.
  assert (∃ tl, hd = (start, 0%nat) :: tl) as [tl ->].
  { destruct hd as [|x tl]; [done|]. destruct Hpre as [l ->]. pose proof (bi_start _ _ _ Hi). injection H as ->. by exists tl. }
  cbn [tail] in Hh. assert (∀ x, x ∈ tl → x ∈ disc ∧ x.1 ≠ start) as Htl.
  { intros x Hx. destruct Hpre as [l ->]. pose proof (bi_nodup _ _ _ Hi) as Hn. cbn in Hn. apply NoDup_cons in Hn as [Hn _].
    split; [cbn; right; apply elem_of_app; by left|]. intros Hs. apply Hn. rewrite fmap_app. apply elem_of_app. left.
    apply list_elem_of_fmap. by exists x. }
  assert (∀ h, h ∈ hs → (hit_node h, hit_depth h) ∈ tl) as Hhit.
  { intros h Hin. apply (list_elem_of_fmap_2 (λ h, (hit_node h, hit_depth h))) in Hin. rewrite Hh in Hin.
    by apply (sublist_subseteq _ _ (filter_sublist present tl)). }
  assert (hd_sub : (λ h, (hit_node h, hit_depth h)) <$> hs `sublist_of` disc).
  { rewrite Hh. transitivity tl; [apply filter_sublist|]. destruct Hpre as [l ->]. cbn. constructor. by apply sublist_inserts_r. }
  split; [|..|done|].
  - intros h Hin. pose proof (Hhit h Hin) as Hx. destruct (Htl _ Hx) as [Hd Hs]. split_and!.
    + by apply (proj1 (Forall_forall _ _) Hok).
    + done.
    + by apply (bi_last _ _ _ Hi) in Hd as [_ ?].
    + by apply (bi_walk _ _ _ Hi) in Hd.
    + intros j Hw. by apply (bi_distance _ _ _ (hit_node h) _ j Hi Hd).
  - apply (fmap_sublist fst) in hd_sub. rewrite <-list_fmap_compose in hd_sub. eapply sublist_NoDup; [apply Hi|exact hd_sub].
  - apply (fmap_sublist snd) in hd_sub. rewrite <-list_fmap_compose in hd_sub. eapply sublist_sorted; [exact hd_sub|by eapply disc_sorted].
  - intros m doc j Hdoc Hm Hw Hj.
    assert (∀ e, (m, e) ∈ tl → m ∈ hit_node <$> hs) as Hfound.
    { intros e He. assert ((m, e) ∈ List.filter present tl) as Hx.
      { apply list_elem_of_In, filter_In. split; [by apply list_elem_of_In|]. unfold present. cbn [fst]. rewrite Hdoc. by apply bool_decide_eq_true. }
      rewrite <-Hh in Hx. apply list_elem_of_fmap in Hx as (h & [= -> _] & Hin). by apply list_elem_of_fmap_2. }
    assert (∀ e, (m, e) ∈ disc → (m, e) ∈ tl ∨ last disc = Some (m, e) ∧ Z.of_nat (length hs) = t_limit spec) as Hin.
    { intros e He. destruct Hcase as [[-> _]|[Hl [x ->]]].
      - apply elem_of_cons in He as [[= -> _]|He]; [done|by left].
      - apply elem_of_app in He as [[[= -> _]|He]%elem_of_cons|He%list_elem_of_singleton]; [done|by left|]. right. by rewrite last_snoc, He. }
    destruct (decide (j <= D)%nat) as [HD|HD].
    + destruct (bi_found _ _ _ j m Hi Hw HD Hj) as (e & He & Hle). destruct (Hin e He) as [Hx|[Hl Hfull]]; [left; by eapply Hfound|].
      right. split; [done|]. intros h Hh'. destruct (Htl _ (Hhit h Hh')) as [Hd _]. apply last_Some in Hl as [l' El].
      apply list_elem_of_lookup in Hd as [i Hd]. pose proof (lookup_lt_Some _ _ _ Hd) as Hlt. rewrite El, length_app in Hlt. cbn in Hlt.
      pose proof (bi_sorted _ _ _ Hi i (length l') _ (m, e) Hd) as Hs. rewrite El, list_lookup_middle in Hs by done.
      specialize (Hs eq_refl ltac:(lia)). cbn in Hs. lia.
    + right. destruct Hcase as [[-> ->]|[Hl _]]; [lia|]. split; [done|]. intros h Hh'. destruct (Htl _ (Hhit h Hh')) as [Hd _].
      destruct (bi_last _ _ _ Hi _ Hd) as [Hx _]. cbn in Hx. lia.
Qed.

Lemma find_paths_bfs fuel doc :
  spec_validate spec = Ok tt → ensure_incoming_state mgr start.1 spec = Ok tt → get start.1 start.2 = Ok (Some doc) →
  weight_field spec = None → (length (ball mx) <= fuel)%nat →
  ∃ hs, find_paths get mgr fuel start.1 start.2 spec = Ok (Some hs) ∧ bfs_answer hs.
Proof using Hmax Hlim.
  intros Hv He Hg Hw Hf. unfold find_paths. rewrite Hv. cbn [mbind res_bind]. rewrite He. cbn. rewrite Hg. cbn. rewrite Hw.
  assert (max_depth spec ≠ 0) as Hm. { intros Hx. unfold spec_validate in Hv. rewrite Hx in Hv. discriminate Hv. }
  rewrite <-surjective_pairing.
  destruct (bfs_loop_spec fuel [(start, 0%nat)] 0 (mkBfs {[start]} ∅ ∅ [(start, 0%nat)] [])) as (s & disc & hd & k & D & E & Hi & Hh & Hne & Hc).
  - apply bi_init.
  - split; cbn [visited parent parent_edge queue hits].
    + cbn. set_solver.
    + cbn [drop List.filter snd]. by rewrite (proj2 (Nat.ltb_lt 0 mx)) by lia.
    + intros _. split_and!; [|cbn; lia|set_solver]. intros m d Hx%list_elem_of_singleton. by injection Hx as -> ->.
    + done.
    + done.
    + constructor.
    + cbn; lia.
  - lia.
  - rewrite E. cbn. exists (hits s). split; [done|]. eapply hits_answer; try done. destruct Hc as [[-> _]|[_ [x ->]]]; [done|by exists [x]].
Qed.
End Bfs.
