(* ===== verification/GraphAnalysis.v ===== *)
(** * Analysis of a collection's graph (src/engine/engine.rs)

    The documents of one collection and the edges between them: adjacency with its
    memo, weak components by union-find, a cycle by depth-first search, topological
    order by Kahn's algorithm, degrees.  The algorithms work on positions in the
    sorted list of nodes.  [None] is a loop bound that did not suffice, an index out
    of range or a subtraction below zero; none of them happens (GraphFacts.v). *)

From stdpp Require Import prelude list gmap strings.
From Stdlib Require Import ZArith Lia.
From S2P Require Import Prelude RustStd Error Value Doc Traverse TermIndex IndexManager StorageIndex Storage Graph.

Local Open Scope Z_scope.
Local Open Scope hako_scope.

(** ** Adjacency *)

Abbreviation GraphAdj := (gmap GraphNode (list GraphNode)).
(** [AdjMemo]: by collection, the version and the request it was built for. *)
Abbreviation AdjMemo := (gmap bytes (Z * TraverseSpec * list GraphNode * GraphAdj)).

#[export] Instance TraverseDir_eq_dec : EqDecision TraverseDir.
Proof. solve_decision. Defined.
(** [PartialEq] of requests, with the equality of values. *)
Definition pred_eqb (a b : option (bytes * Value)) : bool :=
  match a, b with
  | None, None => true
  | Some (f, v), Some (g, w) => bytes_eqb f g && value_eqb v w
  | _, _ => false
  end.
Definition spec_eqb (a b : TraverseSpec) : bool :=
  bool_decide (direction a = direction b) && bool_decide (edge_field a = edge_field b) &&
  (max_depth a =? max_depth b) && (t_limit a =? t_limit b) && bool_decide (via_edge a = via_edge b) &&
  bool_decide (weight_field a = weight_field b) && pred_eqb (node_match a) (node_match b) &&
  pred_eqb (edge_type a) (edge_type b) && pred_eqb (edge_match a) (edge_match b) &&
  Bool.eqb (include_path a) (include_path b) && Bool.eqb (include_via a) (include_via b).

(** [graph_node_ids]: the live keys of a loaded collection. *)
Definition graph_node_ids `{HashIter} {cipher} (shards : gmap bytes (StorageEngine cipher)) (c : bytes) : list bytes :=
  match shards !! c with Some e => scan_prefix_keys (idx e) [] | None => [] end.

(** [Vec::dedup]. *)
Fixpoint dedup_nodes (l : list GraphNode) : list GraphNode :=
  match l with
  | x :: (y :: _) as l' => if bool_decide (x = y) then dedup_nodes l' else x :: dedup_nodes l'
  | _ => l
  end.

Section Adjacency.
Context (get : bytes → bytes → res (option HakoDoc)) (mgr : IndexManager).

Definition graph_nodes (c : bytes) (ids : list bytes) (spec : TraverseSpec) : list GraphNode :=
  sort_by node_cmp (List.filter (node_matches get spec) ((λ id, (c, id)) <$> ids)).
Definition graph_targets (spec : TraverseSpec) (key : GraphNode) : list GraphNode :=
  dedup_nodes (sort_by node_cmp
    (hop_node <$> List.filter (λ h, bytes_eqb (hop_node h).1 key.1 && node_matches get spec (hop_node h)) (expand_neighbors get mgr key spec))).
Definition build_adjacency (c : bytes) (ids : list bytes) (spec : TraverseSpec) : list GraphNode * GraphAdj :=
  let nodes := graph_nodes c ids spec in
  (nodes, foldl (λ adj key, <[key := graph_targets spec key]> adj) ∅ nodes).
(** [graph_adjacency] with the memo of the facade and its version counter. *)
Definition graph_adjacency (ver : Z) (memo : AdjMemo) (c : bytes) (ids : list bytes) (spec : TraverseSpec)
  : AdjMemo * (list GraphNode * GraphAdj) :=
  let fresh := let r := build_adjacency c ids spec in (<[c := (ver, spec, r.1, r.2)]> memo, r) in
  match memo !! c with
  | Some (v, s, nodes, adj) => if (v =? ver) && spec_eqb s spec then (memo, (nodes, adj)) else fresh
  | None => fresh
  end.
End Adjacency.

(** Positions of the nodes, and the children of each node by position. *)
Definition pos_map (nodes : list GraphNode) : gmap GraphNode nat :=
  list_to_map (reverse (imap (λ i k, (k, i)) nodes)).
Definition children_of (nodes : list GraphNode) (adj : GraphAdj) : list (list nat) :=
  (λ k, omap (λ t, pos_map nodes !! t) (default [] (adj !! k))) <$> nodes.

(** ** [graph_components] *)

Fixpoint uf_find (fuel : nat) (parent : list nat) (x : nat) : option nat :=
  p ← parent !! x;
  if bool_decide (p = x) then Some x
  else match fuel with O => None | S fuel => uf_find fuel parent p end.
Definition uf_union (a b : nat) (parent : list nat) : option (list nat) :=
  ra ← uf_find (length parent) parent a;
  rb ← uf_find (length parent) parent b;
  Some (if bool_decide (ra = rb) then parent else <[Nat.min ra rb := Nat.max ra rb]> parent).
Fixpoint uf_edges (pairs : list (nat * nat)) (parent : list nat) : option (list nat) :=
  match pairs with
  | [] => Some parent
  | (a, b) :: pairs => parent ← uf_union a b parent; uf_edges pairs parent
  end.
(** The pairs that the loops over [adj] and its targets unite. *)
Definition edge_pairs `{StdIter} (nodes : list GraphNode) (adj : GraphAdj) : list (nat * nat) :=
  std_iter adj ≫= λ st, match pos_map nodes !! st.1 with
                         | Some sp => (λ tp, (sp, tp)) <$> omap (λ t, pos_map nodes !! t) st.2
                         | None => []
                         end.
Fixpoint fill_buckets (parent : list nat) (i : nat) (nodes : list GraphNode) (b : gmap nat (list GraphNode)) : option (gmap nat (list GraphNode)) :=
  match nodes with
  | [] => Some b
  | k :: nodes =>
      r ← uf_find (length parent) parent i;
      fill_buckets parent (S i) nodes (<[r := default [] (b !! r) ++ [k]]> b)
  end.
Definition graph_components `{StdIter} (nodes : list GraphNode) (adj : GraphAdj) : option (list (list GraphNode)) :=
  parent ← uf_edges (edge_pairs nodes adj) (seq 0 (length nodes));
  b ← fill_buckets parent 0 nodes ∅;
  Some (sort_by (lex_cmp node_cmp) (std_iter b).*2).

(** ** [graph_find_cycle] *)

Inductive Color := White | Grey | Black.
#[export] Instance Color_eq_dec : EqDecision Color.
Proof. solve_decision. Defined.

(** The stack from a node to its top; the top of the stack comes first. *)
Fixpoint cycle_slice (c : nat) (stack : list (nat * nat)) (acc : list nat) : option (list nat) :=
  match stack with
  | [] => None
  | (v, _) :: stack => if bool_decide (v = c) then Some (v :: acc) else cycle_slice c stack (v :: acc)
  end.
Fixpoint dfs_loop (fuel : nat) (children : list (list nat)) (color : list Color) (stack : list (nat * nat)) : option (list Color + list nat) :=
  match stack with
  | [] => Some (inl color)
  | (n, i) :: rest =>
      match fuel with
      | O => None
      | S fuel =>
          ts ← children !! n;
          match ts !! i with
          | None => dfs_loop fuel children (<[n := Black]> color) rest
          | Some c =>
              let stack := (n, S i) :: rest in
              cc ← color !! c;
              match cc with
              | White => dfs_loop fuel children (<[c := Grey]> color) ((c, 0%nat) :: stack)
              | Grey => cyc ← cycle_slice c stack []; Some (inr cyc)
              | Black => dfs_loop fuel children color stack
              end
          end
      end
  end.
Fixpoint dfs_starts (fuel : nat) (children : list (list nat)) (starts : list nat) (color : list Color) : option (option (list nat)) :=
  match starts with
  | [] => Some None
  | s :: starts =>
      cs ← color !! s;
      if bool_decide (cs ≠ White) then dfs_starts fuel children starts color
      else r ← dfs_loop fuel children (<[s := Grey]> color) [(s, 0%nat)];
           match r with
           | inl color => dfs_starts fuel children starts color
           | inr cyc => Some (Some cyc)
           end
  end.
(** Every iteration closes a node or follows one edge. *)
Definition dfs_bound (children : list (list nat)) : nat := (length children + list_sum (length <$> children))%nat.
Definition graph_find_cycle (nodes : list GraphNode) (adj : GraphAdj) : option (option (list GraphNode)) :=
  let children := children_of nodes adj in
  r ← dfs_starts (dfs_bound children) children (seq 0 (length nodes)) (replicate (length nodes) White);
  match r with
  | Some cyc => ns ← mapM (λ v, nodes !! v) cyc; Some (Some ns)
  | None => Some None
  end.

(** ** [graph_topo_sort] *)

Definition bump_indegs (cs : list nat) (indeg : list nat) : list nat := foldl (λ d c, alter S c d) indeg cs.
Fixpoint bset_insert (x : nat) (s : list nat) : list nat :=
  match s with
  | [] => [x]
  | y :: s' => if (x <? y)%nat then x :: s else if (x =? y)%nat then s else y :: bset_insert x s'
  end.
Fixpoint lower_indegs (cs : list nat) (indeg frontier : list nat) : option (list nat * list nat) :=
  match cs with
  | [] => Some (indeg, frontier)
  | c :: cs =>
      d ← indeg !! c;
      match d with
      | O => None
      | S d => lower_indegs cs (<[c := d]> indeg) (if bool_decide (d = 0%nat) then bset_insert c frontier else frontier)
      end
  end.
Fixpoint kahn_loop (fuel : nat) (children : list (list nat)) (indeg frontier out : list nat) : option (list nat) :=
  match frontier with
  | [] => Some out
  | n :: frontier =>
      match fuel with
      | O => None
      | S fuel =>
          cs ← children !! n;
          '(indeg, frontier) ← lower_indegs cs indeg frontier;
          kahn_loop fuel children indeg frontier (out ++ [n])
      end
  end.
Definition graph_topo_sort (nodes : list GraphNode) (adj : GraphAdj) : option (option (list GraphNode)) :=
  let n := length nodes in
  let children := children_of nodes adj in
  let indeg := foldl (λ d cs, bump_indegs cs d) (replicate n 0%nat) children in
  out ← kahn_loop n children indeg (List.filter (λ i, bool_decide (indeg !! i = Some 0%nat)) (seq 0 n)) [];
  ns ← mapM (λ v, nodes !! v) out;
  Some (if bool_decide (length out = n) then Some ns else None).

(** ** [graph_degree_centrality] *)

Abbreviation DegreeRow := (GraphNode * nat * nat)%type.
Definition row_deg_cmp (a b : DegreeRow) : comparison :=
  cmp_then (CompOpp (Nat.compare (a.1.2 + a.2) (b.1.2 + b.2))) (node_cmp a.1.1 b.1.1).
Definition graph_degree_centrality `{StdIter} (nodes : list GraphNode) (adj : GraphAdj) : list DegreeRow :=
  let indeg := foldl (λ d ts, bump_indegs (omap (λ t, pos_map nodes !! t) ts) d) (replicate (length nodes) 0%nat) (std_iter adj).*2 in
  sort_by row_deg_cmp
    (imap (λ i k, (k, default 0%nat (indeg !! i), length (default [] (adj !! k)))) nodes).
