(* ===== verification/GraphFacts.v ===== *)
(** * Correctness of the graph algorithms

    On positions: Kahn's loop gives a topological order of the nodes that no cycle
    leads to, the depth-first search finds a cycle exactly when there is one,
    union-find gives the classes of the connections.  All three end within their
    bounds and never leave the range of their vectors. *)

From stdpp Require Import prelude list gmap relations.
From Stdlib Require Import ZArith Lia Sorted.
From S2P Require Import Prelude RustStd Traverse Graph GraphAnalysis.

Local Open Scope nat_scope.

Section Positions.
Context (children : list (list nat)).
Abbreviation n := (length children).
Definition child (u : nat) : list nat := default [] (children !! u).
Definition edge_at (u v : nat) : Prop := v ∈ child u.
Context (Hrange : ∀ u v, edge_at u v → v < n).

Lemma edge_src u v : edge_at u v → u < n.
Proof using Type.
  unfold edge_at, child. destruct (children !! u) eqn:E; [|by intros ?%elem_of_nil]. intros _. by eapply lookup_lt_Some.
Qed.
Lemma child_lookup u : u < n → children !! u = Some (child u).
Proof using Type. intros Hu. unfold child. by destruct (lookup_lt_is_Some_2 children u Hu) as [cs ->]. Qed.

(** ** Cycles *)

Fixpoint linked (l : list nat) : Prop :=
  match l with u :: (v :: _) as l' => edge_at u v ∧ linked l' | _ => True end.

Lemma linked_app l k : linked (l ++ k) → linked l ∧ linked k.
Proof using Type.
  induction l as [|x l IH]; [done|]. destruct l as [|y l]; cbn in *; [by destruct k as [|z k]; [|intros [_ ?]]|].
  intros [H1 [H2 H3]%IH]. done.
Qed.
Lemma linked_tc x l y : linked (x :: l ++ [y]) → tc edge_at x y.
Proof using Type.
  revert x; induction l as [|z l IH]; intros x; cbn; [intros [H _]; by apply tc_once|]. intros [H1 H2]. eapply tc_l; [exact H1|]. by apply IH.
Qed.

Lemma repeated_split {A} `{EqDecision A} (l : list A) : ¬ NoDup l → ∃ x l1 l2 l3, l = l1 ++ x :: l2 ++ x :: l3.
Proof using Type.
  induction l as [|x l IH]; intros Hn; [destruct Hn; constructor|]. destruct (decide (x ∈ l)) as [Hx|Hx].
  - apply list_elem_of_split in Hx as (l2 & l3 & ->). by exists x, [], l2, l3.
  - destruct IH as (y & l1 & l2 & l3 & ->); [intros Hl; apply Hn; by constructor|]. by exists y, (x :: l1), l2, l3.
Qed.

(** A set whose elements all have a predecessor in it has a cycle. *)
Lemma backward_cycle (X : list nat) v :
  v ∈ X → (∀ w, w ∈ X → ∃ u, u ∈ X ∧ edge_at u w) → ∃ x, tc edge_at x x.
Proof using Type.
  intros Hv Hpred. assert (∀ k, ∃ l, length l = S k ∧ (∀ w, w ∈ l → w ∈ X) ∧ linked l) as Hchain.
  { induction k as [|k (l & Hl & Hin & Hlk)].
    - exists [v]. split_and!; [done| |done]. by intros w ->%list_elem_of_singleton.
    - destruct l as [|w l]; [done|]. destruct (Hpred w (Hin w ltac:(by left))) as (u & Hu & He).
      exists (u :: w :: l). split_and!; [cbn in *; lia| |done]. intros x [->|Hx]%elem_of_cons; [done|by apply Hin]. }
  destruct (Hchain (length X)) as (l & Hl & Hin & Hlk).
  destruct (repeated_split l) as (x & l1 & l2 & l3 & ->).
  { intros Hnd. assert (l ⊆+ X) as Hs by (by apply NoDup_submseteq). apply submseteq_length in Hs. lia. }
  exists x. apply linked_app in Hlk as [_ Hlk]. apply (linked_tc x l2 x).
  replace (x :: l2 ++ x :: l3) with ((x :: l2 ++ [x]) ++ l3) in Hlk by (by rewrite <-app_comm_cons, <-app_assoc).
  by apply linked_app in Hlk as [Hlk _].
Qed.

(** ** Kahn's loop *)

Definition cnt (v : nat) (cs : list nat) : nat := length (List.filter (Nat.eqb v) cs).
Definition in_from (us : list nat) (v : nat) : nat := list_sum ((λ u, cnt v (child u)) <$> us).

Lemma cnt_cons v c cs : cnt v (c :: cs) = (if decide (v = c) then 1 else 0) + cnt v cs.
Proof using Type. unfold cnt. cbn. destruct (Nat.eqb_spec v c); by case_decide. Qed.
Lemma cnt_pos v cs : 0 < cnt v cs ↔ v ∈ cs.
Proof using Type.
  induction cs as [|c cs IH]; [split; [cbn; lia|by intros ?%elem_of_nil]|]. rewrite cnt_cons, elem_of_cons, <-IH. case_decide; lia || naive_solver lia.
Qed.
Lemma list_sum_cons x l : list_sum (x :: l) = x + list_sum l.
Proof using Type. done. Qed.
Lemma in_from_app us ws v : in_from (us ++ ws) v = in_from us v + in_from ws v.
Proof using Type. unfold in_from. by rewrite fmap_app, list_sum_app. Qed.
Lemma in_from_perm us ws v : us ≡ₚ ws → in_from us v = in_from ws v.
Proof using Type.
  unfold in_from. induction 1 as [|u us ws _ IH|u w us|us ws zs _ IH1 _ IH2]; rewrite ?fmap_cons, ?list_sum_cons; [done|lia|lia|congruence].
Qed.
Lemma in_from_zero us v : in_from us v = 0 ↔ ∀ u, u ∈ us → ¬ edge_at u v.
Proof using Type.
  unfold in_from, edge_at. induction us as [|u us IH]; [split; [intros _ u Hu; by apply elem_of_nil in Hu|done]|].
  rewrite fmap_cons, list_sum_cons. pose proof (cnt_pos v (child u)) as Hu. split.
  - intros H w [->|Hw]%elem_of_cons; [intros Hv%Hu; lia|]. apply IH; [lia|done].
  - intros H. assert (¬ 0 < cnt v (child u)) by (intros Hv%Hu; by apply (H u ltac:(by left))).
    enough (list_sum ((λ u, cnt v (child u)) <$> us) = 0) by lia. apply IH. intros w Hw. apply H. by right.
Qed.

Lemma bump_lookup cs d v : bump_indegs cs d !! v = (λ x, x + cnt v cs) <$> d !! v.
Proof using Type.
  unfold bump_indegs. revert d; induction cs as [|c cs IH]; intros d; cbn [foldl].
  - destruct (d !! v); cbn; [f_equal; lia|done].
  - rewrite IH, cnt_cons. destruct (decide (v = c)) as [->|Hne].
    + rewrite list_lookup_alter_eq. destruct (d !! c); cbn; [f_equal; lia|done].
    + rewrite list_lookup_alter_ne by done. done.
Qed.
Lemma bump_all_lookup (css : list (list nat)) d v :
  foldl (λ d cs, bump_indegs cs d) d css !! v = (λ x, x + list_sum (cnt v <$> css)) <$> d !! v.
Proof using Type.
  revert d; induction css as [|cs css IH]; intros d; cbn [foldl]; [destruct (d !! v); cbn; [f_equal; lia|done]|].
  rewrite IH, bump_lookup, fmap_cons, list_sum_cons. destruct (d !! v); cbn -[cnt list_sum]; [f_equal; lia|done].
Qed.
Lemma in_from_all v : list_sum (cnt v <$> children) = in_from (seq 0 n) v.
Proof using Type.
  unfold in_from. f_equal. apply list_eq. intros i. rewrite !list_lookup_fmap. destruct (decide (i < n)) as [Hi|Hi].
  - rewrite lookup_seq_lt by done. cbn. by rewrite (child_lookup i Hi).
  - rewrite (lookup_ge_None_2 (seq 0 n)) by (rewrite length_seq; lia). by rewrite lookup_ge_None_2 by lia.
Qed.

Lemma elem_of_bset x y s : y ∈ bset_insert x s ↔ y = x ∨ y ∈ s.
Proof using Type.
  induction s as [|z s IH]; cbn [bset_insert]; [by rewrite elem_of_cons|].
  destruct (Nat.ltb_spec x z); [by rewrite elem_of_cons|]. destruct (Nat.eqb_spec x z) as [->|]; rewrite !elem_of_cons, ?IH; naive_solver.
Qed.
Lemma bset_sorted x s : StronglySorted lt s → StronglySorted lt (bset_insert x s).
Proof using Type.
  induction 1 as [|z s Hs IH Hz]; cbn [bset_insert]; [repeat constructor|]. destruct (Nat.ltb_spec x z).
  - constructor; [by constructor|]. constructor; [done|]. eapply Forall_impl; [exact Hz|]. intros; cbn in *; lia.
  - destruct (Nat.eqb_spec x z) as [->|]; [by constructor|]. constructor; [done|]. apply Forall_forall.
    intros y [->|Hy]%elem_of_bset; [lia|]. by apply (proj1 (Forall_forall _ _) Hz).
Qed.
Lemma sorted_nodup s : StronglySorted lt s → NoDup s.
Proof using Type.
  induction 1 as [|z s Hs IH Hz]; constructor; [|done]. intros Hin. apply (proj1 (Forall_forall _ _) Hz) in Hin. lia.
Qed.

Lemma lower_spec cs : ∀ d fr,
  (∀ v, v ∈ cs → ∃ x, d !! v = Some x ∧ cnt v cs <= x) → StronglySorted lt fr →
  ∃ d' fr', lower_indegs cs d fr = Some (d', fr') ∧ length d' = length d ∧ (∀ v, d' !! v = (λ x, x - cnt v cs) <$> d !! v) ∧ StronglySorted lt fr' ∧
    ∀ v, v ∈ fr' ↔ v ∈ fr ∨ (v ∈ cs ∧ d' !! v = Some 0).
Proof using Type.
  induction cs as [|c cs IH]; intros d fr Hd Hs; cbn [lower_indegs].
  { exists d, fr. split_and!; [done|done| |done|]; intros v; [destruct (d !! v); cbn; [f_equal; lia|done]|]. split; [by left|].
    intros [?|[Hv _]]; [done|by apply elem_of_nil in Hv]. }
  destruct (Hd c ltac:(by left)) as (x & Hx & Hle). rewrite Hx. cbn [mbind option_bind]. rewrite cnt_cons in Hle.
  rewrite decide_True in Hle by done. destruct x as [|x]; [lia|].
  set (fr1 := if bool_decide (x = 0) then bset_insert c fr else fr).
  destruct (IH (<[c := x]> d) fr1) as (d' & fr' & E & Hl' & Hd' & Hs' & Hin).
  { intros v Hv. destruct (Hd v ltac:(by right)) as (y & Hy & Hle'). rewrite cnt_cons in Hle'. destruct (decide (v = c)) as [->|Hne].
    - exists x. rewrite list_lookup_insert_eq by (by eapply lookup_lt_Some). split; [done|lia].
    - exists y. rewrite list_lookup_insert_ne by done. split; [done|lia]. }
  { unfold fr1. case_bool_decide; [by apply bset_sorted|done]. }
  assert (∀ v, d' !! v = (λ x, x - cnt v (c :: cs)) <$> d !! v) as Hd2.
  { intros v. rewrite Hd', cnt_cons. destruct (decide (v = c)) as [->|Hne].
    - rewrite list_lookup_insert_eq by (by eapply lookup_lt_Some). by rewrite Hx.
    - rewrite list_lookup_insert_ne by done. by destruct (d !! v). }
  exists d', fr'. split_and!; [done|by rewrite Hl', length_insert|done|done|]. intros v. rewrite Hin, elem_of_cons. unfold fr1.
  assert (v ∈ (if bool_decide (x = 0) then bset_insert c fr else fr) ↔ v ∈ fr ∨ (v = c ∧ x = 0)) as ->.
  { case_bool_decide; [rewrite elem_of_bset; naive_solver|naive_solver]. }
  destruct (decide (v = c)) as [->|]; [|naive_solver]. rewrite (Hd2 c), Hx. cbn -[cnt]. rewrite cnt_cons, decide_True by done.
  pose proof (cnt_pos c cs). assert (Some (S x - (1 + cnt c cs)) = Some 0 ↔ x <= cnt c cs) as -> by (split; [intros [=]; lia|intros; f_equal; lia]).
  destruct (decide (x = 0)); [naive_solver lia|]. destruct (decide (x <= cnt c cs)); [assert (c ∈ cs) by (apply cnt_pos; lia); naive_solver|naive_solver].
Qed.

(** What holds between two iterations of the loop. *)
Record kahn_inv (d fr out : list nat) : Prop := {
  ki_len : length d = n;
  ki_nodup : NoDup (out ++ fr);
  ki_range v : v ∈ out ++ fr → v < n;
  ki_deg v x : d !! v = Some x → x + in_from out v = in_from (seq 0 n) v;
  ki_zero v : v < n → v ∈ out ++ fr ↔ d !! v = Some 0;
  ki_sorted : StronglySorted lt fr;
  ki_order l1 v l2 u : out = l1 ++ v :: l2 → edge_at u v → u ∈ l1 }.

(** Edges into a node from the nodes that are not out. *)
Lemma out_split out : NoDup out → (∀ v, v ∈ out → v < n) → ∃ rest, seq 0 n ≡ₚ out ++ rest.
Proof using Type.
  intros Hnd Hr. assert (out ⊆+ seq 0 n) as Hs.
  { apply NoDup_submseteq; [done|]. intros v Hv. apply elem_of_seq. specialize (Hr v Hv). lia. }
  by apply submseteq_Permutation in Hs as [rest ?]; exists rest.
Qed.

Lemma kahn_step d fr out v :
  kahn_inv d (v :: fr) out → ∃ d' fr', lower_indegs (child v) d fr = Some (d', fr') ∧ kahn_inv d' fr' (out ++ [v]).
Proof using Hrange.
  intros Hk. pose proof (ki_nodup _ _ _ Hk) as Hnd. pose proof (ki_sorted _ _ _ Hk) as Hs. apply StronglySorted_inv in Hs as [Hs _].
  assert (v < n) as Hv by (apply (ki_range _ _ _ Hk), elem_of_app; right; by left).
  assert (NoDup (out ++ [v])) as Hnd1.
  { replace (out ++ v :: fr) with ((out ++ [v]) ++ fr) in Hnd by (by rewrite <-app_assoc). by apply NoDup_app in Hnd as (? & _). }
  destruct (out_split (out ++ [v]) Hnd1) as [rest Hrest].
  { intros w Hw. apply (ki_range _ _ _ Hk). apply elem_of_app in Hw as [?|Hw]; apply elem_of_app; [by left|right]. apply list_elem_of_singleton in Hw as ->. by left. }
  assert (∀ w x, d !! w = Some x → cnt w (child v) <= x) as Hle.
  { intros w x Hx. pose proof (ki_deg _ _ _ Hk w x Hx) as Hd. rewrite (in_from_perm _ _ w Hrest), !in_from_app in Hd.
    unfold in_from in Hd at 3. cbn [fmap list_fmap] in Hd. rewrite list_sum_cons in Hd. cbn in Hd. unfold cnt in *. lia. }
  destruct (lower_spec (child v) d fr) as (d' & fr' & E & Hl' & Hd' & Hs' & Hin); [|done|].
  { intros w Hw. assert (w < n) as Hwn by (by apply (Hrange v w)). rewrite <-(ki_len _ _ _ Hk) in Hwn.
    destruct (lookup_lt_is_Some_2 d w Hwn) as [x Hx]. exists x. split; [done|by apply Hle]. }
  exists d', fr'. split; [done|].
  assert (∀ w, w < n → (w ∈ out ++ v :: fr) ↔ d !! w = Some 0) as Hz by apply Hk.
  assert (d !! v = Some 0) as Hv0 by (apply Hz; [done|apply elem_of_app; right; by left]).
  assert (∀ w, w < n → w ∈ (out ++ [v]) ++ fr' ↔ d' !! w = Some 0) as Hz'.
  { intros w Hw. rewrite <-app_assoc, elem_of_app. cbn. rewrite elem_of_cons, Hin.
    assert (w ∈ out ∨ w = v ∨ w ∈ fr ↔ d !! w = Some 0) as Hz1 by (by rewrite <-Hz, elem_of_app, elem_of_cons).
    rewrite <-(ki_len _ _ _ Hk) in Hw. destruct (lookup_lt_is_Some_2 d w Hw) as [x Hx]. pose proof (Hle w x Hx) as Hlx.
    rewrite Hd', Hx in *. cbn -[cnt] in *. pose proof (cnt_pos w (child v)) as Hc. destruct (decide (w ∈ child v)) as [Hi|Hi].
    - assert (Some x ≠ Some 0) by (intros [= ->]; apply Hc in Hi; lia). naive_solver.
    - assert (cnt w (child v) = 0) as -> by (destruct (cnt w (child v)); [done|]; destruct Hi; apply Hc; lia). rewrite Nat.sub_0_r. naive_solver. }
  split; [| | | |done|done|].
  - rewrite Hl'. apply Hk.
  - apply NoDup_app. split_and!; [done| |by apply sorted_nodup]. intros w Hw [Hf|[Hc H0]]%Hin.
    + rewrite (NoDup_app out) in Hnd. destruct Hnd as (_ & Hdis & [Hx _]%NoDup_cons). apply elem_of_app in Hw as [Hw|Hw].
      * apply (Hdis w Hw). by right.
      * apply list_elem_of_singleton in Hw as ->. done.
    + assert (d !! w = Some 0) as Hw0.
      { apply Hz; [by apply (Hrange v w)|]. apply elem_of_app in Hw as [Hw|Hw]; apply elem_of_app; [by left|right].
        apply list_elem_of_singleton in Hw as ->. by left. }
      pose proof (Hle w 0 Hw0). apply cnt_pos in Hc. lia.
  - intros w [Hw|[Hf|[Hc _]]%Hin]%elem_of_app; [| |by apply (Hrange v w)]; apply (ki_range _ _ _ Hk); apply elem_of_app.
    + apply elem_of_app in Hw as [Hw|Hw]; [by left|right]. apply list_elem_of_singleton in Hw as ->. by left.
    + right. by right.
  - intros w x'. rewrite Hd'. destruct (d !! w) as [x|] eqn:Hx; [|done]. cbn -[cnt]. intros [= <-].
    pose proof (ki_deg _ _ _ Hk w x Hx). pose proof (Hle w x Hx). rewrite in_from_app. unfold in_from at 2.
    change (list_sum ((λ u, cnt w (child u)) <$> [v])) with (cnt w (child v) + 0). lia.
  - intros l1 w l2 u Eo Hu. destruct l2 as [|y l2 _] using rev_ind.
    + apply app_inj_tail in Eo as [<- <-]. pose proof (ki_deg _ _ _ Hk v 0 Hv0) as Hd0. rewrite (in_from_perm _ _ v Hrest), !in_from_app in Hd0.
      assert (in_from ([v] ++ rest) v = 0) as H0 by (rewrite in_from_app; lia).
      assert (u ∈ out ++ [v] ++ rest) as Hu'.
      { rewrite app_assoc, <-Hrest. apply elem_of_seq. pose proof (edge_src u v Hu). lia. }
      apply elem_of_app in Hu' as [?|Hu']; [done|]. by apply (proj1 (in_from_zero _ _) H0) in Hu'.
    + rewrite app_comm_cons, app_assoc in Eo. apply app_inj_tail in Eo as [Eo _]. by apply (ki_order _ _ _ Hk l1 w l2).
Qed.

Lemma kahn_loop_spec fuel : ∀ d fr out,
  kahn_inv d fr out → n <= fuel + length out → ∃ d' out', kahn_loop fuel children d fr out = Some out' ∧ kahn_inv d' [] out'.
Proof using Hrange.
  induction fuel as [|fuel IH]; intros d [|v fr] out Hk Hf; cbn [kahn_loop]; try by exists d, out.
  - destruct (out_split (out ++ v :: fr)) as [rest Hr%Permutation_length]; [apply Hk|apply Hk|].
    rewrite length_seq, !length_app in Hr. cbn in Hr. lia.
  - assert (v < n) as Hv by (apply (ki_range _ _ _ Hk), elem_of_app; right; by left). rewrite (child_lookup v Hv). cbn [mbind option_bind].
    destruct (kahn_step d fr out v Hk) as (d' & fr' & -> & Hk'). cbn [mbind option_bind]. apply (IH d' fr' (out ++ [v]) Hk').
    rewrite length_app. cbn. lia.
Qed.

Definition first_indegs : list nat := foldl (λ d cs, bump_indegs cs d) (replicate n 0) children.
Definition first_frontier : list nat := List.filter (λ i, bool_decide (first_indegs !! i = Some 0)) (seq 0 n).

Lemma first_lookup v : v < n → first_indegs !! v = Some (in_from (seq 0 n) v).
Proof using Type.
  intros Hv. unfold first_indegs. rewrite bump_all_lookup, lookup_replicate_2 by done. cbn -[cnt]. by rewrite in_from_all.
Qed.

Lemma kahn_start : kahn_inv first_indegs first_frontier [].
Proof using Type.
  assert (length first_indegs = n) as Hl.
  { unfold first_indegs. assert (∀ css d, length (foldl (λ d cs, bump_indegs cs d) d css) = length d) as Hx; [|by rewrite Hx, length_replicate].
    assert (∀ cs d, length (bump_indegs cs d) = length d) as Hb.
    { unfold bump_indegs. induction cs as [|c cs IH]; intros d; cbn; [done|]. by rewrite IH, length_alter. }
    induction css as [|cs css IH]; intros d; cbn; [done|]. by rewrite IH, Hb. }
  assert (∀ v, v ∈ first_frontier ↔ v < n ∧ first_indegs !! v = Some 0) as Hin.
  { intros v. unfold first_frontier. rewrite list_elem_of_In, filter_In, bool_decide_eq_true, <-list_elem_of_In, elem_of_seq. naive_solver lia. }
  assert (StronglySorted lt first_frontier) as Hs.
  { unfold first_frontier. assert (∀ m k, StronglySorted lt (List.filter (λ i, bool_decide (first_indegs !! i = Some 0)) (seq k m))) as Hx; [|apply Hx].
    induction m as [|m IH]; intros k; cbn; [constructor|].
    assert (Forall (lt k) (List.filter (λ i, bool_decide (first_indegs !! i = Some 0)) (seq (S k) m))) as Hf.
    { apply Forall_forall. intros x Hx. apply list_elem_of_In, filter_In in Hx as [Hx _]. apply in_seq in Hx. lia. }
    case_bool_decide; [constructor; [apply IH|done]|apply IH]. }
  split; cbn [app]; [done|by apply sorted_nodup| | | |done|].
  - intros v Hv. by apply Hin.
  - intros v x Hx. assert (v < n) as Hv by (rewrite <-Hl; by eapply lookup_lt_Some). rewrite first_lookup in Hx by done. injection Hx as <-. cbn. lia.
  - intros v Hv. rewrite Hin. naive_solver.
  - intros [|? ?]; done.
Qed.

Definition acyclic : Prop := ∀ v, ¬ tc edge_at v v.

(** A list in which every edge leads forwards rules out cycles among its elements. *)
Lemma order_acyclic out :
  NoDup out → (∀ l1 v l2 u, out = l1 ++ v :: l2 → edge_at u v → u ∈ l1) → ∀ v, v ∈ out → ¬ tc edge_at v v.
Proof using Type.
  intros Hnd Ho v Hv Htc. assert (∀ u w, tc edge_at u w → ∀ l1 l2, out = l1 ++ w :: l2 → u ∈ l1) as Hb.
  { induction 1 as [u w He|u x w He Hxw IH]; intros l1 l2 E; [by apply (Ho l1 w l2)|]. pose proof (IH l1 l2 E) as Hx.
    apply list_elem_of_split in Hx as (k1 & k2 & ->). apply elem_of_app. left. rewrite <-app_assoc in E. cbn in E. by apply (Ho k1 x (k2 ++ w :: l2)). }
  apply list_elem_of_split in Hv as (l1 & l2 & E). pose proof (Hb v v Htc l1 l2 E) as Hx. rewrite E in Hnd.
  apply NoDup_app in Hnd as (_ & Hd & _). apply (Hd v Hx). by left.
Qed.

(** Kahn's algorithm ends; what it gives out is in topological order, and is
    everything exactly when there is no cycle. *)
Lemma kahn_spec :
  ∃ out, kahn_loop n children first_indegs first_frontier [] = Some out ∧ NoDup out ∧ (∀ v, v ∈ out → v < n) ∧
    (∀ l1 v l2 u, out = l1 ++ v :: l2 → edge_at u v → u ∈ l1) ∧
    (length out = n → acyclic) ∧ (length out ≠ n → ∃ x, tc edge_at x x).
Proof using Hrange.
  destruct (kahn_loop_spec n _ _ _ kahn_start) as (d & out & E & Hk); [cbn; lia|]. exists out.
  pose proof (ki_nodup _ _ _ Hk) as Hnd. pose proof (ki_range _ _ _ Hk) as Hr. pose proof (ki_order _ _ _ Hk) as Ho.
  pose proof (ki_zero _ _ _ Hk) as Hz. rewrite app_nil_r in *. split_and!; try done.
  all: destruct (out_split out Hnd Hr) as [rest Hrest].
  - intros Hl. apply Permutation_length in Hrest as Hlr. rewrite length_seq, length_app in Hlr. destruct rest as [|? ?]; [|cbn in Hlr; lia].
    rewrite app_nil_r in Hrest. intros v Htc. apply (order_acyclic out Hnd Ho v); [|done]. rewrite <-Hrest. apply elem_of_seq.
    assert (v < n) by (inversion Htc; subst; by eapply edge_src). lia.
  - intros Hac. destruct rest as [|v rest]; [rewrite app_nil_r in Hrest; apply Permutation_length in Hrest; rewrite length_seq in Hrest; congruence|].
    apply (backward_cycle (v :: rest) v); [by left|]. intros w Hw.
    assert (w < n) as Hwn.
    { assert (w ∈ seq 0 n) as Hws by (rewrite Hrest; apply elem_of_app; by right). apply elem_of_seq in Hws. lia. }
    assert (w ∉ out) as Hwo. { assert (NoDup (out ++ v :: rest)) as Hn by (rewrite <-Hrest; apply NoDup_seq).
      apply NoDup_app in Hn as (_ & Hd & _). intros Hx. by apply (Hd w). }
    assert (d !! w ≠ Some 0) as Hne by (intros H0; by apply Hwo, Hz).
    pose proof (ki_len _ _ _ Hk) as Hl. rewrite <-Hl in Hwn. destruct (lookup_lt_is_Some_2 d w Hwn) as [x Hx].
    pose proof (ki_deg _ _ _ Hk w x Hx) as Hd. rewrite (in_from_perm _ _ w Hrest), in_from_app in Hd.
    assert (in_from (v :: rest) w ≠ 0) as Hin by (intros H0; apply Hne; rewrite Hx; f_equal; lia).
    destruct (decide (Exists (λ u, w ∈ child u) (v :: rest))) as [(u & Hu & He)%Exists_exists|Hno]; [by exists u|].
    destruct Hin. apply in_from_zero. intros u Hu He. apply Hno, Exists_exists. by exists u.
Qed.

(** ** The depth-first search *)

(** What is left to do: white nodes with all their edges, open nodes with the rest of
    theirs. *)
Definition todo (c : Color) (ts : list nat) : nat := match c with White => S (length ts) | _ => 0 end.
Definition white_sum (color : list Color) : nat := list_sum (zip_with todo color children).
Definition frame_sum (stack : list (nat * nat)) : nat := list_sum ((λ f, S (length (child f.1) - f.2)) <$> stack).

Lemma white_insert color v old new :
  color !! v = Some old → v < n → white_sum (<[v := new]> color) + todo old (child v) = white_sum color + todo new (child v).
Proof using Type.
  unfold white_sum, child. clear Hrange. revert color v. induction children as [|ts css IH]; intros color v Hc Hv; [cbn in Hv; lia|].
  destruct color as [|c color]; [done|]. destruct v as [|v].
  - injection Hc as ->. cbn. lia.
  - cbn in Hv. specialize (IH color v Hc ltac:(lia)). change (<[S v := new]> (c :: color)) with (c :: <[v := new]> color).
    change ((ts :: css) !! S v) with (css !! v). cbn [zip_with]. rewrite !list_sum_cons. lia.
Qed.
Lemma white_bound color : white_sum color <= dfs_bound children.
Proof using Type.
  unfold white_sum, dfs_bound. clear Hrange. revert color; induction children as [|ts css IH]; intros [|c color]; cbn [zip_with]; try (cbn; lia).
  rewrite fmap_cons, !list_sum_cons. specialize (IH color). cbn. destruct c; cbn; lia.
Qed.

Fixpoint progress (color : list Color) (above : option nat) (stack : list (nat * nat)) : Prop :=
  match stack with
  | [] => True
  | (v, i) :: stack =>
      (∀ j c, j < i → child v !! j = Some c → color !! c = Some Black ∨ above = Some c) ∧ progress color (Some v) stack
  end.

Record dfs_inv (color : list Color) (stack : list (nat * nat)) : Prop := {
  di_len : length color = n;
  di_grey v : color !! v = Some Grey ↔ v ∈ stack.*1;
  di_nodup : NoDup stack.*1;
  di_link : linked (reverse stack.*1);
  di_closed u v : color !! u = Some Black → edge_at u v → color !! v = Some Black;
  di_acyclic u : color !! u = Some Black → ¬ tc edge_at u u;
  di_progress : progress color None stack }.

Lemma progress_mono color color' above above' stack :
  (∀ c, color !! c = Some Black → color' !! c = Some Black) → (∀ c, above = Some c → color' !! c = Some Black ∨ above' = Some c) →
  progress color above stack → progress color' above' stack.
Proof using Type.
  intros Hc Ha. destruct stack as [|[v i] stack]; [done|]. intros [H1 H2]. split.
  - intros j c Hj Hl. destruct (H1 j c Hj Hl) as [?|?]; [left; by apply Hc|by apply Ha].
  - clear H1. revert v H2. induction stack as [|[w j] stack IH]; intros v; [done|]. intros [H1 H2]. split; [|by apply IH].
    intros k c Hk Hl. destruct (H1 k c Hk Hl); [left; by apply Hc|by right].
Qed.

(** Black nodes that have been reached stay black. *)
Lemma black_tc color stack u v : dfs_inv color stack → color !! u = Some Black → tc edge_at u v → color !! v = Some Black.
Proof using Type. intros Hd Hu. induction 1 as [u v He|u w v He _ IH]; [by eapply di_closed|]. apply IH. by eapply di_closed. Qed.

(** Closing the top node. *)
Lemma dfs_close color v i rest :
  dfs_inv color ((v, i) :: rest) → child v !! i = None → dfs_inv (<[v := Black]> color) rest.
Proof using Hrange.
  intros Hd Hi. pose proof (di_len _ _ Hd) as Hl. assert (color !! v = Some Grey) as Hg by (apply (di_grey _ _ Hd); by left).
  pose proof (lookup_lt_Some _ _ _ Hg) as Hv. pose proof (di_nodup _ _ Hd) as [Hvn Hnd]%NoDup_cons.
  destruct (di_progress _ _ Hd) as [Hp1 Hp2].
  assert (∀ c, edge_at v c → color !! c = Some Black) as Hch.
  { intros c [j Hj]%list_elem_of_lookup. destruct (Hp1 j c) as [?|?]; [|done|done|done].
    apply lookup_ge_None in Hi. apply lookup_lt_Some in Hj. lia. }
  assert (∀ c, color !! c = Some Black → <[v := Black]> color !! c = Some Black) as Hkeep.
  { intros c Hc. destruct (decide (c = v)) as [->|]; [congruence|]. by rewrite list_lookup_insert_ne. }
  assert (∀ c, <[v := Black]> color !! c = Some Black → c = v ∨ color !! c = Some Black) as Hnew.
  { intros c. destruct (decide (c = v)) as [->|]; [by left|]. rewrite list_lookup_insert_ne by done. by right. }
  split.
  - by rewrite length_insert.
  - intros w. destruct (decide (w = v)) as [->|Hne].
    + rewrite list_lookup_insert_eq by done. split; [done|]. by intros Hx.
    + rewrite list_lookup_insert_ne by done. rewrite (di_grey _ _ Hd). cbn. rewrite elem_of_cons. naive_solver.
  - done.
  - pose proof (di_link _ _ Hd) as Hk. change (((v, i) :: rest).*1) with (v :: rest.*1) in Hk. rewrite reverse_cons in Hk. by apply linked_app in Hk as [? _].
  - intros u w [->|Hu]%Hnew He; apply Hkeep; [by apply Hch|by eapply di_closed].
  - intros u [->|Hu]%Hnew; [|by eapply di_acyclic]. intros Htc. assert (color !! v = Some Black); [|congruence].
    inversion Htc as [? ? He|? w ? He Hw]; subst; [by apply Hch|]. eapply black_tc; [exact Hd| |exact Hw]. by apply Hch.
  - eapply progress_mono; [exact Hkeep| |exact Hp2]. intros c [= <-]. left. by rewrite list_lookup_insert_eq.
Qed.

Lemma dfs_push color v i c rest :
  dfs_inv color ((v, i) :: rest) → child v !! i = Some c → color !! c = Some White →
  dfs_inv (<[c := Grey]> color) ((c, 0) :: (v, S i) :: rest).
Proof using Hrange.
  intros Hd Hi Hc. pose proof (lookup_lt_Some _ _ _ Hc) as Hlt. destruct (di_progress _ _ Hd) as [Hp1 Hp2].
  assert (∀ w, <[c := Grey]> color !! w = Some Black ↔ color !! w = Some Black) as Hb.
  { intros w. destruct (decide (w = c)) as [->|]; [|by rewrite list_lookup_insert_ne]. rewrite list_lookup_insert_eq by done. rewrite Hc. done. }
  split.
  - rewrite length_insert. apply Hd.
  - intros w. cbn [fmap list_fmap fst]. rewrite elem_of_cons. change (v :: rest.*1) with (((v, i) :: rest).*1). rewrite <-(di_grey _ _ Hd).
    destruct (decide (w = c)) as [->|]; [rewrite list_lookup_insert_eq by done; naive_solver|]. rewrite list_lookup_insert_ne by done. naive_solver.
  - cbn. apply NoDup_cons. split; [|apply (di_nodup _ _ Hd)]. change (v :: rest.*1) with (((v, i) :: rest).*1). rewrite <-(di_grey _ _ Hd). congruence.
  - pose proof (di_link _ _ Hd) as Hk. change (((v, i) :: rest).*1) with (v :: rest.*1) in Hk.
    change (((c, 0) :: (v, S i) :: rest).*1) with (c :: v :: rest.*1). rewrite !reverse_cons, <-app_assoc. rewrite reverse_cons in Hk. cbn [app].
    assert (∀ l, linked (l ++ [v]) → linked (l ++ [v; c])) as Hx; [|by apply Hx].
    intros l. induction l as [|x l IH]; cbn; [intros _; split; [|done]; by eapply list_elem_of_lookup_2|].
    destruct l as [|y l]; cbn in *; [intros [? _]; split; [done|]; by apply IH|]. intros [? ?]. split; [done|by apply IH].
  - intros u w. rewrite !Hb. apply (di_closed _ _ Hd).
  - intros u. rewrite Hb. apply (di_acyclic _ _ Hd).
  - split; [intros; lia|]. split.
    + intros j w Hj Hl. destruct (decide (j = i)) as [->|]; [right; congruence|]. left. apply Hb. destruct (Hp1 j w) as [?|?]; [lia|done|done|done].
    + eapply progress_mono; [| |exact Hp2]; [intros w; by rewrite Hb|by right].
Qed.

Lemma dfs_skip color v i c rest :
  dfs_inv color ((v, i) :: rest) → child v !! i = Some c → color !! c = Some Black → dfs_inv color ((v, S i) :: rest).
Proof using Type.
  intros Hd Hi Hc. destruct (di_progress _ _ Hd) as [Hp1 Hp2]. split; try apply Hd. split; [|done].
  intros j w Hj Hl. destruct (decide (j = i)) as [->|]; [left; congruence|]. apply (Hp1 j w); [lia|done].
Qed.

(** A list of distinct nodes, each with an edge to the next and the last to the first. *)
Definition is_cycle (l : list nat) : Prop := NoDup l ∧ match l with [] => False | c :: _ => linked (l ++ [c]) end.

Lemma cycle_slice_spec c stack acc :
  c ∈ stack.*1 → ∃ pre post, stack.*1 = pre ++ c :: post ∧ cycle_slice c stack acc = Some (c :: reverse pre ++ acc).
Proof using Type.
  revert acc; induction stack as [|[v i] stack IH]; intros acc Hc; cbn [cycle_slice]; [by apply elem_of_nil in Hc|].
  case_bool_decide as Hv; [subst v; by exists [], stack.*1|]. apply elem_of_cons in Hc as [->|Hc]; [done|].
  destruct (IH (v :: acc) Hc) as (pre & post & E & ->). exists (v :: pre), post. split; [cbn; by rewrite E|].
  by rewrite reverse_cons, <-app_assoc.
Qed.

Lemma linked_snoc l v c : linked (l ++ [v]) → edge_at v c → linked (l ++ [v; c]).
Proof using Type.
  intros Hl He. induction l as [|x l IH]; cbn; [done|]. destruct l as [|y l]; cbn in *; [destruct Hl as [? _]; done|].
  destruct Hl as [? ?]. split; [done|by apply IH].
Qed.

Lemma dfs_back color v i c rest :
  dfs_inv color ((v, i) :: rest) → child v !! i = Some c → color !! c = Some Grey →
  ∃ cyc, cycle_slice c ((v, S i) :: rest) [] = Some cyc ∧ is_cycle cyc.
Proof using Type.
  intros Hd Hi Hc. apply (di_grey _ _ Hd) in Hc. change (((v, i) :: rest).*1) with (((v, S i) :: rest).*1) in Hc.
  destruct (cycle_slice_spec c _ [] Hc) as (pre & post & E & ->). eexists. split; [done|]. rewrite app_nil_r.
  pose proof (di_link _ _ Hd) as Hk. pose proof (di_nodup _ _ Hd) as Hn. change (((v, i) :: rest).*1) with (((v, S i) :: rest).*1) in Hk, Hn.
  assert (edge_at v c) as He by (by eapply list_elem_of_lookup_2).
  rewrite E in Hk, Hn. split.
  - rewrite <-reverse_snoc, reverse_Permutation. replace (pre ++ c :: post) with ((pre ++ [c]) ++ post) in Hn by (by rewrite <-app_assoc).
    by apply NoDup_app in Hn as (? & _).
  - rewrite reverse_app, reverse_cons, <-app_assoc in Hk. apply linked_app in Hk as [_ Hk].
    change (v :: rest.*1 = pre ++ c :: post) in E. destruct pre as [|w pre]; cbn [app] in *; [injection E as ->; done|].
    injection E as <- _. rewrite reverse_cons in *. rewrite <-app_assoc. cbn [app]. by apply (linked_snoc (c :: reverse pre)).
Qed.

Lemma dfs_loop_spec fuel : ∀ color stack,
  dfs_inv color stack → white_sum color + frame_sum stack <= fuel →
  ∃ r, dfs_loop fuel children color stack = Some r ∧
    match r with
    | inl color' => dfs_inv color' [] ∧ (∀ v, color !! v = Some Black ∨ v ∈ stack.*1 → color' !! v = Some Black)
    | inr cyc => is_cycle cyc
    end.
Proof using Hrange.
  induction fuel as [|fuel IH]; intros color [|[v i] rest] Hd Hf; cbn [dfs_loop].
  1, 3: exists (inl color); split; [done|]; split; [done|]; intros v [?|Hv]; [done|by apply elem_of_nil in Hv].
  { unfold frame_sum in Hf. cbn in Hf. lia. }
  assert (color !! v = Some Grey) as Hg by (apply (di_grey _ _ Hd); by left).
  assert (v < n) as Hv by (rewrite <-(di_len _ _ Hd); by eapply lookup_lt_Some).
  rewrite (child_lookup v Hv). cbn [mbind option_bind]. unfold frame_sum in Hf. rewrite fmap_cons, list_sum_cons in Hf. cbn [fst snd] in Hf.
  fold (frame_sum rest) in Hf. destruct (child v !! i) as [c|] eqn:Hi.
  - assert (c < n) as Hc by (apply (Hrange v c); by eapply list_elem_of_lookup_2). pose proof (lookup_lt_Some _ _ _ Hi) as Hlt.
    rewrite <-(di_len _ _ Hd) in Hc. destruct (lookup_lt_is_Some_2 color c Hc) as [cc Hcc]. rewrite Hcc. cbn [mbind option_bind].
    rewrite (di_len _ _ Hd) in Hc. destruct cc.
    + pose proof (white_insert color c White Grey Hcc Hc) as Hw. cbn [todo] in Hw.
      destruct (IH _ _ (dfs_push color v i c rest Hd Hi Hcc)) as (r & E & Hr).
      { unfold frame_sum. rewrite !fmap_cons, !list_sum_cons. cbn [fst snd]. fold (frame_sum rest). lia. }
      exists r. split; [done|]. destruct r; [|done]. destruct Hr as [H1 H2]. split; [done|]. intros w Hw'. apply H2.
      destruct Hw' as [Hb|Hs]; [left|right; cbn; by right]. destruct (decide (w = c)) as [->|]; [congruence|]. by rewrite list_lookup_insert_ne.
    + destruct (dfs_back color v i c rest Hd Hi Hcc) as (cyc & -> & Hcyc). cbn. by exists (inr cyc).
    + destruct (IH _ _ (dfs_skip color v i c rest Hd Hi Hcc)) as (r & E & Hr).
      { unfold frame_sum. rewrite fmap_cons, list_sum_cons. cbn [fst snd]. fold (frame_sum rest). lia. }
      by exists r.
  - pose proof (white_insert color v Grey Black Hg Hv) as Hw. cbn [todo] in Hw.
    destruct (IH _ _ (dfs_close color v i rest Hd Hi)) as (r & E & Hr); [lia|].
    exists r. split; [done|]. destruct r; [|done]. destruct Hr as [H1 H2]. split; [done|]. intros w Hw'. apply H2.
    destruct (decide (w = v)) as [->|Hne]; [left; apply list_lookup_insert_eq; by eapply lookup_lt_Some|].
    destruct Hw' as [Hb|Hs]; [left; by rewrite list_lookup_insert_ne|right]. apply elem_of_cons in Hs as [->|Hs]; done.
Qed.

Lemma dfs_starts_spec starts : ∀ color,
  dfs_inv color [] → (∀ s, s ∈ starts → s < n) → (∀ v, v < n → v ∈ starts ∨ color !! v = Some Black) →
  ∃ r, dfs_starts (dfs_bound children) children starts color = Some r ∧
    match r with Some cyc => is_cycle cyc | None => acyclic end.
Proof using Hrange.
  induction starts as [|s starts IH]; intros color Hd Hs Hall; cbn [dfs_starts].
  { exists None. split; [done|]. intros v Htc. assert (v < n) as Hv by (inversion Htc; subst; by eapply edge_src).
    destruct (Hall v Hv) as [Hx|Hb]; [by apply elem_of_nil in Hx|]. by apply (di_acyclic _ _ Hd v). }
  assert (s < n) as Hsn by (apply Hs; by left). pose proof Hsn as Hsl. rewrite <-(di_len _ _ Hd) in Hsl.
  destruct (lookup_lt_is_Some_2 color s Hsl) as [cs Hcs]. rewrite Hcs. cbn [mbind option_bind].
  case_bool_decide as Hw.
  - apply IH; [done|intros v Hv; apply Hs; by right|]. intros v Hv. destruct (Hall v Hv) as [[->|?]%elem_of_cons|?]; [right|by left|by right].
    destruct cs; [done| |done]. apply (di_grey _ _ Hd) in Hcs. by apply elem_of_nil in Hcs.
  - assert (cs = White) as -> by (destruct cs; [done|destruct Hw; done..]).
    assert (dfs_inv (<[s := Grey]> color) [(s, 0)]) as Hd1.
    { assert (∀ w, <[s := Grey]> color !! w = Some Black ↔ color !! w = Some Black) as Hb.
      { intros w. destruct (decide (w = s)) as [->|]; [|by rewrite list_lookup_insert_ne]. rewrite list_lookup_insert_eq by done. by rewrite Hcs. }
      split.
      - rewrite length_insert. apply Hd.
      - intros w. change ([(s, 0)].*1) with [s]. rewrite list_elem_of_singleton. pose proof (di_grey _ _ Hd w) as Hg.
        destruct (decide (w = s)) as [->|]; [by rewrite list_lookup_insert_eq by done|]. rewrite list_lookup_insert_ne by done.
        rewrite Hg. split; [by intros ?%elem_of_nil|done].
      - apply NoDup_singleton.
      - done.
      - intros u w. rewrite !Hb. apply (di_closed _ _ Hd).
      - intros u. rewrite Hb. apply (di_acyclic _ _ Hd).
      - split; [intros; lia|done]. }
    destruct (dfs_loop_spec (dfs_bound children) _ _ Hd1) as (r & -> & Hr).
    { pose proof (white_insert color s White Grey Hcs Hsn) as Hx. cbn [todo] in Hx. pose proof (white_bound color). unfold frame_sum. cbn. lia. }
    cbn [mbind option_bind]. destruct r as [color'|cyc]; [|by exists (Some cyc)]. destruct Hr as [Hd' Hb].
    apply IH; [done|intros v Hv; apply Hs; by right|]. intros v Hv. destruct (Hall v Hv) as [[->|?]%elem_of_cons|Hbv]; [right|by left|right].
    + apply Hb. right. by left.
    + apply Hb. left. destruct (decide (v = s)) as [->|]; [congruence|]. by rewrite list_lookup_insert_ne.
Qed.

Lemma cycle_tc cyc : is_cycle cyc → ∃ v, tc edge_at v v.
Proof using Type. intros [_ Hc]. destruct cyc as [|c l]; [done|]. exists c. by apply (linked_tc c l c). Qed.

(** The search ends, with a cycle exactly when there is one. *)
Lemma find_cycle_spec :
  ∃ r, dfs_starts (dfs_bound children) children (seq 0 n) (replicate n White) = Some r ∧
    match r with Some cyc => is_cycle cyc | None => acyclic end.
Proof using Hrange.
  apply dfs_starts_spec.
  - assert (∀ v c, replicate n White !! v = Some c → c = White) as Hw by (intros v c Hc; by apply lookup_replicate in Hc as [-> _]).
    split; try done.
    + apply length_replicate.
    + intros v. split; [by intros ?%Hw|by intros ?%elem_of_nil].
    + constructor.
    + by intros u v ?%Hw.
    + by intros u ?%Hw.
  - intros s Hs. apply elem_of_seq in Hs. lia.
  - intros v Hv. left. apply elem_of_seq. lia.
Qed.
End Positions.

(** ** Union-find *)

Section UnionFind.
Implicit Types (parent : list nat) (pairs : list (nat * nat)).

(** Parents are never smaller than their children. *)
Definition uf_ok parent : Prop := ∀ x p, parent !! x = Some p → x <= p < length parent.
Inductive root parent : nat → nat → Prop :=
| root_here x : parent !! x = Some x → root parent x x
| root_up x p r : parent !! x = Some p → p ≠ x → root parent p r → root parent x r.

Lemma root_find parent fuel : ∀ x, uf_ok parent → x < length parent → length parent <= fuel + x →
  ∃ r, uf_find fuel parent x = Some r ∧ root parent x r.
Proof.
  induction fuel as [|fuel IH]; intros x Hok Hx Hf; [lia|]. destruct (lookup_lt_is_Some_2 parent x Hx) as [p Hp]. cbn [uf_find].
  rewrite Hp. cbn [mbind option_bind]. case_bool_decide as E; [subst p; exists x; split; [done|by constructor]|].
  pose proof (Hok x p Hp). destruct (IH p Hok) as (r & Hr & Hroot); [lia|lia|]. exists r. split; [done|by eapply root_up].
Qed.
Lemma root_fun parent x r r' : root parent x r → root parent x r' → r = r'.
Proof.
  induction 1 as [x Hx|x p r Hp Hne _ IH]; inversion 1; subst; try congruence. apply IH. congruence.
Qed.
Lemma root_root parent x r : root parent x r → parent !! r = Some r.
Proof. by induction 1. Qed.

Definition in_pairs pairs (a b : nat) : Prop := (a, b) ∈ pairs.
(** The roots are the classes of the pairs. *)
Record uf_inv (m : nat) parent pairs : Prop := {
  ui_len : length parent = m;
  ui_ok : uf_ok parent;
  ui_range a b : (a, b) ∈ pairs → a < m ∧ b < m;
  ui_class x y rx ry : root parent x rx → root parent y ry → rx = ry ↔ rtsc (in_pairs pairs) x y }.

Lemma uf_has_root m parent pairs x : uf_inv m parent pairs → x < m → ∃ r, root parent x r.
Proof. intros Hu Hx. destruct (root_find parent (length parent) x) as (r & _ & ?); [apply Hu|by rewrite (ui_len _ _ _ Hu)|lia|]. by exists r. Qed.

Lemma root_merge parent lo hi x r :
  parent !! lo = Some lo → parent !! hi = Some hi → lo ≠ hi → root parent x r →
  root (<[lo := hi]> parent) x (if decide (r = lo) then hi else r).
Proof.
  intros Hlo Hhi Hne. assert (lo < length parent) as Hl by (by eapply lookup_lt_Some).
  induction 1 as [x Hx|x p r Hp Hpx _ IH].
  - case_decide as E; [subst x|apply root_here; by rewrite list_lookup_insert_ne].
    apply root_up with hi; [by apply list_lookup_insert_eq|done|]. apply root_here. by rewrite list_lookup_insert_ne.
  - apply root_up with p; [|done|done]. rewrite list_lookup_insert_ne; [done|]. intros <-. congruence.
Qed.

(** Adding a pair when the new roots are a function of the old that unites the two
    classes of the pair. *)
Lemma uf_add m parent parent' pairs a b ra rb (g : nat → nat) :
  uf_inv m parent pairs → a < m → b < m → root parent a ra → root parent b rb →
  length parent' = m → uf_ok parent' → (∀ x r, root parent x r → root parent' x (g r)) → g ra = g rb →
  (∀ r s, g r = g s → r = s ∨ (r = ra ∧ s = rb) ∨ (r = rb ∧ s = ra)) → uf_inv m parent' (pairs ++ [(a, b)]).
Proof.
  intros Hu Ha Hb Hra Hrb Hl Hok Hg Hgab Hinj.
  assert (∀ u v, (u, v) ∈ pairs ++ [(a, b)] → u < m ∧ v < m) as Hr.
  { intros u v [Hp|Hp]%elem_of_app; [by apply (ui_range _ _ _ Hu)|]. by apply list_elem_of_singleton in Hp as [= -> ->]. }
  split; [done|done|done|]. intros x y rx ry Hx Hy. split.
  - intros ->. assert (∀ x y, rtsc (in_pairs pairs) x y → rtsc (in_pairs (pairs ++ [(a, b)])) x y) as Hmono.
    { intros u v. apply (rtsc_congruence (λ z, z)). intros s t Hp. unfold in_pairs in *. apply elem_of_app. by left. }
    assert (rtsc (in_pairs (pairs ++ [(a, b)])) a b) as Hab by (apply rtsc_lr; unfold in_pairs; apply elem_of_app; right; by left).
    assert (∀ z rz, root parent' z rz → z < m) as Hz.
    { intros z rz Hz. rewrite <-Hl. inversion Hz; subst; by eapply lookup_lt_Some. }
    destruct (uf_has_root m parent pairs x Hu (Hz _ _ Hx)) as [sx Hsx]. destruct (uf_has_root m parent pairs y Hu (Hz _ _ Hy)) as [sy Hsy].
    pose proof (root_fun _ _ _ _ Hx (Hg _ _ Hsx)) as E1. pose proof (root_fun _ _ _ _ Hy (Hg _ _ Hsy)) as E2.
    destruct (Hinj sx sy) as [->|[[-> ->]|[-> ->]]]; [congruence| | |].
    + apply Hmono. by apply (ui_class _ _ _ Hu x y sy sy).
    + transitivity a; [apply Hmono; by apply (ui_class _ _ _ Hu x a ra ra)|]. transitivity b; [done|].
      apply Hmono. by apply (ui_class _ _ _ Hu b y rb rb).
    + transitivity b; [apply Hmono; by apply (ui_class _ _ _ Hu x b rb rb)|]. transitivity a; [by symmetry|].
      apply Hmono. by apply (ui_class _ _ _ Hu a y ra ra).
  - intros Hs. assert (∀ u v r, (u, v) ∈ pairs ++ [(a, b)] → root parent' u r ↔ root parent' v r) as Hstep.
    { intros u v r Hp. destruct (Hr u v Hp) as [Hu' Hv'].
      destruct (uf_has_root m parent pairs u Hu Hu') as [ru Hru]. destruct (uf_has_root m parent pairs v Hu Hv') as [rv Hrv].
      assert (g ru = g rv) as E.
      { apply elem_of_app in Hp as [Hp|Hp].
        - f_equal. apply (ui_class _ _ _ Hu u v ru rv Hru Hrv). by apply rtsc_lr.
        - apply list_elem_of_singleton in Hp as [= -> ->]. by rewrite (root_fun _ _ _ _ Hru Hra), (root_fun _ _ _ _ Hrv Hrb). }
      pose proof (Hg _ _ Hru) as H1. pose proof (Hg _ _ Hrv) as H2.
      split; intros H3; [rewrite (root_fun _ _ _ _ H3 H1), E|rewrite (root_fun _ _ _ _ H3 H2), <-E]; done. }
    assert (∀ x y, rtsc (in_pairs (pairs ++ [(a, b)])) x y → ∀ r, root parent' x r → root parent' y r) as Hall.
    { clear -Hstep. intros x y Hs. induction Hs as [x|x z y [Hp|Hp] _ IH]; intros r Hroot; [done|apply IH, (Hstep x z); done|apply IH, (Hstep z x); done]. }
    eapply root_fun; [by apply (Hall x y Hs)|done].
Qed.

Lemma uf_union_spec m parent pairs a b :
  uf_inv m parent pairs → a < m → b < m → ∃ parent', uf_union a b parent = Some parent' ∧ uf_inv m parent' (pairs ++ [(a, b)]).
Proof.
  intros Hu Ha Hb. pose proof (ui_len _ _ _ Hu) as Hl. pose proof (ui_ok _ _ _ Hu) as Hok. unfold uf_union.
  destruct (root_find parent (length parent) a Hok ltac:(lia) ltac:(lia)) as (ra & -> & Hra).
  destruct (root_find parent (length parent) b Hok ltac:(lia) ltac:(lia)) as (rb & -> & Hrb). cbn [mbind option_bind].
  eexists. split; [done|]. pose proof (root_root _ _ _ Hra) as Hra'. pose proof (root_root _ _ _ Hrb) as Hrb'.
  case_bool_decide as Heq; [subst rb; eapply (uf_add m parent parent pairs a b ra ra (λ r, r)); try done; naive_solver|].
  assert (parent !! Nat.min ra rb = Some (Nat.min ra rb) ∧ parent !! Nat.max ra rb = Some (Nat.max ra rb)) as [Hlo Hhi].
  { destruct (Nat.min_dec ra rb) as [->| ->], (Nat.max_dec ra rb) as [->| ->]; done. }
  eapply (uf_add m parent _ pairs a b ra rb (λ r, if decide (r = Nat.min ra rb) then Nat.max ra rb else r)); try done.
  - by rewrite length_insert.
  - intros x p. rewrite length_insert. destruct (decide (x = Nat.min ra rb)) as [->|Hne].
    + rewrite list_lookup_insert_eq by (by eapply lookup_lt_Some). intros [= <-]. apply lookup_lt_Some in Hhi. lia.
    + rewrite list_lookup_insert_ne by done. apply Hok.
  - intros x r Hx. apply root_merge; try done. lia.
  - repeat case_decide; lia.
  - intros r t. repeat case_decide; lia.
Qed.

Lemma uf_edges_spec m : ∀ pairs parent done_pairs,
  uf_inv m parent done_pairs → (∀ a b, (a, b) ∈ pairs → a < m ∧ b < m) →
  ∃ parent', uf_edges pairs parent = Some parent' ∧ uf_inv m parent' (done_pairs ++ pairs).
Proof.
  induction pairs as [|[a b] pairs IH]; intros parent dp Hu Hr; cbn [uf_edges]; [exists parent; by rewrite app_nil_r|].
  destruct (Hr a b ltac:(by left)) as [Ha Hb]. destruct (uf_union_spec m parent dp a b Hu Ha Hb) as (p1 & -> & Hu1). cbn [mbind option_bind].
  destruct (IH p1 _ Hu1) as (p2 & -> & Hu2); [intros; apply Hr; by right|]. exists p2. split; [done|]. by rewrite <-app_assoc in Hu2.
Qed.

Lemma uf_start m : uf_inv m (seq 0 m) [].
Proof.
  assert (∀ x r, root (seq 0 m) x r → x = r) as Hroot.
  { induction 1 as [x Hx|x p r Hp Hne _ IH]; [done|]. apply lookup_seq in Hp as [-> _]. done. }
  split.
  - apply length_seq.
  - intros x p Hp. rewrite length_seq. apply lookup_seq in Hp as [-> ?]. lia.
  - by intros a b ?%elem_of_nil.
  - intros x y rx ry <-%Hroot <-%Hroot. split; [by intros ->|]. intros Hs.
    inversion Hs as [|? z ? [Hp|Hp]]; subst; [done|unfold in_pairs in Hp; by apply elem_of_nil in Hp..].
Qed.
End UnionFind.
