(* ===== verification/GraphProps.v ===== *)
(** * Properties of the graph searches

    Topological order, cycles and components of a collection's graph, in terms of the
    references between its documents; then breadth-first walks, concrete graphs and
    corner cases. *)

From stdpp Require Import prelude list gmap relations strings.
From Stdlib Require Import ZArith Lia Sorted.
From S2P Require Import Prelude RustStd Error Value Doc IndexKey Traverse TermIndex IndexManager StorageIndex SortFacts Graph WalkFacts GraphAnalysis GraphFacts.

Local Open Scope Z_scope.
Local Open Scope hako_scope.

(** ** From positions to nodes *)

Section Nodes.
Context (nodes : list GraphNode) (adj : GraphAdj) (Hnd : NoDup nodes).

(** An edge between two nodes of the graph. *)
Definition link (a b : GraphNode) : Prop := a ∈ nodes ∧ b ∈ nodes ∧ b ∈ default [] (adj !! a).

Lemma pos_lookup k i : pos_map nodes !! k = Some i ↔ nodes !! i = Some k.
Proof using Hnd.
  unfold pos_map. assert ((imap (λ i k, (k, i)) nodes).*1 = nodes) as Hf.
  { rewrite fmap_imap. cbn. apply list_eq. intros j. rewrite list_lookup_imap. by destruct (nodes !! j). }
  rewrite <-elem_of_list_to_map.
  - rewrite elem_of_reverse, elem_of_lookup_imap. split; [by intros (j & y & [= -> ->] & ?)|]. intros Hi. by exists i, k.
  - rewrite fmap_reverse, reverse_Permutation, Hf. done.
Qed.

Abbreviation cs := (children_of nodes adj).
Lemma length_cs : length cs = length nodes.
Proof using Type. unfold children_of. by rewrite length_fmap. Qed.
Lemma edge_link u v : edge_at cs u v ↔ ∃ a b, nodes !! u = Some a ∧ nodes !! v = Some b ∧ link a b.
Proof using Hnd.
  unfold edge_at, child, children_of. rewrite list_lookup_fmap. destruct (nodes !! u) as [a|] eqn:Hu; cbn.
  - rewrite list_elem_of_omap. setoid_rewrite pos_lookup. split.
    + intros (b & Hb & Hv). exists a, b. split_and!; [done|done|]. split_and!; [by eapply list_elem_of_lookup_2|by eapply list_elem_of_lookup_2|done].
    + intros (a' & b & [= <-] & Hv & _ & _ & Hb). by exists b.
  - split; [by intros ?%elem_of_nil|]. by intros (a & b & ? & _).
Qed.
Lemma edge_range u v : edge_at cs u v → (v < length cs)%nat.
Proof using Hnd. intros (a & b & _ & Hv & _)%edge_link. rewrite length_cs. by eapply lookup_lt_Some. Qed.

Lemma link_edge a b : link a b → ∃ u v, nodes !! u = Some a ∧ nodes !! v = Some b ∧ edge_at cs u v.
Proof using Hnd.
  intros Hl. pose proof Hl as (Ha & Hb & _). apply list_elem_of_lookup in Ha as [u Hu]. apply list_elem_of_lookup in Hb as [v Hv].
  exists u, v. split_and!; try done. apply edge_link. by exists a, b.
Qed.
Lemma tc_link u v : tc (edge_at cs) u v → ∃ a b, nodes !! u = Some a ∧ nodes !! v = Some b ∧ tc link a b.
Proof using Hnd.
  induction 1 as [u v (a & b & Ha & Hb & Hl)%edge_link|u w v (a & b & Ha & Hb & Hl)%edge_link _ (b' & d & Hb' & Hd & Hl')].
  - exists a, b. split_and!; try done. by apply tc_once.
  - exists a, d. split_and!; try done. assert (b' = b) as -> by congruence. by eapply tc_l.
Qed.
Lemma tc_edge a b : tc link a b → ∃ u v, nodes !! u = Some a ∧ nodes !! v = Some b ∧ tc (edge_at cs) u v.
Proof using Hnd.
  induction 1 as [a b (u & v & Hu & Hv & He)%link_edge|a b d (u & v & Hu & Hv & He)%link_edge _ (v' & w & Hv' & Hw & Ht)].
  - exists u, v. split_and!; try done. by apply tc_once.
  - exists u, w. split_and!; try done. assert (v' = v) as -> by (by eapply NoDup_lookup). by eapply tc_l.
Qed.
Lemma acyclic_link : acyclic cs ↔ ∀ a, ¬ tc link a a.
Proof using Hnd.
  split.
  - intros Ha a (u & v & Hu & Hv & Ht)%tc_edge. assert (v = u) as -> by (by eapply NoDup_lookup). by apply (Ha u).
  - intros Ha u (a & b & Hx & Hy & Ht)%tc_link. assert (b = a) as -> by congruence. by apply (Ha a).
Qed.

(** Positions in range name nodes. *)
Lemma nodes_at l : (∀ v, v ∈ l → (v < length nodes)%nat) → ∃ ns, mapM (λ v, nodes !! v) l = Some ns ∧ Forall2 (λ v k, nodes !! v = Some k) l ns.
Proof using Type.
  intros Hl. destruct (mapM (λ v, nodes !! v) l) as [ns|] eqn:E; [exists ns; split; [done|by apply mapM_Some_1]|].
  exfalso. apply mapM_None_1 in E. apply Exists_exists in E as (v & Hv & Hn). apply lookup_ge_None in Hn. specialize (Hl v Hv). lia.
Qed.

Lemma nodes_nodup l ns : NoDup l → Forall2 (λ v k, nodes !! v = Some k) l ns → NoDup ns.
Proof using Hnd.
  intros Hl F. apply NoDup_alt. intros i j k Hi Hj. destruct (Forall2_lookup_r _ _ _ _ _ F Hi) as (u & Hu & Huk).
  destruct (Forall2_lookup_r _ _ _ _ _ F Hj) as (v & Hv & Hvk). assert (u = v) as -> by (by apply (NoDup_lookup nodes u v k)).
  by apply (NoDup_lookup l i j v).
Qed.

Lemma topo_nodes :
  ∃ r, graph_topo_sort nodes adj = Some r ∧
    match r with
    | Some out => out ≡ₚ nodes ∧ (∀ l1 b l2 a, out = l1 ++ b :: l2 → link a b → a ∈ l1) ∧ ∀ a, ¬ tc link a a
    | None => ∃ a, tc link a a
    end.
Proof using Hnd.
  destruct (kahn_spec cs edge_range) as (out & E & Hn & Hr & Ho & Hac & Hcyc). unfold graph_topo_sort.
  unfold first_frontier, first_indegs in E. rewrite length_cs in *. rewrite E. cbn [mbind option_bind].
  destruct (nodes_at out Hr) as (ns & -> & F). cbn [mbind option_bind]. eexists. split; [done|].
  case_bool_decide as Hl.
  - pose proof (nodes_nodup out ns Hn F) as Hns.
    split_and!; [| |by apply acyclic_link, Hac].
    + apply submseteq_length_Permutation; [apply NoDup_submseteq; [done|]|pose proof (Forall2_length _ _ _ F); lia].
      intros k [i Hi]%list_elem_of_lookup. destruct (Forall2_lookup_r _ _ _ _ _ F Hi) as (u & _ & Hk). by eapply list_elem_of_lookup_2.
    + intros l1 b l2 a -> Hlk. apply Forall2_app_inv_r in F as (k1 & k2' & F1 & F2 & ->). inversion F2 as [|v ? k2 ? Hv F3]; subst.
      apply link_edge in Hlk as (u & v' & Hu & Hv' & He). assert (v' = v) as -> by (by apply (NoDup_lookup nodes v' v b)).
      destruct (proj1 (list_elem_of_lookup _ _) (Ho k1 v k2 u eq_refl He)) as [i Hi].
      destruct (Forall2_lookup_l _ _ _ _ _ F1 Hi) as (a' & Ha' & Hua). assert (a' = a) as -> by congruence. by eapply list_elem_of_lookup_2.
  - destruct (Hcyc Hl) as [u (a & b & Ha & Hb & Ht)%tc_link]. assert (b = a) as -> by congruence. by exists a.
Qed.

(** A list of distinct nodes with an edge from each to the next and from the last to
    the first. *)
Fixpoint link_chain (l : list GraphNode) : Prop :=
  match l with a :: (b :: _) as l' => link a b ∧ link_chain l' | _ => True end.
Definition link_cycle (l : list GraphNode) : Prop := NoDup l ∧ match l with [] => False | a :: _ => link_chain (l ++ [a]) end.

Lemma linked_nodes l ns : Forall2 (λ v k, nodes !! v = Some k) l ns → linked cs l → link_chain ns.
Proof using Hnd.
  intros F. induction F as [|u a l ns Hu F IH]; [done|]. destruct F as [|v b l ns Hv F]; [done|]. cbn. intros [He Hl]. split; [|by apply IH].
  apply edge_link in He as (a' & b' & Ha & Hb & Hlk). congruence.
Qed.

Lemma cycle_nodes :
  ∃ r, graph_find_cycle nodes adj = Some r ∧ match r with Some cyc => link_cycle cyc | None => ∀ a, ¬ tc link a a end.
Proof using Hnd.
  destruct (find_cycle_spec cs edge_range) as (r & E & Hr). unfold graph_find_cycle. rewrite length_cs in E. rewrite E.
  cbn [mbind option_bind]. destruct r as [cyc|]; [|exists None; split; [done|by apply acyclic_link]].
  destruct Hr as [Hn Hc]. destruct cyc as [|c cyc]; [done|].
  assert (∀ v, v ∈ (c :: cyc) ++ [c] → (v < length nodes)%nat) as Hv.
  { assert (∀ l x, linked cs (x :: l) → l ≠ [] → ∀ v, v ∈ x :: l → (v < length nodes)%nat) as Hx.
    { induction l as [|y l IH]; intros x Hl Hne; [done|]. destruct Hl as [He Hl]. pose proof (edge_range _ _ He) as Hy.
      rewrite length_cs in Hy. apply edge_link in He as (a & b & Ha & _). apply lookup_lt_Some in Ha.
      intros v [->|Hv]%elem_of_cons; [done|]. destruct l as [|z l]; [by apply list_elem_of_singleton in Hv as ->|by apply (IH y)]. }
    apply (Hx (cyc ++ [c]) c Hc). by destruct cyc. }
  destruct (nodes_at _ Hv) as (ns & _ & F). apply Forall2_app_inv_l in F as (ns1 & ns2 & F1 & F2 & ->).
  apply mapM_Some in F1 as Em. rewrite Em. cbn. exists (Some ns1). split; [done|].
  inversion F1 as [|? a ? ns' Ha F1']; subst. inversion F2 as [|? a' ? ? Ha' F2']; subst. inversion F2'; subst.
  assert (a' = a) as -> by congruence. split.
  - by apply (nodes_nodup (c :: cyc)).
  - eapply linked_nodes; [|exact Hc]. apply Forall2_app; [done|]. by repeat constructor.
Qed.

(** ** Components *)

Context `{StdIterLaws}.

Lemma pairs_edge u v : (u, v) ∈ edge_pairs nodes adj ↔ edge_at cs u v.
Proof using All.
  unfold edge_pairs. rewrite edge_link, list_elem_of_bind. split.
  - intros ([a ts] & Hin & Hst). rewrite std_iter_perm in Hst. apply elem_of_map_to_list in Hst. cbn [fst snd] in Hin.
    destruct (pos_map nodes !! a) as [p|] eqn:Hp; [|by apply elem_of_nil in Hin]. apply pos_lookup in Hp.
    apply list_elem_of_fmap in Hin as (q & [= <- <-] & (b & Hb & Hq%pos_lookup)%list_elem_of_omap).
    exists a, b. split_and!; [done|done|]. split_and!; [by eapply list_elem_of_lookup_2..|]. by rewrite Hst.
  - intros (a & b & Ha & Hb & _ & _ & Hl). destruct (adj !! a) as [ts|] eqn:Hts; [|by apply elem_of_nil in Hl].
    exists (a, ts). split; [|rewrite std_iter_perm; by apply elem_of_map_to_list]. cbn [fst snd].
    rewrite (proj2 (pos_lookup a u) Ha). apply list_elem_of_fmap. exists v. split; [done|]. apply list_elem_of_omap. exists b.
    split; [done|by apply pos_lookup].
Qed.

Lemma conn_nodes u v a b :
  nodes !! u = Some a → nodes !! v = Some b → rtsc (in_pairs (edge_pairs nodes adj)) u v ↔ rtsc link a b.
Proof using All.
  intros Ha Hb. split.
  - intros Hs. revert a Ha. induction Hs as [u|u w v He _ IH]; intros a Ha; [assert (a = b) as -> by congruence; done|].
    assert (∃ d, nodes !! w = Some d ∧ sc link a d) as (d & Hd & Hl).
    { destruct He as [He|He]; apply pairs_edge, edge_link in He as (x & y & Hx & Hy & Hl).
      - exists y. split; [done|]. left. congruence.
      - exists x. split; [done|]. right. congruence. }
    eapply rtc_l; [exact Hl|]. by apply IH.
  - intros Hs. revert u Ha. induction Hs as [a|a d b He _ IH]; intros u Ha; [assert (u = v) as -> by (by apply (NoDup_lookup nodes u v a)); done|].
    assert (∃ w, nodes !! w = Some d ∧ sc (in_pairs (edge_pairs nodes adj)) u w) as (w & Hw & Hl).
    { destruct He as [He|He]; apply link_edge in He as (x & y & Hx & Hy & Hl).
      - exists y. split; [done|]. left. apply pairs_edge. by rewrite (NoDup_lookup nodes u x a Hnd Ha Hx).
      - exists x. split; [done|]. right. apply pairs_edge. by rewrite (NoDup_lookup nodes u y a Hnd Ha Hy). }
    eapply rtc_l; [exact Hl|]. by apply IH.
Qed.

Definition root_of (parent : list nat) (i : nat) : nat := default 0%nat (uf_find (length parent) parent i).
Fixpoint members (parent : list nat) (r i : nat) (ks : list GraphNode) : list GraphNode :=
  match ks with [] => [] | k :: ks => (if decide (root_of parent i = r) then [k] else []) ++ members parent r (S i) ks end.

Lemma elem_of_members parent r i ks k :
  k ∈ members parent r i ks ↔ ∃ x, ks !! x = Some k ∧ root_of parent (i + x) = r.
Proof using Type.
  revert i; induction ks as [|k' ks IH]; intros i; cbn [members]; [split; [by intros ?%elem_of_nil|by intros (x & ? & _)]|].
  rewrite elem_of_app, IH. split.
  - intros [Hk|(x & Hx & Hr)]; [|exists (S x); split; [done|]; by replace (i + S x)%nat with (S i + x)%nat by lia].
    case_decide as Hd; [|by apply elem_of_nil in Hk]. apply list_elem_of_singleton in Hk as ->. exists 0%nat. by rewrite Nat.add_0_r.
  - intros ([|x] & Hx & Hr); [left|right; exists x; split; [done|]; by replace (S i + x)%nat with (i + S x)%nat by lia].
    injection Hx as ->. rewrite Nat.add_0_r in Hr. rewrite decide_True by done. by left.
Qed.
Lemma members_sublist parent r i ks : members parent r i ks `sublist_of` ks.
Proof using Type.
  revert i; induction ks as [|k ks IH]; intros i; cbn [members]; [done|]. case_decide; cbn; [apply sublist_skip|apply sublist_cons]; apply IH.
Qed.

Definition no_empty (b : gmap nat (list GraphNode)) : Prop := ∀ r l, b !! r = Some l → l ≠ [].
Lemma fill_spec parent ks : ∀ i b,
  (∀ x, (x < i + length ks)%nat → is_Some (uf_find (length parent) parent x)) → no_empty b →
  ∃ b', fill_buckets parent i ks b = Some b' ∧ no_empty b' ∧
    ∀ r, default [] (b' !! r) = default [] (b !! r) ++ members parent r i ks.
Proof using Type.
  induction ks as [|k ks IH]; intros i b Hf Hb; cbn [fill_buckets members].
  { exists b. split_and!; [done|done|]. intros r. by rewrite app_nil_r. }
  destruct (Hf i ltac:(cbn; lia)) as [ri Hri]. rewrite Hri. cbn [mbind option_bind].
  assert (root_of parent i = ri) as -> by (unfold root_of; by rewrite Hri).
  destruct (IH (S i) (<[ri := default [] (b !! ri) ++ [k]]> b)) as (b' & E & Hb' & Hm).
  { intros x Hx. apply Hf. cbn. lia. }
  { intros r l [[<- <-]|[_ Hl]]%lookup_insert_Some; [by destruct (default [] _)|by eapply Hb]. }
  exists b'. split_and!; [done|done|]. intros r. rewrite Hm. case_decide as Hd.
  - subst ri. rewrite lookup_insert_eq. cbn. by rewrite <-app_assoc.
  - by rewrite lookup_insert_ne.
Qed.

Lemma components_nodes :
  ∃ comps, graph_components nodes adj = Some comps ∧ NoDup comps ∧
    (∀ comp, comp ∈ comps → comp ≠ [] ∧ comp `sublist_of` nodes) ∧
    (∀ a, a ∈ nodes → ∃ comp, comp ∈ comps ∧ ∀ b, b ∈ comp ↔ b ∈ nodes ∧ rtsc link a b) ∧
    ∀ c1 c2 a, c1 ∈ comps → c2 ∈ comps → a ∈ c1 → a ∈ c2 → c1 = c2.
Proof using All.
  destruct (uf_edges_spec (length nodes) (edge_pairs nodes adj) _ [] (uf_start _)) as (parent & E & Hu).
  { intros a b He%pairs_edge. rewrite <-length_cs. split; [by eapply edge_src|by eapply edge_range]. }
  cbn [app] in Hu. unfold graph_components. rewrite E. cbn [mbind option_bind].
  assert (∀ x, (x < length nodes)%nat → ∃ r, uf_find (length parent) parent x = Some r ∧ root parent x r) as Hfind.
  { intros x Hx. apply root_find; [apply Hu|by rewrite (ui_len _ _ _ Hu)|lia]. }
  destruct (fill_spec parent nodes 0 ∅) as (b & Eb & Hne & Hm).
  { intros x Hx. destruct (Hfind x Hx) as (r & -> & _). eauto. } { by intros r l. }
  rewrite Eb. cbn [mbind option_bind]. eexists. split; [done|].
  assert (∀ r l, b !! r = Some l → l = members parent r 0 nodes) as Hl.
  { intros r l Hr. specialize (Hm r). rewrite Hr, lookup_empty in Hm. exact Hm. }
  assert (∀ r1 r2 l1 l2 a, b !! r1 = Some l1 → b !! r2 = Some l2 → a ∈ l1 → a ∈ l2 → r1 = r2) as Hroot.
  { intros r1 r2 l1 l2 a H1 H2. rewrite (Hl _ _ H1), (Hl _ _ H2), !elem_of_members. intros (x & Hx & <-) (y & Hy & <-).
    by rewrite (NoDup_lookup nodes x y a Hnd Hx Hy). }
  set (vals := sort_by (lex_cmp node_cmp) (std_iter b).*2).
  assert (vals ≡ₚ (map_to_list b).*2) as Hp by (unfold vals; by rewrite sort_by_perm, std_iter_perm).
  assert (∀ comp, comp ∈ vals ↔ ∃ r, b !! r = Some comp) as Hin.
  { intros comp. rewrite Hp, list_elem_of_fmap. split.
    - intros ([r l] & -> & Hr%elem_of_map_to_list). by exists r.
    - intros [r Hr]. exists (r, comp). split; [done|by apply elem_of_map_to_list]. }
  split_and!.
  - rewrite Hp. apply NoDup_fmap_2_strong; [|apply NoDup_map_to_list]. intros [r1 l1] [r2 l2] H1%elem_of_map_to_list H2%elem_of_map_to_list. cbn.
    intros ->. destruct l2 as [|a l2]; [by apply Hne in H2|]. f_equal. by apply (Hroot r1 r2 _ _ a H1 H2); left.
  - intros comp [r Hr]%Hin. split; [by eapply Hne|]. rewrite (Hl _ _ Hr). apply members_sublist.
  - intros a [x Hx]%list_elem_of_lookup. destruct (Hfind x ltac:(by eapply lookup_lt_Some)) as (r & Hf & Hr).
    assert (root_of parent x = r) as Hrx by (unfold root_of; by rewrite Hf).
    assert (a ∈ members parent r 0 nodes) as Ha by (apply elem_of_members; by exists x).
    exists (members parent r 0 nodes). split.
    + apply Hin. exists r. specialize (Hm r). rewrite lookup_empty in Hm. cbn in Hm. rewrite <-Hm in Ha |- *. destruct (b !! r) as [l|] eqn:El; [done|].
      by apply elem_of_nil in Ha.
    + intros d. rewrite elem_of_members. split.
      * intros (y & Hy & Hry). split; [by eapply list_elem_of_lookup_2|]. destruct (Hfind y ltac:(by eapply lookup_lt_Some)) as (ry & Hfy & Hry').
        assert (ry = r) as -> by (unfold root_of in Hry; cbn [Nat.add] in Hry; by rewrite Hfy in Hry).
        apply (conn_nodes x y); [done|done|]. by apply (ui_class _ _ _ Hu x y r r).
      * intros [Hd Hc]. apply list_elem_of_lookup in Hd as [y Hy]. exists y. split; [done|].
        destruct (Hfind y ltac:(by eapply lookup_lt_Some)) as (ry & Hfy & Hry'). unfold root_of. cbn [Nat.add]. rewrite Hfy. cbn.
        symmetry. apply (ui_class _ _ _ Hu x y r ry Hr Hry'). by apply (conn_nodes x y a d).
  - intros c1 c2 a [r1 H1]%Hin [r2 H2]%Hin Ha1 Ha2. pose proof (Hroot _ _ _ _ a H1 H2 Ha1 Ha2) as ->. congruence.
Qed.
End Nodes.

(** ** The graph of a collection *)

Lemma elem_of_dedup_nodes l (a : GraphNode) : a ∈ dedup_nodes l ↔ a ∈ l.
Proof.
  induction l as [|x l IH]; [done|]. destruct l as [|y l]; [done|]. cbn [dedup_nodes] in *. case_bool_decide as E.
  - subst y. rewrite IH, !elem_of_cons. naive_solver.
  - rewrite elem_of_cons, IH, (elem_of_cons (y :: l)). done.
Qed.
Section Collection.
Context (get : bytes → bytes → res (option HakoDoc)) (mgr : IndexManager) (c : bytes) (ids : list bytes) (spec : TraverseSpec).
Context (Hids : NoDup ids).
Abbreviation nodes := (build_adjacency get mgr c ids spec).1.
Abbreviation adj := (build_adjacency get mgr c ids spec).2.

(** The nodes are the documents that match; an edge is a step of the walk between two
    of them. *)
Definition in_graph (a : GraphNode) : Prop := a.1 = c ∧ a.2 ∈ ids ∧ node_matches get spec a = true.
Definition graph_edge (a b : GraphNode) : Prop := in_graph a ∧ in_graph b ∧ b ∈ hop_node <$> expand_neighbors get mgr a spec.

Lemma elem_of_nodes a : a ∈ nodes ↔ in_graph a.
Proof using Type.
  unfold build_adjacency, graph_nodes, in_graph. cbn [fst]. rewrite sort_by_perm, list_elem_of_In, filter_In, <-list_elem_of_In, list_elem_of_fmap.
  split; [intros [(x & -> & Hx) Hm]; done|]. destruct a as [c' x]. cbn. intros (-> & Hx & Hm). split; [by exists x|done].
Qed.
Lemma nodes_unique : NoDup nodes.
Proof using Hids.
  unfold build_adjacency, graph_nodes. cbn [fst]. rewrite sort_by_perm. apply NoDup_ListNoDup, List.NoDup_filter, NoDup_ListNoDup.
  apply NoDup_fmap_2; [|done]. by intros x y [=].
Qed.

Lemma adj_lookup a : a ∈ nodes → adj !! a = Some (graph_targets get mgr spec a).
Proof using Type.
  unfold build_adjacency. cbn [fst snd]. generalize (graph_nodes get c ids spec) as l. intros l.
  assert (∀ l (m : GraphAdj), foldl (λ adj key, <[key := graph_targets get mgr spec key]> adj) m l !! a =
    if decide (a ∈ l) then Some (graph_targets get mgr spec a) else m !! a) as Hf; [|intros Ha; rewrite Hf; by rewrite decide_True].
  clear l. intros l. induction l as [|x l IH] using rev_ind; intros m; [done|]. rewrite foldl_app. cbn [foldl].
  destruct (decide (x = a)) as [->|Hne].
  - rewrite lookup_insert_eq, decide_True; [done|]. apply elem_of_app. right. by left.
  - rewrite lookup_insert_ne by done. rewrite IH. apply decide_ext. rewrite elem_of_app, list_elem_of_singleton. naive_solver.
Qed.
Lemma link_graph a b : link nodes adj a b ↔ graph_edge a b.
Proof using Type.
  unfold link, graph_edge. rewrite <-!elem_of_nodes. split.
  - intros (Ha & Hb & Hl). split_and!; try done. rewrite (adj_lookup a Ha) in Hl. cbn in Hl. unfold graph_targets in Hl.
    rewrite elem_of_dedup_nodes, sort_by_perm in Hl. apply list_elem_of_fmap in Hl as (h & -> & Hh).
    apply list_elem_of_fmap_2. apply list_elem_of_In, filter_In in Hh as [Hh _]. by apply list_elem_of_In.
  - intros (Ha & Hb & (h & -> & Hh)%list_elem_of_fmap). split_and!; try done. rewrite (adj_lookup a Ha). cbn. unfold graph_targets.
    rewrite elem_of_dedup_nodes, sort_by_perm. apply list_elem_of_fmap_2. apply list_elem_of_In, filter_In. split; [by apply list_elem_of_In|].
    apply elem_of_nodes in Ha as (Ha & _). apply elem_of_nodes in Hb as (Hb & _ & Hm). rewrite Hm, andb_true_r. apply bytes_eqb_eq. congruence.
Qed.
Lemma tc_graph a b : tc (link nodes adj) a b ↔ tc graph_edge a b.
Proof using Type. split; apply (tc_congruence (λ x, x)); intros; by apply link_graph. Qed.

(** C14: The topological sort answers: when it gives an order, the order has every
    document of the graph once and each after the documents that refer to it (or
    that it refers to, by direction); when it gives none, the graph has a cycle.  No
    counter of it underflows. *)
Theorem topo_sort_exact :
  ∃ r, graph_topo_sort nodes adj = Some r ∧
    match r with
    | Some out => NoDup out ∧ (∀ a, a ∈ out ↔ in_graph a) ∧ (∀ l1 b l2 a, out = l1 ++ b :: l2 → graph_edge a b → a ∈ l1) ∧
        ∀ a, ¬ tc graph_edge a a
    | None => ∃ a, tc graph_edge a a
    end.
Proof using Hids.
  destruct (topo_nodes nodes adj nodes_unique) as (r & E & Hr). exists r. split; [done|]. destruct r as [out|].
  - destruct Hr as (Hp & Ho & Hac). split_and!.
    + rewrite Hp. apply nodes_unique.
    + intros a. by rewrite Hp, elem_of_nodes.
    + intros l1 b l2 a Eo Hl. apply (Ho l1 b l2 a Eo). by apply link_graph.
    + intros a Ht. apply (Hac a). by apply tc_graph.
  - destruct Hr as [a Ha]. exists a. by apply tc_graph.
Qed.

(** C15: The search for a cycle ends: a list it reports is a cycle of distinct
    documents, each with an edge to the next and the last to the first; when it
    reports none there is none. *)
Theorem find_cycle_exact :
  ∃ r, graph_find_cycle nodes adj = Some r ∧
    match r with
    | Some cyc => NoDup cyc ∧ ∃ a l, cyc = a :: l ∧ ∀ i x y, (cyc ++ [a]) !! i = Some x → (cyc ++ [a]) !! S i = Some y → graph_edge x y
    | None => ∀ a, ¬ tc graph_edge a a
    end.
Proof using Hids.
  destruct (cycle_nodes nodes adj nodes_unique) as (r & E & Hr). exists r. split; [done|]. destruct r as [cyc|].
  - destruct Hr as [Hn Hc]. split; [done|]. destruct cyc as [|a l]; [done|]. exists a, l. split; [done|].
    assert (∀ l i x y, link_chain nodes adj l → l !! i = Some x → l !! S i = Some y → graph_edge x y) as Hx; [|intros i x y; by apply Hx].
    induction l0 as [|u l0 IH]; intros i x y Hl Hi Hj; [done|]. destruct l0 as [|v l0]; [by destruct i|]. destruct Hl as [Hl Hl'].
    destruct i as [|i]; [|by apply (IH i)]. injection Hi as <-. injection Hj as <-. by apply link_graph.
  - intros a Ht. apply (Hr a). by apply tc_graph.
Qed.

(** C16: The components are a partition of the graph: no component is empty, every
    document is in one, and its component holds exactly the documents that are
    connected with it, whatever the direction of the edges. *)
Theorem components_exact `{StdIterLaws} :
  ∃ comps, graph_components nodes adj = Some comps ∧ NoDup comps ∧ ([] : list GraphNode) ∉ comps ∧
    (∀ a, in_graph a → ∃ comp, comp ∈ comps ∧ a ∈ comp) ∧
    ∀ comp a, comp ∈ comps → a ∈ comp → ∀ b, b ∈ comp ↔ in_graph b ∧ rtsc graph_edge a b.
Proof using Hids.
  destruct (components_nodes nodes adj nodes_unique) as (comps & E & Hn & Hne & Hall & Huniq). exists comps.
  assert (∀ a b, rtsc (link nodes adj) a b ↔ rtsc graph_edge a b) as Hr.
  { intros a b. split; apply (rtsc_congruence (λ x, x)); intros x y; apply link_graph. }
  split_and!; [done|done| | |].
  - intros Hx. by apply Hne in Hx as [? _].
  - intros a Ha. apply elem_of_nodes in Ha. destruct (Hall a Ha) as (comp & Hc & Hb). exists comp. split; [done|]. apply Hb. split; [done|reflexivity].
  - intros comp a Hc Ha b. assert (a ∈ nodes) as Han by (destruct (Hne comp Hc) as [_ Hs]; by eapply sublist_subseteq).
    destruct (Hall a Han) as (comp' & Hc' & Hb). assert (comp = comp') as ->.
    { apply (Huniq comp comp' a Hc Hc' Ha). apply Hb. split; [done|reflexivity]. }
    by rewrite Hb, elem_of_nodes, Hr.
Qed.
End Collection.

(** ** Walks *)

(** C13: A breadth-first walk answers within as many rounds as there are ways to reach
    a node within the depth, and its hits are the documents nearest to the start:
    each once, by increasing depth, which is the length of a shortest walk to it,
    along the path that it carries; a document within the depth is left out only when
    the limit is reached, and then no hit is farther. *)
Theorem find_paths_exact get mgr c id spec fuel doc :
  0 <= max_depth spec → 0 <= t_limit spec → spec_validate spec = Ok tt → ensure_incoming_state mgr c spec = Ok tt →
  get c id = Ok (Some doc) → weight_field spec = None → (length (ball get mgr spec (c, id) (Z.to_nat (max_depth spec))) <= fuel)%nat →
  ∃ hs, find_paths get mgr fuel c id spec = Ok (Some hs) ∧ bfs_answer get mgr spec (c, id) hs.
Proof. intros Hm Hl. by apply (find_paths_bfs get mgr spec (c, id) Hm Hl fuel doc). Qed.

(** ** Concrete graphs *)

#[export] Instance list_std_iter : StdIter := λ _ _ _ _ m, map_to_list m.
#[export] Instance list_std_iter_laws : StdIterLaws.
Proof. by intros K E CK A m. Qed.

(** Documents of collection "n" with outgoing references, named and in one field each. *)
Definition N := b#("n").
Definition ref_doc (targets : list (bytes * bytes)) : HakoDoc := mkDoc ((λ ft, (ft.1, Reference N ft.2)) <$> targets) 1.
Definition get_of (docs : list (bytes * bytes * HakoDoc)) (c id : bytes) : res (option HakoDoc) :=
  Ok (snd <$> List.find (λ d, bytes_eqb d.1.1 c && bytes_eqb d.1.2 id) docs).
Definition out_spec (depth limit : Z) (path : bool) : TraverseSpec :=
  mkSpec Outgoing None depth limit None None None None None path false.

(** a -> b -> d, a -> c -> d, and e alone. *)
Definition diamond : list (bytes * bytes * HakoDoc) :=
  [(N, b#("a"), ref_doc [(b#("x"), b#("b")); (b#("y"), b#("c"))]); (N, b#("b"), ref_doc [(b#("x"), b#("d"))]);
   (N, b#("c"), ref_doc [(b#("x"), b#("d"))]); (N, b#("d"), ref_doc []); (N, b#("e"), ref_doc [])].
Definition diamond_ids : list bytes := [b#("e"); b#("d"); b#("c"); b#("b"); b#("a")].
Definition ring : list (bytes * bytes * HakoDoc) :=
  [(N, b#("a"), ref_doc [(b#("x"), b#("b"))]); (N, b#("b"), ref_doc [(b#("x"), b#("c"))]); (N, b#("c"), ref_doc [(b#("x"), b#("b"))])].
Definition ring_ids : list bytes := [b#("a"); b#("b"); b#("c")].

Lemma topo_sort_exact_witness :
  let g := build_adjacency (get_of diamond) im_empty N diamond_ids (out_spec 1 1 false) in
  graph_topo_sort g.1 g.2 = Some (Some ((λ x, (N, x)) <$> [b#("a"); b#("b"); b#("c"); b#("d"); b#("e")])) ∧
  ∃ r, graph_topo_sort g.1 g.2 = Some r ∧
    match r with
    | Some out => NoDup out ∧ (∀ a, a ∈ out ↔ in_graph (get_of diamond) N diamond_ids (out_spec 1 1 false) a) ∧
        (∀ l1 b l2 a, out = l1 ++ b :: l2 → graph_edge (get_of diamond) im_empty N diamond_ids (out_spec 1 1 false) a b → a ∈ l1) ∧
        ∀ a, ¬ tc (graph_edge (get_of diamond) im_empty N diamond_ids (out_spec 1 1 false)) a a
    | None => ∃ a, tc (graph_edge (get_of diamond) im_empty N diamond_ids (out_spec 1 1 false)) a a
    end.
Proof.
  split; [vm_compute; reflexivity|]. apply topo_sort_exact. apply (bool_decide_unpack _). vm_compute. exact I.
Defined.

Lemma find_cycle_exact_witness :
  let g := build_adjacency (get_of ring) im_empty N ring_ids (out_spec 1 1 false) in
  graph_find_cycle g.1 g.2 = Some (Some [(N, b#("b")); (N, b#("c"))]) ∧
  ∃ r, graph_find_cycle g.1 g.2 = Some r ∧
    match r with
    | Some cyc => NoDup cyc ∧ ∃ a l, cyc = a :: l ∧ ∀ i x y, (cyc ++ [a]) !! i = Some x → (cyc ++ [a]) !! S i = Some y →
        graph_edge (get_of ring) im_empty N ring_ids (out_spec 1 1 false) x y
    | None => ∀ a, ¬ tc (graph_edge (get_of ring) im_empty N ring_ids (out_spec 1 1 false)) a a
    end.
Proof.
  split; [vm_compute; reflexivity|]. apply find_cycle_exact. apply (bool_decide_unpack _). vm_compute. exact I.
Defined.

Lemma components_exact_witness :
  let g := build_adjacency (get_of diamond) im_empty N diamond_ids (out_spec 1 1 false) in
  graph_components g.1 g.2 = Some [(λ x, (N, x)) <$> [b#("a"); b#("b"); b#("c"); b#("d")]; [(N, b#("e"))]] ∧
  ∃ comps, graph_components g.1 g.2 = Some comps ∧ NoDup comps ∧ ([] : list GraphNode) ∉ comps ∧
    (∀ a, in_graph (get_of diamond) N diamond_ids (out_spec 1 1 false) a → ∃ comp, comp ∈ comps ∧ a ∈ comp) ∧
    ∀ comp a, comp ∈ comps → a ∈ comp → ∀ b, b ∈ comp ↔ in_graph (get_of diamond) N diamond_ids (out_spec 1 1 false) b ∧
      rtsc (graph_edge (get_of diamond) im_empty N diamond_ids (out_spec 1 1 false)) a b.
Proof.
  split; [vm_compute; reflexivity|]. apply components_exact; [|apply list_std_iter_laws]. apply (bool_decide_unpack _). vm_compute. exact I.
Defined.

Lemma find_paths_exact_witness :
  ∃ hs, find_paths (get_of diamond) im_empty 7 N b#("a") (out_spec 2 10 true) = Ok (Some hs) ∧
    bfs_answer (get_of diamond) im_empty (out_spec 2 10 true) (N, b#("a")) hs.
Proof.
  apply (find_paths_exact (get_of diamond) im_empty N b#("a") (out_spec 2 10 true) 7 (ref_doc [(b#("x"), b#("b")); (b#("y"), b#("c"))]));
    [vm_compute; discriminate|vm_compute; discriminate|reflexivity..|]. apply Nat.leb_le. vm_compute. reflexivity.
Defined.
