(* ===== verification/GraphQuery.v ===== *)
(** * Traverse queries and corner cases of the graph searches

    [execute_traverse_query] of src/engine/engine.rs, which answers a query with a
    traversal marker from a walk, and concrete graphs on which the searches do
    something that their comments do not say. *)

From stdpp Require Import prelude list gmap strings.
From Stdlib Require Import ZArith Lia.
From S2P Require Import Prelude RustStd Error Value Doc Filter IndexKey Traverse Query TermIndex IndexManager Planner SortFacts Executor Graph GraphAnalysis GraphProps.

Local Open Scope Z_scope.
Local Open Scope hako_scope.

(** ** [execute_traverse_query] *)

Definition with_limit (n : nat) (s : TraverseSpec) : TraverseSpec :=
  mkSpec (direction s) (edge_field s) (max_depth s) (Z.of_nat n) (via_edge s) (weight_field s) (node_match s) (edge_type s)
    (edge_match s) (include_path s) (include_via s).
Section Rows.
Context (to_lowercase : bytes → bytes).
Definition hit_passes (extra : list Filter) (doc : HakoDoc) : bool :=
  forallb (λ f, match doc_get doc (f_field f) with Some v => compare_values to_lowercase v (f_op f) (f_value f) | None => false end) extra.
Definition hit_row (c : bytes) (extra : list Filter) (h : TraverseHit) : option (bytes * HakoDoc) :=
  if negb (bytes_eqb (hit_node h).1 c) || negb (hit_passes extra (hit_doc h)) then None else Some ((hit_node h).2, hit_doc h).
Definition trav_key_cmp (o : OrderBy) (a b : bytes * HakoDoc) : comparison :=
  if bytes_eqb (o_field o) b#("id") then bytes_cmp a.1 b.1
  else if bytes_eqb (o_field o) b#("_time") then _time a.2 ?= _time b.2
  else option_cmp value_cmp (doc_get a.2 (o_field o)) (doc_get b.2 (o_field o)).
Definition execute_traverse_query (get : bytes → bytes → res (option HakoDoc)) (mgr : IndexManager) (fuel : nat) (plan : QueryPlan)
  : res (option (list (bytes * HakoDoc))) :=
  match scan plan with
  | Traverse start_col start_id spec extra =>
      let spec := match scan_limit plan with Some fetch => with_limit fetch spec | None => spec end in
      found ← find_paths get mgr fuel start_col start_id spec;
      Ok (hs ← found;
          let rows := omap (hit_row (p_collection plan) extra) hs in
          let rows := if bool_decide (p_order_by plan = []) then rows else sort_by (order_chain trav_key_cmp (p_order_by plan)) rows in
          Some (page_of (default 0%nat (p_offset plan)) (p_limit plan) rows))
  | _ => Err (Corrupt "traverse executor reached without a Traverse plan")
  end.

(** A row of the answer is a hit of the walk in the queried collection that passes
    the other filters, and without order, page and bound every such hit is a row. *)
Lemma traverse_rows get mgr fuel plan rows c id spec extra :
  scan plan = Traverse c id spec extra → execute_traverse_query get mgr fuel plan = Ok (Some rows) →
  ∃ hs, find_paths get mgr fuel c id (match scan_limit plan with Some n => with_limit n spec | None => spec end) = Ok (Some hs) ∧
    rows ⊆ omap (hit_row (p_collection plan) extra) hs ∧
    (p_limit plan = None → p_offset plan = None → rows ≡ₚ omap (hit_row (p_collection plan) extra) hs).
Proof.
  intros Hs. unfold execute_traverse_query. rewrite Hs. destruct (find_paths _ _ _ _ _ _) as [[hs|]| |]; cbn; try done. intros [= <-].
  exists hs. split; [done|]. set (base := omap _ hs).
  set (l := if bool_decide _ then _ else _). assert (l ≡ₚ base) as Hp by (unfold l; case_bool_decide; [done|apply sort_by_perm]).
  split.
  - intros x Hx. rewrite <-Hp. unfold page_of in Hx. destruct (p_limit plan) as [n|].
    + eapply subseteq_drop, subseteq_take, Hx.
    + eapply subseteq_drop, Hx.
  - intros -> ->. exact Hp.
Qed.
End Rows.

(** ** Corner cases *)

Definition read_hits {A B} (f : A → B) (r : res (option (list A))) : res (option (list B)) := 
  match r with Ok x => Ok (option_map (List.map f) x) | Err e => Err e | Panic => Panic end.

(** Documents of an edge collection "e", with a weight. *)
Definition edge_doc (from to : bytes) (w : Z) : HakoDoc :=
  mkDoc [(b#("_from"), Reference N from); (b#("_to"), Reference N to); (b#("w"), Int w)] 1.
Definition edge_docs (l : list (bytes * HakoDoc)) : list (bytes * bytes * HakoDoc) := (λ d, (b#("e"), d.1, d.2)) <$> l.
Definition edge_mgr (l : list (bytes * HakoDoc)) : IndexManager :=
  foldl (λ m d, im_index_document id (λ _, true) m b#("e") d.1 d.2)
    (create_secondary_index (create_secondary_index im_empty b#("e") b#("_from")) b#("e") b#("_to")) l.
Definition via_spec (depth : Z) (weighted path via : bool) : TraverseSpec :=
  mkSpec Outgoing None depth 10 (Some b#("e")) (if weighted then Some b#("w") else None) None None None path via.
Definition bare (ids : list bytes) : list (bytes * bytes * HakoDoc) := (λ i, (N, i, mkDoc [] 1)) <$> ids.

(** s -> a -> b costs 2, s -> b costs 10, b -> t. *)
Definition detour : list (bytes * HakoDoc) :=
  [(b#("1"), edge_doc b#("s") b#("a") 1); (b#("2"), edge_doc b#("a") b#("b") 1);
   (b#("3"), edge_doc b#("s") b#("b") 10); (b#("4"), edge_doc b#("b") b#("t") 1)].
Definition get_detour := get_of (bare [b#("s"); b#("a"); b#("b"); b#("t")] ++ edge_docs detour).

(** The cheapest-first walk closes a node at its cheapest route, whatever its
    depth: with a depth of 2 it reaches b by the two cheap edges and stops there, so
    that t, two edges away, is not found; the breadth-first walk finds it. *)
Lemma cheap_route_uses_up_depth :
  (read_hits (λ h, (hit_node h).2) (find_paths get_detour (edge_mgr detour) 20 N b#("s") (via_spec 2 true false false))
     = Ok (Some [b#("a"); b#("b")])) ∧
  (read_hits (λ h, (hit_node h).2) (find_paths get_detour (edge_mgr detour) 20 N b#("s") (via_spec 2 false false false))
     = Ok (Some [b#("a"); b#("b"); b#("t")])).
Proof. split; vm_compute; reflexivity. Qed.

(** Asked for the edges but not for the path, the walk keeps no parents: a hit two
    hops away carries one edge. *)
Lemma via_without_path :
  let vias path := read_hits (λ h, (hit_depth h, hit_via h))
    (find_paths get_detour (edge_mgr detour) 20 N b#("s") (via_spec 2 false path true)) in
  vias true = Ok (Some [(1%nat, [Some b#("e/1")]); (1%nat, [Some b#("e/3")]); (2%nat, [Some b#("e/3"); Some b#("e/4")])]) ∧
  vias false = Ok (Some [(1%nat, [Some b#("e/1")]); (1%nat, [Some b#("e/3")]); (2%nat, [Some b#("e/4")])]).
Proof. split; vm_compute; reflexivity. Qed.

(** A reference to a document that does not exist counts in the out-degree; nothing
    is counted in for it. *)
Lemma dangling_out_degree :
  let docs := [(N, b#("a"), ref_doc [(b#("x"), b#("gone"))])] in
  let g := build_adjacency (get_of docs) im_empty N [b#("a")] (out_spec 1 1 false) in
  graph_degree_centrality g.1 g.2 = [((N, b#("a")), 0%nat, 1%nat)].
Proof. vm_compute. reflexivity. Qed.

(** The memo is stamped with the version of the store, and the index worker does
    not change that: a graph built before the worker indexed an edge is served after. *)
Lemma memo_outlives_index :
  let ids := [b#("s"); b#("a"); b#("b"); b#("t")] in
  let spec := via_spec 1 false false false in
  let before := graph_adjacency get_detour (edge_mgr []) 7 ∅ N ids spec in
  let after := graph_adjacency get_detour (edge_mgr detour) 7 before.1 N ids spec in
  after.2 = before.2 ∧ after.2 ≠ build_adjacency get_detour (edge_mgr detour) N ids spec.
Proof. split; [vm_compute; reflexivity|]. intros E. apply (f_equal (λ r, r.2 !! (N, b#("s")))) in E. vm_compute in E. discriminate E. Qed.

(** The bound on the rows bounds the walk, before the other filters and the order:
    a query for one document that is reachable and passes the filter finds none. *)
Definition ranked : list (bytes * bytes * HakoDoc) :=
  [(N, b#("a"), ref_doc [(b#("x"), b#("b")); (b#("y"), b#("c"))]); (N, b#("b"), mkDoc [(b#("rank"), Int 2)] 1); (N, b#("c"), mkDoc [(b#("rank"), Int 1)] 1)].
Definition reach (q : Query) : Query :=
  let m := traverse_marker N b#("a") Outgoing None 1 None None in where_filter q (f_field m) (f_op m) (f_value m).
Definition run_traverse (q : Query) : res (option (list bytes)) :=
  read_hits fst (execute_traverse_query id (get_of ranked) im_empty 20 (plan q im_empty 3 2 true false)).
Lemma limit_before_filters :
  let q := where_filter (reach (query_new N)) b#("rank") OpEq (Int 1) in
  run_traverse q = Ok (Some [b#("c")]) ∧ run_traverse (limit q 1) = Ok (Some []).
Proof. split; vm_compute; reflexivity. Qed.
Lemma limit_before_order :
  let q := order_by (reach (query_new N)) b#("rank") true in
  run_traverse q = Ok (Some [b#("c"); b#("b")]) ∧ run_traverse (limit q 1) = Ok (Some [b#("b")]).
Proof. split; vm_compute; reflexivity. Qed.
