(* ===== verification/PlanCache.v ===== *)
(** * The plan cache (src/query/plan_cache.rs)

    Plans by a hash of the query, for a time.  [DefaultHasher] sees the concatenation
    of what is hashed into it: [hash_stream] is that byte string and [sip] the
    unspecified 64-bit function of it.  [debug] is the [Debug] text of a value.
    Times are nanoseconds of a monotonic clock. *)

From stdpp Require Import prelude list gmap strings.
From Stdlib Require Import ZArith Lia.
From S2P Require Import Prelude RustStd Error Value Filter Traverse Query TermIndex IndexManager Planner.

Local Open Scope Z_scope.
Local Open Scope hako_scope.

(** ** What is hashed *)

Section Stream.
Context (debug : Value → bytes).

(** [Hash] of strings, of words, of options. *)
Definition h_str (s : bytes) : bytes := s ++ [255].
Definition h_word (n : Z) : bytes := to_le 8 (as_u64 n).
Definition h_bool (b : bool) : bytes := [if b then 1 else 0].
Definition h_limit (o : option nat) : bytes := match o with Some n => h_word 1 ++ h_word (Z.of_nat n) | None => h_word 0 end.

(** [op as u8]. *)
Definition op_number (op : Operator) : Z :=
  match op with
  | OpEq => 0 | OpNe => 1 | OpGt => 2 | OpGte => 3 | OpLt => 4 | OpLte => 5 | OpMatch => 6 | OpMatchPrefix => 7
  | OpContains => 8 | OpStartsWith => 9 | OpIn => 10 | OpArrayContains => 11 | OpArrayContainsAny => 12
  | OpArrayAllEq => 13 | OpNotIn => 14 | OpNear => 15 | OpTraverse => 16
  end.

(** [hash_value]: no content of arrays, maps and binary values. *)
Definition hash_value (v : Value) : bytes :=
  match v with
  | Null => [0]
  | Bool b => 1 :: h_bool b
  | Int i => 2 :: h_word i
  | Float f => 3 :: h_word f
  | String s => 4 :: h_str s
  | Binary b => 5 :: h_word (zlen b)
  | Timestamp t => 6 :: h_word t
  | Reference c d => 7 :: h_str c ++ h_str d
  | BlobLink o l => 8 :: h_word o ++ to_le 4 (as_u32 l)
  | Array _ => [9]
  | Map _ => [10]
  | ServerTimestamp => [11]
  end.
Definition entry_cmp (a b : bytes * bytes) : comparison := cmp_then (bytes_cmp a.1 b.1) (bytes_cmp a.2 b.2).
Definition hash_filter_value (op : Operator) (v : Value) : bytes :=
  match op, v with
  | OpNear, Binary b => 5 :: h_word (zlen b) ++ b
  | OpTraverse, Map pairs =>
      let entries := sort_by entry_cmp ((λ kv, (kv.1, debug kv.2)) <$> pairs) in
      12 :: h_word (zlen entries) ++ mjoin ((λ e, h_str e.1 ++ h_str e.2) <$> entries)
  | _, _ => hash_value v
  end.
Definition hash_filter (f : Filter) : bytes := h_str (f_field f) ++ op_number (f_op f) :: hash_filter_value (f_op f) (f_value f).
Definition hash_agg (a : AggregateOp) : bytes :=
  match a with
  | ACount => [0]
  | ASum f => 1 :: h_str f
  | AAvg f => 2 :: h_str f
  | AMin f => 3 :: h_str f
  | AMax f => 4 :: h_str f
  end.
Definition hash_bound (tag : Z) (b : option (list Value)) : bytes :=
  match b with Some vs => tag :: mjoin (hash_value <$> vs) | None => [] end.

(** [hash_query], before the hasher finishes. *)
Definition hash_stream (q : Query) : bytes :=
  h_str (q_collection q) ++
  mjoin (hash_filter <$> q_filters q) ++
  mjoin ((λ g, mjoin (hash_filter <$> g)) <$> q_or_groups q) ++
  mjoin ((λ c, h_str (em_field c) ++ mjoin (hash_filter <$> em_filters c)) <$> q_elem_match q) ++
  mjoin ((λ o, h_str (o_field o) ++ h_bool (ascending o)) <$> q_order_by q) ++
  h_limit (q_limit q) ++ h_limit (q_offset q) ++ h_bool (q_defer_blobs q) ++ h_bool (q_raw q) ++
  mjoin (h_str <$> q_projection q) ++ mjoin (hash_agg <$> q_aggregations q) ++
  hash_bound 0 (q_start_at q) ++ hash_bound 1 (q_start_after q) ++ hash_bound 2 (q_end_at q) ++ hash_bound 3 (q_end_before q).
End Stream.

(** ** The cache *)

Record PlanCache := mkPlans { pc_map : gmap Z (QueryPlan * Z); pc_ttl : Z }.
Definition plans_new (ttl : Z) : PlanCache := mkPlans ∅ ttl.
(** [PlanCache::default]: one second. *)
Definition plans_default : PlanCache := plans_new 1000000000.
Definition invalidate (c : PlanCache) : PlanCache := mkPlans ∅ (pc_ttl c).

Section Cache.
Context (debug : Value → bytes) (sip : bytes → Z).
Definition hash_query (q : Query) : Z := sip (hash_stream debug q).

(** [get_or_compute]; a plan that is not ready bypasses the cache. *)
Definition fresh_entry (c : PlanCache) (key now : Z) : option QueryPlan :=
  '(p, ts) ← pc_map c !! key; if Z.max 0 (now - ts) <? pc_ttl c then Some p else None.
Definition get_or_compute (now : Z) (q : Query) (m : IndexManager) (collection_rows worker_count : nat) (index_ready vector_ready : bool)
  (c : PlanCache) : PlanCache * QueryPlan :=
  if negb index_ready then (c, plan q m collection_rows worker_count false vector_ready)
  else
    let key := hash_query q in
    match fresh_entry c key now with
    | Some p => (c, p)
    | None =>
        let p := plan q m collection_rows worker_count index_ready true in
        (mkPlans (<[key := (p, now)]> (pc_map c)) (pc_ttl c), p)
    end.

(** ** Transparency *)

(** Every entry is the plan of a query from [issued] under these statistics. *)
Definition cache_of (issued : list Query) (m : IndexManager) (rows workers : nat) (c : PlanCache) : Prop :=
  ∀ key p ts, pc_map c !! key = Some (p, ts) → ∃ q, q ∈ issued ∧ hash_query q = key ∧ p = plan q m rows workers true true.

Lemma cache_of_invalidate issued m rows workers c : cache_of issued m rows workers (invalidate c).
Proof using Type. intros key p ts Hk. unfold invalidate in Hk. cbn in Hk. by rewrite lookup_empty in Hk. Qed.
Lemma cache_of_mono issued issued' m rows workers c : issued ⊆ issued' → cache_of issued m rows workers c → cache_of issued' m rows workers c.
Proof using Type. intros Hs Hc key p ts Hk. destruct (Hc key p ts Hk) as (q & Hq & ? & ?). exists q. split_and!; [by apply Hs|done|done]. Qed.

Lemma get_or_compute_keeps issued now q m rows workers ready vready c :
  q ∈ issued → cache_of issued m rows workers c → cache_of issued m rows workers (get_or_compute now q m rows workers ready vready c).1.
Proof using Type.
  intros Hq Hc. unfold get_or_compute. destruct ready; cbn [negb]; [|done]. destruct (fresh_entry _ _ _) as [p|]; [done|].
  cbn [fst]. intros key p ts. cbn. destruct (decide (key = hash_query q)) as [->|Hne].
  - rewrite lookup_insert_eq. intros [= <- <-]. by exists q.
  - rewrite lookup_insert_ne by done. apply Hc.
Qed.

(** The planner asks whether the vectors are ready only when the indexes are not. *)
Lemma plan_ready_vector q m rows workers v : plan q m rows workers true v = plan q m rows workers true true.
Proof using Type. done. Qed.

Lemma get_or_compute_plan issued now q m rows workers ready vready c :
  (∀ q1 q2, q1 ∈ issued → q2 ∈ issued → hash_query q1 = hash_query q2 → q1 = q2) →
  q ∈ issued → cache_of issued m rows workers c →
  (get_or_compute now q m rows workers ready vready c).2 = plan q m rows workers ready vready.
Proof using Type.
  intros Hinj Hq Hc. unfold get_or_compute. destruct ready; cbn [negb]; [|done].
  destruct (fresh_entry c (hash_query q) now) as [p|] eqn:E; [|done]. cbn [snd]. unfold fresh_entry in E.
  destruct (pc_map c !! hash_query q) as [[p' ts]|] eqn:Hk; [|done]. cbn in E. case_match; [|done]. injection E as ->.
  destruct (Hc _ _ _ Hk) as (q' & Hq' & Hh & ->). by rewrite (Hinj q' q Hq' Hq Hh).
Qed.

(** Calls of the cache one after the other. *)
Fixpoint run_plans (m : IndexManager) (rows workers : nat) (calls : list (Z * Query * bool * bool)) (c : PlanCache) : PlanCache * list QueryPlan :=
  match calls with
  | [] => (c, [])
  | (now, q, ready, vready) :: calls =>
      let '(c, p) := get_or_compute now q m rows workers ready vready c in
      let '(c, ps) := run_plans m rows workers calls c in
      (c, p :: ps)
  end.
Lemma run_plans_plan issued m rows workers calls c :
  (∀ q1 q2, q1 ∈ issued → q2 ∈ issued → hash_query q1 = hash_query q2 → q1 = q2) →
  (∀ x, x ∈ calls → x.1.1.2 ∈ issued) → cache_of issued m rows workers c →
  (run_plans m rows workers calls c).2 = (λ '(now, q, ready, vready), plan q m rows workers ready vready) <$> calls.
Proof using Type.
  intros Hinj. revert c. induction calls as [|[[[now q] ready] vready] calls IH]; intros c Hin Hc; [done|]. cbn [run_plans].
  assert (q ∈ issued) as Hq by (apply (Hin (now, q, ready, vready)); left).
  pose proof (get_or_compute_plan issued now q m rows workers ready vready c Hinj Hq Hc) as Hp.
  pose proof (get_or_compute_keeps issued now q m rows workers ready vready c Hq Hc) as Hk.
  destruct (get_or_compute now q m rows workers ready vready c) as [c' p]. cbn [fst snd] in *. subst p.
  specialize (IH c' (λ x Hx, Hin x (list_elem_of_further _ _ _ Hx)) Hk). destruct (run_plans m rows workers calls c') as [c'' ps].
  cbn [snd] in *. by rewrite IH.
Qed.
End Cache.

(** C37: The cache is transparent: after an invalidation, as long as indexes and
    statistics stay as they are and the hash tells the queries apart, every call
    returns the plan that the planner makes for its query, whatever was asked
    before, whenever and in whatever state of readiness. *)
Theorem plan_cache_transparent debug sip m rows workers calls c :
  (∀ q1 q2, q1 ∈ (λ x, x.1.1.2) <$> calls → q2 ∈ (λ x, x.1.1.2) <$> calls → hash_query debug sip q1 = hash_query debug sip q2 → q1 = q2) →
  (run_plans debug sip m rows workers calls (invalidate c)).2 = (λ '(now, q, ready, vready), plan q m rows workers ready vready) <$> calls.
Proof.
  intros Hinj. apply (run_plans_plan debug sip ((λ x, x.1.1.2) <$> calls)); [done| |apply cache_of_invalidate].
  intros x Hx. apply list_elem_of_fmap. by exists x.
Qed.

Lemma plan_cache_transparent_witness :
  let q1 := where_eq (query_new b#("c")) b#("a") (Int 1) in
  let q2 := where_eq (query_new b#("c")) b#("a") (Int 2) in
  let calls := [(0, q1, true, true); (5, q2, true, true); (9, q1, true, false); (10 ^ 10, q2, false, false)] in
  (run_plans (λ _, []) of_le im_empty 10 2 calls (invalidate plans_default)).2
    = (λ '(now, q, ready, vready), plan q im_empty 10 2 ready vready) <$> calls.
Proof.
  cbv zeta. apply plan_cache_transparent. intros p q. cbn [fmap list_fmap fst snd].
  rewrite !elem_of_cons, !elem_of_nil. intros Hp Hq. destruct_or! Hp; destruct_or! Hq; try done; subst; intros E; try reflexivity;
    exfalso; vm_compute in E; discriminate E.
Defined.

(** ** What the hash does not tell apart *)

Definition with_groups (q : Query) (fs : list Filter) (gs : list (list Filter)) : Query :=
  mkQuery (q_collection q) fs gs (q_elem_match q) (q_order_by q) (q_limit q) (q_offset q) (q_projection q) (q_aggregations q)
    (q_start_at q) (q_start_after q) (q_end_at q) (q_end_before q) (q_defer_blobs q) (q_raw q).

(** Conditions that must all hold and the same conditions of which one must hold
    have the same key. *)
Lemma and_or_share_key debug sip q fs :
  hash_query debug sip (with_groups q fs []) = hash_query debug sip (with_groups q [] ((λ f, [f]) <$> fs)).
Proof.
  unfold hash_query. f_equal. unfold hash_stream. cbn [q_collection q_filters q_or_groups q_elem_match q_order_by q_limit q_offset with_groups
    q_projection q_aggregations q_start_at q_start_after q_end_at q_end_before q_defer_blobs q_raw fmap list_fmap mjoin list_join app].
  f_equal. f_equal. rewrite <-list_fmap_compose. f_equal. apply list_fmap_ext. intros i f _. cbn. by rewrite app_nil_r.
Qed.

(** The elements of a list operand are not hashed. *)
Lemma in_lists_share_key debug sip q field xs ys :
  hash_query debug sip (where_filter q field OpIn (Array xs)) = hash_query debug sip (where_filter q field OpIn (Array ys)).
Proof.
  unfold hash_query. f_equal. unfold hash_stream. cbn [q_collection q_filters q_or_groups q_elem_match q_order_by q_limit q_offset where_filter
    q_projection q_aggregations q_start_at q_start_after q_end_at q_end_before q_defer_blobs q_raw].
  by rewrite !fmap_app.
Qed.

(** Within the time to live a query is answered with the plan, and so with the
    conditions, of one that shares its key. *)
Lemma shared_key_serves_plan debug sip now q1 q2 m rows workers c :
  hash_query debug sip q1 = hash_query debug sip q2 → fresh_entry c (hash_query debug sip q1) now = None → 0 < pc_ttl c →
  let '(c, p) := get_or_compute debug sip now q1 m rows workers true true c in
  (get_or_compute debug sip now q2 m rows workers true true c).2 = p.
Proof.
  intros Hk Hf Ht. unfold get_or_compute at 1. cbn [negb]. rewrite Hf. unfold get_or_compute. cbn [negb]. rewrite <-Hk.
  unfold fresh_entry. cbn. rewrite lookup_insert_eq. cbn. rewrite Z.sub_diag. change (Z.max 0 0) with 0. by rewrite (proj2 (Z.ltb_lt 0 (pc_ttl c)) Ht).
Qed.
Lemma or_query_runs_as_and :
  let f := mkFilter b#("a") OpEq (Int 1) in let g := mkFilter b#("b") OpEq (Int 2) in
  let all := with_groups (query_new b#("c")) [f; g] [] in
  let any := with_groups (query_new b#("c")) [] [[f]; [g]] in
  let '(c, _) := get_or_compute (λ _, []) of_le 0 all im_empty 10 2 true true plans_default in
  let p := (get_or_compute (λ _, []) of_le 1 any im_empty 10 2 true true c).2 in
  p_filters p = [f; g] ∧ or_groups p = [].
Proof. vm_compute. done. Qed.
