(* ===== verification/Pipeline.v ===== *)
(** * Aggregation pipelines (src/query/pipeline.rs)

    Stages over rows in memory: projection, order, page, unwinding of arrays, groups
    with accumulators.  The [BTreeMap] of the groups is a list in the order of its
    keys.  [debug] is the [Debug] text of a value, which names a group. *)

From stdpp Require Import prelude list gmap strings.
From Stdlib Require Import ZArith Lia Sorted.
From S2P Require Import Prelude RustStd Error Value Doc DocAccess Query SortFacts Executor ExecutorFacts.

Local Open Scope Z_scope.
Local Open Scope hako_scope.

(** ** Data *)

Inductive Accum := Count | Sum (field : bytes) | Min (field : bytes) | Max (field : bytes) | Avg (field : bytes).
Record AccumSpec := mkAccum { out : bytes; op : Accum }.
Inductive Stage :=
| SMatch (q : Query)
| Project (fields : list bytes)
| Sort (field : bytes) (asc : bool)
| Limit (n : nat)
| Offset (n : nat)
| Unwind (field : bytes)
| Group (key : option bytes) (accums : list AccumSpec).
Record Pipeline := mkPipe { pl_collection : bytes; stages : list Stage }.

(** [Pipeline::new] and the fluent methods. *)
Definition pipeline_new (c : bytes) : Pipeline := mkPipe c [].
Definition stage (p : Pipeline) (s : Stage) : Pipeline := mkPipe (pl_collection p) (stages p ++ [s]).

(** ** Accumulators *)

Record AccState := mkAcc {
  rows : Z;
  numeric : Z;
  sum_f : Z;
  sum_i : Z;
  all_int : bool;
  acc_min : option Value;
  acc_max : option Value }.
Definition acc_new : AccState := mkAcc 0 0 0 0 true None None.

(** [i64::saturating_add]. *)
Definition sat_add (a b : Z) : Z := Z.max (- 2 ^ 63) (Z.min (2 ^ 63 - 1) (a + b)).
Definition keep_min (m : option Value) (v : Value) : option Value :=
  match m with Some m' => if bool_decide (value_cmp v m' = Lt) then Some v else m | None => Some v end.
Definition keep_max (m : option Value) (v : Value) : option Value :=
  match m with Some m' => if bool_decide (value_cmp v m' = Gt) then Some v else m | None => Some v end.
Definition push_number (v : Value) (s : AccState) : AccState :=
  match v with
  | Int i => mkAcc (rows s) (numeric s + 1) (f64_add (sum_f s) (i64_to_f64 i)) (sat_add (sum_i s) i) (all_int s) (acc_min s) (acc_max s)
  | Float f => mkAcc (rows s) (numeric s + 1) (f64_add (sum_f s) f) (sum_i s) false (acc_min s) (acc_max s)
  | _ => s
  end.
Definition with_min (m : option Value) (s : AccState) : AccState :=
  mkAcc (rows s) (numeric s) (sum_f s) (sum_i s) (all_int s) m (acc_max s).
Definition with_max (m : option Value) (s : AccState) : AccState :=
  mkAcc (rows s) (numeric s) (sum_f s) (sum_i s) (all_int s) (acc_min s) m.

(** [AccState::push], [AccState::value]. *)
Definition acc_push (a : Accum) (doc : HakoDoc) (s : AccState) : AccState :=
  let s := mkAcc (rows s + 1) (numeric s) (sum_f s) (sum_i s) (all_int s) (acc_min s) (acc_max s) in
  match a with
  | Count => s
  | Sum f | Avg f => match get_path doc f with Some v => push_number v s | None => s end
  | Min f => match get_path doc f with Some v => with_min (keep_min (acc_min s) v) s | None => s end
  | Max f => match get_path doc f with Some v => with_max (keep_max (acc_max s) v) s | None => s end
  end.
Definition acc_value (a : Accum) (s : AccState) : Value :=
  match a with
  | Count => Int (as_i64 (rows s))
  | Sum _ => if numeric s =? 0 then Int 0 else if all_int s then Int (sum_i s) else Float (sum_f s)
  | Avg _ => if numeric s =? 0 then Null else Float (f64_div (sum_f s) (u64_to_f64 (numeric s)))
  | Min _ => default Null (acc_min s)
  | Max _ => default Null (acc_max s)
  end.

(** ** [validate] *)

Definition bad_path (f : bytes) : bool := existsb (λ s, bool_decide (s = [])) (split_dot f).
Definition validate_stage (s : Stage) : res unit :=
  match s with
  | Project fields => if existsb (λ f, bool_decide (f = []) || bad_path f) fields then Err (InvalidInput "pipeline project: invalid field path") else Ok tt
  | Unwind f => if has_dot f then Err (InvalidInput "pipeline unwind: nested path is not supported yet (F6)") else Ok tt
  | Group (Some k) _ => if bad_path k then Err (InvalidInput "pipeline group: invalid key path") else Ok tt
  | _ => Ok tt
  end.
Fixpoint validate_stages (l : list Stage) : res unit :=
  match l with [] => Ok tt | s :: l => _ ← validate_stage s; validate_stages l end.
Definition pipeline_validate (p : Pipeline) : res unit := validate_stages (stages p).

(** ** [run_stages] *)

Abbreviation Row := (bytes * HakoDoc)%type.
Definition sort_key (row : Row) (field : bytes) : option Value :=
  if bytes_eqb field b#("id") then Some (String row.1)
  else if bytes_eqb field b#("_time") then Some (Int (_time row.2))
  else get_path row.2 field.
Definition pipe_cmp (field : bytes) (asc : bool) (a b : Row) : comparison :=
  let c := option_cmp value_cmp (sort_key a field) (sort_key b field) in if asc then c else CompOpp c.
Definition unwind_row (field : bytes) (r : Row) : list Row :=
  match doc_get r.2 field with
  | Some (Array items) => (λ item, (r.1, doc_insert r.2 field item)) <$> items
  | _ => []
  end.

(** The groups, by key. *)
Abbreviation Groups := (list (option Value * list AccState)).
Abbreviation group_cmp := (option_cmp value_cmp).
Definition group_key (key : option bytes) (doc : HakoDoc) : option Value := path ← key; get_path doc path.
Definition push_all (accums : list AccumSpec) (doc : HakoDoc) (states : list AccState) : list AccState :=
  zip_with (λ s a, acc_push (op a) doc s) states accums.
Fixpoint group_push (accums : list AccumSpec) (k : option Value) (doc : HakoDoc) (g : Groups) : Groups :=
  let start := push_all accums doc (replicate (length accums) acc_new) in
  match g with
  | [] => [(k, start)]
  | (k', states) :: g' =>
      match group_cmp k k' with
      | Lt => (k, start) :: g
      | Eq => (k', push_all accums doc states) :: g'
      | Gt => (k', states) :: group_push accums k doc g'
      end
  end.
Definition groups_of (key : option bytes) (accums : list AccumSpec) (rs : list Row) : Groups :=
  foldl (λ g r, group_push accums (group_key key r.2) r.2 g) [] rs.

Section Stages.
Context (debug : Value → bytes).
Definition group_id (v : Value) : bytes := match v with String s => s | other => debug other end.
(** The last segment of a path. *)
Definition last_segment (path : bytes) : bytes := default path (last (split_dot path)).
Definition named_doc (key : option bytes) (k : option Value) : HakoDoc :=
  match last_segment <$> key with Some name => doc_insert (mkDoc [] 0) name (default Null k) | None => mkDoc [] 0 end.
Definition group_row (key : option bytes) (accums : list AccumSpec) (g : option Value * list AccState) : Row :=
  (group_id (default (String b#("$all")) g.1),
   foldl (λ d sa, doc_insert d (out sa.2) (acc_value (op sa.2) sa.1)) (named_doc key g.1) (zip g.2 accums)).

Definition run_stage (rs : list Row) (s : Stage) : res (list Row) :=
  match s with
  | SMatch _ => Err (InvalidInput "pipeline: Match must run through the engine (use Pipeline::match_query)")
  | Project fs => Ok ((λ r, (r.1, mkDoc (project_fields r.2 fs) (_time r.2))) <$> rs)
  | Sort field asc => Ok (sort_by (pipe_cmp field asc) rs)
  | Limit n => Ok (take n rs)
  | Offset n => Ok (drop n rs)
  | Unwind field => Ok (rs ≫= unwind_row field)
  | Group key accums => Ok (group_row key accums <$> groups_of key accums rs)
  end.
Fixpoint run_stages (rs : list Row) (l : list Stage) : res (list Row) :=
  match l with [] => Ok rs | s :: l => rs ← run_stage rs s; run_stages rs l end.
End Stages.

(** ** Groups of a pipeline against a reference

    The groups of a stage are the classes of rows with equal keys, in the order of
    the keys, and their accumulators are what the reference aggregates make of all
    the documents of the class. *)

(** ** Reference aggregates *)

Inductive Number := NInt (i : Z) | NFloat (f : Z).
Definition number_of (v : Value) : option Number := match v with Int i => Some (NInt i) | Float f => Some (NFloat f) | _ => None end.
Definition number_f64 (n : Number) : Z := match n with NInt i => i64_to_f64 i | NFloat f => f end.
Definition number_int (n : Number) : option Z := match n with NInt i => Some i | NFloat _ => None end.
Definition values_at (f : bytes) (docs : list HakoDoc) : list Value := omap (λ d, get_path d f) docs.
Definition numbers_at (f : bytes) (docs : list HakoDoc) : list Number := omap number_of (values_at f docs).
Definition float_sum (ns : list Number) : Z := foldl f64_add 0 (number_f64 <$> ns).
(** The integers, when all numbers are integers. *)
Definition ref_sum (ns : list Number) : Value :=
  match ns with
  | [] => Int 0
  | _ => match mapM number_int ns with Some zs => Int (foldl sat_add 0 zs) | None => Float (float_sum ns) end
  end.
Definition ref_accum (a : Accum) (docs : list HakoDoc) : Value :=
  match a with
  | Count => Int (zlen docs)
  | Sum f => ref_sum (numbers_at f docs)
  | Avg f => match numbers_at f docs with [] => Null | ns => Float (f64_div (float_sum ns) (u64_to_f64 (zlen ns))) end
  | Min f => default Null (head (sort_by value_cmp (values_at f docs)))
  | Max f => default Null (head (sort_by (λ a b, CompOpp (value_cmp a b)) (values_at f docs)))
  end.

(** ** Accumulators *)

Definition push_docs (a : Accum) (docs : list HakoDoc) (s : AccState) : AccState := foldl (λ s d, acc_push a d s) s docs.

Lemma push_rows a docs s : rows (push_docs a docs s) = rows s + zlen docs.
Proof.
  revert s. induction docs as [|d docs IH]; intros s; [cbn; unfold zlen; cbn; lia|]. cbn [push_docs foldl] in *.
  fold (push_docs a docs (acc_push a d s)). rewrite IH, zlen_cons.
  assert (rows (acc_push a d s) = rows s + 1) as ->; [|lia].
  destruct a; cbn; [done|..]; destruct (get_path d field) as [v|]; try done; by destruct v.
Qed.

(** What a sum has seen. *)
Record summed (ns : list Number) (s s' : AccState) : Prop := {
  su_numeric : numeric s' = numeric s + zlen ns;
  su_float : sum_f s' = foldl f64_add (sum_f s) (number_f64 <$> ns);
  su_int : all_int s' = all_int s && bool_decide (is_Some (mapM number_int ns));
  su_sum zs : mapM number_int ns = Some zs → sum_i s' = foldl sat_add (sum_i s) zs }.

Lemma mapM_cons {A B} (f : A → option B) x l : mapM f (x :: l) = y ← f x; ys ← mapM f l; Some (y :: ys).
Proof. done. Qed.

Lemma summed_push f docs s a : a = Sum f ∨ a = Avg f → summed (numbers_at f docs) s (push_docs a docs s).
Proof.
  intros Ha. revert s. induction docs as [|d docs IH]; intros s.
  { split; cbn; unfold zlen; cbn; [lia|done|by rewrite andb_true_r|]. by intros zs [= <-]. }
  cbn [push_docs foldl]. fold (push_docs a docs (acc_push a d s)). specialize (IH (acc_push a d s)).
  assert (numbers_at f (d :: docs) = match get_path d f with
    | Some v => match number_of v with Some n => n :: numbers_at f docs | None => numbers_at f docs end | None => numbers_at f docs end) as En.
  { unfold numbers_at, values_at. cbn. destruct (get_path d f) as [v|]; [|done]. cbn. by destruct (number_of v). }
  assert (acc_push a d s = match get_path d f with
    | Some v => push_number v (mkAcc (rows s + 1) (numeric s) (sum_f s) (sum_i s) (all_int s) (acc_min s) (acc_max s))
    | None => mkAcc (rows s + 1) (numeric s) (sum_f s) (sum_i s) (all_int s) (acc_min s) (acc_max s) end) as Ep by (by destruct Ha as [-> | ->]).
  rewrite En. destruct IH as [H1 H2 H3 H4]. revert H1 H2 H3 H4. generalize (push_docs a docs (acc_push a d s)). intros s'. rewrite Ep.
  destruct (get_path d f) as [v|]; [destruct v|]; cbn [number_of push_number numeric sum_f sum_i all_int rows acc_min acc_max]; intros H1 H2 H3 H4;
    try (by split).
  - split; [rewrite zlen_cons; lia|by rewrite fmap_cons|rewrite H3, mapM_cons; cbn|].
    + by destruct (mapM number_int _).
    + rewrite mapM_cons. cbn. destruct (mapM number_int (numbers_at f docs)) as [zs|]; [|done]. intros ? [= <-]. by apply H4.
  - split; [rewrite zlen_cons; lia|by rewrite fmap_cons|rewrite H3, mapM_cons; cbn|by rewrite mapM_cons].
    by rewrite andb_false_r.
Qed.

(** The first least element, kept along the way or taken from the sorted list. *)
Section Best.
Context (cmp : Value → Value → comparison) (P : Value → Prop).
Context (Hanti : ∀ a b, P a → P b → cmp b a = CompOpp (cmp a b)).
Context (Htrans : ∀ a b c, P a → P b → P c → trans3 (cmp a b) (cmp b c) (cmp a c)).
Definition keep (m : option Value) (v : Value) : option Value :=
  match m with Some m' => match cmp v m' with Lt => Some v | _ => m end | None => Some v end.
Definition first_of (a : Value) (m : option Value) : option Value :=
  match m with Some m' => match cmp a m' with Gt => Some m' | _ => Some a end | None => Some a end.
Lemma head_sort_cons x l : head (sort_by cmp (x :: l)) = first_of x (head (sort_by cmp l)).
Proof using Type.
  cbn [sort_by foldr]. fold (sort_by cmp l). destruct (sort_by cmp l) as [|y k]; [done|]. cbn. by destruct (cmp x y).
Qed.
Lemma head_sort_in l m : head (sort_by cmp l) = Some m → m ∈ l.
Proof using Type. intros Hm. rewrite <-(sort_by_perm cmp l). destruct (sort_by cmp l) as [|x k]; [done|]. injection Hm as ->. by left. Qed.
Lemma keep_first l a : P a → Forall P l → foldl keep (Some a) l = first_of a (head (sort_by cmp l)).
Proof using Hanti Htrans.
  revert a. induction l as [|x l IH]; intros a Ha Hl; [done|]. apply Forall_cons in Hl as [Hx Hl]. rewrite head_sort_cons. cbn [foldl].
  assert (keep (Some a) x = Some (match cmp x a with Lt => x | _ => a end)) as -> by (cbn; by destruct (cmp x a)).
  rewrite IH by (try destruct (cmp x a); done). pose proof (Hanti x a Hx Ha) as Hax.
  destruct (head (sort_by cmp l)) as [m|] eqn:Em; [|cbn [first_of]; rewrite Hax; by destruct (cmp x a)].
  assert (P m) as Hm by (apply (proj1 (Forall_forall _ _) Hl); by apply head_sort_in in Em).
  pose proof (Htrans a x m Ha Hx Hm) as H1. pose proof (Htrans x a m Hx Ha Hm) as H2. rewrite Hax in H1. unfold trans3 in H1, H2.
  unfold first_of. destruct (cmp x a) eqn:Exa, (cmp x m) eqn:Exm, (cmp a m) eqn:Eam; cbn in H1, H2;
    rewrite ?Exa, ?Exm, ?Eam, ?Hax; cbn; try done; congruence.
Qed.
Lemma keep_all l : Forall P l → foldl keep None l = head (sort_by cmp l).
Proof using Hanti Htrans.
  destruct l as [|x l]; [done|]. intros [Hx Hl]%Forall_cons. rewrite head_sort_cons. cbn [foldl keep]. by apply keep_first.
Qed.
End Best.

Lemma foldl_ext {A B} (f g : A → B → A) l a : (∀ a b, f a b = g a b) → foldl f a l = foldl g a l.
Proof. intros Hf. revert a. induction l as [|x l IH]; intros a; [done|]. cbn. by rewrite Hf, IH. Qed.

Lemma min_push f docs s : acc_min (push_docs (Min f) docs s) = foldl keep_min (acc_min s) (values_at f docs).
Proof.
  revert s. induction docs as [|d docs IH]; intros s; [done|]. cbn [push_docs foldl]. fold (push_docs (Min f) docs (acc_push (Min f) d s)). rewrite IH.
  unfold values_at. cbn. by destruct (get_path d f).
Qed.
Lemma max_push f docs s : acc_max (push_docs (Max f) docs s) = foldl keep_max (acc_max s) (values_at f docs).
Proof.
  revert s. induction docs as [|d docs IH]; intros s; [done|]. cbn [push_docs foldl]. fold (push_docs (Max f) docs (acc_push (Max f) d s)). rewrite IH.
  unfold values_at. cbn. by destruct (get_path d f).
Qed.

(** A document whose extremal fields the value order compares consistently. *)
Definition acc_ok (a : Accum) (d : HakoDoc) : Prop :=
  match a with
  | Min f | Max f => match get_path d f with Some v => comparable v = true | None => True end
  | _ => True
  end.
Lemma values_comparable f docs :
  Forall (λ d, match get_path d f with Some v => comparable v = true | None => True end) docs → Forall (λ v, comparable v = true) (values_at f docs).
Proof.
  intros Hd. apply Forall_forall. intros v (d & Hin & Hv)%list_elem_of_omap. pose proof (proj1 (Forall_forall _ _) Hd d Hin) as Hx. cbn in Hx. by rewrite Hv in Hx.
Qed.

Lemma CompOpp_trans3 a b c : trans3 a b c → trans3 (CompOpp a) (CompOpp b) (CompOpp c).
Proof. unfold trans3. destruct a, b, c; done. Qed.

Lemma acc_value_ref a docs : Forall (acc_ok a) docs → zlen docs < 2 ^ 63 → acc_value a (push_docs a docs acc_new) = ref_accum a docs.
Proof.
  intros Hok Hlen. destruct a as [|f|f|f|f]; cbn [acc_value ref_accum acc_ok] in *.
  - rewrite push_rows. cbn [acc_new rows]. f_equal. rewrite Z.add_0_l. apply as_i64_id. unfold is_i64. pose proof (zlen_nonneg docs). lia.
  - destruct (summed_push f docs acc_new (Sum f) (or_introl eq_refl)) as [H1 H2 H3 H4]. rewrite H1, H2, H3. cbn [acc_new numeric sum_f sum_i all_int] in *.
    unfold ref_sum, float_sum. destruct (numbers_at f docs) as [|n ns] eqn:En; [done|].
    destruct (Z.eqb_spec (0 + zlen (n :: ns)) 0) as [Hz|_]; [rewrite zlen_cons in Hz; pose proof (zlen_nonneg ns); lia|].
    destruct (mapM number_int (n :: ns)) as [zs|]; [|done]. cbn. by rewrite (H4 zs).
  - by rewrite min_push, (foldl_ext keep_min (keep value_cmp)), (keep_all _ (λ v, comparable v = true)) by
      (eauto using value_cmp_antisym, value_cmp_trans3, values_comparable; intros [m|] v; cbn; try done; by destruct (value_cmp v m)).
  - rewrite max_push, (foldl_ext keep_max (keep (λ a b, CompOpp (value_cmp a b)))), (keep_all _ (λ v, comparable v = true)).
    + done.
    + intros a b _ _. by rewrite (value_cmp_antisym a b).
    + intros a b c Ha Hb Hc. apply CompOpp_trans3. by apply value_cmp_trans3.
    + by apply values_comparable.
    + intros [m|] v; cbn; [by destruct (value_cmp v m)|done].
  - destruct (summed_push f docs acc_new (Avg f) (or_intror eq_refl)) as [H1 H2 _ _]. rewrite H1, H2. cbn [acc_new numeric sum_f] in *.
    destruct (numbers_at f docs) as [|n ns] eqn:En; [done|].
    destruct (Z.eqb_spec (0 + zlen (n :: ns)) 0) as [Hz|_]; [rewrite zlen_cons in Hz; pose proof (zlen_nonneg ns); lia|done].
Qed.

(** ** Groups *)

Section Groups.
Context (key : option bytes) (accums : list AccumSpec).
Abbreviation gkey r := (group_key key (snd r)).
Definition key_ok (k : option Value) : Prop := match k with Some v => comparable v = true | None => True end.
Definition key_lt (a b : option Value) : Prop := group_cmp a b = Lt.
(** The documents of the rows with a key. *)
Definition same_key (k : option Value) (rs : list Row) : list HakoDoc := (List.filter (λ r, bool_decide (group_cmp (gkey r) k = Eq)) rs).*2.
Definition states_of (docs : list HakoDoc) : list AccState := (λ a, push_docs (op a) docs acc_new) <$> accums.

Lemma group_cmp_refl k : group_cmp k k = Eq.
Proof using Type. assert (group_cmp k k = CompOpp (group_cmp k k)) as Hk by (apply option_cmp_antisym, value_cmp_antisym). by destruct (group_cmp k k). Qed.
Lemma group_cmp_opp a b : group_cmp b a = CompOpp (group_cmp a b).
Proof using Type. apply option_cmp_antisym, value_cmp_antisym. Qed.
Lemma group_cmp_trans3 a b c : key_ok a → key_ok b → key_ok c → trans3 (group_cmp a b) (group_cmp b c) (group_cmp a c).
Proof using Type.
  destruct a, b, c; cbn; intros; try done; try (by destruct (value_cmp _ _)). by apply value_cmp_trans3.
Qed.

(** A key that is not above the first key of a sorted list is below the others. *)
Lemma key_below k k0 (g : Groups) :
  key_ok k → key_ok k0 → Forall (λ x, key_ok x.1) g → Forall (λ x, key_lt k0 x.1) g → group_cmp k k0 ≠ Gt →
  ∀ k' st', (k', st') ∈ g → group_cmp k k' = Lt.
Proof using Type.
  intros Hk Hk0 Hg Hall Hne k' st' Hx. pose proof (group_cmp_trans3 k k0 k' Hk Hk0 (proj1 (Forall_forall _ _) Hg _ Hx)) as Ht.
  pose proof (proj1 (Forall_forall _ _) Hall _ Hx) as Hlt. cbn in Hlt. unfold key_lt in Hlt. rewrite Hlt in Ht. by destruct (group_cmp k k0).
Qed.

Lemma group_push_spec k doc (g : Groups) :
  key_ok k → Forall (λ x, key_ok x.1) g → StronglySorted (λ a b, key_lt a.1 b.1) g →
  StronglySorted (λ a b, key_lt a.1 b.1) (group_push accums k doc g) ∧
  ∀ k' st', (k', st') ∈ group_push accums k doc g ↔
    (group_cmp k k' ≠ Eq ∧ (k', st') ∈ g) ∨ (group_cmp k k' = Eq ∧ ∃ st, (k', st) ∈ g ∧ st' = push_all accums doc st) ∨
    (k' = k ∧ st' = push_all accums doc (replicate (length accums) acc_new) ∧ ∀ x, x ∈ g → group_cmp k x.1 ≠ Eq).
Proof using Type.
  intros Hk. induction g as [|[k0 st0] g IH]; intros Hg Hs.
  { cbn. split; [repeat constructor|]. intros k' st'. rewrite list_elem_of_singleton. split.
    - intros [= -> ->]. right; right. split_and!; [done|done|]. intros x Hx. by apply elem_of_nil in Hx.
    - intros [[_ H]|[[_ (st & H & _)]|(-> & -> & _)]]; [by apply elem_of_nil in H..|done]. }
  apply Forall_cons in Hg as [Hk0 Hg]. cbn in Hk0. apply StronglySorted_inv in Hs as [Hs Hall].
  specialize (IH Hg Hs) as [IHs IHe]. cbn [group_push]. destruct (group_cmp k k0) eqn:E.
  - pose proof (key_below k k0 g Hk Hk0 Hg Hall ltac:(by rewrite E)) as Hlt.
    split; [by constructor|]. intros k' st'. repeat setoid_rewrite elem_of_cons. split.
    + intros [[= -> ->]|Hx]; [right; left; split; [done|]; exists st0; split; [by left|done]|]. left. split; [by rewrite (Hlt _ _ Hx)|by right].
    + intros [[Hne [[= -> ->]|Hx]]|[[He (st & [[= -> ->]|Hx] & ->)]|(-> & -> & Hx)]].
      * done. * by right. * by left. * by rewrite (Hlt _ _ Hx) in He. * exfalso. apply (Hx (k0, st0)); [by left|done].
  - pose proof (key_below k k0 g Hk Hk0 Hg Hall ltac:(by rewrite E)) as Hlt.
    split.
    { constructor; [by constructor|]. constructor; [done|]. apply Forall_forall. intros [k' st'] Hx. by apply (Hlt k' st'). }
    intros k' st'. repeat setoid_rewrite elem_of_cons. split.
    + intros [[= -> ->]|[[= -> ->]|Hx]].
      * right; right. split_and!; [done|done|]. intros [k1 st1] [[= -> ->]|Hx]; cbn; [by rewrite E|by rewrite (Hlt _ _ Hx)].
      * left. split; [by rewrite E|by left].
      * left. split; [by rewrite (Hlt _ _ Hx)|by right].
    + intros [[Hne Hx]|[[He (st & [[= -> ->]|Hx] & ->)]|(-> & -> & _)]]; [by right|congruence|by rewrite (Hlt _ _ Hx) in He|by left].
  - split.
    { constructor; [done|]. apply Forall_forall. intros [k' st'] Hx. apply IHe in Hx. cbn. destruct Hx as [[_ Hx]|[[_ (st & Hx & _)]|(-> & _ & _)]].
      - by apply (proj1 (Forall_forall _ _) Hall _ Hx).
      - by apply (proj1 (Forall_forall _ _) Hall _ Hx).
      - unfold key_lt. by rewrite (group_cmp_opp k k0), E. }
    intros k' st'. repeat setoid_rewrite elem_of_cons. rewrite IHe. split.
    + intros [[= -> ->]|[[Hne Hx]|[[He (st & Hx & ->)]|(-> & -> & Hx)]]].
      * left. split; [by rewrite E|by left]. * left. split; [done|by right]. * right; left. split; [done|]. exists st. split; [by right|done].
      * right; right. split_and!; [done|done|]. intros x [->|Hx']; [cbn; by rewrite E|by apply Hx].
    + intros [[Hne [[= -> ->]|Hx]]|[[He (st & [[= -> ->]|Hx] & ->)]|(-> & -> & Hx)]].
      * by left. * right; left. done. * congruence. * right; right; left. split; [done|]. by exists st.
      * right; right; right. split_and!; [done|done|]. intros x Hx'. apply Hx. by right.
Qed.

Record groups_inv (rs : list Row) (g : Groups) : Prop := {
  gi_sorted : StronglySorted (λ a b, key_lt a.1 b.1) g;
  gi_group k st : (k, st) ∈ g → (∃ r, r ∈ rs ∧ gkey r = k) ∧ st = states_of (same_key k rs);
  gi_row r : r ∈ rs → ∃ k st, (k, st) ∈ g ∧ group_cmp (gkey r) k = Eq }.

Lemma push_all_states doc docs : push_all accums doc (states_of docs) = states_of (docs ++ [doc]).
Proof using Type.
  unfold push_all, states_of. generalize accums. intros l. induction l as [|a l IH]; [done|]. cbn [fmap list_fmap zip_with]. rewrite IH. f_equal.
  unfold push_docs. by rewrite foldl_app.
Qed.
Lemma states_nil : replicate (length accums) acc_new = states_of [].
Proof using Type. unfold states_of, push_docs. generalize accums. intros l. induction l as [|a l IH]; [done|]. cbn. by rewrite IH. Qed.
Lemma same_key_snoc k rs r :
  same_key k (rs ++ [r]) = same_key k rs ++ (if bool_decide (group_cmp (gkey r) k = Eq) then [r.2] else []).
Proof using Type. unfold same_key. rewrite List.filter_app, fmap_app. cbn [List.filter]. by case_bool_decide. Qed.

Lemma same_key_none k rs : (∀ x, x ∈ rs → group_cmp (gkey x) k ≠ Eq) → same_key k rs = [].
Proof using Type.
  unfold same_key. induction rs as [|x rs IH]; intros Hx; [done|]. cbn [List.filter]. rewrite bool_decide_false by (apply Hx; by left).
  apply IH. intros y Hy. apply Hx. by right.
Qed.

Lemma groups_snoc rs r g :
  (∀ x, x ∈ rs ++ [r] → key_ok (gkey x)) → groups_inv rs g → groups_inv (rs ++ [r]) (group_push accums (gkey r) r.2 g).
Proof using Type.
  intros Hok [Hs Hg Hr]. assert (key_ok (gkey r)) as Hk by (apply Hok, elem_of_app; right; by left).
  assert (Forall (λ x, key_ok x.1) g) as Hgk.
  { apply Forall_forall. intros [k st] Hx. destruct (Hg k st Hx) as [(x & Hx' & <-) _]. apply Hok, elem_of_app. by left. }
  destruct (group_push_spec (gkey r) r.2 g Hk Hgk Hs) as [Hs' He]. split; [done| |].
  - intros k st [[Hne Hx]|[[Heq (st0 & Hx & ->)]|(-> & -> & Hno)]]%He; rewrite same_key_snoc.
    + rewrite bool_decide_false, app_nil_r by done. destruct (Hg k st Hx) as [(x & Hx' & Ek) ->]. split; [|done].
      exists x. split; [apply elem_of_app; by left|done].
    + rewrite bool_decide_true by done. destruct (Hg k st0 Hx) as [(x & Hx' & Ek) ->]. split; [exists x; split; [apply elem_of_app; by left|done]|].
      apply push_all_states.
    + rewrite bool_decide_true by apply group_cmp_refl. split; [exists r; split; [apply elem_of_app; right; by left|done]|].
      rewrite states_nil, push_all_states. f_equal. f_equal. symmetry. apply same_key_none. intros x Hx Exr.
      destruct (Hr x Hx) as (k & st & Hin & Ek). apply (Hno (k, st) Hin). cbn [fst].
      assert (key_ok (gkey x)) as Hxk by (apply Hok, elem_of_app; by left).
      pose proof (group_cmp_trans3 (gkey r) (gkey x) k Hk Hxk (proj1 (Forall_forall _ _) Hgk _ Hin)) as Ht.
      by rewrite (group_cmp_opp (gkey x) (gkey r)), Exr, Ek in Ht.
  - intros x [Hx| ->%list_elem_of_singleton]%elem_of_app.
    + destruct (Hr x Hx) as (k & st & Hin & Ek). destruct (decide (group_cmp (gkey r) k = Eq)) as [Er|Er].
      * exists k, (push_all accums r.2 st). split; [|done]. apply He. right; left. split; [done|]. by exists st.
      * exists k, st. split; [|done]. apply He. by left.
    + destruct (decide (Exists (λ x, group_cmp (gkey r) x.1 = Eq) g)) as [([k st] & Hin & Ek)%Exists_exists|Hno].
      * exists k, (push_all accums r.2 st). split; [|done]. apply He. right; left. split; [done|]. by exists st.
      * eexists (gkey r), _. split; [|apply group_cmp_refl]. apply He. right; right. split_and!; [done|done|].
        intros x Hx Ek. apply Hno, Exists_exists. by exists x.
Qed.

Lemma groups_of_inv rs : (∀ r, r ∈ rs → key_ok (gkey r)) → groups_inv rs (groups_of key accums rs).
Proof using Type.
  unfold groups_of. induction rs as [|r rs IH] using rev_ind; intros Hok.
  { split; [constructor| |]; [intros k st Hx|intros r Hx]; by apply elem_of_nil in Hx. }
  rewrite foldl_app. cbn [foldl]. apply groups_snoc; [done|]. apply IH. intros x Hx. apply Hok, elem_of_app. by left.
Qed.

(** ** The stage *)

(** The row of a group, from its documents. *)
Definition ref_group (debug : Value → bytes) (k : option Value) (docs : list HakoDoc) : Row :=
  (group_id debug (default (String b#("$all")) k), foldl (λ d a, doc_insert d (out a) (ref_accum (op a) docs)) (named_doc key k) accums).

Lemma group_row_ref debug k docs :
  Forall (λ d, Forall (λ a, acc_ok (op a) d) accums) docs → zlen docs < 2 ^ 63 →
  group_row debug key accums (k, states_of docs) = ref_group debug k docs.
Proof using Type.
  intros Hok Hlen. unfold group_row, ref_group. cbn [fst snd]. f_equal.
  assert (∀ l d0, Forall (λ a, Forall (acc_ok (op a)) docs) l →
    foldl (λ d sa, doc_insert d (out sa.2) (acc_value (op sa.2) sa.1)) d0 (zip ((λ a, push_docs (op a) docs acc_new) <$> l) l)
    = foldl (λ d a, doc_insert d (out a) (ref_accum (op a) docs)) d0 l) as Hf.
  { induction l as [|a l IH]; intros d0 Hl; [done|]. apply Forall_cons in Hl as [Ha Hl]. cbn. rewrite acc_value_ref by done. by apply IH. }
  apply Hf. apply Forall_forall. intros a Ha. apply Forall_forall. intros d Hd.
  pose proof (proj1 (Forall_forall _ _) Hok d Hd) as Hx. by apply (proj1 (Forall_forall _ _) Hx).
Qed.

Lemma same_key_in k rs d : d ∈ same_key k rs → ∃ r, r ∈ rs ∧ r.2 = d.
Proof using Type.
  unfold same_key. intros (r & -> & Hr)%list_elem_of_fmap. apply list_elem_of_In, filter_In in Hr as [Hr _]. exists r. split; [by apply list_elem_of_In|done].
Qed.
Lemma same_key_len k rs : zlen (same_key k rs) <= zlen rs.
Proof using Type. unfold same_key, zlen. rewrite length_fmap. pose proof (List.filter_length_le (λ r, bool_decide (group_cmp (gkey r) k = Eq)) rs). lia. Qed.
End Groups.

(** C21: A group stage partitions the rows by key: there is one row for every key that
    occurs, in the order of the keys, a row of the input counts for exactly the
    group of its key, and count, sum, average, least and greatest are those of all
    the documents of the group, with integers saturating, and floating-point as soon
    as one of the numbers is. *)
Theorem group_stage_exact debug key accums rs :
  (∀ r, r ∈ rs → key_ok (group_key key r.2)) → (∀ r a, r ∈ rs → a ∈ accums → acc_ok (op a) r.2) → zlen rs < 2 ^ 63 →
  ∃ ks, StronglySorted key_lt ks ∧
    (∀ r, r ∈ rs → ∃ k, k ∈ ks ∧ group_cmp (group_key key r.2) k = Eq) ∧ (∀ k, k ∈ ks → ∃ r, r ∈ rs ∧ group_key key r.2 = k) ∧
    run_stages debug rs [Group key accums] = Ok ((λ k, ref_group key accums debug k (same_key key k rs)) <$> ks).
Proof.
  intros Hok Hacc Hlen. destruct (groups_of_inv key accums rs Hok) as [Hs Hg Hr]. exists (groups_of key accums rs).*1. split_and!.
  - clear -Hs. induction Hs as [|x g Hs IH Hx]; cbn; constructor; [done|]. by apply Forall_fmap.
  - intros r Hin. destruct (Hr r Hin) as (k & st & Hx & Ek). exists k. split; [|done]. apply list_elem_of_fmap. by exists (k, st).
  - intros k ([k' st] & -> & Hx)%list_elem_of_fmap. by destruct (Hg k' st Hx) as [? _].
  - change (run_stages debug rs [Group key accums]) with (@Ok (list Row) (group_row debug key accums <$> groups_of key accums rs)). f_equal. rewrite <-list_fmap_compose. apply list_fmap_ext. intros i [k st] Hi.
    apply list_elem_of_lookup_2 in Hi. destruct (Hg k st Hi) as [_ ->]. apply group_row_ref.
    + apply Forall_forall. intros d (r & Hin & <-)%same_key_in. apply Forall_forall. intros a Ha. by apply Hacc.
    + pose proof (same_key_len key k rs). lia.
Qed.

(** Orders by customer, one without. *)
Definition order_row (id : bytes) (cust : option bytes) (total : Value) : Row :=
  (id, mkDoc (match cust with Some c => [(b#("cust"), String c)] | None => [] end ++ [(b#("total"), total)]) 1).
Definition orders : list Row :=
  [order_row b#("1") (Some b#("bo")) (Int 5); order_row b#("2") (Some b#("al")) (Int 7); order_row b#("3") (Some b#("bo")) (Float 0x3FE0000000000000);
   order_row b#("4") None (Int 1)].
Definition totals : list AccumSpec := [mkAccum b#("n") Count; mkAccum b#("sum") (Sum b#("total")); mkAccum b#("top") (Max b#("total"))].

Lemma group_stage_exact_witness :
  run_stages (λ _, b#("?")) orders [Group (Some b#("cust")) totals] =
    Ok [(b#("$all"), mkDoc [(b#("cust"), Null); (b#("n"), Int 1); (b#("sum"), Int 1); (b#("top"), Int 1)] 0);
        (b#("al"), mkDoc [(b#("cust"), String b#("al")); (b#("n"), Int 1); (b#("sum"), Int 7); (b#("top"), Int 7)] 0);
        (b#("bo"), mkDoc [(b#("cust"), String b#("bo")); (b#("n"), Int 2); (b#("sum"), Float 0x4016000000000000); (b#("top"), Int 5)] 0)] ∧
  ∃ ks, StronglySorted key_lt ks ∧
    (∀ r, r ∈ orders → ∃ k, k ∈ ks ∧ group_cmp (group_key (Some b#("cust")) r.2) k = Eq) ∧
    (∀ k, k ∈ ks → ∃ r, r ∈ orders ∧ group_key (Some b#("cust")) r.2 = k) ∧
    run_stages (λ _, b#("?")) orders [Group (Some b#("cust")) totals] =
      Ok ((λ k, ref_group (Some b#("cust")) totals (λ _, b#("?")) k (same_key (Some b#("cust")) k orders)) <$> ks).
Proof.
  split; [vm_compute; reflexivity|]. apply group_stage_exact.
  - unfold orders. intros r. rewrite !elem_of_cons, elem_of_nil. intros Hr. destruct_or! Hr; try done; subst r; vm_compute; done.
  - unfold orders, totals. intros r a. rewrite !elem_of_cons, !elem_of_nil. intros Hr Ha. destruct_or! Hr; destruct_or! Ha; try done; subst r a; vm_compute; done.
  - vm_compute. reflexivity.
Defined.

(** Rows without the key and rows whose key is the text "$all" are two groups with
    the same id. *)
Lemma all_group_collides :
  (λ r, r.1) <$> (match run_stages (λ _, []) [order_row b#("1") None (Int 1); order_row b#("2") (Some b#("$all")) (Int 1)]
                          [Group (Some b#("cust")) [mkAccum b#("n") Count]] with Ok l => l | _ => [] end)
  = [b#("$all"); b#("$all")].
Proof. vm_compute. reflexivity. Qed.
(** An integer sum stops at the largest [i64]. *)
Lemma sum_saturates : ref_sum [NInt (2 ^ 63 - 1); NInt 5; NInt (-1)] = Int (2 ^ 63 - 2).
Proof. vm_compute. reflexivity. Qed.

(** ** Well-formed documents *)

Definition row_sorted (r : Row) : Prop := doc_sorted r.2.
Lemma project_sorted d ps t : doc_sorted d → doc_sorted (mkDoc (project_fields d ps) t).
Proof.
  unfold doc_sorted, project_fields. cbn [fields]. destruct ps as [|p ps]; [done|]. intros Hs. unfold key_sorted in *.
  induction Hs as [|kv l Hs IH Hx]; [constructor|]. cbn [omap list_omap]. destruct (prune_field_value kv.2 (p :: ps) kv.1) as [v|]; cbn; [|done].
  constructor; [done|]. apply Forall_forall. intros kv' (kv0 & Hin & Hv)%list_elem_of_omap. destruct (prune_field_value kv0.2 _ _); [|done]. injection Hv as <-.
  exact (proj1 (Forall_forall _ _) Hx kv0 Hin).
Qed.
Lemma inserts_sorted {A} (f : A → bytes) (g : A → Value) l d : doc_sorted d → doc_sorted (foldl (λ d a, doc_insert d (f a) (g a)) d l).
Proof. revert d. induction l as [|a l IH]; intros d Hd; [done|]. cbn. by apply IH, doc_insert_sorted. Qed.

Lemma run_stage_sorted debug rs s :
  Forall row_sorted rs → (∀ q, s ≠ SMatch q) → ∃ out, run_stage debug rs s = Ok out ∧ Forall row_sorted out.
Proof.
  intros Hr Hm. destruct s as [q|fs|f asc|n|n|f|key accums]; cbn [run_stage]; [by destruct (Hm q)|..]; (eexists; split; [done|]).
  - apply Forall_fmap. eapply Forall_impl; [exact Hr|]. intros r. apply project_sorted.
  - by rewrite sort_by_perm.
  - by apply Forall_take.
  - by apply Forall_drop.
  - apply Forall_forall. intros x (r & Hx & Hin)%list_elem_of_bind. pose proof (proj1 (Forall_forall _ _) Hr r Hin) as Hs.
    unfold unwind_row in Hx. destruct (doc_get r.2 f) as [[]|]; try (by apply elem_of_nil in Hx).
    apply list_elem_of_fmap in Hx as (item & -> & _). by apply doc_insert_sorted.
  - apply Forall_fmap, Forall_forall. intros g _. unfold row_sorted, group_row. cbn [snd compose].
    apply (inserts_sorted (λ sa, out sa.2) (λ sa, acc_value (op sa.2) sa.1)). unfold named_doc.
    destruct (last_segment <$> key); [apply doc_insert_sorted|]; constructor.
Qed.

(** C36: Every stage keeps documents well formed: a pipeline without a match stage
    answers, and the fields of every document of its answer are in the order of their
    names, each once, as the accessors and the encoding need them. *)
Theorem stages_keep_documents debug rs l :
  Forall row_sorted rs → (∀ s q, s ∈ l → s ≠ SMatch q) → ∃ out, run_stages debug rs l = Ok out ∧ Forall row_sorted out.
Proof.
  revert rs. induction l as [|s l IH]; intros rs Hr Hm; [by exists rs|].
  destruct (run_stage_sorted debug rs s Hr) as (out & E & Ho); [intros q; apply Hm; by left|]. cbn [run_stages]. rewrite E.
  apply (IH out Ho). intros s' q Hin. apply Hm. by right.
Qed.
Lemma stages_keep_documents_witness :
  ∃ out, run_stages (λ _, []) orders [Sort b#("total") false; Group (Some b#("cust")) totals; Limit 2; Project [b#("n")]] = Ok out ∧ Forall row_sorted out.
Proof.
  apply stages_keep_documents.
  - unfold orders, row_sorted, doc_sorted, key_sorted. repeat constructor.
  - intros s q. rewrite !elem_of_cons, elem_of_nil. intros Hs. destruct_or! Hs; try done; subst s; discriminate.
Defined.
