(* ===== verification/QueryFront.v ===== *)
(** * Queries of the facade (src/engine/engine.rs)

    From the admission of a query through the plan cache and the executor to rows,
    raw bytes, walks and projections; explanations; pipelines; deletions and patches
    by query.  The state is the database of Facade.v with the indexes besides the
    composite registry (which the database already has), the plan cache and what
    tells whether the indexes are ready.  A collection has index updates in flight
    while one of its updates is queued.  [instant] is the clock of the plan cache; it and [now] stand still during a call.

    A traversal reads the database as it is when the query starts; the cache entries
    and audit records of its reads are not kept.  Its loop is bounded by [fuel]
    (Graph.v); beyond it the query is [Panic].  Statistics counters, cancellation and
    the row cache are left out. *)

From stdpp Require Import prelude list gmap strings.
From Stdlib Require Import ZArith Lia Sorted.
From S2P Require Import Prelude RustStd Error Value Doc DocFacts DocCodec DocAccess Config Crypto VFile Wal WalFacts Models.
From S2P Require Import StorageIndex StorageIndexFacts PageCache Segment SegmentFacts Blob Storage StorageMaint StorageFacts StorageView StorageReopen StorageModels IndexKey Filter.
From S2P Require Import Schema Composite CompositeFacts Ledger CompositeManager Traverse Query Matcher MatcherFacts Worker TermIndex IndexManager Planner PlannerFacts.
From S2P Require Import SortFacts Executor ExecutorFacts QueryAnswers QueryProps SyncCore SyncFacts Facade FacadeFacts FacadeApply FacadeState FacadeProps Graph GraphQuery.
From S2P Require Import PlanCache Pipeline.

Local Open Scope Z_scope.
Local Open Scope hako_scope.

(** [ExplainReport]. *)
Record ExplainReport := mkExplain {
  ex_collection : bytes;
  ex_scan : bytes;
  ex_index : option bytes;
  ex_collection_rows : nat;
  ex_filter_count : nat;
  ex_or_group_count : nat;
  ex_elem_match_count : nat;
  ex_filters_satisfied : bool;
  ex_order_satisfied : bool;
  ex_limit : option nat;
  ex_offset : option nat;
  ex_projection : list bytes;
  ex_covering : bool;
  ex_available : list bytes }.

Section Front.
Context `{Crc} `{Zstd} `{HashIter} {cipher : Type} `{Aead cipher}.
Context (from_secret : bytes → EncryptionContext cipher) (to_lowercase : bytes → bytes) (is_alphanumeric : bytes → bool).
Context (debug : Value → bytes) (sip : bytes → Z).
Context (knn : StorageEngine cipher → IndexManager → bytes → bytes → bytes → Metric → list Filter → option nat → list (bytes * Pointer)).
Abbreviation Hako := (Hako (cipher := cipher)).

Record Front := mkFront {
  db : Hako;
  others : IndexManager;
  plan_cache : PlanCache;
  indexes_ready : bool;
  backfill_inflight : Z }.
Abbreviation FM := (SR Front).
Definition with_db (h : Hako) (f : Front) : Front := mkFront h (others f) (plan_cache f) (indexes_ready f) (backfill_inflight f).
Definition on_db {A} (act : SR Hako A) : FM A := λ f, let '(h, r) := act (db f) in (with_db h f, r).
(** The index manager, with the registry of the database. *)
Definition indexes (f : Front) : IndexManager :=
  let m := others f in mkIM (Facade.composite (db f)) (secondary m) (fts m) (vector m) (traverse m).

(** [index_query_ready], [vector_query_ready]. *)
Definition pending (f : Front) (c : bytes) : bool := existsb (λ op, bytes_eqb (io_collection op) c) (index_queue (db f)).
Definition vector_query_ready (f : Front) : bool := indexes_ready f && (backfill_inflight f =? 0).
Definition index_query_ready (f : Front) (c : bytes) : bool := vector_query_ready f && negb (pending f c).

(** ** Admission *)

Definition workers (f : Front) : nat := Z.to_nat (query_workers (config (db f))).
Definition audit_query (c : bytes) : FM unit := on_db (modify (record_audit (mkAudit AQuery c None true))).
(** The plan of a query on a loaded collection. *)
Definition plan_query (instant : Z) (q : Query) (e : StorageEngine cipher) : FM (QueryPlan * nat) := λ f,
  let rows := Z.to_nat (count_prefix (idx e) []) in
  let '(pc, p) := get_or_compute debug sip instant q (indexes f) rows (workers f) (index_query_ready f (q_collection q)) (vector_query_ready f) (plan_cache f) in
  (mkFront (db f) (others f) pc (indexes_ready f) (backfill_inflight f), Ok (p, rows)).
(** The steps that the query functions share: security, the collection, the plan,
    the work, the audit record. *)
Definition admitted {A} (now instant : Z) (q : Query) (absent : A) (run : QueryPlan → FM A) : FM A :=
  f ← get_st;
  if negb (allowed (db f) (q_collection q) AQuery) then on_db (deny AQuery (q_collection q) None)
  else
    shard ← on_db (try_get_shard_on_disk from_secret now (q_collection q));
    match shard with
    | None => mret absent
    | Some e =>
        p ← plan_query instant q e;
        out ← run p.1;
        _ ← audit_query (q_collection q);
        mret out
    end.

(** ** Rows *)

Abbreviation Found := (list (bytes * HakoDoc)).
Definition executing {A} (c : bytes) (act : nat → IndexManager → SR (StorageEngine cipher) A) : FM A := λ f,
  on_db (on_shard c (act (workers f) (indexes f))) f.
Definition run_rows (now : Z) (fuel : nat) (c : bytes) (p : QueryPlan) : FM Found :=
  match scan p with
  | Traverse _ _ _ _ => λ f,
      match execute_traverse_query to_lowercase (λ c id, (hako_get from_secret now true c id (db f)).2) (indexes f) fuel p with
      | Ok (Some rows) => (f, Ok rows)
      | Ok None => (f, Panic)
      | Err x => (f, Err x)
      | Panic => (f, Panic)
      end
  | _ => executing c (λ w m, execute to_lowercase is_alphanumeric knn w m p)
  end.
(** [query]: [query_rows] with owned documents. *)
Definition hako_query (now instant : Z) (fuel : nat) (q : Query) : FM Found := admitted now instant q [] (run_rows now fuel (q_collection q)).

Definition as_raw (q : Query) : Query :=
  mkQuery (q_collection q) (q_filters q) (q_or_groups q) (q_elem_match q) (q_order_by q) (q_limit q) (q_offset q)
    (q_projection q) (q_aggregations q) (q_start_at q) (q_start_after q) (q_end_at q) (q_end_before q) (q_defer_blobs q) true.
Definition query_raw (now instant : Z) (q : Query) : FM (list (bytes * bytes)) :=
  let q := as_raw q in
  admitted now instant q [] (λ p, executing (q_collection q) (λ _ m, execute_raw to_lowercase is_alphanumeric knn m p)).

Definition projected_on (q : Query) (fields : list bytes) : Query :=
  mkQuery (q_collection q) (q_filters q) (q_or_groups q) (q_elem_match q) (q_order_by q) (q_limit q) (q_offset q)
    fields (q_aggregations q) (q_start_at q) (q_start_after q) (q_end_at q) (q_end_before q) (q_defer_blobs q) (q_raw q).
Definition query_projected_zero_copy (now instant : Z) (q : Query) (fields : list bytes) : FM (list (bytes * list (bytes * Value))) :=
  let q := projected_on q fields in
  admitted now instant q [] (λ p, executing (q_collection q) (λ w m, execute_projected to_lowercase is_alphanumeric knn w m p)).

(** [walk], [walk_view]: the callback has a state of its own. *)
Definition walking {St A} (c : bytes) (act : SR (StorageEngine cipher * St) A) (s : St) : FM (St * A) :=
  on_db (on_shard c (λ e, let '((e, s), r) := act (e, s) in (e, a ← r; Ok (s, a)))).
Definition hako_walk {St} (now instant : Z) (q : Query) (callback : bytes → bytes → St → St * bool) (s : St) : FM (St * nat) :=
  let q := as_raw q in admitted now instant q (s, 0%nat) (λ p, walking (q_collection q) (execute_walk p callback) s).
Definition hako_walk_view {St} (now instant : Z) (q : Query) (callback : bytes → HakoDocView → St → St * bool) (s : St) : FM (St * nat) :=
  let q := as_raw q in admitted now instant q (s, 0%nat) (λ p, walking (q_collection q) (execute_walk_view p callback) s).

(** ** Explanations *)

(** [explain], [explain_report]: here a missing collection is created. *)
Definition explained {A} (now instant : Z) (q : Query) (report : Front → QueryPlan * nat → A) : FM A :=
  f ← get_st;
  if negb (allowed (db f) (q_collection q) AQuery) then fail (Corrupt "Denied")
  else
    e ← on_db (get_shard from_secret now (q_collection q));
    p ← plan_query instant q e;
    f ← get_st;
    mret (report f p).
Definition explain (now instant : Z) (q : Query) : FM QueryPlan := explained now instant q (λ _ p, p.1).
Definition named (label : bytes) {A} (t : gmap bytes (gmap bytes A)) (c : bytes) : list bytes :=
  (λ field, label ++ b#("(") ++ field ++ b#(")")) <$> (map_to_list (default ∅ (t !! c))).*1.
Definition available_indexes (m : IndexManager) (c : bytes) : list bytes :=
  sort_by bytes_cmp
    (named b#("secondary_index") (secondary m) c ++ named b#("inverted_index") (fts m) c ++ named b#("vector_knn") (vector m) c ++
     ((λ i, b#("composite_index(") ++ join b#(",") (cf_field <$> d_fields (ci_definition i)) ++ b#(")")) <$>
        indexes_for_collection (IndexManager.composite m) c)).
Definition explain_report (now instant : Z) (q : Query) : FM ExplainReport :=
  explained now instant q (λ f '(p, rows),
    mkExplain (p_collection p) (describe (scan p)) (index_label (scan p)) rows (length (p_filters p)) (length (or_groups p))
      (length (elem_match p)) (filters_satisfied_by_index p) (order_by_satisfied p) (p_limit p) (p_offset p) (projection p)
      (bool_decide (is_Some (covering_projection p))) (available_indexes (indexes f) (p_collection p))).

(** ** Pipelines *)

(** [run_pipeline]: a match replaces the rows; the first other stage starts from the
    whole collection. *)
Fixpoint pipeline_stages (now instant : Z) (fuel : nat) (c : bytes) (l : list Stage) (rows : option Found) : FM Found :=
  match l with
  | [] => mret (default [] rows)
  | SMatch q :: l => rs ← hako_query now instant fuel q; pipeline_stages now instant fuel c l (Some rs)
  | s :: l =>
      current ← match rows with Some rs => mret rs | None => hako_query now instant fuel (query_new c) end;
      rs ← lift (run_stages debug current [s]);
      pipeline_stages now instant fuel c l (Some rs)
  end.
Definition run_pipeline (now instant : Z) (fuel : nat) (p : Pipeline) : FM Found :=
  _ ← lift (pipeline_validate p); pipeline_stages now instant fuel (pl_collection p) (stages p) None.

(** ** Writes by query *)

Definition delete_where (now instant nanos : Z) (fuel : nat) (q : Query) : FM nat :=
  rows ← hako_query now instant fuel q;
  if bool_decide (length rows = 0%nat) then mret 0%nat
  else _ ← on_db (write_batch from_secret to_lowercase now nanos ((λ r, MutDelete (q_collection q) r.1) <$> rows)); mret (length rows).
Definition patch_where (now instant nanos : Z) (fuel : nat) (q : Query) (updates : list (bytes * Value)) : FM nat :=
  rows ← hako_query now instant fuel q;
  if bool_decide (length rows = 0%nat) then mret 0%nat
  else _ ← on_db (write_batch from_secret to_lowercase now nanos ((λ r, MutPatch (q_collection q) r.1 updates) <$> rows)); mret (length rows).
End Front.

(** ** Queries and writes by query, end to end

    A query that scans its collection returns the documents that match and leaves the
    database as it was; a deletion by query removes exactly these documents. *)

Section Front.
Context `{CrcLaws} `{ZstdLaws} `{HashIterLaws} {cipher : Type} `{AeadLaws cipher}.
Context (from_secret : bytes → EncryptionContext cipher) (to_lowercase : bytes → bytes) (is_alphanumeric : bytes → bool).
Context (debug : Value → bytes) (sip : bytes → Z).
Context (knn : StorageEngine cipher → IndexManager → bytes → bytes → bytes → Metric → list Filter → option nat → list (bytes * Pointer)).
Abbreviation Hako := (Hako (cipher := cipher)).
Abbreviation Front := (Front (cipher := cipher)).
Implicit Types (h : Hako) (f : Front).

Lemma audit_quiet a h : quiet h (record_audit a h).
Proof using Type. destruct (record_audit_same a h) as [b ->]. split; [|done]. split; try done. eauto. Qed.

Lemma on_db_ok {A} (act : SR Hako A) f h r : act (db f) = (h, r) → on_db act f = (with_db h f, r).
Proof using Type. unfold on_db. by intros ->. Qed.

(** The plan that the cache gives for a query on a loaded collection. *)
Definition plan_of (instant : Z) (q : Query) (e : StorageEngine cipher) f : QueryPlan :=
  (get_or_compute debug sip instant q (indexes f) (Z.to_nat (count_prefix (idx e) [])) (workers f) (index_query_ready f (q_collection q))
     (vector_query_ready f) (plan_cache f)).2.
(** The plan that the cache may hold for a query was made by the planner for this very
    query, whenever that was and whatever indexes and statistics there were. *)
Definition own_entry q (c : PlanCache) : Prop :=
  ∀ p ts, pc_map c !! hash_query debug sip q = Some (p, ts) → ∃ m rows w, p = plan q m rows w true true.
(** What a query asks of a document: every filter, one filter of a group if there are
    groups, and every element clause; a number against the id is compared as text. *)
Definition query_matches q (id : bytes) (d : HakoDoc) : bool :=
  forallb (and_holds to_lowercase id d) (map stringify_id (q_filters q)) &&
  (bool_decide (length (q_or_groups q) = 0%nat) || existsb (existsb (or_holds to_lowercase id d)) (map (map stringify_id) (q_or_groups q))) &&
  forallb (elem_clause to_lowercase d) (q_elem_match q).
(** A query for all documents that match, in any order, by conditions on documents. *)
Record selection q : Prop := {
  se_limit : q_limit q = None;
  se_offset : q_offset q = None;
  se_order : q_order_by q = [];
  se_filters : forallb (λ x, negb (is_marker x) && filter_ok (stringify_id x)) (q_filters q) = true }.
(** A plan that reads the whole collection and looks at every document. *)
Definition looks_at_all (p : QueryPlan) : Prop := scan p = FullCollection ∧ filters_satisfied_by_index p = false.

Lemma plan_of_own instant q e f : own_entry q (plan_cache f) → ∃ m rows w ready vready, plan_of instant q e f = plan q m rows w ready vready.
Proof using Type.
  intros Hown. unfold plan_of, get_or_compute. destruct (index_query_ready f (q_collection q)); cbn [negb]; [|by do 5 eexists].
  destruct (fresh_entry (plan_cache f) (hash_query debug sip q) instant) as [p|] eqn:E; cbn [snd]; [|by do 5 eexists].
  unfold fresh_entry in E. destruct (pc_map (plan_cache f) !! hash_query debug sip q) as [[p' ts]|] eqn:Hk; [|done]. cbn in E. case_match; [|done].
  injection E as ->. destruct (Hown _ _ Hk) as (m & rows & w & ->). by do 5 eexists.
Qed.
Lemma selection_filters q p : selection q → carries q p → ∀ x, x ∈ p_filters p ↔ x ∈ q_filters q.
Proof using Type.
  intros Hs (_ & _ & _ & _ & _ & _ & _ & Hin & Hout & _) x. split; [apply Hout|]. intros Hx. apply Hin; [done|].
  pose proof (se_filters _ Hs) as Hf. rewrite forallb_forall in Hf. specialize (Hf x (proj1 (list_elem_of_In _ _) Hx)).
  apply andb_true_iff in Hf as [Hf _]. by apply negb_true_iff in Hf.
Qed.
Lemma forallb_same {A} (g : A → bool) l l' : (∀ x, x ∈ l ↔ x ∈ l') → forallb g l = forallb g l'.
Proof using Type.
  intros Hl. apply eq_bool_prop_intro. rewrite !Is_true_true, !forallb_forall. setoid_rewrite <-list_elem_of_In. by setoid_rewrite Hl.
Qed.
(** A plan of the query decides as the query does. *)
Lemma own_plan_matches q p id d :
  selection q → carries q p → doc_matches to_lowercase id d (prepare_optimized_plan p) = query_matches q id d.
Proof using Type.
  intros Hs Hc. pose proof (selection_filters q p Hs Hc) as Hf. destruct Hc as (_ & Ho & He & _).
  unfold doc_matches, query_matches. cbn [prepare_optimized_plan p_filters or_groups elem_match]. rewrite Ho, He, length_map.
  do 2 f_equal. apply forallb_same. intros x. rewrite !list_elem_of_In, !in_map_iff. setoid_rewrite <-list_elem_of_In. by setoid_rewrite Hf.
Qed.
Lemma plan_of_filters q p : selection q → carries q p → filters_ok p.
Proof using Type.
  intros Hs Hc. unfold filters_ok. cbn [prepare_optimized_plan p_filters]. rewrite Forall_forall. intros y Hy.
  apply list_elem_of_In, in_map_iff in Hy as (x & <- & Hx%list_elem_of_In). apply (selection_filters q p Hs Hc) in Hx.
  pose proof (se_filters _ Hs) as Hf. rewrite forallb_forall in Hf. specialize (Hf x (proj1 (list_elem_of_In _ _) Hx)).
  by apply andb_true_iff in Hf as [_ Hf].
Qed.

(** The ids of the documents that match. *)
Definition selects (P : bytes → HakoDoc → bool) (docs : gmap bytes HakoDoc) (ids : list bytes) : Prop :=
  NoDup ids ∧ ∀ id, id ∈ ids ↔ ∃ d, docs !! id = Some d ∧ P id d = true.
Lemma selects_length P docs ids : selects P docs ids → length ids = size (filter (λ x, P x.1 x.2 = true) docs).
Proof using Type.
  intros [Hnd Hin]. assert (ids ≡ₚ (map_to_list (filter (λ x, P x.1 x.2 = true) docs)).*1) as Hperm.
  { apply NoDup_Permutation; [done|apply NoDup_fst_map_to_list|]. intros id. rewrite Hin, list_elem_of_fmap. split.
    - intros (d & Hd' & Hm). exists (id, d). split; [done|]. by apply elem_of_map_to_list, map_lookup_filter_Some.
    - intros ([id' d] & -> & [Hd' Hm]%elem_of_map_to_list%map_lookup_filter_Some). by exists d. }
  rewrite Hperm, length_fmap. apply length_map_to_list.
Qed.
Lemma selects_bound P docs ids : selects P docs ids → zlen ids <= Z.of_nat (size docs).
Proof using Type.
  intros Hs. unfold zlen. rewrite (selects_length _ _ _ Hs). pose proof (map_subseteq_size _ _ (map_filter_subseteq (λ x, P x.1 x.2 = true) docs)). lia.
Qed.
Lemma selects_kept (P : bytes → HakoDoc → bool) (docs : gmap bytes HakoDoc) (ids : list bytes) (v : gmap bytes bytes) :
  selects P docs ids → (∀ k, v !! k = if bool_decide (k ∈ ids) then None else (encode <$> docs) !! k) →
  v = encode <$> filter (λ x, P x.1 x.2 = false) docs.
Proof using Type.
  intros [_ Hin] Hv. apply map_eq. intros k. rewrite Hv, !lookup_fmap, map_lookup_filter.
  destruct (docs !! k) as [d|] eqn:Hk; cbn [fmap option_fmap option_map mbind option_bind]; [|by case_bool_decide].
  assert (k ∈ ids ↔ P k d = true) as Hkd by (rewrite Hin; split; [intros (d' & ? & ?); congruence|eauto]).
  case_guard as Hm; cbn [fst snd] in Hm; case_bool_decide as Hx; rewrite Hkd in Hx; try done; [congruence|]. by apply not_true_is_false in Hx.
Qed.

Lemma query_scans now instant fuel q e docs f :
  state_ok to_lowercase (db f) → allowed (db f) (q_collection q) AQuery = true → shards (db f) !! q_collection q = Some e →
  holds_docs e docs → (2 <= workers f)%nat → selection q → own_entry q (plan_cache f) → looks_at_all (plan_of instant q e f) →
  ∃ f' rows, hako_query from_secret to_lowercase is_alphanumeric debug sip knn now instant fuel q f = (f', Ok rows) ∧ quiet (db f) (db f') ∧
    selects (query_matches q) docs rows.*1.
Proof using All.
  intros Ho Ha He Hd Hw Hq Hown [Hscan Hsat]. pose proof (so_settled _ _ Ho (q_collection q)) as Hs.
  assert (store_ok e) as Heo by (by eapply (so_shards _ _ Ho (q_collection q))).
  unfold hako_query, admitted. rewrite (hm_bind_ok _ _ f f f) by done. rewrite Ha. cbn [negb].
  rewrite (hm_bind_ok _ _ f f (Some e)).
  2: { rewrite (on_db_ok _ f (db f) (Ok (Some e))); [by destruct f|]. unfold try_get_shard_on_disk. rewrite He. unfold get_shard, mbind, SR_bind. by rewrite He. }
  set (pc := get_or_compute debug sip instant q (indexes f) (Z.to_nat (count_prefix (idx e) [])) (workers f) (index_query_ready f (q_collection q))
    (vector_query_ready f) (plan_cache f)). assert (∃ p, plan_of instant q e f = p ∧ carries q p ∧ unlimited p) as (p & Ep & Hcar & Hunl).
  { destruct (plan_of_own instant q e f Hown) as (m0 & r0 & w0 & a0 & b0 & E). eexists. split; [done|]. 
    split; [apply plan_carries|apply plan_unlimited, Hq]. }
  rewrite Ep in Hscan, Hsat. pose proof Hcar as (_ & _ & _ & Hord & Hlim & Hoff & _).
  set (f1 := mkFront (db f) (others f) pc.1 (indexes_ready f) (backfill_inflight f)).
  rewrite (hm_bind_ok _ _ f f1 (p, Z.to_nat (count_prefix (idx e) []))).
  2: { rewrite <-Ep. unfold plan_query, f1, plan_of. fold pc. by destruct pc. }
  cbn [fst]. destruct (full_scan_rows to_lowercase is_alphanumeric knn (workers f) (indexes f) p docs e) as (ch & rows & E & Hch & Hn & Hr & _); try done.
  { rewrite Hlim. apply Hq. } { rewrite Hoff. apply Hq. } { by apply (plan_of_filters q). }
  { intros id d _ o. rewrite Hord, (se_order _ Hq). by intros ?%elem_of_nil. }
  destruct (on_shard_quiet (q_collection q) (execute to_lowercase is_alphanumeric knn (workers f) (indexes f) p) e _ _ (db f) Hs He E) as (h1 & E1 & Q1 & _); try done.
  rewrite (hm_bind_ok _ _ f1 (with_db h1 f1) rows).
  2: { unfold run_rows. rewrite Hscan. exact (on_db_ok _ f1 h1 (Ok rows) E1). }
  rewrite (hm_bind_ok _ _ _ (with_db (record_audit (mkAudit AQuery (q_collection q) None true) h1) f1) tt) by done.
  eexists _, rows. split; [done|]. split; [|split; [done|]].
  - cbn [db with_db f1]. etransitivity; [exact Q1|apply audit_quiet].
  - intros id. split.
    + intros ([id' d'] & -> & Hx)%list_elem_of_fmap. apply Hr in Hx as (d & Hd' & Hm & _). exists d. split; [done|]. by rewrite <-(own_plan_matches q p).
    + intros (d & Hd' & Hm). rewrite <-(own_plan_matches q p) in Hm by done. apply list_elem_of_fmap. exists (id, fill p e d). split; [done|]. apply Hr. by exists d.
Qed.

(** ** Deletion by query *)

(** C8: A deletion by query removes the documents that match the query: of a query
    without limit, offset, order, vector or traversal clause, whose plan reads the whole
    collection and looks at every document, and which finds in the plan cache nothing or
    a plan made for itself (a plan of another query with the same hash is run otherwise,
    [or_after_and_finds_none]).  It counts the documents of which the conditions of the
    query hold, afterwards the collection, loaded and not encrypted, holds exactly the
    others, and no other collection has changed.  The caller may query and write, there
    are at least two workers, and no document has the empty id. *)
Theorem delete_where_exact now instant nanos fuel q e docs f :
  let c := q_collection q in
  state_ok to_lowercase (db f) → allowed (db f) c AQuery = true → allowed (db f) c ABatch = true → read_only (db f) = false →
  shards (db f) !! c = Some e → encryption (wal e) = None → NoDup (gate_ids (db f) c) → holds_docs e docs → docs !! [] = None →
  global_version (db f) + Z.of_nat (size docs) < 2 ^ 64 → (2 <= workers f)%nat →
  selection q → own_entry q (plan_cache f) → looks_at_all (plan_of instant q e f) →
  ∃ f', delete_where from_secret to_lowercase is_alphanumeric debug sip knn now instant nanos fuel q f =
      (f', Ok (size (filter (λ x, query_matches q x.1 x.2 = true) docs))) ∧ state_ok to_lowercase (db f') ∧
    view_of (db f') c = encode <$> filter (λ x, query_matches q x.1 x.2 = false) docs ∧
    ∀ c', c' ≠ c → view_of (db f') c' = view_of (db f) c'.
Proof using All.
  intros c. subst c. intros Ho Ha Hb Hro He Hen Hg Hd Hnil Hv Hw Hq Hown Hp.
  destruct (query_scans now instant fuel q e docs f) as (f1 & rows & E & Q & Hsel); try done.
  pose proof (quiet_state _ _ _ Ho Q) as Ho1. destruct Q as [C L]. pose proof (calm_settings _ _ C) as Est. unfold settings in Est.
  injection Est as _ E2 E3 E4 _ _ E7. pose proof (calm_outputs _ _ C) as Eo. unfold outputs in Eo. injection Eo as Ev _ _ _ _ _.
  assert (∀ c', view_of (db f1) c' = view_of (db f) c') as Hview by (intros c'; exact (calm_view _ _ C c' (so_settled _ _ Ho c'))).
  assert (view_of (db f) (q_collection q) = encode <$> docs) as Hvc by (unfold view_of; rewrite He; apply Hd).
  pose proof (selects_length _ _ _ Hsel) as Hlen. pose proof (selects_bound _ _ _ Hsel) as Hsz. rewrite length_fmap in Hlen.
  unfold delete_where. rewrite (hm_bind_ok _ _ f f1 rows) by done. case_bool_decide as Hz.
  - exists f1. split; [by rewrite <-Hlen, Hz|]. split_and!; [done| |done].
    apply (selects_kept _ _ _ _ Hsel). intros k. apply nil_length_inv in Hz as ->. by rewrite Hview, Hvc.
  - destruct (delete_batch from_secret to_lowercase now nanos (q_collection q) rows.*1 (db f1)) as (h2 & ids & E' & Ho2 & Hr & _); try done.
    { congruence. } { unfold allowed in *. by rewrite E2, E3. } { apply (plain_at_calm _ _ _ C). by exists e. }
    { unfold gate_ids. by rewrite E7. } { rewrite (proj2 Hsel). intros (d & Hx & _). congruence. } { lia. }
    rewrite <-list_fmap_compose in E'. unfold on_db, mbind, SR_bind. cbn [db].
    change ((λ r0 : bytes * HakoDoc, MutDelete (q_collection q) r0.1) <$> rows) with (MutDelete (q_collection q) ∘ fst <$> rows). rewrite E'.
    eexists. split; [by rewrite <-Hlen|]. split; [done|]. cbn [db with_db]. split.
    + apply (selects_kept _ _ _ _ Hsel). intros k. rewrite Hr, bool_decide_true by done. cbn [andb]. by rewrite Hview, Hvc.
    + intros c' Hc'. apply map_eq. intros k. rewrite Hr, bool_decide_false by done. cbn [andb]. by rewrite Hview.
Qed.
End Front.

(** ** A concrete database *)

Definition demo_front : Front (cipher := unit) := mkFront with_users im_empty plans_default false 0.
Definition over_35 : Query := where_filter (query_new USERS) b#("age") OpGt (Int 35).
Definition users_now : StorageEngine unit := default (demo_col USERS) (shards with_users !! USERS).
Definition user_docs : gmap bytes HakoDoc := <[b#("u1") := u1_doc]> {[b#("u2") := mkDoc (fields (account b#("b@x") 40)) 5]}.
Abbreviation run_delete := (delete_where demo_secret Datatypes.id (λ _, true) (λ _, []) of_le no_knn).

Lemma users_state : state_ok Datatypes.id with_users.
Proof. exact (db_steps_ok demo_secret Datatypes.id demo_db with_users demo_state users_step). Qed.
Lemma users_loaded : shards with_users !! USERS = Some users_now.
Proof. vm_compute. reflexivity. Qed.
Lemma users_held : holds_docs users_now user_docs.
Proof.
  split; [apply (bool_decide_unpack _); vm_compute; exact I|]. unfold user_docs. intros id d [[_ <-]|[_ [_ <-]%lookup_singleton_Some]]%lookup_insert_Some;
    (split; [vm_compute; reflexivity|]); unfold doc_sorted; vm_compute; repeat constructor.
Qed.

Lemma delete_where_exact_witness :
  (run_delete 0 0 6000 0 over_35 demo_front).2 = Ok 1%nat ∧
  ∃ f', run_delete 0 0 6000 0 over_35 demo_front =
      (f', Ok (size (filter (λ x, query_matches Datatypes.id over_35 x.1 x.2 = true) user_docs))) ∧
    state_ok Datatypes.id (db f') ∧
    view_of (db f') USERS =
      encode <$> filter (λ x, query_matches Datatypes.id over_35 x.1 x.2 = false) user_docs ∧
    ∀ c', c' ≠ USERS → view_of (db f') c' = view_of with_users c'.
Proof.
  split; [vm_compute; reflexivity|].
  apply (delete_where_exact demo_secret Datatypes.id (λ _, true) (λ _, []) of_le no_knn 0 0 6000 0 over_35 users_now user_docs demo_front).
  - exact users_state.
  - reflexivity.
  - reflexivity.
  - reflexivity.
  - exact users_loaded.
  - vm_compute. reflexivity.
  - vm_compute. repeat constructor. by intros ?%elem_of_nil.
  - exact users_held.
  - vm_compute. reflexivity.
  - vm_compute. reflexivity.
  - apply Nat.leb_le. vm_compute. reflexivity.
  - by split.
  - intros p ts Hp. vm_compute in Hp. discriminate Hp.
  - split; vm_compute; reflexivity.
Defined.

(** ** Corner cases *)

Abbreviation run_query := (hako_query demo_secret Datatypes.id (λ _, true) (λ _, []) of_le no_knn).
Definition settled_front : Front (cipher := unit) :=
  mkFront (h_with_outputs (index_touched with_users) [] (notified with_users) (audit_data with_users) with_users) im_empty plans_default true 0.
(** Users that are 30 and 40, then users that are 30 or 40, asked within a second:
    the second query runs the plan of the first and finds nobody. *)
Lemma or_after_and_finds_none :
  let f30 := mkFilter b#("age") OpEq (Int 30) in let f40 := mkFilter b#("age") OpEq (Int 40) in
  let both := with_groups (query_new USERS) [f30; f40] [] in let either := with_groups (query_new USERS) [] [[f30]; [f40]] in
  let first := run_query 0 0 0 both settled_front in
  (λ l, length l) <$> match (run_query 0 1 0 either settled_front).2 with Ok l => Some l | _ => None end = Some 2%nat ∧
  (λ l, length l) <$> match (run_query 0 1 0 either first.1).2 with Ok l => Some l | _ => None end = Some 0%nat.
Proof. vm_compute. done. Qed.

(** Explaining a query on a collection that does not exist creates the collection;
    running the query does not. *)
Lemma explain_creates_collection :
  let q := query_new b#("nowhere") in
  bool_decide (is_Some (shards (db (explain demo_secret (λ _, []) of_le 0 0 q demo_front).1) !! b#("nowhere"))) = true ∧
  bool_decide (is_Some (shards (db (run_query 0 0 0 q demo_front).1) !! b#("nowhere"))) = false.
Proof. vm_compute. done. Qed.

(** A document deleted by [delete] can be restored; one deleted by a query cannot. *)
Lemma bulk_delete_not_restorable :
  (restore demo_secret Datatypes.id 0 7000 8000 USERS b#("u2") (hako_delete demo_secret Datatypes.id 0 6000 USERS b#("u2") with_users).1).2 = Ok tt ∧
  (restore demo_secret Datatypes.id 0 7000 8000 USERS b#("u2") (db (run_delete 0 0 6000 0 over_35 demo_front).1)).2
    = Err (InvalidInput "restore: no retention record").
Proof. vm_compute. done. Qed.

(** A pipeline: users over 35 grouped together. *)
Lemma pipeline_runs :
  (run_pipeline demo_secret Datatypes.id (λ _, true) (λ _, []) of_le no_knn 0 0 0
     (mkPipe USERS [SMatch over_35; Group None [mkAccum b#("n") Count]]) demo_front).2
  = Ok [(b#("$all"), mkDoc [(b#("n"), Int 1)] 0)].
Proof. vm_compute. reflexivity. Qed.
