(* ===== verification/Softdel.v ===== *)
(** * Sweeping soft-deleted documents (src/engine/softdel.rs)

    Listing of the retention records, and the sweep that forgets them when they are
    due or over the budget.  Facade.v has the records themselves and [restore].  Sizes
    and counts are [u64]s that are taken not to overflow. *)

From stdpp Require Import prelude list gmap strings.
From Stdlib Require Import ZArith Lia Sorted.
From S2P Require Import Prelude RustStd Error Value Doc Config Crypto VFile Wal WalFacts Models StorageIndex StorageIndexFacts PageCache.
From S2P Require Import Segment SegmentFacts Blob Storage StorageFacts StorageView StorageCompact StorageReopen StorageModels StorageProps SortFacts Facade FacadeFacts FacadeProps.

Local Open Scope Z_scope.
Local Open Scope hako_scope.

Definition SWEEP_CHUNK : nat := 1000.
Definition REC_OVERHEAD : Z := 96.

Record SoftDelEntry := mkEntry {
  se_col : bytes;
  se_id : bytes;
  deleted_at : Z;
  scheduled_at : Z;
  se_bytes : Z }.

(** The fields of a record. *)
Definition entry_of (doc : HakoDoc) : option SoftDelEntry :=
  match doc_get doc b#("col"), doc_get doc b#("id"), doc_get doc b#("deleted_at"), doc_get doc b#("scheduled_at"), doc_get doc b#("payload") with
  | Some (String c), Some (String i), Some (Int d), Some (Int s), Some (Binary p) => Some (mkEntry c i d s (zlen p))
  | _, _, _, _, _ => None
  end.

(** ** Which records to forget *)

Abbreviation Rec := (bytes * SoftDelEntry)%type.
Definition rec_cmp (a b : Rec) : comparison := deleted_at a.2 ?= deleted_at b.2.
Definition rec_size (r : Rec) : Z := se_bytes r.2 + REC_OVERHEAD.
(** The loop over the records, by deletion time, with the sums so far. *)
Fixpoint over_cap (max_bytes max_count total count : Z) (rs : list Rec) : list bytes :=
  match rs with
  | [] => []
  | r :: rs =>
      let total := total + rec_size r in
      let count := count + 1 in
      (if (max_bytes <? total) || (max_count <? count) then [r.1] else []) ++ over_cap max_bytes max_count total count rs
  end.
Definition evicted (max_bytes max_count : Z) (rs : list Rec) : gset bytes := list_to_set (over_cap max_bytes max_count 0 0 (sort_by rec_cmp rs)).
Definition due (now_micros : Z) (evict : gset bytes) (rs : list Rec) : list bytes :=
  (List.filter (λ r, negb ((now_micros <? scheduled_at r.2) || bool_decide (r.1 ∈ evict))) (sort_by rec_cmp rs)).*1.

Section Sweep.
Context `{Crc} `{Zstd} `{HashIter} {cipher : Type} `{Aead cipher}.
Context (from_secret : bytes → EncryptionContext cipher).
Abbreviation StorageEngine := (StorageEngine cipher).
Abbreviation EM := (SR StorageEngine).

(** [decode_record]. *)
Definition decode_record (ptr : Pointer) : EM (option SoftDelEntry) := λ e,
  match ptr with
  | PDeleted _ => (e, Ok None)
  | _ =>
      match read_pointer_internal ptr false e with
      | (e, Ok b) => (e, Ok (match b with Some b => match decode b with Some d => entry_of d | None => None end | None => None end))
      | (e, Err _) => (e, Ok None)
      | (e, Panic) => (e, Panic)
      end
  end.
Fixpoint read_records (rows : list (bytes * Pointer)) : EM (list Rec) :=
  match rows with
  | [] => mret []
  | (key, ptr) :: rows =>
      entry ← decode_record ptr;
      rest ← read_records rows;
      mret (match entry with Some x => (key, x) :: rest | None => rest end)
  end.
Definition all_records : EM (list Rec) := e ← get_st; read_records (hash_iter (index (idx e))).

(** [sweep_pass]: chunk by chunk, until one fails. *)
Fixpoint forget_chunks (now_micros now : Z) (cs : list (list bytes)) (purged : Z) : EM Z := λ e,
  match cs with
  | [] => (e, Ok purged)
  | c :: cs =>
      match hard_delete_keys now_micros now c e with
      | (e, Ok n) => forget_chunks now_micros now cs (purged + n) e
      | (e, Err _) => (e, Ok purged)
      | (e, Panic) => (e, Panic)
      end
  end.
Definition sweep_shard (now_micros now max_bytes max_count : Z) (chunk : nat) : EM Z :=
  rs ← all_records;
  if bool_decide (length rs = 0%nat) then mret 0
  else
    let evict := evicted max_bytes max_count rs in
    let forget := (hash_iter (set_to_map (λ k, (k, tt)) evict : gmap bytes ())).*1 ++ due now_micros evict rs in
    forget_chunks now_micros now (chunks (length forget) (Nat.max chunk 1) forget) 0.
Definition sweep_pass (now_micros now max_bytes max_count : Z) (chunk : nat) : SR (Hako (cipher := cipher)) Z := λ h,
  match shards h !! SOFTDEL_COLLECTION with
  | None => (h, Ok 0)
  | Some _ => on_shard SOFTDEL_COLLECTION (sweep_shard now_micros now max_bytes max_count chunk) h
  end.

(** [sweep_now], [softdel_entries], [restore_available], [delete_queue]. *)
Definition sweep_now (now now_micros : Z) : SR (Hako (cipher := cipher)) Z :=
  _ ← get_shard from_secret now SOFTDEL_COLLECTION;
  h ← get_st;
  sweep_pass now_micros now (soft_delete_max_bytes (config h)) (soft_delete_max_count (config h)) SWEEP_CHUNK.
Definition softdel_entries (now : Z) (col : option bytes) : SR (Hako (cipher := cipher)) (list Rec) :=
  _ ← get_shard from_secret now SOFTDEL_COLLECTION;
  rs ← on_shard SOFTDEL_COLLECTION all_records;
  mret (List.filter (λ r, match col with Some c => bytes_eqb c (se_col r.2) | None => true end) rs).
Definition restore_available (now : Z) (col : option bytes) : SR (Hako (cipher := cipher)) (list SoftDelEntry) :=
  rs ← softdel_entries now col; mret rs.*2.
Definition delete_queue (now now_micros : Z) (col : option bytes) : SR (Hako (cipher := cipher)) (list SoftDelEntry) :=
  rs ← softdel_entries now col; mret (List.filter (λ r, scheduled_at r.2 <=? now_micros) rs).*2.
End Sweep.

(** ** What a sweep forgets

    A sweep removes the records that are due and those over the budget, and nothing
    else; what it keeps is within the budget.  Then a concrete sweep, which evicts
    the newest records. *)

(** ** The budget *)

Definition total_size (rs : list Rec) : Z := foldr (λ r n, rec_size r + n) 0 rs.
Definition sized (r : Rec) : Prop := 0 <= se_bytes r.2.

Lemma total_nonneg rs : Forall sized rs → 0 <= total_size rs.
Proof.
  induction 1 as [|r rs Hr _ IH]; [done|]. cbn [total_size foldr]. fold (total_size rs). unfold sized in Hr. unfold rec_size, REC_OVERHEAD. lia.
Qed.

Lemma over_cap_all mb mc total count rs : Forall sized rs → mb < total ∨ mc < count → over_cap mb mc total count rs = rs.*1.
Proof.
  intros Hs. revert total count. induction Hs as [|r rs Hr Hs IH]; intros t c Hov; [done|]. cbn [over_cap]. unfold sized in Hr.
  assert (mb < t + rec_size r ∨ mc < c + 1) as Hov' by (unfold rec_size, REC_OVERHEAD; lia).
  assert ((mb <? t + rec_size r) || (mc <? c + 1) = true) as -> by (apply orb_true_iff; rewrite !Z.ltb_lt; tauto).
  cbn. f_equal. by apply IH.
Qed.
(** The records over the budget are a suffix of the sorted list; the rest is within
    the budget and could not be longer. *)
Lemma over_cap_suffix mb mc total count rs :
  Forall sized rs → total <= mb → count <= mc →
  ∃ kept lost, rs = kept ++ lost ∧ over_cap mb mc total count rs = lost.*1 ∧ total + total_size kept <= mb ∧ count + zlen kept <= mc ∧
    ∀ r lost', lost = r :: lost' → mb < total + total_size kept + rec_size r ∨ mc < count + zlen kept + 1.
Proof.
  intros Hs. revert total count. induction Hs as [|r rs Hr Hs IH]; intros total count Ht Hc.
  { exists [], []. cbn. split_and!; try done; unfold zlen; cbn; lia. }
  cbn [over_cap]. destruct ((mb <? total + rec_size r) || (mc <? count + 1)) eqn:E.
  - exists [], (r :: rs). split_and!; [done| |cbn; lia|unfold zlen; cbn; lia|].
    + cbn. f_equal. apply over_cap_all; [done|]. apply orb_true_iff in E as [E|E]; lia.
    + intros r' l' [= <- <-]. apply orb_true_iff in E as [E|E]; cbn; unfold zlen; cbn; lia.
  - apply orb_false_iff in E as [E1 E2]. destruct (IH (total + rec_size r) (count + 1)) as (kept & lost & -> & Eo & Hk & Hn & Hl); [lia|lia|].
    exists (r :: kept), lost. split_and!; [done|done| | |].
    + cbn [total_size foldr]. fold (total_size kept). lia.
    + rewrite zlen_cons. lia.
    + intros r' l' ->. destruct (Hl r' l' eq_refl); cbn [total_size foldr]; fold (total_size kept); rewrite zlen_cons; lia.
Qed.

Lemma elem_of_due now ev rs k : k ∈ due now ev rs ↔ ∃ x, (k, x) ∈ rs ∧ scheduled_at x <= now ∧ k ∉ ev.
Proof.
  unfold due. rewrite list_elem_of_fmap. split.
  - intros ([k' x] & -> & Hx). apply list_elem_of_In, filter_In in Hx as [Hx Hb]. cbn in Hb. apply negb_true_iff, orb_false_iff in Hb as [Hs Hk].
    exists x. apply list_elem_of_In in Hx. rewrite sort_by_perm in Hx. apply bool_decide_eq_false in Hk. split_and!; [done|lia|done].
  - intros (x & Hx & Hs & Hk). exists (k, x). split; [done|]. apply list_elem_of_In, filter_In. split.
    + apply list_elem_of_In. by rewrite sort_by_perm.
    + cbn. apply negb_true_iff, orb_false_iff. split; [lia|]. by apply bool_decide_eq_false.
Qed.
Lemma due_nodup now ev rs : NoDup rs.*1 → NoDup (due now ev rs).
Proof.
  intros Hn. unfold due. assert (NoDup (sort_by rec_cmp rs).*1) as Hs by (by rewrite sort_by_perm). revert Hs. generalize (sort_by rec_cmp rs).
  induction l as [|r l IH]; cbn; [done|]. intros [Hr Hl]%NoDup_cons. destruct (negb _); cbn; [|by apply IH]. apply NoDup_cons. split; [|by apply IH].
  intros (y & Ey & Hy)%list_elem_of_fmap. apply Hr. rewrite Ey. apply list_elem_of_fmap_2. by apply list_elem_of_In, filter_In in Hy as [Hy%list_elem_of_In _].
Qed.

(** ** The store *)

Section Sweep.
Context `{CrcLaws} `{ZstdLaws} `{HashIterLaws} {cipher : Type} `{AeadLaws cipher}.
Implicit Types e : StorageEngine cipher.

(** The retention records that a collection holds. *)
Definition record_at e (kp : bytes * Pointer) : option Rec :=
  match ptr_value e kp.2 with
  | Some b => match decode b with Some d => match entry_of d with Some x => Some (kp.1, x) | None => None end | None => None end
  | None => None
  end.
Definition records_view e : list Rec := omap (record_at e) (hash_iter (index (idx e))).

Lemma entry_sized d x : entry_of d = Some x → 0 <= se_bytes x.
Proof using Type. unfold entry_of. repeat case_match; try done. intros [= <-]. apply zlen_nonneg. Qed.
Lemma records_sized e : Forall sized (records_view e).
Proof using Type.
  apply Forall_forall. intros r (kp & _ & Hr)%list_elem_of_omap. unfold record_at in Hr. repeat case_match; try done. injection Hr as <-.
  unfold sized. cbn. by eapply entry_sized.
Qed.
Lemma records_nodup e : NoDup (records_view e).*1.
Proof using Type*.
  unfold records_view. pose proof (hash_iter_keys (index (idx e))) as Hn. revert Hn. generalize (hash_iter (index (idx e))).
  induction l as [|kp l IH]; [done|]. cbn. intros [Hk Hl]%NoDup_cons. destruct (record_at e kp) as [r|] eqn:E; [|by apply IH].
  cbn. apply NoDup_cons. split; [|by apply IH]. assert (r.1 = kp.1) as -> by (unfold record_at in E; repeat case_match; try done; by injection E as <-).
  intros (r' & Er & (kp' & Hin & E')%list_elem_of_omap)%list_elem_of_fmap. apply Hk. rewrite Er.
  assert (r'.1 = kp'.1) as -> by (unfold record_at in E'; repeat case_match; try done; by injection E' as <-). by apply list_elem_of_fmap_2.
Qed.

Lemma read_records_spec e rows :
  store_ok e → Forall (λ kp, ptr_ok e kp.2) rows → ∃ c, read_records rows e = (e_with_cache c e, Ok (omap (record_at e) rows)) ∧ store_ok (e_with_cache c e).
Proof using Type*.
  intros He Hr. revert e He Hr. induction rows as [|[k p] rows IH]; intros e He Hr; [exists (cache e); cbn; by destruct e|].
  apply Forall_cons in Hr as [Hp Hr]. cbn in Hp. cbn [read_records]. destruct (read_pointer_value e p false He Hp) as (c & E & Hc & _).
  assert (decode_record p e = (e_with_cache c e, Ok (snd <$> record_at e (k, p))) ∨ decode_record p e = (e, Ok (snd <$> record_at e (k, p)))) as Hdec.
  { unfold decode_record, record_at. cbn [fst snd]. destruct p; try (left; rewrite E; destruct (ptr_value e _) as [b|]; [|done]; destruct (decode b) as [d|]; [|done]; by destruct (entry_of d)).
    by right. }
  assert (∀ r, record_at e (k, p) = Some r → r = (k, r.2)) as Hk by (intros r; unfold record_at; cbn; repeat case_match; try done; by intros [= <-]).
  assert (match record_at e (k, p) with Some r => r :: omap (record_at e) rows | None => omap (record_at e) rows end
    = match snd <$> record_at e (k, p) with Some x => (k, x) :: omap (record_at e) rows | None => omap (record_at e) rows end) as Eo.
  { destruct (record_at e (k, p)) as [[k0 x]|]; [|done]. cbn. specialize (Hk _ eq_refl). cbn in Hk. congruence. }
  cbn [omap list_omap]. rewrite Eo. destruct Hdec as [Hd|Hd].
  - rewrite (hm_bind_ok _ _ _ _ _ Hd). destruct (IH (e_with_cache c e) Hc Hr) as (c' & E' & Hc'). rewrite (hm_bind_ok _ _ _ _ _ E').
    exists c'. split; [|done]. by destruct (snd <$> record_at e (k, p)).
  - rewrite (hm_bind_ok _ _ _ _ _ Hd). destruct (IH e He Hr) as (c' & E' & Hc'). rewrite (hm_bind_ok _ _ _ _ _ E').
    exists c'. split; [|done]. by destruct (snd <$> record_at e (k, p)).
Qed.


(** Deleting keys from the index leaves the values of the others. *)
Definition same_data e e' : Prop := segments e' = segments e ∧ blob_manager e' = blob_manager e ∧ encryption (wal e') = encryption (wal e).
Lemma same_data_value e e' p : same_data e e' → ptr_value e' p = ptr_value e p.
Proof using Type. intros (E1 & E2 & _). unfold ptr_value. destruct p; by rewrite ?E1, ?E2. Qed.

Lemma hard_delete_plain nm now keys e :
  encryption (wal e) = None →
  ∃ e', hard_delete_keys nm now keys e = (e', Ok (zlen keys)) ∧ same_data e e' ∧ index (idx e') = foldl (λ m k, base.delete k m) (index (idx e)) keys.
Proof using Type.
  intros Hn. destruct keys as [|k keys]; [by exists e|]. unfold hard_delete_keys. rewrite (hm_bind_ok _ _ e e e) by done.
  rewrite (hm_bind_ok _ _ _ (e_with_tx (next_tx_id e + 1) e) tt) by done.
  set (ops := [BeginTx (next_tx_id e)] ++ ((λ k, Delete k nm) <$> k :: keys) ++ [CommitTx (next_tx_id e)]).
  destruct (buffer_records_plain (nonce_ctr e) (wal e) ops Hn) as [w Hb].
  pose proof (buffer_records_encryption _ _ _ _ _ _ Hb) as Hw.
  rewrite (hm_bind_ok _ _ _ (e_with_wal (maybe_sync now true false w) (nonce_ctr e) (e_with_tx (next_tx_id e + 1) e)) tt).
  2: { unfold on_wal, append_batch_fast. cbn [nonce_ctr wal e_with_tx]. rewrite append_all_buffer_records. fold ops. by rewrite Hb. }
  rewrite (hm_bind_ok _ _ _ (e_with_idx (drop_keys (k :: keys) (idx e)) (e_with_wal (maybe_sync now true false w) (nonce_ctr e) (e_with_tx (next_tx_id e + 1) e))) tt) by done.
  eexists. split; [done|]. split; [|done]. split_and!; [done|done|]. cbn [wal e_with_idx e_with_wal]. by rewrite maybe_sync_encryption.
Qed.

Lemma forget_plain nm now cs n e :
  encryption (wal e) = None →
  ∃ e', forget_chunks nm now cs n e = (e', Ok (n + zlen (concat cs))) ∧ same_data e e' ∧ index (idx e') = foldl (λ m k, base.delete k m) (index (idx e)) (concat cs).
Proof using Type.
  revert n e. induction cs as [|c cs IH]; intros n e Hn.
  { exists e. cbn [forget_chunks concat]. unfold zlen. cbn. rewrite Z.add_0_r. done. }
  destruct (hard_delete_plain nm now c e Hn) as (e1 & E1 & S1 & I1). cbn [forget_chunks concat]. rewrite E1.
  destruct (IH (n + zlen c) e1) as (e2 & E2 & S2 & I2); [by rewrite (proj2 (proj2 S1))|]. exists e2. rewrite E2, zlen_app. split; [f_equal; f_equal; lia|].
  split; [|by rewrite I2, I1, foldl_app]. destruct S1 as (? & ? & ?), S2 as (? & ? & ?). split_and!; congruence.
Qed.

Lemma delete_all_lookup {A} (m : gmap bytes A) ks k : foldl (λ m k, base.delete k m) m ks !! k = if decide (k ∈ ks) then None else m !! k.
Proof using Type.
  revert m. induction ks as [|x ks IH]; intros m; [done|]. cbn [foldl]. rewrite IH. destruct (decide (k ∈ ks)) as [Hk|Hk]; [by rewrite decide_True by (by right)|].
  destruct (decide (k = x)) as [->|Hne]; [rewrite lookup_delete_eq, decide_True by left; done|].
  rewrite lookup_delete_ne, decide_False by (rewrite ?not_elem_of_cons; done). done.
Qed.

Lemma evicted_keys (ev : gset bytes) : (hash_iter (set_to_map (λ k, (k, tt)) ev : gmap bytes ())).*1 ≡ₚ elements ev.
Proof using Type*.
  rewrite hash_iter_perm. apply NoDup_Permutation; [apply NoDup_fst_map_to_list|apply NoDup_elements|]. intros k. rewrite elem_of_elements, list_elem_of_fmap. split.
  - intros ([k' []] & -> & Hk%elem_of_map_to_list). apply lookup_set_to_map in Hk as (k0 & Hk & [= -> ]); [done|]. by intros ? ? _ _ [= ->].
  - intros Hk. exists (k, tt). split; [done|]. apply elem_of_map_to_list, lookup_set_to_map; [by intros ? ? _ _ [= ->]|by exists k].
Qed.

(** A sweep forgets the right records: with the records in the order in which
    their documents were deleted, those from the first that exceeds the budget on
    and those that are due are removed and counted, every other document of the
    collection stays, and what was not over the budget fits into it. *)
Theorem sweep_exact nm now mb mc chunk e :
  store_ok e → encryption (wal e) = None → 0 <= mb → 0 <= mc →
  ∃ kept lost forgotten e', sort_by rec_cmp (records_view e) = kept ++ lost ∧ total_size kept <= mb ∧ zlen kept <= mc ∧
    (∀ r lost', lost = r :: lost' → mb < total_size kept + rec_size r ∨ mc < zlen kept + 1) ∧
    NoDup forgotten ∧ (∀ k, k ∈ forgotten ↔ ∃ x, (k, x) ∈ lost ∨ ((k, x) ∈ records_view e ∧ scheduled_at x <= nm)) ∧
    sweep_shard nm now mb mc chunk e = (e', Ok (zlen forgotten)) ∧
    ∀ k, store_view e' !! k = if decide (k ∈ forgotten) then None else store_view e !! k.
Proof using Type*.
  intros He Hn Hb Hc. set (rs := records_view e). assert (sort_by rec_cmp rs ≡ₚ rs) as Hp by apply sort_by_perm.
  assert (Forall sized (sort_by rec_cmp rs)) as Hsz by (rewrite Hp; apply records_sized).
  destruct (over_cap_suffix mb mc 0 0 (sort_by rec_cmp rs) Hsz Hb Hc) as (kept & lost & El & Eo & Hk & Hz & Hmax).
  set (ev := evicted mb mc rs). set (forgotten := (hash_iter (set_to_map (λ k, (k, tt)) ev : gmap bytes ())).*1 ++ due nm ev rs).
  assert (∀ k, k ∈ ev ↔ k ∈ lost.*1) as Hev by (intros k; unfold ev, evicted; by rewrite Eo, elem_of_list_to_set).
  assert (NoDup rs.*1) as Hnd by apply records_nodup.
  assert (NoDup forgotten) as Hfn.
  { unfold forgotten. rewrite evicted_keys. apply NoDup_app. split_and!; [apply NoDup_elements| |by apply due_nodup].
    intros k Hk1%elem_of_elements (x & _ & _ & Hk2)%elem_of_due. done. }
  assert (∀ k, k ∈ forgotten ↔ ∃ x, (k, x) ∈ lost ∨ ((k, x) ∈ rs ∧ scheduled_at x <= nm)) as Hfin.
  { intros k. unfold forgotten. rewrite elem_of_app, evicted_keys, elem_of_elements, elem_of_due, Hev, list_elem_of_fmap. split.
    - intros [([k' x] & -> & Hx)|(x & Hx & Hs & _)]; eauto.
    - intros (x & [Hx|[Hx Hs]]); [left; by exists (k, x)|]. destruct (decide (k ∈ lost.*1)) as [Hl%list_elem_of_fmap|Hl]; [by left|].
      right. exists x. by rewrite Hev. }
  destruct (read_records_spec e (hash_iter (index (idx e))) He) as (c & Er & Hce).
  { apply Forall_forall. intros [k p] Hin. rewrite hash_iter_perm in Hin. apply elem_of_map_to_list in Hin. destruct He as (_ & _ & Hptr & _). by apply (Hptr k p). }
  unfold sweep_shard, all_records. rewrite (hm_bind_ok _ _ e (e_with_cache c e) rs) by (rewrite (hm_bind_ok _ _ e e e) by done; exact Er).
  exists kept, lost, forgotten. case_bool_decide as Hl.
  - apply nil_length_inv in Hl. exists (e_with_cache c e). assert (forgotten = []) as E0.
    { apply elem_of_nil_inv. intros k (x & Hx)%Hfin. assert ((k, x) ∈ rs) as Hr; [|rewrite Hl in Hr; by apply elem_of_nil in Hr].
      destruct Hx as [Hx|[Hx _]]; [|done]. rewrite <-Hp, El. apply elem_of_app. by right. }
    rewrite E0 in *. split_and!; try done; intros k; by rewrite decide_False by apply not_elem_of_nil.
  - destruct (forget_plain nm now (chunks (length forgotten) (Nat.max chunk 1) forgotten) 0 (e_with_cache c e) Hn) as (e' & Ef & Hsd & Hi).
    fold ev. fold forgotten. rewrite chunks_concat in Ef, Hi by lia. exists e'. split_and!; try done.
    intros k. unfold store_view. rewrite !lookup_omap, Hi, delete_all_lookup. case_decide; [done|]. cbn [idx e_with_cache].
    destruct (index (idx e) !! k) as [p|]; [|done]. cbn. by rewrite (same_data_value _ _ p Hsd).
Qed.
End Sweep.

(** ** A concrete sweep *)

(** Two records: a deleted at 10 and due at 20, b deleted at 11 and due at 500. *)
Definition retained (id : bytes) (at_ until : Z) : StorageMutation := MPut (record_id b#("t") id) (encode (build_record b#("t") id at_ until [1; 2; 3])).
Definition retained_batch : list StorageMutation := [retained b#("b") 11 500; retained b#("a") 10 20].
Definition retained_engine : StorageEngine unit := (apply_batch 5 0 retained_batch false demo_engine).1.
Lemma retained_ok : store_ok retained_engine.
Proof.
  destruct (fresh_ok default_config b#("notes") None 0) as (He & _). fold demo_engine in He.
  assert (Forall (λ m, zlen (put_kv m).2 < 2 ^ 30) retained_batch) as Hs by (repeat constructor).
  unfold retained_engine. destruct (apply_batch 5 0 retained_batch false demo_engine) as [e r] eqn:E. by apply (apply_batch_view _ _ _ _ _ _ _ He Hs E).
Qed.

Lemma sweep_exact_witness :
  (sweep_shard 100 0 1000 10 SWEEP_CHUNK retained_engine).2 = Ok 1 ∧
  ∃ kept lost forgotten e', sort_by rec_cmp (records_view retained_engine) = kept ++ lost ∧ total_size kept <= 1000 ∧ zlen kept <= 10 ∧
    (∀ r lost', lost = r :: lost' → 1000 < total_size kept + rec_size r ∨ 10 < zlen kept + 1) ∧
    NoDup forgotten ∧ (∀ k, k ∈ forgotten ↔ ∃ x, (k, x) ∈ lost ∨ ((k, x) ∈ records_view retained_engine ∧ scheduled_at x <= 100)) ∧
    sweep_shard 100 0 1000 10 SWEEP_CHUNK retained_engine = (e', Ok (zlen forgotten)) ∧
    ∀ k, store_view e' !! k = if decide (k ∈ forgotten) then None else store_view retained_engine !! k.
Proof.
  split; [vm_compute; reflexivity|]. apply sweep_exact; [exact retained_ok|vm_compute; reflexivity|lia|lia].
Defined.

(** Over the budget, the record of the latest deletion goes first. *)
Lemma sweep_evicts_newest :
  let e' := (sweep_shard 0 0 1000 1 SWEEP_CHUNK retained_engine).1 in
  bool_decide (is_Some (store_view e' !! record_id b#("t") b#("a"))) = true ∧
  bool_decide (is_Some (store_view e' !! record_id b#("t") b#("b"))) = false.
Proof. vm_compute. done. Qed.
