(* ===== verification/Cloud.v ===== *)
(** * Synchronisation through a cloud server (src/cloud_sync.rs, engine/engine.rs)

    What is withheld from synchronisation (the local-only marks, the excluded and the
    unloaded collections), the versions of collections, and the star of one server and
    its clients: admission, catch-up in pages with the shared page cache, the ingest
    of what arrives, the relay of it, and the tailers of the logs.

    A connection is a number; what a handler gives to a connection goes to [outbox] in
    this order.  Whether a channel has room for a message that is only tried
    ([has_room]) or is still open for one that is waited for ([alive]) are facts of the
    [Moment] of a step, as are the clocks.  MessagePack is the pair [to_vec] and
    [from_slice].  The index definitions that peers exchange are passed on
    ([peer_indexes]) and not applied.  A panic of the thread that applies a batch is
    swallowed, as by the code. *)

From stdpp Require Import prelude list gmap strings.
From Stdlib Require Import ZArith Lia.
From S2P Require Import Prelude RustStd Error Config Crypto VFile Value Doc Wal PageCache StorageIndex Segment Blob Storage Matcher Worker.
From S2P Require Import SyncCore Facade Graph Query IndexManager QueryFront.

Local Open Scope Z_scope.
Local Open Scope hako_scope.

(** ** Local-only marks *)

Record Marks := mkMarks { local_only_cols : gset bytes; local_only_keys : gset bytes }.
Definition mark (c id : bytes) : bytes := c ++ [0] ++ id.

(** [is_local_only]: keys arrive bare or with the collection before a colon. *)
Definition is_collection_local (m : Marks) (c : bytes) : bool := bool_decide (c ∈ local_only_cols m).
Definition is_local_only (m : Marks) (c key : bytes) : bool :=
  if is_collection_local m c then true
  else if bool_decide (mark c key ∈ local_only_keys m) then true
  else match strip_prefix key c ≫= (λ s, strip_prefix s [58]) with
       | Some id => bool_decide (mark c id ∈ local_only_keys m)
       | None => false
       end.

(** [k.split_once('\0')]: the part before. *)
Fixpoint before_nul (k : bytes) : option bytes :=
  match k with [] => None | x :: k => if x =? 0 then Some [] else cons x <$> before_nul k end.

Definition SYSTEM_COLLECTION : bytes := b#("__hako_system").

Section Marked.
Context `{Crc} `{Zstd} `{HashIter} {cipher : Type} `{Aead cipher}.
Context (from_secret : bytes → EncryptionContext cipher) (to_lowercase : bytes → bytes).
Abbreviation Hako := (Hako (cipher := cipher)).

(** The database with its marks. *)
Record Node := mkNode { node_db : Hako; marks : Marks }.
Abbreviation NM := (SR Node).
Definition on_hako {A} (f : SR Hako A) : NM A := λ n, let '(h, r) := f (node_db n) in (mkNode h (marks n), r).
Definition set_marks (f : Marks → Marks) : NM unit := modify (λ n, mkNode (node_db n) (f (marks n))).
Definition mark_keys (ks : list bytes) (m : Marks) : Marks := mkMarks (local_only_cols m) (local_only_keys m ∪ list_to_set ks).

(** [persist_local_only], [restore_local_only]: the marks as a document of the system
    collection; a failed write is ignored. *)
Definition set_list (s : gset bytes) : list bytes := (hash_iter (gset_to_gmap tt s)).*1.
Definition marks_doc (m : Marks) : HakoDoc :=
  doc_insert (doc_insert (mkDoc [] 0) b#("cols") (Array (String <$> set_list (local_only_cols m))))
    b#("keys") (Array (String <$> set_list (local_only_keys m))).
Definition persist_local_only (now nanos : Z) : NM unit := λ n,
  match on_hako (put_owned from_secret to_lowercase now nanos SYSTEM_COLLECTION b#("local_only") (marks_doc (marks n))) n with
  | (n, Panic) => (n, Panic)
  | (n, _) => (n, Ok tt)
  end.
Definition strings_of (v : option Value) : list bytes :=
  match v with Some (Array items) => omap (λ v, match v with String s => Some s | _ => None end) items | _ => [] end.
Definition restore_local_only (now : Z) (free : bool) : NM unit :=
  doc ← on_hako (hako_get from_secret now free SYSTEM_COLLECTION b#("local_only"));
  match doc with
  | None => mret tt
  | Some d =>
      set_marks (λ m, mkMarks (local_only_cols m ∪ list_to_set (strings_of (doc_get d b#("cols"))))
                              (local_only_keys m ∪ list_to_set (strings_of (doc_get d b#("keys")))))
  end.

Definition set_collection_local (now nanos : Z) (c : bytes) (local : bool) : NM unit :=
  _ ← set_marks (λ m, mkMarks (if local then local_only_cols m ∪ {[c]} else local_only_cols m ∖ {[c]}) (local_only_keys m));
  persist_local_only now nanos.
Definition delete_local (now nanos nanos' : Z) (c id : bytes) : NM bytes :=
  _ ← set_marks (mark_keys [mark c id]);
  _ ← persist_local_only now nanos;
  on_hako (hako_delete from_secret to_lowercase now nanos' c id).
Definition replicate_key (now nanos : Z) (c id : bytes) : NM unit :=
  _ ← set_marks (λ m, mkMarks (local_only_cols m) (local_only_keys m ∖ {[mark c id]}));
  persist_local_only now nanos.
Definition replicate_collection (now nanos : Z) (c : bytes) : NM unit :=
  _ ← set_marks (λ m, mkMarks (local_only_cols m ∖ {[c]}) (base.filter (λ k, before_nul k ≠ Some c) (local_only_keys m)));
  persist_local_only now nanos.
Definition delete_ids_local (now nanos nanos' : Z) (c : bytes) (ids : list bytes) : NM nat :=
  match ids with
  | [] => mret 0%nat
  | _ =>
      _ ← set_marks (mark_keys (mark c <$> ids));
      _ ← persist_local_only now nanos;
      _ ← on_hako (write_batch from_secret to_lowercase now nanos' (MutDelete c <$> ids));
      mret (length ids)
  end.
(** [vacuum_collection]. *)
Definition vacuum_collection (now : Z) (c : bytes) : SR Hako Z :=
  _ ← get_shard from_secret now c;
  on_shard c (λ e, let '(x, n) := purge_tombstones (idx e) in (e_with_idx x e, Ok n)).

(** ** What is withheld *)

Definition SYNC_EXCLUDED_COLLECTIONS : list bytes := [b#("__hako_system"); b#("__hako_rooms"); b#("__users"); b#("__groups")].
Definition is_sync_excluded (c : bytes) : bool := bool_decide (c ∈ SYNC_EXCLUDED_COLLECTIONS).
Definition is_sync_excluded_effective (h : Hako) (c : bytes) : bool := is_sync_excluded c || bool_decide (c ∈ sync_excluded (config h)).
Definition is_lazy_collection (h : Hako) (c : bytes) : bool := lazy_pattern_match (lazy_collections (config h)) c.
Definition is_lazy_unloaded (h : Hako) (c : bytes) : bool := is_lazy_collection h c && negb (bool_decide (is_Some (shards h !! c))).
Definition is_sync_withheld (h : Hako) (c : bytes) : bool := is_sync_excluded_effective h c || is_lazy_unloaded h c.
Definition is_collection_encrypted (h : Hako) (c : bytes) : bool := bool_decide (is_Some (get_encryption_for_col from_secret (config h) c)).

(** The directories under the root: the collections and the directory of the indexes. *)
Definition directories (h : Hako) : list bytes := elements (dom (shards h) ∪ dom (disk h) ∪ {[b#("_indices")]} : gset bytes).
Definition hako_list_collections (h : Hako) : list bytes :=
  sort_by bytes_cmp (List.filter (λ name, negb (starts_with name b#("_")) && negb (bytes_eqb name b#("snapshots"))) (directories h)).
Definition sync_collections (h : Hako) : list bytes :=
  sort_by bytes_cmp (List.filter (λ name, negb (bytes_eqb name b#("snapshots")) && negb (is_sync_withheld h name)) (directories h)).
Definition unloaded_lazy_collections (h : Hako) : list bytes :=
  sort_by bytes_cmp (List.filter (λ name, negb (bool_decide (is_Some (shards h !! name))) && is_lazy_collection h name) (directories h)).

(** ** Versions of collections *)

(** [bytes[2..10]] of a value, which panics on a shorter one. *)
Definition time_of (b : bytes) : res Z := match get_range b 2 10 with Some s => Ok (i64_of_le s) | None => Panic end.
Definition version_time (p : Pointer) : res Z :=
  match p with
  | PInlined b => time_of b
  | PBlobPending d => Ok (_time d)
  | PDeleted timestamp => Ok timestamp
  | _ => Ok 0
  end.
(** [.max().unwrap_or(0)]. *)
Fixpoint max_version (ps : list Pointer) : res (option Z) :=
  match ps with
  | [] => Ok None
  | p :: ps => t ← version_time p; m ← max_version ps; Ok (Some match m with Some m => Z.max t m | None => t end)
  end.
Definition get_collection_version (now : Z) (c : bytes) : SR Hako Z :=
  e ← get_shard from_secret now c;
  m ← lift (max_version (hash_iter (index (idx e))).*2);
  mret (default 0 m).
(** [get_version_map], [db_version_map]. *)
Fixpoint version_map_of (now : Z) (cols : list bytes) (map : gmap bytes Z) : SR Hako (gmap bytes Z) := λ h,
  match cols with
  | [] => (h, Ok map)
  | c :: cols =>
      match get_collection_version now c h with
      | (h, Ok v) => version_map_of now cols (<[c := v]> map) h
      | (h, Err _) => version_map_of now cols map h
      | (h, Panic) => (h, Panic)
      end
  end.
Definition get_version_map (now : Z) : SR Hako (gmap bytes Z) := λ h, version_map_of now (sync_collections h) ∅ h.
End Marked.

Section DeleteWhere.
Context `{Crc} `{Zstd} `{HashIter} {cipher : Type} `{Aead cipher}.
Context (from_secret : bytes → EncryptionContext cipher) (to_lowercase : bytes → bytes) (is_alphanumeric : bytes → bool).
Context (debug : Value → bytes) (sip : bytes → Z).
Context (knn : StorageEngine cipher → IndexManager → bytes → bytes → bytes → Metric → list Filter.Filter → option nat → list (bytes * Pointer)).

(** [delete_where_local]: the matches are marked, then deleted. *)
Definition delete_where_local (now instant nanos nanos' : Z) (fuel : nat) (q : Query) : SR (Front * Marks) nat := λ '(f, m),
  match hako_query from_secret to_lowercase is_alphanumeric debug sip knn now instant fuel q f with
  | (f, Ok rows) =>
      let '(n, r) := delete_ids_local from_secret to_lowercase now nanos nanos' (q_collection q) rows.*1 (mkNode (db f) m) in
      ((with_db (node_db n) f, marks n), r)
  | (f, Err x) => ((f, m), Err x)
  | (f, Panic) => ((f, m), Panic)
  end.
End DeleteWhere.

(** ** Admission *)

Definition GROUPS_COLLECTION : bytes := b#("__groups").
Definition timing_safe_eq (a b : bytes) : bool :=
  if negb (zlen a =? zlen b) then false
  else foldl (λ acc xy, Z.lor acc (Z.lxor xy.1 xy.2)) 0 (zip a b) =? 0.
Definition value_to_string (v : Value) : option bytes := match v with String s => Some s | _ => None end.
Definition echo_key (c key : bytes) : bytes := c ++ b#(":") ++ key.

(** ** Data of the protocol *)

Inductive CloudSyncMode := Server | Client.

Inductive CloudPacket {IndexList : Type} :=
| Authenticate (token client_id room_name room_key : bytes) (api_key client_version : option bytes)
    (enc_fp : option bytes) (enc_cols : list bytes)
| AuthResult (success : bool) (error : option bytes)
| VersionPing (versions : gmap bytes Z) (indexes : option IndexList)
| Replication (msg_id : Z) (collection : bytes) (ops : list WalOp)
| SyncRequest (collection : bytes)
| Heartbeat.
Arguments CloudPacket : clear implicits.

Record CatchupCacheEntry := mkCatchup { cc_server_ts : Z; packets : list bytes }.
Record IngestItem := mkItem { it_collection : bytes; it_op : WalOp; sender_client_id : option bytes }.

(** ** Pages *)

Definition CATCHUP_PAGE_MAX_OPS : nat := 1000.
Definition CATCHUP_PAGE_MAX_BYTES : Z := 6 * 1024 * 1024.
Definition op_wire_len (op : WalOp) : Z :=
  match op with
  | PutInlined key value => zlen key + zlen value + 128
  | PutBlob key _ _ | Put key _ _ _ => zlen key + 96
  | Delete key _ => zlen key + 64
  | BeginTx _ | CommitTx _ => 48
  end.
(** [page_out_ops]: the pages, the current page, its bytes. *)
Definition page_op (a : list (list WalOp) * list WalOp * Z) (op : WalOp) : list (list WalOp) * list WalOp * Z :=
  let '(pages, cur, cur_bytes) := a in
  let len := op_wire_len op in
  let full := negb (bool_decide (cur = [])) &&
    ((CATCHUP_PAGE_MAX_OPS <=? length cur)%nat || (CATCHUP_PAGE_MAX_BYTES <? cur_bytes + len)) in
  if full then (pages ++ [cur], [op], len) else (pages, cur ++ [op], cur_bytes + len).
Definition page_out_ops (ops : list WalOp) : list (list WalOp) :=
  let '(pages, cur, _) := foldl page_op ([], [], 0) ops in
  match cur with [] => pages | _ => pages ++ [cur] end.

(** ** The server and its clients *)

(** What a step finds outside: the clock of the logs, the time of day in
    microseconds, the clock of the warnings; whether the document cache is free;
    whether the channel of a connection has room for a message, and whether it is
    still open when so many messages have been given. *)
Record Moment := mkMoment {
  t_now : Z;
  t_micros : Z;
  t_instant : Z;
  t_free : bool;
  has_room : nat → bytes → bool;
  alive : nat → nat → bool }.

Section Star.
Context `{Crc} `{Zstd} `{HashIter} `{StdIter} {cipher : Type} `{Aead cipher} {IndexList : Type}.
Context (from_secret : bytes → EncryptionContext cipher) (sha256 : bytes → bytes).
Context (to_vec : CloudPacket IndexList → option bytes) (from_slice : bytes → option (CloudPacket IndexList)).
Context (list_indexes : Hako (cipher := cipher) → IndexList).
Abbreviation Hako := (Hako (cipher := cipher)).
Abbreviation Node := (Node (cipher := cipher)).
Abbreviation StorageEngine := (StorageEngine cipher).
Abbreviation CloudPacket := (CloudPacket IndexList).

(** A connection that has passed the checks, with what it presented. *)
Record Hello := mkHello {
  hello_conn : nat;
  hello_cid : bytes;
  hello_name : bytes;
  hello_key : bytes;
  hello_fp : option bytes;
  hello_cols : list bytes }.
Record CloudSync := mkCloud {
  node : Node;
  room_name : bytes;
  room_key : bytes;
  echo_cache : gmap bytes Z;
  seen_messages : list Z;
  ingest : list IngestItem;
  batch_buffer : gmap bytes (list IngestItem);
  active_peers : gmap bytes nat;
  peer_caps : CapsMap;
  max_clients : Z;
  catchup_cache : gmap bytes CatchupCacheEntry;
  catchup_cache_hits : Z;
  outbox : list (nat * bytes);
  outbound : list CloudPacket;
  peer_indexes : list IndexList }.
Abbreviation CM := (SR CloudSync).

Definition s_node (n : Node) (s : CloudSync) : CloudSync :=
  mkCloud n (room_name s) (room_key s) (echo_cache s) (seen_messages s) (ingest s) (batch_buffer s) (active_peers s) (peer_caps s)
    (max_clients s) (catchup_cache s) (catchup_cache_hits s) (outbox s) (outbound s) (peer_indexes s).
Definition s_echo (c : gmap bytes Z) (s : CloudSync) : CloudSync :=
  mkCloud (node s) (room_name s) (room_key s) c (seen_messages s) (ingest s) (batch_buffer s) (active_peers s) (peer_caps s)
    (max_clients s) (catchup_cache s) (catchup_cache_hits s) (outbox s) (outbound s) (peer_indexes s).
Definition s_ingest (seen : list Z) (i : list IngestItem) (b : gmap bytes (list IngestItem)) (s : CloudSync) : CloudSync :=
  mkCloud (node s) (room_name s) (room_key s) (echo_cache s) seen i b (active_peers s) (peer_caps s)
    (max_clients s) (catchup_cache s) (catchup_cache_hits s) (outbox s) (outbound s) (peer_indexes s).
Definition s_peers (p : gmap bytes nat) (m : CapsMap) (s : CloudSync) : CloudSync :=
  mkCloud (node s) (room_name s) (room_key s) (echo_cache s) (seen_messages s) (ingest s) (batch_buffer s) p m
    (max_clients s) (catchup_cache s) (catchup_cache_hits s) (outbox s) (outbound s) (peer_indexes s).
Definition s_catchup (c : gmap bytes CatchupCacheEntry) (hits : Z) (s : CloudSync) : CloudSync :=
  mkCloud (node s) (room_name s) (room_key s) (echo_cache s) (seen_messages s) (ingest s) (batch_buffer s) (active_peers s) (peer_caps s)
    (max_clients s) c hits (outbox s) (outbound s) (peer_indexes s).
Definition s_out (o : list (nat * bytes)) (ob : list CloudPacket) (s : CloudSync) : CloudSync :=
  mkCloud (node s) (room_name s) (room_key s) (echo_cache s) (seen_messages s) (ingest s) (batch_buffer s) (active_peers s) (peer_caps s)
    (max_clients s) (catchup_cache s) (catchup_cache_hits s) o ob (peer_indexes s).
Definition s_indexes (l : list IndexList) (s : CloudSync) : CloudSync :=
  mkCloud (node s) (room_name s) (room_key s) (echo_cache s) (seen_messages s) (ingest s) (batch_buffer s) (active_peers s) (peer_caps s)
    (max_clients s) (catchup_cache s) (catchup_cache_hits s) (outbox s) (outbound s) l.

(** [server], [client]: nothing connected, nothing seen; [set_max_clients_per_room]. *)
Definition cloud_new (n : Node) (name key : bytes) : CloudSync :=
  mkCloud n name key ∅ [] [] ∅ ∅ (mkCapsMap ∅ ∅) 0 ∅ 0 [] [] [].
Definition set_max_clients_per_room (max : Z) (s : CloudSync) : CloudSync :=
  mkCloud (node s) (room_name s) (room_key s) (echo_cache s) (seen_messages s) (ingest s) (batch_buffer s) (active_peers s) (peer_caps s)
    max (catchup_cache s) (catchup_cache_hits s) (outbox s) (outbound s) (peer_indexes s).

Definition hk (s : CloudSync) : Hako := node_db (node s).
Definition on_node {A} (f : SR Hako A) : CM A := λ s, let '(n, r) := on_hako f (node s) in (s_node n s, r).
Definition give (conn : nat) (b : bytes) : CM unit := modify (λ s, s_out (outbox s ++ [(conn, b)]) (outbound s) s).
Definition warn (t : Moment) (peer c : bytes) : CM unit :=
  modify (λ s, s_peers (active_peers s) (caps_warn (peer_caps s) (t_instant t) peer c).1 s).
Definition local_fp (s : CloudSync) : bytes := local_fingerprint sha256 (encryption_key (config (hk s))).

(** ** Group policy *)

(** [hash_api_key]: the digest in hexadecimal. *)
Definition hash_api_key (key : bytes) : bytes := sha256 key ≫= hex 2.

(** [check_group_access]: [None] admits, [Some] is the reason to refuse. *)
Definition group_decision (doc : HakoDoc) (api_key : option bytes) (client_id : bytes) : option bytes :=
  match doc_get doc b#("mode") ≫= value_to_string with
  | None => None
  | Some mode =>
      if bytes_eqb mode b#("open") then None
      else if bytes_eqb mode b#("registered") then
        let presented := default [] api_key in
        let expected := default [] (doc_get doc b#("api_key_hash") ≫= value_to_string) in
        if bool_decide (expected = []) || negb (timing_safe_eq (hash_api_key presented) expected)
        then Some b#("group requires a valid API key")
        else
          let members := strings_of (doc_get doc b#("members")) in
          if negb (bool_decide (members = [])) && negb (bool_decide (client_id ∈ members))
          then Some b#("client not registered for group") else None
      else Some (b#("unknown group mode '") ++ mode ++ b#("'"))
  end.
Definition check_group_access (t : Moment) (room : bytes) (api_key : option bytes) (client_id : bytes) : CM (option bytes) := λ s,
  match on_node (hako_get from_secret (t_now t) (t_free t) GROUPS_COLLECTION room) s with
  | (s, Ok (Some doc)) => (s, Ok (group_decision doc api_key client_id))
  | (s, Panic) => (s, Panic)
  | (s, _) => (s, Ok None)
  end.

(** ** Catch-up *)

(** [collect_catchup_ops]: the time of an entry, from the bytes of the value where
    the pointer has none. *)
Definition catchup_time (since_ts : Z) (p : Pointer) : SR StorageEngine Z :=
  match p with
  | PDeleted timestamp => mret timestamp
  | PInlined b => lift (time_of b)
  | PBlobPending d => mret (_time d)
  | PBlobPendingData _ skeleton => lift (time_of skeleton)
  | PSegment _ _ _ | PBlob _ _ =>
      if since_ts <=? 0 then mret 1
      else λ e,
        match read_pointer_internal p false e with
        | (e, Panic) => (e, Panic)
        | (e, Ok (Some b)) => (e, Ok (match get_range b 2 10 with Some s => i64_of_le s | None => 0 end))
        | (e, _) => (e, Ok 0)
        end
  end.
Fixpoint changed_since (since_ts : Z) (entries : list (bytes * Pointer)) : SR StorageEngine (list (bytes * Pointer)) :=
  match entries with
  | [] => mret []
  | kp :: entries =>
      ts ← catchup_time since_ts kp.2;
      rest ← changed_since since_ts entries;
      mret (if since_ts <? ts then kp :: rest else rest)
  end.
Definition raw_op (kp : bytes * Pointer) : WalOp :=
  let '(key, p) := kp in
  match p with
  | PDeleted timestamp => Delete key timestamp
  | PInlined b => PutInlined key b
  | PBlobPending d => PutInlined key (encode d)
  | PBlobPendingData _ skeleton => PutInlined key skeleton
  | PSegment segment_id offset len => Put key segment_id offset len
  | PBlob offset len => PutBlob key offset len
  end.
(** Blob links are inflated; a value that cannot be read is left out. *)
Fixpoint inflate_ops (ops : list WalOp) : SR StorageEngine (list WalOp) :=
  match ops with
  | [] => mret []
  | op :: ops =>
      one ← match op with
            | Delete _ _ => mret [op]
            | PutInlined key _ | Put key _ _ _ | PutBlob key _ _ =>
                value ← resolve_send_bytes op;
                mret (match value with Some value => [PutInlined key value] | None => [] end)
            | _ => mret []
            end;
      rest ← inflate_ops ops;
      mret (one ++ rest)
  end.
Definition catchup_ops (m : Marks) (c : bytes) (since_ts : Z) : SR StorageEngine (list WalOp) :=
  e ← get_st;
  changed ← changed_since since_ts (hash_iter (index (idx e)));
  inflate_ops (raw_op <$> List.filter (λ kp, negb (is_local_only m c kp.1)) changed).
Definition collect_catchup_ops (t : Moment) (c : bytes) (since_ts : Z) : CM (list WalOp) := λ s,
  match on_node (get_shard from_secret (t_now t) c) s with
  | (s, Ok _) => on_node (on_shard c (catchup_ops (marks (node s)) c since_ts)) s
  | (s, Err _) => (s, Ok [])
  | (s, Panic) => (s, Panic)
  end.

(** Whether a collection that is encrypted here may go to a peer. *)
Definition may_send (s : CloudSync) (c peer : bytes) : bool :=
  negb (is_collection_encrypted from_secret (hk s) c) || caps_allow true (local_fp s) (caps_get (peer_caps s) peer).

(** [send_catchup_deltas]: the messages, from the shared cache for a client that has
    nothing; [None] ends the transfer. *)
Definition encode_pages (c : bytes) (pages : list (list WalOp)) : option (list bytes) :=
  mapM (λ ops, to_vec (Replication 0 c ops)) pages.
Definition fresh_packets (t : Moment) (c : bytes) (client_ts server_ts : Z) : CM (option (list bytes)) :=
  ops ← collect_catchup_ops t c client_ts;
  if bool_decide (ops = []) then mret None
  else match encode_pages c (page_out_ops ops) with
       | None => mret None
       | Some packets =>
           _ ← modify (λ s, s_catchup (<[c := mkCatchup server_ts packets]> (catchup_cache s)) (catchup_cache_hits s) s);
           mret (Some packets)
       end.
Definition catchup_packets (t : Moment) (c : bytes) (client_ts server_ts : Z) : CM (option (list bytes)) :=
  s ← get_st;
  match (entry ← catchup_cache s !! c; if (cc_server_ts entry =? server_ts) && (client_ts =? 0) then Some (packets entry) else None) with
  | Some packets => _ ← modify (λ s, s_catchup (catchup_cache s) (catchup_cache_hits s + 1) s); mret (Some packets)
  | None => fresh_packets t c client_ts server_ts
  end.
(** The pages are sent until one fails. *)
Fixpoint give_pages (t : Moment) (conn : nat) (msgs : list bytes) : CM unit :=
  match msgs with
  | [] => mret tt
  | b :: msgs =>
      s ← get_st;
      if alive t conn (length (outbox s)) then _ ← give conn b; give_pages t conn msgs else mret tt
  end.
Definition send_catchup_deltas (t : Moment) (c : bytes) (client_ts server_ts : Z) (peer_key : bytes) : CM unit :=
  s ← get_st;
  if is_sync_withheld (hk s) c then mret tt
  else if negb (may_send s c peer_key) then warn t peer_key c
  else
    packets ← catchup_packets t c client_ts server_ts;
    match packets with
    | None => mret tt
    | Some packets =>
        s ← get_st;
        match active_peers s !! peer_key with Some conn => give_pages t conn packets | None => mret tt end
    end.

(** ** Ingest *)

(** The item reaches the buffer of its collection. *)
Definition buffer_item (item : IngestItem) (b : gmap bytes (list IngestItem)) : gmap bytes (list IngestItem) :=
  <[it_collection item := default [] (b !! it_collection item) ++ [item]]> b.
Definition total_pending (b : gmap bytes (list IngestItem)) : nat := sum_list (length <$> (map_to_list b).*2).

(** What the loop over the items of a collection collects. *)
Record Batch := mkBatch {
  b_ops : list WalOp;
  b_puts : list (bytes * HakoDoc);
  sender_relays : gmap (option bytes) (list WalOp) }.
Definition batch_push (item : IngestItem) (op : WalOp) (puts : list (bytes * HakoDoc)) (b : Batch) : Batch :=
  mkBatch (b_ops b ++ [op]) (b_puts b ++ puts)
    (<[sender_client_id item := default [] (sender_relays b !! sender_client_id item) ++ [it_op item]]> (sender_relays b)).

(** What [db.get] has, if it answers. *)
Definition existing (t : Moment) (c key : bytes) : CM (option HakoDoc) := λ s,
  match on_node (hako_get from_secret (t_now t) (t_free t) c key) s with
  | (s, Err _) => (s, Ok None)
  | r => r
  end.
(** [is_stale_remote_delete], and the same test for puts. *)
Definition is_stale (t : Moment) (c key : bytes) (ts : Z) : CM bool :=
  d ← existing t c key; mret (match d with Some d => ts <=? _time d | None => false end).
(** The echo entry and the clock of an accepted operation. *)
Definition accept_ts (t : Moment) (c key : bytes) (ts : Z) : CM unit :=
  _ ← modify (λ s, s_echo (<[echo_key c key := ts]> (echo_cache s)) s);
  on_node (modify (λ h, h_with_clock (observe_remote_ts (t_micros t) (last_ts_watermark h) ts) (id_sequence h) h)).
Definition ingest_checked (t : Moment) (c : bytes) (b : Batch) (item : IngestItem) : CM Batch :=
  match it_op item with
  | PutInlined key value =>
      let ts := default 0 (_time <$> decode value) in
      if ts =? 0 then mret b
      else
        stale ← is_stale t c key ts;
        if (stale : bool) then mret b
        else
          _ ← accept_ts t c key ts;
          mret (batch_push item (PutInlined key value) (match decode value with Some d => [(key, d)] | None => [] end) b)
  | Delete key timestamp =>
      stale ← is_stale t c key timestamp;
      if (stale : bool) then mret b
      else
        _ ← accept_ts t c key timestamp;
        mret (batch_push item (Delete key timestamp) [] b)
  | _ => mret b
  end.
Definition ingest_item (t : Moment) (c : bytes) (enc_local : bool) (fp : bytes) (b : Batch) (item : IngestItem) : CM Batch :=
  s ← get_st;
  match sender_client_id item with
  | Some sender_key =>
      if enc_local && negb (caps_allow true fp (caps_get (peer_caps s) sender_key)) then _ ← warn t sender_key c; mret b
      else ingest_checked t c b item
  | None => ingest_checked t c b item
  end.
Fixpoint ingest_items (t : Moment) (c : bytes) (enc_local : bool) (fp : bytes) (b : Batch) (items : list IngestItem) : CM Batch :=
  match items with
  | [] => mret b
  | item :: items => b ← ingest_item t c enc_local fp b item; ingest_items t c enc_local fp b items
  end.

(** [apply_timestamped]: log and index of the collection, under one lock; then
    versions, indexer, watchers.  Deletions are not handed to the indexer. *)
Definition op_pointer_update (op : WalOp) : option (bytes * option Pointer) :=
  match op with
  | PutInlined key value => Some (key, Some (PInlined value))
  | Delete key timestamp => Some (key, Some (PDeleted timestamp))
  | _ => None
  end.
Definition log_timestamped (now : Z) (ops : list WalOp) : SR StorageEngine unit :=
  e ← get_st;
  let tx_id := next_tx_id e in
  _ ← modify (e_with_tx (tx_id + 1));
  _ ← on_wal (λ c w, append_batch_fast now c w tx_id ops true);
  modify (λ e, e_with_idx (update_batch (idx e) (omap op_pointer_update ops)) e).
Definition op_event (c : bytes) (op : WalOp) : option (bytes * ChangeEvent) :=
  match op with
  | PutInlined _ _ => Some (c, mkEvent (get_key op) ChPut)
  | Delete _ _ => Some (c, mkEvent (get_key op) ChDelete)
  | _ => None
  end.
Definition apply_timestamped (now : Z) (c : bytes) (ops : list WalOp) (puts : list (bytes * HakoDoc)) (keys : list bytes) : SR Hako unit :=
  _ ← get_shard from_secret now c;
  _ ← on_shard c (log_timestamped now ops);
  _ ← modify (bump_versions_by_keys keys);
  _ ← modify (enqueue_index_update (mkIndexOp c puts []));
  modify (notify_watchers (omap (op_event c) ops)).

(** The relay of the operations of one sender to one peer. *)
Definition relay_allowed (s : CloudSync) (c : bytes) (enc_local : bool) (fp : bytes) (origin : option bytes) (peer_id : bytes) : bool :=
  let recipient := caps_get (peer_caps s) peer_id in
  let o := origin ≫= caps_get (peer_caps s) in
  let origin_encrypted := match o with Some o => bool_decide (c ∈ peer_encrypted_cols o) | None => false end in
  let origin_fp := default zero_fp (key_fp <$> o) in
  let origin_ok := negb origin_encrypted || caps_allow true origin_fp recipient in
  let local_ok := negb enc_local || caps_allow true fp recipient in
  origin_ok && local_ok.
Definition relay_to (t : Moment) (c : bytes) (enc_local : bool) (fp : bytes) (origin : option bytes) (msg : bytes) (peer : bytes * nat) : CM unit :=
  s ← get_st;
  if bool_decide (Some peer.1 = origin) then mret tt
  else if negb (relay_allowed s c enc_local fp origin peer.1) then warn t peer.1 c
  else if has_room t peer.2 msg then give peer.2 msg else mret tt.
Definition relay (t : Moment) (c : bytes) (enc_local : bool) (fp : bytes) (r : option bytes * list WalOp) : CM unit :=
  if bool_decide (r.2 = []) then mret tt
  else match to_vec (Replication (t_micros t) c r.2) with
       | Some msg => s ← get_st; each (relay_to t c enc_local fp r.1 msg) (hash_iter (active_peers s))
       | None => mret tt
       end.

(** [flush_ingest_buffer]: old echoes, then collection by collection. *)
Definition prune_echo (t : Moment) (c : gmap bytes Z) : gmap bytes Z :=
  if 10000 <? Z.of_nat (size c) then base.filter (λ kv : bytes * Z, t_micros t - 300000000 < kv.2) c else c.
Definition flush_collection (t : Moment) (ci : bytes * list IngestItem) : CM unit :=
  let '(c, items) := ci in
  s ← get_st;
  if bool_decide (length items = 0%nat) then mret tt
  else if is_collection_local (marks (node s)) c then mret tt
  else if is_sync_withheld (hk s) c then mret tt
  else
    let enc_local := is_collection_encrypted from_secret (hk s) c in
    let fp := local_fp s in
    b ← ingest_items t c enc_local fp (mkBatch [] [] ∅) items;
    _ ← match b_ops b with
        | [] => mret tt
        | ops => λ s, let '(s, _) := on_node (apply_timestamped (t_now t) c ops (b_puts b) (get_key <$> ops)) s in (s, Ok tt)
        end;
    each (relay t c enc_local fp) (std_iter (sender_relays b)).
Definition flush_ingest_buffer (t : Moment) : CM unit :=
  s ← get_st;
  if bool_decide (batch_buffer s = ∅) then mret tt
  else
    _ ← modify (λ s, s_ingest (seen_messages s) (ingest s) ∅ (s_echo (prune_echo t (echo_cache s)) s));
    each (flush_collection t) (hash_iter (batch_buffer s)).
(** [spawn_batch_flusher]: an item arrives, and 512 of them are flushed at once. *)
Definition receive_item (t : Moment) : CM unit :=
  s ← get_st;
  match ingest s with
  | [] => mret tt
  | item :: rest =>
      let b := buffer_item item (batch_buffer s) in
      _ ← modify (s_ingest (seen_messages s) rest b);
      if (512 <=? total_pending b)%nat then flush_ingest_buffer t else mret tt
  end.

(** ** The server *)

Definition reply (conn : nat) (p : CloudPacket) : CM unit := match to_vec p with Some b => give conn b | None => mret tt end.
Definition refuse {A} (conn : nat) (why : bytes) : CM (option A) := _ ← reply conn (AuthResult false (Some why)); mret None.

(** [handle_server_client], the first message of a connection, in the three steps
    between which other connections come: the checks, among them the capacity under the
    read lock of the peers; the entry into the peers under their write lock; the
    capabilities of the peer and the answer. *)
Definition at_capacity (s : CloudSync) (cid : bytes) : bool :=
  (0 <? max_clients s) && negb (bool_decide (is_Some (active_peers s !! cid))) && (max_clients s <=? Z.of_nat (size (active_peers s))).
Definition hello_check (t : Moment) (conn : nat) (first : option bytes) : CM (option Hello) :=
  match first ≫= from_slice with
  | Some (Authenticate _ cid presented_name presented_key api_key _ enc_fp enc_cols) =>
      s ← get_st;
      if negb (bytes_eqb presented_name (room_name s)) || negb (bytes_eqb presented_key (room_key s))
      then refuse conn b#("room mismatch")
      else
        denied ← check_group_access t presented_name api_key cid;
        match denied with
        | Some e => refuse conn e
        | None =>
            s ← get_st;
            if at_capacity s cid then refuse conn b#("room at capacity")
            else mret (Some (mkHello conn cid presented_name presented_key enc_fp enc_cols))
        end
  | _ => refuse conn b#("Authentication or Room Key mismatch")
  end.
Definition hello_enter (j : Hello) : CM unit := modify (λ s, s_peers (<[hello_cid j := hello_conn j]> (active_peers s)) (peer_caps s) s).
Definition hello_welcome (j : Hello) : CM unit :=
  _ ← modify (λ s, s_peers (active_peers s)
         (caps_set (peer_caps s) (hello_cid j) (mkCaps (default zero_fp (hello_fp j)) (hello_cols j))) s);
  match to_vec (AuthResult true None) with Some b => give (hello_conn j) b | None => lift Panic end.
(** The handshake when no other connection comes in between: the key of the peer once
    it is admitted. *)
Definition handle_hello (t : Moment) (conn : nat) (first : option bytes) : CM (option bytes) :=
  checked ← hello_check t conn first;
  match checked with
  | None => mret None
  | Some j => _ ← hello_enter j; _ ← hello_welcome j; mret (Some (hello_cid j))
  end.

(** A replicated batch enters the ingest queue unless its number was seen; the last
    thousand numbers are kept. *)
Definition note_seen (msg_id : Z) (seen : list Z) : list Z * bool :=
  if msg_id =? 0 then (seen, true)
  else if bool_decide (msg_id ∈ seen) then (seen, false)
  else let seen := seen ++ [msg_id] in ((if (1000 <? length seen)%nat then drop 1 seen else seen), true).
Definition receive_batch (msg_id : Z) (c : bytes) (ops : list WalOp) (sender : option bytes) : CM unit := modify (λ s,
  let '(seen, fresh) := note_seen msg_id (seen_messages s) in
  s_ingest seen (if fresh then ingest s ++ ((λ op, mkItem c op sender) <$> ops) else ingest s) (batch_buffer s) s).
Definition note_indexes (idx : option IndexList) : CM unit :=
  match idx with Some i => modify (λ s, s_indexes (peer_indexes s ++ [i]) s) | None => mret tt end.

(** A version ping: the own versions, then the deltas of the collections that are
    ahead of the client's. *)
Definition catch_up (t : Moment) (client_versions : gmap bytes Z) (peer_key : bytes) (cv : bytes * Z) : CM unit :=
  let '(c, server_ts) := cv in
  let client_ts := default 0 (client_versions !! c) in
  if client_ts <? server_ts then send_catchup_deltas t c client_ts server_ts peer_key else mret tt.
Definition handle_ping (t : Moment) (peer_key : bytes) (client_versions : gmap bytes Z) (idx : option IndexList) : CM unit :=
  _ ← note_indexes idx;
  server_versions ← on_node (get_version_map from_secret (t_now t));
  s ← get_st;
  _ ← match to_vec (VersionPing server_versions (Some (list_indexes (hk s)))), active_peers s !! peer_key with
      | Some b, Some conn => if alive t conn (length (outbox s)) then give conn b else mret tt
      | _, _ => mret tt
      end;
  each (catch_up t client_versions peer_key) (hash_iter server_versions).
Definition handle_packet (t : Moment) (peer_key : bytes) (b : bytes) : CM unit :=
  match from_slice b with
  | Some (Replication msg_id c ops) => receive_batch msg_id c ops (Some peer_key)
  | Some (VersionPing versions idx) => handle_ping t peer_key versions idx
  | _ => mret tt
  end.
(** The end of a connection. *)
Definition disconnect (peer_key : bytes) : CM unit :=
  modify (λ s, s_peers (base.delete peer_key (active_peers s)) (caps_remove (peer_caps s) peer_key) s).

(** ** Tailers *)

(** An operation of the log as both tailers send it. *)
Definition tail_op (c : bytes) (op : WalOp) : CM (list WalOp) := λ s,
  match op with
  | PutInlined _ _ | Delete _ _ =>
      let key := get_key op in
      let '(cache, is_echo) := echo_take (echo_cache s) (echo_key c key) (op_logical_time op) in
      let s := s_echo cache s in
      if is_echo || is_local_only (marks (node s)) c key then (s, Ok [])
      else match op with
           | PutInlined key value =>
               match decode value with
               | Some doc =>
                   if doc_has_links doc
                   then match on_node (resolve_in c doc) s with
                        | (s, Ok doc) => (s, Ok [PutInlined key (encode doc)])
                        | (s, Err _) => (s, Ok [])
                        | (s, Panic) => (s, Panic)
                        end
                   else (s, Ok [op])
               | None => (s, Ok [op])
               end
           | _ => (s, Ok [op])
           end
  | _ => (s, Ok [])
  end.
Fixpoint tail_ops (c : bytes) (ops : list WalOp) : CM (list WalOp) :=
  match ops with
  | [] => mret []
  | op :: ops => one ← tail_op c op; rest ← tail_ops c ops; mret (one ++ rest)
  end.
(** One collection in one round of a tailer: what to send, and the new offset. *)
Definition tail_collection (t : Moment) (c : bytes) (offsets : gmap bytes Z) : CM (list WalOp * gmap bytes Z) := λ s,
  if is_sync_withheld (hk s) c then (s, Ok ([], offsets))
  else match on_node (get_shard from_secret (t_now t) c) s with
       | (s, Err _) => (s, Ok ([], offsets))
       | (s, Panic) => (s, Panic)
       | (s, Ok e) =>
           match tail (wal e) (default 0 (offsets !! c)) with
           | Err _ => (s, Ok ([], offsets))
           | Panic => (s, Panic)
           | Ok (ops, new_pos) =>
               if bool_decide (ops = []) then (s, Ok ([], offsets))
               else (to_send ← tail_ops c ops; mret (to_send, <[c := new_pos]> offsets)) s
           end
       end.

(** [spawn_server_outbound_tailer]: a page goes to every peer that may have it;
    [micros i] is the time at which page [i] gets its number. *)
Definition fan_out (t : Moment) (c : bytes) (msg : bytes) (peer : bytes * nat) : CM unit :=
  s ← get_st;
  if negb (may_send s c peer.1) then warn t peer.1 c
  else if has_room t peer.2 msg then give peer.2 msg else mret tt.
Definition broadcast (t : Moment) (micros : nat → Z) (c : bytes) (ip : nat * list WalOp) : CM unit :=
  match to_vec (Replication (micros ip.1) c ip.2) with
  | Some msg => s ← get_st; each (fan_out t c msg) (hash_iter (active_peers s))
  | None => mret tt
  end.
Definition server_tail (t : Moment) (micros : nat → Z) (c : bytes) (offsets : gmap bytes Z) : CM (gmap bytes Z) :=
  '(to_send, offsets) ← tail_collection t c offsets;
  _ ← each (broadcast t micros c) (imap pair (page_out_ops to_send));
  mret offsets.

(** ** The client *)

(** The first packet of a connection. *)
Definition client_hello (s : CloudSync) (token client_id : bytes) (api_key : option bytes) (version : bytes) : CloudPacket :=
  Authenticate token client_id (room_name s) (room_key s) api_key (Some version) (Some (local_fp s))
    (List.filter (is_collection_encrypted from_secret (hk s)) (sync_collections (hk s))).

(** [push_client_deltas_upstream]: pages with distinct numbers; [micros i] is the
    time of page [i], [alive] whether the queue to the server takes it. *)
Fixpoint push_pages (t : Moment) (micros : nat → Z) (c : bytes) (i : nat) (pages : list (list WalOp)) : CM unit :=
  match pages with
  | [] => mret tt
  | page :: pages =>
      s ← get_st;
      if alive t 0 (length (outbound s))
      then _ ← modify (λ s, s_out (outbox s) (outbound s ++ [Replication (micros i + Z.of_nat i) c page]) s);
           push_pages t micros c (S i) pages
      else mret tt
  end.
Definition push_client_deltas_upstream (t : Moment) (micros : nat → Z) (c : bytes) (server_ts : Z) : CM unit :=
  s ← get_st;
  if is_sync_withheld (hk s) c then mret tt
  else
    ops ← collect_catchup_ops t c server_ts;
    if bool_decide (ops = []) then mret tt else push_pages t micros c 0 (page_out_ops ops).

(** What the client does with a packet of the server. *)
Definition push_ahead (t : Moment) (micros : nat → Z) (server_versions : gmap bytes Z) (cv : bytes * Z) : CM unit :=
  let '(c, client_ts) := cv in
  let server_ts := default 0 (server_versions !! c) in
  if server_ts <? client_ts then push_client_deltas_upstream t micros c server_ts else mret tt.
Definition client_packet (t : Moment) (micros : nat → Z) (b : bytes) : CM unit :=
  match from_slice b with
  | Some (VersionPing server_versions idx) =>
      _ ← note_indexes idx;
      client_versions ← on_node (get_version_map from_secret (t_now t));
      each (push_ahead t micros server_versions) (hash_iter client_versions)
  | Some (Replication msg_id c ops) => receive_batch msg_id c ops None
  | _ => mret tt
  end.

(** [spawn_client_outbound_tailer]: the pages go to the queue until it is closed. *)
Fixpoint queue_pages (t : Moment) (micros : nat → Z) (c : bytes) (i : nat) (pages : list (list WalOp)) : CM unit :=
  match pages with
  | [] => mret tt
  | page :: pages =>
      s ← get_st;
      if alive t 0 (length (outbound s))
      then _ ← modify (λ s, s_out (outbox s) (outbound s ++ [Replication (micros i) c page]) s); queue_pages t micros c (S i) pages
      else mret tt
  end.
Definition client_tail (t : Moment) (micros : nat → Z) (c : bytes) (offsets : gmap bytes Z) : CM (gmap bytes Z) :=
  '(to_send, offsets) ← tail_collection t c offsets;
  _ ← queue_pages t micros c 0 (page_out_ops to_send);
  mret offsets.
End Star.
