(* ===== verification/CloudProps.v ===== *)
(** * What the cloud server sends and what a client makes of it

    Pages hold every operation once, within their limits; catch-up sends exactly the
    newer versions that are not local; a client that joins with an empty collection
    ends up with the versions of the server; only admitted connections are served. *)

From stdpp Require Import prelude list gmap strings.
From Stdlib Require Import ZArith Lia.
From S2P Require Import Prelude RustStd Error Config Crypto VFile Models Value Doc DocFacts DocCodec DocAccess Wal WalFacts PageCache StorageIndex.
From S2P Require Import StorageIndexFacts Segment SegmentFacts Blob Storage StorageMaint StorageFacts StorageView StorageModels Matcher Worker SyncCore SyncFacts.
From S2P Require Import SyncProps Filter Schema Composite Ledger CompositeManager Facade FacadeFacts FacadeApply FacadeState FacadeProps Graph Query IndexManager QueryFront Cloud.

Local Open Scope Z_scope.
Local Open Scope hako_scope.

(** ** Pages *)

Definition wire_len (page : list WalOp) : Z := foldr (λ op n, op_wire_len op + n) 0 page.
(** A page within both limits, or of one operation. *)
Definition page_ok (page : list WalOp) : Prop :=
  page ≠ [] ∧ (length page <= CATCHUP_PAGE_MAX_OPS)%nat ∧ (wire_len page <= CATCHUP_PAGE_MAX_BYTES ∨ length page = 1%nat).

Lemma wire_len_app a b : wire_len (a ++ b) = wire_len a + wire_len b.
Proof. induction a as [|x a IH]; cbn [app wire_len foldr]; [done|]. unfold wire_len in *. lia. Qed.

Lemma page_op_ok pages cur n op :
  Forall page_ok pages → (cur = [] ∨ page_ok cur) → n = wire_len cur →
  match page_op (pages, cur, n) op with
  | (pages', cur', n') => concat pages' ++ cur' = concat pages ++ cur ++ [op] ∧ Forall page_ok pages' ∧ page_ok cur' ∧ n' = wire_len cur'
  end.
Proof.
  intros Hp Hc ->. unfold page_op. cbv zeta. match goal with |- context [if ?b then _ else _] => destruct b eqn:Hif end.
  - apply andb_true_iff in Hif as [Hne%negb_true_iff%bool_decide_eq_false _]. destruct Hc as [|Hc]; [done|].
    rewrite concat_app. cbn [concat]. rewrite app_nil_r, <-app_assoc. split_and!; [done| | |].
    + apply Forall_app. split; [done|]. by apply Forall_singleton.
    + split_and!; [done|unfold CATCHUP_PAGE_MAX_OPS; cbn; lia|by right].
    + unfold wire_len. cbn. lia.
  - split_and!; [done|done| |by rewrite wire_len_app; unfold wire_len at 3; cbn; lia].
    apply andb_false_iff in Hif. split_and!; [by destruct cur| |].
    + rewrite length_app. cbn [length]. destruct Hif as [Hn|Hn].
      * apply negb_false_iff, bool_decide_eq_true in Hn as ->. unfold CATCHUP_PAGE_MAX_OPS. cbn. lia.
      * apply orb_false_iff in Hn as [Hn%Nat.leb_gt _]. lia.
    + destruct Hif as [Hn|Hn].
      * apply negb_false_iff, bool_decide_eq_true in Hn as ->. by right.
      * apply orb_false_iff in Hn as [_ Hn%Z.ltb_ge]. left. rewrite wire_len_app. unfold wire_len at 2. cbn. lia.
Qed.

Lemma page_ops_ok ops pages cur n :
  Forall page_ok pages → (cur = [] ∨ page_ok cur) → n = wire_len cur →
  match foldl page_op (pages, cur, n) ops with
  | (pages', cur', _) => concat pages' ++ cur' = concat pages ++ cur ++ ops ∧ Forall page_ok pages' ∧ (cur' = [] ∨ page_ok cur')
  end.
Proof.
  revert pages cur n; induction ops as [|op ops IH]; intros pages cur n Hp Hc Hn; cbn [foldl]; [by rewrite app_nil_r|].
  pose proof (page_op_ok pages cur n op Hp Hc Hn) as Hs. destruct (page_op _ _) as [[pages' cur'] n'].
  destruct Hs as (Heq & Hp' & Hc' & Hn'). specialize (IH pages' cur' n' Hp' (or_intror Hc') Hn').
  destruct (foldl _ _ _) as [[pages'' cur''] n'']. destruct IH as (Heq' & ? & ?). split_and!; [|done|done].
  rewrite Heq', app_assoc, Heq. by rewrite <-!app_assoc.
Qed.

Lemma page_out_concat ops : concat (page_out_ops ops) = ops ∧ Forall page_ok (page_out_ops ops).
Proof.
  unfold page_out_ops. pose proof (page_ops_ok ops [] [] 0 (Forall_nil_2 _) (or_introl eq_refl) eq_refl) as Hs.
  destruct (foldl _ _ _) as [[pages cur] n]. destruct Hs as (Heq & Hp & Hc). destruct cur as [|op cur].
  - by rewrite app_nil_r in Heq.
  - rewrite concat_app. cbn [concat]. rewrite app_nil_r. split; [done|]. apply Forall_app. split; [done|].
    destruct Hc as [|Hc]; [done|]. by apply Forall_singleton.
Qed.

(** C40: The pages of a batch hold its operations in order, each once, and no page
    is empty, has more than a thousand operations, or is larger than six megabytes
    unless it is a single operation. *)
Theorem pages_exact ops : concat (page_out_ops ops) = ops ∧ Forall page_ok (page_out_ops ops).
Proof. apply page_out_concat. Qed.

(** ** Catch-up *)

(** The time in the bytes of a document. *)
Lemma decode_time_bytes b d : decode b = Some d → ∃ s, get_range b 2 10 = Some s ∧ _time d = i64_of_le s.
Proof.
  unfold decode, view_new. split_if; [done|]. destruct (get_range b 2 10) as [s|]; [|done]. opt_simpl.
  destruct (get_range b 10 12); [|done]. opt_simpl. destruct (iter_all _ _) as [items it].
  destruct (mapM _ items); [|done]. opt_simpl. split_if; [|done]. intros [= <-]. by exists s.
Qed.

Section CatchUp.
Context `{CrcLaws} `{ZstdLaws} `{HashIterLaws} {cipher : Type} `{AeadLaws cipher}.
Implicit Types (e : StorageEngine cipher).

(** A pointer whose document can go over the wire as it is: no blob of it waits to be
    written, it decodes, it has no link into the blob file, and it has a time. *)
Definition sendable e (p : Pointer) : Prop :=
  match p with PBlobPending _ | PBlobPendingData _ _ => False | _ => True end ∧
  (∀ b, ptr_value e p = Some b → ∃ d, decode b = Some d ∧ doc_has_links d = false) ∧
  0 < (ptr_version e p).1.
Definition sendable_store e : Prop := replica_ok e ∧ map_Forall (λ _ p, sendable e p) (index (idx e)).

Lemma self_cache e : e_with_cache (cache e) e = e.
Proof. by destruct e. Qed.

Lemma ptr_value_ok e p : ptr_ok e p → sendable e p → ptr_value e p = None → ∃ t, p = PDeleted t.
Proof.
  intros Hp (Hs & _). destruct p; try done; [| |by eauto].
  - destruct Hp as (l & s & v & Hseg & Hr). cbn. rewrite Hseg. cbn. by rewrite (rec_at_read _ _ _ _ Hr).
  - destruct Hp as [bm Hbm]. cbn. by rewrite Hbm.
Qed.

Lemma catchup_time_spec since e p :
  store_ok e → ptr_ok e p → timed p → sendable e p →
  ∃ c ts, catchup_time since p e = (e_with_cache c e, Ok ts) ∧ store_ok (e_with_cache c e) ∧
    (since <? ts) = (since <? (ptr_version e p).1).
Proof.
  intros He Hp Ht Hs. pose proof (ptr_value_ok e p Hp Hs) as Hv. destruct Hs as (Hset & Hd & Hpos).
  destruct p as [sid off len|b|off len|d|d sk|t]; try done; cbn [catchup_time].
  1,3: destruct (Z.leb_spec since 0);
    [exists (cache e), 1; rewrite self_cache, !(proj2 (Z.ltb_lt _ _)) by lia; done|];
    lazymatch goal with |- context [read_pointer_internal ?p _ _] =>
      destruct (read_pointer_value e p false He Hp) as (c & -> & Hc & _); destruct (ptr_value e p) as [b|] eqn:Hb; [|by destruct (Hv eq_refl)]
    end;
    destruct (Hd b eq_refl) as (d & Hdec & _); destruct (decode_time_bytes b d Hdec) as (s & Hs & Htd); rewrite Hs;
    exists c, (i64_of_le s); split_and!; [done|done|]; unfold ptr_version; rewrite Hb; opt_simpl; rewrite Hdec; cbn; by rewrite Htd.
  - unfold lift, time_of. cbn in Ht. exists (cache e), (i64_of_le (default [] (get_range b 2 10))).
    rewrite self_cache. split_and!; [|done|done]. destruct (get_range b 2 10) eqn:Hr; [done|]. unfold get_range in Hr.
    rewrite (proj2 (Z.leb_le 10 _)) in Hr by lia. done.
  - exists (cache e), t. by rewrite self_cache.
Qed.

Lemma sendable_cache c e p : sendable e p → sendable (e_with_cache c e) p.
Proof. by destruct p. Qed.

Lemma changed_since_spec since entries e :
  store_ok e → Forall (λ kp, ptr_ok e kp.2 ∧ timed kp.2 ∧ sendable e kp.2) entries →
  ∃ c, changed_since since entries e = (e_with_cache c e, Ok (List.filter (λ kp, since <? (ptr_version e kp.2).1) entries)) ∧
    store_ok (e_with_cache c e).
Proof.
  intros He Hall. revert e He Hall. induction entries as [|kp entries IH]; intros e He Hall.
  { exists (cache e). by rewrite self_cache. }
  apply Forall_cons in Hall as [(Hp & Ht & Hs) Hall]. cbn [changed_since List.filter].
  destruct (catchup_time_spec since e kp.2 He Hp Ht Hs) as (c & ts & Hct & Hc & Hts).
  destruct (IH (e_with_cache c e) Hc) as (c' & Hr & Hc'); [exact Hall|].
  exists c'. split; [|exact Hc']. unfold mbind, SR_bind. rewrite Hct, Hr, Hts. done.
Qed.

(** The operation for a version. *)
Lemma inflate_spec (kps : list (bytes * Pointer)) e :
  store_ok e → Forall (λ kp, ptr_ok e kp.2 ∧ timed kp.2 ∧ sendable e kp.2) kps →
  ∃ c, inflate_ops (raw_op <$> kps) e = (e_with_cache c e, Ok ((λ kp, wal_of (kp.1, ptr_version e kp.2)) <$> kps)) ∧
    store_ok (e_with_cache c e).
Proof.
  intros He Hall. revert e He Hall. induction kps as [|[k p] kps IH]; intros e He Hall.
  { exists (cache e). by rewrite self_cache. }
  apply Forall_cons in Hall as [(Hp & Ht & Hs) Hall]. cbn [fst snd] in *. rewrite !fmap_cons. cbn [inflate_ops fst snd].
  assert (∃ c one, (match raw_op (k, p) with
            | Delete _ _ => mret [raw_op (k, p)]
            | PutInlined key _ | Put key _ _ _ | PutBlob key _ _ =>
                value ← resolve_send_bytes (raw_op (k, p));
                mret (match value with Some value => [PutInlined key value] | None => [] end)
            | _ => mret [] end : SR (StorageEngine cipher) (list WalOp)) e = (e_with_cache c e, Ok one) ∧
            store_ok (e_with_cache c e) ∧ one = [wal_of (k, ptr_version e p)]) as (c & one & Hone & Hc & ->).
  { pose proof (ptr_value_ok e p Hp Hs) as Hv. destruct Hs as (Hset & Hd & _).
    destruct (read_pointer_value e p false He Hp) as (c & Hr & Hc & _).
    destruct p as [sid off len|b|off len|d|d sk|t]; try done; cbn [raw_op].
    1-3: unfold mbind, SR_bind, resolve_send_bytes; cbn [op_pointer]; rewrite Hr;
      lazymatch type of Hr with _ = (_, Ok ?v) => destruct v as [v0|] eqn:Hb; [|by destruct (Hv eq_refl)] end;
      destruct (Hd v0 eq_refl) as (d & -> & ->); exists c; eexists; split_and!; [done|done|];
      unfold ptr_version, wal_of; cbn [fst snd]; rewrite ?Hb; try done; by injection Hb as ->.
    exists (cache e). eexists. by rewrite self_cache. }
  destruct (IH (e_with_cache c e) Hc) as (c' & Hr & Hc'); [exact Hall|].
  exists c'. split; [|exact Hc']. unfold mbind at 1, SR_bind at 1. rewrite Hone. unfold mbind, SR_bind. rewrite Hr. done.
Qed.

(** What catch-up owes a peer that has everything up to [since]. *)
Definition owed (m : Marks) (c : bytes) (since : Z) e : list Change :=
  List.filter (λ kv, (since <? kv.2.1) && negb (is_local_only m c kv.1)) (map_to_list (versions e)).

Lemma filter_filter {A} (f g : A → bool) (l : list A) : List.filter f (List.filter g l) = List.filter (λ x, g x && f x) l.
Proof. induction l as [|x l IH]; cbn [List.filter]; [done|]. destruct (g x); cbn [List.filter andb]; [destruct (f x)|]; by rewrite IH. Qed.
Lemma filter_map {A B} (f : B → bool) (g : A → B) (l : list A) : List.filter f (g <$> l) = g <$> List.filter (λ x, f (g x)) l.
Proof. induction l as [|x l IH]; [done|]. rewrite fmap_cons. cbn [List.filter]. destruct (f (g x)); rewrite ?fmap_cons; by rewrite IH. Qed.

Lemma bfilter_perm {A} (f : A → bool) (l l' : list A) : l ≡ₚ l' → List.filter f l ≡ₚ List.filter f l'.
Proof.
  induction 1; cbn [List.filter]; [done|by destruct (f x); [apply Permutation_skip|]| |by etrans].
  destruct (f x), (f y); done || apply Permutation_swap.
Qed.

Lemma catchup_ops_spec m c since e :
  sendable_store e →
  ∃ ch ops, catchup_ops m c since e = (e_with_cache ch e, Ok ops) ∧ sendable_store (e_with_cache ch e) ∧
    ops ≡ₚ wal_of <$> owed m c since e.
Proof.
  intros [[He Ht] Hs].
  assert (∀ kp, kp ∈ hash_iter (index (idx e)) → ptr_ok e kp.2 ∧ timed kp.2 ∧ sendable e kp.2) as Hall.
  { intros [k p] Hin. rewrite hash_iter_perm in Hin. apply elem_of_map_to_list in Hin.
    split_and!; [destruct He as (_ & _ & Hp & _); by eapply Hp|by eapply Ht|by eapply Hs]. }
  unfold catchup_ops, mbind at 1, SR_bind at 1, get_st.
  destruct (changed_since_spec since (hash_iter (index (idx e))) e He) as (c1 & Hch & Hc1); [by apply Forall_forall|].
  unfold mbind, SR_bind. rewrite Hch.
  destruct (inflate_spec (List.filter (λ kp, negb (is_local_only m c kp.1)) (List.filter (λ kp, since <? (ptr_version e kp.2).1) (hash_iter (index (idx e)))))
    (e_with_cache c1 e) Hc1) as (c2 & Hin & Hc2).
  { apply Forall_forall. intros kp Hin. apply list_elem_of_In, filter_In in Hin as [Hin _]. apply filter_In in Hin as [Hin _].
    by apply Hall, list_elem_of_In. }
  exists c2. eexists. split; [exact Hin|]. split; [split; [split|]; done|].
  unfold owed, versions. rewrite map_to_list_fmap, filter_map, <-list_fmap_compose, filter_filter.
  apply fmap_Permutation, bfilter_perm, hash_iter_perm.
Qed.
End CatchUp.

(** ** Ingest *)

(** What an operation of the wire asks for, and whether a live document that is at
    least as new stands against it. *)
Definition cloud_change (op : WalOp) : option Change :=
  match op with
  | PutInlined k v => d ← decode v; if _time d =? 0 then None else Some (k, (_time d, Some v))
  | Delete k t => Some (k, (t, None))
  | _ => None
  end.
Definition outdated (m : gmap bytes Version) (c : Change) : bool :=
  match m !! c.1 with Some (t0, Some _) => c.2.1 <=? t0 | _ => false end.
Definition accepted (m : gmap bytes Version) (op : WalOp) : bool :=
  match cloud_change op with Some c => negb (outdated m c) | None => false end.

(** Operations as catch-up sends them: documents without links, with a time. *)
Definition clean_op (op : WalOp) : Prop :=
  match op with
  | PutInlined _ v => ∃ d, decode v = Some d ∧ doc_has_links d = false ∧ 0 < _time d
  | Delete _ t => 0 < t
  | _ => False
  end.

Section Receiving.
Context `{CrcLaws} `{ZstdLaws} `{HashIterLaws} {cipher : Type} `{AeadLaws cipher}.
Context (from_secret : bytes → EncryptionContext cipher) (to_lowercase : bytes → bytes).
Abbreviation Hako := (Hako (cipher := cipher)).
Implicit Types (h : Hako) (e : StorageEngine cipher).

Definition vers_of h (c : bytes) : gmap bytes Version := match shards h !! c with Some e => versions e | None => ∅ end.

Lemma versions_ext e e' : index (idx e') = index (idx e) → store_view e' = store_view e → versions e' = versions e.
Proof.
  intros Hi Hv. apply map_eq. intros k. unfold versions. rewrite !lookup_fmap, Hi.
  pose proof (view_lookup e k) as V. pose proof (view_lookup e' k) as V'. rewrite Hi, Hv, V in V'.
  destruct (index (idx e) !! k) as [p|]; [|done]. cbn in V' |- *. f_equal. by destruct p; cbn [ptr_version]; rewrite ?V'.
Qed.

(** Reads and clock updates between two states. *)
Definition still h h' : Prop :=
  state_ok to_lowercase h' ∧ (∀ c, view_of h' c = view_of h c) ∧ (∀ c, index_of h' c = index_of h c) ∧
  current h' = current h ∧ settings h' = settings h ∧ (∀ c, plain_at h c → plain_at h' c).

Lemma still_refl h : state_ok to_lowercase h → still h h.
Proof. done. Qed.
Lemma still_trans h1 h2 h3 : still h1 h2 → still h2 h3 → still h1 h3.
Proof.
  intros (A1 & A2 & A3 & A4 & A5 & A6) (B1 & B2 & B3 & B4 & B5 & B6). split_and!; [done|..].
  - intros c. by rewrite B2. - intros c. by rewrite B3. - congruence. - congruence. - intros c Hc. by apply B6, A6.
Qed.
Lemma still_clock h w : state_ok to_lowercase h → still h (h_with_clock w (id_sequence h) h).
Proof. intros Ho. split_and!; try done. by destruct Ho; split. Qed.
Lemma still_docs h h' c k : still h h' → docs_of h' c k = docs_of h c k.
Proof. intros (_ & Hv & _). unfold docs_of. by rewrite Hv. Qed.
Lemma still_allowed h h' c op : still h h' → allowed h' c op = allowed h c op.
Proof. intros (_ & _ & _ & _ & Hs & _). unfold settings in Hs. injection Hs as E1 E2 E3 E4 E5 E6 E7. unfold allowed. by rewrite E2, E3. Qed.

(** The collection can receive: loaded, readable, its documents in order. *)
Record receptive (c : bytes) h : Prop := {
  rc_state : state_ok to_lowercase h;
  rc_allowed : allowed h c AGet = true;
  rc_plain : plain_at h c;
  rc_store e : shards h !! c = Some e → sendable_store e }.

Lemma sendable_links e d : doc_has_links d = false → link_free d.
Proof.
  unfold doc_has_links, link_free. intros Hl. induction (fields d) as [|[k v] fs IH]; [done|]. cbn in *.
  apply orb_false_iff in Hl as [Hv Hl]. rewrite IH by done. by destruct v.
Qed.

Lemma docs_versions c h k :
  receptive c h →
  (∀ d, docs_of h c k = Some d → link_free d ∧ ∃ b, vers_of h c !! k = Some (_time d, Some b)) ∧
  (docs_of h c k = None → ∀ v, vers_of h c !! k = Some v → v.2 = None).
Proof.
  intros Hr. destruct (rc_plain _ _ Hr) as (e & He & _). pose proof (rc_store _ _ Hr e He) as [[Hok Ht] Hs].
  unfold docs_of, view_of, vers_of. rewrite He, versions_view.
  unfold versions. rewrite lookup_fmap. destruct (index (idx e) !! k) as [p|] eqn:Hk; [|done]. cbn [fmap option_fmap option_map mbind option_bind].
  destruct (Hs k p Hk) as (Hset & Hd & _).
  assert ((ptr_version e p).2 = ptr_value e p) as Hpv by (by destruct p). rewrite Hpv. split.
  - intros d. destruct (ptr_value e p) as [b|] eqn:Hb; [|done]. cbn. intros Hdec. destruct (Hd b eq_refl) as (d' & Hdec' & Hl).
    rewrite Hdec in Hdec'. injection Hdec' as <-. split; [by apply (sendable_links e)|]. exists b. f_equal.
    destruct (decode_time_bytes b d Hdec) as (s & Hs' & ->).
    destruct p as [sid off len|b0|off len|d0|d0 sk|t]; try done; unfold ptr_version; rewrite ?Hb; cbn [mbind option_bind]; rewrite ?Hdec.
    + cbn. f_equal. destruct (decode_time_bytes b d Hdec) as (s2 & Hs2 & ->). congruence.
    + injection Hb as ->. by rewrite Hs'.
    + cbn. f_equal. destruct (decode_time_bytes b d Hdec) as (s2 & Hs2 & ->). congruence.
  - intros Hn v [= <-]. rewrite Hpv. destruct (ptr_value e p) as [b|]; [|done]. destruct (Hd b eq_refl) as (d & Hdec & _). cbn in Hn. congruence.
Qed.

(** *** Log and index *)

Definition set_versions (m : gmap bytes Version) (cs : list Change) : gmap bytes Version := foldl (λ m c, <[c.1 := c.2]> m) m cs.

Lemma clean_update op :
  clean_op op → ∃ c p, cloud_change op = Some c ∧ op_pointer_update op = Some (c.1, Some p) ∧ get_key op = c.1 ∧ timed p ∧
    ∀ e, ptr_ok e p ∧ sendable e p ∧ ptr_version e p = c.2.
Proof.
  destruct op as [| |k t| |k v|]; try done; cbn [clean_op cloud_change op_pointer_update get_key].
  - intros Ht. by exists (k, (t, None)), (PDeleted t).
  - intros (d & Hd & Hl & Ht). destruct (decode_time_bytes v d Hd) as (s & Hs & Htd). rewrite Hd. cbn [mbind option_bind].
    rewrite (proj2 (Z.eqb_neq _ _)) by lia. exists (k, (_time d, Some v)), (PInlined v).
    assert (10 <= zlen v) as Hz by (unfold get_range in Hs; destruct (Z.leb_spec 10 (zlen v)); [done|by rewrite !andb_false_r in Hs]).
    assert (∀ e, ptr_version e (PInlined v) = (_time d, Some v)) as Hpv by (intros e; unfold ptr_version; by rewrite Hs, Htd).
    split_and!; try done. intros e. split_and!; [done| |done]. split_and!; [done| |by rewrite Hpv].
    intros b [= <-]. by exists d.
Qed.

Lemma clean_updates ops :
  Forall clean_op ops → ∃ us : list (Change * Pointer),
    omap cloud_change ops = us.*1 ∧ omap op_pointer_update ops = (λ u, (u.1.1, Some u.2)) <$> us ∧ get_key <$> ops = us.*1.*1 ∧
    Forall (λ u, timed u.2 ∧ ∀ e, ptr_ok e u.2 ∧ sendable e u.2 ∧ ptr_version e u.2 = u.1.2) us.
Proof.
  induction 1 as [|op ops Hop Hops (us & E1 & E2 & E3 & Hus)]; [by exists []|].
  destruct (clean_update op Hop) as (c & p & C1 & C2 & C3 & C4). exists ((c, p) :: us). rewrite !fmap_cons. cbn [omap list_omap].
  rewrite C1, C2, C3. split_and!; [by f_equal|by f_equal|by f_equal|]. by constructor.
Qed.

Lemma upds_sent e (us : list (Change * Pointer)) m :
  Forall (λ u, timed u.2 ∧ ∀ e, ptr_ok e u.2 ∧ sendable e u.2 ∧ ptr_version e u.2 = u.1.2) us →
  let m' := foldl upd m ((λ u, (u.1.1, Some u.2)) <$> us) in
  ptr_version e <$> m' = set_versions (ptr_version e <$> m) us.*1 ∧
  (map_Forall (λ _ p, timed p) m → map_Forall (λ _ p, timed p) m') ∧
  (map_Forall (λ _ p, sendable e p) m → map_Forall (λ _ p, sendable e p) m').
Proof.
  intros Hus. unfold set_versions. revert m; induction Hus as [|[c p] us (Ht & He) Hus IH]; intros m; [done|].
  destruct (He e) as (Hp & Hs & Hv). rewrite !fmap_cons. cbn [foldl fst snd upd] in *. destruct (IH (<[c.1 := p]> m)) as (I1 & I2 & I3).
  split_and!.
  - by rewrite I1, fmap_insert, Hv.
  - intros Hm. apply I2. by apply map_Forall_insert_2.
  - intros Hm. apply I3. by apply map_Forall_insert_2.
Qed.

Lemma log_timestamped_spec now ops e :
  sendable_store e → encryption (wal e) = None → Forall clean_op ops →
  ∃ e', log_timestamped now ops e = (e', Ok tt) ∧ sendable_store e' ∧ encryption (wal e') = None ∧
    versions e' = set_versions (versions e) (omap cloud_change ops).
Proof.
  intros [[He Ht] Hs] Hn Hops. destruct (clean_updates ops Hops) as (us & E1 & E2 & _ & Hus).
  unfold log_timestamped. rewrite E2, E1.
  destruct (append_fast_plain now (nonce_ctr e) (wal e) (next_tx_id e) ops true Hn) as (w' & Ew & Hn').
  set (e1 := e_with_wal w' (nonce_ctr e) (e_with_tx (next_tx_id e + 1) e)).
  eexists. split; [unfold mbind, SR_bind, get_st, modify, on_wal; cbn [nonce_ctr wal e_with_tx]; rewrite Ew; done|].
  destruct (update_batch_view e1 ((λ u, (u.1.1, Some u.2)) <$> us)) as [Hok _]; [done| |].
  { apply Forall_fmap. eapply Forall_impl; [exact Hus|]. intros [c p] [_ Hp] q [= <-]. by destruct (Hp e1). }
  destruct (upds_sent e us (index (idx e)) Hus) as (U1 & U2 & U3).
  split_and!; [split; [split|]|done|].
  - by destruct Hok as (? & ? & ? & ?).
  - cbn. rewrite update_batch_index by apply He. by apply U2.
  - cbn. rewrite update_batch_index by apply He. exact (U3 Hs).
  - unfold versions. cbn. rewrite update_batch_index by apply He. exact U1.
Qed.

Lemma set_versions_other cs m k : k ∉ cs.*1 → set_versions m cs !! k = m !! k.
Proof.
  unfold set_versions. revert m; induction cs as [|c cs IH]; intros m Hk; [done|]. rewrite fmap_cons in Hk.
  apply not_elem_of_cons in Hk as [Hne Hk]. cbn [foldl]. rewrite IH by done. by rewrite lookup_insert_ne.
Qed.

(** *** Applying a batch *)

Lemma docs_vers h c k : docs_of h c k = match vers_of h c !! k with Some (_, Some b) => decode b | _ => None end.
Proof.
  unfold docs_of, view_of, vers_of. destruct (shards h !! c) as [e|]; [|done]. rewrite versions_view.
  by destruct (versions e !! k) as [[t [b|]]|].
Qed.

(** The state of the database after one collection was replaced by its newer self. *)
Lemma replaced_state c e e' keys h g m h' :
  state_ok to_lowercase h → shards h !! c = Some e → store_ok e' → unique_defs (Facade.composite h) c = [] →
  global_version h + zlen keys < 2 ^ 64 → bumped_versions (global_version h) keys (doc_versions h) = (g, m) →
  (∀ k, k ∉ keys → versions e' !! k = versions e !! k) →
  shards h' = <[c := e']> (shards h) → disk h' = disk h → settings h' = settings h → claims h' = claims h →
  doc_cache h' = doc_cache h → current h' = (g, m) → state_ok to_lowercase h'.
Proof.
  intros Ho He He' Hu Hroom Hb Hk Hsh Hd Hset Hcl Hca Hcur.
  pose proof Hset as Hset'. unfold settings in Hset'. injection Hset' as _ _ _ _ _ _ Hcomp. unfold claims in Hcl. injection Hcl as Hl Hgc.
  assert (∀ c' id, c' ≠ c ∨ id ∉ keys → docs_of h' c' id = docs_of h c' id) as Hdocs.
  { intros c' id Hor. rewrite !docs_vers. unfold vers_of. rewrite Hsh. destruct (decide (c' = c)) as [->|Hne].
    - rewrite lookup_insert_eq, He. rewrite Hk; [done|]. by destruct Hor.
    - by rewrite lookup_insert_ne. }
  apply (written_state to_lowercase keys h h'); try done.
  - unfold shards_ok. rewrite Hsh. apply map_Forall_insert_2; [done|apply Ho].
  - intros c'. unfold settled. rewrite Hd. apply Ho.
  - intros c' defs. rewrite Hgc, Hcomp. apply (so_gates _ _ Ho).
  - rewrite Hl. apply Ho.
  - eapply disjoint_settings; [exact Hset|apply Ho].
  - intros c' id doc d q Hdoc Hdef. rewrite Hcomp in Hdef. destruct (decide (c' = c)) as [->|Hne]; [rewrite Hu in Hdef; by apply not_elem_of_nil in Hdef|].
    rewrite Hdocs in Hdoc by (by left). rewrite Hl. by apply (so_cover _ _ Ho c' id doc).
  - by rewrite Hcur, Hb.
  - by rewrite Hca.
  - intros c' k Hkk. apply Hdocs. by right.
Qed.

Lemma apply_timestamped_spec now c ops puts h :
  receptive c h → unique_defs (Facade.composite h) c = [] → Forall clean_op ops → global_version h + zlen ops < 2 ^ 64 →
  ∃ h', apply_timestamped from_secret now c ops puts (get_key <$> ops) h = (h', Ok tt) ∧ receptive c h' ∧
    vers_of h' c = set_versions (vers_of h c) (omap cloud_change ops) ∧ settings h' = settings h ∧
    (∀ c', c' ≠ c → shards h' !! c' = shards h !! c') ∧ global_version h' = global_version h + zlen ops ∧ claims h' = claims h.
Proof.
  intros Hr Hu Hops Hroom. destruct (rc_plain _ _ Hr) as (e & He & Hn). pose proof (rc_store _ _ Hr e He) as Hse.
  destruct (log_timestamped_spec now ops e Hse Hn Hops) as (e' & Hlog & Hse' & Hn' & Hv).
  destruct (clean_updates ops Hops) as (us & E1 & _ & E3 & _).
  unfold apply_timestamped. rewrite (hm_bind_ok _ _ h h e) by (unfold get_shard; by rewrite He).
  set (h1 := h_with_shards (<[c := e']> (shards h)) (disk h) h).
  rewrite (hm_bind_ok _ _ h h1 tt) by (unfold on_shard; by rewrite He, Hlog).
  rewrite (hm_bind_ok _ _ h1 (bump_versions_by_keys (get_key <$> ops) h1) tt) by done. rewrite bump_eq.
  change (global_version h1) with (global_version h). change (doc_versions h1) with (doc_versions h).
  destruct (bumped_versions (global_version h) (get_key <$> ops) (doc_versions h)) as [g m] eqn:Hb. set (h2 := h_with_versions g m h1).
  rewrite (hm_bind_ok _ _ h2 (enqueue_index_update (mkIndexOp c puts []) h2) tt) by done.
  destruct (enqueue_same (mkIndexOp c puts []) h2) as (S7 & V7 & G7 & D7 & N7). set (h3 := enqueue_index_update _ h2) in *. clearbody h3.
  eexists. split; [done|]. set (h4 := notify_watchers _ h3). destruct S7 as (A1 & A2 & A3 & A4 & A5).
  assert (zlen (get_key <$> ops) = zlen ops) as Hz by (unfold zlen; by rewrite length_fmap).
  assert (global_version h + zlen (get_key <$> ops) < 2 ^ 64) as Hroom' by (by rewrite Hz).
  pose proof (bumped_spec (get_key <$> ops) (global_version h) (doc_versions h) (so_counter _ _ (rc_state _ _ Hr)) Hroom') as Hbs.
  rewrite Hb in Hbs. destruct Hbs as (Hg & _).
  assert (shards h4 !! c = Some e') as He4 by (cbn; rewrite A1; apply lookup_insert_eq).
  split_and!; [split| | | | |].
  - eapply (replaced_state c e e' (get_key <$> ops) h g m h4); [apply Hr|done|by destruct Hse' as [[??]?]|done|done|done| |cbn; by rewrite A1|cbn; by rewrite A2| | |cbn; by rewrite D7|].
    + intros k Hk. rewrite Hv. apply set_versions_other. by rewrite E1, <-E3.
    + exact A3.
    + exact A5.
    + unfold current. cbn. by rewrite G7, V7.
  - unfold allowed. cbn. unfold settings in A3. injection A3 as _ -> -> _ _ _ _. apply (rc_allowed _ _ Hr).
  - by exists e'.
  - intros e0. rewrite He4. by intros [= <-].
  - unfold vers_of. by rewrite He4, He, Hv.
  - exact A3.
  - intros c' Hne. cbn. rewrite A1. cbn. by rewrite lookup_insert_ne.
  - cbn. rewrite G7. cbn. by rewrite Hg, Hz.
  - exact A5.
Qed.

Lemma receptive_still c h h' : receptive c h → still h h' → receptive c h'.
Proof.
  intros Hr Hs. pose proof Hs as (Ho & Hv & Hi & _ & _ & Hp). pose proof (rc_plain _ _ Hr) as Hpl. split.
  - done.
  - rewrite (still_allowed _ _ _ _ Hs). apply Hr.
  - by apply Hp.
  - intros e' He'. destruct Hpl as (e & He & _). pose proof (rc_store _ _ Hr e He) as [[Hok Ht] Hse].
    specialize (Hv c). specialize (Hi c). unfold view_of in Hv. unfold index_of in Hi. rewrite He, He' in Hv, Hi.
    assert (store_ok e') as Hok' by (eapply (so_shards _ _ Ho); exact He'). split; [split; [done|by rewrite Hi]|].
    intros k p Hk. rewrite Hi in Hk. pose proof (Hse k p Hk) as (S1 & S2 & S3).
    pose proof (view_lookup e k) as V. pose proof (view_lookup e' k) as V'. rewrite Hi, Hv, V, Hk in V'. cbn in V'.
    split_and!; [done|by rewrite <-V'|].
    assert (ptr_version e' p = ptr_version e p) as ->; [|done]. by destruct p; cbn [ptr_version]; rewrite <-?V'.
Qed.

Lemma still_vers c h h' : receptive c h → still h h' → vers_of h' c = vers_of h c.
Proof.
  intros Hr (_ & Hv & Hi & _ & _ & Hp). pose proof (rc_plain _ _ Hr) as Hpl. destruct (Hp c Hpl) as (e' & He' & _). destruct Hpl as (e & He & _).
  specialize (Hv c). specialize (Hi c). unfold view_of in Hv. unfold index_of in Hi. unfold vers_of. rewrite He, He' in *. by apply versions_ext.
Qed.
End Receiving.

(** *** The batch of a collection *)

Section Flush.
Context `{CrcLaws} `{ZstdLaws} `{HashIterLaws} `{StdIter} {cipher : Type} `{AeadLaws cipher} {IndexList : Type}.
Context (from_secret : bytes → EncryptionContext cipher) (to_lowercase sha256 : bytes → bytes).
Context (to_vec : CloudPacket IndexList → option bytes).
Abbreviation CloudSync := (CloudSync (cipher := cipher) (IndexList := IndexList)).
Implicit Types (s : CloudSync) (t : Moment).

(** What ingest and relay leave alone. *)
Definition fixed s :=
  (room_name s, room_key s, seen_messages s, ingest s, batch_buffer s, active_peers s, max_clients s, catchup_cache s,
   catchup_cache_hits s, outbound s, peer_indexes s, marks (node s), caps (peer_caps s)).

Lemma warn_spec t peer c s :
  ∃ s', warn t peer c s = (s', Ok tt) ∧ fixed s' = fixed s ∧ node s' = node s ∧ outbox s' = outbox s.
Proof.
  assert (caps (caps_warn (peer_caps s) (t_instant t) peer c).1 = caps (peer_caps s)) as Hc.
  { unfold caps_warn. destruct (warned (peer_caps s) !! (peer, c)); [by destruct (_ <? _)|done]. }
  eexists. split; [done|]. split_and!; [|done|done]. unfold fixed. cbn. by rewrite Hc.
Qed.

(** A read or a clock update of the database under the server. *)
Definition reads s s' : Prop := still to_lowercase (hk s) (hk s') ∧ fixed s' = fixed s ∧ outbox s' = outbox s.
Lemma reads_refl s : state_ok to_lowercase (hk s) → reads s s.
Proof. done. Qed.
Lemma reads_trans s1 s2 s3 : reads s1 s2 → reads s2 s3 → reads s1 s3.
Proof. intros (A1 & A2 & A3) (B1 & B2 & B3). split_and!; [by eapply still_trans|congruence|congruence]. Qed.

Lemma existing_spec t c k s :
  receptive to_lowercase c (hk s) → ∃ s', existing from_secret t c k s = (s', Ok (docs_of (hk s) c k)) ∧ reads s s'.
Proof.
  intros Hr. destruct (hako_get_spec from_secret to_lowercase (t_now t) (t_free t) c k (hk s) (rc_state _ _ _ Hr) (rc_allowed _ _ _ Hr))
    as (h' & Hg & Ho & Hv & Hi & Hc & Hst & _ & Hp).
  { intros d Hd. by apply (docs_versions to_lowercase c (hk s) k Hr). }
  unfold existing, on_node, on_hako. change (node_db (node s)) with (hk s). rewrite Hg. eexists. split; [done|]. by split_and!.
Qed.

Lemma is_stale_spec t c k ts s :
  receptive to_lowercase c (hk s) →
  ∃ s', is_stale from_secret t c k ts s = (s', Ok (outdated (vers_of (hk s) c) (k, (ts, None)))) ∧ reads s s'.
Proof.
  intros Hr. destruct (existing_spec t c k s Hr) as (s' & E & R). exists s'. split; [|done].
  unfold is_stale. rewrite (hm_bind_ok _ _ _ _ _ E). unfold mret, SR_ret. do 2 f_equal. unfold outdated. cbn [fst snd].
  destruct (docs_versions to_lowercase c (hk s) k Hr) as [D1 D2]. destruct (docs_of (hk s) c k) as [d|].
  - destruct (D1 d eq_refl) as (_ & b & ->). done.
  - destruct (vers_of (hk s) c !! k) as [[t0 v]|]; [|done]. specialize (D2 eq_refl _ eq_refl). cbn in D2. by subst v.
Qed.

Lemma accept_spec t c k ts s :
  state_ok to_lowercase (hk s) → ∃ s', accept_ts t c k ts s = (s', Ok tt) ∧ reads s s'.
Proof. intros Ho. eexists. split; [done|]. split_and!; [|done|done]. by apply still_clock. Qed.

(** The operation is heard: it is from the server, or from a sender that may write the
    collection. *)
Definition heard s (enc_local : bool) (fp : bytes) (item : IngestItem) : bool :=
  match sender_client_id item with
  | Some k => negb enc_local || caps_allow true fp (caps_get (peer_caps s) k)
  | None => true
  end.
Definition puts_of (op : WalOp) : list (bytes * HakoDoc) :=
  match op with PutInlined k v => match decode v with Some d => [(k, d)] | None => [] end | _ => [] end.
Definition push_item (b : Batch) (item : IngestItem) : Batch := batch_push item (it_op item) (puts_of (it_op item)) b.
Definition taken s (enc_local : bool) (fp c : bytes) (item : IngestItem) : bool :=
  heard s enc_local fp item && accepted (vers_of (hk s) c) (it_op item).

Lemma ingest_checked_spec t c b item s :
  receptive to_lowercase c (hk s) →
  ∃ s', ingest_checked from_secret t c b item s =
    (s', Ok (if accepted (vers_of (hk s) c) (it_op item) then push_item b item else b)) ∧ reads s s'.
Proof.
  intros Hr. pose proof (reads_refl s (rc_state _ _ _ Hr)) as Hrefl. unfold ingest_checked, accepted, push_item.
  destruct (it_op item) as [| |k ts| |k v|]; cbn [cloud_change]; try by exists s.
  - destruct (is_stale_spec t c k ts s Hr) as (s1 & E1 & R1). rewrite (hm_bind_ok _ _ _ _ _ E1).
    destruct (outdated _ _); cbn [negb]; [by exists s1|].
    destruct (accept_spec t c k ts s1) as (s2 & E2 & R2); [apply R1|]. rewrite (hm_bind_ok _ _ _ _ _ E2). exists s2. split; [done|].
    by eapply reads_trans.
  - destruct (decode v) as [d|] eqn:Hd; cbn [mbind option_bind fmap option_fmap option_map default from_option id]; [|by exists s].
    destruct (_time d =? 0) eqn:Ht; [by exists s|].
    destruct (is_stale_spec t c k (_time d) s Hr) as (s1 & E1 & R1). rewrite (hm_bind_ok _ _ _ _ _ E1).
    change (outdated (vers_of (hk s) c) (k, (_time d, Some v))) with (outdated (vers_of (hk s) c) (k, (_time d, None))).
    destruct (outdated _ _); cbn [negb]; [by exists s1|].
    destruct (accept_spec t c k (_time d) s1) as (s2 & E2 & R2); [apply R1|]. rewrite (hm_bind_ok _ _ _ _ _ E2). exists s2.
    split; [cbn [puts_of]; by rewrite Hd|]. by eapply reads_trans.
Qed.

Lemma ingest_item_spec t c enc fp b item s :
  receptive to_lowercase c (hk s) →
  ∃ s', ingest_item from_secret t c enc fp b item s = (s', Ok (if taken s enc fp c item then push_item b item else b)) ∧ reads s s'.
Proof.
  intros Hr. unfold ingest_item, taken, heard. rewrite (hm_bind_ok _ _ s s s) by done.
  destruct (sender_client_id item) as [k|]; [|by apply ingest_checked_spec].
  destruct enc; cbn [andb negb orb]; [|by apply ingest_checked_spec].
  destruct (caps_allow true fp (caps_get (peer_caps s) k)); cbn [negb andb]; [by apply ingest_checked_spec|].
  destruct (warn_spec t k c s) as (s' & E & F1 & F2 & F3). rewrite (hm_bind_ok _ _ _ _ _ E). exists s'. split; [done|].
  split_and!; [|done|done]. unfold hk. rewrite F2. apply still_refl, Hr.
Qed.

Lemma taken_reads s s' enc fp c item :
  receptive to_lowercase c (hk s) → reads s s' → taken s' enc fp c item = taken s enc fp c item.
Proof.
  intros Hr (Hs & Hf & _). unfold taken, heard. rewrite (still_vers to_lowercase c _ _ Hr Hs). unfold caps_get.
  assert (caps (peer_caps s') = caps (peer_caps s)) as -> by (unfold fixed in Hf; congruence). done.
Qed.

Lemma ingest_items_spec t c enc fp items b s :
  receptive to_lowercase c (hk s) →
  ∃ s', ingest_items from_secret t c enc fp b items s =
    (s', Ok (foldl push_item b (List.filter (taken s enc fp c) items))) ∧ reads s s'.
Proof.
  revert b s; induction items as [|item items IH]; intros b s Hr; cbn [ingest_items List.filter].
  { exists s. split; [done|]. apply reads_refl, Hr. }
  destruct (ingest_item_spec t c enc fp b item s Hr) as (s1 & E1 & R1). rewrite (hm_bind_ok _ _ _ _ _ E1).
  destruct (IH (if taken s enc fp c item then push_item b item else b) s1) as (s2 & E2 & R2).
  { eapply receptive_still; [done|apply R1]. }
  exists s2. split; [|by eapply reads_trans]. rewrite E2. do 2 f_equal.
  rewrite (filter_ext (taken s1 enc fp c) (taken s enc fp c)) by (intros it; by apply taken_reads). by destruct (taken s enc fp c item).
Qed.

Lemma pushed_ops b items : b_ops (foldl push_item b items) = b_ops b ++ (it_op <$> items).
Proof.
  revert b; induction items as [|it items IH]; intros b; [by rewrite app_nil_r|]. cbn [foldl]. rewrite IH, fmap_cons. cbn. by rewrite <-app_assoc.
Qed.

(** *** Relay *)

(** Only messages and warnings. *)
Definition sends s s' : Prop := fixed s' = fixed s ∧ node s' = node s ∧ ∃ out, outbox s' = outbox s ++ out.
Lemma sends_refl s : sends s s.
Proof. split_and!; [done|done|]. exists []. by rewrite app_nil_r. Qed.
Lemma sends_trans s1 s2 s3 : sends s1 s2 → sends s2 s3 → sends s1 s3.
Proof.
  intros (A1 & A2 & o1 & A3) (B1 & B2 & o2 & B3). split_and!; [congruence|congruence|]. exists (o1 ++ o2). by rewrite B3, A3, app_assoc.
Qed.
Lemma warn_sends t peer c s : ∃ s', warn t peer c s = (s', Ok tt) ∧ sends s s'.
Proof.
  destruct (warn_spec t peer c s) as (s' & E & F1 & F2 & F3). exists s'. split; [done|]. split_and!; [done|done|]. exists []. by rewrite app_nil_r.
Qed.
Lemma give_sends conn b s : ∃ s', give conn b s = (s', Ok tt) ∧ sends s s'.
Proof. eexists. split; [done|]. split_and!; [done|done|]. by eexists. Qed.
Lemma each_sends {A} (f : A → SR CloudSync unit) l :
  (∀ x s, ∃ s', f x s = (s', Ok tt) ∧ sends s s') → ∀ s, ∃ s', each f l s = (s', Ok tt) ∧ sends s s'.
Proof.
  intros Hf. induction l as [|x l IH]; intros s; cbn [each]; [exists s; split; [done|apply sends_refl]|].
  destruct (Hf x s) as (s1 & E1 & S1). rewrite (hm_bind_ok _ _ _ _ _ E1). destruct (IH s1) as (s2 & E2 & S2).
  exists s2. split; [done|]. by eapply sends_trans.
Qed.

Lemma relay_to_sends t c enc fp origin msg peer s : ∃ s', relay_to t c enc fp origin msg peer s = (s', Ok tt) ∧ sends s s'.
Proof.
  unfold relay_to. rewrite (hm_bind_ok _ _ s s s) by done. case_bool_decide; [exists s; split; [done|apply sends_refl]|].
  destruct (negb _); [apply warn_sends|]. destruct (has_room _ _ _); [apply give_sends|]. exists s. split; [done|apply sends_refl].
Qed.
Lemma relay_sends t c enc fp r s : ∃ s', relay to_vec t c enc fp r s = (s', Ok tt) ∧ sends s s'.
Proof.
  unfold relay. case_bool_decide; [exists s; split; [done|apply sends_refl]|].
  destruct (to_vec _) as [msg|]; [|exists s; split; [done|apply sends_refl]].
  rewrite (hm_bind_ok _ _ s s s) by done. apply each_sends. intros peer s'. apply relay_to_sends.
Qed.

(** *** A flush *)

(** The collection takes part in synchronisation here. *)
Definition taking s (c : bytes) : Prop :=
  receptive to_lowercase c (hk s) ∧ is_collection_local (marks (node s)) c = false ∧ is_sync_withheld (hk s) c = false ∧
  unique_defs (Facade.composite (hk s)) c = [].

Lemma withheld_settings (h h' : Hako (cipher := cipher)) c :
  settings h' = settings h → plain_at h c → plain_at h' c → is_sync_withheld h' c = is_sync_withheld h c.
Proof.
  intros Hs (e & He & _) (e' & He' & _). unfold settings in Hs. injection Hs as Hc _ _ _ _ _ _.
  unfold is_sync_withheld, is_sync_excluded_effective, is_lazy_unloaded, is_lazy_collection. rewrite Hc, He, He'. done.
Qed.

Definition accepted_changes s (c : bytes) (items : list IngestItem) : list Change :=
  let enc := is_collection_encrypted from_secret (hk s) c in
  List.filter (λ ch, negb (outdated (vers_of (hk s) c) ch)) (omap (λ it, cloud_change (it_op it)) (List.filter (heard s enc (local_fp sha256 s)) items)).

Lemma taken_changes s c enc fp items :
  omap cloud_change (it_op <$> List.filter (taken s enc fp c) items) =
  List.filter (λ ch, negb (outdated (vers_of (hk s) c) ch)) (omap (λ it, cloud_change (it_op it)) (List.filter (heard s enc fp) items)).
Proof.
  induction items as [|it items IH]; [done|]. cbn [List.filter]. unfold taken at 1, accepted.
  destruct (heard s enc fp it); cbn [andb]; [|done]. cbn [omap list_omap]. destruct (cloud_change (it_op it)) as [ch|] eqn:Hc; [|done].
  cbn [List.filter]. destruct (negb (outdated _ ch)); [|done]. rewrite fmap_cons. cbn [omap list_omap]. by rewrite Hc, IH.
Qed.

Lemma flush_collection_spec t c items s :
  taking s c → Forall (λ it, clean_op (it_op it)) items → global_version (hk s) + zlen items < 2 ^ 64 →
  ∃ s', flush_collection from_secret sha256 to_vec t (c, items) s = (s', Ok tt) ∧ taking s' c ∧ fixed s' = fixed s ∧
    vers_of (hk s') c = set_versions (vers_of (hk s) c) (accepted_changes s c items) ∧
    global_version (hk s') <= global_version (hk s) + zlen items ∧ settings (hk s') = settings (hk s).
Proof.
  intros (Hr & Hl & Hw & Hu) Hcl Hroom. pose proof (zlen_nonneg items) as Hnn. unfold flush_collection, accepted_changes.
  rewrite (hm_bind_ok _ _ s s s) by done. rewrite Hl, Hw. case_bool_decide as Hlen.
  { destruct items; [|done]. exists s. split_and!; try done. lia. }
  set (enc := is_collection_encrypted from_secret (hk s) c). set (fp := local_fp sha256 s).
  destruct (ingest_items_spec t c enc fp items (mkBatch [] [] ∅) s Hr) as (s1 & E1 & R1 & F1 & O1). rewrite (hm_bind_ok _ _ _ _ _ E1).
  rewrite pushed_ops. cbn [b_ops app]. rewrite <-taken_changes. set (acc := List.filter (taken s enc fp c) items).
  set (b := foldl push_item (mkBatch [] [] ∅) acc).
  assert (Forall clean_op (it_op <$> acc)) as Hacc.
  { apply Forall_fmap, Forall_forall. intros it Hin. apply list_elem_of_In, filter_In in Hin as [Hin _].
    rewrite Forall_forall in Hcl. by apply Hcl, list_elem_of_In. }
  assert (zlen (it_op <$> acc) <= zlen items) as Hz.
  { unfold zlen. rewrite length_fmap. pose proof (List.filter_length_le (taken s enc fp c) items) as Hle. fold acc in Hle. lia. }
  pose proof (receptive_still to_lowercase c _ _ Hr R1) as Hr1. pose proof R1 as (_ & _ & _ & Hcur & Hset & Hpl).
  assert (vers_of (hk s1) c = vers_of (hk s) c) as Hv1 by (by apply (still_vers to_lowercase)).
  assert (Facade.composite (hk s1) = Facade.composite (hk s)) as Hcomp by (unfold settings in Hset; congruence).
  assert (global_version (hk s1) = global_version (hk s)) as Hg1 by (unfold current in Hcur; congruence).
  assert (∃ s2, (match it_op <$> acc with
        | [] => mret tt
        | ops => λ s, let '(s, _) := on_node (apply_timestamped from_secret (t_now t) c ops (b_puts b) (get_key <$> ops)) s in (s, Ok tt)
        end : SR CloudSync unit) s1 = (s2, Ok tt) ∧ receptive to_lowercase c (hk s2) ∧ fixed s2 = fixed s1 ∧
        vers_of (hk s2) c = set_versions (vers_of (hk s1) c) (omap cloud_change (it_op <$> acc)) ∧
        global_version (hk s2) <= global_version (hk s1) + zlen items ∧ settings (hk s2) = settings (hk s1))
    as (s2 & E2 & Hr2 & F2 & Hv2 & Hg2 & Hset2).
  { destruct (it_op <$> acc) as [|op ops] eqn:Hops; [exists s1; split_and!; try done; lia|]. rewrite <-Hops in *.
    destruct (apply_timestamped_spec from_secret to_lowercase (t_now t) c (it_op <$> acc) (b_puts b) (hk s1) Hr1) as (h2 & E & Hr2 & Hv2 & Hs2 & _ & Hg2 & _).
    { by rewrite Hcomp. } { done. } { lia. }
    unfold on_node, on_hako. change (node_db (node s1)) with (hk s1). rewrite E.
    eexists. split; [done|]. split_and!; [done|done|done|change (global_version h2 <= global_version (hk s1) + zlen items); lia|done]. }
  rewrite (hm_bind_ok _ _ _ _ _ E2). destruct (each_sends (relay to_vec t c enc fp) (std_iter (sender_relays b)) (λ r s, relay_sends t c enc fp r s) s2) as (s3 & E3 & F3 & N3 & _).
  rewrite E3. exists s3. split; [done|]. assert (hk s3 = hk s2) as Hh by (unfold hk; by rewrite N3). unfold taking. rewrite Hh.
  split_and!.
  - done.
  - rewrite N3. assert (marks (node s2) = marks (node s)) as -> by (unfold fixed in *; congruence). done.
  - rewrite (withheld_settings (hk s) (hk s2)); [done|congruence|apply Hr|apply Hr2].
  - unfold settings in *. assert (Facade.composite (hk s2) = Facade.composite (hk s)) as -> by congruence. done.
  - congruence.
  - by rewrite Hv2, Hv1.
  - lia.
  - congruence.
Qed.

(** *** Draining the queue *)

(** The flusher takes the items one by one and flushes what is left. *)
Fixpoint drain t (n : nat) : SR CloudSync unit :=
  match n with
  | O => flush_ingest_buffer from_secret sha256 to_vec t
  | S n => _ ← receive_item from_secret sha256 to_vec t; drain t n
  end.

Definition buffer_of (c : bytes) (items : list IngestItem) : gmap bytes (list IngestItem) :=
  match items with [] => ∅ | _ => {[c := items]} end.
(** An item from the server for the collection. *)
Definition from_server (c : bytes) (it : IngestItem) : Prop := it_collection it = c ∧ sender_client_id it = None ∧ clean_op (it_op it).
Definition keys_of (items : list IngestItem) : list bytes := (λ it, get_key (it_op it)) <$> items.
Definition changes_of (items : list IngestItem) : list Change := omap (λ it, cloud_change (it_op it)) items.

Lemma changes_keys c items : Forall (from_server c) items → (changes_of items).*1 = keys_of items.
Proof.
  unfold changes_of, keys_of. induction 1 as [|it items (_ & _ & Hc) Hall IH]; [done|]. cbn [omap list_omap]. rewrite fmap_cons.
  destruct (clean_update (cipher := cipher) (it_op it) Hc) as (ch & p & -> & _ & -> & _). rewrite fmap_cons. by f_equal.
Qed.

Lemma accepted_all s c items :
  Forall (from_server c) items → (∀ k, k ∈ keys_of items → vers_of (hk s) c !! k = None) → accepted_changes s c items = changes_of items.
Proof.
  intros Hall Hfr. unfold accepted_changes. set (enc := is_collection_encrypted _ _ _). set (fp := local_fp _ _).
  assert (List.filter (heard s enc fp) items = items) as ->.
  { clear Hfr. induction Hall as [|it items (_ & Hs & _) Hall IH]; [done|]. cbn [List.filter]. unfold heard at 1. rewrite Hs. by rewrite IH. }
  fold (changes_of items). assert (∀ ch, ch ∈ changes_of items → outdated (vers_of (hk s) c) ch = false) as Hno.
  { intros ch Hch. unfold outdated. rewrite Hfr; [done|]. rewrite <-(changes_keys c items Hall). by apply list_elem_of_fmap_2. }
  induction (changes_of items) as [|ch cs IH]; [done|]. cbn [List.filter]. rewrite Hno by left. cbn [negb]. f_equal. apply IH.
  intros ch' Hin. apply Hno. by right.
Qed.

Lemma hash_iter_one c (items : list IngestItem) : hash_iter ({[c := items]} : gmap bytes (list IngestItem)) = [(c, items)].
Proof. apply Permutation_singleton_r. rewrite hash_iter_perm. by rewrite map_to_list_singleton. Qed.

Lemma flush_spec t c items s :
  taking s c → batch_buffer s = buffer_of c items → Forall (from_server c) items →
  (∀ k, k ∈ keys_of items → vers_of (hk s) c !! k = None) → global_version (hk s) + zlen items < 2 ^ 64 →
  ∃ s', flush_ingest_buffer from_secret sha256 to_vec t s = (s', Ok tt) ∧ taking s' c ∧ batch_buffer s' = ∅ ∧ ingest s' = ingest s ∧
    vers_of (hk s') c = set_versions (vers_of (hk s) c) (changes_of items) ∧ global_version (hk s') <= global_version (hk s) + zlen items.
Proof.
  intros Ht Hb Hall Hfr Hroom. unfold flush_ingest_buffer. rewrite (hm_bind_ok _ _ s s s) by done.
  destruct items as [|it items]; cbn [buffer_of] in Hb.
  { rewrite bool_decide_eq_true_2 by done. exists s. split_and!; try done. unfold zlen in *; cbn in *; lia. }
  rewrite bool_decide_eq_false_2 by (rewrite Hb; apply insert_non_empty).
  set (s1 := s_ingest (seen_messages s) (ingest s) ∅ (s_echo (prune_echo t (echo_cache s)) s)).
  rewrite (hm_bind_ok _ _ s s1 tt) by done. rewrite Hb, hash_iter_one. cbn [each].
  destruct (flush_collection_spec t c (it :: items) s1) as (s2 & E2 & Ht2 & F2 & Hv2 & Hg2 & _); [exact Ht| |exact Hroom|].
  { eapply Forall_impl; [exact Hall|]. by intros x (_ & _ & ?). }
  rewrite (hm_bind_ok _ _ _ _ _ E2). exists s2. assert (accepted_changes s1 c (it :: items) = changes_of (it :: items)) as Ha.
  { apply accepted_all; [done|]. exact Hfr. }
  rewrite Ha in Hv2. split_and!; [done|done| | |done|done].
  - unfold fixed in F2. cbn in F2. congruence.
  - unfold fixed in F2. cbn in F2. congruence.
Qed.

Lemma drain_spec t c rest items s :
  taking s c → ingest s = rest → batch_buffer s = buffer_of c items → Forall (from_server c) (items ++ rest) →
  NoDup (keys_of (items ++ rest)) → (∀ k, k ∈ keys_of (items ++ rest) → vers_of (hk s) c !! k = None) →
  global_version (hk s) + zlen (items ++ rest) < 2 ^ 64 →
  ∃ s', drain t (length rest) s = (s', Ok tt) ∧ taking s' c ∧
    vers_of (hk s') c = set_versions (vers_of (hk s) c) (changes_of (items ++ rest)).
Proof.
  revert items s; induction rest as [|it rest IH]; intros items s Ht Hi Hb Hall Hnd Hfr Hroom.
  { rewrite app_nil_r in *. destruct (flush_spec t c items s Ht Hb Hall Hfr Hroom) as (s' & E & Ht' & _ & _ & Hv & _). by exists s'. }
  cbn [length drain]. unfold receive_item. assert (it_collection it = c) as Hc.
  { rewrite Forall_app in Hall. destruct Hall as [_ Hall]. by apply Forall_cons in Hall as [(? & _) _]. }
  assert (buffer_item it (batch_buffer s) = buffer_of c (items ++ [it])) as Hbuf.
  { rewrite Hb. unfold buffer_item, buffer_of. rewrite Hc. destruct items as [|i0 items]; cbn [app]; [by rewrite lookup_empty|].
    rewrite lookup_singleton_eq. by rewrite insert_singleton_eq. }
  set (s1 := s_ingest (seen_messages s) rest (buffer_item it (batch_buffer s)) s).
  assert (items ++ it :: rest = (items ++ [it]) ++ rest) as Heq by (by rewrite <-app_assoc). rewrite Heq in *.
  assert ((if (512 <=? total_pending (buffer_item it (batch_buffer s)))%nat then flush_ingest_buffer from_secret sha256 to_vec t else mret tt) s1 =
    (s ← get_st; match ingest s with
     | [] => mret tt
     | item :: rest =>
         let b := buffer_item item (batch_buffer s) in
         _ ← modify (s_ingest (seen_messages s) rest b);
         if (512 <=? total_pending b)%nat then flush_ingest_buffer from_secret sha256 to_vec t else mret tt
     end) s) as Hstep.
  { rewrite (hm_bind_ok _ _ s s s) by done. by rewrite Hi. }
  destruct (512 <=? total_pending (buffer_item it (batch_buffer s)))%nat.
  - rewrite Forall_app in Hall. unfold keys_of in *. rewrite fmap_app in Hnd, Hfr. apply NoDup_app in Hnd as (Hn1 & Hdis & Hn2). destruct Hall as [Ha1 Ha2].
    pose proof (zlen_nonneg rest). rewrite zlen_app in Hroom.
    destruct (flush_spec t c (items ++ [it]) s1) as (s2 & E2 & Ht2 & Hb2 & Hi2 & Hv2 & Hg2); [done|exact Hbuf|done| | |].
    { intros k Hk. apply Hfr. apply elem_of_app. by left. }
    { change (global_version (hk s1)) with (global_version (hk s)). lia. }
    change (vers_of (hk s1) c) with (vers_of (hk s) c) in Hv2. change (global_version (hk s1)) with (global_version (hk s)) in Hg2.
    rewrite E2 in Hstep. rewrite (hm_bind_ok _ _ _ _ _ (eq_sym Hstep)).
    destruct (IH [] s2 Ht2 Hi2 Hb2 Ha2 Hn2) as (s3 & E3 & Ht3 & Hv3).
    { intros k Hk. rewrite Hv2, set_versions_other; [apply Hfr, elem_of_app; by right|]. rewrite (changes_keys c) by done.
      intros Hk'. by apply (Hdis k). }
    { cbn [app]. lia. }
    exists s3. split_and!; [done|done|]. rewrite Hv3, Hv2. unfold changes_of, set_versions. by rewrite (omap_app _ (items ++ [it]) rest), foldl_app.
  - rewrite (hm_bind_ok _ _ s s1 tt) by exact (eq_sym Hstep). by apply (IH (items ++ [it]) s1).
Qed.
End Flush.

(** ** From the server to a client that joins *)

Section Join.
Context `{CrcLaws} `{ZstdLaws} `{HashIterLaws} `{StdIter} {cipher : Type} `{AeadLaws cipher} {IndexList : Type}.
Context (from_secret : bytes → EncryptionContext cipher) (to_lowercase sha256 : bytes → bytes).
Context (to_vec : CloudPacket IndexList → option bytes) (from_slice : bytes → option (CloudPacket IndexList)).
Abbreviation CloudSync := (CloudSync (cipher := cipher) (IndexList := IndexList)).
Implicit Types (s : CloudSync) (t : Moment).

(** MessagePack: encoding succeeds and decoding undoes it. *)
Definition msgpack_law : Prop := ∀ p, ∃ b, to_vec p = Some b ∧ from_slice b = Some p.

Lemma s_node_self s : s_node (mkNode (node_db (node s)) (marks (node s))) s = s.
Proof. by destruct s as [[]]. Qed.

Lemma collect_spec t c since s e :
  shards (hk s) !! c = Some e → sendable_store e →
  ∃ s' ops, collect_catchup_ops from_secret t c since s = (s', Ok ops) ∧ ops ≡ₚ wal_of <$> owed (marks (node s)) c since e ∧
    s' = s_node (node s') s.
Proof.
  intros He Hs. unfold collect_catchup_ops, on_node, on_hako, get_shard. change (node_db (node s)) with (hk s). rewrite He.
  unfold hk. rewrite s_node_self. cbn [marks]. unfold on_shard. fold (hk s). rewrite He.
  destruct (catchup_ops_spec (marks (node s)) c since e Hs) as (ch & ops & -> & _ & Hp). eexists _, ops. split; [done|]. done.
Qed.

(** Every page of the list, in order. *)
Definition encoded (c : bytes) (msgs : list bytes) (pages : list (list WalOp)) : Prop :=
  Forall2 (λ b page, to_vec (Replication 0 c page) = Some b ∧ from_slice b = Some (Replication 0 c page)) msgs pages.

Lemma encode_pages_spec c pages : msgpack_law → ∃ msgs, encode_pages to_vec c pages = Some msgs ∧ encoded c msgs pages.
Proof.
  intros Hlaw. unfold encode_pages, encoded. induction pages as [|page pages (msgs & E & F)]; [by exists []|].
  destruct (Hlaw (Replication 0 c page)) as (b & Hb & Hf). exists (b :: msgs). cbn [mapM]. rewrite Hb. cbn [mbind option_bind].
  rewrite E. split; [done|]. by constructor.
Qed.

Lemma give_pages_spec t conn msgs s :
  (∀ n, alive t conn n = true) →
  ∃ s', give_pages t conn msgs s = (s', Ok tt) ∧ outbox s' = outbox s ++ (pair conn <$> msgs).
Proof.
  intros Ha. revert s; induction msgs as [|b msgs IH]; intros s; cbn [give_pages]; [exists s; by rewrite app_nil_r|].
  rewrite (hm_bind_ok _ _ s s s) by done. rewrite Ha. set (s1 := s_out (outbox s ++ [(conn, b)]) (outbound s) s).
  rewrite (hm_bind_ok _ _ s s1 tt) by done. destruct (IH s1) as (s2 & E & Ho). exists s2. split; [done|].
  rewrite Ho, fmap_cons. cbn [outbox s1 s_out]. by rewrite <-app_assoc.
Qed.

(** What a transfer needs: the collection is served, the peer is connected and may
    have it, and the pages that are cached for this version, if any, are those of the
    whole collection. *)
Record serving t s (c peer : bytes) (conn : nat) (server_ts : Z) e : Prop := {
  sv_offered : is_sync_withheld (hk s) c = false;
  sv_allowed : may_send from_secret sha256 s c peer = true;
  sv_peer : active_peers s !! peer = Some conn;
  sv_alive n : alive t conn n = true;
  sv_cache entry : catchup_cache s !! c = Some entry → cc_server_ts entry = server_ts →
    ∃ ops, ops ≡ₚ wal_of <$> owed (marks (node s)) c 0 e ∧ encoded c (packets entry) (page_out_ops ops) }.

Lemma send_catchup_spec t c server_ts peer conn s e :
  msgpack_law → serving t s c peer conn server_ts e → shards (hk s) !! c = Some e → sendable_store e →
  ∃ s' ops msgs, send_catchup_deltas from_secret sha256 to_vec t c 0 server_ts peer s = (s', Ok tt) ∧
    ops ≡ₚ wal_of <$> owed (marks (node s)) c 0 e ∧ encoded c msgs (page_out_ops ops) ∧ outbox s' = outbox s ++ (pair conn <$> msgs).
Proof.
  intros Hlaw [So Sa Sp Sal Sc] He Hs. unfold send_catchup_deltas. rewrite (hm_bind_ok _ _ s s s) by done. rewrite So, Sa. cbn [negb].
  assert (∃ s2 r ops, catchup_packets from_secret to_vec t c 0 server_ts s = (s2, Ok r) ∧ outbox s2 = outbox s ∧ active_peers s2 = active_peers s ∧
    ops ≡ₚ wal_of <$> owed (marks (node s)) c 0 e ∧ encoded c (default [] r) (page_out_ops ops)) as (s2 & r & ops & E2 & Ho2 & Ha2 & Hp & Hm).
  { unfold catchup_packets. rewrite (hm_bind_ok _ _ s s s) by done.
    destruct (entry ← catchup_cache s !! c; if (cc_server_ts entry =? server_ts) && (0 =? 0) then Some (packets entry) else None) as [cached|] eqn:Hc.
    { destruct (catchup_cache s !! c) as [entry|] eqn:Hen; [|done]. cbn in Hc. destruct (cc_server_ts entry =? server_ts) eqn:Hts; [|done].
      injection Hc as <-. destruct (Sc entry eq_refl (proj1 (Z.eqb_eq _ _) Hts)) as (ops & Hp & Hm). by eexists _, (Some (packets entry)), ops. }
    destruct (collect_spec t c 0 s e He Hs) as (s1 & ops & E1 & Hp & Hs1).
    unfold fresh_packets. rewrite (hm_bind_ok _ _ _ _ _ E1). case_bool_decide as Hops.
    { eexists _, None, ops. split; [done|]. subst ops. rewrite Hs1. split_and!; [done|done|done|]. constructor. }
    destruct (encode_pages_spec c (page_out_ops ops) Hlaw) as (msgs & -> & Hm). eexists _, (Some msgs), ops. split; [done|]. rewrite Hs1. done. }
  rewrite (hm_bind_ok _ _ _ _ _ E2). destruct r as [msgs|]; cbn [default] in Hm.
  - rewrite (hm_bind_ok _ _ s2 s2 s2) by done. rewrite Ha2, Sp. destruct (give_pages_spec t conn msgs s2 Sal) as (s3 & E3 & Ho3).
    exists s3, ops, msgs. split_and!; [done|done|done|]. by rewrite Ho3, Ho2.
  - exists s2, ops, []. split_and!; [done|done|done|]. by rewrite app_nil_r.
Qed.

(** The client reads the messages, then its flusher takes the items. *)
Definition join_room t (micros : nat → Z) (msgs : list bytes) : SR CloudSync unit :=
  _ ← each (client_packet from_secret from_slice t micros) msgs;
  k ← get_st;
  drain from_secret sha256 to_vec t (length (ingest k)).

Lemma packets_spec t micros c msgs pages (k : CloudSync) :
  encoded c msgs pages →
  each (client_packet from_secret from_slice t micros) msgs k =
    (s_ingest (seen_messages k) (ingest k ++ ((λ op, mkItem c op None) <$> concat pages)) (batch_buffer k) k, Ok tt).
Proof.
  intros He. revert k; induction He as [|b page msgs pages [_ Hb] He IH]; intros k; cbn [each concat].
  { rewrite app_nil_r. by destruct k. }
  set (k1 := s_ingest (seen_messages k) (ingest k ++ ((λ op, mkItem c op None) <$> page)) (batch_buffer k) k).
  rewrite (hm_bind_ok _ _ k k1 tt) by (unfold client_packet; by rewrite Hb). rewrite IH. cbn [ingest seen_messages batch_buffer k1 s_ingest].
  by rewrite fmap_app, <-app_assoc.
Qed.

Lemma owed_clean m c since (e : StorageEngine cipher) ch :
  sendable_store e → ch ∈ owed m c since e → clean_op (wal_of ch) ∧ cloud_change (wal_of ch) = Some ch ∧ get_key (wal_of ch) = ch.1.
Proof.
  intros [[He Ht] Hs] Hin. unfold owed in Hin. apply list_elem_of_In, filter_In in Hin as [Hin _]. apply list_elem_of_In in Hin.
  destruct ch as [k0 [ts v]]. apply elem_of_map_to_list in Hin. unfold versions in Hin. rewrite lookup_fmap in Hin.
  destruct (index (idx e) !! k0) as [p|] eqn:Hk; [|done]. injection Hin as Hv. destruct (Hs k0 p Hk) as (Hset & Hd & Hpos).
  assert (ptr_value e p = v) as Hpv by (assert ((ptr_version e p).2 = ptr_value e p) as <- by (by destruct p); by rewrite Hv).
  unfold wal_of. cbn [fst snd]. destruct v as [b|].
  - destruct (Hd b Hpv) as (d & Hdec & Hl). rewrite Hv in Hpos. cbn in Hpos.
    assert (_time d = ts) as Hts.
    { destruct (decode_time_bytes b d Hdec) as (sl & Hsl & ->).
      destruct p as [sid off len|b0|off len|d0|d0 sk|t0]; try done; unfold ptr_version in Hv; rewrite ?Hpv in Hv; cbn [mbind option_bind] in Hv;
        rewrite ?Hdec in Hv; cbn in Hv.
      - injection Hv as <-. destruct (decode_time_bytes b d Hdec) as (s2 & Hs2 & ->). congruence.
      - injection Hv as <- <-. by rewrite Hsl.
      - injection Hv as <-. destruct (decode_time_bytes b d Hdec) as (s2 & Hs2 & ->). congruence. }
    split_and!; [|cbn; rewrite Hdec; cbn; rewrite Hts, (proj2 (Z.eqb_neq _ _)) by lia; done|done].
    exists d. split_and!; [done|done|lia].
  - rewrite Hv in Hpos. done.
Qed.

Lemma set_versions_in cs m k0 v : NoDup cs.*1 → (k0, v) ∈ cs → set_versions m cs !! k0 = Some v.
Proof.
  unfold set_versions. revert m; induction cs as [|ch cs IH]; intros m Hnd Hin; [by apply not_elem_of_nil in Hin|].
  rewrite fmap_cons in Hnd. apply NoDup_cons in Hnd as [Hk Hnd]. cbn [foldl]. apply elem_of_cons in Hin as [<-|Hin]; [|by apply IH].
  cbn [fst snd]. fold (set_versions (<[k0 := v]> m) cs). rewrite set_versions_other by done. apply lookup_insert_eq.
Qed.

Lemma owed_versions m c (e : StorageEngine cipher) cs :
  sendable_store e → cs ≡ₚ owed m c 0 e →
  NoDup cs.*1 ∧ set_versions ∅ cs = base.filter (λ kv, is_local_only m c kv.1 = false) (versions e).
Proof.
  intros Hs Hp. assert (NoDup cs.*1) as Hnd.
  { rewrite Hp. unfold owed. apply NoDup_filter_keys. apply NoDup_fst_map_to_list. }
  split; [done|]. apply map_eq. intros k0. destruct (decide (k0 ∈ cs.*1)) as [Hin|Hin].
  - apply list_elem_of_fmap in Hin as ([k1 v] & -> & Hin). cbn [fst]. rewrite (set_versions_in _ _ k1 v) by done.
    symmetry. apply map_lookup_filter_Some. rewrite Hp in Hin. unfold owed in Hin.
    apply list_elem_of_In, filter_In in Hin as [Hin Hf]. apply andb_true_iff in Hf as [_ Hf%negb_true_iff].
    by apply list_elem_of_In, elem_of_map_to_list in Hin.
  - rewrite set_versions_other by done. rewrite lookup_empty. symmetry. apply eq_None_not_Some. intros [v Hv].
    apply map_lookup_filter_Some in Hv as [Hv Hl]. cbn in Hl. apply Hin. rewrite Hp. apply list_elem_of_fmap. exists (k0, v). split; [done|].
    unfold owed. apply list_elem_of_In, filter_In. split; [by apply list_elem_of_In, elem_of_map_to_list|]. cbn [fst snd]. rewrite Hl.
    unfold versions in Hv. rewrite lookup_fmap in Hv. destruct (index (idx e) !! k0) as [p|] eqn:Hk; [|done]. injection Hv as <-.
    destruct Hs as [_ Hs]. destruct (Hs k0 p Hk) as (_ & _ & Hpos). by rewrite (proj2 (Z.ltb_lt _ _)).
Qed.

(** The items that the owed versions become. *)
Lemma sent_items m c (e : StorageEngine cipher) cs :
  sendable_store e → cs ≡ₚ owed m c 0 e →
  let items := (λ op, mkItem c op None) <$> (wal_of <$> cs) in
  Forall (from_server c) items ∧ keys_of items = cs.*1 ∧ changes_of items = cs ∧ zlen items <= Z.of_nat (size (versions e)).
Proof.
  intros Hs Hp items. assert (∀ ch, ch ∈ cs → clean_op (wal_of ch) ∧ cloud_change (wal_of ch) = Some ch ∧ get_key (wal_of ch) = ch.1) as Hall.
  { intros ch Hin. rewrite Hp in Hin. by eapply owed_clean. }
  assert (zlen items <= Z.of_nat (size (versions e))) as Hlen.
  { unfold items, zlen. rewrite !length_fmap, (Permutation_length Hp). unfold owed. rewrite <-length_map_to_list.
    pose proof (List.filter_length_le (λ kv, (0 <? kv.2.1) && negb (is_local_only m c kv.1)) (map_to_list (versions e))). lia. }
  split_and!; [..|done]; clear Hlen Hp; subst items; unfold keys_of, changes_of; induction cs as [|ch cs IH]; try done; rewrite ?fmap_cons;
    destruct (Hall ch) as (A1 & A2 & A3); [by left| |by left| |by left|].
  - constructor; [done|]. apply IH. intros x Hx. apply Hall. by right.
  - cbn [it_op]. f_equal; [done|]. apply IH. intros x Hx. apply Hall. by right.
  - cbn [omap list_omap it_op]. rewrite A2. f_equal. apply IH. intros x Hx. apply Hall. by right.
Qed.

(** C22: A client that joins with an empty collection has, after the server's catch-up
    has arrived in pages and its flusher has taken every operation, exactly the
    server's versions of the collection, documents and tombstones with their times,
    except for the keys that are local to the server.  The catch-up is one that the
    server sends (it has counted the collection as newer, which it does not when all
    documents are in segments, [segments_have_no_version]) to a client that has nothing
    else queued and has the collection loaded, not encrypted, not local, not withheld
    and without unique indexes; the client may have the collection, and the connection
    takes every page; the documents have times above 0, are without links into the blob
    file and not pending there; and the pages that the server has cached for this
    version, if any, are those of the whole collection (not
    of a client that was partly up to date, [cache_serves_delta]). *)
Theorem joiner_catches_up t t' micros c server_ts peer conn s e (k : CloudSync) :
  msgpack_law → serving t s c peer conn server_ts e → shards (hk s) !! c = Some e → sendable_store e →
  taking to_lowercase k c → vers_of (hk k) c = ∅ → ingest k = [] → batch_buffer k = ∅ →
  global_version (hk k) + Z.of_nat (size (versions e)) < 2 ^ 64 →
  ∃ s' msgs k', send_catchup_deltas from_secret sha256 to_vec t c 0 server_ts peer s = (s', Ok tt) ∧
    outbox s' = outbox s ++ (pair conn <$> msgs) ∧ join_room t' micros msgs k = (k', Ok tt) ∧
    vers_of (hk k') c = base.filter (λ kv, is_local_only (marks (node s)) c kv.1 = false) (versions e).
Proof.
  intros Hlaw Hsv He Hs Ht Hempty Hi Hb Hroom.
  destruct (send_catchup_spec t c server_ts peer conn s e Hlaw Hsv He Hs) as (s' & ops & msgs & E & Hp & Henc & Ho).
  apply Permutation_map_inv in Hp as (cs & -> & Hcs). symmetry in Hcs.
  destruct (owed_versions (marks (node s)) c e cs Hs Hcs) as [Hnd Hv].
  pose proof (packets_spec t' micros c msgs _ k Henc) as Hpk. rewrite (proj1 (page_out_concat _)), Hi, app_nil_l, Hb in Hpk.
  destruct (sent_items (marks (node s)) c e cs Hs Hcs) as (Hsrv & Hkeys & Hch & Hlen).
  change (map wal_of cs) with (wal_of <$> cs) in Hpk. set (items := (λ op, mkItem c op None) <$> (wal_of <$> cs)) in *.
  set (k1 := s_ingest (seen_messages k) items ∅ k) in *.
  destruct (drain_spec from_secret to_lowercase sha256 to_vec t' c items [] k1) as (k' & Ed & _ & Hv'); try done.
  - cbn [app]. by rewrite Hkeys.
  - intros id _. change (vers_of (hk k1) c) with (vers_of (hk k) c). by rewrite Hempty, lookup_empty.
  - cbn [app]. change (global_version (hk k1)) with (global_version (hk k)). lia.
  - exists s', msgs, k'. split_and!; [done|done| |].
    + unfold join_room. rewrite (hm_bind_ok _ _ _ _ _ Hpk). by rewrite (hm_bind_ok _ _ k1 k1 k1) by done.
    + rewrite Hv'. cbn [app]. rewrite Hch. change (vers_of (hk k1) c) with (vers_of (hk k) c). by rewrite Hempty.
Qed.
End Join.

(** ** Who is served *)

Section Served.
Context `{CrcLaws} `{ZstdLaws} `{HashIterLaws} `{StdIter} {cipher : Type} `{AeadLaws cipher} {IndexList : Type}.
Context (from_secret : bytes → EncryptionContext cipher) (sha256 : bytes → bytes).
Context (to_vec : CloudPacket IndexList → option bytes) (from_slice : bytes → option (CloudPacket IndexList)).
Context (list_indexes : Hako (cipher := cipher) → IndexList).
Abbreviation CloudSync := (CloudSync (cipher := cipher) (IndexList := IndexList)).
Implicit Types (s : CloudSync) (t : Moment).

(** The room, its peers and its limit stay, and messages go to connections of peers. *)
Definition room_of s := (room_name s, room_key s, max_clients s, active_peers s).
Definition linked s (conn : nat) : Prop := ∃ peer, active_peers s !! peer = Some conn.
Definition serves s s' : Prop :=
  room_of s' = room_of s ∧ ∃ out, outbox s' = outbox s ++ out ∧ Forall (λ m, linked s m.1) out.
Definition safe_at {A} s (m : SR CloudSync A) : Prop := serves s (m s).1.

Lemma serves_same s s' : room_of s' = room_of s → outbox s' = outbox s → serves s s'.
Proof. intros Hr Ho. split; [done|]. exists []. by rewrite app_nil_r. Qed.
Lemma linked_room s s' conn : room_of s' = room_of s → linked s' conn ↔ linked s conn.
Proof. unfold room_of, linked. intros Hr. assert (active_peers s' = active_peers s) as -> by congruence. done. Qed.
Lemma serves_trans s1 s2 s3 : serves s1 s2 → serves s2 s3 → serves s1 s3.
Proof.
  intros (A1 & o1 & A2 & A3) (B1 & o2 & B2 & B3). split; [congruence|]. exists (o1 ++ o2). rewrite B2, A2, app_assoc. split; [done|].
  apply Forall_app. split; [done|]. eapply Forall_impl; [exact B3|]. intros m. by apply linked_room.
Qed.

Lemma safe_ret {A} s (a : A) : safe_at s (mret a).
Proof. by apply serves_same. Qed.
Lemma safe_lift {A} s (r : res A) : safe_at s (lift r).
Proof. by apply serves_same. Qed.
Lemma safe_modify s f : room_of (f s) = room_of s → outbox (f s) = outbox s → safe_at s (modify f).
Proof. by apply serves_same. Qed.
Lemma safe_node {A} s (f : SR (Hako (cipher := cipher)) A) : safe_at s (on_node f).
Proof. unfold safe_at, on_node, on_hako. destruct (f (node_db (node s))) as [h r]. by apply serves_same. Qed.
Lemma safe_give s conn b : linked s conn → safe_at s (give conn b).
Proof. intros Hl. split; [done|]. exists [(conn, b)]. split; [done|]. by apply Forall_singleton. Qed.
Lemma safe_warn s t peer c : safe_at s (warn t peer c).
Proof. by apply serves_same. Qed.
Lemma safe_bind {A B} s (m : SR CloudSync A) (f : A → SR CloudSync B) :
  safe_at s m → (∀ a s1, m s = (s1, Ok a) → serves s s1 → safe_at s1 (f a)) → safe_at s (m ≫= f).
Proof.
  unfold safe_at, mbind, SR_bind. intros Hm Hf. destruct (m s) as [s1 [a|x|]] eqn:E; [|done..]. cbn [fst] in Hm.
  eapply serves_trans; [exact Hm|]. by apply Hf.
Qed.
Lemma safe_get {B} s (f : CloudSync → SR CloudSync B) : safe_at s (f s) → safe_at s (get_st ≫= f).
Proof. done. Qed.
Lemma safe_each {A} (P : CloudSync → Prop) (f : A → SR CloudSync unit) l s :
  (∀ s1 s2, P s1 → room_of s2 = room_of s1 → P s2) → P s → (∀ x s, x ∈ l → P s → safe_at s (f x)) → safe_at s (each f l).
Proof.
  intros HP Hs Hf. revert s Hs; induction l as [|x l IH]; intros s Hs; cbn [each]; [apply safe_ret|].
  apply safe_bind; [apply Hf; [by left|done]|]. intros [] s1 _ [Hr _]. apply IH; [|by eapply HP]. intros y s2 Hy. apply Hf. by right.
Qed.
Lemma safe_any {A} (f : A → SR CloudSync unit) l s : (∀ x s, safe_at s (f x)) → safe_at s (each f l).
Proof. intros Hf. apply (safe_each (λ _, True)); auto. Qed.

Create HintDb serving.
#[local] Hint Resolve safe_ret safe_lift safe_node safe_warn safe_give safe_any : serving.
#[local] Hint Extern 1 (safe_at _ (modify _)) => (apply safe_modify; [reflexivity|reflexivity]) : serving.

(** To every peer of the list that the room has. *)
Lemma safe_peers (f : bytes * nat → SR CloudSync unit) s :
  (∀ p s, linked s p.2 → safe_at s (f p)) → safe_at s (each f (hash_iter (active_peers s))).
Proof.
  intros Hf. apply (safe_each (λ s', active_peers s' = active_peers s)); [|done|].
  - intros s1 s2 H12 Hr. unfold room_of in Hr. congruence.
  - intros [peer conn] s1 Hin Hs1. apply Hf. exists peer. rewrite Hs1. rewrite hash_iter_perm in Hin. by apply elem_of_map_to_list in Hin.
Qed.

(** The steps of a computation, one by one. *)
Ltac serve :=
  repeat first
    [ progress cbv zeta
    | match goal with |- safe_at _ (get_st ≫= _) => apply safe_get end
    | match goal with |- safe_at _ (_ ≫= _) => apply safe_bind; [|intros ? ? _ _] end
    | progress auto 2 with serving nocore
    | case_bool_decide
    | match goal with |- safe_at _ (match ?scrut with _ => _ end) => destruct scrut eqn:? end ].
(** A computation that first runs the database. *)
Ltac on_db_first :=
  match goal with
  | |- context [on_node ?f ?s] => let Hn := fresh "Hn" in pose proof (safe_node s f) as Hn; unfold safe_at in Hn; destruct (on_node f s) as [? [?|?|]]; cbn [fst] in *
  end.

Lemma safe_group t room key cid s : safe_at s (check_group_access from_secret sha256 t room key cid).
Proof. unfold safe_at, check_group_access. on_db_first; try done. by destruct a. Qed.
Lemma safe_existing t c k s : safe_at s (existing from_secret t c k).
Proof. unfold safe_at, existing. by on_db_first. Qed.
Lemma safe_collect t c since s : safe_at s (collect_catchup_ops from_secret t c since).
Proof.
  unfold safe_at, collect_catchup_ops. on_db_first; try done. eapply serves_trans; [done|]. apply safe_node.
Qed.
#[local] Hint Resolve safe_group safe_existing safe_collect : serving.

Lemma safe_pages t conn msgs s : linked s conn → safe_at s (give_pages t conn msgs).
Proof.
  revert s; induction msgs as [|b msgs IH]; intros s Hl; cbn [give_pages]; [apply safe_ret|]. apply safe_get.
  destruct (alive _ _ _); [|apply safe_ret]. apply safe_bind; [by apply safe_give|]. intros _ s1 _ [Hr _]. apply IH. by rewrite (linked_room s).
Qed.
Lemma safe_packets t c a b s : safe_at s (catchup_packets from_secret to_vec t c a b).
Proof. unfold catchup_packets, fresh_packets. serve. Qed.
#[local] Hint Resolve safe_packets : serving.
Lemma safe_send t c a b peer s : safe_at s (send_catchup_deltas from_secret sha256 to_vec t c a b peer).
Proof.
  unfold send_catchup_deltas. serve. apply safe_pages. by eexists.
Qed.
Lemma safe_ping t peer versions idx s : safe_at s (handle_ping from_secret sha256 to_vec list_indexes t peer versions idx).
Proof.
  unfold handle_ping, note_indexes, catch_up. serve; try (apply safe_give; by eexists). apply safe_any. intros [c ts] s'. serve. apply safe_send.
Qed.
Lemma safe_packet t peer b s : safe_at s (handle_packet from_secret sha256 to_vec from_slice list_indexes t peer b).
Proof.
  unfold handle_packet. destruct (from_slice b) as [[]|]; try apply safe_ret; [apply safe_ping|].
  unfold receive_batch. apply safe_modify; by destruct (note_seen _ _).
Qed.

Lemma safe_items t c enc fp items b s : safe_at s (ingest_items from_secret t c enc fp b items).
Proof.
  revert b s; induction items as [|item items IH]; intros b s; cbn [ingest_items]; [apply safe_ret|].
  apply safe_bind; [|intros; apply IH]. unfold ingest_item, ingest_checked, is_stale, accept_ts. serve.
Qed.
Lemma safe_relay t c enc fp r s : safe_at s (relay to_vec t c enc fp r).
Proof.
  unfold relay. serve. apply safe_peers. intros p s' Hl. unfold relay_to. serve.
Qed.
Lemma safe_flush_collection t ci s : safe_at s (flush_collection from_secret sha256 to_vec t ci).
Proof.
  unfold flush_collection. destruct ci as [c items]. pose proof safe_items. pose proof safe_relay. serve; auto.
  unfold safe_at. on_db_first; done.
Qed.
Lemma safe_flush t s : safe_at s (flush_ingest_buffer from_secret sha256 to_vec t).
Proof. unfold flush_ingest_buffer. pose proof safe_flush_collection. serve; auto. Qed.
Lemma safe_item t s : safe_at s (receive_item from_secret sha256 to_vec t).
Proof. unfold receive_item. pose proof safe_flush. serve; auto. Qed.

Lemma safe_tail_op c op s : safe_at s (tail_op c op).
Proof.
  unfold safe_at, tail_op. destruct op; try by apply serves_same.
  all: destruct (echo_take _ _ _) as [cache is_echo]; destruct (is_echo || _); try by apply serves_same.
  destruct (decode _) as [doc|]; [|by apply serves_same]. destruct (doc_has_links doc); [|by apply serves_same]. on_db_first; done.
Qed.
Lemma safe_tail t micros c offsets s : safe_at s (server_tail from_secret sha256 to_vec t micros c offsets).
Proof.
  unfold server_tail. apply safe_bind.
  - unfold safe_at, tail_collection. destruct (is_sync_withheld _ _); [by apply serves_same|]. on_db_first; try done.
    destruct (tail _ _) as [[ops pos]|x|]; try done. case_bool_decide; [done|]. eapply serves_trans; [done|].
    assert (∀ ops s, safe_at s (tail_ops c ops)) as Hops.
    { intros l. induction l as [|op l IH]; intros s2; cbn [tail_ops]; [apply safe_ret|]. pose proof safe_tail_op. serve; auto. }
    apply safe_bind; [apply Hops|]. intros. apply safe_ret.
  - intros [to_send offs] s1 _ _. apply safe_bind; [|intros; apply safe_ret]. apply safe_any. intros page s2. unfold broadcast. serve.
    apply safe_peers. intros p s3 Hl. unfold fan_out. serve.
Qed.

(** *** The server at work *)

(** A server with the connections that have passed the checks and not entered, those
    that have entered and not been answered, and all that have ever entered. *)
Record Run := mkRun { run_cloud : CloudSync; waiting : list Hello; entering : list Hello; let_in : list Hello }.

(** What a server sees when at most [p] connections are between their checks and their
    entry at a time.  The limit of the room may be changed, but not above [max] (0 stands
    for no limit). *)
Inductive server_step (p : nat) (max : Z) : Run → Run → Prop :=
| step_check t conn first s s' w e l :
    hello_check from_secret sha256 to_vec from_slice t conn first s = (s', Ok None) → server_step p max (mkRun s w e l) (mkRun s' w e l)
| step_pass t conn first s s' j w e l :
    hello_check from_secret sha256 to_vec from_slice t conn first s = (s', Ok (Some j)) → (length w < p)%nat →
    server_step p max (mkRun s w e l) (mkRun s' (j :: w) e l)
| step_fail t conn first s s' r w e l :
    hello_check from_secret sha256 to_vec from_slice t conn first s = (s', r) → (∀ o, r ≠ Ok o) →
    server_step p max (mkRun s w e l) (mkRun s' w e l)
| step_enter j w1 w2 s s' r e l :
    hello_enter j s = (s', r) → server_step p max (mkRun s (w1 ++ j :: w2) e l) (mkRun s' (w1 ++ w2) (j :: e) (j :: l))
| step_welcome j e1 e2 s s' r w l :
    hello_welcome to_vec j s = (s', r) → server_step p max (mkRun s w (e1 ++ j :: e2) l) (mkRun s' w (e1 ++ e2) l)
| step_packet t peer b s s' r w e l :
    handle_packet from_secret sha256 to_vec from_slice list_indexes t peer b s = (s', r) → server_step p max (mkRun s w e l) (mkRun s' w e l)
| step_end peer s s' r w e l : disconnect peer s = (s', r) → server_step p max (mkRun s w e l) (mkRun s' w e l)
| step_item t s s' r w e l :
    receive_item from_secret sha256 to_vec t s = (s', r) → server_step p max (mkRun s w e l) (mkRun s' w e l)
| step_flush t s s' r w e l :
    flush_ingest_buffer from_secret sha256 to_vec t s = (s', r) → server_step p max (mkRun s w e l) (mkRun s' w e l)
| step_tail t micros c offsets s s' r w e l :
    server_tail from_secret sha256 to_vec t micros c offsets s = (s', r) → server_step p max (mkRun s w e l) (mkRun s' w e l)
| step_db n s w e l : server_step p max (mkRun s w e l) (mkRun (s_node n s) w e l)
| step_limit m s w e l : (0 < max → 0 < m <= max) → server_step p max (mkRun s w e l) (mkRun (set_max_clients_per_room m s) w e l).

(** Every peer has entered, every message to a connection that has not is a refusal, all
    that have passed the checks knew the room; and of the peers and those on their way
    to become one there are not more than the limit and [p] allow. *)
Definition knew (name key : bytes) (j : Hello) : Prop := hello_name j = name ∧ hello_key j = key.
Definition expected (s : CloudSync) (w : list Hello) : gset bytes := dom (active_peers s) ∪ list_to_set (hello_cid <$> w).
Record server_ok (p : nat) (name key : bytes) (max : Z) (run : Run) : Prop := {
  ok_room : room_name (run_cloud run) = name ∧ room_key (run_cloud run) = key;
  ok_max : 0 < max → 0 < max_clients (run_cloud run) <= max;
  ok_waiting : Forall (knew name key) (waiting run);
  ok_entering : ∀ j, j ∈ entering run → j ∈ let_in run;
  ok_let_in : Forall (knew name key) (let_in run);
  ok_peers peer conn : active_peers (run_cloud run) !! peer = Some conn → conn ∈ hello_conn <$> let_in run;
  ok_outbox conn b : (conn, b) ∈ outbox (run_cloud run) → conn ∈ hello_conn <$> let_in run ∨ ∃ why, to_vec (AuthResult false (Some why)) = Some b;
  ok_limit : 0 < max → Z.of_nat (size (expected (run_cloud run) (waiting run))) < max + Z.of_nat p }.

Lemma server_ok_serves p name key max s s' w e l :
  server_ok p name key max (mkRun s w e l) → serves s s' → server_ok p name key max (mkRun s' w e l).
Proof.
  intros [[R1 R2] Om Ow Oe Oa Op Oo Ol] [Hr (out & Ho & Hout)]. cbn in *. unfold room_of in Hr. injection Hr as E1 E2 E3 E4.
  split; cbn; rewrite ?E1, ?E2, ?E3, ?E4; try done.
  - intros conn b. rewrite Ho, elem_of_app. intros [Hin|Hin]; [by apply Oo|]. left. rewrite Forall_forall in Hout.
    destruct (Hout _ Hin) as (peer & Hp). by apply (Op peer).
  - unfold expected in *. by rewrite E4.
Qed.

Lemma reply_outbox conn p s : ∃ s', reply to_vec conn p s = (s', Ok tt) ∧ room_of s' = room_of s ∧
  ∀ m, m ∈ outbox s' → m ∈ outbox s ∨ (m.1 = conn ∧ to_vec p = Some m.2).
Proof.
  unfold reply. destruct (to_vec p) as [b|] eqn:Hb; [|exists s; split_and!; try done; by left].
  eexists. split; [done|]. split; [done|]. intros m. cbn [outbox s_out]. rewrite elem_of_app, list_elem_of_singleton. intros [Hin| ->]; [by left|by right].
Qed.

Lemma refused_ok {A} p name key max conn why s s' (r : res (option A)) w e l :
  server_ok p name key max (mkRun s w e l) → refuse to_vec conn why s = (s', r) → server_ok p name key max (mkRun s' w e l) ∧ r = Ok None.
Proof.
  intros [[R1 R2] Om Ow Oe Oa Op Oo Ol] E. cbn in *. unfold refuse in E.
  destruct (reply_outbox conn (AuthResult false (Some why)) s) as (s1 & Ea & Hr & Ho). rewrite (hm_bind_ok _ _ _ _ _ Ea) in E.
  injection E as <- <-. split; [|done]. unfold room_of in Hr. injection Hr as E1 E2 E3 E4. split; cbn; rewrite ?E1, ?E2, ?E3, ?E4; try done.
  - intros c b Hin. destruct (Ho _ Hin) as [Hin'|[_ Hw]]; [by apply Oo|]. right. by exists why.
  - unfold expected in *. by rewrite E4.
Qed.

(** The checks: a connection that passes them knew the room and found a place in it. *)
Lemma check_ok p name key max t conn first s s' r w e l :
  server_ok p name key max (mkRun s w e l) → hello_check from_secret sha256 to_vec from_slice t conn first s = (s', r) →
  server_ok p name key max (mkRun s' w e l) ∧ ∀ j, r = Ok (Some j) → knew name key j ∧ at_capacity s' (hello_cid j) = false.
Proof.
  intros Hok E. unfold hello_check in E. assert (∀ why, refuse to_vec conn why s = (s', r) →
    server_ok p name key max (mkRun s' w e l) ∧ ∀ j, r = Ok (Some j) → knew name key j ∧ at_capacity s' (hello_cid j) = false) as Hrf.
  { intros why Er. destruct (refused_ok _ _ _ _ _ _ _ _ _ _ _ _ Hok Er) as [Hok' ->]. by split. }
  destruct (first ≫= from_slice) as [pk|]; [destruct pk as [tok cid pname pkey api ver fp cols| | | | |]|].
  2-7: exact (Hrf _ E).
  rewrite (hm_bind_ok _ _ s s s) in E by done. destruct (negb _ || negb _) eqn:Hroom; [exact (Hrf _ E)|].
  apply orb_false_iff in Hroom as [Hn%negb_false_iff%bytes_eqb_eq Hk%negb_false_iff%bytes_eqb_eq].
  pose proof (safe_group t pname api cid s) as Hg. unfold safe_at in Hg.
  destruct (check_group_access from_secret sha256 t pname api cid s) as [s1 [denied|x|]] eqn:Eg; cbn [fst] in Hg;
    pose proof (server_ok_serves _ _ _ _ _ _ _ _ _ Hok Hg) as Hok1.
  2-3: unfold mbind, SR_bind in E; rewrite Eg in E; injection E as <- <-; by split.
  rewrite (hm_bind_ok _ _ _ _ _ Eg) in E. destruct denied as [why|].
  { destruct (refused_ok _ _ _ _ _ _ _ _ _ _ _ _ Hok1 E) as [Hok' ->]. by split. }
  rewrite (hm_bind_ok _ _ s1 s1 s1) in E by done. destruct (at_capacity s1 cid) eqn:Hcap.
  { destruct (refused_ok _ _ _ _ _ _ _ _ _ _ _ _ Hok1 E) as [Hok' ->]. by split. }
  injection E as <- <-. split; [done|]. intros j [= <-]. destruct (ok_room _ _ _ _ _ Hok) as [R1 R2]. cbn in R1, R2.
  split; [|done]. split; cbn; congruence.
Qed.

Lemma expected_cons s w j : expected s (j :: w) = {[hello_cid j]} ∪ expected s w.
Proof. unfold expected. cbn. set_solver. Qed.
Lemma expected_size s w : (size (expected s w) <= size (active_peers s) + length w)%nat.
Proof.
  induction w as [|j w IH]; [unfold expected; cbn; rewrite union_empty_r_L, size_dom; lia|].
  rewrite expected_cons. pose proof (size_union_alt {[hello_cid j]} (expected s w)) as Hu. rewrite size_singleton in Hu.
  pose proof (subseteq_size (expected s w ∖ {[hello_cid j]}) (expected s w) ltac:(set_solver)). cbn [length]. lia.
Qed.

Lemma pass_ok p name key max j s w e l :
  server_ok p name key max (mkRun s w e l) → knew name key j → at_capacity s (hello_cid j) = false → (length w < p)%nat →
  server_ok p name key max (mkRun s (j :: w) e l).
Proof.
  intros [[R1 R2] Om Ow Oe Oa Op Oo Ol] Hj Hcap Hw. split; try done; cbn in *; [by constructor|]. intros Hmax. rewrite expected_cons.
  destruct (Om Hmax) as [M1 M2]. unfold at_capacity in Hcap. rewrite (proj2 (Z.ltb_lt _ _) M1) in Hcap. cbn [andb] in Hcap. case_bool_decide as Hin; cbn [negb andb] in Hcap.
  - rewrite subseteq_union_1_L; [by apply Ol|]. apply singleton_subseteq_l. unfold expected. apply elem_of_union_l. by apply elem_of_dom.
  - apply Z.leb_gt in Hcap. rewrite <-expected_cons. pose proof (expected_size s (j :: w)) as Hs. cbn [length] in Hs. lia.
Qed.
Lemma enter_ok p name key max j s s' r w1 w2 e l :
  server_ok p name key max (mkRun s (w1 ++ j :: w2) e l) → hello_enter j s = (s', r) → server_ok p name key max (mkRun s' (w1 ++ w2) (j :: e) (j :: l)).
Proof.
  intros [[R1 R2] Om Ow Oe Oa Op Oo Ol] E. injection E as <- _. cbn in *. apply Forall_app in Ow as [Ow1 [Hj Ow2]%Forall_cons]. split; cbn; try done.
  - by apply Forall_app.
  - intros j' [->|Hin]%elem_of_cons; [left|right; by apply Oe].
  - by constructor.
  - intros peer c. rewrite elem_of_cons. intros [[_ <-]|[_ Hp]]%lookup_insert_Some; [by left|right; by apply (Op peer)].
  - intros c b Hin. rewrite elem_of_cons. destruct (Oo c b Hin) as [Hc|Hw]; [by left; right|by right].
  - intros Hmax. specialize (Ol Hmax). assert (expected (s_peers (<[hello_cid j := hello_conn j]> (active_peers s)) (peer_caps s) s) (w1 ++ w2) = expected s (w1 ++ j :: w2)) as ->; [|done].
    unfold expected. cbn [active_peers s_peers]. rewrite dom_insert_L, !fmap_app, fmap_cons, !list_to_set_app_L, list_to_set_cons. set_solver.
Qed.
Lemma welcome_ok p name key max j s s' r w e1 e2 l :
  msgpack_law to_vec from_slice → server_ok p name key max (mkRun s w (e1 ++ j :: e2) l) → hello_welcome to_vec j s = (s', r) →
  server_ok p name key max (mkRun s' w (e1 ++ e2) l).
Proof.
  intros Hlaw [[R1 R2] Om Ow Oe Oa Op Oo Ol] E. destruct (Hlaw (AuthResult true None)) as (ack & Hack & _). unfold hello_welcome in E.
  rewrite Hack in E. injection E as <- _. cbn in *. split; cbn; try done.
  - intros j' Hin. apply Oe. rewrite elem_of_app in *. rewrite elem_of_cons. tauto.
  - intros c b. rewrite elem_of_app, list_elem_of_singleton. intros [Hin|[= -> ->]]; [by apply Oo|]. left.
    apply list_elem_of_fmap_2, Oe. rewrite elem_of_app, elem_of_cons. by right; left.
Qed.

Lemma step_ok p name key max run run' :
  msgpack_law to_vec from_slice → server_ok p name key max run → server_step p max run run' → server_ok p name key max run'.
Proof.
  intros Hlaw Hok Hst. destruct Hst as [t conn first s s' w e l E|t conn first s s' j w e l E Hw|t conn first s s' r w e l E _|j w1 w2 s s' r e l E
    |j e1 e2 s s' r w l E|t peer b s s' r w e l E|peer s s' r w e l E|t s s' r w e l E|t s s' r w e l E|t micros c offs s s' r w e l E|n s w e l|m s w e l Hm].
  - exact (proj1 (check_ok _ _ _ _ _ _ _ _ _ _ _ _ _ Hok E)).
  - destruct (check_ok _ _ _ _ _ _ _ _ _ _ _ _ _ Hok E) as [Hok' Hj]. destruct (Hj j eq_refl) as [Hk Hc]. by apply pass_ok.
  - exact (proj1 (check_ok _ _ _ _ _ _ _ _ _ _ _ _ _ Hok E)).
  - by eapply enter_ok.
  - by eapply welcome_ok.
  - eapply server_ok_serves; [done|]. pose proof (safe_packet t peer b s) as Hs. unfold safe_at in Hs. by rewrite E in Hs.
  - injection E as <- _. destruct Hok as [[R1 R2] Om Ow Oe Oa Op Oo Ol]. cbn in *. split; cbn; try done.
    + intros p' c [_ Hp]%lookup_delete_Some. by apply (Op p').
    + intros Hmax. specialize (Ol Hmax). eapply Z.le_lt_trans; [|exact Ol]. apply inj_le, subseteq_size. unfold expected. cbn [active_peers s_peers].
      rewrite dom_delete_L. set_solver.
  - eapply server_ok_serves; [done|]. pose proof (safe_item t s) as Hs. unfold safe_at in Hs. by rewrite E in Hs.
  - eapply server_ok_serves; [done|]. pose proof (safe_flush t s) as Hs. unfold safe_at in Hs. by rewrite E in Hs.
  - eapply server_ok_serves; [done|]. pose proof (safe_tail t micros c offs s) as Hs. unfold safe_at in Hs. by rewrite E in Hs.
  - eapply server_ok_serves; [done|]. by apply serves_same.
  - by destruct Hok as [[R1 R2] Om Ow Oe Oa Op Oo Ol].
Qed.

Lemma steps_ok p name key max run run' :
  msgpack_law to_vec from_slice → rtc (server_step p max) run run' → server_ok p name key max run → server_ok p name key max run'.
Proof. intros Hlaw Hr. induction Hr as [|x y z Hst Hr IH]; [done|]. intros Hok. apply IH. by eapply step_ok. Qed.

(** C23: Whatever connections, messages, flushes, log tails, changes of the database and
    of the limit a server sees, in whatever order, a connection that was ever given
    anything but a refusal had presented the name and the key of the room when it was let
    in.  The capacity is checked before a connection enters, not as it enters: when at
    most [p] connections are between the two at any time and the limit never exceeds
    [max], a room has at most [max + p - 1] peers, and so keeps its limit when
    handshakes do not overlap ([room_overfilled] has two that do). *)
Theorem served_only_members p n name key max run :
  msgpack_law to_vec from_slice →
  rtc (server_step p max) (mkRun (set_max_clients_per_room max (cloud_new n name key)) [] [] []) run →
  (∀ conn b, (conn, b) ∈ outbox (run_cloud run) →
     (∃ j, j ∈ let_in run ∧ hello_conn j = conn ∧ hello_name j = name ∧ hello_key j = key) ∨
     ∃ why, to_vec (AuthResult false (Some why)) = Some b) ∧
  (0 < max → Z.of_nat (size (active_peers (run_cloud run))) <= max + Z.of_nat p - 1).
Proof.
  intros Hlaw Hr. assert (server_ok p name key max (mkRun (set_max_clients_per_room max (cloud_new n name key)) [] [] [])) as H0'.
  { split; try done; cbn; try lia.
    - intros conn b Hin. by apply not_elem_of_nil in Hin.
    - intros Hmax. change (Z.of_nat 0 < max + Z.of_nat p). lia. }
  destruct (steps_ok _ _ _ _ _ _ Hlaw Hr H0') as [_ _ _ _ Oa _ Oo Ol]. split.
  - intros conn b Hin. destruct (Oo conn b Hin) as [Hc|Hw]; [left|by right]. apply list_elem_of_fmap in Hc as (j & -> & Hj). exists j.
    rewrite Forall_forall in Oa. by destruct (Oa _ Hj).
  - intros Hmax. specialize (Ol Hmax). rewrite <-size_dom.
    pose proof (subseteq_size (dom (active_peers (run_cloud run))) (expected (run_cloud run) (waiting run)) ltac:(unfold expected; set_solver)). lia.
Qed.
End Served.

(** ** What the tailer sends *)

Section Tail.
Context `{CrcLaws} `{ZstdLaws} `{HashIterLaws} `{StdIter} {cipher : Type} `{AeadLaws cipher} {IndexList : Type}.
Context (from_secret : bytes → EncryptionContext cipher) (sha256 : bytes → bytes).
Context (to_vec : CloudPacket IndexList → option bytes).
Abbreviation CloudSync := (CloudSync (cipher := cipher) (IndexList := IndexList)).
Implicit Types (s : CloudSync) (t : Moment).

(** What decides who may see what. *)
Definition policy s := (config (hk s), marks (node s), caps (peer_caps s), active_peers s).

Lemma may_send_policy s s' c peer : policy s' = policy s → may_send from_secret sha256 s' c peer = may_send from_secret sha256 s c peer.
Proof.
  unfold policy, may_send, is_collection_encrypted, local_fp, caps_get. intros Hp. injection Hp as -> _ -> _. done.
Qed.
Lemma get_shard_config now c (h : Hako (cipher := cipher)) : config (get_shard from_secret now c h).1 = config h.
Proof. unfold get_shard. destruct (shards h !! c); [done|]. by destruct (engine_open _ _ _ _ _). Qed.
Lemma on_shard_config {A} c (f : SR (StorageEngine cipher) A) (h : Hako (cipher := cipher)) : config (on_shard c f h).1 = config h.
Proof. unfold on_shard. destruct (shards h !! c) as [e|]; [|done]. by destruct (f e). Qed.

(** A step that changes the database or the echoes only. *)
Definition private s s' : Prop := policy s' = policy s ∧ outbox s' = outbox s.
Lemma private_node {A} (f : SR (Hako (cipher := cipher)) A) s :
  config (f (hk s)).1 = config (hk s) → private s (on_node f s).1.
Proof. unfold on_node, on_hako. fold (hk s). destruct (f (hk s)) as [h r]. cbn. intros Hc. split; [|done]. unfold policy. cbn. by rewrite Hc. Qed.

Lemma tail_op_spec c op s s' r :
  tail_op c op s = (s', r) →
  private s s' ∧ ∀ ops, r = Ok ops → Forall (λ o, is_local_only (marks (node s)) c (get_key o) = false) ops.
Proof.
  unfold tail_op. intros E. destruct op as [| |k ts| |k v|]; try by injection E as <- <-; split; [done|intros ops [= <-]; constructor].
  all: destruct (echo_take _ _ _) as [cache is_echo]; cbn [node s_echo] in E; destruct (is_echo || _) eqn:Hl;
    [injection E as <- <-; split; [done|intros ops [= <-]; constructor]|apply orb_false_iff in Hl as [_ Hl]].
  - injection E as <- <-. split; [done|]. intros ops [= <-]. by apply Forall_singleton.
  - destruct (decode v) as [doc|]; [destruct (doc_has_links doc)|].
    2-3: injection E as <- <-; split; [done|intros ops [= <-]; by apply Forall_singleton].
    pose proof (private_node (resolve_in c doc) (s_echo cache s) (on_shard_config c _ _)) as Hp.
    destruct (on_node (resolve_in c doc) (s_echo cache s)) as [s1 [d|x|]]; injection E as <- <-; (split; [done|]); intros ops Ho; try done;
      injection Ho as <-; [by apply Forall_singleton|constructor].
Qed.

Lemma tail_ops_spec c ops s s' r :
  tail_ops c ops s = (s', r) →
  private s s' ∧ ∀ out, r = Ok out → Forall (λ o, is_local_only (marks (node s)) c (get_key o) = false) out.
Proof.
  revert s s' r; induction ops as [|op ops IH]; intros s s' r E; cbn [tail_ops] in E.
  { injection E as <- <-. split; [done|]. intros out [= <-]. constructor. }
  unfold mbind at 1, SR_bind at 1 in E. destruct (tail_op c op s) as [s1 r1] eqn:E1. destruct (tail_op_spec _ _ _ _ _ E1) as [[P1 O1] L1].
  destruct r1 as [one|x|]; [|injection E as <- <-; done..]. unfold mbind, SR_bind in E. destruct (tail_ops c ops s1) as [s2 r2] eqn:E2.
  destruct (IH _ _ _ E2) as [[P2 O2] L2]. assert (private s s2) as Hpr by (split; congruence).
  destruct r2 as [rest|x|]; injection E as <- <-; (split; [done|]); intros out Ho; try done. injection Ho as <-.
  apply Forall_app. split; [by apply L1|]. assert (marks (node s1) = marks (node s)) as <- by (unfold policy in P1; congruence). by apply L2.
Qed.

Lemma tail_collection_spec t c offsets s s' r :
  tail_collection from_secret t c offsets s = (s', r) →
  private s s' ∧ ∀ ops o, r = Ok (ops, o) →
    ops = [] ∨ (is_sync_withheld (hk s) c = false ∧ Forall (λ o, is_local_only (marks (node s)) c (get_key o) = false) ops).
Proof.
  unfold tail_collection. intros E. destruct (is_sync_withheld (hk s) c) eqn:Hw.
  { injection E as <- <-. split; [done|]. intros ops o [= <- _]. by left. }
  pose proof (private_node (get_shard from_secret (t_now t) c) s (get_shard_config _ _ _)) as Hp.
  destruct (on_node (get_shard from_secret (t_now t) c) s) as [s1 [e|x|]]; cbn [fst] in Hp.
  2: { injection E as <- <-. split; [done|]. intros ops o [= <- _]. by left. }
  2: { injection E as <- <-. done. }
  destruct (tail (wal e) _) as [[lops pos]|x|].
  2: { injection E as <- <-. split; [done|]. intros ops o [= <- _]. by left. }
  2: { injection E as <- <-. done. }
  case_bool_decide. { injection E as <- <-. split; [done|]. intros ops o [= <- _]. by left. }
  unfold mbind, SR_bind in E. destruct (tail_ops c lops s1) as [s2 r2] eqn:E2. destruct (tail_ops_spec _ _ _ _ _ E2) as [[P2 O2] L2].
  destruct Hp as [P1 O1]. assert (private s s2) as Hpr by (split; congruence).
  destruct r2 as [out|x|]; injection E as <- <-; (split; [done|]); intros ops o Ho; try done. injection Ho as <- _. right. split; [done|].
  assert (marks (node s1) = marks (node s)) as <- by (unfold policy in P1; congruence). by apply L2.
Qed.

(** Messages of one page to peers that may have it. *)
Definition told (micros : nat → Z) s (c : bytes) (ops : list WalOp) (m : nat * bytes) : Prop :=
  ∃ peer page, active_peers s !! peer = Some m.1 ∧ may_send from_secret sha256 s c peer = true ∧
    (∃ i, to_vec (Replication (micros i) c page) = Some m.2) ∧ page ⊆ ops.
Definition tells (micros : nat → Z) (c : bytes) (ops : list WalOp) s s' : Prop :=
  policy s' = policy s ∧ ∃ out, outbox s' = outbox s ++ out ∧ Forall (told micros s c ops) out.

Lemma tells_refl micros c ops s s' : private s s' → tells micros c ops s s'.
Proof. intros [Hp Ho]. split; [done|]. exists []. split; [by rewrite app_nil_r|constructor]. Qed.
Lemma told_policy micros s s' c ops m : policy s' = policy s → told micros s' c ops m → told micros s c ops m.
Proof.
  intros Hp (peer & page & A1 & A2 & A3 & A4). exists peer, page. rewrite (may_send_policy s s') in A2 by done.
  assert (active_peers s' = active_peers s) as E by (unfold policy in Hp; congruence). by rewrite <-E.
Qed.
Lemma tells_trans micros c ops s1 s2 s3 : tells micros c ops s1 s2 → tells micros c ops s2 s3 → tells micros c ops s1 s3.
Proof.
  intros (A1 & o1 & A2 & A3) (B1 & o2 & B2 & B3). split; [congruence|]. exists (o1 ++ o2). split; [by rewrite B2, A2, app_assoc|].
  apply Forall_app. split; [done|]. eapply Forall_impl; [exact B3|]. intros m. by apply told_policy.
Qed.
Lemma tells_each {A} micros c ops (P : CloudSync → Prop) (f : A → SR CloudSync unit) l s :
  (∀ s1 s2, P s1 → policy s2 = policy s1 → P s2) → P s → (∀ x s, x ∈ l → P s → tells micros c ops s (f x s).1) → tells micros c ops s (each f l s).1.
Proof.
  intros HP Hs Hf. revert s Hs; induction l as [|x l IH]; intros s Hs; cbn [each]; [by apply tells_refl|].
  unfold mbind, SR_bind. pose proof (Hf x s ltac:(left) Hs) as Hx. destruct (f x s) as [s1 [[]|y|]]; [|done..]. cbn [fst] in Hx.
  eapply tells_trans; [exact Hx|]. apply IH; [|by eapply HP; [|apply Hx]]. intros y s2 Hy. apply Hf. by right.
Qed.

Lemma broadcast_tells t micros c ops ip s : ip.2 ⊆ ops → tells micros c ops s (broadcast from_secret sha256 to_vec t micros c ip s).1.
Proof.
  intros Hsub. unfold broadcast. destruct (to_vec _) as [msg|] eqn:Hm; [|by apply tells_refl].
  rewrite (hm_bind_ok _ _ s s s) by done.
  apply (tells_each micros c ops (λ s', policy s' = policy s)); [congruence|done|].
  intros [peer conn] s1 Hin Hs1. unfold fan_out. rewrite (hm_bind_ok _ _ s1 s1 s1) by done. cbn [fst snd].
  destruct (may_send from_secret sha256 s1 c peer) eqn:Hms; cbn [negb].
  - destruct (has_room _ _ _); [|by apply tells_refl]. split; [done|]. exists [(conn, msg)]. split; [done|]. apply Forall_singleton.
    exists peer, ip.2. split_and!; [|done|by exists ip.1|done]. cbn [fst]. rewrite hash_iter_perm in Hin. apply elem_of_map_to_list in Hin.
    unfold policy in Hs1. congruence.
  - apply tells_refl. destruct (warn_spec t peer c s1) as (s2 & E & F1 & F2 & F3). rewrite E. cbn [fst]. split; [|done].
    unfold policy, hk. rewrite F2. unfold fixed in F1. congruence.
Qed.

(** C24: What the tailer of the server sends of a collection goes to connected peers
    that may have the collection (for one that is encrypted here, peers with the same
    key), is a page of operations none of which has a key that is local to the
    server, and is nothing if the collection is withheld from synchronisation. *)
Theorem tail_sends_public t micros c offsets s s' r :
  server_tail from_secret sha256 to_vec t micros c offsets s = (s', r) →
  ∃ out, outbox s' = outbox s ++ out ∧ ∀ conn b, (conn, b) ∈ out →
    is_sync_withheld (hk s) c = false ∧
    ∃ peer page i, active_peers s !! peer = Some conn ∧ may_send from_secret sha256 s c peer = true ∧
      to_vec (Replication (micros i) c page) = Some b ∧ ∀ op, op ∈ page → is_local_only (marks (node s)) c (get_key op) = false.
Proof.
  unfold server_tail. intros E. unfold mbind at 1, SR_bind at 1 in E. destruct (tail_collection from_secret t c offsets s) as [s1 r1] eqn:E1.
  destruct (tail_collection_spec _ _ _ _ _ _ E1) as [P1 L1]. pose proof P1 as [Hpol Hob].
  destruct r1 as [[ops offs]|x|]; [|injection E as <- <-; exists []; rewrite app_nil_r; split; [done|by intros ?? ?%not_elem_of_nil]..].
  assert (tells micros c ops s1 (each (broadcast from_secret sha256 to_vec t micros c) (imap pair (page_out_ops ops)) s1).1) as (_ & out & Ho & Hout).
  { apply (tells_each micros c ops (λ _, True)); [done|done|]. intros [i page] s2 Hin _. apply broadcast_tells. cbn [snd].
    apply elem_of_lookup_imap in Hin as (i' & page' & [= -> ->] & Hin%list_elem_of_lookup_2). intros op Hop. rewrite <-(proj1 (page_out_concat ops)). apply list_elem_of_In, in_concat. exists page'. split; by apply list_elem_of_In. }
  assert (outbox s' = outbox s1 ++ out) as Ho'.
  { unfold mbind, SR_bind in E. destruct (each _ _ s1) as [s2 [[]|x|]]; injection E as <- _; exact Ho. }
  exists out. split; [congruence|]. intros conn b Hin. rewrite Forall_forall in Hout. destruct (Hout _ Hin) as (peer & page & A1 & A2 & [i A3] & A4).
  destruct (L1 ops offs eq_refl) as [->|[Hw Hl]].
  { destruct (page_out_concat []) as [_ _]. cbn in Ho. exfalso. assert (out = []) as -> by (by apply (app_inv_head (outbox s1)); rewrite app_nil_r).
    by apply not_elem_of_nil in Hin. }
  split; [done|]. exists peer, page, i. split_and!; [|by rewrite (may_send_policy s s1) in A2|done|].
  - unfold policy in Hpol. cbn [fst] in A1. congruence.
  - intros op Hop. rewrite Forall_forall in Hl. by apply Hl, A4.
Qed.
End Tail.

(** ** Applications *)

#[local] Instance in_order : StdIter := λ _ _ _ _ m, map_to_list m.

(** A message format: packets as numbers. *)
Definition op_repr (op : WalOp) : (Z * bytes) * list Z * bytes :=
  match op with
  | BeginTx t => ((0, []), [t], [])
  | Put k a b c => ((1, k), [a; b; c], [])
  | Delete k t => ((2, k), [t], [])
  | CommitTx t => ((3, []), [t], [])
  | PutInlined k v => ((4, k), [], v)
  | PutBlob k a b => ((5, k), [a; b], [])
  end.
Definition op_of_repr (r : (Z * bytes) * list Z * bytes) : option WalOp :=
  match r with
  | ((0, _), [t], _) => Some (BeginTx t)
  | ((1, k), [a; b; c], _) => Some (Put k a b c)
  | ((2, k), [t], _) => Some (Delete k t)
  | ((3, _), [t], _) => Some (CommitTx t)
  | ((4, k), _, v) => Some (PutInlined k v)
  | ((5, k), [a; b], _) => Some (PutBlob k a b)
  | _ => None
  end.
Abbreviation Repr := ((bytes * bytes * bytes * bytes * option bytes * option bytes * option bytes * list bytes) + (bool * option bytes) +
  (gmap bytes Z * option unit) + (Z * bytes * list ((Z * bytes) * list Z * bytes)) + bytes + unit)%type.
Definition packet_repr (p : CloudPacket unit) : Repr :=
  match p with
  | Authenticate a b c d e f g h => inl (inl (inl (inl (inl (a, b, c, d, e, f, g, h)))))
  | AuthResult a b => inl (inl (inl (inl (inr (a, b)))))
  | VersionPing a b => inl (inl (inl (inr (a, b))))
  | Replication a b c => inl (inl (inr (a, b, op_repr <$> c)))
  | SyncRequest a => inl (inr a)
  | Heartbeat => inr tt
  end.
Definition packet_of_repr (r : Repr) : option (CloudPacket unit) :=
  match r with
  | inl (inl (inl (inl (inl (a, b, c, d, e, f, g, h))))) => Some (Authenticate a b c d e f g h)
  | inl (inl (inl (inl (inr (a, b))))) => Some (AuthResult a b)
  | inl (inl (inl (inr (a, b)))) => Some (VersionPing a b)
  | inl (inl (inr (a, b, c))) => Replication a b <$> mapM op_of_repr c
  | inl (inr a) => Some (SyncRequest a)
  | inr _ => Some Heartbeat
  end.
Definition pack (p : CloudPacket unit) : option bytes := Some [Zpos (countable.encode (packet_repr p))].
Definition unpack (b : bytes) : option (CloudPacket unit) :=
  match b with [Zpos n] => r ← countable.decode n; packet_of_repr r | _ => None end.

Lemma pack_law : msgpack_law pack unpack.
Proof.
  intros p. eexists. split; [reflexivity|]. unfold unpack. rewrite countable.decode_encode. cbn [mbind option_bind].
  destruct p as [| | |i c ops| |]; try reflexivity. cbn [packet_repr packet_of_repr].
  assert (mapM op_of_repr (op_repr <$> ops) = Some ops) as ->; [|done].
  induction ops as [|op ops IH]; [done|]. rewrite fmap_cons. cbn [mapM]. rewrite IH. by destruct op.
Qed.

Definition NOTES : bytes := b#("notes").
Definition noon : Moment := mkMoment 0 0 0 true (λ _ _, true) (λ _ _, true).
Definition no_marks : Marks := mkMarks ∅ ∅.

(** A database with the empty collection notes, and one that received some notes. *)
Definition client_db : Hako := (get_shard demo_secret 0 NOTES demo_db).1.
Definition note_ops : list WalOp := [put_note b#("x") 10 1; put_note b#("y") 20 2; Delete b#("z") 30].
Definition server_db : Hako := (apply_timestamped demo_secret 0 NOTES note_ops [] (get_key <$> note_ops) client_db).1.
Abbreviation Cloud := (CloudSync (cipher := unit) (IndexList := unit)).
Definition client : Cloud := cloud_new (mkNode client_db no_marks) b#("room") b#("secret").
(** The server keeps note y to itself; peer p is connection 7. *)
Definition server_with (m : Marks) (h : Hako) : Cloud :=
  s_peers {[b#("p") := 7%nat]} (mkCapsMap ∅ ∅) (cloud_new (mkNode h m) b#("room") b#("secret")).
Definition server : Cloud := server_with (mkMarks ∅ {[mark NOTES b#("y")]}) server_db.

Lemma client_receptive : receptive Datatypes.id NOTES client_db.
Proof.
  destruct (get_shard_spec demo_secret 0 NOTES demo_db (so_shards _ _ demo_state) (so_settled _ _ demo_state NOTES)) as (h & e & E & Hq & He).
  assert (client_db = h) as Hh by (unfold client_db; by rewrite E).
  assert (state_ok Datatypes.id client_db) as Ho by (rewrite Hh; by eapply quiet_state; [exact demo_state|]).
  assert (match shards client_db !! NOTES with Some e => index (idx e) = ∅ ∧ encryption (wal e) = None | None => False end) as Hs by (vm_compute; done).
  rewrite <-Hh in He. rewrite He in Hs. destruct Hs as [Hi Hn]. split.
  - exact Ho.
  - vm_compute. reflexivity.
  - by exists e.
  - intros e0. rewrite He. intros [= <-]. split; [split; [eapply (so_shards _ _ Ho); exact He|]|]; rewrite Hi; intros k p Hk; by rewrite lookup_empty in Hk.
Qed.

Lemma client_taking : taking Datatypes.id client NOTES.
Proof. split; [exact client_receptive|]. split; [reflexivity|]. split; vm_compute; reflexivity. Qed.

Lemma note_clean : Forall clean_op note_ops.
Proof. repeat constructor; (eexists; split_and!; [vm_compute; reflexivity..]). Qed.

Lemma server_receptive : receptive Datatypes.id NOTES server_db.
Proof.
  destruct (apply_timestamped_spec demo_secret Datatypes.id 0 NOTES note_ops [] client_db client_receptive) as (h & E & Hr & _).
  - vm_compute. reflexivity.
  - exact note_clean.
  - vm_compute. reflexivity.
  - unfold server_db. rewrite E. exact Hr.
Qed.

Lemma joiner_catches_up_witness :
  ∃ s' msgs k', send_catchup_deltas demo_secret Datatypes.id pack noon NOTES 0 30 b#("p") server = (s', Ok tt) ∧
    outbox s' = outbox server ++ (pair 7%nat <$> msgs) ∧
    join_room demo_secret Datatypes.id pack unpack noon (λ _, 0) msgs client = (k', Ok tt) ∧
    vers_of (hk k') NOTES = <[b#("x") := (10, Some (encode (note 10 1)))]> {[b#("z") := (30, None)]}.
Proof.
  destruct (shards server_db !! NOTES) as [e|] eqn:He; [|exfalso; by vm_compute in He].
  destruct (joiner_catches_up demo_secret Datatypes.id Datatypes.id pack unpack noon noon (λ _, 0) NOTES 30 b#("p") 7 server e client pack_law)
    as (s' & msgs & k' & E & Ho & Ej & Hv).
  - split; [vm_compute; reflexivity|vm_compute; reflexivity|reflexivity|reflexivity|]. intros entry Hc. by vm_compute in Hc.
  - exact He.
  - by apply (rc_store _ _ _ server_receptive).
  - exact client_taking.
  - vm_compute. reflexivity.
  - reflexivity.
  - reflexivity.
  - assert (size (match shards server_db !! NOTES with Some e => versions e | None => ∅ end) = 3%nat) as Hsz by (vm_compute; reflexivity).
    rewrite He in Hsz. rewrite Hsz. vm_compute. reflexivity.
  - exists s', msgs, k'. split; [exact E|]. split; [exact Ho|]. split; [exact Ej|]. rewrite Hv.
    assert (base.filter (λ kv : bytes * Version, is_local_only (marks (node server)) NOTES kv.1 = false)
      (match shards server_db !! NOTES with Some e => versions e | None => ∅ end) =
      <[b#("x") := (10, Some (encode (note 10 1)))]> {[b#("z") := (30, None)]}) as Hf by (vm_compute; reflexivity).
    rewrite He in Hf. exact Hf.
Defined.

(** A client that knows the room joins on connection 1, one that does not on 2, and then
    another on 3 that finds the room full. *)
Definition hello_of (cid key : bytes) : option bytes := pack (Authenticate [] cid b#("room") key None None None []).
Abbreviation hello := (hello_of b#("p")).
Definition lobby : Cloud := set_max_clients_per_room 1 (cloud_new (mkNode client_db no_marks) b#("room") b#("secret")).
Abbreviation joins := (handle_hello demo_secret Datatypes.id pack unpack noon).
Abbreviation checks := (hello_check demo_secret Datatypes.id pack unpack noon).
Abbreviation steps := (server_step demo_secret Datatypes.id pack unpack (λ _, tt)).
Definition joiner (conn : nat) (cid : bytes) : Hello := mkHello conn cid b#("room") b#("secret") None [].

Lemma served_only_members_witness :
  let s1 := (joins 1%nat (hello b#("secret")) lobby).1 in
  let s := (checks 3%nat (hello_of b#("q") b#("secret")) (checks 2%nat (hello b#("guess")) s1).1).1 in
  (∀ conn b, (conn, b) ∈ outbox s → (∃ j, j ∈ [joiner 1 b#("p")] ∧ hello_conn j = conn ∧ hello_name j = b#("room") ∧ hello_key j = b#("secret")) ∨
     ∃ why, pack (AuthResult false (Some why)) = Some b) ∧
  (0 < 1 → Z.of_nat (size (active_peers s)) <= 1 + Z.of_nat 1 - 1) ∧ (outbox s).*1 = [1%nat; 2%nat; 3%nat].
Proof.
  intros s1 s. set (s0 := (checks 1%nat (hello b#("secret")) lobby).1). set (s2 := (checks 2%nat (hello b#("guess")) s1).1).
  destruct (served_only_members demo_secret Datatypes.id pack unpack (λ _, tt) 1 (mkNode client_db no_marks) b#("room") b#("secret") 1
    (mkRun s [] [] [joiner 1 b#("p")]) pack_law) as [Hout Hmax].
  - apply (rtc_l _ _ (mkRun s0 [joiner 1 b#("p")] [] [])).
    { apply (step_pass _ _ _ _ _ 1 1 noon 1%nat (hello b#("secret"))); [vm_compute; reflexivity|]. cbn. lia. }
    apply (rtc_l _ _ (mkRun (hello_enter (joiner 1 b#("p")) s0).1 [] [joiner 1 b#("p")] [joiner 1 b#("p")])).
    { apply (step_enter _ _ _ _ _ 1 1 (joiner 1 b#("p")) [] [] s0 _ (Ok tt)). reflexivity. }
    apply (rtc_l _ _ (mkRun s1 [] [] [joiner 1 b#("p")])).
    { apply (step_welcome _ _ _ _ _ 1 1 (joiner 1 b#("p")) [] [] _ _ (Ok tt)). vm_compute. reflexivity. }
    apply (rtc_l _ _ (mkRun s2 [] [] [joiner 1 b#("p")])).
    { apply (step_check _ _ _ _ _ 1 1 noon 2%nat (hello b#("guess"))). vm_compute. reflexivity. }
    apply rtc_once, (step_check _ _ _ _ _ 1 1 noon 3%nat (hello_of b#("q") b#("secret"))). vm_compute. reflexivity.
  - split; [exact Hout|]. split; [exact Hmax|]. vm_compute. reflexivity.
Defined.

Definition tailed : Cloud * res (gmap bytes Z) := server_tail demo_secret Datatypes.id pack noon (λ i, t_micros noon + Z.of_nat i) NOTES ∅ server.
Definition sent_ops (b : bytes) : option (list WalOp) := match unpack b with Some (Replication _ _ ops) => Some ops | _ => None end.

Lemma tail_sends_public_witness :
  (prod_map Datatypes.id sent_ops <$> outbox tailed.1) = [(7%nat, Some [put_note b#("x") 10 1; Delete b#("z") 30])] ∧
  ∃ out, outbox tailed.1 = outbox server ++ out ∧ ∀ conn b, (conn, b) ∈ out →
    is_sync_withheld (hk server) NOTES = false ∧
    ∃ peer page i, active_peers server !! peer = Some conn ∧ may_send demo_secret Datatypes.id server NOTES peer = true ∧
      pack (Replication (t_micros noon + Z.of_nat i) NOTES page) = Some b ∧ ∀ op, op ∈ page → is_local_only (marks (node server)) NOTES (get_key op) = false.
Proof.
  split; [vm_compute; reflexivity|].
  destruct (tail_sends_public demo_secret Datatypes.id pack noon (λ i, t_micros noon + Z.of_nat i) NOTES ∅ server tailed.1 tailed.2 (surjective_pairing _)) as (out & Ho & Hout).
  exists out. split; [exact Ho|]. exact Hout.
Defined.

(** ** Corner cases *)

Abbreviation catches_up := (send_catchup_deltas demo_secret Datatypes.id pack noon NOTES).
Abbreviation take_flush := (flush_collection demo_secret Datatypes.id pack noon).
Definition sent (s : Cloud) : list (list bytes) := (λ m, match sent_ops m.2 with Some ops => get_key <$> ops | None => [] end) <$> outbox s.
Definition items_of (ops : list WalOp) : list IngestItem := (λ op, mkItem NOTES op None) <$> ops.
Definition note_at (s : Cloud) (id : bytes) : option Z := vers_of (hk s) NOTES !! id ≫= λ v, match v.2 with Some _ => Some v.1 | None => None end.

(** The delta of one client is cached as if it were the whole collection: the next
    client, which has nothing, gets the delta and never note x. *)
Lemma cache_serves_delta :
  let s := (catches_up 0 30 b#("p") (catches_up 15 30 b#("p") (server_with no_marks server_db)).1).1 in
  sent s = [[b#("z"); b#("y")]; [b#("z"); b#("y")]] ∧ catchup_cache_hits s = 1.
Proof. vm_compute. split; reflexivity. Qed.

(** A collection that is made local after a catch-up is still sent, from the cache. *)
Definition now_local : Cloud :=
  let s := (catches_up 0 30 b#("p") (server_with no_marks server_db)).1 in
  s_node (set_collection_local demo_secret Datatypes.id 0 5000 NOTES true (node s)).1 s.
Lemma cache_outlives_marks :
  is_local_only (marks (node now_local)) NOTES b#("x") = true ∧ drop 1 (sent (catches_up 0 30 b#("p") now_local).1) ≠ [].
Proof. split; vm_compute; [reflexivity|discriminate]. Qed.

(** The documents of a segment have no version: once everything is flushed, a server
    with documents offers nothing. *)

Lemma segments_have_no_version ps : Forall (λ p, ∃ a b c, p = PSegment a b c) ps → max_version ps = Ok (match ps with [] => None | _ => Some 0 end).
Proof.
  induction ps as [|p ps IH]; [done|]. intros [(a & b & c & ->) Hps]%Forall_cons. cbn [max_version]. rewrite (IH Hps).
  by destruct ps.
Qed.

(** Two clients pass the checks of a room for one before either enters: both are in. *)
Lemma room_overfilled :
  let '(s, r1) := checks 1%nat (hello_of b#("p") b#("secret")) lobby in
  let '(s, r2) := checks 2%nat (hello_of b#("q") b#("secret")) s in
  r1 = Ok (Some (joiner 1 b#("p"))) ∧ r2 = Ok (Some (joiner 2 b#("q"))) ∧ max_clients s = 1 ∧
  size (active_peers (hello_enter (joiner 2 b#("q")) (hello_enter (joiner 1 b#("p")) s).1).1) = 2%nat.
Proof. vm_compute. split_and!; reflexivity. Qed.

(** A client comes back on connection 2 before the server notices the end of 1, whose
    end then takes the client from the peers. *)
Lemma reconnect_lost :
  let s := (joins 2%nat (hello b#("secret")) (joins 1%nat (hello b#("secret")) lobby).1).1 in
  active_peers s = {[b#("p") := 2%nat]} ∧ active_peers (disconnect b#("p") s).1 = ∅.
Proof. vm_compute. split; reflexivity. Qed.

(** Of two versions in one flush the one that comes last stays, were it the older. *)
Lemma flush_last_wins :
  note_at (take_flush (NOTES, items_of [put_note b#("x") 20 2; put_note b#("x") 10 1]) client).1 b#("x") = Some 10.
Proof. vm_compute. reflexivity. Qed.

(** An older version revives a deleted document. *)
Lemma old_put_revives :
  vers_of (hk server) NOTES !! b#("z") = Some (30, None) ∧
  note_at (take_flush (NOTES, items_of [put_note b#("z") 10 1]) server).1 b#("z") = Some 10.
Proof. vm_compute. split; reflexivity. Qed.

(** The directory of the indexes is offered as a collection. *)
Lemma indices_offered : b#("_indices") ∈ sync_collections server_db ∧ b#("_indices") ∉ hako_list_collections server_db.
Proof.
  split; [apply (bool_decide_unpack (b#("_indices") ∈ sync_collections server_db)); vm_compute; done|].
  apply (bool_decide_unpack (b#("_indices") ∉ hako_list_collections server_db)). vm_compute. done.
Qed.

(** A mark withholds more than its document: the one whose key is the marked key with
    the collection before a colon. *)
Lemma mark_withholds_twin : is_local_only (mkMarks ∅ {[mark NOTES b#("y")]}) NOTES b#("notes:y") = true.
Proof. vm_compute. reflexivity. Qed.

(** Two pages of the tailer in one microsecond have one number; the second is dropped. *)
Lemma same_time_dropped p1 p2 (s : Cloud) :
  seen_messages s = [] →
  ingest (receive_batch 9 NOTES p2 None (receive_batch 9 NOTES p1 None s).1).1 = ingest s ++ ((λ op, mkItem NOTES op None) <$> p1).
Proof. intros E. unfold receive_batch, modify. cbn [fst]. unfold note_seen at 2 4. rewrite E. reflexivity. Qed.
