(* ===== verification/Mesh.v ===== *)
(** * Synchronisation between peers (src/net_sync.rs, src/socket_sync.rs)

    The mesh of databases that find each other on a network, and the pairs of
    databases on one machine that are connected by a socket.  Both ingest through
    [apply_replicated_batch] (SyncCore.v), here with everything the ingest asks of the
    database, and both tail the logs in the same way.

    A connection is a number; the frames written to it appear in [wire] or
    [sock_out] without their length, in the order of writing.  [alive] of the
    [Moment] says whether a write reaches the peer.  What the code spawns to be written later
    is written at once.  The packets' binary format is a pair of parameters; the index definitions that
    peers exchange are passed on and not applied.  The multicast discovery is a crate. *)

From stdpp Require Import prelude list gmap strings.
From Stdlib Require Import ZArith Lia.
From S2P Require Import Prelude RustStd Error Config Crypto VFile Models Value Doc DocFacts DocCodec DocAccess Wal WalFacts PageCache StorageIndex.
From S2P Require Import StorageIndexFacts Segment SegmentFacts Blob Storage StorageMaint StorageFacts StorageView StorageModels Matcher Worker SyncCore SyncFacts.
From S2P Require Import SyncProps Filter Schema Composite Ledger CompositeManager Facade FacadeFacts FacadeApply FacadeState FacadeProps Graph Query IndexManager QueryFront Cloud CloudProps.

Local Open Scope Z_scope.
Local Open Scope hako_scope.

(** ** Discovery *)

Definition BEACON_MAGIC : Z := 0x464C4252.
Definition BEACON_EXPIRY : Z := 45.
Record BeaconPacket := mkBeacon {
  magic : Z;
  bc_id : bytes;
  bc_room_hash : bytes;
  tcp_port : Z;
  known : list (bytes * bytes) }.
(** [deserialize] is the binary format. *)
Definition decode_beacon (deserialize : bytes → option BeaconPacket) (b : bytes) : option BeaconPacket :=
  p ← deserialize b; if magic p =? BEACON_MAGIC then Some p else None.

(** [merge_beacon]: addresses by name, with the time of the last news; [src] is the
    address of the sender with its port. *)
Definition upsert (self_id : bytes) (now : Z) (cc : gmap bytes (bytes * Z) * bool) (na : bytes * bytes) : gmap bytes (bytes * Z) * bool :=
  let '(cache, changed) := cc in
  if bytes_eqb na.1 self_id then (cache, changed)
  else (<[na.1 := (na.2, now)]> cache, match cache !! na.1 with Some (a, _) => if bytes_eqb a na.2 then changed else true | None => true end).
Definition merge_beacon (cache : gmap bytes (bytes * Z)) (pkt : BeaconPacket) (src self_id room_hash : bytes) (now : Z) :
    gmap bytes (bytes * Z) * bool :=
  if negb (bytes_eqb (bc_room_hash pkt) room_hash) || bytes_eqb (bc_id pkt) self_id then (cache, false)
  else foldl (upsert self_id now) (cache, false) ((bc_id pkt, src) :: known pkt).
Definition prune_stale_peers (cache : gmap bytes (bytes * Z)) (now : Z) : gmap bytes (bytes * Z) :=
  base.filter (λ kv : bytes * (bytes * Z), now - kv.2.2 < BEACON_EXPIRY) cache.

Inductive DiscoveryMode := Mdns | Broadcast | Both | Off.
Definition from_u8 (v : Z) : option DiscoveryMode :=
  if v =? 0 then Some Mdns else if v =? 1 then Some Broadcast else if v =? 2 then Some Both else if v =? 3 then Some Off else None.
Definition mode_u8 (m : DiscoveryMode) : Z := match m with Mdns => 0 | Broadcast => 1 | Both => 2 | Off => 3 end.
Definition discovery_mode (v : Z) : DiscoveryMode := default Mdns (from_u8 v).
Definition transports_for (mode : DiscoveryMode) : bool * bool :=
  match mode with
  | Mdns => (true, false)
  | Broadcast => (false, true)
  | Both => (true, true)
  | Off => (false, false)
  end.

(** ** What both transports share *)

Section Shared.
Context `{Crc} `{Zstd} `{HashIter} {cipher : Type} `{Aead cipher}.
Context (from_secret : bytes → EncryptionContext cipher).
Abbreviation Hako := (Hako (cipher := cipher)).
Abbreviation Node := (Node (cipher := cipher)).
Abbreviation StorageEngine := (StorageEngine cipher).

(** The collections that are not exchanged, from the caller, the program and the
    configuration. *)
Definition excluded_of (h : Hako) (excluded : list bytes) : gset bytes :=
  list_to_set (excluded ++ SYNC_EXCLUDED_COLLECTIONS ++ sync_excluded (config h)).

(** [apply_replicated_batch] with the database around the collection. *)
Definition remote_events (c : bytes) (eff : Effects) : list (bytes * ChangeEvent) :=
  (λ kp, (c, mkEvent kp.1 (if kp.2 : bool then ChPut else ChDelete))) <$> events eff.
Definition ingest_remote (t : Moment) (c : bytes) (ops : list WalOp) (cache : gmap bytes Z) : SR Hako (gmap bytes Z) :=
  h ← get_st;
  '(cache, mark, eff) ← on_shard c (apply_replicated_batch false (t_now t) (t_micros t) (value_blob_threshold_bytes (config h)) c ops
                                      cache (last_ts_watermark h));
  _ ← modify (λ h, h_with_clock mark (id_sequence h) h);
  _ ← modify (bump_versions_by_keys (bumped eff));
  _ ← modify (enqueue_index_update (mkIndexOp c (to_index eff) []));
  _ ← modify (notify_watchers (remote_events c eff));
  mret cache.
Definition apply_remote (t : Moment) (c : bytes) (ops : list WalOp) (cache : gmap bytes Z) : SR Node (gmap bytes Z) := λ n,
  if is_collection_local (marks n) c then (n, Ok cache)
  else match on_hako (get_shard from_secret (t_now t) c) n with
       | (n, Ok _) => on_hako (ingest_remote t c ops cache) n
       | (n, Err _) => (n, Ok cache)
       | (n, Panic) => (n, Panic)
       end.

(** An operation of the log as the tailers send it; echoes are keyed by document. *)
Definition logical_op (c : bytes) (op : WalOp) (cache : gmap bytes Z) : SR Node (gmap bytes Z * list WalOp) := λ n,
  let key := get_key op in
  let '(cache, is_echo) := echo_take cache key (op_logical_time op) in
  if is_echo then (n, Ok (cache, []))
  else if is_local_only (marks n) c key then (n, Ok (cache, []))
  else match on_hako (on_shard c (resolve_send_bytes op)) n with
       | (n, Ok (Some b)) => (n, Ok (cache, [PutInlined key b]))
       | (n, Panic) => (n, Panic)
       | (n, _) => (n, Ok (cache, match op with Delete _ _ => [op] | _ => [] end))
       end.
Fixpoint logical_ops (c : bytes) (ops : list WalOp) (cache : gmap bytes Z) : SR Node (gmap bytes Z * list WalOp) :=
  match ops with
  | [] => mret (cache, [])
  | op :: ops =>
      '(cache, one) ← logical_op c op cache;
      '(cache, rest) ← logical_ops c ops cache;
      mret (cache, one ++ rest)
  end.
(** The news of a collection: the echoes, what to send, the new offset. *)
Definition tail_news (t : Moment) (c : bytes) (offsets cache : gmap bytes Z) : SR Node (option (gmap bytes Z * list WalOp * Z)) := λ n,
  match on_hako (get_shard from_secret (t_now t) c) n with
  | (n, Err _) => (n, Ok None)
  | (n, Panic) => (n, Panic)
  | (n, Ok e) =>
      match tail (wal e) (default 0 (offsets !! c)) with
      | Err _ => (n, Ok None)
      | Panic => (n, Panic)
      | Ok (ops, new_pos) =>
          if bool_decide (ops = []) then (n, Ok None)
          else ('(cache, logical) ← logical_ops c ops cache; mret (Some (cache, logical, new_pos))) n
      end
  end.
End Shared.

(** ** The mesh *)

Inductive NetPacket {IndexList : Type} :=
| Identify (id room_hash : bytes)
| Ping (versions : gmap bytes Z) (indexes : IndexList)
| NetSyncRequest
| NetReplication (msg_id : Z) (collection : bytes) (ops : list WalOp)
| SyncCaps (key_fp : bytes) (encrypted_cols : list bytes)
| CloudLease (client_id : bytes) (last_exchange_ts : Z)
| RelayTake (ts : Z) (client_id : bytes).
Arguments NetPacket : clear implicits.

Definition BOOT_PAGE_MAX_BYTES : Z := 8 * 1024 * 1024.
Definition BOOT_PAGE_MAX_DOCS : nat := 1000.
Definition DELTA_CHUNK : nat := 50.

Section Mesh.
Context `{Crc} `{Zstd} `{HashIter} {cipher : Type} `{Aead cipher} {IndexList : Type}.
Context (from_secret : bytes → EncryptionContext cipher) (to_lowercase sha256 : bytes → bytes).
Context (serialize : NetPacket IndexList → option bytes) (deserialize : bytes → option (NetPacket IndexList)).
Context (list_indexes : Hako (cipher := cipher) → IndexList).
Abbreviation Hako := (Hako (cipher := cipher)).
Abbreviation Node := (Node (cipher := cipher)).
Abbreviation StorageEngine := (StorageEngine cipher).

Record NetSyncer := mkSyncer {
  net_node : Node;
  self_id : bytes;
  room_hash : bytes;
  excluded_collections : gset bytes;
  enable_relay : bool;
  net_peers : gmap bytes nat;
  net_caps : CapsMap;
  net_seen : list Z;
  shard_offsets : gmap bytes Z;
  net_echo : gmap bytes Z;
  cloud_leases : gmap bytes (Z * Z);
  last_mesh_ping : Z;
  wire : list (nat * bytes);
  net_indexes : list IndexList }.
Abbreviation NS := (SR NetSyncer).
Definition n_node (n : Node) (s : NetSyncer) : NetSyncer :=
  mkSyncer n (self_id s) (room_hash s) (excluded_collections s) (enable_relay s) (net_peers s) (net_caps s) (net_seen s)
    (shard_offsets s) (net_echo s) (cloud_leases s) (last_mesh_ping s) (wire s) (net_indexes s).
Definition n_peers (p : gmap bytes nat) (c : CapsMap) (s : NetSyncer) : NetSyncer :=
  mkSyncer (net_node s) (self_id s) (room_hash s) (excluded_collections s) (enable_relay s) p c (net_seen s)
    (shard_offsets s) (net_echo s) (cloud_leases s) (last_mesh_ping s) (wire s) (net_indexes s).
Definition n_seen (l : list Z) (s : NetSyncer) : NetSyncer :=
  mkSyncer (net_node s) (self_id s) (room_hash s) (excluded_collections s) (enable_relay s) (net_peers s) (net_caps s) l
    (shard_offsets s) (net_echo s) (cloud_leases s) (last_mesh_ping s) (wire s) (net_indexes s).
Definition n_tail (o e : gmap bytes Z) (s : NetSyncer) : NetSyncer :=
  mkSyncer (net_node s) (self_id s) (room_hash s) (excluded_collections s) (enable_relay s) (net_peers s) (net_caps s) (net_seen s)
    o e (cloud_leases s) (last_mesh_ping s) (wire s) (net_indexes s).
Definition n_notes (l : gmap bytes (Z * Z)) (p : Z) (i : list IndexList) (s : NetSyncer) : NetSyncer :=
  mkSyncer (net_node s) (self_id s) (room_hash s) (excluded_collections s) (enable_relay s) (net_peers s) (net_caps s) (net_seen s)
    (shard_offsets s) (net_echo s) l p (wire s) i.
Definition n_wire (w : list (nat * bytes)) (s : NetSyncer) : NetSyncer :=
  mkSyncer (net_node s) (self_id s) (room_hash s) (excluded_collections s) (enable_relay s) (net_peers s) (net_caps s) (net_seen s)
    (shard_offsets s) (net_echo s) (cloud_leases s) (last_mesh_ping s) w (net_indexes s).

Definition net_db (s : NetSyncer) : Hako := node_db (net_node s).
Definition on_net {A} (f : SR Node A) : NS A := λ s, let '(n, r) := f (net_node s) in (n_node n s, r).
Definition net_fp (s : NetSyncer) : bytes := local_fingerprint sha256 (encryption_key (config (net_db s))).

(** [NetSyncer::new]: the offsets of the logs come from the system collection. *)
Definition CHECKPOINT : bytes := b#("sync_checkpoint").
Definition offsets_of (d : option HakoDoc) : gmap bytes Z :=
  match d ≫= (λ d, doc_get d b#("offsets")) with
  | Some (Map fields) => foldl (λ m kv, match kv.2 with Int off => <[kv.1 := as_u64 off]> m | _ => m end) ∅ fields
  | _ => ∅
  end.
Definition net_new (t : Moment) (name room_key : bytes) (excluded : list bytes) (n : Node) : Node * res NetSyncer :=
  let make n offsets := mkSyncer n name (sha256 room_key) (excluded_of (node_db n) excluded) false ∅ (mkCapsMap ∅ ∅) [] offsets ∅ ∅
                          (t_instant t) [] [] in
  match on_hako (hako_get from_secret (t_now t) (t_free t) SYSTEM_COLLECTION CHECKPOINT) n with
  | (n, Ok d) => (n, Ok (make n (offsets_of d)))
  | (n, Err _) => (n, Ok (make n ∅))
  | (n, Panic) => (n, Panic)
  end.
Definition with_relay (enable : bool) (s : NetSyncer) : NetSyncer :=
  mkSyncer (net_node s) (self_id s) (room_hash s) (excluded_collections s) enable (net_peers s) (net_caps s) (net_seen s)
    (shard_offsets s) (net_echo s) (cloud_leases s) (last_mesh_ping s) (wire s) (net_indexes s).

(** Whom the discovery task dials at a tick. *)
Definition dial_list (s : NetSyncer) (cache : gmap bytes (bytes * Z)) (now : Z) : gmap bytes (bytes * Z) * list (bytes * bytes) :=
  let cache := prune_stale_peers cache now in
  (cache, List.filter (λ na, (match bytes_cmp na.1 (self_id s) with Gt => true | _ => false end) &&
                             negb (bool_decide (is_Some (net_peers s !! na.1)))) ((λ kv, (kv.1, kv.2.1)) <$> hash_iter cache)).

(** *** Sending *)

(** [send_frame]: whether the frame was written. *)
Definition write_frame (t : Moment) (conn : nat) (data : bytes) : NS bool := λ s,
  if bool_decide (is_Some (frame_bytes data)) && alive t conn (length (wire s)) then (n_wire (wire s ++ [(conn, data)]) s, Ok true)
  else (s, Ok false).
Definition send_packet (t : Moment) (conn : nat) (p : NetPacket IndexList) : NS bool :=
  match serialize p with Some b => write_frame t conn b | None => mret true end.
Definition net_warn (t : Moment) (peer c : bytes) : NS unit :=
  modify (λ s, n_peers (net_peers s) (caps_warn (net_caps s) (t_instant t) peer c).1 s).

Definition local_caps (s : NetSyncer) : PeerCaps :=
  mkCaps (net_fp s) (List.filter (is_collection_encrypted from_secret (net_db s)) (sync_collections (net_db s))).
Definition net_allowed (s : NetSyncer) (peer c : bytes) : bool :=
  caps_allow (is_collection_encrypted from_secret (net_db s) c) (net_fp s) (caps_get (net_caps s) peer).
Definition peer_may_send (t : Moment) (peer c : bytes) : NS bool :=
  s ← get_st; if net_allowed s peer c then mret true else _ ← net_warn t peer c; mret false.
(** [send_replication_packet], [send_bootstrap_page]. *)
Definition send_ops (t : Moment) (peer c : bytes) (ops : list WalOp) : NS unit :=
  match serialize (NetReplication 0 c ops) with
  | Some payload =>
      s ← get_st;
      match net_peers s !! peer with Some conn => _ ← write_frame t conn payload; mret tt | None => mret tt end
  | None => mret tt
  end.
Definition send_bootstrap_page (t : Moment) (peer c : bytes) (ops : list WalOp) : NS unit :=
  if bool_decide (ops = []) then mret tt else send_ops t peer c ops.

(** *** Catch-up *)

(** [collect_delta_ops]: the times that memory has. *)
Definition delta_time (p : Pointer) : res Z :=
  match p with PBlobPendingData _ skeleton => time_of skeleton | p => version_time p end.
Fixpoint delta_items (m : Marks) (c : bytes) (since_time : Z) (entries : list (bytes * Pointer)) : res (list (bytes * Pointer)) :=
  match entries with
  | [] => Ok []
  | kp :: entries =>
      if is_local_only m c kp.1 then delta_items m c since_time entries
      else ts ← delta_time kp.2;
           rest ← delta_items m c since_time entries;
           Ok (if since_time <? ts then kp :: rest else rest)
  end.
Definition delta_op (kp : bytes * Pointer) : SR StorageEngine (list WalOp) :=
  let '(key, p) := kp in
  match p with
  | PDeleted timestamp => mret [Delete key timestamp]
  | _ => λ e,
      match read_pointer_internal p false e with
      | (e, Panic) => (e, Panic)
      | (e, Ok (Some b)) =>
          (e, Ok match decode b with
                 | Some doc => if doc_has_links doc
                               then match resolve_doc e doc with Ok doc => [PutInlined key (encode doc)] | _ => [] end
                               else [PutInlined key b]
                 | None => []
                 end)
      | (e, _) => (e, Ok [])
      end
  end.
Fixpoint delta_ops (kps : list (bytes * Pointer)) : SR StorageEngine (list WalOp) :=
  match kps with
  | [] => mret []
  | kp :: kps => one ← delta_op kp; rest ← delta_ops kps; mret (one ++ rest)
  end.
Definition collect_delta_ops (t : Moment) (c : bytes) (since_time : Z) : SR Node (list WalOp) := λ n,
  if is_collection_local (marks n) c then (n, Ok [])
  else match on_hako (get_shard from_secret (t_now t) c) n with
       | (n, Ok _) =>
           on_hako (on_shard c (e ← get_st;
                                items ← lift (delta_items (marks n) c since_time (hash_iter (index (idx e))));
                                delta_ops items)) n
       | (n, Err _) => (n, Ok [])
       | (n, Panic) => (n, Panic)
       end.
Definition handle_delta_send (t : Moment) (peer c : bytes) (since_time : Z) : NS unit :=
  ok ← peer_may_send t peer c;
  if negb (ok : bool) then mret tt
  else
    ops ← on_net (collect_delta_ops t c since_time);
    each (send_ops t peer c) (chunks (length ops) DELTA_CHUNK ops).

(** [handle_bootstrap]: every document of every collection, page by page. *)
Definition boot_value (p : Pointer) : SR StorageEngine (option bytes) := λ e,
  match read_pointer_internal p false e with
  | (e, Panic) => (e, Panic)
  | (e, Ok (Some b)) =>
      (e, Ok (Some match decode b with
                   | Some doc => if doc_has_links doc then encode (match resolve_doc e doc with Ok doc => doc | _ => doc end) else b
                   | None => b
                   end))
  | (e, _) => (e, Ok None)
  end.
Fixpoint boot_entries (t : Moment) (peer c : bytes) (entries : list (bytes * Pointer)) (page : list WalOp) (page_bytes : Z) :
    NS (list WalOp) :=
  match entries with
  | [] => mret page
  | (key, p) :: entries =>
      value ← on_net (on_hako (on_shard c (boot_value p)));
      match value with
      | None => boot_entries t peer c entries page page_bytes
      | Some value =>
          let op_bytes := zlen key + zlen value in
          if negb (bool_decide (page = [])) && ((BOOT_PAGE_MAX_DOCS <=? length page)%nat || (BOOT_PAGE_MAX_BYTES <? page_bytes + op_bytes))
          then _ ← send_bootstrap_page t peer c page; boot_entries t peer c entries [PutInlined key value] op_bytes
          else boot_entries t peer c entries (page ++ [PutInlined key value]) (page_bytes + op_bytes)
      end
  end.
Definition net_withholds (s : NetSyncer) (c : bytes) : bool := bool_decide (c ∈ excluded_collections s) || is_sync_withheld (net_db s) c.
Definition boot_collection (t : Moment) (peer c : bytes) : NS unit :=
  s ← get_st;
  if net_withholds s c then mret tt
  else
    ok ← peer_may_send t peer c;
    if negb (ok : bool) then mret tt
    else λ s,
      match on_net (on_hako (get_shard from_secret (t_now t) c)) s with
      | (s, Err _) => (s, Ok tt)
      | (s, Panic) => (s, Panic)
      | (s, Ok e) => (page ← boot_entries t peer c (hash_iter (index (idx e))) [] 0; send_bootstrap_page t peer c page) s
      end.
Definition handle_bootstrap (t : Moment) (peer : bytes) : NS unit :=
  s ← get_st;
  if read_only (net_db s) then mret tt else each (boot_collection t peer) (sync_collections (net_db s)).

(** *** A peer *)

(** The ping and the request that start an exchange. *)
Definition greet (t : Moment) (peer : bytes) : NS unit :=
  my_versions ← on_net (on_hako (get_version_map from_secret (t_now t)));
  s ← get_st;
  match net_peers s !! peer with
  | Some conn => _ ← send_packet t conn (Ping my_versions (list_indexes (net_db s))); _ ← send_packet t conn NetSyncRequest; mret tt
  | None => mret tt
  end.
(** [handle_peer] up to its loop; [first] is the frame of the peer, if it came in time. *)
Definition peer_hello (t : Moment) (conn : nat) (first : option bytes) : NS (option bytes) :=
  s ← get_st;
  sent ← send_packet t conn (Identify (self_id s) (room_hash s));
  if negb (sent : bool) then mret None
  else match first ≫= deserialize with
       | Some (Identify id hash) =>
           if negb (bytes_eqb hash (room_hash s)) || bytes_eqb id (self_id s) then mret None
           else
             s ← get_st;
             sent ← send_packet t conn (SyncCaps (key_fp (local_caps s)) (peer_encrypted_cols (local_caps s)));
             if negb (sent : bool) then mret None
             else
               _ ← modify (λ s, n_peers (<[id := conn]> (net_peers s)) (net_caps s) s);
               _ ← greet t id;
               mret (Some id)
       | _ => mret None
       end.

Definition ping_collection (t : Moment) (peer : bytes) (cv : bytes * Z) : NS unit := λ s,
  let '(c, remote_time) := cv in
  if net_withholds s c then (s, Ok tt)
  else match on_net (on_hako (get_collection_version from_secret (t_now t) c)) s with
       | (s, Ok local_version) => if remote_time <? local_version then handle_delta_send t peer c remote_time s else (s, Ok tt)
       | (s, Err _) => (s, Ok tt)
       | (s, Panic) => (s, Panic)
       end.
(** [relay_mesh]: the frame as it came; a collection that its sender encrypts goes to
    peers with the sender's key. *)
Definition relay_frame (t : Moment) (origin : option PeerCaps) (sender data : bytes) (peer : bytes * nat) : NS unit :=
  s ← get_st;
  if bytes_eqb peer.1 sender then mret tt
  else if match origin with Some o => negb (bool_decide (key_fp <$> caps_get (net_caps s) peer.1 = Some (key_fp o))) | None => false end then mret tt
  else _ ← write_frame t peer.2 data; mret tt.
Definition relay_mesh (t : Moment) (data sender : bytes) : NS unit :=
  s ← get_st;
  let origin := match deserialize data with
                | Some (NetReplication _ c _) => o ← caps_get (net_caps s) sender; if bool_decide (c ∈ peer_encrypted_cols o) then Some o else None
                | _ => None
                end in
  each (relay_frame t origin sender data) (hash_iter (net_peers s)).
Definition net_ingest (t : Moment) (c : bytes) (ops : list WalOp) : NS unit :=
  s ← get_st;
  cache ← on_net (apply_remote from_secret t c ops (net_echo s));
  modify (λ s, n_tail (shard_offsets s) cache s).
Definition receive_ops (t : Moment) (peer raw : bytes) (msg_id : Z) (c : bytes) (ops : list WalOp) : NS unit :=
  s ← get_st;
  if net_withholds s c then mret tt
  else
    let '(seen, fresh) := note_seen msg_id (net_seen s) in
    _ ← modify (n_seen seen);
    if negb fresh then mret tt
    else if negb (net_allowed s peer c) then net_warn t peer c
    else
      _ ← net_ingest t c ops;
      if negb (msg_id =? 0) && enable_relay s then relay_mesh t raw peer else mret tt.
Definition peer_packet (t : Moment) (peer raw : bytes) : NS unit :=
  match deserialize raw with
  | Some (Ping versions indexes) =>
      _ ← modify (λ s, n_notes (cloud_leases s) (t_instant t) (net_indexes s ++ [indexes]) s);
      each (ping_collection t peer) (hash_iter versions)
  | Some NetSyncRequest => handle_bootstrap t peer
  | Some (NetReplication msg_id c ops) => receive_ops t peer raw msg_id c ops
  | Some (SyncCaps fp cols) =>
      _ ← modify (λ s, n_peers (net_peers s) (caps_set (net_caps s) peer (mkCaps fp cols)) s);
      greet t peer
  | Some (CloudLease client_id ts) | Some (RelayTake ts client_id) =>
      modify (λ s, n_notes (<[client_id := (ts, t_instant t)]> (cloud_leases s)) (last_mesh_ping s) (net_indexes s) s)
  | _ => mret tt
  end.
Definition peer_end (peer : bytes) : NS unit :=
  modify (λ s, n_peers (base.delete peer (net_peers s)) (caps_remove (net_caps s) peer) s).

(** *** The tailer *)

(** [broadcast_mesh], [send_filtered_mesh]. *)
Definition mesh_to (t : Moment) (c : bytes) (filtered : bool) (payload : bytes) (peer : bytes * nat) : NS unit :=
  s ← get_st;
  if filtered && negb (caps_allow true (net_fp s) (caps_get (net_caps s) peer.1)) then net_warn t peer.1 c
  else _ ← write_frame t peer.2 payload; mret tt.
Definition send_mesh (t : Moment) (c : bytes) (filtered : bool) (ops : list WalOp) : NS unit :=
  match serialize (NetReplication (t_micros t) c ops) with
  | Some payload => s ← get_st; each (mesh_to t c filtered payload) (hash_iter (net_peers s))
  | None => mret tt
  end.
(** [ro]: whether the database was read-only when the tailer started. *)
Definition mesh_tail (ro : bool) (t : Moment) (c : bytes) : NS bool :=
  s ← get_st;
  if bool_decide (c ∈ excluded_collections s) then mret false
  else
    news ← on_net (tail_news from_secret t c (shard_offsets s) (net_echo s));
    match news with
    | None => mret false
    | Some (cache, logical, new_pos) =>
        _ ← modify (λ s, n_tail (<[c := new_pos]> (shard_offsets s)) cache s);
        _ ← (if negb (bool_decide (logical = [])) && negb ro
             then send_mesh t c (is_collection_encrypted from_secret (net_db s) c) logical else mret tt);
        mret true
    end.
Fixpoint mesh_tails (ro : bool) (t : Moment) (cols : list bytes) : NS bool :=
  match cols with
  | [] => mret false
  | c :: cols => one ← mesh_tail ro t c; rest ← mesh_tails ro t cols; mret ((one : bool) || rest)
  end.
(** The offsets are saved when [due], five seconds after the last time. *)
Definition checkpoint_doc (offsets : gmap bytes Z) : HakoDoc :=
  doc_insert (mkDoc [] 0) b#("offsets") (Map ((λ kv, (kv.1, Int (as_i64 kv.2))) <$> hash_iter offsets)).
Definition save_offsets (t : Moment) (nanos : Z) : NS unit := λ s,
  match on_net (on_hako (put_owned from_secret to_lowercase (t_now t) nanos SYSTEM_COLLECTION CHECKPOINT (checkpoint_doc (shard_offsets s)))) s with
  | (s, Panic) => (s, Panic)
  | (s, _) => (s, Ok tt)
  end.
Definition mesh_round (ro : bool) (t : Moment) (nanos : Z) (due : bool) : NS unit :=
  s ← get_st;
  if bool_decide (net_peers s = ∅) then mret tt
  else
    changed ← mesh_tails ro t (sync_collections (net_db s));
    if (changed : bool) && due then save_offsets t nanos else mret tt.

(** The audit: nobody has pinged for five minutes. *)
Definition PING_INTERVAL : Z := 300.
Definition ping_peer (t : Moment) (payload : bytes) (peer : bytes * nat) : NS unit := _ ← write_frame t peer.2 payload; mret tt.
Definition periodic_ping (t : Moment) : NS unit :=
  s ← get_st;
  if t_instant t - last_mesh_ping s <? PING_INTERVAL then mret tt
  else
    my_versions ← on_net (on_hako (get_version_map from_secret (t_now t)));
    s ← get_st;
    match serialize (Ping my_versions (list_indexes (net_db s))) with
    | Some payload =>
        _ ← each (ping_peer t payload) (hash_iter (net_peers s));
        modify (λ s, n_notes (cloud_leases s) (t_instant t) (net_indexes s) s)
    | None => mret tt
    end.
End Mesh.

(** ** Sockets *)

Inductive SockPacket {IndexList : Type} :=
| Hello (versions : gmap bytes Z)
| IndexDefs (indexes : IndexList)
| Snapshot (collection : bytes) (ops : list WalOp)
| Data (collection : bytes) (ops : list WalOp).
Arguments SockPacket : clear implicits.

Section Socket.
Context `{Crc} `{Zstd} `{HashIter} {cipher : Type} `{Aead cipher} {IndexList : Type}.
Context (from_secret : bytes → EncryptionContext cipher).
Context (serialize : SockPacket IndexList → option bytes) (deserialize : bytes → option (SockPacket IndexList)).
Context (list_indexes : Hako (cipher := cipher) → IndexList).
Abbreviation Hako := (Hako (cipher := cipher)).
Abbreviation Node := (Node (cipher := cipher)).
Abbreviation StorageEngine := (StorageEngine cipher).

(** [Shared]: the connections of one listener have one set of offsets and one echo
    cache; a frame goes to the writer of its connection. *)
Record SocketSync := mkSock {
  sock_node : Node;
  sock_echo : gmap bytes Z;
  sock_offsets : gmap bytes Z;
  sock_peers : gset nat;
  sock_excluded : gset bytes;
  sock_out : list (nat * bytes);
  sock_indexes : list IndexList }.
Abbreviation SK := (SR SocketSync).
Definition k_node (n : Node) (s : SocketSync) : SocketSync :=
  mkSock n (sock_echo s) (sock_offsets s) (sock_peers s) (sock_excluded s) (sock_out s) (sock_indexes s).
Definition k_tail (e o : gmap bytes Z) (s : SocketSync) : SocketSync :=
  mkSock (sock_node s) e o (sock_peers s) (sock_excluded s) (sock_out s) (sock_indexes s).
Definition k_peers (p : gset nat) (s : SocketSync) : SocketSync :=
  mkSock (sock_node s) (sock_echo s) (sock_offsets s) p (sock_excluded s) (sock_out s) (sock_indexes s).
Definition k_out (o : list (nat * bytes)) (i : list IndexList) (s : SocketSync) : SocketSync :=
  mkSock (sock_node s) (sock_echo s) (sock_offsets s) (sock_peers s) (sock_excluded s) o i.
Definition sock_new (n : Node) (excluded : list bytes) : SocketSync := mkSock n ∅ ∅ ∅ (excluded_of (node_db n) excluded) [] [].
Definition on_sock {A} (f : SR Node A) : SK A := λ s, let '(n, r) := f (sock_node s) in (k_node n s, r).

(** [send]: whether the writer took the frame; it takes every frame as long as
    it runs. *)
Definition sock_send (t : Moment) (conn : nat) (p : SockPacket IndexList) : SK bool := λ s,
  match serialize p with
  | Some b =>
      if bool_decide (is_Some (frame_bytes b)) && alive t conn (length (sock_out s))
      then (k_out (sock_out s ++ [(conn, b)]) (sock_indexes s) s, Ok true) else (s, Ok false)
  | None => (s, Ok false)
  end.

(** [snapshot_collection]: documents that decode, and tombstones. *)
Fixpoint snapshot_ops (kps : list (bytes * Pointer)) : SR StorageEngine (list WalOp) :=
  match kps with
  | [] => mret []
  | (key, p) :: kps =>
      one ← (match p with
             | PDeleted timestamp => mret [Delete key timestamp]
             | _ => λ e,
                 match read_pointer_internal p false e with
                 | (e, Panic) => (e, Panic)
                 | (e, Ok (Some b)) => (e, Ok (match decode b with Some _ => [PutInlined key b] | None => [] end))
                 | (e, _) => (e, Ok [])
                 end
             end);
      rest ← snapshot_ops kps;
      mret (one ++ rest)
  end.
Definition snapshot_collection (t : Moment) (c : bytes) : SR Node (list WalOp) := λ n,
  match on_hako (get_shard from_secret (t_now t) c) n with
  | (n, Ok _) => on_hako (on_shard c (e ← get_st; snapshot_ops (hash_iter (index (idx e))))) n
  | (n, Err _) => (n, Ok [])
  | (n, Panic) => (n, Panic)
  end.
Definition sock_withholds (s : SocketSync) (c : bytes) : bool := bool_decide (c ∈ sock_excluded s) || is_sync_withheld (node_db (sock_node s)) c.
Fixpoint send_snapshots (t : Moment) (conn : nat) (cols : list bytes) : SK unit :=
  match cols with
  | [] => mret tt
  | c :: cols =>
      s ← get_st;
      if sock_withholds s c then send_snapshots t conn cols
      else
        ops ← on_sock (snapshot_collection t c);
        if bool_decide (ops = []) then send_snapshots t conn cols
        else
          sent ← sock_send t conn (Snapshot c ops);
          if (sent : bool) then send_snapshots t conn cols else mret tt
  end.

(** [handle_conn] up to its loops: whether the connection stays. *)
Definition conn_hello (t : Moment) (conn : nat) (first : option bytes) : SK bool :=
  versions ← on_sock (on_hako (get_version_map from_secret (t_now t)));
  sent ← sock_send t conn (Hello versions);
  if negb (sent : bool) then mret false
  else match first ≫= deserialize with
       | Some (Hello _) =>
           _ ← modify (λ s, k_peers (sock_peers s ∪ {[conn]}) s);
           s ← get_st;
           _ ← sock_send t conn (IndexDefs (list_indexes (node_db (sock_node s))));
           s ← get_st;
           _ ← send_snapshots t conn (sync_collections (node_db (sock_node s)));
           mret true
       | _ => mret false
       end.
(** A frame of the peer: whether the connection stays. *)
Definition conn_ingest (t : Moment) (c : bytes) (ops : list WalOp) : SK unit :=
  s ← get_st;
  cache ← on_sock (apply_remote from_secret t c ops (sock_echo s));
  modify (λ s, k_tail cache (sock_offsets s) s).
Definition conn_packet (t : Moment) (raw : bytes) : SK bool :=
  match deserialize raw with
  | Some (Snapshot c ops) | Some (Data c ops) => _ ← conn_ingest t c ops; mret true
  | Some (IndexDefs i) => _ ← modify (λ s, k_out (sock_out s) (sock_indexes s ++ [i]) s); mret true
  | _ => mret false
  end.
Fixpoint conn_packets (t : Moment) (frames : list bytes) : SK bool :=
  match frames with
  | [] => mret true
  | raw :: frames => go_on ← conn_packet t raw; if (go_on : bool) then conn_packets t frames else mret false
  end.
Definition conn_end (conn : nat) : SK unit := modify (λ s, k_peers (sock_peers s ∖ {[conn]}) s).
(** One collection in a round of the tailer of a connection: whether it goes on. *)
Definition sock_tail (t : Moment) (conn : nat) (c : bytes) : SK bool :=
  s ← get_st;
  if sock_withholds s c then mret true
  else
    news ← on_sock (tail_news from_secret t c (sock_offsets s) (sock_echo s));
    match news with
    | None => mret true
    | Some (cache, logical, new_pos) =>
        _ ← modify (λ s, k_tail cache (<[c := new_pos]> (sock_offsets s)) s);
        if bool_decide (logical = []) then mret true else sock_send t conn (Data c logical)
    end.
End Socket.

(** ** The newest of two versions *)

Definition newest (x y : option Version) : option Version :=
  match x, y with
  | Some a, Some b => Some (if a.1 <? b.1 then b else a)
  | None, y => y
  | x, None => x
  end.
Lemma lookup_newest (a b : gmap bytes Version) k : merge newest a b !! k = newest (a !! k) (b !! k).
Proof. rewrite lookup_merge. by destruct (a !! k), (b !! k). Qed.

Lemma newest_none x : newest x None = x.
Proof. by destruct x. Qed.
Lemma merge_none (a : gmap bytes Version) : merge newest a ∅ = a.
Proof. apply map_eq. intros k. by rewrite lookup_newest, lookup_empty, newest_none. Qed.

Lemma lww_newest m cs : NoDup cs.*1 → foldl lww m cs = merge newest m (list_to_map cs : gmap bytes Version).
Proof.
  intros Hnd. apply map_eq. intros k. rewrite lookup_newest. revert m Hnd.
  induction cs as [|[k' v] cs IH]; intros m Hnd; cbn [foldl].
  { change (list_to_map []) with (∅ : gmap bytes Version). rewrite lookup_empty. by destruct (m !! k). }
  apply NoDup_cons in Hnd as [Hk Hnd]. cbn [fst] in *. rewrite IH by done. rewrite list_to_map_cons. cbn [fst snd].
  assert (lww m (k', v) !! k = if decide (k' = k) then newest (m !! k) (Some v) else m !! k) as ->.
  { unfold lww, supersedes. cbn [fst snd]. destruct (decide (k' = k)) as [->|Hne].
    - destruct (m !! k) as [o|] eqn:Ho; cbn [newest]; [|by rewrite lookup_insert_eq].
      destruct (o.1 <? v.1); [by rewrite lookup_insert_eq|done].
    - destruct (match m !! k' with Some v0 => v0.1 <? v.1 | None => true end); [by rewrite lookup_insert_ne|done]. }
  destruct (decide (k' = k)) as [->|Hne]; [|by rewrite lookup_insert_ne].
  rewrite lookup_insert_eq, (not_elem_of_list_to_map_1 cs k Hk). unfold newest. by destruct (m !! k).
Qed.

Lemma newest_comm (a b : gmap bytes Version) :
  (∀ k v w, a !! k = Some v → b !! k = Some w → v.1 = w.1 → v = w) → merge newest a b = merge newest b a.
Proof.
  intros Hc. apply map_eq. intros k. rewrite !lookup_newest.
  destruct (a !! k) as [v|] eqn:Ha, (b !! k) as [w|] eqn:Hb; try done. cbn [newest]. f_equal. specialize (Hc k v w Ha Hb).
  destruct (Z.ltb_spec v.1 w.1), (Z.ltb_spec w.1 v.1); try done; [lia|]. apply Hc. lia.
Qed.

(** ** What can be exchanged *)

(** A tombstone, or a document in normal form that carries its time, has no value in
    side storage and is small enough to be kept whole by a database with threshold
    [th]. *)
Definition shippable (th : Z) (v : Version) : Prop :=
  ∀ b, v.2 = Some b → ∃ d, decode b = Some d ∧ encode d = b ∧ _time d = v.1 ∧ doc_has_links d = false ∧ small_doc th d.

Lemma shippable_change th k v : shippable th v → change_of (wal_of (k, v)) = Some (k, v) ∧ small_op th (wal_of (k, v)).
Proof.
  intros Hs. destruct v as [t [b|]].
  - destruct (Hs b eq_refl) as (d & Hd & He & Ht & _ & Hsm). cbn in Ht. unfold change_of, small_op, wal_of. cbn [fst snd op_change].
    rewrite Hd. cbn. rewrite He, Ht. split; [done|]. by intros k0 d0 t0 [= _ <- _].
  - split; [done|]. intros k0 d0 t0. cbn. done.
Qed.
Lemma shippable_changes th cs :
  Forall (λ c, shippable th c.2) cs → omap change_of (wal_of <$> cs) = cs ∧ Forall (small_op th) (wal_of <$> cs).
Proof.
  induction 1 as [|[k v] cs Hc Hcs [IH1 IH2]]; [done|]. rewrite fmap_cons. cbn [omap list_omap].
  destruct (shippable_change th k v Hc) as [-> Hsm]. split; [|by constructor]. by rewrite <-IH1 at 2.
Qed.

Section Exchange.
Context `{CrcLaws} `{ZstdLaws} `{HashIterLaws} {cipher : Type} `{AeadLaws cipher}.
Context (from_secret : bytes → EncryptionContext cipher) (to_lowercase : bytes → bytes) (th : Z).
Abbreviation Hako := (Hako (cipher := cipher)).
Abbreviation Node := (Node (cipher := cipher)).
Implicit Types (h : Hako) (n : Node) (e : StorageEngine cipher) (t : Moment).

(** A database all of whose versions can be exchanged. *)
Record peer_ok h : Prop := {
  pk_state : state_ok to_lowercase h;
  pk_threshold : value_blob_threshold_bytes (config h) = th;
  pk_timed c : map_Forall (λ _ p, timed p) (index_of h c);
  pk_ships c : map_Forall (λ _ v, shippable th v) (vers_of h c) }.

Lemma quiet_vers h h' c : state_ok to_lowercase h → quiet h h' → vers_of h' c = vers_of h c.
Proof.
  intros Ho [Hc _]. pose proof (calm_view _ _ Hc c (so_settled _ _ Ho c)) as Hv. pose proof (calm_index _ _ Hc c (so_settled _ _ Ho c)) as Hi.
  unfold vers_of, view_of, index_of in *. destruct (shards h !! c) as [e|] eqn:He.
  - destruct (calm_wal _ _ Hc c e He) as (e' & He' & _). rewrite He' in *. by apply versions_ext.
  - destruct (shards h' !! c) as [e'|]; [|done]. unfold versions. by rewrite Hi, fmap_empty.
Qed.
Lemma quiet_settings h h' : quiet h h' → settings h' = settings h.
Proof. intros [Hc _]. apply (calm_settings _ _ Hc). Qed.
Lemma settings_peer h h' : settings h' = settings h → peer_ok h → value_blob_threshold_bytes (config h') = th.
Proof. unfold settings. intros [= -> _ _ _ _ _ _] Hp. apply Hp. Qed.
(** The collection has no unique index. *)
Definition ungated h (c : bytes) : Prop := unique_defs (Facade.composite h) c = [].
Lemma ungated_settings h h' c : settings h' = settings h → ungated h c → ungated h' c.
Proof. unfold settings, ungated. by intros [= _ _ _ _ _ _ ->]. Qed.

Lemma quiet_peer h h' : peer_ok h → quiet h h' → peer_ok h'.
Proof.
  intros Hp Hq. pose proof (settings_peer h h' (quiet_settings _ _ Hq) Hp) as Ht. split; [|done| |].
  - by eapply quiet_state; [apply Hp|].
  - intros c. destruct Hq as [Hc _]. rewrite (calm_index _ _ Hc c (so_settled _ _ (pk_state _ Hp) c)). apply Hp.
  - intros c. rewrite (quiet_vers h h' c) by (done || apply Hp). apply Hp.
Qed.

Lemma peer_replica h c e : peer_ok h → shards h !! c = Some e → replica_ok e ∧ map_Forall (λ _ v, shippable th v) (versions e).
Proof.
  intros Hp He. split; [split|].
  - by apply (so_shards _ _ (pk_state _ Hp) c).
  - pose proof (pk_timed _ Hp c) as Ht. unfold index_of in Ht. by rewrite He in Ht.
  - pose proof (pk_ships _ Hp c) as Hs. unfold vers_of in Hs. by rewrite He in Hs.
Qed.

(** *** A snapshot *)

Lemma get_shard_others now c h h' r : get_shard from_secret now c h = (h', r) → ∀ c', c' ≠ c → shards h' !! c' = shards h !! c'.
Proof.
  unfold get_shard. destruct (shards h !! c); [by intros [= <- _]|]. destruct (engine_open _ _ _ _ _) as [e|x|]; intros [= <- _] c' Hne; [|done..].
  cbn. by rewrite lookup_insert_ne.
Qed.

Lemma snapshot_ops_spec (kps : list (bytes * Pointer)) e :
  store_ok e → Forall (λ kp, ptr_ok e kp.2 ∧ shippable th (ptr_version e kp.2)) kps →
  ∃ c, snapshot_ops kps e = (e_with_cache c e, Ok ((λ kp, wal_of (kp.1, ptr_version e kp.2)) <$> kps)) ∧ store_ok (e_with_cache c e).
Proof.
  intros He Hall. revert e He Hall. induction kps as [|[k p] kps IH]; intros e He Hall.
  { exists (cache e). by rewrite self_cache. }
  apply Forall_cons in Hall as [(Hp & Hs) Hall]. cbn [fst snd] in *. rewrite !fmap_cons. cbn [snapshot_ops fst snd].
  assert ((∃ ts, p = PDeleted ts) ∨ ∃ b d, ptr_value e p = Some b ∧ (ptr_version e p).2 = Some b ∧ decode b = Some d ∧
    match p with PDeleted _ => False | _ => True end) as [[ts ->]|(b & d & Hb & Hv & Hd & Hnd)].
  { destruct p as [sid off len|b|off len|d|d sk|ts]; [| | | | |left; by exists ts]; right.
    - destruct Hp as (l & s & v & Hseg & Hr). assert (ptr_value e (PSegment sid off len) = Some v) as Hv.
      { cbn. rewrite Hseg. cbn. by rewrite (rec_at_read _ _ _ _ Hr). }
      destruct (Hs v) as (d & Hd & _); [exact Hv|]. by exists v, d.
    - destruct (Hs b) as (d & Hd & _); [done|]. by exists b, d.
    - destruct Hp as [bm Hbm]. assert (ptr_value e (PBlob off len) = Some (blob_read_at bm off len)) as Hv by (cbn; by rewrite Hbm).
      destruct (Hs (blob_read_at bm off len)) as (d & Hd & _); [exact Hv|]. by eexists _, d.
    - destruct (Hs (encode d)) as (d' & Hd & _); [done|]. by exists (encode d), d'.
    - destruct (Hs d) as (d' & Hd & _); [done|]. by exists d, d'. }
  - destruct (IH e He Hall) as (c & Hr & Hc). exists c. split; [|done].
    rewrite (hm_bind_ok _ _ e e [Delete k ts]) by done. by rewrite (hm_bind_ok _ _ _ _ _ Hr).
  - destruct (read_pointer_value e p false He Hp) as (c & Hr & Hc & _). destruct (IH (e_with_cache c e) Hc Hall) as (c' & Hr' & Hc').
    exists c'. split; [|exact Hc'].
    rewrite (hm_bind_ok _ _ e (e_with_cache c e) [PutInlined k b]) by (destruct p; try done; by rewrite Hr, Hb, Hd).
    rewrite (hm_bind_ok _ _ _ _ _ Hr'). unfold wal_of. cbn [fst snd]. rewrite Hv. done.
Qed.

Lemma snapshot_spec t c n :
  peer_ok (node_db n) →
  ∃ n' cs, snapshot_collection from_secret t c n = (n', Ok (wal_of <$> cs)) ∧ marks n' = marks n ∧ quiet (node_db n) (node_db n') ∧
    cs ≡ₚ map_to_list (vers_of (node_db n) c) ∧ is_Some (shards (node_db n') !! c) ∧
    ∀ c', c' ≠ c → shards (node_db n') !! c' = shards (node_db n) !! c'.
Proof.
  intros Hp. destruct (get_shard_spec from_secret (t_now t) c (node_db n) (so_shards _ _ (pk_state _ Hp)) (so_settled _ _ (pk_state _ Hp) c)) as (h1 & e & Eg & Hq1 & He).
  pose proof (quiet_peer _ _ Hp Hq1) as Hp1. destruct (peer_replica h1 c e Hp1 He) as [[Hok Ht] Hs].
  destruct (snapshot_ops_spec (hash_iter (index (idx e))) e Hok) as (ch & Hsn & Hch).
  { apply Forall_forall. intros [k p] Hin. rewrite hash_iter_perm in Hin. apply elem_of_map_to_list in Hin. split.
    - destruct Hok as (_ & _ & Hpt & _). by eapply Hpt.
    - apply (Hs k). unfold versions. rewrite lookup_fmap. cbn [snd]. by rewrite Hin. }
  set (cs := (λ kp, (kp.1, ptr_version e kp.2)) <$> hash_iter (index (idx e))).
  destruct (on_shard_quiet c (e ← get_st; snapshot_ops (hash_iter (index (idx e)))) e (e_with_cache ch e) (Ok (wal_of <$> cs)) h1) as (h2 & E2 & Hq2 & He2);
    [apply Hp1|done| |done|done|done|done|].
  { rewrite (hm_bind_ok _ _ e e e) by done. rewrite Hsn. unfold cs. by rewrite <-list_fmap_compose. }
  exists (mkNode h2 (marks n)), cs. split_and!; [|done|by etrans| |by eexists|].
  - unfold snapshot_collection, on_hako. rewrite Eg. cbn [node_db marks]. by rewrite E2.
  - rewrite <-(quiet_vers _ _ c (pk_state _ Hp) Hq1). unfold vers_of. rewrite He. unfold versions, cs. rewrite map_to_list_fmap.
    apply fmap_Permutation, hash_iter_perm.
  - intros c' Hne. cbn [node_db]. unfold on_shard in E2. rewrite He, (hm_bind_ok _ _ e e e), Hsn in E2 by done. injection E2 as <- _.
    cbn. rewrite lookup_insert_ne by done. by apply (get_shard_others _ _ _ _ _ Eg).
Qed.
(** *** Receiving *)

Lemma lww_other (cs : list Change) (m : gmap bytes Version) k : k ∉ (List.filter (supersedes m) cs).*1 → NoDup cs.*1 → foldl lww m cs !! k = m !! k.
Proof. intros Hk Hnd. rewrite lww_batch by done. by apply set_versions_other. Qed.

Lemma lww_shippable (cs : list Change) (m : gmap bytes Version) :
  NoDup cs.*1 → map_Forall (λ _ v, shippable th v) m → Forall (λ c, shippable th c.2) cs → map_Forall (λ _ v, shippable th v) (foldl lww m cs).
Proof.
  intros Hnd Hm Hcs k v. rewrite lww_newest, lookup_newest by done.
  destruct (m !! k) as [a|] eqn:Ha, ((list_to_map cs : gmap bytes Version) !! k) as [b|] eqn:Hb; cbn [newest]; intros [= <-].
  2: by apply (Hm k).
  all: apply elem_of_list_to_map_2 in Hb; rewrite Forall_forall in Hcs; specialize (Hcs _ Hb); cbn in Hcs.
  - destruct (a.1 <? b.1); [done|by apply (Hm k)].
  - done.
Qed.

Lemma ingest_remote_spec t c cs cache h e :
  peer_ok h → ungated h c → shards h !! c = Some e → NoDup cs.*1 → Forall (λ ch, shippable th ch.2) cs → global_version h + zlen cs < 2 ^ 64 →
  ∃ h' cache', ingest_remote t c (wal_of <$> cs) cache h = (h', Ok cache') ∧ peer_ok h' ∧
    vers_of h' c = merge newest (vers_of h c) (list_to_map cs) ∧ (∀ c', c' ≠ c → vers_of h' c' = vers_of h c') ∧
    global_version h' <= global_version h + zlen cs ∧ settings h' = settings h.
Proof.
  intros Hp Hun He Hnd Hcs Hroom. pose proof (peer_replica h c e Hp He) as [Hre Hse]. destruct (shippable_changes th cs Hcs) as [Hch Hsm].
  destruct (apply_replicated_spec (t_now t) (t_micros t) (value_blob_threshold_bytes (config h)) c (wal_of <$> cs) cache (last_ts_watermark h) e Hre)
    as (e' & eff & Ea & Hre' & Hv & Hb & _); [right; by rewrite (pk_threshold _ Hp)|by rewrite Hch|].
  rewrite Hch in *. set (acc := List.filter (supersedes (versions e)) cs) in *.
  unfold ingest_remote. rewrite (hm_bind_ok _ _ h h h) by done.
  set (h1 := h_with_shards (<[c := e']> (shards h)) (disk h) h).
  match type of Ea with _ = (_, Ok (?x, ?y, _)) => set (cache' := x) in *; set (w := y) in * end.
  rewrite (hm_bind_ok _ _ h h1 (cache', w, eff)) by (unfold on_shard; by rewrite He, Ea). cbv beta iota.
  set (h2 := h_with_clock w (id_sequence h1) h1). rewrite (hm_bind_ok _ _ h1 h2 tt) by done.
  rewrite (hm_bind_ok _ _ h2 (bump_versions_by_keys (bumped eff) h2) tt) by done. rewrite bump_eq, Hb.
  change (global_version h2) with (global_version h). change (doc_versions h2) with (doc_versions h).
  destruct (bumped_versions (global_version h) acc.*1 (doc_versions h)) as [g m] eqn:Hbv. set (h3 := h_with_versions g m h2).
  rewrite (hm_bind_ok _ _ h3 (enqueue_index_update (mkIndexOp c (to_index eff) []) h3) tt) by done.
  destruct (enqueue_same (mkIndexOp c (to_index eff) []) h3) as (S7 & V7 & G7 & D7 & _). set (h4 := enqueue_index_update _ h3) in *. clearbody h4.
  set (h5 := notify_watchers (remote_events c eff) h4). rewrite (hm_bind_ok _ _ h4 h5 tt) by done.
  exists h5, cache'. split; [done|]. destruct S7 as (A1 & A2 & A3 & A4 & A5).
  assert (zlen acc.*1 <= zlen cs) as Hlen by (unfold zlen, acc; rewrite length_fmap; pose proof (filter_length_le (supersedes (versions e)) cs); lia).
  assert (global_version h + zlen acc.*1 < 2 ^ 64) as Hacc by lia.
  pose proof (bumped_spec acc.*1 (global_version h) (doc_versions h) (so_counter _ _ (pk_state _ Hp)) Hacc) as Hbs.
  rewrite Hbv in Hbs. destruct Hbs as (Hg & _).
  assert (shards h5 = <[c := e']> (shards h)) as Hsh by (cbn; exact A1). assert (settings h5 = settings h) as Hset by exact A3.
  assert (∀ c', c' ≠ c → shards h5 !! c' = shards h !! c') as Hoth by (intros c' Hne; by rewrite Hsh, lookup_insert_ne).
  assert (vers_of h5 c = foldl lww (vers_of h c) cs) as Hvc by (unfold vers_of; by rewrite Hsh, lookup_insert_eq, He).
  assert (state_ok to_lowercase h5) as Hst.
  { eapply (replaced_state to_lowercase c e e' acc.*1 h g m h5);
      [apply Hp|done|by destruct Hre'|done|lia|done| |done|cbn; by rewrite A2|done|exact A5|cbn; by rewrite D7|].
    - intros k Hk. rewrite Hv. by apply lww_other.
    - unfold current. cbn. by rewrite G7, V7. }
  pose proof (settings_peer h h5 Hset Hp) as Ht. split; [split; [done|done| |]|split_and!; [..|done]].
  - intros c'. destruct (decide (c' = c)) as [->|Hne]; unfold index_of; [rewrite Hsh, lookup_insert_eq; apply Hre'|].
    rewrite Hoth by done. apply (pk_timed _ Hp c').
  - intros c'. destruct (decide (c' = c)) as [->|Hne]; [rewrite Hvc; apply lww_shippable; [done|apply Hp|done]|].
    unfold vers_of. rewrite Hoth by done. apply (pk_ships _ Hp c').
  - by rewrite Hvc, lww_newest.
  - intros c' Hne. unfold vers_of. by rewrite Hoth.
  - cbn. rewrite G7. cbn. lia.
Qed.

Lemma apply_remote_spec t c cs cache n :
  peer_ok (node_db n) → ungated (node_db n) c → is_collection_local (marks n) c = false → NoDup cs.*1 → Forall (λ ch, shippable th ch.2) cs →
  global_version (node_db n) + zlen cs < 2 ^ 64 →
  ∃ n' cache', apply_remote from_secret t c (wal_of <$> cs) cache n = (n', Ok cache') ∧ marks n' = marks n ∧ peer_ok (node_db n') ∧
    vers_of (node_db n') c = merge newest (vers_of (node_db n) c) (list_to_map cs) ∧
    (∀ c', c' ≠ c → vers_of (node_db n') c' = vers_of (node_db n) c') ∧
    global_version (node_db n') <= global_version (node_db n) + zlen cs ∧ settings (node_db n') = settings (node_db n).
Proof.
  intros Hp Hun Hl Hnd Hcs Hroom. unfold apply_remote. rewrite Hl.
  destruct (get_shard_spec from_secret (t_now t) c (node_db n) (so_shards _ _ (pk_state _ Hp)) (so_settled _ _ (pk_state _ Hp) c)) as (h1 & e & Eg & Hq1 & He).
  pose proof (quiet_peer _ _ Hp Hq1) as Hp1. pose proof Hq1 as [Hcalm _]. pose proof (calm_outputs _ _ Hcalm) as Eo. unfold outputs in Eo. injection Eo as Egv _ _ _ _ _.
  pose proof (quiet_settings _ _ Hq1) as Hset.
  destruct (ingest_remote_spec t c cs cache h1 e Hp1 (ungated_settings _ _ _ Hset Hun) He Hnd Hcs) as (h2 & cache' & E2 & Hp2 & Hv & Hoth & Hgv & Hset2); [by rewrite Egv|].
  unfold on_hako. rewrite Eg. cbn [node_db marks]. rewrite E2. exists (mkNode h2 (marks n)), cache'. cbn [node_db marks].
  rewrite <-(quiet_vers _ _ c (pk_state _ Hp) Hq1), <-Egv. split_and!; try done; [|congruence].
  intros c' Hne. rewrite Hoth by done. by apply (quiet_vers _ _ c' (pk_state _ Hp)).
Qed.
End Exchange.

(** ** Two databases on one socket *)

Section Converge.
Context `{CrcLaws} `{ZstdLaws} `{HashIterLaws} {cipher : Type} `{AeadLaws cipher} {IndexList : Type}.
Context (from_secret : bytes → EncryptionContext cipher) (to_lowercase : bytes → bytes) (th : Z).
Context (serialize : SockPacket IndexList → option bytes) (deserialize : bytes → option (SockPacket IndexList)).
Abbreviation SocketSync := (SocketSync (cipher := cipher) (IndexList := IndexList)).
Abbreviation ok := (peer_ok to_lowercase th).
Implicit Types (s : SocketSync) (t : Moment).

Definition sock_db s := node_db (sock_node s).
(** The binary format: packets can be written, are not empty, and are read back. *)
Definition sock_law : Prop := ∀ p, ∃ b, serialize p = Some b ∧ deserialize b = Some p ∧ b ≠ [].

(** Sending leaves the database as it was. *)
Definition keeps s s' : Prop :=
  quiet (sock_db s) (sock_db s') ∧ marks (sock_node s') = marks (sock_node s) ∧ ∀ c, sock_withholds s' c = sock_withholds s c.

Lemma withholds_shards s s' c :
  settings (sock_db s') = settings (sock_db s) → sock_excluded s' = sock_excluded s →
  shards (sock_db s') !! c = shards (sock_db s) !! c ∨ (sock_withholds s c = false ∧ is_Some (shards (sock_db s') !! c)) →
  sock_withholds s' c = sock_withholds s c.
Proof.
  unfold settings, sock_withholds. intros [= E1 _ _ _ _ _ _] E2. fold (sock_db s) (sock_db s'). rewrite E2.
  unfold is_sync_withheld, is_sync_excluded_effective, is_lazy_unloaded, is_lazy_collection. rewrite E1. intros [->|[Hw Hs]]; [done|]. rewrite Hw.
  apply orb_false_iff in Hw as [-> Hw]. apply orb_false_iff in Hw as [-> _]. by rewrite (bool_decide_eq_true_2 _ Hs), andb_false_r.
Qed.

(** The frames that carry these versions. *)
Definition carries (b : bytes) (p : bytes * list Change) : Prop := deserialize b = Some (Snapshot p.1 (wal_of <$> p.2)).
(** Every snapshot fits into a frame. *)
Definition fits s : Prop :=
  ∀ c cs b, cs ≡ₚ map_to_list (vers_of (sock_db s) c) → serialize (Snapshot c (wal_of <$> cs)) = Some b → zlen b <= MAX_FRAME.
Definition offers s (c : bytes) : bool := negb (sock_withholds s c) && negb (bool_decide (vers_of (sock_db s) c = ∅)).

Lemma sock_send_spec t conn c cs s :
  sock_law → (∀ n, alive t conn n = true) → fits s → cs ≡ₚ map_to_list (vers_of (sock_db s) c) →
  ∃ b, sock_send serialize t conn (Snapshot c (wal_of <$> cs)) s = (k_out (sock_out s ++ [(conn, b)]) (sock_indexes s) s, Ok true) ∧ carries b (c, cs).
Proof.
  intros Hlaw Hal Hfit Hcs. destruct (Hlaw (Snapshot c (wal_of <$> cs))) as (b & Hb & Hd & Hne). exists b. split; [|done].
  unfold sock_send. rewrite Hb, Hal, bool_decide_eq_true_2; [done|]. pose proof (Hfit c cs b Hcs Hb).
  unfold frame_bytes. rewrite (bool_decide_eq_false_2 (b = [])) by done. cbn [orb]. rewrite (proj2 (Z.ltb_ge _ _)) by done. by eexists.
Qed.

Lemma keeps_trans s1 s2 s3 : keeps s1 s2 → keeps s2 s3 → keeps s1 s3.
Proof. intros (A1 & A2 & A3) (B1 & B2 & B3). split_and!; [by etrans|congruence|]. intros c. by rewrite B3. Qed.

Lemma send_snapshots_spec t conn cols s :
  sock_law → (∀ n, alive t conn n = true) → ok (sock_db s) → fits s →
  ∃ s' frames ps, send_snapshots from_secret serialize t conn cols s = (s', Ok tt) ∧ keeps s s' ∧
    sock_out s' = sock_out s ++ (pair conn <$> frames) ∧ Forall2 carries frames ps ∧ ps.*1 = List.filter (offers s) cols ∧
    Forall (λ p, p.2 ≡ₚ map_to_list (vers_of (sock_db s) p.1)) ps.
Proof.
  intros Hlaw Hal. revert s; induction cols as [|c cols IH]; intros s Hok Hfit; cbn [send_snapshots].
  { exists s, [], []. split_and!; try done. by rewrite app_nil_r. }
  rewrite (hm_bind_ok _ _ s s s) by done. cbn [List.filter]. unfold offers at 1. destruct (sock_withholds s c) eqn:Hw; cbn [negb andb]; [by apply IH|].
  destruct (snapshot_spec from_secret to_lowercase th t c (sock_node s) Hok) as (n' & cs & Esn & Hm & Hq & Hcs & Hsome & Hoth).
  fold (sock_db s) in Hcs. set (s1 := k_node n' s). rewrite (hm_bind_ok _ _ s s1 (wal_of <$> cs)) by (unfold on_sock; by rewrite Esn).
  assert (keeps s s1) as K1.
  { split_and!; [done|done|]. intros c'. apply withholds_shards; [by apply quiet_settings|done|].
    destruct (decide (c' = c)) as [->|Hne]; [by right|left; by apply Hoth]. }
  assert (ok (sock_db s1)) as Hok1 by (by eapply quiet_peer).
  assert (∀ c', vers_of (sock_db s1) c' = vers_of (sock_db s) c') as Hv1 by (intros c'; eapply quiet_vers; [apply Hok|done]).
  assert (∀ s2, (∀ c', vers_of (sock_db s2) c' = vers_of (sock_db s) c') → fits s2) as Hfits by (intros s2 Hv c' cs'; rewrite Hv; apply Hfit).
  assert (∀ s2, keeps s s2 → (∀ c', vers_of (sock_db s2) c' = vers_of (sock_db s) c') → List.filter (offers s2) cols = List.filter (offers s) cols) as Hfilt.
  { intros s2 (_ & _ & Hw2) Hv2. apply filter_ext. intros c'. unfold offers. by rewrite Hw2, Hv2. }
  destruct (decide (vers_of (sock_db s) c = ∅)) as [Hemp|Hne].
  - rewrite (bool_decide_eq_true_2 _ Hemp). rewrite Hemp, map_to_list_empty in Hcs. apply Permutation_nil_r in Hcs as ->.
    destruct (IH s1 Hok1 (Hfits _ Hv1)) as (s' & frames & ps & E & K & Ho & Hc & Hps & Hvs). exists s', frames, ps.
    rewrite Hfilt in Hps by done. split_and!; [done|by eapply keeps_trans|done|done|done|]. eapply Forall_impl; [exact Hvs|]. intros p. cbv beta. by rewrite Hv1.
  - rewrite (bool_decide_eq_false_2 _ Hne). cbn [negb].
    assert (wal_of <$> cs ≠ []) as Hcne.
    { intros Hnil. apply fmap_nil_inv in Hnil as ->. symmetry in Hcs. apply Permutation_nil_r in Hcs. by apply map_to_list_empty_iff in Hcs. }
    rewrite (bool_decide_eq_false_2 _ Hcne).
    destruct (sock_send_spec t conn c cs s1 Hlaw Hal (Hfits _ Hv1)) as (b & Es & Hb); [by rewrite Hv1|].
    set (s2 := k_out (sock_out s1 ++ [(conn, b)]) (sock_indexes s1) s1) in *. rewrite (hm_bind_ok _ _ s1 s2 true) by done.
    assert (keeps s s2) as K2 by exact K1.
    destruct (IH s2 Hok1 (Hfits s2 Hv1)) as (s' & frames & ps & E & K & Ho & Hc & Hps & Hvs).
    exists s', (b :: frames), ((c, cs) :: ps). rewrite (Hfilt s2 K2 Hv1) in Hps. split_and!; [done|by eapply keeps_trans| |by constructor| |].
    + rewrite Ho. cbn. by rewrite <-app_assoc.
    + rewrite fmap_cons. by rewrite Hps.
    + constructor; [done|]. eapply Forall_impl; [exact Hvs|]. intros p. cbv beta. change (sock_db s2) with (sock_db s1). by rewrite Hv1.
Qed.
Lemma conn_packets_spec t frames (ps : list (bytes * list Change)) s :
  Forall2 carries frames ps → ok (sock_db s) → local_only_cols (marks (sock_node s)) = ∅ → NoDup ps.*1 →
  Forall (λ p, NoDup p.2.*1 ∧ Forall (λ c, shippable th c.2) p.2) ps → Forall (λ p, ungated (sock_db s) p.1) ps → global_version (sock_db s) + zlen (concat ps.*2) < 2 ^ 64 →
  ∃ s', conn_packets from_secret deserialize t frames s = (s', Ok true) ∧
    ∀ c, vers_of (sock_db s') c = merge newest (vers_of (sock_db s) c)
      (match (list_to_map ps : gmap bytes (list Change)) !! c with Some cs => list_to_map cs | None => ∅ end).
Proof.
  intros Hcar. revert s; induction Hcar as [|b [c cs] frames ps Hb Hcar IH]; intros s Hok Hl Hnd Hps Hun Hroom; cbn [conn_packets].
  { exists s. split; [done|]. intros c. change (list_to_map [] !! c) with (None : option (list Change)). cbv iota. by rewrite merge_none. }
  apply NoDup_cons in Hnd as [Hc Hnd]. apply Forall_cons in Hps as [[Hk Hsh] Hps]. apply Forall_cons in Hun as [Hu Hun]. cbn [fst snd] in *.
  cbn [fmap list_fmap concat snd] in Hroom. fold (fmap (M := list) (B := list Change) snd ps) in Hroom. rewrite zlen_app in Hroom. pose proof (zlen_nonneg (concat ps.*2)).
  destruct (apply_remote_spec from_secret to_lowercase th t c cs (sock_echo s) (sock_node s) Hok Hu) as (n' & cache & Ea & Hm & Hok' & Hv & Hoth & Hg & Hset);
    [unfold is_collection_local; rewrite Hl; by apply bool_decide_eq_false_2; set_solver|done|done|unfold sock_db in Hroom; lia|].
  set (s1 := k_tail cache (sock_offsets s) (k_node n' s)).
  assert (conn_packet from_secret deserialize t b s = (s1, Ok true)) as Ep.
  { unfold conn_packet. rewrite Hb. cbn [fst snd]. rewrite (hm_bind_ok _ _ s s1 tt); [done|]. unfold conn_ingest.
    rewrite (hm_bind_ok _ _ s s s) by done. rewrite (hm_bind_ok _ _ s (k_node n' s) cache) by (unfold on_sock; by rewrite Ea). done. }
  rewrite (hm_bind_ok _ _ _ _ _ Ep). destruct (IH s1 Hok') as (s' & E & Hv'); [cbn; by rewrite Hm|done|done| |unfold sock_db in *; cbn in *; lia|].
  { eapply Forall_impl; [exact Hun|]. intros p. by apply ungated_settings. }
 
  exists s'. split; [done|]. intros c'. rewrite Hv'. change (sock_db s1) with (node_db n'). rewrite list_to_map_cons. cbn [fst snd].
  destruct (decide (c' = c)) as [->|Hne].
  - rewrite lookup_insert_eq, (not_elem_of_list_to_map_1 ps c Hc), Hv.
    by rewrite merge_none.
  - rewrite lookup_insert_ne by done. by rewrite Hoth.
Qed.

Lemma sync_nodup h : NoDup (sync_collections (cipher := cipher) h).
Proof.
  unfold sync_collections. rewrite sort_by_perm. unfold directories. apply NoDup_ListNoDup, List.NoDup_filter, NoDup_ListNoDup, NoDup_elements.
Qed.

(** What a database has to offer. *)
Definition offered s : list bytes := List.filter (offers s) (sync_collections (sock_db s)).
Definition volume s : Z := zlen (concat ((λ c, map_to_list (vers_of (sock_db s) c)) <$> offered s)).

Lemma volume_of (m : bytes → gmap bytes Version) (ps : list (bytes * list Change)) :
  Forall (λ p, p.2 ≡ₚ map_to_list (m p.1)) ps → zlen (concat ps.*2) = zlen (concat ((λ c, map_to_list (m c)) <$> ps.*1)).
Proof.
  induction 1 as [|p ps Hp Hps IH]; [done|]. rewrite !fmap_cons. cbn [concat]. rewrite !zlen_app, IH. f_equal. unfold zlen. by rewrite Hp.
Qed.

(** One direction: what [a] offers arrives at [b]. *)
Lemma snapshots_arrive t t' conn a b b1 :
  sock_law → (∀ n, alive t conn n = true) → ok (sock_db a) → fits a → quiet (sock_db b) (sock_db b1) → marks (sock_node b1) = marks (sock_node b) →
  ok (sock_db b) → local_only_cols (marks (sock_node b)) = ∅ → Forall (ungated (sock_db b)) (offered a) →
  global_version (sock_db b) + volume a < 2 ^ 64 →
  ∃ a1 frames, send_snapshots from_secret serialize t conn (sync_collections (sock_db a)) a = (a1, Ok tt) ∧ keeps a a1 ∧
    sock_out a1 = sock_out a ++ (pair conn <$> frames) ∧
    ∃ b2, conn_packets from_secret deserialize t' frames b1 = (b2, Ok true) ∧
      ∀ c, vers_of (sock_db b2) c = merge newest (vers_of (sock_db b) c) (if bool_decide (c ∈ offered a) then vers_of (sock_db a) c else ∅).
Proof.
  intros Hlaw Hal Hoka Hfit Hq Hm Hokb Hl Hun Hroom.
  destruct (send_snapshots_spec t conn (sync_collections (sock_db a)) a Hlaw Hal Hoka Hfit) as (a1 & frames & ps & E & K & Ho & Hcar & Hps & Hvs).
  exists a1, frames. split_and!; [done..|]. change (List.filter (offers a) _) with (offered a) in Hps.
  assert (∀ p, p ∈ ps → (list_to_map p.2 : gmap bytes Version) = vers_of (sock_db a) p.1 ∧ NoDup p.2.*1) as Hmap.
  { intros p Hin. rewrite Forall_forall in Hvs. specialize (Hvs p Hin). assert (NoDup p.2.*1) as Hnd by (rewrite Hvs; apply NoDup_fst_map_to_list).
    split; [|done]. rewrite (list_to_map_proper _ (map_to_list (vers_of (sock_db a) p.1))) by done. apply list_to_map_to_list. }
  assert (NoDup ps.*1) as Hnd by (rewrite Hps; apply NoDup_ListNoDup, List.NoDup_filter, NoDup_ListNoDup, sync_nodup).
  pose proof Hq as [Hcalm _]. pose proof (calm_outputs _ _ Hcalm) as Eo. unfold outputs in Eo. injection Eo as Egv _ _ _ _ _.
  destruct (conn_packets_spec t' frames ps b1 Hcar) as (b2 & Eb & Hb2); [by eapply quiet_peer|by rewrite Hm|done| | | |].
  { apply Forall_forall. intros p Hin. split; [by apply Hmap|]. rewrite Forall_forall in Hvs. rewrite (Hvs p Hin). apply Forall_forall.
    intros [k v] Hkv. apply elem_of_map_to_list in Hkv. by apply (pk_ships _ _ _ Hoka p.1 k). }
  { apply Forall_forall. intros p Hin. apply (ungated_settings (sock_db b)); [by apply quiet_settings|]. rewrite Forall_forall in Hun.
    apply Hun. rewrite <-Hps. apply list_elem_of_fmap. by exists p. }
  { rewrite (volume_of (vers_of (sock_db a)) ps Hvs), Hps, Egv. exact Hroom. }
  exists b2. split; [done|]. intros c. rewrite Hb2. f_equal; [eapply quiet_vers; [apply Hokb|done]|].
  destruct (_ !! c) as [cs|] eqn:Hc.
  - apply elem_of_list_to_map_2 in Hc. rewrite bool_decide_eq_true_2 by (rewrite <-Hps; apply list_elem_of_fmap; by exists (c, cs)). by apply (Hmap (c, cs)).
  - apply not_elem_of_list_to_map_2 in Hc. rewrite Hps in Hc. by rewrite bool_decide_eq_false_2.
Qed.
(** The collection takes part here. *)
Definition shares s (c : bytes) : Prop := c ∈ sync_collections (sock_db s) ∧ sock_withholds s c = false.
Lemma shares_offers s c : shares s c → (if bool_decide (c ∈ offered s) then vers_of (sock_db s) c else ∅) = vers_of (sock_db s) c.
Proof.
  intros [Hin Hw]. destruct (decide (vers_of (sock_db s) c = ∅)) as [->|Hne]; [by destruct (bool_decide _)|].
  rewrite bool_decide_eq_true_2; [done|]. apply list_elem_of_In, filter_In. split; [by apply list_elem_of_In|].
  unfold offers. by rewrite Hw, bool_decide_eq_false_2.
Qed.

(** C25: Two databases on one socket converge: each sends the snapshots of its
    collections, each takes the frames of the other, and then a collection that both
    share has on both sides the same versions, the newest of each document, tombstones
    included, if no two versions of a document have one time ([ties_diverge]).
    Neither side fails or ends the connection.  All documents of both are in normal
    form, without links into a blob file (the values behind them are not sent,
    [snapshot_keeps_links]) and below the blob threshold, which is the same on both;
    neither has local-only collections or a unique index on a collection that the other
    offers; every snapshot fits a frame and the connection takes every frame. *)
Theorem snapshots_converge t t' ca cb a b :
  sock_law → (∀ n, alive t ca n = true ∧ alive t' cb n = true) → ok (sock_db a) → ok (sock_db b) →
  local_only_cols (marks (sock_node a)) = ∅ → local_only_cols (marks (sock_node b)) = ∅ → fits a → fits b →
  Forall (ungated (sock_db a)) (offered b) → Forall (ungated (sock_db b)) (offered a) →
  global_version (sock_db a) + volume b < 2 ^ 64 → global_version (sock_db b) + volume a < 2 ^ 64 →
  ∃ a1 fa b1 fb a2 b2,
    send_snapshots from_secret serialize t ca (sync_collections (sock_db a)) a = (a1, Ok tt) ∧ sock_out a1 = sock_out a ++ (pair ca <$> fa) ∧
    send_snapshots from_secret serialize t' cb (sync_collections (sock_db b)) b = (b1, Ok tt) ∧ sock_out b1 = sock_out b ++ (pair cb <$> fb) ∧
    conn_packets from_secret deserialize t fb a1 = (a2, Ok true) ∧ conn_packets from_secret deserialize t' fa b1 = (b2, Ok true) ∧
    ∀ c, shares a c → shares b c →
      (∀ k v w, vers_of (sock_db a) c !! k = Some v → vers_of (sock_db b) c !! k = Some w → v.1 = w.1 → v = w) →
      vers_of (sock_db a2) c = merge newest (vers_of (sock_db a) c) (vers_of (sock_db b) c) ∧ vers_of (sock_db b2) c = vers_of (sock_db a2) c.
Proof.
  intros Hlaw Hal Hoka Hokb Hla Hlb Hfa Hfb Hua Hub Hra Hrb.
  destruct (send_snapshots_spec t ca (sync_collections (sock_db a)) a Hlaw (λ n, proj1 (Hal n)) Hoka Hfa) as (a1 & fa & _ & Ea & (Qa & Ma & _) & Oa & _).
  destruct (send_snapshots_spec t' cb (sync_collections (sock_db b)) b Hlaw (λ n, proj2 (Hal n)) Hokb Hfb) as (b1 & fb & _ & Eb & (Qb & Mb & _) & Ob & _).
  destruct (snapshots_arrive t t' ca a b b1 Hlaw (λ n, proj1 (Hal n)) Hoka Hfa Qb Mb Hokb Hlb Hub Hrb) as (a1' & fa' & Ea' & _ & Oa' & b2 & Eb2 & Vb2).
  destruct (snapshots_arrive t' t cb b a a1 Hlaw (λ n, proj2 (Hal n)) Hokb Hfb Qa Ma Hoka Hla Hua Hra) as (b1' & fb' & Eb' & _ & Ob' & a2 & Ea2 & Va2).
  rewrite Ea in Ea'. injection Ea' as <-. rewrite Eb in Eb'. injection Eb' as <-.
  rewrite Oa in Oa'. apply (inj (app _)), (inj (fmap (pair ca))) in Oa' as <-. rewrite Ob in Ob'. apply (inj (app _)), (inj (fmap (pair cb))) in Ob' as <-.
  exists a1, fa, b1, fb, a2, b2. split_and!; [done..|]. intros c Sa Sb Hcons.
  rewrite Va2, Vb2, (shares_offers a c Sa), (shares_offers b c Sb). split; [done|]. symmetry. by apply newest_comm.
Qed.
End Converge.

(** ** What a peer of the mesh is told *)

Section Guarded.
Context `{CrcLaws} `{ZstdLaws} `{HashIterLaws} {cipher : Type} `{AeadLaws cipher} {IndexList : Type}.
Context (from_secret : bytes → EncryptionContext cipher) (sha256 : bytes → bytes).
Context (serialize : NetPacket IndexList → option bytes) (deserialize : bytes → option (NetPacket IndexList)).
Context (list_indexes : Hako (cipher := cipher) → IndexList).
Abbreviation Hako := (Hako (cipher := cipher)).
Abbreviation NetSyncer := (NetSyncer (cipher := cipher) (IndexList := IndexList)).
Implicit Types (s : NetSyncer) (t : Moment).

(** What decides who may see what; it is the same for the whole exchange with a peer,
    the announcement of its key apart. *)
Definition rules s := (config (net_db s), excluded_collections s, caps (net_caps s), net_peers s, enable_relay s).
Section Writing.
Context (s0 : NetSyncer) (P : nat * bytes → Prop).
Definition writes s s' : Prop := rules s' = rules s0 ∧ ∃ out, wire s' = wire s ++ out ∧ Forall P out.
Definition guards {A} (m : SR NetSyncer A) : Prop := ∀ s, rules s = rules s0 → writes s (m s).1.

Lemma writes_same s s' : rules s' = rules s0 → wire s' = wire s → writes s s'.
Proof. intros Hr Hw. split; [done|]. exists []. split; [by rewrite app_nil_r|constructor]. Qed.
Lemma writes_trans s1 s2 s3 : writes s1 s2 → writes s2 s3 → writes s1 s3.
Proof.
  intros (A1 & o1 & A2 & A3) (B1 & o2 & B2 & B3). split; [done|]. exists (o1 ++ o2). split; [by rewrite B2, A2, app_assoc|]. by apply Forall_app.
Qed.
Lemma guards_ret {A} (x : A) : guards (mret x).
Proof. intros s Hs. by apply writes_same. Qed.
Lemma guards_bind {A B} (m : SR NetSyncer A) (f : A → SR NetSyncer B) : guards m → (∀ x, guards (f x)) → guards (x ← m; f x).
Proof.
  intros Hm Hf s Hs. unfold mbind, SR_bind. specialize (Hm s Hs). destruct (m s) as [s1 [x|y|]]; [|done..]. cbn [fst] in Hm.
  eapply writes_trans; [exact Hm|]. apply Hf, Hm.
Qed.
Lemma guards_get {A} (f : NetSyncer → SR NetSyncer A) : (∀ s, rules s = rules s0 → guards (f s)) → guards (s ← get_st; f s).
Proof. intros Hf s Hs. unfold mbind, SR_bind, get_st. by apply Hf. Qed.
Lemma guards_modify (f : NetSyncer → NetSyncer) : (∀ s, rules (f s) = rules s ∧ wire (f s) = wire s) → guards (modify f).
Proof. intros Hf s Hs. destruct (Hf s) as [A1 A2]. apply writes_same; [by rewrite <-Hs|done]. Qed.
Lemma guards_each {A} (f : A → SR NetSyncer unit) l : (∀ x, x ∈ l → guards (f x)) → guards (each f l).
Proof.
  induction l as [|x l IH]; intros Hf; cbn [each]; [apply guards_ret|]. apply guards_bind; [apply Hf; by left|]. intros _. apply IH.
  intros y Hy. apply Hf. by right.
Qed.
(** A step of the database. *)
Lemma guards_net {A} (f : SR (Node (cipher := cipher)) A) : (∀ n, config (node_db (f n).1) = config (node_db n)) → guards (on_net f).
Proof.
  intros Hf s Hs. unfold on_net. pose proof (Hf (net_node s)) as Hc. destruct (f (net_node s)) as [n r]. cbn [fst] in *.
  apply writes_same; [|done]. rewrite <-Hs. unfold rules, net_db. cbn [net_node n_node excluded_collections net_caps net_peers enable_relay]. by rewrite Hc.
Qed.
(** Taking a step apart by its result. *)
Lemma guards_case {A B} (m : SR NetSyncer A) (f : NetSyncer * res A → NetSyncer * res B) :
  guards m → (∀ s r, rules s = rules s0 → writes s (f (s, r)).1) → guards (λ s, f (m s)).
Proof.
  intros Hm Hf s Hs. specialize (Hm s Hs). destruct (m s) as [s1 r]. cbn [fst] in Hm. eapply writes_trans; [exact Hm|]. apply Hf, Hm.
Qed.

Lemma guards_frame t conn b : P (conn, b) → guards (write_frame t conn b).
Proof.
  intros Hp s Hs. unfold write_frame. destruct (_ && _); [|by apply writes_same]. split; [done|]. exists [(conn, b)]. split; [done|]. by apply Forall_singleton.
Qed.
Lemma guards_warn t peer c : guards (net_warn t peer c).
Proof. apply guards_modify. intros s. split; [|done]. unfold rules. cbn. unfold caps_warn. destruct (warned _ !! _); [by destruct (_ <? _)|done]. Qed.
End Writing.

(** What may be written to the peer: greetings, and operations of collections that
    are not excluded and that the peer may have. *)
Definition told_peer s (peer : bytes) (m : nat * bytes) : Prop :=
  net_peers s !! peer = Some m.1 ∧
  ((∃ v i, serialize (Ping v i) = Some m.2) ∨ serialize NetSyncRequest = Some m.2 ∨
   ∃ c ops, serialize (NetReplication 0 c ops) = Some m.2 ∧ net_allowed from_secret sha256 s peer c = true ∧
     c ∉ excluded_collections s ∧ is_sync_excluded_effective (net_db s) c = false).

Lemma allowed_rules s s' peer c : rules s' = rules s → net_allowed from_secret sha256 s' peer c = net_allowed from_secret sha256 s peer c.
Proof. unfold rules, net_allowed, net_fp, is_collection_encrypted, caps_get. by intros [= -> _ -> _ _]. Qed.
(** The part of [net_withholds] that does not depend on what is loaded. *)
Definition barred s (c : bytes) : bool := bool_decide (c ∈ excluded_collections s) || is_sync_excluded_effective (net_db s) c.
Lemma barred_rules s s' c : rules s' = rules s → barred s' c = barred s c.
Proof. unfold rules, barred, is_sync_excluded_effective. by intros [= -> -> _ _ _]. Qed.
Lemma withholds_barred s c : net_withholds s c = false → barred s c = false.
Proof. unfold net_withholds, barred, is_sync_withheld. rewrite !orb_false_iff. tauto. Qed.

Section Peer.
Context (s0 : NetSyncer) (peer : bytes) (t : Moment).
Abbreviation guards := (guards s0 (told_peer s0 peer)).
Abbreviation may c := (net_allowed from_secret sha256 s0 peer c = true ∧ barred s0 c = false).

Lemma guards_send_ops c ops : may c → guards (send_ops serialize t peer c ops).
Proof.
  intros [Ha Hb]. unfold send_ops. destruct (serialize _) as [b|] eqn:Eb; [|apply guards_ret]. apply guards_get. intros s Hs.
  destruct (net_peers s !! peer) as [conn|] eqn:Hp; [|apply guards_ret]. apply guards_bind; [|intros; apply guards_ret]. apply guards_frame.
  assert (net_peers s = net_peers s0) as E by (unfold rules in Hs; congruence). split; [by rewrite <-E|]. right. right. exists c, ops.
  unfold barred in Hb. apply orb_false_iff in Hb as [Hb1%bool_decide_eq_false Hb2]. done.
Qed.
Lemma guards_page c ops : may c → guards (send_bootstrap_page serialize t peer c ops).
Proof. intros Hc. unfold send_bootstrap_page. case_bool_decide; [apply guards_ret|by apply guards_send_ops]. Qed.
Lemma guards_may {A} c (f : bool → SR NetSyncer A) :
  (net_allowed from_secret sha256 s0 peer c = true → guards (f true)) → guards (f false) → guards (ok ← peer_may_send from_secret sha256 t peer c; f ok).
Proof.
  intros Ht Hf s Hs. unfold peer_may_send. unfold mbind at 1, SR_bind at 1. rewrite (hm_bind_ok _ _ s s s) by done.
  destruct (net_allowed from_secret sha256 s peer c) eqn:Ha; [apply Ht; [by rewrite <-(allowed_rules s0 s peer c Hs)|done]|].
  pose proof (guards_warn s0 (told_peer s0 peer) t peer c s Hs) as Hw. unfold mbind, SR_bind. destruct (net_warn t peer c s) as [s1 [[]|x|]]; [|done..].
  eapply writes_trans; [exact Hw|]. apply Hf, Hw.
Qed.
Lemma guards_shard {A} (f : SR (StorageEngine cipher) A) c : guards (on_net (on_hako (on_shard c f))).
Proof.
  apply guards_net. intros n. unfold on_hako. pose proof (on_shard_config c f (node_db n)) as Hc. by destruct (on_shard c f (node_db n)).
Qed.
Lemma config_shard now c (n : Node (cipher := cipher)) : config (node_db (on_hako (get_shard from_secret now c) n).1) = config (node_db n).
Proof. unfold on_hako. pose proof (get_shard_config from_secret now c (node_db n)) as Hc. by destruct (get_shard _ _ _ _). Qed.

Lemma guards_boot_entries c entries page n : may c → guards (boot_entries serialize t peer c entries page n).
Proof.
  intros Hc. revert page n; induction entries as [|[k p] entries IH]; intros page n; cbn [boot_entries]; [apply guards_ret|].
  apply guards_bind; [apply guards_shard|]. intros [v|]; [|apply IH]. cbv zeta. destruct (_ && _); [|apply IH].
  apply guards_bind; [by apply guards_page|]. intros _. apply IH.
Qed.
Lemma guards_boot c : guards (boot_collection from_secret sha256 serialize t peer c).
Proof.
  unfold boot_collection. apply guards_get. intros s Hs. destruct (net_withholds s c) eqn:Hw; [apply guards_ret|].
  apply withholds_barred in Hw. rewrite (barred_rules s0 s c Hs) in Hw. apply guards_may; [|apply guards_ret]. intros Ha. cbn [negb].
  apply (guards_case _ _ (on_net (on_hako (get_shard from_secret (t_now t) c)))
    (λ sr, match sr with (s, Err _) => (s, Ok tt) | (s, Panic) => (s, Panic)
           | (s, Ok e) => (page ← boot_entries serialize t peer c (hash_iter (index (idx e))) [] 0; send_bootstrap_page serialize t peer c page) s end)).
  - apply guards_net. apply config_shard.
  - intros s1 [e|x|] Hs1; [|by apply writes_same..]. cbv iota.
    apply (guards_bind s0 (told_peer s0 peer)); [by apply guards_boot_entries| |done]. intros page. by apply guards_page.
Qed.
Lemma guards_bootstrap : guards (handle_bootstrap from_secret sha256 serialize t peer).
Proof.
  unfold handle_bootstrap. apply guards_get. intros s _. destruct (read_only _); [apply guards_ret|]. apply guards_each. intros c _. apply guards_boot.
Qed.

Lemma config_delta c since n : config (node_db (collect_delta_ops from_secret t c since n).1) = config (node_db n).
Proof.
  unfold collect_delta_ops. destruct (is_collection_local _ _); [done|]. pose proof (config_shard (t_now t) c n) as Hc.
  destruct (on_hako (get_shard from_secret (t_now t) c) n) as [n1 [e|x|]]; cbn [fst] in Hc; [|done..]. rewrite <-Hc. unfold on_hako.
  match goal with |- context [on_shard c ?f (node_db n1)] => pose proof (on_shard_config c f (node_db n1)) as Hc2; by destruct (on_shard c f (node_db n1)) end.
Qed.
Lemma guards_delta c since : barred s0 c = false → guards (handle_delta_send from_secret sha256 serialize t peer c since).
Proof.
  intros Hb. unfold handle_delta_send. apply guards_may; [|apply guards_ret]. intros Ha. cbn [negb].
  apply guards_bind; [apply guards_net; apply config_delta|]. intros ops. apply guards_each. intros chunk _. by apply guards_send_ops.
Qed.
Lemma config_version now c (h : Hako) : config (get_collection_version from_secret now c h).1 = config h.
Proof.
  unfold get_collection_version, mbind, SR_bind. pose proof (get_shard_config from_secret now c h) as Hc.
  destruct (get_shard from_secret now c h) as [h1 [e|x|]]; [|done..]. unfold lift. by destruct (max_version _).
Qed.
Lemma guards_ping cv : guards (ping_collection from_secret sha256 serialize t peer cv).
Proof.
  destruct cv as [c remote]. intros s Hs. unfold ping_collection. destruct (net_withholds s c) eqn:Hw; [by apply writes_same|].
  apply withholds_barred in Hw. rewrite (barred_rules s0 s c Hs) in Hw. revert s Hs.
  apply (guards_case s0 (told_peer s0 peer) (on_net (on_hako (get_collection_version from_secret (t_now t) c)))
    (λ sr, match sr with (s, Ok v) => if remote <? v then handle_delta_send from_secret sha256 serialize t peer c remote s else (s, Ok tt)
           | (s, Err _) => (s, Ok tt) | (s, Panic) => (s, Panic) end)).
  - apply guards_net. intros n. unfold on_hako. pose proof (config_version (t_now t) c (node_db n)) as Hc. by destruct (get_collection_version _ _ _ _).
  - intros s1 [v|x|] Hs1; [|by apply writes_same..]. cbv iota. destruct (remote <? v); [by apply guards_delta|by apply writes_same].
Qed.

Lemma config_versions now cols m (h : Hako) : config (version_map_of from_secret now cols m h).1 = config h.
Proof.
  revert m h; induction cols as [|c cols IH]; intros m h; cbn [version_map_of]; [done|]. pose proof (config_version now c h) as Hc.
  destruct (get_collection_version from_secret now c h) as [h1 [v|x|]]; cbn [fst] in Hc; rewrite ?IH; done.
Qed.
Lemma guards_greet : guards (greet from_secret serialize list_indexes t peer).
Proof.
  unfold greet. apply guards_bind.
  { apply guards_net. intros n. unfold on_hako, get_version_map. pose proof (config_versions (t_now t) (sync_collections (node_db n)) ∅ (node_db n)) as Hc.
    by destruct (version_map_of _ _ _ _ _). }
  intros v. apply guards_get. intros s Hs. destruct (net_peers s !! peer) as [conn|] eqn:Hp; [|apply guards_ret].
  assert (net_peers s = net_peers s0) as E by (unfold rules in Hs; congruence). rewrite E in Hp.
  assert (∀ p, (∀ b, serialize p = Some b → told_peer s0 peer (conn, b)) → guards (send_packet serialize t conn p)) as Hsend.
  { intros p Hb. unfold send_packet. destruct (serialize p) as [b|]; [by apply guards_frame, Hb|apply guards_ret]. }
  apply guards_bind; [apply Hsend; intros b Hb; split; [done|left; by eexists _, _]|]. intros _.
  apply guards_bind; [apply Hsend; intros b Hb; split; [done|right; by left]|]. intros _. apply guards_ret.
Qed.
Lemma config_remote c ops cache n : config (node_db (apply_remote from_secret t c ops cache n).1) = config (node_db n).
Proof.
  unfold apply_remote. destruct (is_collection_local _ _); [done|]. pose proof (config_shard (t_now t) c n) as Hc.
  destruct (on_hako (get_shard from_secret (t_now t) c) n) as [n1 [e|x|]]; cbn [fst] in Hc; [|done..]. rewrite <-Hc. unfold on_hako.
  assert (config (ingest_remote t c ops cache (node_db n1)).1 = config (node_db n1)) as Hi; [|by destruct (ingest_remote _ _ _ _ _)].
  unfold ingest_remote. rewrite (hm_bind_ok _ _ (node_db n1) (node_db n1) (node_db n1)) by done. unfold mbind at 1, SR_bind at 1.
  match goal with |- context [on_shard c ?f (node_db n1)] => pose proof (on_shard_config c f (node_db n1)) as Hc2; destruct (on_shard c f (node_db n1)) as [h1 [[[ca mk] eff]|x|]] end;
    [|done..]. cbn [fst] in Hc2. unfold mbind, SR_bind, modify, mret, SR_ret. cbn [fst]. rewrite bump_eq.
  destruct (bumped_versions _ _ _) as [g m]. unfold enqueue_index_update, notify_watchers. cbn [io_puts io_deletes]. by destruct (to_index eff).
Qed.
End Peer.

Lemma told_rules s s' peer m : rules s' = rules s → told_peer s peer m → told_peer s' peer m.
Proof.
  intros Hr (Hp & Hm). pose proof Hr as Hr'. unfold rules in Hr'. injection Hr' as E1 E2 _ E4 _. split; [by rewrite E4|].
  destruct Hm as [Hm|[Hm|(c & ops & Hs & Ha & Hx & He)]]; [by left|by right; left|right; right]. exists c, ops.
  rewrite (allowed_rules s s') by done. unfold is_sync_excluded_effective in *. by rewrite E1, E2.
Qed.
Lemma guards_receive s0 P t peer raw msg c ops :
  enable_relay s0 = false → guards s0 P (receive_ops from_secret sha256 deserialize t peer raw msg c ops).
Proof.
  intros Hrel. unfold receive_ops. apply guards_get. intros s Hs. assert (enable_relay s = false) as Hr by (unfold rules in Hs; congruence).
  destruct (net_withholds s c); [apply guards_ret|]. destruct (note_seen msg (net_seen s)) as [seen fresh].
  apply guards_bind; [by apply guards_modify|]. intros _. destruct fresh; cbn [negb]; [|apply guards_ret].
  destruct (net_allowed _ _ s peer c); cbn [negb]; [|apply guards_warn]. rewrite Hr, andb_false_r.
  apply guards_bind; [|intros; apply guards_ret]. unfold net_ingest. apply guards_get. intros s1 _.
  apply guards_bind; [apply guards_net; apply config_remote|]. intros cache. by apply guards_modify.
Qed.

(** C26: The answer of a node that does not relay to a packet of a peer goes to that
    peer alone; it is a greeting or operations of a collection that is not excluded
    from synchronisation and, if it is encrypted here, whose key the peer has
    announced. *)
Theorem answers_guarded t peer raw s s' r :
  peer_packet from_secret sha256 serialize deserialize list_indexes t peer raw s = (s', r) → enable_relay s = false →
  ∃ out, wire s' = wire s ++ out ∧ Forall (told_peer s' peer) out.
Proof.
  intros E Hrel.
  assert (∀ {A} (m : SR NetSyncer A) s1 s2 r2, wire s1 = wire s → guards s1 (told_peer s1 peer) m → m s1 = (s2, r2) →
    ∃ out, wire s2 = wire s ++ out ∧ Forall (told_peer s2 peer) out) as Hrun.
  { intros A m s1 s2 r2 Hw Hg Em. specialize (Hg s1 eq_refl). rewrite Em in Hg. cbn [fst] in Hg. destruct Hg as (Hr & out & Ho & Hout). exists out.
    rewrite Ho, Hw. split; [done|]. eapply Forall_impl; [exact Hout|]. intros x. by apply told_rules. }
  unfold peer_packet in E. destruct (deserialize raw) as [[id hash|vs idx| |msg c ops|fp cols|cl ts|ts cl]|].
  1,6-8: injection E as <- _; exists []; by rewrite app_nil_r.
  - rewrite (hm_bind_ok _ _ s (n_notes (cloud_leases s) (t_instant t) (net_indexes s ++ [idx]) s) tt) in E by done.
    eapply Hrun; [..|exact E]; [done|]. apply guards_each. intros cv _. apply guards_ping.
  - eapply Hrun; [..|exact E]; [done|]. apply guards_bootstrap.
  - eapply Hrun; [..|exact E]; [done|]. by apply guards_receive.
  - rewrite (hm_bind_ok _ _ s (n_peers (net_peers s) (caps_set (net_caps s) peer (mkCaps fp cols)) s) tt) in E by done.
    eapply Hrun; [..|exact E]; [done|]. apply guards_greet.
Qed.
End Guarded.

(** ** Applications *)

#[local] Instance in_order : StdIter := λ _ _ _ _ m, map_to_list m.

(** A format: packets as numbers. *)
Abbreviation SockRepr := (gmap bytes Z + unit + (bytes * list ((Z * bytes) * list Z * bytes)) + (bytes * list ((Z * bytes) * list Z * bytes)))%type.
Definition sock_repr (p : SockPacket unit) : SockRepr :=
  match p with
  | Hello v => inl (inl (inl v))
  | IndexDefs i => inl (inl (inr i))
  | Snapshot c ops => inl (inr (c, op_repr <$> ops))
  | Data c ops => inr (c, op_repr <$> ops)
  end.
Definition sock_of_repr (r : SockRepr) : option (SockPacket unit) :=
  match r with
  | inl (inl (inl v)) => Some (Hello v)
  | inl (inl (inr i)) => Some (IndexDefs i)
  | inl (inr (c, ops)) => Snapshot c <$> mapM op_of_repr ops
  | inr (c, ops) => Data c <$> mapM op_of_repr ops
  end.
Definition sock_pack (p : SockPacket unit) : option bytes := Some [Zpos (countable.encode (sock_repr p))].
Definition sock_unpack (b : bytes) : option (SockPacket unit) :=
  match b with [Zpos n] => r ← countable.decode n; sock_of_repr r | _ => None end.

Lemma ops_of_repr ops : mapM op_of_repr (op_repr <$> ops) = Some ops.
Proof. induction ops as [|op ops IH]; [done|]. rewrite fmap_cons. cbn [mapM]. rewrite IH. by destruct op. Qed.
Lemma sock_pack_law : sock_law sock_pack sock_unpack.
Proof.
  intros p. eexists. split; [reflexivity|]. split; [|done]. unfold sock_unpack. rewrite countable.decode_encode. cbn [mbind option_bind].
  destruct p; cbn [sock_repr sock_of_repr]; rewrite ?ops_of_repr; reflexivity.
Qed.

(** Databases with notes. *)
Definition noted (ops : list WalOp) : Hako := (apply_timestamped demo_secret 0 NOTES ops [] (get_key <$> ops) client_db).1.
Lemma noted_state ops : Forall clean_op ops → global_version client_db + zlen ops < 2 ^ 64 → state_ok Datatypes.id (noted ops).
Proof.
  intros Hc Hr. destruct (apply_timestamped_spec demo_secret Datatypes.id 0 NOTES ops [] client_db client_receptive) as (h & E & Hrec & _); [vm_compute; reflexivity|done|done|].
  unfold noted. rewrite E. apply Hrec.
Qed.

(** Decides [peer_ok] by evaluation. *)
Definition ships_b (th : Z) (v : Version) : bool :=
  match v.2 with
  | Some b => match decode b with
              | Some d => bytes_eqb (encode d) b && (_time d =? v.1) && negb (doc_has_links d) && forallb (λ kv, len_bytes kv.2 <=? th) (fields d)
              | None => false
              end
  | None => true
  end.
Definition timed_b (p : Pointer) : bool := match p with PInlined b => 10 <=? zlen b | _ => true end.
Definition peer_b (th : Z) (h : Hako (cipher := unit)) : bool :=
  forallb (λ ce, forallb (λ kp, timed_b kp.2) (map_to_list (index (idx ce.2))) && forallb (λ kv, ships_b th kv.2) (map_to_list (versions ce.2)))
    (map_to_list (shards h)).
Lemma ships_b_ok th v : ships_b th v = true → shippable th v.
Proof.
  unfold ships_b. intros Hb b Hv. rewrite Hv in Hb. destruct (decode b) as [d|]; [|done]. exists d.
  apply andb_true_iff in Hb as [Hb Hf]. apply andb_true_iff in Hb as [Hb Hl%negb_true_iff]. apply andb_true_iff in Hb as [He%bytes_eqb_eq Ht].
  split_and!; [done|done|lia|done|].
  apply Forall_forall. intros kv Hin. assert (In kv (fields d)) as Hin' by (by apply list_elem_of_In).
  pose proof (proj1 (forallb_forall _ _) Hf _ Hin') as Hle. cbv beta in Hle |- *. lia.
Qed.
Lemma peer_b_ok th h :
  state_ok Datatypes.id h → value_blob_threshold_bytes (config h) = th → peer_b th h = true →
  peer_ok Datatypes.id th h.
Proof.
  intros Ho Ht Hb. assert (∀ c e, shards h !! c = Some e → map_Forall (λ _ p, timed p) (index (idx e)) ∧ map_Forall (λ _ v, shippable th v) (versions e)) as Hall.
  { intros c e He. apply elem_of_map_to_list, list_elem_of_In in He. unfold peer_b in Hb. pose proof (proj1 (forallb_forall _ _) Hb _ He) as Hce. cbn [snd] in Hce.
    apply andb_true_iff in Hce as [H1 H2]. split; intros k x Hk; apply elem_of_map_to_list, list_elem_of_In in Hk.
    - pose proof (proj1 (forallb_forall _ _) H1 _ Hk) as Hx. cbn [snd] in Hx. unfold timed_b in Hx. destruct x; try done. cbn. lia.
    - apply ships_b_ok. exact (proj1 (forallb_forall _ _) H2 _ Hk). }
  split; [done|done| |]; intros c; unfold index_of, vers_of; destruct (shards h !! c) as [e|] eqn:He; try (by apply (Hall c)); by intros k x Hk.
Qed.

Abbreviation Sock := (SocketSync (cipher := unit) (IndexList := unit)).
(** The one deleted z, the other has an older x and a document more. *)
Definition left_ops : list WalOp := [put_note b#("x") 20 2; Delete b#("z") 30].
Definition right_ops : list WalOp := [put_note b#("x") 10 1; put_note b#("z") 25 3; put_note b#("w") 15 4].
Definition left_db : Sock := sock_new (mkNode (noted left_ops) no_marks) [].
Definition right_db : Sock := sock_new (mkNode (noted right_ops) no_marks) [].

Lemma noted_ok ops :
  Forall clean_op ops → zlen ops < 2 ^ 63 → peer_b 16384 (noted ops) = true → settings (noted ops) = settings client_db →
  peer_ok Datatypes.id 16384 (noted ops).
Proof.
  intros Hc Hz Hb Hs. assert (global_version client_db = 1) as Hg by (vm_compute; reflexivity).
  apply peer_b_ok; [apply noted_state; [done|lia]| |done]. unfold settings in Hs. injection Hs as -> _ _ _ _ _ _. vm_compute. reflexivity.
Qed.

Lemma snapshots_converge_witness :
  ∃ a1 fa b1 fb a2 b2,
    send_snapshots demo_secret sock_pack noon 1 (sync_collections (sock_db left_db)) left_db = (a1, Ok tt) ∧ sock_out a1 = pair 1%nat <$> fa ∧
    send_snapshots demo_secret sock_pack noon 2 (sync_collections (sock_db right_db)) right_db = (b1, Ok tt) ∧ sock_out b1 = pair 2%nat <$> fb ∧
    conn_packets demo_secret sock_unpack noon fb a1 = (a2, Ok true) ∧ conn_packets demo_secret sock_unpack noon fa b1 = (b2, Ok true) ∧
    vers_of (sock_db a2) NOTES = <[b#("x") := (20, Some (encode (note 20 2)))]> (<[b#("z") := (30, None)]> {[b#("w") := (15, Some (encode (note 15 4)))]}) ∧
    vers_of (sock_db b2) NOTES = vers_of (sock_db a2) NOTES.
Proof.
  assert (∀ s : Sock, fits sock_pack s) as Hfit by (intros s c cs b _ [= <-]; vm_compute; discriminate).
  assert (peer_ok Datatypes.id 16384 (sock_db left_db) ∧ peer_ok Datatypes.id 16384 (sock_db right_db)) as [Ha Hb].
  { split; (apply noted_ok; [repeat constructor; (eexists; split_and!; [vm_compute; reflexivity..])|vm_compute; reflexivity..]). }
  destruct (snapshots_converge demo_secret Datatypes.id 16384 sock_pack sock_unpack noon noon 1 2 left_db right_db sock_pack_law)
    as (a1 & fa & b1 & fb & a2 & b2 & E1 & O1 & E2 & O2 & R1 & R2 & Hc);
    [done|exact Ha|exact Hb|reflexivity|reflexivity|apply Hfit|apply Hfit|repeat constructor|repeat constructor|vm_compute; reflexivity|vm_compute; reflexivity|].
  exists a1, fa, b1, fb, a2, b2. split; [exact E1|]. split; [exact O1|]. split; [exact E2|]. split; [exact O2|]. split; [exact R1|]. split; [exact R2|].
  destruct (Hc NOTES) as [Hv Hw].
  - split; [apply (bool_decide_unpack (NOTES ∈ sync_collections (sock_db left_db)))|]; vm_compute; done.
  - split; [apply (bool_decide_unpack (NOTES ∈ sync_collections (sock_db right_db)))|]; vm_compute; done.
  - assert (vers_of (sock_db left_db) NOTES = <[b#("x") := (20, Some (encode (note 20 2)))]> {[b#("z") := (30, None)]}) as -> by (vm_compute; reflexivity).
    assert (vers_of (sock_db right_db) NOTES = <[b#("x") := (10, Some (encode (note 10 1)))]>
      (<[b#("z") := (25, Some (encode (note 25 3)))]> {[b#("w") := (15, Some (encode (note 15 4)))]})) as -> by (vm_compute; reflexivity).
    intros k v w [[<- <-]|[_ [<- <-]%lookup_singleton_Some]]%lookup_insert_Some [[E <-]|[_ [[E <-]|[_ [E <-]%lookup_singleton_Some]]%lookup_insert_Some]]%lookup_insert_Some;
      cbn; intros Ht; done || (vm_compute in E; done).
  - split; [|exact Hw]. rewrite Hv. vm_compute. reflexivity.
Defined.

(** A mesh format. *)
Abbreviation NetRepr := ((bytes * bytes) + (gmap bytes Z * unit) + unit + (Z * bytes * list ((Z * bytes) * list Z * bytes)) + (bytes * list bytes) +
  (bytes * Z) + (Z * bytes))%type.
Definition net_repr (p : NetPacket unit) : NetRepr :=
  match p with
  | Identify a b => inl (inl (inl (inl (inl (inl (a, b))))))
  | Ping v i => inl (inl (inl (inl (inl (inr (v, i))))))
  | NetSyncRequest => inl (inl (inl (inl (inr tt))))
  | NetReplication i c ops => inl (inl (inl (inr (i, c, op_repr <$> ops))))
  | SyncCaps f l => inl (inl (inr (f, l)))
  | CloudLease c t => inl (inr (c, t))
  | RelayTake t c => inr (t, c)
  end.
Definition net_of_repr (r : NetRepr) : option (NetPacket unit) :=
  match r with
  | inl (inl (inl (inl (inl (inl (a, b)))))) => Some (Identify a b)
  | inl (inl (inl (inl (inl (inr (v, i)))))) => Some (Ping v i)
  | inl (inl (inl (inl (inr _)))) => Some NetSyncRequest
  | inl (inl (inl (inr (i, c, ops)))) => NetReplication i c <$> mapM op_of_repr ops
  | inl (inl (inr (f, l))) => Some (SyncCaps f l)
  | inl (inr (c, t)) => Some (CloudLease c t)
  | inr (t, c) => Some (RelayTake t c)
  end.
Definition net_pack (p : NetPacket unit) : option bytes := Some [Zpos (countable.encode (net_repr p))].
Definition net_unpack (b : bytes) : option (NetPacket unit) :=
  match b with [Zpos n] => r ← countable.decode n; net_of_repr r | _ => None end.
Abbreviation Net := (NetSyncer (cipher := unit) (IndexList := unit)).
Definition meshed (h : Hako) (m : Marks) (peers : gmap bytes nat) (c : gmap bytes PeerCaps) : Net :=
  mkSyncer (mkNode h m) b#("me") b#("room") (excluded_of h []) false peers (mkCapsMap c ∅) [] ∅ ∅ ∅ 0 [] [].
Abbreviation hears := (peer_packet demo_secret Datatypes.id net_pack net_unpack (λ _, tt) noon b#("p")).
Definition raw (p : NetPacket unit) : bytes := default [] (net_pack p).
Definition wired (s : Net) : list (nat * option (list WalOp)) :=
  (λ m, (m.1, match net_unpack m.2 with Some (NetReplication _ _ ops) => Some ops | _ => None end)) <$> wire s.

(** A node with the three notes and one peer. *)
Definition mesh_node : Net := meshed server_db no_marks {[b#("p") := 7%nat]} ∅.

Lemma answers_guarded_witness :
  let r := hears (raw (Ping {[NOTES := 25]} tt)) mesh_node in
  wired r.1 = [(7%nat, Some [Delete b#("z") 30])] ∧
  ∃ out, wire r.1 = wire mesh_node ++ out ∧ Forall (told_peer demo_secret Datatypes.id net_pack r.1 b#("p")) out.
Proof.
  intros r. split; [vm_compute; reflexivity|].
  apply (answers_guarded demo_secret Datatypes.id net_pack net_unpack (λ _, tt) noon b#("p") (raw (Ping {[NOTES := 25]} tt)) mesh_node r.1 r.2);
    [apply surjective_pairing|reflexivity].
Defined.

(** ** Corner cases *)

(** The documents that a node keeps to itself are sent when a peer asks for everything,
    over the mesh and over a socket. *)
Lemma bootstrap_sends_local :
  let m := mkMarks ∅ {[mark NOTES b#("y")]} in
  is_local_only m NOTES b#("y") = true ∧
  existsb (λ w, existsb (λ op, bytes_eqb (get_key op) b#("y")) (default [] w.2)) (wired (hears (raw NetSyncRequest) (meshed server_db m {[b#("p") := 7%nat]} ∅)).1) = true.
Proof. split; vm_compute; reflexivity. Qed.
Lemma snapshot_sends_local :
  let m := mkMarks {[NOTES]} ∅ in
  is_local_only m NOTES b#("y") = true ∧
  match (snapshot_collection demo_secret noon NOTES (mkNode server_db m)).2 with Ok ops => length ops = 3%nat | _ => False end.
Proof. split; vm_compute; reflexivity. Qed.

(** A deletion that is older than the newest version of the peer reaches it neither by
    the delta nor by the bootstrap. *)
Lemma old_deletion_never_sent :
  let s := (hears (raw NetSyncRequest) (hears (raw (Ping {[NOTES := 40]} tt)) mesh_node).1).1 in
  existsb (λ w, existsb (λ op, match op with Delete _ _ => true | _ => false end) (default [] w.2)) (wired s) = false ∧ length (wired s) = 1%nat.
Proof. split; vm_compute; reflexivity. Qed.

(** Documents in segments and blobs are in no delta. *)
Lemma segments_never_in_delta m c since k p :
  match p with PSegment _ _ _ | PBlob _ _ => True | _ => False end → 0 <= since → delta_items m c since [(k, p)] = Ok [].
Proof.
  intros Hp Hs. cbn [delta_items fst snd]. destruct (is_local_only m c k); [done|]. destruct p; try done; cbn; by rewrite (proj2 (Z.ltb_ge _ _)) by done.
Qed.

(** A relay does not look at its own encryption: a batch that the peer q may not have
    goes to q when its sender did not list the collection. *)
Definition secret_config : HakoConfig :=
  mkConfig (mmap_size default_config) (page_size default_config) (page_cache_capacity default_config) (query_workers default_config)
    (auto_compaction_threshold_bytes default_config) (durability_mode default_config) (group_commit_max_ops default_config)
    (group_commit_interval_ms default_config) (Some b#("key")) (encrypted_cols default_config) (enable_audit_log default_config)
    (audit_log_path default_config) (max_inlined_memory_bytes default_config) (use_compression default_config) (compression_level default_config)
    (value_blob_threshold_bytes default_config) (replication_collections default_config) (wal_reserve_bytes default_config)
    (background_maintenance default_config) (sync_excluded default_config) (lazy_collections default_config)
    (soft_delete_retention_secs default_config) (soft_delete_sweep_interval_secs default_config) (soft_delete_max_bytes default_config)
    (soft_delete_max_count default_config).
Definition secret_db : Hako (cipher := unit) := mkHako secret_config ∅ ∅ 1 ∅ 0 0 [] false false ∅ false (mkLedger ∅ ∅) mg_empty ∅ ∅ ∅ [] [] [].
Definition secret_node : Net :=
  meshed secret_db no_marks (<[b#("p") := 7%nat]> {[b#("q") := 8%nat]}) {[b#("p") := mkCaps b#("key") []]}.
Lemma relay_ignores_own_key :
  let data := raw (NetReplication 5 NOTES [put_note b#("x") 10 1]) in
  net_allowed demo_secret Datatypes.id secret_node b#("p") NOTES = true ∧ net_allowed demo_secret Datatypes.id secret_node b#("q") NOTES = false ∧
  wire (relay_mesh net_unpack noon data b#("p") secret_node).1 = [(8%nat, data)].
Proof. split_and!; vm_compute; reflexivity. Qed.

(** A socket peer may write what is excluded from synchronisation. *)
Lemma socket_takes_excluded :
  is_sync_excluded b#("__users") = true ∧
  vers_of (sock_db (conn_packet demo_secret sock_unpack noon (default [] (sock_pack (Snapshot b#("__users") [put_note b#("root") 10 1]))) left_db).1) b#("__users") ≠ ∅.
Proof. split; [reflexivity|]. vm_compute. discriminate. Qed.

(** A socket sends the links of a document and not the values behind them. *)
Lemma snapshot_keeps_links k b d (e : StorageEngine unit) :
  decode b = Some d → snapshot_ops [(k, PInlined b)] e = (e, Ok [PutInlined k b]).
Proof. intros Hd. cbn [snapshot_ops]. unfold mbind, SR_bind. cbn. by rewrite Hd. Qed.

(** The connections of one listener share their offsets: what the tailer of the first
    sends, the second never gets. *)
Definition two_peers : Sock := k_tail ∅ ∅ left_db.
Lemma tailers_share_offsets :
  let s1 := (sock_tail demo_secret sock_pack noon 1 NOTES two_peers).1 in
  let s2 := (sock_tail demo_secret sock_pack noon 2 NOTES s1).1 in
  (sock_out s2).*1 = [1%nat].
Proof. vm_compute. reflexivity. Qed.

(** The lower name dials the higher. *)
Lemma lower_dials : (dial_list mesh_node (<[b#("a") := (b#("addr1"), 0)]> {[b#("z") := (b#("addr2"), 0)]}) 0).2 = [(b#("z"), b#("addr2"))].
Proof. vm_compute. reflexivity. Qed.

(** Gossip keeps a dead peer alive: a beacon renews the time of every peer it names. *)
Lemma gossip_revives cache pkt src me room now name addr :
  bytes_eqb (bc_room_hash pkt) room = true → bytes_eqb (bc_id pkt) me = false → known pkt = [(name, addr)] → bytes_eqb name me = false → name ≠ bc_id pkt →
  (merge_beacon cache pkt src me room now).1 !! name = Some (addr, now).
Proof.
  intros Hr Hi Hk Hn Hne. unfold merge_beacon. rewrite Hr, Hi, Hk. cbn [negb orb foldl upsert fst snd]. unfold upsert. cbn [fst snd]. rewrite Hi, Hn. cbn [fst].
  by rewrite lookup_insert_eq.
Qed.
