(* ===== verification/Collections.v ===== *)
(** * Whole collections (src/engine/engine.rs)

    Operations of the facade on collections instead of documents: moving documents
    between collections ([relocate_docs]), loading and unloading lazy collections,
    flushing and compacting what is loaded, dropping a collection with its indexes,
    claims, schema and directory.  The state is that of QueryFront.v; the local-only
    marks (Cloud.v) are an argument.  A collection that is unloaded leaves its files
    ([dir_of]) in [disk].  [nanos i] is the clock at the [i]-th write of a call.
    Saving the definitions of the indexes is an argument ([saved]); saving the
    schemas, which may fail without consequence, and the row cache are left out. *)

From stdpp Require Import prelude list gmap strings.
From Stdlib Require Import ZArith Lia.
From S2P Require Import Prelude RustStd Error Config Crypto VFile Value Doc DocFacts DocCodec DocAccess Wal WalFacts Models PageCache StorageIndex StorageIndexFacts.
From S2P Require Import Segment SegmentFacts Blob Storage StorageMaint StorageFacts StorageView StorageCompact StorageReopen StorageModels.
From S2P Require Import Filter Schema Composite CompositeFacts Ledger CompositeManager Traverse IndexManager PlanCache SyncCore SyncFacts.
From S2P Require Import Facade FacadeFacts FacadeApply FacadeState FacadeProps QueryFront Cloud.

Local Open Scope Z_scope.
Local Open Scope hako_scope.

Record RelocateReport := mkRelocated { moved : list bytes; missing : list bytes }.
Record DropReport := mkDrop { docs_removed : Z; bytes_reclaimed : Z; collections_dropped : list bytes }.

(** [let _ = f()]: an error is ignored, a panic is not. *)
Definition ignored {S A} (f : SR S A) : SR S unit := λ s,
  match f s with (s, Panic) => (s, Panic) | (s, _) => (s, Ok tt) end.

Section Collections.
Context `{Crc} `{Zstd} `{HashIter} {cipher : Type} `{Aead cipher}.
Context (from_secret : bytes → EncryptionContext cipher) (to_lowercase : bytes → bytes).
Abbreviation Hako := (Hako (cipher := cipher)).
Abbreviation Front := (Front (cipher := cipher)).
Abbreviation EM := (SR (StorageEngine cipher)).
Abbreviation HM := (SR Hako).
Abbreviation FM := (SR Front).

(** ** Moving documents *)

(** The claims of the document at its destination; a violation takes them back. *)
Definition admit_moved (c id : bytes) (doc : HakoDoc) : HM unit := λ h,
  match unique_gate_admit to_lowercase c id doc (no_prep, h) with
  | ((_, h), Ok _) => (h, Ok tt)
  | ((p, h), Err e) => (roll_back (undo p) h, Err e)
  | ((_, h), Panic) => (h, Panic)
  end.
(** The put under the lock of the collection. *)
Definition move_in (now : Z) (id : bytes) (doc : HakoDoc) (blobs : list BlobWork) : EM unit :=
  e ← get_st;
  let tx_id := next_tx_id e in
  _ ← modify (e_with_tx (tx_id + 1));
  _ ← on_wal (λ c w, append_batch_fast now c w tx_id [PutInlined id (encode doc)] false);
  modify (λ e,
    let e := e_with_idx (update_index_entry (idx e) id (Some (PInlined (encode doc)))) e in
    e_with_blobs (blob_manager e) (blob_flush_queue e ++ blobs) e).
Definition touch_collection (c : bytes) (h : Hako) : Hako :=
  h_with_outputs (index_touched h ∪ {[c]}) (index_queue h) (notified h) (audit_data h) h.
(** The document arrives with its time stamp; then the deletion at the source. *)
Definition put_moved (now : Z) (dst id : bytes) (doc : HakoDoc) (blobs : list BlobWork) : HM unit :=
  _ ← on_shard dst (move_in now id doc blobs);
  _ ← modify (bump_versions_by_keys [id]);
  _ ← modify (touch_collection dst);
  _ ← modify (enqueue_index_update (mkIndexOp dst [(id, doc)] []));
  _ ← modify (uncache dst [id]);
  _ ← modify (record_audit (mkAudit APut dst (Some id) true));
  modify (notify_watchers [(dst, mkEvent id ChPut)]).
Definition relocate_put (now : Z) (dst id : bytes) (doc : HakoDoc) : HM unit :=
  h ← get_st;
  _ ← get_shard from_secret now dst;
  '(doc, blobs) ← on_shard dst (extract_remote dst id (value_blob_threshold_bytes (config h)) doc);
  _ ← admit_moved dst id doc;
  put_moved now dst id doc blobs.
Definition relocate_one (now nanos : Z) (src dst id : bytes) (doc : HakoDoc) : HM unit :=
  _ ← relocate_put now dst id doc;
  _ ← hako_delete from_secret to_lowercase now nanos src id;
  modify (bump_versions_by_keys [id]).
Fixpoint relocate_loop (now : Z) (nanos : nat → Z) (free : bool) (src dst : bytes) (ids : list bytes) (report : RelocateReport)
  : HM RelocateReport :=
  match ids with
  | [] => mret report
  | id :: ids =>
      found ← hako_get from_secret now free src id;
      match found with
      | None => relocate_loop now (λ i, nanos (S i)) free src dst ids (mkRelocated (moved report) (missing report ++ [id]))
      | Some doc =>
          _ ← relocate_one now (nanos O) src dst id doc;
          relocate_loop now (λ i, nanos (S i)) free src dst ids (mkRelocated (moved report ++ [id]) (missing report))
      end
  end.
Definition relocate_docs (m : Marks) (now : Z) (nanos : nat → Z) (free : bool) (src dst : bytes) (ids : list bytes) : HM RelocateReport :=
  if bytes_eqb src dst then fail (Corrupt "relocate: src == dst")
  else
    h ← get_st;
    if read_only h then fail (Corrupt "read-only")
    else if existsb (λ c, is_sync_withheld h c || is_collection_local m c) [src; dst] then fail (Corrupt "relocate: excluded collection")
    else if negb (allowed h src ADelete) || negb (allowed h dst APut) then fail (Corrupt "Denied")
    else if negb (allowed h src AGet) then fail (Corrupt "Denied")
    else relocate_loop now nanos free src dst ids (mkRelocated [] []).

(** ** Loading and unloading *)

Definition load_collection (now : Z) (c : bytes) : HM unit := _ ← get_shard from_secret now c; mret tt.

(** The collection leaves the map; its files stay. *)
Definition evict_shard (c : bytes) (final : EM unit) : HM unit := λ h,
  match shards h !! c with
  | None => (h, Ok tt)
  | Some e => let '(e, r) := final e in (h_with_shards (base.delete c (shards h)) (<[c := dir_of e]> (disk h)) h, r)
  end.
Definition forget_docs (c : bytes) (h : Hako) : Hako :=
  h_with_cache (base.filter (λ kv, starts_with kv.1 (c ++ [0]) = false) (doc_cache h)) h.
Definition forget_plans : FM unit :=
  modify (λ f, mkFront (db f) (others f) (invalidate (plan_cache f)) (indexes_ready f) (backfill_inflight f)).
Definition close_shard (now : Z) : EM unit :=
  _ ← ignored drain_blob_queue; _ ← ignored (rewrite_wal_snapshot now); ignored (flush_all now).
Definition unload_collection (now : Z) (c : bytes) : FM unit :=
  f ← get_st;
  if negb (is_lazy_collection (db f) c) then fail (Corrupt "unload: not in lazy_collections")
  else match shards (db f) !! c with
       | None => mret tt
       | Some _ =>
           _ ← on_db (evict_shard c (close_shard now));
           _ ← on_db (modify (forget_docs c));
           forget_plans
       end.

(** ** Flushing and compacting *)

(** [compact_impl]: the token is asked before every collection ([stop]) and during
    its compaction ([cancelled]). *)
Fixpoint compact_shards (now : Z) (stop : nat → bool) (cancelled : nat → nat → bool) (i : nat) (cs : list bytes) : HM unit :=
  match cs with
  | [] => mret tt
  | c :: cs =>
      _ ← lift (token_check (stop i));
      _ ← on_shard c (compact_with_cancel now (cancelled i));
      compact_shards now stop cancelled (S i) cs
  end.
Definition compact_impl (now : Z) (stop : nat → bool) (cancelled : nat → nat → bool) : HM unit :=
  h ← get_st; compact_shards now stop cancelled 0 (hash_iter (shards h)).*1.
Definition hako_compact (now : Z) : HM unit := compact_impl now (λ _, false) (λ _ _, false).
Definition compact_collection_impl (now : Z) (c : bytes) (stop : bool) (cancelled : nat → bool) : HM unit :=
  h ← get_st;
  match shards h !! c with
  | None => mret tt
  | Some _ => _ ← lift (token_check stop); on_shard c (compact_with_cancel now cancelled)
  end.
Definition hako_flush (now : Z) : HM unit :=
  h ← get_st; each (λ c, on_shard c (flush_all now)) (hash_iter (shards h)).*1.

(** ** Dropping *)

Definition dir_size (d : Dir) : Z := zlen (d_wal d) + zlen (d_blobs d) + foldr (λ f n, zlen f.2 + n) 0 (d_files d).
Definition unlink (c : bytes) (h : Hako) : Hako := h_with_shards (shards h) (base.delete c (disk h)) h.
(** The definitions of every index family, and the claims of the unique ones. *)
Definition drop_defs (c : bytes) (f : Front) : Front :=
  let h := db f in
  let unique_ids := gate_id <$> unique_defs (Facade.composite h) c in
  let m := drop_collection_defs (indexes f) c in
  let ledger := foldl ledger_reset (unique_ledger h) unique_ids in
  mkFront (mkHako (config h) (shards h) (disk h) (global_version h) (doc_versions h) (last_ts_watermark h) (id_sequence h)
             (security_rules h) (security_enabled h) (read_only h) (schemas h) (schema_enabled h) ledger (IndexManager.composite m) ∅
             (doc_cache h) (index_touched h) (index_queue h) (notified h) (audit_data h))
    m (plan_cache f) (indexes_ready f) (backfill_inflight f).
Definition drop_schema (c : bytes) (h : Hako) : Hako :=
  match schemas h !! c with
  | None => h
  | Some _ => let m := base.delete c (schemas h) in h_with_schemas m (negb (bool_decide (m = ∅))) h
  end.
Definition DROP_CHUNK : nat := 1000.
Fixpoint delete_chunks (now : Z) (nanos : nat → Z) (c : bytes) (css : list (list bytes)) : HM unit :=
  match css with
  | [] => mret tt
  | ids :: css =>
      _ ← write_batch from_secret to_lowercase now (nanos O) (MutDelete c <$> ids);
      delete_chunks now (λ i, nanos (S i)) c css
  end.
Definition hako_drop_collection (m : Marks) (saved : res unit) (now : Z) (nanos : nat → Z) (c : bytes) : FM DropReport :=
  f ← get_st;
  if read_only (db f) then fail (Corrupt "ReadOnly")
  else if is_sync_excluded_effective (db f) c then fail (Corrupt "drop: sync-excluded plane")
  else if is_collection_local m c then fail (Corrupt "drop: marked local-only")
  else if is_lazy_unloaded (db f) c then fail (Corrupt "drop: unloaded lazy collection")
  else match shards (db f) !! c with
       | None => mret (mkDrop 0 0 [])
       | Some e =>
           let ids := (hash_iter (index (idx e))).*1 in
           _ ← on_db (delete_chunks now nanos c (chunks (length ids) DROP_CHUNK ids));
           _ ← on_db (evict_shard c (_ ← ignored drain_blob_queue; ignored (flush_all now)));
           _ ← modify (drop_defs c);
           _ ← lift saved;
           _ ← on_db (modify (drop_schema c));
           _ ← on_db (modify (forget_docs c));
           _ ← forget_plans;
           f ← get_st;
           let size := match disk (db f) !! c with Some d => dir_size d | None => 0 end in
           _ ← on_db (modify (unlink c));
           _ ← on_db (modify (record_audit (mkAudit ABatch c None true)));
           mret (mkDrop (zlen ids) size [c])
       end.
End Collections.

(** ** Moving documents *)

(** What a move makes of the documents. *)
Abbreviation Docs := (bytes → bytes → option HakoDoc).
Definition after_move (src dst : bytes) (ids : list bytes) (v : Docs) : Docs := λ c id,
  match (if bool_decide (id ∈ ids) then v src id else None) with
  | Some d => if bool_decide (c = src) then None else if bool_decide (c = dst) then Some d else v c id
  | None => v c id
  end.

Lemma after_move_cons src dst id ids (v v1 v2 : Docs) :
  src ≠ dst → id ∉ ids → (∀ c k, c ≠ SOFTDEL_COLLECTION → v1 c k = after_move src dst [id] v c k) → src ≠ SOFTDEL_COLLECTION →
  (∀ c k, c ≠ SOFTDEL_COLLECTION → v2 c k = after_move src dst ids v1 c k) →
  ∀ c k, c ≠ SOFTDEL_COLLECTION → v2 c k = after_move src dst (id :: ids) v c k.
Proof.
  intros Hsd Hni A1 Hs A2 c k Hc. rewrite A2 by done. unfold after_move at 1. rewrite !A1 by done. unfold after_move.
  destruct (decide (k = id)) as [->|Hk].
  - rewrite (bool_decide_eq_false_2 (id ∈ ids)), (bool_decide_eq_true_2 (id ∈ [id])), (bool_decide_eq_true_2 (id ∈ id :: ids)) by (done || left). done.
  - rewrite (bool_decide_eq_false_2 (k ∈ [id])) by (by rewrite list_elem_of_singleton).
    rewrite (bool_decide_ext (k ∈ id :: ids) (k ∈ ids)) by (rewrite elem_of_cons; naive_solver). done.
Qed.

Lemma after_move_absent src dst id ids (v : Docs) c k : v src id = None → after_move src dst (id :: ids) v c k = after_move src dst ids v c k.
Proof.
  intros Hn. unfold after_move. destruct (decide (k = id)) as [->|Hk]; [rewrite Hn; by repeat case_bool_decide|].
  by rewrite (bool_decide_ext (k ∈ id :: ids) (k ∈ ids)) by (rewrite elem_of_cons; naive_solver).
Qed.

Section Relocate.
Context `{CrcLaws} `{ZstdLaws} `{HashIterLaws} {cipher : Type} `{AeadLaws cipher}.
Context (from_secret : bytes → EncryptionContext cipher) (to_lowercase : bytes → bytes).
Abbreviation Hako := (Hako (cipher := cipher)).
Implicit Types (h : Hako) (e : StorageEngine cipher).

Lemma move_in_spec now id doc e :
  store_ok e → encryption (wal e) = None →
  ∃ e', move_in now id doc [] e = (e', Ok tt) ∧ store_ok e' ∧ encryption (wal e') = None ∧
    store_view e' = <[id := encode doc]> (store_view e).
Proof.
  intros He Hn. unfold move_in.
  destruct (append_fast_plain now (nonce_ctr e) (wal e) (next_tx_id e) [PutInlined id (encode doc)] false Hn) as (w' & Ew & Hn').
  set (e1 := e_with_wal w' (nonce_ctr e) (e_with_tx (next_tx_id e + 1) e)).
  eexists. split; [unfold mbind, SR_bind, get_st, modify, on_wal; cbn [nonce_ctr wal e_with_tx]; rewrite Ew; done|].
  assert (index (update_index_entry (idx e) id (Some (PInlined (encode doc)))) = <[id := PInlined (encode doc)]> (index (idx e))) as Hi.
  { exact (update_each_index (idx e) [(id, Some (PInlined (encode doc)))]). }
  destruct He as (Hs & Hc & Hp & Hx). split_and!; [split_and!|done|].
  - exact Hs.
  - exact Hc.
  - unfold ptrs_ok. change (map_Forall (λ _, ptr_ok e) (index (update_index_entry (idx e) id (Some (PInlined (encode doc)))))).
    rewrite Hi. by apply map_Forall_insert_2.
  - by apply update_index_entry_inv.
  - unfold store_view. change (omap (ptr_value e) (index (update_index_entry (idx e) id (Some (PInlined (encode doc))))) = <[id := encode doc]> (omap (ptr_value e) (index (idx e)))).
    rewrite Hi. by rewrite (omap_insert_Some (ptr_value e) (index (idx e)) id _ (encode doc)).
Qed.

(** A unique index refuses a document: its claims are not loaded yet, or another
    document holds the tuple of this one. *)
Definition refuses (l : UniqueLedger) (d : GateDef) (c id : bytes) (doc : HakoDoc) (x : HakoError) : Prop :=
  (is_ready l (gate_id d) = false ∧ x = IndexBackfilling c (gate_id d)) ∨
  ∃ tuple owner, obliges to_lowercase d id doc tuple ∧ holds l (gate_id d) tuple owner ∧ owner ≠ id ∧ x = UniqueViolation c (gate_id d) owner.
Lemma refuses_claims l l' d c id doc x : claims_of l = claims_of l' → refuses l d c id doc x → refuses l' d c id doc x.
Proof.
  intros E [[Hr ->]|(tuple & owner & Hob & Hh & Hne & ->)]; [left|right].
  - split; [|done]. unfold is_ready in *. apply bool_decide_eq_false in Hr. apply bool_decide_eq_false. intros [c' Hc]. apply Hr.
    assert (claims_of l' !! gate_id d = Some (fwd c', by_doc c')) as Hcl by (unfold claims_of; by rewrite lookup_fmap, Hc).
    rewrite <-E in Hcl. unfold claims_of in Hcl. rewrite lookup_fmap in Hcl. by destruct (inner l !! gate_id d).
  - exists tuple, owner. split; [done|]. split; [|done]. by rewrite <-(holds_claims l l').
Qed.
Lemma admit_one_ready c id doc d p h p' h' r i :
  admit_one to_lowercase c id doc d (p, h) = ((p', h'), r) → is_ready (unique_ledger h') i = is_ready (unique_ledger h) i.
Proof.
  unfold admit_one. rewrite (hm_bind_ok _ _ (p, h) (p, h) h) by done.
  destruct (negb (is_ready _ _)); [by intros [= <- <- <-]|]. destruct (negb (filter_passes _ _ _ _)); [by intros [= <- <- <-]|].
  destruct (document_values_of _ _ _) as [vs|]; [|by intros [= <- <- <-]].
  unfold on_ledger. destruct (claim _ _ _ _ _) as [[l u] r0] eqn:Hc. intros [= <- <- <-]. cbn. unfold claim in Hc.
  destruct (inner (unique_ledger h) !! gate_id d) as [cl|] eqn:Hi; [|by simplify_eq].
  destruct (fwd cl !! _) as [o|]; [by destruct (bytes_eqb o id); simplify_eq|].
  destruct (by_doc cl !! id); simplify_eq; unfold is_ready; cbn; apply bool_decide_ext;
    (destruct (decide (gate_id d = i)) as [<-|Hne]; [rewrite lookup_insert_eq, Hi; split; by eexists|by rewrite lookup_insert_ne]).
Qed.
Lemma admit_one_refused c id doc d p h p' h' x :
  ledger_ok (unique_ledger h) → admit_one to_lowercase c id doc d (p, h) = ((p', h'), Err x) → refuses (unique_ledger h) d c id doc x.
Proof.
  intros Hl. unfold admit_one. rewrite (hm_bind_ok _ _ (p, h) (p, h) h) by done.
  destruct (is_ready (unique_ledger h) (gate_id d)) eqn:Hr; cbn [negb]; [|intros [= _ _ <-]; by left].
  destruct (filter_passes to_lowercase (gate_def d) id doc) eqn:Hf; cbn [negb]; [|done].
  destruct (document_values_of (gate_def d) id doc) as [vs|] eqn:Hv; [|done]. unfold on_ledger.
  destruct (claim _ _ _ _ _) as [[l u] r0] eqn:Hc. unfold is_ready in Hr. apply bool_decide_eq_true in Hr as [cl Hcl].
  destruct (claim_cases _ _ _ _ _ _ _ _ _ Hl Hcl Hc) as [(-> & _)|(owner & Hne & Ho & -> & _)]; [done|]. intros [= _ _ <-]. right.
  exists (encode_composite_prefix (gate_def d) vs), owner. split_and!; try done.
  - split; [done|]. by exists vs.
  - by exists cl.
Qed.
Lemma admit_all_refused c id doc defs p h p' h' x :
  NoDup (gate_id <$> defs) → ledger_ok (unique_ledger h) → each (admit_one to_lowercase c id doc) defs (p, h) = ((p', h'), Err x) →
  ∃ d, d ∈ defs ∧ refuses (unique_ledger h) d c id doc x.
Proof.
  revert p h; induction defs as [|d defs IH]; intros p h Hnd Hl; cbn [each]; [done|].
  rewrite fmap_cons in Hnd. apply NoDup_cons in Hnd as [Hd Hnd].
  destruct (admit_one_spec to_lowercase c id doc d p h) as (p1 & h1 & r1 & E1 & Hn1 & S1 & L1). destruct r1 as [[]|y|]; [| |done].
  2: { rewrite (hm_bind_err _ _ _ _ _ E1). intros [= <- <- <-]. exists d. split; [left|]. by eapply admit_one_refused. }
  rewrite (hm_bind_ok _ _ _ _ _ E1). intros E. assert (ledger_ok (unique_ledger h1)) as Hl1 by (by apply S1).
  destruct (IH p1 h1 Hnd Hl1 E) as (d' & Hd' & Hr). exists d'. split; [by right|]. destruct Hr as [[Hr ->]|(tuple & owner & Hob & Hh & Hne & ->)].
  - left. by rewrite <-(admit_one_ready _ _ _ _ _ _ _ _ _ (gate_id d') E1).
  - right. exists tuple, owner. split_and!; try done. apply (proj2 (L1 Hl eq_refl)) in Hh; [done|by right].
Qed.

(** Admission at the destination changes claims only, and nothing when it fails. *)
Lemma admit_moved_spec c id doc h :
  state_ok to_lowercase h → NoDup (gate_ids h c) →
  ∃ h' r, admit_moved to_lowercase c id doc h = (h', r) ∧
    match r with
    | Ok _ => calm h h' ∧ gates_ok no_prep h' ∧ ledger_ok (unique_ledger h') ∧ FacadeFacts.admitted to_lowercase h h' c id (Some doc) ∧ shards h' = shards h
    | Err x => refused (last_ts_watermark h) h h' ∧ ∃ d, d ∈ unique_defs (Facade.composite h) c ∧ refuses (unique_ledger h') d c id doc x
    | Panic => False
    end.
Proof.
  intros Ho Hnd. unfold admit_moved, unique_gate_admit.
  destruct (gate_defs_spec c no_prep h (so_gates _ _ Ho)) as (p2 & h2 & E2 & G2 & S2 & M2 & A2 & L2 & Sh2 & U2).
  destruct (admit_all to_lowercase c id doc (unique_defs (Facade.composite h) c) p2 h2 Hnd) as (p3 & h3 & r3 & E3 & N3 & S3 & L3).
  rewrite (hm_bind_ok _ _ _ _ _ E2), E3. assert (gates_ok p3 h3) as G3 by (by apply (gate_step_gates (p2, h2) (p3, h3))).
  assert (prep_step (no_prep, h) (p3, h3)) as Hst by (transitivity (p2, h2); [done|apply S3]). pose proof (proj1 Hst) as C. cbn in C.
  assert (gates_ok no_prep h3) as G0 by (intros c' defs [Hx|Hx]; [done|apply G3; by right]).
  destruct r3 as [[]|x|]; [| |done]; eexists _, _; (split; [done|]).
  - split; [done|]. split; [done|]. split; [by apply (proj2 Hst), Ho|]. split; [|destruct S3 as (_ & _ & _ & _ & _ & Es); cbn in Es; congruence].
    intros Hl. assert (ledger_ok (unique_ledger h2)) as Hl2 by (by rewrite L2). destruct (L3 Hl2 eq_refl) as [B1 B2]. rewrite L2 in B2. split; [|done].
    intros doc' d q [= <-] Hd Hob. by apply B1.
  - pose proof (prep_rollback _ _ _ _ Hst eq_refl (so_ledger _ _ Ho)) as Hroll. split.
    + split; try done; try apply C; [apply Ho|]. intros c' Hc'. exact (plain_at_calm _ _ c' C Hc').
    + assert (ledger_ok (unique_ledger h2)) as Hl2 by (rewrite L2; apply Ho). destruct (admit_all_refused _ _ _ _ _ _ _ _ _ Hnd Hl2 E3) as (d & Hd & Hr).
      exists d. split; [done|]. eapply refuses_claims; [|exact Hr]. rewrite L2. symmetry. exact Hroll.
Qed.

(** The put at the destination, after its admission. *)
Lemma put_moved_spec now dst id doc e h :
  shards h !! dst = Some e → store_ok e → encryption (wal e) = None →
  ∃ h' e', put_moved now dst id doc [] h = (h', Ok tt) ∧ shards h' = <[dst := e']> (shards h) ∧ disk h' = disk h ∧ settings h' = settings h ∧
    last_ts_watermark h' = last_ts_watermark h ∧ claims h' = claims h ∧
    current h' = bumped_versions (global_version h) [id] (doc_versions h) ∧ doc_cache h' ⊆ doc_cache h ∧
    store_ok e' ∧ encryption (wal e') = None ∧ store_view e' = <[id := encode doc]> (store_view e).
Proof.
  intros He Hok Hn. destruct (move_in_spec now id doc e Hok Hn) as (e' & Em & He' & Hn' & Hv'). unfold put_moved.
  set (h2 := h_with_shards (<[dst := e']> (shards h)) (disk h) h).
  rewrite (hm_bind_ok _ _ h h2 tt) by (unfold on_shard; by rewrite He, Em).
  rewrite (hm_bind_ok _ _ h2 (bump_versions_by_keys [id] h2) tt) by done. rewrite bump_eq.
  change (global_version h2) with (global_version h). change (doc_versions h2) with (doc_versions h).
  destruct (bumped_versions (global_version h) [id] (doc_versions h)) as [g m]. set (h3 := touch_collection dst (h_with_versions g m h2)).
  rewrite (hm_bind_ok _ _ _ h3 tt) by done.
  rewrite (hm_bind_ok _ _ h3 (enqueue_index_update (mkIndexOp dst [(id, doc)] []) h3) tt) by done.
  destruct (enqueue_same (mkIndexOp dst [(id, doc)] []) h3) as ((A1 & A2 & A3 & A4 & A5) & V4 & G4 & D4 & _).
  set (h4 := enqueue_index_update _ h3) in *. clearbody h4.
  rewrite (hm_bind_ok _ _ h4 (uncache dst [id] h4) tt) by done.
  rewrite (hm_bind_ok _ _ _ (record_audit (mkAudit APut dst (Some id) true) (uncache dst [id] h4)) tt) by done.
  destruct (record_audit_same (mkAudit APut dst (Some id) true) (uncache dst [id] h4)) as [au ->].
  eexists _, e'. split; [done|]. split_and!; try done.
  - unfold current. cbn. by rewrite G4, V4.
  - cbn. rewrite D4. apply delete_subseteq.
Qed.

Lemma relocate_put_spec now dst id doc h :
  state_ok to_lowercase h → plain_at h dst → NoDup (gate_ids h dst) → small_doc (value_blob_threshold_bytes (config h)) doc →
  doc_encodable doc = true → global_version h + 1 < 2 ^ 64 →
  ∃ h' r, relocate_put from_secret to_lowercase now dst id doc h = (h', r) ∧ state_ok to_lowercase h' ∧ settings h' = settings h ∧
    last_ts_watermark h' = last_ts_watermark h ∧ (∀ c, plain_at h c → plain_at h' c) ∧
    match r with
    | Ok _ => global_version h' = global_version h + 1 ∧
        ∀ c, view_of h' c = if bool_decide (c = dst) then <[id := encode doc]> (view_of h dst) else view_of h c
    | Err x => (∃ d, d ∈ unique_defs (Facade.composite h) dst ∧ refuses (unique_ledger h') d dst id doc x) ∧ ∀ c, view_of h' c = view_of h c
    | Panic => False
    end.
Proof.
  intros Ho (e & He & Hn) Hnd Hsm Henc Hroom. unfold relocate_put. rewrite (hm_bind_ok _ _ h h h) by done.
  rewrite (hm_bind_ok _ _ h h e) by (unfold get_shard; by rewrite He).
  rewrite (hm_bind_ok _ _ _ _ _ (extract_small_shard dst id _ doc h e He Hsm)).
  destruct (admit_moved_spec dst id doc h Ho Hnd) as (h1 & r1 & E1 & Hr1). destruct r1 as [[]|x|]; [| |done].
  2: { destruct Hr1 as [Hr1 Hu]. rewrite (hm_bind_err _ _ _ _ _ E1). eexists _, (Err x). split; [done|]. split; [by eapply refused_state|].
       split; [apply Hr1|]. split; [apply Hr1|]. split; [intros c; apply Hr1|]. split; [done|]. intros c. apply Hr1, Ho. }
  rewrite (hm_bind_ok _ _ _ _ _ E1). destruct Hr1 as (C & G & L & Had & Esh).
  assert (store_ok e) as Hok by (by eapply (so_shards _ _ Ho)). assert (shards h1 !! dst = Some e) as He1 by (by rewrite Esh).
  destruct (put_moved_spec now dst id doc e h1 He1 Hok Hn) as (h5 & e' & E5 & S5 & D5 & T5 & W5 & C5 & V5 & Q5 & He' & Hn' & Hv').
  eexists h5, (Ok tt). split; [done|]. rewrite Esh in S5. pose proof (calm_outputs _ _ C) as Eo. unfold outputs in Eo. injection Eo as Eg Ev Ec _ _ _.
  rewrite Eg, Ev in V5. rewrite Ec in Q5. assert (settings h5 = settings h) as Eset by (rewrite T5; exact (calm_settings _ _ C)).
  destruct (calm_composite _ _ C) as [Ecm1 _]. assert (Facade.composite h5 = Facade.composite h) as Ecm by (clear -Eset; unfold settings in Eset; by injection Eset).
  unfold claims in C5. injection C5 as El Egc.
  assert (∀ c, view_of h5 c = if bool_decide (c = dst) then <[id := encode doc]> (view_of h dst) else view_of h c) as Hview.
  { intros c. unfold view_of. rewrite S5. case_bool_decide as Hc; [subst c; by rewrite lookup_insert_eq, He, Hv'|by rewrite lookup_insert_ne]. }
  assert (∀ c k, docs_of h5 c k = doc_step (docs_of h) (dst, id, Some doc) c k) as Hdocs.
  { intros c k. unfold docs_of, doc_step. rewrite Hview. cbn [fst snd]. case_bool_decide as Hc; case_bool_decide as Hk; simplify_eq; [| |done].
    - rewrite lookup_insert_eq. cbn. by apply decode_encode_doc.
    - rewrite lookup_insert_ne by congruence. done. }
  pose proof (bumped_spec [id] (global_version h) (doc_versions h) (so_counter _ _ Ho) ltac:(done)) as Hbs. rewrite <-V5 in Hbs. destruct Hbs as (Hg & _).
  split_and!; try done; [|rewrite W5; exact (calm_clock _ _ C)|].
  - apply (written_state to_lowercase [id] h h5); try done.
    + unfold shards_ok. rewrite S5. apply map_Forall_insert_2; [done|apply Ho].
    + intros c. unfold settled. rewrite D5. apply (calm_settled _ _ C), Ho.
    + intros c defs. rewrite Egc, Ecm, <-Ecm1. apply G.
    + by rewrite El.
    + eapply disjoint_settings; [exact Eset|apply Ho].
    + intros c k d. rewrite Hdocs, El, Ecm, <-Ecm1.
      apply (cover_admitted to_lowercase h h1 dst id (Some doc) (docs_of h)); [apply Ho|apply Ho|done|done|apply Ho].
    + intros c k Hk. rewrite Hdocs. unfold doc_step. cbn [fst snd]. rewrite bool_decide_eq_false_2; [done|]. intros [= _ ->]. apply Hk. left.
  - intros c (e0 & He0 & Hn0). unfold plain_at. rewrite S5. destruct (decide (c = dst)) as [->|Hc]; [rewrite lookup_insert_eq|rewrite lookup_insert_ne by done]; eauto.
Qed.

(** The retention record of a soft deletion at time [t] can be stored. *)
Definition record_fits h (c id : bytes) (t : Z) : Prop :=
  ∀ rid r, (SOFTDEL_COLLECTION, rid, Some r) ∈ soft_effect h t c id →
    small_doc (value_blob_threshold_bytes (config h)) r ∧ doc_encodable r = true.

Lemma soft_delete_fits nanos c id h :
  state_ok to_lowercase h → plain_at h c → plain_at h SOFTDEL_COLLECTION → NoDup (gate_ids h c) → id ≠ [] →
  record_fits h c id (stamp_of nanos (last_ts_watermark h)) → global_version h + 2 < 2 ^ 64 → batch_fits nanos [MutSoftDelete c id] h.
Proof.
  intros Ho Hp Hps Hnd Hid Hrec Hroom. set (t := stamp_of nanos (last_ts_watermark h)) in *.
  assert (zlen (soft_effect h t c id) <= 1) as Hz by (destruct (soft_effect_cases h t c id) as [->|(rid & r & ->)]; done).
  assert (∀ c' id' d, (c', id', Some d) ∈ soft_effect h t c id → small_doc (value_blob_threshold_bytes (config h)) d ∧ doc_encodable d = true) as Hr.
  { intros c' id' d Hin. apply (Hrec id' d). destruct (soft_effect_cases h t c id) as [E|(rid & r & E)]; rewrite E in *; [by apply not_elem_of_nil in Hin|].
    apply list_elem_of_singleton in Hin as [= -> -> ->]. by left. }
  split; [split_and!; [apply Ho| |apply Ho|]|].
  - apply Forall_singleton. split_and!; [apply Ho|done|]. intros id' es c' id'' d Hid' He Hin. injection He as <-. rewrite (Hid' Hid) in Hin.
    apply elem_of_app in Hin as [Hin|Hin%list_elem_of_singleton]; [by eapply Hr|done].
  - intros c' Hc'. cbn in Hc'. apply elem_of_cons in Hc' as [->|Hc'%list_elem_of_singleton]; [by split; [apply Ho|]|subst c'; by split; [apply Ho|]].
  - intros ids ess F. inversion F as [|m id' es ms ids' ess' [He Hid'] F' Em Ei Ee]; subst. inversion F'; subst. injection He as <-.
    rewrite (Hid' Hid). cbn [concat get_col is_softdel mut_id]. fold t. rewrite app_nil_r. split.
    + apply Forall_app. split; [|by repeat constructor]. apply Forall_forall. intros [[c' id''] od] Hin d Hd. cbn in Hd. subst od. by eapply Hr.
    + rewrite zlen_app. change (zlen [(c, id, @None HakoDoc)]) with 1. lia.
Qed.

Lemma soft_delete_spec now nanos c id h :
  state_ok to_lowercase h → read_only h = false → allowed h c ABatch = true → c ≠ SOFTDEL_COLLECTION →
  plain_at h c → plain_at h SOFTDEL_COLLECTION → NoDup (gate_ids h c) → id ≠ [] →
  record_fits h c id (stamp_of nanos (last_ts_watermark h)) → global_version h + 2 < 2 ^ 64 →
  ∃ h', hako_delete from_secret to_lowercase now nanos c id h = (h', Ok id) ∧ state_ok to_lowercase h' ∧ settings h' = settings h ∧
    last_ts_watermark h' = stamp_of nanos (last_ts_watermark h) ∧ (∀ c', plain_at h c' → plain_at h' c') ∧
    global_version h' <= global_version h + 2 ∧
    ∀ c' k, c' ≠ SOFTDEL_COLLECTION → view_of h' c' !! k = if bool_decide (c' = c ∧ k = id) then None else view_of h c' !! k.
Proof.
  intros Ho Hro Ha Hcs Hp Hps Hnd Hid Hrec Hroom. pose proof (soft_delete_fits nanos c id h Ho Hp Hps Hnd Hid Hrec Hroom) as Hf.
  unfold hako_delete, one_id, write_batch. unfold mbind at 1, SR_bind. rewrite Hro. cbn [forallb get_col]. rewrite Ha. cbn [andb negb].
  destruct (batch_preserves from_secret to_lowercase now nanos _ h Ho Hf) as (h1 & r & E & Ho1 & Hout). rewrite E.
  destruct (deletes_admitted from_secret to_lowercase now nanos _ h h1 r (proj1 Hf) eq_refl E) as [ids ->]. unfold audit_batch.
  destruct (outcome_counter _ _ _ _ _ _ Hout (so_counter _ _ Ho)) as (ess & F & Hc & Hg'). { intros i es Fe. by apply (proj2 Hf i es). }
  pose proof (proj2 (proj2 Hf ids ess F)) as Hroom'.
  inversion F as [|m id' es ms ids' ess' [He Hid'] F' Em Ei Ee]; subst. inversion F'; subst. injection He as <-. cbn [mut_id] in Hid'.
  rewrite (Hid' Hid) in *. eexists. split; [done|]. split; [by apply audit_state|].
  set (t := stamp_of nanos (last_ts_watermark h)) in *. cbn [concat get_col is_softdel] in Hc, Hg'. rewrite app_nil_r in Hc, Hg'.
  destruct (record_audit_same (mkAudit ABatch b#("<sharded>") None true) h1) as [x ->].
  assert (zlen (soft_effect h t c id) <= 1) as Hz by (destruct (soft_effect_cases h t c id) as [->|(rid & r & ->)]; done).
  split_and!; try apply Hc.
  - cbn. rewrite zlen_app in Hg'. change (zlen [(c, id, @None HakoDoc)]) with 1 in Hg'. lia.
  - intros c' k Hc'. change (view_of h1 c' !! k = if bool_decide (c' = c ∧ k = id) then None else view_of h c' !! k).
    rewrite (cm_view _ _ _ _ _ Hc c' (so_settled _ _ Ho c')).
    assert (effects_in c' (soft_effect h t c id ++ [(c, id, None)]) = if bool_decide (c' = c) then [(id, None)] else []) as Heff.
    { unfold effects_in. rewrite omap_app. destruct (soft_effect_cases h t c id) as [->|(rid & rr & ->)]; cbn; repeat case_bool_decide; simplify_eq; done. }
    unfold batch_vals. rewrite Heff. destruct (decide (c' = c)) as [->|Hne].
    + rewrite bool_decide_eq_true_2 by done. cbn. unfold vupd. cbn. destruct (decide (k = id)) as [->|Hk].
      * rewrite bool_decide_eq_true_2 by done. apply lookup_delete_eq.
      * rewrite bool_decide_eq_false_2 by (by intros []). by apply lookup_delete_ne.
    + rewrite !bool_decide_eq_false_2 by (try done; by intros []). done.
Qed.

(** Documents that can be moved: the collections are loaded and not encrypted, the
    caller may read and delete, the documents and their retention records up to the
    time [b] and one per document can be stored, the version counter has room. *)
Record movable (b : Z) (src dst : bytes) (ids : list bytes) h : Prop := {
  mv_state : state_ok to_lowercase h;
  mv_writable : read_only h = false;
  mv_get : allowed h src AGet = true;
  mv_batch : allowed h src ABatch = true;
  mv_src : plain_at h src;
  mv_dst : plain_at h dst;
  mv_softdel : plain_at h SOFTDEL_COLLECTION;
  mv_gates_src : NoDup (gate_ids h src);
  mv_gates_dst : NoDup (gate_ids h dst);
  mv_room : global_version h + 4 * zlen ids < 2 ^ 64;
  mv_clock : 0 <= last_ts_watermark h <= b;
  mv_docs : ∀ id d, id ∈ ids → docs_of h src id = Some d →
    id ≠ [] ∧ link_free d ∧ small_doc (value_blob_threshold_bytes (config h)) d ∧ doc_encodable d = true;
  mv_records : ∀ id t, id ∈ ids → 0 <= t <= b + zlen ids → record_fits h src id t }.

Lemma bump_state id h :
  state_ok to_lowercase h → global_version h + 1 < 2 ^ 64 →
  state_ok to_lowercase (bump_versions_by_keys [id] h) ∧ global_version (bump_versions_by_keys [id] h) = global_version h + 1.
Proof.
  intros Ho Hroom. pose proof (bumped_spec [id] (global_version h) (doc_versions h) (so_counter _ _ Ho) Hroom) as Hb. rewrite bump_eq.
  destruct (bumped_versions (global_version h) [id] (doc_versions h)) as [g m] eqn:E. destruct Hb as (-> & _). split; [|done].
  destruct Ho as [O1 O2 O3 O4 O5 O6 O7 O8 O9]. apply (written_state to_lowercase [id] h); try done.
Qed.

(** One document less to move. *)
Lemma movable_next b src dst id ids h h' :
  movable b src dst (id :: ids) h → id ∉ ids → state_ok to_lowercase h' → settings h' = settings h → (∀ c, plain_at h c → plain_at h' c) →
  global_version h' <= global_version h + 4 → 0 <= last_ts_watermark h' <= b + 1 →
  (∀ k, k ≠ id → view_of h' src !! k = view_of h src !! k) → movable (b + 1) src dst ids h'.
Proof.
  intros Hm Hni Ho S P G T V. pose proof S as S'. unfold settings in S'. injection S' as E1 E2 E3 E4 _ _ E7.
  destruct Hm as [M1 M2 M3 M4 M5 M6 M7 M8 M9 M10 M11 M12 M13]. rewrite zlen_cons in *. pose proof (zlen_nonneg ids).
  assert (∀ k, k ∈ ids → k ≠ id) as Hki by (by intros k Hk ->).
  split; unfold gate_ids, allowed in *; rewrite ?E2, ?E3, ?E4, ?E7; auto; [lia| |].
  - intros k d Hk. unfold docs_of. rewrite V, E1 by auto. apply M12. by right.
  - intros k t' Hk Ht' rid r. unfold soft_effect. rewrite V, E1 by auto. apply (M13 k t'); [by right|lia].
Qed.

Lemma relocate_one_spec now nanos b src dst id ids doc h :
  movable b src dst (id :: ids) h → src ≠ dst → src ≠ SOFTDEL_COLLECTION → dst ≠ SOFTDEL_COLLECTION → NoDup (id :: ids) →
  nanos / 1000 <= b → docs_of h src id = Some doc →
  ∃ h' r, relocate_one from_secret to_lowercase now nanos src dst id doc h = (h', r) ∧ settings h' = settings h ∧
    match r with
    | Ok _ => movable (b + 1) src dst ids h' ∧ ∀ c k, c ≠ SOFTDEL_COLLECTION → docs_of h' c k = after_move src dst [id] (docs_of h) c k
    | Err x => state_ok to_lowercase h' ∧ (∃ d, d ∈ unique_defs (Facade.composite h) dst ∧ refuses (unique_ledger h') d dst id doc x) ∧ ∀ c k, docs_of h' c k = docs_of h c k
    | Panic => False
    end.
Proof.
  intros Hm Hsd Hss Hds Hnd Hb Hdoc. pose proof (mv_room _ _ _ _ _ Hm) as Hroom. rewrite zlen_cons in Hroom. pose proof (zlen_nonneg ids).
  destruct (mv_docs _ _ _ _ _ Hm id doc ltac:(left) Hdoc) as (Hid & Hlf & Hsm & Henc).
  destruct (relocate_put_spec now dst id doc h) as (h1 & r1 & E1 & Ho1 & S1 & T1 & P1 & R1); [apply Hm|apply Hm|apply Hm|done|done|lia|].
  unfold relocate_one. destruct r1 as [[]|x|]; [| |done].
  2: { rewrite (hm_bind_err _ _ _ _ _ E1). eexists _, _. split; [done|]. split; [done|]. split; [done|]. split; [apply R1|]. intros c k. unfold docs_of. by rewrite (proj2 R1). }
  rewrite (hm_bind_ok _ _ _ _ _ E1). destruct R1 as [G1 V1].
  pose proof S1 as S1'. unfold settings in S1'. injection S1' as Ec1 Er1 En1 Ero1 _ _ Ecm1.
  assert (view_of h1 src = view_of h src) as Vs by (rewrite V1, bool_decide_eq_false_2; done).
  assert (∀ t, soft_effect h1 t src id = soft_effect h t src id) as Hse by (intros t; unfold soft_effect; by rewrite Ec1, Vs).
  set (t := stamp_of nanos (last_ts_watermark h)). pose proof (mv_clock _ _ _ _ _ Hm) as Hclk.
  assert (0 <= t <= b + 1) as Ht by (unfold t, stamp_of; split_if; lia).
  destruct (soft_delete_spec now nanos src id h1) as (h2 & E2 & Ho2 & S2 & T2 & P2 & G2 & V2); try done.
  { rewrite Ero1. apply Hm. } { unfold allowed. rewrite Er1, En1. apply Hm. } { apply P1, Hm. } { apply P1, Hm. }
  { unfold gate_ids. rewrite Ecm1. apply Hm. }
  { intros rid r. rewrite T1, Hse, Ec1. apply (mv_records _ _ _ _ _ Hm id); [left|]. fold t. rewrite zlen_cons. lia. } { lia. }
  rewrite (hm_bind_ok _ _ _ _ _ E2). eexists _, (Ok tt). split; [done|].
  destruct (bump_state id h2 Ho2 ltac:(lia)) as [Ho3 G3]. rewrite bump_eq in *.
  destruct (bumped_versions (global_version h2) [id] (doc_versions h2)) as [g m]. set (h3 := h_with_versions g m h2) in *.
  assert (settings h3 = settings h) as S3 by (change (settings h2 = settings h); congruence).
  assert (∀ c k, c ≠ SOFTDEL_COLLECTION → docs_of h3 c k = after_move src dst [id] (docs_of h) c k) as Hdocs.
  { intros c k Hc. change (docs_of h3 c k) with (docs_of h2 c k). unfold docs_of at 1. rewrite V2 by done. unfold after_move.
    destruct (decide (k = id)) as [->|Hk].
    - rewrite (bool_decide_eq_true_2 (id ∈ [id])) by left. rewrite Hdoc. destruct (decide (c = src)) as [->|Hcs].
      + by rewrite !bool_decide_eq_true_2.
      + rewrite bool_decide_eq_false_2 by (by intros []). rewrite (bool_decide_eq_false_2 (c = src)) by done. rewrite V1.
        case_bool_decide; [|done]. rewrite lookup_insert_eq. by apply decode_encode_doc.
    - rewrite bool_decide_eq_false_2 by (by intros []). rewrite (bool_decide_eq_false_2 (k ∈ [id])) by (by rewrite list_elem_of_singleton).
      rewrite V1. case_bool_decide; [subst c; by rewrite lookup_insert_ne|done]. }
  split; [done|]. split; [|done]. apply NoDup_cons in Hnd as [Hni Hnd]. apply (movable_next b src dst id ids h); try done.
  - intros c Hc. by apply P2, P1.
  - rewrite G3. lia.
  - change (last_ts_watermark h3) with (last_ts_watermark h2). rewrite T2, T1. fold t. lia.
  - intros k Hk. change (view_of h2 src !! k = view_of h src !! k). rewrite V2, bool_decide_eq_false_2 by (done || by intros []). by rewrite Vs.
Qed.

Lemma movable_same b src dst ids id h h' :
  movable b src dst (id :: ids) h → state_ok to_lowercase h' → (∀ c, view_of h' c = view_of h c) → current h' = current h →
  settings h' = settings h → last_ts_watermark h' = last_ts_watermark h → (∀ c, plain_at h c → plain_at h' c) →
  movable b src dst (id :: ids) h' ∧ movable b src dst ids h'.
Proof using Type.
  intros Hm Ho' V C S T P. pose proof S as S'. unfold settings in S'. injection S' as E1 E2 E3 E4 _ _ E7. unfold current in C. injection C as C _.
  assert (movable b src dst (id :: ids) h') as Hm'.
  { destruct Hm as [M1 M2 M3 M4 M5 M6 M7 M8 M9 M10 M11 M12 M13]. split; unfold gate_ids, allowed, record_fits, soft_effect, docs_of in *;
      rewrite ?E1, ?E2, ?E3, ?E4, ?E7, ?V, ?C, ?T; auto. }
  split; [done|]. destruct Hm' as [M1 M2 M3 M4 M5 M6 M7 M8 M9 M10 M11 M12 M13]. rewrite zlen_cons in *. split; try done; [lia| |].
  - intros k d Hk. apply M12. by right.
  - intros k t Hk Ht. apply M13; [by right|lia].
Qed.

Definition found h (src id : bytes) : bool := match docs_of h src id with Some _ => true | None => false end.

Lemma relocate_loop_spec now nanos free b src dst ids report h :
  movable b src dst ids h → src ≠ dst → src ≠ SOFTDEL_COLLECTION → dst ≠ SOFTDEL_COLLECTION → NoDup ids → (∀ i, nanos i / 1000 <= b) →
  ∃ h' r, relocate_loop from_secret to_lowercase now nanos free src dst ids report h = (h', r) ∧ state_ok to_lowercase h' ∧ settings h' = settings h ∧
    match r with
    | Ok rep =>
        rep = mkRelocated (moved report ++ List.filter (found h src) ids) (missing report ++ List.filter (λ id, negb (found h src id)) ids) ∧
        ∀ c k, c ≠ SOFTDEL_COLLECTION → docs_of h' c k = after_move src dst ids (docs_of h) c k
    | Err x => ∃ before id after doc d, ids = before ++ id :: after ∧ docs_of h src id = Some doc ∧
        d ∈ unique_defs (Facade.composite h) dst ∧ refuses (unique_ledger h') d dst id doc x ∧
        ∀ c k, c ≠ SOFTDEL_COLLECTION → docs_of h' c k = after_move src dst before (docs_of h) c k
    | Panic => False
    end.
Proof.
  revert b nanos report h; induction ids as [|id ids IH]; intros b nanos report h Hm Hsd Hss Hds Hnd Hb; cbn [relocate_loop].
  { eexists _, (Ok report). split; [done|]. split; [apply Hm|]. split; [done|]. split; [|done]. cbn. rewrite !app_nil_r. by destruct report. }
  destruct (hako_get_spec from_secret to_lowercase now free src id h (mv_state _ _ _ _ _ Hm) (mv_get _ _ _ _ _ Hm)) as (h1 & E1 & O1 & V1 & _ & C1 & S1 & T1 & P1).
  { intros d Hd. by apply (mv_docs _ _ _ _ _ Hm id d ltac:(left)). }
  rewrite (hm_bind_ok _ _ _ _ _ E1). destruct (movable_same _ _ _ _ _ _ _ Hm O1 V1 C1 S1 T1 P1) as [Hm1 Hm1'].
  assert (∀ c k, docs_of h1 c k = docs_of h c k) as D1 by (intros c k; unfold docs_of; by rewrite V1).
  assert (∀ k, found h1 src k = found h src k) as F1 by (intros k; unfold found; by rewrite D1). apply NoDup_cons in Hnd as [Hni Hnd].
  assert (∀ l c k, after_move src dst l (docs_of h1) c k = after_move src dst l (docs_of h) c k) as A1 by (intros l c k; unfold after_move; by rewrite !D1).
  assert (Facade.composite h1 = Facade.composite h) as M1 by (clear -S1; unfold settings in S1; by injection S1).
  destruct (docs_of h src id) as [doc|] eqn:Hdoc.
  - destruct (relocate_one_spec now (nanos O) b src dst id ids doc h1 Hm1 Hsd Hss Hds) as (h2 & r2 & E2 & S2 & R2); [by constructor|done|by rewrite D1|].
    destruct r2 as [[]|x|]; [| |done].
    2: { rewrite (hm_bind_err _ _ _ _ _ E2). eexists _, (Err x). split; [done|]. split; [apply R2|]. split; [congruence|].
         destruct R2 as (_ & (d & Hd & Hr) & R2). rewrite M1 in Hd. exists [], id, ids, doc, d. split_and!; try done. intros c k _. by rewrite R2, D1. }
    rewrite (hm_bind_ok _ _ _ _ _ E2). destruct R2 as [Hm2 D2].
    destruct (IH (b + 1) (λ i, nanos (S i)) (mkRelocated (moved report ++ [id]) (missing report)) h2 Hm2 Hsd Hss Hds Hnd) as (h3 & r3 & E3 & O3 & S3 & R3).
    { intros i. specialize (Hb (S i)). lia. }
    assert (∀ k, k ≠ id → docs_of h2 src k = docs_of h src k) as D2'.
    { intros k Hk. rewrite D2 by done. unfold after_move. rewrite (bool_decide_eq_false_2 (k ∈ [id])) by (by rewrite list_elem_of_singleton). apply D1. }
    assert (∀ f, List.filter (λ k, f (found h2 src k)) ids = List.filter (λ k, f (found h src k)) ids) as F2.
    { intros f. apply List.filter_ext_in. intros k Hk%list_elem_of_In. unfold found. rewrite D2'; [done|]. by intros ->. }
    eexists h3, r3. split; [exact E3|]. split; [done|]. split; [congruence|].
    assert (∀ c k, c ≠ SOFTDEL_COLLECTION → docs_of h2 c k = after_move src dst [id] (docs_of h) c k) as D2h by (intros c k Hc; by rewrite D2, A1).
    destruct r3 as [rep|x|]; [| |done].
    + destruct R3 as [-> R3]. split; [|by apply (after_move_cons src dst id ids (docs_of h) (docs_of h2))].
      cbn [moved missing List.filter]. assert (found h src id = true) as -> by (unfold found; by rewrite Hdoc). cbn [negb]. rewrite (F2 negb), <-app_assoc. pose proof (F2 (λ x, x)) as F2i. cbn beta in F2i. change (List.filter (found h2 src) ids = List.filter (found h src) ids) in F2i. by rewrite F2i.
    + destruct R3 as (bef & id' & aft & doc' & d & -> & Hf & Hd & Hr & R3). exists (id :: bef), id', aft, doc', d. split; [done|].
      assert (Facade.composite h2 = Facade.composite h1) as M2 by (clear -S2; unfold settings in S2; by injection S2). rewrite M2, M1 in Hd.
      apply not_elem_of_app in Hni as [Hni Hni']. split; [rewrite <-D2'; [done|]; intros ->; apply Hni'; left|]. split; [done|]. split; [done|].
      by apply (after_move_cons src dst id bef (docs_of h) (docs_of h2)).
  - destruct (IH b (λ i, nanos (S i)) (mkRelocated (moved report) (missing report ++ [id])) h1 Hm1' Hsd Hss Hds Hnd) as (h3 & r3 & E3 & O3 & S3 & R3); [done|].
    eexists h3, r3. split; [exact E3|]. split; [done|]. split; [congruence|].
    destruct r3 as [rep|x|]; [| |done].
    + destruct R3 as [-> R3]. split.
      * cbn [moved missing List.filter]. assert (found h src id = false) as -> by (unfold found; by rewrite Hdoc). cbn [negb]. rewrite <-app_assoc.
        rewrite (List.filter_ext (found h1 src) (found h src) F1), (List.filter_ext (λ k, negb (found h1 src k)) (λ k, negb (found h src k))) by (intros k; by rewrite F1). done.
      * intros c k Hc. rewrite R3, A1 by done. by rewrite after_move_absent.
    + destruct R3 as (bef & id' & aft & doc' & d & -> & Hf & Hd & Hr & R3). rewrite M1 in Hd. rewrite D1 in Hf.
      exists (id :: bef), id', aft, doc', d. split; [done|]. split; [done|]. split; [done|]. split; [done|].
      intros c k Hc. rewrite R3, A1 by done. by rewrite after_move_absent.
Qed.

(** The conditions that a move checks before it starts. *)
Definition may_move (m : Marks) h (src dst : bytes) : Prop :=
  Forall (λ c, is_sync_withheld h c = false ∧ is_collection_local m c = false) [src; dst] ∧
  allowed h src ADelete = true ∧ allowed h dst APut = true.

(** C9: Moving documents to another collection moves exactly the documents that are
    there: each is at the destination with its fields and its time stamp, replaces
    the one with its id there, and is gone from the source; nothing else changes but
    the retention records, and the report names the moved and the missing ids.  The
    move stops only where a unique index of the destination refuses the next document,
    because its claims are not loaded or another document holds the tuple; then the
    documents before it have been moved and the others, this one included, are where
    they were.  This is for distinct ids of [movable] documents, without links and below the blob
    threshold, in collections that are loaded and not encrypted, and for rules that
    allow a batch at the source (when they do not, the move stops halfway,
    [move_denied_halfway]). *)
Theorem relocate_moves m now nanos free b src dst ids h :
  movable b src dst ids h → may_move m h src dst → src ≠ dst → src ≠ SOFTDEL_COLLECTION → dst ≠ SOFTDEL_COLLECTION → NoDup ids →
  (∀ i, nanos i / 1000 <= b) →
  ∃ h' r, relocate_docs from_secret to_lowercase m now nanos free src dst ids h = (h', r) ∧ state_ok to_lowercase h' ∧
    match r with
    | Ok rep =>
        rep = mkRelocated (List.filter (found h src) ids) (List.filter (λ id, negb (found h src id)) ids) ∧
        ∀ c id, c ≠ SOFTDEL_COLLECTION → docs_of h' c id = after_move src dst ids (docs_of h) c id
    | Err x => ∃ before id after doc d, ids = before ++ id :: after ∧ docs_of h src id = Some doc ∧
        d ∈ unique_defs (Facade.composite h) dst ∧ refuses (unique_ledger h') d dst id doc x ∧
        ∀ c k, c ≠ SOFTDEL_COLLECTION → docs_of h' c k = after_move src dst before (docs_of h) c k
    | Panic => False
    end.
Proof.
  intros Hm (Hg & Hd & Hp) Hsd Hss Hds Hnd Hb. unfold relocate_docs.
  destruct (bytes_eqb src dst) eqn:Heq; [by apply bytes_eqb_eq in Heq|]. rewrite (hm_bind_ok _ _ h h h) by done.
  rewrite (mv_writable _ _ _ _ _ Hm). repeat apply Forall_cons in Hg as [[? ?] Hg]. cbn [existsb].
  repeat match goal with Hx : ?x = false |- context [?x] => rewrite Hx end. cbn [orb].
  rewrite Hd, Hp, (mv_get _ _ _ _ _ Hm). cbn [negb orb].
  destruct (relocate_loop_spec now nanos free b src dst ids (mkRelocated [] []) h) as (h' & r & E & O & _ & R); try done.
  exists h', r. done.
Qed.
End Relocate.

(** ** A concrete move *)

Definition OLD : bytes := b#("old").
Definition no_marks : Marks := mkMarks ∅ ∅.
(** The users, and a loaded collection for old ones. *)
Definition with_old : Hako (cipher := unit) := (get_shard demo_secret 0 OLD with_users).1.
Abbreviation relocate := (relocate_docs demo_secret Datatypes.id no_marks 0).

Lemma old_state : state_ok Datatypes.id with_old.
Proof.
  destruct (get_shard_spec demo_secret 0 OLD with_users) as (h' & e & E & Q & _); [apply users_state|apply users_state|].
  unfold with_old. rewrite E. by eapply quiet_state; [apply users_state|].
Qed.

Definition fits_b (h : Hako (cipher := unit)) (d : HakoDoc) : bool :=
  forallb (λ kv, len_bytes kv.2 <=? value_blob_threshold_bytes (config h)) (fields d) && doc_encodable d.
Lemma fits_b_spec h d : fits_b h d = true → small_doc (value_blob_threshold_bytes (config h)) d ∧ doc_encodable d = true.
Proof.
  unfold fits_b, small_doc. intros [Hs He]%andb_true_iff. split; [|done]. apply Forall_forall. intros kv Hin.
  rewrite forallb_forall in Hs. specialize (Hs kv (proj1 (list_elem_of_In _ _) Hin)). lia.
Qed.

Lemma u1_movable : movable Datatypes.id 7 USERS OLD [b#("u1"); b#("u9")] with_old.
Proof.
  split.
  - exact old_state.
  - reflexivity.
  - reflexivity.
  - reflexivity.
  - exists (default (demo_col USERS) (shards with_old !! USERS)). split; vm_compute; reflexivity.
  - exists (default (demo_col OLD) (shards with_old !! OLD)). split; vm_compute; reflexivity.
  - exists (default (demo_col OLD) (shards with_old !! SOFTDEL_COLLECTION)). split; vm_compute; reflexivity.
  - vm_compute. repeat constructor. by intros ?%elem_of_nil.
  - vm_compute. constructor.
  - vm_compute. reflexivity.
  - vm_compute. split; congruence.
  - intros id d [->|[->|[]%elem_of_nil]%elem_of_cons]%elem_of_cons Hd; [|vm_compute in Hd; discriminate Hd].
    assert (d = u1_doc) as -> by (revert Hd; vm_compute; by intros [= <-]).
    destruct (fits_b_spec with_old u1_doc) as [Hs He]; [vm_compute; reflexivity|]. split_and!; [done|vm_compute; reflexivity|done|done].
  - intros id t Hid Ht rid r Hr. apply fits_b_spec. assert (t ∈ seqZ 0 10) as Hin by (apply elem_of_seqZ; change (zlen _) with 2 in Ht; lia).
    assert (forallb (λ t, forallb (λ id, forallb (λ x : bytes * bytes * option HakoDoc, match x.2 with Some r => fits_b with_old r | None => true end)
        (soft_effect with_old t USERS id)) [b#("u1"); b#("u9")]) (seqZ 0 10) = true) as Hall by (vm_compute; reflexivity).
    rewrite forallb_forall in Hall. specialize (Hall t (proj1 (list_elem_of_In _ _) Hin)). rewrite forallb_forall in Hall.
    specialize (Hall id (proj1 (list_elem_of_In _ _) Hid)). rewrite forallb_forall in Hall. exact (Hall _ (proj1 (list_elem_of_In _ _) Hr)).
Qed.

Lemma relocate_moves_witness :
  ∃ h', relocate (λ _, 7000) true USERS OLD [b#("u1"); b#("u9")] with_old = (h', Ok (mkRelocated [b#("u1")] [b#("u9")])) ∧
    docs_of h' OLD b#("u1") = Some u1_doc ∧ docs_of h' USERS b#("u1") = None.
Proof.
  destruct (relocate_moves demo_secret Datatypes.id no_marks 0 (λ _, 7000) true 7 USERS OLD [b#("u1"); b#("u9")] with_old) as (h' & r & E & _ & R).
  - exact u1_movable.
  - split; [repeat constructor|split]; vm_compute; reflexivity.
  - done.
  - done.
  - done.
  - apply (bool_decide_unpack _). vm_compute. exact I.
  - intros i. vm_compute. congruence.
  - destruct r as [rep|x|]; [| |destruct R].
    + destruct R as [R D]. exists h'. rewrite E, R, (D OLD), (D USERS) by done. split_and!; vm_compute; reflexivity.
    + destruct R as (bef & id & aft & doc & d & _ & _ & Hd & _). exfalso.
      assert (unique_defs (Facade.composite with_old) OLD = []) as Hu by (vm_compute; reflexivity). rewrite Hu in Hd. by apply not_elem_of_nil in Hd.
Defined.

(** ** Unloading and loading *)

Section Unload.
Context `{CrcLaws} `{ZstdLaws} `{HashIterLaws} {cipher : Type} `{AeadLaws cipher}.
Context (from_secret : bytes → EncryptionContext cipher) (to_lowercase : bytes → bytes).
Abbreviation Hako := (Hako (cipher := cipher)).
Implicit Types (h : Hako) (e : StorageEngine cipher).

(** A collection that can be closed: no value waits for the blob file, every key and
    value fits a record of the log, and nothing is encrypted. *)
Record closable e : Prop := {
  cl_ok : store_ok e;
  cl_uniform : uniform None e;
  cl_queue : blob_flush_queue e = [];
  cl_settled : snapshot_ptr e <$> index (idx e) = index (idx e);
  cl_records : forallb op_ok (snapshot_op e <$> hash_iter (index (idx e))) = true }.

Lemma drain_nothing e : blob_flush_queue e = [] → drain_blob_queue e = (e, Ok tt).
Proof. intros Hq. unfold drain_blob_queue. destruct (blob_manager e) eqn:Hb; [|done]. rewrite Hq. cbn. destruct e; cbn in *; by subst. Qed.

Lemma rewrite_plain now e :
  encryption (wal e) = None → ∃ w c, rewrite_wal_snapshot now e = (e_with_wal w c e, Ok tt) ∧ encryption w = None.
Proof.
  intros Hn. unfold rewrite_wal_snapshot, wal_step, on_wal, mbind, SR_bind, modify, get_st. cbn beta iota zeta. cbn [wal e_with_wal].
  destruct (append_batch_plain now (nonce_ctr e) (reset (wal e)) (snapshot_op (e_with_wal (reset (wal e)) (nonce_ctr e) e) <$> hash_iter (index (idx e))) false) as [w Ew]; [done|].
  exists w, (nonce_ctr e). cbn [nonce_ctr idx e_with_wal]. rewrite Ew. split; [done|]. apply append_batch_encryption in Ew. by rewrite Ew.
Qed.

Lemma flush_all_spec now e D B :
  store_ok e → uniform None e → blob_flush_queue e = [] → eng_log e D B →
  ∃ e', flush_all now e = (e', Ok tt) ∧ store_ok e' ∧ uniform None e' ∧ eng_log e' (D ++ B) [] ∧
    store_view e' = store_view e ∧ index (idx e') = index (idx e).
Proof.
  intros He Hu Hq (Hw & Hi & Hx). unfold flush_all. rewrite (hm_bind_ok _ _ _ _ _ (drain_nothing e Hq)), (hm_bind_ok _ _ e e e) by done.
  assert (∀ e1, store_ok e1 → uniform None e1 → wal e1 = wal e → idx e1 = idx e → store_view e1 = store_view e →
    ∃ e', wal_step (flush now) e1 = (e', Ok tt) ∧ store_ok e' ∧ uniform None e' ∧ eng_log e' (D ++ B) [] ∧
      store_view e' = store_view e ∧ index (idx e') = index (idx e)) as Hend.
  { intros e1 He1 (U1 & U2 & U3 & U4) Ew Ei Ev. eexists. split; [done|]. split_and!; try done; cbn [wal e_with_wal idx].
    - unfold flush. by destruct (write_buffer (wal e1)).
    - split_and!; cbn [wal e_with_wal idx]; [rewrite Ew; by apply flush_inv|by rewrite Ei|by rewrite Ei, app_nil_r].
    - by rewrite Ei. }
  destruct (segments e !! active_segment_id e) as [[l s]|] eqn:Ha; [|by apply Hend].
  destruct He as (Hsegs & Hrest). destruct (Hsegs _ _ _ Ha) as (_ & _ & [f Hf]).
  assert (seg_flush s = Ok (seg_with_file (Some (f_sync f)) s)) as Hfl by (unfold seg_flush; by rewrite Hf).
  pose proof (seg_flush_extends _ _ Hfl) as Hex.
  destruct (extend_segment_ok e (active_segment_id e) l s l _ (nonce_ctr e) (conj Hsegs Hrest) Ha Hex) as (He1 & Hv1 & _).
  rewrite (hm_bind_ok _ _ e (e_with_segments (<[active_segment_id e := (l, seg_with_file (Some (f_sync f)) s)]> (segments e)) (active_segment_id e) (next_segment_id e) e) tt).
  2: { unfold mbind, SR_bind, lift. by rewrite Hfl. }
  apply Hend; try done. destruct Hu as (U1 & U2 & U3 & U4). split_and!; try done. intros sid l1 s1. cbn [segments e_with_segments].
  rewrite lookup_insert_Some. intros [[<- [= <- <-]]|[_ Hx1]]; [|by apply U4]. by apply U4 in Ha.
Qed.

Lemma close_shard_spec now e :
  closable e → ∃ e' D, close_shard now e = (e', Ok tt) ∧ store_ok e' ∧ uniform None e' ∧ eng_log e' D [] ∧
    store_view e' = store_view e ∧ index (idx e') = index (idx e).
Proof.
  intros [He Hu Hq Hs Hr]. unfold close_shard, ignored.
  rewrite (hm_bind_ok _ _ e e tt) by (by rewrite drain_nothing).
  destruct (rewrite_plain now e) as (w & c & Erw & Hn); [apply Hu|]. rewrite (hm_bind_ok _ _ e (e_with_wal w c e) tt) by (by rewrite Erw).
  destruct (rewrite_wal_snapshot_log _ _ _ Hr Erw) as (_ & D & B & Hw & Hx). rewrite Hs in Hx. destruct Hu as (U1 & U2 & U3 & U4).
  destruct (flush_all_spec now (e_with_wal w c e) D B) as (e' & E & O & U & L & V & I); try done.
  { split_and!; [done|apply He|by rewrite Hx]. }
  exists e', (D ++ B). by rewrite E.
Qed.

Lemma forget_docs_none c h id : doc_cache (forget_docs c h) !! cache_key c id = None.
Proof.
  cbn. apply map_lookup_filter_None_2. right. intros x _ Hx. cbn in Hx.
  assert (starts_with (cache_key c id) (c ++ [0]) = true) as Hy; [|congruence].
  apply starts_with_prefix. exists id. unfold cache_key. by rewrite <-app_assoc.
Qed.

(** C10: Unloading a collection loses nothing: a lazy collection is closed, leaves
    memory and the document cache, and the next use opens it from its files with
    every document and every tombstone it had; the other collections, the versions
    and the claims of unique indexes are as they were. *)
Theorem unload_reload now now' c (f : Front (cipher := cipher)) e :
  let h := db f in
  state_ok to_lowercase h → is_lazy_collection h c = true → shards h !! c = Some e → closable e →
  get_encryption_for_col from_secret (config h) c = None →
  ∃ f1 h2, unload_collection now c f = (f1, Ok tt) ∧ shards (db f1) !! c = None ∧
    (∀ id, doc_cache (db f1) !! cache_key c id = None) ∧
    load_collection from_secret now' c (db f1) = (h2, Ok tt) ∧ state_ok to_lowercase h2 ∧
    (∀ c', view_of h2 c' = view_of h c') ∧ (∀ c', index_of h2 c' = index_of h c') ∧ current h2 = current h ∧ claims h2 = claims h.
Proof.
  intros h Ho Hl He Hc Hen. destruct (close_shard_spec now e Hc) as (e1 & D & E1 & O1 & U1 & L1 & V1 & I1).
  pose proof (so_settled _ _ Ho c) as Hs. unfold settled in Hs.
  set (h1 := h_with_shards (base.delete c (shards h)) (<[c := dir_of e1]> (disk h)) h).
  assert (on_db (evict_shard c (close_shard now)) f = (with_db h1 f, Ok tt)) as Ee by (unfold on_db, evict_shard; fold h; by rewrite He, E1).
  destruct (reopen_view e1 D (config h) c None now' O1 L1 U1) as (e2 & E2 & O2 & V2 & I2 & _).
  eexists (mkFront (forget_docs c h1) (others f) (invalidate (plan_cache f)) (indexes_ready f) (backfill_inflight f)), _.
  split; [|split; [|split; [|split]]].
  - unfold unload_collection. rewrite (hm_bind_ok _ _ f f f) by done. fold h. rewrite Hl, He. cbn [negb]. rewrite (hm_bind_ok _ _ _ _ _ Ee).
    by rewrite (hm_bind_ok _ _ (with_db h1 f) (with_db (forget_docs c h1) f) tt).
  - cbn. apply lookup_delete_eq.
  - intros id. apply forget_docs_none.
  - unfold load_collection, get_shard. unfold mbind, SR_bind. cbn [db forget_docs h_with_cache h1 h_with_shards shards disk config].
    rewrite lookup_delete_eq, lookup_insert_eq. cbn [default from_option]. unfold Datatypes.id. rewrite Hen, E2. done.
  - cbn [db forget_docs h_with_cache h1 h_with_shards shards disk].
    rewrite insert_delete_eq, delete_insert_id by done. set (h2 := h_with_shards _ _ _).
    assert (∀ c', view_of h2 c' = view_of h c') as Hv.
    { intros c'. unfold view_of. cbn. destruct (decide (c' = c)) as [->|Hne]; [|by rewrite lookup_insert_ne]. rewrite lookup_insert_eq, He. congruence. }
    assert (∀ c', index_of h2 c' = index_of h c') as Hi.
    { intros c'. unfold index_of. cbn. destruct (decide (c' = c)) as [->|Hne]; [|by rewrite lookup_insert_ne]. rewrite lookup_insert_eq, He. congruence. }
    split_and!; try done. apply (kept_state to_lowercase h h2); try done.
    + apply map_Forall_insert_2; [done|apply Ho].
    + apply Ho.
    + cbn. apply map_filter_subseteq.
    + intros c' id. unfold docs_of. by rewrite Hv.
Qed.
End Unload.

(** The users as a lazy collection. *)
Definition lazy_config : HakoConfig :=
  mkConfig (mmap_size default_config) (page_size default_config) (page_cache_capacity default_config) (query_workers default_config)
    (auto_compaction_threshold_bytes default_config) (durability_mode default_config) (group_commit_max_ops default_config)
    (group_commit_interval_ms default_config) None None false None (max_inlined_memory_bytes default_config) false 3
    (value_blob_threshold_bytes default_config) None (wal_reserve_bytes default_config) true [] [b#("us*")]
    (soft_delete_retention_secs default_config) (soft_delete_sweep_interval_secs default_config)
    (soft_delete_max_bytes default_config) (soft_delete_max_count default_config).
Definition with_config (cfg : HakoConfig) (h : Hako (cipher := unit)) : Hako (cipher := unit) :=
  mkHako cfg (shards h) (disk h) (global_version h) (doc_versions h) (last_ts_watermark h) (id_sequence h) (security_rules h)
    (security_enabled h) (read_only h) (schemas h) (schema_enabled h) (unique_ledger h) (Facade.composite h) (gate_cache h)
    (doc_cache h) (index_touched h) (index_queue h) (notified h) (audit_data h).
Lemma config_state cfg h : state_ok Datatypes.id h → state_ok Datatypes.id (with_config cfg h).
Proof. intros []. by split. Qed.
Definition lazy_front : Front (cipher := unit) := mkFront (with_config lazy_config with_users) im_empty plans_default true 0.

Lemma lazy_loaded : shards (db lazy_front) !! USERS = Some users_now.
Proof. vm_compute. reflexivity. Qed.
Lemma lazy_stored : view_of (db lazy_front) USERS !! b#("u1") ≫= decode = Some u1_doc.
Proof. vm_compute. reflexivity. Qed.

Lemma users_closable : closable users_now.
Proof.
  split.
  - apply (so_shards _ _ users_state USERS). exact users_loaded.
  - split_and!; [vm_compute; reflexivity|vm_compute; reflexivity|by eexists; vm_compute|].
    intros sid l s Hs%elem_of_map_to_list.
    assert (forallb (λ x : Z * (Z * Segment unit), (0 <=? x.2.1) && (x.2.1 <? 2 ^ 32) && (0 <=? x.1) && (x.1 <? 2 ^ 64) &&
      match seg_encryption x.2.2 with None => true | Some _ => false end) (map_to_list (segments users_now)) = true) as Hall by (vm_compute; reflexivity).
    rewrite forallb_forall in Hall. specialize (Hall _ (proj1 (list_elem_of_In _ _) Hs)). cbn [fst snd] in Hall. bool_simpl.
    unfold is_u32, is_u64. split_and!; try lia. by destruct (seg_encryption s).
  - vm_compute. reflexivity.
  - vm_compute. reflexivity.
  - vm_compute. reflexivity.
Qed.

Lemma unload_reload_witness :
  ∃ f1 h2, unload_collection 0 USERS lazy_front = (f1, Ok tt) ∧ shards (db f1) !! USERS = None ∧
    load_collection demo_secret 1 USERS (db f1) = (h2, Ok tt) ∧ docs_of h2 USERS b#("u1") = Some u1_doc.
Proof.
  destruct (unload_reload demo_secret Datatypes.id 0 1 USERS lazy_front users_now) as (f1 & h2 & E1 & E2 & _ & E3 & _ & Hv & _).
  - exact (config_state lazy_config with_users users_state).
  - vm_compute. reflexivity.
  - exact lazy_loaded.
  - exact users_closable.
  - vm_compute. reflexivity.
  - exists f1, h2. split; [exact E1|]. split; [exact E2|]. split; [exact E3|]. unfold docs_of. rewrite Hv. exact lazy_stored.
Defined.

(** ** Compacting and dropping *)

Lemma reset_inner ids l i : inner (foldl ledger_reset l ids) !! i = if bool_decide (i ∈ ids) then None else inner l !! i.
Proof.
  revert l; induction ids as [|j ids IH]; intros l; [done|]. cbn [foldl]. rewrite IH. cbn [ledger_reset inner].
  rewrite (bool_decide_ext (i ∈ j :: ids) (i = j ∨ i ∈ ids)) by apply elem_of_cons. destruct (decide (i = j)) as [->|Hne].
  - rewrite lookup_delete_eq, (bool_decide_eq_true_2 (j = j ∨ _)) by (by left). by case_bool_decide.
  - rewrite lookup_delete_ne by done. repeat case_bool_decide; naive_solver.
Qed.

(** The unique indexes of the other collections stay. *)
Lemma drop_unique_defs m c c' :
  registry_ok m → unique_defs (drop_collection m c) c' = if bool_decide (c = c') then [] else unique_defs m c'.
Proof.
  intros [_ _ Hids _]. unfold unique_defs, indexes_for_collection, ids_of, drop_collection. cbn [by_collection by_id].
  case_bool_decide as Hc; [subst c'; by rewrite lookup_delete_eq|]. rewrite lookup_delete_ne by done. fold (ids_of m c'). do 2 f_equal.
  assert (∀ l : list Z, (∀ i, i ∈ l → i ∉ ids_of m c) →
    omap (λ i, foldl (λ t i, base.delete i t) (by_id m) (ids_of m c) !! i) l = omap (λ i, by_id m !! i) l) as Hl.
  { induction l as [|i l IHl]; intros Hi; [done|]. cbn [omap list_omap]. rewrite drop_ids_lookup, bool_decide_eq_false_2 by (apply Hi; left).
    destruct (by_id m !! i); rewrite IHl; try done; intros j Hj; apply Hi; by right. }
  apply Hl. intros i Hi Hi2. apply Hids in Hi as (x & Hx & E1), Hi2 as (y & Hy & E2). congruence.
Qed.
Section Whole.
Context `{CrcLaws} `{ZstdLaws} `{HashIterLaws} {cipher : Type} `{AeadLaws cipher}.
Context (from_secret : bytes → EncryptionContext cipher) (to_lowercase : bytes → bytes).
Abbreviation Hako := (Hako (cipher := cipher)).
Abbreviation Front := (Front (cipher := cipher)).
Implicit Types (h : Hako) (e : StorageEngine cipher).

(** A change of one collection that keeps its values. *)
Lemma on_shard_kept {A} c (act : SR (StorageEngine cipher) A) e e' r h :
  state_ok to_lowercase h → shards h !! c = Some e → act e = (e', r) → store_ok e' → store_view e' = store_view e →
  ∃ h', on_shard c act h = (h', r) ∧ state_ok to_lowercase h' ∧ shards h' = <[c := e']> (shards h) ∧ ∀ c', view_of h' c' = view_of h c'.
Proof.
  intros Ho He Ha He' Hv. unfold on_shard. rewrite He, Ha. eexists. split; [done|]. set (h' := h_with_shards _ _ _).
  assert (∀ c', view_of h' c' = view_of h c') as Hview.
  { intros c'. unfold view_of. cbn. destruct (decide (c' = c)) as [->|]; [by rewrite lookup_insert_eq, He|by rewrite lookup_insert_ne]. }
  split_and!; try done. apply (kept_state to_lowercase h h'); try done.
  - apply map_Forall_insert_2; [done|apply Ho].
  - apply Ho.
  - intros c' k. unfold docs_of. by rewrite Hview.
Qed.

(** Compacting the whole database changes no document, cancelled at any point or
    not. *)
Lemma compact_invisible now stop cancelled h :
  state_ok to_lowercase h → map_Forall (λ _ e, values_small e) (shards h) →
  ∃ h' r, compact_impl now stop cancelled h = (h', r) ∧ state_ok to_lowercase h' ∧ ∀ c, view_of h' c = view_of h c.
Proof.
  intros Ho Hv. unfold compact_impl. rewrite (hm_bind_ok _ _ h h h) by done.
  assert (Forall (λ c, is_Some (shards h !! c)) (hash_iter (shards h)).*1) as Hin.
  { apply Forall_forall. intros c ([c' e] & -> & He%hash_iter_lookup)%list_elem_of_fmap. eauto. }
  revert Hin. generalize (hash_iter (shards h)).*1 as cs, 0%nat as i. intros cs. revert h Ho Hv.
  induction cs as [|c cs IH]; intros h Ho Hv i Hin; cbn [compact_shards]; [by eexists _, _|].
  apply Forall_cons in Hin as [[e He] Hin]. destruct (stop i).
  { eexists _, _. split; [done|]. done. }
  rewrite (hm_bind_ok _ _ h h tt) by done. destruct (compact_with_cancel now (cancelled i) e) as [e' r] eqn:Ec.
  destruct (compact_view now (cancelled i) e e' r) as [Hok Hve]; [by eapply (so_shards _ _ Ho)|by eapply Hv|done|].
  destruct (on_shard_kept c _ e e' r h Ho He Ec Hok Hve) as (h1 & E1 & O1 & S1 & V1).
  destruct r as [[]|x|].
  - rewrite (hm_bind_ok _ _ _ _ _ E1). destruct (IH h1 O1) with (i := S i) as (h2 & r2 & E2 & O2 & V2).
    + rewrite S1. apply map_Forall_insert_2; [|done]. intros k v. rewrite Hve. by eapply Hv.
    + eapply Forall_impl; [exact Hin|]. intros c' [e0 He0]. rewrite S1. destruct (decide (c = c')) as [->|]; [by rewrite lookup_insert_eq|].
      rewrite lookup_insert_ne by done. eauto.
    + eexists h2, r2. split_and!; [exact E2|done|]. intros c'. by rewrite V2.
  - rewrite (hm_bind_err _ _ _ _ _ E1). by eexists _, _.
  - unfold mbind, SR_bind. rewrite E1. by eexists _, _.
Qed.

(** The deletions of a drop. *)
Lemma delete_chunks_spec now nanos c css h :
  state_ok to_lowercase h → read_only h = false → allowed h c ABatch = true → plain_at h c → NoDup (gate_ids h c) → [] ∉ concat css →
  global_version h + zlen (concat css) < 2 ^ 64 →
  ∃ h', delete_chunks from_secret to_lowercase now nanos c css h = (h', Ok tt) ∧ state_ok to_lowercase h' ∧ settings h' = settings h ∧
    plain_at h' c ∧
    ∀ c' k, view_of h' c' !! k = if bool_decide (c = c') && bool_decide (k ∈ concat css) then None else view_of h c' !! k.
Proof.
  revert nanos h; induction css as [|ids css IH]; intros nanos h Ho Hro Ha Hp Hg Hne Hroom; cbn [delete_chunks].
  { exists h. split_and!; try done. intros c' k. cbn [concat]. rewrite (bool_decide_eq_false_2 (k ∈ [])) by apply not_elem_of_nil. by rewrite andb_false_r. }
  cbn [concat] in *. rewrite zlen_app in Hroom. apply not_elem_of_app in Hne as [Hne1 Hne2]. pose proof (zlen_nonneg (concat css)).
  destruct (delete_batch from_secret to_lowercase now (nanos O) c ids h) as (h1 & r & E1 & O1 & V1 & S1 & P1 & G1); try done; [lia|].
  rewrite (hm_bind_ok _ _ _ _ _ E1). pose proof S1 as S1'. unfold settings in S1'. injection S1' as _ E2 E3 E4 _ _ E7.
  destruct (IH (λ i, nanos (S i)) h1) as (h2 & E & O2 & S2 & P2 & V2); try done.
  { congruence. } { unfold allowed. by rewrite E2, E3. } { by apply P1. } { unfold gate_ids. by rewrite E7. } { lia. }
  exists h2. split_and!; [done|done|congruence|done|]. intros c' k. rewrite V2, V1.
  rewrite (bool_decide_ext (k ∈ ids ++ concat css) (k ∈ ids ∨ k ∈ concat css)) by apply elem_of_app.
  repeat case_bool_decide; cbn [andb]; naive_solver.
Qed.

Lemma flush_all_total now e : segs_ok e → ∃ e', flush_all now e = (e', Ok tt).
Proof.
  intros Hs. assert (∃ e1, drain_blob_queue e = (e1, Ok tt) ∧ segments e1 = segments e ∧ active_segment_id e1 = active_segment_id e) as (e1 & E1 & Es & Ea).
  { unfold drain_blob_queue. destruct (blob_manager e) as [bm|]; [|by eexists]. destruct (foldl _ _ _). by eexists. }
  unfold flush_all. rewrite (hm_bind_ok _ _ _ _ _ E1), (hm_bind_ok _ _ e1 e1 e1) by done. rewrite Es, Ea.
  destruct (segments e !! active_segment_id e) as [[l s]|] eqn:Hl; [|by eexists]. destruct (Hs _ _ _ Hl) as (_ & _ & [f Hf]).
  unfold mbind, SR_bind, lift, seg_flush. rewrite Hf. by eexists.
Qed.


(** The state after a collection, its definitions, its claims and its cached
    documents are gone. *)
Lemma dropped_state c h h' :
  state_ok to_lowercase h → registry_ok (Facade.composite h) → shards h' = base.delete c (shards h) → (∀ c', settled h' c') →
  Facade.composite h' = drop_collection (Facade.composite h) c → unique_ledger h' = foldl ledger_reset (unique_ledger h) (gate_ids h c) →
  gate_cache h' = ∅ → current h' = current h → doc_cache h' ⊆ doc_cache h → (∀ id, doc_cache h' !! cache_key c id = None) →
  state_ok to_lowercase h'.
Proof.
  intros Ho Hreg Hsh Hs Hcm Hl Hgc Hcur Hca Hcc. pose proof (λ c', drop_unique_defs (Facade.composite h) c c' Hreg) as Hud. rewrite <-Hcm in Hud.
  assert (∀ c' k, docs_of h' c' k = if bool_decide (c = c') then None else docs_of h c' k) as Hd.
  { intros c' k. unfold docs_of, view_of. rewrite Hsh. case_bool_decide as Hc; [subst c'; by rewrite lookup_delete_eq|by rewrite lookup_delete_ne]. }
  pose proof Hcur as Hcur'. unfold current in Hcur'. injection Hcur' as Hgv Hdv. split; try done.
  - intros c' e. rewrite Hsh. intros [_ He]%lookup_delete_Some. by eapply (so_shards _ _ Ho).
  - intros c' defs. rewrite Hgc. by intros [Hx|Hx].
  - intros i cl. rewrite Hl, reset_inner. case_bool_decide; [done|]. apply (so_ledger _ _ Ho).
  - destruct (so_disjoint _ _ Ho) as [D1 D2]. split; [|by rewrite Hud, D2; case_bool_decide]. intros c1 c2 d d' Hne. rewrite !Hud.
    repeat case_bool_decide; try (by intros ?%not_elem_of_nil). { by intros _ ?%not_elem_of_nil. } by apply D1.
  - intros c' id doc d q. rewrite Hd, Hud. case_bool_decide as Hc; [done|]. intros Hdoc Hin Hob.
    destruct (so_cover _ _ Ho c' id doc d q Hdoc Hin Hob) as (cl & Hcl & Hf). exists cl. split; [|done].
    rewrite Hl, reset_inner, bool_decide_eq_false_2; [done|]. intros (d' & Heq & Hd')%list_elem_of_fmap.
    destruct (so_disjoint _ _ Ho) as [D1 _]. by apply (D1 c' c d d').
  - rewrite Hgv. apply Ho.
  - rewrite Hcur. apply Ho.
  - intros key v d Hkey. rewrite Hgv, Hdv. pose proof Hkey as Hkey'. apply (lookup_weaken _ (doc_cache h)) in Hkey; [|done].
    destruct (so_cache _ _ Ho key v d Hkey) as [Hv Hcd]. split; [done|]. intros c' id -> Hid. rewrite Hd.
    case_bool_decide as Hc; [subst c'; by rewrite Hcc in Hkey'|by apply Hcd].
Qed.

Lemma final_flush now e : segs_ok e → ∃ e', (_ ← ignored drain_blob_queue; ignored (flush_all now)) e = (e', Ok tt).
Proof.
  intros Hs. assert (∃ e1, drain_blob_queue e = (e1, Ok tt) ∧ segs_ok e1) as (e1 & E1 & Hs1).
  { unfold drain_blob_queue. destruct (blob_manager e) as [bm|]; [|by eexists]. destruct (foldl _ _ _). by eexists. }
  rewrite (hm_bind_ok _ _ e e1 tt) by (unfold ignored; by rewrite E1). destruct (flush_all_total now e1 Hs1) as [e2 E2].
  exists e2. unfold ignored. by rewrite E2.
Qed.

Lemma drop_schema_frame c h : ∃ s b, drop_schema c h = h_with_schemas s b h ∧ s !! c = None.
Proof.
  unfold drop_schema. destruct (schemas h !! c) eqn:E; [eexists _, _; split; [done|]; apply lookup_delete_eq|].
  exists (schemas h), (schema_enabled h). split; [by destruct h|done].
Qed.

(** The database after the steps that follow the deletions. *)
Definition dropped_db (c : bytes) (d : Dir) (f : Front) h1 (s : gmap bytes CollectionSchema) (b : bool) (au : list AuditEntry) : Hako :=
  let h2 := h_with_shards (base.delete c (shards h1)) (<[c := d]> (disk h1)) h1 in
  h_with_outputs (index_touched h1) (index_queue h1) (notified h1) au
    (unlink c (forget_docs c (h_with_schemas s b (db (drop_defs c (with_db h2 f)))))).

Lemma drop_steps m now nanos c (f : Front) e h1 e1 :
  let h := db f in
  let ids := (hash_iter (index (idx e))).*1 in
  shards h !! c = Some e → read_only h = false → is_sync_excluded_effective h c = false → is_collection_local m c = false →
  delete_chunks from_secret to_lowercase now nanos c (chunks (length ids) DROP_CHUNK ids) h = (h1, Ok tt) → shards h1 !! c = Some e1 → segs_ok e1 →
  ∃ f' d s b au, hako_drop_collection from_secret to_lowercase m (Ok tt) now nanos c f = (f', Ok (mkDrop (zlen ids) (dir_size d) [c])) ∧
    db f' = dropped_db c d f h1 s b au ∧ s !! c = None.
Proof.
  intros h ids He Hro Hex Hloc E1 He1 Hsegs. destruct (final_flush now e1 Hsegs) as [e2 E2].
  assert (is_lazy_unloaded h c = false) as Hlz.
  { unfold is_lazy_unloaded. rewrite He, bool_decide_eq_true_2 by (by eexists). by rewrite andb_false_r. }
  set (h2 := h_with_shards (base.delete c (shards h1)) (<[c := dir_of e2]> (disk h1)) h1). set (f3 := drop_defs c (with_db h2 f)).
  destruct (drop_schema_frame c (db f3)) as (s & b & Es & Hsc).
  destruct (record_audit_same (mkAudit ABatch c None true) (unlink c (forget_docs c (h_with_schemas s b (db f3))))) as [x Ex].
  assert (disk (db f3) !! c = Some (dir_of e2)) as Hdisk by apply lookup_insert_eq.
  set (h5 := record_audit (mkAudit ABatch c None true) (unlink c (forget_docs c (drop_schema c (db f3))))).
  exists (mkFront h5 (others f3) (invalidate (plan_cache f)) (indexes_ready f) (backfill_inflight f)), (dir_of e2), s, b, x.
  split; [|split; [|done]]; [|cbn [db]; unfold h5; rewrite Es, Ex; done].
  unfold hako_drop_collection. rewrite (hm_bind_ok _ _ f f f) by done. fold h. rewrite Hro, Hex, Hloc, Hlz, He. fold ids.
  rewrite (hm_bind_ok _ _ f (with_db h1 f) tt) by (unfold on_db; fold h; by rewrite E1).
  rewrite (hm_bind_ok _ _ _ (with_db h2 f) tt) by (unfold on_db, evict_shard; cbn [db with_db]; by rewrite He1, E2).
  rewrite (hm_bind_ok _ _ _ f3 tt) by done. rewrite (hm_bind_ok _ _ f3 f3 tt) by done.
  transitivity (mkFront h5 (others f3) (invalidate (plan_cache f)) (indexes_ready f) (backfill_inflight f),
    Ok (mkDrop (zlen ids) (match disk (db f3) !! c with Some d => dir_size d | None => 0 end) [c])); [|by rewrite Hdisk].
  unfold on_db, modify, forget_plans, mbind, SR_bind, get_st, mret, SR_ret, lift. cbn [db with_db]. unfold h5.
  by destruct (schemas (db f3) !! c) eqn:E; unfold drop_schema; rewrite E.
Qed.

(** C11: Dropping a collection removes it and nothing else: its documents, its unique
    indexes and their claims, its schema, its cached documents and its directory
    are gone, every other collection has its documents and its unique indexes, the
    invariant of the database holds, and dropping it again is a no-op. *)
Theorem drop_exact m now nanos c (f : Front) e :
  let h := db f in
  let n := zlen (hash_iter (index (idx e))).*1 in
  state_ok to_lowercase h → registry_ok (Facade.composite h) → shards h !! c = Some e → encryption (wal e) = None →
  read_only h = false → is_sync_excluded_effective h c = false → is_collection_local m c = false → allowed h c ABatch = true →
  NoDup (gate_ids h c) → index (idx e) !! [] = None → global_version h + n < 2 ^ 64 →
  ∃ f' size, hako_drop_collection from_secret to_lowercase m (Ok tt) now nanos c f = (f', Ok (mkDrop n size [c])) ∧
    let h' := db f' in
    state_ok to_lowercase h' ∧ shards h' !! c = None ∧ disk h' !! c = None ∧ schemas h' !! c = None ∧
    unique_defs (Facade.composite h') c = [] ∧ (∀ i, i ∈ gate_ids h c → inner (unique_ledger h') !! i = None) ∧
    (∀ id, doc_cache h' !! cache_key c id = None) ∧
    (∀ c', c' ≠ c → view_of h' c' = view_of h c' ∧ unique_defs (Facade.composite h') c' = unique_defs (Facade.composite h) c') ∧
    (is_lazy_collection h c = false → hako_drop_collection from_secret to_lowercase m (Ok tt) now nanos c f' = (f', Ok (mkDrop 0 0 []))).
Proof.
  intros h n Ho Hreg He Hen Hro Hex Hloc Ha Hg Hnil Hroom. set (ids := (hash_iter (index (idx e))).*1) in *.
  assert (concat (chunks (length ids) DROP_CHUNK ids) = ids) as Hch by (apply chunks_concat; unfold DROP_CHUNK; lia).
  destruct (delete_chunks_spec now nanos c (chunks (length ids) DROP_CHUNK ids) h) as (h1 & E1 & O1 & S1 & (e1 & He1 & _) & V1); try done.
  { by exists e. }
  { rewrite Hch. intros ([k p] & Hx & Hk%hash_iter_lookup)%list_elem_of_fmap. cbn in Hx. congruence. }
  { by rewrite Hch. }
  rewrite Hch in V1. pose proof (so_shards _ _ O1 c e1 He1) as (Hsegs & _). pose proof S1 as S1'. unfold settings in S1'. injection S1' as Cc _ _ Cro _ _ Ccm.
  destruct (drop_steps m now nanos c f e h1 e1 He Hro Hex Hloc E1 He1 Hsegs) as (f5 & d & s & b & au & E5 & Eh5 & Hsc).
  exists f5, (dir_size d). split; [exact E5|]. rewrite Eh5. cbn zeta. set (h' := dropped_db _ _ _ _ _ _ _) in *.
  assert (∀ c', unique_defs (Facade.composite h') c' = if bool_decide (c = c') then [] else unique_defs (Facade.composite h) c') as Hud.
  { intros c'. rewrite <-Ccm. apply drop_unique_defs. by rewrite Ccm. }
  assert (doc_cache h' = doc_cache (forget_docs c h1)) as Hdc by done.
  assert (state_ok to_lowercase h') as O'.
  { apply (dropped_state c h1 h'); try done.
    - by rewrite Ccm.
    - intros c'. unfold settled. cbn. apply lookup_delete_None. destruct (decide (c = c')) as [->|Hne]; [by left|right].
      rewrite lookup_insert_ne by done. apply O1.
    - rewrite Hdc. apply map_filter_subseteq.
    - intros id. rewrite Hdc. apply forget_docs_none. }
  split_and!; try done.
  - cbn. apply lookup_delete_eq.
  - cbn. apply lookup_delete_eq.
  - rewrite Hud. by rewrite bool_decide_eq_true_2.
  - intros i Hi. change (inner (foldl ledger_reset (unique_ledger h1) (gate_ids h1 c)) !! i = None). rewrite reset_inner, bool_decide_eq_true_2; [done|].
    unfold gate_ids. by rewrite Ccm.
  - intros id. rewrite Hdc. apply forget_docs_none.
  - intros c' Hne. split; [|rewrite Hud; by rewrite bool_decide_eq_false_2].
    apply map_eq. intros k. transitivity (view_of h1 c' !! k).
    + f_equal. unfold view_of. cbn. by rewrite lookup_delete_ne.
    + rewrite V1, bool_decide_eq_false_2 by done. done.
  - intros Hlazy. unfold hako_drop_collection. rewrite (hm_bind_ok _ _ f5 f5 f5) by done. rewrite Eh5.
    assert (config h' = config h) as Ec by exact Cc. assert (read_only h' = false) as -> by (transitivity (read_only h); [exact Cro|done]).
    unfold is_sync_excluded_effective, is_lazy_unloaded, is_lazy_collection in *. rewrite Ec, Hex, Hloc, Hlazy. cbn [andb].
    assert (shards h' !! c = None) as -> by apply lookup_delete_eq. done.
Qed.
End Whole.

(** ** Concrete drops and moves *)

Lemma users_registry : registry_ok (Facade.composite with_users).
Proof.
  assert (Facade.composite with_users = register 1 (with_id 1 (email_def None)) mg_empty) as -> by (vm_compute; reflexivity).
  apply register_ok; [|vm_compute; reflexivity|vm_compute; congruence|vm_compute; split; congruence].
  split; [vm_compute; congruence|intros c; vm_compute; constructor| |].
  - intros c id. split; [by intros ?%elem_of_nil|]. by intros (x & Hx & _).
  - by intros id x Hx.
Qed.

Abbreviation drop := (hako_drop_collection demo_secret Datatypes.id no_marks (Ok tt) 0).

Lemma drop_exact_witness :
  ∃ f' size, drop (λ _, 6000) USERS demo_front = (f', Ok (mkDrop (zlen (hash_iter (index (idx users_now))).*1) size [USERS])) ∧
    shards (db f') !! USERS = None ∧ schemas (db f') !! USERS = None.
Proof.
  destruct (drop_exact demo_secret Datatypes.id no_marks 0 (λ _, 6000) USERS demo_front users_now) as (f' & size & E & _ & Hs & _ & Hc & _).
  - exact users_state.
  - exact users_registry.
  - exact users_loaded.
  - vm_compute. reflexivity.
  - vm_compute. reflexivity.
  - vm_compute. reflexivity.
  - vm_compute. reflexivity.
  - vm_compute. reflexivity.
  - vm_compute. repeat constructor. by intros ?%elem_of_nil.
  - vm_compute. reflexivity.
  - vm_compute. reflexivity.
  - exists f', size. split; [exact E|]. split; [exact Hs|exact Hc].
Defined.

(** A document that is moved away and back is lost to the peers: it returns with its
    old time stamp, which is before that of the deletion that moved it away, so that a
    peer which has seen the first move keeps the deletion, and deletes it from the
    other collection too. *)
Definition moved_away : Hako (cipher := unit) := (relocate (λ _, 7000) true USERS OLD [b#("u1")] with_old).1.
Definition moved_back : Hako (cipher := unit) := (relocate (λ _, 9000) true OLD USERS [b#("u1")] moved_away).1.
Definition replicated (c : bytes) (h peer : Hako (cipher := unit)) : Hako (cipher := unit) :=
  match (on_shard c (catchup_ops no_marks c 0) h).2 with
  | Ok ops => (on_shard c (apply_replicated_batch false 0 0 (value_blob_threshold_bytes (config peer)) c ops ∅ 0) peer).1
  | _ => peer
  end.
Lemma moved_back_lost :
  let peer := replicated OLD moved_back (replicated USERS moved_back moved_away) in
  docs_of moved_back USERS b#("u1") = Some u1_doc ∧ docs_of peer USERS b#("u1") = None ∧ docs_of peer OLD b#("u1") = None.
Proof. vm_compute. split_and!; reflexivity. Qed.

(** The rules that a move checks are not those of the deletion it ends with: without
    the right to batches, the document is in both collections and the call fails. *)
Lemma move_denied_halfway :
  let '(h, r) := relocate (λ _, 7000) true USERS OLD [b#("u1")] (set_security_rules [mkRule USERS ABatch false] with_old) in
  r = Err (Corrupt "Security Denied") ∧ docs_of h USERS b#("u1") = Some u1_doc ∧ docs_of h OLD b#("u1") = Some u1_doc.
Proof. vm_compute. split_and!; reflexivity. Qed.

(** A move does not apply the schema of its destination, which refuses the document
    in a put. *)
Lemma move_skips_schema :
  let h := (set_schema OLD (mkSchema [Schema.mkRule b#("name") KString true None]) with_old).1 in
  (put_owned demo_secret Datatypes.id 0 7000 OLD b#("u1") u1_doc h).2 = Err (SchemaViolation OLD b#("name") "present string") ∧
  docs_of (relocate (λ _, 7000) true USERS OLD [b#("u1")] h).1 OLD b#("u1") = Some u1_doc.
Proof. vm_compute. split_and!; reflexivity. Qed.

(** The report of a drop counts deleted documents too: here the collection holds no
    document. *)
Lemma drop_counts_tombstones :
  view_of moved_back OLD !! b#("u1") = None ∧
  docs_removed <$> (match (drop (λ _, 11000) OLD (mkFront moved_back im_empty plans_default true 0)).2 with Ok r => Some r | _ => None end) = Some 1.
Proof. vm_compute. split; reflexivity. Qed.
