(* ===== verification/Json.v ===== *)
(** * JSON output (src/document/hako_doc.rs, value.rs)

    Single-pass writers of documents as JSON, from decoded documents and from stored
    bytes; the string escaping with its eight-byte test; the tree [to_json] builds,
    with the compact text of a tree as the reference.  Writers append to a buffer:
    here they return what they append.  The crates that format integers and finite
    floats are the parameters [itoa] and [number].  [sort_unstable_by] sorts maps
    whose keys are distinct. *)

From stdpp Require Import prelude list strings.
From Stdlib Require Import ZArith Lia.
From S2P Require Import Prelude RustStd Error Varint Value Doc Crypto VFile Wal PageCache StorageIndex Segment Blob Storage StorageMaint Composite.

Local Open Scope Z_scope.
Local Open Scope hako_scope.

(** ** Escaping *)

(** The table [ESCAPE]: the byte after the backslash, 0 for a clean byte, [u] for a
    code. *)
Definition ESCAPE (b : Z) : Z :=
  if b =? 0x08 then 98 else if b =? 0x09 then 116 else if b =? 0x0A then 110 else if b =? 0x0C then 102
  else if b =? 0x0D then 114 else if b =? 34 then 34 else if b =? 92 then 92 else if b <? 0x20 then 117 else 0.
Definition hex_byte (d : Z) : Z := if d <? 10 then 48 + d else 87 + d.
Definition escape_code (b : Z) : bytes :=
  92 :: (if ESCAPE b =? 117 then b#("u00") ++ [hex_byte (Z.shiftr b 4); hex_byte (Z.land b 0xF)] else [ESCAPE b]).

(** [needs_escape]: eight bytes at once. *)
Definition ONES : Z := 0x0101010101010101.
Definition HIGH : Z := 0x8080808080808080.
Definition wrapping_sub (a b : Z) : Z := as_u64 (a - b).
Definition not_u64 (a : Z) : Z := Z.lxor a (2 ^ 64 - 1).
Definition needs_escape (w : Z) : bool :=
  let lt_0x20 := Z.land (Z.land (wrapping_sub w (as_u64 (ONES * 0x20))) (not_u64 w)) HIGH in
  let q := Z.lxor w (as_u64 (ONES * 0x22)) in
  let s := Z.lxor w (as_u64 (ONES * 0x5C)) in
  let eq := Z.lor (Z.land (Z.land (wrapping_sub q ONES) (not_u64 q)) HIGH) (Z.land (Z.land (wrapping_sub s ONES) (not_u64 s)) HIGH) in
  negb (Z.lor lt_0x20 eq =? 0).

(** [write_json_raw]: runs of clean bytes from [start] are copied together; at most
    one round per byte. *)
Fixpoint raw_loop (fuel : nat) (s : bytes) (start i : nat) : bytes :=
  match fuel with
  | O => []
  | S fuel =>
      if (i <? length s)%nat then
        if (i + 8 <=? length s)%nat && negb (needs_escape (of_le (take 8 (drop i s)))) then raw_loop fuel s start (i + 8)
        else
          let b := default 0 (s !! i) in
          if ESCAPE b =? 0 then raw_loop fuel s start (i + 1)
          else take (i - start) (drop start s) ++ escape_code b ++ raw_loop fuel s (i + 1) (i + 1)
      else drop start s
  end.
Definition write_json_raw (s : bytes) : bytes := raw_loop (S (length s)) s 0 0.
Definition write_json_str (s : bytes) : bytes := 34 :: write_json_raw s ++ [34].

(** Items with commas between them. *)
Fixpoint commas (items : list bytes) : bytes :=
  match items with
  | [] => []
  | [x] => x
  | x :: items => x ++ 44 :: commas items
  end.

Section Writers.
Context (itoa : Z → bytes) (number : Z → bytes).

Definition write_float (f : Z) : bytes := if f64_is_finite f then number f else b#("null").
Definition ref_json (c d : bytes) : bytes := b#("{") ++ [34] ++ b#("__ref__") ++ [34; 58; 34] ++ write_json_raw c ++ [47] ++ write_json_raw d ++ [34; 125].
Definition quoted (s : bytes) : bytes := [34] ++ s ++ [34].
Definition blob_json (offset len : Z) : bytes :=
  b#("{") ++ quoted b#("__blob__") ++ b#(":{") ++ quoted b#("len") ++ b#(":") ++ itoa len ++ b#(",") ++ quoted b#("offset") ++ b#(":") ++ itoa offset ++ b#("}}").
Definition binary_json (b : bytes) : bytes := b#("[") ++ commas (itoa <$> b) ++ b#("]").

(** ** From documents: [write_json_value], [write_json_map], [write_json]. *)

Definition entry_le {A} (a b : bytes * A) : comparison := bytes_cmp a.1 b.1.
Definition object {A} (item : A → bytes) (items : list (bytes * A)) : bytes :=
  b#("{") ++ commas ((λ kv, write_json_str kv.1 ++ 58 :: item kv.2) <$> items) ++ b#("}").
Fixpoint write_json_value (v : Value) : bytes :=
  match v with
  | Null | ServerTimestamp => b#("null")
  | Bool true => b#("true")
  | Bool false => b#("false")
  | Int n | Timestamp n => itoa n
  | Float f => write_float f
  | String s => write_json_str s
  | Binary b => binary_json b
  | Reference c d => ref_json c d
  | BlobLink o l => blob_json o l
  | Map fs => object id (sort_by entry_le ((λ kv, (kv.1, write_json_value kv.2)) <$> fs))
  | Array vs => b#("[") ++ commas (write_json_value <$> vs) ++ b#("]")
  end.

(** The fields of a document with the time at its place: before the first name
    above [_time], not at all when there is a field of that name, else at the end. *)
Definition TIME : bytes := b#("_time").
Definition field_json {A} (item : A → bytes) (kv : bytes * A) : bytes := write_json_str kv.1 ++ 58 :: item kv.2.
Definition time_json (ts : Z) : bytes := quoted TIME ++ 58 :: itoa ts.
Fixpoint doc_items {A} (item : A → bytes) (ts : Z) (time_written : bool) (fs : list (bytes * A)) : list bytes :=
  match fs with
  | [] => if time_written then [] else [time_json ts]
  | kv :: fs =>
      let before := negb time_written && bool_decide (bytes_cmp kv.1 TIME = Gt) in
      let time_written := time_written || before || bytes_eqb kv.1 TIME in
      (if before then [time_json ts] else []) ++ field_json item kv :: doc_items item ts time_written fs
  end.
Definition write_json (d : HakoDoc) : bytes := b#("{") ++ commas (doc_items write_json_value (_time d) false (fields d)) ++ b#("}").

(** ** From stored bytes: [write_view_value], [write_view_map], [DocView::write_json]. *)

(** The entries of a map, or the elements of an array, and where they end. *)
Fixpoint view_entries (count : nat) (b : bytes) (p : Z) : option (list (bytes * (Z * bytes)) * Z) :=
  match count with
  | O => Some ([], p)
  | S count =>
      '(key, tag, span, p) ← read_entry false b p;
      '(rest, p) ← view_entries count b p;
      Some ((key, (tag, span)) :: rest, p)
  end.
Fixpoint view_elements (fuel : nat) (count : Z) (b : bytes) (p : Z) : option (list (Z * bytes) * Z) :=
  if count <=? 0 then Some ([], p)
  else match fuel with
       | O => None
       | S fuel =>
           tag ← get b p;
           let p := p + 1 in
           p' ← skip_value tag b p;
           span ← get_range b p p';
           '(rest, p) ← view_elements fuel (count - 1) b p';
           Some ((tag, span) :: rest, p)
       end.
Fixpoint write_view_value (fuel : nat) (tag : Z) (b : bytes) : option bytes :=
  match fuel with
  | O => None
  | S fuel =>
      if (tag =? 0xC0) || (tag =? 0xC1) then Some b#("null")
      else if tag =? 0xC2 then Some b#("true")
      else if tag =? 0xC3 then Some b#("false")
      else if tag_is_small_int tag then Some (itoa (Z.land tag 0x0F))
      else if tag_is_small_str tag then
        s ← get_range b 0 (Z.land tag 0x07);
        s ← from_utf8 s;
        Some (write_json_str s)
      else if (tag =? 3) || (tag =? 7) then
        '(val, _) ← decode_varint b 4;
        Some (itoa (zigzag_decode val))
      else if tag =? 4 then
        f ← get_range b 4 12;
        Some (write_float (of_le f))
      else if tag =? 5 then
        v_len ← of_le <$> get_range b 0 4;
        s ← get_range b 4 (4 + v_len);
        s ← from_utf8 s;
        Some (write_json_str s)
      else if tag =? 6 then
        v_len ← of_le <$> get_range b 0 4;
        s ← get_range b 4 (4 + v_len);
        Some (binary_json s)
      else if tag =? 8 then
        count ← of_le <$> get_range b 4 6;
        '(items, p) ← view_entries (Z.to_nat count) b 6;
        if negb (p =? zlen b) then None
        else
          texts ← mapM (λ kv : bytes * (Z * bytes), k ← from_utf8 kv.1; s ← write_view_value fuel kv.2.1 kv.2.2; Some (k, s)) (sort_by entry_le items);
          Some (object id texts)
      else if tag =? 9 then
        count ← of_le <$> get_range b 4 8;
        '(items, p) ← view_elements (S (length b)) count b 8;
        if negb (p =? zlen b) then None
        else texts ← mapM (λ x : Z * bytes, write_view_value fuel x.1 x.2) items; Some (b#("[") ++ commas texts ++ b#("]"))
      else if tag =? 10 then
        c_len ← get b 4;
        c ← get_range b 5 (5 + c_len);
        c ← from_utf8 c;
        d_len ← get b (5 + c_len);
        d ← get_range b (6 + c_len) (6 + c_len + d_len);
        d ← from_utf8 d;
        Some (ref_json c d)
      else if tag =? 11 then
        o ← get_range b 4 12;
        l ← get_range b 12 16;
        Some (blob_json (of_le o) (of_le l))
      else Some b#("null")
  end.
Definition view_json (b : bytes) : option bytes :=
  v ← view_new b;
  let '(items, it) := iter_all true (view_iter v) in
  texts ← mapM (λ '(key, tag, data), s ← write_view_value (S (length data)) tag data; Some (key, s)) items;
  if fully_consumed it b then Some (b#("{") ++ commas (doc_items id (v_time v) false texts) ++ b#("}")) else None.

(** ** Trees: [Value::to_json], [HakoDoc::to_json] *)

Inductive Json :=
| JNull
| JBool (b : bool)
| JInt (n : Z)
| JFloat (f : Z)
| JString (s : bytes)
| JArray (l : list Json)
| JObject (entries : list (bytes * Json)).
Definition to_object (entries : list (bytes * Json)) : Json := JObject (foldl (λ t kv, bt_insert kv.1 kv.2 t) [] entries).
Fixpoint to_json (v : Value) : Json :=
  match v with
  | Null | ServerTimestamp => JNull
  | Bool b => JBool b
  | Int n | Timestamp n => JInt n
  | Float f => if f64_is_finite f then JFloat f else JNull
  | String s => JString s
  | Binary b => JArray (JInt <$> b)
  | Reference c d => to_object [(b#("__ref__"), JString (c ++ b#("/") ++ d))]
  | BlobLink o l => to_object [(b#("__blob__"), to_object [(b#("offset"), JInt o); (b#("len"), JInt l)])]
  | Map fs => to_object ((λ kv, (kv.1, to_json kv.2)) <$> fs)
  | Array vs => JArray (to_json <$> vs)
  end.
Definition doc_to_json (d : HakoDoc) : Json := to_object ((TIME, JInt (_time d)) :: ((λ kv, (kv.1, to_json kv.2)) <$> fields d)).

(** [Value::from_json], which never fails.  A number is an integer when it fits in
    an [i64]. *)
Definition as_i64_json (n : Z) : Value := if n <? 2 ^ 63 then Int n else Float (u64_to_f64 n).
Definition as_u64_json (j : option Json) : Z := match j with Some (JInt n) => if 0 <=? n then n else 0 | _ => 0 end.
Fixpoint from_json (j : Json) : Value :=
  match j with
  | JNull => Null
  | JBool b => Bool b
  | JInt n => as_i64_json n
  | JFloat f => Float f
  | JString s => String s
  | JArray l => Array (from_json <$> l)
  | JObject obj =>
      let map := Map ((λ kv, (kv.1, from_json kv.2)) <$> obj) in
      let blob :=
        match assoc b#("__blob__") obj with
        | Some (JObject meta) => BlobLink (as_u64_json (assoc b#("offset") meta)) (as_u32 (as_u64_json (assoc b#("len") meta)))
        | _ => map
        end in
      match assoc b#("__ref__") obj with
      | Some (JString path) =>
          match split_once 47 path with
          | Some (col, id) => Reference col id
          | None => blob
          end
      | _ => blob
      end
  end.
Definition to_json_with_id (d : HakoDoc) (id : bytes) : Json :=
  match doc_to_json d with
  | JObject obj => JObject (bt_insert b#("id") (JString id) obj)
  | j => j
  end.

(** The compact text of a tree. *)
Definition escape_str (s : bytes) : bytes := s ≫= λ b, if ESCAPE b =? 0 then [b] else escape_code b.
Fixpoint print_json (j : Json) : bytes :=
  match j with
  | JNull => b#("null")
  | JBool b => if b then b#("true") else b#("false")
  | JInt n => itoa n
  | JFloat f => number f
  | JString s => quoted (escape_str s)
  | JArray l => b#("[") ++ commas (print_json <$> l) ++ b#("]")
  | JObject es => b#("{") ++ commas ((λ kv, quoted (escape_str kv.1) ++ 58 :: print_json kv.2) <$> es) ++ b#("}")
  end.
End Writers.
