(* ===== verification/JsonProps.v ===== *)
(** * The JSON writers against their references

    The eight-byte test is exact, so that escaping in runs is escaping byte by byte;
    the single-pass writer prints the tree; what the writer on stored bytes accepts it
    prints as the decoded document, and it accepts every encoded document; reading a
    tree back. *)

From stdpp Require Import prelude list strings.
From Stdlib Require Import ZArith Lia Sorted.
From S2P Require Import Prelude RustStd Error Varint Value Doc DocFacts DocCodec DocAccess Composite CompositeFacts SortFacts StorageMaint Json.

Local Open Scope Z_scope.
Local Open Scope hako_scope.

(** ** Words as lists of bytes *)

(** [n] in each of [k] bytes. *)
Fixpoint repeated (k : nat) (n : Z) : Z := match k with O => 0 | S k => n + 256 * repeated k n end.

(** Bitwise operations work is_byte by byte. *)
Lemma digit_testbit x y i : is_byte x → 0 <= y → 0 <= i → Z.testbit (x + 256 * y) i = if i <? 8 then Z.testbit x i else Z.testbit y (i - 8).
Proof.
  intros Hx Hy Hi. replace (256 * y) with (y * 2 ^ 8) by lia. destruct (Z.ltb_spec i 8) as [Hlt|Hge].
  - rewrite <-(Z.mod_pow2_bits_low (x + y * 2 ^ 8) 8 i) by lia. rewrite Z_mod_plus_full, (Z.mod_small x) by (unfold is_byte in *; lia). done.
  - replace i with ((i - 8) + 8) at 1 by lia. rewrite <-Z.div_pow2_bits by lia. rewrite Z_div_plus by lia. rewrite (Z.div_small x) by (unfold is_byte in *; lia).
    done.
Qed.
Section Bitwise.
Context (f : Z → Z → Z) (g : bool → bool → bool).
Context (Hspec : ∀ a b i, 0 <= i → Z.testbit (f a b) i = g (Z.testbit a i) (Z.testbit b i)).
Context (Hnn : ∀ a b, 0 <= a → 0 <= b → 0 <= f a b) (Hg : g false false = false).
Lemma bitwise_byte x x' : is_byte x → is_byte x' → is_byte (f x x').
Proof using All.
  unfold is_byte. intros Hx Hx'. pose proof (Hnn x x' ltac:(lia) ltac:(lia)) as H0. split; [done|].
  destruct (decide (f x x' = 0)) as [->|Hne]; [lia|]. change 256 with (2 ^ 8). apply Z.log2_lt_pow2; [lia|]. apply Z.nle_gt. intros Hl.
  pose proof (Z.bit_log2 (f x x') ltac:(lia)) as Hb. rewrite Hspec in Hb by apply Z.log2_nonneg.
  assert (∀ z, 0 <= z < 256 → Z.testbit z (Z.log2 (f x x')) = false) as Hz.
  { intros z Hz. destruct (decide (z = 0)) as [->|]; [apply Z.bits_0|]. apply Z.bits_above_log2; [lia|].
    enough (Z.log2 z < 8) by lia. apply Z.log2_lt_pow2; change (2 ^ 8) with 256; lia. }
  rewrite !Hz, Hg in Hb by done. done.
Qed.
Lemma bitwise_digits x y x' y' : is_byte x → is_byte x' → 0 <= y → 0 <= y' → f (x + 256 * y) (x' + 256 * y') = f x x' + 256 * f y y'.
Proof using All.
  intros Hx Hx' Hy Hy'. apply Z.bits_inj'. intros i Hi. rewrite Hspec by done. rewrite !digit_testbit; try done; [|by apply bitwise_byte|by apply Hnn].
  destruct (Z.ltb_spec i 8); by rewrite Hspec by lia.
Qed.
End Bitwise.

Lemma land_digits x y x' y' : is_byte x → is_byte x' → 0 <= y → 0 <= y' → Z.land (x + 256 * y) (x' + 256 * y') = Z.land x x' + 256 * Z.land y y'.
Proof. apply (bitwise_digits Z.land andb); [intros; apply Z.land_spec|intros; apply Z.land_nonneg; lia|done]. Qed.
Lemma lxor_digits x y x' y' : is_byte x → is_byte x' → 0 <= y → 0 <= y' → Z.lxor (x + 256 * y) (x' + 256 * y') = Z.lxor x x' + 256 * Z.lxor y y'.
Proof. apply (bitwise_digits Z.lxor xorb); [intros; apply Z.lxor_spec|intros; apply Z.lxor_nonneg; lia|done]. Qed.
Lemma lxor_byte x x' : is_byte x → is_byte x' → is_byte (Z.lxor x x').
Proof. apply (bitwise_byte Z.lxor xorb); [intros; apply Z.lxor_spec|intros; apply Z.lxor_nonneg; lia|done]. Qed.
Lemma land_byte x x' : is_byte x → is_byte x' → is_byte (Z.land x x').
Proof. apply (bitwise_byte Z.land andb); [intros; apply Z.land_spec|intros; apply Z.land_nonneg; lia|done]. Qed.

Lemma repeated_range k n : is_byte n → 0 <= repeated k n < 256 ^ Z.of_nat k.
Proof. unfold is_byte. intros Hn. induction k as [|k IH]; [cbn; lia|]. cbn [repeated]. rewrite Nat2Z.inj_succ, Z.pow_succ_r by lia. lia. Qed.
Lemma of_le_range s : bytes_ok s → 0 <= of_le s < 256 ^ Z.of_nat (length s).
Proof. apply of_le_bound. Qed.
Lemma of_le_xor s n : bytes_ok s → is_byte n → Z.lxor (of_le s) (repeated (length s) n) = of_le (Z.lxor n <$> s).
Proof.
  intros Hs Hn. induction Hs as [|b s Hb Hs IH]; [done|]. cbn [of_le length repeated fmap list_fmap]. pose proof (of_le_range s Hs).
  pose proof (repeated_range (length s) n Hn). rewrite lxor_digits by (done || lia). rewrite IH, (Z.lxor_comm n b). done.
Qed.

Lemma not_byte b : is_byte b → Z.lxor b 255 = 255 - b.
Proof. intros Hb. apply Z.eqb_eq. apply (byte_cases (λ b, Z.lxor b 255 =? 255 - b)); [by vm_compute|done]. Qed.
Lemma high_bits x y : is_byte x → is_byte y → Z.land (Z.land x y) 128 = if (128 <=? x) && (128 <=? y) then 128 else 0.
Proof.
  intros Hx Hy. apply Z.eqb_eq. revert y Hy. apply byte_cases.
  apply (byte_cases (λ x, forallb (λ y, Z.land (Z.land x y) 128 =? (if (128 <=? x) && (128 <=? y) then 128 else 0)) (seqZ 0 256))); [by vm_compute|done].
Qed.

(** A is_byte below [n]: subtracting [n] from every is_byte borrows at the first of them. *)
Lemma has_less n s :
  0 < n <= 128 → bytes_ok s →
  Z.land (Z.land ((of_le s - repeated (length s) n) mod 256 ^ Z.of_nat (length s)) (Z.lxor (of_le s) (repeated (length s) 255))) (repeated (length s) 128) = 0 ↔
  Forall (λ b, n <= b) s.
Proof.
  intros Hn Hs. induction Hs as [|b s Hb Hs IH]; [cbn; split; [constructor|done]|].
  pose proof (of_le_range s Hs) as Hr. pose proof (repeated_range (length s) n ltac:(unfold is_byte; lia)) as Hrn.
  pose proof (repeated_range (length s) 128 ltac:(unfold is_byte; lia)) as Hr1. pose proof (repeated_range (length s) 255 ltac:(unfold is_byte; lia)) as Hr2.
  cbn [of_le length repeated]. rewrite Nat2Z.inj_succ, Z.pow_succ_r by lia. set (P := 256 ^ Z.of_nat (length s)) in *.
  set (d := (b - n) mod 256). set (D := (of_le s - repeated (length s) n + (b - n) / 256) mod P).
  assert (0 < P) as HP by lia. assert (is_byte d) as Hd by (unfold d, is_byte; pose proof (Z.mod_pos_bound (b - n) 256); lia).
  assert (0 <= D < P) as HD by (apply Z.mod_pos_bound; lia).
  assert ((b + 256 * of_le s - (n + 256 * repeated (length s) n)) mod (256 * P) = d + 256 * D) as ->.
  { symmetry. apply (Z.mod_unique_pos _ _ ((of_le s - repeated (length s) n + (b - n) / 256) / P)); [unfold is_byte in Hd; nia|].
    unfold d, D. pose proof (Z.div_mod (b - n) 256 ltac:(lia)). pose proof (Z.div_mod (of_le s - repeated (length s) n + (b - n) / 256) P ltac:(lia)). nia. }
  assert (is_byte (255 - b)) as Hnb by (unfold is_byte in *; lia). assert (is_byte 255 ∧ is_byte 128) as [H255 H128] by (unfold is_byte; lia).
  pose proof (Z.lxor_nonneg (of_le s) (repeated (length s) 255)) as Hx. pose proof (Z.land_nonneg D (Z.lxor (of_le s) (repeated (length s) 255))) as Hl.
  rewrite lxor_digits by (done || lia). rewrite not_byte by done. rewrite land_digits by (done || lia). rewrite land_digits by (done || lia || by apply land_byte).
  rewrite high_bits by done. pose proof (Z.land_nonneg (Z.land D (Z.lxor (of_le s) (repeated (length s) 255))) (repeated (length s) 128)) as Hl'.
  rewrite Forall_cons. destruct (decide (n <= b)) as [Hle|Hlt].
  - assert ((b - n) / 256 = 0) as E by (apply Z.div_small; unfold is_byte in Hb; lia). assert (d = b - n) as Ed by (apply Z.mod_small; unfold is_byte in Hb; lia).
    replace ((128 <=? d) && (128 <=? 255 - b)) with false by (destruct (Z.leb_spec 128 d), (Z.leb_spec 128 (255 - b)); (done || lia)).
    unfold D in *. rewrite E, Z.add_0_r in *. rewrite <-IH. lia.
  - assert (d = b - n + 256) as Ed by (unfold d; rewrite <-(Z_mod_plus_full _ 1), Z.mod_small; unfold is_byte in Hb; lia).
    replace ((128 <=? d) && (128 <=? 255 - b)) with true by (unfold is_byte in Hb; destruct (Z.leb_spec 128 d), (Z.leb_spec 128 (255 - b)); (done || lia)).
    lia.
Qed.

(** ** The eight-is_byte test is exact *)

Definition clean (b : Z) : bool := ESCAPE b =? 0.
Lemma clean_spec b : is_byte b → clean b = true ↔ 32 <= b ∧ b <> 34 ∧ b <> 92.
Proof.
  intros Hb. assert (clean b = (32 <=? b) && negb (b =? 34) && negb (b =? 92)) as ->.
  { apply eqb_prop. apply (byte_cases (λ b, eqb (clean b) ((32 <=? b) && negb (b =? 34) && negb (b =? 92)))); [by vm_compute|done]. }
  rewrite !andb_true_iff, !negb_true_iff, !Z.eqb_neq, Z.leb_le. tauto.
Qed.
Lemma has_less_u64 n s :
  0 < n <= 128 → length s = 8%nat → bytes_ok s →
  Z.land (Z.land (wrapping_sub (of_le s) (repeated 8 n)) (not_u64 (of_le s))) HIGH = 0 ↔ Forall (λ b, n <= b) s.
Proof.
  intros Hn Hl Hs. pose proof (has_less n s Hn Hs) as H. rewrite Hl in H. change (256 ^ Z.of_nat 8) with (2 ^ 64) in H.
  change (repeated 8 255) with (2 ^ 64 - 1) in H. change (repeated 8 128) with HIGH in H. exact H.
Qed.
Lemma has_byte_u64 c s :
  is_byte c → length s = 8%nat → bytes_ok s →
  Z.land (Z.land (wrapping_sub (Z.lxor (of_le s) (repeated 8 c)) ONES) (not_u64 (Z.lxor (of_le s) (repeated 8 c)))) HIGH = 0 ↔ Forall (λ b, b <> c) s.
Proof.
  intros Hc Hl Hs. pose proof (of_le_xor s c Hs Hc) as E. rewrite Hl in E. rewrite E. change ONES with (repeated 8 1).
  rewrite (has_less_u64 1) by (lia || (by rewrite length_fmap) || (apply Forall_fmap; eapply Forall_impl; [exact Hs|]; intros; by apply lxor_byte)).
  rewrite Forall_fmap, !Forall_forall. apply forall_proper; intros b. split; intros H Hb; specialize (H Hb); rewrite Forall_forall in Hs; pose proof (Hs _ Hb) as Hb8; cbn in *.
  - intros ->. rewrite Z.lxor_nilpotent in H. lia.
  - pose proof (lxor_byte c b Hc Hb8) as Hx. unfold is_byte in Hx. destruct (decide (Z.lxor c b = 0)) as [E0|]; [|lia]. apply Z.lxor_eq in E0. congruence.
Qed.
Lemma needs_escape_exact s : length s = 8%nat → bytes_ok s → needs_escape (of_le s) = negb (forallb clean s).
Proof.
  intros Hl Hs. unfold needs_escape. f_equal. apply eq_true_iff_eq. rewrite Z.eqb_eq, !Z.lor_eq_0_iff.
  change (as_u64 (ONES * 0x20)) with (repeated 8 0x20). change (as_u64 (ONES * 0x22)) with (repeated 8 0x22). change (as_u64 (ONES * 0x5C)) with (repeated 8 0x5C).
  rewrite (has_less_u64 0x20) by (done || lia). rewrite (has_byte_u64 0x22), (has_byte_u64 0x5C) by (done || (unfold is_byte; lia)). rewrite forallb_forall, !Forall_forall. setoid_rewrite <-list_elem_of_In.
  rewrite Forall_forall in Hs. split.
  - intros (H1 & H2 & H3) b Hb. apply clean_spec; auto.
  - intros H. repeat split; intros b Hb; pose proof (proj1 (clean_spec b (Hs b Hb)) (H b Hb)); tauto.
Qed.

(** ** Escaping in runs is escaping byte by byte *)

Lemma escape_str_app s1 s2 : escape_str (s1 ++ s2) = escape_str s1 ++ escape_str s2.
Proof. apply bind_app. Qed.
Lemma escape_clean s : forallb clean s = true → escape_str s = s.
Proof.
  induction s as [|b s IH]; [done|]. cbn [forallb]. intros [Hb Hs]%andb_true_iff. unfold clean in Hb. cbn. rewrite Hb. cbn. f_equal. by apply IH.
Qed.
Lemma raw_loop_escape fuel s start i :
  bytes_ok s → (length s - i < fuel)%nat → (start <= i <= length s)%nat → forallb clean (take (i - start) (drop start s)) = true →
  raw_loop fuel s start i = escape_str (drop start s).
Proof.
  intros Hs. revert start i. induction fuel as [|fuel IH]; intros start i Hf Hi Hc; [lia|]. cbn [raw_loop].
  destruct (Nat.ltb_spec i (length s)) as [Hlt|Hge].
  2:{ rewrite escape_clean; [done|]. by rewrite take_ge in Hc by (rewrite length_drop; lia). }
  assert (∀ n, (i + n <= length s)%nat → take (i + n - start) (drop start s) = take (i - start) (drop start s) ++ take n (drop i s)) as Hsplit.
  { intros n Hn. replace (i + n - start)%nat with ((i - start) + n)%nat by lia. rewrite <-(take_take_drop (drop start s) (i - start) n), drop_drop. by replace (start + (i - start))%nat with i by lia. }
  destruct ((i + 8 <=? length s)%nat && negb (needs_escape (of_le (take 8 (drop i s))))) eqn:E.
  { apply andb_true_iff in E as [E1%Nat.leb_le E2]. apply IH; [lia|lia|]. rewrite Hsplit, forallb_app, Hc by lia. cbn [andb].
    rewrite needs_escape_exact, negb_involutive in E2; [done|rewrite length_take, length_drop; lia|by apply Forall_take, Forall_drop]. }
  destruct (lookup_lt_is_Some_2 s i Hlt) as [b Hb]. rewrite Hb. cbn [default from_option id].
  assert (take 1 (drop i s) = [b]) as Hd by (by rewrite (drop_S _ _ _ Hb)).
  destruct (ESCAPE b =? 0) eqn:Eb.
  - apply IH; [lia|lia|]. rewrite Hsplit, forallb_app, Hc, Hd by lia. cbn. unfold clean. by rewrite Eb.
  - rewrite IH; [|lia|lia|by rewrite Nat.sub_diag].
    rewrite <-(take_drop (i - start) (drop start s)) at 2. rewrite escape_str_app, (escape_clean _ Hc), drop_drop.
    replace (start + (i - start))%nat with i by lia. rewrite (drop_S _ _ _ Hb). cbn. rewrite Eb. by rewrite Nat.add_1_r.
Qed.
Lemma write_json_raw_escape s : bytes_ok s → write_json_raw s = escape_str s.
Proof. intros Hs. unfold write_json_raw. rewrite raw_loop_escape by (done || lia). done. Qed.

(** ** The single-pass writer prints the tree *)

(** Strings are UTF-8, as Rust's are; the keys of a map are distinct. *)
Fixpoint json_ok (v : Value) : bool :=
  match v with
  | String s => utf8_valid s
  | Reference c d => utf8_valid c && utf8_valid d
  | Map fs => bool_decide (NoDup fs.*1) && forallb (λ kv, utf8_valid kv.1 && json_ok kv.2) fs
  | Array vs => forallb json_ok vs
  | _ => true
  end.
Definition doc_json_ok (d : HakoDoc) : bool := forallb (λ kv, utf8_valid kv.1 && json_ok kv.2) (fields d).

(** Inserting distinct keys into a tree sorts them. *)
Definition bt_extend {A} (t l : list (bytes * A)) : list (bytes * A) := foldl (λ t kv, bt_insert kv.1 kv.2 t) t l.
Lemma bt_extend_sorted {A} (t l : list (bytes * A)) : bt_sorted t → bt_sorted (bt_extend t l).
Proof. revert t; induction l as [|kv l IH]; intros t Ht; [done|]. apply IH. by apply bt_insert_sorted. Qed.
Lemma elem_of_bt_extend {A} (t l : list (bytes * A)) k v :
  bt_sorted t → NoDup l.*1 → (k, v) ∈ bt_extend t l ↔ (k, v) ∈ l ∨ (k ∉ l.*1 ∧ (k, v) ∈ t).
Proof.
  revert t; induction l as [|[k' v'] l IH]; intros t Ht Hd; cbn [bt_extend foldl].
  { split; [intros Hin; right; split; [apply not_elem_of_nil|done]|]. intros [Hin|[_ Hin]]; [by apply not_elem_of_nil in Hin|done]. }
  apply NoDup_cons in Hd as [Hk' Hd]. cbn [fst snd fmap list_fmap] in *. fold (bt_extend (bt_insert k' v' t) l).
  rewrite IH, elem_of_bt_insert by (done || by apply bt_insert_sorted). rewrite elem_of_cons, not_elem_of_cons. split.
  - intros [Hin|[Hn [[-> ->]|[Hne Hin]]]]; [left; by right|left; by left|by right].
  - intros [[[= -> ->]|Hin]|[[Hne Hn] Hin]]; [right; split; [done|by left]|by left|right; split; [done|by right]].
Qed.
Lemma bt_extend_sort {A} (l : list (bytes * A)) : NoDup l.*1 → bt_extend [] l = sort_by entry_le l.
Proof.
  intros Hd. pose proof (sort_by_key_sorted (@fst bytes A) l Hd) as Hs. apply (key_sorted_ext fst); [apply bt_extend_sorted; constructor|exact Hs|].
  intros [k v]. rewrite elem_of_bt_extend by (done || constructor). rewrite (sort_by_perm entry_le l). split; [|by left].
  intros [Hin|[_ Hin]]; [done|by apply not_elem_of_nil in Hin].
Qed.
Lemma sort_entries_map {A B} (f : A → B) (l : list (bytes * A)) : prod_map id f <$> sort_by entry_le l = sort_by entry_le (prod_map id f <$> l).
Proof.
  induction l as [|kv l IH]; [done|]. rewrite fmap_cons. unfold sort_by in *. cbn [foldr].
  rewrite (insert_sorted_map _ _ entry_le), IH; [done|]. by apply Forall_true.
Qed.

(** The fields with the time at its place. *)
Fixpoint time_merge {A} (x : A) (time_written : bool) (fs : list (bytes * A)) : list (bytes * A) :=
  match fs with
  | [] => if time_written then [] else [(TIME, x)]
  | kv :: fs =>
      let before := negb time_written && bool_decide (bytes_cmp kv.1 TIME = Gt) in
      (if before then [(TIME, x)] else []) ++ kv :: time_merge x (time_written || before || bytes_eqb kv.1 TIME) fs
  end.
Lemma time_merge_written {A} (x : A) fs : time_merge x true fs = fs.
Proof. induction fs as [|kv fs IH]; [done|]. cbn. by rewrite IH. Qed.
Lemma time_merge_cons {A} (x : A) kv fs :
  time_merge x false (kv :: fs) =
  match bytes_cmp kv.1 TIME with Eq => kv :: fs | Lt => kv :: time_merge x false fs | Gt => (TIME, x) :: kv :: fs end.
Proof.
  cbn [time_merge negb andb orb]. destruct (bytes_cmp kv.1 TIME) eqn:E.
  - apply cmp_eq in E as E'. rewrite E', bytes_eqb_refl. cbn. by rewrite time_merge_written.
  - rewrite bool_decide_false by congruence. replace (bytes_eqb kv.1 TIME) with false; [done|]. symmetry. apply not_true_iff_false.
    intros E'%bytes_eqb_eq. rewrite E', (cmp_refl bytes_cmp) in E. done.
  - rewrite bool_decide_true by done. cbn [app orb]. by rewrite time_merge_written.
Qed.
Lemma time_merge_spec {A} (x : A) fs :
  bt_sorted fs → bt_sorted (time_merge x false fs) ∧ ∀ k v, (k, v) ∈ time_merge x false fs ↔ (k, v) ∈ fs ∨ (k ∉ fs.*1 ∧ (k, v) = (TIME, x)).
Proof.
  induction 1 as [|kv fs Hs [IHs IH] Hx].
  { split; [repeat constructor|]. intros k v. cbn. rewrite list_elem_of_singleton. split; [intros ->; right; split; [apply not_elem_of_nil|done]|].
    intros [Hin|[_ Hin]]; [by apply not_elem_of_nil in Hin|done]. }
  rewrite time_merge_cons. destruct (bytes_cmp kv.1 TIME) eqn:E.
  - apply cmp_eq in E. split; [by constructor|]. intros k v. split; [by left|]. intros [Hin|[Hn [= -> ->]]]; [done|]. exfalso. apply Hn. rewrite <-E. by left.
  - split.
    + constructor; [done|]. apply Forall_forall. intros [k v] [Hin|[_ [= -> ->]]]%IH; [|exact E]. rewrite Forall_forall in Hx. by apply Hx.
    + intros k v. rewrite !elem_of_cons, IH, fmap_cons, not_elem_of_cons. split; [|tauto].
      intros [->|[Hin|[Hn [= -> ->]]]]; [by left; left|by left; right|]. right. split; [|done]. split; [|done].
      intros Et. rewrite <-Et, (cmp_refl bytes_cmp) in E. done.
  - apply (cmp_gt_lt bytes_cmp) in E. assert (Forall (λ y, bytes_cmp TIME y.1 = Lt) (kv :: fs)) as Hall.
    { constructor; [done|]. eapply Forall_impl; [exact Hx|]. intros y Hy. by eapply cmp_lt_trans. }
    split; [by constructor; [constructor|]|]. intros k v. rewrite (elem_of_cons (kv :: fs)). split; [|tauto].
    intros [[= -> ->]|Hin]; [|by left]. right. split; [|done]. intros (y & Hy & Hin)%list_elem_of_fmap. rewrite Forall_forall in Hall.
    specialize (Hall y Hin). cbv beta in Hall. rewrite <-Hy, (cmp_refl bytes_cmp) in Hall. done.
Qed.
Lemma time_merge_extend {A} (x : A) fs : bt_sorted fs → bt_extend [(TIME, x)] fs = time_merge x false fs.
Proof.
  intros Hs. destruct (time_merge_spec x fs Hs) as [Hm He]. assert (bt_sorted [(TIME, x)]) as H1 by repeat constructor.
  apply (key_sorted_ext fst); [by apply bt_extend_sorted|done|]. intros [k v]. rewrite He, elem_of_bt_extend, list_elem_of_singleton; [done..|].
  by apply key_sorted_NoDup.
Qed.
Lemma bt_sorted_map {A B} (f : A → B) (fs : list (bytes * A)) : bt_sorted fs → bt_sorted ((λ kv, (kv.1, f kv.2)) <$> fs).
Proof. induction 1 as [|kv fs Hs IH Hx]; [constructor|]. rewrite fmap_cons. constructor; [done|]. by apply Forall_fmap. Qed.

Section Writers.
Context (itoa number : Z → bytes).
Abbreviation write_json_value := (write_json_value itoa number).
Abbreviation print_json := (print_json itoa number).

Definition entry_text (kv : bytes * Json) : bytes := quoted (escape_str kv.1) ++ 58 :: print_json kv.2.
Lemma write_str_escape s : utf8_valid s = true → write_json_str s = quoted (escape_str s).
Proof. intros Hs. unfold write_json_str, quoted. by rewrite write_json_raw_escape by (by apply utf8_valid_bytes). Qed.
Lemma print_value v : json_ok v = true → write_json_value v = print_json (to_json v).
Proof.
  induction v as [|x|n|x|s|s|o l|c d|n| |fs IH|vs IH] using Value_rect'; cbn [json_ok Json.write_json_value to_json Json.print_json]; intros Hok; try done.
  - unfold write_float. by destruct (f64_is_finite x).
  - by apply write_str_escape.
  - unfold binary_json. by rewrite <-list_fmap_compose.
  - change (to_object _) with (JObject [(b#("__blob__"), JObject [(b#("len"), JInt l); (b#("offset"), JInt o)])]).
    cbn [Json.print_json fmap list_fmap commas fst snd]. change (escape_str b#("__blob__")) with (b#("__blob__")). change (escape_str b#("len")) with (b#("len")).
    change (escape_str b#("offset")) with (b#("offset")). unfold blob_json, quoted. change (b#("}}")) with (b#("}") ++ b#("}")).
    change (b#(":{")) with (58 :: b#("{")). change (b#(":")) with [58]. change (b#(",")) with [44]. repeat (rewrite <-?app_assoc, <-?app_comm_cons; cbn [app]). done.
  - bool_simpl. change (to_object _) with (JObject [(b#("__ref__"), JString (c ++ b#("/") ++ d))]).
    cbn [Json.print_json fmap list_fmap commas fst snd]. unfold ref_json. rewrite !write_json_raw_escape by (by apply utf8_valid_bytes). rewrite !escape_str_app.
    change (escape_str (b#("__ref__"))) with (b#("__ref__")). change (escape_str (b#("/"))) with [47]. change (b#("}")) with [125]. unfold quoted.
    repeat (rewrite <-?app_assoc, <-?app_comm_cons; cbn [app]). done.
  - bool_simpl. change (to_object ?l) with (JObject (bt_extend [] l)). cbn [Json.print_json].
    rewrite bt_extend_sort by (by rewrite <-list_fmap_compose).
    replace ((λ kv, (kv.1, write_json_value kv.2)) <$> fs) with (prod_map id print_json <$> ((λ kv, (kv.1, to_json kv.2)) <$> fs)).
    2:{ rewrite <-list_fmap_compose. apply Forall_fmap_ext_1, Forall_forall. intros kv Hin. rewrite Forall_forall in IH.
        pose proof (forallb_elem _ _ _ H0 Hin) as Hkv. cbv beta in Hkv. bool_simpl. unfold compose, prod_map. cbn. by rewrite IH. }
    rewrite <-sort_entries_map. unfold object. rewrite <-list_fmap_compose. f_equal. f_equal. f_equal.
    apply Forall_fmap_ext_1. rewrite (sort_by_perm entry_le). apply Forall_fmap, Forall_forall. intros kv Hin.
    pose proof (forallb_elem _ _ _ H0 Hin) as Hkv. cbv beta in Hkv. bool_simpl. unfold compose, prod_map. cbn [fst snd]. by rewrite write_str_escape.
  - f_equal. f_equal. f_equal. rewrite <-list_fmap_compose. apply Forall_fmap_ext_1, Forall_forall. intros v Hin. rewrite Forall_forall in IH.
    apply IH; [done|]. exact (forallb_elem _ _ _ Hok Hin).
Qed.
Lemma print_items ts fs :
  forallb (λ kv, utf8_valid kv.1 && json_ok kv.2) fs = true →
  ∀ w, doc_items itoa write_json_value ts w fs = entry_text <$> time_merge (JInt ts) w ((λ kv, (kv.1, to_json kv.2)) <$> fs).
Proof.
  induction fs as [|kv fs IH]; intros Hok w; [by destruct w|]. cbn [forallb] in Hok. bool_simpl. rewrite fmap_cons. cbn [doc_items time_merge fst].
  rewrite fmap_app, fmap_cons, IH by done. f_equal; [by destruct (_ && _)|]. f_equal. unfold field_json, entry_text. cbn [fst snd]. by rewrite write_str_escape, print_value.
Qed.
Lemma write_json_prints d : doc_sorted d → doc_json_ok d = true → write_json itoa number d = print_json (doc_to_json d).
Proof.
  intros Hs Hok. unfold write_json, doc_to_json. rewrite (print_items _ _ Hok). change (to_object (?kv :: ?l)) with (JObject (bt_extend [kv] l)).
  rewrite time_merge_extend; [done|]. by apply bt_sorted_map.
Qed.
End Writers.

(** ** From stored bytes *)

Lemma read_entry_valid b p k tag s q : read_entry false b p = Some (k, tag, s, q) → utf8_valid k = true → read_entry true b p = Some (k, tag, s, q).
Proof.
  unfold read_entry. destruct (get b p) as [n|]; [|done]. cbn [mbind option_bind]. destruct (get_range b (p + 1) (p + 1 + n)) as [raw|]; [|done]. cbn [mbind option_bind].
  destruct (get b (p + 1 + n)) as [t|]; [|done]. cbn [mbind option_bind]. intros H Hk.
  assert (raw = k) as ->. { destruct (skip_value t b _); [|done]. cbn in H. destruct (get_range b _ _); [|done]. by injection H. }
  rewrite from_utf8_valid by done. exact H.
Qed.
Lemma view_entries_decode dec (f : Z * bytes → Value) count b p items q :
  view_entries count b p = Some (items, q) → Forall (λ kv, utf8_valid kv.1 = true ∧ dec kv.2.1 kv.2.2 = Some (f kv.2)) items →
  map_loop dec count b p = Some (prod_map id f <$> items).
Proof.
  revert p items; induction count as [|count IH]; intros p items H Hall; cbn [view_entries map_loop] in *; [by injection H as <- _|].
  destruct (read_entry false b p) as [[[[k t] s] p']|] eqn:E; [|done]. cbn in H. destruct (view_entries count b p') as [[rest q']|] eqn:Er; [|done].
  injection H as <- <-. apply Forall_cons in Hall as [[Hk Hd] Hall]. cbn [fst snd] in *. rewrite (read_entry_valid _ _ _ _ _ _ E Hk). opt_simpl.
  rewrite Hd. opt_simpl. by rewrite (IH _ _ Er Hall).
Qed.
Lemma view_elements_decode dec (f : Z * bytes → Value) fuel count b p items q :
  view_elements fuel count b p = Some (items, q) → Forall (λ x, dec x.1 x.2 = Some (f x)) items →
  array_loop dec fuel count b p = Some (f <$> items).
Proof.
  revert count p items; induction fuel as [|fuel IH]; intros count p items H Hall; cbn [view_elements array_loop] in *; destruct (count <=? 0); try (by injection H as <- _); [done|].
  destruct (get b p) as [t|]; [|done]. opt_simpl. cbn in H. destruct (skip_value t b (p + 1)) as [p'|]; [|done]. opt_simpl. cbn in H.
  destruct (get_range b (p + 1) p') as [s|]; [|done]. opt_simpl. cbn in H. destruct (view_elements fuel (count - 1) b p') as [[rest q']|] eqn:Er; [|done].
  injection H as <- <-. apply Forall_cons in Hall as [Hd Hall]. cbn [fst snd] in *. rewrite Hd. opt_simpl. by rewrite (IH _ _ _ Er Hall).
Qed.

(** The entries of an encoded map, the elements of an encoded array. *)
Lemma view_entries_encoded fs pre post :
  forallb (λ kv, name_ok kv.1 && encodable kv.2) fs = true →
  view_entries (length fs) (pre ++ concat (encode_entry <$> fs) ++ post) (zlen pre)
  = Some (prod_map id value_span <$> fs, zlen pre + zlen (concat (encode_entry <$> fs))).
Proof.
  revert pre; induction fs as [|[k v] fs IH]; intros pre Hok; [cbn; by rewrite Z.add_0_r|].
  cbn [forallb] in Hok. bool_simpl. simpl in H, H1. destruct (encode_value_framed v H1) as (tag & data & E & _).
  rewrite !fmap_cons. cbn [concat length view_entries]. rewrite <-app_assoc, (read_entry_encoded _ _ _ _ _ _ _ H H1 E). opt_simpl.
  replace (zlen pre + zlen (encode_entry (k, v))) with (zlen (pre ++ encode_entry (k, v))) by zlen. rewrite app_assoc, IH by done. opt_simpl.
  unfold prod_map at 2. cbn [fst snd]. rewrite (value_span_eq _ _ _ E). do 2 f_equal. zlen.
Qed.
Lemma view_elements_encoded n vs pre post :
  forallb encodable vs = true → (length vs <= n)%nat →
  view_elements n (zlen vs) (pre ++ concat (encode_value <$> vs) ++ post) (zlen pre) = Some (value_span <$> vs, zlen pre + zlen (concat (encode_value <$> vs))).
Proof.
  revert pre n; induction vs as [|v vs IH]; intros pre n Hok Hn; [destruct n; cbn; by rewrite Z.add_0_r|].
  cbn [forallb] in Hok. bool_simpl. cbn [length] in Hn. destruct n as [|n]; [lia|]. rewrite !fmap_cons. cbn [concat view_elements]. split_if; [zlen|].
  destruct (encode_value_framed v H) as (tag & data & E & Hskip). rewrite (value_span_eq _ _ _ E), E, <-app_assoc, <-app_comm_cons, get_mid by done. opt_simpl.
  replace (pre ++ tag :: data ++ concat (encode_value <$> vs) ++ post)
    with ((pre ++ [tag]) ++ data ++ concat (encode_value <$> vs) ++ post) by (by rewrite <-app_assoc).
  replace (zlen pre + 1) with (zlen (pre ++ [tag])) by zlen. rewrite Hskip. opt_simpl. rewrite get_range_mid by zlen. opt_simpl.
  replace ((pre ++ [tag]) ++ data ++ concat (encode_value <$> vs) ++ post)
    with ((pre ++ [tag] ++ data) ++ concat (encode_value <$> vs) ++ post) by (by rewrite <-!app_assoc).
  replace (zlen (pre ++ [tag]) + zlen data) with (zlen (pre ++ [tag] ++ data)) by zlen. replace (zlen (v :: vs) - 1) with (zlen vs) by zlen.
  rewrite IH by (done || lia). opt_simpl. do 2 f_equal. zlen.
Qed.
Lemma decode_map_eq fuel b :
  decode_value_fuel (S fuel) 8 b = (count ← of_le <$> get_range b 4 6; Map <$> map_loop (decode_value_fuel fuel) (Z.to_nat count) b 6).
Proof. reflexivity. Qed.
Lemma decode_array_eq fuel b :
  decode_value_fuel (S fuel) 9 b = (count ← of_le <$> get_range b 4 8; Array <$> array_loop (decode_value_fuel fuel) (S (length b)) count b 8).
Proof. reflexivity. Qed.

Section Writers.
Context (itoa number : Z → bytes).
Abbreviation write_json_value := (write_json_value itoa number).
Abbreviation write_view_value := (write_view_value itoa number).

(** Scalars are read the way they are decoded. *)
Lemma view_scalar fuel tag b : tag ≠ 8 → tag ≠ 9 → write_view_value (S fuel) tag b = write_json_value <$> decode_value_fuel (S fuel) tag b.
Proof.
  intros H8 H9. cbn [Json.write_view_value decode_value_fuel]. rewrite (proj2 (Z.eqb_neq tag 8) H8), (proj2 (Z.eqb_neq tag 9) H9).
  destruct (tag =? 192); [done|]. destruct (tag =? 193); [done|]. cbn [orb]. destruct (tag =? 194); [done|]. destruct (tag =? 195); [done|].
  destruct (tag_is_small_int tag); [done|].
  destruct (tag_is_small_str tag). { destruct (get_range _ _ _) as [s|]; [|done]. cbn. by destruct (from_utf8 s). }
  destruct (tag =? 3) eqn:E3; cbn [orb]. { destruct (decode_varint b 4) as [[]|]; [|done]. done. }
  destruct (tag =? 7) eqn:E7. { destruct (decode_varint b 4) as [[]|]; [|done]. done. }
  destruct (tag =? 4). { by destruct (get_range b 4 12). }
  destruct (tag =? 5). { destruct (of_le <$> get_range b 0 4) as [n|]; [|done]. opt_simpl. destruct (get_range b 4 (4 + n)) as [s|]; [|done]. opt_simpl. by destruct (from_utf8 s). }
  destruct (tag =? 6). { destruct (of_le <$> get_range b 0 4) as [n|]; [|done]. opt_simpl. by destruct (get_range b 4 (4 + n)). }
  destruct (tag =? 10).
  { destruct (get b 4) as [n|]; [|done]. opt_simpl. destruct (get_range b 5 (5 + n)) as [c|]; [|done]. opt_simpl. destruct (from_utf8 c); [|done]. opt_simpl.
    destruct (get b (5 + n)) as [m|]; [|done]. opt_simpl. destruct (get_range b (6 + n) (6 + n + m)) as [d|]; [|done]. opt_simpl. by destruct (from_utf8 d). }
  destruct (tag =? 11); [|done]. destruct (get_range b 4 12); [|done]. opt_simpl. by destruct (get_range b 12 16).
Qed.

(** What the writer on bytes prints is what decoding and printing give. *)
Definition span_value (fuel : nat) (x : Z * bytes) : Value := default Null (decode_value_fuel fuel x.1 x.2).
Definition agrees (fuel : nat) : Prop :=
  ∀ x s, write_view_value fuel x.1 x.2 = Some s → decode_value_fuel fuel x.1 x.2 = Some (span_value fuel x) ∧ s = write_json_value (span_value fuel x).
Definition view_entry (fuel : nat) (kv : bytes * (Z * bytes)) : option (bytes * bytes) :=
  k ← from_utf8 kv.1; s ← write_view_value fuel kv.2.1 kv.2.2; Some (k, s).
Lemma view_map_eq fuel b :
  write_view_value (S fuel) 8 b =
  (count ← of_le <$> get_range b 4 6;
   '(items, p) ← view_entries (Z.to_nat count) b 6;
   if negb (p =? zlen b) then None else object id <$> mapM (view_entry fuel) (sort_by entry_le items)).
Proof. reflexivity. Qed.
Lemma view_array_eq fuel b :
  write_view_value (S fuel) 9 b =
  (count ← of_le <$> get_range b 4 8;
   '(items, p) ← view_elements (S (length b)) count b 8;
   if negb (p =? zlen b) then None else (λ texts, b#("[") ++ commas texts ++ b#("]")) <$> mapM (λ x, write_view_value fuel x.1 x.2) items).
Proof. reflexivity. Qed.
Lemma entries_agree fuel l texts :
  agrees fuel → mapM (view_entry fuel) l = Some texts →
  Forall (λ kv, utf8_valid kv.1 = true ∧ decode_value_fuel fuel kv.2.1 kv.2.2 = Some (span_value fuel kv.2)) l ∧
  texts = prod_map id (λ x, write_json_value (span_value fuel x)) <$> l.
Proof.
  intros IH Em%mapM_Some. induction Em as [|kv kt l texts' Hk Hl [Hf ->]]; [done|]. unfold view_entry, from_utf8 in Hk.
  destruct (utf8_valid kv.1) eqn:Eu; [|done]. cbn in Hk. destruct (write_view_value fuel kv.2.1 kv.2.2) as [s|] eqn:Es; [|done]. injection Hk as <-.
  apply IH in Es as [Hd ->]. split; [by constructor|done].
Qed.
Lemma elements_agree fuel l texts :
  agrees fuel → mapM (λ x, write_view_value fuel x.1 x.2) l = Some texts →
  Forall (λ x, decode_value_fuel fuel x.1 x.2 = Some (span_value fuel x)) l ∧ texts = write_json_value <$> (span_value fuel <$> l).
Proof.
  intros IH Em%mapM_Some. induction Em as [|x t l texts' Hk Hl [Hf ->]]; [done|]. apply IH in Hk as [Hd ->]. split; [by constructor|done].
Qed.
Lemma view_value_decodes fuel tag b t :
  write_view_value fuel tag b = Some t → ∃ v, decode_value_fuel fuel tag b = Some v ∧ t = write_json_value v.
Proof.
  revert tag b t; induction fuel as [|fuel IH]; intros tag b t; [done|].
  assert (agrees fuel) as IHx. { intros x s H. destruct (IH _ _ _ H) as (v & Hv & ->). unfold span_value. by rewrite Hv. }
  destruct (decide (tag = 8)) as [->|H8]; [|destruct (decide (tag = 9)) as [->|H9]]; [| |rewrite view_scalar by done; intros (v & -> & Hv)%fmap_Some; by exists v].
  - rewrite view_map_eq, decode_map_eq. destruct (of_le <$> get_range b 4 6) as [count|]; [|done]. opt_simpl.
    destruct (view_entries (Z.to_nat count) b 6) as [[items p]|] eqn:Ei; [|done]. opt_simpl. destruct (p =? zlen b); [|done]. cbn [negb].
    intros (texts & Em & ->)%fmap_Some. apply entries_agree in Em as [Hall ->]; [|done].
    rewrite (sort_by_perm entry_le items) in Hall. rewrite (view_entries_decode _ _ _ _ _ _ _ Ei Hall). opt_simpl. eexists; split; [done|].
    cbn [Json.write_json_value]. by rewrite sort_entries_map, <-list_fmap_compose.
  - rewrite view_array_eq, decode_array_eq. destruct (of_le <$> get_range b 4 8) as [count|]; [|done]. opt_simpl.
    destruct (view_elements (S (length b)) count b 8) as [[items p]|] eqn:Ei; [|done]. opt_simpl. destruct (p =? zlen b); [|done]. cbn [negb].
    intros (texts & Em & ->)%fmap_Some. apply elements_agree in Em as [Hall ->]; [|done].
    rewrite (view_elements_decode _ _ _ _ _ _ _ _ Ei Hall). opt_simpl. by eexists.
Qed.

(** Every encoded value is printed. *)
Definition printed (v : Value) : Prop :=
  ∀ fuel, encodable v = true → (length (value_span v).2 < fuel)%nat → is_Some (write_view_value fuel (value_span v).1 (value_span v).2).
Lemma length_span v : encodable v = true → length (encode_value v) = S (length (value_span v).2).
Proof. intros Hv. destruct (encode_value_framed v Hv) as (t & d & E & _). by rewrite (value_span_eq _ _ _ E), E. Qed.
Lemma length_concat_elem {A B} (f : A → list B) x l : x ∈ l → (length (f x) <= length (concat (f <$> l)))%nat.
Proof. induction 1 as [x l|x y l Hin IH]; rewrite fmap_cons; cbn [concat]; rewrite length_app; lia. Qed.
Lemma printed_map fs : Forall (λ kv, printed kv.2) fs → printed (Map fs).
Proof.
  intros IH fuel Henc Hf. destruct fuel as [|fuel]; [lia|]. unfold value_span in *. cbn [encode_value encodable] in *. bool_simpl. cbn [fst snd] in *.
  change (λ kv : bytes * Value, as_u8 (zlen kv.1) :: kv.1 ++ encode_value kv.2) with encode_entry in *.
  rewrite view_map_eq, map_body_count by done. opt_simpl. replace (Z.to_nat (zlen fs)) with (length fs) by (unfold zlen; lia).
  destruct (with_len_split (to_le 2 (as_u16 (zlen fs)) ++ concat (encode_entry <$> fs))) as (h & Hh & Eh).
  rewrite Eh in *. rewrite app_assoc, <-(app_nil_r (concat _)). replace 6 with (zlen (h ++ to_le 2 (as_u16 (zlen fs)))) by zlen.
  rewrite view_entries_encoded by done. opt_simpl. rewrite app_nil_r. split_if; [exfalso; zlen|].
  apply fmap_is_Some, mapM_is_Some_2. rewrite (sort_by_perm entry_le). apply Forall_fmap, Forall_forall. intros [k v] Hin.
  pose proof (forallb_elem _ _ _ H1 Hin) as Hkv. cbn [fst snd] in Hkv. bool_simpl. unfold compose, view_entry, prod_map, id. cbn [fst snd].
  pose proof (name_ok_inv _ H2) as [Hu _]. rewrite from_utf8_valid by done. opt_simpl. rewrite Forall_forall in IH.
  destruct (IH (k, v) Hin fuel H3) as [t Ht]; [cbn [fst snd]|cbn [fst snd] in Ht; rewrite Ht; by eexists].
  pose proof (length_concat_elem encode_entry (k, v) fs Hin) as Hle. rewrite encode_entry_unfold in Hle. cbn [length fst snd] in *.
  rewrite length_app, length_span in Hle by done. rewrite !length_app in Hf. lia.
Qed.
Lemma printed_array vs : Forall printed vs → printed (Array vs).
Proof.
  intros IH fuel Henc Hf. destruct fuel as [|fuel]; [lia|]. unfold value_span in *. cbn [encode_value encodable] in *. bool_simpl. cbn [fst snd] in *.
  rewrite view_array_eq, array_body_count by done. opt_simpl.
  destruct (with_len_split (to_le 4 (as_u32 (zlen vs)) ++ concat (encode_value <$> vs))) as (h & Hh & Eh).
  rewrite Eh in *. rewrite !length_app in Hf. set (n := S (length _)).
  assert (length vs <= n)%nat.
  { assert (length vs <= length (concat (encode_value <$> vs)))%nat; [|unfold n; rewrite !length_app; lia]. clear -H1.
    induction vs as [|v vs IHv]; [done|]. cbn [forallb] in H1. bool_simpl. rewrite fmap_cons. cbn [concat length]. rewrite length_app, length_span by done.
    specialize (IHv H0). lia. }
  clearbody n. rewrite app_assoc, <-(app_nil_r (concat _)). replace 8 with (zlen (h ++ to_le 4 (as_u32 (zlen vs)))) by zlen.
  rewrite view_elements_encoded by done. opt_simpl. rewrite app_nil_r. split_if; [exfalso; zlen|].
  apply fmap_is_Some, mapM_is_Some_2, Forall_fmap, Forall_forall. intros v Hin. rewrite Forall_forall in IH.
  pose proof (forallb_elem _ _ _ H1 Hin) as Hv. apply (IH v Hin fuel Hv). pose proof (length_concat_elem encode_value v vs Hin) as Hle.
  rewrite length_span in Hle by done. lia.
Qed.
Lemma span_decodes v fuel : encodable v = true → (length (value_span v).2 < fuel)%nat → is_Some (decode_value_fuel fuel (value_span v).1 (value_span v).2).
Proof.
  intros Hv Hf. destruct (encode_value_framed v Hv) as (tag & data & E & _). rewrite (value_span_eq _ _ _ E) in *. exists v. by apply decode_encode_value.
Qed.
Lemma value_span_array v : encodable v = true → ((value_span v).1 =? 9) = match v with Array _ => true | _ => false end.
Proof.
  destruct v; intros Hv; unfold value_span; cbn [encode_value]; try done.
  - by destruct b.
  - split_if; [|done]. cbn [fst]. apply Z.eqb_neq. rewrite as_u8_id by (unfold is_byte; lia).
    destruct (small_int_tag n ltac:(lia)) as (_ & E & _). intros E'. rewrite as_u8_id in E by (unfold is_byte; lia). by rewrite E' in E.
  - split_if; [|done]. cbn [fst]. apply Z.eqb_neq. intros E'. pose proof (zlen_nonneg s).
    destruct (small_str_tag (zlen s) ltac:(lia)) as (_ & _ & E & _). by rewrite E' in E.
Qed.
Lemma value_printed v : printed v.
Proof.
  induction v as [|x|n|x|s|s|o l|c d|n| |fs IH|vs IH] using Value_rect'; [..|by apply printed_map|by apply printed_array].
  all: intros [|fuel] Henc Hf; [lia|]; rewrite view_scalar;
    [apply fmap_is_Some; by apply span_decodes|apply Z.eqb_neq; by rewrite value_span_map|apply Z.eqb_neq; by rewrite value_span_array].
Qed.
Lemma view_value_encoded v fuel :
  encodable v = true → (length (value_span v).2 < fuel)%nat → write_view_value fuel (value_span v).1 (value_span v).2 = Some (write_json_value v).
Proof.
  intros Hv Hf. destruct (value_printed v fuel Hv Hf) as [t Ht]. rewrite Ht. apply view_value_decodes in Ht as (w & Hw & ->).
  destruct (encode_value_framed v Hv) as (tag & data & E & _). rewrite (value_span_eq _ _ _ E) in *. cbn [fst snd] in *.
  pose proof (decode_encode_value v fuel Hv tag data E Hf). congruence.
Qed.

(** ** Documents *)

Definition item_json (x : bytes * Z * bytes) : option (bytes * bytes) :=
  let '(key, tag, data) := x in s ← write_view_value (S (length data)) tag data; Some (key, s).
Lemma view_items_decode items (texts : list (bytes * bytes)) :
  mapM item_json items = Some texts →
  ∃ fs : list (bytes * Value), mapM (λ '(key, tag, data), v ← decode_value tag data; Some (key, v)) items = Some fs ∧ texts = prod_map id write_json_value <$> fs.
Proof.
  revert texts; induction items as [|[[key tag] data] items IH]; intros texts H; [injection H as <-; by exists []|]. cbn [mapM] in H |- *. change (item_json (key, tag, data)) with (s ← write_view_value (S (length data)) tag data; Some (key, s)) in H.
  destruct (write_view_value (S (length data)) tag data) as [s|] eqn:E; [|done]. cbn [mbind option_bind] in H.
  destruct (mapM item_json items) as [ts|]; [|done]. injection H as <-. apply view_value_decodes in E as (v & Hv & ->). destruct (IH _ eq_refl) as (fs & Hfs & ->).
  change (decode_value tag data) with (decode_value_fuel (S (length data)) tag data). rewrite Hv. opt_simpl. rewrite Hfs. by eexists.
Qed.
Lemma doc_items_map ts fs w : doc_items itoa id ts w (prod_map id write_json_value <$> fs) = doc_items itoa write_json_value ts w fs.
Proof. revert w; induction fs as [|kv fs IH]; intros w; [done|]. rewrite fmap_cons. cbn [doc_items prod_map fst id]. by rewrite IH. Qed.

Lemma view_new_bytes b v : view_new b = Some v → v_bytes v = b.
Proof.
  unfold view_new. destruct (_ || _); [done|]. destruct (i64_of_le <$> get_range b 2 10); [|done]. opt_simpl. destruct (of_le <$> get_range b 10 12); [|done]. opt_simpl.
  by intros [= <-].
Qed.
(** Accepted bytes decode, and the text is the decoded document's. *)
Lemma view_json_decodes b t : view_json itoa number b = Some t → ∃ d, decode b = Some d ∧ t = write_json itoa number d.
Proof.
  unfold view_json, decode. destruct (view_new b) as [v|]; [|done]. opt_simpl.
  destruct (iter_all true (view_iter v)) as [items it]. change (mapM _ items) with (mapM item_json items) at 1.
  destruct (mapM item_json items) as [texts|] eqn:E; [|done]. opt_simpl. apply view_items_decode in E as (fs & -> & ->). opt_simpl.
  destruct (fully_consumed it b); [|done]. intros [= <-]. eexists; split; [done|]. unfold write_json. cbn [fields _time]. by rewrite doc_items_map.
Qed.
(** Every stored document is printed. *)
Lemma view_json_encode d : doc_encodable d = true → view_json itoa number (encode d) = Some (write_json itoa number d).
Proof.
  intros Hd. unfold view_json. rewrite view_new_encode by done. opt_simpl. unfold view_iter. cbn [v_bytes v_count v_time].
  replace (Z.to_nat (zlen (fields d))) with (length (fields d)) by (unfold zlen; lia). rewrite iter_all_encode by done.
  assert (mapM item_json (entry_item <$> fields d) = Some (prod_map id write_json_value <$> fields d)) as Hm.
  { apply doc_encodable_inv in Hd as (_ & _ & Hok). generalize dependent (fields d). intros fs Hok. induction fs as [|[k v] fs IH]; [done|].
    cbn [forallb] in Hok. bool_simpl. cbn [fst snd] in *. rewrite !fmap_cons. cbn [mapM]. destruct (encode_value_framed v H1) as (tag & data & E & _).
    pose proof (view_value_encoded v (S (length data)) H1) as Hw. rewrite (value_span_eq _ _ _ E) in Hw. cbn [fst snd] in Hw.
    rewrite (entry_item_eq _ _ _ _ E). change (item_json (k, tag, data)) with (s ← write_view_value (S (length data)) tag data; Some (k, s)). rewrite Hw by lia. opt_simpl. by rewrite IH. }
  unfold item_json in Hm. rewrite Hm. opt_simpl. unfold fully_consumed. cbn [it_remaining it_pos]. rewrite Z.eqb_refl. cbn. unfold write_json. by rewrite doc_items_map.
Qed.
End Writers.

(** ** The contracts *)

(** C38: the writer on stored bytes and the single-pass writer on documents print what
    printing the tree of [to_json] prints; the former also says nothing else of any
    bytes it accepts. *)
Theorem json_writers_agree itoa number d :
  doc_sorted d → doc_json_ok d = true → doc_encodable d = true →
  write_json itoa number d = print_json itoa number (doc_to_json d) ∧
  view_json itoa number (encode d) = Some (write_json itoa number d) ∧
  ∀ b t, view_json itoa number b = Some t → ∃ d', decode b = Some d' ∧ t = write_json itoa number d'.
Proof. intros Hs Hok He. split; [by apply write_json_prints|]. split; [by apply view_json_encode|apply view_json_decodes]. Qed.

(** A document with a field above and below [_time], a nested map out of order, a
    string to escape past its eighth byte. *)
Definition digit (n : Z) : bytes := [48 + n].
Definition sample : HakoDoc :=
  mkDoc [(b#("A"), Map [(b#("y"), Int 1); (b#("x"), Bool true)]); (b#("b"), Array [Null; Reference b#("c") b#("d"); BlobLink 7 8]);
         (b#("c"), String (b#("abcdefgh") ++ [34; 10; 31]))] 5.
Lemma json_writers_agree_witness :
  write_json digit digit sample = print_json digit digit (doc_to_json sample) ∧ view_json digit digit (encode sample) = Some (write_json digit digit sample).
Proof.
  assert (doc_sorted sample) as Hs by (unfold doc_sorted, key_sorted; repeat constructor).
  destruct (json_writers_agree digit digit sample Hs eq_refl eq_refl) as (H1 & H2 & _). by split.
Defined.

(** The contract says that bytes are refused as [decode] refuses them; bytes past the
    last element of a nested array decode but are refused. *)
Definition slack : bytes := [MAGIC; VERSION] ++ i64_to_le 0 ++ [1; 0; 1; 97; 9] ++ to_le 4 5 ++ to_le 4 0 ++ [0].
Lemma slack_not_printed itoa number : decode slack = Some (mkDoc [([97], Array [])] 0) ∧ view_json itoa number slack = None.
Proof. split; vm_compute; reflexivity. Qed.

(** ** Reading trees back *)

Fixpoint keys_sorted (l : list bytes) : bool := match l with [] => true | k :: l => forallb (bytes_ltb k) l && keys_sorted l end.
(** Values that JSON keeps: no timestamps, bytes or placeholders, finite numbers, no
    slash in the collection of a reference, maps in key order without the two
    reserved keys. *)
Fixpoint json_plain (v : Value) : bool :=
  match v with
  | Null | Bool _ | String _ => true
  | Int n => i64b n
  | Float f => f64_is_finite f
  | Reference c d => negb (existsb (Z.eqb 47) c)
  | BlobLink o l => u64b o && u32b l
  | Map fs =>
      keys_sorted fs.*1 && forallb (λ kv, negb (bytes_eqb kv.1 b#("__ref__")) && negb (bytes_eqb kv.1 b#("__blob__")) && json_plain kv.2) fs
  | Array vs => forallb json_plain vs
  | Binary _ | Timestamp _ | ServerTimestamp => false
  end.
Lemma keys_sorted_spec {A} (l : list (bytes * A)) : keys_sorted l.*1 = true → bt_sorted l.
Proof.
  induction l as [|kv l IH]; [constructor|]. rewrite fmap_cons. cbn [keys_sorted]. intros [Hk Hl]%andb_true_iff. constructor; [by apply IH|].
  apply Forall_forall. intros x Hx. assert (x.1 ∈ l.*1) as Hin by (apply list_elem_of_fmap; eauto). pose proof (forallb_elem _ _ _ Hk Hin) as Hlt. by apply bytes_ltb_lt.
Qed.
Lemma to_object_sorted l : bt_sorted l → to_object l = JObject l.
Proof.
  intros Hs. change (to_object l) with (JObject (bt_extend [] l)). f_equal. apply (key_sorted_ext fst); [apply bt_extend_sorted; constructor|done|].
  intros [k v]. rewrite elem_of_bt_extend by (constructor || by apply key_sorted_NoDup). split; [|by left]. intros [Hin|[_ Hin]]; [done|by apply not_elem_of_nil in Hin].
Qed.
Lemma split_once_app c s r : existsb (Z.eqb c) s = false → split_once c (s ++ c :: r) = Some (s, r).
Proof.
  induction s as [|x s IH]; cbn [existsb split_once app]; [by rewrite Z.eqb_refl|]. intros [Hx Hs]%orb_false_iff. rewrite Z.eqb_sym, Hx. cbn. by rewrite IH.
Qed.
Lemma from_json_map obj :
  assoc b#("__ref__") obj = None → assoc b#("__blob__") obj = None → from_json (JObject obj) = Map ((λ kv, (kv.1, from_json kv.2)) <$> obj).
Proof. intros H1 H2. cbn [from_json]. by rewrite H1, H2. Qed.
Theorem json_roundtrip v : json_plain v = true → from_json (to_json v) = v.
Proof.
  induction v as [|x|n|x|s|s|o l|c d|n| |fs IH|vs IH] using Value_rect'; cbn [json_plain to_json]; intros H; try done.
  - unfold i64b in H. bool_simpl. cbn. unfold as_i64_json. by rewrite (proj2 (Z.ltb_lt _ _)) by lia.
  - by rewrite H.
  - unfold u64b, u32b in H. bool_simpl. change (to_object _) with (JObject [(b#("__blob__"), JObject [(b#("len"), JInt l); (b#("offset"), JInt o)])]).
    change (from_json _) with (BlobLink (if 0 <=? o then o else 0) (as_u32 (if 0 <=? l then l else 0))). do 2 (rewrite (proj2 (Z.leb_le _ _)) by lia).
    by rewrite as_u32_id by (unfold is_u32; lia).
  - apply negb_true_iff in H. change (to_object _) with (JObject [(b#("__ref__"), JString (c ++ [47] ++ d))]). 
    change (from_json _) with (match split_once 47 (c ++ 47 :: d) with Some (col, id) => Reference col id | None => Map [(b#("__ref__"), String (c ++ 47 :: d))] end).
    by rewrite split_once_app.
  - bool_simpl. rewrite to_object_sorted by (by apply bt_sorted_map, keys_sorted_spec).
    rewrite from_json_map by (apply assoc_None; rewrite <-list_fmap_compose; intros (kv & E & Hin)%list_elem_of_fmap;
      pose proof (forallb_elem _ _ _ H0 Hin) as Hkv; cbv beta in Hkv; unfold compose in E; cbn [fst] in E; rewrite <-E in Hkv; by rewrite bytes_eqb_refl, ?andb_false_r in Hkv).
    f_equal. rewrite <-list_fmap_compose. rewrite <-(list_fmap_id fs) at 2. apply Forall_fmap_ext_1, Forall_forall. intros [k v] Hin. rewrite Forall_forall in IH.
    pose proof (forallb_elem _ _ _ H0 Hin) as Hkv. cbn [fst snd] in Hkv. apply andb_true_iff in Hkv as [_ Hv]. pose proof (IH _ Hin Hv) as IHv. unfold compose. cbn [fst snd] in *. by rewrite IHv.
  - cbn [from_json]. f_equal. rewrite <-list_fmap_compose. rewrite <-(list_fmap_id vs) at 2. apply Forall_fmap_ext_1, Forall_forall. intros v Hin. rewrite Forall_forall in IH.
    apply (IH _ Hin). exact (forallb_elem _ _ _ H Hin).
Qed.
