(* ===== verification/JsonFront.v ===== *)
(** * JSON reads of the facade (src/engine/engine.rs)

    Point reads and queries that answer in JSON: from the stored bytes when a row has
    no blobs, from the resolved document when it has.  The array is written into a
    buffer, whose state is explicit; [partial] is what a writer that gives up has
    appended by then. *)

From stdpp Require Import prelude list gmap strings.
From Stdlib Require Import ZArith Lia.
From S2P Require Import Prelude RustStd Error Config Crypto VFile Value Doc DocFacts DocCodec DocAccess Wal PageCache StorageIndex Segment Blob Storage Filter IndexKey Composite CompositeManager.
From S2P Require Import Traverse Query Matcher Worker TermIndex IndexManager Planner SortFacts Executor PlanCache Pipeline Facade Graph GraphQuery SyncCore QueryFront Json JsonProps.

Local Open Scope Z_scope.
Local Open Scope hako_scope.

Section JsonFront.
Context `{Crc} `{Zstd} `{HashIter} {cipher : Type} `{Aead cipher}.
Context (from_secret : bytes → EncryptionContext cipher) (to_lowercase : bytes → bytes) (is_alphanumeric : bytes → bool).
Context (debug : Value → bytes) (sip : bytes → Z).
Context (knn : StorageEngine cipher → IndexManager → bytes → bytes → bytes → Metric → list Filter → option nat → list (bytes * Pointer)).
Context (itoa number : Z → bytes) (partial : bytes → bytes).
Abbreviation Hako := (Hako (cipher := cipher)).
Abbreviation FM := (SR (Front (cipher := cipher))).
Abbreviation write_json := (write_json itoa number).
Abbreviation view_json := (view_json itoa number).

(** [json_from_view], for the view [v] of the bytes [b]. *)
Definition json_from_view (now : Z) (c : bytes) (v : HakoDocView) : SR Hako (option bytes) :=
  if has_blob_links v then
    match decode (v_bytes v) with
    | None => mret None
    | Some doc =>
        _ ← get_shard from_secret now c;
        doc ← resolve_in c doc;
        mret (Some (write_json doc))
    end
  else mret (view_json (v_bytes v)).
Definition get_json (now : Z) (c id : bytes) : SR Hako (option (Z * bytes)) :=
  view ← get_view from_secret now c id;
  match view with
  | None => mret None
  | Some v => json ← json_from_view now c v; mret ((λ j, (v_time v, j)) <$> json)
  end.

(** ** Queries *)

Definition owned (q : Query) : Query :=
  mkQuery (q_collection q) (q_filters q) (q_or_groups q) (q_elem_match q) (q_order_by q) (q_limit q) (q_offset q)
    (q_projection q) (q_aggregations q) (q_start_at q) (q_start_after q) (q_end_at q) (q_end_before q) (q_defer_blobs q) false.
Definition raw_allowed (q : Query) : bool := bool_decide (q_projection q = []) && bool_decide (q_aggregations q = []).
Abbreviation raw_rows := (query_raw from_secret to_lowercase is_alphanumeric debug sip knn).
Abbreviation rows_of := (hako_query from_secret to_lowercase is_alphanumeric debug sip knn).

(** [query_json]. *)
Fixpoint json_rows (now : Z) (q : Query) (rows : list (bytes * bytes)) : FM (list (bytes * bytes)) :=
  match rows with
  | [] => mret []
  | (id, b) :: rows =>
      match view_new b with
      | None => json_rows now q rows
      | Some v =>
          json ← (if q_defer_blobs q then mret (view_json b) else on_db (json_from_view now (q_collection q) v));
          rest ← json_rows now q rows;
          mret (match json with Some j => (id, j) :: rest | None => rest end)
      end
  end.
Definition query_json (now instant : Z) (fuel : nat) (q : Query) : FM (list (bytes * bytes)) :=
  let decoded := rows ← rows_of now instant fuel (owned q); mret ((λ kv, (kv.1, write_json kv.2)) <$> rows) in
  if raw_allowed q then λ f,
    match raw_rows now instant q f with
    | (f, Ok rows) => json_rows now q rows f
    | (f, Err (QueryError _)) => decoded f
    | (f, Err e) => (f, Err e)
    | (f, Panic) => (f, Panic)
    end
  else decoded.

(** [query_json_into]: the same with one buffer. *)
Abbreviation BM := (SR (Front (cipher := cipher) * bytes)).
Definition on_front {A} (act : FM A) : BM A := λ '(f, out), let '(f, r) := act f in ((f, out), r).
Definition push (s : bytes) : BM unit := λ '(f, out), ((f, out ++ s), Ok tt).
Definition truncate (mark : nat) : BM unit := λ '(f, out), ((f, take mark out), Ok tt).
Definition pop_byte : BM unit := λ '(f, out), ((f, removelast out), Ok tt).
Definition mark_of : BM nat := λ '(f, out), ((f, out), Ok (length out)).
(** [DocView::write_json] on the buffer. *)
Definition view_write (b : bytes) : BM bool :=
  match view_json b with
  | Some j => _ ← push j; mret true
  | None => _ ← push (partial b); mret false
  end.
Fixpoint into_rows (now : Z) (q : Query) (rows : list (bytes * bytes)) (n : nat) : BM nat :=
  match rows with
  | [] => mret n
  | (_, b) :: rows =>
      match view_new b with
      | None => into_rows now q rows n
      | Some v =>
          _ ← (if (0 <? n)%nat then push [44] else mret tt);
          mark ← mark_of;
          wrote ← (if q_defer_blobs q || negb (has_blob_links v) then view_write b
                   else
                     json ← on_front (on_db (json_from_view now (q_collection q) v));
                     match json with Some j => _ ← push j; mret true | None => mret false end);
          if negb wrote then
            _ ← truncate mark;
            _ ← (if (0 <? n)%nat then pop_byte else mret tt);
            into_rows now q rows n
          else into_rows now q rows (S n)
      end
  end.
Fixpoint push_docs (docs : list (bytes * HakoDoc)) (n : nat) : BM nat :=
  match docs with
  | [] => mret n
  | (_, doc) :: docs =>
      _ ← (if (0 <? n)%nat then push [44] else mret tt);
      _ ← push (write_json doc);
      push_docs docs (S n)
  end.
Definition query_json_into (now instant : Z) (fuel : nat) (q : Query) : BM nat :=
  let decoded :=
    _ ← push [91];
    docs ← on_front (rows_of now instant fuel (owned q));
    n ← push_docs docs 0;
    _ ← push [93];
    mret n in
  if raw_allowed q then λ '(f, out),
    match raw_rows now instant q f with
    | (f, Ok rows) => (_ ← push [91]; n ← into_rows now q rows 0; _ ← push [93]; mret n) (f, out)
    | (f, Err (QueryError _)) => decoded (f, out)
    | (f, Err e) => ((f, out), Err e)
    | (f, Panic) => ((f, out), Panic)
    end
  else decoded.

(** [walk_json]: the callback has a state of its own. *)
Fixpoint visit_rows {St} (callback : bytes → bytes → St → St * bool) (rows : list (bytes * bytes)) (s : St) (visited : nat) : St * nat :=
  match rows with
  | [] => (s, visited)
  | (id, json) :: rows =>
      let '(s, go) := callback id json s in
      if go then visit_rows callback rows s (S visited) else (s, S visited)
  end.
Definition walk_json {St} (now instant : Z) (fuel : nat) (q : Query) (callback : bytes → bytes → St → St * bool) (s : St) : FM (St * nat) :=
  rows ← query_json now instant fuel q;
  mret (visit_rows callback rows s 0).

(** ** The buffer holds the rows *)

Definition count_rows (n : nat) (r : res (list (bytes * bytes))) : res nat :=
  match r with Ok rows => Ok (n + length rows)%nat | Err e => Err e | Panic => Panic end.
(** The rows after the first [n]. *)
Fixpoint items_from (n : nat) (items : list bytes) : bytes :=
  match items with
  | [] => []
  | x :: items => (if (0 <? n)%nat then [44] else []) ++ x ++ items_from (S n) items
  end.
Lemma items_commas items : commas items = items_from 0 items.
Proof.
  assert (∀ n items, items_from (S n) items = match items with [] => [] | _ => 44 :: commas items end) as Hs.
  { intros n l; revert n. induction l as [|x l IH]; intros n; [done|]. cbn [items_from]. rewrite IH. cbn. destruct l; [by rewrite app_nil_r|done]. }
  destruct items as [|x [|y l]]; [done|cbn; by rewrite app_nil_r|]. 
  change (commas (x :: y :: l)) with (x ++ 44 :: commas (y :: l)). change (items_from 0 (x :: y :: l)) with (x ++ items_from 1 (y :: l)). by rewrite Hs.
Qed.
Definition fills (act : BM nat) (f : Front (cipher := cipher)) (out : bytes) (n : nat) (rows : Front (cipher := cipher) * res (list (bytes * bytes))) : Prop :=
  ∃ out', act (f, out) = ((rows.1, out'), count_rows n rows.2) ∧ ∀ l, rows.2 = Ok l → out' = out ++ items_from n l.*2.
Lemma bind_run {S A B} (m : SR S A) (k : A → SR S B) s :
  (m ≫= k) s = match m s with (s, Ok a) => k a s | (s, Err e) => (s, Err e) | (s, Panic) => (s, Panic) end.
Proof. done. Qed.
Definition row_json (now : Z) (q : Query) (b : bytes) (v : HakoDocView) : FM (option bytes) :=
  if q_defer_blobs q then mret (view_json b) else on_db (json_from_view now (q_collection q) v).
Definition row_write (now : Z) (q : Query) (b : bytes) (v : HakoDocView) : BM bool :=
  if q_defer_blobs q || negb (has_blob_links v) then view_write b
  else
    json ← on_front (on_db (json_from_view now (q_collection q) v));
    match json with Some j => _ ← push j; mret true | None => mret false end.
Lemma row_write_spec now q b v f out :
  view_new b = Some v →
  match row_json now q b v f with
  | (f1, Ok (Some j)) => row_write now q b v (f, out) = ((f1, out ++ j), Ok true)
  | (f1, Ok None) => ∃ junk, row_write now q b v (f, out) = ((f1, out ++ junk), Ok false)
  | (f1, Err e) => row_write now q b v (f, out) = ((f1, out), Err e)
  | (f1, Panic) => row_write now q b v (f, out) = ((f1, out), Panic)
  end.
Proof.
  intros Hv. apply view_new_bytes in Hv. unfold row_json, row_write. destruct (q_defer_blobs q); cbn [orb].
  - unfold view_write. cbn. destruct (view_json b) as [j|]; [done|]. by exists (partial b).
  - unfold json_from_view. destruct (has_blob_links v) eqn:El; cbn [negb].
    + set (act := match decode (v_bytes v) with None => _ | Some _ => _ end). unfold mbind, SR_bind, on_front. cbn beta iota.
      destruct (on_db act f) as [f1 [[j|]| |]]; [done| |done..]. exists []. by rewrite app_nil_r.
    + rewrite Hv. unfold view_write. cbn. replace (with_db (db f) f) with f by (by destruct f). destruct (view_json b) as [j|]; [done|]. by exists (partial b).
Qed.
Lemma into_rows_fills now q rows n f out : fills (into_rows now q rows n) f out n (json_rows now q rows f).
Proof.
  revert n f out; induction rows as [|[id b] rows IH]; intros n f out.
  { exists out. cbn. rewrite Nat.add_0_r. split; [done|]. intros l [= <-]. cbn. by rewrite app_nil_r. }
  cbn [into_rows json_rows]. destruct (view_new b) as [v|] eqn:Ev; [|apply IH]. fold (row_json now q b v) (row_write now q b v).
  set (out0 := out ++ (if (0 <? n)%nat then [44] else [])).
  assert ((if (0 <? n)%nat then push [44] else mret tt : BM unit) (f, out) = ((f, out0), Ok tt)) as Hpush.
  { unfold out0. destruct (0 <? n)%nat; [done|]. by rewrite app_nil_r. }
  pose proof (row_write_spec now q b v f out0 Ev) as Hw. unfold fills. rewrite (bind_run _ _ (f, out)), Hpush, bind_run. cbn [mark_of].
  rewrite (bind_run (row_write now q b v)), (bind_run (row_json now q b v)). destruct (row_json now q b v f) as [f1 [[j|]|e|]].
  - rewrite Hw. cbn [negb]. destruct (IH (S n) f1 (out0 ++ j)) as (out' & E & Ho). rewrite E, (bind_run (json_rows now q rows)).
    destruct (json_rows now q rows f1) as [f2 [l| |]]; cbn [fst snd count_rows mret SR_ret length] in *; exists out'; (split; [done||by rewrite Nat.add_succ_r|]); [|done..].
    intros ? [= <-]. rewrite (Ho l eq_refl). unfold out0. rewrite fmap_cons. cbn [items_from snd]. by rewrite <-!app_assoc.
  - destruct Hw as [junk ->]. cbn [negb]. rewrite (bind_run (truncate _)). cbn [truncate]. rewrite take_app_length.
    assert ((if (0 <? n)%nat then pop_byte else mret tt : BM unit) (f1, out0) = ((f1, out), Ok tt)) as Hpop.
    { unfold out0. destruct (0 <? n)%nat; [cbn; by rewrite removelast_last|by rewrite app_nil_r]. }
    rewrite (bind_run _ _ (f1, out0)), Hpop. destruct (IH n f1 out) as (out' & E & Ho). rewrite E, (bind_run (json_rows now q rows)).
    destruct (json_rows now q rows f1) as [f2 [l| |]]; cbn [fst snd] in *; by exists out'.
  - rewrite Hw. by exists out0.
  - rewrite Hw. by exists out0.
Qed.
Lemma push_docs_fills docs n f out :
  push_docs docs n (f, out) = ((f, out ++ items_from n ((λ kv, write_json kv.2) <$> docs)), Ok (n + length docs)%nat).
Proof.
  revert n out; induction docs as [|[id doc] docs IH]; intros n out; [by rewrite app_nil_r, Nat.add_0_r|]. cbn [push_docs].
  assert ((if (0 <? n)%nat then push [44] else mret tt : BM unit) (f, out) = ((f, out ++ (if (0 <? n)%nat then [44] else [])), Ok tt)) as Hpush.
  { destruct (0 <? n)%nat; [done|]. by rewrite app_nil_r. }
  rewrite (bind_run _ _ (f, out)), Hpush, bind_run. cbn [push]. rewrite IH, fmap_cons. cbn [items_from snd length]. by rewrite <-!app_assoc, Nat.add_succ_r.
Qed.
Definition matches (act : BM nat) (f : Front (cipher := cipher)) (out : bytes) (rows : Front (cipher := cipher) * res (list (bytes * bytes))) : Prop :=
  ∃ out', act (f, out) = ((rows.1, out'), count_rows 0 rows.2) ∧ ∀ l, rows.2 = Ok l → out' = out ++ [91] ++ commas l.*2 ++ [93].
Lemma raw_matches now q rows f out : matches (_ ← push [91]; n ← into_rows now q rows 0; _ ← push [93]; mret n) f out (json_rows now q rows f).
Proof.
  unfold matches. rewrite bind_run. cbn [push]. destruct (into_rows_fills now q rows 0 f (out ++ [91])) as (out' & E & Ho). rewrite bind_run, E.
  destruct (json_rows now q rows f) as [f' [l| |]]; cbn [fst snd count_rows] in *; [|by exists out'..]. rewrite (Ho l eq_refl). eexists. split; [done|].
  intros ? [= <-]. by rewrite items_commas, <-!app_assoc.
Qed.
Lemma owned_matches now instant fuel q f out :
  matches (_ ← push [91]; docs ← on_front (rows_of now instant fuel (owned q)); n ← push_docs docs 0; _ ← push [93]; mret n) f out
    ((rows ← rows_of now instant fuel (owned q); mret ((λ kv, (kv.1, write_json kv.2)) <$> rows)) f).
Proof.
  unfold matches. rewrite (bind_run (push [91])). cbn [push]. rewrite (bind_run (on_front _)), (bind_run (rows_of now instant fuel (owned q))). unfold on_front.
  destruct (rows_of now instant fuel (owned q) f) as [f' [docs| |]]; cbn [fst snd count_rows mret SR_ret]; [|by eexists..].
  rewrite bind_run, push_docs_fills. eexists. rewrite length_fmap. split; [done|]. intros ? [= <-]. rewrite items_commas, <-!app_assoc, <-list_fmap_compose. done.
Qed.
Lemma query_json_into_matches now instant fuel q f out : matches (query_json_into now instant fuel q) f out (query_json now instant fuel q f).
Proof.
  unfold query_json, query_json_into. destruct (raw_allowed q); [|apply owned_matches]. unfold matches at 1.
  destruct (raw_rows now instant q f) as [f' [rows|e|]]; [apply raw_matches| |by exists out]. destruct e; try (by exists out). apply owned_matches.
Qed.

(** ** Rows with blobs *)

Lemma link_span v tag data :
  encodable v = true → encode_value v = tag :: data →
  resolvable v = (tag =? 11) && match get_range data 4 12 with Some o => negb (of_le o =? 2 ^ 64 - 1) | None => true end.
Proof.
  intros Hv E. destruct v; cbn [encode_value] in E; try (apply cons_inv in E as [<- _]; done).
  - destruct b; by apply cons_inv in E as [<- _].
  - split_if in E; apply cons_inv in E as [<- _]; [|done]. replace (Z.lor 0x10 (as_u8 n) =? 11) with false; [done|]. symmetry. apply Z.eqb_neq. intros E'.
    destruct (small_int_tag n ltac:(lia)) as (_ & E & _). by rewrite E' in E.
  - split_if in E; apply cons_inv in E as [<- _]; [|done]. replace (Z.lor 0x40 (as_u8 (zlen s)) =? 11) with false; [done|]. symmetry. apply Z.eqb_neq. intros E'.
    pose proof (zlen_nonneg s). destruct (small_str_tag (zlen s) ltac:(lia)) as (_ & _ & E & _). by rewrite E' in E.
  - apply cons_inv in E as [<- <-]. cbn [encodable] in Hv. unfold u64b in Hv. bool_simpl. cbn [resolvable Z.eqb andb].
    rewrite (get_range_mid (to_le 4 12) (to_le 8 offset) (to_le 4 len) 4 12) by zlen. by rewrite of_le_to_le_u64 by (unfold is_u64; lia).
Qed.
Lemma links_doc d : doc_encodable d = true → has_blob_links (mkView (encode d) (zlen (fields d)) (_time d)) = existsb (λ kv, resolvable kv.2) (fields d).
Proof.
  intros Hd. unfold has_blob_links, view_iter. cbn [v_bytes v_count v_time].
  replace (Z.to_nat (zlen (fields d))) with (length (fields d)) by (unfold zlen; lia). rewrite iter_all_encode by done. cbn [fst].
  apply doc_encodable_inv in Hd as (_ & _ & Hok). induction (fields d) as [|[k v] fs IH]; [done|]. cbn [forallb fst snd] in Hok.
  apply andb_true_iff in Hok as [[_ Hv]%andb_true_iff Hok]. rewrite fmap_cons. cbn [existsb snd]. rewrite IH by done. f_equal.
  destruct (encode_value_framed v Hv) as (tag & data & E & _). by rewrite (entry_item_eq _ _ _ _ E), (link_span v tag data).
Qed.
(** A stored row is printed as its document is after its blobs are resolved, whether
    it has blobs or not. *)
Lemma json_from_view_resolves now c d h e :
  doc_encodable d = true → shards h !! c = Some e →
  json_from_view now c (mkView (encode d) (zlen (fields d)) (_time d)) h
  = (h, match resolve_doc e d with Ok d => Ok (Some (write_json d)) | Err x => Err x | Panic => Panic end).
Proof.
  intros Hd He. unfold json_from_view. cbn [v_bytes]. rewrite links_doc, decode_encode_doc, view_json_encode by done.
  destruct (existsb (λ kv, resolvable kv.2) (fields d)) eqn:El.
  - rewrite bind_run. unfold get_shard. rewrite He, bind_run. unfold resolve_in, on_shard. rewrite He. 
    replace (h_with_shards (<[c := e]> (shards h)) (disk h) h) with h by (rewrite insert_id by done; by destruct h). by destruct (resolve_doc e d).
  - unfold resolve_doc. by rewrite El.
Qed.

(** What a point read answers, in JSON. *)
Definition as_json (r : res (option HakoDoc)) : res (option (Z * bytes)) :=
  match r with Ok doc => Ok ((λ d, (_time d, write_json d)) <$> doc) | Err e => Err e | Panic => Panic end.
Lemma shards_audit a (h : Hako) : shards (record_audit a h) = shards h.
Proof. unfold record_audit. by destruct (enable_audit_log (config h)). Qed.
Lemma resolve_doc_time (e : StorageEngine cipher) d d' : resolve_doc e d = Ok d' → _time d' = _time d.
Proof. unfold resolve_doc. destruct (negb _); [by intros [= <-]|]. destruct (blob_manager e); [by intros [= <-]|done]. Qed.
Lemma resolve_in_run c d (h : Hako) e : shards h !! c = Some e → resolve_in c d h = (h, resolve_doc e d).
Proof. intros He. unfold resolve_in, on_shard. rewrite He. by replace (h_with_shards (<[c := e]> (shards h)) (disk h) h) with h by (rewrite insert_id by done; by destruct h). Qed.
Lemma get_shard_loaded now c h e : shards h !! c = Some e → get_shard from_secret now c h = (h, Ok e).
Proof. intros He. unfold get_shard. by rewrite He. Qed.
Lemma on_disk_loaded now c h e : shards h !! c = Some e → try_get_shard_on_disk from_secret now c h = (h, Ok (Some e)).
Proof. intros He. unfold try_get_shard_on_disk. rewrite bind_run, (get_shard_loaded now c h e) by done. by rewrite He. Qed.
Lemma on_shard_run {A} c (f : SR (StorageEngine cipher) A) (h : Hako) e :
  shards h !! c = Some e → on_shard c f h = (h_with_shards (<[c := (f e).1]> (shards h)) (disk h) h, (f e).2).
Proof. intros He. unfold on_shard. rewrite He. by destruct (f e). Qed.
Definition after_read (c id : bytes) (e' : StorageEngine cipher) (h : Hako) : Hako :=
  record_audit (mkAudit AGet c (Some id) true) (h_with_shards (<[c := e']> (shards h)) (disk h) h).
Lemma shards_after_read c id e' h : shards (after_read c id e' h) !! c = Some e'.
Proof. unfold after_read. rewrite shards_audit. cbn. by rewrite lookup_insert_eq. Qed.
Lemma get_json_answers now free c id h e :
  shards h !! c = Some e → cached_doc h c id = None →
  (∀ b, (engine_get id e).2 = Ok (Some b) → ∃ d, b = encode d ∧ doc_encodable d = true) →
  (get_json now c id h).2 = as_json (hako_get from_secret now free c id h).2.
Proof.
  intros He Hc Hb. unfold get_json, get_view, hako_get. rewrite !bind_run. cbn [get_st].
  destruct (allowed h c AGet) eqn:Ea; cbn [negb]; [|done]. rewrite Hc. unfold get_arc. rewrite !bind_run. cbn [get_st]. rewrite Ea, Hc. cbn [negb].
  rewrite !bind_run, (get_shard_loaded now c h e), (on_disk_loaded now c h e), !bind_run, (on_shard_run c _ h e) by done.
  destruct (engine_get id e) as [e' [b|x|]]; cbn [fst snd] in *; [|done..]. rewrite !bind_run. unfold audit_get, modify. fold (after_read c id e' h).
  destruct b as [b|]; [|done]. destruct (Hb b eq_refl) as (d & -> & Hd). cbn [mbind option_bind]. rewrite decode_encode_doc, view_new_encode by done.
  pose proof (shards_after_read c id e' h) as Hs. unfold mret, SR_ret. cbn beta iota. rewrite !bind_run, (json_from_view_resolves now c d _ e'), (resolve_in_run c d _ e') by done.
  destruct (resolve_doc e' d) as [d'|x|] eqn:Er; [|done..]. 
  rewrite bind_run. cbn [fmap option_fmap option_map snd as_json v_time]. by rewrite (resolve_doc_time _ _ _ Er).
Qed.
End JsonFront.

(** the array written into a buffer is the rows of [query_json] between brackets, with
    the same effects and the same outcome. *)
Theorem query_json_into_exact `{Crc} `{Zstd} `{HashIter} {cipher} `{Aead cipher} from_secret to_lowercase is_alphanumeric debug sip
  (knn : StorageEngine cipher → IndexManager → bytes → bytes → bytes → Metric → list Filter → option nat → list (bytes * Pointer))
  itoa number partial now instant fuel q f out :
  let '(f', r) := query_json from_secret to_lowercase is_alphanumeric debug sip knn itoa number now instant fuel q f in
  ∃ out', query_json_into from_secret to_lowercase is_alphanumeric debug sip knn itoa number partial now instant fuel q (f, out) = ((f', out'), count_rows 0 r) ∧
    ∀ rows, r = Ok rows → out' = out ++ [91] ++ commas rows.*2 ++ [93].
Proof.
  pose proof (query_json_into_matches from_secret to_lowercase is_alphanumeric debug sip knn itoa number partial now instant fuel q f out) as Hm.
  destruct (query_json _ _ _ _ _ _ _ _ _ _ _ _ f) as [f' r]. exact Hm.
Qed.
