(* ===== verification/Aggregate.v ===== *)
(** * Aggregations (src/query/executor/executor.rs, src/engine/engine.rs)

    Counts, sums, averages, minima and maxima of a query: from the secondary indexes
    alone when one aggregate and equality filters allow it, else by reading the rows,
    in one task or in several whose results are merged in the order in which they
    arrive ([arrival]).  Counts come out exact by either way. *)

From stdpp Require Import prelude list gmap strings.
From Stdlib Require Import ZArith Lia SpecFloat.
From S2P Require Import Prelude RustStd Error Config Crypto VFile Varint Value Doc DocFacts DocCodec DocAccess Wal PageCache StorageIndex Segment Blob Storage StorageMaint StorageFacts StorageView StorageCompact StorageIndexFacts Filter IndexKey Composite CompositeFacts CompositeManager.
From S2P Require Import Traverse Query Matcher MatcherFacts Worker TermIndex IndexManager IndexManagerFacts Planner PlannerFacts SortFacts Executor ExecutorFacts QueryAnswers QueryProps PlanCache Pipeline Facade Graph GraphQuery QueryFront.

Local Open Scope Z_scope.
Local Open Scope hako_scope.

Abbreviation Results := (gmap bytes Z).
Definition f64_one : Z := i64_to_f64 1.

(** ** From the indexes alone *)

(** Step A: the ids that all filters allow; [None] when a filter is no equality on an
    indexed field, [Some None] without filters. *)
Fixpoint filter_ids (m : IndexManager) (c : bytes) (filters : list Filter) (ids : option (gset bytes)) : option (option (gset bytes)) :=
  match filters with
  | [] => Some ids
  | f :: filters =>
      if bool_decide (f_op f = OpEq) then
        match lookup_secondary m c (f_field f) (encode_scalar (f_value f)) with
        | Some l => let set := list_to_set l in filter_ids m c filters (Some (match ids with Some old => old ∩ set | None => set end))
        | None => None
        end
      else None
  end.
Definition match_count (ids : option (gset bytes)) (posting : list bytes) : Z :=
  zlen (match ids with Some ids => List.filter (λ id, bool_decide (id ∈ ids)) posting | None => posting end).
Definition index_totals (ids : option (gset bytes)) (terms : Terms) : Z * Z :=
  foldl (λ '(sum, count) '(k, posting),
    match decode_scalar_as_f64 k with
    | Some v => (f64_add sum (f64_mul v (u64_to_f64 (match_count ids posting))), f64_add count (u64_to_f64 (match_count ids posting)))
    | None => (sum, count)
    end) (0, 0) terms.
Definition index_best (pick : Z → Z → Z) (ids : option (gset bytes)) (terms : Terms) : option Z :=
  foldl (λ best '(k, posting),
    if match_count ids posting =? 0 then best
    else match decode_scalar_as_f64 k with
         | Some v => Some (match best with Some b => pick b v | None => v end)
         | None => best
         end) None terms.
Definition average (sum count : Z) : Z := if f64_ltb 0 count then f64_div sum count else 0.
Definition op_key (op : AggregateOp) : bytes :=
  match op with
  | ACount => b#("count")
  | ASum f => b#("sum_") ++ f
  | AAvg f => b#("avg_") ++ f
  | AMin f => b#("min_") ++ f
  | AMax f => b#("max_") ++ f
  end.
Definition optional (k : bytes) (v : option Z) : Results := match v with Some v => {[k := v]} | None => ∅ end.

Section Aggregate.
Context `{Crc} `{Zstd} `{HashIter} {cipher : Type} `{Aead cipher}.
Context (to_lowercase : bytes → bytes) (is_alphanumeric : bytes → bool) (arrival : list Results → list Results).
Abbreviation StorageEngine := (@StorageEngine cipher).
Context (knn : StorageEngine → IndexManager → bytes → bytes → bytes → Metric → list Filter → option nat → list (bytes * Pointer)).

(** The fast path of [execute_aggregation]. *)
Definition index_only (e : StorageEngine) (m : IndexManager) (p : QueryPlan) (ops : list AggregateOp) : option Results :=
  match ops with
  | [op] =>
      if negb (bool_decide (length (or_groups p) = 0%nat)) then None
      else
        ids ← filter_ids m (p_collection p) (p_filters p) None;
        match op with
        | ACount =>
            Some {[op_key ACount := u64_to_f64 (match p_filters p with
                                                | [] => count_prefix (idx e) []
                                                | _ => match ids with Some ids => Z.of_nat (size ids) | None => 0 end
                                                end)]}
        | ASum f => i ← bf_get (secondary m) (p_collection p) f; Some {[op_key op := (index_totals ids i).1]}
        | AAvg f => i ← bf_get (secondary m) (p_collection p) f; let '(sum, count) := index_totals ids i in Some {[op_key op := average sum count]}
        | AMin f => i ← bf_get (secondary m) (p_collection p) f; Some (optional (op_key op) (index_best f64_min ids i))
        | AMax f => i ← bf_get (secondary m) (p_collection p) f; Some (optional (op_key op) (index_best f64_max ids i))
        end
  | _ => None
  end.

(** ** From the rows *)

(** The number in a field of a row. *)
Definition view_number (v : HakoDocView) (f : bytes) : option Z :=
  match List.find (λ '(k, _, _), bytes_eqb k f) (iter_all true (view_iter v)).1 with
  | Some (_, tag, data) => span_as_f64 tag data
  | None => None
  end.
Definition add_to (k : bytes) (x : Z) (r : Results) : Results := <[k := f64_add (default 0 (r !! k)) x]> r.
Definition pick_into (pick : Z → Z → Z) (k : bytes) (x : Z) (r : Results) : Results := <[k := pick (default x (r !! k)) x]> r.
Definition tmp_key (f : bytes) : bytes := b#("avg_tmp_") ++ f.
Definition cnt_key (f : bytes) : bytes := b#("avg_cnt_") ++ f.
Definition agg_number (op : AggregateOp) (x : Z) (r : Results) : Results :=
  match op with
  | ACount => add_to (op_key op) x r
  | ASum _ => add_to (op_key op) x r
  | AAvg f => add_to (cnt_key f) f64_one (add_to (tmp_key f) x r)
  | AMin _ => pick_into f64_min (op_key op) x r
  | AMax _ => pick_into f64_max (op_key op) x r
  end.
Definition op_number (op : AggregateOp) (v : HakoDocView) : option Z :=
  match op with
  | ACount => Some f64_one
  | ASum f | AAvg f | AMin f | AMax f => view_number v f
  end.
Definition agg_op (v : HakoDocView) (r : Results) (op : AggregateOp) : Results :=
  match op_number op v with Some x => agg_number op x r | None => r end.
(** [process_task]. *)
Fixpoint process_task (p : QueryPlan) (ops : list AggregateOp) (rows : list (bytes * Pointer)) (partial : Results) : SR StorageEngine Results := λ e,
  match rows with
  | [] => (e, Ok partial)
  | (id, ptr) :: rows =>
      match read_pointer_shared ptr e with
      | (e, Panic) => (e, Panic)
      | (e, Ok (Some b)) =>
          match matches_filters_view to_lowercase id b p with
          | None => (e, Panic)
          | Some false => process_task p ops rows partial e
          | Some true =>
              match view_new b with
              | Some v => process_task p ops rows (foldl (agg_op v) partial ops) e
              | None => process_task p ops rows partial e
              end
          end
      | (e, _) => process_task p ops rows partial e
      end
  end.
(** The threads: one that aborts sends nothing. *)
Fixpoint run_aggregates (p : QueryPlan) (ops : list AggregateOp) (tasks : list (list (bytes * Pointer))) : SR StorageEngine (list Results) := λ e,
  match tasks with
  | [] => (e, Ok [])
  | task :: tasks =>
      let '(e, r) := process_task p ops task ∅ e in
      let '(e, rest) := run_aggregates p ops tasks e in
      (e, match r, rest with Ok x, Ok rest => Ok (x :: rest) | _, rest => rest end)
  end.
Definition merge_entry (final : Results) (kv : bytes * Z) : Results :=
  if starts_with kv.1 b#("min_") then pick_into f64_min kv.1 kv.2 final
  else if starts_with kv.1 b#("max_") then pick_into f64_max kv.1 kv.2 final
  else add_to kv.1 kv.2 final.
Definition merge_results (partials : list Results) : Results := foldl (λ final partial, foldl merge_entry final (hash_iter partial)) ∅ partials.
(** Averages, then the keys of empty counts and sums. *)
Definition finish_average (final : Results) (k : bytes) : Results :=
  match strip_prefix k b#("avg_tmp_") with
  | Some f =>
      let sum := default 0 (final !! k) in
      let final := base.delete k final in
      let count := default f64_one (final !! cnt_key f) in
      <[op_key (AAvg f) := average sum count]> (base.delete (cnt_key f) final)
  | None => final
  end.
Definition or_insert (final : Results) (k : bytes) (v : Z) : Results := match final !! k with Some _ => final | None => <[k := v]> final end.
Definition finish_op (final : Results) (op : AggregateOp) : Results :=
  match op with
  | AMin _ | AMax _ => final
  | _ => or_insert final (op_key op) 0
  end.
Definition finish_results (ops : list AggregateOp) (final : Results) : Results :=
  foldl finish_op (foldl finish_average final (hash_iter final).*1) ops.
Definition aggregate_rows (workers : nat) (p : QueryPlan) (ops : list AggregateOp) (rows : list (bytes * Pointer)) : SR StorageEngine Results :=
  if (length rows <? 1000)%nat || (workers <=? 1)%nat then process_task p ops rows ∅
  else partials ← run_aggregates p ops (shard_tasks rows (Nat.min workers (Nat.max (length rows / 500) 1))); mret (merge_results (arrival partials)).
Definition execute_aggregation (workers : nat) (m : IndexManager) (p : QueryPlan) (ops : list AggregateOp) : SR StorageEngine Results :=
  e ← get_st;
  match index_only e m p ops with
  | Some r => mret r
  | None =>
      rows ← lift (execute_single_scan to_lowercase is_alphanumeric knn e m (scan p) (p_collection p) (scan_limit p) None);
      final ← aggregate_rows workers p ops rows;
      mret (finish_results ops final)
  end.

(** [execute_aggregation] of the facade. *)
Definition is_ok {A} (r : res A) : bool := match r with Ok _ => true | _ => false end.
Definition audited {A} (c : bytes) (act : SR (Front (cipher := cipher)) A) : SR (Front (cipher := cipher)) A := λ f,
  match act f with
  | (f, Panic) => (f, Panic)
  | (f, r) => (with_db (record_audit (mkAudit AQuery c None (is_ok r)) (db f)) f, r)
  end.
Definition hako_aggregation (from_secret : bytes → EncryptionContext cipher) (debug : Value → bytes) (sip : bytes → Z) (now instant : Z) (q : Query)
    : SR (Front (cipher := cipher)) Results :=
  f ← get_st;
  if negb (allowed (db f) (q_collection q) AQuery) then on_db (deny AQuery (q_collection q) None)
  else
    shard ← on_db (try_get_shard_on_disk from_secret now (q_collection q));
    match shard with
    | None => mret ∅
    | Some e =>
        p ← plan_query debug sip instant q e;
        audited (q_collection q) (executing (q_collection q) (λ w m, execute_aggregation w m p.1 (q_aggregations q)))
    end.
End Aggregate.

(** ** Sums of counts are exact *)

Lemma iter_pos_nat {A} (f : A → A) p x : iter_pos f p x = Nat.iter (Pos.to_nat p) f x.
Proof.
  revert x; induction p as [p IH|p IH|]; intros x; cbn [iter_pos]; [| |done].
  - rewrite !IH, <-Nat.iter_add, <-Nat.iter_succ_r. f_equal. lia.
  - rewrite !IH, <-Nat.iter_add. f_equal. lia.
Qed.
Lemma shr_exact q n : 0 < q → Nat.iter n shr_1 (Build_shr_record (q * 2 ^ Z.of_nat n) false false) = Build_shr_record q false false.
Proof.
  intros Hq. induction n as [|n IH]; [cbn; f_equal; lia|]. rewrite Nat.iter_succ_r. etransitivity; [|exact IH]. f_equal.
  replace (q * 2 ^ Z.of_nat (S n)) with (2 * (q * 2 ^ Z.of_nat n)) by (rewrite Nat2Z.inj_succ, Z.pow_succ_r; lia).
  assert (0 < q * 2 ^ Z.of_nat n) as Hp by nia. by destruct (q * 2 ^ Z.of_nat n).
Qed.
Lemma digits_log2 p : Zpos (digits2_pos p) = Z.log2 (Zpos p) + 1.
Proof.
  assert (∀ p, digits2_pos p = Pos.size p) as E by (intros q; induction q as [q IH|q IH|]; cbn; congruence).
  rewrite E. destruct p as [p|p|]; cbn; lia.
Qed.
Lemma normalize_exact M q e k :
  2 ^ 52 <= q < 2 ^ 53 → 0 <= k → M = q * 2 ^ k → -1074 <= e + k <= 971 →
  binary_normalize 53 1024 M e false = S754_finite false (Z.to_pos q) (e + k).
Proof.
  intros Hq Hk -> He. assert (0 < 2 ^ k) by lia. assert (0 < q * 2 ^ k) as HM by nia. destruct (q * 2 ^ k) as [|m|] eqn:EM; try lia.
  assert (Z.log2 (Z.pos m) = 52 + k) as Hlog.
  { rewrite <-EM, Z.log2_mul_pow2 by lia. rewrite (Z.log2_unique q 52) by lia. lia. }
  assert (∀ d, fexp 53 1024 (d + 53) = Z.max d (-1074)) as Hf by (intros d; unfold fexp, emin; f_equal; lia).
  cbn [binary_normalize]. unfold binary_round. rewrite digits_log2, Hlog. replace (52 + k + 1 + e) with ((e + k) + 53) by lia. rewrite Hf, Z.max_l by lia.
  unfold shl_align. replace (e + k - e) with k by lia. replace (match k with Z.neg d => (Pos.iter xO m d, e + k) | _ => (m, e) end) with (m, e) by (by destruct k; [| |lia]).
  unfold binary_round_aux, shr_fexp. cbn [Zdigits2]. rewrite digits_log2, Hlog. replace (52 + k + 1 + e) with ((e + k) + 53) by lia. rewrite Hf, Z.max_l by lia.
  replace (e + k - e) with k by lia.
  assert (shr (shr_record_of_loc (Z.pos m) loc_Exact) e k = (Build_shr_record q false false, e + k)) as ->.
  { destruct k as [|k|]; [|cbn [shr]|lia].
    - cbn. rewrite Z.add_0_r. do 2 f_equal. lia.
    - f_equal. rewrite iter_pos_nat. cbn [shr_record_of_loc]. rewrite <-EM. replace (Z.pos k) with (Z.of_nat (Pos.to_nat k)) by lia. apply shr_exact. lia. }
  cbn [shr_m loc_of_shr_record round_nearest_even]. destruct q as [|q|]; try lia. cbn [Zdigits2]. rewrite digits_log2, (Z.log2_unique (Z.pos q) 52) by lia.
  replace (52 + 1 + (e + k)) with ((e + k) + 53) by lia. rewrite Hf, Z.max_l, Z.sub_diag by lia. cbn. by rewrite (proj2 (Z.leb_le _ _)) by lia.
Qed.
Lemma count_bits a :
  0 < a < 2 ^ 53 →
  f64_of_bits (u64_to_f64 a) = S754_finite false (Z.to_pos (a * 2 ^ (52 - Z.log2 a))) (Z.log2 a - 52) ∧ 2 ^ 52 <= a * 2 ^ (52 - Z.log2 a) < 2 ^ 53 ∧ 0 <= Z.log2 a <= 52.
Proof.
  intros Ha. pose proof (Z.log2_spec a ltac:(lia)) as [Hlo Hhi]. pose proof (Z.log2_nonneg a) as H0. assert (Z.log2 a <= 52) as H52.
  { enough (Z.log2 a < 53) by lia. apply Z.log2_lt_pow2; lia. }
  set (l := Z.log2 a) in *. assert (2 ^ 52 = 2 ^ l * 2 ^ (52 - l)) as E1 by (rewrite <-Z.pow_add_r by lia; f_equal; lia).
  assert (2 ^ 53 = 2 ^ Z.succ l * 2 ^ (52 - l)) as E2 by (rewrite <-Z.pow_add_r by lia; f_equal; lia).
  assert (0 < 2 ^ (52 - l)) by lia. assert (2 ^ 52 <= a * 2 ^ (52 - l) < 2 ^ 53) as Hm by nia. split; [|done].
  unfold u64_to_f64. fold l. rewrite (proj2 (Z.eqb_neq a 0)), (proj2 (Z.leb_le l 52)) by lia. set (m := a * 2 ^ (52 - l)) in *. clearbody m.
  change (2 ^ 52) with 4503599627370496 in *. change (2 ^ 53) with 9007199254740992 in *.
  assert (f64_abs ((l + 1023) * 4503599627370496 + (m - 4503599627370496)) = (l + 1023) * 4503599627370496 + (m - 4503599627370496)) as Ea
    by (unfold f64_abs; change (2 ^ 63) with 9223372036854775808; apply Z.mod_small; lia).
  unfold f64_of_bits. rewrite Ea. change (2 ^ 63) with 9223372036854775808. change (2 ^ 52) with 4503599627370496.
  assert (((l + 1023) * 4503599627370496 + (m - 4503599627370496)) / 4503599627370496 = l + 1023) as -> by (symmetry; apply (Z.div_unique_pos _ _ _ (m - 4503599627370496)); lia).
  assert (((l + 1023) * 4503599627370496 + (m - 4503599627370496)) mod 4503599627370496 = m - 4503599627370496) as -> by (symmetry; apply (Z.mod_unique_pos _ _ (l + 1023)); lia).
  rewrite (proj2 (Z.leb_gt _ _)), (proj2 (Z.eqb_neq _ 2047)), (proj2 (Z.eqb_neq _ 0)) by lia. replace (m - 4503599627370496 + 4503599627370496) with m by lia.
  destruct m; try lia. f_equal. lia.
Qed.
Lemma shl_align_exact m e e' : e' <= e → Zpos (fst (shl_align m e e')) = Zpos m * 2 ^ (e - e').
Proof.
  intros He. unfold shl_align. destruct (e' - e) as [|d|d] eqn:E; [|lia|].
  - cbn. replace (e - e') with 0 by lia. lia.
  - cbn. replace (e - e') with (Z.pos d) by lia. clear E. induction d as [|d IH] using Pos.peano_ind; [cbn; lia|].
    rewrite Pos.iter_succ. rewrite (Pos2Z.inj_xO (Pos.iter xO m d)), IH, Pos2Z.inj_succ, Z.pow_succ_r by lia. lia.
Qed.
(** The mantissa of a count. *)
Definition count_mantissa (n : Z) : Z := if n =? 2 ^ 53 then 2 ^ 52 else n * 2 ^ (52 - Z.log2 n).
Lemma count_mantissa_spec n :
  0 < n <= 2 ^ 53 →
  2 ^ 52 <= count_mantissa n < 2 ^ 53 ∧ 0 <= Z.log2 n <= 53 ∧
  (∀ j, 0 <= j → 0 <= Z.log2 n - 52 + j → n * 2 ^ j = count_mantissa n * 2 ^ (Z.log2 n - 52 + j)) ∧
  f64_to_bits (S754_finite false (Z.to_pos (count_mantissa n)) (Z.log2 n - 52)) = u64_to_f64 n.
Proof.
  intros Hn. unfold count_mantissa. destruct (Z.eqb_spec n (2 ^ 53)) as [->|Hne].
  - split; [lia|]. split; [change (Z.log2 (2 ^ 53)) with 53; lia|]. split; [|reflexivity]. intros j Hj _. change (Z.log2 (2 ^ 53)) with 53. rewrite <-!Z.pow_add_r by lia. f_equal. lia.
  - destruct (count_bits n ltac:(lia)) as (_ & Hm & Hl). split; [done|]. split; [lia|]. split.
    + intros j Hj Hk. rewrite <-Z.mul_assoc, <-Z.pow_add_r by lia. do 2 f_equal. lia.
    + cbn [f64_to_bits]. rewrite Z2Pos.id, (proj2 (Z.ltb_ge _ _)) by lia. unfold u64_to_f64.
      rewrite (proj2 (Z.eqb_neq n 0)), (proj2 (Z.leb_le _ 52)) by lia. lia.
Qed.
Lemma count_of_bits n : 0 < n <= 2 ^ 53 → f64_of_bits (u64_to_f64 n) = S754_finite false (Z.to_pos (count_mantissa n)) (Z.log2 n - 52).
Proof.
  intros Hn. unfold count_mantissa. destruct (Z.eqb_spec n (2 ^ 53)) as [->|Hne]; [reflexivity|]. by destruct (count_bits n ltac:(lia)) as (-> & _).
Qed.
(** Counts up to 2^53 add up exactly. *)
Lemma f64_add_counts a b : 0 <= a → 0 <= b → a + b <= 2 ^ 53 → f64_add (u64_to_f64 a) (u64_to_f64 b) = u64_to_f64 (a + b).
Proof.
  intros Ha Hb Hab. unfold f64_add. destruct (decide (a = 0)) as [->|Ha0]; [|destruct (decide (b = 0)) as [->|Hb0]].
  - destruct (decide (b = 0)) as [->|Hb0]; [done|]. rewrite Z.add_0_l. destruct (count_mantissa_spec b ltac:(lia)) as (_ & _ & _ & Eb). rewrite <-Eb at 2. by rewrite (count_of_bits b) by lia.
  - destruct (count_mantissa_spec a ltac:(lia)) as (_ & _ & _ & Ea). rewrite (count_of_bits a), Z.add_0_r, <-Ea by lia. done.
  - destruct (count_mantissa_spec a ltac:(lia)) as (Hqa & Hla & Ma & _). destruct (count_mantissa_spec b ltac:(lia)) as (Hqb & Hlb & Mb & _).
    destruct (count_mantissa_spec (a + b) ltac:(lia)) as (Hq & Hl & M & <-). f_equal. rewrite !count_of_bits by lia.
    pose proof (Z.log2_le_mono a (a + b) ltac:(lia)) as Hla'. assert (Z.log2 a <= 52 ∧ Z.log2 b <= 52) as [Ha52 Hb52].
    { enough (Z.log2 a < 53 ∧ Z.log2 b < 53) by lia. split; apply Z.log2_lt_pow2; lia. }
    set (ez := Z.min (Z.log2 a - 52) (Z.log2 b - 52)). assert (ez <= Z.log2 a - 52 ∧ ez <= Z.log2 b - 52 ∧ -52 <= ez <= 0) as (Hza & Hzb & Hz) by lia.
    cbn [SFadd cond_Zopp]. fold ez. rewrite !shl_align_exact, !Z2Pos.id by lia.
    replace (Z.log2 a - 52 - ez) with (Z.log2 a - 52 + - ez) by lia. replace (Z.log2 b - 52 - ez) with (Z.log2 b - 52 + - ez) by lia.
    rewrite <-Ma, <-Mb, <-Z.mul_add_distr_r, M by lia.
    rewrite (normalize_exact _ (count_mantissa (a + b)) ez (Z.log2 (a + b) - 52 + - ez)) by (done || lia). f_equal. lia.
Qed.

(** ** One aggregate at a time *)

#[global] Instance aggregate_op_eq : EqDecision AggregateOp.
Proof. solve_decision. Defined.
Definition op_keys (op : AggregateOp) : list bytes := match op with AAvg f => [tmp_key f; cnt_key f; op_key op] | _ => [op_key op] end.
(** Aggregates whose entries, temporary ones included, have different names. *)
Definition ops_ok (ops : list AggregateOp) : Prop := NoDup (mjoin (op_keys <$> ops)).
Definition agree (op : AggregateOp) (r r' : Results) : Prop := ∀ k, k ∈ op_keys op → r !! k = r' !! k.
Definition apply_number (op : AggregateOp) (r : Results) (x : option Z) : Results := match x with Some x => agg_number op x r | None => r end.

Lemma add_to_lookup k x r k' : add_to k x r !! k' = if bool_decide (k = k') then Some (f64_add (default 0 (r !! k)) x) else r !! k'.
Proof. unfold add_to. case_bool_decide; [subst; by rewrite lookup_insert_eq|by rewrite lookup_insert_ne]. Qed.
Lemma pick_into_lookup pick k x r k' : pick_into pick k x r !! k' = if bool_decide (k = k') then Some (pick (default x (r !! k)) x) else r !! k'.
Proof. unfold pick_into. case_bool_decide; [subst; by rewrite lookup_insert_eq|by rewrite lookup_insert_ne]. Qed.
Lemma agg_number_other op x r k : k ∉ op_keys op → agg_number op x r !! k = r !! k.
Proof.
  destruct op; cbn [op_keys agg_number]; rewrite ?not_elem_of_cons; intros Hk; rewrite ?add_to_lookup, ?pick_into_lookup; repeat rewrite bool_decide_false by naive_solver; done.
Qed.
Lemma apply_number_other op x r op' : (∀ k, k ∈ op_keys op' → k ∉ op_keys op) → agree op' (apply_number op r x) r.
Proof. intros Hd k Hk. destruct x as [x|]; [|done]. cbn. apply agg_number_other. by apply Hd. Qed.
Lemma apply_number_local op x r r' : agree op r r' → agree op (apply_number op r x) (apply_number op r' x).
Proof.
  intros Ha k Hk. destruct x as [x|]; [|by apply Ha]. cbn [apply_number]. unfold agree in Ha.
  destruct op; cbn [op_keys agg_number] in *; rewrite !add_to_lookup || rewrite !pick_into_lookup; rewrite ?add_to_lookup; rewrite !Ha by (exact Hk || (by repeat constructor)); done.
Qed.
Lemma ops_ok_split l1 op l2 op' : ops_ok (l1 ++ op :: l2) → op' ∈ l1 ++ l2 → ∀ k, k ∈ op_keys op → k ∉ op_keys op'.
Proof.
  unfold ops_ok. rewrite fmap_app, fmap_cons, join_app. cbn [mjoin list_join]. intros Hnd Hin k Hk Hk'. apply NoDup_app in Hnd as (_ & H1 & H2).
  assert (∀ l : list AggregateOp, op' ∈ l → k ∈ mjoin (op_keys <$> l)) as Hj by (intros l Hl; apply list_elem_of_join; exists (op_keys op'); split; [done|by apply list_elem_of_fmap_2]).
  apply elem_of_app in Hin as [Hin|Hin].
  - apply (H1 k (Hj l1 Hin)). apply elem_of_app. by left.
  - apply NoDup_app in H2 as (_ & H2 & _). exact (H2 k Hk (Hj l2 Hin)).
Qed.
(** A row gives each aggregate what it would get alone. *)
Lemma ops_step (num : AggregateOp → option Z) op ops r r' :
  ops_ok ops → op ∈ ops → agree op r r' → agree op (foldl (λ r op, apply_number op r (num op)) r ops) (apply_number op r' (num op)).
Proof.
  intros Hok [l1 [l2 ->]]%list_elem_of_split Ha. pose proof (ops_ok_split l1 op l2) as Hd. rewrite foldl_app. cbn [foldl].
  assert (∀ l r, l ⊆ l1 ++ l2 → agree op (foldl (λ r op, apply_number op r (num op)) r l) r) as Hrest.
  { induction l as [|o l IH]; intros r0 Hl; [done|]. cbn [foldl]. intros k Hk. rewrite IH by (done || set_solver). refine (apply_number_other _ _ _ op _ k Hk).
    intros k' Hk'. apply (Hd o Hok); [set_solver|done]. }
  intros k Hk. rewrite Hrest by (done || set_solver). refine (apply_number_local _ _ _ _ _ k Hk). intros k' Hk'. rewrite Hrest by (done || set_solver). by apply Ha.
Qed.
Lemma ops_run {D} (num : AggregateOp → D → option Z) op ops docs r r' :
  ops_ok ops → op ∈ ops → agree op r r' →
  agree op (foldl (λ r d, foldl (λ r op, apply_number op r (num op d)) r ops) r docs) (foldl (λ r x, agg_number op x r) r' (omap (num op) docs)).
Proof.
  intros Hok Hin. revert r r'; induction docs as [|d docs IH]; intros r r' Ha; [done|]. cbn [foldl].
  assert (foldl (λ r x, agg_number op x r) r' (omap (num op) (d :: docs)) = foldl (λ r x, agg_number op x r) (apply_number op r' (num op d)) (omap (num op) docs)) as ->
    by (cbn [omap list_omap]; by destruct (num op d)).
  apply IH. by apply (ops_step (λ op, num op d)).
Qed.

(** What one aggregate accumulates. *)
Definition sum_of (xs : list Z) : Z := foldl f64_add 0 xs.
Definition best_of (pick : Z → Z → Z) (xs : list Z) : option Z := match xs with [] => None | x :: xs => Some (foldl pick x xs) end.
Lemma add_all k xs r : foldl (λ r x, add_to k x r) r xs !! k = match xs with [] => r !! k | _ => Some (foldl f64_add (default 0 (r !! k)) xs) end.
Proof.
  revert r; induction xs as [|x xs IH]; intros r; [done|]. cbn [foldl]. rewrite IH, add_to_lookup, bool_decide_true by done. by destruct xs.
Qed.
Lemma pick_all pick k xs r :
  (∀ x, pick x x = x) → foldl (λ r x, pick_into pick k x r) r xs !! k = match xs with [] => r !! k | x :: xs => Some (foldl pick (pick (default x (r !! k)) x) xs) end.
Proof.
  intros Hp. revert r; induction xs as [|x xs IH]; intros r; [done|]. cbn [foldl]. rewrite IH, pick_into_lookup, bool_decide_true by done. by destruct xs.
Qed.
Lemma f64_min_self x : f64_min x x = x.
Proof. unfold f64_min. destruct (f64_is_nan x); [done|]. by destruct (f64_ltb x x). Qed.
Lemma f64_max_self x : f64_max x x = x.
Proof. unfold f64_max. destruct (f64_is_nan x); [done|]. by destruct (f64_ltb x x). Qed.

Definition alone (op : AggregateOp) (xs : list Z) : Results := foldl (λ r x, agg_number op x r) ∅ xs.
Definition nonempty_sum (xs : list Z) : option Z := match xs with [] => None | _ => Some (sum_of xs) end.
Lemma avg_keys_differ f : tmp_key f ≠ cnt_key f ∧ tmp_key f ≠ op_key (AAvg f) ∧ cnt_key f ≠ op_key (AAvg f).
Proof.
  split; [intros E; vm_compute in E; discriminate E|]. split; intros E%(f_equal length); revert E; vm_compute; intros E; lia.
Qed.
Lemma alone_avg f xs r :
  let r' := foldl (λ r x, agg_number (AAvg f) x r) r xs in
  (xs = [] → r' = r) ∧
  (xs ≠ [] → r' !! tmp_key f = Some (foldl f64_add (default 0 (r !! tmp_key f)) xs) ∧
             r' !! cnt_key f = Some (foldl f64_add (default 0 (r !! cnt_key f)) ((λ _, f64_one) <$> xs))) ∧
  r' !! op_key (AAvg f) = r !! op_key (AAvg f).
Proof.
  destruct (avg_keys_differ f) as (H1 & H2 & H3). split; [by intros ->|]. revert r; induction xs as [|x xs IH]; intros r; [done|]. cbn [foldl agg_number].
  destruct (IH (agg_number (AAvg f) x r)) as [IH1 IH2]. cbn [agg_number] in *. rewrite IH2, !add_to_lookup. rewrite !bool_decide_false by done. split; [|done]. intros _.
  assert (∀ k : bytes, bool_decide (k = k) = true) as Hb by (intros; by apply bool_decide_true).
  destruct xs as [|y xs].
  - cbn [foldl fmap list_fmap]. rewrite !add_to_lookup, !Hb, !bool_decide_false by done. done.
  - destruct IH1 as [-> ->]; [done|]. rewrite !add_to_lookup, !Hb, !bool_decide_false by done. done.
Qed.
Lemma alone_sum op xs : match op with ACount | ASum _ => True | _ => False end → alone op xs !! op_key op = nonempty_sum xs.
Proof. intros Hop. unfold alone. destruct op; try done; cbn [agg_number]; rewrite add_all; by destruct xs. Qed.
Lemma alone_pick op xs : 
  match op with AMin _ => alone op xs !! op_key op = best_of f64_min xs | AMax _ => alone op xs !! op_key op = best_of f64_max xs | _ => True end.
Proof.
  destruct op; try done; unfold alone; cbn [agg_number]; rewrite pick_all by (apply f64_min_self || apply f64_max_self); destruct xs as [|x xs]; try done;
    rewrite lookup_empty; cbn; by rewrite ?f64_min_self, ?f64_max_self.
Qed.

(** ** Averages and defaults *)

Lemma finish_average_other final k k' :
  (∀ f, k = tmp_key f → k' ∉ op_keys (AAvg f)) → finish_average final k !! k' = final !! k'.
Proof.
  intros Hk. unfold finish_average. destruct (strip_prefix k (b#("avg_tmp_"))) as [f|] eqn:E; [|done]. apply strip_Some in E. specialize (Hk f E).
  fold (tmp_key f) in E. subst k. cbn [op_keys] in Hk. rewrite !not_elem_of_cons in Hk. destruct Hk as (Ht & Hc & Ha & _).
  rewrite lookup_insert_ne, !lookup_delete_ne by done. done.
Qed.
Lemma finish_average_self final f :
  finish_average final (tmp_key f) !! op_key (AAvg f) = Some (average (default 0 (final !! tmp_key f)) (default f64_one (final !! cnt_key f))).
Proof.
  unfold finish_average, tmp_key at 1. rewrite strip_app. fold (tmp_key f). rewrite lookup_insert_eq, lookup_delete_ne; [done|]. apply avg_keys_differ.
Qed.

Lemma op_key_in op : op_key op ∈ op_keys op.
Proof. destruct op; cbn [op_keys]; repeat constructor. Qed.
Lemma ops_disjoint ops op op' k : ops_ok ops → op ∈ ops → op' ∈ ops → op ≠ op' → k ∈ op_keys op → k ∉ op_keys op'.
Proof.
  intros Hok [l1 [l2 ->]]%list_elem_of_split Hin Hne. apply (ops_ok_split l1 op l2 op' Hok). set_solver.
Qed.
(** The entries before averages are taken. *)
Definition raw_keys (op : AggregateOp) : list bytes := match op with AAvg f => [tmp_key f; cnt_key f] | _ => [op_key op] end.
Lemma tmp_raw f op : tmp_key f ∈ raw_keys op → op = AAvg f.
Proof.
  destruct op as [|g|g|g|g]; cbn [raw_keys]; rewrite ?elem_of_cons; intros Hin; destruct_or?; try (by apply not_elem_of_nil in Hin); try (vm_compute in Hin; discriminate Hin).
  apply app_inv_head in Hin. by subst.
Qed.
Section Finish.
Context (ops : list AggregateOp) (Hok : ops_ok ops) (op : AggregateOp) (Hop : op ∈ ops).
Lemma averages_others K r : (∀ f, tmp_key f ∈ K → AAvg f ∈ ops ∧ AAvg f ≠ op) → agree op (foldl finish_average r K) r.
Proof using Hok Hop.
  revert r; induction K as [|k K IH]; intros r HK k' Hk'; [done|]. cbn [foldl]. rewrite IH by (done || set_solver). apply finish_average_other. intros f ->.
  destruct (HK f) as [Hin Hne]; [by left|]. by apply (ops_disjoint ops op (AAvg f)).
Qed.
Lemma averages_own f K r :
  op = AAvg f → NoDup K → (∀ f, tmp_key f ∈ K → AAvg f ∈ ops) → tmp_key f ∈ K →
  foldl finish_average r K !! op_key op = Some (average (default 0 (r !! tmp_key f)) (default f64_one (r !! cnt_key f))).
Proof using Hok Hop.
  intros Eop Hnd HK [K1 [K2 ->]]%list_elem_of_split. apply NoDup_app in Hnd as (_ & Hd & Hnd). apply NoDup_cons in Hnd as [Hd2 _].
  assert (∀ K', tmp_key f ∉ K' → K' ⊆ K1 ++ tmp_key f :: K2 → ∀ g, tmp_key g ∈ K' → AAvg g ∈ ops ∧ AAvg g ≠ op) as Hsub.
  { intros K' Hf Hs g Hg. split; [apply HK; set_solver|]. rewrite Eop. intros [= ->]. done. }
  rewrite foldl_app. cbn [foldl]. rewrite averages_others; [|apply Hsub; [done|set_solver]|apply op_key_in].
  assert (agree op (foldl finish_average r K1) r) as Ha by (apply averages_others, Hsub; set_solver). unfold agree in Ha. rewrite Eop in *.
  rewrite finish_average_self, !Ha; [done|..]; cbn [op_keys]; repeat constructor.
Qed.
Lemma averages_gone f K r k :
  op = AAvg f → NoDup K → (∀ f, tmp_key f ∈ K → AAvg f ∈ ops) → tmp_key f ∈ K → k ∈ raw_keys op → foldl finish_average r K !! k = None.
Proof using Hok Hop.
  intros Eop Hnd HK [K1 [K2 ->]]%list_elem_of_split Hk. apply NoDup_app in Hnd as (_ & _ & Hnd). apply NoDup_cons in Hnd as [Hd2 _].
  rewrite foldl_app. cbn [foldl]. rewrite averages_others; [|intros g Hg; split; [apply HK, elem_of_app; right; by right|rewrite Eop; by intros [= ->]]|].
  2:{ rewrite Eop in *. cbn [raw_keys op_keys] in *. set_solver. }
  rewrite Eop in Hk. cbn [raw_keys] in Hk. destruct (avg_keys_differ f) as (H1 & H2 & H3). unfold finish_average, tmp_key at 1. rewrite strip_app. fold (tmp_key f).
  apply elem_of_cons in Hk as [->|Hk%list_elem_of_singleton]; [|subst k].
  - by rewrite lookup_insert_ne, lookup_delete_ne, lookup_delete_eq by done.
  - by rewrite lookup_insert_ne, lookup_delete_eq by done.
Qed.
Lemma defaults r : foldl finish_op r ops !! op_key op = match r !! op_key op with Some v => Some v | None => finish_op ∅ op !! op_key op end.
Proof using Hok Hop.
  assert (∀ r o, o ∈ ops → o ≠ op → finish_op r o !! op_key op = r !! op_key op) as Hother.
  { intros r0 o Ho Hne. assert (op_key o ≠ op_key op) as Hk. { intros E. pose proof (op_key_in o) as Hi. rewrite E in Hi. by apply (ops_disjoint ops op o (op_key op)) in Hi; [..|apply op_key_in]. }
    destruct o; cbn [finish_op]; try done; unfold or_insert; (destruct (r0 !! _); [done|]); by rewrite lookup_insert_ne. }
  assert (∀ r, finish_op r op !! op_key op = match r !! op_key op with Some v => Some v | None => finish_op ∅ op !! op_key op end) as Hself.
  { intros r0. destruct op; cbn [finish_op]; unfold or_insert; rewrite ?lookup_empty; destruct (r0 !! _) eqn:E; rewrite ?lookup_insert_eq; try done. }
  assert (∀ l r, l ⊆ ops → (r !! op_key op ≠ None ∨ op ∉ l) → foldl finish_op r l !! op_key op = r !! op_key op) as Hstay.
  { induction l as [|o l IH]; intros r0 Hl Hr; [done|]. cbn [foldl]. assert (o ∈ ops) as Ho by (apply Hl; by left). assert (l ⊆ ops) as Hl' by (intros x Hx; apply Hl; by right).
    destruct (decide (o = op)) as [->|Hne].
    - destruct Hr as [Hr|Hr]; [|by destruct Hr; left]. assert (finish_op r0 op !! op_key op = r0 !! op_key op) as Es by (rewrite Hself; by destruct (r0 !! _)). rewrite IH; rewrite ?Es; [done|done|by left].
    - rewrite IH; rewrite ?(Hother r0 o Ho Hne); [done|done|]. destruct Hr as [Hr|Hr]; [by left|right]. intros Hin. apply Hr. by right. }
  destruct (list_elem_of_split ops op Hop) as (l1 & l2 & E).
  assert (op ∉ l1 ++ l2) as Hnot. { intros Hin. pose proof Hok as Hok'. rewrite E in Hok'. apply (ops_ok_split l1 op l2 op Hok' Hin (op_key op)); apply op_key_in. }
  apply not_elem_of_app in Hnot as [Hn1 Hn2].
  assert (l1 ⊆ ops ∧ l2 ⊆ ops) as [Hs1 Hs2] by (rewrite E; split; intros x Hx; apply elem_of_app; [by left|right; by right]).
  rewrite E at 1. rewrite foldl_app. cbn [foldl]. rewrite Hstay by (done || by right). rewrite Hself, Hstay by (done || by right). done.
Qed.
End Finish.

(** ** The reference *)

Definition agg_ref (op : AggregateOp) (xs : list Z) : option Z :=
  match op with
  | ACount | ASum _ => Some (sum_of xs)
  | AAvg _ => Some (average (sum_of xs) (sum_of ((λ _, f64_one) <$> xs)))
  | AMin _ => best_of f64_min xs
  | AMax _ => best_of f64_max xs
  end.
Section Reference.
Context `{HashIterLaws} {D : Type} (num : AggregateOp → D → option Z) (ops : list AggregateOp) (Hok : ops_ok ops) (docs : list D).
Definition accumulated : Results := foldl (λ r d, foldl (λ r op, apply_number op r (num op d)) r ops) ∅ docs.
Lemma agg_number_raw op x r k : k ∉ raw_keys op → agg_number op x r !! k = r !! k.
Proof.
  destruct op; cbn [raw_keys agg_number]; rewrite ?not_elem_of_cons; intros Hk; rewrite ?add_to_lookup, ?pick_into_lookup; repeat rewrite bool_decide_false by naive_solver; done.
Qed.
Lemma accumulated_raw k : is_Some (accumulated !! k) → ∃ op, op ∈ ops ∧ k ∈ raw_keys op.
Proof.
  unfold accumulated. assert (∀ r, (is_Some (r !! k) → ∃ op, op ∈ ops ∧ k ∈ raw_keys op) →
    is_Some (foldl (λ r d, foldl (λ r op, apply_number op r (num op d)) r ops) r docs !! k) → ∃ op, op ∈ ops ∧ k ∈ raw_keys op) as Hgen.
  { induction docs as [|d l IH]; intros r Hr; [done|]. cbn [foldl]. apply IH. clear IH.
    assert (∀ l', l' ⊆ ops → ∀ r, (is_Some (r !! k) → ∃ op, op ∈ ops ∧ k ∈ raw_keys op) →
      is_Some (foldl (λ r op, apply_number op r (num op d)) r l' !! k) → ∃ op, op ∈ ops ∧ k ∈ raw_keys op) as Hin; [|by apply Hin].
    induction l' as [|o l' IH]; intros Hl r0 Hr0; [done|]. cbn [foldl]. apply IH; [intros x Hx; apply Hl; by right|]. destruct (num o d) as [x|]; [|done]. cbn [apply_number].
    destruct (decide (k ∈ raw_keys o)) as [Hk|Hk]; [intros _; exists o; split; [apply Hl; by left|done]|]. by rewrite agg_number_raw. }
  apply Hgen. rewrite lookup_empty. by intros [? ?].
Qed.
Lemma accumulated_alone op : op ∈ ops → agree op accumulated (alone op (omap (num op) docs)).
Proof using Hok. intros Hop. by apply ops_run. Qed.

Abbreviation K := (hash_iter accumulated).*1.
Lemma key_taken k : k ∈ K ↔ is_Some (accumulated !! k).
Proof using H0.
  rewrite list_elem_of_fmap. split.
  - intros ([k' v] & -> & Hin%hash_iter_lookup). by exists v.
  - intros [v Hv]. exists (k, v). split; [done|]. by apply hash_iter_lookup.
Qed.
Lemma tmp_taken f : tmp_key f ∈ K → AAvg f ∈ ops.
Proof using H0. intros (op & Hop & Hk)%key_taken%accumulated_raw. by rewrite <-(tmp_raw f op Hk). Qed.
Lemma accumulated_avg f :
  AAvg f ∈ ops → let xs := omap (num (AAvg f)) docs in
  accumulated !! tmp_key f = nonempty_sum xs ∧ accumulated !! cnt_key f = nonempty_sum ((λ _, f64_one) <$> xs) ∧ accumulated !! op_key (AAvg f) = None.
Proof using Hok.
  intros Hop xs. pose proof (accumulated_alone _ Hop) as Ha. unfold agree in Ha. rewrite !Ha by (cbn [op_keys]; repeat constructor). unfold alone. fold xs.
  destruct (alone_avg f xs ∅) as (H1 & H2 & ->). destruct xs as [|x xs]; [by rewrite H1|]. destruct H2 as [-> ->]; [done|]. done.
Qed.
(** Each aggregate of a row sweep is the reference over the numbers the rows have,
    and the answer has no other entries. *)
Lemma finish_exact op : op ∈ ops → finish_results ops accumulated !! op_key op = agg_ref op (omap (num op) docs).
Proof using Hok H0.
  intros Hop. unfold finish_results. rewrite (defaults ops Hok op Hop). set (xs := omap (num op) docs).
  assert ((∀ f, op = AAvg f → tmp_key f ∉ K) → foldl finish_average accumulated K !! op_key op = accumulated !! op_key op) as Hnot.
  { intros Hne. apply (averages_others ops Hok op Hop); [|apply op_key_in]. intros g Hg. split; [by apply tmp_taken|]. intros E. by apply (Hne g). }
  pose proof (accumulated_alone op Hop (op_key op) (op_key_in op)) as Ha. fold xs in Ha. pose proof (alone_sum op xs) as Hs. pose proof (alone_pick op xs) as Hp.
  destruct op as [|f|f|f|f]; cbn [agg_ref finish_op] in *; try (rewrite Hnot, Ha, Hp by done; by destruct xs);
    try (rewrite Hnot, Ha, Hs by done; unfold or_insert; rewrite lookup_empty; destruct xs; [by rewrite lookup_insert_eq|done]).
  clear Ha Hs Hp. destruct (accumulated_avg f Hop) as (Et & Ec & Ea). fold xs in Et, Ec. destruct (decide (tmp_key f ∈ K)) as [Hin|Hnin].
  - rewrite (averages_own ops Hok (AAvg f) Hop f) by (done || apply hash_iter_keys || apply tmp_taken). rewrite Et, Ec.
    apply key_taken in Hin as [v Hv]. rewrite Et in Hv. by destruct xs.
  - rewrite Hnot, Ea by (by intros ? [= ->]). unfold or_insert. rewrite lookup_empty, lookup_insert_eq.
    assert (xs = []) as ->; [|done]. destruct xs as [|x xs']; [done|]. destruct Hnin. apply key_taken. rewrite Et. by eexists.
Qed.
Lemma finish_only k : is_Some (finish_results ops accumulated !! k) → ∃ op, op ∈ ops ∧ k = op_key op.
Proof using Hok H0.
  unfold finish_results. assert (∀ l r, l ⊆ ops → (is_Some (r !! k) → ∃ op, op ∈ ops ∧ k = op_key op) → is_Some (foldl finish_op r l !! k) → ∃ op, op ∈ ops ∧ k = op_key op) as Hd.
  { induction l as [|o l IH]; intros r Hl Hr; [done|]. cbn [foldl]. apply IH; [intros x Hx; apply Hl; by right|].
    assert (is_Some (finish_op r o !! k) → k = op_key o ∨ is_Some (r !! k)) as Ho.
    { intros Hs. destruct (decide (k = op_key o)) as [|Hne]; [by left|right]. destruct o; cbn [finish_op] in Hs; try done; unfold or_insert in Hs;
        (destruct (r !! op_key _); [done|]); by rewrite lookup_insert_ne in Hs. }
    intros [->|Hs]%Ho; [|by apply Hr]. exists o. split; [apply Hl; by left|done]. }
  apply Hd; [done|]. clear Hd. intros Hk. destruct (decide (k ∈ mjoin (op_keys <$> ops))) as [Hin|Hnone].
  - apply list_elem_of_join in Hin as (l & Hin & (op & -> & Hop)%list_elem_of_fmap). destruct (decide (k = op_key op)) as [->|Hne]; [by exists op|]. exfalso.
    destruct op as [|f|f|f|f]; cbn [op_keys] in Hin; try (by apply list_elem_of_singleton in Hin).
    assert (k ∈ raw_keys (AAvg f)) as Hraw by (cbn [raw_keys]; set_solver). destruct (accumulated_avg f Hop) as (Et & Ec & _).
    destruct (decide (tmp_key f ∈ K)) as [Ht|Ht].
    { rewrite (averages_gone ops Hok (AAvg f) Hop f) in Hk by (done || apply hash_iter_keys || apply tmp_taken). by destruct Hk. }
    rewrite (averages_others ops Hok (AAvg f) Hop) in Hk; [|intros g Hg; split; [by apply tmp_taken|by intros [= ->]]|done].
    rewrite key_taken, Et in Ht. cbn [raw_keys] in Hraw. apply elem_of_cons in Hraw as [->|Hraw%list_elem_of_singleton]; [by rewrite Et in Hk|].
    subst k. rewrite Ec in Hk. destruct (omap _ docs); [by destruct Hk|]. destruct Ht. by eexists.
  - assert (∀ l r, l ⊆ K → foldl finish_average r l !! k = r !! k) as Hf.
    { induction l as [|k' l IH]; intros r Hl; [done|]. cbn [foldl]. rewrite IH by (intros x Hx; apply Hl; by right). apply finish_average_other. intros f -> Hkf.
      apply Hnone, list_elem_of_join. exists (op_keys (AAvg f)). split; [done|]. apply list_elem_of_fmap_2, tmp_taken, Hl. by left. }
    rewrite Hf in Hk by done. apply accumulated_raw in Hk as (op & Hop & Hraw). destruct Hnone. apply list_elem_of_join. exists (op_keys op). split; [|by apply list_elem_of_fmap_2].
    destruct op; cbn [raw_keys op_keys] in *; set_solver.
Qed.
End Reference.

(** ** Reading rows *)

Section Facts.
Context `{Crc} `{Zstd} `{HashIterLaws} {cipher : Type} `{Aead cipher}.
Context (to_lowercase : bytes → bytes).
Abbreviation StorageEngine := (@StorageEngine cipher).
Implicit Types e : StorageEngine.
Abbreviation Row := ExecutorFacts.Row.

Abbreviation hit p := (List.filter (λ r : Row, doc_matches to_lowercase r.1.1 r.2 p)).
Definition no_server_ts (r : Row) : Prop := existsb (λ kv, is_server_ts kv.2) (fields r.2) = false.
Lemma process_task_run p ops rows partial e :
  store_ok e → Forall (row_holds e) rows → Forall no_server_ts rows → 
  ∃ c, process_task to_lowercase p ops rows.*1 partial e
       = (e_with_cache c e, Ok (foldl (λ r row, foldl (agg_op (row_view row)) r ops) partial (hit p rows))) ∧ store_ok (e_with_cache c e).
Proof.
  revert partial e; induction rows as [|[[id ptr] d] rows IH]; intros partial e He Hr Ht.
  { exists (cache e). by rewrite cache_self. }
  apply Forall_cons in Hr as [Hrow Hr]. apply Forall_cons in Ht as [Hts Ht]. destruct (read_row e _ He Hrow) as (c & Hread & Hc). rewrite fmap_cons.
  cbn [fst snd process_task List.filter] in *. rewrite Hread. destruct Hrow as (_ & _ & Hd & Hs). cbn [fst snd] in *.
  rewrite (filters_view_encoded to_lowercase id d p Hd Hs Hts), view_new_encode by done. apply (rows_hold_cache c) in Hr.
  change (mkView (encode d) (zlen (fields d)) (_time d)) with (row_view (id, ptr, d)). destruct (doc_matches to_lowercase id d p).
  - destruct (IH (foldl (agg_op (row_view (id, ptr, d))) partial ops) (e_with_cache c e) Hc Hr Ht) as (c' & E & Hc'). exists c'. rewrite E. by split.
  - destruct (IH partial (e_with_cache c e) Hc Hr Ht) as (c' & E & Hc'). exists c'. rewrite E. by split.
Qed.

(** The number a document has in a field. *)
Definition value_number (v : Value) : option Z := match v with Int n => Some (i64_to_f64 n) | Float x => Some x | _ => None end.
Definition number_in (d : HakoDoc) (f : bytes) : option Z := assoc f (fields d) ≫= value_number.
Lemma span_number v tag data : encodable v = true → encode_value v = tag :: data → span_as_f64 tag data = value_number v.
Proof.
  intros Hv E. destruct v; cbn [encode_value] in E; try (apply cons_inv in E as [<- _]; reflexivity).
  - destruct b; by apply cons_inv in E as [<- _].
  - cbn [encodable] in Hv. unfold i64b in Hv. bool_simpl. split_if in E; apply cons_inv in E as [<- <-].
    + destruct (small_int_tag n ltac:(lia)) as (_ & Et & Ev). unfold span_as_f64. by rewrite Et, Ev.
    + unfold span_as_f64. cbn [tag_is_small_int Z.land Z.eqb]. destruct (decode_varint_body n) as [q Eq]; [unfold is_i64; lia|].
      change (tag_is_small_int 3) with false. cbn [Z.eqb Pos.eqb]. rewrite Eq. opt_simpl. by rewrite zigzag_decode_encode by (unfold is_i64; lia).
  - cbn [encodable] in Hv. unfold u64b in Hv. bool_simpl. apply cons_inv in E as [<- <-]. unfold span_as_f64. change (tag_is_small_int 4) with false. cbn [Z.eqb Pos.eqb].
    rewrite <-(app_nil_r (to_le 4 8 ++ _)), <-app_assoc. rewrite get_range_mid by zlen. opt_simpl. by rewrite of_le_to_le_u64 by (unfold is_u64; lia).
  - split_if in E; apply cons_inv in E as [<- <-]; [|reflexivity]. pose proof (zlen_nonneg s). destruct (small_str_tag (zlen s) ltac:(lia)) as (_ & Ei & Es & _).
    unfold span_as_f64. rewrite Ei. destruct (Z.eqb_spec (Z.lor 0x40 (as_u8 (zlen s))) 3) as [E3|_]; [by rewrite E3 in Es|].
    destruct (Z.eqb_spec (Z.lor 0x40 (as_u8 (zlen s))) 4) as [E4|_]; [by rewrite E4 in Es|]. done.
Qed.
Lemma view_number_doc r f : doc_encodable r.2 = true → view_number (row_view r) f = number_in r.2 f.
Proof.
  intros Hd. unfold view_number, view_iter, row_view. cbn [v_bytes v_count v_time].
  replace (Z.to_nat (zlen (fields r.2))) with (length (fields r.2)) by (unfold zlen; lia). rewrite iter_all_encode by done. cbn [fst].
  apply doc_encodable_inv in Hd as (_ & _ & Hok). unfold number_in. induction (fields r.2) as [|[k v] fs IH]; [done|]. cbn [forallb fst snd assoc] in *.
  apply andb_true_iff in Hok as [[_ Hv]%andb_true_iff Hok]. destruct (encode_value_framed v Hv) as (tag & data & E & _).
  rewrite fmap_cons, (entry_item_eq _ _ _ _ E). cbn [List.find]. destruct (bytes_eqb k f); [|by apply IH]. by apply span_number.
Qed.

(** ** Counts *)

Definition count_map (n : Z) : Results := if n =? 0 then ∅ else {[op_key ACount := u64_to_f64 n]}.
Lemma count_map_lookup n : count_map n !! op_key ACount = if n =? 0 then None else Some (u64_to_f64 n).
Proof. unfold count_map. destruct (n =? 0); [apply lookup_empty|apply lookup_insert_eq]. Qed.
Lemma count_map_add a b : 0 <= a → 0 < b → a + b <= 2 ^ 53 → add_to (op_key ACount) (u64_to_f64 b) (count_map a) = count_map (a + b).
Proof.
  intros Ha Hb Hab. unfold add_to. rewrite count_map_lookup. unfold count_map. rewrite (proj2 (Z.eqb_neq (a + b) 0)) by lia.
  assert (f64_add (default 0 (if a =? 0 then None else Some (u64_to_f64 a))) (u64_to_f64 b) = u64_to_f64 (a + b)) as ->.
  { rewrite <-f64_add_counts by lia. f_equal. destruct (Z.eqb_spec a 0) as [->|]; done. }
  destruct (a =? 0); [done|]. by rewrite insert_singleton_eq.
Qed.
Lemma count_rows_run rows a :
  0 <= a → a + zlen rows <= 2 ^ 53 → foldl (λ r row, foldl (agg_op (row_view row)) r [ACount]) (count_map a) rows = count_map (a + zlen rows).
Proof.
  revert a; induction rows as [|row rows IH]; intros a Ha Hn; [by rewrite Z.add_0_r|]. rewrite zlen_cons in *. pose proof (zlen_nonneg rows). cbn [foldl].
  change (agg_op (row_view row) (count_map a) ACount) with (add_to (op_key ACount) (u64_to_f64 1) (count_map a)). rewrite count_map_add, IH by lia. f_equal. lia.
Qed.
Lemma hash_iter_count n : hash_iter (count_map n) = if n =? 0 then [] else [(op_key ACount, u64_to_f64 n)].
Proof using H2.
  pose proof (hash_iter_perm (count_map n)) as Hp. unfold count_map in *. destruct (n =? 0).
  - rewrite map_to_list_empty in Hp. by apply Permutation_nil_r in Hp.
  - rewrite map_to_list_singleton in Hp. by apply Permutation_singleton_r in Hp.
Qed.
Lemma merge_counts a ns :
  0 <= a → Forall (λ n, 0 <= n) ns → a + foldr Z.add 0 ns <= 2 ^ 53 →
  foldl (λ final partial, foldl merge_entry final (hash_iter partial)) (count_map a) (count_map <$> ns) = count_map (a + foldr Z.add 0 ns).
Proof using H2.
  intros Ha Hns. revert a Ha; induction Hns as [|n ns Hn Hns IH]; intros a Ha Hle; [by rewrite Z.add_0_r|]. cbn [foldr] in *.
  assert (0 <= foldr Z.add 0 ns) by (clear -Hns; induction Hns; cbn; lia). rewrite fmap_cons. cbn [foldl]. rewrite hash_iter_count.
  destruct (Z.eqb_spec n 0) as [->|Hne]; cbn [foldl]; [by rewrite IH by lia|].
  change (merge_entry (count_map a) (op_key ACount, u64_to_f64 n)) with (add_to (op_key ACount) (u64_to_f64 n) (count_map a)).
  rewrite count_map_add, IH by lia. f_equal. lia.
Qed.
Lemma finish_count n : finish_results [ACount] (count_map n) = {[op_key ACount := u64_to_f64 n]}.
Proof using H2.
  unfold finish_results. rewrite hash_iter_count. unfold count_map. destruct (Z.eqb_spec n 0) as [->|Hne]; [done|]. cbn [fmap list_fmap foldl fst].
  change (finish_average {[op_key ACount := u64_to_f64 n]} (op_key ACount)) with ({[op_key ACount := u64_to_f64 n]} : Results).
  cbn [finish_op]. unfold or_insert. by rewrite lookup_singleton_eq.
Qed.
Lemma sum_perm ns ns' : ns ≡ₚ ns' → foldr Z.add 0 ns = foldr Z.add 0 ns'.
Proof. induction 1; cbn; lia. Qed.
Lemma run_counts p tasks e :
  store_ok e → Forall (row_holds e) (concat tasks) → Forall no_server_ts (concat tasks) → zlen (concat tasks) <= 2 ^ 53 →
  ∃ c, run_aggregates to_lowercase p [ACount] ((λ t : list Row, t.*1) <$> tasks) e
       = (e_with_cache c e, Ok (count_map <$> ((λ t, zlen (hit p t)) <$> tasks))) ∧ store_ok (e_with_cache c e).
Proof using Type.
  revert e; induction tasks as [|t tasks IH]; intros e He Hr Ht Hn; [exists (cache e); by rewrite cache_self|].
  cbn [concat] in *. rewrite zlen_app in Hn. apply Forall_app in Hr as [Hr1 Hr]. apply Forall_app in Ht as [Ht1 Ht]. pose proof (zlen_nonneg t).
  pose proof (zlen_nonneg (concat tasks)). destruct (process_task_run p [ACount] t ∅ e He Hr1 Ht1) as (c & Hrun & Hc).
  destruct (IH (e_with_cache c e) Hc) as (c' & Hrun' & Hc'); [by apply rows_hold_cache|done|lia|]. exists c'. rewrite !fmap_cons. cbn [run_aggregates]. rewrite Hrun, Hrun'.
  split; [|done]. change (∅ : Results) with (count_map 0). assert (zlen (hit p t) <= zlen t) by (unfold zlen; pose proof (filter_length_le (λ r : Row, doc_matches to_lowercase r.1.1 r.2 p) t); lia).
  rewrite count_rows_run by lia. done.
Qed.
Lemma hit_tasks p tasks : foldr Z.add 0 ((λ t, zlen (hit p t)) <$> tasks) = zlen (hit p (concat tasks)).
Proof. induction tasks as [|t tasks IH]; [done|]. rewrite fmap_cons. cbn [foldr concat]. by rewrite IH, List.filter_app, zlen_app. Qed.
Lemma aggregate_rows_count arrival workers p rows e :
  store_ok e → Forall (row_holds e) rows → Forall no_server_ts rows → zlen rows <= 2 ^ 53 → (∀ l, arrival l ≡ₚ l) →
  ∃ c, aggregate_rows to_lowercase arrival workers p [ACount] rows.*1 e = (e_with_cache c e, Ok (count_map (zlen (hit p rows)))) ∧ store_ok (e_with_cache c e).
Proof using H2.
  intros He Hr Ht Hn Harr. assert (zlen (hit p rows) <= zlen rows) by (unfold zlen; pose proof (filter_length_le (λ r : Row, doc_matches to_lowercase r.1.1 r.2 p) rows); lia).
  unfold aggregate_rows. split_if.
  - destruct (process_task_run p [ACount] rows ∅ e He Hr Ht) as (c & Hrun & Hc). exists c. rewrite Hrun. split; [|done].
    change (∅ : Results) with (count_map 0). by rewrite count_rows_run by lia.
  - rewrite shard_tasks_map. set (w := Nat.min _ _). destruct (shard_tasks_spec rows w) as [Hcat _].
    destruct (run_counts p (shard_tasks rows w) e He) as (c & Hrun & Hc); rewrite ?Hcat; [done|done|done|]. exists c. split; [|done].
    rewrite (bind_ok _ _ _ _ _ Hrun). unfold mret, SR_ret. do 2 f_equal.
    set (ns := (λ t, zlen (hit p t)) <$> shard_tasks rows w). assert (foldr Z.add 0 ns = zlen (hit p rows)) as Hsum by (unfold ns; by rewrite hit_tasks, Hcat).
    destruct (Permutation_map_inv count_map ns (Harr (count_map <$> ns))) as (ns' & E & Hp). change (map count_map ns') with (count_map <$> ns') in E.
    etransitivity; [exact (f_equal merge_results E)|]. unfold merge_results. change (∅ : Results) with (count_map 0). rewrite (sum_perm _ _ Hp) in Hsum. rewrite merge_counts; [by rewrite Hsum|lia| |lia].
    rewrite <-Hp. unfold ns. apply Forall_fmap, Forall_forall. intros t _. apply zlen_nonneg.
Qed.

(** ** Whole aggregations *)

Context (is_alphanumeric : bytes → bool) (arrival : list Results → list Results).
Context (knn : StorageEngine → IndexManager → bytes → bytes → bytes → Metric → list Filter → option nat → list (bytes * Pointer)).
Abbreviation aggregation := (execute_aggregation to_lowercase is_alphanumeric arrival knn).
Abbreviation all_rows e docs := (rows_of e docs (hash_iter (index (idx e))).*1).
Definition op_num (op : AggregateOp) (d : HakoDoc) : option Z :=
  match op with
  | ACount => Some f64_one
  | ASum f | AAvg f | AMin f | AMax f => number_in d f
  end.
Definition no_timestamps (docs : gmap bytes HakoDoc) : Prop := ∀ id d, docs !! id = Some d → existsb (λ kv, is_server_ts kv.2) (fields d) = false.

Lemma length_all_rows e docs : (length (all_rows e docs) <= size (index (idx e)))%nat.
Proof using H2.
  assert (length (hash_iter (index (idx e))).*1 = size (index (idx e))) as <- by (rewrite length_fmap, (hash_iter_perm (index (idx e))); apply length_map_to_list).
  unfold rows_of. induction (hash_iter (index (idx e))).*1 as [|id l IH]; [done|]. cbn [omap list_omap]. destruct (index (idx e) !! id ≫= _); cbn [length]; lia.
Qed.
Lemma all_rows_ts e docs : no_timestamps docs → Forall no_server_ts (all_rows e docs).
Proof using Type. intros Hts. apply Forall_forall. intros [[id ptr] d] (_ & _ & Hd)%elem_of_rows_of. exact (Hts id d Hd). Qed.
(** The documents a plan finds, in the order of the scan. *)
Definition found p e docs : list (bytes * HakoDoc) := (λ r : Row, (r.1.1, r.2)) <$> hit p (all_rows e docs).
Lemma found_spec p e docs :
  store_ok e → holds_docs e docs →
  NoDup (found p e docs).*1 ∧ ∀ id d, (id, d) ∈ found p e docs ↔ docs !! id = Some d ∧ doc_matches to_lowercase id d p = true.
Proof using H2.
  intros He Hdocs. split.
  - pose proof (rows_of_ids e docs _ (hash_iter_keys (index (idx e)))) as Hnd.
    assert (rid <$> numbered 0 (all_rows e docs) = (λ r : Row, r.1.1) <$> all_rows e docs) as E by (rewrite <-(numbered_snd 0 (all_rows e docs)) at 2; by rewrite <-list_fmap_compose).
    rewrite E in Hnd. clear E. unfold found. rewrite <-list_fmap_compose. induction (all_rows e docs) as [|r rows IH]; [constructor|].
    rewrite fmap_cons in Hnd. apply NoDup_cons in Hnd as [Hid Hnd]. cbn [List.filter]. destruct (doc_matches _ _ _ _); [|by apply IH]. rewrite fmap_cons. constructor; [|by apply IH].
    intros (r' & E & Hin)%list_elem_of_fmap. apply list_elem_of_In, filter_In in Hin as [Hin%list_elem_of_In _]. apply Hid, list_elem_of_fmap. by exists r'.
  - intros id d. unfold found. rewrite list_elem_of_fmap. split.
    + intros ([[id' ptr] d'] & [= -> ->] & Hin). apply list_elem_of_In, filter_In in Hin as [Hin%list_elem_of_In Hm]. by apply elem_of_rows_of in Hin as (_ & _ & Hd).
    + intros [Hd Hm]. destruct (doc_live e docs Hdocs id d Hd) as (ptr & Hi & _). exists (id, ptr, d). split; [done|]. apply list_elem_of_In, filter_In. split; [|done].
      apply list_elem_of_In, elem_of_rows_of. split_and!; [by apply (elem_of_all e docs Hdocs id d)|done|done].
Qed.
Lemma scan_rows m p e docs :
  store_ok e → holds_docs e docs → scan p = FullCollection → scan_limit p = None →
  execute_single_scan to_lowercase is_alphanumeric knn e m (scan p) (p_collection p) (scan_limit p) None = Ok (all_rows e docs).*1.
Proof using H2. intros He Hdocs -> ->. cbn [execute_single_scan]. by rewrite (scan_full_rows e docs He Hdocs). Qed.
Lemma agg_op_row r res op : doc_encodable r.2 = true → agg_op (row_view r) res op = apply_number op res (op_num op r.2).
Proof using Type. intros Hd. unfold agg_op. destruct op; cbn [op_number op_num]; [done|..]; by rewrite view_number_doc. Qed.
Lemma accumulated_rows e ops rows res :
  Forall (row_holds e) rows →
  foldl (λ r row, foldl (agg_op (row_view row)) r ops) res rows = foldl (λ r d, foldl (λ r op, apply_number op r (op_num op d)) r ops) res ((λ r : Row, r.2) <$> rows).
Proof using Type.
  intros Hr. revert res; induction Hr as [|r rows (_ & _ & Hd & _) Hr IH]; intros res; [done|]. rewrite fmap_cons. cbn [foldl]. rewrite <-IH. f_equal.
  clear IH. revert res; induction ops as [|op ops IH]; intros res; [done|]. cbn [foldl]. by rewrite agg_op_row, IH.
Qed.
Lemma sweep_aggregates workers m p ops docs e :
  store_ok e → holds_docs e docs → no_timestamps docs → scan p = FullCollection → scan_limit p = None → index_only e m p ops = None → ops_ok ops →
  (workers <= 1)%nat ∨ (size (index (idx e)) < 1000)%nat →
  ∃ c r, aggregation workers m p ops e = (e_with_cache c e, Ok r) ∧
    (∀ op, op ∈ ops → r !! op_key op = agg_ref op (omap (op_num op) (found p e docs).*2)) ∧ ∀ k, is_Some (r !! k) → ∃ op, op ∈ ops ∧ k = op_key op.
Proof using H2.
  intros He Hdocs Hts Hs Hl Hi Hok Hseq. unfold execute_aggregation. rewrite (bind_ok get_st _ _ _ _ eq_refl), Hi, (scan_rows m p e docs) by done.
  rewrite (bind_ok (lift (Ok _)) _ _ _ _ eq_refl). pose proof (length_all_rows e docs) as Hlen. pose proof (rows_of_hold e docs He Hdocs (hash_iter (index (idx e))).*1) as Hhold.
  destruct (process_task_run p ops (all_rows e docs) ∅ e He Hhold (all_rows_ts e docs Hts)) as (c & Hrun & _).
  assert (aggregate_rows to_lowercase arrival workers p ops (all_rows e docs).*1 e = process_task to_lowercase p ops (all_rows e docs).*1 ∅ e) as Eseq.
  { unfold aggregate_rows. rewrite length_fmap. destruct (Nat.ltb_spec (length (all_rows e docs)) 1000); [done|]. destruct (Nat.leb_spec workers 1); [done|]. lia. }
  rewrite <-Eseq in Hrun. rewrite (bind_ok _ _ _ _ _ Hrun). eexists c, _. split; [done|].
  rewrite (accumulated_rows e) by (apply Forall_forall; intros r Hin; apply list_elem_of_In, filter_In in Hin as [Hin%list_elem_of_In _]; by apply (proj1 (Forall_forall _ _) Hhold)).
  replace ((λ r : Row, r.2) <$> hit p (all_rows e docs)) with (found p e docs).*2 by (unfold found; by rewrite <-list_fmap_compose).
  fold (accumulated op_num ops (found p e docs).*2). split; [intros op Hop; by apply finish_exact|by apply finish_only].
Qed.

(** Counts: through an index, and by a sweep with any number of threads. *)
Lemma sweep_count workers m p docs e :
  store_ok e → holds_docs e docs → no_timestamps docs → scan p = FullCollection → scan_limit p = None → index_only e m p [ACount] = None →
  Z.of_nat (size (index (idx e))) <= 2 ^ 53 → (∀ l, arrival l ≡ₚ l) →
  ∃ c, aggregation workers m p [ACount] e = (e_with_cache c e, Ok {[op_key ACount := u64_to_f64 (zlen (found p e docs))]}).
Proof using H2.
  intros He Hdocs Hts Hs Hl Hi Hn Harr. unfold execute_aggregation. rewrite (bind_ok get_st _ _ _ _ eq_refl), Hi, (scan_rows m p e docs) by done.
  rewrite (bind_ok (lift (Ok _)) _ _ _ _ eq_refl). pose proof (length_all_rows e docs) as Hlen.
  destruct (aggregate_rows_count arrival workers p (all_rows e docs) e) as (c & Hrun & _); [done|by apply rows_of_hold|by apply all_rows_ts|unfold zlen; lia|done|].
  exists c. rewrite (bind_ok _ _ _ _ _ Hrun), finish_count. unfold found. unfold zlen at 2. by rewrite length_fmap.
Qed.
Lemma index_count m c field s docs e i :
  store_ok e → holds_docs e docs → bf_get (secondary m) c field = Some i → sec_exact field i docs →
  virtual_field field = false → plain_name field = true → ambiguous_value (String s) = false → parse_bool_like s = None → zlen s < 2 ^ 32 →
  let p := make_plan (where_eq (query_new c) field (String s)) FullCollection None false false in
  index_only e m p [ACount] = Some {[op_key ACount := u64_to_f64 (zlen (found p e docs))]}.
Proof using H2.
  intros He Hdocs Hi [Hok Hrow] Hv Hpl Ha Hb Hl p. destruct (found_spec p e docs He Hdocs) as [Hnd Hf].
  set (ids := list_to_set (sec_range_scan i (encode_scalar (String s)) (encode_scalar (String s))) : gset bytes).
  assert (filter_ids m c [mkFilter field OpEq (String s)] None = Some (Some ids)) as Hids.
  { cbn [filter_ids f_op f_field f_value]. rewrite bool_decide_true by done. unfold lookup_secondary. by rewrite Hi. }
  assert (index_only e m p [ACount] = Some {[op_key ACount := u64_to_f64 (Z.of_nat (size ids))]}) as ->.
  { unfold index_only, p. change (p_filters _) with [mkFilter field OpEq (String s)]. change (p_collection _) with c. rewrite Hids. done. }
  assert (∀ id d, doc_matches to_lowercase id d p = and_holds to_lowercase id d (mkFilter field OpEq (String s))) as Hmatch.
  { intros id d. unfold doc_matches, p. cbn. by rewrite !andb_true_r. }
  assert (ids = list_to_set (found p e docs).*1) as ->.
  { apply set_eq. intros id. unfold ids. rewrite !elem_of_list_to_set, sec_range_scan_spec by done. rewrite list_elem_of_fmap. split.
    - intros (k & Hr & H4 & H5). assert (k = encode_scalar (String s)) as -> by (symmetry; by apply leb_antisym). apply Hrow in Hr as (d & Hd & Hk). exists (id, d). split; [done|]. apply Hf. split; [done|].
      rewrite Hmatch. destruct (proj2 Hdocs id d Hd) as [Hde Hds]. by apply (string_key_matches to_lowercase field s Ha id d).
    - intros ([id' d] & -> & [Hd Hm]%Hf). exists (encode_scalar (String s)). rewrite leb_refl. split_and!; [|done|done]. apply Hrow. exists d. split; [done|].
      rewrite Hmatch in Hm. destruct (proj2 Hdocs id' d Hd) as [Hde Hds]. by apply (string_key_matches to_lowercase field s Ha id' d). }
  rewrite size_list_to_set by done. unfold zlen. by rewrite length_fmap.
Qed.

(** the count of the documents with a string in an indexed field, taken from the index alone
    and taken by reading every row, with any number of threads whose results arrive in
    any order, is the number of documents that match. *)
Theorem count_exact m c field s workers docs e :
  store_ok e → holds_docs e docs → no_timestamps docs → exact to_lowercase is_alphanumeric m c docs → has_secondary m c field = true →
  virtual_field field = false → plain_name field = true → ambiguous_value (String s) = false → parse_bool_like s = None → zlen s < 2 ^ 32 →
  Z.of_nat (size (index (idx e))) <= 2 ^ 53 → (∀ l, arrival l ≡ₚ l) →
  let p := make_plan (where_eq (query_new c) field (String s)) FullCollection None false false in
  ∃ ids c', NoDup ids ∧ (∀ id, id ∈ ids ↔ ∃ d, docs !! id = Some d ∧ and_holds to_lowercase id d (mkFilter field OpEq (String s)) = true) ∧
    let answer := Ok {[op_key ACount := u64_to_f64 (zlen ids)]} in
    aggregation workers m p [ACount] e = (e, answer) ∧ aggregation workers im_empty p [ACount] e = (e_with_cache c' e, answer).
Proof using H2.
  intros He Hdocs Hts [Hex _] Hsec Hv Hpl Ha Hb Hl Hn Harr p. pose proof Hsec as [i Hi]%bool_decide_eq_true. pose proof (Hex field i Hi Hv) as Hi'.
  destruct (found_spec p e docs He Hdocs) as [Hnd Hf]. destruct (sweep_count workers im_empty p docs e He Hdocs Hts eq_refl eq_refl eq_refl Hn Harr) as (c' & E).
  exists (found p e docs).*1, c'. split; [done|]. split.
  - intros id. rewrite list_elem_of_fmap. assert (∀ d, doc_matches to_lowercase id d p = and_holds to_lowercase id d (mkFilter field OpEq (String s))) as Hmatch
      by (intros d; unfold doc_matches, p; cbn; by rewrite !andb_true_r). setoid_rewrite <-Hmatch. split; [intros ([id' d] & -> & Hin%Hf); by exists d|].
    intros (d & Hd). exists (id, d). split; [done|]. by apply Hf.
  - unfold zlen. rewrite length_fmap. split; [|exact E]. unfold execute_aggregation. rewrite (bind_ok get_st _ _ _ _ eq_refl).
    pose proof (index_count m c field s docs e i He Hdocs Hi Hi' Hv Hpl Ha Hb Hl) as Hc. cbv zeta in Hc. fold p in Hc. by rewrite Hc.
Qed.

End Facts.

(** ** On concrete collections *)

Lemma people_no_timestamps : no_timestamps people_map.
Proof. intros id d Hd. destruct (people_person id d Hd) as (age & city & ->). reflexivity. Qed.
Lemma count_exact_witness :
  ∃ (ids : list bytes) c',
    let p := make_plan (where_eq (query_new b#("people")) b#("city") (String b#("oslo"))) FullCollection None false false in
    execute_aggregation id (λ _, true) (@rev Results) no_knn 2 city_index p [ACount] people_engine = (people_engine, Ok {[op_key ACount := u64_to_f64 (zlen ids)]}) ∧
    execute_aggregation id (λ _, true) (@rev Results) no_knn 2 im_empty p [ACount] people_engine = (e_with_cache c' people_engine, Ok {[op_key ACount := u64_to_f64 (zlen ids)]}).
Proof.
  destruct people_ok as [He Hdocs].
  destruct (count_exact id (λ _, true) (@rev Results) no_knn city_index b#("people") b#("city") b#("oslo") 2 people_map people_engine He Hdocs people_no_timestamps
    city_index_exact) as (ids & c' & _ & _ & H1 & H2); [reflexivity..| | |].
  - vm_compute. discriminate.
  - intros l. symmetry. apply Permutation_rev.
  - exists ids, c'. split; [exact H1|exact H2].
Defined.

Definition ages : list AggregateOp := [AAvg b#("age"); AMax b#("age"); ACount].
Definition everyone : QueryPlan := make_plan (query_new b#("people")) FullCollection None false false.

(** An aggregate asked for twice is accumulated twice. *)
Lemma count_twice_doubles :
  (execute_aggregation id (λ _, true) (@rev Results) no_knn 2 im_empty everyone [ACount; ACount] people_engine).2 = Ok {[op_key ACount := u64_to_f64 6]} ∧
  length people = 3%nat.
Proof. split; vm_compute; reflexivity. Qed.

(** The count without filters is the size of the collection, whatever elements the
    query asks for. *)
Definition tagged : QueryPlan :=
  let q := query_new b#("people") in
  plan (mkQuery (q_collection q) [] [] [mkElem b#("tags") [mkFilter b#("k") OpEq (Int 1)]] [] None None [] [ACount] None None None None false false) im_empty 3 2 true false.
Lemma count_ignores_elem_match :
  (execute_aggregation id (λ _, true) (@rev Results) no_knn 2 im_empty tagged [ACount] people_engine).2 = Ok {[op_key ACount := u64_to_f64 3]} ∧
  (execute id (λ _, true) no_knn 2 im_empty tagged people_engine).2 = Ok [].
Proof. split; vm_compute; reflexivity. Qed.

(** A query for the float 41 finds the integer when the index has no entry for it;
    its count, which has no such second look, is zero. *)
Definition age_index : IndexManager :=
  im_index_batch id (λ _, true) (im_clear_collection (create_secondary_index im_empty b#("people") b#("age")) b#("people")) b#("people") people.
Definition aged_41 : QueryPlan := plan (where_eq (query_new b#("people")) b#("age") (Float (i64_to_f64 41))) age_index 200 2 true false.
Lemma count_misses_twin :
  (execute_aggregation id (λ _, true) (@rev Results) no_knn 2 age_index aged_41 [ACount] people_engine).2 = Ok {[op_key ACount := u64_to_f64 0]} ∧
  (execute id (λ _, true) no_knn 2 age_index aged_41 people_engine).2 = Ok [(b#("carol"), person 41 b#("oslo"))].
Proof. split; vm_compute; reflexivity. Qed.
